(* ===== verification/_CoqProject ===== *)
-Q . S2P
Prelude.v
CommandCoordinator.v
CallbackRuntime.v
StreamWrite.v
Float64.v
PositionHistory.v
HalTelemetry.v
NmlStatus.v
NmlCommand.v
NmlAdapter.v
NmlPoll.v
ErrorStream.v
UnaryCalls.v
StatusCodec.v
StatusHistory.v
MachinePoller.v
Workspace.v
Archive.v
RemoteComponent.v
ComponentRpc.v
HalAdapter.v
HalService.v
HalTimer.v
ScopeFrames.v
Scope.v
TelemetryFrames.v
DaemonConfig.v
Paths.v
ServerRuntime.v
WebSocket.v
GCode.v
