(* ===== verification/Prelude.v ===== *)
(** * The LinuxCNC gRPC daemon: a verification development

    The repository is a native server ([src/native/server]) that gives remote
    clients access to a LinuxCNC instance: it executes machine commands over
    NML, streams machine status, errors, positions, HAL values and scope data,
    stores uploaded programs, and hosts remote HAL components.  Its own logic is
    C++; LinuxCNC (with the patches under [src/linuxcnc-patches]), gRPC,
    protobuf and Boost.Beast surround it.

    ** The parts and how they interact

    A client's [ExecuteCommand] is translated and validated
    ([machine/grpc/service.cc], [command_validation.cc]), becomes an action in
    the serialized command coordinator ([command_coordinator.cc]), is written as
    an NML message by the adapter ([nml_adapter.cc]) and is later resolved by
    the completion tracker from polled status snapshots.  Program open
    activates a revision of the workspace store ([program/workspace.cc]) around
    the command; a revision arrives as an archive that the upload service extracts
    into a staging directory ([program/workspace_archive.cc],
    [program/grpc/service.cc]).  The same poller feeds
    the status history, whose samples the status codec ([status_codec.cc])
    turns into snapshots and deltas for [WatchStatus] streams, the position
    history ([position/history.cc]) and the error ring.  HAL values are sampled
    into a subscription store ([hal/value_telemetry.cc]) and streamed by
    WebSocket sessions ([telemetry_websocket_server.cc]), as are the captures of
    the realtime scope ([scope/controller.cc]).  The HAL service
    ([hal/grpc/service_hal.cc]) reads and writes HAL through the HAL adapter
    ([hal/adapter.cc]) on one worker thread, which also hosts the remote components
    and their streams ([hal/grpc/remote_component_rpc.cc]).  All of them share the
    callback runtime ([callback_runtime.cc]): a bounded executor, admission
    counters, subscription hubs, sequenced rings and lifetime gates, and the
    write discipline of streaming reactors ([deferred_write_finish.hpp],
    [component_outbox.hpp]).

    ** The files

    - [Prelude]: machine integers with their wrap-around, the error monad,
      list lemmas, automation, the hint databases [lcnc] and [lcnc_simpl].
    - [CommandCoordinator]: [Ticket] is the shared ticket state ([transition],
      [observe]); [Coordinator] the two bounded queues, submission, the worker
      thread (one step per critical section or context callback) and shutdown.
    - [CallbackRuntime]: [Executor] ([BoundedExecutor], its workers, drainers
      and the one condition variable they share), [Admission]
      ([AdmissionCounter], at the granularity of its atomic operations),
      [Ring] ([SequencedRing]), [Registry] ([ActiveCallbackRegistry] and
      [SubscriptionHub]) and [Gate] ([LifetimeGate], with nested calls).
    - [StreamWrite]: [DeferredFinish] and [Outbox].
    - [Float64]: IEEE binary64, on the Standard Library's [SpecFloat].
    - [PositionHistory]: the bounded, simplifying history and its reader
      protocol, then its telemetry front end.
    - [HalTelemetry]: [Values] is the subscription store, [Session] the stream
      of one WebSocket session and its reader.
    - [NmlStatus]: the native status value types of [nml_adapter.hpp].
    - [NmlCommand]: [Command] the command value, [Validation] the validator,
      [Message] the NML messages and their construction, [Request] the
      translation of requests, [CommandPath] the theorems about the whole path.
    - [NmlAdapter]: [Serial], [Channel] (retry and ownership of NML channels),
      [Tracker] (the completion tracker), [Adapter] (the queued action with its
      hooks, [poll_status]) and [CommandRpc] (statuses and responses).
    - [NmlPoll]: [Read] the copy of LinuxCNC's status structures into the native
      snapshot, [Poll] the calls [poll_status], [poll_position] and [poll_error]
      ([nml_adapter.cc]).
    - [ErrorStream]: the ring of operator messages and the reactors of [WatchErrors]
      ([machine/grpc/service.cc]), with the poller that publishes and wakes.
    - [UnaryCalls]: [Task] any number of unary calls with their work on the bounded
      executor ([grpc/server/unary_task_reactor.hpp]), [Command] the reactor of one
      [ExecuteCommand] call and the ticket it waits for ([machine/grpc/service.cc]).
    - [StatusCodec]: wire messages, [encode_status], [make_status_delta] and the
      reader's [apply_status_delta].
    - [StatusHistory]: the retained samples and the [WatchStatus] reactor,
      developed against the class [StatusDeltas] that the codec implements.
    - [MachinePoller]: [Poller] the thread that polls status, position and errors, its
      timers, the configuration of the position history and [GetStatus]
      ([machine/grpc/service.cc]).
    - [Workspace]: [Store] the uploaded program revisions with their quotas and
      leases ([program/workspace.cc]), [Transaction] the exchange that publishes
      one ([directory_transaction.cc]), [Activation] program open and close
      ([PendingWorkspaceLease] and the callbacks of [ExecuteCommand] in
      [machine/grpc/service.cc]) and the leases of program previews
      ([telemetry_websocket_server.cc]), one step per critical section or callback.
    - [Paths]: [Names] the names a client gives and the identifiers of workspaces,
      [Tree] the kernel's resolution of paths with symbolic links and the checks of
      [pin_entry] ([program/workspace.cc]).
    - [Archive]: [Files] the tree of directories and files that an extraction
      produces, [Extract] the extraction of an archive, its path checks and quotas
      ([program/workspace_archive.cc]), [Upload] the upload call and the rename that
      publishes its result ([program/grpc/service.cc]).
    - [RemoteComponent]: [HalComponent] the component a proxy owns and the slab
      of its items ([hal/adapter.cc]), [Registry] the retained proxies of remote
      components ([hal/grpc/remote_component_registry.cc]); one step per call on
      the HAL worker, with changes by the rest of HAL in between.
    - [ComponentRpc]: [Session] the streams of remote components
      ([hal/grpc/remote_component_rpc.cc]) composed with that registry: the callbacks
      of gRPC, the tasks of the HAL worker, cancellations and the timer as steps.
    - [HalAdapter]: [Shm] the lists and cells of HAL's shared memory, [Adapter] the
      lookups, reads, writes, signals and the topology ([hal/adapter.cc]), [Lifetime]
      the adapter's own component, [Mapping] the protobuf messages
      ([hal/grpc/mapping.cc]).
    - [HalService]: [Rpc] the unary calls and the sampling pass of
      [hal/grpc/service_hal.cc], [Topology] its topology snapshot and the streams
      that watch it.
    - [HalTimer]: [Timer] the timer thread of that service and its end, over the
      executor that runs the sampling passes.
    - [ScopeFrames]: [FrameQueue] the frames between the scope and its browser
      ([ScopeFrameQueue]), [Telemetry] the browser's attachment
      ([scope/telemetry.cc]), [Session] the scope stream of a WebSocket session.
    - [Scope]: [Controller] the control record and sample ring shared with
      [scope_rt], configuration, polling, captures and roll deltas
      ([scope/controller.cc]), [Service] its RPCs
      ([scope/grpc/service_controller.cc]).
    - [TelemetryFrames]: the messages of the position and scope frames
      ([telemetry_websocket_server.cc]), read back in [scope_frame_roundtrip] and
      [position_frame_faithful].
    - [DaemonConfig]: the command line, its validation and the endpoints
      ([daemon/config.cc], [split_endpoint]).
    - [ServerRuntime]: [Shutdown] the signal thread and the main thread between the
      first request to shut down and the end of the process
      ([grpc/server/runtime.cc]), over the executors and counters of
      [CallbackRuntime]; [Startup] the checks and the order of the start
      ([daemon/main.cc], [grpc/server/main.cc]) with the INI snapshot and the program
      prefix ([linuxcnc/active_ini.cc], [ini/grpc/service.cc]).
    - [WebSocket]: the rest of [telemetry_websocket_server.cc]: [Route] the
      request target, [Position] and [Preview] the streams of a session, with
      the worker that feeds a preview, [Acceptor] the session limit and the stop.
    - [GCode]: [Canon] the translation of recorded canonical calls into preview
      operations ([gcode/canon_preview.cc]), [Parser] the run of the interpreter
      ([gcode/parser.cc]), [Mapping] the messages
      ([protobuf_gcode_mapping.cc]), [EndToEnd] the composition with the preview
      session.

    State that the code guards with a mutex is a record, and each critical
    section one step; theorems about concurrent components quantify over every
    sequence of such steps.  Objects that are aliased (tickets, subscriptions)
    live in stores and are referred to by index.  Clock readings, random
    tokens, results of LinuxCNC calls and the behaviour of the network are
    arguments of the operations, so the theorems hold for all of them.
    LinuxCNC's message layout is the class [EmcNml] with the laws the adapter
    relies on ([EmcNmlLaws]); its [RCS_STATUS] numbering is the class
    [RcsStatus]; the private search functions of HAL are the class [HalPriv] with
    the laws [HalPrivLaws].  Histories that only the theorems need (finished items,
    notifications, events) are extra fields that no operation reads.

    ** What the theorems show

    - Commands: accepted commands run exactly once and in order per lane, every
      ticket reaches one final result, observers are notified once, shutdown
      drains; what reaches LinuxCNC is safe ([accepted_message_ok]); safety
      commands are never refused early; texts and tool data arrive whole; each
      executed command has one acceptance, one finalizing hook and one terminal
      ticket call ([command_life]); a call is answered once, with what its work or its
      ticket says ([unary_calls_answered], [command_call_answered]); completion is never inferred from a
      snapshot older than the command ([tracker_never_stale]) and never
      withheld ([tracker_progress]).
    - Streams: readers of status, position and HAL value streams converge to
      the published state ([status_stream_converges], [since_synchronizes],
      [hal_reader_converges]); deltas lose nothing; coalescing is invisible;
      a stream is finished once and only between writes
      ([stream_finishes_legally]); a reader of errors misses no event
      ([error_stream_gap_free]).
    - Polling: while positions are off the position history is empty, and it never shows
      what was read before they were switched off or before an outage
      ([position_history_current]); [GetStatus] answers from the latest poll
      ([get_status_current]); the poller keeps its periods ([poller_paced]).
    - The server: nothing is reachable before what it relies on was checked
      ([startup_checked]); it shuts down in one order, whichever thread begins, and no
      accepted task is lost ([runtime_shuts_down_in_order]); the two threads never wait
      for each other ([runtime_never_hangs]).
    - Resources: capacities, admission limits, the sampling budget and the
      reserved cleanup capacity hold in every reachable state; wake-ups are not
      lost as long as no drainer shares the condition variable
      ([no_lost_wakeup]), and are lost otherwise ([drain_steals_wakeup]).
    - Remote HAL components: a component is online exactly while a client drives
      it and falls back to its disconnect values otherwise
      ([component_fail_safe]), updates are atomic and typed
      ([client_updates_atomic]), former streams are powerless
      ([stale_attachment_inert]), clients follow HAL
      ([component_view_converges]), and items, admission units and slots are
      never lost or shared ([registry_accounts]).
    - Streams of remote components: the client's messages are processed one at a
      time, in order ([session_reads_in_turn]), and when a stream ends its attachment
      is released, once, unless the HAL worker has refused the clean-up task; such
      an attachment ends at the heartbeat timeout ([attachment_released]).  The
      worker refuses only when it has stopped or its queue is full, for which
      [grpc/server/main.cc] reserves capacity ([pools_fit]).
    - HAL access: a write takes effect completely or not at all
      ([hal_write_atomic]); the topology lists exactly what can be read, with the
      same types and values ([topology_agrees_with_reads]); a sampling pass publishes
      for every subscription what reading it would answer ([sampling_exact]); every
      watcher of the topology is served the latest snapshot, in increasing order
      ([watcher_up_to_date]), unless one is published while its stream is being
      constructed ([constructor_race]); the registry of components is destroyed once, and no
      sampling pass runs after it ([hal_service_ends]).
    - Scope: whatever the realtime side writes, the only operation that can leave
      defined behaviour is the poll that raises a watchdog already at the largest
      [int] ([scope_never_undefined], [watchdog_overflow]); the shared control record stays
      well-formed ([scope_control_valid]); captures and roll deltas hold exactly
      the samples of the ring ([scope_capture_exact], [roll_delta_exact]), except
      when the ring fills up between two polls ([roll_wrap_loses_samples]);
      frames arrive once and in order, and every published frame is received, reported
      as skipped, or discarded ([scope_frames_exact]), and none is left behind ([scope_session_drains])
      unless frames are discarded during a write ([scope_capture_stranded]);
      every request is answered ([scope_service_answers]).
    - Programs: an extraction never leaves its directory and stays within the
      quotas, whatever the archive says and wherever it fails
      ([extraction_contained]); when it succeeds the directory holds exactly the
      archive's files ([extraction_exact]); an upload publishes a complete revision
      or leaves the workspace as it was ([upload_publishes]); the entry a client names is
      a regular file of its workspace, reached through no link ([entry_confined]); the
      pins of a workspace are exactly its holders in every interleaving, running
      previews among them ([pins_accounted]), uploads stay within the quotas
      ([workspace_quotas]), and the active program link follows the active
      workspace as long as activations do not overlap
      ([activation_serialized]); the code lets them overlap
      ([activation_races]).
    - WebSocket sessions: the browser's position trace converges
      ([position_reader_converges]) and its timer catches up
      ([delivery_catches_up]); a preview holds two batches and a bounded queue
      ([preview_flow_bounded]) and, while the connection works, completes on every
      schedule with exactly the operations parsed ([preview_completes],
      [preview_frames_exact]); requests are decoded as
      they were encoded ([preview_request_roundtrip]); sessions are bounded
      ([acceptor_bounded]) and end at a stop, unless one is being accepted
      ([acceptor_stop]).
    - G-code preview: batches are exactly the translation of the whole recording,
      finite, with arcs and splines within the extents ([parse_delivers],
      [batches_bounded]); the
      interpreter is always left closed ([interpreter_closed]); progress rises
      ([progress_rises]); messages lose nothing ([operation_roundtrip]); and the
      browser gets exactly these operations ([preview_end_to_end]).
    - Configuration: what validation accepts is consistent and safe under the
      conditions of [config_accepted], options are read as printed ([option_roundtrip]), and
      some unsafe configurations pass ([config_gaps]).

    ** Bounds

    Counters are 64-bit (serials 32-bit) with their wrap-around; a theorem that
    needs a counter not to wrap says so as a bound on the number of steps, and
    serials are compared within half their range.  Loops are structural
    recursions, or steps of an explicit scheduler, but for four that take fuel:
    the batches of a flush one unit each, from the number of operations
    ([flush_loop_spec] shows that nothing is left), the items of a query one unit
    each, from the length of the query (more changes nothing,
    [query_items_fuel]), and the timers of the position stream and of the poller one
    unit per period passed plus one, which is always enough ([catch_up_loop_spec]).
    Path resolution has one unit of fuel per name and follows links into their targets,
    as the kernel bounds them; [entry_confined] asks for one unit per name.

    ** Coarser steps

    A change of the position history and the wake-up that follows it are one step of
    [WebSocket.Position]; the shutdowns of the services that [ServerRuntime.Shutdown]
    calls are one step each, the executor they wait for being named; and the removal
    of a workspace directory either succeeds or leaves the directory as it is
    ([Workspace.Store], [Archive.Upload]), although the real one can fail with some of
    the files deleted, in which case the store keeps listing the workspace.

    ** Not modelled

    The creation of the workspace directories and the count of their contents (answers
    of the filesystem), the text of error messages and of the help, and the health check
    client, which is a program of its own.
    The interpreter and its recording of canonical calls are
    LinuxCNC code; the trigonometric functions of the C library and the sizes of the
    operations are parameters.
    gRPC, protobuf, Beast, the filesystem and LinuxCNC itself are the
    environment; protobuf messages are modelled by their values. *)
From Stdlib Require Export ZArith Lia.
From stdpp Require Export base tactics strings gmap fin_maps numbers relations option sorting.
From stdpp Require Export list.

Declare Scope lcnc_scope.
Delimit Scope lcnc_scope with lcnc.

(** * Machine integers

    C++ integers are kept as [Z] together with the wrap-around of their width.
    [uN_wrap] is the conversion to an unsigned type (reduction modulo [2^N]),
    [iN_wrap] the conversion to a two's complement signed type. *)
Section MachineIntegers.
Local Open Scope Z_scope.

Definition u32_wrap (z : Z) : Z := z mod 2 ^ 32.
Definition u64_wrap (z : Z) : Z := z mod 2 ^ 64.
Definition i32_wrap (z : Z) : Z := (z + 2 ^ 31) mod 2 ^ 32 - 2 ^ 31.
Definition i64_wrap (z : Z) : Z := (z + 2 ^ 63) mod 2 ^ 64 - 2 ^ 63.

(** [x++] on a [std::uint64_t]. *)
Definition u64_succ (z : Z) : Z := u64_wrap (z + 1).
(** [x++] on a [std::uint32_t]. *)
Definition u32_succ (z : Z) : Z := u32_wrap (z + 1).

Definition in_u32 (z : Z) : Prop := 0 <= z < 2 ^ 32.
Definition in_u64 (z : Z) : Prop := 0 <= z < 2 ^ 64.
Definition in_i32 (z : Z) : Prop := - 2 ^ 31 <= z < 2 ^ 31.
Definition in_i64 (z : Z) : Prop := - 2 ^ 63 <= z < 2 ^ 63.

Lemma u64_wrap_small z : in_u64 z -> u64_wrap z = z.
Proof. intros H. unfold u64_wrap. apply Z.mod_small, H. Qed.

Lemma u32_wrap_small z : in_u32 z -> u32_wrap z = z.
Proof. intros H. unfold u32_wrap. apply Z.mod_small, H. Qed.

Lemma i32_wrap_small z : in_i32 z -> i32_wrap z = z.
Proof. unfold in_i32, i32_wrap. intros H. rewrite Z.mod_small; lia. Qed.

Lemma i64_wrap_small z : in_i64 z -> i64_wrap z = z.
Proof. unfold in_i64, i64_wrap. intros H. rewrite Z.mod_small; lia. Qed.

Lemma u64_wrap_range z : in_u64 (u64_wrap z).
Proof. apply Z.mod_pos_bound. lia. Qed.

Lemma u32_wrap_range z : in_u32 (u32_wrap z).
Proof. apply Z.mod_pos_bound. lia. Qed.

Lemma i32_wrap_range z : in_i32 (i32_wrap z).
Proof.
  unfold in_i32, i32_wrap.
  pose proof (Z.mod_pos_bound (z + 2 ^ 31) (2 ^ 32) ltac:(lia)). lia.
Qed.

Lemma u64_succ_small z : 0 <= z -> z + 1 < 2 ^ 64 -> u64_succ z = z + 1.
Proof. intros. apply u64_wrap_small. unfold in_u64. lia. Qed.

Lemma u32_succ_small z : 0 <= z -> z + 1 < 2 ^ 32 -> u32_succ z = z + 1.
Proof. intros. apply u32_wrap_small. unfold in_u32. lia. Qed.

Lemma u64_succ_wrap z : u64_succ (u64_wrap z) = u64_wrap (z + 1).
Proof. unfold u64_succ, u64_wrap. by rewrite Z.add_mod_idemp_l by lia. Qed.

End MachineIntegers.

(** * Fallible code

    [outcome E A] is the result of code that returns an [A] or leaves with an
    error [E] (an exception, an early [return] of a status).  It is a monad in
    stdpp's sense, so [x ← m; k] sequences it. *)
Inductive outcome (E A : Type) : Type :=
| Ok (a : A)
| Err (e : E).
Arguments Ok {E A} a.
Arguments Err {E A} e.

#[export] Instance outcome_ret E : MRet (outcome E) := fun A a => Ok a.
#[export] Instance outcome_bind E : MBind (outcome E) :=
  fun A B k m => match m with Ok a => k a | Err e => Err e end.

(** [require b e]: the guard [if (!b) return e;]. *)
Definition require {E} (b : bool) (e : E) : outcome E unit :=
  if b then Ok tt else Err e.

Definition is_ok {E A} (m : outcome E A) : bool :=
  match m with Ok _ => true | Err _ => false end.

Lemma outcome_bind_ok {E A B} (m : outcome E A) (k : A -> outcome E B) b :
  mbind k m = Ok b <-> exists a, m = Ok a /\ k a = Ok b.
Proof. destruct m; cbn; naive_solver. Qed.

Lemma require_ok {E} b (e : E) u : require b e = Ok u <-> b = true.
Proof. destruct b, u; cbn; naive_solver. Qed.

(** * Reachability *)

Lemma rtc_preserves {A} (R : relation A) (P : A -> Prop) :
  (forall x y, R x y -> P x -> P y) -> forall x y, rtc R x y -> P x -> P y.
Proof. induction 2; eauto. Qed.

(** Invariants of a run of an executable step function. *)
Lemma foldl_preserves {S Op} (f : S -> Op -> S) (P : S -> Prop) :
  (forall s o, P s -> P (f s o)) -> forall ops s, P s -> P (foldl f s ops).
Proof. intros Hf ops. induction ops; cbn; eauto. Qed.

Lemma foldl_repeat {S Op} (f : S -> Op -> S) ops s :
  foldl f s ops = s -> forall n, foldl f s (mjoin (replicate n ops)) = s.
Proof. intros Hf n. induction n as [|n IH]; cbn; [done|]. by rewrite foldl_app, Hf. Qed.

(** * Lists *)

Lemma list_insert_split {A} (l : list A) i x y :
  l !! i = Some x -> <[i:=y]> l = take i l ++ y :: drop (S i) l.
Proof. intros H. apply insert_take_drop. by eapply lookup_lt_Some. Qed.

Lemma list_split_at {A} (l : list A) i x :
  l !! i = Some x -> l = take i l ++ x :: drop (S i) l.
Proof. intros H. symmetry. by apply take_drop_middle. Qed.

Lemma concat_map_insert_perm {A B} (f : A -> list B) (l : list A) i x y extra :
  l !! i = Some x -> f x ≡ₚ f y ++ extra ->
  concat (f <$> l) ≡ₚ concat (f <$> <[i:=y]> l) ++ extra.
Proof.
  intros Hi Hp. rewrite (list_insert_split _ _ _ _ Hi).
  rewrite (list_split_at l i x Hi) at 1.
  rewrite !fmap_app, !fmap_cons, !concat_app. cbn. rewrite Hp.
  by rewrite <- !app_assoc, (Permutation_app_comm extra).
Qed.

Lemma Forall_insert_lookup {A} (P : A -> Prop) (l : list A) i y :
  Forall P l -> P y -> Forall P (<[i:=y]> l).
Proof. intros. by apply Forall_insert. Qed.

Lemma NoDup_fmap_filter {A B} (f : A -> B) (P : A -> Prop) `{!forall x, Decision (P x)} (l : list A) :
  NoDup (f <$> l) -> NoDup (f <$> filter P l).
Proof.
  induction l as [|a l IH]; [done|]. rewrite filter_cons, fmap_cons. intros [Ha Hl]%NoDup_cons.
  case_decide; [|auto]. cbn. apply NoDup_cons. split; [|auto].
  intros (x & Hx & [_ Hin]%list_elem_of_filter)%list_elem_of_fmap. apply Ha. rewrite Hx.
  by apply list_elem_of_fmap_2.
Qed.

(** * Periodic timers *)

Section Timers.
Local Open Scope Z_scope.

(** [do next += period while (next <= now)], one turn per unit of fuel. *)
Fixpoint catch_up_loop (fuel : nat) (period next now : Z) : option Z :=
  match fuel with
  | O => None
  | S fuel =>
      let next := next + period in
      if next <=? now then catch_up_loop fuel period next now else Some next
  end.

(** As many turns as periods have passed, and one. *)
Definition catch_up_fuel (period next now : Z) : nat := S (Z.to_nat ((now - next) / period)).

Lemma catch_up_loop_spec fuel period next now :
  0 < period -> next <= now ->
  (Z.to_nat ((now - next) / period) < fuel)%nat ->
  exists r, catch_up_loop fuel period next now = Some r
  /\ now < r <= now + period /\ (r - next) mod period = 0.
Proof.
  intros Hp. revert next. induction fuel as [|fuel IH]; intros next Hn Hf; [lia|]. cbn.
  destruct (Z.leb_spec (next + period) now) as [Hle|Hgt].
  - destruct (IH (next + period) Hle) as (r & Hr & Hb & Hm).
    { replace (now - (next + period)) with (now - next + -1 * period) by lia.
      rewrite Z.div_add by lia. assert (1 <= (now - next) / period); [|lia].
      apply Z.div_le_lower_bound; lia. }
    exists r. split; [done|]. split; [done|].
    replace (r - next) with (r - (next + period) + 1 * period) by lia. by rewrite Z.mod_add by lia.
  - exists (next + period). split; [done|]. split; [lia|].
    replace (next + period - next) with period by lia. by apply Z.mod_same; lia.
Qed.

Lemma catch_up_more fuel fuel' period next now r :
  catch_up_loop fuel period next now = Some r -> (fuel <= fuel')%nat ->
  catch_up_loop fuel' period next now = Some r.
Proof.
  revert fuel' next. induction fuel as [|fuel IH]; intros [|fuel'] next Hr Hf; try done; [lia|].
  cbn in *. destruct (_ <=? _); [|done]. apply IH; [done|lia].
Qed.

End Timers.

(** * Bounded lists *)

(** Repeated [pop_front] on a [std::deque]: keep at most the last [n] elements. *)
Definition keep_last {A} (n : nat) (l : list A) : list A := drop (length l - n) l.

Lemma keep_last_length {A} n (l : list A) : length (keep_last n l) = Nat.min n (length l).
Proof. unfold keep_last. rewrite length_drop. lia. Qed.

Lemma keep_last_all {A} n (l : list A) : length l <= n -> keep_last n l = l.
Proof. intros. unfold keep_last. by replace (length l - n) with 0 by lia. Qed.

Lemma StronglySorted_snoc {A} (R : relation A) (l : list A) x :
  StronglySorted R l -> Forall (fun y => R y x) l -> StronglySorted R (l ++ [x]).
Proof.
  induction 1 as [|y l Hl IH Hy]; cbn; intros Hx.
  - repeat constructor.
  - apply Forall_cons in Hx as [? ?]. constructor; [by apply IH|].
    apply Forall_app. by split; [|apply Forall_singleton].
Qed.

Lemma StronglySorted_app_l {A} (R : relation A) (l k : list A) :
  StronglySorted R (l ++ k) -> StronglySorted R l.
Proof.
  induction l as [|x l IH]; cbn; intros H; [constructor|].
  apply StronglySorted_inv in H as [H1 H2]. constructor; [by apply IH|].
  by apply Forall_app in H2 as [? _].
Qed.

(** * Proof automation *)

(** Case analysis on the next test or match of the goal or of a hypothesis,
    keeping the equation. *)
Ltac split_test :=
  match goal with
  | |- context [if ?b then _ else _] => destruct b eqn:?
  | H : context [if ?b then _ else _] |- _ => destruct b eqn:?
  | |- context [match ?x with _ => _ end] => destruct x eqn:?
  | H : context [match ?x with _ => _ end] |- _ => destruct x eqn:?
  end.

Ltac split_tests := repeat (split_test; simplify_eq/=).

(** Boolean tests as propositions. *)
Ltac bool_to_prop :=
  repeat match goal with
  | H : (_ && _) = true |- _ => apply andb_true_iff in H as [? ?]
  | H : (_ || _) = false |- _ => apply orb_false_iff in H as [? ?]
  | H : negb _ = true |- _ => apply negb_true_iff in H
  | H : negb _ = false |- _ => apply negb_false_iff in H
  | H : bool_decide _ = true |- _ => apply bool_decide_eq_true in H
  | H : bool_decide _ = false |- _ => apply bool_decide_eq_false in H
  | H : (_ <? _)%Z = true |- _ => apply Z.ltb_lt in H
  | H : (_ <? _)%Z = false |- _ => apply Z.ltb_ge in H
  | H : (_ <=? _)%Z = true |- _ => apply Z.leb_le in H
  | H : (_ <=? _)%Z = false |- _ => apply Z.leb_gt in H
  | H : (_ =? _)%Z = true |- _ => apply Z.eqb_eq in H
  | H : (_ =? _)%Z = false |- _ => apply Z.eqb_neq in H
  | H : (_ <? _)%nat = true |- _ => apply Nat.ltb_lt in H
  | H : (_ <? _)%nat = false |- _ => apply Nat.ltb_ge in H
  | H : (_ <=? _)%nat = true |- _ => apply Nat.leb_le in H
  | H : (_ <=? _)%nat = false |- _ => apply Nat.leb_gt in H
  | H : (_ =? _)%nat = true |- _ => apply Nat.eqb_eq in H
  | H : (_ =? _)%nat = false |- _ => apply Nat.eqb_neq in H
  end.

Create HintDb lcnc.
Create Rewrite HintDb lcnc_simpl.
#[export] Hint Resolve u64_wrap_range u32_wrap_range i32_wrap_range : lcnc.
#[export] Hint Rewrite @length_app @length_insert @length_fmap @length_drop
  @length_take @keep_last_length : lcnc_simpl.
