(* ===== verification/CommandCoordinator.v ===== *)
(** The serialized command coordinator ([command_coordinator.hpp],
    [command_coordinator.cc]).

    [Ticket] models the shared ticket state of one command: its result, its
    pending observers and the [transition] and [observe] operations that run
    under the ticket's mutex.  [Coordinator] models the two bounded queues, the
    submission operations and the worker loop.  The shared [CommandTicket::State]
    objects live in a store ([tickets], indexed by allocation order), because
    the queue item, the client's ticket and the context callbacks alias them. *)
From S2P Require Import Prelude.

Module Ticket.

Inductive CommandWaitPolicy := WaitAccepted | WaitCompleted.
Inductive CommandState := Queued | Accepted | Completed | Failed.

#[export] Instance CommandWaitPolicy_eq_dec : EqDecision CommandWaitPolicy.
Proof. solve_decision. Defined.
#[export] Instance CommandState_eq_dec : EqDecision CommandState.
Proof. solve_decision. Defined.

Record CommandResult := mkCommandResult {
  result_sequence : Z;
  result_accepted_sequence : Z;
  result_state : CommandState;
  result_error : string;
}.

(** An observer is a callback object; only its identity matters here.  A
    notification is one invocation of it with the snapshot it receives. *)
Definition observer := nat.
Definition notification : Type := observer * CommandResult.

Record PendingObserver := mkPendingObserver {
  obs_policy : CommandWaitPolicy;
  obs_callback : observer;
}.

Record State := mkState {
  st_result : CommandResult;
  st_observers : list PendingObserver;
}.

Definition is_terminal (s : CommandState) : bool :=
  match s with Completed | Failed => true | Queued | Accepted => false end.

(** The predicate of [CommandTicket::wait_for]. *)
Definition wait_ready (policy : CommandWaitPolicy) (r : CommandResult) : bool :=
  match policy with
  | WaitAccepted =>
      bool_decide (result_state r = Accepted) || bool_decide (result_state r = Completed)
      || bool_decide (result_state r = Failed)
  | WaitCompleted =>
      bool_decide (result_state r = Completed) || bool_decide (result_state r = Failed)
  end.

(** [CommandTicket::observe] on a live ticket: a ready result is delivered at
    once, otherwise the observer is stored. *)
Definition observe (policy : CommandWaitPolicy) (cb : observer) (st : State) :
    State * list notification :=
  let ready :=
    bool_decide (result_state (st_result st) = Failed)
    || bool_decide (result_state (st_result st) = Completed)
    || (bool_decide (policy = WaitAccepted)
        && bool_decide (result_state (st_result st) = Accepted)) in
  if ready then (st, [(cb, st_result st)])
  else (mkState (st_result st) (st_observers st ++ [mkPendingObserver policy cb]), []).

(** The test of the erase loop of [CommandCoordinator::transition]. *)
Definition releases (result : CommandState) (o : PendingObserver) : bool :=
  is_terminal result
  || (bool_decide (obs_policy o = WaitAccepted) && bool_decide (result = Accepted)).

(** [CommandCoordinator::transition]: the new ticket state and the callbacks
    invoked after the lock is released. *)
Definition transition (result : CommandState) (error : string) (accepted_sequence : Z)
    (st : State) : State * list notification :=
  let old := st_result st in
  if bool_decide (result_state old = Completed) || bool_decide (result_state old = Failed)
  then (st, [])
  else if bool_decide (result = Accepted) && negb (bool_decide (result_state old = Queued))
  then (st, [])
  else
    let snapshot := mkCommandResult (result_sequence old)
      (if bool_decide (result = Accepted) then accepted_sequence
       else result_accepted_sequence old)
      result error in
    let ready := filter (fun o => releases result o = true) (st_observers st) in
    let rest := filter (fun o => releases result o = false) (st_observers st) in
    (mkState snapshot rest, (fun o => (obs_callback o, snapshot)) <$> ready).

(** ** Correctness of one ticket *)

(** The order in which a ticket's state may advance. *)
Definition state_le (a b : CommandState) : Prop :=
  match a, b with
  | Queued, _ => True
  | Accepted, Queued => False
  | Accepted, _ => True
  | Completed, Completed => True
  | Failed, Failed => True
  | _, _ => False
  end.

#[export] Instance state_le_preorder : PreOrder state_le.
Proof. split; [intros []|intros [] [] []]; cbn; tauto. Qed.

(** A ticket never keeps an observer its result already satisfies. *)
Definition settled (st : State) : Prop :=
  Forall (fun o => wait_ready (obs_policy o) (st_result st) = false) (st_observers st).

(** [advances a b]: [b] may follow [a]; a terminal result is final. *)
Definition advances (a b : State) : Prop :=
  result_sequence (st_result b) = result_sequence (st_result a)
  /\ state_le (result_state (st_result a)) (result_state (st_result b))
  /\ (is_terminal (result_state (st_result a)) = true -> st_result b = st_result a)
  /\ (result_state (st_result a) <> Queued ->
      result_accepted_sequence (st_result b) = result_accepted_sequence (st_result a)).

#[export] Instance advances_preorder : PreOrder advances.
Proof.
  split.
  - intros a. repeat split; reflexivity.
  - intros a b c (E1 & L1 & T1 & A1) (E2 & L2 & T2 & A2).
    split_and!; [congruence | by etrans | |].
    + intros Ha. rewrite <- (T1 Ha). apply T2. by rewrite (T1 Ha).
    + intros Ha. rewrite A2, A1; auto. intros Hb. rewrite Hb in L1.
      destruct (result_state (st_result a)); cbn in L1; tauto.
Qed.

Lemma wait_ready_iff policy r :
  wait_ready policy r =
  (is_terminal (result_state r)
   || (bool_decide (policy = WaitAccepted) && bool_decide (result_state r = Accepted))).
Proof. destruct policy, r as [? ? [] ?]; reflexivity. Qed.

Lemma transition_advances result error acc st :
  result <> Queued -> advances st (transition result error acc st).1.
Proof.
  intros Hr. unfold transition. destruct st as [[sq ac s er] obs]; cbn.
  destruct s, result; cbn; try congruence; repeat split; cbn; congruence || tauto.
Qed.

Lemma observe_advances policy cb st : advances st (observe policy cb st).1.
Proof. unfold observe. split_tests; repeat split; reflexivity. Qed.

Lemma releases_wait_ready result o r :
  result_state r = result -> releases result o = wait_ready (obs_policy o) r.
Proof. intros <-. by rewrite wait_ready_iff. Qed.

Lemma transition_settled result error acc st :
  settled st -> settled (transition result error acc st).1.
Proof.
  unfold transition, settled. intros H. case_match; [done|]. case_match; [done|]. cbn.
  apply Forall_forall. intros o [Ho _]%list_elem_of_filter.
  rewrite <- (releases_wait_ready result); done.
Qed.

Lemma observe_settled policy cb st : settled st -> settled (observe policy cb st).1.
Proof.
  unfold observe, settled. intros H. case_match eqn:E; cbn; [done|].
  apply Forall_app. split; [done|]. apply Forall_singleton. cbn.
  destruct policy, st as [[? ? [] ?] ?]; vm_compute in E |- *; congruence.
Qed.

Lemma filter_partition_perm {A} (f : A -> bool) (l : list A) :
  l ≡ₚ filter (fun x => f x = false) l ++ filter (fun x => f x = true) l.
Proof.
  induction l as [|x l IH]; [done|]. rewrite !filter_cons.
  destruct (f x) eqn:E; repeat case_decide; try congruence; cbn.
  - rewrite IH at 1. apply Permutation_middle.
  - by rewrite IH at 1.
Qed.

(** Conservation of observers: what leaves the list is what is notified. *)
Lemma transition_conserves result error acc st :
  obs_callback <$> st_observers st ≡ₚ
  (obs_callback <$> st_observers (transition result error acc st).1)
  ++ (transition result error acc st).2.*1.
Proof.
  unfold transition.
  case_match; [by rewrite app_nil_r|]. case_match; [by rewrite app_nil_r|]. cbn.
  rewrite <- list_fmap_compose.
  rewrite (filter_partition_perm (releases result) (st_observers st)) at 1.
  by rewrite fmap_app.
Qed.

(** A notification is sent only with a result the observer's policy accepts. *)
Lemma transition_notifies result error acc st cb r :
  (cb, r) ∈ (transition result error acc st).2 ->
  r = st_result (transition result error acc st).1
  /\ exists o, o ∈ st_observers st /\ obs_callback o = cb
     /\ wait_ready (obs_policy o) r = true.
Proof.
  unfold transition.
  case_match; [by intros ?%elem_of_nil|]. case_match; [by intros ?%elem_of_nil|]. cbn.
  intros (o & [= -> ->] & [Ho Hin]%list_elem_of_filter)%list_elem_of_fmap.
  split; [done|]. exists o. split_and!; try done.
  by rewrite <- (releases_wait_ready result).
Qed.

End Ticket.

Module Coordinator.
Import Ticket.

Inductive CommandPriority := Normal | Safety.
Inductive CommandSubmitStatus := Submitted | QueueFull | Stopped.

#[export] Instance CommandPriority_eq_dec : EqDecision CommandPriority.
Proof. solve_decision. Defined.

(** What an action does through its [CommandContext]: the callbacks it calls,
    in order, and how it ends (a return or an exception). *)
Inductive ContextCall :=
| MarkAccepted (accepted_sequence : Z)
| DeferCompletion
| MarkCompleted
| MarkFailed (error : string).

Inductive Ending := Returns | ThrowsStd (what : string) | ThrowsOther.

Record Script := mkScript { script_calls : list ContextCall; script_ending : Ending }.

(** A plain action does not see a context.  A context action may consult its
    stop token, so its behaviour is a function of the token's state. *)
Inductive Action :=
| PlainAction (e : Ending)
| ContextAction (body : bool -> Script).

Record Item := mkItem {
  item_sequence : Z;
  item_action : Action;
  item_state : nat;  (* the shared ticket state *)
}.

(** The worker thread between two acquisitions of a lock. *)
Inductive Worker :=
| WaitingForWork
| Executing (p : CommandPriority) (i : Item) (todo : list ContextCall) (e : Ending)
    (deferred : bool)
| Exited.

(** [tickets] is the store of shared ticket states.  [finished], [registered]
    and [notified] are histories: the items the worker is done with (with their
    [deferred] flag), the accepted [observe] calls, the invoked callbacks. *)
Record Coordinator := mkCoordinator {
  capacity : nat;
  safety_capacity : nat;
  queue : list Item;
  safety_queue : list Item;
  next_sequence : Z;
  stopping : bool;
  worker : Worker;
  tickets : list State;
  finished : list (CommandPriority * Item * bool);
  registered : list (observer * CommandWaitPolicy);
  notified : list notification;
}.

(** The constructor: a zero capacity is raised to one. *)
Definition init (cap safety_cap : nat) : Coordinator :=
  mkCoordinator (if (cap =? 0)%nat then 1 else cap)
    (if (safety_cap =? 0)%nat then 1 else safety_cap)
    [] [] 1 false WaitingForWork [] [] [] [].

Definition queue_of (p : CommandPriority) (c : Coordinator) : list Item :=
  match p with Safety => safety_queue c | Normal => queue c end.

Definition capacity_of (p : CommandPriority) (c : Coordinator) : nat :=
  match p with Safety => safety_capacity c | Normal => capacity c end.

Definition set_queue (p : CommandPriority) (q : list Item) (c : Coordinator) : Coordinator :=
  mkCoordinator (capacity c) (safety_capacity c)
    (match p with Normal => q | Safety => queue c end)
    (match p with Safety => q | Normal => safety_queue c end)
    (next_sequence c) (stopping c) (worker c) (tickets c) (finished c)
    (registered c) (notified c).

Definition set_worker (w : Worker) (c : Coordinator) : Coordinator :=
  mkCoordinator (capacity c) (safety_capacity c) (queue c) (safety_queue c)
    (next_sequence c) (stopping c) w (tickets c) (finished c)
    (registered c) (notified c).

(** The part [submit] and [submit_with_context] share: the checks and the push
    under the coordinator's lock. *)
Definition enqueue (a : Action) (p : CommandPriority) (c : Coordinator) :
    Coordinator * (CommandSubmitStatus * option nat) :=
  if stopping c then (c, (Stopped, None))
  else if (capacity_of p c <=? length (queue_of p c))%nat then (c, (QueueFull, None))
  else
    let sequence := next_sequence c in
    let state := length (tickets c) in
    let fresh := mkState (mkCommandResult sequence 0 Queued EmptyString) [] in
    let c1 := set_queue p (queue_of p c ++ [mkItem sequence a state]) c in
    (mkCoordinator (capacity c1) (safety_capacity c1) (queue c1) (safety_queue c1)
       (u64_succ sequence) (stopping c1) (worker c1) (tickets c1 ++ [fresh])
       (finished c1) (registered c1) (notified c1),
     (Submitted, Some state)).

Definition submit (action : option Ending) (p : CommandPriority) (c : Coordinator) :
    outcome string (Coordinator * (CommandSubmitStatus * option nat)) :=
  match action with
  | None => Err "command action must not be empty"%string
  | Some e => Ok (enqueue (PlainAction e) p c)
  end.

Definition submit_with_context (action : option (bool -> Script)) (p : CommandPriority)
    (c : Coordinator) : outcome string (Coordinator * (CommandSubmitStatus * option nat)) :=
  match action with
  | None => Err "command action must not be empty"%string
  | Some body => Ok (enqueue (ContextAction body) p c)
  end.

Definition queued (c : Coordinator) : nat := length (queue c) + length (safety_queue c).

(** [shutdown]; joining the worker is the subsequent run of [worker_step]. *)
Definition shutdown (c : Coordinator) : Coordinator :=
  if stopping c then c
  else mkCoordinator (capacity c) (safety_capacity c) (queue c) (safety_queue c)
    (next_sequence c) true (worker c) (tickets c) (finished c) (registered c) (notified c).

(** Run an operation of [Ticket] on a shared ticket state. *)
Definition update_ticket (tid : nat) (f : State -> State * list notification)
    (c : Coordinator) : Coordinator :=
  match tickets c !! tid with
  | None => c
  | Some st =>
      mkCoordinator (capacity c) (safety_capacity c) (queue c) (safety_queue c)
        (next_sequence c) (stopping c) (worker c) (<[tid := (f st).1]> (tickets c))
        (finished c) (registered c) (notified c ++ (f st).2)
  end.

(** [CommandTicket::observe]; an empty ticket or callback is refused. *)
Definition observe_ticket (tid : option nat) (policy : CommandWaitPolicy)
    (cb : option observer) (c : Coordinator) : Coordinator * bool :=
  match tid, cb with
  | Some t, Some o =>
      match tickets c !! t with
      | None => (c, false)
      | Some _ =>
          let c1 := update_ticket t (observe policy o) c in
          (mkCoordinator (capacity c1) (safety_capacity c1) (queue c1) (safety_queue c1)
             (next_sequence c1) (stopping c1) (worker c1) (tickets c1) (finished c1)
             (registered c1 ++ [(o, policy)]) (notified c1), true)
      end
  | _, _ => (c, false)
  end.

(** One context callback, as bound by [run]. *)
Definition context_call (tid : nat) (call : ContextCall) (c : Coordinator) : Coordinator :=
  match call with
  | MarkAccepted n => update_ticket tid (transition Accepted EmptyString n) c
  | MarkCompleted => update_ticket tid (transition Completed EmptyString 0) c
  | MarkFailed e => update_ticket tid (transition Failed e 0) c
  | DeferCompletion => c
  end.

(** What the body of [run] does after the item has been popped: the calls still
    to make, how they end. A plain action is marked accepted after it returned. *)
Definition item_script (a : Action) (stop_requested : bool) : Script :=
  match a with
  | ContextAction body => body stop_requested
  | PlainAction Returns => mkScript [MarkAccepted 0] Returns
  | PlainAction e => mkScript [] e
  end.

(** The critical section of [run]: wait, return when stopped and drained,
    otherwise pop, safety first. *)
Definition take_item (stop_requested : bool) (c : Coordinator) : Coordinator :=
  if stopping c || negb (bool_decide (safety_queue c = [])) || negb (bool_decide (queue c = []))
  then
    if bool_decide (queue c = []) && bool_decide (safety_queue c = []) && stopping c
    then set_worker Exited c
    else
      let p := if bool_decide (safety_queue c = []) then Normal else Safety in
      match queue_of p c with
      | [] => c
      | i :: rest =>
          let s := item_script (item_action i) stop_requested in
          set_worker (Executing p i (script_calls s) (script_ending s) false)
            (set_queue p rest c)
      end
  else c.

(** The end of one iteration of [run]: completion unless deferred, or the
    exception handlers. *)
Definition finish_item (i : Item) (e : Ending) (deferred : bool) (c : Coordinator) :
    Coordinator :=
  match e with
  | Returns =>
      if deferred then c
      else update_ticket (item_state i) (transition Completed EmptyString 0) c
  | ThrowsStd what => update_ticket (item_state i) (transition Failed what 0) c
  | ThrowsOther =>
      update_ticket (item_state i)
        (transition Failed "command failed with an unknown exception" 0) c
  end.

Definition record_finished (p : CommandPriority) (i : Item) (deferred : bool)
    (c : Coordinator) : Coordinator :=
  mkCoordinator (capacity c) (safety_capacity c) (queue c) (safety_queue c)
    (next_sequence c) (stopping c) WaitingForWork (tickets c)
    (finished c ++ [(p, i, deferred)]) (registered c) (notified c).

(** One step of the worker thread; [stop_requested] is the state of the item's
    stop token should a context action be started by this step. *)
Definition worker_step (stop_requested : bool) (c : Coordinator) : Coordinator :=
  match worker c with
  | WaitingForWork => take_item stop_requested c
  | Executing p i (DeferCompletion :: todo) e _ =>
      set_worker (Executing p i todo e true) c
  | Executing p i (call :: todo) e d =>
      set_worker (Executing p i todo e d) (context_call (item_state i) call c)
  | Executing p i [] e d =>
      record_finished p i (match e with Returns => d | _ => false end) (finish_item i e d c)
  | Exited => c
  end.

(** The operations the threads of the daemon perform, in any order.
    [OpCallback] is a callback of an already popped item, invoked later by the
    status multiplexer. *)
Inductive Op :=
| OpSubmit (action : option Ending) (p : CommandPriority)
| OpSubmitContext (action : option (bool -> Script)) (p : CommandPriority)
| OpObserve (tid : option nat) (policy : CommandWaitPolicy) (cb : option observer)
| OpWorker (stop_requested : bool)
| OpCallback (tid : nat) (call : ContextCall)
| OpShutdown.

Definition apply (c : Coordinator) (o : Op) : Coordinator :=
  match o with
  | OpSubmit a p => match submit a p c with Ok (c', _) => c' | Err _ => c end
  | OpSubmitContext a p =>
      match submit_with_context a p c with Ok (c', _) => c' | Err _ => c end
  | OpObserve tid policy cb => (observe_ticket tid policy cb c).1
  | OpWorker stop => worker_step stop c
  | OpCallback tid call =>
      if bool_decide (tid ∈ item_state <$> (queue c ++ safety_queue c)) then c
      else context_call tid call c
  | OpShutdown => shutdown c
  end.

Definition run (ops : list Op) (c : Coordinator) : Coordinator := foldl apply c ops.


(** ** Invariants *)

(** Every item of a priority, in the order the coordinator handles them. *)
Definition executing (p : CommandPriority) (w : Worker) : list Item :=
  match w with
  | Executing q i _ _ _ => if bool_decide (q = p) then [i] else []
  | _ => []
  end.

Definition done_items (p : CommandPriority) (f : list (CommandPriority * Item * bool)) :
    list Item :=
  (fun x => x.1.2) <$> filter (fun x => x.1.1 = p) f.

Definition history (p : CommandPriority) (c : Coordinator) : list Item :=
  done_items p (finished c) ++ executing p (worker c) ++ queue_of p c.

Definition waiting (c : Coordinator) : list Item := queue c ++ safety_queue c.

Definition ticket_sequence_ok (i : nat) (st : State) : Prop :=
  result_sequence (st_result st) = u64_wrap (Z.of_nat i + 1).

Record inv (c : Coordinator) : Prop := mkInv {
  inv_capacity : 1 <= capacity c /\ 1 <= safety_capacity c;
  inv_bounds : forall p, length (queue_of p c) <= capacity_of p c;
  inv_places : item_state <$> (history Normal c ++ history Safety c)
               ≡ₚ seq 0 (length (tickets c));
  inv_fifo : forall p, StronglySorted lt (item_state <$> history p c);
  inv_next : next_sequence c = u64_wrap (Z.of_nat (length (tickets c)) + 1);
  inv_sequence : forall i st, tickets c !! i = Some st -> ticket_sequence_ok i st;
  inv_waiting : forall i st, i ∈ item_state <$> waiting c -> tickets c !! i = Some st ->
                result_state (st_result st) = Queued;
  inv_settled : Forall settled (tickets c);
  inv_finished : forall p i st, (p, i, false) ∈ finished c ->
                 tickets c !! item_state i = Some st ->
                 is_terminal (result_state (st_result st)) = true;
  inv_exit : worker c = Exited -> stopping c = true /\ waiting c = [];
}.

(** The observer side: conservation and policy. *)
Record observer_inv (c : Coordinator) : Prop := mkObserverInv {
  oinv_conserved : (registered c).*1 ≡ₚ
    concat ((fun st => obs_callback <$> st_observers st) <$> tickets c) ++ (notified c).*1;
  oinv_pending : forall i st o, tickets c !! i = Some st -> o ∈ st_observers st ->
    (obs_callback o, obs_policy o) ∈ registered c;
  oinv_notified : forall cb r, (cb, r) ∈ notified c ->
    exists policy, (cb, policy) ∈ registered c /\ wait_ready policy r = true;
}.

Lemma history_update_ticket p tid f c : history p (update_ticket tid f c) = history p c.
Proof. unfold update_ticket. by case_match. Qed.

Lemma length_tickets_update tid f c :
  length (tickets (update_ticket tid f c)) = length (tickets c).
Proof. unfold update_ticket. case_match; cbn; [by rewrite length_insert|done]. Qed.

Lemma lookup_update_ticket tid f c i st' :
  tickets (update_ticket tid f c) !! i = Some st' ->
  tickets c !! i = Some st' \/
  (i = tid /\ exists st, tickets c !! tid = Some st /\ st' = (f st).1).
Proof.
  unfold update_ticket. case_match eqn:E; [|by left]. cbn.
  intros [(-> & <- & _)|[_ ?]]%list_lookup_insert_Some; [right|by left]. eauto.
Qed.

Lemma inv_update_ticket c tid f :
  inv c ->
  (forall st, advances st (f st).1) ->
  (forall st, settled st -> settled (f st).1) ->
  (tid ∉ item_state <$> waiting c \/ forall st, st_result (f st).1 = st_result st) ->
  inv (update_ticket tid f c).
Proof.
  intros H Hadv Hset Hq.
  assert (Hsame : forall i st', tickets (update_ticket tid f c) !! i = Some st' ->
    exists st, tickets c !! i = Some st /\ advances st st' /\ (settled st -> settled st')
    /\ (i ∈ item_state <$> waiting c -> st_result st' = st_result st)).
  { intros i st' [Hi|(-> & st & Hi & ->)]%lookup_update_ticket.
    - exists st'. split_and!; [done|reflexivity|done|done].
    - exists st. split_and!; auto. intros Hin. destruct Hq; [tauto|auto]. }
  assert (Hw : waiting (update_ticket tid f c) = waiting c /\
    finished (update_ticket tid f c) = finished c /\
    worker (update_ticket tid f c) = worker c /\
    stopping (update_ticket tid f c) = stopping c /\
    next_sequence (update_ticket tid f c) = next_sequence c) by
    (unfold update_ticket; case_match; done).
  destruct Hw as (Hw & Hf & Hwk & Hst & Hns).
  split; rewrite ?history_update_ticket, ?length_tickets_update, ?Hw, ?Hf, ?Hwk, ?Hst, ?Hns.
  - destruct (inv_capacity _ H). unfold update_ticket. by case_match.
  - intros p. pose proof (inv_bounds _ H p). unfold update_ticket. by case_match.
  - apply H.
  - intros p. rewrite history_update_ticket. apply H.
  - apply H.
  - intros i st' (st & Hi & (E & _) & _)%Hsame. unfold ticket_sequence_ok.
    rewrite E. by apply H.
  - intros i st' Hin (st & Hi & _ & _ & E)%Hsame. rewrite E by done.
    by eapply inv_waiting.
  - apply Forall_lookup. intros i st' (st & Hi & _ & Hs & _)%Hsame. apply Hs.
    eapply Forall_lookup_1; [apply H|done].
  - intros p i st' Hin (st & Hi & (_ & _ & Ht & _) & _)%Hsame.
    assert (T : is_terminal (result_state (st_result st)) = true)
      by (eapply inv_finished; eauto).
    by rewrite (Ht T).
  - apply H.
Qed.

Lemma inv_transition c tid r e n :
  inv c -> r <> Queued -> tid ∉ item_state <$> waiting c ->
  inv (update_ticket tid (transition r e n) c).
Proof.
  intros H Hr Hq. apply inv_update_ticket; auto using transition_settled.
  intros st. by apply transition_advances.
Qed.

Lemma inv_context_call c tid call :
  inv c -> tid ∉ item_state <$> waiting c -> inv (context_call tid call c).
Proof. intros H Hq. destruct call; cbn; auto; apply inv_transition; auto; done. Qed.

(** The item being executed is not queued. *)
Lemma executing_not_waiting c p i todo e d :
  inv c -> worker c = Executing p i todo e d -> item_state i ∉ item_state <$> waiting c.
Proof.
  intros H Hw Hin.
  assert (ND : NoDup (item_state <$> (history Normal c ++ history Safety c))).
  { rewrite (inv_places _ H). apply NoDup_seq. }
  assert (P : item_state <$> (history Normal c ++ history Safety c) ≡ₚ
     item_state i :: (item_state <$> waiting c) ++
     (item_state <$> (done_items Normal (finished c) ++ done_items Safety (finished c)))).
  { unfold history, waiting. rewrite Hw. cbn [queue_of].
    destruct p; cbn; rewrite !fmap_app; cbn; solve_Permutation. }
  rewrite P in ND. apply NoDup_cons in ND as [N _]. apply N, elem_of_app. by left.
Qed.

(** The coordinator's moves that leave the tickets alone and only pass an item
    on keep the invariant. *)
Lemma inv_move c c' :
  inv c ->
  capacity c' = capacity c -> safety_capacity c' = safety_capacity c ->
  next_sequence c' = next_sequence c -> tickets c' = tickets c ->
  (forall p, history p c' = history p c) ->
  (forall p, length (queue_of p c') <= length (queue_of p c)) ->
  waiting c' ⊆ waiting c ->
  (forall p i, (p, i, false) ∈ finished c' ->
    (p, i, false) ∈ finished c \/
    forall st, tickets c !! item_state i = Some st ->
    is_terminal (result_state (st_result st)) = true) ->
  (worker c' = Exited -> stopping c' = true /\ waiting c' = []) ->
  inv c'.
Proof.
  intros H E1 E2 E3 E4 Eh Eq Ew Ef Ex.
  split; rewrite ?E1, ?E2, ?E3, ?E4, ?Eh; try apply H.
  - intros p. specialize (Eq p). pose proof (inv_bounds _ H p).
    destruct p; cbn in *; lia.
  - intros p. rewrite Eh. apply H.
  - intros i st (it & -> & Hit)%list_elem_of_fmap. apply (inv_waiting _ H).
    apply list_elem_of_fmap. eauto.
  - intros p i st Hin Hi. destruct (Ef _ _ Hin) as [?|Ht]; [by eapply inv_finished|eauto].
  - done.
Qed.

Lemma waiting_take_safety c i rest :
  safety_queue c = i :: rest -> queue c ++ rest ⊆ waiting c.
Proof. unfold waiting. intros ->. set_solver. Qed.

Lemma inv_take_item stop c : inv c -> worker c = WaitingForWork -> inv (take_item stop c).
Proof.
  intros H Hw. unfold take_item.
  destruct (stopping c || _ || _) eqn:E; [|done].
  destruct (bool_decide (queue c = []) && _ && _) eqn:E2.
  - bool_to_prop. apply (inv_move c); auto; try done; cbn.
    + intros p. unfold history. cbn. by rewrite Hw.
    + intros _. split; [done|]. by apply app_nil.
  - destruct (bool_decide (safety_queue c = [])) eqn:E3; cbn [queue_of].
    + destruct (queue c) as [|i rest] eqn:Q; [done|]. bool_to_prop.
      apply (inv_move c); auto; try done; cbn.
      * intros []; unfold history; cbn; by rewrite Hw, ?Q.
      * intros []; cbn; rewrite ?Q; cbn; lia.
      * unfold waiting; cbn. rewrite Q. set_solver.
    + destruct (safety_queue c) as [|i rest] eqn:Q; [done|].
      apply (inv_move c); auto; try done; cbn.
      * intros []; unfold history; cbn; by rewrite Hw, ?Q.
      * intros []; cbn; rewrite ?Q; cbn; lia.
      * by apply waiting_take_safety with i.
Qed.

Lemma done_items_snoc p f q i d :
  done_items p (f ++ [(q, i, d)]) =
  done_items p f ++ (if bool_decide (q = p) then [i] else []).
Proof.
  unfold done_items. rewrite filter_app, fmap_app. f_equal.
  rewrite filter_cons. cbn. case_decide; case_bool_decide; done.
Qed.

Lemma transition_terminal r e n st :
  is_terminal r = true ->
  is_terminal (result_state (st_result (transition r e n st).1)) = true.
Proof.
  destruct st as [[? ? [] ?] ?], r; cbn; intros; by try congruence.
Qed.

Lemma update_ticket_worker tid f c : worker (update_ticket tid f c) = worker c.
Proof. unfold update_ticket. by case_match. Qed.

(** After [finish_item] the ticket is terminal, unless completion was deferred. *)
Lemma finish_item_terminal i e d c st :
  (match e with Returns => d | _ => false end) = false ->
  tickets (finish_item i e d c) !! item_state i = Some st ->
  is_terminal (result_state (st_result st)) = true.
Proof.
  assert (G : forall r er n, is_terminal r = true ->
    tickets (update_ticket (item_state i) (transition r er n) c) !! item_state i = Some st ->
    is_terminal (result_state (st_result st)) = true).
  { intros r er n Hr. unfold update_ticket. case_match eqn:E; [|by rewrite E]. cbn.
    intros [(_ & <- & _)|[? _]]%list_lookup_insert_Some; [|done].
    by apply transition_terminal. }
  destruct e; cbn; [intros ->|intros _|intros _]; by apply G.
Qed.

Lemma inv_finish_item i e d c :
  inv c -> item_state i ∉ item_state <$> waiting c -> inv (finish_item i e d c).
Proof.
  intros H Hq. destruct e; cbn; [destruct d; [done|]| |]; by apply inv_transition.
Qed.

Lemma finish_item_worker i e d c : worker (finish_item i e d c) = worker c.
Proof. destruct e; cbn; [destruct d; [done|]| |]; apply update_ticket_worker. Qed.

Lemma context_call_worker tid call c : worker (context_call tid call c) = worker c.
Proof. destruct call; cbn; rewrite ?update_ticket_worker; done. Qed.

Lemma inv_executing_move c p i todo e d todo' e' d' :
  inv c -> worker c = Executing p i todo e d ->
  inv (set_worker (Executing p i todo' e' d') c).
Proof.
  intros H Hw. apply (inv_move c); auto; try done.
  - intros q. unfold history. cbn. by rewrite Hw.
Qed.

Lemma coordinator_inv_worker_step stop c : inv c -> inv (worker_step stop c).
Proof.
  intros H. unfold worker_step.
  destruct (worker c) as [|p i todo e d|] eqn:Hw; [by apply inv_take_item| |done].
  pose proof (executing_not_waiting _ _ _ _ _ _ H Hw) as Hq.
  destruct todo as [|call todo].
  - set (c1 := finish_item i e d c).
    assert (H1 : inv c1) by by apply inv_finish_item.
    assert (W1 : worker c1 = Executing p i [] e d)
      by (unfold c1; by rewrite finish_item_worker).
    apply (inv_move c1); auto; try done; cbn [record_finished finished].
    + intros q. unfold history. cbn [record_finished finished worker executing].
      rewrite W1, done_items_snoc. cbn [executing].
      by destruct q; rewrite <- !app_assoc.
    + intros q it [?|E%list_elem_of_singleton]%elem_of_app; [by left|right].
      injection E as -> -> E. intros st Hst. by eapply finish_item_terminal.
  - assert (inv (set_worker (Executing p i todo e d) (context_call (item_state i) call c)))
      by (eapply inv_executing_move; [by apply inv_context_call|];
          by rewrite context_call_worker, Hw).
    destruct call; try done. by eapply inv_executing_move.
Qed.

Lemma history_lt c p i :
  inv c -> i ∈ history p c -> item_state i < length (tickets c).
Proof.
  intros H Hi.
  assert (Hs : item_state i ∈ seq 0 (length (tickets c))).
  { rewrite <- (inv_places _ H). apply list_elem_of_fmap. exists i. split; [done|].
    apply elem_of_app. destruct p; auto. }
  apply elem_of_seq in Hs. lia.
Qed.

Lemma waiting_history c i :
  i ∈ waiting c -> i ∈ history Normal c \/ i ∈ history Safety c.
Proof. unfold waiting, history. cbn. set_solver. Qed.

(** An accepted submission appends one item to its queue and allocates its ticket. *)
Definition accept_item (a : Action) (p : CommandPriority) (c : Coordinator) : Coordinator :=
  mkCoordinator (capacity c) (safety_capacity c)
    (match p with
     | Normal => queue c ++ [mkItem (next_sequence c) a (length (tickets c))]
     | Safety => queue c end)
    (match p with
     | Safety => safety_queue c ++ [mkItem (next_sequence c) a (length (tickets c))]
     | Normal => safety_queue c end)
    (u64_succ (next_sequence c)) (stopping c) (worker c)
    (tickets c ++ [mkState (mkCommandResult (next_sequence c) 0 Queued EmptyString) []])
    (finished c) (registered c) (notified c).

Lemma enqueue_cases a p c :
  (stopping c = true /\ enqueue a p c = (c, (Stopped, None)))
  \/ (stopping c = false /\ capacity_of p c <= length (queue_of p c)
      /\ enqueue a p c = (c, (QueueFull, None)))
  \/ (stopping c = false /\ length (queue_of p c) < capacity_of p c
      /\ enqueue a p c = (accept_item a p c, (Submitted, Some (length (tickets c))))).
Proof.
  unfold enqueue. destruct (stopping c) eqn:E; [by left|right].
  destruct (_ <=? _)%nat eqn:E2; bool_to_prop; [by left|right].
  split_and!; [done|done|]. destruct p; unfold accept_item; cbn; by rewrite E.
Qed.

Lemma history_accept a p q c :
  history q (accept_item a p c) =
  history q c ++ (if bool_decide (q = p)
                  then [mkItem (next_sequence c) a (length (tickets c))] else []).
Proof. unfold history. destruct p, q; cbn; by rewrite <- ?app_assoc, ?app_nil_r. Qed.

Lemma inv_accept a p c :
  inv c -> stopping c = false -> length (queue_of p c) < capacity_of p c ->
  inv (accept_item a p c).
Proof.
  intros H Hs Hc. set (i := mkItem (next_sequence c) a (length (tickets c))).
  assert (Hw : waiting (accept_item a p c) ≡ₚ i :: waiting c).
  { destruct p; unfold waiting, accept_item; cbn; fold i; solve_Permutation. }
  split.
  - apply H.
  - intros q. pose proof (inv_bounds _ H q). destruct p, q; cbn in *; rewrite ?length_app; cbn; lia.
  - rewrite !history_accept. cbn [accept_item tickets]. fold i.
    rewrite length_app, seq_app, <- (inv_places _ H).
    destruct p; cbn; rewrite !fmap_app; cbn; rewrite ?app_nil_r; solve_Permutation.
  - intros q. rewrite history_accept. fold i. case_bool_decide; [|rewrite app_nil_r; apply H].
    rewrite fmap_app. apply StronglySorted_snoc; [apply H|].
    apply Forall_forall. intros n (it & -> & Hit)%list_elem_of_fmap. cbn.
    by eapply history_lt.
  - cbn. rewrite (inv_next _ H), u64_succ_wrap, length_app. cbn. f_equal. lia.
  - intros k st. cbn. intros [[_ Hk]|[Hk <-]]%lookup_snoc_Some.
    + by apply (inv_sequence _ H).
    + unfold ticket_sequence_ok. cbn. rewrite (inv_next _ H). by rewrite Hk.
  - intros k st. rewrite Hw. cbn.
    intros [->|Hin]%elem_of_cons [[_ Hk]|[Hk <-]]%lookup_snoc_Some; try done.
    + apply lookup_lt_Some in Hk. cbn in Hk. lia.
    + by eapply (inv_waiting _ H).
  - cbn. apply Forall_app. split; [apply H|]. repeat constructor.
  - intros q it st Hin. cbn. intros [[_ Hk]|[Hk <-]]%lookup_snoc_Some.
    + by eapply (inv_finished _ H).
    + exfalso. assert (it ∈ history q c).
      { unfold history, done_items. apply elem_of_app. left. apply list_elem_of_fmap.
        exists (q, it, false). split; [done|]. by apply list_elem_of_filter. }
      pose proof (history_lt _ _ _ H H0). lia.
  - cbn. intros E. destruct (inv_exit _ H E). congruence.
Qed.

Lemma inv_enqueue a p c : inv c -> inv (enqueue a p c).1.
Proof.
  intros H. destruct (enqueue_cases a p c) as [(_ & ->)|[(_ & _ & ->)|(? & ? & ->)]]; auto.
  by apply inv_accept.
Qed.

Lemma inv_observe tid policy cb c : inv c -> inv (observe_ticket tid policy cb c).1.
Proof.
  intros H. unfold observe_ticket. repeat (case_match; try done). cbn.
  assert (Hu : inv (update_ticket n (observe policy o) c)).
  { apply inv_update_ticket; auto using observe_advances, observe_settled.
    right. intros st. unfold observe. by case_match. }
  destruct Hu. by split.
Qed.

Lemma coordinator_inv_shutdown c : inv c -> inv (shutdown c).
Proof.
  intros H. unfold shutdown. case_match; [done|]. apply (inv_move c); auto; try done.
  cbn. intros E. by destruct (inv_exit _ H E).
Qed.

Lemma inv_init cap scap : inv (init cap scap).
Proof.
  unfold init. split; cbn; try done; try (by intros; set_solver); try lia.
  - repeat case_match; bool_to_prop; lia.
  - intros []; cbn; lia.
  - intros []; constructor.
Qed.

Lemma coordinator_inv_apply c o : inv c -> inv (apply c o).
Proof.
  intros H. destruct o as [[e|] p|[b|] p|tid policy cb|stop|tid call|]; cbn; try done.
  - pose proof (inv_enqueue (PlainAction e) p c H) as E. by destruct (enqueue _ _ _).
  - pose proof (inv_enqueue (ContextAction b) p c H) as E. by destruct (enqueue _ _ _).
  - by apply inv_observe.
  - by apply coordinator_inv_worker_step.
  - case_bool_decide; [done|]. by apply inv_context_call.
  - by apply coordinator_inv_shutdown.
Qed.

Lemma coordinator_inv_run ops c : inv c -> inv (run ops c).
Proof. apply foldl_preserves. intros. by apply coordinator_inv_apply. Qed.

Lemma update_ticket_capacity tid f c p :
  capacity_of p (update_ticket tid f c) = capacity_of p c.
Proof. unfold update_ticket. destruct p; by case_match. Qed.

Lemma context_call_capacity tid call c p :
  capacity_of p (context_call tid call c) = capacity_of p c.
Proof. destruct call; cbn; by rewrite ?update_ticket_capacity. Qed.

Lemma finish_item_capacity i e d c p :
  capacity_of p (finish_item i e d c) = capacity_of p c.
Proof. destruct e; cbn; [destruct d; [done|]| |]; apply update_ticket_capacity. Qed.

Lemma take_item_capacity stop c p : capacity_of p (take_item stop c) = capacity_of p c.
Proof. unfold take_item. repeat (case_match; try done); by destruct p. Qed.

Lemma worker_step_capacity stop c p : capacity_of p (worker_step stop c) = capacity_of p c.
Proof.
  unfold worker_step. destruct (worker c) as [|r i [|call todo] e d|].
  - apply take_item_capacity.
  - transitivity (capacity_of p (finish_item i e d c)); [by destruct p|apply finish_item_capacity].
  - rewrite <- (context_call_capacity (item_state i) call c p). by destruct p, call.
  - done.
Qed.

(** No operation changes a capacity. *)
Lemma coordinator_apply_capacity c o p : capacity_of p (apply c o) = capacity_of p c.
Proof.
  destruct o as [[e|] q|[b|] q|tid policy cb|stop|tid call|]; cbn; try done.
  - unfold enqueue. repeat case_match; simplify_eq; by destruct p.
  - unfold enqueue. repeat case_match; simplify_eq; by destruct p.
  - unfold observe_ticket. destruct tid, cb; try done. case_match; [|done].
    rewrite <- (update_ticket_capacity n (observe policy o) c p). by destruct p.
  - apply worker_step_capacity.
  - case_bool_decide; [done|apply context_call_capacity].
  - unfold shutdown. case_match; by destruct p.
Qed.

Lemma run_capacity ops c p : capacity_of p (run ops c) = capacity_of p c.
Proof.
  revert c. induction ops as [|o ops IH]; intros c; [done|].
  cbn. unfold run in IH. by rewrite IH, coordinator_apply_capacity.
Qed.

(** ** Observers *)

Lemma oinv_frame c c' :
  observer_inv c -> registered c' = registered c -> tickets c' = tickets c ->
  notified c' = notified c -> observer_inv c'.
Proof. intros [] E1 E2 E3. split; rewrite ?E1, ?E2, ?E3; done. Qed.

Lemma oinv_transition c tid r e n :
  observer_inv c -> observer_inv (update_ticket tid (transition r e n) c).
Proof.
  intros H. unfold update_ticket. case_match eqn:E; [|done].
  pose proof (transition_conserves r e n s) as Hc. split; cbn [registered tickets notified].
  - rewrite (oinv_conserved _ H), fmap_app.
    rewrite (concat_map_insert_perm _ _ _ _ _ _ E Hc). by rewrite <- !app_assoc,
      (Permutation_app_comm (transition r e n s).2.*1).
  - intros i st o [(-> & <- & _)|[_ Hi]]%list_lookup_insert_Some Ho;
      [|by eapply (oinv_pending _ H)].
    eapply (oinv_pending _ H); [done|]. revert Ho. unfold transition.
    case_match; [done|]. case_match; [done|]. cbn. by intros [_ ?]%list_elem_of_filter.
  - intros cb res [Hn|Hn]%elem_of_app; [by eapply (oinv_notified _ H)|].
    apply transition_notifies in Hn as (_ & o & Ho & <- & Hr).
    exists (obs_policy o). split; [|done]. by eapply (oinv_pending _ H).
Qed.

Lemma observe_conserves policy cb st :
  (obs_callback <$> st_observers st) ++ [cb] ≡ₚ
  (obs_callback <$> st_observers (observe policy cb st).1)
  ++ (observe policy cb st).2.*1.
Proof. unfold observe. case_match; cbn; [done|]. by rewrite fmap_app, app_nil_r. Qed.

Lemma observe_pending policy cb st o :
  o ∈ st_observers (observe policy cb st).1 ->
  o ∈ st_observers st \/ o = mkPendingObserver policy cb.
Proof. unfold observe. case_match; cbn; set_solver. Qed.

Lemma observe_notifies policy cb st x r :
  (x, r) ∈ (observe policy cb st).2 -> x = cb /\ wait_ready policy r = true.
Proof.
  unfold observe. case_match eqn:E; cbn; [|by intros ?%elem_of_nil].
  intros [= -> ->]%list_elem_of_singleton. split; [done|].
  destruct policy, st as [[? ? [] ?] ?]; vm_compute in E |- *; congruence.
Qed.

Lemma concat_map_insert_grow {A B} (f : A -> list B) (l : list A) i x y add out :
  l !! i = Some x -> f x ++ add ≡ₚ f y ++ out ->
  concat (f <$> l) ++ add ≡ₚ concat (f <$> <[i:=y]> l) ++ out.
Proof.
  intros Hi Hp. rewrite (list_insert_split _ _ _ _ Hi).
  rewrite (list_split_at l i x Hi) at 1.
  rewrite !fmap_app, !fmap_cons, !concat_app. cbn.
  transitivity (concat (f <$> take i l) ++ (f x ++ add) ++ concat (f <$> drop (S i) l));
    [solve_Permutation|].
  rewrite Hp. solve_Permutation.
Qed.

Lemma oinv_observe tid policy cb c :
  observer_inv c -> observer_inv (observe_ticket tid policy cb c).1.
Proof.
  intros H. unfold observe_ticket. destruct tid as [t|], cb as [o|]; try done.
  destruct (tickets c !! t) as [st|] eqn:E; [|done]. unfold update_ticket. rewrite E. cbn.
  split; cbn [registered tickets notified].
  - rewrite !fmap_app. cbn.
    pose proof (concat_map_insert_grow (fun st => obs_callback <$> st_observers st)
      _ _ _ _ _ _ E (observe_conserves policy o st)) as P.
    rewrite (oinv_conserved _ H).
    transitivity ((concat ((λ st0 : State, obs_callback <$> st_observers st0) <$> tickets c)
      ++ [o]) ++ (notified c).*1); [solve_Permutation|].
    rewrite P. solve_Permutation.
  - intros i st' ob [(-> & <- & _)|[_ Hi]]%list_lookup_insert_Some Ho; apply elem_of_app.
    + apply observe_pending in Ho as [Ho| ->]; [left|right; by apply list_elem_of_singleton].
      by eapply (oinv_pending _ H).
    + left. by eapply (oinv_pending _ H).
  - intros x r [Hn|Hn]%elem_of_app.
    + destruct (oinv_notified _ H _ _ Hn) as (pl & ? & ?). exists pl. set_solver.
    + apply observe_notifies in Hn as [-> Hr]. exists policy. set_solver.
Qed.

Lemma oinv_enqueue a p c : observer_inv c -> observer_inv (enqueue a p c).1.
Proof.
  intros H. destruct (enqueue_cases a p c) as [(_ & ->)|[(_ & _ & ->)|(_ & _ & ->)]]; auto.
  split; cbn [fst accept_item registered tickets notified].
  - rewrite fmap_app, concat_app. cbn. rewrite app_nil_r. apply H.
  - intros i st o [[_ Hi]|[_ <-]]%lookup_snoc_Some Ho; [by eapply (oinv_pending _ H)|].
    by apply elem_of_nil in Ho.
  - apply H.
Qed.

Lemma oinv_context_call tid call c : observer_inv c -> observer_inv (context_call tid call c).
Proof. destruct call; cbn; auto using oinv_transition. Qed.

Lemma oinv_worker_step stop c : observer_inv c -> observer_inv (worker_step stop c).
Proof.
  intros H. unfold worker_step. destruct (worker c) as [|p i todo e d|]; [| |done].
  - unfold take_item. case_match; [|done]. case_match; [by eapply oinv_frame|].
    case_match; [done|]. eapply oinv_frame; [done|..]; by case_bool_decide.
  - destruct todo as [|[] todo].
    + apply (oinv_frame (finish_item i e d c)); try done.
      destruct e; cbn; [destruct d; [done|]| |]; by apply oinv_transition.
    + by apply (oinv_frame _ _ (oinv_context_call (item_state i) (MarkAccepted accepted_sequence) c H)).
    + by apply (oinv_frame c).
    + by apply (oinv_frame _ _ (oinv_context_call (item_state i) MarkCompleted c H)).
    + by apply (oinv_frame _ _ (oinv_context_call (item_state i) (MarkFailed error) c H)).
Qed.

Lemma oinv_apply c o : observer_inv c -> observer_inv (apply c o).
Proof.
  intros H. destruct o as [[e|] p|[b|] p|tid policy cb|stop|tid call|]; cbn; try done.
  - pose proof (oinv_enqueue (PlainAction e) p c H) as E. by destruct (enqueue _ _ _).
  - pose proof (oinv_enqueue (ContextAction b) p c H) as E. by destruct (enqueue _ _ _).
  - by apply oinv_observe.
  - by apply oinv_worker_step.
  - case_bool_decide; [done|]. by apply oinv_context_call.
  - unfold shutdown. case_match; [done|]. by eapply oinv_frame.
Qed.

Lemma oinv_run ops cap scap : observer_inv (run ops (init cap scap)).
Proof.
  apply (foldl_preserves apply observer_inv); [intros; by apply oinv_apply|].
  split; cbn; try done; intros; set_solver.
Qed.

(** ** Tickets only advance *)

Lemma update_ticket_advances tid f c i st :
  (forall s, advances s (f s).1) -> tickets c !! i = Some st ->
  exists st', tickets (update_ticket tid f c) !! i = Some st' /\ advances st st'.
Proof.
  intros Hf Hi. unfold update_ticket. case_match eqn:E; [|by eexists].
  cbn. destruct (decide (i = tid)) as [->|Hne].
  - rewrite list_lookup_insert_eq by (by eapply lookup_lt_Some). simplify_eq. eauto.
  - rewrite list_lookup_insert_ne by done. by eexists.
Qed.

Lemma context_call_advances tid call c i st :
  tickets c !! i = Some st ->
  exists st', tickets (context_call tid call c) !! i = Some st' /\ advances st st'.
Proof.
  intros Hi. destruct call; cbn; try (by eexists);
    apply update_ticket_advances; auto; intros s; by apply transition_advances.
Qed.

Lemma finish_item_advances it e d c i st :
  tickets c !! i = Some st ->
  exists st', tickets (finish_item it e d c) !! i = Some st' /\ advances st st'.
Proof.
  intros Hi. destruct e; cbn; [destruct d; [by eexists|]| |];
    apply update_ticket_advances; auto; intros s; by apply transition_advances.
Qed.

Lemma worker_step_advances stop c i st :
  tickets c !! i = Some st ->
  exists st', tickets (worker_step stop c) !! i = Some st' /\ advances st st'.
Proof.
  intros Hi. unfold worker_step. destruct (worker c) as [|p it [|call todo] e d|].
  - exists st. split; [|reflexivity]. unfold take_item.
    repeat (case_match; try done); cbn; by case_bool_decide.
  - by apply finish_item_advances.
  - destruct call; [|by eexists| |];
      by apply (context_call_advances (item_state it) _ c i st).
  - by eexists.
Qed.

Lemma enqueue_advances a p c i st :
  tickets c !! i = Some st -> tickets (enqueue a p c).1 !! i = Some st.
Proof.
  intros Hi. destruct (enqueue_cases a p c) as [(_ & ->)|[(_ & _ & ->)|(_ & _ & ->)]]; auto.
  cbn. by apply lookup_app_l_Some.
Qed.

Lemma apply_advances c o i st :
  tickets c !! i = Some st ->
  exists st', tickets (apply c o) !! i = Some st' /\ advances st st'.
Proof.
  intros Hi. destruct o as [[e|] p|[b|] p|tid policy cb|stop|tid call|]; cbn;
    try (by eexists).
  - pose proof (enqueue_advances (PlainAction e) p c i st Hi) as E.
    destruct (enqueue _ _ _). by eexists.
  - pose proof (enqueue_advances (ContextAction b) p c i st Hi) as E.
    destruct (enqueue _ _ _). by eexists.
  - unfold observe_ticket. repeat (case_match; try by eexists). cbn.
    apply update_ticket_advances; auto using observe_advances.
  - by apply worker_step_advances.
  - case_bool_decide; [by eexists|]. by apply context_call_advances.
  - unfold shutdown. case_match; by eexists.
Qed.

Lemma run_advances ops c i st :
  tickets c !! i = Some st ->
  exists st', tickets (run ops c) !! i = Some st' /\ advances st st'.
Proof.
  revert c st. induction ops as [|o ops IH]; intros c st Hi; [by eexists|].
  destruct (apply_advances c o i st Hi) as (st1 & H1 & A1).
  destruct (IH _ _ H1) as (st2 & H2 & A2). exists st2. split; [done|]. by etrans.
Qed.

(** ** Draining *)

(** An upper bound on the worker steps an item still needs, and the coordinator's. *)
Definition item_cost (i : Item) : nat :=
  2 + Nat.max (length (script_calls (item_script (item_action i) true)))
              (length (script_calls (item_script (item_action i) false))).

Definition worker_rank (w : Worker) : nat :=
  match w with
  | WaitingForWork => 1
  | Executing _ _ todo _ _ => 2 + length todo
  | Exited => 0
  end.

Definition work (c : Coordinator) : nat :=
  sum_list_with item_cost (waiting c) + worker_rank (worker c).

Lemma update_ticket_work tid f c :
  work (update_ticket tid f c) = work c /\ stopping (update_ticket tid f c) = stopping c.
Proof. unfold update_ticket, work. by case_match. Qed.

Lemma context_call_work tid call c :
  work (context_call tid call c) = work c
  /\ stopping (context_call tid call c) = stopping c.
Proof. destruct call; cbn; auto using update_ticket_work. Qed.

Lemma item_cost_script i stop :
  2 + length (script_calls (item_script (item_action i) stop)) <= item_cost i.
Proof. unfold item_cost. destruct stop; lia. Qed.

Lemma take_item_work stop c :
  stopping c = true -> worker c = WaitingForWork ->
  stopping (take_item stop c) = true /\ work (take_item stop c) < work c.
Proof.
  intros Hs Hw. unfold take_item, work, waiting. rewrite Hs, Hw. cbn [orb].
  destruct (safety_queue c) as [|i rest] eqn:Q1; [destruct (queue c) as [|j more] eqn:Q2|].
  - cbn. rewrite Hs, Q1, Q2. cbn. split; [done|lia].
  - pose proof (item_cost_script j stop). cbn -[item_cost item_script]. rewrite Q2.
    cbn -[item_cost item_script]. rewrite Q1, Hs, !app_nil_r. split; [done|lia].
  - rewrite andb_false_r. pose proof (item_cost_script i stop).
    cbn -[item_cost item_script]. rewrite Q1. cbn -[item_cost item_script].
    rewrite !sum_list_with_app, Hs. cbn -[item_cost item_script].
    split; [done|lia].
Qed.

Lemma worker_step_work stop c :
  stopping c = true -> worker c <> Exited ->
  stopping (worker_step stop c) = true /\ work (worker_step stop c) < work c.
Proof.
  intros Hs Hw. unfold worker_step. destruct (worker c) as [|p i [|call todo] e d|] eqn:W.
  - by apply take_item_work.
  - assert (E : work (finish_item i e d c) = work c /\ stopping (finish_item i e d c) = stopping c).
    { destruct e; cbn; [destruct d; [done|]| |]; apply update_ticket_work. }
    pose proof (finish_item_worker i e d c) as W1. destruct E as [E1 E2]. rewrite <- E1.
    unfold work in *. rewrite W1, W. cbn. rewrite E2. split; [done|].
    unfold waiting. cbn. lia.
  - destruct (context_call_work (item_state i) call c) as [E1 E2].
    pose proof (context_call_worker (item_state i) call c) as W1.
    assert (G : forall todo' d', S (length todo') = length (call :: todo) ->
      work (set_worker (Executing p i todo' e d') (context_call (item_state i) call c)) < work c).
    { intros todo' d' L. rewrite <- E1. unfold work, waiting. rewrite W1, W. cbn in *. lia. }
    destruct call; cbn in *; (split; [congruence|]); by apply G.
  - done.
Qed.

#[export] Instance exited_dec (w : Worker) : Decision (w = Exited).
Proof. destruct w; [right|right|left]; done. Defined.

Lemma apply_stopping c o :
  stopping c = true -> stopping (apply c o) = true /\ work (apply c o) <= work c.
Proof.
  intros Hs. destruct o as [[e|] p|[b|] p|tid policy cb|stop|tid call|]; cbn; try done.
  - unfold enqueue. by rewrite Hs.
  - unfold enqueue. by rewrite Hs.
  - unfold observe_ticket. repeat (case_match; try done). cbn.
    destruct (update_ticket_work n (observe policy o) c) as [E1 E2].
    unfold work in *. cbn. rewrite E2. split; [done|]. rewrite <- E1. done.
  - destruct (decide (worker c = Exited)) as [E|E].
    + unfold worker_step. by rewrite E.
    + destruct (worker_step_work stop c Hs E). split; [done|lia].
  - case_bool_decide; [done|]. destruct (context_call_work tid call c) as [-> ->]. done.
  - unfold shutdown. by rewrite Hs.
Qed.

(** A schedule is an infinite sequence of operations; it is fair when the worker
    thread is scheduled again and again. *)
Definition schedule := nat -> Op.
Definition fair (s : schedule) : Prop :=
  forall n, exists m stop, n <= m /\ s m = OpWorker stop.
Definition prefix_of (s : schedule) (n : nat) : list Op := s <$> seq 0 n.

Lemma prefix_of_S (s : schedule) n :
  prefix_of s (S n) = s 0 :: prefix_of (fun k => s (S k)) n.
Proof. unfold prefix_of. cbn. f_equal. by rewrite <- fmap_S_seq, <- list_fmap_compose. Qed.

Lemma fair_tail (s : schedule) : fair s -> fair (fun k => s (S k)).
Proof.
  intros H n. destruct (H (S n)) as (m & stop & Hm & E). exists (m - 1), stop.
  split; [lia|]. by replace (S (m - 1)) with m by lia.
Qed.

Lemma drains_aux k : forall c s,
  work c <= k -> stopping c = true -> fair s ->
  exists n, worker (run (prefix_of s n) c) = Exited.
Proof.
  induction k as [k IH] using lt_wf_ind. intros c s Hk Hs Hf.
  destruct (Hf 0) as (m & stop & _ & Hm).
  revert c s Hk Hs Hf Hm. induction m as [|m IHm]; intros c s Hk Hs Hf Hm;
    (destruct (decide (worker c = Exited)) as [E|E]; [by exists 0|]).
  - destruct (worker_step_work stop c Hs E) as [Hs' Hw].
    destruct (IH (work (worker_step stop c)) ltac:(lia) (worker_step stop c)
      (fun i => s (S i)) ltac:(done) Hs' (fair_tail _ Hf)) as [n Hn].
    exists (S n). rewrite prefix_of_S, Hm. done.
  - destruct (apply_stopping c (s 0) Hs) as [Hs' Hw].
    destruct (IHm (apply c (s 0)) (fun i => s (S i)) ltac:(lia) Hs' (fair_tail _ Hf) Hm)
      as [n Hn].
    exists (S n). by rewrite prefix_of_S.
Qed.

(** When the worker has exited every ticket is terminal or was deferred. *)
Lemma exited_resolved c tid st :
  inv c -> worker c = Exited -> tickets c !! tid = Some st ->
  is_terminal (result_state (st_result st)) = true
  \/ exists p i, item_state i = tid /\ (p, i, true) ∈ finished c.
Proof.
  intros H Hw Ht. destruct (inv_exit _ H Hw) as [_ Hq].
  apply app_nil in Hq as [Q1 Q2].
  assert (Hin : tid ∈ item_state <$> (history Normal c ++ history Safety c)).
  { rewrite (inv_places _ H). apply elem_of_seq. apply lookup_lt_Some in Ht. lia. }
  apply list_elem_of_fmap in Hin as (i & -> & Hin).
  assert (exists p d, (p, i, d) ∈ finished c) as (p & d & Hd).
  { unfold history in Hin. rewrite Hw in Hin. cbn [queue_of executing] in Hin.
    rewrite Q1, Q2 in Hin. unfold done_items in Hin.
    apply elem_of_app in Hin as [Hin|Hin]; rewrite app_nil_r in Hin;
      apply list_elem_of_fmap in Hin as ([[q j] d] & -> & [_ Hj]%list_elem_of_filter); eauto. }
  destruct d; [right; eauto|left]. by eapply (inv_finished _ H).
Qed.

(** ** The coordinator's contract *)

(** C38: Every submitted command is in exactly one place (handled, executing or
    queued), commands of one priority are handled in submission order, and the
    [n]-th accepted submission carries sequence number [n] (modulo 2^64),
    whatever the interleaving of submissions, observations, callbacks,
    shutdown and worker steps. *)
Theorem commands_exactly_once_in_order (ops : list Op) (cap scap : nat) :
  let c := run ops (init cap scap) in
  item_state <$> (history Normal c ++ history Safety c) ≡ₚ seq 0 (length (tickets c))
  /\ (forall p, StronglySorted lt (item_state <$> history p c))
  /\ (forall n st, tickets c !! n = Some st ->
      result_sequence (st_result st) = u64_wrap (Z.of_nat n + 1))
  /\ length (queue c) <= Nat.max 1 cap /\ length (safety_queue c) <= Nat.max 1 scap.
Proof.
  cbn. pose proof (coordinator_inv_run ops _ (inv_init cap scap)) as H.
  split_and!; try apply H.
  - pose proof (inv_bounds _ H Normal) as B. rewrite run_capacity in B. cbn in B.
    destruct (cap =? 0)%nat; cbn in B; lia.
  - pose proof (inv_bounds _ H Safety) as B. rewrite run_capacity in B. cbn in B.
    destruct (scap =? 0)%nat; cbn in B; lia.
Qed.

(** A ticket only advances (queued, accepted, terminal), keeps its sequence
    number, never forgets the accepted channel sequence, and its terminal
    result is final: no later operation changes it. *)
Theorem ticket_result_final (ops later : list Op) (cap scap i : nat) (st : State) :
  tickets (run ops (init cap scap)) !! i = Some st ->
  exists st', tickets (run (ops ++ later) (init cap scap)) !! i = Some st' /\ advances st st'.
Proof.
  intros Hi. unfold run. rewrite foldl_app. by apply run_advances.
Qed.

(** Observers are one-shot and never lost: the callbacks invoked so far
    together with the ones still stored are exactly the accepted [observe]
    calls; a callback is invoked only with a result its policy waits for; and a
    stored one is never satisfied by its ticket's current result. *)
Theorem observers_notified_once (ops : list Op) (cap scap : nat) :
  let c := run ops (init cap scap) in
  (registered c).*1 ≡ₚ
    concat ((fun st => obs_callback <$> st_observers st) <$> tickets c) ++ (notified c).*1
  /\ (forall cb r, (cb, r) ∈ notified c ->
      exists policy, (cb, policy) ∈ registered c /\ wait_ready policy r = true)
  /\ (forall i st o, tickets c !! i = Some st -> o ∈ st_observers st ->
      wait_ready (obs_policy o) (st_result st) = false).
Proof.
  cbn. pose proof (oinv_run ops cap scap) as H.
  pose proof (coordinator_inv_run ops _ (inv_init cap scap)) as I.
  split_and!; try apply H. intros i st o Hi Ho.
  pose proof (inv_settled _ I) as S. eapply Forall_lookup_1 in S; [|done].
  unfold settled in S. rewrite Forall_forall in S. by apply S.
Qed.

(** Admission: in any reachable state a submission is refused as stopped
    exactly after shutdown, as full exactly when its own priority's queue is at
    capacity, and a refused submission changes nothing; an accepted one is
    appended to its own queue with a fresh queued ticket.  The other priority's
    queue plays no part, so normal traffic cannot block a safety command. *)
Theorem submit_admission (ops : list Op) (cap scap : nat) (e : Ending) (p : CommandPriority)
    (c' : Coordinator) (status : CommandSubmitStatus) (ticket : option nat) :
  let c := run ops (init cap scap) in
  submit (Some e) p c = Ok (c', (status, ticket)) ->
  (status = Stopped <-> stopping c = true)
  /\ (status = QueueFull <-> stopping c = false /\ length (queue_of p c) = capacity_of p c)
  /\ (status <> Submitted -> c' = c /\ ticket = None)
  /\ (status = Submitted ->
      exists t i, ticket = Some t /\ item_state i = t /\ item_action i = PlainAction e
      /\ queue_of p c' = queue_of p c ++ [i]
      /\ (forall q, q <> p -> queue_of q c' = queue_of q c)
      /\ tickets c !! t = None
      /\ tickets c' !! t =
           Some (mkState (mkCommandResult (item_sequence i) 0 Queued EmptyString) [])).
Proof.
  cbn. set (c := run ops (init cap scap)). intros [= E].
  pose proof (inv_bounds _ (coordinator_inv_run ops _ (inv_init cap scap)) p) as B. fold c in B.
  destruct (enqueue_cases (PlainAction e) p c) as [(S & E2)|[(S & L & E2)|(S & L & E2)]];
    rewrite E2 in E; injection E as <- <- <-; (split; [split; congruence|]).
  - split; [split; [done|intros [? _]; congruence]|]. done.
  - split; [split; [intros _; split; [done|lia]|done]|]. done.
  - split; [split; [done|intros [_ ?]; lia]|]. split; [done|]. intros _. eexists _, (mkItem (next_sequence c) (PlainAction e) (length (tickets c))).
    split_and!; try done.
    + by destruct p.
    + intros [] ?; destruct p; done.
    + by apply lookup_ge_None.
    + cbn. apply lookup_snoc_Some. by right.
Qed.

(** Shutdown drains: after shutdown, under every schedule that keeps
    scheduling the worker, the worker exits after finitely many operations,
    both queues are empty, and every ticket ever issued is terminal, except
    those whose action deferred its completion to the status multiplexer. *)
Theorem shutdown_drains (ops : list Op) (cap scap : nat) (s : schedule) :
  stopping (run ops (init cap scap)) = true -> fair s ->
  exists n, let c := run (ops ++ prefix_of s n) (init cap scap) in
    worker c = Exited /\ queued c = 0
    /\ forall tid st, tickets c !! tid = Some st ->
       is_terminal (result_state (st_result st)) = true
       \/ exists p i, item_state i = tid /\ (p, i, true) ∈ finished c.
Proof.
  intros Hs Hf. destruct (drains_aux _ _ s (le_n _) Hs Hf) as [n Hn]. exists n. cbn.
  assert (E : run (ops ++ prefix_of s n) (init cap scap)
    = run (prefix_of s n) (run ops (init cap scap))) by (unfold run; by rewrite foldl_app).
  rewrite <- E in Hn. pose proof (coordinator_inv_run (ops ++ prefix_of s n) _ (inv_init cap scap)) as H.
  destruct (inv_exit _ H Hn) as [_ Q]. split_and!; [done| |].
  - unfold queued. rewrite <- length_app. by unfold waiting in Q; rewrite Q.
  - intros tid st. by apply exited_resolved.
Qed.

(** *** Concrete runs *)

Definition completed_run : list Op :=
  [OpSubmit (Some Returns) Normal; OpWorker false; OpWorker false; OpWorker false].

Lemma ticket_result_final_witness :
  exists st', tickets (run (completed_run ++ [OpShutdown; OpCallback 0 (MarkFailed "late")])
    (init 1 1)) !! 0 = Some st'
  /\ advances (mkState (mkCommandResult 1 0 Completed EmptyString) []) st'.
Proof. apply ticket_result_final. vm_compute. reflexivity. Defined.

(** The normal queue of capacity one is full; a safety command is admitted. *)
Lemma submit_admission_witness :
  exists i, item_state i = 1
  /\ safety_queue (run [OpSubmit (Some Returns) Normal; OpSubmit (Some Returns) Safety]
       (init 1 1)) = [i]
  /\ queued (run [OpSubmit (Some Returns) Normal; OpSubmit (Some Returns) Normal]
       (init 1 1)) = 1.
Proof.
  destruct (submit_admission [OpSubmit (Some Returns) Normal] 1 1 Returns Safety
    (run [OpSubmit (Some Returns) Normal; OpSubmit (Some Returns) Safety] (init 1 1))
    Submitted (Some 1) eq_refl) as (_ & _ & _ & H).
  destruct (H eq_refl) as (t & i & [= <-] & Hi & _ & Hq & _).
  exists i. split_and!; [exact Hi|exact Hq|reflexivity].
Defined.

(** A worker that is scheduled at every turn. *)
Lemma shutdown_drains_witness :
  exists n, worker (run ([OpSubmit (Some Returns) Normal;
    OpSubmitContext (Some (fun _ => mkScript [MarkAccepted 7] (ThrowsStd "io"))) Safety;
    OpShutdown] ++ prefix_of (fun _ => OpWorker true) n) (init 4 4)) = Exited.
Proof.
  destruct (shutdown_drains [OpSubmit (Some Returns) Normal;
    OpSubmitContext (Some (fun _ => mkScript [MarkAccepted 7] (ThrowsStd "io"))) Safety;
    OpShutdown] 4 4 (fun _ => OpWorker true)) as (n & H & _).
  - reflexivity.
  - intros n. exists n, true. split; [lia|reflexivity].
  - exists n. exact H.
Defined.

End Coordinator.
