(* ===== verification/CallbackRuntime.v ===== *)
(** The callback runtime ([callback_runtime.hpp], [callback_runtime.cc]).

    [Executor] models [BoundedExecutor] with its condition variable: sleeping
    threads, and notifications that are sent after the lock was released.
    [Admission] models the lock-free [AdmissionCounter] one atomic access at a
    time.  [Registry] models [ActiveCallbackRegistry] and [SubscriptionHub].
    [Ring] models [SequencedRing].  [Gate] models [LifetimeGate] with the
    re-entrant calls its recursive mutex allows. *)
From S2P Require Import Prelude.

Module Executor.
Local Open Scope Z_scope.

Record Item := mkItem { item_task : nat; item_cleanup : bool }.

#[export] Instance Item_eq_dec : EqDecision Item.
Proof. solve_decision. Defined.

(** A worker thread: blocked on the condition variable, about to test the wait
    predicate, running a task, or returned from [run]. *)
Inductive WorkerThread := Sleeping | Awake | Running (i : Item) | Returned.
(** A thread inside [drain]. *)
Inductive Drainer := DrainSleeping | DrainAwake | DrainReturned.

#[export] Instance WorkerThread_eq_dec : EqDecision WorkerThread.
Proof. solve_decision. Defined.
#[export] Instance Drainer_eq_dec : EqDecision Drainer.
Proof. solve_decision. Defined.

(** [pending_one] and [pending_all] count the callers that released the mutex
    and have yet to call [notify_one] or [notify_all].  [accepted], [started],
    [completed] and [dropped] are histories. *)
Record Executor := mkExecutor {
  capacity : nat;
  cleanup_reserve : nat;
  queue : list Item;
  workers : list WorkerThread;
  drainers : list Drainer;
  ordinary_queued : Z;
  active : Z;
  accepting : bool;
  stopping : bool;
  drain_flag : bool;
  pending_one : nat;
  pending_all : nat;
  accepted : list Item;
  started : list Item;
  completed : list Item;
  dropped : list Item;
}.

(** The constructor. *)
Definition make (threads cap reserve : nat) : outcome string Executor :=
  if (threads =? 0)%nat || (cap =? 0)%nat || (cap <? reserve)%nat
  then Err "invalid bounded executor limits"%string
  else Ok (mkExecutor cap reserve [] (replicate threads Awake) [] 0 0 true false true
             0 0 [] [] [] []).

(** [submit_impl], up to the unlock; the notification is still pending. *)
Definition submit_impl (task : option nat) (cleanup : bool) (e : Executor) : Executor * bool :=
  match task with
  | None => (e, false)
  | Some t =>
      if stopping e || (negb cleanup && negb (accepting e)) then (e, false)
      else if (capacity e <=? length (queue e))%nat then (e, false)
      else if negb cleanup
              && (Z.of_nat (capacity e - cleanup_reserve e) <=? ordinary_queued e)
      then (e, false)
      else
        let i := mkItem t cleanup in
        (mkExecutor (capacity e) (cleanup_reserve e) (queue e ++ [i]) (workers e) (drainers e)
           (if cleanup then ordinary_queued e else u64_succ (ordinary_queued e))
           (active e) (accepting e) (stopping e) (drain_flag e) (S (pending_one e)) (pending_all e)
           (accepted e ++ [i]) (started e) (completed e) (dropped e), true)
  end.

Definition submit (task : option nat) (e : Executor) : Executor * bool :=
  submit_impl task false e.
Definition submit_cleanup (task : option nat) (e : Executor) : Executor * bool :=
  submit_impl task true e.

Definition stop_admission (e : Executor) : Executor :=
  mkExecutor (capacity e) (cleanup_reserve e) (queue e) (workers e) (drainers e)
    (ordinary_queued e) (active e) false (stopping e) (drain_flag e) (pending_one e) (pending_all e)
    (accepted e) (started e) (completed e) (dropped e).

(** The critical section of [shutdown]; the joins are the worker steps that follow. *)
Definition shutdown (drain : bool) (e : Executor) : Executor :=
  if stopping e then e
  else mkExecutor (capacity e) (cleanup_reserve e)
    (if drain then queue e else []) (workers e) (drainers e)
    (if drain then ordinary_queued e else 0)
    (active e) false true drain (pending_one e) (S (pending_all e))
    (accepted e) (started e) (completed e)
    (if drain then dropped e else dropped e ++ queue e).

Definition queued (e : Executor) : nat := length (queue e).
Definition is_accepting (e : Executor) : bool := accepting e && negb (stopping e).

Definition set_workers (w : list WorkerThread) (e : Executor) : Executor :=
  mkExecutor (capacity e) (cleanup_reserve e) (queue e) w (drainers e)
    (ordinary_queued e) (active e) (accepting e) (stopping e) (drain_flag e) (pending_one e) (pending_all e)
    (accepted e) (started e) (completed e) (dropped e).

Definition set_drainers (d : list Drainer) (e : Executor) : Executor :=
  mkExecutor (capacity e) (cleanup_reserve e) (queue e) (workers e) d
    (ordinary_queued e) (active e) (accepting e) (stopping e) (drain_flag e) (pending_one e) (pending_all e)
    (accepted e) (started e) (completed e) (dropped e).

Definition set_pending (one all : nat) (e : Executor) : Executor :=
  mkExecutor (capacity e) (cleanup_reserve e) (queue e) (workers e) (drainers e)
    (ordinary_queued e) (active e) (accepting e) (stopping e) (drain_flag e) one all
    (accepted e) (started e) (completed e) (dropped e).

Definition wake_worker (w : WorkerThread) : WorkerThread :=
  match w with Sleeping => Awake | _ => w end.
Definition wake_drainer (d : Drainer) : Drainer :=
  match d with DrainSleeping => DrainAwake | _ => d end.

(** [condition_.notify_all()]. *)
Definition wake_all (e : Executor) : Executor :=
  set_drainers (wake_drainer <$> drainers e) (set_workers (wake_worker <$> workers e) e).

(** The predicate [drain] waits for. *)
Definition idle (e : Executor) : bool :=
  bool_decide (queue e = []) && (active e =? 0).

(** A thread calls [drain]; it returns at once or goes to sleep. *)
Definition drain_call (e : Executor) : Executor :=
  set_drainers (drainers e ++ [if idle e then DrainReturned else DrainSleeping]) e.

(** A woken [drain] tests its predicate again. *)
Definition drainer_step (j : nat) (e : Executor) : Executor :=
  match drainers e !! j with
  | Some DrainAwake =>
      set_drainers (<[j := if idle e then DrainReturned else DrainSleeping]> (drainers e)) e
  | _ => e
  end.

(** One step of worker [i]: the first critical section of [run], or the task
    (whose exceptions are contained) together with the second one. *)
Definition worker_step (i : nat) (e : Executor) : Executor :=
  match workers e !! i with
  | Some Awake =>
      if stopping e || negb (bool_decide (queue e = [])) then
        match queue e with
        | [] => if stopping e then set_workers (<[i := Returned]> (workers e)) e else e
        | item :: rest =>
            mkExecutor (capacity e) (cleanup_reserve e) rest
              (<[i := Running item]> (workers e)) (drainers e)
              (if item_cleanup item then ordinary_queued e
               else u64_wrap (ordinary_queued e - 1))
              (u64_succ (active e)) (accepting e) (stopping e) (drain_flag e) (pending_one e) (pending_all e)
              (accepted e) (started e ++ [item]) (completed e) (dropped e)
        end
      else set_workers (<[i := Sleeping]> (workers e)) e
  | Some (Running item) =>
      let e1 := mkExecutor (capacity e) (cleanup_reserve e) (queue e)
        (<[i := Awake]> (workers e)) (drainers e) (ordinary_queued e)
        (u64_wrap (active e - 1)) (accepting e) (stopping e) (drain_flag e) (pending_one e) (pending_all e)
        (accepted e) (started e) (completed e ++ [item]) (dropped e) in
      if idle e1 then wake_all e1
      else if stopping e1 && (negb (drain_flag e1) || bool_decide (queue e1 = []))
      then wake_all e1 else e1
  | _ => e
  end.

(** The waiter a [notify_one] may pick. *)
Inductive Waiter := WorkerWaiter (i : nat) | DrainWaiter (j : nat).

Definition someone_sleeps (e : Executor) : bool :=
  bool_decide (Sleeping ∈ workers e) || bool_decide (DrainSleeping ∈ drainers e).

(** A pending [notify_one] is delivered: it wakes one sleeping thread, any one
    of those blocked on the condition variable, and is lost when there is none. *)
Definition notify_one (w : Waiter) (e : Executor) : Executor :=
  match pending_one e with
  | O => e
  | S n =>
      let e1 := set_pending n (pending_all e) e in
      match w with
      | WorkerWaiter i =>
          if bool_decide (workers e !! i = Some Sleeping)
          then set_workers (<[i := Awake]> (workers e)) e1
          else if someone_sleeps e then e else e1
      | DrainWaiter j =>
          if bool_decide (drainers e !! j = Some DrainSleeping)
          then set_drainers (<[j := DrainAwake]> (drainers e)) e1
          else if someone_sleeps e then e else e1
      end
  end.

(** A pending [notify_all] is delivered. *)
Definition notify_all (e : Executor) : Executor :=
  match pending_all e with
  | O => e
  | S n => wake_all (set_pending (pending_one e) n e)
  end.

Inductive Op :=
| OpSubmit (task : option nat)
| OpSubmitCleanup (task : option nat)
| OpStopAdmission
| OpShutdown (drain : bool)
| OpDrain
| OpNotifyOne (w : Waiter)
| OpNotifyAll
| OpWorker (i : nat)
| OpDrainer (j : nat).

Definition apply (e : Executor) (o : Op) : Executor :=
  match o with
  | OpSubmit t => (submit t e).1
  | OpSubmitCleanup t => (submit_cleanup t e).1
  | OpStopAdmission => stop_admission e
  | OpShutdown d => shutdown d e
  | OpDrain => drain_call e
  | OpNotifyOne w => notify_one w e
  | OpNotifyAll => notify_all e
  | OpWorker i => worker_step i e
  | OpDrainer j => drainer_step j e
  end.

Definition run (ops : list Op) (e : Executor) : Executor := foldl apply e ops.

(** ** Resource accounting *)

Definition is_ordinary (i : Item) : bool := negb (item_cleanup i).
Definition count_if {A} (f : A -> bool) (l : list A) : nat := length (filter (fun x => f x = true) l).
Definition running_item (w : WorkerThread) : list Item :=
  match w with Running i => [i] | _ => [] end.
Definition running (e : Executor) : list Item := concat (running_item <$> workers e).

#[local] Arguments count_if : simpl never.
#[local] Arguments running : simpl never.

Lemma count_if_app {A} (f : A -> bool) l k : count_if f (l ++ k) = (count_if f l + count_if f k)%nat.
Proof. unfold count_if. by rewrite filter_app, length_app. Qed.

Lemma count_if_cons {A} (f : A -> bool) x l :
  count_if f (x :: l) = ((if f x then 1 else 0) + count_if f l)%nat.
Proof. unfold count_if. rewrite filter_cons. destruct (f x); by case_decide. Qed.

Lemma count_if_split {A} (f : A -> bool) l :
  (count_if f l + count_if (fun x => negb (f x)) l = length l)%nat.
Proof. induction l as [|x l IH]; [done|]. rewrite !count_if_cons. destruct (f x); cbn; lia. Qed.

Record inv (e : Executor) : Prop := mkInv {
  inv_limits : (1 <= capacity e)%nat /\ (cleanup_reserve e <= capacity e)%nat
    /\ Z.of_nat (capacity e) < 2 ^ 64 /\ Z.of_nat (length (workers e)) < 2 ^ 64
    /\ workers e <> [];
  inv_queue : (length (queue e) <= capacity e)%nat;
  inv_ordinary : ordinary_queued e = Z.of_nat (count_if is_ordinary (queue e))
    /\ (count_if is_ordinary (queue e) <= capacity e - cleanup_reserve e)%nat;
  inv_active : active e = Z.of_nat (length (running e));
  inv_order : accepted e = started e ++ queue e ++ dropped e;
  inv_started : started e ≡ₚ completed e ++ running e;
  inv_dropped : dropped e <> [] -> stopping e = true /\ queue e = [];
  inv_returned : Returned ∈ workers e -> stopping e = true /\ queue e = [];
  inv_stopping : stopping e = true -> pending_all e <> O \/ Sleeping ∉ workers e;
  inv_idle : idle e = true -> pending_all e <> O \/ DrainSleeping ∉ drainers e;
  inv_wakeup : queue e <> [] -> drainers e = [] ->
    pending_one e <> O \/ exists w, w ∈ workers e /\ w <> Sleeping /\ w <> Returned;
}.

Lemma running_insert e i w w' :
  workers e !! i = Some w ->
  concat (running_item <$> workers e) ++ running_item w' ≡ₚ
  concat (running_item <$> <[i := w']> (workers e)) ++ running_item w.
Proof.
  intros H. rewrite (list_insert_split _ _ _ _ H).
  rewrite (list_split_at _ _ _ H) at 1. rewrite !fmap_app, !concat_app. cbn.
  solve_Permutation.
Qed.

Lemma running_wake ws : concat (running_item <$> (wake_worker <$> ws)) = concat (running_item <$> ws).
Proof. induction ws as [|[] ws IH]; cbn; by rewrite ?IH. Qed.

Lemma running_length ws : (length (concat (running_item <$> ws)) <= length ws)%nat.
Proof. induction ws as [|w ws IH]; cbn; [lia|]. rewrite length_app. destruct w; cbn; lia. Qed.

Lemma inv_make threads cap reserve e :
  Z.of_nat threads < 2 ^ 64 -> Z.of_nat cap < 2 ^ 64 ->
  make threads cap reserve = Ok e -> inv e.
Proof.
  intros Ht Hc. unfold make. case_match eqn:E; [done|]. intros [= <-].
  repeat apply orb_false_iff in E as [E ?]. bool_to_prop.
  split; cbn; try done.
  - split_and!; try lia; [by rewrite length_replicate|]. by destruct threads.
  - lia.
  - split; [done|]. change (count_if is_ordinary []) with 0%nat. lia.
  - clear. unfold running. cbn. induction threads; [done|]. cbn. by rewrite <- IHthreads.
  - unfold running. cbn. clear. induction threads; [done|]. cbn. by rewrite <- IHthreads.
  - by intros [? _]%elem_of_replicate.
  - intros _. right. apply not_elem_of_nil.
Qed.

Lemma inv_submit task cleanup e : inv e -> inv (submit_impl task cleanup e).1.
Proof.
  intros H. unfold submit_impl. destruct task as [t|]; [|done].
  destruct (stopping e || _) eqn:E1; [done|]. apply orb_false_iff in E1 as [E1 _].
  destruct (capacity e <=? _)%nat eqn:E2; [done|]. bool_to_prop.
  destruct (negb cleanup && _) eqn:E3; [done|].
  destruct (inv_limits _ H) as (? & ? & ? & ? & ?), (inv_ordinary _ H) as [Ho Hb].
  assert (Hq : queue e ++ [mkItem t cleanup] <> []) by (by destruct (queue e)).
  split; cbn; try done; try apply H.
  - rewrite length_app. cbn. lia.
  - rewrite count_if_app, count_if_cons. change (count_if is_ordinary []) with 0%nat.
    change (is_ordinary (mkItem t cleanup)) with (negb cleanup).
    destruct cleanup; cbn [negb andb] in *; [split; [rewrite Ho|]; lia|]. bool_to_prop.
    rewrite Ho in *. rewrite u64_succ_small by lia. split; [f_equal|]; lia.
  - rewrite (inv_order _ H). destruct (decide (dropped e = [])) as [->|Hd].
    + by rewrite !app_nil_r, app_assoc.
    + destruct (inv_dropped _ H Hd). congruence.
  - intros Hd. destruct (inv_dropped _ H Hd). congruence.
  - intros Hr. destruct (inv_returned _ H Hr). congruence.
  - unfold idle. cbn. by rewrite (bool_decide_eq_false_2 _ Hq).
  - by left.
Qed.

Lemma inv_stop_admission e : inv e -> inv (stop_admission e).
Proof. intros []. by split. Qed.

Lemma executor_inv_shutdown drain e : inv e -> inv (shutdown drain e).
Proof.
  intros H. unfold shutdown. destruct (stopping e) eqn:E; [done|].
  split; cbn; try done; try apply H.
  - destruct drain; [apply H|cbn; lia].
  - destruct drain; [apply H|]. change (count_if is_ordinary []) with 0%nat. split; [done|lia].
  - rewrite (inv_order _ H). destruct drain; [done|].
    destruct (decide (dropped e = [])) as [->|Hd]; [by rewrite app_nil_r|].
    destruct (inv_dropped _ H Hd). congruence.
  - intros Hd. split; [done|]. destruct drain; [|done].
    destruct (inv_dropped _ H Hd). congruence.
  - intros Hr. destruct (inv_returned _ H Hr). congruence.
  - by left.
  - by left.
  - intros Hq. apply (inv_wakeup _ H). by destruct drain.
Qed.

Lemma sleeping_wake (ws : list WorkerThread) : Sleeping ∉ wake_worker <$> ws.
Proof. by intros ([] & ? & _)%list_elem_of_fmap. Qed.
Lemma drain_sleeping_wake (ds : list Drainer) : DrainSleeping ∉ wake_drainer <$> ds.
Proof. by intros ([] & ? & _)%list_elem_of_fmap. Qed.
Lemma returned_wake (ws : list WorkerThread) : Returned ∈ wake_worker <$> ws -> Returned ∈ ws.
Proof. by intros ([] & [=] & ?)%list_elem_of_fmap. Qed.

(** Waking everybody keeps the invariant, also when a pending [notify_all] is spent. *)
Lemma inv_wake_all e one all : inv e -> one = pending_one e -> inv (wake_all (set_pending one all e)).
Proof.
  intros H ->. split; cbn; try apply H.
  - destruct (inv_limits _ H) as (? & ? & ? & ? & ?). rewrite length_fmap.
    split_and!; try done. by destruct (workers e).
  - unfold running. cbn. rewrite running_wake. apply H.
  - unfold running. cbn. rewrite running_wake. apply H.
  - intros Hr%returned_wake. by apply (inv_returned _ H).
  - intros _. right. apply sleeping_wake.
  - intros _. right. apply drain_sleeping_wake.
  - intros Hq Hd. apply fmap_nil_inv in Hd.
    destruct (inv_wakeup _ H Hq Hd) as [?|(w & Hw & ? & ?)]; [by left|right].
    exists (wake_worker w). split; [by apply list_elem_of_fmap_2|]. by destruct w.
Qed.

Lemma inv_set_drainers d e :
  inv e -> (drainers e <> [] \/ d <> []) ->
  (idle e = true -> pending_all e = O -> DrainSleeping ∉ d) ->
  (d = [] -> drainers e = []) ->
  inv (set_drainers d e).
Proof.
  intros H Hne Hd Hn. split; cbn; try apply H.
  - intros Hi. destruct (decide (pending_all e = O)); [right|by left]. by apply Hd.
  - intros Hq ->. apply (inv_wakeup _ H Hq). by apply Hn.
Qed.

Lemma inv_drain_call e : inv e -> inv (drain_call e).
Proof.
  intros H. apply inv_set_drainers; [done| | |].
  - right. by destruct (drainers e).
  - intros Hi Hp. rewrite Hi. intros [Hd|Hd%list_elem_of_singleton]%elem_of_app; [|done].
    by destruct (inv_idle _ H Hi).
  - intros E. by destruct (drainers e).
Qed.

Lemma insert_nonempty {A} i (x y : A) (l : list A) : l !! i = Some y -> <[i := x]> l <> [].
Proof. intros H E. apply (f_equal length) in E. rewrite length_insert in E.
  apply lookup_lt_Some in H. cbn in E. lia. Qed.

Lemma elem_insert {A} i (x y z : A) (l : list A) :
  l !! i = Some y -> z ∈ <[i := x]> l -> z = x \/ z ∈ l.
Proof.
  intros Hi [k Hk]%list_elem_of_lookup.
  apply list_lookup_insert_Some in Hk as [(_ & -> & _)|[_ Hk]]; [by left|right].
  by apply list_elem_of_lookup_2 with k.
Qed.

Lemma inv_drainer_step j e : inv e -> inv (drainer_step j e).
Proof.
  intros H. unfold drainer_step. destruct (drainers e !! j) as [[]|] eqn:E; try done.
  apply inv_set_drainers; [done| | |].
  - right. by eapply insert_nonempty.
  - intros Hi Hp. rewrite Hi. intros Hd. eapply elem_insert in Hd as [Hd|Hd]; [done| |done].
    by destruct (inv_idle _ H Hi).
  - intros E2. exfalso. by eapply insert_nonempty.
Qed.

(** A worker changes its state without taking or finishing a task. *)
Lemma inv_set_worker i w w' e :
  inv e -> workers e !! i = Some w -> running_item w = running_item w' ->
  (w' = Returned -> stopping e = true /\ queue e = []) ->
  (w' = Sleeping -> stopping e = false /\ queue e = []) ->
  inv (set_workers (<[i := w']> (workers e)) e).
Proof.
  intros H Hi Hr Hret Hsl.
  assert (P : running (set_workers (<[i := w']> (workers e)) e) ≡ₚ running e).
  { unfold running. cbn. pose proof (running_insert e i w w' Hi) as P. rewrite Hr in P.
    by apply Permutation_app_inv_r in P. }
  split; cbn; try apply H.
  - destruct (inv_limits _ H) as (? & ? & ? & ? & ?). rewrite length_insert.
    split_and!; try done. by eapply insert_nonempty.
  - rewrite P. apply H.
  - rewrite P. apply H.
  - intros Hin. eapply elem_insert in Hin as [<-|Hin]; [by apply Hret|by apply (inv_returned _ H)|done].
  - intros Hs. destruct (inv_stopping _ H Hs) as [?|Hn]; [by left|right].
    intros Hin. eapply elem_insert in Hin as [<-|Hin]; [|done|done].
    destruct (Hsl eq_refl). congruence.
  - intros Hq Hd. destruct (inv_wakeup _ H Hq Hd) as [?|_]; [by left|right].
    exists w'. split; [|split; intros ->; naive_solver].
    apply list_elem_of_insert. by eapply lookup_lt_Some.
Qed.

Lemma inv_take e i item rest :
  inv e -> workers e !! i = Some Awake -> queue e = item :: rest ->
  inv (worker_step i e).
Proof.
  intros H Hi Hq. unfold worker_step. rewrite Hi, Hq.
  rewrite (bool_decide_eq_false_2 (item :: rest = [])) by done. rewrite orb_true_r.
  destruct (inv_limits _ H) as (? & ? & ? & ? & ?), (inv_ordinary _ H) as [Ho Hb].
  pose proof (running_insert e i Awake (Running item) Hi) as P. cbn in P.
  rewrite app_nil_r in P.
  assert (L : length (concat (running_item <$> <[i:=Running item]> (workers e)))
    = S (length (running e))).
  { rewrite <- P. unfold running. rewrite length_app. cbn. lia. }
  pose proof (running_length (<[i:=Running item]> (workers e))) as Lb.
  rewrite length_insert in Lb. rewrite Hq, count_if_cons in *.
  pose proof (inv_queue _ H) as Hl. rewrite Hq in Hl. cbn in Hl.
  split; cbn; try apply H.
  - split_and!; try done; [by rewrite length_insert|by eapply insert_nonempty].
  - lia.
  - change (is_ordinary item) with (negb (item_cleanup item)) in *.
    destruct (item_cleanup item); cbn [negb] in *; [by split; [|lia]|].
    rewrite Ho, u64_wrap_small by (unfold in_u64; lia). split; lia.
  - unfold running at 1. cbn. rewrite L, (inv_active _ H), u64_succ_small; lia.
  - rewrite (inv_order _ H), Hq. cbn. by rewrite <- app_assoc.
  - unfold running. cbn. rewrite <- P, (inv_started _ H). by rewrite app_assoc.
  - intros Hd. destruct (inv_dropped _ H Hd). congruence.
  - intros Hr. eapply elem_insert in Hr as [?|Hr]; [done| |done].
    destruct (inv_returned _ H Hr). congruence.
  - intros Hs. destruct (inv_stopping _ H Hs) as [?|Hn]; [by left|right].
    intros Hin. by eapply elem_insert in Hin as [?|Hin].
  - unfold idle. cbn. rewrite (inv_active _ H), u64_succ_small by lia.
    intros Hi2%andb_true_iff. destruct Hi2 as [_ Hi2]. bool_to_prop. lia.
  - intros _ _. right. exists (Running item). split; [|done].
    apply list_elem_of_insert. by eapply lookup_lt_Some.
Qed.

(** The state after a task, before the notifications of its critical section. *)
Definition after_task (i : nat) (item : Item) (e : Executor) : Executor :=
  mkExecutor (capacity e) (cleanup_reserve e) (queue e)
    (<[i := Awake]> (workers e)) (drainers e) (ordinary_queued e)
    (u64_wrap (active e - 1)) (accepting e) (stopping e) (drain_flag e) (pending_one e)
    (pending_all e) (accepted e) (started e) (completed e ++ [item]) (dropped e).

(** It satisfies the invariant but for sleeping drainers when it became idle. *)
Lemma inv_after_task e i item :
  inv e -> workers e !! i = Some (Running item) ->
  inv (set_drainers (if idle (after_task i item e) then wake_drainer <$> drainers e
                     else drainers e) (after_task i item e)).
Proof.
  intros H Hi.
  destruct (inv_limits _ H) as (? & ? & ? & ? & ?).
  pose proof (running_insert e i (Running item) Awake Hi) as P. cbn in P.
  rewrite app_nil_r in P.
  assert (L : length (running e)
    = S (length (concat (running_item <$> <[i:=Awake]> (workers e))))).
  { unfold running. rewrite P, length_app. cbn. lia. }
  pose proof (running_length (workers e)) as Lb. fold (running e) in Lb.
  split; cbn; try apply H.
  - split_and!; try done; [by rewrite length_insert|by eapply insert_nonempty].
  - unfold running at 1. cbn. rewrite (inv_active _ H), L, u64_wrap_small; unfold in_u64; lia.
  - unfold running. cbn. rewrite (inv_started _ H). unfold running. rewrite P.
    solve_Permutation.
  - intros Hr. eapply elem_insert in Hr as [?|Hr]; [done|by apply (inv_returned _ H)|done].
  - intros Hs. destruct (inv_stopping _ H Hs) as [?|Hn]; [by left|right].
    intros Hin. by eapply elem_insert in Hin as [?|Hin].
  - change (idle (set_drainers _ (after_task i item e))) with (idle (after_task i item e)).
    intros ->. right. apply drain_sleeping_wake.
  - intros _ _. right. exists Awake. split; [|done].
    apply list_elem_of_insert. by eapply lookup_lt_Some.
Qed.

Lemma wake_all_drainers d e :
  wake_drainer <$> d = wake_drainer <$> drainers e ->
  wake_all (set_drainers d e) = wake_all e.
Proof. unfold wake_all. cbn. by intros ->. Qed.

Lemma wake_all_inv e : inv e -> inv (wake_all e).
Proof. intros H. apply (inv_wake_all e (pending_one e) (pending_all e)) in H; [|done]. by destruct e. Qed.

Lemma executor_inv_worker_step i e : inv e -> inv (worker_step i e).
Proof.
  intros H. destruct (workers e !! i) as [[| |item|]|] eqn:Hi;
    try (unfold worker_step; by rewrite Hi).
  - destruct (queue e) as [|item rest] eqn:Hq; [|by eapply inv_take].
    unfold worker_step. rewrite Hi, Hq. rewrite (bool_decide_eq_true_2 ([] = [])) by done.
    cbn [negb]. rewrite orb_false_r. destruct (stopping e) eqn:Hs.
    + by eapply inv_set_worker.
    + by eapply inv_set_worker.
  - pose proof (inv_after_task e i item H Hi) as Ha.
    unfold worker_step. rewrite Hi. fold (after_task i item e).
    destruct (idle (after_task i item e)) eqn:E; rewrite ?E in Ha.
    + apply wake_all_inv in Ha. rewrite wake_all_drainers in Ha; [done|].
      rewrite <- list_fmap_compose. apply list_fmap_ext. by intros ? [] ?.
    + assert (inv (after_task i item e)) by exact Ha.
      case_match; [by apply wake_all_inv|done].
Qed.

Lemma inv_notify_one w e : inv e -> inv (notify_one w e).
Proof.
  intros H. unfold notify_one. destruct (pending_one e) as [|n] eqn:E; [done|].
  assert (Hlost : someone_sleeps e = false -> inv (set_pending n (pending_all e) e)).
  { intros Hs. apply orb_false_iff in Hs as [Hs _]. bool_to_prop.
    split; cbn; try apply H. intros Hq Hd.
    destruct (workers e) as [|x ws] eqn:Ew; [by destruct (inv_limits _ H) as (?&?&?&?&?)|].
    right. exists x. split; [by left|]. split; intros ->; [by apply Hs; left|].
    destruct (inv_returned _ H) as [_ ?]; [rewrite Ew; by left|done]. }
  destruct w as [i|j]; case_bool_decide as Hi.
  - pose proof (inv_set_worker i Sleeping Awake e H Hi eq_refl ltac:(done) ltac:(done)) as H1.
    destruct H1 as [? ? ? ? ? ? ? ? ? ? Hw]. split; cbn; try done.
    intros Hq Hd. right. exists Awake. split; [|done].
    apply list_elem_of_insert. by eapply lookup_lt_Some.
  - case_match; auto.
  - assert (H1 : inv (set_drainers (<[j:=DrainAwake]> (drainers e)) e)).
    { apply inv_set_drainers; [done| | |].
      - right. by eapply insert_nonempty.
      - intros Hid Hp Hin. eapply elem_insert in Hin as [?|Hin]; [done| |done].
        by destruct (inv_idle _ H Hid).
      - intros E2. exfalso. by eapply insert_nonempty. }
    destruct H1. split; cbn; try done.
    intros _ E2. exfalso. by eapply insert_nonempty.
  - case_match; auto.
Qed.

Lemma inv_notify_all e : inv e -> inv (notify_all e).
Proof.
  intros H. unfold notify_all. destruct (pending_all e); [done|]. by apply inv_wake_all.
Qed.

Lemma executor_inv_run ops e : inv e -> inv (run ops e).
Proof.
  apply (foldl_preserves apply inv). intros s [] H; cbn;
    auto using inv_submit, inv_stop_admission, executor_inv_shutdown, inv_drain_call,
      inv_notify_one, inv_notify_all, executor_inv_worker_step, inv_drainer_step.
  - by apply inv_submit.
  - by apply inv_submit.
Qed.

(** ** The executor's contract *)

(** Resource accounting: in every interleaving the queue stays within the
    capacity, [ordinary_queued_] is exactly the number of queued ordinary tasks
    and leaves the reserve free, [active_] is exactly the number of running
    tasks (so neither counter ever underflows), tasks start in submission order,
    and an accepted task is completed, running, queued, or was dropped by a
    non-draining shutdown. *)
Theorem executor_accounting (threads cap reserve : nat) (e0 : Executor) (ops : list Op) :
  Z.of_nat threads < 2 ^ 64 -> Z.of_nat cap < 2 ^ 64 ->
  make threads cap reserve = Ok e0 ->
  let e := run ops e0 in
  (length (queue e) <= capacity e)%nat
  /\ ordinary_queued e = Z.of_nat (count_if is_ordinary (queue e))
  /\ (count_if is_ordinary (queue e) + cleanup_reserve e <= capacity e)%nat
  /\ active e = Z.of_nat (length (running e))
  /\ accepted e = started e ++ queue e ++ dropped e
  /\ started e ≡ₚ completed e ++ running e
  /\ (dropped e <> [] -> stopping e = true).
Proof.
  intros Ht Hc Hm. cbn. pose proof (executor_inv_run ops e0 (inv_make _ _ _ _ Ht Hc Hm)) as H.
  destruct (inv_limits _ H) as (? & ? & _), (inv_ordinary _ H) as [? ?].
  split_and!; try apply H; try lia.
Qed.

Lemma submit_cleanup_room e t :
  inv e -> stopping e = false ->
  (count_if item_cleanup (queue e) < cleanup_reserve e)%nat ->
  (submit_cleanup (Some t) e).2 = true.
Proof.
  intros H Hs Hc. unfold submit_cleanup, submit_impl. rewrite Hs. cbn [orb negb andb].
  destruct (inv_limits _ H) as (? & ? & _), (inv_ordinary _ H) as [_ Ho].
  pose proof (count_if_split is_ordinary (queue e)) as Hl.
  assert (E : count_if (fun x => negb (is_ordinary x)) (queue e)
    = count_if item_cleanup (queue e)).
  { clear. induction (queue e) as [|x l IH]; [done|]. rewrite !count_if_cons, IH.
    unfold is_ordinary at 1. by rewrite negb_involutive. }
  destruct (capacity e <=? length (queue e))%nat eqn:E2; [|done]. bool_to_prop. lia.
Qed.

(** Ordinary work cannot starve cleanup: until the executor is stopping, a
    cleanup submission is accepted whenever fewer than [cleanup_reserve]
    cleanup tasks are queued, however many ordinary tasks were submitted and
    even after [stop_admission]. *)
Theorem cleanup_never_starved (threads cap reserve task : nat) (e0 : Executor) (ops : list Op) :
  Z.of_nat threads < 2 ^ 64 -> Z.of_nat cap < 2 ^ 64 ->
  make threads cap reserve = Ok e0 ->
  let e := run ops e0 in
  stopping e = false ->
  (count_if item_cleanup (queue e) < cleanup_reserve e)%nat ->
  (submit_cleanup (Some task) e).2 = true.
Proof.
  intros Ht Hc Hm. cbn. intros Hs Hl. apply submit_cleanup_room; auto.
  exact (executor_inv_run ops e0 (inv_make _ _ _ _ Ht Hc Hm)).
Qed.

(** No lost wake-up as long as nobody has called [drain]: whenever a task is
    queued, a notification is still to be delivered or some worker is awake or
    running; and once the executor is stopping, no worker is left asleep after
    the final notification, so the joins of [shutdown] are reached. *)
Theorem no_lost_wakeup (threads cap reserve : nat) (e0 : Executor) (ops : list Op) :
  Z.of_nat threads < 2 ^ 64 -> Z.of_nat cap < 2 ^ 64 ->
  make threads cap reserve = Ok e0 ->
  let e := run ops e0 in
  (drainers e = [] -> queue e <> [] ->
   pending_one e <> O \/ exists w, w ∈ workers e /\ w <> Sleeping /\ w <> Returned)
  /\ (stopping e = true -> pending_all e = O -> Sleeping ∉ workers e)
  /\ (idle e = true -> pending_all e = O -> DrainSleeping ∉ drainers e).
Proof.
  intros Ht Hc Hm. cbn. pose proof (executor_inv_run ops e0 (inv_make _ _ _ _ Ht Hc Hm)) as H.
  split_and!.
  - intros Hd Hq. by apply (inv_wakeup _ H).
  - intros Hs Hp. by destruct (inv_stopping _ H Hs).
  - intros Hi Hp. by destruct (inv_idle _ H Hi).
Qed.

(** A task is queued although every thread sleeps and nothing is left to wake it. *)
Definition stuck (e : Executor) : Prop :=
  queue e <> [] /\ pending_one e = O /\ pending_all e = O
  /\ Forall (fun w => w = Sleeping) (workers e)
  /\ Forall (fun d => d = DrainSleeping) (drainers e).

(** A stuck executor stays as it is until somebody submits again or shuts it down. *)
Lemma stuck_no_progress e o :
  stuck e ->
  match o with OpWorker _ | OpDrainer _ | OpNotifyOne _ | OpNotifyAll => True | _ => False end ->
  apply e o = e.
Proof.
  intros (_ & H1 & H2 & Hw & Hd). destruct o; try done; intros _; cbn.
  - unfold notify_one. by rewrite H1.
  - unfold notify_all. by rewrite H2.
  - unfold worker_step. destruct (workers e !! i) as [w|] eqn:E; [|done].
    by eapply Forall_lookup_1 in Hw as ->.
  - unfold drainer_step. destruct (drainers e !! j) as [d|] eqn:E; [|done].
    by eapply Forall_lookup_1 in Hd as ->.
Qed.

(** Workers and [drain] callers wait on one condition variable and [submit]
    uses [notify_one]: when the single notification is delivered to a thread in
    [drain], the task stays queued with all workers asleep, and no thread of
    the executor can make progress. *)
Theorem drain_steals_wakeup :
  exists e0 ops, make 1 1 0 = Ok e0 /\ stuck (run ops e0)
  /\ forall o, match o with
       | OpWorker _ | OpDrainer _ | OpNotifyOne _ | OpNotifyAll => True | _ => False end ->
     apply (run ops e0) o = run ops e0.
Proof.
  eexists _, [OpWorker 0; OpSubmit (Some 7%nat); OpDrain; OpNotifyOne (DrainWaiter 0); OpDrainer 0].
  split; [reflexivity|].
  assert (S : stuck (run [OpWorker 0; OpSubmit (Some 7%nat); OpDrain;
    OpNotifyOne (DrainWaiter 0); OpDrainer 0]
    (mkExecutor 1 0 [] [Awake] [] 0 0 true false true 0 0 [] [] [] []))).
  { vm_compute. repeat split; try done; repeat constructor. }
  split; [exact S|]. intros o. by apply stuck_no_progress.
Qed.

(** *** Concrete runs *)

Definition one_of_each : Executor :=
  mkExecutor 3 1 [] [Awake] [] 0 0 true false true 0 0 [] [] [] [].

Definition flood : list Op :=
  [OpSubmit (Some 1); OpSubmit (Some 2); OpSubmit (Some 3); OpStopAdmission]%nat.

Lemma executor_accounting_witness :
  let e := run (flood ++ [OpWorker 0; OpShutdown false]) one_of_each in
  active e = 1 /\ dropped e = [mkItem 2 false] /\ accepted e = started e ++ queue e ++ dropped e.
Proof.
  destruct (executor_accounting 1 3 1 one_of_each (flood ++ [OpWorker 0; OpShutdown false]))
    as (_ & _ & _ & _ & H & _); [lia|lia|reflexivity|].
  split; [reflexivity|]. split; [reflexivity|exact H].
Defined.

Lemma cleanup_never_starved_witness :
  (submit_cleanup (Some 9%nat) (run flood one_of_each)).2 = true.
Proof.
  apply (cleanup_never_starved 1 3 1 9 one_of_each flood);
    [lia|lia|reflexivity|reflexivity|vm_compute; lia].
Defined.

Lemma no_lost_wakeup_witness :
  pending_one (run flood one_of_each) <> O
  \/ exists w, w ∈ workers (run flood one_of_each) /\ w <> Sleeping /\ w <> Returned.
Proof.
  destruct (no_lost_wakeup 1 3 1 one_of_each flood) as [H _]; [lia|lia|reflexivity|].
  apply H; [reflexivity|]. vm_compute. discriminate.
Defined.

End Executor.

Module Admission.
Local Open Scope Z_scope.

(** Where a thread is inside [acquire] or [release]: each state is the next
    atomic access it makes. *)
Inductive Thread :=
| Idle
| AcquireCheck                 (* if (!accepting_.load()) return false *)
| AcquireLoad                  (* auto current = active_.load() *)
| AcquireLoop (current : Z)    (* while (current < capacity_) compare_exchange *)
| AcquireRecheck               (* if (accepting_.load()) return true *)
| ReleaseSub                   (* previous = active_.fetch_sub(1) *)
| ReleaseStore                 (* if (previous == 0) active_.store(0) *)
| Holding.

#[export] Instance Thread_eq_dec : EqDecision Thread.
Proof. solve_decision. Defined.

Record AdmissionCounter := mkAdmissionCounter {
  capacity : Z;
  active : Z;
  accepting : bool;
  threads : list Thread;
}.

Definition make (cap : Z) (n : nat) : AdmissionCounter :=
  mkAdmissionCounter cap 0 true (replicate n Idle).

(** The next access of one thread: the new shared counter and the thread's next
    state.  [weak] says whether [compare_exchange_weak] fails spuriously. *)
Definition access (weak : bool) (cap act : Z) (acc : bool) (t : Thread) : Z * Thread :=
  match t with
  | AcquireCheck => (act, if acc then AcquireLoad else Idle)
  | AcquireLoad => (act, AcquireLoop act)
  | AcquireLoop current =>
      if current <? cap then
        if (act =? current) && negb weak then (u64_wrap (current + 1), AcquireRecheck)
        else (act, AcquireLoop act)
      else (act, Idle)
  | AcquireRecheck => (act, if acc then Holding else ReleaseSub)
  | ReleaseSub => (u64_wrap (act - 1), if act =? 0 then ReleaseStore else Idle)
  | ReleaseStore => (0, Idle)
  | Idle | Holding => (act, t)
  end.

Inductive Op :=
| OpAcquire (i : nat)           (* an idle thread calls acquire *)
| OpRelease (i : nat)           (* a holder calls release *)
| OpStop
| OpStep (i : nat) (weak : bool).

Definition set_thread (i : nat) (act : Z) (t : Thread) (c : AdmissionCounter) : AdmissionCounter :=
  mkAdmissionCounter (capacity c) act (accepting c) (<[i := t]> (threads c)).

Definition apply (c : AdmissionCounter) (o : Op) : AdmissionCounter :=
  match o with
  | OpAcquire i =>
      if bool_decide (threads c !! i = Some Idle)
      then set_thread i (active c) AcquireCheck c else c
  | OpRelease i =>
      if bool_decide (threads c !! i = Some Holding)
      then set_thread i (active c) ReleaseSub c else c
  | OpStop => mkAdmissionCounter (capacity c) (active c) false (threads c)
  | OpStep i weak =>
      match threads c !! i with
      | None => c
      | Some t =>
          let '(act, t') := access weak (capacity c) (active c) (accepting c) t in
          set_thread i act t' c
      end
  end.

Definition run (ops : list Op) (c : AdmissionCounter) : AdmissionCounter := foldl apply c ops.

(** The threads that own a unit of the counter. *)
Definition owns (t : Thread) : nat :=
  match t with AcquireRecheck | ReleaseSub | Holding => 1 | _ => 0 end.
Definition owned (c : AdmissionCounter) : nat := sum_list_with owns (threads c).

Record inv (c : AdmissionCounter) : Prop := mkInv {
  inv_capacity : in_u64 (capacity c);
  inv_active : active c = Z.of_nat (owned c);
  inv_bound : active c <= capacity c;
  inv_store : ReleaseStore ∉ threads c;
}.

Lemma sum_list_with_insert {A} (f : A -> nat) (l : list A) i x y :
  l !! i = Some x ->
  (sum_list_with f (<[i := y]> l) + f x = sum_list_with f l + f y)%nat.
Proof.
  intros H. rewrite (list_insert_split _ _ _ _ H). rewrite (list_split_at _ _ _ H) at 3.
  rewrite !sum_list_with_app. cbn. lia.
Qed.

Lemma not_elem_insert {A} i (x z : A) (l : list A) : z ∉ l -> z <> x -> z ∉ <[i := x]> l.
Proof.
  intros Hl Hx [k [(_ & -> & _)|[_ Hk]]%list_lookup_insert_Some]%list_elem_of_lookup; [done|].
  by apply Hl, list_elem_of_lookup_2 with k.
Qed.

Lemma inv_set_thread c i t act t' :
  inv c -> threads c !! i = Some t ->
  act + Z.of_nat (owns t) = active c + Z.of_nat (owns t') ->
  act <= capacity c -> t' <> ReleaseStore -> inv (set_thread i act t' c).
Proof.
  intros H Hi Ha Hb Hn. split; cbn; try apply H; [|done|].
  - pose proof (sum_list_with_insert owns _ _ _ t' Hi) as E.
    pose proof (inv_active _ H). unfold owned in *. cbn. lia.
  - apply not_elem_insert; [apply H|done].
Qed.

Lemma owned_at_least c i t : threads c !! i = Some t -> (owns t <= owned c)%nat.
Proof. intros H. apply sum_list_with_in. by eapply list_elem_of_lookup_2. Qed.

Lemma admission_inv_step c i weak : inv c -> inv (apply c (OpStep i weak)).
Proof.
  intros H. cbn. destruct (threads c !! i) as [t|] eqn:Hi; [|done].
  pose proof (inv_bound _ H) as Hb. pose proof (inv_active _ H) as Ha.
  destruct (inv_capacity _ H) as [Hc1 Hc2]. pose proof (owned_at_least c i t Hi) as Ho.
  destruct t; cbn; try (eapply inv_set_thread; eauto; cbn; lia || done).
  - eapply inv_set_thread; eauto; destruct (accepting c); cbn; lia || done.
  - destruct (current <? capacity c) eqn:E1; [|by eapply inv_set_thread; eauto].
    destruct (_ && _) eqn:E2; [|by eapply inv_set_thread; eauto]. bool_to_prop. subst.
    rewrite u64_wrap_small by (unfold in_u64; lia).
    eapply inv_set_thread; eauto; cbn; lia || done.
  - eapply inv_set_thread; eauto; destruct (accepting c); cbn; lia || done.
  - cbn in Ho. destruct (active c =? 0) eqn:E; bool_to_prop; [lia|].
    rewrite u64_wrap_small by (unfold in_u64; lia).
    eapply inv_set_thread; eauto; cbn; lia || done.
  - exfalso. apply (inv_store _ H). by eapply list_elem_of_lookup_2.
Qed.

Lemma admission_inv_apply c o : inv c -> inv (apply c o).
Proof.
  intros H. destruct o; [| | |by apply admission_inv_step]; cbn.
  - case_bool_decide; [|done]. eapply inv_set_thread; eauto; cbn; apply H || done.
  - case_bool_decide; [|done]. eapply inv_set_thread; eauto; cbn; apply H || done.
  - by destruct H; split.
Qed.

Lemma admission_inv_run cap n ops : in_u64 cap -> inv (run ops (make cap n)).
Proof.
  intros Hc. apply (foldl_preserves apply inv); [intros; by apply admission_inv_apply|].
  split; cbn; [done| |by destruct Hc|by intros [? _]%elem_of_replicate].
  unfold owned. cbn. by induction n.
Qed.

Definition holders (c : AdmissionCounter) : nat := length (filter (fun t => t = Holding) (threads c)).

Lemma holders_owned l :
  (length (filter (fun t => t = Holding) l) <= sum_list_with owns l)%nat.
Proof.
  induction l as [|t l IH]; [done|]. rewrite filter_cons.
  case_decide as E; [subst|]; cbn; lia.
Qed.

(** The lock-free counter is exact and never over-admits: under every
    interleaving of the atomic accesses of [acquire], [release] and [stop]
    (spurious failures of the weak exchange included) [active_] equals the
    units owned, the holders never exceed the capacity, and the repair store of
    [release] is never reached, so the counter never underflows. *)
Theorem admission_exact (cap : Z) (n : nat) (ops : list Op) :
  in_u64 cap ->
  let c := run ops (make cap n) in
  active c = Z.of_nat (owned c) /\ active c <= cap
  /\ Z.of_nat (holders c) <= cap /\ ReleaseStore ∉ threads c.
Proof.
  intros Hc. cbn. pose proof (admission_inv_run cap n ops Hc) as H.
  assert (E : capacity (run ops (make cap n)) = cap).
  { apply (foldl_preserves apply (fun c => capacity c = cap)); [|done].
    intros c [] Hcap; cbn; try (case_bool_decide; done); [done|].
    case_match; [|done]. by case_match. }
  pose proof (inv_bound _ H) as Hb. rewrite E in Hb. split_and!; try apply H; [done|].
  pose proof (holders_owned (threads (run ops (make cap n)))).
  pose proof (inv_active _ H). unfold holders, owned in *. lia.
Qed.

Lemma stopped_step c o i :
  accepting c = false -> threads (apply c o) !! i = Some Holding ->
  accepting (apply c o) = false /\ threads c !! i = Some Holding.
Proof.
  intros Ha. destruct o as [j|j| |j weak]; cbn; [| |done|].
  - case_bool_decide; [|done]. cbn. split; [done|].
    by apply list_lookup_insert_Some in H0 as [(_ & ? & _)|[_ ?]].
  - case_bool_decide; [|done]. cbn. split; [done|].
    by apply list_lookup_insert_Some in H0 as [(_ & ? & _)|[_ ?]].
  - destruct (threads c !! j) as [t|] eqn:Hj; [|done]. rewrite Ha.
    destruct (access weak (capacity c) (active c) false t) as [act t'] eqn:E. cbn.
    intros [(-> & -> & _)|[_ ?]]%list_lookup_insert_Some; [|done]. split; [done|].
    destruct t; cbn in E; repeat case_match; simplify_eq; done.
Qed.

(** [stop] closes admission at once: from the moment [accepting_] is false
    no thread obtains admission, even one that had already passed the first
    check or incremented the counter; the holders can only drain. *)
Theorem admission_stop_final (c : AdmissionCounter) (ops : list Op) (i : nat) :
  accepting c = false -> threads (run ops c) !! i = Some Holding ->
  threads c !! i = Some Holding.
Proof.
  revert c. induction ops as [|o ops IH]; intros c Ha Hi; [done|].
  assert (Ha' : accepting (apply c o) = false).
  { destruct o; cbn; try (case_bool_decide; done); [done|]. case_match; [|done]. by case_match. }
  by apply (stopped_step c o i Ha), IH.
Qed.

(** Two threads race for the single unit; one is refused. *)
Lemma admission_exact_witness :
  let c := run [OpAcquire 0; OpAcquire 1; OpStep 0 false; OpStep 1 false; OpStep 0 false;
    OpStep 1 false; OpStep 0 false; OpStep 1 false; OpStep 1 false; OpStep 0 false] (make 1 2) in
  threads c = [Holding; Idle] /\ Z.of_nat (holders c) <= 1.
Proof.
  split; [reflexivity|].
  destruct (admission_exact 1 2 [OpAcquire 0; OpAcquire 1; OpStep 0 false; OpStep 1 false;
    OpStep 0 false; OpStep 1 false; OpStep 0 false; OpStep 1 false; OpStep 1 false;
    OpStep 0 false]) as (_ & _ & H & _); [unfold in_u64; lia|exact H].
Defined.

Lemma admission_stop_final_witness :
  threads (mkAdmissionCounter 2 2 false [Holding; AcquireRecheck]) !! 0%nat = Some Holding.
Proof.
  apply (admission_stop_final _ [OpStep 1 false; OpStep 1 false] 0); reflexivity.
Defined.

End Admission.

(** [SequencedRing]. *)
Module Ring.
Local Open Scope Z_scope.

Section Ring.
Context {Event : Type}.

Record Entry := mkEntry { sequence : Z; event : Event }.
Record ReadResult := mkReadResult { behind : bool; read_entries : list Entry }.
Record SequencedRing := mkRing {
  capacity : nat;
  entries : list Entry;
  next_sequence : Z;
}.

Definition make (cap : nat) : outcome string SequencedRing :=
  if (cap =? 0)%nat then Err "ring capacity must be positive"%string
  else Ok (mkRing cap [] 1).

Definition publish (ev : Event) (r : SequencedRing) : SequencedRing * Z :=
  let seq := next_sequence r in
  let es := entries r ++ [mkEntry seq ev] in
  (mkRing (capacity r) (if (capacity r <? length es)%nat then drop 1 es else es)
     (u64_succ seq), seq).

Definition after (seq : Z) (r : SequencedRing) : ReadResult :=
  match entries r with
  | front :: _ =>
      if negb (seq =? 0) && (u64_wrap (seq + 1) <? sequence front)
      then mkReadResult true []
      else mkReadResult false (filter (fun e => seq < sequence e) (entries r))
  | [] => mkReadResult false []
  end.

Definition publish_all (evs : list Event) (r : SequencedRing) : SequencedRing :=
  foldl (fun r ev => (publish ev r).1) r evs.

(** The reference: number every event ever published, keep the last ones. *)
Fixpoint number (n : Z) (evs : list Event) : list Entry :=
  match evs with [] => [] | e :: l => mkEntry n e :: number (n + 1) l end.

Lemma number_app n l k : number n (l ++ k) = number n l ++ number (n + Z.of_nat (length l)) k.
Proof.
  revert n. induction l as [|x l IH]; intros n; cbn; [by rewrite Z.add_0_r|].
  rewrite IH. do 3 f_equal. lia.
Qed.

Lemma length_number n l : length (number n l) = length l.
Proof. revert n. induction l; intros; cbn; auto. Qed.

Lemma number_drop n l k :
  drop k (number n l) = number (n + Z.of_nat k) (drop k l).
Proof.
  revert n k. induction l as [|x l IH]; intros n [|k]; cbn; try done; [by rewrite Z.add_0_r|].
  rewrite IH. f_equal. lia.
Qed.

Lemma number_filter_all s n l :
  s < n -> filter (fun e => s < sequence e) (number n l) = number n l.
Proof.
  revert n. induction l as [|x l IH]; intros n Hn; cbn [number]; [done|].
  rewrite filter_cons. cbn. rewrite decide_True by done. f_equal. apply IH. lia.
Qed.

(** Filtering a numbered list by its cursor is dropping a prefix. *)
Lemma number_filter s n l :
  n <= s + 1 ->
  filter (fun e => s < sequence e) (number n l) = drop (Z.to_nat (s + 1 - n)) (number n l).
Proof.
  revert n. induction l as [|x l IH]; intros n Hn; cbn [number]; [by rewrite drop_nil|].
  rewrite filter_cons. cbn. destruct (decide (n = s + 1)) as [->|Hne].
  - rewrite decide_True by lia. replace (s + 1 - (s + 1)) with 0 by lia.
    rewrite drop_0. f_equal. apply number_filter_all. lia.
  - rewrite decide_False by lia. rewrite IH by lia.
    replace (Z.to_nat (s + 1 - n)) with (S (Z.to_nat (s + 1 - (n + 1)))) by lia. done.
Qed.

Lemma publish_all_entries cap r evs :
  make cap = Ok r -> Z.of_nat (length evs) + 1 < 2 ^ 64 ->
  publish_all evs r =
  mkRing cap (keep_last cap (number 1 evs)) (Z.of_nat (length evs) + 1).
Proof.
  unfold make. case_match eqn:E; [done|]. intros [= <-]. bool_to_prop.
  induction evs as [|ev evs IH] using rev_ind; intros Hl; [done|].
  rewrite length_app in *. cbn in Hl. unfold publish_all in *.
  rewrite foldl_app, IH by lia. cbn [foldl publish fst capacity entries next_sequence].
  rewrite number_app. cbn [number]. replace (1 + Z.of_nat (length evs)) with (Z.of_nat (length evs) + 1) by lia.
  f_equal; [|cbn [length]; rewrite u64_succ_small; lia].
  unfold keep_last. rewrite !length_app, length_drop, length_number. cbn [length].
  destruct (_ <? _)%nat eqn:E2; bool_to_prop.
  - rewrite <- drop_app_le by (rewrite length_number; lia). rewrite drop_drop. f_equal. lia.
  - rewrite <- drop_app_le by (rewrite length_number; lia). f_equal. lia.
Qed.

(** The sequence number of the oldest retained entry. *)
Lemma keep_last_number cap evs :
  keep_last cap (number 1 evs) =
  number (1 + Z.of_nat (length evs - cap)) (drop (length evs - cap) evs).
Proof. unfold keep_last. by rewrite length_number, number_drop. Qed.

(** Cursor reads of the ring are gap free: for a reader that has seen
    sequence [s] of [n] published events, [after s] either reports that the
    reader is behind, exactly when the next event it needs was evicted, or
    returns precisely the events [s+1 .. n], in order and with their sequence
    numbers.  A reader without a cursor ([s = 0]) gets everything retained. *)
Theorem ring_reads_gap_free (cap : nat) (r0 : SequencedRing) (evs : list Event) (s : nat) :
  make cap = Ok r0 -> Z.of_nat (length evs) + 1 < 2 ^ 64 ->
  (s <= length evs)%nat ->
  let r := publish_all evs r0 in
  (behind (after (Z.of_nat s) r) = true <-> (s <> 0%nat /\ s < length evs - cap)%nat)
  /\ (behind (after (Z.of_nat s) r) = false -> s <> 0%nat ->
      read_entries (after (Z.of_nat s) r) = drop s (number 1 evs))
  /\ (s = 0%nat -> read_entries (after 0 r) = keep_last cap (number 1 evs)).
Proof.
  intros Hm Hl Hs. cbn. rewrite (publish_all_entries _ _ _ Hm Hl).
  assert (Hc : (0 < cap)%nat).
  { unfold make in Hm. destruct cap; cbn in Hm; [done|lia]. }
  unfold after. cbn [entries]. rewrite keep_last_number.
  set (k := (length evs - cap)%nat).
  destruct (drop k evs) as [|x rest] eqn:Ed.
  - assert (length evs = 0%nat).
    { apply (f_equal length) in Ed. rewrite length_drop in Ed. cbn in Ed. lia. }
    destruct evs; [|done]. cbn in *. split; [split; [done|lia]|]. split; [|done].
    intros _ ?. lia.
  - cbn [number]. cbn [sequence].
    rewrite u64_wrap_small by (unfold in_u64; lia).
    assert (Hn : mkEntry (1 + Z.of_nat k) x :: number (1 + Z.of_nat k + 1) rest
      = number (1 + Z.of_nat k) (drop k evs)) by (by rewrite Ed).
    rewrite !Hn.
    destruct (negb (Z.of_nat s =? 0) && (Z.of_nat s + 1 <? 1 + Z.of_nat k)) eqn:E.
    + bool_to_prop. cbn. split; [split; [lia|done]|]. split; [done|]. lia.
    + cbn [behind read_entries]. split; [split; [done|]|split].
      * intros [? ?]. apply andb_false_iff in E as [E|E]; bool_to_prop; lia.
      * intros _ ?. apply andb_false_iff in E as [E|E]; bool_to_prop; [lia|].
        rewrite number_filter, <- number_drop, drop_drop by lia. f_equal. lia.
      * intros ->. cbn. rewrite number_filter_all by lia. done.
Qed.

End Ring.

Lemma ring_reads_gap_free_witness :
  behind (after 1 (publish_all [10; 20; 30; 40; 50] (mkRing 2 [] 1))) = true
  /\ read_entries (after 3 (publish_all [10; 20; 30; 40; 50] (mkRing 2 [] 1)))
     = [mkEntry 4 40; mkEntry 5 50].
Proof.
  destruct (ring_reads_gap_free 2 (mkRing 2 [] 1) [10; 20; 30; 40; 50] 1) as [H1 _];
    [reflexivity|cbn; lia|cbn; lia|].
  destruct (ring_reads_gap_free 2 (mkRing 2 [] 1) [10; 20; 30; 40; 50] 3) as (_ & H2 & _);
    [reflexivity|cbn; lia|cbn; lia|].
  split; [apply H1; cbn; lia|exact (H2 eq_refl ltac:(lia))].
Defined.

End Ring.

(** [ActiveCallbackRegistry] and [SubscriptionHub]: a map of callbacks under
    increasing ids, and a flag that closes it.  A callback is represented by a
    number, a token by the id it carries (0 for an empty token). *)
Module Registry.
Local Open Scope Z_scope.

Record State := mkState {
  callbacks : gmap Z nat;
  next_id : Z;
  closed : bool;  (* shutting_down, or closed *)
}.

Definition make : State := mkState ∅ 1 false.

(** [register_callback] and [subscribe]; [emplace] keeps an existing entry. *)
Definition register (cb : option nat) (s : State) : State * Z :=
  match cb with
  | None => (s, 0)
  | Some f =>
      if closed s then (s, 0)
      else (mkState (match callbacks s !! next_id s with
                     | Some _ => callbacks s
                     | None => <[next_id s := f]> (callbacks s) end)
              (u64_succ (next_id s)) false, next_id s)
  end.

(** [Registration::reset] and [Subscription::reset] of a token with this id. *)
Definition reset (id : Z) (s : State) : State :=
  if id =? 0 then s else mkState (delete id (callbacks s)) (next_id s) (closed s).

Definition values (s : State) : list nat := (map_to_list (callbacks s)).*2.

(** [ActiveCallbackRegistry::shutdown] and the callbacks it invokes. *)
Definition shutdown (s : State) : State * list nat :=
  if closed s then (s, []) else (mkState (callbacks s) (next_id s) true, values s).

(** [SubscriptionHub::publish] and the callbacks it invokes. *)
Definition publish (s : State) : list nat := if closed s then [] else values s.

Definition close (s : State) : State := mkState ∅ (next_id s) true.

Inductive Edit := Register (cb : option nat) | Reset (id : Z).

Definition edit (s : State) (e : Edit) : State :=
  match e with Register cb => (register cb s).1 | Reset id => reset id s end.

Inductive Op := OpEdit (e : Edit) | OpShutdown.

Definition apply (x : State * list nat) (o : Op) : State * list nat :=
  match o with
  | OpEdit e => (edit x.1 e, x.2)
  | OpShutdown => ((shutdown x.1).1, x.2 ++ (shutdown x.1).2)
  end.

(** The abstract registry: the live registrations in order, numbered from 1. *)
Definition spec_edit (x : nat * list (Z * nat)) (e : Edit) : nat * list (Z * nat) :=
  match e with
  | Register None => x
  | Register (Some f) => (S x.1, x.2 ++ [(Z.of_nat x.1 + 1, f)])
  | Reset id => (x.1, filter (fun y => y.1 <> id) x.2)
  end.

Definition live (es : list Edit) : nat * list (Z * nat) := foldl spec_edit (0%nat, []) es.

Record refines (s : State) (x : nat * list (Z * nat)) : Prop := mkRefines {
  ref_open : closed s = false;
  ref_next : next_id s = Z.of_nat x.1 + 1;
  ref_map : callbacks s = list_to_map x.2;
  ref_nodup : NoDup x.2.*1;
  ref_keys : forall k, k ∈ x.2.*1 -> 1 <= k <= Z.of_nat x.1;
}.

Lemma refines_values s x : refines s x -> values s ≡ₚ x.2.*2.
Proof. intros H. unfold values. rewrite (ref_map _ _ H), map_to_list_to_map; [done|apply H]. Qed.

Lemma spec_edit_count x e : (spec_edit x e).1 = x.1 \/ (spec_edit x e).1 = S x.1.
Proof. destruct e as [[]|]; cbn; auto. Qed.

Lemma list_to_map_filter_ne (l : list (Z * nat)) id :
  list_to_map (filter (fun y => y.1 <> id) l) = (delete id (list_to_map l) : gmap Z nat).
Proof.
  induction l as [|[k v] l IH]; [by cbn; rewrite delete_empty|].
  rewrite filter_cons. cbn. case_decide as E.
  - cbn. rewrite IH. by rewrite delete_insert_ne.
  - subst k. rewrite IH. by rewrite delete_insert_eq.
Qed.

Lemma filter_fst_sub (l : list (Z * nat)) id k :
  k ∈ (filter (fun y => y.1 <> id) l).*1 -> k ∈ l.*1.
Proof.
  intros (y & -> & [_ Hy]%list_elem_of_filter)%list_elem_of_fmap. by apply list_elem_of_fmap_2.
Qed.

Lemma filter_fst_nodup (l : list (Z * nat)) id :
  NoDup l.*1 -> NoDup (filter (fun y => y.1 <> id) l).*1.
Proof.
  induction l as [|y l IH]; [done|]. rewrite filter_cons, fmap_cons, NoDup_cons. intros [Hn Hd].
  case_decide; [|by apply IH]. cbn. apply NoDup_cons. split; [|by apply IH].
  by intros Hk%filter_fst_sub.
Qed.

Lemma refines_register s x f :
  refines s x -> Z.of_nat x.1 + 2 < 2 ^ 64 ->
  refines (register (Some f) s).1 (spec_edit x (Register (Some f)))
  /\ (register (Some f) s).2 = Z.of_nat x.1 + 1.
Proof.
  intros H Hx. cbn. rewrite (ref_open _ _ H), (ref_next _ _ H). destruct x as [n l]; cbn in *.
  split; [|done].
  assert (Hn : (Z.of_nat n + 1) ∉ l.*1).
  { intros Hk. pose proof (ref_keys _ _ H _ Hk). cbn in *. lia. }
  rewrite (ref_map _ _ H). cbn. rewrite (not_elem_of_list_to_map_1 _ _ Hn). split; cbn.
  - done.
  - rewrite u64_succ_small; lia.
  - rewrite list_to_map_snoc by done. done.
  - rewrite fmap_app. apply NoDup_app. split_and!; [apply H| |apply NoDup_singleton].
    intros k Hk ->%list_elem_of_singleton. done.
  - intros k. rewrite fmap_app. intros [Hk|Hk]%elem_of_app.
    + pose proof (ref_keys _ _ H _ Hk). cbn in *. lia.
    + apply list_elem_of_singleton in Hk. cbn in Hk. lia.
Qed.

Lemma refines_reset s x id : refines s x -> refines (reset id s) (spec_edit x (Reset id)).
Proof.
  intros H. cbn.
  assert (E : callbacks (reset id s) = delete id (callbacks s)
    /\ closed (reset id s) = closed s /\ next_id (reset id s) = next_id s).
  { unfold reset. case_match eqn:E; bool_to_prop; [|done]. subst. split_and!; try done.
    symmetry. apply delete_id. rewrite (ref_map _ _ H). apply not_elem_of_list_to_map_1.
    intros Hk. pose proof (ref_keys _ _ H _ Hk). lia. }
  destruct E as (E1 & E2 & E3). split; cbn.
  - rewrite E2. apply H.
  - rewrite E3. apply H.
  - by rewrite E1, list_to_map_filter_ne, (ref_map _ _ H).
  - apply filter_fst_nodup, H.
  - intros k Hk%filter_fst_sub. by apply (ref_keys _ _ H).
Qed.

Lemma live_refines es :
  Z.of_nat (length es) + 2 < 2 ^ 64 ->
  refines (foldl edit make es) (live es) /\ ((live es).1 <= length es)%nat.
Proof.
  unfold live. induction es as [|e es IH] using rev_ind; intros Hl.
  - split; [|done]. split; cbn; try done; [constructor|]. by intros k ?%elem_of_nil.
  - rewrite length_app in *. cbn in Hl. rewrite !foldl_app. cbn [foldl].
    destruct IH as [IH Hn]; [lia|]. split.
    + destruct e as [[f|]|id]; [|done|by apply refines_reset].
      apply refines_register; [done|lia].
    + pose proof (spec_edit_count (foldl spec_edit (0%nat, []) es) e). cbn. lia.
Qed.

Lemma apply_edits es x :
  foldl apply x (OpEdit <$> es) = (foldl edit x.1 es, x.2).
Proof. revert x. induction es as [|e es IH]; intros [s l]; cbn; [done|]. by rewrite IH. Qed.

Lemma edit_closed s e : closed s = true -> closed (edit s e) = true.
Proof. destruct e as [[]|]; cbn; intros H; rewrite ?H; try done. unfold reset. by case_match. Qed.

Lemma apply_closed ops s l :
  closed s = true -> (foldl apply (s, l) ops).2 = l /\ closed (foldl apply (s, l) ops).1 = true.
Proof.
  revert s. induction ops as [|[e|] ops IH]; intros s Hs; cbn; [done| |].
  - apply IH. by apply edit_closed.
  - unfold shutdown. rewrite Hs. cbn. rewrite app_nil_r. by apply IH.
Qed.

(** Shutdown edge of the callback registry: whatever was registered and
    reset before, the first shutdown invokes exactly the live callbacks, each
    once; nothing after it (registrations, resets, further shutdowns) invokes
    a callback again, and every later registration is refused. *)
Theorem registry_shutdown_once (pre : list Edit) (post : list Op) :
  Z.of_nat (length pre) + 2 < 2 ^ 64 ->
  let r := foldl apply (make, []) ((OpEdit <$> pre) ++ OpShutdown :: post) in
  r.2 ≡ₚ (live pre).2.*2 /\ forall f, register f r.1 = (r.1, 0).
Proof.
  intros Hl. cbn. destruct (live_refines pre Hl) as [Hr _].
  rewrite foldl_app, apply_edits. cbn. unfold shutdown. rewrite (ref_open _ _ Hr). cbn.
  destruct (apply_closed post (mkState (callbacks (foldl edit make pre))
    (next_id (foldl edit make pre)) true) (values (foldl edit make pre)) eq_refl) as [-> Hc].
  split; [by apply refines_values|]. intros [f|]; cbn; by rewrite ?Hc.
Qed.

(** The hub delivers an event to exactly the live subscribers, once each,
    and a closed hub delivers nothing and admits nobody. *)
Theorem hub_publishes_to_live (es later : list Edit) :
  Z.of_nat (length es) + 2 < 2 ^ 64 ->
  let s := foldl edit make es in
  publish s ≡ₚ (live es).2.*2
  /\ publish (foldl edit (close s) later) = []
  /\ callbacks (foldl edit (close s) later) = ∅.
Proof.
  intros Hl. cbn. destruct (live_refines es Hl) as [Hr _].
  assert (G : forall l s, closed s = true -> callbacks s = ∅ ->
    closed (foldl edit s l) = true /\ callbacks (foldl edit s l) = ∅).
  { clear. induction l as [|e l IH]; intros s Hs He; [done|]. cbn. apply IH; [by apply edit_closed|].
    destruct e as [[f|]|id]; cbn; rewrite ?Hs; try done. unfold reset.
    case_match; [done|]. cbn. by rewrite He, delete_empty. }
  destruct (G later (close (foldl edit make es)) eq_refl eq_refl) as [H1 H2].
  split_and!; [|by unfold publish; rewrite H1|done].
  unfold publish. rewrite (ref_open _ _ Hr). by apply refines_values.
Qed.

Definition three_tokens : list Edit := [Register (Some 5%nat); Register (Some 6%nat); Reset 1].

Lemma registry_shutdown_once_witness :
  (foldl apply (make, []) ((OpEdit <$> three_tokens) ++ [OpShutdown; OpEdit (Reset 2); OpShutdown])).2
  ≡ₚ [6%nat].
Proof.
  apply (registry_shutdown_once three_tokens [OpEdit (Reset 2); OpShutdown]). vm_compute. reflexivity.
Defined.

Lemma hub_publishes_to_live_witness :
  publish (foldl edit make three_tokens) ≡ₚ [6%nat].
Proof. apply (hub_publishes_to_live three_tokens []). vm_compute. reflexivity. Defined.

End Registry.

(** [LifetimeGate].  The functions passed to the gate run under its recursive
    mutex and may call the gate again; other threads wait, so a history of the
    gate is a sequence of call trees. *)
Module Gate.

Inductive GateState := Open | Finishing | Done.

#[export] Instance GateState_eq_dec : EqDecision GateState.
Proof. solve_decision. Defined.

Record LifetimeGate := mkGate { reactor : bool; (* not null *) state : GateState }.

Definition make : LifetimeGate := mkGate true Open.

(** A call and the calls its function makes on the same gate. *)
Inductive Call :=
| Invoke (label : nat) (body : list Call)
| Finish (label : nat) (body : list Call)
| Detach.

(** [begin_finish] passes a function that does nothing. *)
Definition begin_finish (label : nat) : Call := Finish label [].

(** The functions that ran on the reactor. *)
Inductive Event := Invoked (label : nat) | Finished (label : nat).

Fixpoint exec (c : Call) (g : LifetimeGate) : LifetimeGate * list Event :=
  let fix exec_body (body : list Call) (g : LifetimeGate) : LifetimeGate * list Event :=
    match body with
    | [] => (g, [])
    | c :: rest =>
        let '(g1, e1) := exec c g in
        let '(g2, e2) := exec_body rest g1 in
        (g2, e1 ++ e2)
    end in
  match c with
  | Invoke label body =>
      if negb (bool_decide (state g = Open)) || negb (reactor g) then (g, [])
      else let '(g1, e) := exec_body body g in (g1, Invoked label :: e)
  | Finish label body =>
      if negb (bool_decide (state g = Open)) then (g, [])
      else
        let g1 := mkGate (reactor g) Finishing in
        if reactor g then
          let '(g2, e) := exec_body body g1 in (g2, Finished label :: e)
        else (g1, [])
  | Detach => (mkGate false Done, [])
  end.

Fixpoint exec_all (cs : list Call) (g : LifetimeGate) : LifetimeGate * list Event :=
  match cs with
  | [] => (g, [])
  | c :: rest =>
      let '(g1, e1) := exec c g in
      let '(g2, e2) := exec_all rest g1 in
      (g2, e1 ++ e2)
  end.

Definition body_of (c : Call) : list Call :=
  match c with Invoke _ b | Finish _ b => b | Detach => [] end.

Lemma exec_invoke label body g :
  exec (Invoke label body) g =
  if negb (bool_decide (state g = Open)) || negb (reactor g) then (g, [])
  else let '(g1, e) := exec_all body g in (g1, Invoked label :: e).
Proof. reflexivity. Qed.

Lemma exec_finish label body g :
  exec (Finish label body) g =
  if negb (bool_decide (state g = Open)) then (g, [])
  else if reactor g
       then let '(g2, e) := exec_all body (mkGate (reactor g) Finishing) in
            (g2, Finished label :: e)
       else (mkGate (reactor g) Finishing, []).
Proof. reflexivity. Qed.

(** Induction over call trees. *)
Lemma Call_tree_ind (P : Call -> Prop) :
  (forall l b, Forall P b -> P (Invoke l b)) ->
  (forall l b, Forall P b -> P (Finish l b)) ->
  P Detach -> forall c, P c.
Proof.
  intros Hi Hf Hd. fix IH 1. intros [l b|l b|].
  - apply Hi. induction b as [|c b IHb]; constructor; [apply IH|exact IHb].
  - apply Hf. induction b as [|c b IHb]; constructor; [apply IH|exact IHb].
  - exact Hd.
Qed.

(** The phase only advances, and an open gate has its reactor. *)
Definition phase (s : GateState) : nat := match s with Open => 0 | Finishing => 1 | Done => 2 end.
Definition wf (g : LifetimeGate) : Prop := state g <> Done -> reactor g = true.
Definition finishes (es : list Event) : nat :=
  length (filter (fun e => match e with Finished _ => true | _ => false end = true) es).

Lemma finishes_app l k : finishes (l ++ k) = finishes l + finishes k.
Proof. unfold finishes. by rewrite filter_app, length_app. Qed.

(** What one call does to a well-formed gate. *)
Definition sound (g g' : LifetimeGate) (es : list Event) : Prop :=
  wf g' /\ phase (state g) <= phase (state g')
  /\ (state g <> Open -> es = [])
  /\ finishes es <= 1
  /\ (finishes es = 1 -> state g = Open /\ state g' <> Open).

Lemma sound_refl g : wf g -> sound g g [].
Proof. intros H. unfold sound. split_and!; try done; cbn; lia. Qed.

Lemma sound_trans g1 g2 g3 e1 e2 :
  sound g1 g2 e1 -> sound g2 g3 e2 -> sound g1 g3 (e1 ++ e2).
Proof.
  intros (W1 & P1 & N1 & F1 & O1) (W2 & P2 & N2 & F2 & O2).
  assert (H12 : state g1 <> Open -> state g2 <> Open)
    by (destruct (state g1), (state g2); cbn in *; intros; done || lia).
  assert (H23 : state g2 <> Open -> state g3 <> Open)
    by (destruct (state g2), (state g3); cbn in *; intros; done || lia).
  unfold sound. rewrite finishes_app. split_and!; [done|lia| | |].
  - intros H. by rewrite N1, N2 by auto.
  - destruct (decide (finishes e1 = 1)) as [E|E]; [|lia].
    destruct (O1 E) as [_ H2]. rewrite (N2 H2). cbn. lia.
  - intros E. destruct (decide (finishes e1 = 1)) as [E1|E1].
    + destruct (O1 E1). auto.
    + destruct O2 as [H2 H3]; [lia|]. split; [|done].
      destruct (decide (state g1 = Open)); [done|]. exfalso. by apply H12.
Qed.

Lemma exec_all_sound cs :
  Forall (fun c => forall g, wf g -> sound g (exec c g).1 (exec c g).2) cs ->
  forall g, wf g -> sound g (exec_all cs g).1 (exec_all cs g).2.
Proof.
  induction 1 as [|c cs Hc _ IH]; intros g Hg; cbn; [by apply sound_refl|].
  specialize (Hc g Hg). destruct (exec c g) as [g1 e1]; cbn in *.
  specialize (IH g1). destruct (exec_all cs g1) as [g2 e2]; cbn in *.
  eapply sound_trans; [done|]. apply IH, Hc.
Qed.

Lemma exec_sound c : forall g, wf g -> sound g (exec c g).1 (exec c g).2.
Proof.
  induction c as [l b IH|l b IH|] using Call_tree_ind; intros g Hg.
  - rewrite exec_invoke. case_match eqn:E; [by apply sound_refl|].
    apply orb_false_iff in E as [E _]. bool_to_prop.
    pose proof (exec_all_sound b IH g Hg) as S. destruct (exec_all b g) as [g1 e]; cbn in *.
    destruct S as (? & ? & ? & ? & ?). unfold sound. split_and!; try done.
  - rewrite exec_finish. case_match eqn:E; [by apply sound_refl|]. bool_to_prop.
    rewrite Hg by congruence.
    pose proof (exec_all_sound b IH (mkGate true Finishing) (fun _ => eq_refl)) as S.
    destruct (exec_all b (mkGate true Finishing)) as [g1 e]; cbn in *.
    destruct S as (Sw & Sp & Sn & _). cbn in *. rewrite Sn by done.
    unfold sound. split_and!; try done; cbn; try lia.
    + rewrite E. cbn. lia.
    + intros _. split; [done|]. intros Eo. rewrite Eo in Sp. cbn in Sp. lia.
  - unfold sound. cbn. split_and!; try done; try lia; [unfold wf; done|]. destruct (state g); cbn; lia.
Qed.

(** The lifetime gate: over any history of calls, re-entrant ones included,
    at most one finish function runs, no function of any kind starts once a
    finish has begun or the reactor was detached, and after [detach] the gate
    is done for good. *)
Theorem gate_finishes_once (before after : list Call) (c : Call) :
  let g := (exec_all before make).1 in
  finishes (exec_all (before ++ c :: after) make).2 <= 1
  /\ (state g <> Open -> (exec_all (c :: after) g).2 = [])
  /\ state (exec_all after (exec Detach g).1).1 = Done
  /\ (exec_all after (exec Detach g).1).2 = [].
Proof.
  assert (Hall : forall cs g, wf g -> sound g (exec_all cs g).1 (exec_all cs g).2).
  { intros cs. apply exec_all_sound, Forall_forall. intros ? _. apply exec_sound. }
  assert (Hmake : wf make) by (unfold wf; done).
  assert (Hdone : wf (mkGate false Done)) by (unfold wf; done).
  cbn zeta. destruct (Hall before make Hmake) as (Hw & _).
  split_and!.
  - by apply Hall.
  - by apply Hall.
  - destruct (Hall after (mkGate false Done) Hdone) as (_ & Hp & _).
    cbn in *. destruct (state _); cbn in Hp; done || lia.
  - by apply (Hall after (mkGate false Done) Hdone).
Qed.

End Gate.
