(* ===== verification/StreamWrite.v ===== *)
(** The write side of the server's streaming reactors.

    [DeferredFinish] models [DeferredWriteFinish] ([deferred_write_finish.hpp]):
    a stream may be finished only once and only when no write is outstanding.
    [Outbox] models [ComponentOutbox] ([component_outbox.hpp]): the queue of a
    HAL component stream, which coalesces adjacent value deltas. *)
From S2P Require Import Prelude.

Module DeferredFinish.
Section DeferredFinish.
(** [grpc::Status] and its [OK] value. *)
Context {Status : Type} (ok_status : Status).

Record DeferredWriteFinish := mkDeferred {
  write_in_flight : bool;
  finish_started : bool;
  terminal_status : option Status;
}.

Definition make : DeferredWriteFinish := mkDeferred false false None.

Definition try_start_write (d : DeferredWriteFinish) : DeferredWriteFinish * bool :=
  if write_in_flight d || bool_decide (is_Some (terminal_status d)) || finish_started d
  then (d, false)
  else (mkDeferred true (finish_started d) (terminal_status d), true).

Definition complete_write (ok : bool) (d : DeferredWriteFinish) : DeferredWriteFinish :=
  mkDeferred false (finish_started d)
    (if negb ok && negb (bool_decide (is_Some (terminal_status d)))
     then Some ok_status else terminal_status d).

Definition request_finish (s : Status) (d : DeferredWriteFinish) : DeferredWriteFinish :=
  if negb (bool_decide (is_Some (terminal_status d))) && negb (finish_started d)
  then mkDeferred (write_in_flight d) (finish_started d) (Some s) else d.

Definition take_finish_status (d : DeferredWriteFinish) : DeferredWriteFinish * option Status :=
  if write_in_flight d || negb (bool_decide (is_Some (terminal_status d))) || finish_started d
  then (d, None)
  else (mkDeferred (write_in_flight d) true (terminal_status d), terminal_status d).

Definition termination_requested (d : DeferredWriteFinish) : bool :=
  bool_decide (is_Some (terminal_status d)) || finish_started d.

(** The calls of the reactor's threads, and what they observably do: writes
    that start and complete, and the status handed to [Finish]. *)
Inductive Op := OpStart | OpComplete (ok : bool) | OpRequest (s : Status) | OpTake.
Inductive Event := WriteStarted | WriteCompleted | FinishCalled (s : Status).

Definition apply (d : DeferredWriteFinish) (o : Op) : DeferredWriteFinish * list Event :=
  match o with
  | OpStart => let '(d', b) := try_start_write d in (d', if b then [WriteStarted] else [])
  | OpComplete ok =>
      (* gRPC completes only an outstanding write *)
      if write_in_flight d then (complete_write ok d, [WriteCompleted]) else (d, [])
  | OpRequest s => (request_finish s d, [])
  | OpTake =>
      let '(d', r) := take_finish_status d in
      (d', match r with Some s => [FinishCalled s] | None => [] end)
  end.

Definition run (ops : list Op) : DeferredWriteFinish * list Event :=
  foldl (fun '(d, es) o => let '(d', e) := apply d o in (d', es ++ e)) (make, []) ops.

(** The callback API's rule for one stream, as an acceptor of event sequences:
    at most one write outstanding, [Finish] at most once, not during a write,
    and nothing after it. *)
Inductive Phase := Quiet | Writing | Finished.

Definition legal_step (p : option Phase) (e : Event) : option Phase :=
  match p, e with
  | Some Quiet, WriteStarted => Some Writing
  | Some Writing, WriteCompleted => Some Quiet
  | Some Quiet, FinishCalled _ => Some Finished
  | _, _ => None
  end.

Definition legal (es : list Event) : option Phase := foldl legal_step (Some Quiet) es.

(** The first reason to terminate: a requested status, or a failed write. *)
Fixpoint first_reason (ops : list Op) (d : DeferredWriteFinish) : option Status :=
  match ops with
  | [] => None
  | o :: rest =>
      match o with
      | OpRequest s => Some s
      | OpComplete false => if write_in_flight d then Some ok_status
                            else first_reason rest (apply d o).1
      | _ => first_reason rest (apply d o).1
      end
  end.

Definition phase_of (d : DeferredWriteFinish) : Phase :=
  if finish_started d then Finished else if write_in_flight d then Writing else Quiet.

Record inv (d : DeferredWriteFinish) (es : list Event) : Prop := mkInv {
  inv_legal : legal es = Some (phase_of d);
  inv_finished : finish_started d = true -> write_in_flight d = false /\ is_Some (terminal_status d);
  inv_status : forall s, FinishCalled s ∈ es -> terminal_status d = Some s;
}.

Lemma legal_app es e : legal (es ++ e) = foldl legal_step (legal es) e.
Proof. unfold legal. by rewrite foldl_app. Qed.

Lemma deferred_inv_apply d es o : inv d es -> inv (apply d o).1 (es ++ (apply d o).2).
Proof.
  intros [Hl Hf Hs]. unfold phase_of in Hl.
  destruct d as [w f t], o as [|ok|s|]; cbn in *.
  - unfold try_start_write; cbn. destruct w, f, t; cbn; split; rewrite ?app_nil_r;
      rewrite ?legal_app, ?Hl; cbn; set_solver.
  - destruct w; cbn; [|split; by rewrite ?app_nil_r].
    destruct f; [by destruct Hf|]. split; [by rewrite legal_app, Hl|done|].
    intros s [Hin|?%list_elem_of_singleton]%elem_of_app; [|done].
    cbn. rewrite (Hs s Hin). by destruct ok.
  - unfold request_finish; cbn. rewrite app_nil_r.
    destruct t as [t|]; cbn; [by split|]. destruct f; cbn; [by split|]. split; cbn; try done.
    intros r Hin. by specialize (Hs r Hin).
  - unfold take_finish_status; cbn. destruct w, f, t; cbn; split; rewrite ?app_nil_r;
      rewrite ?legal_app, ?Hl; cbn; set_solver.
Qed.

Lemma run_snoc ops o :
  run (ops ++ [o]) = ((apply (run ops).1 o).1, (run ops).2 ++ (apply (run ops).1 o).2).
Proof.
  unfold run. rewrite foldl_app. cbn. destruct (foldl _ _ ops) as [d es]. cbn.
  by destruct (apply d o).
Qed.

Lemma deferred_inv_run ops : inv (run ops).1 (run ops).2.
Proof.
  induction ops as [|o ops IH] using rev_ind; [by split; [| |intros ? ?%elem_of_nil]|].
  rewrite run_snoc. by apply deferred_inv_apply.
Qed.

(** The recorded status is the first reason, and is never replaced. *)
Lemma terminal_first_reason ops d0 :
  finish_started d0 = false -> terminal_status d0 = None ->
  terminal_status (foldl (fun d o => (apply d o).1) d0 ops) = first_reason ops d0.
Proof.
  assert (Hkeep : forall l d s, terminal_status d = Some s ->
    terminal_status (foldl (fun d o => (apply d o).1) d l) = Some s).
  { induction l as [|o l IH]; intros d s Hs; [done|]. cbn. apply IH.
    destruct d as [[] [] t], o as [|[]|r|]; cbn in *; subst; done. }
  revert d0. induction ops as [|o ops IH]; intros d Hf Ht; [done|].
  destruct d as [w f t]; cbn in *; subst.
  destruct o as [|ok|s|]; cbn.
  - apply IH; by destruct w.
  - destruct ok, w; cbn; try (by apply IH). by apply Hkeep.
  - by apply Hkeep.
  - apply IH; by destruct w.
Qed.

Lemma run_state ops : (run ops).1 = foldl (fun d o => (apply d o).1) make ops.
Proof.
  induction ops as [|o ops IH] using rev_ind; [done|].
  rewrite run_snoc, foldl_app, IH. done.
Qed.

(** The callback constraint of a stream: for every interleaving of write
    attempts, completions, termination requests and finish attempts, the events
    follow gRPC's rule (one outstanding write, [Finish] at most once, never
    during a write, nothing after it); [Finish] carries the first reason to
    terminate; and once there is a reason and the last write completed, the
    next attempt does finish with it. *)
Theorem stream_finishes_legally (ops : list Op) :
  let d := (run ops).1 in
  legal (run ops).2 = Some (phase_of d)
  /\ (forall s, FinishCalled s ∈ (run ops).2 -> first_reason ops make = Some s)
  /\ (forall s, first_reason ops make = Some s ->
      write_in_flight d = false -> finish_started d = false ->
      (take_finish_status d).2 = Some s).
Proof.
  cbn zeta. destruct (deferred_inv_run ops) as [Hl _ Hs].
  pose proof (terminal_first_reason ops make eq_refl eq_refl) as Ht.
  rewrite <- run_state in Ht. split_and!; [done| |].
  - intros s Hin. rewrite <- Ht. by apply Hs.
  - intros s Hr Hw Hf. rewrite Hr in Ht. unfold take_finish_status. by rewrite Hw, Hf, Ht.
Qed.

End DeferredFinish.
End DeferredFinish.

Module Outbox.
Section Outbox.
(** The value of a HAL item ([HalScalarValue]) and the payload of a message
    other than a delta. *)
Context {Value Payload : Type}.

Record ComponentValue := mkValue { kind : Z; name : string; value : Value }.
Record HalComponentDelta := mkDelta {
  generation : Z;
  sequence : Z;
  values : list ComponentValue;
}.
Inductive Message := DeltaMessage (d : HalComponentDelta) | OtherMessage (p : Payload).
Record Entry := mkEntry { message : Message; resume_read : bool }.

Definition has_delta (m : Message) : bool :=
  match m with DeltaMessage _ => true | OtherMessage _ => false end.

Definition same_item (left right : ComponentValue) : bool :=
  bool_decide (kind left = kind right) && bool_decide (name left = name right).

(** [std::find_if] and the assignment through the iterator, or [add_values]. *)
Fixpoint upsert (incoming : ComponentValue) (vs : list ComponentValue) : list ComponentValue :=
  match vs with
  | [] => [incoming]
  | v :: rest => if same_item v incoming then incoming :: rest else v :: upsert incoming rest
  end.

Definition merge_delta (source target : HalComponentDelta) : HalComponentDelta :=
  mkDelta (generation source) (sequence source)
    (foldl (fun vs incoming => upsert incoming vs) (values target) (values source)).

Definition push_response (m : Message) (entries : list Entry) : list Entry :=
  entries ++ [mkEntry m true].

Definition push_delta (m : Message) (entries : list Entry) : list Entry :=
  match m with
  | OtherMessage _ => entries ++ [mkEntry m false]
  | DeltaMessage d =>
      match last entries with
      | Some (mkEntry (DeltaMessage target) resume) =>
          take (length entries - 1) entries
          ++ [mkEntry (DeltaMessage (merge_delta d target)) resume]
      | _ => entries ++ [mkEntry m false]
      end
  end.

Definition pop_front (entries : list Entry) : option (Entry * list Entry) :=
  match entries with [] => None | e :: rest => Some (e, rest) end.

(** *** The reader of the stream *)

(** The component view a client keeps, and the other messages it has seen with
    the view they arrived at. *)
Record Client := mkClient {
  view : gmap (Z * string) Value;
  stamp : Z * Z;
  seen : list (Payload * gmap (Z * string) Value);
}.

Definition item_key (v : ComponentValue) : Z * string := (kind v, name v).

Definition apply_values (vs : list ComponentValue) (m : gmap (Z * string) Value) :
    gmap (Z * string) Value :=
  foldl (fun m v => <[item_key v := value v]> m) m vs.
#[local] Arguments apply_values : simpl never.

Definition receive (c : Client) (m : Message) : Client :=
  match m with
  | DeltaMessage d =>
      mkClient (apply_values (values d) (view c)) (generation d, sequence d) (seen c)
  | OtherMessage p => mkClient (view c) (stamp c) (seen c ++ [(p, view c)])
  end.

Definition unique_items (m : Message) : Prop :=
  match m with DeltaMessage d => NoDup (item_key <$> values d) | OtherMessage _ => True end.

Lemma same_item_key a b : same_item a b = true <-> item_key a = item_key b.
Proof.
  unfold same_item, item_key. rewrite andb_true_iff, !bool_decide_eq_true.
  split; [intros [-> ->]; done|by intros [= -> ->]].
Qed.

Lemma upsert_keys x vs k :
  k ∈ item_key <$> upsert x vs <-> k = item_key x \/ k ∈ item_key <$> vs.
Proof.
  induction vs as [|v vs IH]; cbn; [set_solver|].
  destruct (same_item v x) eqn:E; cbn; rewrite !elem_of_cons.
  - apply same_item_key in E. rewrite E. tauto.
  - rewrite IH. tauto.
Qed.

Lemma upsert_nodup x vs :
  NoDup (item_key <$> vs) -> NoDup (item_key <$> upsert x vs).
Proof.
  induction vs as [|v vs IH]; cbn; intros Hn; [apply NoDup_singleton|].
  apply NoDup_cons in Hn as [Hv Hn].
  destruct (same_item v x) eqn:E; cbn; apply NoDup_cons.
  - apply same_item_key in E. by rewrite <- E.
  - split; [|by apply IH]. rewrite upsert_keys. intros [Hk|Hk]; [|done].
    apply not_true_iff_false in E. by apply E, same_item_key.
Qed.

Lemma apply_values_cons v vs m :
  apply_values (v :: vs) m = apply_values vs (<[item_key v := value v]> m).
Proof. done. Qed.

Lemma apply_values_insert_fresh vs k (y : Value) m :
  k ∉ item_key <$> vs -> apply_values vs (<[k := y]> m) = <[k := y]> (apply_values vs m).
Proof.
  revert m. induction vs as [|v vs IH]; intros m Hk; [done|].
  cbn in Hk. apply not_elem_of_cons in Hk as [Hne Hk]. unfold apply_values. cbn.
  rewrite insert_insert_ne by done. by apply IH.
Qed.

(** Updating in place is the same as appending, for unique items. *)
Lemma apply_values_upsert x vs m :
  NoDup (item_key <$> vs) ->
  apply_values (upsert x vs) m = <[item_key x := value x]> (apply_values vs m).
Proof.
  revert m. induction vs as [|v vs IH]; intros m Hn; [done|].
  cbn in Hn. apply NoDup_cons in Hn as [Hv Hn]. cbn.
  destruct (same_item v x) eqn:E.
  - apply same_item_key in E. rewrite !apply_values_cons, <- E.
    rewrite !(apply_values_insert_fresh vs) by done. by rewrite insert_insert_eq.
  - rewrite !apply_values_cons. by apply IH.
Qed.

Lemma merge_values src tgt m :
  NoDup (item_key <$> tgt) ->
  apply_values (foldl (fun vs x => upsert x vs) tgt src) m = apply_values src (apply_values tgt m)
  /\ NoDup (item_key <$> foldl (fun vs x => upsert x vs) tgt src).
Proof.
  revert tgt. induction src as [|x src IH]; intros tgt Hn; [done|]. cbn.
  destruct (IH (upsert x tgt) (upsert_nodup x tgt Hn)) as [E1 E2]. split; [|done].
  by rewrite E1, apply_values_cons, apply_values_upsert.
Qed.

(** *** The outbox as a queue *)

Inductive Op := PushResponse (m : Message) | PushDelta (m : Message) | Pop.

(** The entries popped so far, and the queue. *)
Definition apply (s : list Entry * list Entry) (o : Op) : list Entry * list Entry :=
  match o with
  | PushResponse m => (s.1, push_response m s.2)
  | PushDelta m => (s.1, push_delta m s.2)
  | Pop => match pop_front s.2 with
           | Some (e, rest) => (s.1 ++ [e], rest)
           | None => s
           end
  end.

Definition run (ops : list Op) : list Entry * list Entry := foldl apply ([], []) ops.

Definition pushed (ops : list Op) : list Message :=
  omap (fun o => match o with PushResponse m | PushDelta m => Some m | Pop => None end) ops.
Definition responses (ops : list Op) : nat :=
  length (filter (fun o => match o with PushResponse _ => true | _ => false end = true) ops).
Definition resumes (es : list Entry) : nat :=
  length (filter (fun e => resume_read e = true) es).

Definition valid_op (o : Op) : Prop :=
  match o with PushResponse m | PushDelta m => unique_items m | Pop => True end.

(** No two adjacent deltas, unless a response carries one. *)
Definition coalesced (es : list Entry) : Prop :=
  forall i a b, es !! i = Some a -> es !! S i = Some b ->
  has_delta (message a) = true -> has_delta (message b) = true -> resume_read b = true.

Definition client_after (c : Client) (es : list Entry) : Client :=
  foldl receive c (message <$> es).
#[local] Arguments client_after : simpl never.
#[local] Arguments pushed : simpl never.
#[local] Arguments responses : simpl never.
#[local] Arguments resumes : simpl never.

Record outbox_inv (s : list Entry * list Entry) (ops : list Op) : Prop := mkOutboxInv {
  oi_client : forall c, client_after c (s.1 ++ s.2) = foldl receive c (pushed ops);
  oi_unique : Forall (fun e => unique_items (message e)) s.2;
  oi_resumes : resumes (s.1 ++ s.2) = responses ops;
  oi_coalesced : coalesced s.2;
}.

Lemma client_after_app c es fs :
  client_after c (es ++ fs) = client_after (client_after c es) fs.
Proof. unfold client_after. by rewrite fmap_app, foldl_app. Qed.

Lemma resumes_app es fs : resumes (es ++ fs) = resumes es + resumes fs.
Proof. unfold resumes. by rewrite filter_app, length_app. Qed.

Lemma receive_merge c src tgt :
  NoDup (item_key <$> values tgt) ->
  receive c (DeltaMessage (merge_delta src tgt)) =
  receive (receive c (DeltaMessage tgt)) (DeltaMessage src).
Proof.
  intros Hn. cbn. f_equal. by apply merge_values.
Qed.

Lemma coalesced_snoc es e :
  coalesced es ->
  (forall a, last es = Some a -> has_delta (message a) = true ->
    has_delta (message e) = true -> resume_read e = true) ->
  coalesced (es ++ [e]).
Proof.
  intros Hc He i a b Ha Hb. apply lookup_snoc_Some in Hb as [[Hl Hb]|[Hi <-]].
  - apply lookup_app_l_Some with (l2 := []) in Hb. rewrite app_nil_r in Hb.
    rewrite lookup_app_l in Ha by lia. eauto.
  - rewrite lookup_app_l in Ha by lia. apply He. rewrite last_lookup.
    by replace (pred (length es)) with i by lia.
Qed.

Lemma coalesced_prefix es fs : coalesced (es ++ fs) -> coalesced es.
Proof. intros H i a b Ha Hb. eapply (H i); by apply lookup_app_l_Some. Qed.

(** Replacing the last entry by one of the same shape. *)
Lemma coalesced_last es e e' :
  coalesced (es ++ [e]) -> has_delta (message e') = has_delta (message e) ->
  resume_read e' = resume_read e -> coalesced (es ++ [e']).
Proof.
  intros H Hd Hr. apply coalesced_snoc; [by eapply coalesced_prefix|].
  intros a Ha H1 H2. rewrite Hr. rewrite last_lookup in Ha.
  destruct es as [|x es'] using rev_ind; [done|]. clear IHes'.
  apply (H (length es') a e); try done.
  - rewrite length_app in Ha. cbn in Ha. replace (pred (length es' + 1)) with (length es') in Ha by lia.
    rewrite lookup_app_l; [done|]. rewrite length_app. cbn. lia.
  - apply lookup_snoc_Some. right. rewrite length_app. cbn. split; [lia|done].
  - congruence.
Qed.

(** The cases of [push_delta]: append, or merge into the last entry. *)
Lemma push_delta_cases m es :
  (push_delta m es = es ++ [mkEntry m false]
   /\ (has_delta m = true -> forall a, last es = Some a -> has_delta (message a) = false))
  \/ exists pre d t r, m = DeltaMessage d /\ es = pre ++ [mkEntry (DeltaMessage t) r]
     /\ push_delta m es = pre ++ [mkEntry (DeltaMessage (merge_delta d t)) r].
Proof.
  destruct m as [d|p]; [|by left]. cbn.
  destruct es as [|[[t|q] r] pre _] using rev_ind.
  - left. split; [done|]. done.
  - right. exists pre, d, t, r. split_and!; try done.
    rewrite last_snoc, length_app. cbn.
    rewrite take_app_length' by lia. done.
  - left. rewrite last_snoc. split; [done|]. by intros _ a [= <-].
Qed.

Lemma outbox_apply s ops o :
  outbox_inv s ops -> valid_op o -> outbox_inv (apply s o) (ops ++ [o]).
Proof.
  intros [Hc Hu Hr Hco] Hv. destruct s as [popped queue]; cbn in *.
  assert (Hp : pushed (ops ++ [o]) = pushed ops ++ pushed [o])
    by (unfold pushed; by rewrite omap_app).
  assert (Hn : responses (ops ++ [o]) = responses ops + responses [o])
    by (unfold responses; by rewrite filter_app, length_app).
  assert (Happend : forall m (b : bool), unique_items m -> pushed [o] = [m] ->
    responses [o] = (if b then 1 else 0) ->
    (b = false -> has_delta m = true ->
     forall a, last queue = Some a -> has_delta (message a) = false) ->
    outbox_inv (popped, queue ++ [mkEntry m b]) (ops ++ [o])).
  { intros m b Hm Ho Hb Hl. split; cbn.
    - intros c. by rewrite app_assoc, client_after_app, Hc, Hp, Ho, foldl_app.
    - apply Forall_app. by split; [|apply Forall_singleton].
    - rewrite app_assoc, resumes_app, Hr, Hn, Hb. by destruct b.
    - apply coalesced_snoc; [done|]. cbn. intros a Ha H1 H2.
      destruct b; [done|]. by rewrite (Hl eq_refl H2 a Ha) in H1. }
  destruct o as [m|m|]; cbn.
  - by apply Happend.
  - destruct (push_delta_cases m queue) as [[-> Hl]|(pre & d & t & r & -> & -> & ->)];
      [by apply Happend|].
    apply Forall_app in Hu as [Hu1 Hu2]. rewrite Forall_singleton in Hu2. cbn in Hu2.
    split; cbn.
    + intros c. rewrite Hp, foldl_app, <- Hc, !app_assoc, !client_after_app.
      exact (receive_merge _ d t Hu2).
    + apply Forall_app. split; [done|]. apply Forall_singleton. exact (proj2 (merge_values (values d) (values t) ∅ Hu2)).
    + rewrite Hn, <- Hr, !app_assoc, !resumes_app. cbn. by destruct r.
    + by eapply coalesced_last.
  - destruct queue as [|e rest]; cbn.
    + split; cbn [fst snd].
      * intros c. by rewrite Hp, foldl_app, <- Hc.
      * done.
      * by rewrite Hn, <- Hr, Nat.add_0_r.
      * done.
    + apply Forall_cons in Hu as [_ Hu]. split; cbn.
      * intros c. rewrite Hp, foldl_app, <- Hc. by rewrite <- app_assoc.
      * done.
      * rewrite Hn, Nat.add_0_r, <- Hr. by rewrite <- app_assoc.
      * intros i a b Ha Hb. by apply (Hco (S i)).
Qed.

(** Coalescing is invisible to the client: for every interleaving of pushes
    and pops of messages whose deltas name each item at most once, a client
    that receives the popped messages followed by the queue ends with the same
    view and stamp, and sees every other message at the same view, as one that
    receives every pushed message separately; responses are never merged away
    (each one still resumes reading exactly once), and no two value deltas
    stay adjacent in the queue. *)
Theorem coalescing_invisible (ops : list Op) :
  Forall valid_op ops ->
  (forall c, client_after c ((run ops).1 ++ (run ops).2) = foldl receive c (pushed ops))
  /\ resumes ((run ops).1 ++ (run ops).2) = responses ops
  /\ coalesced (run ops).2.
Proof.
  intros Hv. assert (H : outbox_inv (run ops) ops); [|by destruct H].
  induction ops as [|o ops IH] using rev_ind.
  - split; cbn; try done.
  - apply Forall_app in Hv as [Hv Ho]. rewrite Forall_singleton in Ho.
    unfold run. rewrite foldl_app. apply outbox_apply; [by apply IH|done].
Qed.

End Outbox.

Lemma coalescing_invisible_witness :
  let d s n x := PushDelta (DeltaMessage (Payload := nat) (mkDelta 7 s [mkValue 0%Z n x])) in
  let ops := [d 1%Z "a" 10; d 2%Z "b" 20; d 3%Z "a" 30; PushResponse (OtherMessage 5); d 4%Z "a" 40]%string in
  length (run ops).2 = 3 /\ resumes (run ops).2 = 1.
Proof.
  intros d ops. destruct (coalescing_invisible ops) as (_ & H & _).
  - repeat constructor; cbn; set_solver.
  - split; [reflexivity|exact H].
Defined.

End Outbox.
