(* ===== verification/Float64.v ===== *)
(** IEEE 754 binary64 as the C++ [double]: the Standard Library's executable
    specification at precision 53 and maximal exponent 1024, and the library
    functions the sources call on it.  All NaNs are one value, as nothing in
    the sources looks at a payload. *)
From Stdlib Require Import SpecFloat.
From S2P Require Import Prelude.

Local Open Scope Z_scope.

Notation f64 := spec_float.

#[export] Instance f64_eq_dec : EqDecision f64.
Proof. solve_decision. Defined.

Definition f64_add : f64 -> f64 -> f64 := SFadd 53 1024.
Definition f64_sub : f64 -> f64 -> f64 := SFsub 53 1024.
Definition f64_mul : f64 -> f64 -> f64 := SFmul 53 1024.
Definition f64_div : f64 -> f64 -> f64 := SFdiv 53 1024.
Definition f64_sqrt : f64 -> f64 := SFsqrt 53 1024.
Definition f64_abs : f64 -> f64 := SFabs.
(** [a < b], [a > b] and [a == b]; false on NaN. *)
Definition f64_lt : f64 -> f64 -> bool := SFltb.
Definition f64_gt (a b : f64) : bool := SFltb b a.
Definition f64_eq : f64 -> f64 -> bool := SFeqb.

Definition f64_zero : f64 := S754_zero false.
Definition f64_one : f64 := S754_finite false 4503599627370496 (-52).

(** [std::isnan], [std::isfinite], [std::isinf]. *)
Definition f64_isnan (x : f64) : bool := match x with S754_nan => true | _ => false end.
Definition f64_isinf (x : f64) : bool := match x with S754_infinity _ => true | _ => false end.
Definition f64_isfinite (x : f64) : bool := negb (f64_isnan x || f64_isinf x).

(** [static_cast<double>] of an integer. *)
Definition f64_of_Z (z : Z) : f64 := binary_normalize 53 1024 z 0 false.

(** A [double] from its 64 bits. *)
Definition f64_of_bits (b : Z) : f64 :=
  let s := Z.testbit b 63 in
  let e := Z.land (Z.shiftr b 52) 2047 in
  let m := Z.land b (Z.ones 52) in
  if e =? 2047 then (if m =? 0 then S754_infinity s else S754_nan)
  else if e =? 0 then match m with Zpos p => S754_finite s p (-1074) | _ => S754_zero s end
  else match m + 2 ^ 52 with Zpos p => S754_finite s p (e - 1075) | _ => S754_nan end.

(** [static_cast] to an integer type: truncation toward zero, [None] where C++
    leaves it undefined before the range of the type is considered. *)
Definition f64_trunc (x : f64) : option Z :=
  match x with
  | S754_zero _ => Some 0
  | S754_finite s m e =>
      let a := if 0 <=? e then Z.shiftl (Zpos m) e else Z.shiftr (Zpos m) (- e) in
      Some (if s then - a else a)
  | _ => None
  end.

(** [std::max(a, b)]: the second argument only when the first is less. *)
Definition f64_max (a b : f64) : f64 := if f64_lt a b then b else a.

Lemma f64_sub_self x : f64_isfinite x = true -> f64_abs (f64_sub x x) = f64_zero.
Proof.
  destruct x as [s| | |s m e]; try done; [by destruct s|]. intros _. cbn.
  by rewrite Z.sub_diag.
Qed.

Lemma f64_max_zero_not_below eps : f64_gt f64_zero (f64_max f64_zero eps) = false.
Proof. destruct eps as [[]|[]| |[] m e]; reflexivity. Qed.

Lemma f64_eq_refl_inf s : f64_eq (S754_infinity s) (S754_infinity s) = true.
Proof. by destruct s. Qed.

Example f64_of_Z_one : f64_of_Z 1 = f64_one.
Proof. reflexivity. Qed.

Example f64_of_bits_sample :
  f64_of_bits 4609434218613702656 = f64_div (f64_of_Z 3) (f64_of_Z 2).
Proof. reflexivity. Qed.

(** Values that readers cannot tell apart: [==], or both NaN. *)
Definition norm_float (x : f64) : f64 :=
  match x with S754_zero _ => S754_zero false | _ => x end.

Lemma f64_eq_norm x y : f64_eq x y = true -> norm_float x = norm_float y.
Proof.
  unfold f64_eq, SFeqb.
  destruct x as [s|s| |s m e], y as [s'|s'| |s' m' e']; cbn; try done;
    try (by destruct s, s'); try (by destruct s); try (by destruct s').
  destruct s, s'; cbn; try done;
    (destruct (Z.compare_spec e e') as [->| |]; cbn; try done;
     fold (Pos.compare m m'); destruct (Pos.compare_spec m m') as [->| |]; done).
Qed.

(** ** Order

    Away from NaN the comparison is that of a key: the class (infinities, signs,
    zero), then the exponent, then the mantissa. *)
Definition f64_le (a b : f64) : bool := SFleb a b.

Definition f64_key (x : f64) : Z * Z * Z :=
  match x with
  | S754_infinity s => (if s then -2 else 2, 0, 0)
  | S754_finite s m e => if s then (-1, - e, - Zpos m) else (1, e, Zpos m)
  | _ => (0, 0, 0)
  end.

Definition key_lt (a b : Z * Z * Z) : Prop :=
  a.1.1 < b.1.1 \/ (a.1.1 = b.1.1 /\ (a.1.2 < b.1.2 \/ (a.1.2 = b.1.2 /\ a.2 < b.2))).

Lemma f64_lt_key x y :
  f64_isnan x = false -> f64_isnan y = false -> f64_lt x y = true <-> key_lt (f64_key x) (f64_key y).
Proof.
  unfold f64_lt, SFltb, key_lt.
  destruct x as [s|s| |s m e], y as [s'|s'| |s' m' e']; try done; intros _ _; cbn;
    try (destruct s); try (destruct s'); cbn; try (split; [done|lia]); try (split; [lia|done]);
    try lia; try (split; [intros _; lia|done]);
    (destruct (Z.compare_spec e e') as [->|He|He]; cbn;
     [fold (Pos.compare m m'); destruct (Pos.compare_spec m m') as [->|Hm|Hm]; cbn|..]);
    (split; [try done; intros _; lia|intros; try done; lia]).
Qed.

Lemma f64_lt_irrefl x : f64_lt x x = false.
Proof.
  destruct (f64_isnan x) eqn:E; [by destruct x|]. apply not_true_is_false.
  rewrite (f64_lt_key x x E E). unfold key_lt. lia.
Qed.

(** What is not below [x] is not below anything smaller. *)
Lemma f64_not_lt_trans x y z :
  f64_isnan x = false -> f64_isnan y = false -> f64_isnan z = false ->
  f64_lt y x = true -> f64_lt z x = false -> f64_lt z y = false.
Proof.
  intros Hx Hy Hz H1 H2. apply not_true_is_false. rewrite f64_lt_key by done. intros H3.
  apply not_true_iff_false in H2. rewrite f64_lt_key in H1, H2 by done. unfold key_lt in *. lia.
Qed.

Lemma f64_not_lt_trans' x y z :
  f64_isnan x = false -> f64_isnan y = false -> f64_isnan z = false ->
  f64_lt x y = true -> f64_lt x z = false -> f64_lt y z = false.
Proof.
  intros Hx Hy Hz H1 H2. apply not_true_is_false. rewrite f64_lt_key by done. intros H3.
  apply not_true_iff_false in H2. rewrite f64_lt_key in H1, H2 by done. unfold key_lt in *. lia.
Qed.

(** ** Integers below [2^53] are exact *)
Lemma digits2_pos_bound m n : Zpos m < 2 ^ Z.of_nat n -> Zpos (digits2_pos m) <= Z.of_nat n.
Proof.
  revert n. induction m as [m IH|m IH|]; intros n Hn; cbn [digits2_pos].
  - destruct n as [|n]; [cbn in Hn; lia|]. rewrite Nat2Z.inj_succ, Z.pow_succ_r in Hn by lia.
    specialize (IH n ltac:(lia)). lia.
  - destruct n as [|n]; [cbn in Hn; lia|]. rewrite Nat2Z.inj_succ, Z.pow_succ_r in Hn by lia.
    specialize (IH n ltac:(lia)). lia.
  - destruct n; [cbn in Hn; lia|]. lia.
Qed.

Lemma digits2_pos_shift k m : digits2_pos (Pos.iter xO m k) = (k + digits2_pos m)%positive.
Proof.
  induction k as [|k IH] using Pos.peano_ind; [cbn; lia|]. rewrite Pos.iter_succ. cbn [digits2_pos]. rewrite IH. lia.
Qed.

Lemma shift_pos_value k m : Zpos (Pos.iter xO m k) = Z.shiftl (Zpos m) (Zpos k).
Proof.
  rewrite Z.shiftl_mul_pow2 by lia. induction k as [|k IH] using Pos.peano_ind; [cbn; lia|].
  rewrite Pos.iter_succ, Pos2Z.inj_succ, Z.pow_succ_r by lia. lia.
Qed.

Lemma round_exact s m :
  Zpos m < 2 ^ 53 -> f64_trunc (binary_round 53 1024 s m 0) = Some (if s then Zneg m else Zpos m).
Proof.
  intros Hm. pose proof (digits2_pos_bound m 53 Hm) as Hd.
  assert (Hr : forall mz e, Zpos (digits2_pos mz) = 53 -> -53 < e <= 0 ->
    binary_round_aux 53 1024 s (Zpos mz) e loc_Exact = S754_finite s mz e).
  { intros mz e Hz He. unfold binary_round_aux, shr_fexp, fexp, emin. cbn [Zdigits2 shr_record_of_loc]. rewrite Hz.
    replace (Z.max (53 + e - 53) (3 - 1024 - 53) - e) with 0 by lia. cbn [shr shr_m loc_of_shr_record round_nearest_even Zdigits2].
    rewrite Hz. replace (Z.max (53 + e - 53) (3 - 1024 - 53) - e) with 0 by lia. cbn [shr shr_m].
    by rewrite (proj2 (Z.leb_le _ _)) by lia. }
  unfold binary_round, shl_align, fexp, emin. rewrite Z.add_0_r.
  replace (Z.max (Zpos (digits2_pos m) - 53) (3 - 1024 - 53) - 0) with (Zpos (digits2_pos m) - 53) by lia.
  replace (Z.max (Zpos (digits2_pos m) - 53) (3 - 1024 - 53)) with (Zpos (digits2_pos m) - 53) by lia.
  destruct (Zpos (digits2_pos m) - 53) as [|k|k] eqn:Ek.
  - rewrite Hr by lia. cbn. by destruct s; rewrite ?Z.shiftl_0_r.
  - lia.
  - rewrite Hr; [|rewrite digits2_pos_shift; lia|lia]. cbn [f64_trunc Z.leb Z.compare Z.opp].
    rewrite shift_pos_value, Z.shiftr_shiftl_l, Z.sub_diag, Z.shiftl_0_r by lia. by destruct s.
Qed.

Lemma f64_of_Z_exact z : - 2 ^ 53 < z < 2 ^ 53 -> f64_trunc (f64_of_Z z) = Some z.
Proof. intros Hz. destruct z as [|m|m]; [done|..]; unfold f64_of_Z; cbn [binary_normalize]; by rewrite round_exact by lia. Qed.
