(* ===== verification/PositionHistory.v ===== *)
(** The bounded position history ([position/history.hpp], [position/history.cc])
    and its telemetry front end ([position/telemetry.cc]).

    [History] models the store and its cursor reads.  [Consumer] is the buffer a
    telemetry reader keeps; the main theorem says that a reader that applies
    the batch returned for its cursor and generation holds the history again. *)
From Stdlib Require Import SpecFloat.
From S2P Require Import Prelude Float64 CallbackRuntime.
From stdpp Require Import vector.

Module History.
Local Open Scope Z_scope.

Definition kPositionStride : nat := 10.

(** [std::array<double, 9>] and the motion type, an [std::int32_t]. *)
Record PositionSample := mkSample { coordinates : vec f64 9; motion_type : Z }.

#[export] Instance PositionSample_eq_dec : EqDecision PositionSample.
Proof. solve_decision. Defined.

Record PositionHistoryBatch := mkBatch {
  reset : bool;
  batch_generation : Z;
  first_sequence : Z;
  batch_next_sequence : Z;
  replace_count : nat;
  packed : list f64;
}.

Record Entry := mkEntry {
  sequence : Z;
  sample : PositionSample;
  replacement_root : option Z;
}.

Record PositionHistory := mkHistory {
  entries : list Entry;
  max_samples : nat;
  epsilon : f64;
  next_sequence : Z;
  generation : Z;
}.

(** 1e-4, 1e-10 and 1e-6 as doubles. *)
Definition kCollinearityEpsilon : f64 := S754_finite false 7378697629483821 (-66).
Definition kTiny : f64 := S754_finite false 7737125245533627 (-86).
Definition kDefaultEpsilon : f64 := S754_finite false 4722366482869645 (-72).

Definition make (max : nat) (eps : f64) : PositionHistory :=
  mkHistory [] (Nat.max 1 max) (f64_max f64_zero eps) 0 1.

(** The loop of [changed] over the coordinates. *)
Fixpoint coordinates_changed (eps : f64) (a b : list f64) : bool :=
  match a, b with
  | x :: a', y :: b' =>
      if negb (f64_isfinite x) || negb (f64_isfinite y) then
        if negb ((f64_isnan x && f64_isnan y) || f64_eq x y) then true
        else coordinates_changed eps a' b'
      else if f64_gt (f64_abs (f64_sub x y)) eps then true
      else coordinates_changed eps a' b'
  | _, _ => false
  end.

Definition changed (a b : PositionSample) (eps : f64) : bool :=
  coordinates_changed eps (coordinates a) (coordinates b)
  || negb (motion_type a =? motion_type b).

(** The accumulation loop of [collinear]: [None] is its early [return false]. *)
Fixpoint accumulate (cur prev pen : list f64) (acc : f64 * f64 * f64) : option (f64 * f64 * f64) :=
  match cur, prev, pen with
  | c :: cur', p :: prev', q :: pen' =>
      let current_delta := f64_sub c p in
      let previous_delta := f64_sub p q in
      if negb (f64_isfinite current_delta) || negb (f64_isfinite previous_delta) then None
      else
        let '(cl, pl, dot) := acc in
        accumulate cur' prev' pen'
          (f64_add cl (f64_mul current_delta current_delta),
           f64_add pl (f64_mul previous_delta previous_delta),
           f64_add dot (f64_mul current_delta previous_delta))
  | _, _, _ => Some acc
  end.

Definition collinear (current previous penultimate : PositionSample) : bool :=
  match accumulate (coordinates current) (coordinates previous) (coordinates penultimate)
          (f64_zero, f64_zero, f64_zero) with
  | None => false
  | Some (cl, pl, dot) =>
      let current_length := f64_sqrt cl in
      let previous_length := f64_sqrt pl in
      if f64_lt current_length kTiny || f64_lt previous_length kTiny then true
      else f64_lt (f64_abs (f64_sub f64_one (f64_div (f64_div dot current_length) previous_length)))
             kCollinearityEpsilon
  end.

Definition configure (max : nat) (eps : f64) (h : PositionHistory) : PositionHistory :=
  mkHistory (keep_last (Nat.max 1 max) (entries h)) (Nat.max 1 max) (f64_max f64_zero eps)
    (next_sequence h) (u64_succ (generation h)).

Definition clear (h : PositionHistory) : PositionHistory :=
  mkHistory [] (max_samples h) (epsilon h) (next_sequence h) (u64_succ (generation h)).

(** The last and the last but one entry. *)
Definition back (h : PositionHistory) : option Entry := last (entries h).
Definition before_back (h : PositionHistory) : option Entry :=
  entries h !! (length (entries h) - 2)%nat.

(** The test that makes [append] replace the tail. *)
Definition replaces_tail (s : PositionSample) (h : PositionHistory) : bool :=
  (2 <=? length (entries h))%nat &&
  match back h, before_back h with
  | Some b, Some p =>
      (motion_type s =? motion_type (sample b)) && (motion_type s =? motion_type (sample p))
      && collinear s (sample b) (sample p)
  | _, _ => false
  end.

Definition append (s : PositionSample) (h : PositionHistory) : PositionHistory * bool :=
  let unchanged :=
    match back h with Some b => negb (changed (sample b) s (epsilon h)) | None => false end in
  if unchanged then (h, false)
  else
    let seq := next_sequence h in
    let es :=
      if replaces_tail s h then
        match back h with
        | Some b =>
            take (length (entries h) - 1) (entries h)
            ++ [mkEntry seq s (Some (default (sequence b) (replacement_root b)))]
        | None => entries h
        end
      else entries h ++ [mkEntry seq s None] in
    if (max_samples h <? length es)%nat
    then (mkHistory (drop 1 es) (max_samples h) (epsilon h) (u64_succ seq)
            (u64_succ (generation h)), true)
    else (mkHistory es (max_samples h) (epsilon h) (u64_succ seq) (generation h), true).

Definition append_packed (s : PositionSample) : list f64 :=
  coordinates s ++ [f64_of_Z (motion_type s)].

Definition pack (es : list Entry) : list f64 := concat ((fun e => append_packed (sample e)) <$> es).

Definition snapshot (h : PositionHistory) : PositionHistoryBatch :=
  mkBatch true (generation h)
    (match entries h with [] => next_sequence h | e :: _ => sequence e end)
    (next_sequence h) 0 (pack (entries h)).

(** [std::lower_bound] on the sequence numbers: the suffix it points to. *)
Fixpoint lower_bound (seq : Z) (es : list Entry) : list Entry :=
  match es with
  | [] => []
  | e :: rest => if sequence e <? seq then lower_bound seq rest else es
  end.

Definition since (seq : Z) (max : nat) (after_generation : Z) (h : PositionHistory) :
    PositionHistoryBatch :=
  let generation_changed := negb (after_generation =? 0) && negb (after_generation =? generation h) in
  match entries h with
  | [] =>
      mkBatch (generation_changed || negb (seq =? next_sequence h)) (generation h)
        (next_sequence h) (next_sequence h) 0 []
  | oldest :: _ =>
      let rolled := seq <? sequence oldest in
      let rst := generation_changed || rolled in
      let first := if rst then entries h else lower_bound seq (entries h) in
      let count := if (max =? 0)%nat then length first else Nat.min max (length first) in
      mkBatch rst (generation h)
        (match first with [] => next_sequence h | e :: _ => sequence e end)
        (next_sequence h)
        (match first with
         | e :: _ => if negb rst && (default seq (replacement_root e) <? seq)
                     then 1%nat else 0%nat
         | [] => 0%nat end)
        (pack (take count first))
  end.

Definition size (h : PositionHistory) : nat := length (entries h).

Inductive Op :=
| OpConfigure (max : nat) (eps : f64)
| OpClear
| OpAppend (s : PositionSample).

Definition apply (h : PositionHistory) (o : Op) : PositionHistory :=
  match o with
  | OpConfigure max eps => configure max eps h
  | OpClear => clear h
  | OpAppend s => (append s h).1
  end.

Definition run (ops : list Op) (h : PositionHistory) : PositionHistory := foldl apply h ops.

(** ** Well-formedness *)

(** Sequence numbers increase strictly and stay below the next one, and the root
    of a replacement chain is an earlier number. *)
Record wf (h : PositionHistory) : Prop := mkWf {
  wf_max : (1 <= max_samples h)%nat;
  wf_size : (length (entries h) <= max_samples h)%nat;
  wf_sorted : StronglySorted Z.lt (sequence <$> entries h);
  wf_range : Forall (fun e => 0 <= sequence e < next_sequence h) (entries h);
  wf_roots : Forall (fun e => forall r, replacement_root e = Some r -> r < sequence e) (entries h);
  wf_generation : 1 <= generation h;
  wf_next : 0 <= next_sequence h;
}.

(** [append] as its three outcomes. *)
Inductive append_case (s : PositionSample) (h : PositionHistory) :
    list Entry -> Prop :=
| append_push :
    append_case s h (entries h ++ [mkEntry (next_sequence h) s None])
| append_replace pre p b :
    entries h = pre ++ [p; b] ->
    append_case s h (pre ++ [p; mkEntry (next_sequence h) s
                                  (Some (default (sequence b) (replacement_root b)))]).

Lemma last_two {A} (l : list A) : (2 <= length l)%nat ->
  exists pre p b, l = pre ++ [p; b] /\ last l = Some b /\ l !! (length l - 2)%nat = Some p
  /\ take (length l - 1) l = pre ++ [p].
Proof.
  intros H. destruct l as [|b l _] using rev_ind; [cbn in H; lia|].
  destruct l as [|p pre _] using rev_ind; [cbn in H; lia|].
  exists pre, p, b. rewrite <- app_assoc. cbn. rewrite !length_app. cbn. split_and!; [done| | |].
  - by rewrite last_app.
  - rewrite lookup_app_r by lia. by replace (length pre + 2 - 2 - length pre)%nat with 0%nat by lia.
  - change [p; b] with ([p] ++ [b]). rewrite app_assoc.
    rewrite take_app_length'; [done|]. rewrite length_app. cbn. lia.
Qed.

Lemma append_cases s h :
  append s h = (h, false)
  \/ exists es, append_case s h es /\
     append s h =
       (if (max_samples h <? length es)%nat
        then mkHistory (drop 1 es) (max_samples h) (epsilon h) (u64_succ (next_sequence h))
               (u64_succ (generation h))
        else mkHistory es (max_samples h) (epsilon h) (u64_succ (next_sequence h))
               (generation h), true).
Proof.
  unfold append. case_match eqn:Hun; [by left|right]. clear Hun.
  destruct (replaces_tail s h) eqn:E.
  - unfold replaces_tail in E. apply andb_true_iff in E as [E _]. bool_to_prop.
    destruct (last_two _ E) as (pre & p & b & He & Hb & _ & Ht). unfold back. rewrite Hb, Ht.
    exists (pre ++ [p; mkEntry (next_sequence h) s
      (Some (default (sequence b) (replacement_root b)))]).
    split; [by apply append_replace|]. rewrite <- app_assoc. cbn [app].
    by destruct (_ <? _)%nat.
  - exists (entries h ++ [mkEntry (next_sequence h) s None]). split; [constructor|].
    by destruct (_ <? _)%nat.
Qed.

Lemma sorted_snoc_next l n :
  StronglySorted Z.lt (sequence <$> l) -> Forall (fun e => 0 <= sequence e < n) l ->
  forall s r, StronglySorted Z.lt (sequence <$> (l ++ [mkEntry n s r])).
Proof.
  intros Hs Hr s r. rewrite fmap_app. apply StronglySorted_snoc; [done|].
  apply Forall_fmap. eapply Forall_impl; [done|]. cbn. lia.
Qed.

(** The new entry list is well formed before the eviction. *)
Lemma append_case_wf s h es :
  wf h -> append_case s h es ->
  StronglySorted Z.lt (sequence <$> es)
  /\ Forall (fun e => 0 <= sequence e < next_sequence h + 1) es
  /\ Forall (fun e => forall r, replacement_root e = Some r -> r < sequence e) es
  /\ (length es <= S (length (entries h)))%nat /\ (1 <= length es)%nat.
Proof.
  intros H Hc. pose proof (wf_next _ H). pose proof (wf_range _ H) as Hr.
  pose proof (wf_sorted _ H) as Hs. pose proof (wf_roots _ H) as Ho.
  assert (Hw : forall l, Forall (fun e => 0 <= sequence e < next_sequence h) l ->
    Forall (fun e => 0 <= sequence e < next_sequence h + 1) l)
    by (intros l Hl; eapply Forall_impl; [done|cbn; lia]).
  destruct Hc as [|pre p b He].
  - split_and!.
    + by apply sorted_snoc_next.
    + apply Forall_app. split; [by apply Hw|]. apply Forall_singleton. cbn. lia.
    + apply Forall_app. split; [done|]. by apply Forall_singleton.
    + rewrite length_app. cbn. lia.
    + rewrite length_app. cbn. lia.
  - rewrite He in Hr, Hs, Ho.
    change [p; b] with ([p] ++ [b]) in *. rewrite app_assoc in *.
    apply Forall_app in Hr as [Hr Hb]. rewrite Forall_singleton in Hb.
    apply Forall_app in Ho as [Ho Hob]. rewrite Forall_singleton in Hob.
    rewrite fmap_app in Hs. apply StronglySorted_app_l in Hs.
    rewrite (cons_middle p), app_assoc. split_and!.
    + by apply sorted_snoc_next.
    + apply Forall_app. split; [by apply Hw|]. apply Forall_singleton. cbn. lia.
    + apply Forall_app. split; [done|]. apply Forall_singleton. cbn. intros r [= <-].
      destruct (replacement_root b) as [r|] eqn:E; cbn; [|lia]. specialize (Hob r eq_refl). lia.
    + rewrite He, !length_app. cbn. lia.
    + rewrite !length_app. cbn. lia.
Qed.

Lemma StronglySorted_drop {A} (R : relation A) n (l : list A) :
  StronglySorted R l -> StronglySorted R (drop n l).
Proof.
  revert l. induction n as [|n IH]; intros [|x l] H; cbn; try done.
  apply IH. by apply StronglySorted_inv in H as [? _].
Qed.

(** No counter wraps within the next [n] operations. *)
Definition no_wrap (n : nat) (h : PositionHistory) : Prop :=
  next_sequence h + Z.of_nat n < 2 ^ 64 /\ generation h + Z.of_nat n < 2 ^ 64.

Lemma wf_make max eps : wf (make max eps).
Proof. split; cbn; try done; try lia. constructor. Qed.

Lemma wf_drop_entries h l g :
  wf h -> (exists n, l = drop n (entries h)) -> 1 <= g ->
  forall max eps, (1 <= max)%nat -> (length l <= max)%nat ->
  wf (mkHistory l max eps (next_sequence h) g).
Proof.
  intros H [n ->] Hg max eps Hm Hl. split; cbn; try done; try apply H.
  - rewrite fmap_drop. by apply StronglySorted_drop, H.
  - by apply Forall_drop, H.
  - by apply Forall_drop, H.
Qed.

Lemma wf_apply h o : wf h -> no_wrap 1 h -> wf (apply h o).
Proof.
  intros H [Hn Hg]. pose proof (wf_generation _ H). pose proof (wf_next _ H).
  destruct o as [max eps| |s]; cbn.
  - apply (wf_drop_entries h); [done|by eexists|rewrite u64_succ_small; lia|lia|].
    rewrite keep_last_length. lia.
  - apply (wf_drop_entries h); [done| |rewrite u64_succ_small; lia|apply H|cbn; lia].
    exists (length (entries h)). by rewrite drop_ge.
  - destruct (append_cases s h) as [->|(es & Hc & ->)]; [done|].
    destruct (append_case_wf _ _ _ H Hc) as (Hs & Hr & Ho & Hl & Hl1). cbn [fst].
    pose proof (wf_size _ H). pose proof (wf_max _ H).
    destruct (max_samples h <? length es)%nat eqn:E; bool_to_prop;
      (split; cbn -[drop]; rewrite ?(u64_succ_small (next_sequence h)), ?(u64_succ_small (generation h)) by lia;
       try done; try lia).
    + rewrite length_drop. lia.
    + rewrite fmap_drop. by apply StronglySorted_drop.
    + by apply Forall_drop.
    + by apply Forall_drop.
Qed.

Lemma no_wrap_apply n h o : wf h -> no_wrap (S n) h -> no_wrap n (apply h o).
Proof.
  intros H [Hn Hg]. pose proof (wf_generation _ H). pose proof (wf_next _ H).
  destruct o as [max eps| |s]; cbn; unfold no_wrap; cbn.
  - rewrite u64_succ_small; lia.
  - rewrite u64_succ_small; lia.
  - destruct (append_cases s h) as [->|(es & _ & ->)]; cbn [fst]; [lia|].
    destruct (max_samples h <? length es)%nat; cbn; rewrite ?u64_succ_small; lia.
Qed.

Lemma wf_run ops h : wf h -> no_wrap (length ops) h -> wf (run ops h).
Proof.
  revert h. induction ops as [|o ops IH]; intros h H Hn; [done|]. cbn in *.
  apply IH; [|by apply no_wrap_apply]. apply wf_apply; [done|]. unfold no_wrap in *. lia.
Qed.

(** ** What happened since a cursor was taken *)

(** [evolved h0 h]: either the generation moved on, or the entries the reader
    saw are intact up to a replaced tail, and everything after is new. *)
Inductive evolved (h0 h : PositionHistory) : Prop :=
| evolved_generation : generation h0 < generation h -> evolved h0 h
| evolved_same new :
    generation h = generation h0 ->
    entries h = entries h0 ++ new ->
    Forall (fun e => next_sequence h0 <= sequence e) new ->
    (forall e, head new = Some e -> forall r, replacement_root e = Some r -> next_sequence h0 <= r) ->
    (entries h0 = [] -> forall e, head new = Some e -> sequence e = next_sequence h0) ->
    (new = [] -> next_sequence h = next_sequence h0) ->
    next_sequence h0 <= next_sequence h ->
    evolved h0 h
| evolved_tail pre p b t new r :
    generation h = generation h0 ->
    entries h0 = pre ++ [p; b] ->
    entries h = pre ++ [p] ++ t :: new ->
    Forall (fun e => next_sequence h0 <= sequence e) (t :: new) ->
    replacement_root t = Some r -> r < next_sequence h0 ->
    next_sequence h0 <= next_sequence h ->
    evolved h0 h.

Lemma evolved_refl h : evolved h h.
Proof. eapply (evolved_same _ _ []); rewrite ?app_nil_r; try done; lia. Qed.

Lemma snoc_two_inj {A} (l k : list A) a b c d :
  l ++ [a; b] = k ++ [c; d] -> l = k /\ a = c /\ b = d.
Proof.
  intros H. rewrite (cons_middle a), (cons_middle c), !app_assoc in H.
  apply app_inj_tail in H as [H ->]. apply app_inj_tail in H as [-> ->]. done.
Qed.

(** The tail [append] replaces, seen from a list that ends in [k]. *)
Lemma snoc_two_split {A} (l k pre : list A) x p b :
  l ++ k ++ [x] = pre ++ [p; b] -> x = b /\ l ++ k = pre ++ [p].
Proof.
  intros H. rewrite (cons_middle p), !app_assoc in H. by apply app_inj_tail in H as [? ?].
Qed.

Lemma evolved_append h0 h s es max eps :
  wf h0 -> wf h -> evolved h0 h -> append_case s h es ->
  evolved h0 (mkHistory es max eps (next_sequence h + 1) (generation h)).
Proof.
  intros W0 W E Hc. destruct E as [Hg|new Hg He Hf Hr Hh Hn Hle|pre0 p0 b0 t0 new r0 Hg He0 He Hf Hr Hlt Hle].
  - by apply evolved_generation.
  - destruct Hc as [|pre p b Hb].
    + eapply (evolved_same _ _ (new ++ [(mkEntry (next_sequence h) s None)])); cbn; try done; try lia.
      * by rewrite He, app_assoc.
      * apply Forall_app. split; [done|]. by apply Forall_singleton.
      * destruct new; cbn; [by intros e [= <-]|done].
      * intros H0. destruct new; cbn; [intros e [= <-]; cbn; by apply Hn|by apply Hh].
      * by destruct new.
    + rewrite He in Hb. destruct new as [|x new _] using rev_ind.
      * rewrite app_nil_r in Hb. eapply (evolved_tail _ _ pre p b (mkEntry (next_sequence h) s (Some (default (sequence b) (replacement_root b)))) []); cbn; try done; try lia.
        -- by apply Forall_singleton.
        -- pose proof (wf_range _ W0) as R. pose proof (wf_roots _ W0) as O.
           rewrite Hb in R, O. apply Forall_app in R as [_ R]. apply Forall_app in O as [_ O].
           apply Forall_cons in R as [_ R]. apply Forall_cons in O as [_ O].
           rewrite Forall_singleton in R. rewrite Forall_singleton in O.
           destruct (replacement_root b); cbn; [|lia]. specialize (O _ eq_refl). lia.
      * apply snoc_two_split in Hb as [-> Hb].
        apply Forall_app in Hf as [Hf Hfb]. rewrite Forall_singleton in Hfb.
        eapply (evolved_same _ _ (new ++ [(mkEntry (next_sequence h) s (Some (default (sequence b) (replacement_root b))))])); cbn; try done; try lia.
        -- by rewrite app_assoc, Hb, <- app_assoc.
        -- apply Forall_app. split; [done|]. by apply Forall_singleton.
        -- destruct new as [|y new]; cbn; [|by apply Hr].
           intros e [= <-] r [= <-]. cbn in Hr.
           destruct (replacement_root b) as [r|] eqn:Eb; cbn; [by eapply Hr|done].
        -- intros H0. rewrite H0 in Hb, Hh. destruct new as [|y new]; cbn; [by destruct pre|].
           by apply Hh.
        -- by destruct new.
  - destruct Hc as [|pre p b Hb].
    + eapply (evolved_tail _ _ pre0 p0 b0 t0 (new ++ [(mkEntry (next_sequence h) s None)])); cbn; try done; try lia.
      * by rewrite He, <- !app_assoc.
      * rewrite app_comm_cons. apply Forall_app. split; [done|]. by apply Forall_singleton.
    + rewrite He in Hb. destruct new as [|x new _] using rev_ind.
      * apply snoc_two_inj in Hb as (-> & -> & ->). rewrite Hr. cbn.
        eapply (evolved_tail _ _ pre p b0 _ [] r0); cbn; try done; try lia.
        by apply Forall_singleton.
      * rewrite app_comm_cons, app_assoc in Hb. apply snoc_two_split in Hb as [-> Hb].
        rewrite app_comm_cons in Hf. apply Forall_app in Hf as [Hf _].
        eapply (evolved_tail _ _ pre0 p0 b0 t0 (new ++ [(mkEntry (next_sequence h) s (Some (default (sequence b) (replacement_root b))))])); cbn; try done; try lia.
        -- rewrite (cons_middle p), (app_assoc pre), <- Hb. by rewrite <- !app_assoc.
        -- rewrite app_comm_cons. apply Forall_app. split; [done|]. by apply Forall_singleton.
Qed.

(** A generation that moved on stays ahead. *)
Lemma evolved_bump h0 h h' :
  evolved h0 h -> generation h' = generation h + 1 -> evolved h0 h'.
Proof.
  intros E Hg. apply evolved_generation. destruct E; lia.
Qed.

Lemma evolved_apply h0 h o :
  wf h0 -> wf h -> no_wrap 1 h -> evolved h0 h -> evolved h0 (apply h o).
Proof.
  intros W0 W [Hn Hg] E. pose proof (wf_generation _ W). pose proof (wf_next _ W).
  destruct o as [max eps| |s]; cbn.
  - eapply evolved_bump; [done|]. cbn. by rewrite u64_succ_small by lia.
  - eapply evolved_bump; [done|]. cbn. by rewrite u64_succ_small by lia.
  - destruct (append_cases s h) as [->|(es & Hc & ->)]; [done|]. cbn [fst].
    rewrite !u64_succ_small by lia. destruct (max_samples h <? length es)%nat.
    + eapply evolved_bump; done.
    + by eapply evolved_append.
Qed.

Lemma evolved_run ops h0 :
  wf h0 -> no_wrap (length ops) h0 -> evolved h0 (run ops h0).
Proof.
  intros W0. assert (G : forall h, wf h -> no_wrap (length ops) h -> evolved h0 h ->
    evolved h0 (run ops h)); [|intros; apply G; auto using evolved_refl].
  induction ops as [|o ops IH]; intros h W Hn E; [done|]. cbn in *.
  assert (Hn1 : no_wrap 1 h) by (unfold no_wrap in *; lia).
  apply IH; [by apply wf_apply|by apply no_wrap_apply|by apply evolved_apply].
Qed.

(** ** Readers *)

(** What a telemetry reader keeps: the packed points, its cursor and generation. *)
Record Consumer := mkConsumer { buffer : list f64; cursor : Z; seen_generation : Z }.

(** The documented use of a batch: replace everything on a reset, otherwise drop
    the replaced points from the tail and append. *)
Definition receive (b : PositionHistoryBatch) (c : Consumer) : Consumer :=
  mkConsumer
    (if reset b then packed b
     else take (length (buffer c) - replace_count b * kPositionStride) (buffer c) ++ packed b)
    (batch_next_sequence b) (batch_generation b).

Definition in_sync (h : PositionHistory) : Consumer :=
  mkConsumer (pack (entries h)) (next_sequence h) (generation h).

Lemma pack_app l k : pack (l ++ k) = pack l ++ pack k.
Proof. unfold pack. by rewrite fmap_app, concat_app. Qed.

Lemma length_pack l : length (pack l) = (length l * kPositionStride)%nat.
Proof.
  induction l as [|e l IH]; [done|]. unfold pack in *. cbn [fmap list_fmap concat].
  rewrite length_app, IH. unfold append_packed. rewrite length_app, length_vec_to_list.
  cbn. lia.
Qed.

Lemma lower_bound_split n l k :
  Forall (fun e => sequence e < n) l -> Forall (fun e => n <= sequence e) k ->
  lower_bound n (l ++ k) = k.
Proof.
  intros Hl Hk. induction Hl as [|e l He _ IH]; cbn.
  - destruct k as [|e k]; [done|]. apply Forall_cons in Hk as [He _]. cbn.
    by destruct (Z.ltb_spec (sequence e) n); [lia|].
  - by destruct (Z.ltb_spec (sequence e) n); [|lia].
Qed.

Lemma seen_below h : wf h -> Forall (fun e => sequence e < next_sequence h) (entries h).
Proof. intros H. eapply Forall_impl; [apply H|]. cbn. lia. Qed.

(** The three ways the history evolves, as the batches they produce. *)
Lemma since_generation h0 h :
  1 <= generation h0 -> generation h0 < generation h ->
  receive (since (next_sequence h0) 0 (generation h0) h) (in_sync h0) = in_sync h.
Proof.
  intros H1 H2. unfold since, receive, in_sync.
  destruct (Z.eqb_spec (generation h0) 0); [lia|].
  destruct (Z.eqb_spec (generation h0) (generation h)); [lia|]. cbn [negb andb orb].
  destruct (entries h) as [|e l] eqn:E; [done|]. cbn [Nat.eqb reset packed replace_count batch_next_sequence batch_generation negb andb buffer].
  by rewrite firstn_all.
Qed.

Lemma since_same h0 h new :
  wf h0 -> generation h = generation h0 -> entries h = entries h0 ++ new ->
  Forall (fun e => next_sequence h0 <= sequence e) new ->
  (forall e, head new = Some e -> forall r, replacement_root e = Some r -> next_sequence h0 <= r) ->
  (entries h0 = [] -> forall e, head new = Some e -> sequence e = next_sequence h0) ->
  (new = [] -> next_sequence h = next_sequence h0) ->
  receive (since (next_sequence h0) 0 (generation h0) h) (in_sync h0) = in_sync h.
Proof.
  intros W0 Hg He Hf Hr Hh Hn. unfold since, receive, in_sync. rewrite Hg, Z.eqb_refl.
  rewrite andb_false_r. cbn [orb].
  destruct (entries h) as [|o l] eqn:E.
  - symmetry in He. apply app_nil in He as [H0 ->]. rewrite (Hn eq_refl), Z.eqb_refl, H0. done.
  - assert (Hroll : (next_sequence h0 <? sequence o) = false).
    { apply Z.ltb_ge. pose proof (seen_below _ W0) as Hs. destruct (entries h0) as [|x l0].
      - destruct new as [|n new]; [done|]. injection He as -> _.
        rewrite (Hh eq_refl n eq_refl). lia.
      - injection He as -> _. apply Forall_cons in Hs as [? _]. lia. }
    rewrite Hroll. cbn [negb andb]. rewrite He, lower_bound_split; auto using seen_below.
    cbn [Nat.eqb reset packed replace_count batch_next_sequence batch_generation negb andb buffer]. rewrite firstn_all, pack_app.
    assert (Hc : match new with
      | [] => 0%nat
      | e :: _ => if default (next_sequence h0) (replacement_root e) <? next_sequence h0
                  then 1%nat else 0%nat end = 0%nat).
    { destruct new as [|e new]; [done|]. specialize (Hr e eq_refl).
      destruct (replacement_root e) as [r|]; cbn; [specialize (Hr r eq_refl)|];
        by destruct (Z.ltb_spec (default (next_sequence h0) None) (next_sequence h0));
        rewrite ?(proj2 (Z.ltb_ge _ _)) by lia. }
    rewrite Hc. by rewrite Nat.mul_0_l, Nat.sub_0_r, firstn_all.
Qed.

Lemma since_tail h0 h pre p b t new r :
  wf h0 -> generation h = generation h0 -> entries h0 = pre ++ [p; b] ->
  entries h = pre ++ [p] ++ t :: new ->
  Forall (fun e => next_sequence h0 <= sequence e) (t :: new) ->
  replacement_root t = Some r -> r < next_sequence h0 ->
  receive (since (next_sequence h0) 0 (generation h0) h) (in_sync h0) = in_sync h.
Proof.
  intros W0 Hg He0 He Hf Hr Hlt. unfold since, receive, in_sync. rewrite Hg, Z.eqb_refl.
  rewrite andb_false_r. cbn [orb].
  pose proof (seen_below _ W0) as Hs. rewrite He0, (cons_middle p), app_assoc in Hs.
  apply Forall_app in Hs as [Hs _].
  destruct (entries h) as [|o l] eqn:E; [by destruct pre|].
  assert (Hroll : (next_sequence h0 <? sequence o) = false).
  { apply Z.ltb_ge. destruct pre as [|x pre]; injection He as -> _;
      apply Forall_cons in Hs as [? _]; lia. }
  rewrite Hroll, He, app_assoc. cbn [negb andb].
  rewrite lower_bound_split by done. cbn [Nat.eqb reset packed replace_count batch_next_sequence batch_generation negb andb buffer]. rewrite Hr. cbn [Nat.eqb reset packed replace_count batch_next_sequence batch_generation negb andb buffer].
  rewrite (proj2 (Z.ltb_lt r _)) by done.
  rewrite firstn_all, He0, (cons_middle p), app_assoc, !(pack_app (pre ++ [p])).
  rewrite take_app_length'; [done|].
  rewrite length_app, !length_pack. cbn. lia.
Qed.

(** A batch takes a reader from one state of a run to the next. *)
Lemma since_run (max : nat) (eps : f64) (before later : list Op) :
  Z.of_nat (length before + length later) + 1 < 2 ^ 64 ->
  let h0 := run before (make max eps) in
  let h := run later h0 in
  receive (since (next_sequence h0) 0 (generation h0) h) (in_sync h0) = in_sync h.
Proof.
  intros Hlen. cbn zeta.
  assert (Hn : no_wrap (length before + length later) (make max eps))
    by (unfold no_wrap; cbn; lia).
  assert (W0 : wf (run before (make max eps))).
  { apply wf_run; [apply wf_make|]. unfold no_wrap in *. lia. }
  assert (Hn0 : no_wrap (length later) (run before (make max eps))).
  { clear W0 Hlen. pose proof (wf_make max eps) as W. revert Hn W. generalize (make max eps).
    induction before as [|o before IH]; intros h Hn W; [done|]. cbn in *.
    apply IH; [by apply no_wrap_apply|]. apply wf_apply; [done|]. unfold no_wrap in *. lia. }
  pose proof (evolved_run later _ W0 Hn0) as E.
  set (h0 := run before (make max eps)) in *. set (h := run later h0) in *.
  destruct E as [Hg|new|pre p b t new r].
  - by apply since_generation; [apply W0|].
  - by eapply since_same.
  - by eapply since_tail.
Qed.

(** C2: Cursor deltas keep a reader synchronized: a reader that holds the packed
    history at some moment, and later applies the batch [since] returns for its
    cursor and generation, holds exactly the packed history of that later
    moment, whatever appends (with tail replacements and evictions), clears and
    reconfigurations happened in between; its new cursor is again up to date. *)
Theorem since_synchronizes (max : nat) (eps : f64) (before later : list Op) :
  Z.of_nat (length before + length later) + 1 < 2 ^ 64 ->
  let h0 := run before (make max eps) in
  let h := run later h0 in
  receive (since (next_sequence h0) 0 (generation h0) h) (in_sync h0) = in_sync h.
Proof. apply since_run. Qed.

(** The history is bounded and ordered: for every run, it holds at most the
    configured number of points, its sequence numbers increase strictly and
    stay below the next one, and a snapshot packs exactly ten doubles per
    point. *)
Theorem history_bounded_ordered (max : nat) (eps : f64) (ops : list Op) :
  Z.of_nat (length ops) + 1 < 2 ^ 64 ->
  let h := run ops (make max eps) in
  (size h <= max_samples h)%nat
  /\ StronglySorted Z.lt (sequence <$> entries h)
  /\ Forall (fun e => 0 <= sequence e < next_sequence h) (entries h)
  /\ length (packed (snapshot h)) = (size h * kPositionStride)%nat.
Proof.
  intros Hl. cbn zeta. assert (W : wf (run ops (make max eps))).
  { apply wf_run; [apply wf_make|]. unfold no_wrap. cbn. lia. }
  split_and!; try apply W. apply length_pack.
Qed.

Lemma coordinates_changed_self eps l :
  f64_gt f64_zero eps = false -> coordinates_changed eps l l = false.
Proof.
  intros He. induction l as [|x l IH]; [done|]. cbn.
  destruct (f64_isfinite x) eqn:E; cbn.
  - by rewrite f64_sub_self, He.
  - destruct x as [|[]| |]; done.
Qed.

Lemma epsilon_ok ops h :
  f64_gt f64_zero (epsilon h) = false -> f64_gt f64_zero (epsilon (run ops h)) = false.
Proof.
  apply (foldl_preserves apply (fun h => f64_gt f64_zero (epsilon h) = false)).
  intros x [max eps| |s] Hx; cbn; [apply f64_max_zero_not_below|done|].
  destruct (append_cases s x) as [->|(es & _ & ->)]; [done|]. cbn [fst]. by destruct (_ <? _)%nat.
Qed.

Lemma append_case_last s h es r :
  append_case s h es -> last es = Some r -> sample r = s.
Proof. destruct 1 as [|pre p b _]; rewrite last_app; by intros [= <-]. Qed.

(** Repeating a sample is not news: whatever the history holds (NaN and
    infinite coordinates included), after an append of a sample a second append
    of the same sample is refused and changes nothing. *)
Theorem append_idempotent (max : nat) (eps : f64) (ops : list Op) (s : PositionSample) :
  Z.of_nat (length ops) + 1 < 2 ^ 64 ->
  let h1 := (append s (run ops (make max eps))).1 in
  append s h1 = (h1, false).
Proof.
  intros Hl. cbn zeta. set (h := run ops (make max eps)).
  assert (W : wf h). { apply wf_run; [apply wf_make|]. unfold no_wrap. cbn. lia. }
  assert (He : f64_gt f64_zero (epsilon h) = false)
    by apply epsilon_ok, f64_max_zero_not_below.
  destruct (append_cases s h) as [E|(es & Hc & E)]; rewrite E; [exact E|].
  destruct (append_case_wf _ _ _ W Hc) as (_ & _ & _ & _ & Hn). cbn [fst].
  assert (Hlast : exists h1, (if (max_samples h <? length es)%nat
        then mkHistory (drop 1 es) (max_samples h) (epsilon h) (u64_succ (next_sequence h))
               (u64_succ (generation h))
        else mkHistory es (max_samples h) (epsilon h) (u64_succ (next_sequence h))
               (generation h)) = h1 /\ epsilon h1 = epsilon h
        /\ exists r, back h1 = Some r /\ sample r = s).
  { eexists. split; [done|]. split; [by destruct (_ <? _)%nat|].
    destruct (last es) as [r|] eqn:El; [|apply last_None in El; subst; cbn in Hn; lia].
    exists r. split; [|by eapply append_case_last].
    unfold back. pose proof (wf_max _ W).
    destruct (max_samples h <? length es)%nat eqn:Em; bool_to_prop; cbn [entries]; [|done].
    destruct es as [|x [|y es]]; cbn in Em; [lia|lia|done]. }
  destruct Hlast as (h1 & -> & He1 & r & Hb & Hr).
  unfold append. rewrite Hb, Hr, He1. unfold changed.
  rewrite coordinates_changed_self, Z.eqb_refl by done. done.
Qed.

(** *** Concrete runs *)

Definition point (x y : Z) : PositionSample :=
  mkSample [# f64_of_Z x; f64_of_Z y; f64_zero; f64_zero; f64_zero; f64_zero; f64_zero;
              f64_zero; f64_zero] 1.

Definition straight_then_turn : list Op :=
  [OpAppend (point 2 0); OpAppend (point 3 0); OpAppend (point 3 1)].

(** The reader saw two points; the second is replaced twice before a turn. *)
Lemma since_synchronizes_witness :
  let h0 := run [OpAppend (point 0 0); OpAppend (point 1 0)] (make 10 kDefaultEpsilon) in
  let h := run straight_then_turn h0 in
  replace_count (since (next_sequence h0) 0 (generation h0) h) = 1%nat
  /\ size h = 3%nat
  /\ receive (since (next_sequence h0) 0 (generation h0) h) (in_sync h0) = in_sync h.
Proof.
  split; [vm_compute; reflexivity|]. split; [vm_compute; reflexivity|].
  apply (since_synchronizes 10 kDefaultEpsilon [OpAppend (point 0 0); OpAppend (point 1 0)]
    straight_then_turn). cbn. lia.
Defined.

Lemma history_bounded_ordered_witness :
  (size (run straight_then_turn (make 2 kDefaultEpsilon)) <= 2)%nat.
Proof.
  apply (history_bounded_ordered 2 kDefaultEpsilon straight_then_turn). cbn. lia.
Defined.

Lemma append_idempotent_witness :
  let h1 := (append (point 3 1) (run straight_then_turn (make 2 kDefaultEpsilon))).1 in
  append (point 3 1) h1 = (h1, false).
Proof. apply (append_idempotent 2 kDefaultEpsilon straight_then_turn). cbn. lia. Defined.

End History.

(** [PositionTelemetry]: the history together with the hub that wakes readers. *)
Module Telemetry.
Import History.

Definition publish_wake (h : PositionHistory) (hub : Registry.State) : list (nat * Z) :=
  (fun cb => (cb, next_sequence h)) <$> Registry.publish hub.

Definition configure (max : nat) (h : PositionHistory) (hub : Registry.State) :
    PositionHistory * list (nat * Z) :=
  let h1 := History.configure max kDefaultEpsilon h in (h1, publish_wake h1 hub).

Definition clear (h : PositionHistory) (hub : Registry.State) :
    PositionHistory * list (nat * Z) :=
  let h1 := History.clear h in (h1, publish_wake h1 hub).

Definition append (s : PositionSample) (h : PositionHistory) (hub : Registry.State) :
    PositionHistory * list (nat * Z) * bool :=
  let '(h1, ok) := History.append s h in
  if ok then (h1, publish_wake h1 hub, true) else (h1, [], false).

Definition since (seq gen : Z) (h : PositionHistory) : PositionHistoryBatch :=
  History.since seq 0 gen h.

(** Every change of the history wakes every live subscriber, with the sequence
    number the history has reached. *)
Lemma append_wakes es s h :
  (Z.of_nat (length es) + 2 < 2 ^ 64)%Z ->
  let '(h1, wakes, ok) := append s h (foldl Registry.edit Registry.make es) in
  (ok = false /\ h1 = h /\ wakes = [])
  \/ (ok = true /\ wakes.*1 ≡ₚ (Registry.live es).2.*2
      /\ Forall (fun w => w.2 = next_sequence h1) wakes).
Proof.
  intros Hl. unfold append. destruct (append_cases s h) as [->|(l & _ & ->)]; [by left|right].
  split; [done|]. unfold publish_wake. split.
  - rewrite <- list_fmap_compose.
    destruct (Registry.live_refines es Hl) as [Hr _].
    unfold Registry.publish. rewrite (Registry.ref_open _ _ Hr).
    unfold compose. cbn. rewrite list_fmap_id. by apply Registry.refines_values.
  - apply Forall_fmap, Forall_forall. done.
Qed.

End Telemetry.
