(* ===== verification/HalTelemetry.v ===== *)
(** HAL value telemetry ([hal/value_telemetry.hpp], [hal/value_telemetry.cc]) and
    the WebSocket session that streams it ([telemetry_websocket_server.cc]).

    [Values] models the subscription store: capacity, attachment tokens, the
    sampling budget, slots, revisions and publication.  [Session] models the
    HAL part of a telemetry session (the frame in flight, the dirty flag, the
    posted wake-ups) together with the view of the remote reader. *)
From Stdlib Require Import SpecFloat.
From S2P Require Import Prelude Float64 CallbackRuntime.

Module Values.
Local Open Scope Z_scope.

Inductive HalTelemetryItemKind := Pin | Param | Signal.
Inductive HalTelemetryType := Unavailable | Bit | Float | S32 | U32 | S64 | U64.
Inductive HalTelemetryValue :=
| VBit (b : bool) | VFloat (x : f64) | VS32 (z : Z) | VU32 (z : Z) | VS64 (z : Z) | VU64 (z : Z).

#[export] Instance HalTelemetryItemKind_eq_dec : EqDecision HalTelemetryItemKind.
Proof. solve_decision. Defined.
#[export] Instance HalTelemetryType_eq_dec : EqDecision HalTelemetryType.
Proof. solve_decision. Defined.

(** [operator==] of the variant: the same alternative and equal values, so a
    NaN differs from itself and the two zeros are equal. *)
Definition value_eq (a b : HalTelemetryValue) : bool :=
  match a, b with
  | VBit x, VBit y => Bool.eqb x y
  | VFloat x, VFloat y => f64_eq x y
  | VS32 x, VS32 y | VU32 x, VU32 y | VS64 x, VS64 y | VU64 x, VU64 y => x =? y
  | _, _ => false
  end.

Definition slot_value := option HalTelemetryValue.

Definition slot_value_eq (a b : slot_value) : bool :=
  match a, b with
  | Some x, Some y => value_eq x y
  | None, None => true
  | _, _ => false
  end.

Fixpoint values_eq (a b : list slot_value) : bool :=
  match a, b with
  | [], [] => true
  | x :: a', y :: b' => slot_value_eq x y && values_eq a' b'
  | _, _ => false
  end.

Record HalTelemetryReference := mkReference { ref_kind : HalTelemetryItemKind; ref_name : string }.
Record HalTelemetryResolvedItem := mkResolved {
  res_item : HalTelemetryReference; res_type : HalTelemetryType }.
Record HalTelemetryBinding := mkBinding {
  slot : Z; bind_item : HalTelemetryReference; bind_type : HalTelemetryType }.

#[export] Instance HalTelemetryReference_eq_dec : EqDecision HalTelemetryReference.
Proof. solve_decision. Defined.

Record State := mkState {
  id : string;
  attachment_token : string;
  expires : Z;
  next_due : Z;
  sample_period : Z;
  revision : Z;
  sequence : Z;
  next_slot : Z;
  attached : bool;
  sampled : bool;
  bindings : list HalTelemetryBinding;
  values : list slot_value;
  wakes : Registry.State;
}.

Record HalTelemetryDescriptor := mkDescriptor {
  d_subscription_id : string;
  d_websocket_path : string;
  d_revision : Z;
  d_sample_period : Z;
  d_bindings : list HalTelemetryBinding;
}.

Record HalTelemetrySnapshot := mkSnapshot {
  s_sampled : bool;
  s_revision : Z;
  s_sequence : Z;
  s_bindings : list HalTelemetryBinding;
  s_values : list slot_value;
}.

Record HalValueTelemetry := mkTelemetry {
  capacity : nat;
  attachment_ttl : Z;
  states : gmap string State;
  tokens : gmap string string;
  closed : bool;
}.

Definition kMaxSamplesPerSecond : Z := 20480.

Definition make (cap : nat) (ttl : Z) : HalValueTelemetry := mkTelemetry cap ttl ∅ ∅ false.

(** The enumerators are 1, 2 and 3. *)
Definition kind_digit (k : HalTelemetryItemKind) : string :=
  match k with Pin => "1" | Param => "2" | Signal => "3" end.

Definition key (item : HalTelemetryReference) : string :=
  kind_digit (ref_kind item) +:+ ":" +:+ ref_name item.

Definition describe (st : State) : HalTelemetryDescriptor :=
  mkDescriptor (id st) ("/v1/hal-values/" +:+ attachment_token st) (revision st)
    (sample_period st) (bindings st).

(** [expire_locked]. *)
Definition expired (now : Z) (st : State) : bool := negb (attached st) && (expires st <=? now).

Definition expire_locked (now : Z) (t : HalValueTelemetry) : HalValueTelemetry :=
  let gone := map_to_list (filter (fun kv => expired now kv.2 = true) (states t)) in
  mkTelemetry (capacity t) (attachment_ttl t)
    (filter (fun kv => expired now kv.2 = false) (states t))
    (foldr (fun kv m => delete (attachment_token kv.2) m) (tokens t) gone)
    (closed t).

(** ** The sampling budget *)

(** [include]: the fastest period at which each item is sampled. *)
Definition include (m : gmap string Z) (kp : string * Z) : gmap string Z :=
  match m !! kp.1 with
  | None => <[kp.1 := kp.2]> m
  | Some p => if kp.2 <? p then <[kp.1 := kp.2]> m else m
  end.

Definition fastest (pairs : list (string * Z)) : gmap string Z := foldl include ∅ pairs.

(** The (item, period) pairs of a subscription. *)
Definition state_pairs (st : State) : list (string * Z) :=
  (fun b => (key (bind_item b), sample_period st)) <$> bindings st.

Definition all_pairs (m : gmap string State) : list (string * Z) :=
  mjoin ((fun kv => state_pairs kv.2) <$> map_to_list m).

(** [(1000U + milliseconds - 1U) / milliseconds]. *)
Definition rate (period : Z) : Z := u64_wrap (1000 + period - 1) / period.

(** The loop over [fastest], in the container's order. *)
Fixpoint charge (cost : Z) (periods : list Z) : bool :=
  match periods with
  | [] => true
  | p :: rest =>
      if kMaxSamplesPerSecond - cost <? rate p then false else charge (cost + rate p) rest
  end.

Definition within_sampling_budget_locked (replacing : option string)
    (items : list HalTelemetryResolvedItem) (period : Z) (t : HalValueTelemetry) : bool :=
  let others := match replacing with
                | Some i => delete i (states t) | None => states t end in
  let m := fastest (all_pairs others ++ ((fun r => (key (res_item r), period)) <$> items)) in
  charge 0 (map_to_list m).*2.

(** ** Operations *)

(** [do id = token(); while (used.count(id));] on a stream of random tokens. *)
Fixpoint fresh_token (used : string -> bool) (draws : list string) : option (string * list string) :=
  match draws with
  | [] => None
  | d :: rest => if used d then fresh_token used rest else Some (d, rest)
  end.

(** The bindings of new items, with consecutive slots. *)
Fixpoint new_bindings (slot : Z) (items : list HalTelemetryResolvedItem) :
    list HalTelemetryBinding * Z :=
  match items with
  | [] => ([], slot)
  | r :: rest =>
      let '(bs, next) := new_bindings (u32_succ slot) rest in
      (mkBinding slot (res_item r) (res_type r) :: bs, next)
  end.

Definition put_state (st : State) (t : HalValueTelemetry) : HalValueTelemetry :=
  mkTelemetry (capacity t) (attachment_ttl t) (<[id st := st]> (states t)) (tokens t) (closed t).

(** [create]; [now], [now_ttl] and [now_due] are its three clock readings.  The
    outer option is [None] when the random tokens run out before a fresh one. *)
Definition create (items : list HalTelemetryResolvedItem) (period now now_ttl now_due : Z)
    (draws : list string) (t : HalValueTelemetry) :
    option (HalValueTelemetry * option HalTelemetryDescriptor) :=
  if closed t then Some (t, None)
  else
    let t1 := expire_locked now t in
    if (capacity t1 <=? size (states t1))%nat then Some (t1, None)
    else if negb (within_sampling_budget_locked None items period t1) then Some (t1, None)
    else
      '(i, draws1) ← fresh_token (fun s => bool_decide (is_Some (states t1 !! s))) draws;
      '(tok, _) ← fresh_token (fun s => bool_decide (is_Some (tokens t1 !! s))) draws1;
      let '(bs, next) := new_bindings 0 items in
      let st := mkState i tok (now_ttl + attachment_ttl t) now_due period 1 0 next false false
        bs ((fun _ => None) <$> bs) Registry.make in
      Some (mkTelemetry (capacity t1) (attachment_ttl t1) (<[i := st]> (states t1))
              (<[tok := i]> (tokens t1)) (closed t1), Some (describe st)).

(** [previous]: the first index of each key. *)
Definition find_previous (k : string) (bs : list HalTelemetryBinding) : option nat :=
  fst <$> list_find (fun b => key (bind_item b) = k) bs.

(** The loop of [update]. *)
Fixpoint rebind (st : State) (slot : Z) (items : list HalTelemetryResolvedItem) :
    list HalTelemetryBinding * list slot_value * Z :=
  match items with
  | [] => ([], [], slot)
  | r :: rest =>
      let fresh :=
        let '(bs, vs, next) := rebind st (u32_succ slot) rest in
        (mkBinding slot (res_item r) (res_type r) :: bs, None :: vs, next) in
      match find_previous (key (res_item r)) (bindings st) with
      | Some i =>
          match bindings st !! i with
          | Some b =>
              if bool_decide (bind_type b = res_type r) then
                let '(bs, vs, next) := rebind st slot rest in
                (b :: bs, default None (values st !! i) :: vs, next)
              else fresh
          | None => fresh
          end
      | None => fresh
      end
  end.

Definition update (sid : string) (expected_revision : Z) (items : list HalTelemetryResolvedItem)
    (period now_due : Z) (t : HalValueTelemetry) :
    HalValueTelemetry * option (HalTelemetryDescriptor * list (nat * Z)) :=
  match states t !! sid with
  | None => (t, None)
  | Some st =>
      if closed t then (t, None)
      else if negb (revision st =? expected_revision) then (t, None)
      else if negb (within_sampling_budget_locked (Some sid) items period t) then (t, None)
      else
        let '(bs, vs, next) := rebind st (next_slot st) items in
        let st1 := mkState (id st) (attachment_token st) (expires st) now_due period
          (u64_succ (revision st)) (u64_succ (sequence st)) next (attached st)
          (bool_decide (bs = [])) bs vs (wakes st) in
        (put_state st1 t,
         Some (describe st1, (fun cb => (cb, sequence st1)) <$> Registry.publish (wakes st1)))
  end.

Definition descriptor (sid : string) (t : HalValueTelemetry) : option HalTelemetryDescriptor :=
  describe <$> states t !! sid.

Definition claim (tok : string) (now now_due : Z) (t : HalValueTelemetry) :
    HalValueTelemetry * option (string * list (nat * Z)) :=
  let t1 := expire_locked now t in
  match tokens t1 !! tok with
  | None => (t1, None)
  | Some i =>
      if closed t1 then (t1, None)
      else match states t1 !! i with
      | None => (t1, None)
      | Some st =>
          if attached st then (t1, None)
          else
            let st1 := mkState (id st) (attachment_token st) (expires st) now_due
              (sample_period st) (revision st) (sequence st) (next_slot st) true (sampled st)
              (bindings st) (values st) (wakes st) in
            (put_state st1 t1,
             Some (id st, (fun cb => (cb, sequence st)) <$> Registry.publish (wakes st)))
      end
  end.

Definition detach (sid : string) (now : Z) (t : HalValueTelemetry) : HalValueTelemetry * bool :=
  match states t !! sid with
  | None => (t, false)
  | Some st =>
      if negb (attached st) then (t, false)
      else (put_state (mkState (id st) (attachment_token st) (now + attachment_ttl t) (next_due st)
              (sample_period st) (revision st) (sequence st) (next_slot st) false (sampled st)
              (bindings st) (values st) (wakes st)) t, true)
  end.

Definition erase (sid : string) (t : HalValueTelemetry) :
    HalValueTelemetry * option (list (nat * Z)) :=
  match states t !! sid with
  | None => (t, None)
  | Some st =>
      (mkTelemetry (capacity t) (attachment_ttl t) (delete sid (states t))
         (delete (attachment_token st) (tokens t)) (closed t),
       Some ((fun cb => (cb, u64_succ (sequence st))) <$> Registry.publish (wakes st)))
  end.

Definition close (t : HalValueTelemetry) : HalValueTelemetry :=
  if closed t then t else mkTelemetry (capacity t) (attachment_ttl t) ∅ ∅ true.

(** [due]: the states to sample and the new due times. *)
Definition is_due (now : Z) (st : State) : bool :=
  attached st && negb (bool_decide (bindings st = [])) && (next_due st <=? now).

Definition due (now : Z) (t : HalValueTelemetry) :
    HalValueTelemetry * list (string * Z * list HalTelemetryBinding) :=
  let t1 := expire_locked now t in
  (mkTelemetry (capacity t1) (attachment_ttl t1)
     ((fun st => if is_due now st
        then mkState (id st) (attachment_token st) (expires st) (now + sample_period st)
          (sample_period st) (revision st) (sequence st) (next_slot st) (attached st) (sampled st)
          (bindings st) (values st) (wakes st)
        else st) <$> states t1) (tokens t1) (closed t1),
   (fun kv => (kv.1, revision kv.2, bindings kv.2)) <$>
     filter (fun kv => is_due now kv.2 = true) (map_to_list (states t1))).

Definition publish (sid : string) (rev : Z) (vs : list slot_value) (t : HalValueTelemetry) :
    HalValueTelemetry * list (nat * Z) :=
  match states t !! sid with
  | None => (t, [])
  | Some st =>
      if negb (revision st =? rev) || negb (length (values st) =? length vs)%nat then (t, [])
      else if negb (negb (sampled st) || negb (values_eq (values st) vs)) then (t, [])
      else
        let st1 := mkState (id st) (attachment_token st) (expires st) (next_due st)
          (sample_period st) (revision st) (u64_succ (sequence st)) (next_slot st) (attached st)
          true (bindings st) vs (wakes st) in
        (put_state st1 t, (fun cb => (cb, sequence st1)) <$> Registry.publish (wakes st))
  end.

Definition snapshot (sid : string) (t : HalValueTelemetry) : option HalTelemetrySnapshot :=
  (fun st => mkSnapshot (sampled st) (revision st) (sequence st) (bindings st) (values st))
    <$> states t !! sid.

Definition subscribe (sid : string) (cb : option nat) (t : HalValueTelemetry) :
    HalValueTelemetry * Z :=
  match states t !! sid with
  | None => (t, 0)
  | Some st =>
      let '(w, tokid) := Registry.register cb (wakes st) in
      (put_state (mkState (id st) (attachment_token st) (expires st) (next_due st)
         (sample_period st) (revision st) (sequence st) (next_slot st) (attached st) (sampled st)
         (bindings st) (values st) w) t, tokid)
  end.

(** ** The budget is order independent and monotone *)

Definition valid_period (p : Z) : Prop := 1 <= p < 2 ^ 32.
Definition cost (m : gmap string Z) : Z := map_fold (fun _ p acc => rate p + acc) 0 m.

Lemma rate_pos p : valid_period p -> 1 <= rate p.
Proof.
  intros [H1 H2]. unfold rate. rewrite u64_wrap_small by (unfold in_u64; lia).
  apply Z.div_le_lower_bound; lia.
Qed.

Lemma rate_mono p q : valid_period p -> valid_period q -> p <= q -> rate q <= rate p.
Proof.
  intros [H1 H2] [H3 H4] H. unfold rate. rewrite !u64_wrap_small by (unfold in_u64; lia).
  replace (1000 + q - 1) with (999 + 1 * q) by lia.
  replace (1000 + p - 1) with (999 + 1 * p) by lia.
  rewrite !Z.div_add by lia. apply Z.add_le_mono_r. by apply Z.div_le_compat_l; lia.
Qed.

Lemma charge_sum c ps :
  Forall valid_period ps -> c <= kMaxSamplesPerSecond ->
  charge c ps = true <-> c + foldr (fun p acc => rate p + acc) 0 ps <= kMaxSamplesPerSecond.
Proof.
  intros Hps. revert c. induction Hps as [|p ps Hp Hps IH]; intros c Hc; cbn; [split; [lia|done]|].
  assert (Hr : 0 <= foldr (fun p acc => rate p + acc) 0 ps).
  { clear -Hps. induction Hps as [|q l Hq _ IH]; cbn; [lia|]. pose proof (rate_pos q Hq). lia. }
  pose proof (rate_pos p Hp).
  destruct (Z.ltb_spec (kMaxSamplesPerSecond - c) (rate p)); [split; [done|lia]|].
  rewrite IH by lia. lia.
Qed.

Lemma cost_list m : cost m = foldr (fun p acc => rate p + acc) 0 (map_to_list m).*2.
Proof.
  unfold cost. rewrite map_fold_foldr. generalize (map_to_list m). intros l.
  induction l as [|[k p] l IH]; cbn; [done|]. by rewrite IH.
Qed.

Lemma cost_insert m k p : m !! k = None -> cost (<[k := p]> m) = rate p + cost m.
Proof. intros H. unfold cost. rewrite map_fold_insert_L; [done| |done]. intros. lia. Qed.

Definition valid_map (m : gmap string Z) : Prop := map_Forall (fun _ => valid_period) m.

Lemma cost_nonneg m : valid_map m -> 0 <= cost m.
Proof.
  induction m as [|k p m Hk IH] using map_ind; intros H; [done|].
  rewrite cost_insert by done. apply map_Forall_insert in H as [Hp Hm]; [|done].
  pose proof (rate_pos p Hp). specialize (IH Hm). lia.
Qed.

(** Dropping items and slowing them down cannot raise the cost. *)
Lemma cost_mono m1 m2 :
  valid_map m1 -> valid_map m2 ->
  (forall k q, m1 !! k = Some q -> exists p, m2 !! k = Some p /\ p <= q) ->
  cost m1 <= cost m2.
Proof.
  revert m2. induction m1 as [|k q m1 Hk IH] using map_ind; intros m2 V1 V2 H.
  - by apply cost_nonneg.
  - apply map_Forall_insert in V1 as [Vq V1]; [|done].
    destruct (H k q) as (p & Hp & Hle); [by rewrite lookup_insert_eq|].
    rewrite cost_insert by done.
    rewrite <- (insert_delete_id m2 k p) by done. rewrite cost_insert by apply lookup_delete_eq.
    assert (Vp : valid_period p) by (by eapply (V2 k)).
    pose proof (rate_mono p q Vp Vq Hle).
    assert (cost m1 <= cost (delete k m2)); [|lia].
    apply IH; [done|by apply map_Forall_delete|].
    intros k' q' Hk'. assert (k' <> k) by (intros ->; congruence).
    rewrite lookup_delete_ne by done. apply H. by rewrite lookup_insert_ne.
Qed.

(** [fastest] keeps, per key, one of its periods, and none is smaller. *)
Lemma include_lookup m kp k p :
  include m kp !! k = Some p -> m !! k = Some p \/ kp = (k, p).
Proof.
  destruct kp as [k' p']. unfold include. cbn.
  destruct (m !! k') as [p0|] eqn:E; [destruct (p' <? p0); [|by left]|];
    (destruct (decide (k = k')) as [->|Hne];
     [rewrite lookup_insert_eq; intros [= ->]; by right
     |rewrite lookup_insert_ne by done; by left]).
Qed.

Lemma include_le m kp k p :
  m !! k = Some p -> exists q, include m kp !! k = Some q /\ q <= p.
Proof.
  destruct kp as [k' p']. unfold include. cbn. intros Hk.
  destruct (decide (k = k')) as [->|Hne].
  - rewrite Hk. destruct (Z.ltb_spec p' p); [|by eexists].
    exists p'. rewrite lookup_insert_eq. split; [done|lia].
  - destruct (m !! k') as [p0|]; [destruct (p' <? p0); [|by eexists]|];
      exists p; by rewrite lookup_insert_ne.
Qed.

Lemma include_new m k p : exists q, include m (k, p) !! k = Some q /\ q <= p.
Proof.
  unfold include. cbn. destruct (m !! k) as [p0|] eqn:E.
  - destruct (Z.ltb_spec p p0).
    + exists p. by rewrite lookup_insert_eq.
    + exists p0. by rewrite E.
  - exists p. by rewrite lookup_insert_eq.
Qed.

Lemma fastest_in pairs k p : fastest pairs !! k = Some p -> (k, p) ∈ pairs.
Proof.
  unfold fastest. induction pairs as [|kp pairs IH] using rev_ind; [done|].
  rewrite foldl_app. cbn. intros [?| ->]%include_lookup; set_solver.
Qed.

Lemma fastest_le pairs k q :
  (k, q) ∈ pairs -> exists p, fastest pairs !! k = Some p /\ p <= q.
Proof.
  unfold fastest. induction pairs as [|kp pairs IH] using rev_ind; [by intros ?%elem_of_nil|].
  rewrite foldl_app. cbn. intros [Hin|<-%list_elem_of_singleton]%elem_of_app; [|apply include_new].
  destruct (IH Hin) as (p & Hp & Hle). destruct (include_le _ kp _ _ Hp) as (p1 & Hp1 & ?).
  exists p1. split; [done|lia].
Qed.

Definition valid_pairs (l : list (string * Z)) : Prop := Forall (fun kp => valid_period kp.2) l.

Lemma fastest_valid l : valid_pairs l -> valid_map (fastest l).
Proof.
  intros H k p Hp. apply fastest_in in Hp. unfold valid_pairs in H.
  rewrite Forall_forall in H. exact (H _ Hp).
Qed.

(** The cost depends on the set of pairs only, and grows with it. *)
Lemma fastest_cost_mono l k :
  valid_pairs k -> l ⊆ k -> cost (fastest l) <= cost (fastest k).
Proof.
  intros Hk Hsub.
  assert (Hl : valid_pairs l).
  { unfold valid_pairs in *. rewrite Forall_forall in *. auto. }
  apply cost_mono; auto using fastest_valid.
  intros x q Hq. apply fastest_le, Hsub, (fastest_in _ _ _ Hq).
Qed.

Lemma within_budget_cost replacing items period t :
  let pairs := all_pairs (match replacing with Some i => delete i (states t) | None => states t end)
    ++ ((fun r => (key (res_item r), period)) <$> items) in
  valid_pairs pairs ->
  within_sampling_budget_locked replacing items period t = true <->
  cost (fastest pairs) <= kMaxSamplesPerSecond.
Proof.
  cbn zeta. intros H. unfold within_sampling_budget_locked. rewrite cost_list.
  rewrite charge_sum; [by rewrite Z.add_0_l| |done].
  apply Forall_fmap, Forall_forall. intros [k p] Hkp%elem_of_map_to_list.
  exact (fastest_valid _ H _ _ Hkp).
Qed.

Lemma elem_of_all_pairs m x :
  x ∈ all_pairs m <-> exists i st, m !! i = Some st /\ x ∈ state_pairs st.
Proof.
  unfold all_pairs. rewrite list_elem_of_join. split.
  - intros (l & Hx & ([i st] & -> & Hi%elem_of_map_to_list)%list_elem_of_fmap). eauto.
  - intros (i & st & Hi & Hx). exists (state_pairs st). split; [done|].
    apply list_elem_of_fmap. exists (i, st). split; [done|]. by apply elem_of_map_to_list.
Qed.

(** ** The invariant of the store *)

Record inv (t : HalValueTelemetry) : Prop := mkInv {
  inv_size : (size (states t) <= capacity t)%nat;
  inv_id : forall i st, states t !! i = Some st -> id st = i;
  inv_tokens : forall tk i, tokens t !! tk = Some i <->
    exists st, states t !! i = Some st /\ attachment_token st = tk;
  inv_lengths : forall i st, states t !! i = Some st -> length (values st) = length (bindings st);
  inv_periods : forall i st, states t !! i = Some st -> valid_period (sample_period st);
  inv_budget : cost (fastest (all_pairs (states t))) <= kMaxSamplesPerSecond;
  inv_closed : closed t = true -> states t = ∅;
}.

Lemma state_pairs_valid st : valid_period (sample_period st) -> valid_pairs (state_pairs st).
Proof. intros H. apply Forall_fmap, Forall_forall. done. Qed.

Lemma all_pairs_valid m :
  (forall i st, m !! i = Some st -> valid_period (sample_period st)) -> valid_pairs (all_pairs m).
Proof.
  intros H. apply Forall_forall. intros x (i & st & Hi & Hx)%elem_of_all_pairs.
  pose proof (state_pairs_valid st (H i st Hi)) as V. unfold valid_pairs in V.
  rewrite Forall_forall in V. auto.
Qed.

Lemma inv_pairs_valid t : inv t -> valid_pairs (all_pairs (states t)).
Proof. intros H. apply all_pairs_valid, H. Qed.

(** Forgetting subscriptions keeps within the budget. *)
Lemma budget_shrink m m' :
  (forall i st, m !! i = Some st -> valid_period (sample_period st)) ->
  (forall i st, m' !! i = Some st -> exists st0, m !! i = Some st0 /\ state_pairs st = state_pairs st0) ->
  cost (fastest (all_pairs m')) <= cost (fastest (all_pairs m)).
Proof.
  intros Hv Hsub. apply fastest_cost_mono; [by apply all_pairs_valid|].
  intros x (i & st & Hi & Hx)%elem_of_all_pairs. apply elem_of_all_pairs.
  destruct (Hsub i st Hi) as (st0 & H0 & E). exists i, st0. by rewrite <- E.
Qed.

Lemma lookup_foldr_delete (l : list (string * State)) (m : gmap string string) tk i :
  foldr (fun kv m => delete (attachment_token kv.2) m) m l !! tk = Some i <->
  m !! tk = Some i /\ forall kv, kv ∈ l -> attachment_token kv.2 <> tk.
Proof.
  induction l as [|kv l IH]; cbn; [set_solver|].
  rewrite lookup_delete_Some, IH. set_solver.
Qed.

Lemma inv_tokens_inj t i j st st' :
  inv t -> states t !! i = Some st -> states t !! j = Some st' ->
  attachment_token st = attachment_token st' -> i = j.
Proof.
  intros H Hi Hj E.
  assert (H1 : tokens t !! attachment_token st = Some i) by (apply (inv_tokens _ H); eauto).
  assert (H2 : tokens t !! attachment_token st = Some j) by (apply (inv_tokens _ H); eauto).
  congruence.
Qed.

Lemma expire_lookup now t i st :
  states (expire_locked now t) !! i = Some st <-> states t !! i = Some st /\ expired now st = false.
Proof. cbn. by rewrite map_lookup_filter_Some. Qed.

Lemma inv_expire now t : inv t -> inv (expire_locked now t).
Proof.
  intros H. split; cbn.
  - etrans; [|apply H]. by apply map_size_filter.
  - intros i st [Hi _]%expire_lookup. by apply (inv_id _ H).
  - intros tk i. rewrite lookup_foldr_delete. setoid_rewrite map_lookup_filter_Some.
    rewrite (inv_tokens _ H). split.
    + intros [(st & Hi & Ht) Hg]. exists st. split_and!; try done. cbn.
      destruct (expired now st) eqn:E; [|done]. exfalso. eapply (Hg (i, st)); [|done].
      apply elem_of_map_to_list, map_lookup_filter_Some. done.
    + intros (st & [Hi He] & Ht). split; [eauto|].
      intros [j st'] [Hj E]%elem_of_map_to_list%map_lookup_filter_Some Ht'. cbn in *.
      assert (j = i) by (eapply inv_tokens_inj; [done..|congruence]). congruence.
  - intros i st [Hi _]%expire_lookup. by apply (inv_lengths _ H i).
  - intros i st [Hi _]%expire_lookup. by apply (inv_periods _ H i).
  - etrans; [|apply H]. apply budget_shrink; [apply H|].
    intros i st [Hi _]%expire_lookup. eauto.
  - intros Hc. by rewrite (inv_closed _ H Hc), map_filter_empty.
Qed.

(** Replacing a state by one with the same identity. *)
Lemma inv_put t st st0 :
  inv t -> states t !! id st = Some st0 -> attachment_token st = attachment_token st0 ->
  length (values st) = length (bindings st) -> valid_period (sample_period st) ->
  cost (fastest (all_pairs (<[id st := st]> (states t)))) <= kMaxSamplesPerSecond ->
  inv (put_state st t).
Proof.
  intros H H0 Ht Hl Hp Hb. split; cbn; try done.
  - rewrite map_size_insert_Some by done. apply H.
  - intros i st' [[<- <-]|[_ Hi]]%lookup_insert_Some; [done|by apply (inv_id _ H)].
  - intros tk i. rewrite (inv_tokens _ H). split.
    + intros (st' & Hi & Htk). destruct (decide (i = id st)) as [->|Hne].
      * exists st. rewrite lookup_insert_eq. split; [done|]. congruence.
      * exists st'. by rewrite lookup_insert_ne.
    + intros (st' & [[<- <-]|[_ Hi]]%lookup_insert_Some & Htk); [|eauto].
      exists st0. split; [done|]. congruence.
  - intros i st' [[<- <-]|[_ Hi]]%lookup_insert_Some; [done|by apply (inv_lengths _ H i)].
  - intros i st' [[<- <-]|[_ Hi]]%lookup_insert_Some; [done|by apply (inv_periods _ H i)].
  - intros Hc. rewrite (inv_closed _ H Hc) in H0. by rewrite lookup_empty in H0.
Qed.

(** ... and with the same items and period. *)
Lemma inv_put_same t st st0 i :
  inv t -> states t !! i = Some st0 -> id st = id st0 ->
  attachment_token st = attachment_token st0 -> length (values st) = length (values st0) ->
  bindings st = bindings st0 -> sample_period st = sample_period st0 ->
  inv (put_state st t).
Proof.
  intros H Hi Hid Ht Hl Hb Hp. pose proof (inv_id _ H _ _ Hi) as E. rewrite <- Hid in E. subst i.
  eapply inv_put; [done..| | |].
  - rewrite Hl, Hb. by eapply (inv_lengths _ H).
  - rewrite Hp. by eapply (inv_periods _ H).
  - etrans; [|apply H]. apply budget_shrink; [apply H|].
    intros j st' [[<- <-]|[_ Hj]]%lookup_insert_Some; [|eauto].
    exists st0. split; [done|]. unfold state_pairs. by rewrite Hb, Hp.
Qed.

Lemma inv_remove t i st :
  inv t -> states t !! i = Some st ->
  inv (mkTelemetry (capacity t) (attachment_ttl t) (delete i (states t))
         (delete (attachment_token st) (tokens t)) (closed t)).
Proof.
  intros H Hi. split; cbn.
  - rewrite map_size_delete_Some by done. pose proof (inv_size _ H). lia.
  - intros j st' [_ Hj]%lookup_delete_Some. by apply (inv_id _ H).
  - intros tk j. rewrite lookup_delete_Some, (inv_tokens _ H). setoid_rewrite lookup_delete_Some.
    split.
    + intros [Hne (st' & Hj & Ht)]. exists st'. split_and!; try done. intros ->. congruence.
    + intros (st' & [Hne Hj] & Ht). split; [|eauto]. intros E.
      apply Hne. eapply inv_tokens_inj; [done..|congruence].
  - intros j st' [_ Hj]%lookup_delete_Some. by apply (inv_lengths _ H j).
  - intros j st' [_ Hj]%lookup_delete_Some. by apply (inv_periods _ H j).
  - etrans; [|apply H]. apply budget_shrink; [apply H|].
    intros j st' [_ Hj]%lookup_delete_Some. eauto.
  - intros Hc. by rewrite (inv_closed _ H Hc), delete_empty.
Qed.

(** ** New bindings *)

Lemma new_bindings_spec n items :
  (fun b => (bind_item b, bind_type b)) <$> (new_bindings n items).1
  = (fun r => (res_item r, res_type r)) <$> items.
Proof.
  revert n. induction items as [|r items IH]; intros n; [done|]. cbn.
  specialize (IH (u32_succ n)). destruct (new_bindings (u32_succ n) items) as [bs next]. cbn in *.
  by rewrite IH.
Qed.

Lemma find_previous_spec k bs i :
  find_previous k bs = Some i -> exists b, bs !! i = Some b /\ key (bind_item b) = k.
Proof.
  unfold find_previous. intros ([j b] & Hf & ->)%fmap_Some.
  apply list_find_Some in Hf as (Hj & Hk & _). eauto.
Qed.

(** [rebind] keeps the items in order, one value per binding. *)
Lemma rebind_spec st n items :
  let '(bs, vs, _) := rebind st n items in
  (fun b => (key (bind_item b), bind_type b)) <$> bs
    = (fun r => (key (res_item r), res_type r)) <$> items
  /\ length vs = length bs.
Proof.
  revert n. induction items as [|r items IH]; intros n; [done|]. cbn.
  pose proof (IH n) as IH1. pose proof (IH (u32_succ n)) as IH2.
  destruct (rebind st n items) as [[bs1 vs1] n1], (rebind st (u32_succ n) items) as [[bs2 vs2] n2].
  destruct IH1 as [E1 L1], IH2 as [E2 L2].
  destruct (find_previous _ _) as [i|] eqn:Ef; [|cbn; by rewrite E2, L2].
  destruct (find_previous_spec _ _ _ Ef) as (b & -> & Hk).
  case_bool_decide as Ht; cbn; [|by rewrite E2, L2]. by rewrite E1, L1, Hk, Ht.
Qed.

Lemma keys_pairs (bs : list HalTelemetryBinding) (items : list HalTelemetryResolvedItem) (period : Z) :
  (fun b => (key (bind_item b), bind_type b)) <$> bs
    = (fun r => (key (res_item r), res_type r)) <$> items ->
  (fun b => (key (bind_item b), period)) <$> bs
    = (fun r => (key (res_item r), period)) <$> items.
Proof.
  revert items. induction bs as [|b bs IH]; intros [|r items]; cbn; try done.
  intros [= E1 _ E2]. by rewrite E1, (IH items).
Qed.

Lemma items_valid_pairs (items : list HalTelemetryResolvedItem) period :
  valid_period period -> valid_pairs ((fun r => (key (res_item r), period)) <$> items).
Proof. intros H. apply Forall_fmap, Forall_forall. done. Qed.

(** The budget after a state with exactly these items is stored under [i]. *)
Lemma budget_insert (m : gmap string State) i st items period :
  (forall j st, m !! j = Some st -> valid_period (sample_period st)) ->
  valid_period period ->
  state_pairs st = (fun r => (key (res_item r), period)) <$> items ->
  cost (fastest (all_pairs (<[i := st]> m))) <=
  cost (fastest (all_pairs (delete i m) ++ ((fun r => (key (res_item r), period)) <$> items))).
Proof.
  intros Hm Hp Hs. apply fastest_cost_mono.
  - apply Forall_app. split; [|by apply items_valid_pairs].
    apply all_pairs_valid. intros j st' [_ Hj]%lookup_delete_Some. by apply (Hm j).
  - intros x (j & st' & [[<- <-]|[Hne Hj]]%lookup_insert_Some & Hx)%elem_of_all_pairs;
      apply elem_of_app.
    + right. by rewrite <- Hs.
    + left. apply elem_of_all_pairs. exists j, st'. by rewrite lookup_delete_ne.
Qed.

Lemma fresh_token_spec used draws s rest : fresh_token used draws = Some (s, rest) -> used s = false.
Proof. induction draws as [|d draws IH]; cbn; [done|]. destruct (used d) eqn:E; [done|]. by intros [= <- _]. Qed.

Lemma inv_create items period now now_ttl now_due draws t t' d :
  inv t -> valid_period period ->
  create items period now now_ttl now_due draws t = Some (t', d) -> inv t'.
Proof.
  intros H Hp. unfold create. destruct (closed t) eqn:Hc; [by intros [= <- _]|].
  pose proof (inv_expire now t H) as H1. set (t1 := expire_locked now t) in *.
  assert (Hc1 : closed t1 = false) by exact Hc. clearbody t1.
  destruct (capacity t1 <=? size (states t1))%nat eqn:E1; [by intros [= <- _]|].
  destruct (negb _) eqn:E2; [by intros [= <- _]|]. bool_to_prop.
  intros ([i draws1] & Ei & ([tok rest] & Et & E)%bind_Some)%bind_Some.
  apply fresh_token_spec in Ei, Et. bool_to_prop.
  rewrite <- eq_None_not_Some in Ei. rewrite <- eq_None_not_Some in Et.
  pose proof (new_bindings_spec 0 items) as Hn.
  destruct (new_bindings 0 items) as [bs next]. cbn in Hn. injection E as <- _.
  apply within_budget_cost in E2;
    [|apply Forall_app; split; [by apply inv_pairs_valid|by apply items_valid_pairs]].
  split; cbn.
  - rewrite map_size_insert_None by done. lia.
  - intros j st [[<- <-]|[_ Hj]]%lookup_insert_Some; [done|by apply (inv_id _ H1)].
  - intros tk j. rewrite lookup_insert_Some. setoid_rewrite lookup_insert_Some.
    rewrite (inv_tokens _ H1). split.
    + intros [[<- <-]|[Hne (st & Hj & Ht)]]; [eauto|].
      exists st. split; [right|done]. split; [intros ->; congruence|done].
    + intros (st & [[<- <-]|[Hne Hj]] & Ht); [by left|right]. split; [|eauto].
      intros ->. assert (tokens t1 !! tk = Some j) by (apply (inv_tokens _ H1); eauto). congruence.
  - intros j st [[<- <-]|[_ Hj]]%lookup_insert_Some; [cbn; by rewrite length_fmap|].
    by apply (inv_lengths _ H1 j).
  - intros j st [[<- <-]|[_ Hj]]%lookup_insert_Some; [done|by apply (inv_periods _ H1 j)].
  - etrans; [eapply budget_insert; [apply H1|exact Hp|]|].
    + unfold state_pairs. cbn. apply keys_pairs.
      apply (f_equal (fmap (fun x => (key x.1, x.2)))) in Hn. rewrite <- !list_fmap_compose in Hn.
      exact Hn.
    + rewrite delete_id by done. done.
  - intros Hc'. congruence.
Qed.

Lemma inv_update sid rev items period now t :
  inv t -> valid_period period -> inv (update sid rev items period now t).1.
Proof.
  intros H Hp. unfold update. destruct (states t !! sid) as [st|] eqn:Hs; [|done].
  destruct (closed t); [done|]. destruct (negb (revision st =? rev)); [done|].
  destruct (negb (within_sampling_budget_locked _ _ _ _)) eqn:Hw; [done|]. bool_to_prop.
  pose proof (rebind_spec st (next_slot st) items) as Hr.
  destruct (rebind st (next_slot st) items) as [[bs vs] next]. destruct Hr as [Hk Hl].
  apply within_budget_cost in Hw.
  2:{ apply Forall_app; split; [|by apply items_valid_pairs]. apply all_pairs_valid.
      intros j st' [_ Hj]%lookup_delete_Some. by apply (inv_periods _ H j). }
  pose proof (inv_id _ H _ _ Hs) as Hid. cbn [fst].
  eapply inv_put; [done|cbn; by rewrite Hid|done|done|done|]. cbn. rewrite Hid.
  etrans; [eapply budget_insert; [apply H|exact Hp|]|exact Hw].
  unfold state_pairs. cbn. by apply keys_pairs.
Qed.

Lemma inv_claim tok now now_due t : inv t -> inv (claim tok now now_due t).1.
Proof.
  intros H. unfold claim. pose proof (inv_expire now t H) as H1.
  set (t1 := expire_locked now t) in *. destruct (tokens t1 !! tok) as [i|]; [|done].
  destruct (closed t1); [done|]. destruct (states t1 !! i) as [st|] eqn:Hi; [|done].
  destruct (attached st); [done|]. by eapply inv_put_same.
Qed.

Lemma inv_detach sid now t : inv t -> inv (detach sid now t).1.
Proof.
  intros H. unfold detach. destruct (states t !! sid) as [st|] eqn:Hi; [|done].
  destruct (negb (attached st)); [done|]. by eapply inv_put_same.
Qed.

Lemma inv_erase sid t : inv t -> inv (erase sid t).1.
Proof.
  intros H. unfold erase. destruct (states t !! sid) as [st|] eqn:Hi; [|done].
  by apply inv_remove.
Qed.

Lemma inv_empty cap ttl c : inv (mkTelemetry cap ttl ∅ ∅ c).
Proof.
  split; cbn; try done.
  - rewrite map_size_empty. lia.
  - intros tk i. rewrite lookup_empty. split; [done|]. by intros (? & ? & _).
Qed.

Lemma inv_close t : inv t -> inv (close t).
Proof. intros H. unfold close. destruct (closed t); [done|]. apply inv_empty. Qed.

Lemma inv_publish sid rev vs t : inv t -> inv (publish sid rev vs t).1.
Proof.
  intros H. unfold publish. destruct (states t !! sid) as [st|] eqn:Hi; [|done].
  destruct (_ || _) eqn:E; [done|]. apply orb_false_iff in E as [_ E]. bool_to_prop.
  destruct (negb _); [done|]. by eapply inv_put_same.
Qed.

Lemma inv_subscribe sid cb t : inv t -> inv (subscribe sid cb t).1.
Proof.
  intros H. unfold subscribe. destruct (states t !! sid) as [st|] eqn:Hi; [|done].
  destruct (Registry.register cb (wakes st)). by eapply inv_put_same.
Qed.

Lemma inv_due now t : inv t -> inv (due now t).1.
Proof.
  intros H. unfold due. pose proof (inv_expire now t H) as H1.
  set (t1 := expire_locked now t) in *. clearbody t1. cbn [fst].
  assert (G : forall i st, ((fun st => if is_due now st
      then mkState (id st) (attachment_token st) (expires st) (now + sample_period st)
        (sample_period st) (revision st) (sequence st) (next_slot st) (attached st) (sampled st)
        (bindings st) (values st) (wakes st) else st) <$> states t1) !! i = Some st ->
    exists st0, states t1 !! i = Some st0 /\ id st = id st0
      /\ attachment_token st = attachment_token st0 /\ values st = values st0
      /\ bindings st = bindings st0 /\ sample_period st = sample_period st0).
  { intros i st. rewrite lookup_fmap. intros (st0 & Hi & ->)%fmap_Some. exists st0.
    by destruct (is_due now st0). }
  split; cbn.
  - rewrite map_size_fmap. apply H1.
  - intros i st (st0 & Hi & -> & _)%G. by apply (inv_id _ H1).
  - intros tk i. rewrite (inv_tokens _ H1). split.
    + intros (st & Hi & Ht). rewrite lookup_fmap, Hi. cbn. eexists. split; [done|].
      by destruct (is_due now st).
    + intros (st & (st0 & Hi & _ & Ht & _)%G & Htk). exists st0. split; [done|congruence].
  - intros i st (st0 & Hi & _ & _ & -> & -> & _)%G. by apply (inv_lengths _ H1 i).
  - intros i st (st0 & Hi & _ & _ & _ & _ & ->)%G. by apply (inv_periods _ H1 i).
  - etrans; [|apply H1]. apply budget_shrink; [apply H1|].
    intros i st (st0 & Hi & _ & _ & _ & Hb & Hp)%G. exists st0. split; [done|].
    unfold state_pairs. by rewrite Hb, Hp.
  - intros Hc. rewrite (inv_closed _ H1 Hc). by rewrite fmap_empty.
Qed.

(** ** Runs *)

Inductive Op :=
| OpCreate (items : list HalTelemetryResolvedItem) (period now now_ttl now_due : Z)
    (draws : list string)
| OpUpdate (sid : string) (rev : Z) (items : list HalTelemetryResolvedItem) (period now_due : Z)
| OpClaim (tok : string) (now now_due : Z)
| OpDetach (sid : string) (now : Z)
| OpErase (sid : string)
| OpClose
| OpDue (now : Z)
| OpPublish (sid : string) (rev : Z) (vs : list slot_value)
| OpSubscribe (sid : string) (cb : option nat).

Definition apply (t : HalValueTelemetry) (o : Op) : HalValueTelemetry :=
  match o with
  | OpCreate items period now now_ttl now_due draws =>
      match create items period now now_ttl now_due draws t with
      | Some (t', _) => t' | None => t end
  | OpUpdate sid rev items period now_due => (update sid rev items period now_due t).1
  | OpClaim tok now now_due => (claim tok now now_due t).1
  | OpDetach sid now => (detach sid now t).1
  | OpErase sid => (erase sid t).1
  | OpClose => close t
  | OpDue now => (due now t).1
  | OpPublish sid rev vs => (publish sid rev vs t).1
  | OpSubscribe sid cb => (subscribe sid cb t).1
  end.

Definition run (ops : list Op) (t : HalValueTelemetry) : HalValueTelemetry := foldl apply t ops.

(** The service admits sample periods from 50 to 60000 ms only. *)
Definition valid_op (o : Op) : Prop :=
  match o with
  | OpCreate _ period _ _ _ _ | OpUpdate _ _ _ period _ => 50 <= period <= 60000
  | _ => True
  end.

Lemma telemetry_inv_apply t o : inv t -> valid_op o -> inv (apply t o).
Proof.
  intros H Hv. destruct o; cbn in *.
  - destruct (create _ _ _ _ _ _ _) as [[t' d]|] eqn:E; [|done].
    eapply inv_create; [done| |done]. unfold valid_period. lia.
  - apply inv_update; [done|]. unfold valid_period. lia.
  - by apply inv_claim.
  - by apply inv_detach.
  - by apply inv_erase.
  - by apply inv_close.
  - by apply inv_due.
  - by apply inv_publish.
  - by apply inv_subscribe.
Qed.

Lemma telemetry_inv_run ops t : inv t -> Forall valid_op ops -> inv (run ops t).
Proof.
  intros H Hv. revert t H. induction Hv as [|o ops Ho _ IH]; intros t H; [done|].
  cbn. by apply IH, telemetry_inv_apply.
Qed.

Lemma telemetry_apply_capacity t o : capacity (apply t o) = capacity t.
Proof.
  destruct o; cbn.
  - destruct (create _ _ _ _ _ _ _) as [[t' d]|] eqn:E; [|done]. unfold create in E.
    destruct (closed t); [by simplify_eq|]. case_match; [by simplify_eq|].
    case_match; [by simplify_eq|].
    apply bind_Some in E as ([] & _ & E). apply bind_Some in E as ([] & _ & E).
    destruct (new_bindings 0 items). by simplify_eq.
  - unfold update. repeat (case_match; try done).
  - unfold claim. repeat (case_match; try done).
  - unfold detach. repeat (case_match; try done).
  - unfold erase. by case_match.
  - unfold close. by case_match.
  - done.
  - unfold publish. repeat (case_match; try done).
  - unfold subscribe. repeat (case_match; try done).
Qed.

(** Limits and identities of HAL value telemetry, for every run of the store
    with the periods the service admits: at most [capacity] subscriptions; the
    combined fastest sampling of all distinct items never exceeds 20,480
    samples per second; every attachment token names exactly the subscription
    that carries it; and every subscription has one value per binding. *)
Theorem telemetry_store_limits (cap : nat) (ttl : Z) (ops : list Op) :
  Forall valid_op ops ->
  let t := run ops (make cap ttl) in
  (size (states t) <= cap)%nat
  /\ cost (fastest (all_pairs (states t))) <= kMaxSamplesPerSecond
  /\ (forall tk i, tokens t !! tk = Some i <->
      exists st, states t !! i = Some st /\ attachment_token st = tk /\ id st = i)
  /\ (forall i st, states t !! i = Some st -> length (values st) = length (bindings st)).
Proof.
  intros Hv. cbn zeta. pose proof (telemetry_inv_run ops _ (inv_empty cap ttl false) Hv) as H.
  assert (Hc : capacity (run ops (make cap ttl)) = cap).
  { apply (foldl_preserves apply (fun t => capacity t = cap)); [|done].
    intros t o <-. apply telemetry_apply_capacity. }
  fold (make cap ttl) in H. split_and!; try apply H.
  - rewrite <- Hc at 2. apply H.
  - intros tk i. rewrite (inv_tokens _ H). split.
    + intros (st & Hi & Ht). exists st. split_and!; try done. by apply (inv_id _ H).
    + intros (st & Hi & Ht & _). eauto.
Qed.

(** ** Slots across updates *)

Definition slots_ok (st : State) : Prop :=
  NoDup (slot <$> bindings st) /\ Forall (fun b => 0 <= slot b < next_slot st) (bindings st)
  /\ NoDup ((fun b => key (bind_item b)) <$> bindings st).

Definition kept (st : State) (r : HalTelemetryResolvedItem) (j : nat) (b : HalTelemetryBinding) : Prop :=
  bindings st !! j = Some b /\ key (bind_item b) = key (res_item r) /\ bind_type b = res_type r.

(** One pass of the loop, as its two outcomes. *)
Lemma rebind_cons st n r items :
  slots_ok st ->
  (exists j b, kept st r j b /\
     rebind st n (r :: items) =
       (b :: (rebind st n items).1.1, default None (values st !! j) :: (rebind st n items).1.2,
        (rebind st n items).2))
  \/ ((forall j b, ~ kept st r j b) /\
      rebind st n (r :: items) =
        (mkBinding n (res_item r) (res_type r) :: (rebind st (u32_succ n) items).1.1,
         None :: (rebind st (u32_succ n) items).1.2, (rebind st (u32_succ n) items).2)).
Proof.
  intros (_ & _ & Hk). cbn.
  destruct (rebind st n items) as [[b1 v1] n1], (rebind st (u32_succ n) items) as [[b2 v2] n2].
  destruct (find_previous (key (res_item r)) (bindings st)) as [j|] eqn:Ef.
  - destruct (find_previous_spec _ _ _ Ef) as (b & Hb & Hkey). rewrite Hb.
    case_bool_decide as Ht; [left; exists j, b; by split_and!|right].
    split; [|done]. intros j' b' (Hb' & Hkey' & Ht').
    assert (j' = j) as ->; [|congruence].
    eapply (NoDup_lookup _ _ _ (key (res_item r)) Hk); rewrite list_lookup_fmap, ?Hb, ?Hb'; cbn; congruence.
  - right. split; [|done]. intros j b (Hb & Hkey & _). unfold find_previous in Ef.
    apply fmap_None, list_find_None in Ef. eapply Forall_lookup_1 in Ef; [|done]. done.
Qed.

(** What the loop does, item by item. *)
Definition rebound (st : State) (n next : Z) (r : HalTelemetryResolvedItem)
    (b : HalTelemetryBinding) (v : slot_value) : Prop :=
  (exists j, kept st r j b /\ v = default None (values st !! j))
  \/ ((forall j b', ~ kept st r j b') /\ n <= slot b < next
      /\ b = mkBinding (slot b) (res_item r) (res_type r) /\ v = None).

Lemma rebound_mono st n n' next r b v : n <= n' -> rebound st n' next r b v -> rebound st n next r b v.
Proof. intros H [?|(? & ? & ? & ?)]; [by left|right]. split_and!; try done; lia. Qed.

Lemma kept_slot st r j b : slots_ok st -> kept st r j b -> slot b < next_slot st.
Proof.
  intros (_ & Hr & _) (Hb & _). eapply Forall_lookup_1 in Hr; [|done]. lia.
Qed.

Lemma rebind_items st n items :
  slots_ok st -> next_slot st <= n -> n + Z.of_nat (length items) < 2 ^ 32 -> 0 <= n ->
  let '(bs, vs, next) := rebind st n items in
  n <= next < 2 ^ 32
  /\ Forall2 (fun r bv => rebound st n next r bv.1 bv.2) items (zip bs vs)
  /\ (forall i k b b', (i < k)%nat -> bs !! i = Some b -> bs !! k = Some b' ->
      n <= slot b -> n <= slot b' -> slot b < slot b').
Proof.
  intros Hok. revert n. induction items as [|r items IH]; intros n Hn Hl H0.
  - cbn. split_and!; try lia; [constructor|]. intros i k b b' _ Hb. done.
  - cbn [length] in Hl.
    destruct (rebind_cons st n r items Hok) as [(j & b & Hkept & ->)|[Hno ->]].
    + specialize (IH n Hn ltac:(lia) H0).
      destruct (rebind st n items) as [[bs vs] next]. destruct IH as (Hb & Hi & Hs). cbn.
      pose proof (kept_slot _ _ _ _ Hok Hkept).
      split_and!; [lia|lia| |].
      * constructor; [left; eauto|done].
      * intros [|i] [|k] b1 b2 Hik H1 H2 Hle Hle'; cbn in *; try lia; simplify_eq; [lia|].
        apply (Hs i k); auto; lia.
    + rewrite u32_succ_small by lia.
      specialize (IH (n + 1) ltac:(lia) ltac:(lia) ltac:(lia)).
      pose proof (rebind_spec st (n + 1) items) as Hlen.
      destruct (rebind st (n + 1) items) as [[bs vs] next]. destruct IH as (Hb & Hi & Hs).
      destruct Hlen as [_ Hlen]. cbn.
      assert (Hge : forall k b', bs !! k = Some b' -> n <= slot b' -> n + 1 <= slot b').
      { intros k b' Hk Hle. destruct (lookup_lt_is_Some_2 vs k) as [v Hv];
          [rewrite Hlen; by eapply lookup_lt_Some|].
        assert (Hz : zip bs vs !! k = Some (b', v)) by (by apply lookup_zip_with_Some; eauto).
        eapply Forall2_lookup_r in Hi as (r' & _ & Hr); [|done].
        destruct Hr as [(j & Hj & _)|(_ & ? & _)]; cbn in *; [|lia].
        pose proof (kept_slot _ _ _ _ Hok Hj). cbn in *. lia. }
      split_and!; [lia|lia| |].
      * constructor; [right; cbn; split_and!; try done; lia|].
        eapply Forall2_impl; [done|]. intros r' bv. apply rebound_mono. lia.
      * intros [|i] [|k] b1 b2 Hik H1 H2 Hle Hle'; cbn in *; try lia; simplify_eq; cbn.
        -- specialize (Hge k b2 H2 Hle'). lia.
        -- apply (Hs i k); eauto; lia.
Qed.

(** The new state is again well formed. *)
Lemma rebind_slots st items bs vs next :
  slots_ok st -> 0 <= next_slot st -> next_slot st + Z.of_nat (length items) < 2 ^ 32 ->
  NoDup ((fun r => key (res_item r)) <$> items) ->
  rebind st (next_slot st) items = (bs, vs, next) ->
  NoDup (slot <$> bs) /\ Forall (fun b => 0 <= slot b < next) bs
  /\ NoDup ((fun b => key (bind_item b)) <$> bs).
Proof.
  intros Hok H0 Hl Hnd E.
  pose proof (rebind_items st (next_slot st) items Hok ltac:(lia) Hl H0) as Hi.
  pose proof (rebind_spec st (next_slot st) items) as Hsp. rewrite E in Hi, Hsp.
  destruct Hi as (Hn & Hi & Hinc), Hsp as [Hk Hlen].
  assert (Hkeys : (fun b => key (bind_item b)) <$> bs = (fun r => key (res_item r)) <$> items).
  { apply (f_equal (fmap fst)) in Hk. rewrite <- !list_fmap_compose in Hk. exact Hk. }
  assert (Hz : forall i b, bs !! i = Some b -> exists r v, items !! i = Some r /\
    rebound st (next_slot st) next r b v).
  { intros i b Hb. destruct (lookup_lt_is_Some_2 vs i) as [v Hv];
      [rewrite Hlen; by eapply lookup_lt_Some|].
    assert (Hzip : zip bs vs !! i = Some (b, v)) by (by apply lookup_zip_with_Some; eauto).
    eapply Forall2_lookup_r in Hi as (r & Hr & Hrb); [|done]. eauto. }
  split_and!.
  - apply NoDup_alt. intros i k x Hx Hy.
    apply list_lookup_fmap_Some in Hx as (b & -> & Hb).
    apply list_lookup_fmap_Some in Hy as (b' & Es & Hb').
    destruct (Hz i b Hb) as (r & v & Hr & Hrb), (Hz k b' Hb') as (r' & v' & Hr' & Hrb').
    destruct (decide (i = k)) as [|Hne]; [done|exfalso].
    destruct Hrb as [(j & Hj & _)|(_ & Hf & _)], Hrb' as [(j' & Hj' & _)|(_ & Hf' & _)].
    + assert (j = j') as <-.
      { destruct Hok as (Hs & _ & _). eapply (NoDup_lookup _ j j' (slot b) Hs).
        - rewrite list_lookup_fmap. destruct Hj as (-> & _). done.
        - rewrite list_lookup_fmap. destruct Hj' as (-> & _). cbn. congruence. }
      apply Hne. destruct Hj as (Hj & Hkj & _), Hj' as (Hj' & Hkj' & _). simplify_eq.
      eapply (NoDup_lookup _ i k _ Hnd); rewrite list_lookup_fmap, ?Hr, ?Hr'; cbn; [done|congruence].
    + pose proof (kept_slot _ _ _ _ Hok Hj). lia.
    + pose proof (kept_slot _ _ _ _ Hok Hj'). lia.
    + destruct (decide (i < k)%nat).
      * assert (slot b < slot b') by (apply (Hinc i k); auto; lia). lia.
      * assert (slot b' < slot b) by (apply (Hinc k i); auto; lia). lia.
  - apply Forall_lookup. intros i b Hb. destruct (Hz i b Hb) as (r & v & _ & [(j & Hj & _)|(_ & ? & _)]).
    + destruct Hok as (_ & Hr & _). destruct Hj as (Hj & _). eapply Forall_lookup_1 in Hr; [|done]. lia.
    + lia.
  - by rewrite Hkeys.
Qed.

(** Updating a subscription never confuses its readers: every requested item
    that keeps its type keeps its binding (hence its slot) and its last value;
    every other item gets a slot that was never used before and no value; the
    slots stay distinct, and the revision moves on by one. *)
Theorem update_keeps_slots (sid : string) (rev period now : Z)
    (items : list HalTelemetryResolvedItem) (t t' : HalValueTelemetry)
    (st : State) (d : HalTelemetryDescriptor) (w : list (nat * Z)) :
  states t !! sid = Some st -> id st = sid -> slots_ok st -> 0 <= next_slot st ->
  next_slot st + Z.of_nat (length items) < 2 ^ 32 ->
  NoDup ((fun r => key (res_item r)) <$> items) ->
  update sid rev items period now t = (t', Some (d, w)) ->
  exists st', states t' !! sid = Some st' /\ slots_ok st' /\ revision st' = u64_succ rev
  /\ revision st = rev /\ d_bindings d = bindings st'
  /\ Forall2 (fun r bv => rebound st (next_slot st) (next_slot st') r bv.1 bv.2) items
       (zip (bindings st') (values st')).
Proof.
  intros Hs Hid Hok H0 Hl Hnd. unfold update. rewrite Hs.
  destruct (closed t); [done|]. destruct (negb (revision st =? rev)) eqn:Hrev; [done|].
  destruct (negb (within_sampling_budget_locked _ _ _ _)); [done|]. bool_to_prop.
  destruct (rebind st (next_slot st) items) as [[bs vs] next] eqn:E. intros [= <- <- _].
  pose proof (rebind_items st (next_slot st) items Hok ltac:(lia) Hl H0) as Hi.
  rewrite E in Hi. destruct Hi as (_ & Hi & _).
  eexists. cbn. rewrite Hid, lookup_insert_eq. split; [done|]. cbn.
  split; [by eapply rebind_slots|]. by rewrite Hrev.
Qed.

(** ** Exclusive attachment *)

(** What keeps a claimed subscription claimed. *)
Definition releases (i : string) (o : Op) : Prop :=
  match o with OpDetach j _ | OpErase j => j = i | OpClose => True | _ => False end.

Definition is_claimed (t : HalValueTelemetry) (i tok : string) : Prop :=
  exists st, states t !! i = Some st /\ attached st = true /\ attachment_token st = tok.

Lemma claimed_put t st i tok :
  is_claimed t i tok -> (id st = i -> attached st = true /\ attachment_token st = tok) ->
  is_claimed (put_state st t) i tok.
Proof.
  intros (st0 & Hi & Ha & Ht) Hput. unfold is_claimed. cbn.
  destruct (decide (id st = i)) as [E|E].
  - exists st. rewrite E, lookup_insert_eq. destruct (Hput E). done.
  - exists st0. by rewrite lookup_insert_ne.
Qed.

Lemma claimed_expire now t i tok : is_claimed t i tok -> is_claimed (expire_locked now t) i tok.
Proof.
  intros (st & Hi & Ha & Ht). exists st. split; [|done]. apply expire_lookup.
  split; [done|]. unfold expired. by rewrite Ha.
Qed.

(** A put of an updated state of the store keeps its claim. *)
Lemma claimed_update t j st st1 i tok :
  inv t -> is_claimed t i tok -> states t !! j = Some st -> id st1 = id st ->
  attachment_token st1 = attachment_token st -> (attached st = true -> attached st1 = true) ->
  is_claimed (put_state st1 t) i tok.
Proof.
  intros H Hc Hj Hid Ht Ha. apply claimed_put; [done|]. intros E.
  pose proof (inv_id _ H _ _ Hj) as Ej. destruct Hc as (st0 & Hi & Ha0 & Ht0).
  assert (st0 = st) as -> by congruence. split; [auto|congruence].
Qed.

Lemma claimed_apply t o i tok :
  inv t -> ~ releases i o -> is_claimed t i tok -> is_claimed (apply t o) i tok.
Proof.
  intros H Hr Hc. destruct o as [items period now now_ttl now_due draws|sid rev items period now_due
    |tok' now now_due|sid now|sid| |now|sid rev vs|sid cb]; cbn in *.
  - destruct (create _ _ _ _ _ _ _) as [[t' d]|] eqn:E; [|done]. unfold create in E.
    pose proof (claimed_expire now _ _ _ Hc) as Hc1.
    destruct (closed t); [by simplify_eq|]. case_match; [by simplify_eq|].
    case_match; [by simplify_eq|].
    apply bind_Some in E as ([j rest] & Ej & E). apply bind_Some in E as ([tk rest2] & _ & E).
    apply fresh_token_spec in Ej. bool_to_prop. rewrite <- eq_None_not_Some in Ej.
    destruct (new_bindings 0 items). simplify_eq.
    destruct Hc1 as (st & Hi & ?). exists st. split; [|done].
    cbn [states]. rewrite lookup_insert_ne; [done|]. intros ->. congruence.
  - unfold update. destruct (states t !! sid) as [st|] eqn:Hs; [|done].
    destruct (closed t); [done|]. destruct (negb (revision st =? rev)); [done|].
    destruct (negb _); [done|]. destruct (rebind _ _ _) as [[bs vs] next].
    by eapply claimed_update.
  - unfold claim. pose proof (inv_expire now t H) as H1.
    pose proof (claimed_expire now _ _ _ Hc) as Hc1. set (t1 := expire_locked now t) in *.
    destruct (tokens t1 !! tok'); [|done]. destruct (closed t1); [done|].
    destruct (states t1 !! s) as [st|] eqn:Hs; [|done]. destruct (attached st); [done|].
    by eapply claimed_update.
  - unfold detach. destruct (states t !! sid) as [st|] eqn:Hs; [|done].
    destruct (negb (attached st)); [done|]. apply claimed_put; [done|]. cbn.
    intros E. exfalso. apply Hr. by rewrite <- E, (inv_id _ H _ _ Hs).
  - unfold erase. destruct (states t !! sid) as [st|] eqn:Hs; [|done].
    destruct Hc as (st0 & Hi & ?). exists st0. split; [|done]. cbn. by rewrite lookup_delete_ne.
  - done.
  - destruct (claimed_expire now _ _ _ Hc) as (st & Hi & Ha & Ht). unfold is_claimed.
    cbn in Hi |- *. rewrite lookup_fmap, Hi. cbn. eexists. split; [done|]. by destruct (is_due now st).
  - unfold publish. destruct (states t !! sid) as [st|] eqn:Hs; [|done].
    case_match; [done|]. case_match; [done|]. by eapply claimed_update.
  - unfold subscribe. destruct (states t !! sid) as [st|] eqn:Hs; [|done].
    destruct (Registry.register cb (wakes st)). by eapply claimed_update.
Qed.

Lemma claimed_run ops t i tok :
  inv t -> Forall valid_op ops -> Forall (fun o => ~ releases i o) ops -> is_claimed t i tok ->
  is_claimed (run ops t) i tok /\ inv (run ops t).
Proof.
  intros H Hv. revert t H. induction Hv as [|o ops Ho _ IH]; intros t H Hr Hc; [done|].
  apply Forall_cons in Hr as [Hr1 Hr]. cbn. apply IH; auto using telemetry_inv_apply, claimed_apply.
Qed.

(** An attachment token admits one reader at a time: after a successful
    claim every further claim of the token is refused, whatever else happens,
    until the subscription is detached, erased or the store closed; and the
    subscription cannot expire meanwhile. *)
Theorem claim_exclusive (cap : nat) (ttl : Z) (before after : list Op) (tok i : string)
    (now now_due now' now_due' : Z) (t1 : HalValueTelemetry) (w : list (nat * Z)) :
  Forall valid_op before -> Forall valid_op after ->
  claim tok now now_due (run before (make cap ttl)) = (t1, Some (i, w)) ->
  Forall (fun o => ~ releases i o) after ->
  (claim tok now' now_due' (run after t1)).2 = None
  /\ exists st, states (run after t1) !! i = Some st.
Proof.
  intros Hb Ha Hclaim Hr. pose proof (telemetry_inv_run before _ (inv_empty cap ttl false) Hb) as H0.
  fold (make cap ttl) in H0. pose proof (inv_claim tok now now_due _ H0) as H1.
  rewrite Hclaim in H1. cbn in H1.
  assert (Hc : is_claimed t1 i tok).
  { pose proof (inv_expire now _ H0) as He. revert Hclaim. unfold claim.
    set (te := expire_locked now (run before (make cap ttl))) in *. clearbody te.
    destruct (tokens te !! tok) as [j|] eqn:Etok; [|done]. destruct (closed te); [done|].
    destruct (states te !! j) as [st|] eqn:Ej; [|done]. destruct (attached st); [done|].
    intros [= <- <- _]. eexists. cbn. rewrite lookup_insert_eq. split; [done|]. split; [done|].
    cbn. apply (inv_tokens _ He) in Etok as (st' & E & ?). congruence. }
  destruct (claimed_run after t1 i tok H1 Ha Hr Hc) as [Hc2 H2].
  split; [|destruct Hc2 as (st & ? & _); eauto].
  unfold claim. pose proof (inv_expire now' _ H2) as He.
  pose proof (claimed_expire now' _ _ _ Hc2) as (st & Hs & Hat & Ht).
  set (te := expire_locked now' (run after t1)) in *. clearbody te.
  assert (tokens te !! tok = Some i) as -> by (apply (inv_tokens _ He); eauto).
  rewrite Hs, Hat. by destruct (closed te).
Qed.

(** *** Concrete runs *)

Definition two_items : list HalTelemetryResolvedItem :=
  [mkResolved (mkReference Pin "a") Float; mkResolved (mkReference Signal "b") Bit].

Definition one_subscription : list Op := [OpCreate two_items 100 0 0 0 ["id"; "token"]]%string.

Lemma telemetry_store_limits_witness :
  (size (states (run one_subscription (make 4 30000))) <= 4)%nat
  /\ cost (fastest (all_pairs (states (run one_subscription (make 4 30000))))) = 20.
Proof.
  split; [|vm_compute; reflexivity].
  apply (telemetry_store_limits 4 30000 one_subscription). repeat constructor; cbn; lia.
Defined.

Lemma claim_exclusive_witness :
  (claim "token" 5 5 (run [OpDue 3] (claim "token" 1 1
     (run one_subscription (make 4 30000))).1)).2 = None.
Proof.
  apply (claim_exclusive 4 30000 one_subscription [OpDue 3] "token" "id" 1 1 5 5 _ []);
    try (repeat constructor; cbn; (lia || tauto)); vm_compute; reflexivity.
Defined.

(** An item is removed and another added: the kept item keeps slot 1. *)
Lemma update_keeps_slots_witness :
  exists st', states (update "id" 1 [mkResolved (mkReference Signal "b") Bit;
      mkResolved (mkReference Param "c") S32] 50 7 (run one_subscription (make 4 30000))).1
      !! "id"%string = Some st'
  /\ slot <$> bindings st' = [1; 2].
Proof.
  destruct (update_keeps_slots "id" 1 50 7 [mkResolved (mkReference Signal "b") Bit;
      mkResolved (mkReference Param "c") S32] (run one_subscription (make 4 30000))
      (update "id" 1 [mkResolved (mkReference Signal "b") Bit;
         mkResolved (mkReference Param "c") S32] 50 7 (run one_subscription (make 4 30000))).1
      (mkState "id" "token" 30000 0 100 1 0 2 false false
         [mkBinding 0 (mkReference Pin "a") Float; mkBinding 1 (mkReference Signal "b") Bit]
         [None; None] Registry.make)
      (mkDescriptor "id" "/v1/hal-values/token" 2 50
         [mkBinding 1 (mkReference Signal "b") Bit; mkBinding 2 (mkReference Param "c") S32]) [])
    as (st' & Hs & _ & _ & _ & Hb & _).
  - vm_compute. reflexivity.
  - reflexivity.
  - split_and!; cbn; [|repeat constructor; cbn; lia|]; apply (bool_decide_unpack _); vm_compute; exact I.
  - cbn. lia.
  - cbn. lia.
  - apply (bool_decide_unpack _). vm_compute. exact I.
  - vm_compute. reflexivity.
  - exists st'. split; [exact Hs|]. rewrite <- Hb. reflexivity.
Defined.

End Values.

(** The HAL part of a telemetry [Session].  [current] is what
    [HalValueTelemetry::snapshot] returns for the session's subscription, and
    [posted] counts the wake-ups published for it that have not run yet. *)
Module Session.
Import Values.
Local Open Scope Z_scope.

(** Values that readers cannot tell apart: [==], or both NaN. *)
Definition norm (v : slot_value) : slot_value :=
  match v with Some (VFloat x) => Some (VFloat (norm_float x)) | _ => v end.

#[export] Instance slot_value_equiv : Equiv slot_value := fun a b => norm a = norm b.
#[export] Instance slot_value_equivalence : Equivalence (≡@{slot_value}).
Proof. split; [done|by intros a b E|intros a b c E1 E2; exact (eq_trans E1 E2)]. Qed.

Lemma slot_value_eq_equiv a b : slot_value_eq a b = true -> a ≡ b.
Proof.
  destruct a as [[]|], b as [[]|]; cbn; try done; intros H; unfold equiv, slot_value_equiv; cbn;
    try (by apply f64_eq_norm in H; rewrite H); try (by apply Z.eqb_eq in H; rewrite H).
  by apply Bool.eqb_prop in H; rewrite H.
Qed.

(** *** Frames *)

Record HalValueFrame := mkFrame {
  frame_replacement : bool;
  frame_revision : Z;
  frame_sequence : Z;
  frame_entries : list (Z * slot_value);
}.

(** The lambda [append] of [encode_hal_frame]. *)
Definition frame_entry (s : HalTelemetrySnapshot) (i : nat) : option (Z * slot_value) :=
  b ← s_bindings s !! i; v ← s_values s !! i; Some (slot b, v).

Definition encode_hal_frame (s : HalTelemetrySnapshot) (replacement : bool) (changed : list nat) :
    HalValueFrame :=
  mkFrame replacement (s_revision s) (s_sequence s)
    (omap (frame_entry s) (if replacement then seq 0 (length (s_bindings s)) else changed)).

Record HalSession := mkSession {
  revision : Z;
  values : list slot_value;
  write_snapshot : option (HalTelemetrySnapshot * HalValueFrame);
  writing : bool;
  dirty : bool;
}.

Definition initial : HalSession := mkSession 0 [] None false false.

(** The indices whose value differs from the one last written. *)
Definition differs (old : list slot_value) (s : HalTelemetrySnapshot) (i : nat) : bool :=
  match old !! i, s_values s !! i with
  | Some a, Some b => negb (slot_value_eq b a)
  | _, _ => true
  end.

Definition changed_indices (old : list slot_value) (s : HalTelemetrySnapshot) : list nat :=
  filter (fun i => differs old s i = true) (seq 0 (length (s_values s))).

Definition send_hal (s : HalTelemetrySnapshot) (h : HalSession) : HalSession :=
  if negb (s_sampled s) then h
  else
    let replacement := negb (revision h =? s_revision s) in
    let changed := if replacement then [] else changed_indices (values h) s in
    if negb replacement && bool_decide (changed = []) then h
    else mkSession (revision h) (values h) (Some (s, encode_hal_frame s replacement changed))
           true (dirty h).

Definition wake_hal (s : HalTelemetrySnapshot) (h : HalSession) : HalSession :=
  if writing h then mkSession (revision h) (values h) (write_snapshot h) (writing h) true
  else send_hal s h.

(** [on_write] without an error. *)
Definition on_write (s : HalTelemetrySnapshot) (h : HalSession) : HalSession :=
  let h1 := match write_snapshot h with
            | Some (ws, _) => mkSession (s_revision ws) (s_values ws) None false (dirty h)
            | None => mkSession (revision h) (values h) None false (dirty h)
            end in
  if dirty h1
  then send_hal s (mkSession (revision h1) (values h1) (write_snapshot h1) (writing h1) false)
  else h1.

(** The remote reader assigns the slots of a frame, forgetting the old ones on a
    replacement. *)
Definition assign (entries : list (Z * slot_value)) (view : gmap Z slot_value) : gmap Z slot_value :=
  foldl (fun m e => <[e.1 := e.2]> m) view entries.

Definition receive (f : HalValueFrame) (view : gmap Z slot_value) : gmap Z slot_value :=
  assign (frame_entries f) (if frame_replacement f then ∅ else view).

Record World := mkWorld {
  current : HalTelemetrySnapshot;
  posted : nat;
  session : HalSession;
  view : gmap Z slot_value;
}.

Inductive Step :=
| Change (s : HalTelemetrySnapshot)  (* publish or update, and its wake-up *)
| Wake                               (* a posted wake-up runs *)
| Written.                           (* the write in flight completes *)

Definition step (w : World) (s : Step) : World :=
  match s with
  | Change n => mkWorld n (S (posted w)) (session w) (view w)
  | Wake =>
      match posted w with
      | O => w
      | S n => mkWorld (current w) n (wake_hal (current w) (session w)) (view w)
      end
  | Written =>
      match write_snapshot (session w) with
      | None => w
      | Some (_, f) => mkWorld (current w) (posted w) (on_write (current w) (session w))
                         (receive f (view w))
      end
  end.

(** A session starts by sending what there is. *)
Definition start (s : HalTelemetrySnapshot) : World := mkWorld s 0 (send_hal s initial) ∅.

Lemma assign_some l m k v :
  (exists x, (k, x) ∈ l) -> (forall x, (k, x) ∈ l -> x = v) -> assign l m !! k = Some v.
Proof.
  unfold assign. induction l as [|[k' x'] l IH] using rev_ind; [by intros [x ?%elem_of_nil]|].
  intros [x Hx] Hall. rewrite foldl_app. cbn. destruct (decide (k = k')) as [->|Hne].
  - rewrite lookup_insert_eq. f_equal. apply Hall. set_solver.
  - rewrite lookup_insert_ne by done. apply IH; [exists x|]; set_solver.
Qed.

Lemma assign_none l m k : (forall x, (k, x) ∉ l) -> assign l m !! k = m !! k.
Proof.
  unfold assign. induction l as [|[k' x'] l IH] using rev_ind; [done|].
  intros Hn. rewrite foldl_app. cbn.
  rewrite lookup_insert_ne; [apply IH; set_solver|]. intros ->. apply (Hn x'). set_solver.
Qed.

Lemma frame_entries_elem s (idxs : list nat) k v :
  (k, v) ∈ omap (frame_entry s) idxs <->
  exists i b, i ∈ idxs /\ s_bindings s !! i = Some b /\ slot b = k /\ s_values s !! i = Some v.
Proof.
  rewrite list_elem_of_omap. unfold frame_entry. split.
  - intros (i & Hi & (b & Hb & (v' & Hv & [= <- <-])%bind_Some)%bind_Some). eauto 10.
  - intros (i & b & Hi & Hb & <- & Hv). exists i. split; [done|]. by rewrite Hb, Hv.
Qed.

Section Stream.
(** The bindings of each revision: an update changes the bindings and the
    revision together, a publication neither. *)
Context (B : Z -> list HalTelemetryBinding).

Definition snapshot_ok (s : HalTelemetrySnapshot) : Prop :=
  1 <= s_revision s /\ length (s_values s) = length (s_bindings s)
  /\ NoDup (slot <$> s_bindings s) /\ s_bindings s = B (s_revision s).

Definition step_ok (s : Step) : Prop :=
  match s with Change n => snapshot_ok n | _ => True end.

(** The view holds exactly the slots of [bs], with values equivalent to [vs]. *)
Definition reflects (m : gmap Z slot_value) (bs : list HalTelemetryBinding) (vs : list slot_value) : Prop :=
  length vs = length bs
  /\ (forall i b v, bs !! i = Some b -> vs !! i = Some v -> exists x, m !! slot b = Some x /\ x ≡ v)
  /\ (forall k, is_Some (m !! k) -> k ∈ slot <$> bs).

Definition in_flight (h : HalSession) (ws : HalTelemetrySnapshot) (f : HalValueFrame) : Prop :=
  snapshot_ok ws
  /\ f = encode_hal_frame ws (negb (revision h =? s_revision ws))
           (if negb (revision h =? s_revision ws) then [] else changed_indices (values h) ws).

(** The session is up to date with [s], except for a frame in flight. *)
Definition fresh (s : HalTelemetrySnapshot) (h : HalSession) : Prop :=
  match write_snapshot h with
  | Some (ws, _) => ws = s
  | None => s_sampled s = true -> revision h = s_revision s /\ Forall2 (≡) (values h) (s_values s)
  end.

Record inv (w : World) : Prop := mkInv {
  inv_current : snapshot_ok (current w);
  inv_view : (revision (session w) = 0 /\ view w = ∅)
    \/ (1 <= revision (session w) /\ reflects (view w) (B (revision (session w))) (values (session w)));
  inv_flight : forall ws f, write_snapshot (session w) = Some (ws, f) -> in_flight (session w) ws f;
  inv_writing : writing (session w) = bool_decide (is_Some (write_snapshot (session w)));
  inv_dirty : dirty (session w) = true -> writing (session w) = true;
  inv_fresh : posted w = 0%nat -> dirty (session w) = false -> fresh (current w) (session w);
}.

Lemma changed_indices_elem old s i :
  i ∈ changed_indices old s <-> differs old s i = true /\ (i < length (s_values s))%nat.
Proof. unfold changed_indices. rewrite list_elem_of_filter, elem_of_seq. split; [intros []|]; intuition lia. Qed.

(** A received frame brings the view to the snapshot it was made from. *)
Lemma receive_reflects w ws f :
  inv w -> write_snapshot (session w) = Some (ws, f) ->
  reflects (receive f (view w)) (B (s_revision ws)) (s_values ws).
Proof.
  intros H Hf. destruct (inv_flight _ H _ _ Hf) as [(H1 & Hl & Hn & Hb) ->].
  rewrite <- Hb. unfold receive, encode_hal_frame. cbn [frame_entries frame_replacement].
  assert (Hinj : forall i j b b', s_bindings ws !! i = Some b -> s_bindings ws !! j = Some b' ->
    slot b = slot b' -> i = j).
  { intros i j b b' Hi Hj E. eapply (NoDup_lookup _ i j (slot b) Hn);
      rewrite list_lookup_fmap, ?Hi, ?Hj; cbn; congruence. }
  assert (Hhit : forall idxs m i b v, i ∈ idxs -> s_bindings ws !! i = Some b ->
    s_values ws !! i = Some v -> assign (omap (frame_entry ws) idxs) m !! slot b = Some v).
  { intros idxs m i b v Hi Hbi Hv. apply assign_some.
    - exists v. apply frame_entries_elem. eauto 10.
    - intros x (j & b' & _ & Hb' & E & Hx)%frame_entries_elem.
      assert (j = i) as -> by (by eapply Hinj). congruence. }
  split; [done|].
  destruct (negb (revision (session w) =? s_revision ws)) eqn:Er; split.
  - intros i b v Hi Hv. exists v. split; [|done]. eapply Hhit; [|done..].
    apply elem_of_seq. apply lookup_lt_Some in Hi. lia.
  - intros k Hk. destruct (decide (k ∈ slot <$> s_bindings ws)) as [|Hnk]; [done|].
    rewrite assign_none in Hk; [by rewrite lookup_empty in Hk; destruct Hk|].
    intros x (i & b & _ & Hi & <- & _)%frame_entries_elem. apply Hnk, list_elem_of_fmap.
    exists b. split; [done|]. by eapply list_elem_of_lookup_2.
  - intros i b v Hi Hv. bool_to_prop.
    destruct (inv_view _ H) as [[E0 _]|[_ (Hlen & Hr & _)]]; [lia|].
    rewrite Er, <- Hb in Hr, Hlen.
    destruct (decide (i ∈ changed_indices (values (session w)) ws)) as [Hin|Hout].
    + exists v. split; [by eapply Hhit|done].
    + destruct (lookup_lt_is_Some_2 (values (session w)) i) as [old Hold];
        [rewrite Hlen; by eapply lookup_lt_Some|].
      destruct (Hr i b old Hi Hold) as (x & Hx & Heq). exists x. split.
      * rewrite assign_none; [done|]. intros y (j & b' & Hj & Hb' & E & _)%frame_entries_elem.
        apply Hout. assert (j = i) as <- by (by eapply Hinj). done.
      * etrans; [done|]. symmetry. apply slot_value_eq_equiv.
        destruct (slot_value_eq v old) eqn:Ev; [done|]. exfalso. apply Hout, changed_indices_elem.
        unfold differs. rewrite Hold, Hv, Ev. split; [done|]. by eapply lookup_lt_Some.
  - intros k Hk. bool_to_prop.
    destruct (inv_view _ H) as [[E0 _]|[_ (_ & _ & Hd)]]; [lia|]. rewrite Er, <- Hb in Hd.
    destruct (decide (k ∈ slot <$> s_bindings ws)) as [|Hnk]; [done|]. apply Hd.
    rewrite assign_none in Hk; [done|].
    intros x (i & b & _ & Hi & <- & _)%frame_entries_elem. apply Hnk, list_elem_of_fmap.
    exists b. split; [done|]. by eapply list_elem_of_lookup_2.
Qed.

(** After [send_hal] the session is up to date. *)
Lemma send_hal_fresh s h m :
  snapshot_ok s -> write_snapshot h = None ->
  (revision h = 0 \/ (1 <= revision h /\ reflects m (B (revision h)) (values h))) ->
  fresh s (send_hal s h).
Proof.
  intros (Hs1 & Hs2 & Hs3 & Hs4) Hw Hv. unfold send_hal, fresh.
  destruct (s_sampled s) eqn:Es; cbn; [|rewrite Hw; done].
  destruct (Z.eqb_spec (revision h) (s_revision s)) as [Er|Er]; cbn; [|done].
  case_bool_decide as Ec; cbn; [|done]. rewrite Hw. intros _. split; [done|].
  destruct Hv as [Hv|[_ (Hl & _)]]; [lia|]. rewrite Er, <- Hs4 in Hl.
  apply Forall2_same_length_lookup. split; [lia|]. intros i x y Hx Hy.
  symmetry. apply slot_value_eq_equiv. destruct (slot_value_eq y x) eqn:E; [done|]. exfalso.
  assert (Hin : i ∈ changed_indices (values h) s).
  { apply changed_indices_elem. unfold differs. rewrite Hx, Hy, E. split; [done|].
    by eapply lookup_lt_Some. }
  rewrite Ec in Hin. by apply elem_of_nil in Hin.
Qed.

Lemma send_hal_flight s h ws f :
  snapshot_ok s -> write_snapshot h = None ->
  write_snapshot (send_hal s h) = Some (ws, f) -> in_flight (send_hal s h) ws f.
Proof.
  intros Hs Hw. unfold send_hal. destruct (s_sampled s); cbn; [|by rewrite Hw].
  destruct (negb (revision h =? s_revision s)) eqn:Er; cbn.
  - intros [= <- <-]. split; [done|]. cbn. by rewrite Er.
  - case_bool_decide; cbn; [by rewrite Hw|]. intros [= <- <-]. split; [done|]. cbn. by rewrite Er.
Qed.

Lemma send_hal_same s h :
  revision (send_hal s h) = revision h /\ values (send_hal s h) = values h
  /\ dirty (send_hal s h) = dirty h
  /\ (writing h = bool_decide (is_Some (write_snapshot h)) ->
      writing (send_hal s h) = bool_decide (is_Some (write_snapshot (send_hal s h)))).
Proof. unfold send_hal. repeat (case_match; try done). Qed.

(** Sending from an idle session re-establishes everything. *)
Lemma inv_send s n h m :
  snapshot_ok s -> write_snapshot h = None -> writing h = false -> dirty h = false ->
  (revision h = 0 /\ m = ∅ \/ 1 <= revision h /\ reflects m (B (revision h)) (values h)) ->
  inv (mkWorld s n (send_hal s h) m).
Proof.
  intros Hs Hw Hwr Hd Hv. destruct (send_hal_same s h) as (E1 & E2 & E3 & E4).
  split; cbn.
  - done.
  - by rewrite E1, E2.
  - intros ws f. by apply send_hal_flight.
  - apply E4. by rewrite Hw, Hwr.
  - rewrite E3, Hd. done.
  - intros _ _. eapply send_hal_fresh; [done..|]. destruct Hv as [[? _]|?]; eauto.
Qed.

Lemma session_inv_step w s : inv w -> step_ok s -> inv (step w s).
Proof.
  intros H Hok. destruct s as [n| |]; cbn.
  - destruct H as [? ? ? ? ? ?]. split; cbn in *; try done.
  - destruct (posted w) as [|n] eqn:Ep; [done|]. unfold wake_hal.
    destruct (writing (session w)) eqn:Ew.
    + destruct H as [? ? Hf Hwr Hdi Hfr]. split; cbn; try done. by rewrite <- Ew.
    + pose proof (inv_writing _ H) as Hn. rewrite Ew in Hn. symmetry in Hn. bool_to_prop.
      rewrite <- eq_None_not_Some in Hn.
      apply inv_send; [apply H|exact Hn|exact Ew| |apply H].
      destruct (dirty (session w)) eqn:Ed; [|done]. pose proof (inv_dirty _ H Ed). congruence.
  - destruct (write_snapshot (session w)) as [[ws f]|] eqn:Ef; [|done].
    pose proof (receive_reflects w ws f H Ef) as Hr.
    destruct (inv_flight _ H _ _ Ef) as [(Hs1 & _) _].
    unfold on_write. rewrite Ef. cbn [dirty]. destruct (dirty (session w)) eqn:Ed; cbn.
    + apply inv_send; [apply H|done|done|done|by right].
    + split; cbn; try done; [apply H|by right|].
      intros Hp _. pose proof (inv_fresh _ H Hp Ed) as Hfr. unfold fresh in Hfr. rewrite Ef in Hfr.
      subst ws. intros _. split; [done|]. reflexivity.
Qed.

Lemma inv_start s : snapshot_ok s -> inv (start s).
Proof. intros Hs. apply inv_send; [done..|by left]. Qed.

(** C3: A telemetry reader converges to the HAL values: under every interleaving
    of publications, updates, posted wake-ups and write completions, whenever
    no wake-up is pending and no write is in flight, and the subscription has
    been sampled, the reader's view has exactly the slots of the current
    bindings, each with the current value (up to the two zeros). *)
Theorem hal_reader_converges (s0 : HalTelemetrySnapshot) (l : list Step) :
  snapshot_ok s0 -> Forall step_ok l ->
  let w := foldl step (start s0) l in
  posted w = 0%nat -> writing (session w) = false -> s_sampled (current w) = true ->
  reflects (view w) (s_bindings (current w)) (s_values (current w)).
Proof.
  intros Hs Hl. cbn zeta.
  assert (H : inv (foldl step (start s0) l)).
  { pose proof (inv_start s0 Hs) as H. revert H. generalize (start s0).
    induction Hl as [|x l Hx _ IH]; intros w H; [done|]. cbn. by apply IH, session_inv_step. }
  set (w := foldl step (start s0) l) in *. clearbody w. intros Hp Hw Hsam.
  pose proof (inv_writing _ H) as Hn. rewrite Hw in Hn. symmetry in Hn. bool_to_prop.
  rewrite <- eq_None_not_Some in Hn.
  assert (Hd : dirty (session w) = false).
  { destruct (dirty (session w)) eqn:Ed; [|done]. pose proof (inv_dirty _ H Ed). congruence. }
  pose proof (inv_fresh _ H Hp Hd) as Hf. unfold fresh in Hf. rewrite Hn in Hf.
  destruct (Hf Hsam) as [Hrev Hvals]. destruct (inv_current _ H) as (H1 & Hlen & _ & Hb).
  destruct (inv_view _ H) as [[E0 _]|[_ (Hl1 & Hr & Hk)]]; [lia|].
  rewrite Hrev, <- Hb in Hl1, Hr, Hk. split_and!; [done| |done].
  intros i b v Hi Hv. destruct (Forall2_lookup_r _ _ _ _ _ Hvals Hv) as (old & Hold & Heq).
  destruct (Hr i b old Hi Hold) as (x & Hx & Hxe). exists x. split; [done|]. by etrans.
Qed.

End Stream.

(** A publication arrives while the first frame is being written. *)
Lemma hal_reader_converges_witness :
  let b := [mkBinding 3 (mkReference Pin "a") S32] in
  let s n x := mkSnapshot true 1 n b [Some (VS32 x)] in
  let l := [Change (s 2 8); Wake; Written; Written] in
  view (foldl step (start (s 1 7)) l) !! 3 = Some (Some (VS32 8)).
Proof.
  intros b s l.
  destruct (hal_reader_converges (fun _ => b) (s 1 7) l) as (_ & H & _).
  - split_and!; cbn; [lia|reflexivity|apply NoDup_singleton|reflexivity].
  - unfold l. rewrite !Forall_cons. split_and!; try exact I; try apply Forall_nil_2.
    split_and!; cbn; [lia|reflexivity|apply NoDup_singleton|reflexivity].
  - reflexivity.
  - reflexivity.
  - reflexivity.
  - destruct (H 0%nat (mkBinding 3 (mkReference Pin "a") S32) (Some (VS32 8)) eq_refl eq_refl)
      as (x & Hx & Hxe).
    refine (eq_trans Hx _). f_equal. destruct x as [[]|]; cbv in Hxe; try discriminate Hxe; exact Hxe.
Defined.

End Session.
