(* ===== verification/NmlStatus.v ===== *)
(** The native status value types of [nml_adapter.hpp]: the poses, the tool
    entry and the status snapshot the adapter reads from LinuxCNC, with the
    defaults of their member initializers. *)
From Stdlib Require Import String.
From S2P Require Import Prelude Float64.

Local Open Scope Z_scope.

(** [std::array<double, 9>], in the order x y z a b c u v w. *)
Definition NmlPose := list f64.
Definition pose_size : nat := 9.
Definition zero_pose : NmlPose := replicate pose_size f64_zero.

Record NmlToolEntry := mkTool {
  tool_no : Z;
  pocket_no : Z;
  offset : NmlPose;
  wear_offset : NmlPose;
  offset_values : nat;
  wear_offset_values : nat;
  diameter : f64;
  front_angle : f64;
  back_angle : f64;
  orientation : Z;
  comment : string;
  has_pocket_no : bool;
  has_offset : bool;
  has_wear_offset : bool;
  has_diameter : bool;
  has_front_angle : bool;
  has_back_angle : bool;
  has_orientation : bool;
  has_comment : bool;
}.

Definition default_tool : NmlToolEntry :=
  mkTool 0 0 zero_pose zero_pose 0 0 f64_zero f64_zero f64_zero 0 EmptyString
    false false false false false false false false.

Record NmlTaskStatus := mkNmlTaskStatus {
  ts_mode : Z;
  ts_state : Z;
  ts_exec_state : Z;
  ts_interp_state : Z;
  ts_stop_state : Z;
  ts_call_level : Z;
  ts_motion_line : Z;
  ts_current_line : Z;
  ts_read_line : Z;
  ts_optional_stop_state : bool;
  ts_block_delete_state : bool;
  ts_input_timeout : bool;
  ts_file : string;
  ts_command : string;
  ts_ini_filename : string;
  ts_g5x_offset : NmlPose;
  ts_g5x_index : Z;
  ts_g5x_offsets : list NmlPose;
  ts_g5x_rotations : list f64;
  ts_g92_offset : NmlPose;
  ts_g28_position : NmlPose;
  ts_g30_position : NmlPose;
  ts_rotation_xy : f64;
  ts_tool_offset : NmlPose;
  ts_active_g_codes : list Z;
  ts_active_m_codes : list Z;
  ts_active_settings : list f64;
  ts_program_units : Z;
  ts_interpreter_error_code : Z;
  ts_task_paused : bool;
  ts_delay_left : f64;
  ts_queued_mdi_commands : Z;
}.

Definition default_taskstatus : NmlTaskStatus :=
  mkNmlTaskStatus 0 0 0 0 0 0 0 0 0 false false false EmptyString EmptyString EmptyString
    zero_pose 0 [] [] zero_pose zero_pose zero_pose f64_zero zero_pose [] [] [] 0 0 false
    f64_zero 0.

Record NmlJointStatus := mkNmlJointStatus {
  joint_joint_type : Z;
  joint_units : f64;
  joint_backlash : f64;
  joint_min_position_limit : f64;
  joint_max_position_limit : f64;
  joint_min_ferror : f64;
  joint_max_ferror : f64;
  joint_ferror_current : f64;
  joint_ferror_high_mark : f64;
  joint_output : f64;
  joint_input : f64;
  joint_velocity : f64;
  joint_in_position : bool;
  joint_homing : bool;
  joint_homed : bool;
  joint_fault : bool;
  joint_enabled : bool;
  joint_min_soft_limit : bool;
  joint_max_soft_limit : bool;
  joint_min_hard_limit : bool;
  joint_max_hard_limit : bool;
  joint_override_limits : bool;
  joint_available : bool;
}.

Record NmlAxisStatus := mkNmlAxisStatus {
  axis_min_position_limit : f64;
  axis_max_position_limit : f64;
  axis_velocity : f64;
}.

Record NmlSpindleStatus := mkNmlSpindleStatus {
  spindle_speed : f64;
  spindle_feedback : f64;
  spindle_override_scale : f64;
  spindle_css_maximum : f64;
  spindle_css_factor : f64;
  spindle_direction : Z;
  spindle_brake : bool;
  spindle_increasing : Z;
  spindle_enabled : bool;
  spindle_orient_state : Z;
  spindle_orient_fault : Z;
  spindle_spindle_override_enabled : bool;
  spindle_homed : bool;
  spindle_available : bool;
}.

Record NmlTrajectoryStatus := mkNmlTrajectoryStatus {
  traj_linear_units : f64;
  traj_angular_units : f64;
  traj_cycle_time : f64;
  traj_joints : Z;
  traj_spindles : Z;
  traj_available_axes : list Z;
  traj_mode : Z;
  traj_enabled : bool;
  traj_in_position : bool;
  traj_queue : Z;
  traj_active_queue : Z;
  traj_queue_full : bool;
  traj_id : Z;
  traj_paused : bool;
  traj_single_stepping : bool;
  traj_feed_rate_override : f64;
  traj_rapid_rate_override : f64;
  traj_position : NmlPose;
  traj_actual_position : NmlPose;
  traj_acceleration : f64;
  traj_max_velocity : f64;
  traj_max_acceleration : f64;
  traj_probed_position : NmlPose;
  traj_probe_tripped : bool;
  traj_probing : bool;
  traj_probe_val : f64;
  traj_kinematics_type : Z;
  traj_motion_type : Z;
  traj_distance_to_go : f64;
  traj_dtg : NmlPose;
  traj_current_velocity : f64;
  traj_feed_override_enabled : bool;
  traj_adaptive_feed_enabled : bool;
  traj_feed_hold_enabled : bool;
}.

Definition default_trajectorystatus : NmlTrajectoryStatus :=
  mkNmlTrajectoryStatus f64_zero f64_zero f64_zero 0 0 [] 0 false false 0 0 false 0 false false
    f64_zero f64_zero zero_pose zero_pose f64_zero f64_zero f64_zero zero_pose false false
    f64_zero 0 0 f64_zero zero_pose f64_zero false false false.

Record NmlMotionStatus := mkNmlMotionStatus {
  motion_traj : NmlTrajectoryStatus;
  motion_joints : list NmlJointStatus;
  motion_axes : list NmlAxisStatus;
  motion_spindles : list NmlSpindleStatus;
  motion_digital_input : list Z;
  motion_digital_output : list Z;
  motion_analog_input : list f64;
  motion_analog_output : list f64;
}.

Definition default_motionstatus : NmlMotionStatus :=
  mkNmlMotionStatus default_trajectorystatus [] [] [] [] [] [] [].

Record NmlIoStatus := mkNmlIoStatus {
  io_pocket_prepped : Z;
  io_tool_in_spindle : Z;
  io_tool_from_pocket : Z;
  io_mist : bool;
  io_flood : bool;
  io_estop : bool;
}.

Definition default_iostatus : NmlIoStatus :=
  mkNmlIoStatus 0 0 0 false false false.

Record NmlStatusSnapshot := mkNmlStatusSnapshot {
  echo_serial_number : Z;
  rcs_status : Z;
  task_mode : Z;
  task_state : Z;
  exec_state : Z;
  interp_state : Z;
  stop_state : Z;
  current_line : Z;
  motion_line : Z;
  read_line : Z;
  optional_stop : bool;
  block_delete : bool;
  file : string;
  command : string;
  ini_filename : string;
  debug : Z;
  motion_type : Z;
  actual_position : list f64;
  task_stat : NmlTaskStatus;
  motion_stat : NmlMotionStatus;
  io_stat : NmlIoStatus;
  tool_table : list NmlToolEntry;
}.

Definition default_statussnapshot : NmlStatusSnapshot :=
  mkNmlStatusSnapshot 0 (-1) 0 0 0 0 0 0 0 0 false false EmptyString EmptyString EmptyString 0 0
    [] default_taskstatus default_motionstatus default_iostatus [].
