(* ===== verification/NmlCommand.v ===== *)
(** Commands on their way to LinuxCNC: the command value type
    ([nml_adapter.hpp]), the validator ([command_validation.cc]), the
    translation of an [ExecuteCommandRequest] ([machine/grpc/service.cc],
    [submit_command]) and the construction of the NML message
    ([nml_adapter.cc], the body of [NmlAdapter::submit]), together with the
    receiver's guard on tool updates (the tool patch of the LinuxCNC task). *)
From Stdlib Require Import Ascii String SpecFloat.
From S2P Require Import Prelude Float64 NmlStatus.

Local Open Scope Z_scope.

(** * Value types *)
Module Command.

Inductive NmlCommandKind :=
| SetTaskMode | SetTaskState | TaskPlanSynch | ResetInterpreter | ProgramOpen
| ProgramClose | Run | Pause | Resume | Step | Reverse | Forward | StopProgram
| AbortTask | SetOptionalStop | SetBlockDelete | Mdi | SetTrajMode
| SetMaxVelocity | SetFeedRate | SetSpindleOverride | OverrideLimits
| TeleopEnable | SetFeedOverrideEnable | SetSpindleOverrideEnable
| SetFeedHoldEnable | SetAdaptiveFeedEnable | HomeJoint | UnhomeJoint
| SetMinPositionLimit | SetMaxPositionLimit | SpindleOn | SpindleIncrease
| SpindleDecrease | SpindleOff | SpindleBrake | SetMist | SetFlood
| LoadToolTable | SetTool | DeleteTool | SetDigitalOutput | SetAnalogOutput
| SetDebugLevel | SendOperatorError | SendOperatorText | SendOperatorDisplay
| SetRapidRate | SetJointAvailability | SetSpindleAvailability.

#[export] Instance NmlCommandKind_eq_dec : EqDecision NmlCommandKind.
Proof. solve_decision. Defined.

(** The data of an [NmlCommand]; its three callbacks are attached where the
    command is run.  [integer2], [number2], [pose] and [wear_pose] are never
    read or written by the sources. *)
Record NmlCommand := mkCommand {
  kind : NmlCommandKind;
  integer : Z;
  number : f64;
  boolean : bool;
  text : string;
  path : string;
  tool : NmlToolEntry;
}.

Definition default_command : NmlCommand :=
  mkCommand StopProgram 0 f64_zero false EmptyString EmptyString default_tool.

(** The commands that travel in the safety lane and ignore their stop token. *)
Definition safety_command (k : NmlCommandKind) : bool :=
  bool_decide (k = StopProgram) || bool_decide (k = Pause) || bool_decide (k = AbortTask).

(** The configuration the validator reads from the latest snapshot. *)
Definition joints (s : NmlStatusSnapshot) : Z := traj_joints (motion_traj (motion_stat s)).
Definition spindles (s : NmlStatusSnapshot) : Z := traj_spindles (motion_traj (motion_stat s)).

End Command.

(** * Validation *)
Module Validation.
Import Command.

Inductive error := InvalidArgument (message : string) | StatusUnavailable (message : string).
Notation check := (outcome error unit).

Definition invalid {A} (message : string) : outcome error A := Err (InvalidArgument message).

Definition unavailable {A} : outcome error A :=
  Err (StatusUnavailable "LinuxCNC configuration status is unavailable").

Definition finite (value : f64) (field : string) : check :=
  if negb (f64_isfinite value) then invalid (field +:+ " must be finite") else Ok tt.

Definition nonnegative (value : f64) (field : string) : check :=
  _ ← finite value field;
  if f64_lt value f64_zero then invalid (field +:+ " must not be negative") else Ok tt.

Definition configured_index (index count : Z) (field : string) : check :=
  if (index <? 0) || (count <=? index)
  then invalid (field +:+ " is out of configured range") else Ok tt.

(** [for (index = 0; index < count; ++index) finite(values[index])], leaving at
    the first failure. *)
Fixpoint all_finite (values : list f64) (field : string) : check :=
  match values with
  | [] => Ok tt
  | v :: values' => _ ← finite v field; all_finite values' field
  end.

Definition when (b : bool) (c : check) : check := if b then c else Ok tt.

(** [std::string::find(c) != npos]. *)
Fixpoint contains (c : ascii) (s : string) : bool :=
  match s with
  | EmptyString => false
  | String.String d s' => Ascii.eqb c d || contains c s'
  end.

Definition newline : ascii := "010".
Definition carriage_return : ascii := "013".

Definition validate_tool (t : NmlToolEntry) : check :=
  _ ← when (tool_no t <=? 0) (invalid "tool number must be positive");
  _ ← when (has_pocket_no t && ((pocket_no t <=? 0) || (1000 <? pocket_no t)))
        (invalid "tool pocket must be between 1 and 1000");
  _ ← when ((pose_size <? offset_values t)%nat || (pose_size <? wear_offset_values t)%nat)
        (invalid "tool offsets must contain at most 9 axes");
  _ ← when (has_offset t) (all_finite (take (offset_values t) (offset t)) "tool offset");
  _ ← when (has_wear_offset t)
        (all_finite (take (wear_offset_values t) (wear_offset t)) "tool wear offset");
  _ ← when (has_diameter t) (nonnegative (diameter t) "tool diameter");
  _ ← when (has_front_angle t) (finite (front_angle t) "tool front angle");
  _ ← when (has_back_angle t) (finite (back_angle t) "tool back angle");
  _ ← when (has_orientation t && ((orientation t <? 0) || (9 <? orientation t)))
        (invalid "tool orientation must be between 0 and 9");
  when (has_comment t && ((40 <=? String.length (comment t))%nat
          || contains newline (comment t) || contains carriage_return (comment t)))
    (invalid "tool comment must be at most 39 bytes without newlines").

(** [if (!configuration) return unavailable();], then the rest. *)
Definition configured (configuration : option NmlStatusSnapshot)
    (k : NmlStatusSnapshot -> check) : check :=
  match configuration with None => unavailable | Some c => k c end.

Definition validate_nml_command (c : NmlCommand) (configuration : option NmlStatusSnapshot) :
    check :=
  let spindle_index :=
    configured configuration (fun s =>
      configured_index (integer c) (spindles s) "spindle index") in
  let joint_index :=
    configured configuration (fun s =>
      configured_index (integer c) (joints s) "joint index") in
  match kind c with
  | SetMaxVelocity => nonnegative (number c) "maximum velocity"
  | SetFeedRate => nonnegative (number c) "feed override"
  | SetRapidRate => nonnegative (number c) "rapid override"
  | SetSpindleOverride => _ ← nonnegative (number c) "spindle override"; spindle_index
  | SetSpindleOverrideEnable | SpindleIncrease | SpindleDecrease | SpindleOff
  | SpindleBrake => spindle_index
  | SpindleOn => _ ← finite (number c) "spindle speed"; spindle_index
  | SetSpindleAvailability => spindle_index
  | SetJointAvailability => joint_index
  | HomeJoint =>
      configured configuration (fun s =>
        if integer c =? -1 then Ok tt
        else configured_index (integer c) (joints s) "joint index")
  | UnhomeJoint =>
      configured configuration (fun s =>
        if (integer c =? -2) || (integer c =? -1) then Ok tt
        else configured_index (integer c) (joints s) "joint index")
  | SetMinPositionLimit | SetMaxPositionLimit =>
      _ ← finite (number c) "position limit"; joint_index
  | SetAnalogOutput => finite (number c) "analog output value"
  | SetTool => validate_tool (tool c)
  | DeleteTool =>
      if 0 <? integer c then Ok tt else invalid "tool number must be positive"
  | _ => Ok tt
  end.

End Validation.

(** * NML messages *)
Module Message.
Import Command.

Record EmcPose := mkEmcPose {
  tran_x : f64; tran_y : f64; tran_z : f64;
  pose_a : f64; pose_b : f64; pose_c : f64;
  pose_u : f64; pose_v : f64; pose_w : f64;
}.

Definition to_emc_pose (pose : NmlPose) : EmcPose :=
  let at_ i := nth i pose f64_zero in
  mkEmcPose (at_ 0%nat) (at_ 1%nat) (at_ 2%nat) (at_ 3%nat) (at_ 4%nat) (at_ 5%nat)
    (at_ 6%nat) (at_ 7%nat) (at_ 8%nat).

Definition from_emc_pose (p : EmcPose) : NmlPose :=
  [tran_x p; tran_y p; tran_z p; pose_a p; pose_b p; pose_c p; pose_u p; pose_v p; pose_w p].

(** A [char] array member of a message. *)
Notation buffer := (list ascii).
Definition NUL : ascii := "000".

(** [std::strncpy(dst, src, n)] with [n] at most the size of [dst]: exactly [n]
    bytes are written, the source up to its terminator and then zeros. *)
Fixpoint strncpy (dst : buffer) (src : list ascii) (n : nat) : buffer :=
  match n, dst with
  | O, _ => dst
  | _, [] => []
  | S n', _ :: dst' =>
      match src with
      | [] => NUL :: strncpy dst' [] n'
      | c :: src' =>
          if Ascii.eqb c NUL then NUL :: strncpy dst' [] n' else c :: strncpy dst' src' n'
      end
  end.

(** What a reader of the buffer sees: the bytes before the first terminator,
    nothing when there is none. *)
Fixpoint c_string (b : buffer) : option (list ascii) :=
  match b with
  | [] => None
  | c :: b' => if Ascii.eqb c NUL then Some [] else cons c <$> c_string b'
  end.

(** What [c_str()] shows of a [std::string]. *)
Fixpoint c_str (s : list ascii) : list ascii :=
  match s with
  | [] => []
  | c :: s' => if Ascii.eqb c NUL then [] else c :: c_str s'
  end.

(** The layout of LinuxCNC's own message classes, which the repository does not
    contain: the sizes of the character arrays the adapter fills and the
    contents a freshly constructed array has. *)
Class EmcNml := {
  sizeof_plan_open_file : nat;
  sizeof_plan_execute_command : nat;
  sizeof_operator_error : nat;
  sizeof_operator_text : nat;
  sizeof_operator_display : nat;
  canon_tool_comment_size : nat;
  canon_pockets_max : Z;
  fresh_buffer : nat -> buffer;
}.

(** What the adapter relies on: the program path array is as long as
    [kNmlProgramPathCapacity] says, tool comments have 40 bytes and pockets
    run up to 1000, no array is empty, and message constructors clear their
    arrays. *)
Class EmcNmlLaws (E : EmcNml) := {
  plan_open_file_capacity : sizeof_plan_open_file = 255%nat;
  tool_comment_capacity : canon_tool_comment_size = 40%nat;
  pockets_capacity : canon_pockets_max = 1001;
  text_arrays_nonempty :
    (0 < sizeof_plan_execute_command)%nat /\ (0 < sizeof_operator_error)%nat
    /\ (0 < sizeof_operator_text)%nat /\ (0 < sizeof_operator_display)%nat;
  fresh_buffer_cleared : forall n, fresh_buffer n = replicate n NUL;
}.

Record ToolUpdate := mkToolUpdate {
  u_toolno : Z;
  u_pocket : Z;
  u_fields : Z;
  u_offset_axes : Z;
  u_wear_offset_axes : Z;
  u_offset : EmcPose;
  u_wear_offset : EmcPose;
  u_diameter : f64;
  u_frontangle : f64;
  u_backangle : f64;
  u_orientation : Z;
  u_comment : buffer;
}.

Inductive RCS_CMD_MSG :=
| EMC_TASK_SET_MODE (mode : Z) | EMC_TASK_SET_STATE (state : Z)
| EMC_TASK_PLAN_SYNCH | EMC_TASK_PLAN_INIT
| EMC_TASK_PLAN_OPEN (file : buffer) | EMC_TASK_PLAN_CLOSE
| EMC_TASK_PLAN_STOP | EMC_TASK_PLAN_PAUSE | EMC_TASK_PLAN_RESUME
| EMC_TASK_PLAN_STEP | EMC_TASK_PLAN_REVERSE | EMC_TASK_PLAN_FORWARD
| EMC_TASK_ABORT
| EMC_TASK_PLAN_SET_OPTIONAL_STOP (state : bool)
| EMC_TASK_PLAN_SET_BLOCK_DELETE (state : bool)
| EMC_TASK_PLAN_RUN (line : Z) | EMC_TASK_PLAN_EXECUTE (command : buffer)
| EMC_TRAJ_SET_MODE (mode : Z) | EMC_TRAJ_SET_MAX_VELOCITY (velocity : f64)
| EMC_TRAJ_SET_SCALE (scale : f64) | EMC_TRAJ_SET_RAPID_SCALE (scale : f64)
| EMC_TRAJ_SET_SPINDLE_SCALE (scale : f64) (spindle : Z)
| EMC_JOINT_OVERRIDE_LIMITS (joint : Z)
| EMC_TRAJ_SET_TELEOP_ENABLE (enable : Z) | EMC_TRAJ_SET_FO_ENABLE (mode : Z)
| EMC_TRAJ_SET_SO_ENABLE (mode : Z) | EMC_TRAJ_SET_FH_ENABLE (mode : Z)
| EMC_MOTION_ADAPTIVE (status : Z)
| EMC_JOINT_SET_AVAILABILITY (joint available : Z)
| EMC_SPINDLE_SET_AVAILABILITY (spindle available : Z)
| EMC_JOINT_HOME (joint : Z) | EMC_JOINT_UNHOME (joint : Z)
| EMC_JOINT_SET_MIN_POSITION_LIMIT (joint : Z) (limit : f64)
| EMC_JOINT_SET_MAX_POSITION_LIMIT (joint : Z) (limit : f64)
| EMC_SPINDLE_ON (spindle : Z) (speed : f64) (wait_for_spindle_at_speed : Z)
| EMC_SPINDLE_INCREASE (spindle : Z) | EMC_SPINDLE_DECREASE (spindle : Z)
| EMC_SPINDLE_OFF (spindle : Z)
| EMC_SPINDLE_BRAKE_ENGAGE (spindle : Z) | EMC_SPINDLE_BRAKE_RELEASE (spindle : Z)
| EMC_COOLANT_MIST_ON | EMC_COOLANT_MIST_OFF
| EMC_COOLANT_FLOOD_ON | EMC_COOLANT_FLOOD_OFF
| EMC_TOOL_LOAD_TOOL_TABLE (file : buffer)
| EMC_TOOL_UPDATE (u : ToolUpdate) | EMC_TOOL_DELETE (toolno : Z)
| EMC_MOTION_SET_DOUT (index start end_ now : Z)
| EMC_MOTION_SET_AOUT (index : Z) (start end_ : f64) (now : Z)
| EMC_SET_DEBUG (debug : Z)
| EMC_OPERATOR_ERROR (error : buffer) | EMC_OPERATOR_TEXT (text : buffer)
| EMC_OPERATOR_DISPLAY (display : buffer).

Definition kNmlProgramPathCapacity : nat := 255.
Definition kDigitalOutputLimit : Z := 64.
Definition kAnalogOutputLimit : Z := 64.

Definition EMC_TOOL_UPDATE_POCKET : Z := Z.shiftl 1 0.
Definition EMC_TOOL_UPDATE_OFFSET : Z := Z.shiftl 1 1.
Definition EMC_TOOL_UPDATE_WEAR_OFFSET : Z := Z.shiftl 1 2.
Definition EMC_TOOL_UPDATE_DIAMETER : Z := Z.shiftl 1 3.
Definition EMC_TOOL_UPDATE_FRONTANGLE : Z := Z.shiftl 1 4.
Definition EMC_TOOL_UPDATE_BACKANGLE : Z := Z.shiftl 1 5.
Definition EMC_TOOL_UPDATE_ORIENTATION : Z := Z.shiftl 1 6.
Definition EMC_TOOL_UPDATE_COMMENT : Z := Z.shiftl 1 7.

Definition bytes (s : string) : list ascii := String.list_ascii_of_string s.
Definition flag (b : bool) : Z := if b then 1 else 0.

Section Build.
Context {E : EmcNml}.

(** Filling a text array: refused when it does not fit, otherwise
    [strncpy(dst, text.c_str(), sizeof(dst) - 1)]. *)
Definition text_message (size : nat) (too_long : string) (make : buffer -> RCS_CMD_MSG)
    (text : string) : outcome string RCS_CMD_MSG :=
  if (size <=? String.length text)%nat then Err too_long
  else Ok (make (strncpy (fresh_buffer size) (bytes text) (size - 1))).

Definition program_open_message (path : string) : outcome string RCS_CMD_MSG :=
  if (kNmlProgramPathCapacity <=? String.length path)%nat then Err "program path too long"%string
  else
    let size := sizeof_plan_open_file in
    Ok (EMC_TASK_PLAN_OPEN
          (<[(size - 1)%nat := NUL]> (strncpy (fresh_buffer size) (bytes path) (size - 1)))).

(** The task and program cases of the switch; [None]: another case. *)
Definition task_message (c : NmlCommand) : option (outcome string RCS_CMD_MSG) :=
  match kind c with
  | SetTaskMode => Some (Ok (EMC_TASK_SET_MODE (integer c)))
  | SetTaskState => Some (Ok (EMC_TASK_SET_STATE (integer c)))
  | TaskPlanSynch => Some (Ok EMC_TASK_PLAN_SYNCH)
  | ResetInterpreter => Some (Ok EMC_TASK_PLAN_INIT)
  | ProgramOpen => Some (program_open_message (path c))
  | ProgramClose => Some (Ok EMC_TASK_PLAN_CLOSE)
  | StopProgram => Some (Ok EMC_TASK_PLAN_STOP)
  | Pause => Some (Ok EMC_TASK_PLAN_PAUSE)
  | Resume => Some (Ok EMC_TASK_PLAN_RESUME)
  | Step => Some (Ok EMC_TASK_PLAN_STEP)
  | Reverse => Some (Ok EMC_TASK_PLAN_REVERSE)
  | Forward => Some (Ok EMC_TASK_PLAN_FORWARD)
  | AbortTask => Some (Ok EMC_TASK_ABORT)
  | SetOptionalStop => Some (Ok (EMC_TASK_PLAN_SET_OPTIONAL_STOP (boolean c)))
  | SetBlockDelete => Some (Ok (EMC_TASK_PLAN_SET_BLOCK_DELETE (boolean c)))
  | Run => Some (Ok (EMC_TASK_PLAN_RUN (integer c)))
  | Mdi => Some (text_message sizeof_plan_execute_command "MDI command too long"
                   EMC_TASK_PLAN_EXECUTE (text c))
  | _ => None
  end.

(** The trajectory cases. *)
Definition trajectory_message (c : NmlCommand) : option (outcome string RCS_CMD_MSG) :=
  match kind c with
  | SetTrajMode => Some (Ok (EMC_TRAJ_SET_MODE (integer c)))
  | SetMaxVelocity => Some (Ok (EMC_TRAJ_SET_MAX_VELOCITY (number c)))
  | SetFeedRate => Some (Ok (EMC_TRAJ_SET_SCALE (f64_max f64_zero (number c))))
  | SetRapidRate => Some (Ok (EMC_TRAJ_SET_RAPID_SCALE (f64_max f64_zero (number c))))
  | SetSpindleOverride =>
      Some (Ok (EMC_TRAJ_SET_SPINDLE_SCALE (f64_max f64_zero (number c)) (integer c)))
  | OverrideLimits => Some (Ok (EMC_JOINT_OVERRIDE_LIMITS 0))
  | TeleopEnable => Some (Ok (EMC_TRAJ_SET_TELEOP_ENABLE (flag (boolean c))))
  | SetFeedOverrideEnable => Some (Ok (EMC_TRAJ_SET_FO_ENABLE (flag (boolean c))))
  | SetSpindleOverrideEnable => Some (Ok (EMC_TRAJ_SET_SO_ENABLE (flag (boolean c))))
  | SetFeedHoldEnable => Some (Ok (EMC_TRAJ_SET_FH_ENABLE (flag (boolean c))))
  | SetAdaptiveFeedEnable => Some (Ok (EMC_MOTION_ADAPTIVE (flag (boolean c))))
  | _ => None
  end.

(** The joint, spindle and coolant cases. *)
Definition machine_message (c : NmlCommand) : option (outcome string RCS_CMD_MSG) :=
  match kind c with
  | SetJointAvailability =>
      Some (Ok (EMC_JOINT_SET_AVAILABILITY (integer c) (flag (boolean c))))
  | SetSpindleAvailability =>
      Some (Ok (EMC_SPINDLE_SET_AVAILABILITY (integer c) (flag (boolean c))))
  | HomeJoint => Some (Ok (EMC_JOINT_HOME (integer c)))
  | UnhomeJoint => Some (Ok (EMC_JOINT_UNHOME (integer c)))
  | SetMinPositionLimit =>
      Some (Ok (EMC_JOINT_SET_MIN_POSITION_LIMIT (integer c) (number c)))
  | SetMaxPositionLimit =>
      Some (Ok (EMC_JOINT_SET_MAX_POSITION_LIMIT (integer c) (number c)))
  | SpindleOn => Some (Ok (EMC_SPINDLE_ON (integer c) (number c) (flag (boolean c))))
  | SpindleIncrease => Some (Ok (EMC_SPINDLE_INCREASE (integer c)))
  | SpindleDecrease => Some (Ok (EMC_SPINDLE_DECREASE (integer c)))
  | SpindleOff => Some (Ok (EMC_SPINDLE_OFF (integer c)))
  | SpindleBrake =>
      Some (Ok (if boolean c then EMC_SPINDLE_BRAKE_ENGAGE (integer c)
                else EMC_SPINDLE_BRAKE_RELEASE (integer c)))
  | SetMist => Some (Ok (if boolean c then EMC_COOLANT_MIST_ON else EMC_COOLANT_MIST_OFF))
  | SetFlood =>
      Some (Ok (if boolean c then EMC_COOLANT_FLOOD_ON else EMC_COOLANT_FLOOD_OFF))
  | _ => None
  end.

(** [n == 9 ? 0x1ff : (1 << n) - 1]. *)
Definition axes_mask (n : nat) : Z :=
  if (n =? 9)%nat then 511 else Z.shiftl 1 (Z.of_nat n) - 1.

Definition field_if (b : bool) (mask fields : Z) : Z := if b then Z.lor fields mask else fields.

(** The [fields |= ...] assignments of the [SetTool] case. *)
Definition tool_fields (t : NmlToolEntry) : Z :=
  field_if (has_comment t) EMC_TOOL_UPDATE_COMMENT
  (field_if (has_orientation t) EMC_TOOL_UPDATE_ORIENTATION
  (field_if (has_back_angle t) EMC_TOOL_UPDATE_BACKANGLE
  (field_if (has_front_angle t) EMC_TOOL_UPDATE_FRONTANGLE
  (field_if (has_diameter t) EMC_TOOL_UPDATE_DIAMETER
  (field_if (has_wear_offset t) EMC_TOOL_UPDATE_WEAR_OFFSET
  (field_if (has_offset t) EMC_TOOL_UPDATE_OFFSET
  (field_if (has_pocket_no t) EMC_TOOL_UPDATE_POCKET 0))))))).

(** The [SetTool] case: the default-constructed message with the supplied
    fields and their bits. *)
Definition tool_update (t : NmlToolEntry) : ToolUpdate :=
  mkToolUpdate (tool_no t)
    (if has_pocket_no t then pocket_no t else 0)
    (tool_fields t)
    (if has_offset t then axes_mask (offset_values t) else 0)
    (if has_wear_offset t then axes_mask (wear_offset_values t) else 0)
    (to_emc_pose (offset t))
    (to_emc_pose (wear_offset t))
    (if has_diameter t then diameter t else f64_zero)
    (if has_front_angle t then front_angle t else f64_zero)
    (if has_back_angle t then back_angle t else f64_zero)
    (if has_orientation t then orientation t else 0)
    (let empty := replicate canon_tool_comment_size NUL in
     if has_comment t
     then strncpy empty (bytes (comment t)) (canon_tool_comment_size - 1)
     else empty).

(** The tool cases; of the file array of [EMC_TOOL_LOAD_TOOL_TABLE] only the
    leading terminator is written. *)
Definition tool_message (c : NmlCommand) : option (outcome string RCS_CMD_MSG) :=
  match kind c with
  | LoadToolTable => Some (Ok (EMC_TOOL_LOAD_TOOL_TABLE [NUL]))
  | SetTool => Some (Ok (EMC_TOOL_UPDATE (tool_update (tool c))))
  | DeleteTool => Some (Ok (EMC_TOOL_DELETE (integer c)))
  | _ => None
  end.

(** [static_cast<unsigned char>]. *)
Definition u8_wrap (z : Z) : Z := z mod 256.

(** The output, debug and operator message cases. *)
Definition output_message (c : NmlCommand) : option (outcome string RCS_CMD_MSG) :=
  match kind c with
  | SetDigitalOutput =>
      Some (if (integer c <? 0) || (kDigitalOutputLimit <=? integer c)
            then Err "digital output index is out of range"%string
            else Ok (EMC_MOTION_SET_DOUT (u8_wrap (integer c)) (flag (boolean c))
                       (flag (boolean c)) 1))
  | SetAnalogOutput =>
      Some (if (integer c <? 0) || (kAnalogOutputLimit <=? integer c)
            then Err "analog output index is out of range"%string
            else Ok (EMC_MOTION_SET_AOUT (u8_wrap (integer c)) (number c) (number c) 1))
  | SetDebugLevel => Some (Ok (EMC_SET_DEBUG (u32_wrap (Z.max 0 (integer c)))))
  | SendOperatorError =>
      Some (text_message sizeof_operator_error "operator message too long"
              EMC_OPERATOR_ERROR (text c))
  | SendOperatorText =>
      Some (text_message sizeof_operator_text "operator message too long"
              EMC_OPERATOR_TEXT (text c))
  | SendOperatorDisplay =>
      Some (text_message sizeof_operator_display "operator message too long"
              EMC_OPERATOR_DISPLAY (text c))
  | _ => None
  end.

Definition or_else {A} (a b : option A) : option A :=
  match a with Some _ => a | None => b end.

(** The whole switch; an unhandled kind leaves no message. *)
Definition build_message (c : NmlCommand) : outcome string RCS_CMD_MSG :=
  match or_else (task_message c) (or_else (trajectory_message c)
          (or_else (machine_message c) (or_else (tool_message c) (output_message c)))) with
  | Some m => m
  | None => Err "unsupported LinuxCNC command"%string
  end.

(** The guard of [Task::emcToolUpdate], up to the point where it consults the
    tool table; [tooltable_filename] is set in a configured task. *)
Definition bit (z mask : Z) : bool := negb (Z.land z mask =? 0).

Definition axes_finite (axes : Z) (pose : EmcPose) : bool :=
  forallb (fun '(axis, v) => negb (bit axes (Z.shiftl 1 (Z.of_nat axis))) || f64_isfinite v)
    (combine (seq 0 9) (from_emc_pose pose)).

Definition emcToolUpdate_guard (u : ToolUpdate) : bool :=
  match c_string (u_comment u) with
  | None => false
  | Some text =>
      negb ((u_toolno u <=? 0)
        || bit (u_fields u) (Z.lnot 255)
        || (u_orientation u <? 0) || (9 <? u_orientation u)
        || bit (u_offset_axes u) (Z.lnot 511) || bit (u_wear_offset_axes u) (Z.lnot 511)
        || existsb (Ascii.eqb Validation.newline) text
        || existsb (Ascii.eqb Validation.carriage_return) text)
      && negb (bit (u_fields u) EMC_TOOL_UPDATE_DIAMETER
               && (negb (f64_isfinite (u_diameter u)) || f64_lt (u_diameter u) f64_zero))
      && negb (bit (u_fields u) EMC_TOOL_UPDATE_FRONTANGLE
               && negb (f64_isfinite (u_frontangle u)))
      && negb (bit (u_fields u) EMC_TOOL_UPDATE_BACKANGLE
               && negb (f64_isfinite (u_backangle u)))
      && axes_finite (u_offset_axes u) (u_offset u)
      && axes_finite (u_wear_offset_axes u) (u_wear_offset u)
      && negb (bit (u_fields u) EMC_TOOL_UPDATE_POCKET
               && ((u_pocket u <=? 0) || (canon_pockets_max <=? u_pocket u)))
  end.

End Build.

End Message.

(** * Requests *)
Module Request.
Import Command.

(** [optional] protobuf fields; [Position] is its repeated [values]. *)
Record ToolEntry := mkToolEntry {
  te_tool_no : Z;
  te_pocket_no : option Z;
  te_offset : option (list f64);
  te_wear_offset : option (list f64);
  te_diameter : option f64;
  te_front_angle : option f64;
  te_back_angle : option f64;
  te_orientation : option Z;
  te_comment : option string;
}.

(** The [command] oneof of [ExecuteCommandRequest]; [CommandNotSet] is the
    unset (or unknown) case.  Protobuf enums are open, so they are integers. *)
Inductive RequestCommand :=
| SetTaskModeR (mode : Z) | SetStateR (state : Z) | TaskPlanSynchR | ResetInterpreterR
| ProgramOpenR (workspace_id relative_path : string) | ProgramCloseR
| RunProgramR (start_line : Z) | PauseProgramR | ResumeProgramR | StepProgramR
| ReverseProgramR | ForwardProgramR | StopProgramR | AbortTaskR
| SetOptionalStopR (enable : bool) | SetBlockDeleteR (enable : bool) | MdiR (command : string)
| SetTrajModeR (mode : Z) | SetMaxVelocityR (velocity : f64) | SetFeedRateR (scale : f64)
| SetRapidRateR (scale : f64) | SetSpindleOverrideR (scale : f64) (spindle_index : Z)
| OverrideLimitsR | TeleopEnableR (enable : bool) | SetFeedOverrideEnableR (enable : bool)
| SetSpindleOverrideEnableR (enable : bool) | SetFeedHoldEnableR (enable : bool)
| SetAdaptiveFeedEnableR (enable : bool)
| SetJointAvailabilityR (joint_index : Z) (available : bool)
| SetSpindleAvailabilityR (spindle_index : Z) (available : bool)
| HomeJointR (joint_index : Z) | UnhomeJointR (joint_index : Z)
| SetMinPositionLimitR (joint_index : Z) (limit : f64)
| SetMaxPositionLimitR (joint_index : Z) (limit : f64)
| SpindleOnR (speed : f64) (spindle_index : Z) (wait_for_speed : option bool)
| SpindleIncreaseR (spindle_index : Z) | SpindleDecreaseR (spindle_index : Z)
| SpindleOffR (spindle_index : Z) | SpindleBrakeR (engage : bool) (spindle_index : Z)
| SetMistR (on : bool) | SetFloodR (on : bool) | LoadToolTableR
| SetToolR (tool : option ToolEntry) | DeleteToolR (tool_no : Z)
| SetDigitalOutputR (index : Z) (value : bool) | SetAnalogOutputR (index : Z) (value : f64)
| SetDebugLevelR (level : Z) | SendOperatorErrorR (message : string)
| SendOperatorTextR (message : string) | SendOperatorDisplayR (message : string)
| CommandNotSet.

Inductive StatusCode := OK | INVALID_ARGUMENT | RESOURCE_EXHAUSTED | UNAVAILABLE
                      | INTERNAL | CANCELLED.
Record Status := mkStatus { code : StatusCode; message : string }.

Definition Invalid {A} (m : string) : outcome Status A := Err (mkStatus INVALID_ARGUMENT m).

(** [command.kind = k] on a default-constructed command, and the assignments
    of its other fields. *)
Definition plain (k : NmlCommandKind) : NmlCommand :=
  mkCommand k 0 f64_zero false EmptyString EmptyString default_tool.
Definition with_integer (k : NmlCommandKind) (i : Z) : NmlCommand :=
  mkCommand k i f64_zero false EmptyString EmptyString default_tool.
Definition with_boolean (k : NmlCommandKind) (b : bool) : NmlCommand :=
  mkCommand k 0 f64_zero b EmptyString EmptyString default_tool.
Definition with_number (k : NmlCommandKind) (x : f64) : NmlCommand :=
  mkCommand k 0 x false EmptyString EmptyString default_tool.
Definition with_text (k : NmlCommandKind) (s : string) : NmlCommand :=
  mkCommand k 0 f64_zero false s EmptyString default_tool.
Definition indexed (k : NmlCommandKind) (i : Z) (x : f64) (b : bool) : NmlCommand :=
  mkCommand k i x b EmptyString EmptyString default_tool.

(** The copy loop of [SetTool]: the first nine values, zeros behind them. *)
Definition copy_pose (values : list f64) : NmlPose :=
  take pose_size values ++ replicate (pose_size - length values) f64_zero.

Definition is_set {A} (o : option A) : bool := match o with Some _ => true | None => false end.

Definition translate_tool (t : ToolEntry) : outcome Status NmlCommand :=
  let offset_of := default [] (te_offset t) in
  let wear_of := default [] (te_wear_offset t) in
  if (9 <? length offset_of)%nat || (9 <? length wear_of)%nat
  then Invalid "tool offsets must contain at most 9 axes"
  else Ok (mkCommand SetTool 0 f64_zero false EmptyString EmptyString
    (mkTool (te_tool_no t) (default 0 (te_pocket_no t))
       (copy_pose offset_of) (copy_pose wear_of)
       (Nat.min (length offset_of) 9) (Nat.min (length wear_of) 9)
       (default f64_zero (te_diameter t)) (default f64_zero (te_front_angle t))
       (default f64_zero (te_back_angle t)) (default 0 (te_orientation t))
       (default EmptyString (te_comment t))
       (is_set (te_pocket_no t)) (is_set (te_offset t)) (is_set (te_wear_offset t))
       (is_set (te_diameter t)) (is_set (te_front_angle t)) (is_set (te_back_angle t))
       (is_set (te_orientation t)) (is_set (te_comment t)))).

Section Translate.
(** The [ProgramOpen] case pins, stages and resolves the workspace entry; its
    outcome here is the path it puts in the command, or the status it returns. *)
Context (open_entry : string -> string -> outcome Status string).

(** The first half of the switch of [submit_command]: task, program and
    trajectory commands. *)
Definition translate_task (r : RequestCommand) : option (outcome Status NmlCommand) :=
  match r with
  | SetTaskModeR mode => Some (Ok (with_integer SetTaskMode mode))
  | SetStateR state => Some (Ok (with_integer SetTaskState state))
  | TaskPlanSynchR => Some (Ok (plain TaskPlanSynch))
  | ResetInterpreterR => Some (Ok (plain ResetInterpreter))
  | ProgramOpenR ws rel =>
      Some (p ← open_entry ws rel;
            Ok (mkCommand ProgramOpen 0 f64_zero false EmptyString p default_tool))
  | ProgramCloseR => Some (Ok (plain ProgramClose))
  | RunProgramR line => Some (Ok (with_integer Run line))
  | PauseProgramR => Some (Ok (plain Pause))
  | ResumeProgramR => Some (Ok (plain Resume))
  | StepProgramR => Some (Ok (plain Step))
  | ReverseProgramR => Some (Ok (plain Reverse))
  | ForwardProgramR => Some (Ok (plain Forward))
  | StopProgramR => Some (Ok (plain StopProgram))
  | AbortTaskR => Some (Ok (plain AbortTask))
  | SetOptionalStopR b => Some (Ok (with_boolean SetOptionalStop b))
  | SetBlockDeleteR b => Some (Ok (with_boolean SetBlockDelete b))
  | MdiR s => Some (Ok (with_text Mdi s))
  | SetTrajModeR mode => Some (Ok (with_integer SetTrajMode mode))
  | SetMaxVelocityR v => Some (Ok (with_number SetMaxVelocity v))
  | SetFeedRateR s => Some (Ok (with_number SetFeedRate s))
  | SetRapidRateR s => Some (Ok (with_number SetRapidRate s))
  | SetSpindleOverrideR s i => Some (Ok (indexed SetSpindleOverride i s false))
  | OverrideLimitsR => Some (Ok (plain OverrideLimits))
  | TeleopEnableR b => Some (Ok (with_boolean TeleopEnable b))
  | SetFeedOverrideEnableR b => Some (Ok (with_boolean SetFeedOverrideEnable b))
  | SetSpindleOverrideEnableR b => Some (Ok (with_boolean SetSpindleOverrideEnable b))
  | SetFeedHoldEnableR b => Some (Ok (with_boolean SetFeedHoldEnable b))
  | SetAdaptiveFeedEnableR b => Some (Ok (with_boolean SetAdaptiveFeedEnable b))
  | _ => None
  end.

(** The second half: joints, spindles, coolant, tools, outputs, messages. *)
Definition translate_machine (r : RequestCommand) : option (outcome Status NmlCommand) :=
  match r with
  | SetJointAvailabilityR j b => Some (Ok (indexed SetJointAvailability j f64_zero b))
  | SetSpindleAvailabilityR s b => Some (Ok (indexed SetSpindleAvailability s f64_zero b))
  | HomeJointR j => Some (Ok (with_integer HomeJoint j))
  | UnhomeJointR j => Some (Ok (with_integer UnhomeJoint j))
  | SetMinPositionLimitR j x => Some (Ok (indexed SetMinPositionLimit j x false))
  | SetMaxPositionLimitR j x => Some (Ok (indexed SetMaxPositionLimit j x false))
  | SpindleOnR speed i wait =>
      Some (Ok (indexed SpindleOn i speed (negb (is_set wait) || default false wait)))
  | SpindleIncreaseR i => Some (Ok (with_integer SpindleIncrease i))
  | SpindleDecreaseR i => Some (Ok (with_integer SpindleDecrease i))
  | SpindleOffR i => Some (Ok (with_integer SpindleOff i))
  | SpindleBrakeR b i => Some (Ok (indexed SpindleBrake i f64_zero b))
  | SetMistR b => Some (Ok (with_boolean SetMist b))
  | SetFloodR b => Some (Ok (with_boolean SetFlood b))
  | LoadToolTableR => Some (Ok (plain LoadToolTable))
  | SetToolR None => Some (Invalid "set_tool.tool is required")
  | SetToolR (Some t) => Some (translate_tool t)
  | DeleteToolR n => Some (Ok (with_integer DeleteTool n))
  | SetDigitalOutputR i b =>
      Some (if (i <? 0) || (Message.kDigitalOutputLimit <=? i)
            then Invalid "digital output index is out of range"
            else Ok (indexed SetDigitalOutput i f64_zero b))
  | SetAnalogOutputR i x =>
      Some (if (i <? 0) || (Message.kAnalogOutputLimit <=? i)
            then Invalid "analog output index is out of range"
            else Ok (indexed SetAnalogOutput i x false))
  | SetDebugLevelR level => Some (Ok (with_integer SetDebugLevel level))
  | SendOperatorErrorR s => Some (Ok (with_text SendOperatorError s))
  | SendOperatorTextR s => Some (Ok (with_text SendOperatorText s))
  | SendOperatorDisplayR s => Some (Ok (with_text SendOperatorDisplay s))
  | _ => None
  end.

Definition translate (r : RequestCommand) : outcome Status NmlCommand :=
  match Message.or_else (translate_task r) (translate_machine r) with
  | Some c => c
  | None => Invalid "execute_command requires a supported command oneof"
  end.

(** The statuses of a failed validation. *)
Definition validated (c : NmlCommand) (configuration : option NmlStatusSnapshot) :
    outcome Status NmlCommand :=
  match Validation.validate_nml_command c configuration with
  | Err (Validation.StatusUnavailable m) => Err (mkStatus UNAVAILABLE m)
  | Err (Validation.InvalidArgument m) => Invalid m
  | Ok _ => Ok c
  end.

(** [submit_command] up to the submission: the command handed to the adapter. *)
Definition accepted_command (r : RequestCommand) (configuration : option NmlStatusSnapshot) :
    outcome Status NmlCommand :=
  c ← translate r; validated c configuration.

End Translate.

End Request.

(** * Correctness of the command path *)
Module CommandPath.
Import Command Message Request.

(** ** Text buffers *)

Lemma length_strncpy (dst : list ascii) (src : list ascii) n :
  length (strncpy dst src n) = length dst.
Proof.
  revert dst src. induction n as [|n IH]; intros [|d dst] src; try done. cbn.
  destruct src as [|c src]; [|destruct (Ascii.eqb c NUL)]; cbn; by rewrite IH.
Qed.

Lemma length_c_str (src : list ascii) : (length (c_str src) <= length src)%nat.
Proof. induction src as [|c src IH]; cbn; [done|]. destruct (Ascii.eqb c NUL); cbn; lia. Qed.

Lemma c_string_terminated (dst : list ascii) (src : list ascii) n :
  (n < length dst)%nat -> c_string (<[n := NUL]> (strncpy dst src n)) = Some (take n (c_str src)).
Proof.
  revert dst src. induction n as [|n IH]; intros [|d dst] src Hn; cbn in Hn; try lia; [done|].
  cbn. destruct src as [|c src]; cbn; [done|].
  destruct (Ascii.eqb c NUL) eqn:Ec; cbn; [done|]. rewrite Ec, IH by lia. done.
Qed.

Lemma strncpy_keeps (dst : list ascii) (src : list ascii) n :
  strncpy dst src n !! n = dst !! n.
Proof.
  revert dst src. induction n as [|n IH]; intros [|d dst] src; try done. cbn.
  destruct src as [|c src]; [|destruct (Ascii.eqb c NUL)]; cbn; apply IH.
Qed.

Lemma c_string_strncpy size (src : list ascii) :
  (length src < size)%nat ->
  c_string (strncpy (replicate size NUL) src (size - 1)) = Some (c_str src).
Proof.
  intros H. pose proof (length_c_str src).
  rewrite <- (list_insert_id (strncpy _ _ _) (size - 1) NUL).
  - rewrite c_string_terminated by (rewrite length_replicate; lia).
    by rewrite take_ge by lia.
  - rewrite strncpy_keeps. apply lookup_replicate_2. lia.
Qed.

Lemma length_bytes s : length (bytes s) = String.length s.
Proof. unfold bytes. induction s; cbn; lia. Qed.

Lemma contains_existsb c s :
  Validation.contains c s = false -> existsb (Ascii.eqb c) (c_str (bytes s)) = false.
Proof.
  unfold bytes. induction s as [|d s IH]; cbn; [done|]. intros [H1 H2]%orb_false_iff.
  destruct (Ascii.eqb d NUL); cbn; [done|]. rewrite H1. by apply IH.
Qed.

(** ** Tool updates *)

Lemma tool_fields_bits t :
  bit (tool_fields t) (Z.lnot 255) = false
  /\ bit (tool_fields t) EMC_TOOL_UPDATE_POCKET = has_pocket_no t
  /\ bit (tool_fields t) EMC_TOOL_UPDATE_OFFSET = has_offset t
  /\ bit (tool_fields t) EMC_TOOL_UPDATE_WEAR_OFFSET = has_wear_offset t
  /\ bit (tool_fields t) EMC_TOOL_UPDATE_DIAMETER = has_diameter t
  /\ bit (tool_fields t) EMC_TOOL_UPDATE_FRONTANGLE = has_front_angle t
  /\ bit (tool_fields t) EMC_TOOL_UPDATE_BACKANGLE = has_back_angle t
  /\ bit (tool_fields t) EMC_TOOL_UPDATE_ORIENTATION = has_orientation t
  /\ bit (tool_fields t) EMC_TOOL_UPDATE_COMMENT = has_comment t.
Proof.
  unfold tool_fields.
  destruct (has_pocket_no t), (has_offset t), (has_wear_offset t), (has_diameter t),
    (has_front_angle t), (has_back_angle t), (has_orientation t), (has_comment t);
    split_and!; reflexivity.
Qed.

Lemma axes_mask_bound n : (n <= 9)%nat -> bit (axes_mask n) (Z.lnot 511) = false.
Proof. intros H. do 10 (destruct n as [|n]; [done|]). lia. Qed.

Lemma axes_mask_ones n : axes_mask n = Z.ones (Z.of_nat n).
Proof.
  unfold axes_mask. rewrite Z.ones_equiv, Z.shiftl_1_l. case_match eqn:E; [|lia].
  apply Nat.eqb_eq in E. by subst.
Qed.

Lemma axes_mask_bits n i :
  bit (axes_mask n) (Z.shiftl 1 (Z.of_nat i)) = bool_decide (i < n)%nat.
Proof.
  unfold bit. rewrite axes_mask_ones, Z.shiftl_1_l.
  destruct (Z.eqb_spec (Z.land (Z.ones (Z.of_nat n)) (2 ^ Z.of_nat i)) 0) as [E|E]; cbn.
  - symmetry. apply bool_decide_eq_false. intros Hi.
    assert (Ht : Z.testbit (Z.land (Z.ones (Z.of_nat n)) (2 ^ Z.of_nat i)) (Z.of_nat i) = true).
    { rewrite Z.land_spec, Z.ones_spec_low, Z.pow2_bits_true by lia. done. }
    by rewrite E, Z.testbit_0_l in Ht.
  - symmetry. apply bool_decide_eq_true. destruct (decide (i < n)%nat) as [|Hi]; [done|].
    exfalso. apply E. apply Z.bits_inj'. intros k Hk. rewrite Z.land_spec, Z.testbit_0_l.
    destruct (decide (k = Z.of_nat i)) as [->|Hne].
    + by rewrite Z.ones_spec_high by lia.
    + rewrite Z.pow2_bits_false by lia. apply andb_false_r.
Qed.

Lemma finite_ok x field u : Validation.finite x field = Ok u -> f64_isfinite x = true.
Proof. unfold Validation.finite. by destruct (f64_isfinite x). Qed.

Lemma nonnegative_ok x field u :
  Validation.nonnegative x field = Ok u -> f64_isfinite x = true /\ f64_lt x f64_zero = false.
Proof.
  unfold Validation.nonnegative. intros (? & H%finite_ok & H2)%outcome_bind_ok.
  by destruct (f64_lt x f64_zero).
Qed.

Lemma configured_index_ok i n field u :
  Validation.configured_index i n field = Ok u -> 0 <= i < n.
Proof.
  unfold Validation.configured_index. case_match eqn:E; [done|]. bool_to_prop. intros _. lia.
Qed.

Lemma configured_ok cfg k u :
  Validation.configured cfg k = Ok u -> exists s, cfg = Some s /\ k s = Ok u.
Proof. destruct cfg as [s|]; [|done]. by exists s. Qed.

Lemma all_finite_ok l field u :
  Validation.all_finite l field = Ok u -> Forall (fun x => f64_isfinite x = true) l.
Proof.
  induction l as [|x l IH]; cbn; [constructor|].
  intros (? & H%finite_ok & H2)%outcome_bind_ok. constructor; auto.
Qed.

Lemma when_ok b c u : Validation.when b c = Ok u -> b = true -> c = Ok u.
Proof. by intros H ->. Qed.

Lemma when_invalid_ok b m u : Validation.when b (Validation.invalid m) = Ok u -> b = false.
Proof. by destruct b. Qed.

(** What [validate_tool] establishes. *)
Record tool_valid (t : NmlToolEntry) : Prop := mkToolValid {
  tv_number : 0 < tool_no t;
  tv_pocket : has_pocket_no t = true -> 1 <= pocket_no t <= 1000;
  tv_axes : (offset_values t <= 9 /\ wear_offset_values t <= 9)%nat;
  tv_offset : has_offset t = true ->
    Forall (fun x => f64_isfinite x = true) (take (offset_values t) (offset t));
  tv_wear : has_wear_offset t = true ->
    Forall (fun x => f64_isfinite x = true) (take (wear_offset_values t) (wear_offset t));
  tv_diameter : has_diameter t = true ->
    f64_isfinite (diameter t) = true /\ f64_lt (diameter t) f64_zero = false;
  tv_front : has_front_angle t = true -> f64_isfinite (front_angle t) = true;
  tv_back : has_back_angle t = true -> f64_isfinite (back_angle t) = true;
  tv_orientation : has_orientation t = true -> 0 <= orientation t <= 9;
  tv_comment : has_comment t = true ->
    (String.length (comment t) < 40)%nat
    /\ Validation.contains Validation.newline (comment t) = false
    /\ Validation.contains Validation.carriage_return (comment t) = false;
}.

Lemma validate_tool_ok t u : Validation.validate_tool t = Ok u -> tool_valid t.
Proof.
  unfold Validation.validate_tool.
  intros (? & H1%when_invalid_ok & H)%outcome_bind_ok.
  apply outcome_bind_ok in H as (? & H2%when_invalid_ok & H).
  apply outcome_bind_ok in H as (? & H3%when_invalid_ok & H).
  apply outcome_bind_ok in H as (? & H4 & H).
  apply outcome_bind_ok in H as (? & H5 & H).
  apply outcome_bind_ok in H as (? & H6 & H).
  apply outcome_bind_ok in H as (? & H7 & H).
  apply outcome_bind_ok in H as (? & H8 & H).
  apply outcome_bind_ok in H as (? & H9%when_invalid_ok & H10%when_invalid_ok).
  unfold pose_size in *. constructor.
  - bool_to_prop. lia.
  - intros Hh. rewrite Hh, andb_true_l in H2. bool_to_prop. lia.
  - bool_to_prop. lia.
  - intros Hh. by eapply all_finite_ok, when_ok.
  - intros Hh. by eapply all_finite_ok, when_ok.
  - intros Hh. by eapply nonnegative_ok, when_ok.
  - intros Hh. by eapply finite_ok, when_ok.
  - intros Hh. by eapply finite_ok, when_ok.
  - intros Hh. rewrite Hh, andb_true_l in H9. bool_to_prop. lia.
  - intros Hh. rewrite Hh, andb_true_l in H10. bool_to_prop. split_and!; try done; lia.
Qed.

Lemma axes_finite_prefix n pose :
  length pose = pose_size -> (n <= 9)%nat ->
  Forall (fun x => f64_isfinite x = true) (take n pose) ->
  axes_finite (axes_mask n) (to_emc_pose pose) = true.
Proof.
  intros Hl Hn HF. unfold axes_finite. apply forallb_forall. intros [i v] Hin.
  rewrite axes_mask_bits. case_bool_decide as Hi; [cbn|done].
  do 9 (destruct pose as [|? pose]; [done|]). destruct pose; [|done]. clear Hl.
  rewrite Forall_lookup in HF. apply (HF i). rewrite lookup_take_lt by done.
  cbn in Hin. repeat destruct Hin as [[= <- <-]|Hin]; try done.
Qed.

Lemma axes_finite_none pose : axes_finite 0 (to_emc_pose pose) = true.
Proof. done. Qed.

Lemma emc_pose_roundtrip pose :
  length pose = pose_size -> from_emc_pose (to_emc_pose pose) = pose.
Proof. intros Hl. do 9 (destruct pose as [|? pose]; [done|]). by destruct pose. Qed.

Section WithLayout.
Context {E : EmcNml} {L : EmcNmlLaws E}.

Lemma tool_comment_text t :
  tool_valid t ->
  c_string (u_comment (tool_update t)) =
  Some (if has_comment t then c_str (bytes (comment t)) else []).
Proof.
  intros H. unfold tool_update. cbn [u_comment]. rewrite tool_comment_capacity.
  destruct (has_comment t) eqn:Hc; [|done].
  apply (tv_comment t H) in Hc as (? & _). apply (c_string_strncpy 40).
  by rewrite length_bytes.
Qed.

Lemma tool_update_guard_ok t :
  tool_valid t -> length (offset t) = pose_size -> length (wear_offset t) = pose_size ->
  emcToolUpdate_guard (tool_update t) = true.
Proof.
  intros H Ho Hw. unfold emcToolUpdate_guard. rewrite (tool_comment_text t H).
  change (u_fields (tool_update t)) with (tool_fields t).
  destruct (tool_fields_bits t) as (-> & -> & _ & _ & -> & -> & -> & _ & _).
  destruct H as [Hn Hp [Ha1 Ha2] Hof Hwf Hd Hf Hb Hor Hcm].
  unfold tool_update. cbn [u_toolno u_orientation u_offset_axes u_wear_offset_axes u_offset
    u_wear_offset u_diameter u_frontangle u_backangle u_pocket].
  rewrite pockets_capacity.
  rewrite !andb_true_iff, !negb_true_iff. split_and!.
  - rewrite !orb_false_iff. split_and!.
    + lia.
    + done.
    + destruct (has_orientation t); [specialize (Hor eq_refl)|]; lia.
    + destruct (has_orientation t); [specialize (Hor eq_refl)|]; lia.
    + destruct (has_offset t); [by apply axes_mask_bound|done].
    + destruct (has_wear_offset t); [by apply axes_mask_bound|done].
    + destruct (has_comment t); [|done]. by apply contains_existsb, Hcm.
    + destruct (has_comment t); [|done]. by apply contains_existsb, Hcm.
  - destruct (has_diameter t); [|done]. by destruct (Hd eq_refl) as [-> ->].
  - destruct (has_front_angle t); [|done]. by rewrite Hf.
  - destruct (has_back_angle t); [|done]. by rewrite Hb.
  - destruct (has_offset t); [|done]. by apply axes_finite_prefix; auto.
  - destruct (has_wear_offset t); [|done]. by apply axes_finite_prefix; auto.
  - destruct (has_pocket_no t); [specialize (Hp eq_refl)|done]. cbn. lia.
Qed.

End WithLayout.

(** ** What may reach LinuxCNC *)

Definition nonneg_finite (x : f64) : Prop := f64_isfinite x = true /\ f64_lt x f64_zero = false.

(** [index] is one the running configuration has. *)
Definition configured_below (count : NmlStatusSnapshot -> Z)
    (configuration : option NmlStatusSnapshot) (index : Z) : Prop :=
  exists s, configuration = Some s /\ 0 <= index < count s.

Definition terminated (b : list ascii) : Prop := is_Some (c_string b).

(** The contract of the NML channel: physical values are finite, overrides and
    velocities are not negative, indices exist on the running machine, outputs
    are immediate and in range, texts are terminated, tool updates pass the
    receiver's guard. *)
Definition message_ok {E : EmcNml} (cfg : option NmlStatusSnapshot) (m : RCS_CMD_MSG) : Prop :=
  match m with
  | EMC_TRAJ_SET_MAX_VELOCITY x | EMC_TRAJ_SET_SCALE x | EMC_TRAJ_SET_RAPID_SCALE x =>
      nonneg_finite x
  | EMC_TRAJ_SET_SPINDLE_SCALE x s => nonneg_finite x /\ configured_below spindles cfg s
  | EMC_SPINDLE_ON s x _ => f64_isfinite x = true /\ configured_below spindles cfg s
  | EMC_SPINDLE_INCREASE s | EMC_SPINDLE_DECREASE s | EMC_SPINDLE_OFF s
  | EMC_SPINDLE_BRAKE_ENGAGE s | EMC_SPINDLE_BRAKE_RELEASE s
  | EMC_SPINDLE_SET_AVAILABILITY s _ => configured_below spindles cfg s
  | EMC_JOINT_SET_AVAILABILITY j _ => configured_below joints cfg j
  | EMC_JOINT_HOME j => j = -1 \/ configured_below joints cfg j
  | EMC_JOINT_UNHOME j => j = -1 \/ j = -2 \/ configured_below joints cfg j
  | EMC_JOINT_SET_MIN_POSITION_LIMIT j x | EMC_JOINT_SET_MAX_POSITION_LIMIT j x =>
      f64_isfinite x = true /\ configured_below joints cfg j
  | EMC_TOOL_UPDATE u => emcToolUpdate_guard u = true
  | EMC_TOOL_DELETE n => 0 < n
  | EMC_MOTION_SET_DOUT i start end_ now =>
      0 <= i < kDigitalOutputLimit /\ start = end_ /\ now = 1
  | EMC_MOTION_SET_AOUT i start end_ now =>
      0 <= i < kAnalogOutputLimit /\ start = end_ /\ f64_isfinite start = true /\ now = 1
  | EMC_SET_DEBUG d => 0 <= d < 2 ^ 31
  | EMC_TASK_PLAN_OPEN b | EMC_TASK_PLAN_EXECUTE b | EMC_OPERATOR_ERROR b
  | EMC_OPERATOR_TEXT b | EMC_OPERATOR_DISPLAY b | EMC_TOOL_LOAD_TOOL_TABLE b => terminated b
  | _ => True
  end.

(** The [int32] (or enum) field of a request that becomes [command.integer]. *)
Definition wire_integer (r : RequestCommand) : Z :=
  match r with
  | SetTaskModeR i | SetStateR i | RunProgramR i | SetTrajModeR i
  | SetSpindleOverrideR _ i | SetJointAvailabilityR i _ | SetSpindleAvailabilityR i _
  | HomeJointR i | UnhomeJointR i | SetMinPositionLimitR i _ | SetMaxPositionLimitR i _
  | SpindleOnR _ i _ | SpindleIncreaseR i | SpindleDecreaseR i | SpindleOffR i
  | SpindleBrakeR _ i | DeleteToolR i | SetDigitalOutputR i _ | SetAnalogOutputR i _
  | SetDebugLevelR i => i
  | _ => 0
  end.

Lemma f64_max_zero_nonneg x :
  f64_isfinite x = true -> f64_lt x f64_zero = false -> nonneg_finite (f64_max f64_zero x).
Proof.
  intros H1 H2. unfold f64_max. destruct (f64_lt f64_zero x); by split.
Qed.

Lemma length_copy_pose l : length (copy_pose l) = pose_size.
Proof.
  unfold copy_pose, pose_size. rewrite length_app, length_take, length_replicate. lia.
Qed.

Lemma translate_pose_sizes open r c :
  translate open r = Ok c ->
  length (offset (tool c)) = pose_size /\ length (wear_offset (tool c)) = pose_size.
Proof.
  unfold translate. destruct r; cbn [translate_task translate_machine or_else]; intros H;
    try by simplify_eq/=.
  - apply outcome_bind_ok in H as (? & _ & [= <-]). done.
  - match goal with o : option ToolEntry |- _ => destruct o as [t|]; [|done] end.
    cbn [translate_machine or_else] in H.
    unfold translate_tool in H. case_match; [done|]. simplify_eq.
    cbn [Command.tool offset wear_offset]. split; apply length_copy_pose.
  - case_match; by simplify_eq/=.
  - case_match; by simplify_eq/=.
Qed.

Lemma translate_integer open r c : translate open r = Ok c -> integer c = wire_integer r.
Proof.
  unfold translate. destruct r; cbn [translate_task translate_machine or_else]; intros H;
    try by simplify_eq/=.
  - by apply outcome_bind_ok in H as (? & _ & [= <-]).
  - match goal with o : option ToolEntry |- _ => destruct o as [t|]; [|done] end.
    cbn [translate_machine or_else] in H. unfold translate_tool in H. case_match; by simplify_eq.
  - case_match; by simplify_eq/=.
  - case_match; by simplify_eq/=.
Qed.

Lemma accepted_command_ok open r cfg c :
  accepted_command open r cfg = Ok c ->
  translate open r = Ok c /\ Validation.validate_nml_command c cfg = Ok tt.
Proof.
  unfold accepted_command, validated. intros (c' & Ht & Hv)%outcome_bind_ok.
  destruct (Validation.validate_nml_command c' cfg) as [[]|[]] eqn:Ev; by simplify_eq.
Qed.

(** A check that never reports a missing configuration. *)
Definition decided (x : outcome Validation.error unit) : Prop :=
  forall m, x <> Err (Validation.StatusUnavailable m).

Lemma decided_bind x y : decided x -> (forall u : unit, decided (y u)) -> decided (mbind y x).
Proof. intros Hx Hy m. destruct x as [u|e]; cbn; [apply Hy|apply Hx]. Qed.

Lemma decided_finite x field : decided (Validation.finite x field).
Proof. intros m. unfold Validation.finite. by destruct (f64_isfinite x). Qed.

Lemma decided_nonnegative x field : decided (Validation.nonnegative x field).
Proof.
  apply decided_bind; [apply decided_finite|]. intros _ m. by destruct (f64_lt x f64_zero).
Qed.

Lemma decided_index i n field : decided (Validation.configured_index i n field).
Proof. intros m. unfold Validation.configured_index. by case_match. Qed.

Lemma decided_all_finite l field : decided (Validation.all_finite l field).
Proof.
  induction l as [|x l IH]; [done|]. apply decided_bind; [apply decided_finite|]. done.
Qed.

Lemma decided_when b x : decided x -> decided (Validation.when b x).
Proof. by destruct b. Qed.

#[local] Hint Resolve decided_bind decided_finite decided_nonnegative decided_index
  decided_all_finite decided_when : lcnc.

Lemma decided_tool t : decided (Validation.validate_tool t).
Proof.
  unfold Validation.validate_tool. repeat (apply decided_bind; [|intros _]);
    apply decided_when; auto with lcnc; done.
Qed.

Lemma decided_command c s : decided (Validation.validate_nml_command c (Some s)).
Proof.
  unfold Validation.validate_nml_command, Validation.configured.
  destruct (kind c); auto using decided_tool with lcnc; try done.
  - case_match; [done|auto with lcnc].
  - case_match; [done|auto with lcnc].
  - by case_match.
Qed.

Lemma translate_refusal open r st :
  translate open r = Err st ->
  code st = INVALID_ARGUMENT
  \/ exists ws rel, r = ProgramOpenR ws rel /\ open ws rel = Err st.
Proof.
  unfold translate, Invalid. destruct r; cbn [translate_task translate_machine or_else]; intros H;
    try by simplify_eq; left.
  - destruct (open _ _) eqn:Eo; [done|]. right. simplify_eq/=. by do 2 eexists.
  - left. match goal with o : option ToolEntry |- _ => destruct o as [t|] end;
      cbn [translate_machine or_else] in H; unfold Invalid in H; [|by simplify_eq].
    unfold translate_tool, Invalid in H. case_match; by simplify_eq.
  - left. case_match; unfold Invalid in H; by simplify_eq.
  - left. case_match; unfold Invalid in H; by simplify_eq.
Qed.

Lemma translate_safety open r c :
  translate open r = Ok c -> safety_command (kind c) = true ->
  r ∈ [StopProgramR; PauseProgramR; AbortTaskR].
Proof.
  unfold translate. destruct r; cbn [translate_task translate_machine or_else]; intros H;
    try (simplify_eq; intros Hk; vm_compute in Hk; first [discriminate | by repeat constructor]).
  - by apply outcome_bind_ok in H as (? & _ & [= <-]).
  - match goal with o : option ToolEntry |- _ => destruct o as [t|]; [|done] end.
    cbn [translate_machine or_else] in H. unfold translate_tool in H. case_match; by simplify_eq.
  - case_match; by simplify_eq.
  - case_match; by simplify_eq.
Qed.

Section Safety.
Context {E : EmcNml} {L : EmcNmlLaws E}.

Lemma text_message_text size e make s m :
  text_message size e make s = Ok m ->
  (String.length s < size)%nat
  /\ exists b, m = make b /\ c_string b = Some (c_str (bytes s)).
Proof.
  unfold text_message. case_match eqn:Es; [done|]. apply Nat.leb_gt in Es.
  intros [= <-]. split; [done|]. eexists. split; [done|].
  rewrite fresh_buffer_cleared. apply c_string_strncpy. by rewrite length_bytes.
Qed.

Lemma program_open_text s m :
  program_open_message s = Ok m ->
  exists b, m = EMC_TASK_PLAN_OPEN b /\ length b = 255%nat
    /\ c_string b = Some (c_str (bytes s)).
Proof.
  unfold program_open_message. rewrite plan_open_file_capacity.
  case_match eqn:Es; [done|]. apply Nat.leb_gt in Es. intros [= <-].
  assert (Hl : length (fresh_buffer 255) = 255%nat)
    by by rewrite fresh_buffer_cleared, length_replicate.
  eexists. split_and!; [done| |].
  - by rewrite length_insert, length_strncpy.
  - rewrite c_string_terminated by (rewrite Hl; lia). rewrite take_ge; [done|].
    pose proof (length_c_str (bytes s)) as H. rewrite length_bytes in H.
    unfold kNmlProgramPathCapacity in Es. lia.
Qed.

(** The validator's answer, per message kind. *)
Lemma validated_message_ok cfg c m u :
  in_i32 (integer c) ->
  length (offset (tool c)) = pose_size -> length (wear_offset (tool c)) = pose_size ->
  Validation.validate_nml_command c cfg = Ok u -> build_message c = Ok m ->
  message_ok cfg m.
Proof.
  intros Hi Ho Hw Hv Hm. unfold build_message, task_message, trajectory_message,
    machine_message, tool_message, output_message in Hm.
  unfold Validation.validate_nml_command in Hv.
  destruct (kind c); cbn [or_else] in Hm; try (simplify_eq; exact I).
  all: try by apply text_message_text in Hm as (_ & b & -> & ?); exists (c_str (bytes (text c))).
  all: try by apply program_open_text in Hm as (b & -> & _ & ?); exists (c_str (bytes (path c))).
  all: try (apply nonnegative_ok in Hv as [??]; simplify_eq; cbn;
            first [by split | by apply f64_max_zero_nonneg]).
  all: try (apply configured_ok in Hv as (s & -> & Hv%configured_index_ok); simplify_eq;
            try destruct (boolean c); by exists s).
  all: try (apply outcome_bind_ok in Hv as (? & Hf%finite_ok & Hv);
            apply configured_ok in Hv as (s & -> & Hv%configured_index_ok); simplify_eq;
            split; [done|by exists s]).
  - apply outcome_bind_ok in Hv as (? & [??]%nonnegative_ok & Hv).
    apply configured_ok in Hv as (s & -> & Hv%configured_index_ok). simplify_eq.
    split; [by apply f64_max_zero_nonneg|by exists s].
  - apply configured_ok in Hv as (s & -> & Hv). simplify_eq. cbn.
    destruct (Z.eqb_spec (integer c) (-1)); [by left|right].
    apply configured_index_ok in Hv. by exists s.
  - apply configured_ok in Hv as (s & -> & Hv). simplify_eq. cbn.
    destruct (Z.eqb_spec (integer c) (-2)); [by right; left|].
    destruct (Z.eqb_spec (integer c) (-1)); [by left|].
    apply configured_index_ok in Hv. by do 2 right; exists s.
  - destruct (boolean c); by simplify_eq.
  - destruct (boolean c); by simplify_eq.
  - simplify_eq. by exists [].
  - simplify_eq. apply validate_tool_ok in Hv. by apply tool_update_guard_ok.
  - simplify_eq. cbn. destruct (Z.ltb_spec 0 (integer c)); [done|done].
  - case_match eqn:Er; [done|]. simplify_eq. unfold kDigitalOutputLimit in *. bool_to_prop.
    cbn. unfold u8_wrap. rewrite Z.mod_small by lia. done.
  - apply finite_ok in Hv. case_match eqn:Er; [done|]. simplify_eq.
    unfold kAnalogOutputLimit in *. bool_to_prop.
    cbn. unfold u8_wrap. rewrite Z.mod_small by lia. done.
  - simplify_eq. cbn. unfold in_i32 in Hi. rewrite u32_wrap_small; unfold in_u32; lia.
Qed.

End Safety.

(** The layout of the LinuxCNC release the daemon is built against. *)
#[export] Instance release_layout : EmcNml := {|
  sizeof_plan_open_file := 255;
  sizeof_plan_execute_command := 255;
  sizeof_operator_error := 255;
  sizeof_operator_text := 255;
  sizeof_operator_display := 255;
  canon_tool_comment_size := 40;
  canon_pockets_max := 1001;
  fresh_buffer := fun n => replicate n NUL;
|}.

#[export] Instance release_layout_laws : EmcNmlLaws release_layout.
Proof. constructor; cbn; try done; lia. Qed.

(** C5: whatever a client requests, a message built for a command that
    [submit_command] accepted obeys the contract of the NML channel: finite
    values, no negative velocity or override, only joints and spindles of the
    configuration observed at submission, outputs within the 64 configured
    ones, terminated texts, and tool updates that pass every table-independent
    check of the LinuxCNC task. *)
Theorem accepted_message_ok (E : EmcNml) (L : EmcNmlLaws E)
    (open_entry : string -> string -> outcome Status string)
    (r : RequestCommand) (cfg : option NmlStatusSnapshot) (c : NmlCommand) (m : RCS_CMD_MSG) :
  in_i32 (wire_integer r) ->
  accepted_command open_entry r cfg = Ok c ->
  build_message c = Ok m ->
  message_ok cfg m.
Proof.
  intros Hi [Ht Hv]%accepted_command_ok Hm. rewrite <- (translate_integer _ _ _ Ht) in Hi.
  apply translate_pose_sizes in Ht as [? ?]. by eapply validated_message_ok.
Qed.

Definition sample_tool : ToolEntry :=
  mkToolEntry 7 (Some 12) (Some [f64_of_Z 1; f64_of_Z (-2); f64_of_Z 3]) None
    (Some (f64_of_Z 6)) None None (Some 3) (Some "endmill 6mm"%string).
Definition no_entry (_ _ : string) : outcome Status string := Invalid "no workspace".

Lemma accepted_message_ok_witness :
  exists c m, accepted_command no_entry (SetToolR (Some sample_tool)) None = Ok c
    /\ build_message c = Ok m /\ message_ok None m.
Proof.
  eexists. eexists. split; [reflexivity|]. split; [reflexivity|].
  refine (accepted_message_ok _ _ no_entry (SetToolR (Some sample_tool)) None _ _ _ _ _);
    [split; vm_compute; congruence|reflexivity|reflexivity].
Defined.

(** A tool request is transported without loss: the update carries exactly
    the fields the client supplied (one bit per field), the axis masks are the
    prefixes of the supplied offsets and a reader of the comment array sees the
    client's comment up to its first NUL. *)
Theorem tool_request_transported (E : EmcNml) (L : EmcNmlLaws E)
    (open_entry : string -> string -> outcome Status string)
    (t : ToolEntry) (cfg : option NmlStatusSnapshot) (c : NmlCommand) :
  accepted_command open_entry (SetToolR (Some t)) cfg = Ok c ->
  exists u, build_message c = Ok (EMC_TOOL_UPDATE u)
    /\ emcToolUpdate_guard u = true
    /\ u_toolno u = te_tool_no t
    /\ bit (u_fields u) EMC_TOOL_UPDATE_POCKET = is_set (te_pocket_no t)
    /\ bit (u_fields u) EMC_TOOL_UPDATE_DIAMETER = is_set (te_diameter t)
    /\ bit (u_fields u) EMC_TOOL_UPDATE_FRONTANGLE = is_set (te_front_angle t)
    /\ bit (u_fields u) EMC_TOOL_UPDATE_BACKANGLE = is_set (te_back_angle t)
    /\ bit (u_fields u) EMC_TOOL_UPDATE_ORIENTATION = is_set (te_orientation t)
    /\ bit (u_fields u) EMC_TOOL_UPDATE_COMMENT = is_set (te_comment t)
    /\ (forall i, bit (u_offset_axes u) (Z.shiftl 1 (Z.of_nat i))
                  = bool_decide (i < length (default [] (te_offset t)))%nat)
    /\ (forall i v, default [] (te_offset t) !! i = Some v ->
          from_emc_pose (u_offset u) !! i = Some v)
    /\ c_string (u_comment u) = Some (c_str (bytes (default EmptyString (te_comment t)))).
Proof.
  intros [Ht Hv]%accepted_command_ok. pose proof (translate_pose_sizes _ _ _ Ht) as [Ho Hw].
  unfold translate in Ht. cbn [translate_task translate_machine or_else] in Ht.
  unfold translate_tool in Ht. case_match eqn:El; [done|]. simplify_eq.
  apply orb_false_iff in El as [El1%Nat.ltb_ge El2%Nat.ltb_ge].
  set (tl := mkTool _ _ _ _ _ _ _ _ _ _ _ _ _ _ _ _ _ _ _) in *.
  unfold Validation.validate_nml_command in Hv. cbn [kind Command.tool] in Hv, Ho, Hw.
  apply validate_tool_ok in Hv. exists (tool_update tl).
  destruct (tool_fields_bits tl) as (_ & F1 & _ & _ & F2 & F3 & F4 & F5 & F6).
  split; [reflexivity|]. split; [by apply tool_update_guard_ok|].
  split; [done|]. split_and!; [exact F1|exact F2|exact F3|exact F4|exact F5|exact F6| | |].
  - intros i. unfold tool_update, tl. cbn [u_offset_axes has_offset offset_values].
    destruct (te_offset t) as [l|]; cbn [is_set default id] in *.
    + rewrite Nat.min_l by done. apply axes_mask_bits.
    + unfold bit. rewrite Z.land_0_l. reflexivity.
  - intros i v Hiv. unfold tool_update, tl. cbn [u_offset offset].
    assert (Hc : copy_pose (default [] (te_offset t)) !! i = Some v).
    { unfold copy_pose. apply lookup_app_l_Some. rewrite lookup_take_lt; [done|].
      apply lookup_lt_Some in Hiv. unfold pose_size. lia. }
    by rewrite emc_pose_roundtrip by apply length_copy_pose.
  - rewrite tool_comment_text by done. subst tl. cbn [has_comment comment].
    by destruct (te_comment t).
Qed.

Lemma tool_request_transported_witness :
  exists c u, accepted_command no_entry (SetToolR (Some sample_tool)) None = Ok c
    /\ build_message c = Ok (EMC_TOOL_UPDATE u) /\ emcToolUpdate_guard u = true.
Proof.
  eexists.
  destruct (tool_request_transported _ _ no_entry sample_tool None _ eq_refl)
    as (u & Hb & Hg & _).
  exists u. split; [reflexivity|]. by split.
Defined.

(** The text a request carries to an NML text array, with the size of it. *)
Definition text_request {E : EmcNml} (r : RequestCommand) : option (string * nat) :=
  match r with
  | MdiR s => Some (s, sizeof_plan_execute_command)
  | SendOperatorErrorR s => Some (s, sizeof_operator_error)
  | SendOperatorTextR s => Some (s, sizeof_operator_text)
  | SendOperatorDisplayR s => Some (s, sizeof_operator_display)
  | _ => None
  end.

Definition message_text (m : RCS_CMD_MSG) : option (list ascii) :=
  match m with
  | EMC_TASK_PLAN_EXECUTE b | EMC_OPERATOR_ERROR b | EMC_OPERATOR_TEXT b
  | EMC_OPERATOR_DISPLAY b | EMC_TASK_PLAN_OPEN b => c_string b
  | _ => None
  end.

(** MDI commands and operator messages reach LinuxCNC whole or not at all:
    the command is always accepted for submission, its message is built exactly
    when the text and its terminator fit the array, and then a reader of the
    array sees the text (up to an embedded NUL); a longer text is an error,
    never a truncated program line. *)
Theorem text_whole_or_refused (E : EmcNml) (L : EmcNmlLaws E)
    (open_entry : string -> string -> outcome Status string)
    (r : RequestCommand) (cfg : option NmlStatusSnapshot) (s : string) (size : nat) :
  text_request r = Some (s, size) ->
  exists c, accepted_command open_entry r cfg = Ok c
    /\ ((String.length s < size)%nat ->
        exists m, build_message c = Ok m /\ message_text m = Some (c_str (bytes s)))
    /\ ((size <= String.length s)%nat -> exists e, build_message c = Err e).
Proof.
  destruct r; intros [= <- <-]; (eexists; split; [reflexivity|]);
    unfold build_message; cbn [task_message trajectory_message machine_message tool_message
      output_message or_else kind with_text text]; unfold text_message; split; intros H.
  all: try (rewrite (proj2 (Nat.leb_gt _ _)) by done; eexists; split; [reflexivity|]; cbn;
            rewrite fresh_buffer_cleared; apply c_string_strncpy; by rewrite length_bytes).
  all: rewrite (proj2 (Nat.leb_le _ _)) by done; by eexists.
Qed.

Lemma text_whole_or_refused_witness :
  exists c, accepted_command no_entry (MdiR "G0 X1"%string) None = Ok c
    /\ exists m, build_message c = Ok m
         /\ message_text m = Some (c_str (bytes "G0 X1"%string)).
Proof.
  destruct (text_whole_or_refused release_layout release_layout_laws no_entry (MdiR "G0 X1"%string) None "G0 X1"%string 255
              eq_refl) as (c & Hc & Hm & _).
  exists c. split; [exact Hc|]. apply Hm. vm_compute. lia.
Defined.

(** The stop commands are never refused before the queue: stop, pause and
    abort requests are accepted whether or not a status snapshot was ever
    observed, are exactly the commands of the safety lane, and their message
    can always be built; every refusal of another request is an
    [INVALID_ARGUMENT], or [UNAVAILABLE] when no snapshot was observed. *)
Theorem safety_always_accepted (E : EmcNml)
    (open_entry : string -> string -> outcome Status string)
    (r : RequestCommand) (cfg : option NmlStatusSnapshot) :
  (r ∈ [StopProgramR; PauseProgramR; AbortTaskR] ->
     exists c m, accepted_command open_entry r cfg = Ok c
       /\ safety_command (kind c) = true /\ build_message c = Ok m)
  /\ (forall c, accepted_command open_entry r cfg = Ok c -> safety_command (kind c) = true ->
        r ∈ [StopProgramR; PauseProgramR; AbortTaskR])
  /\ (forall st, accepted_command open_entry r cfg = Err st ->
        code st = INVALID_ARGUMENT \/ (code st = UNAVAILABLE /\ cfg = None)
        \/ exists ws rel, r = ProgramOpenR ws rel /\ open_entry ws rel = Err st).
Proof.
  split_and!.
  - intros Hr. set_unfold in Hr. destruct Hr as [->|[->|[->|[]]]];
      (do 2 eexists; split_and!; reflexivity).
  - intros c [Ht _]%accepted_command_ok. by eapply translate_safety.
  - intros st H. unfold accepted_command, validated in H.
    destruct (translate open_entry r) as [c|st'] eqn:Ht; cbn in H.
    + destruct cfg as [s|].
      * pose proof (decided_command c s) as Hd.
        unfold Invalid in H. destruct (Validation.validate_nml_command c (Some s)) as [|[m|m]]; simplify_eq;
          [by left|by destruct (Hd m)].
      * unfold Invalid in H. destruct (Validation.validate_nml_command c None) as [|[m|m]]; simplify_eq;
          [by left|by right; left].
    + simplify_eq. apply translate_refusal in Ht as [|]; [by left|by right; right].
Qed.

Lemma safety_always_accepted_witness :
  exists c m, accepted_command no_entry AbortTaskR None = Ok c
    /\ safety_command (kind c) = true /\ build_message c = Ok m.
Proof.
  apply (proj1 (safety_always_accepted release_layout no_entry AbortTaskR None)). set_solver.
Defined.

End CommandPath.
