(* ===== verification/NmlAdapter.v ===== *)
(** The NML boundary at run time ([nml_adapter.cc]): serial number comparison,
    channel ownership with retry, the completion tracker that turns status
    snapshots into command results, and the action the command worker runs for
    each submitted command.

    Time is [std::chrono::steady_clock], in nanoseconds; every operation that
    reads the clock takes the reading as an argument. *)
From Stdlib Require Import Ascii String.
From S2P Require Import Prelude Float64 NmlStatus CommandCoordinator NmlCommand.
Import Command Message.

Local Open Scope Z_scope.

(** * Serial numbers *)
Module Serial.

Definition nml_serial_after (lhs rhs : Z) : bool :=
  0 <? i32_wrap (u32_wrap (u32_wrap lhs - u32_wrap rhs)).

Lemma wrap_difference x y :
  i32_wrap (u32_wrap (u32_wrap (i32_wrap x) - u32_wrap (i32_wrap y))) = i32_wrap (x - y).
Proof.
  unfold i32_wrap, u32_wrap. f_equal.
  change (2 ^ 32) with 4294967296. change (2 ^ 31) with 2147483648.
  Z.div_mod_to_equations. lia.
Qed.

(** The wrap-around comparison of 32-bit serials decides the order of the
    true serials as long as they are less than [2^31] apart. *)
Theorem serial_after_window (x y : Z) :
  Z.abs (x - y) < 2 ^ 31 -> nml_serial_after (i32_wrap x) (i32_wrap y) = (y <? x).
Proof.
  intros H. unfold nml_serial_after. rewrite wrap_difference, i32_wrap_small; unfold in_i32; lia.
Qed.

Lemma serial_after_window_witness :
  nml_serial_after (i32_wrap (2 ^ 31 + 3)) (i32_wrap (2 ^ 31 - 2)) = true.
Proof. rewrite serial_after_window; [reflexivity|vm_compute; reflexivity]. Defined.

Lemma serial_after_self x : nml_serial_after x x = false.
Proof. unfold nml_serial_after. by rewrite Z.sub_diag. Qed.

End Serial.

(** * Channels *)
Module Channel.

Definition ms (n : Z) : Z := n * 1000000.

Record RetryState := mkRetry { delay : Z; next_attempt : Z }.

Definition retry_init : RetryState := mkRetry (ms 100) 0.
Definition ready (now : Z) (r : RetryState) : bool := next_attempt r <=? now.
Definition succeeded (r : RetryState) : RetryState := mkRetry (ms 100) 0.
Definition failed (now : Z) (r : RetryState) : RetryState :=
  mkRetry (Z.min (delay r * 2) (ms 5000)) (now + delay r).

(** [OwnedChannel]: whether the channel object exists, and its retry state. *)
Record OwnedChannel := mkChannel { channel : bool; retry : RetryState }.

Definition channel_init : OwnedChannel := mkChannel false retry_init.
Definition channel_failed (now : Z) (c : OwnedChannel) : OwnedChannel :=
  mkChannel false (failed now (retry c)).

(** [get]: [valid] says whether the factory, should it be called, returns a
    valid channel.  The result tells whether a channel is available. *)
Definition get (now : Z) (valid : bool) (c : OwnedChannel) : OwnedChannel * bool :=
  if channel c then (c, true)
  else if negb (ready now (retry c)) then (c, false)
  else if negb valid then (channel_failed now c, false)
  else (mkChannel true (succeeded (retry c)), true).

(** One write to the command channel, with what the environment does during it:
    the clock, the factory, the result of the write and the serial number the
    channel assigns. *)
Record WriteEnv := mkWriteEnv { w_now : Z; w_valid : bool; w_ok : bool; w_serial : Z }.

Definition write_command (e : WriteEnv) (c : OwnedChannel) : OwnedChannel * bool :=
  let (c1, available) := get (w_now e) (w_valid e) c in
  if negb available then (c1, false)
  else if w_ok e then (c1, true)
  else (channel_failed (w_now e) c1, false).

(** [n] failed attempts in a row, at the given times. *)
Fixpoint failures (times : list Z) (r : RetryState) : RetryState :=
  match times with [] => r | t :: times' => failures times' (failed t r) end.

Lemma failures_delay times k r :
  delay r = ms (Z.min (100 * 2 ^ Z.of_nat k) 5000) ->
  delay (failures times r) = ms (Z.min (100 * 2 ^ Z.of_nat (k + length times)) 5000).
Proof.
  revert k r. induction times as [|t times IH]; intros k r H; cbn [failures length].
  - by rewrite Nat.add_0_r.
  - rewrite (IH (S k)); [f_equal; f_equal; f_equal; f_equal; lia|].
    unfold failed. cbn [delay]. rewrite H. unfold ms.
    rewrite Nat2Z.inj_succ, Z.pow_succ_r by lia. lia.
Qed.

(** Reconnection backs off exponentially and is bounded: after [n] failures
    in a row the next attempt is not made before [min(100 * 2^n', 5000)] ms have
    passed since the last one ([n'] the failures before it), the channel
    factory is never called earlier, and one success restores the initial
    delay. *)
Theorem retry_backoff (times : list Z) (t now : Z) (valid : bool) :
  let c := mkChannel false (failures (times ++ [t]) retry_init) in
  next_attempt (retry c) = t + ms (Z.min (100 * 2 ^ Z.of_nat (length times)) 5000)
  /\ (now < next_attempt (retry c) -> get now valid c = (c, false))
  /\ (next_attempt (retry c) <= now ->
        get now true c = (mkChannel true retry_init, true)
        /\ get now false c
           = (mkChannel false (failures (times ++ [t; now]) retry_init), false)).
Proof.
  assert (Happ : forall l l' r, failures (l ++ l') r = failures l' (failures l r)).
  { induction l; cbn; auto. }
  cbn zeta. cbn [retry]. rewrite (Happ times [t]), (Happ times [t; now]).
  pose proof (failures_delay times 0 retry_init eq_refl) as Hd. cbn [Nat.add] in Hd.
  set (r := failures times retry_init) in *. clearbody r. cbn [failures]. split_and!.
  - unfold failed. cbn [next_attempt]. by rewrite Hd.
  - intros Hn. unfold get, ready. cbn [channel retry]. by rewrite (proj2 (Z.leb_gt _ _)).
  - intros Hn. unfold get, ready. cbn [channel retry]. by rewrite (proj2 (Z.leb_le _ _)).
Qed.

Lemma retry_backoff_witness :
  let c := mkChannel false (failures [0; ms 100; ms 300] retry_init) in
  get (ms 600) true c = (c, false)
  /\ get (ms 700) true c = (mkChannel true retry_init, true).
Proof.
  split.
  - apply (retry_backoff [0; ms 100] (ms 300) (ms 600) true). vm_compute. reflexivity.
  - apply (retry_backoff [0; ms 100] (ms 300) (ms 700) true). vm_compute. congruence.
Defined.

End Channel.

(** * The completion tracker *)
Module Tracker.
Import Serial.

(** LinuxCNC's [RCS_STATUS::DONE] and [RCS_STATUS::ERROR]. *)
Class RcsStatus := { RCS_DONE : Z; RCS_ERROR : Z }.
Definition time_point_max : Z := 2 ^ 63 - 1.

Inductive Resolution := PendingR | CompletedR | RejectedR | TimedOutR | UnavailableR.

#[export] Instance Resolution_eq_dec : EqDecision Resolution.
Proof. solve_decision. Defined.

(** [command] identifies the two callbacks stored with the serial. *)
Record Pending := mkPending {
  serial : Z;
  deadline : Z;
  after_observation : Z;
  command : nat;
}.

#[export] Instance Pending_eq_dec : EqDecision Pending.
Proof. solve_decision. Defined.


(** [finished] is the history of invoked callbacks, in order. *)
Record CommandCompletionTracker := mkTracker {
  latest : NmlStatusSnapshot;
  pending : list Pending;
  observed_at : Z;
  have_snapshot : bool;
  channel_healthy : bool;
  observation_sequence : Z;
  timeout : Z;
  finished : list (Pending * Resolution);
}.

Definition init (timeout : Z) : CommandCompletionTracker :=
  mkTracker default_statussnapshot [] 0 false false 0 timeout [].

Section WithStatus.
Context `{RcsStatus}.

Definition expired (p : Pending) (now : Z) : Resolution :=
  if deadline p <=? now then TimedOutR else PendingR.

Definition resolve (p : Pending) (s : NmlStatusSnapshot) (now observation : Z) : Resolution :=
  if observation <=? after_observation p then expired p now
  else if nml_serial_after (echo_serial_number s) (serial p) then CompletedR
  else if echo_serial_number s =? serial p then
    if rcs_status s =? RCS_DONE then CompletedR
    else if rcs_status s =? RCS_ERROR then RejectedR
    else expired p now
  else expired p now.

(** [finish]: one of the two callbacks is invoked, none for a pending result. *)
Definition finish (p : Pending) (r : Resolution) (t : CommandCompletionTracker) :
    CommandCompletionTracker :=
  if bool_decide (r = PendingR) then t
  else mkTracker (latest t) (pending t) (observed_at t) (have_snapshot t) (channel_healthy t)
         (observation_sequence t) (timeout t) (finished t ++ [(p, r)]).

Definition set_pending (l : list Pending) (t : CommandCompletionTracker) :
    CommandCompletionTracker :=
  mkTracker (latest t) l (observed_at t) (have_snapshot t) (channel_healthy t)
    (observation_sequence t) (timeout t) (finished t).

(** [track]: [now] and [now'] are its two readings of the clock. *)
Definition track (serial : Z) (command : nat) (now now' : Z) (t : CommandCompletionTracker) :
    CommandCompletionTracker :=
  let p := mkPending serial
    (if timeout t =? 0 then time_point_max else now + timeout t)
    (observation_sequence t) command in
  let r :=
    if negb (channel_healthy t) then UnavailableR
    else if have_snapshot t then resolve p (latest t) now' (observation_sequence t)
    else PendingR in
  if bool_decide (r = PendingR) then set_pending (pending t ++ [p]) t else finish p r t.

(** [collect_ready]: the resolved entries leave [pending], in order. *)
Fixpoint collect_ready (s : NmlStatusSnapshot) (now observation : Z) (l : list Pending) :
    list Pending * list (Pending * Resolution) :=
  match l with
  | [] => ([], [])
  | p :: l' =>
      let (kept, ready) := collect_ready s now observation l' in
      let r := resolve p s now observation in
      if bool_decide (r = PendingR) then (p :: kept, ready) else (kept, (p, r) :: ready)
  end.

Definition finish_all (ready : list (Pending * Resolution)) (t : CommandCompletionTracker) :
    CommandCompletionTracker :=
  foldl (fun t '(p, r) => finish p r t) t ready.

(** [channel_failed]: every pending command fails. *)
Definition channel_failed (t : CommandCompletionTracker) : CommandCompletionTracker :=
  finish_all ((fun p => (p, UnavailableR)) <$> pending t)
    (mkTracker (latest t) [] (observed_at t) (have_snapshot t) false
       (observation_sequence t) (timeout t) (finished t)).

Definition collect (now : Z) (t : CommandCompletionTracker) : CommandCompletionTracker :=
  let (kept, ready) := collect_ready (latest t) now (observation_sequence t) (pending t) in
  finish_all ready (set_pending kept t).

Definition observe (s : NmlStatusSnapshot) (now : Z) (t : CommandCompletionTracker) :
    CommandCompletionTracker :=
  collect now
    (mkTracker s (pending t) now true true (u64_succ (observation_sequence t)) (timeout t)
       (finished t)).

Definition tick (now : Z) (t : CommandCompletionTracker) : CommandCompletionTracker :=
  collect now t.

Definition fresh (now : Z) (t : CommandCompletionTracker) : bool :=
  channel_healthy t && have_snapshot t && (now - observed_at t <? Channel.ms 1000).

(** The operations the command worker and the status thread perform. *)
Inductive Op :=
| OpTrack (serial : Z) (command : nat) (now now' : Z)
| OpObserve (s : NmlStatusSnapshot) (now : Z)
| OpTick (now : Z)
| OpChannelFailed.

Definition apply (t : CommandCompletionTracker) (o : Op) : CommandCompletionTracker :=
  match o with
  | OpTrack s c now now' => track s c now now' t
  | OpObserve s now => observe s now t
  | OpTick now => tick now t
  | OpChannelFailed => channel_failed t
  end.

Definition run (timeout : Z) (ops : list Op) : CommandCompletionTracker :=
  foldl apply (init timeout) ops.

(** ** Lemmas *)

Lemma finish_all_finished l t :
  Forall (fun x => x.2 <> PendingR) l ->
  finish_all l t
  = mkTracker (latest t) (pending t) (observed_at t) (have_snapshot t) (channel_healthy t)
      (observation_sequence t) (timeout t) (finished t ++ l).
Proof.
  intros Hl0. unfold finish_all. revert t. induction Hl0 as [|[p r] l Hr Hl IH]; intros t; cbn.
  - rewrite app_nil_r. by destruct t.
  - cbn in Hr. unfold finish at 2. rewrite bool_decide_eq_false_2 by done.
    rewrite IH. cbn. by rewrite <- app_assoc.
Qed.

Lemma collect_ready_spec s now n l :
  l ≡ₚ (collect_ready s now n l).1 ++ (collect_ready s now n l).2.*1
  /\ Forall (fun p => resolve p s now n = PendingR) (collect_ready s now n l).1
  /\ Forall (fun x => x.2 <> PendingR /\ x.2 = resolve x.1 s now n) (collect_ready s now n l).2.
Proof.
  induction l as [|p l (IH1 & IH2 & IH3)]; [by split_and!|]. cbn.
  destruct (collect_ready s now n l) as [kept ready]. cbn in *. case_bool_decide; cbn.
  - split_and!; [by rewrite IH1|by constructor|done].
  - split_and!; [rewrite IH1 at 1; apply Permutation_middle|done|by constructor].
Qed.

Lemma collect_eq now t :
  collect now t
  = mkTracker (latest t) (collect_ready (latest t) now (observation_sequence t) (pending t)).1
      (observed_at t) (have_snapshot t) (channel_healthy t) (observation_sequence t) (timeout t)
      (finished t ++ (collect_ready (latest t) now (observation_sequence t) (pending t)).2).
Proof.
  unfold collect.
  pose proof (collect_ready_spec (latest t) now (observation_sequence t) (pending t))
    as (_ & _ & H0).
  destruct (collect_ready _ _ _ _) as [kept ready]. cbn in *.
  rewrite finish_all_finished; [done|]. eapply Forall_impl; [exact H0|]. by intros x [? _].
Qed.

Lemma channel_failed_eq t :
  channel_failed t
  = mkTracker (latest t) [] (observed_at t) (have_snapshot t) false (observation_sequence t)
      (timeout t) (finished t ++ ((fun p => (p, UnavailableR)) <$> pending t)).
Proof.
  unfold channel_failed. rewrite finish_all_finished; [done|].
  apply Forall_fmap, Forall_true. done.
Qed.

Lemma track_eq s c now now' t :
  exists p, command p = c /\ serial p = s /\ after_observation p = observation_sequence t
    /\ deadline p = (if timeout t =? 0 then time_point_max else now + timeout t)
    /\ ((channel_healthy t = true /\ track s c now now' t = set_pending (pending t ++ [p]) t)
        \/ exists r, (r = UnavailableR \/ r = TimedOutR)
           /\ track s c now now' t
              = mkTracker (latest t) (pending t) (observed_at t) (have_snapshot t)
                  (channel_healthy t) (observation_sequence t) (timeout t)
                  (finished t ++ [(p, r)])).
Proof.
  unfold track. set (p := mkPending _ _ _ _). exists p. split_and!; [done..|].
  destruct (channel_healthy t) eqn:Eh; cbn [negb];
    [|right; exists UnavailableR; split; [by left|unfold finish; cbn; by rewrite Eh]].
  destruct (have_snapshot t) eqn:Es; [|by left].
  unfold resolve. cbn [after_observation p]. rewrite Z.leb_refl. unfold expired.
  destruct (_ <=? now'); [|by left]. right. exists TimedOutR. split; [by right|]. unfold finish. cbn. by rewrite Eh, Es.
Qed.

(** ** The history of a run *)

Definition tracked (o : Op) : list nat :=
  match o with OpTrack _ c _ _ => [c] | _ => [] end.

Definition observes (o : Op) : nat := match o with OpObserve _ _ => 1 | _ => 0 end.
Definition observations (ops : list Op) : nat := sum_list_with observes ops.

Lemma observations_app l k : observations (l ++ k) = (observations l + observations k)%nat.
Proof. apply sum_list_with_app. Qed.

Lemma observations_length ops : (observations ops <= length ops)%nat.
Proof. induction ops as [|[] ops IH]; cbn in *; unfold observations in *; lia. Qed.

Lemma tracker_run_snoc tmo ops o : run tmo (ops ++ [o]) = apply (run tmo ops) o.
Proof. unfold run. by rewrite foldl_app. Qed.

(** Where a pending command comes from: it was tracked when [after_observation]
    snapshots had been seen, and [latest] is newer as soon as there were more. *)
Definition entered (tmo : Z) (ops : list Op) (s : NmlStatusSnapshot) (p : Pending) : Prop :=
  exists l1 l2 now now',
    ops = l1 ++ OpTrack (serial p) (command p) now now' :: l2
    /\ after_observation p = Z.of_nat (observations l1)
    /\ deadline p = (if tmo =? 0 then time_point_max else now + tmo)
    /\ ((0 < observations l2)%nat -> exists l tm l', l2 = l ++ OpObserve s tm :: l').

(** A snapshot, observed after the command was tracked, that says [r]. *)
Definition says (s : NmlStatusSnapshot) (p : Pending) (r : Resolution) : Prop :=
  match r with
  | CompletedR => nml_serial_after (echo_serial_number s) (serial p) = true
                  \/ (echo_serial_number s = serial p /\ rcs_status s = RCS_DONE)
  | RejectedR => echo_serial_number s = serial p /\ rcs_status s = RCS_ERROR
  | _ => True
  end.

Definition explained (ops : list Op) (x : Pending * Resolution) : Prop :=
  match x.2 with
  | CompletedR | RejectedR =>
      exists l1 l2 l3 now now' s tm,
        ops = l1 ++ OpTrack (serial x.1) (command x.1) now now' :: l2 ++ OpObserve s tm :: l3
        /\ says s x.1 x.2
  | _ => True
  end.

Record history_inv (tmo : Z) (ops : list Op) (t : CommandCompletionTracker) : Prop := {
  hi_timeout : timeout t = tmo;
  hi_sequence : observation_sequence t = Z.of_nat (observations ops);
  hi_commands : concat (tracked <$> ops) ≡ₚ
                (command <$> pending t) ++ (command ∘ fst <$> finished t);
  hi_terminal : Forall (fun x => x.2 <> PendingR) (finished t);
  hi_unhealthy : channel_healthy t = false -> pending t = [];
  hi_pending : Forall (entered tmo ops (latest t)) (pending t);
  hi_finished : Forall (explained ops) (finished t);
}.

Lemma explained_snoc ops o x : explained ops x -> explained (ops ++ [o]) x.
Proof.
  unfold explained. destruct (x.2); try done;
    intros (l1 & l2 & l3 & now & now' & s & tm & -> & Hs);
    exists l1, l2, (l3 ++ [o]), now, now', s, tm; split; try done;
    by rewrite <- (app_assoc l1); cbn; rewrite <- (app_assoc l2).
Qed.

Lemma entered_snoc tmo ops o s p :
  observes o = 0%nat -> entered tmo ops s p -> entered tmo (ops ++ [o]) s p.
Proof.
  intros Ho (l1 & l2 & now & now' & -> & Ha & Hd & Hs). exists l1, (l2 ++ [o]), now, now'.
  split_and!; [by rewrite <- app_assoc|done|done|]. rewrite observations_app.
  intros Hn. destruct Hs as (l & tm & l' & ->).
  { unfold observations in *. cbn in Hn. rewrite Ho in Hn. lia. }
  exists l, tm, (l' ++ [o]). by rewrite <- app_assoc.
Qed.

Lemma entered_observe tmo ops s s' tm p :
  entered tmo ops s p -> entered tmo (ops ++ [OpObserve s' tm]) s' p.
Proof.
  intros (l1 & l2 & now & now' & -> & Ha & Hd & Hs).
  exists l1, (l2 ++ [OpObserve s' tm]), now, now'. split_and!; [by rewrite <- app_assoc|done|done|].
  intros _. by exists l2, tm, [].
Qed.

(** What [resolve] decided is explained by the latest snapshot. *)
Lemma resolve_explained tmo ops s now p :
  entered tmo ops s p ->
  explained ops (p, resolve p s now (Z.of_nat (observations ops))).
Proof.
  intros (l1 & l2 & t0 & t1 & Ho & Ha & _ & Hs). unfold explained, resolve. cbn [fst snd].
  destruct (Z.leb_spec (Z.of_nat (observations ops)) (after_observation p)) as [|Hlt].
  { unfold expired. by destruct (_ <=? now). }
  assert (Hn : (0 < observations l2)%nat).
  { rewrite Ho, observations_app in Hlt. unfold observations in *. cbn in Hlt. lia. }
  destruct (Hs Hn) as (l & tm & l' & ->). unfold expired.
  destruct (nml_serial_after _ _) eqn:Ea.
  { exists l1, l, l', t0, t1, s, tm. split; [done|]. by left. }
  destruct (Z.eqb_spec (echo_serial_number s) (serial p)) as [Ee|]; [|by destruct (_ <=? now)].
  destruct (Z.eqb_spec (rcs_status s) RCS_DONE) as [Ed|].
  { exists l1, l, l', t0, t1, s, tm. split; [done|]. by right. }
  destruct (Z.eqb_spec (rcs_status s) RCS_ERROR) as [Er|]; [|by destruct (_ <=? now)].
  by exists l1, l, l', t0, t1, s, tm.
Qed.

Lemma collect_history tmo ops now t :
  history_inv tmo ops t -> history_inv tmo ops (collect now t).
Proof.
  intros [Ht Hq Hc Hr Hu Hp Hf]. rewrite collect_eq.
  destruct (collect_ready_spec (latest t) now (observation_sequence t) (pending t))
    as (Hperm & Hk & Hd).
  destruct (collect_ready _ _ _ _) as [kept ready]. cbn in Hperm, Hk, Hd |- *.
  assert (Hp' := Hp). rewrite Hperm in Hp'. apply Forall_app in Hp' as [Hpk Hpr].
  constructor; cbn; try done.
  - rewrite Hc, Hperm, !fmap_app, (list_fmap_compose fst command ready), <- app_assoc.
    apply Permutation_app_head, Permutation_app_comm.
  - apply Forall_app. split; [done|]. eapply Forall_impl; [exact Hd|]. by intros x [? _].
  - intros Hh. rewrite (Hu Hh) in Hperm. apply Permutation_nil in Hperm.
    by apply app_eq_nil in Hperm as [? _].
  - apply Forall_app. split; [done|]. rewrite Forall_fmap in Hpr.
    apply Forall_forall. intros [p r] Hin. rewrite Forall_forall in Hd, Hpr.
    destruct (Hd _ Hin) as [_ Hr']. cbn in Hr'. rewrite Hr', Hq.
    eapply resolve_explained, (Hpr (p, r) Hin).
Qed.

Lemma track_history tmo ops s c now now' t :
  history_inv tmo ops t ->
  history_inv tmo (ops ++ [OpTrack s c now now']) (track s c now now' t).
Proof.
  intros [Ht Hq Hc Hr Hu Hp Hf].
  assert (Ho : observations (ops ++ [OpTrack s c now now']) = observations ops).
  { rewrite observations_app. cbn. lia. }
  assert (Hpend : Forall (entered tmo (ops ++ [OpTrack s c now now']) (latest t)) (pending t)).
  { eapply Forall_impl; [exact Hp|]. intros ?. by apply entered_snoc. }
  assert (Hfin : Forall (explained (ops ++ [OpTrack s c now now'])) (finished t)).
  { eapply Forall_impl; [exact Hf|]. intros ?. by apply explained_snoc. }
  destruct (track_eq s c now now' t) as (p & <- & <- & Ha & Hd & [[Hh ->]|(r & Hrr & ->)]);
    constructor; cbn; rewrite ?Ho; try done.
  - rewrite fmap_app, concat_app, fmap_app, Hc. cbn.
    rewrite <- !app_assoc. apply Permutation_app_head, Permutation_app_comm.
  - by rewrite Hh.
  - apply Forall_app. split; [done|]. apply Forall_singleton.
    exists ops, [], now, now'. split_and!; [done|by rewrite Ha|by rewrite Hd, Ht|]. cbn. lia.
  - rewrite fmap_app, concat_app, fmap_app, Hc. cbn. by rewrite <- app_assoc.
  - apply Forall_app. split; [done|]. apply Forall_singleton. by destruct Hrr as [->| ->].
  - apply Forall_app. split; [done|]. apply Forall_singleton. by destruct Hrr as [->| ->].
Qed.

Lemma observe_history tmo ops s now t :
  Z.of_nat (length ops) < 2 ^ 64 - 1 ->
  history_inv tmo ops t -> history_inv tmo (ops ++ [OpObserve s now]) (observe s now t).
Proof.
  intros Hl [Ht Hq Hc Hr Hu Hp Hf]. apply collect_history.
  constructor; cbn; try done.
  - pose proof (observations_length ops). rewrite observations_app, Hq, u64_succ_small by lia.
    cbn. lia.
  - by rewrite fmap_app, concat_app, app_nil_r.
  - eapply Forall_impl; [exact Hp|]. intros ?. by apply entered_observe.
  - eapply Forall_impl; [exact Hf|]. intros ?. by apply explained_snoc.
Qed.

Lemma quiet_history tmo ops o t :
  observes o = 0%nat -> tracked o = [] ->
  history_inv tmo ops t -> history_inv tmo (ops ++ [o]) t.
Proof.
  intros Ho Htr [Ht Hq Hc Hr Hu Hp Hf]. constructor; try done.
  - rewrite observations_app, Hq. unfold observations. cbn. lia.
  - by rewrite fmap_app, concat_app; cbn; rewrite Htr, app_nil_r.
  - eapply Forall_impl; [exact Hp|]. intros ?. by apply entered_snoc.
  - eapply Forall_impl; [exact Hf|]. intros ?. by apply explained_snoc.
Qed.

Lemma channel_failed_history tmo ops t :
  history_inv tmo ops t -> history_inv tmo ops (channel_failed t).
Proof.
  intros [Ht Hq Hc Hr Hu Hp Hf]. rewrite channel_failed_eq. constructor; cbn; try done.
  - rewrite fmap_app, <- list_fmap_compose. rewrite Hc. apply Permutation_app_comm.
  - apply Forall_app. split; [done|]. by apply Forall_fmap, Forall_true.
  - apply Forall_app. split; [done|]. by apply Forall_fmap, Forall_true.
Qed.

Lemma run_history tmo ops :
  Z.of_nat (length ops) < 2 ^ 64 -> history_inv tmo ops (run tmo ops).
Proof.
  induction ops as [|o ops IH] using rev_ind; intros Hl; [by constructor|].
  rewrite length_app in Hl. cbn in Hl. rewrite tracker_run_snoc.
  specialize (IH ltac:(lia)). destruct o; cbn [apply].
  - by apply track_history.
  - apply observe_history; [lia|done].
  - apply collect_history. by apply quiet_history.
  - apply channel_failed_history. by apply quiet_history.
Qed.

(** Every tracked command is resolved exactly once or still pending: over
    any sequence of submissions, snapshots, ticks and channel failures the
    tracked commands are, with multiplicity, the pending ones and those whose
    callback ran; a callback never reports an undecided command, and nothing
    is pending on a channel known to be down. *)
Theorem tracker_exactly_once (tmo : Z) (ops : list Op) :
  Z.of_nat (length ops) < 2 ^ 64 ->
  let t := run tmo ops in
  concat (tracked <$> ops) ≡ₚ (command <$> pending t) ++ (command ∘ fst <$> finished t)
  /\ Forall (fun x => x.2 <> PendingR) (finished t)
  /\ (channel_healthy t = false -> pending t = []).
Proof. intros H0. by destruct (run_history tmo ops H0). Qed.

(** C27: no command is reported done or rejected on old news: a snapshot that
    says so (a later serial, or the command's serial with a final status) was
    observed after the command had been tracked. *)
Theorem tracker_never_stale (tmo : Z) (ops : list Op) (p : Pending) (r : Resolution) :
  Z.of_nat (length ops) < 2 ^ 64 ->
  (p, r) ∈ finished (run tmo ops) -> r = CompletedR \/ r = RejectedR ->
  exists l1 l2 l3 now now' s tm,
    ops = l1 ++ OpTrack (serial p) (command p) now now' :: l2 ++ OpObserve s tm :: l3
    /\ says s p r.
Proof.
  intros Hl Hin Hr. destruct (run_history tmo ops Hl) as [_ _ _ _ _ _ Hf].
  rewrite Forall_forall in Hf. specialize (Hf _ Hin). unfold explained in Hf. cbn in Hf.
  by destruct Hr as [-> | ->].
Qed.

Lemma resolve_pending p s now n :
  resolve p s now n = PendingR ->
  now < deadline p
  /\ (n <= after_observation p
      \/ (nml_serial_after (echo_serial_number s) (serial p) = false
          /\ (echo_serial_number s = serial p ->
              rcs_status s <> RCS_DONE /\ rcs_status s <> RCS_ERROR))).
Proof.
  unfold resolve, expired. destruct (Z.leb_spec (deadline p) now) as [|Hd];
    destruct (Z.leb_spec n (after_observation p)); try done.
  - destruct (nml_serial_after _ _), (Z.eqb_spec (echo_serial_number s) (serial p)); try done.
    destruct (Z.eqb_spec (rcs_status s) RCS_DONE), (Z.eqb_spec (rcs_status s) RCS_ERROR); done.
  - split; [done|by left].
  - destruct (nml_serial_after _ _) eqn:Ea, (Z.eqb_spec (echo_serial_number s) (serial p));
      try done; (split; [done|right]); [|by split].
    destruct (Z.eqb_spec (rcs_status s) RCS_DONE), (Z.eqb_spec (rcs_status s) RCS_ERROR);
      done.
Qed.

Lemma collect_undecided now t :
  Forall (fun p => resolve p (latest t) now (observation_sequence t) = PendingR)
    (pending (collect now t)).
Proof. rewrite collect_eq. apply collect_ready_spec. Qed.

Lemma app_snoc_track ops o l1 l2 s c now now' :
  ops ++ [o] = l1 ++ OpTrack s c now now' :: l2 -> observes o = 1%nat ->
  exists l2', ops = l1 ++ OpTrack s c now now' :: l2'.
Proof.
  intros He Ho. destruct l2 as [|x l2] using rev_ind.
  - apply app_inj_tail in He as [_ ->]. done.
  - exists l2. rewrite app_comm_cons, app_assoc in He. by apply app_inj_tail in He as [-> _].
Qed.

(** No decided command stays pending: after a snapshot, every command still
    pending is neither at nor behind the echoed serial with a final status, and
    its deadline (submission plus timeout; none when the timeout is zero) has
    not passed; a tick likewise leaves no overdue command, and a channel
    failure leaves none at all. *)
Theorem tracker_progress (tmo : Z) (ops : list Op) (s : NmlStatusSnapshot) (now : Z) :
  Z.of_nat (length ops) + 1 < 2 ^ 64 ->
  Forall (fun p =>
      now < deadline p
      /\ (exists t0 t1, OpTrack (serial p) (command p) t0 t1 ∈ ops
           /\ deadline p = (if tmo =? 0 then time_point_max else t0 + tmo))
      /\ nml_serial_after (echo_serial_number s) (serial p) = false
      /\ (echo_serial_number s = serial p -> rcs_status s <> RCS_DONE /\ rcs_status s <> RCS_ERROR))
    (pending (run tmo (ops ++ [OpObserve s now])))
  /\ Forall (fun p => now < deadline p) (pending (run tmo (ops ++ [OpTick now])))
  /\ pending (run tmo (ops ++ [OpChannelFailed])) = [].
Proof.
  intros Hl. split_and!.
  - assert (HI : history_inv tmo (ops ++ [OpObserve s now]) (run tmo (ops ++ [OpObserve s now])))
      by (apply run_history; rewrite length_app; cbn; lia).
    assert (Hs0 := hi_sequence _ _ _ (run_history tmo ops ltac:(lia))).
    pose proof (observations_length ops) as Hol.
    pose proof (hi_pending _ _ _ HI) as Hp. rewrite tracker_run_snoc in *. cbn [apply] in *.
    unfold observe in *. set (t := mkTracker _ _ _ _ _ _ _ _) in *.
    pose proof (collect_undecided now t) as Hu. rewrite Forall_forall in Hp, Hu |- *.
    intros p Hin. destruct (Hp p Hin) as (l1 & l2 & t0 & t1 & Ho & Ha & Hd & _).
    destruct (resolve_pending _ _ _ _ (Hu p Hin)) as [Hnow Hdec]. split; [done|].
    apply app_snoc_track in Ho as [l2' ->]; [|done].
    destruct Hdec as [Hle|[??]].
    + exfalso. subst t. cbn in Hle. rewrite Hs0, u64_succ_small in Hle by lia.
      rewrite Ha, observations_app in Hle. unfold observations in Hle. cbn in Hle. lia.
    + split_and!; try done. exists t0, t1. split; [set_solver|done].
  - rewrite tracker_run_snoc. eapply Forall_impl; [apply collect_undecided|].
    by intros p [? _]%resolve_pending.
  - rewrite tracker_run_snoc. cbn [apply]. by rewrite channel_failed_eq.
Qed.

(** What one operation does to the tracked commands. *)
Lemma apply_conserves t o :
  exists new, finished (apply t o) = finished t ++ new
    /\ (command <$> pending t) ++ tracked o ≡ₚ
       (command <$> pending (apply t o)) ++ (command ∘ fst <$> new)
    /\ Forall (fun x => x.2 <> PendingR) new.
Proof.
  destruct o as [s c now now'|s now|now|]; cbn [apply tracked].
  - destruct (track_eq s c now now' t) as (p & <- & _ & _ & _ & [[_ ->]|(r & Hr & ->)]); cbn.
    + exists []. rewrite !app_nil_r, fmap_app. by split_and!.
    + exists [(p, r)]. split_and!; [done|done|]. apply Forall_singleton.
      by destruct Hr as [-> | ->].
  - unfold observe. rewrite collect_eq. cbn. rewrite app_nil_r.
    destruct (collect_ready_spec s now (u64_succ (observation_sequence t)) (pending t))
      as (Hp & _ & Hd).
    eexists. split; [done|]. split; [rewrite Hp at 1; by rewrite fmap_app, list_fmap_compose|].
    eapply Forall_impl; [exact Hd|]. by intros x [? _].
  - unfold tick. rewrite collect_eq. cbn. rewrite app_nil_r.
    destruct (collect_ready_spec (latest t) now (observation_sequence t) (pending t))
      as (Hp & _ & Hd).
    eexists. split; [done|]. split; [rewrite Hp at 1; by rewrite fmap_app, list_fmap_compose|].
    eapply Forall_impl; [exact Hd|]. by intros x [? _].
  - rewrite channel_failed_eq. cbn. eexists. split; [done|]. split.
    + by rewrite app_nil_r, <- list_fmap_compose.
    + by apply Forall_fmap, Forall_true.
Qed.

End WithStatus.

(** LinuxCNC's numbering. *)
#[export] Instance linuxcnc_rcs_status : RcsStatus := {| RCS_DONE := 1; RCS_ERROR := 3 |}.

(** A snapshot with the given echo and command status. *)
Definition mkSnapshot (echo status : Z) : NmlStatusSnapshot :=
  mkNmlStatusSnapshot echo status 0 0 0 0 0 0 0 0 false false EmptyString EmptyString EmptyString
    0 0 [] default_taskstatus default_motionstatus default_iostatus [].

(** A command tracked while the channel is up, then echoed as done; a second
    one that LinuxCNC rejects. *)
Definition sample_run : list Op :=
  [OpObserve (Tracker.mkSnapshot 4 1) 10; OpTrack 5 0 20 21; OpTrack 6 1 22 23;
   OpObserve (Tracker.mkSnapshot 5 1) 30; OpObserve (Tracker.mkSnapshot 6 3) 40].

Lemma tracker_exactly_once_witness :
  command ∘ fst <$> finished (run 0 sample_run) = [0; 1]%nat
  /\ concat (tracked <$> sample_run) ≡ₚ
     (command <$> pending (run 0 sample_run)) ++ (command ∘ fst <$> finished (run 0 sample_run)).
Proof.
  split; [reflexivity|].
  apply (tracker_exactly_once 0 sample_run). vm_compute. reflexivity.
Defined.

Lemma tracker_never_stale_witness :
  exists l1 l2 l3 now now' s tm,
    sample_run = l1 ++ OpTrack 5 0 now now' :: l2 ++ OpObserve s tm :: l3
    /\ says s (mkPending 5 time_point_max 1 0) CompletedR.
Proof.
  apply (tracker_never_stale 0 sample_run (mkPending 5 time_point_max 1 0) CompletedR).
  - vm_compute. reflexivity.
  - vm_compute. left.
  - by left.
Defined.

Lemma tracker_progress_witness :
  pending (run 0 (sample_run ++ [OpChannelFailed])) = [].
Proof.
  apply (tracker_progress 0 sample_run default_statussnapshot 0). vm_compute. reflexivity.
Defined.

End Tracker.

(** * The adapter *)
Module Adapter.
Import Channel Coordinator.

(** How the three callbacks of an [NmlCommand] end, when they are set. *)
Record Hooks := mkHooks {
  prepare : option Ending;
  on_completed : option Ending;
  on_failed : option Ending;
}.

(** What happens on behalf of one command, in order: its hooks run, messages
    are offered to the command channel, the context callbacks of its ticket are
    called, or the action leaves with an exception. *)
Inductive Event :=
| EPrepare
| EOnCompleted
| EOnFailed
| EWrite (m : RCS_CMD_MSG) (ok : bool)
| ECall (c : ContextCall)
| EThrow (e : Ending).

Inductive NmlStatusPoll := Updated | Idle | Stale | Disconnected.

(** What [peek] and [get_address] show on the status channel. *)
Inductive Peek :=
| PeekError
| PeekOther
| PeekStat (s : option NmlStatusSnapshot).

Record NmlAdapter := mkAdapter {
  command_channel : OwnedChannel;
  status_channel : OwnedChannel;
  completions : Tracker.CommandCompletionTracker;
  events : list (nat * Event);
}.

Definition init (timeout : Z) : NmlAdapter :=
  mkAdapter channel_init channel_init (Tracker.init timeout) [].

Section Adapter.
Context {E : EmcNml} `{Tracker.RcsStatus}.
(** The submitted commands and their callbacks, by the identity of the
    coordinator item that carries them. *)
Context (command_of : nat -> NmlCommand) (hooks_of : nat -> Hooks).

Definition log (id : nat) (l : list Event) (a : NmlAdapter) : NmlAdapter :=
  mkAdapter (command_channel a) (status_channel a) (completions a)
    (events a ++ (pair id <$> l)).

(** [if (hook) hook();] *)
Definition hook_events (e : Event) (h : option Ending) : list Event :=
  match h with Some _ => [e] | None => [] end.
Definition hook_ending (h : option Ending) : Ending := default Returns h.

Definition rejected : string := "LinuxCNC rejected the command".
Definition timed_out : string := "timed out waiting for LinuxCNC command completion".
Definition status_unavailable : string := "LinuxCNC NML status channel is unavailable".

(** The completion callback given to [track]. *)
Definition completed_events (id : nat) : list Event :=
  let h := on_completed (hooks_of id) in
  hook_events EOnCompleted h ++
  [ECall match hook_ending h with
         | Returns => MarkCompleted
         | ThrowsStd what => MarkFailed what
         | ThrowsOther => MarkFailed "command completion callback failed"
         end].

(** The failure callback given to [track]. *)
Definition failed_events (id : nat) (error : string) : list Event :=
  let h := on_failed (hooks_of id) in
  hook_events EOnFailed h ++
  [ECall (MarkFailed match hook_ending h with
                     | Returns => error
                     | ThrowsStd what => error +:+ "; rollback failed: " +:+ what
                     | ThrowsOther => error +:+ "; rollback failed"
                     end)].

(** The callback [CommandCompletionTracker::finish] selects. *)
Definition resolution_events (x : Tracker.Pending * Tracker.Resolution) : list Event :=
  let id := Tracker.command x.1 in
  match x.2 with
  | Tracker.CompletedR => completed_events id
  | Tracker.RejectedR => failed_events id rejected
  | Tracker.TimedOutR => failed_events id timed_out
  | Tracker.UnavailableR => failed_events id status_unavailable
  | Tracker.PendingR => []
  end.

(** A tracker operation and the callbacks it invokes. *)
Definition track_op (o : Tracker.Op) (a : NmlAdapter) : NmlAdapter :=
  let t := Tracker.apply (completions a) o in
  let new := drop (length (Tracker.finished (completions a))) (Tracker.finished t) in
  foldl (fun a x => log (Tracker.command x.1) (resolution_events x) a)
    (mkAdapter (command_channel a) (status_channel a) t (events a)) new.

(** [catch (...) { rollback(); throw; }]: an exception of the rollback replaces
    the one being handled. *)
Definition rollback (id : nat) (e : Ending) (a : NmlAdapter) : NmlAdapter :=
  let h := on_failed (hooks_of id) in
  log id (hook_events EOnFailed h ++
          [EThrow match hook_ending h with Returns => e | e' => e' end]) a.

(** [Impl::write_command]. *)
Definition write (id : nat) (m : RCS_CMD_MSG) (env : WriteEnv) (a : NmlAdapter) :
    NmlAdapter * bool :=
  let (c, ok) := write_command env (command_channel a) in
  (log id [EWrite m ok]
     (mkAdapter c (status_channel a) (completions a) (events a)), ok).

(** The clock readings and channel behaviour during one execution. *)
Record ActionEnv := mkActionEnv {
  env_close : WriteEnv;
  env_write : WriteEnv;
  env_now : Z;
  env_now' : Z;
}.

(** The action [NmlAdapter::submit] queues, run by the command worker. *)
Definition execute (id : nat) (stop_requested : bool) (env : ActionEnv) (a : NmlAdapter) :
    NmlAdapter :=
  let c := command_of id in
  let h := hooks_of id in
  if negb (safety_command (kind c)) && stop_requested
  then rollback id (ThrowsStd "command cancelled before LinuxCNC acceptance") a
  else
    let a1 := log id (hook_events EPrepare (prepare h)) a in
    match hook_ending (prepare h) with
    | Returns =>
        match build_message c with
        | Err what => rollback id (ThrowsStd what) a1
        | Ok message =>
            let (a2, closed) :=
              if bool_decide (kind c = ProgramOpen)
              then write id EMC_TASK_PLAN_CLOSE (env_close env) a1 else (a1, true) in
            if negb closed
            then rollback id (ThrowsStd "failed to close the previous LinuxCNC program") a2
            else
              let (a3, ok) := write id message (env_write env) a2 in
              if negb ok
              then rollback id (ThrowsStd "failed to write LinuxCNC NML command") a3
              else
                let serial := w_serial (env_write env) in
                track_op (Tracker.OpTrack serial id (env_now env) (env_now' env))
                  (log id [ECall (MarkAccepted (u32_wrap serial)); ECall DeferCompletion] a3)
        end
    | e => rollback id e a1
    end.

Definition set_status (c : OwnedChannel) (a : NmlAdapter) : NmlAdapter :=
  mkAdapter (command_channel a) c (completions a) (events a).

Definition fail_status_channel (now : Z) (a : NmlAdapter) : NmlAdapter :=
  track_op Tracker.OpChannelFailed (set_status (channel_failed now (status_channel a)) a).

(** [poll_status], for a non-null snapshot argument; [valid]: the factory gives
    a valid channel. *)
Definition poll_status (now : Z) (valid : bool) (peek : Peek) (a : NmlAdapter) :
    NmlAdapter * NmlStatusPoll :=
  let (c, available) := get now valid (status_channel a) in
  let a1 := set_status c a in
  if negb available then (track_op Tracker.OpChannelFailed a1, Disconnected)
  else
    match peek with
    | PeekError => (fail_status_channel now a1, Disconnected)
    | PeekOther =>
        let a2 := track_op (Tracker.OpTick now) a1 in
        (a2, if Tracker.fresh now (completions a2) then Idle else Stale)
    | PeekStat None => (fail_status_channel now a1, Disconnected)
    | PeekStat (Some s) => (track_op (Tracker.OpObserve s now) a1, Updated)
    end.

(** The command worker and the status thread. *)
Inductive Op :=
| OpExecute (id : nat) (stop_requested : bool) (env : ActionEnv)
| OpPoll (now : Z) (valid : bool) (peek : Peek).

Definition apply (a : NmlAdapter) (o : Op) : NmlAdapter :=
  match o with
  | OpExecute id stop env => execute id stop env a
  | OpPoll now valid peek => (poll_status now valid peek a).1
  end.

Definition run (timeout : Z) (ops : list Op) : NmlAdapter := foldl apply (init timeout) ops.

(** ** The life of a command *)

Definition trace (id : nat) (a : NmlAdapter) : list Event :=
  (filter (fun x => x.1 = id) (events a)).*2.

(** What may precede acceptance: the preparation hook and attempted writes. *)
Definition is_attempt (e : Event) : Prop :=
  match e with EPrepare | EWrite _ _ => True | _ => False end.

(** Accepted: the last message offered is the command's own and the channel took
    it, then the ticket is marked accepted and completion is deferred. *)
Definition accepted (id : nat) (n : Z) : list Event :=
  match build_message (command_of id) with
  | Ok m => [EWrite m true; ECall (MarkAccepted n); ECall DeferCompletion]
  | Err _ => []
  end.

Inductive life (id : nat) : list Event -> bool -> Prop :=
| Refused pre e :
    Forall is_attempt pre -> e <> Returns ->
    life id (pre ++ hook_events EOnFailed (on_failed (hooks_of id)) ++ [EThrow e]) false
| Waiting pre n :
    Forall is_attempt pre -> is_ok (build_message (command_of id)) = true ->
    life id (pre ++ accepted id n) true
| Completed pre n :
    Forall is_attempt pre -> is_ok (build_message (command_of id)) = true ->
    life id (pre ++ accepted id n ++ completed_events id) false
| Lost pre n error :
    Forall is_attempt pre -> is_ok (build_message (command_of id)) = true ->
    life id (pre ++ accepted id n ++ failed_events id error) false.

Definition executed (o : Op) : list nat :=
  match o with OpExecute id _ _ => [id] | OpPoll _ _ _ => [] end.

Definition waiting (a : NmlAdapter) : list nat :=
  Tracker.command <$> Tracker.pending (completions a).

(** The commands in [done] have a life, those in [w] are waiting for LinuxCNC,
    nothing happened for the others. *)
Record life_inv (done w : list nat) (a : NmlAdapter) : Prop := mkLifeInv {
  li_nodup : NoDup w;
  li_known : forall id, id ∈ done -> life id (trace id a) (bool_decide (id ∈ w));
  li_unknown : forall id, id ∉ done -> trace id a = [] /\ id ∉ w;
}.

Lemma trace_log id id' l a :
  trace id (log id' l a) = trace id a ++ (if decide (id' = id) then l else []).
Proof.
  unfold trace, log. cbn. rewrite filter_app, fmap_app. f_equal.
  induction l as [|e l IH]; [by case_decide|]. rewrite fmap_cons, filter_cons. cbn [fst].
  case_decide; cbn; [by f_equal|done].
Qed.

Definition events_for (id : nat) (l : list (Tracker.Pending * Tracker.Resolution)) : list Event :=
  concat ((fun x => if decide (Tracker.command x.1 = id) then resolution_events x else []) <$> l).

Lemma trace_dispatch id l a :
  trace id (foldl (fun a x => log (Tracker.command x.1) (resolution_events x) a) a l)
  = trace id a ++ events_for id l
  /\ completions (foldl (fun a x => log (Tracker.command x.1) (resolution_events x) a) a l)
     = completions a.
Proof.
  revert a. induction l as [|x l IH]; intros a; cbn; [by rewrite app_nil_r|].
  destruct (IH (log (Tracker.command x.1) (resolution_events x) a)) as [-> ->].
  split; [|done]. rewrite trace_log, <- app_assoc. done.
Qed.

Lemma events_for_none id l : id ∉ Tracker.command ∘ fst <$> l -> events_for id l = [].
Proof.
  induction l as [|x l IH]; [done|]. cbn. rewrite not_elem_of_cons. intros [Hne Hl].
  unfold events_for. cbn. rewrite decide_False by done. by apply IH.
Qed.

Lemma events_for_one x l :
  NoDup (Tracker.command ∘ fst <$> l) -> x ∈ l ->
  events_for (Tracker.command x.1) l = resolution_events x.
Proof.
  induction l as [|y l IH]; [by intros _ ?%elem_of_nil|]. cbn.
  intros [Hy Hl]%NoDup_cons [->|Hx]%elem_of_cons; unfold events_for; cbn.
  - rewrite decide_True by done. fold (events_for (Tracker.command y.1) l).
    by rewrite events_for_none, app_nil_r.
  - rewrite decide_False; [by apply IH|]. cbn in Hy. intros Heq. apply Hy. rewrite Heq.
    apply list_elem_of_fmap. by exists x.
Qed.

Lemma resolution_life id t r :
  r <> Tracker.PendingR -> forall x, x.2 = r -> Tracker.command x.1 = id ->
  life id t true -> life id (t ++ resolution_events x) false.
Proof.
  intros Hr [p r'] Hx Hid Hl. cbn in Hx, Hid. subst. inversion Hl as [|pre n Hp Hok| |]; subst.
  rewrite <- app_assoc. unfold resolution_events. cbn.
  destruct r; try done; constructor; done.
Qed.

Lemma track_op_life done o a :
  life_inv done (waiting a ++ Tracker.tracked o) a ->
  life_inv done (waiting (track_op o a)) (track_op o a).
Proof.
  intros [Hn Hk Hu]. unfold track_op.
  destruct (Tracker.apply_conserves (completions a) o) as (new & Hf & Hp & Hr).
  rewrite Hf, drop_app_length. set (a0 := mkAdapter _ _ _ _).
  pose proof (fun id => trace_dispatch id new a0) as Ht.
  assert (Hw : waiting (foldl (fun a x => log (Tracker.command x.1) (resolution_events x) a) a0 new)
               = Tracker.command <$> Tracker.pending (Tracker.apply (completions a) o)).
  { unfold waiting. by rewrite (proj2 (Ht 0%nat)). }
  rewrite Hw. fold (waiting a) in Hp. set (w := _ <$> Tracker.pending _) in *.
  rewrite Hp in Hn. apply NoDup_app in Hn as (Hn1 & Hd & Hn2).
  assert (Hin : forall id, id ∈ waiting a ++ Tracker.tracked o <->
            id ∈ w \/ id ∈ Tracker.command ∘ fst <$> new).
  { intros id. by rewrite Hp, elem_of_app. }
  assert (Ha0 : forall id, trace id a0 = trace id a) by done.
  constructor; [done| |].
  - intros id Hid. specialize (Hk id Hid). rewrite (proj1 (Ht id)), Ha0.
    destruct (decide (id ∈ Tracker.command ∘ fst <$> new)) as [Hnew|Hnew].
    + rewrite bool_decide_eq_true_2 in Hk by (rewrite Hin; by right).
      rewrite bool_decide_eq_false_2 by (intros Hc; by apply (Hd id)).
      apply list_elem_of_fmap in Hnew as (x & -> & Hx). cbn.
      rewrite events_for_one by done. rewrite Forall_forall in Hr.
      by eapply resolution_life; [apply (Hr x Hx)|..].
    + rewrite events_for_none, app_nil_r by done.
      rewrite (bool_decide_ext _ (id ∈ w)) in Hk; [done|]. rewrite Hin. tauto.
  - intros id Hid. destruct (Hu id Hid) as [Htr Hnw]. rewrite Hin in Hnw.
    rewrite (proj1 (Ht id)), Ha0, Htr, events_for_none by tauto. split; [done|tauto].
Qed.

(** A command whose execution has started but is not decided. *)
Record attempting (done : list nat) (id : nat) (pre : list Event) (a : NmlAdapter) : Prop := {
  at_inv : forall id', id' ∈ done -> life id' (trace id' a) (bool_decide (id' ∈ waiting a));
  at_nodup : NoDup (waiting a);
  at_unknown : forall id', id' <> id -> id' ∉ done -> trace id' a = [] /\ id' ∉ waiting a;
  at_trace : trace id a = pre;
  at_attempt : Forall is_attempt pre;
  at_fresh : id ∉ done /\ id ∉ waiting a;
}.

Lemma attempting_start done id a :
  life_inv done (waiting a) a -> id ∉ done -> attempting done id [] a.
Proof. intros [Hn Hk Hu] Hid. destruct (Hu id Hid). constructor; auto. Qed.

Lemma attempting_log done id pre l a :
  attempting done id pre a -> Forall is_attempt l ->
  attempting done id (pre ++ l) (log id l a).
Proof.
  intros [Hk Hn Hu Ht Ha [Hf Hw]] Hl. constructor.
  - intros id' Hid'. rewrite trace_log, decide_False, app_nil_r by (intros ->; done).
    by apply Hk.
  - done.
  - intros id' Hne Hid'. rewrite trace_log, decide_False, app_nil_r by done. by apply Hu.
  - by rewrite trace_log, decide_True, Ht.
  - by apply Forall_app.
  - done.
Qed.

Lemma attempting_write done id pre m env a :
  attempting done id pre a ->
  exists a' ok, write id m env a = (a', ok) /\ attempting done id (pre ++ [EWrite m ok]) a'.
Proof.
  intros Ha. unfold write. destruct (write_command env (command_channel a)) as [c ok].
  do 2 eexists. split; [done|]. apply attempting_log; [|by repeat constructor].
  by destruct Ha.
Qed.

Lemma attempting_decided done id pre l a b w :
  attempting done id pre a -> life id (pre ++ l) b ->
  w = waiting a ++ (if b then [id] else []) ->
  life_inv (done ++ [id]) w (log id l a).
Proof.
  intros [Hk Hn Hu Ht Ha [Hf Hw]] Hl ->. constructor.
  - apply NoDup_app. split; [done|]. destruct b; [|by split; [set_solver|constructor]].
    split; [set_solver|apply NoDup_singleton].
  - intros id' [Hid'| ->%list_elem_of_singleton]%elem_of_app.
    + rewrite trace_log, decide_False, app_nil_r by (intros ->; done).
      rewrite (bool_decide_ext _ (id' ∈ waiting a)); [by apply Hk|].
      destruct b; set_solver.
    + rewrite trace_log, decide_True, Ht by done.
      replace (bool_decide _) with b; [done|]. symmetry.
      destruct b; [apply bool_decide_eq_true|apply bool_decide_eq_false]; set_solver.
  - intros id' Hid'. rewrite not_elem_of_app in Hid'.
    rewrite trace_log, decide_False, app_nil_r by set_solver.
    destruct (Hu id') as [-> ?]; [set_solver|set_solver|]. split; [done|]. destruct b; set_solver.
Qed.

Lemma attempting_rollback done id pre e a :
  attempting done id pre a -> e <> Returns ->
  life_inv (done ++ [id]) (waiting (rollback id e a)) (rollback id e a).
Proof.
  intros Ha He. unfold rollback.
  eapply (attempting_decided done id pre _ a false); [done| |by rewrite app_nil_r].
  apply Refused; [by destruct Ha|]. by destruct (hook_ending _).
Qed.

Lemma attempting_accept done id pre m env t0 t1 a :
  build_message (command_of id) = Ok m ->
  attempting done id (pre ++ [EWrite m true]) a ->
  let a' := track_op (Tracker.OpTrack (w_serial env) id t0 t1)
    (log id [ECall (MarkAccepted (u32_wrap (w_serial env))); ECall DeferCompletion] a) in
  life_inv (done ++ [id]) (waiting a') a'.
Proof.
  intros Hm Ha. apply track_op_life. cbn [Tracker.tracked].
  eapply (attempting_decided done id _ _ a true); [done| |done].
  rewrite <- app_assoc.
  pose proof (Waiting id pre (u32_wrap (w_serial env))) as Hw.
  unfold accepted in Hw. rewrite Hm in Hw. apply Hw; [|done].
  apply at_attempt in Ha. by apply Forall_app in Ha as [? _].
Qed.

Lemma hook_events_attempt h : Forall is_attempt (hook_events EPrepare h).
Proof. destruct h; by repeat constructor. Qed.

Lemma execute_life done id stop env a :
  life_inv done (waiting a) a -> id ∉ done ->
  life_inv (done ++ [id]) (waiting (execute id stop env a)) (execute id stop env a).
Proof.
  intros Hl Hid. pose proof (attempting_start done id a Hl Hid) as Ha. unfold execute.
  destruct (negb _ && stop); [by eapply attempting_rollback; [exact Ha|]|].
  apply (attempting_log _ _ _ (hook_events EPrepare (prepare (hooks_of id)))) in Ha;
    [|apply hook_events_attempt].
  set (a1 := log id (hook_events EPrepare (prepare (hooks_of id))) a) in *. clearbody a1.
  destruct (hook_ending _) eqn:Ee; [|by eapply attempting_rollback; [exact Ha|]..].
  destruct (build_message (command_of id)) as [m|what] eqn:Hm;
    [|by eapply attempting_rollback; [exact Ha|]].
  assert (Hc : exists a2 closed pre,
    (if bool_decide (kind (command_of id) = ProgramOpen)
     then write id EMC_TASK_PLAN_CLOSE (env_close env) a1 else (a1, true)) = (a2, closed)
    /\ attempting done id pre a2).
  { case_bool_decide; [|by do 3 eexists].
    destruct (attempting_write done id _ EMC_TASK_PLAN_CLOSE (env_close env) a1 Ha)
      as (a2 & ok & -> & ?). by do 3 eexists. }
  destruct Hc as (a2 & closed & pre & -> & Ha2).
  destruct closed; cbn [negb]; [|by eapply attempting_rollback; [exact Ha2|]].
  destruct (attempting_write done id pre m (env_write env) a2 Ha2) as (a3 & ok & -> & Ha3).
  destruct ok; cbn [negb]; [|by eapply attempting_rollback; [exact Ha3|]].
  eapply attempting_accept; [exact Hm|exact Ha3].
Qed.

Lemma poll_life done now valid peek a :
  life_inv done (waiting a) a ->
  life_inv done (waiting (poll_status now valid peek a).1) (poll_status now valid peek a).1.
Proof.
  intros Hl. unfold poll_status, fail_status_channel.
  assert (Hs : forall c o, Tracker.tracked o = [] ->
    life_inv done (waiting (track_op o (set_status c a))) (track_op o (set_status c a))).
  { intros c o Ho. apply track_op_life. rewrite Ho, app_nil_r. by destruct Hl. }
  destruct (get now valid (status_channel a)) as [c []]; cbn [negb]; [|by apply Hs].
  destruct peek as [| |[s|]]; by apply Hs.
Qed.

Lemma run_life timeout ops :
  NoDup (concat (executed <$> ops)) ->
  life_inv (concat (executed <$> ops)) (waiting (run timeout ops)) (run timeout ops).
Proof.
  induction ops as [|o ops IH] using rev_ind.
  - intros _. constructor; [constructor|by intros ? ?%elem_of_nil|].
    intros id _. split; [done|apply not_elem_of_nil].
  - rewrite fmap_app, concat_app. unfold run in *. rewrite foldl_app.
    intros (Hn & Hd & _)%NoDup_app. specialize (IH Hn). cbn.
    destruct o as [id stop env|now valid peek]; cbn [executed apply] in *; rewrite ?app_nil_r.
    + apply execute_life; [done|]. intros Hin. apply (Hd id Hin). cbn. set_solver.
    + by apply poll_life.
Qed.

(** C11: the life of a command at the NML boundary, over any interleaving of the
    command worker and the status thread: a command that was executed either
    was refused (its failure hook ran exactly once, the exception left the
    action, the ticket was never accepted), or its own message was written and
    accepted exactly once and then waits in the tracker, or was completed or
    lost exactly once, with exactly one terminal ticket call after exactly one
    finalizing hook.  Nothing ever happens on behalf of other commands. *)
Theorem command_life (timeout : Z) (ops : list Op) (id : nat) :
  NoDup (concat (executed <$> ops)) ->
  let a := run timeout ops in
  (id ∈ concat (executed <$> ops) -> life id (trace id a) (bool_decide (id ∈ waiting a)))
  /\ (id ∉ concat (executed <$> ops) -> trace id a = []).
Proof.
  intros Hn. destruct (run_life timeout ops Hn) as [_ Hk Hu]. split; [by apply Hk|].
  intros Hid. by apply Hu.
Qed.

(** A command whose request was cancelled while it was queued is dropped
    before anything is written, unless it is a safety command, whose fate does
    not depend on the stop token. *)
Theorem cancelled_before_write (id : nat) (env : ActionEnv) (a : NmlAdapter) :
  (safety_command (kind (command_of id)) = false ->
     completions (execute id true env a) = completions a
     /\ command_channel (execute id true env a) = command_channel a
     /\ exists l, events (execute id true env a) = events a ++ (pair id <$> l)
          /\ Forall (fun e => match e with EOnFailed | EThrow _ => True | _ => False end) l)
  /\ (safety_command (kind (command_of id)) = true ->
       execute id true env a = execute id false env a).
Proof.
  unfold execute. split; intros ->; cbn [negb andb]; [|done].
  split_and!; [done|done|]. eexists. split; [done|].
  destruct (on_failed (hooks_of id)); by repeat constructor.
Qed.

End Adapter.

#[local] Existing Instance CommandPath.release_layout.
#[local] Existing Instance Tracker.linuxcnc_rcs_status.

(** A program open, an abort that fails to be written, and their statuses. *)
Definition sample_command (id : nat) : NmlCommand :=
  match id with
  | O => mkCommand ProgramOpen 0 Float64.f64_zero false EmptyString "/tmp/a.ngc" default_tool
  | _ => mkCommand AbortTask 0 Float64.f64_zero false EmptyString EmptyString default_tool
  end.
Definition sample_hooks (_ : nat) : Hooks := mkHooks (Some Returns) (Some Returns) (Some Returns).
Definition good_write (n : Z) : WriteEnv := mkWriteEnv 50 true true n.
Definition sample_ops : list Op :=
  [OpPoll 10 true (PeekStat (Some (Tracker.mkSnapshot 4 1)));
   OpExecute 0 false (mkActionEnv (good_write 5) (good_write 6) 60 61);
   OpExecute 1 false (mkActionEnv (good_write 0) (mkWriteEnv 70 true false 0) 71 72);
   OpPoll 80 true (PeekStat (Some (Tracker.mkSnapshot 6 1)))].

Lemma command_life_witness :
  life sample_command sample_hooks 0 (trace 0 (run sample_command sample_hooks 0 sample_ops)) false
  /\ life sample_command sample_hooks 1
       (trace 1 (run sample_command sample_hooks 0 sample_ops)) false.
Proof.
  split.
  - refine (proj1 (command_life sample_command sample_hooks 0 sample_ops 0 _) _).
    + vm_compute. repeat constructor; set_solver.
    + vm_compute. left.
  - refine (proj1 (command_life sample_command sample_hooks 0 sample_ops 1 _) _).
    + vm_compute. repeat constructor; set_solver.
    + vm_compute. right. left.
Defined.

Lemma cancelled_before_write_witness :
  safety_command (kind (sample_command 0)) = false
  /\ completions (execute sample_command sample_hooks 0 true
         (mkActionEnv (good_write 5) (good_write 6) 60 61) (init 0)) = Tracker.init 0.
Proof.
  split; [reflexivity|].
  apply (cancelled_before_write sample_command sample_hooks 0
           (mkActionEnv (good_write 5) (good_write 6) 60 61) (init 0)). reflexivity.
Defined.

End Adapter.

(** * The command RPC *)
Module CommandRpc.
Import Ticket Coordinator Request.

Inductive RcsStatusCode := RCS_STATUS_DONE | RCS_STATUS_EXEC | RCS_STATUS_ERROR.

Record LinuxCNCError := mkError { error_command_sequence : Z; error_message : string }.

Record ExecuteCommandResponse := mkResponse {
  command_sequence : Z;
  status : RcsStatusCode;
  error : option LinuxCNCError;
}.

(** [WAIT_POLICY_ACCEPTED] is 1; every other value waits for completion. *)
Definition WAIT_POLICY_ACCEPTED : Z := 1.
Definition wait_policy (p : Z) : CommandWaitPolicy :=
  if p =? WAIT_POLICY_ACCEPTED then WaitAccepted else WaitCompleted.

(** The end of [submit_command]: the status of the queue submission. *)
Definition submission_status (s : CommandSubmitStatus) : outcome Status unit :=
  match s with
  | QueueFull => Err (mkStatus RESOURCE_EXHAUSTED "command queue is full")
  | Stopped => Err (mkStatus UNAVAILABLE "command coordinator is stopped")
  | Submitted => Ok tt
  end.

(** [CommandTaskReactor::complete]: the response of a finished wait. *)
Definition complete (r : CommandResult) : ExecuteCommandResponse :=
  let sequence := u32_wrap (result_accepted_sequence r) in
  match result_state r with
  | Failed =>
      mkResponse sequence RCS_STATUS_ERROR
        (Some (mkError (result_sequence r) (result_error r)))
  | Accepted => mkResponse sequence RCS_STATUS_EXEC None
  | _ => mkResponse sequence RCS_STATUS_DONE None
  end.

(** The response tells the truth about the ticket: for every result a wait
    of the given policy can deliver, [DONE] is reported exactly for completed
    commands, [ERROR] exactly for failed ones (with the ticket's sequence and
    error text), [EXEC] exactly for accepted ones, which only a wait for
    acceptance delivers, and the NML serial is the one the adapter marked. *)
Theorem response_faithful (policy serial : Z) (r : CommandResult) :
  wait_ready (wait_policy policy) r = true ->
  in_i32 serial -> result_accepted_sequence r = u32_wrap serial ->
  (status (complete r) = RCS_STATUS_DONE <-> result_state r = Completed)
  /\ (status (complete r) = RCS_STATUS_ERROR <-> result_state r = Failed)
  /\ (status (complete r) = RCS_STATUS_EXEC <-> result_state r = Accepted)
  /\ (status (complete r) = RCS_STATUS_EXEC -> policy = WAIT_POLICY_ACCEPTED)
  /\ (forall e, error (complete r) = Some e <->
        result_state r = Failed /\ e = mkError (result_sequence r) (result_error r))
  /\ i32_wrap (command_sequence (complete r)) = serial.
Proof.
  intros Hw Hs Ha.
  assert (Hseq : command_sequence (complete r) = u32_wrap serial).
  { unfold complete. rewrite Ha. assert (Hi : u32_wrap (u32_wrap serial) = u32_wrap serial)
      by apply u32_wrap_small, u32_wrap_range.
    by destruct (result_state r); cbn. }
  rewrite Hseq. split_and!.
  5: { unfold complete. intros e. destruct (result_state r); cbn; naive_solver. }
  5: { unfold i32_wrap, u32_wrap, in_i32 in *. Z.div_mod_to_equations. lia. }
  all: unfold wait_policy in Hw; destruct (Z.eqb_spec policy WAIT_POLICY_ACCEPTED);
    unfold complete; destruct r as [sq ac st er]; destruct st; cbn in *; try done.
Qed.

Lemma response_faithful_witness :
  status (complete (mkCommandResult 3 (u32_wrap (-7)) Accepted EmptyString)) = RCS_STATUS_EXEC
  /\ i32_wrap (command_sequence (complete (mkCommandResult 3 (u32_wrap (-7)) Accepted EmptyString)))
     = -7.
Proof.
  split; [reflexivity|].
  apply (response_faithful 1 (-7) (mkCommandResult 3 (u32_wrap (-7)) Accepted EmptyString));
    [reflexivity|split; vm_compute; congruence|reflexivity].
Defined.

End CommandRpc.
