(* ===== verification/NmlPoll.v ===== *)
(** Polling LinuxCNC ([linuxcnc/nml_adapter.cc]): what the adapter reads from the
    status, position and error channels.

    [Read] copies LinuxCNC's status structures ([emc.hh], [emc_nml.hh]) into the native
    snapshot; only the members that are read occur, with the native type they are
    converted to.  [Poll] are the three polling calls around them. *)
From Stdlib Require Import String Ascii.
From stdpp Require Import pretty.
From S2P Require Import Prelude Float64 NmlStatus NmlCommand NmlAdapter.

Local Open Scope Z_scope.

(** * The status structures *)
Module Read.
Import Message.

Record EMC_JOINT_STAT := mkEmcJoint {
  jointType : Z; units : f64; backlash : f64; minPositionLimit : f64; maxPositionLimit : f64;
  minFerror : f64; maxFerror : f64; ferrorCurrent : f64; ferrorHighMark : f64;
  output : f64; input : f64; velocity : f64;
  inpos : bool; homing : bool; homed : bool; fault : bool; enabled : bool;
  minSoftLimit : bool; maxSoftLimit : bool; minHardLimit : bool; maxHardLimit : bool;
  overrideLimits : bool; available : bool;
}.

Record EMC_AXIS_STAT := mkEmcAxis {
  axis_minPositionLimit : f64; axis_maxPositionLimit : f64; axis_velocity_ : f64;
}.

Record EMC_SPINDLE_STAT := mkEmcSpindle {
  speed : f64; feedback : f64; spindle_scale : f64; css_maximum : f64; css_factor : f64;
  direction : Z; brake : bool; increasing : Z; spindle_enabled_ : bool;
  orient_state : Z; orient_fault : Z; spindle_override_enabled : bool;
  spindle_homed_ : bool; spindle_available_ : bool;
}.

Record CANON_TOOL_TABLE := mkCanonTool {
  toolno : Z; pocketno : Z; tool_offset_ : EmcPose; tool_wear_offset : EmcPose;
  tool_diameter : f64; frontangle : f64; backangle : f64; tool_orientation : Z;
  tool_comment : buffer;
}.

Record EMC_TASK_STAT := mkEmcTask {
  task_mode_ : Z; task_state_ : Z; execState : Z; interpState : Z; stopState : Z;
  callLevel : Z; motionLine : Z; currentLine : Z; readLine : Z;
  optional_stop_state : bool; block_delete_state : bool; input_timeout : bool;
  task_file : buffer; task_command : buffer; task_ini_filename : buffer;
  g5x_offset : EmcPose; g5x_index : Z; g5x_offsets : list EmcPose; g5x_rotations : list f64;
  g92_offset : EmcPose; g28_position : EmcPose; g30_position : EmcPose;
  rotation_xy : f64; toolOffset : EmcPose;
  activeGCodes : list Z; activeMCodes : list Z; activeSettings : list f64;
  programUnits : Z; interpreter_errcode : Z; task_paused : bool; delayLeft : f64;
  queuedMDIcommands : Z;
}.

Record EMC_TRAJ_STAT := mkEmcTraj {
  linearUnits : f64; angularUnits : f64; cycleTime : f64; traj_joints_ : Z; traj_spindles_ : Z;
  axis_mask : Z; traj_mode_ : Z; traj_enabled_ : bool; traj_inpos : bool; queue : Z;
  activeQueue : Z; queueFull : bool; id : Z; paused : bool; single_stepping : bool;
  scale : f64; rapid_scale : f64; position : EmcPose; actualPosition : EmcPose;
  acceleration : f64; maxVelocity : f64; maxAcceleration : f64; probedPosition : EmcPose;
  probe_tripped : bool; probing : bool; probeval : f64; kinematics_type : Z;
  motion_type_ : Z; distance_to_go : f64; dtg : EmcPose; current_vel : f64;
  feed_override_enabled : bool; adaptive_feed_enabled : bool; feed_hold_enabled : bool;
}.

Record EMC_MOTION_STAT := mkEmcMotion {
  traj : EMC_TRAJ_STAT;
  joint : list EMC_JOINT_STAT; axis : list EMC_AXIS_STAT; spindle : list EMC_SPINDLE_STAT;
  synch_di : list Z; synch_do : list Z; analog_input : list f64; analog_output : list f64;
}.

Record EMC_IO_STAT := mkEmcIo {
  pocketPrepped : Z; toolInSpindle : Z; toolFromPocket : Z;
  mist : bool; flood : bool; estop : bool;
}.

Record EMC_STAT := mkEmcStat {
  stat_echo_serial_number : Z; stat_status : Z; stat_debug : Z;
  task : EMC_TASK_STAT; motion : EMC_MOTION_STAT; io : EMC_IO_STAT;
}.

(** A string read from a character array: undefined without a terminator. *)
Definition text (b : buffer) : option string := string_of_list_ascii <$> c_string b.

Definition from_joint (source : EMC_JOINT_STAT) : NmlJointStatus :=
  {| joint_joint_type := jointType source;
     joint_units := units source;
     joint_backlash := backlash source;
     joint_min_position_limit := minPositionLimit source;
     joint_max_position_limit := maxPositionLimit source;
     joint_min_ferror := minFerror source;
     joint_max_ferror := maxFerror source;
     joint_ferror_current := ferrorCurrent source;
     joint_ferror_high_mark := ferrorHighMark source;
     joint_output := output source;
     joint_input := input source;
     joint_velocity := velocity source;
     joint_in_position := inpos source;
     joint_homing := homing source;
     joint_homed := homed source;
     joint_fault := fault source;
     joint_enabled := enabled source;
     joint_min_soft_limit := minSoftLimit source;
     joint_max_soft_limit := maxSoftLimit source;
     joint_min_hard_limit := minHardLimit source;
     joint_max_hard_limit := maxHardLimit source;
     joint_override_limits := overrideLimits source;
     joint_available := available source |}.

Definition from_axis (source : EMC_AXIS_STAT) : NmlAxisStatus :=
  mkNmlAxisStatus (axis_minPositionLimit source) (axis_maxPositionLimit source)
    (axis_velocity_ source).

Definition from_spindle (source : EMC_SPINDLE_STAT) : NmlSpindleStatus :=
  {| spindle_speed := speed source;
     spindle_feedback := feedback source;
     spindle_override_scale := spindle_scale source;
     spindle_css_maximum := css_maximum source;
     spindle_css_factor := css_factor source;
     spindle_direction := direction source;
     spindle_brake := brake source;
     spindle_increasing := increasing source;
     spindle_enabled := spindle_enabled_ source;
     spindle_orient_state := orient_state source;
     spindle_orient_fault := orient_fault source;
     spindle_spindle_override_enabled := spindle_override_enabled source;
     spindle_homed := spindle_homed_ source;
     spindle_available := spindle_available_ source |}.

(** [fill_tool], on a default entry. *)
Definition fill_tool (source : CANON_TOOL_TABLE) : option NmlToolEntry :=
  comment ← text (tool_comment source);
  Some (mkTool (toolno source) (pocketno source) (from_emc_pose (tool_offset_ source))
    (from_emc_pose (tool_wear_offset source)) 0 0 (tool_diameter source) (frontangle source)
    (backangle source) (tool_orientation source) comment
    false false false false false false false false).

(** The axes of the mask: [if (mask & (1 << index)) push_back(index)]. *)
Definition available_axes (mask : Z) : list Z :=
  filter (fun index => Z.testbit mask index = true) (seqZ 0 9).

Definition read_task (s : EMC_STAT) : option NmlTaskStatus :=
  let t := task s in
  file ← text (task_file t);
  command ← text (task_command t);
  ini_filename ← text (task_ini_filename t);
  Some
  {| ts_mode := task_mode_ t;
     ts_state := task_state_ t;
     ts_exec_state := execState t;
     ts_interp_state := interpState t;
     ts_stop_state := stopState t;
     ts_call_level := callLevel t;
     ts_motion_line := motionLine t;
     ts_current_line := currentLine t;
     ts_read_line := readLine t;
     ts_optional_stop_state := optional_stop_state t;
     ts_block_delete_state := block_delete_state t;
     ts_input_timeout := input_timeout t;
     ts_file := file;
     ts_command := command;
     ts_ini_filename := ini_filename;
     ts_g5x_offset := from_emc_pose (g5x_offset t);
     ts_g5x_index := g5x_index t;
     ts_g5x_offsets := from_emc_pose <$> g5x_offsets t;
     ts_g5x_rotations := g5x_rotations t;
     ts_g92_offset := from_emc_pose (g92_offset t);
     ts_g28_position := from_emc_pose (g28_position t);
     ts_g30_position := from_emc_pose (g30_position t);
     ts_rotation_xy := rotation_xy t;
     ts_tool_offset := from_emc_pose (toolOffset t);
     ts_active_g_codes := activeGCodes t;
     ts_active_m_codes := activeMCodes t;
     ts_active_settings := activeSettings t;
     ts_program_units := programUnits t;
     ts_interpreter_error_code := interpreter_errcode t;
     ts_task_paused := task_paused t;
     ts_delay_left := delayLeft t;
     ts_queued_mdi_commands := queuedMDIcommands t |}.

Definition read_traj (t : EMC_TRAJ_STAT) : NmlTrajectoryStatus :=
  {| traj_linear_units := linearUnits t;
     traj_angular_units := angularUnits t;
     traj_cycle_time := cycleTime t;
     traj_joints := traj_joints_ t;
     traj_spindles := traj_spindles_ t;
     traj_available_axes := available_axes (axis_mask t);
     traj_mode := traj_mode_ t;
     traj_enabled := traj_enabled_ t;
     traj_in_position := traj_inpos t;
     traj_queue := queue t;
     traj_active_queue := activeQueue t;
     traj_queue_full := queueFull t;
     traj_id := id t;
     traj_paused := paused t;
     traj_single_stepping := single_stepping t;
     traj_feed_rate_override := scale t;
     traj_rapid_rate_override := rapid_scale t;
     traj_position := from_emc_pose (position t);
     traj_actual_position := from_emc_pose (actualPosition t);
     traj_acceleration := acceleration t;
     traj_max_velocity := maxVelocity t;
     traj_max_acceleration := maxAcceleration t;
     traj_probed_position := from_emc_pose (probedPosition t);
     traj_probe_tripped := probe_tripped t;
     traj_probing := probing t;
     traj_probe_val := probeval t;
     traj_kinematics_type := kinematics_type t;
     traj_motion_type := motion_type_ t;
     traj_distance_to_go := distance_to_go t;
     traj_dtg := from_emc_pose (dtg t);
     traj_current_velocity := current_vel t;
     traj_feed_override_enabled := feed_override_enabled t;
     traj_adaptive_feed_enabled := adaptive_feed_enabled t;
     traj_feed_hold_enabled := feed_hold_enabled t |}.

Definition read_motion (m : EMC_MOTION_STAT) : NmlMotionStatus :=
  {| motion_traj := read_traj (traj m);
     motion_joints := from_joint <$> joint m;
     motion_axes := from_axis <$> axis m;
     motion_spindles := from_spindle <$> spindle m;
     motion_digital_input := synch_di m;
     motion_digital_output := synch_do m;
     motion_analog_input := analog_input m;
     motion_analog_output := analog_output m |}.

Definition read_io (i : EMC_IO_STAT) : NmlIoStatus :=
  mkNmlIoStatus (pocketPrepped i) (toolInSpindle i) (toolFromPocket i) (mist i) (flood i) (estop i).

(** What the tool data library answers: whether it can be attached and, if the
    snapshot succeeds, the table it filled and its last index. *)
Record ToolData := mkToolData {
  mmap_ok : bool;
  tool_snapshot : option (list CANON_TOOL_TABLE * Z);
}.

(** [for (index = 0; index <= min(CANON_POCKETS_MAX - 1, last); ++index)] *)
Definition read_tools (pockets_max : Z) (d : ToolData) : option (list NmlToolEntry) :=
  match mmap_ok d, tool_snapshot d with
  | true, Some (table, last) =>
      mapM fill_tool (take (Z.to_nat (Z.min (pockets_max - 1) last + 1)) table)
  | _, _ => Some []
  end.

(** The snapshot [poll_status] fills. *)
Definition read_status (pockets_max : Z) (d : ToolData) (s : EMC_STAT) : option NmlStatusSnapshot :=
  task_ ← read_task s;
  tools ← read_tools pockets_max d;
  Some
  {| echo_serial_number := stat_echo_serial_number s;
     rcs_status := stat_status s;
     task_mode := task_mode_ (task s);
     task_state := task_state_ (task s);
     exec_state := execState (task s);
     interp_state := interpState (task s);
     stop_state := stopState (task s);
     current_line := currentLine (task s);
     motion_line := motionLine (task s);
     read_line := readLine (task s);
     optional_stop := optional_stop_state (task s);
     block_delete := block_delete_state (task s);
     file := ts_file task_;
     command := ts_command task_;
     ini_filename := ts_ini_filename task_;
     debug := stat_debug s;
     motion_type := motion_type_ (traj (motion s));
     actual_position := from_emc_pose (actualPosition (traj (motion s)));
     task_stat := task_;
     motion_stat := read_motion (motion s);
     io_stat := read_io (io s);
     tool_table := tools |}.

End Read.

(** * The polling calls *)
Module Poll.
Import Message Read Channel Adapter.

(** The message types of LinuxCNC the adapter tells apart. *)
Class NmlTypes := {
  EMC_STAT_TYPE : Z;
  EMC_OPERATOR_ERROR_TYPE : Z;
  EMC_OPERATOR_TEXT_TYPE : Z;
  EMC_OPERATOR_DISPLAY_TYPE : Z;
  NML_ERROR_TYPE : Z;
  NML_TEXT_TYPE : Z;
  NML_DISPLAY_TYPE : Z;
}.

Record NmlPositionSnapshot := mkPositionSnapshot {
  commanded : NmlPose;
  tool_offset : NmlPose;
  position_motion_type : Z;
}.

Record NmlErrorEvent := mkErrorEvent { error_type : Z; error_message : string }.

(** [peek] and [get_address] of a status channel. *)
Record StatChannel := mkStatChannel { peek : Z; address : option EMC_STAT }.

(** [read] and [get_address] of the error channel: the character array of a text
    message. *)
Record ErrorChannel := mkErrorChannel { read : Z; text_address : option buffer }.

(** [nml_text]: the bytes before the first terminator, all of them without one. *)
Fixpoint nml_text (b : buffer) : list ascii :=
  match b with
  | [] => []
  | c :: b' => if Ascii.eqb c NUL then [] else c :: nml_text b'
  end.

Section Poll.
Context `{NmlTypes} {E : EmcNml} `{Tracker.RcsStatus} (command_of : nat -> Command.NmlCommand)
  (hooks_of : nat -> Hooks).

Definition status_peek (d : ToolData) (c : StatChannel) : option Peek :=
  if peek c =? -1 then Some PeekError
  else if negb (peek c =? EMC_STAT_TYPE) then Some PeekOther
  else match address c with
       | None => Some (PeekStat None)
       | Some s => PeekStat ∘ Some <$> read_status canon_pockets_max d s
       end.

(** [poll_status], for a non-null argument; [None] is undefined behaviour. *)
Definition poll_status (now : Z) (valid : bool) (d : ToolData) (c : StatChannel) (a : NmlAdapter) :
    option (NmlAdapter * NmlStatusPoll * option NmlStatusSnapshot) :=
  p ← (if (get now valid (status_channel a)).2 then status_peek d c else Some PeekError);
  let '(a', result) := Adapter.poll_status hooks_of now valid p a in
  Some (a', result, match result, p with Updated, PeekStat s => s | _, _ => None end).

(** [poll_position], for a non-null argument; [channel]: its own status reader. *)
Definition poll_position (now : Z) (valid : bool) (c : StatChannel)
    (completions : Tracker.CommandCompletionTracker) (channel : OwnedChannel) :
    OwnedChannel * NmlStatusPoll * option NmlPositionSnapshot :=
  let (ch, available) := get now valid channel in
  if negb available then (ch, Disconnected, None)
  else if peek c =? -1 then (channel_failed now ch, Disconnected, None)
  else if negb (peek c =? EMC_STAT_TYPE) then
    (ch, if Tracker.fresh now completions then Idle else Stale, None)
  else match address c with
       | None => (channel_failed now ch, Disconnected, None)
       | Some status =>
           (ch, Updated,
            Some (mkPositionSnapshot (from_emc_pose (position (traj (motion status))))
                    (from_emc_pose (toolOffset (task status)))
                    (motion_type_ (traj (motion status)))))
       end.

(** The text messages; every other type is described by its number. *)
Definition is_text (type : Z) : bool :=
  bool_decide (type ∈ [EMC_OPERATOR_ERROR_TYPE; EMC_OPERATOR_TEXT_TYPE; EMC_OPERATOR_DISPLAY_TYPE;
                       NML_ERROR_TYPE; NML_TEXT_TYPE; NML_DISPLAY_TYPE]).

Definition error_event (type : Z) (b : buffer) : NmlErrorEvent :=
  mkErrorEvent (i32_wrap type)
    (if is_text type then string_of_list_ascii (nml_text b)
     else "NML message type " +:+ pretty type).

(** [poll_error] *)
Definition poll_error (now : Z) (valid : bool) (c : ErrorChannel) (channel : OwnedChannel) :
    OwnedChannel * option NmlErrorEvent :=
  let (ch, available) := get now valid channel in
  if negb available then (ch, None)
  else if read c =? -1 then (channel_failed now ch, None)
  else if read c =? 0 then (ch, None)
  else match text_address c with
       | None => (channel_failed now ch, None)
       | Some b => (ch, Some (error_event (read c) b))
       end.

End Poll.

(** ** What is read *)

Lemma nml_text_c_str b : nml_text b = c_str b.
Proof. induction b as [|c b IH]; cbn; [done|]. by rewrite IH. Qed.

(** A message written by [strncpy] and terminated is read back. *)
Lemma nml_text_c_string b t : c_string b = Some t -> nml_text b = t.
Proof.
  revert t. induction b as [|c b IH]; intros t; cbn; [done|].
  destruct (Ascii.eqb c NUL); [by intros [= <-]|].
  intros (t' & Ht & ->)%fmap_Some. f_equal. by apply IH.
Qed.

Lemma text_nml b t : text b = Some t -> string_of_list_ascii (nml_text b) = t.
Proof. unfold text. intros (l & Hl & ->)%fmap_Some. by rewrite (nml_text_c_string _ _ Hl). Qed.

Lemma available_axes_spec mask i :
  i ∈ available_axes mask <-> 0 <= i < 9 /\ Z.testbit mask i = true.
Proof. unfold available_axes. rewrite list_elem_of_filter, elem_of_seqZ. naive_solver lia. Qed.

(** The position reader and the full status reader show the same position. *)
Lemma position_readers_agree `{NmlTypes} {E : EmcNml} d status s :
  read_status canon_pockets_max d status = Some s ->
  traj_position (motion_traj (motion_stat s)) = from_emc_pose (position (traj (motion status)))
  /\ ts_tool_offset (task_stat s) = from_emc_pose (toolOffset (task status))
  /\ motion_type s = motion_type_ (traj (motion status)).
Proof.
  unfold read_status, read_task. intros H1.
  repeat (apply bind_Some in H1 as (? & ? & H1) || simplify_option_eq). done.
Qed.

End Poll.
