(* ===== verification/ErrorStream.v ===== *)
(** The error stream of the machine service ([machine/grpc/service.cc]): the ring of
    retained operator messages, the poller thread that publishes them and the
    [ErrorReactor] of each [WatchErrors] call.

    The poller publishes an event, takes the subscribers of the hub and wakes them one
    after the other; the callbacks of gRPC, the constructors of new streams and the end
    of the service interleave with it.  A reactor's gate makes each of its callbacks one
    step. *)
From Stdlib Require Import String.
From S2P Require Import Prelude CallbackRuntime StreamWrite NmlPoll.

Local Open Scope Z_scope.

Module Errors.
Import Poll.

#[local] Existing Instance Gate.GateState_eq_dec.

Inductive Status := OK | CANCELLED | RESOURCE_EXHAUSTED | UNAVAILABLE.

#[export] Instance Status_eq_dec : EqDecision Status.
Proof. solve_decision. Defined.

(** The message of the stream. *)
Record LinuxCNCError := mkLinuxCNCError { type : Z; message : string; sequence : Z }.

Abbreviation Deferred := (DeferredFinish.DeferredWriteFinish (Status := Status)).
Abbreviation ErrorRing := (Ring.SequencedRing (Event := NmlErrorEvent)).

(** [errors_{256}] *)
Definition ring_capacity : nat := 256.

(** ** The reactor *)

(** What ends a stream: the subscription, the write discipline and the gate;
    [finished]: the status given to [Finish]. *)
Record Stream := mkStream {
  subscribed : bool;
  write_finish : Deferred;
  gate : Gate.GateState;
  finished : option Status;
}.

(** How far the constructor has come: registered and admitted, subscribed, returned. *)
Inductive Constructor := Registered | Subscribed | Returned.

(** [received]: the messages the client got.  The last three members are read by no
    operation: the number of events published when the call arrived and when the
    constructor returned, and the index of the first event that was written. *)
Record ErrorReactor := mkReactor {
  after_sequence : Z;
  admitted : bool;
  constructor : Constructor;
  stream : Stream;
  cursor : Z;
  writing_sequence : Z;
  message_ : option LinuxCNCError;
  received : list LinuxCNCError;
  opened : nat;
  ready : nat;
  origin : nat;
}.

Definition set_stream (s : Stream) (r : ErrorReactor) : ErrorReactor :=
  mkReactor (after_sequence r) (admitted r) (constructor r) s (cursor r) (writing_sequence r)
    (message_ r) (received r) (opened r) (ready r) (origin r).
Definition set_cursor (c : Z) (r : ErrorReactor) : ErrorReactor :=
  mkReactor (after_sequence r) (admitted r) (constructor r) (stream r) c (writing_sequence r)
    (message_ r) (received r) (opened r) (ready r) (origin r).
Definition set_constructor (c : Constructor) (n : nat) (r : ErrorReactor) : ErrorReactor :=
  mkReactor (after_sequence r) (admitted r) c (stream r) (cursor r) (writing_sequence r)
    (message_ r) (received r) (opened r) n (origin r).

Definition set_subscribed (b : bool) (s : Stream) : Stream :=
  mkStream b (write_finish s) (gate s) (finished s).
Definition set_write_finish (d : Deferred) (s : Stream) : Stream :=
  mkStream (subscribed s) d (gate s) (finished s).

(** [finish_if_ready] *)
Definition finish_if_ready (s : Stream) : Stream * bool :=
  let '(d, st) := DeferredFinish.take_finish_status (write_finish s) in
  match st with
  | None => (set_write_finish d s, false)
  | Some status =>
      (if bool_decide (gate s = Gate.Open) then mkStream false d Gate.Finishing (Some status)
       else set_write_finish d s, true)
  end.

Definition request_finish (status : Status) (s : Stream) : Stream :=
  let s1 := set_subscribed false s in
  (finish_if_ready (set_write_finish (DeferredFinish.request_finish status (write_finish s1)) s1)).1.

Definition flying (s : Stream) : bool := DeferredFinish.write_in_flight (write_finish s).

Definition encode (e : Ring.Entry (Event := NmlErrorEvent)) : LinuxCNCError :=
  mkLinuxCNCError (error_type (Ring.event e)) (error_message (Ring.event e)) (Ring.sequence e).

(** [wake] *)
Definition wake (errors : ErrorRing) (r : ErrorReactor) : ErrorReactor :=
  let s := stream r in
  if flying s || DeferredFinish.termination_requested (write_finish s)
     || negb (bool_decide (gate s = Gate.Open))
  then r
  else
    let available := Ring.after (cursor r) errors in
    if Ring.behind available then set_stream (request_finish RESOURCE_EXHAUSTED s) r
    else match Ring.read_entries available with
         | [] => r
         | entry :: _ =>
             let '(d, started) := DeferredFinish.try_start_write (write_finish s) in
             mkReactor (after_sequence r) (admitted r) (constructor r)
               (if started then set_write_finish d s else s) (cursor r) (Ring.sequence entry)
               (Some (encode entry)) (received r) (opened r) (ready r)
               (match received r with
                | [] => Z.to_nat (Ring.sequence entry - 1)
                | _ => origin r
                end)
         end.

(** [OnWriteDone]; the client has the message when the write succeeded. *)
Definition on_write_done (ok : bool) (errors : ErrorRing) (r : ErrorReactor) : ErrorReactor :=
  let '(s1, finishing) :=
    finish_if_ready
      (set_write_finish (DeferredFinish.complete_write OK ok (write_finish (stream r))) (stream r)) in
  let r1 :=
    mkReactor (after_sequence r) (admitted r) (constructor r) s1 (cursor r) (writing_sequence r)
      (message_ r) (received r ++ if ok then option_list (message_ r) else []) (opened r) (ready r)
      (origin r) in
  if finishing || negb ok then r1 else wake errors (set_cursor (writing_sequence r1) r1).

Definition on_cancel (r : ErrorReactor) : ErrorReactor :=
  set_stream (request_finish CANCELLED (set_subscribed false (stream r))) r.

Definition shutdown (r : ErrorReactor) : ErrorReactor :=
  set_stream (request_finish UNAVAILABLE (set_subscribed false (stream r))) r.

(** [OnDone]; the unit of the stream admission goes back to its counter. *)
Definition on_done (r : ErrorReactor) : ErrorReactor :=
  mkReactor (after_sequence r) (admitted r) (constructor r)
    (mkStream false (write_finish (stream r)) Gate.Done (finished (stream r))) (cursor r)
    (writing_sequence r) (message_ r) (received r) (opened r) (ready r) (origin r).

(** The constructor up to the subscription. *)
Definition construct (after : Z) (registered adm : bool) (n : nat) : ErrorReactor :=
  let r := mkReactor after adm Registered (mkStream false DeferredFinish.make Gate.Open None) 0 0
             None [] n n 0 in
  if negb registered then set_constructor Returned n (shutdown r)
  else if negb adm then
    set_constructor Returned n (set_stream (request_finish RESOURCE_EXHAUSTED (stream r)) r)
  else set_cursor after r.

(** ** The service *)

(** The poller: an event is in the ring and the subscribers are not taken yet, or those
    that are still to be woken. *)
Inductive Poller := Published | Waking (ids : list nat).

(** [log]: every event ever published. *)
Record World := mkWorld {
  errors : ErrorRing;
  reactors : list ErrorReactor;
  poller : Poller;
  hub_closed : bool;
  log : list NmlErrorEvent;
}.

Definition set_reactor (k : nat) (r : ErrorReactor) (w : World) : World :=
  mkWorld (errors w) (<[k := r]> (reactors w)) (poller w) (hub_closed w) (log w).
Definition set_poller (p : Poller) (w : World) : World :=
  mkWorld (errors w) (reactors w) p (hub_closed w) (log w).

Definition start : World := mkWorld (Ring.mkRing ring_capacity [] 1) [] (Waking []) false [].

(** The streams in the hub. *)
Definition subscribers (rs : list ErrorReactor) : list nat :=
  filter (fun k => (from_option (subscribed ∘ stream) false (rs !! k)) = true) (seq 0 (length rs)).

Inductive Step :=
| Connect (after : Z) (registered adm : bool)
| ConstructorStep (k : nat)
| Publish (e : NmlErrorEvent)      (* the poller, with a new event *)
| Notify                           (* the hub's [publish]: takes the subscribers *)
| Wake (k : nat)                   (* ... and calls one of them *)
| WriteDone (k : nat) (ok : bool)
| Cancel (k : nat)
| Shutdown (k : nat)               (* the registered callback *)
| Done (k : nat)
| CloseHub.

(** A callback of reactor [k], if its gate admits it. *)
Definition on_reactor (k : nat) (guard : ErrorReactor -> bool) (f : ErrorReactor -> ErrorReactor)
    (w : World) : World :=
  match reactors w !! k with
  | Some r => if guard r then set_reactor k (f r) w else w
  | None => w
  end.

Definition open (r : ErrorReactor) : bool := bool_decide (gate (stream r) = Gate.Open).
Definition returned (r : ErrorReactor) : bool :=
  match constructor r with Returned => true | _ => false end.

Definition constructor_step (errors : ErrorRing) (closed : bool) (n : nat) (r : ErrorReactor) :
    ErrorReactor :=
  match constructor r with
  | Registered => set_constructor Subscribed n (set_stream (set_subscribed (negb closed) (stream r)) r)
  | Subscribed => set_constructor Returned n (if open r then wake errors r else r)
  | Returned => r
  end.

(** gRPC delivers its reactions after the constructor has returned. *)
Definition step (w : World) (s : Step) : World :=
  match s with
  | Connect after registered adm =>
      mkWorld (errors w) (reactors w ++ [construct (u64_wrap after) registered adm (length (log w))])
        (poller w) (hub_closed w) (log w)
  | ConstructorStep k =>
      on_reactor k (fun _ => true) (constructor_step (errors w) (hub_closed w) (length (log w))) w
  | Publish e =>
      match poller w with
      | Waking [] =>
          mkWorld (Ring.publish e (errors w)).1 (reactors w) Published (hub_closed w) (log w ++ [e])
      | _ => w
      end
  | Notify =>
      match poller w with
      | Published =>
          set_poller (Waking (if hub_closed w then [] else subscribers (reactors w))) w
      | _ => w
      end
  | Wake k =>
      match poller w with
      | Waking ids =>
          if bool_decide (k ∈ ids) then
            set_poller (Waking (filter (fun j => j <> k) ids)) (on_reactor k open (wake (errors w)) w)
          else w
      | Published => w
      end
  | WriteDone k ok =>
      on_reactor k (fun r => returned r && flying (stream r) && open r) (on_write_done ok (errors w)) w
  | Cancel k => on_reactor k (fun r => returned r && open r) on_cancel w
  | Shutdown k => on_reactor k open shutdown w
  | Done k =>
      on_reactor k (fun r => returned r && bool_decide (is_Some (finished (stream r)))) on_done w
  | CloseHub => mkWorld (errors w) (reactors w) (poller w) true (log w)
  end.

Definition run (steps : list Step) : World := foldl step start steps.

(** ** What a stream delivers *)

(** Everything that was published, as messages. *)
Definition events (log : list NmlErrorEvent) : list LinuxCNCError := encode <$> Ring.number 1 log.

(** The number of events the ring has dropped. *)
Definition evicted (log : list NmlErrorEvent) : nat := length log - ring_capacity.

Definition live (r : ErrorReactor) : Prop :=
  DeferredFinish.terminal_status (write_finish (stream r)) = None
  /\ DeferredFinish.finish_started (write_finish (stream r)) = false
  /\ gate (stream r) = Gate.Open.

Definition pending (k : nat) (p : Poller) : Prop :=
  match p with Published => True | Waking ids => k ∈ ids end.

(** The stream has begun to write. *)
Definition started (r : ErrorReactor) : Prop := received r <> [] \/ flying (stream r) = true.

(** The next event of a stream was evicted, or its cursor has no successor. *)
Definition lost (log : list NmlErrorEvent) (r : ErrorReactor) : Prop :=
  cursor r <> 0 /\ (cursor r < Z.of_nat (evicted log) \/ cursor r = 2 ^ 64 - 1).

Lemma length_events l : length (events l) = length l.
Proof. unfold events. by rewrite length_fmap, Ring.length_number. Qed.

Lemma events_app l k : exists m, events (l ++ k) = events l ++ m.
Proof. unfold events. rewrite Ring.number_app, fmap_app. eauto. Qed.

Lemma number_lookup n (l : list NmlErrorEvent) i e :
  Ring.number n l !! i = Some e -> Ring.sequence e = n + Z.of_nat i.
Proof.
  revert n i. induction l as [|x l IH]; intros n [|i]; cbn; [done..| |].
  - intros [= <-]. cbn. lia.
  - intros H. rewrite (IH _ _ H). lia.
Qed.

(** The ring after [log], and what a cursor reads of it. *)
Definition ring_of (log : list NmlErrorEvent) : ErrorRing :=
  Ring.mkRing ring_capacity (keep_last ring_capacity (Ring.number 1 log)) (Z.of_nat (length log) + 1).

Definition bounded (log : list NmlErrorEvent) : Prop := Z.of_nat (length log) + 2 < 2 ^ 64.

Lemma ring_of_publish log e :
  bounded (log ++ [e]) -> (Ring.publish e (ring_of log)).1 = ring_of (log ++ [e]).
Proof.
  unfold bounded. intros Hb.
  assert (Hm : Ring.make ring_capacity = Ok (Ring.mkRing (Event := NmlErrorEvent) ring_capacity [] 1)) by done.
  unfold ring_of. rewrite length_app in *. cbn [length] in *.
  rewrite <- (Ring.publish_all_entries ring_capacity _ log Hm) by lia.
  unfold ring_of. replace (length log + 1)%nat with (length (log ++ [e])) by (rewrite length_app; cbn; lia).
  rewrite <- (Ring.publish_all_entries ring_capacity _ (log ++ [e]) Hm) by (rewrite length_app; cbn; lia).
  unfold Ring.publish_all. by rewrite foldl_app.
Qed.

Lemma keep_last_lookup log i :
  (Ring.number 1 log : list (Ring.Entry (Event := NmlErrorEvent))) !! (evicted log + i)%nat
  = keep_last ring_capacity (Ring.number 1 log) !! i.
Proof.
  unfold keep_last. rewrite lookup_drop, Ring.length_number. by unfold evicted.
Qed.

Lemma after_ring c log :
  in_u64 c -> bounded log ->
  let a := Ring.after c (ring_of log) in
  (Ring.behind a = true -> c <> 0 /\ (c < Z.of_nat (evicted log) \/ c = 2 ^ 64 - 1))
  /\ (Ring.behind a = false ->
      match Ring.read_entries a with
      | [] => Z.of_nat (length log) <= c
      | e :: _ => exists i : nat, Ring.number 1 log !! i = Some e /\ (evicted log <= i)%nat
          /\ (c = 0 -> i = evicted log) /\ (c <> 0 -> Z.of_nat i = c)
      end).
Proof.
  unfold in_u64, bounded. intros Hc Hb. cbn zeta. unfold Ring.after, ring_of. cbn [Ring.entries].
  pose proof (keep_last_lookup log) as Hk. rewrite Ring.keep_last_number in *.
  fold (evicted log) in *. set (k := evicted log) in *. set (l := drop k log) in *.
  assert (Hl : length l = (length log - k)%nat) by (unfold l; by rewrite length_drop).
  assert (Hkl : (k = length log - ring_capacity)%nat) by done.
  destruct (Ring.number (1 + Z.of_nat k) l) as [|x rest] eqn:En.
  - cbn. split; [done|]. intros _. apply (f_equal length) in En.
    rewrite Ring.length_number in En. cbn in En. unfold ring_capacity in Hkl. lia.
  - assert (Hx : Ring.sequence x = 1 + Z.of_nat k).
    { rewrite (number_lookup (1 + Z.of_nat k) l 0); [lia|by rewrite En]. }
    rewrite <- En in *. rewrite Hx. unfold u64_wrap.
    destruct (negb (c =? 0) && _) eqn:Eb; cbn [Ring.behind Ring.read_entries].
    + split; [|done]. intros _. bool_to_prop. split; [done|].
      destruct (decide (c = 2 ^ 64 - 1)); [by right|left]. rewrite Z.mod_small in * by lia. lia.
    + split; [done|]. intros _. destruct (decide (c = 0)) as [->|Hc0].
      * rewrite Ring.number_filter_all, En by lia. exists k. split_and!; try done.
        replace k with (k + 0)%nat by lia. by rewrite Hk, En.
      * assert (Hck : Z.of_nat k <= c).
        { apply andb_false_iff in Eb as [Eb|Eb]; bool_to_prop; [lia|].
          destruct (decide (c = 2 ^ 64 - 1)) as [->|]; [cbn in Eb; lia|].
          rewrite Z.mod_small in Eb by lia. lia. }
        rewrite Ring.number_filter by lia. set (j := Z.to_nat _).
        assert (Hj : (Z.of_nat j = c - Z.of_nat k)%Z) by (unfold j; lia).
        destruct (drop j _) as [|e rest'] eqn:Ed.
        -- apply (f_equal length) in Ed. rewrite length_drop, Ring.length_number in Ed. cbn in Ed. lia.
        -- exists (k + j)%nat. split_and!; try done; try lia. rewrite Hk.
           rewrite <- (Nat.add_0_r j), <- lookup_drop, Ed. done.
Qed.

(** ** Ends of streams *)

Record stream_ok (s : Stream) : Prop := mkStreamOk {
  sok_open : gate s = Gate.Open -> DeferredFinish.finish_started (write_finish s) = false;
  sok_started : DeferredFinish.finish_started (write_finish s) = true ->
    is_Some (DeferredFinish.terminal_status (write_finish s));
  sok_finished : forall x, finished s = Some x ->
    DeferredFinish.terminal_status (write_finish s) = Some x;
}.

Abbreviation terminal s := (DeferredFinish.terminal_status (write_finish s)).

Definition stream_live (s : Stream) : Prop :=
  terminal s = None /\ DeferredFinish.finish_started (write_finish s) = false /\ gate s = Gate.Open.

Lemma live_stream r : live r <-> stream_live (stream r).
Proof. done. Qed.

Lemma finish_if_ready_ok s :
  stream_ok s ->
  let '(s', b) := finish_if_ready s in
  stream_ok s' /\ flying s' = flying s /\ terminal s' = terminal s
  /\ (subscribed s' = true -> subscribed s = true)
  /\ (stream_live s' <-> stream_live s) /\ (stream_live s -> s' = s /\ b = false)
  /\ (flying s = false -> is_Some (terminal s) -> gate s = Gate.Open -> b = true).
Proof.
  destruct s as [sub [fl fs ts] g fin]. intros [H1 H2 H3]. cbn in *.
  unfold finish_if_ready, DeferredFinish.take_finish_status. cbn.
  destruct fl, ts as [t|], fs; cbn; try case_bool_decide as Eg; cbn;
    unfold stream_live; cbn; split_and!; try done;
    try (split; cbn; naive_solver); naive_solver.
Qed.

Lemma errors_request_finish_ok st s :
  stream_ok s ->
  let s' := request_finish st s in
  stream_ok s' /\ flying s' = flying s /\ ~ stream_live s'
  /\ terminal s' = Some (default st (terminal s)).
Proof.
  intros Hs. cbn zeta. unfold request_finish.
  set (s1 := set_write_finish _ _).
  assert (H1 : stream_ok s1 /\ flying s1 = flying s /\ terminal s1 = Some (default st (terminal s))).
  { destruct s as [sub [fl fs ts] g fin]. destruct Hs as [H1 H2 H3]. unfold s1. cbn in *.
    unfold DeferredFinish.request_finish. cbn. destruct ts as [t|], fs; cbn; split_and!; try done;
      try (split; cbn; naive_solver); naive_solver. }
  destruct H1 as (Hok & Hf & Ht). pose proof (finish_if_ready_ok s1 Hok) as H.
  destruct (finish_if_ready s1) as [s2 b]. cbn [fst]. destruct H as (H1 & H2 & H3 & _ & _ & _).
  split_and!; [done|congruence| |congruence]. intros (E & _). congruence.
Qed.

(** ** The invariant of a stream *)

(** The number of events published until the stream could start. *)
Definition bound (log : list NmlErrorEvent) (r : ErrorReactor) : nat :=
  match constructor r with Returned => ready r | _ => length log end.

Record reactor_ok (log : list NmlErrorEvent) (r : ErrorReactor) : Prop := mkReactorOk {
  rok_stream : stream_ok (stream r);
  rok_range : in_u64 (cursor r) /\ in_u64 (after_sequence r);
  rok_unstarted : received r = [] -> live r -> cursor r = after_sequence r;
  rok_cursor : received r <> [] -> live r -> cursor r = Z.of_nat (origin r + length (received r));
  rok_prefix : received r `prefix_of` drop (origin r) (events log);
  rok_flying : flying (stream r) = true -> exists m, message_ r = Some m
    /\ drop (origin r) (events log) !! length (received r) = Some m
    /\ writing_sequence r = Z.of_nat (origin r + length (received r)) + 1;
  rok_origin : started r ->
    (after_sequence r <> 0 -> Z.of_nat (origin r) = after_sequence r)
    /\ (after_sequence r = 0 -> (opened r - ring_capacity <= origin r <= bound log r - ring_capacity)%nat);
  rok_counts : (opened r <= bound log r <= length log)%nat;
  rok_registered : constructor r = Registered -> ~ started r;
  rok_terminal : terminal (stream r) = Some RESOURCE_EXHAUSTED -> admitted r = false \/ lost log r;
}.

(** More events. *)
Lemma reactor_ok_app log l r : reactor_ok log r -> reactor_ok (log ++ l) r.
Proof.
  intros [H1 H2 H3 H4 H5 H6 H7 H8 H9 H10]. destruct (events_app log l) as [m Hm].
  assert (Hd : (origin r <= length log)%nat -> drop (origin r) (events (log ++ l)) = drop (origin r) (events log) ++ m).
  { intros Ho. rewrite Hm, drop_app_le; [done|by rewrite length_events]. }
  assert (Hb : (bound log r <= bound (log ++ l) r)%nat).
  { unfold bound. rewrite length_app. destruct (constructor r); lia. }
  split; try done.
  - destruct (decide (origin r <= length log)%nat) as [Ho|Ho]; [rewrite Hd by done; by apply prefix_app_r|].
    rewrite (drop_ge (events log)) in H5 by (rewrite length_events; lia).
    apply prefix_nil_inv in H5 as ->. apply prefix_nil.
  - intros Hf. destruct (H6 Hf) as (x & Hx & Hl & Hw). exists x. split_and!; try done.
    apply lookup_lt_Some in Hl as Hlt. rewrite length_drop, length_events in Hlt.
    rewrite Hd by lia. by apply lookup_app_l_Some.
  - intros Hs. destruct (H7 Hs) as [Ha Hz]. split; [done|]. intros E. specialize (Hz E). lia.
  - split; [lia|]. unfold bound in *. rewrite length_app. destruct (constructor r); lia.
  - intros E. destruct (H10 E) as [?|[Hc Hl]]; [by left|right]. split; [done|].
    unfold evicted in *. rewrite length_app. lia.
Qed.

(** A change of the stream that leaves its data. *)
Lemma reactor_ok_stream log r s' :
  reactor_ok log r -> stream_ok s' -> flying s' = flying (stream r) ->
  (stream_live s' -> stream_live (stream r)) ->
  (terminal s' = Some RESOURCE_EXHAUSTED -> admitted r = false \/ lost log r) ->
  reactor_ok log (set_stream s' r).
Proof.
  intros [H1 H2 H3 H4 H5 H6 H7 H8 H9 H10] Hs Hf Hl Ht.
  split; unfold started in *; cbn; rewrite ?Hf; try done.
  - intros E L. apply H3, Hl, L. done.
  - intros E L. apply H4, Hl, L. done.
Qed.

Lemma end_stream_ok log r st :
  reactor_ok log r -> (st = RESOURCE_EXHAUSTED -> admitted r = false \/ lost log r) ->
  forall s, s = stream r \/ s = set_subscribed false (stream r) ->
  reactor_ok log (set_stream (request_finish st s) r) /\ ~ live (set_stream (request_finish st s) r).
Proof.
  intros Hr Hst s Hs.
  assert (Hok : stream_ok s /\ flying s = flying (stream r) /\ terminal s = terminal (stream r)).
  { destruct Hs as [-> | ->]; split_and!; try done; [apply Hr|]. destruct (rok_stream _ _ Hr). by split. }
  destruct Hok as (Hok & Hf & Ht). destruct (errors_request_finish_ok st s Hok) as (H1 & H2 & H3 & H4).
  split; [|done]. apply reactor_ok_stream; [done..|congruence| |].
  - intros L. by destruct H3.
  - rewrite H4, Ht. intros [= E]. destruct (terminal (stream r)) as [t|] eqn:Et; cbn in E; [|auto].
    subst t. by apply (rok_terminal _ _ Hr).
Qed.

(** ** Waking a stream *)

Record woken (log : list NmlErrorEvent) (r r' : ErrorReactor) : Prop := mkWoken {
  wok_ok : reactor_ok log r';
  wok_constructor : constructor r' = constructor r;
  wok_ready : ready r' = ready r;
  wok_live : live r' -> live r /\ subscribed (stream r') = subscribed (stream r);
  wok_synced : live r' -> flying (stream r') = false -> Z.of_nat (length log) <= cursor r';
}.

Lemma errors_live_not_terminated r :
  live r -> DeferredFinish.termination_requested (write_finish (stream r)) = false.
Proof. intros (H1 & H2 & _). unfold DeferredFinish.termination_requested. by rewrite H1, H2. Qed.

Lemma event_at log i e :
  Ring.number 1 log !! i = Some e -> events log !! i = Some (encode e) /\ Ring.sequence e = Z.of_nat i + 1.
Proof.
  intros H. split; [unfold events; by rewrite list_lookup_fmap, H|].
  rewrite (number_lookup _ _ _ _ H). lia.
Qed.

Lemma wake_ok log r :
  reactor_ok log r -> bounded log -> constructor r <> Registered ->
  (received r = [] -> returned r = true -> live r -> flying (stream r) = false ->
   Z.of_nat (length log) <= cursor r + 1) ->
  woken log r (wake (ring_of log) r).
Proof.
  intros Hr Hb Hc Hnew. unfold wake.
  destruct (flying (stream r) || _ || _) eqn:Eg.
  - split; try done. intros L Hf. rewrite Hf, errors_live_not_terminated in Eg by done.
    destruct L as (_ & _ & L). by rewrite bool_decide_eq_true_2 in Eg.
  - apply orb_false_iff in Eg as [[Ef Et]%orb_false_iff Eo]. bool_to_prop.
    assert (L : live r).
    { unfold DeferredFinish.termination_requested in Et. apply orb_false_iff in Et as [Et Es].
      bool_to_prop. by rewrite <- eq_None_not_Some in Et. }
    destruct (rok_range _ _ Hr) as [Hrange _].
    pose proof (after_ring (cursor r) log Hrange Hb) as Ha. cbn zeta in Ha.
    destruct (Ring.after (cursor r) (ring_of log)) as [behind entries]. cbn [Ring.behind Ring.read_entries] in *.
    destruct Ha as [Hlost Hnext]. destruct behind.
    + destruct (end_stream_ok log r RESOURCE_EXHAUSTED Hr ltac:(by right; apply Hlost) (stream r) ltac:(by left))
        as [H1 H2]. by split.
    + specialize (Hnext eq_refl). destruct entries as [|e rest]; [by split|].
      destruct Hnext as (i & Hi & Hev & Hz & Hnz). destruct (event_at _ _ _ Hi) as [Hm Hseq].
      assert (Htry : DeferredFinish.try_start_write (write_finish (stream r))
        = (DeferredFinish.mkDeferred true false None, true)).
      { destruct L as (L1 & L2 & _). unfold flying in Ef. unfold DeferredFinish.try_start_write.
        by rewrite Ef, L1, L2. }
      rewrite Htry. set (o := match received r with [] => _ | _ => _ end).
      assert (Hlt : (i < length log)%nat).
      { apply lookup_lt_Some in Hm. by rewrite length_events in Hm. }
      assert (Ho : (i = o + length (received r))%nat).
      { unfold o. destruct (received r) as [|m l] eqn:Er; cbn [length]; [lia|].
        pose proof (rok_cursor _ _ Hr ltac:(by rewrite Er) L) as Hcur. rewrite Er in Hcur. cbn [length] in Hcur.
        specialize (Hnz ltac:(lia)). lia. }
      assert (Hpre : received r `prefix_of` drop o (events log)).
      { pose proof (rok_prefix _ _ Hr) as Hp. unfold o. destruct (received r); [apply prefix_nil|done]. }
      split; [|done..].
      destruct Hr as [H1 H2 H3 H4 H5 H6 H7 H8 H9 H10].
      split; cbn; try done.
      * split; cbn; try done; intros; [naive_solver..|]. destruct H1 as [_ _ H1]. specialize (H1 _ H).
        destruct L as (L & _). congruence.
      * intros E. rewrite E in *. auto.
      * intros E _. specialize (H4 E L). unfold o. by destruct (received r).
      * intros _. exists (encode e). split_and!; try done; [|lia].
        rewrite lookup_drop, <- Ho. done.
      * intros _. destruct (received r) as [|m l] eqn:Er.
        -- assert (Ecur : cursor r = after_sequence r) by auto. rewrite <- Ecur. split.
           ++ intros Hne. rewrite <- (Hnz Hne). unfold o. lia.
           ++ intros E0. specialize (Hz E0). cbn [length] in Ho. rewrite Nat.add_0_r in Ho. rewrite <- Ho, Hz.
              unfold evicted, bound, returned in *. cbn [constructor ready].
              destruct (constructor r); [done|lia|]. specialize (Hnew eq_refl eq_refl L Ef).
              unfold ring_capacity in *. lia.
        -- apply H7. left. by rewrite Er.
Qed.

(** ** A completed write *)

Lemma prefix_snoc {A} (l k : list A) x : l `prefix_of` k -> k !! length l = Some x -> l ++ [x] `prefix_of` k.
Proof.
  intros [m ->] Hx. rewrite lookup_app_r, Nat.sub_diag in Hx by lia.
  destruct m as [|y m]; [done|]. injection Hx as ->. exists m. by rewrite <- app_assoc.
Qed.

Lemma delivered_ok log r s' ok c :
  reactor_ok log r -> flying (stream r) = true -> constructor r = Returned ->
  stream_ok s' -> flying s' = false ->
  (stream_live s' -> ok = true /\ stream_live (stream r) /\ c = writing_sequence r) -> in_u64 c ->
  (terminal s' = Some RESOURCE_EXHAUSTED -> terminal (stream r) = Some RESOURCE_EXHAUSTED /\ c = cursor r) ->
  reactor_ok log (mkReactor (after_sequence r) (admitted r) (constructor r) s' c (writing_sequence r)
    (message_ r) (received r ++ if ok then option_list (message_ r) else []) (opened r) (ready r) (origin r)).
Proof.
  intros Hr Hf Hc Hs Hf' Hl Hrange Ht. destruct Hr as [H1 H2 H3 H4 H5 H6 H7 H8 H9 H10].
  destruct (H6 Hf) as (m & Hm & Hat & Hw). rewrite Hm. cbn [option_list].
  split; cbn; try done.
  - split; [done|apply H2].
  - intros E L. destruct (Hl L) as (-> & _). by destruct (received r).
  - intros _ L. destruct (Hl L) as (-> & _ & ->). rewrite length_app. cbn. lia.
  - destruct ok; [by apply prefix_snoc|by rewrite app_nil_r].
  - congruence.
  - intros _. apply H7. by right.
  - by rewrite Hc.
  - intros E. destruct (Ht E) as [E' ->]. auto.
Qed.

Lemma errors_write_done_ok log r ok :
  reactor_ok log r -> bounded log -> flying (stream r) = true -> gate (stream r) = Gate.Open ->
  constructor r = Returned -> woken log r (on_write_done ok (ring_of log) r).
Proof.
  intros Hr Hb Hf Hg Hc. unfold on_write_done.
  pose proof (rok_flying _ _ Hr Hf) as (m & Hm & Hat & Hw).
  assert (Hws : in_u64 (writing_sequence r)).
  { apply lookup_lt_Some in Hat. rewrite length_drop, length_events in Hat. unfold bounded, in_u64 in *. lia. }
  set (s0 := set_write_finish _ (stream r)).
  assert (H0 : stream_ok s0 /\ flying s0 = false /\ (stream_live s0 -> ok = true /\ stream_live (stream r))
    /\ (terminal s0 = Some RESOURCE_EXHAUSTED -> terminal (stream r) = Some RESOURCE_EXHAUSTED)
    /\ (ok = true -> terminal s0 = None -> stream_live s0) /\ gate s0 = Gate.Open
    /\ (ok = false -> is_Some (terminal s0)) /\ subscribed s0 = subscribed (stream r)).
  { pose proof (rok_stream _ _ Hr) as [S1 S2 S3]. pose proof (S1 Hg) as S4. unfold s0, stream_live, flying in *.
    destruct (stream r) as [sub [fl fs ts] g fin]. cbn in *. subst.
    destruct ts as [t|], ok; cbn; split_and!; try done; try (split; cbn; naive_solver); naive_solver. }
  destruct H0 as (K1 & K2 & K3 & K4 & K5 & K6 & K7 & K8).
  pose proof (finish_if_ready_ok s0 K1) as H. destruct (finish_if_ready s0) as [s1 fin] eqn:E1.
  destruct H as (F1 & F2 & F3 & F4 & F5 & F6 & F7).
  destruct (terminal s0) as [t|] eqn:Et.
  - rewrite (F7 K2) by eauto. cbn [orb].
    assert (Hdead : ~ stream_live s1) by (intros [L _]; congruence).
    split; try done. apply delivered_ok; try done; [apply (rok_range _ _ Hr)|].
    intros E. split; [apply K4; congruence|done].
  - destruct ok; [|by destruct (K7 eq_refl)].
    destruct (F6 (K5 eq_refl eq_refl)) as [-> ->]. cbn [orb negb].
    set (r2 := set_cursor _ _).
    assert (Hr2 : reactor_ok log r2).
    { apply (delivered_ok log r s0 true (writing_sequence r)); try done.
      intros L. unfold stream_live in L. congruence. }
    destruct (wake_ok log r2 Hr2 Hb) as [W1 W2 W3 W4 W5].
    + unfold r2. cbn. by rewrite Hc.
    + unfold r2. cbn. rewrite Hm. by destruct (received r).
    + by split.
Qed.

(** ** The invariant of the service *)

(** A stream that waits for a wake-up misses at most the event whose subscribers are
    being woken. *)
Record synced (w : World) (k : nat) (r : ErrorReactor) : Prop := mkSynced {
  sy_caught_up : live r -> returned r = true -> flying (stream r) = false ->
    hub_closed w = false \/ (exists ids, poller w = Waking ids /\ k ∈ ids) ->
    Z.of_nat (length (log w)) <= cursor r + 1
    /\ (~ pending k (poller w) -> Z.of_nat (length (log w)) <= cursor r);
  sy_subscribed : live r -> constructor r <> Registered -> hub_closed w = false ->
    subscribed (stream r) = true;
  sy_woken : forall ids, poller w = Waking ids -> k ∈ ids -> constructor r <> Registered;
  sy_registered : constructor r = Registered -> subscribed (stream r) = false;
}.

Record inv (w : World) : Prop := mkInv {
  inv_ring : errors w = ring_of (log w);
  inv_ids : forall ids, poller w = Waking ids -> forall k, k ∈ ids -> (k < length (reactors w))%nat;
  inv_reactors : forall k r, reactors w !! k = Some r -> reactor_ok (log w) r /\ synced w k r;
}.

Lemma errors_inv_start : inv start.
Proof. split; try done. by intros ids [= <-] k Hk%not_elem_of_nil. Qed.

Lemma inv_set_reactor w k r r' :
  inv w -> reactors w !! k = Some r -> reactor_ok (log w) r' -> synced w k r' -> inv (set_reactor k r' w).
Proof.
  intros [I1 I2 I3] Hk Hr Hs. split; cbn; try done.
  - intros ids Hp j Hj. rewrite length_insert. by eapply I2.
  - intros j r1 [(<- & <- & _)|[_ Hj]]%list_lookup_insert_Some.
    + split; [done|]. by destruct Hs.
    + destruct (I3 _ _ Hj) as [? []]. by split.
Qed.

Lemma on_reactor_inv w k guard f :
  inv w ->
  (forall r, reactors w !! k = Some r -> guard r = true -> reactor_ok (log w) r -> synced w k r ->
    reactor_ok (log w) (f r) /\ synced w k (f r)) ->
  inv (on_reactor k guard f w).
Proof.
  intros Hw Hf. unfold on_reactor. destruct (reactors w !! k) as [r|] eqn:Ek; [|done].
  destruct (guard r) eqn:Eg; [|done]. destruct (inv_reactors _ Hw k r Ek) as [Hr Hs].
  destruct (Hf r eq_refl Eg Hr Hs). by apply (inv_set_reactor w k r).
Qed.

Lemma synced_dead w k r r' :
  synced w k r -> ~ live r' -> constructor r' = constructor r ->
  (subscribed (stream r') = true -> subscribed (stream r) = true) -> synced w k r'.
Proof.
  intros [S1 S2 S3 S4] Hl Hc Hs. split; rewrite ?Hc; try done. intros E. specialize (S4 E).
  destruct (subscribed (stream r')); [by rewrite Hs in S4|done].
Qed.

(** A stream that was woken is up to date. *)
Lemma synced_woken w k r r' :
  synced w k r -> woken (log w) r r' -> constructor r <> Registered -> synced w k r'.
Proof.
  intros [S1 S2 S3 S4] [W1 W2 W3 W4 W5] Hc. split; rewrite ?W2; try done.
  - intros L _ Hf _. specialize (W5 L Hf). split; [lia|done].
  - intros L _ Hh. destruct (W4 L) as [L' ->]. auto.
Qed.

Lemma ended_ok w k r st s :
  reactor_ok (log w) r -> synced w k r -> (st = RESOURCE_EXHAUSTED -> admitted r = false \/ lost (log w) r) ->
  s = stream r \/ s = set_subscribed false (stream r) ->
  reactor_ok (log w) (set_stream (request_finish st s) r) /\ synced w k (set_stream (request_finish st s) r).
Proof.
  intros Hr Hs Hst Hs'. destruct (end_stream_ok (log w) r st Hr Hst s Hs') as [H1 H2]. split; [done|].
  apply (synced_dead w k r); try done. cbn. unfold request_finish.
  assert (H : forall s, subscribed (finish_if_ready s).1 = true -> subscribed s = true).
  { intros s1. unfold finish_if_ready. destruct (DeferredFinish.take_finish_status _) as [d [t|]]; cbn; [|done].
    by case_bool_decide. }
  intros E. by apply H in E.
Qed.

(** ** The steps *)

Lemma fresh_ok log after adm cs s c :
  in_u64 after -> in_u64 c -> stream_ok s -> flying s = false -> (stream_live s -> c = after) ->
  (terminal s = Some RESOURCE_EXHAUSTED -> adm = false) ->
  reactor_ok log (mkReactor after adm cs s c 0 None [] (length log) (length log) 0).
Proof.
  intros Ha Hc Hs Hf Hl Ht.
  split; unfold started, bound; cbn; try done; try (intros; naive_solver congruence).
  - apply prefix_nil.
  - destruct cs; lia.
Qed.

Lemma make_stream_ok : stream_ok (mkStream false DeferredFinish.make Gate.Open None).
Proof. by split. Qed.

Lemma construct_ok log w k after registered adm :
  (forall ids, poller w = Waking ids -> k ∉ ids) ->
  let r := construct (u64_wrap after) registered adm (length log) in
  reactor_ok log r /\ synced w k r.
Proof.
  intros Hk. cbn zeta. pose proof (u64_wrap_range after) as Ha. assert (H0 : in_u64 0) by (unfold in_u64; lia).
  assert (Hend : forall st, (st = RESOURCE_EXHAUSTED -> adm = false) ->
    forall s, s = request_finish st (mkStream false DeferredFinish.make Gate.Open None) ->
    let r := mkReactor (u64_wrap after) adm Returned s 0 0 None [] (length log) (length log) 0 in
    reactor_ok log r /\ synced w k r).
  { intros st Hst s ->. destruct (errors_request_finish_ok st _ make_stream_ok) as (H1 & H2 & H3 & H4). cbn zeta. split.
    - apply fresh_ok; try done. intros E. apply Hst. by destruct st.
    - by split. }
  unfold construct. destruct registered; cbn [negb]; [destruct adm; cbn [negb]|].
  - split; [by apply fresh_ok|]. split; cbn; try done. intros ids Hp Hin. by destruct (Hk ids Hp).
  - by apply (Hend RESOURCE_EXHAUSTED).
  - by apply (Hend UNAVAILABLE).
Qed.

Lemma set_constructor_ok log c r :
  reactor_ok log r -> constructor r <> Returned -> c <> Registered ->
  reactor_ok log (set_constructor c (length log) r).
Proof.
  intros [H1 H2 H3 H4 H5 H6 H7 H8 H9 H10] Hr Hc.
  assert (Hb : bound log (set_constructor c (length log) r) = bound log r).
  { unfold bound. cbn. by destruct c, (constructor r). }
  split; rewrite ?Hb; try done.
Qed.

Lemma wake_closed e r : open r = false -> wake e r = r.
Proof. unfold wake, open. intros ->. by rewrite orb_true_r. Qed.

Lemma constructor_step_ok w k r :
  bounded (log w) -> reactor_ok (log w) r -> synced w k r ->
  let r' := constructor_step (ring_of (log w)) (hub_closed w) (length (log w)) r in
  reactor_ok (log w) r' /\ synced w k r'.
Proof.
  intros Hb Hr Hs. cbn zeta. unfold constructor_step. pose proof Hs as [S1 S2 S3 S4].
  destruct (constructor r) eqn:Ec.
  - split.
    + apply set_constructor_ok; [|cbn; congruence|done].
      pose proof Hr as [R1 _ _ _ _ _ _ _ _ R10]. destruct R1.
      apply reactor_ok_stream; [done|by split|done|done|done].
    + split; try done. cbn. intros _ _ ->. done.
  - assert (Hw : woken (log w) r (wake (ring_of (log w)) r)).
    { apply wake_ok; try done; [congruence|]. unfold returned. by rewrite Ec. }
    assert (E : (if open r then wake (ring_of (log w)) r else r) = wake (ring_of (log w)) r).
    { destruct (open r) eqn:Eo; [done|]. by rewrite wake_closed. }
    rewrite E. destruct Hw as [W1 W2 W3 W4 W5]. split.
    + apply set_constructor_ok; [done|congruence|done].
    + split; cbn; try done.
      * intros L _ Hf _. specialize (W5 L Hf). split; [lia|done].
      * intros L _ Hh. destruct (W4 L) as [L' ->]. by apply S2.
  - done.
Qed.

Lemma subscribers_spec rs k :
  k ∈ subscribers rs <-> exists r, rs !! k = Some r /\ subscribed (stream r) = true.
Proof.
  unfold subscribers. rewrite list_elem_of_filter, elem_of_seq. split.
  - intros [H _]. destruct (rs !! k) as [r|]; [by exists r|done].
  - intros (r & Hk & Hs). rewrite Hk. cbn. split; [done|]. apply lookup_lt_Some in Hk. lia.
Qed.

Lemma publish_inv w e : inv w -> poller w = Waking [] -> bounded (log w ++ [e]) -> inv (step w (Publish e)).
Proof.
  intros [I1 I2 I3] Hp Hb. unfold step. rewrite Hp. split; [cbn [errors log]; by rewrite I1, ring_of_publish|done|].
  intros k r Hk. destruct (I3 k r Hk) as [Hr [S1 S2 S3 S4]]. split; [by apply reactor_ok_app|].
  split; cbn; try done. intros L Hret Hf Hh. rewrite length_app. cbn.
  destruct (S1 L Hret Hf) as [_ H]; [destruct Hh as [?|(ids & [=] & _)]; by left|].
  rewrite Hp in H. specialize (H ltac:(by intros ?%not_elem_of_nil)). split; [lia|]. intros Hn. by destruct Hn.
Qed.

Lemma notify_inv w : inv w -> inv (step w Notify).
Proof.
  intros Hw. pose proof Hw as [I1 I2 I3]. cbn. destruct (poller w) as [|ids0] eqn:Hp; [|done].
  split; cbn; [done| |].
  - intros ids [= <-] k. destruct (hub_closed w); [by intros ?%not_elem_of_nil|].
    intros (r & Hk & _)%subscribers_spec. by eapply lookup_lt_Some.
  - intros k r Hk. destruct (I3 k r Hk) as [Hr [S1 S2 S3 S4]]. split; [done|]. split; cbn; try done.
    + intros L Hret Hf Hh. destruct (hub_closed w) eqn:Ec.
      { destruct Hh as [?|(ids & [= <-] & ?%not_elem_of_nil)]; done. }
      destruct (S1 L Hret Hf) as [H _]; [by left|]. split; [done|]. intros Hn. destruct Hn.
      apply subscribers_spec. exists r. split; [done|]. apply S2; try done.
      intros E. unfold returned in Hret. by rewrite E in Hret.
    + intros ids [= <-]. destruct (hub_closed w); [by intros ?%not_elem_of_nil|].
      intros (r' & Hk' & Hs)%subscribers_spec. intros E. simplify_eq. by rewrite S4 in Hs.
Qed.

(** The rest of the wake-ups, for the streams other than the one woken. *)
Lemma synced_rest w ids k j r :
  poller w = Waking ids -> (j = k -> live r -> returned r = true -> flying (stream r) = false ->
    Z.of_nat (length (log w)) <= cursor r) ->
  synced w j r -> synced (set_poller (Waking (filter (fun i => i <> k) ids)) w) j r.
Proof.
  intros Hp Hk [S1 S2 S3 S4].
  assert (Hin : j ∈ filter (fun i => i <> k) ids -> j ∈ ids /\ j <> k).
  { rewrite list_elem_of_filter. naive_solver. }
  split; cbn; try done.
  - intros L Hret Hf Hh. destruct (decide (j = k)) as [E|E]; [specialize (Hk E L Hret Hf); split; [lia|done]|].
    destruct (S1 L Hret Hf) as [H1 H2].
    { destruct Hh as [?|(ids' & [= <-] & Hi)]; [by left|right]. exists ids. split; [done|]. by apply Hin. }
    split; [done|]. intros Hn. apply H2. rewrite Hp. intros Hi. apply Hn. by apply list_elem_of_filter.
  - intros ids' [= <-] Hi. apply (S3 ids Hp). by apply Hin.
Qed.

Lemma on_reactor_keeps k guard f w :
  log (on_reactor k guard f w) = log w /\ poller (on_reactor k guard f w) = poller w
  /\ hub_closed (on_reactor k guard f w) = hub_closed w.
Proof. unfold on_reactor. destruct (reactors w !! k) as [r|]; [|done]. by destruct (guard r). Qed.

Lemma wake_inv w k : inv w -> bounded (log w) -> inv (step w (Wake k)).
Proof.
  intros Hw Hb. pose proof Hw as [I1 I2 I3]. cbn. destruct (poller w) as [|ids] eqn:Hp; [done|].
  case_bool_decide as Hin; [|done].
  assert (Hwk : forall r, reactors w !! k = Some r -> woken (log w) r (wake (errors w) r)).
  { intros r Hk. destruct (I3 k r Hk) as [Hr Hs]. rewrite I1.
    apply wake_ok; [done..|by eapply (sy_woken _ _ _ Hs)|].
    intros _ Hret L Hf. apply (sy_caught_up _ _ _ Hs L Hret Hf). right. eauto. }
  assert (H1 : inv (on_reactor k open (wake (errors w)) w)).
  { apply on_reactor_inv; [done|]. intros r Hk Ho Hr Hs. split; [by apply Hwk|].
    apply (synced_woken w k r); [done|by apply Hwk|by eapply (sy_woken _ _ _ Hs)]. }
  destruct (on_reactor_keeps k open (wake (errors w)) w) as (Hl & Hp' & _). rewrite Hp in Hp'.
  pose proof H1 as [J1 J2 J3]. split; [done| |].
  - intros ids' [= <-] j [_ Hj]%list_elem_of_filter. by eapply J2.
  - intros j r Hj. destruct (J3 j r Hj) as [Hr Hs]. split; [done|].
    apply synced_rest; [done| |done]. intros -> L _ Hf. unfold on_reactor in Hj, Hl |- *.
    destruct (reactors w !! k) as [rk|] eqn:Ek; cbn in Hj; [|congruence].
    destruct (open rk) eqn:Eo.
    + cbn in Hj |- *. rewrite list_lookup_insert_eq in Hj by (by eapply lookup_lt_Some).
      injection Hj as <-. by apply Hwk.
    + assert (rk = r) as -> by congruence. destruct L as (_ & _ & L). unfold open in Eo.
      by rewrite bool_decide_eq_true_2 in Eo.
Qed.

Lemma step_inv w s : inv w -> bounded (log (step w s)) -> inv (step w s).
Proof.
  intros Hw Hb. assert (Hlog : bounded (log w)).
  { revert Hb. destruct s; unfold bounded; cbn; try done;
      try (destruct (on_reactor_keeps k (fun _ => true) (fun r => r) w)); try done.
    - by rewrite (proj1 (on_reactor_keeps _ _ _ _)).
    - destruct (poller w) as [|[|]]; cbn; rewrite ?length_app; lia.
    - by destruct (poller w).
    - destruct (poller w); [done|]. case_bool_decide; [|done]. cbn.
      by rewrite (proj1 (on_reactor_keeps _ _ _ _)).
    - by rewrite (proj1 (on_reactor_keeps _ _ _ _)).
    - by rewrite (proj1 (on_reactor_keeps _ _ _ _)).
    - by rewrite (proj1 (on_reactor_keeps _ _ _ _)).
    - by rewrite (proj1 (on_reactor_keeps _ _ _ _)). }
  pose proof Hw as [I1 I2 I3]. destruct s as [after registered adm|k|e| |k|k ok|k|k|k| ].
  - split; cbn; [done| |].
    + intros ids Hp k Hk. rewrite length_app. specialize (I2 ids Hp k Hk). lia.
    + intros k r [Hk|[Hk Hr]]%lookup_app_Some; [by apply I3 in Hk as [? []]|].
      apply list_lookup_singleton_Some in Hr as [Hz <-]. assert (k = length (reactors w)) as -> by lia.
      destruct (construct_ok (log w) w (length (reactors w)) after registered adm) as [H1 []]; [|by split].
      intros ids Hp Hin. specialize (I2 ids Hp _ Hin). lia.
  - apply on_reactor_inv; [done|]. intros r _ _ Hr Hs. rewrite I1. by apply constructor_step_ok.
  - destruct (poller w) as [|[|i ids]] eqn:Hp; try (unfold step; by rewrite Hp).
    apply publish_inv; try done. revert Hb. unfold step. by rewrite Hp.
  - by apply notify_inv.
  - by apply wake_inv.
  - apply on_reactor_inv; [done|]. intros r _ Hg Hr Hs. unfold open in Hg. bool_to_prop.
    match goal with E : returned r = true |- _ => assert (Hc : constructor r = Returned)
      by (unfold returned in E; by destruct (constructor r)) end.
    assert (Hwd : woken (log w) r (on_write_done ok (errors w) r)) by (rewrite I1; by apply errors_write_done_ok).
    split; [by apply Hwd|]. apply (synced_woken w k r); [done..|congruence].
  - apply on_reactor_inv; [done|]. intros r _ _ Hr Hs. apply ended_ok; [done..|by right].
  - apply on_reactor_inv; [done|]. intros r _ _ Hr Hs. apply ended_ok; [done..|by right].
  - apply on_reactor_inv; [done|]. intros r _ _ Hr Hs.
    assert (Hd : ~ live (on_done r)) by (by intros (_ & _ & ?)). split.
    + apply (reactor_ok_stream (log w) r); try done.
      * destruct (rok_stream _ _ Hr) as [S1 S2 S3]. by split.
      * apply (rok_terminal _ _ Hr).
    + by apply (synced_dead w k r).
  - split; cbn; [done..|]. intros k r Hk. destruct (I3 k r Hk) as [Hr [S1 S2 S3 S4]]. split; [done|].
    split; cbn; try done. intros L Hret Hf [?|Hh]; [done|]. apply S1; try done. by right.
Qed.

Lemma log_bound steps w : (length (log (foldl step w steps)) <= length (log w) + length steps)%nat.
Proof.
  revert w. induction steps as [|s steps IH]; intros w; cbn [foldl length]; [lia|].
  etrans; [apply IH|].
  assert ((length (log (step w s)) <= length (log w) + 1)%nat); [|lia].
  destruct s; cbn; rewrite ?(proj1 (on_reactor_keeps _ _ _ _)); try lia.
  - destruct (poller w) as [|[|]]; cbn; rewrite ?length_app; cbn; lia.
  - destruct (poller w); cbn; lia.
  - destruct (poller w); [lia|]. case_bool_decide; cbn; rewrite ?(proj1 (on_reactor_keeps _ _ _ _)); lia.
Qed.

Lemma run_inv steps : Z.of_nat (length steps) + 2 < 2 ^ 64 -> inv (run steps).
Proof.
  induction steps as [|s steps IH] using rev_ind; intros Hn; [apply errors_inv_start|].
  rewrite length_app in Hn. cbn in Hn. unfold run in *. rewrite foldl_app. cbn. apply step_inv.
  - apply IH. lia.
  - pose proof (log_bound (steps ++ [s]) start) as H. rewrite foldl_app, length_app in H. cbn in H.
    unfold bounded. lia.
Qed.

(** ** The property *)

Lemma not_started r : ~ started r -> received r = [] /\ flying (stream r) = false.
Proof. unfold started. destruct (received r), (flying (stream r)); naive_solver. Qed.

(** What a waiting stream has delivered, from the index it began at. *)
Lemma delivered_all log r first :
  reactor_ok log r -> (started r -> first = origin r) ->
  (~ started r -> (after_sequence r <= Z.of_nat first)) ->
  live r -> flying (stream r) = false -> Z.of_nat (length log) <= cursor r ->
  received r = drop first (events log).
Proof.
  intros Hr Hs Hn L Hf Hc. destruct (received r) as [|m l] eqn:Er.
  - assert (Hns : ~ started r) by (unfold started; rewrite Er, Hf; naive_solver).
    rewrite (rok_unstarted _ _ Hr Er L) in Hc. specialize (Hn Hns).
    rewrite drop_ge; [done|]. rewrite length_events. lia.
  - assert (Hst : started r) by (left; by rewrite Er). rewrite (Hs Hst).
    pose proof (rok_cursor _ _ Hr ltac:(by rewrite Er) L) as Hcur. pose proof (rok_prefix _ _ Hr) as Hp.
    rewrite Er in Hcur, Hp. apply prefix_length_eq; [done|].
    rewrite length_drop, length_events. lia.
Qed.

(** C16: A reader of the error stream misses no event.  Whatever the interleaving of new
    events, wake-ups, new streams, write completions, cancellations and the end of the
    service, what a reader has received are consecutive events in the order of their
    publication, each with its own sequence number: they begin right after the sequence
    it asked for, or, without one, with the oldest event the ring held while its stream
    was being opened.  An open stream that is not writing and not about to be woken has
    delivered everything published so far, and a stream ends for lack of resources only
    if it was refused, if the next event it needs was dropped from the ring, or if it
    asked for the events after the largest sequence number, which has no successor. *)
Theorem error_stream_gap_free (steps : list Step) (k : nat) (r : ErrorReactor) :
  Z.of_nat (length steps) + 2 < 2 ^ 64 ->
  let w := run steps in
  reactors w !! k = Some r ->
  (exists first : nat,
     received r `prefix_of` drop first (events (log w))
     /\ (after_sequence r <> 0 -> Z.of_nat first = after_sequence r)
     /\ (after_sequence r = 0 ->
         (opened r - ring_capacity <= first <= bound (log w) r - ring_capacity)%nat)
     /\ (live r -> constructor r = Returned -> flying (stream r) = false -> hub_closed w = false ->
         ~ pending k (poller w) -> received r = drop first (events (log w))))
  /\ (finished (stream r) = Some RESOURCE_EXHAUSTED -> admitted r = false \/ lost (log w) r).
Proof.
  intros Hn w Hk. destruct (inv_reactors _ (run_inv steps Hn) k r Hk) as [Hr Hs].
  split; [|intros E; by apply (rok_terminal _ _ Hr), (sok_finished _ (rok_stream _ _ Hr))].
  assert (Hquiet : forall first, (started r -> first = origin r) ->
    (~ started r -> after_sequence r <= Z.of_nat first) ->
    live r -> constructor r = Returned -> flying (stream r) = false -> hub_closed w = false ->
    ~ pending k (poller w) -> received r = drop first (events (log w))).
  { intros first H1 H2 L Hc Hf Hh Hp. apply (delivered_all _ _ _ Hr H1 H2 L Hf).
    apply (sy_caught_up _ _ _ Hs L); try done; [unfold returned; by rewrite Hc|by left]. }
  destruct (decide (received r = [] /\ flying (stream r) = false)) as [[Er Ef]|Hd].
  - assert (Hns : ~ started r) by (unfold started; rewrite Er, Ef; naive_solver).
    destruct (rok_range _ _ Hr) as [_ [Ha _]]. pose proof (rok_counts _ _ Hr) as Hc. fold w in Hc.
    exists (if decide (after_sequence r = 0%Z) then opened r - ring_capacity else Z.to_nat (after_sequence r))%nat.
    case_decide as E; split_and!; try done; try lia.
    all: try (rewrite Er; apply prefix_nil).
    all: intros; apply Hquiet; try done; intros; lia.
  - assert (Hst : started r).
    { unfold started. destruct (received r), (flying (stream r)); naive_solver. }
    destruct (rok_origin _ _ Hr Hst) as [H1 H2]. exists (origin r).
    split_and!; [apply (rok_prefix _ _ Hr)|done..|]. by apply Hquiet.
Qed.

(** ** Runs *)

Definition sample_events : list NmlErrorEvent :=
  [mkErrorEvent 11 "joint 0 following error"; mkErrorEvent 12 "tool change"; mkErrorEvent 11 "estop"].

(** The poller publishes [e] and wakes the streams [ks]. *)
Definition poll (e : NmlErrorEvent) (ks : list nat) : list Step := Publish e :: Notify :: (Wake <$> ks).

(** Two readers, the second resuming after the first event; events arrive while the
    first reader's message is being written. *)
Definition sample_steps : list Step :=
  [Connect 0 true true; ConstructorStep 0; ConstructorStep 0]
  ++ poll (mkErrorEvent 11 "joint 0 following error") [0%nat]
  ++ poll (mkErrorEvent 12 "tool change") [0%nat]
  ++ [Connect 1 true true; ConstructorStep 1; ConstructorStep 1]
  ++ poll (mkErrorEvent 11 "estop") [1%nat; 0%nat]
  ++ [WriteDone 0 true; WriteDone 1 true; WriteDone 0 true; WriteDone 0 true; WriteDone 1 true].

Definition sample_reader (k : nat) : ErrorReactor :=
  default (construct 0 false false 0) (reactors (run sample_steps) !! k).

Example sample_log : log (run sample_steps) = sample_events.
Proof. vm_compute. reflexivity. Qed.

Lemma error_stream_gap_free_witness :
  reactors (run sample_steps) !! 1%nat = Some (sample_reader 1)
  /\ (exists first : nat,
        received (sample_reader 1) `prefix_of` drop first (events (log (run sample_steps)))
        /\ (after_sequence (sample_reader 1) <> 0 -> Z.of_nat first = after_sequence (sample_reader 1))
        /\ received (sample_reader 1) = drop first (events (log (run sample_steps))))
  /\ received (sample_reader 1)
     = [mkLinuxCNCError 12 "tool change" 2; mkLinuxCNCError 11 "estop" 3].
Proof.
  assert (Hk : reactors (run sample_steps) !! 1%nat = Some (sample_reader 1))
    by (vm_compute; reflexivity).
  split; [exact Hk|]. split; [|vm_compute; reflexivity].
  assert (Hn : Z.of_nat (length sample_steps) + 2 < 2 ^ 64) by (vm_compute; reflexivity).
  pose proof (error_stream_gap_free sample_steps 1 (sample_reader 1) Hn Hk) as [Hfirst _].
  destruct Hfirst as (first & H1 & H2 & _ & H4).
  exists first. split; [exact H1|]. split; [exact H2|]. apply H4.
  - split; [vm_compute; reflexivity|]. split; vm_compute; reflexivity.
  - vm_compute. reflexivity.
  - vm_compute. reflexivity.
  - vm_compute. reflexivity.
  - vm_compute. intros H. inversion H.
Defined.

End Errors.
