(* ===== verification/UnaryCalls.v ===== *)
(** Unary calls: [UnaryTaskReactor] ([grpc/server/unary_task_reactor.hpp]), which runs the
    work of a call on a bounded executor, and [CommandTaskReactor]
    ([machine/grpc/service.cc]), which waits for a command ticket.

    [Task] composes the reactors of any number of calls with the executor of
    [CallbackRuntime]: every thread's progress is visible to the others between the
    accesses to shared state.  [Command] is one [ExecuteCommand] call. *)
From Stdlib Require Import String.
From S2P Require Import Prelude CallbackRuntime CommandCoordinator NmlAdapter.

Local Open Scope Z_scope.

(** The status of an answer: gRPC's codes by name, as far as these calls choose them. *)
Inductive StatusCode := OK | CANCELLED | RESOURCE_EXHAUSTED | UNAVAILABLE | INTERNAL | OtherCode (n : Z).

#[export] Instance StatusCode_eq_dec : EqDecision StatusCode.
Proof. solve_decision. Defined.

Record GrpcStatus := mkGrpcStatus { status_code : StatusCode; status_message : string }.

Definition rpc_cancelled : GrpcStatus := mkGrpcStatus CANCELLED "RPC cancelled".
Definition queue_full : GrpcStatus := mkGrpcStatus RESOURCE_EXHAUSTED "blocking work queue is full".
Definition shutting_down : GrpcStatus := mkGrpcStatus UNAVAILABLE "server shutting down".

Module Task.
Import Executor.

#[local] Existing Instance Gate.GateState_eq_dec.

Section Task.
Context {Response : Type}.

(** How the work of a call ends. *)
Inductive TaskResult :=
| TaskReturns (status : GrpcStatus) (response : Response)
| TaskThrows (what : string)
| TaskThrowsOther.

(** The closure given to the executor: not submitted (or refused), in the queue, entered
    by a worker, past the work, past the second test of the token, and over. *)
Inductive Progress :=
| Unsubmitted
| Queued
| Entered
| Ran (status : GrpcStatus) (response : option Response)
| Checked (status : GrpcStatus) (response : option Response)
| Over.

(** [response]: what [*response_] was assigned; [cancelling]: a thread is in [OnCancel],
    between the request to stop and the end of the call.  [work] is what the work of the
    call returned, each time it ran, and [finishes] the statuses given to [Finish]; no
    operation reads them. *)
Record UnaryTaskReactor := mkReactor {
  constructed : bool;
  stop_requested : bool;
  gate : Gate.GateState;
  response : option Response;
  progress : Progress;
  cancelling : bool;
  deleted : bool;
  work : list TaskResult;
  finishes : list GrpcStatus;
}.

Definition set_progress (p : Progress) (r : UnaryTaskReactor) : UnaryTaskReactor :=
  mkReactor (constructed r) (stop_requested r) (gate r) (response r) p (cancelling r) (deleted r)
    (work r) (finishes r).
Definition set_constructed (r : UnaryTaskReactor) : UnaryTaskReactor :=
  mkReactor true (stop_requested r) (gate r) (response r) (progress r) (cancelling r) (deleted r)
    (work r) (finishes r).
Definition request_stop (c : bool) (r : UnaryTaskReactor) : UnaryTaskReactor :=
  mkReactor (constructed r) true (gate r) (response r) (progress r) c (deleted r) (work r) (finishes r).

(** [gate_->finish] with [Finish(status)], and with the assignment of the response. *)
Definition finish (status : GrpcStatus) (resp : option Response) (r : UnaryTaskReactor) : UnaryTaskReactor :=
  if bool_decide (gate r = Gate.Open)
  then mkReactor (constructed r) (stop_requested r) Gate.Finishing
         (match resp with Some _ => resp | None => response r end) (progress r) (cancelling r)
         (deleted r) (work r) (finishes r ++ [status])
  else r.

(** [complete] *)
Definition complete (status : GrpcStatus) (resp : option Response) (r : UnaryTaskReactor) : UnaryTaskReactor :=
  finish status (if bool_decide (status_code status = OK) then resp else None) r.

Definition shutdown (r : UnaryTaskReactor) : UnaryTaskReactor :=
  finish shutting_down None (request_stop (cancelling r) r).

(** [OnDone] *)
Definition on_done (r : UnaryTaskReactor) : UnaryTaskReactor :=
  mkReactor (constructed r) (stop_requested r) Gate.Done (response r) (progress r) (cancelling r) true
    (work r) (finishes r).

(** What the work ended with, as a status. *)
Definition task_outcome (result : TaskResult) : GrpcStatus * option Response :=
  match result with
  | TaskReturns s x => (s, Some x)
  | TaskThrows what => (mkGrpcStatus INTERNAL what, None)
  | TaskThrowsOther => (mkGrpcStatus INTERNAL "native worker failed", None)
  end.

(** The first test of the token, the work and its exceptions. *)
Definition run_task (result : TaskResult) (r : UnaryTaskReactor) : UnaryTaskReactor :=
  if stop_requested r then set_progress (Ran rpc_cancelled None) r
  else
    let '(status, resp) := task_outcome result in
    mkReactor (constructed r) (stop_requested r) (gate r) (response r) (Ran status resp) (cancelling r)
      (deleted r) (work r ++ [result]) (finishes r).

(** The closure, between the accesses to shared state. *)
Definition task_enter (r : UnaryTaskReactor) : option UnaryTaskReactor :=
  match progress r with
  | Queued => Some (set_progress (if deleted r then Over else Entered) r)
  | _ => None
  end.
Definition task_run (result : TaskResult) (r : UnaryTaskReactor) : option UnaryTaskReactor :=
  match progress r with Entered => Some (run_task result r) | _ => None end.
Definition task_check (r : UnaryTaskReactor) : option UnaryTaskReactor :=
  match progress r with
  | Ran s resp => Some (set_progress (Checked (if stop_requested r then rpc_cancelled else s) resp) r)
  | _ => None
  end.
Definition task_complete (r : UnaryTaskReactor) : option UnaryTaskReactor :=
  match progress r with
  | Checked s resp => Some (set_progress Over (complete s resp r))
  | _ => None
  end.

(** ** The calls and the executor *)

Record World := mkWorld { executor : Executor; calls : list UnaryTaskReactor }.

Definition set_call (k : nat) (r : UnaryTaskReactor) (w : World) : World :=
  mkWorld (executor w) (<[k := r]> (calls w)).

(** The call whose closure worker [i] runs. *)
Definition running_call (w : World) (i : nat) : option (nat * UnaryTaskReactor) :=
  match workers (executor w) !! i with
  | Some (Running item) =>
      if item_cleanup item then None
      else r ← calls w !! item_task item; Some (item_task item, r)
  | _ => None
  end.

Definition on_task (i : nat) (f : UnaryTaskReactor -> option UnaryTaskReactor) (w : World) : World :=
  match running_call w i with
  | Some (k, r) => match f r with Some r' => set_call k r' w | None => w end
  | None => w
  end.

(** [Call], [Submit]: the two halves of the constructor; [Worker]: the executor's own
    steps of a worker; [Exec]: the other threads of the executor. *)
Inductive Step :=
| Call (registered : bool)
| Submit (k : nat)
| TaskEnter (i : nat)
| TaskRun (i : nat) (result : TaskResult)
| TaskCheck (i : nat)
| TaskComplete (i : nat)
| Worker (i : nat)
| Exec (o : Executor.Op)
| Cancel (k : nat)
| CancelFinish (k : nat)
| Shutdown (k : nat)
| Done (k : nat).

Definition on_call (k : nat) (guard : UnaryTaskReactor -> bool)
    (f : UnaryTaskReactor -> UnaryTaskReactor) (w : World) : World :=
  match calls w !! k with
  | Some r => if guard r then set_call k (f r) w else w
  | None => w
  end.

(** What the threads outside the calls do with the executor. *)
Definition foreign (o : Executor.Op) : bool :=
  match o with OpSubmit _ | OpWorker _ | OpShutdown false => false | _ => true end.

Definition new_call (registered : bool) : UnaryTaskReactor :=
  let r := mkReactor (negb registered) false Gate.Open None Unsubmitted false false [] [] in
  if registered then r else shutdown r.

Definition step (w : World) (s : Step) : World :=
  match s with
  | Call registered => mkWorld (executor w) (calls w ++ [new_call registered])
  | Submit k =>
      match calls w !! k with
      | Some r =>
          if constructed r then w
          else
            let '(e, accepted) := submit (Some k) (executor w) in
            mkWorld e
              (<[k := if accepted then set_progress Queued (set_constructed r)
                      else finish queue_full None (set_constructed r)]> (calls w))
      | None => w
      end
  | TaskEnter i => on_task i task_enter w
  | TaskRun i result => on_task i (task_run result) w
  | TaskCheck i => on_task i task_check w
  | TaskComplete i => on_task i task_complete w
  | Worker i =>
      match running_call w i with
      | Some (_, r) =>
          match progress r with
          | Over => mkWorld (worker_step i (executor w)) (calls w)
          | _ => w
          end
      | None => mkWorld (worker_step i (executor w)) (calls w)
      end
  | Exec o => if foreign o then mkWorld (Executor.apply (executor w) o) (calls w) else w
  | Cancel k => on_call k (fun r => constructed r && negb (deleted r)) (request_stop true) w
  | CancelFinish k =>
      on_call k cancelling
        (fun r =>
           let r1 := finish rpc_cancelled None r in
           mkReactor (constructed r1) (stop_requested r1) (gate r1) (response r1) (progress r1) false
             (deleted r1) (work r1) (finishes r1)) w
  | Shutdown k => on_call k (fun r => bool_decide (gate r = Gate.Open)) shutdown w
  | Done k =>
      on_call k
        (fun r => constructed r && negb (cancelling r) && negb (deleted r)
                  && negb (bool_decide (finishes r = []))) on_done w
  end.

Definition start (e : Executor) : World := mkWorld e [].
Definition run (e : Executor) (steps : list Step) : World := foldl step (start e) steps.

(** ** One call *)

(** A status that comes from the work of the call, or from no work. *)
Definition earned (s : GrpcStatus) (resp : option Response) (l : list TaskResult) : Prop :=
  (length l <= 1)%nat
  /\ (status_code s = OK -> exists x, resp = Some x /\ l = [TaskReturns s x]).

(** The closure is with the executor. *)
Definition outstanding (p : Progress) : bool :=
  match p with Unsubmitted | Over => false | _ => true end.

Record call_ok (r : UnaryTaskReactor) : Prop := mkCallOk {
  cok_open : gate r = Gate.Open -> finishes r = [] /\ response r = None;
  cok_finished : gate r <> Gate.Open -> exists s, finishes r = [s]
    /\ (status_code s = OK -> exists x, response r = Some x /\ work r = [TaskReturns s x])
    /\ (status_code s <> OK -> response r = None);
  cok_work : match progress r with
             | Ran s resp | Checked s resp => earned s resp (work r)
             | Over => (length (work r) <= 1)%nat
             | _ => work r = []
             end;
  cok_new : constructed r = false -> progress r = Unsubmitted;
  cok_answered : constructed r = true -> outstanding (progress r) = false -> gate r <> Gate.Open;
  cok_deleted : deleted r = true -> gate r <> Gate.Open;
}.

Lemma finish_closes s resp r : gate (finish s resp r) <> Gate.Open.
Proof. unfold finish. case_bool_decide; [done|]. done. Qed.

Lemma finish_keeps s resp r :
  let r' := finish s resp r in
  progress r' = progress r /\ constructed r' = constructed r /\ work r' = work r /\ deleted r' = deleted r.
Proof. unfold finish. by case_bool_decide. Qed.

Lemma finish_ok s resp r :
  call_ok r -> (status_code s = OK -> exists x, resp = Some x /\ work r = [TaskReturns s x]) ->
  (status_code s <> OK -> resp = None) -> call_ok (finish s resp r).
Proof.
  intros [C1 C2 C3 C4 C5 C6] Hok Hno. destruct (finish_keeps s resp r) as (K1 & K2 & K3 & K4).
  pose proof (finish_closes s resp r) as Hc.
  split; rewrite ?K1, ?K2, ?K3, ?K4; try done.
  intros _. revert Hc. unfold finish. case_bool_decide as Eg; cbn; [|by intros; apply C2].
  destruct (C1 Eg) as [-> Hr]. exists s. split; [done|]. split.
  - intros E. destruct (Hok E) as (x & -> & Hw). by exists x.
  - intros E. by rewrite (Hno E), Hr.
Qed.

Lemma refuse_ok s r : call_ok r -> status_code s <> OK -> call_ok (finish s None r).
Proof. intros Hr Hs. by apply finish_ok. Qed.

(** A change of the progress alone. *)
Lemma set_progress_ok p r :
  call_ok r -> constructed r = true ->
  match p with
  | Ran s resp | Checked s resp => earned s resp (work r)
  | Over => (length (work r) <= 1)%nat
  | _ => work r = []
  end -> (outstanding p = false -> gate r <> Gate.Open) -> call_ok (set_progress p r).
Proof. intros [C1 C2 C3 C4 C5 C6] Hc Hp Ho. split; cbn; try done. congruence. Qed.

Lemma complete_ok s resp r :
  call_ok r -> constructed r = true -> progress r = Checked s resp ->
  call_ok (set_progress Over (complete s resp r)).
Proof.
  intros Hr Hc Hp. pose proof (cok_work _ Hr) as Hw. rewrite Hp in Hw. destruct Hw as [Hlen Hok].
  unfold complete. set (resp' := if bool_decide (status_code s = OK) then resp else None).
  assert (Hf : call_ok (finish s resp' r)).
  { apply finish_ok; [done|..]; unfold resp'; intros E.
    - rewrite bool_decide_eq_true_2 by done. by apply Hok.
    - by rewrite bool_decide_eq_false_2. }
  destruct (finish_keeps s resp' r) as (K1 & K2 & K3 & K4).
  apply set_progress_ok; [done|congruence|by rewrite K3|]. intros _. apply finish_closes.
Qed.

Lemma run_task_ok result r :
  call_ok r -> constructed r = true -> progress r = Entered -> call_ok (run_task result r).
Proof.
  intros Hr Hc Hp. pose proof (cok_work _ Hr) as Hw. rewrite Hp in Hw. unfold run_task.
  destruct (stop_requested r); [apply set_progress_ok; try done; rewrite Hw; by split; [cbn; lia|]|].
  destruct Hr as [C1 C2 C3 C4 C5 C6].
  assert (Hfin : gate r <> Gate.Open -> exists s, finishes r = [s]
    /\ (status_code s = OK -> exists x, response r = Some x /\ work r ++ [result] = [TaskReturns s x])
    /\ (status_code s <> OK -> response r = None)).
  { intros Hg. destruct (C2 Hg) as (s & H1 & H2 & H3). exists s. split_and!; try done.
    intros E. destruct (H2 E) as (x & _ & E'). congruence. }
  destruct result as [s x|what|]; split; cbn; try done; try congruence;
    rewrite Hw; (split; [cbn; lia|]); cbn; try done. intros _. by exists x.
Qed.

(** ** The executor, as the calls see it *)

Abbreviation item k := (mkItem k false).

Lemma apply_inv e o : Executor.inv e -> Executor.inv (Executor.apply e o).
Proof. intros H. exact (executor_inv_run [o] e H). Qed.

Lemma completed_accepted e i : Executor.inv e -> i ∈ completed e -> i ∈ accepted e.
Proof.
  intros He Hi. rewrite (inv_order _ He), !elem_of_app. left.
  rewrite (inv_started _ He), elem_of_app. by left.
Qed.

Lemma foreign_keeps e o :
  foreign o = true ->
  completed (Executor.apply e o) = completed e /\ dropped (Executor.apply e o) = dropped e
  /\ (forall k, item k ∈ accepted (Executor.apply e o) <-> item k ∈ accepted e).
Proof.
  destruct o; intros Hf; try done; cbn.
  - unfold submit_cleanup, submit_impl. destruct task as [t|]; [|done].
    repeat case_match; try done; cbn; split_and!; try done.
    intros k. rewrite elem_of_app, list_elem_of_singleton. naive_solver.
  - destruct drain; [|done]. unfold Executor.shutdown. by destruct (stopping e).
  - unfold notify_one. repeat case_match; done.
  - unfold notify_all. by destruct (pending_all e).
  - unfold drainer_step. repeat case_match; done.
Qed.

Lemma submit_keeps e k e' b :
  submit (Some k) e = (e', b) ->
  completed e' = completed e /\ dropped e' = dropped e
  /\ accepted e' = accepted e ++ (if b then [item k] else []).
Proof.
  unfold submit, submit_impl. destruct (_ || _); [|destruct (_ <=? _)%nat; [|destruct (_ && _)]];
    intros [= <- <-]; by rewrite ?app_nil_r.
Qed.

Lemma worker_keeps e i :
  dropped (worker_step i e) = dropped e /\ accepted (worker_step i e) = accepted e
  /\ completed (worker_step i e)
     = completed e ++ match workers e !! i with Some (Running x) => [x] | _ => [] end.
Proof.
  unfold worker_step. destruct (workers e !! i) as [[| |x|]|]; rewrite ?app_nil_r; try done;
    repeat case_match; done.
Qed.

(** ** The invariant *)

Record inv (w : World) : Prop := mkInv {
  inv_executor : Executor.inv (executor w);
  inv_kept : dropped (executor w) = [];
  inv_calls : forall k r, calls w !! k = Some r -> call_ok r
    /\ (outstanding (progress r) = true ->
        item k ∈ accepted (executor w) /\ item k ∉ completed (executor w));
  inv_accepted : forall k, item k ∈ accepted (executor w) ->
    exists r, calls w !! k = Some r /\ constructed r = true;
}.

Lemma task_inv_start e : Executor.inv e -> dropped e = [] -> accepted e = [] -> inv (start e).
Proof. intros H Hd Ha. split; cbn; try done. rewrite Ha. by intros k ?%not_elem_of_nil. Qed.

(** A change of one call. *)
Lemma inv_set_call w k r r' :
  inv w -> calls w !! k = Some r -> call_ok r' ->
  (outstanding (progress r') = true -> outstanding (progress r) = true) ->
  (constructed r = true -> constructed r' = true) -> inv (set_call k r' w).
Proof.
  intros [I1 I2 I3 I4] Hk Hr Ho Hc. split; cbn; try done.
  - intros j r1 [(<- & <- & _)|[_ Hj]]%list_lookup_insert_Some; [|by apply I3].
    split; [done|]. intros H. apply (proj2 (I3 k r Hk)). auto.
  - intros j Hj. destruct (I4 j Hj) as (r1 & Hr1 & Hc1). destruct (decide (k = j)) as [<-|Hne].
    + exists r'. rewrite list_lookup_insert_eq by (by eapply lookup_lt_Some). split; [done|]. apply Hc. congruence.
    + exists r1. by rewrite list_lookup_insert_ne.
Qed.

Lemma on_call_inv w k guard f :
  inv w ->
  (forall r, calls w !! k = Some r -> guard r = true -> call_ok r ->
    call_ok (f r) /\ progress (f r) = progress r /\ constructed (f r) = constructed r) ->
  inv (on_call k guard f w).
Proof.
  intros Hw Hf. unfold on_call. destruct (calls w !! k) as [r|] eqn:Ek; [|done].
  destruct (guard r) eqn:Eg; [|done]. destruct (inv_calls _ Hw k r Ek) as [Hr _].
  destruct (Hf r eq_refl Eg Hr) as (H1 & H2 & H3).
  apply (inv_set_call w k r); [done..|by rewrite H2|by rewrite H3].
Qed.

(** A change of the executor. *)
Lemma inv_set_executor w e :
  inv w -> Executor.inv e -> dropped e = [] ->
  (forall k, item k ∈ accepted e <-> item k ∈ accepted (executor w)) ->
  (forall k r, calls w !! k = Some r -> outstanding (progress r) = true ->
    item k ∈ completed e -> item k ∈ completed (executor w)) -> inv (mkWorld e (calls w)).
Proof.
  intros [I1 I2 I3 I4] He Hd Ha Hc. split; cbn; try done.
  - intros k r Hk. destruct (I3 k r Hk) as [Hr Ho]. split; [done|]. intros H. destruct (Ho H) as [H1 H2].
    split; [by apply Ha|]. intros H3. by apply H2, (Hc k r).
  - intros k Hk. by apply I4, Ha.
Qed.

Lemma running_accepted e i x : Executor.inv e -> workers e !! i = Some (Running x) -> x ∈ accepted e.
Proof.
  intros He Hi. rewrite (inv_order _ He), elem_of_app. left. rewrite (inv_started _ He), elem_of_app. right.
  unfold running. rewrite (list_split_at _ _ _ Hi), fmap_app, concat_app, fmap_cons. cbn.
  rewrite elem_of_app, elem_of_cons. auto.
Qed.

Lemma running_call_inv w i k r :
  inv w -> running_call w i = Some (k, r) ->
  calls w !! k = Some r /\ call_ok r /\ constructed r = true
  /\ workers (executor w) !! i = Some (Running (item k)).
Proof.
  intros Hw. unfold running_call. destruct (workers (executor w) !! i) as [[| |[t c]|]|] eqn:Ew; try done.
  cbn. destruct c; [done|]. intros (r' & Hr & [= <- <-])%bind_Some.
  destruct (inv_calls _ Hw _ _ Hr) as [Hok _]. split_and!; try done.
  destruct (inv_accepted _ Hw t) as (r2 & Hr2 & Hc); [|congruence].
  by apply (running_accepted _ i); [apply Hw|].
Qed.

(** What the closure of a call does. *)
Lemma closure_inv w i (f : UnaryTaskReactor -> option UnaryTaskReactor) :
  inv w ->
  (forall r r', f r = Some r' -> call_ok r -> constructed r = true ->
    call_ok r' /\ constructed r' = true /\ outstanding (progress r) = true) ->
  inv (on_task i f w).
Proof.
  intros Hw Hf. unfold on_task. destruct (running_call w i) as [[k r]|] eqn:E; [|done].
  destruct (f r) as [r'|] eqn:Ef; [|done].
  destruct (running_call_inv w i k r Hw E) as (Hk & Hr & Hc & _).
  destruct (Hf r r' Ef Hr Hc) as (H1 & H2 & H3). by apply (inv_set_call w k r).
Qed.

(** The closure's pieces keep what [closure_inv] asks. *)
Lemma task_enter_ok r r' :
  task_enter r = Some r' -> call_ok r -> constructed r = true ->
  call_ok r' /\ constructed r' = true /\ outstanding (progress r) = true.
Proof.
  unfold task_enter. destruct (progress r) eqn:E; intros [= <-] Hr Hc. split; [|by split].
  pose proof (cok_work _ Hr) as Hw. rewrite E in Hw.
  apply set_progress_ok; [done..|by destruct (deleted r); rewrite Hw; cbn; [lia|]|].
  destruct (deleted r) eqn:Ed; [intros _; by apply (cok_deleted _ Hr)|done].
Qed.

Lemma task_check_ok r r' :
  task_check r = Some r' -> call_ok r -> constructed r = true ->
  call_ok r' /\ constructed r' = true /\ outstanding (progress r) = true.
Proof.
  unfold task_check. destruct (progress r) eqn:E; intros [= <-] Hr Hc. split; [|by split].
  pose proof (cok_work _ Hr) as Hw. rewrite E in Hw.
  apply set_progress_ok; [done..| |done]. destruct (stop_requested r); [|done]. split; [apply Hw|done].
Qed.

Lemma task_run_ok result r r' :
  task_run result r = Some r' -> call_ok r -> constructed r = true ->
  call_ok r' /\ constructed r' = true /\ outstanding (progress r) = true.
Proof.
  unfold task_run. destruct (progress r) eqn:E; intros [= <-] Hr Hc.
  split_and!; [by apply run_task_ok| |done].
  unfold run_task. destruct (stop_requested r); [done|]. by destruct (task_outcome result).
Qed.

Lemma task_complete_ok r r' :
  task_complete r = Some r' -> call_ok r -> constructed r = true ->
  call_ok r' /\ constructed r' = true /\ outstanding (progress r) = true.
Proof.
  unfold task_complete. destruct (progress r) eqn:E; intros [= <-] Hr Hc.
  split_and!; [by apply complete_ok| |done]. cbn. unfold complete.
  set (p := if bool_decide _ then _ else _).
  destruct (finish_keeps status p r) as (_ & H & _). by rewrite H.
Qed.

Lemma new_call_ok registered : call_ok (new_call registered) /\ progress (new_call registered) = Unsubmitted.
Proof.
  assert (Hnew : call_ok (mkReactor false false Gate.Open None Unsubmitted false false [] []))
    by by split.
  destruct registered; [by split|]. split; [|done]. split; cbn; try done.
  intros _. exists shutting_down. by split_and!.
Qed.

Lemma call_inv w registered :
  inv w -> inv (mkWorld (executor w) (calls w ++ [new_call registered])).
Proof.
  intros [I1 I2 I3 I4]. destruct (new_call_ok registered) as [Hok Hp]. split; cbn; try done.
  - intros k r [Hk|[Hlt Hk]]%lookup_app_Some; [by apply I3|].
    apply list_lookup_singleton_Some in Hk as [_ <-]. split; [done|]. by rewrite Hp.
  - intros k Hk. destruct (I4 k Hk) as (r & Hr & Hc). exists r. split; [|done]. by apply lookup_app_l_Some.
Qed.

Lemma submit_inv w k r e b :
  inv w -> calls w !! k = Some r -> constructed r = false -> submit (Some k) (executor w) = (e, b) ->
  inv (mkWorld e (<[k := if b then set_progress Queued (set_constructed r)
                        else finish queue_full None (set_constructed r)]> (calls w))).
Proof.
  intros Hw Hk Hc Hs. pose proof (inv_calls _ Hw k r Hk) as [Hr _].
  destruct (submit_keeps _ _ _ _ Hs) as (E1 & E2 & E3).
  assert (He : Executor.inv e).
  { replace e with (Executor.apply (executor w) (OpSubmit (Some k))) by (unfold Executor.apply; by rewrite Hs).
    apply apply_inv, Hw. }
  assert (Hnot : item k ∉ accepted (executor w)).
  { intros H. destruct (inv_accepted _ Hw k H) as (r2 & ? & ?). congruence. }
  assert (Hp : progress r = Unsubmitted) by by apply (cok_new _ Hr).
  assert (Hwork : work r = []). { pose proof (cok_work _ Hr) as H. by rewrite Hp in H. }
  set (r' := if b then _ else _).
  assert (Hr' : call_ok r' /\ constructed r' = true /\ outstanding (progress r') = b).
  { destruct Hr as [C1 C2 C3 C4 C5 C6]. unfold r'. destruct b; [by split_and!; [split|..]|].
    unfold finish. cbn. case_bool_decide as Eg.
    - destruct (C1 Eg) as [Hf Hresp]. split_and!; [split|..]; cbn; rewrite ?Hp, ?Hf, ?Hresp; try done.
      intros _. by exists queue_full.
    - split_and!; [split|..]; cbn; rewrite ?Hp; done. }
  destruct Hr' as (H1 & H2 & H3). split; cbn; [done|by rewrite E2; apply Hw|..].
  - intros j r1 [(<- & <- & _)|[Hne Hj]]%list_lookup_insert_Some.
    + split; [done|]. rewrite H3. intros ->. rewrite E1, E3. split; [set_solver|].
      intros H%completed_accepted; [done|apply Hw].
    + destruct (inv_calls _ Hw j r1 Hj) as [Hok Ho]. split; [done|]. rewrite E1, E3. set_solver.
  - intros j. rewrite E3. intros Hj. destruct (decide (k = j)) as [<-|Hne].
    + exists r'. by rewrite list_lookup_insert_eq by (by eapply lookup_lt_Some).
    + rewrite list_lookup_insert_ne by done. apply (inv_accepted _ Hw). destruct b; set_solver.
Qed.

(** A worker leaves an item only when the call of the item, if any, is over. *)
Lemma worker_inv w i :
  inv w ->
  (forall k r, running_call w i = Some (k, r) -> progress r = Over) ->
  inv (mkWorld (worker_step i (executor w)) (calls w)).
Proof.
  intros Hw Hover. destruct (worker_keeps (executor w) i) as (E1 & E2 & E3).
  apply inv_set_executor; [done|apply (apply_inv _ (OpWorker i)), Hw|by rewrite E1; apply Hw|by rewrite E2|].
  intros k r Hk Ho. rewrite E3, elem_of_app. intros [H|H]; [done|]. exfalso.
  destruct (workers (executor w) !! i) as [[| |x|]|] eqn:Ew; try by apply not_elem_of_nil in H.
  apply list_elem_of_singleton in H as <-. enough (H : progress r = Over) by by rewrite H in Ho.
  apply (Hover k). unfold running_call. rewrite Ew. cbn. by rewrite Hk.
Qed.

Lemma cancel_finish_ok r : call_ok r ->
  let r1 := finish rpc_cancelled None r in
  call_ok (mkReactor (constructed r1) (stop_requested r1) (gate r1) (response r1) (progress r1) false
             (deleted r1) (work r1) (finishes r1)).
Proof. intros Hr. destruct (refuse_ok rpc_cancelled r Hr) as [C1 C2 C3 C4 C5 C6]; done. Qed.

Lemma request_stop_ok c r : call_ok r -> call_ok (request_stop c r).
Proof. by intros []. Qed.

Lemma on_done_ok r : call_ok r -> finishes r <> [] -> call_ok (on_done r).
Proof.
  intros [C1 C2 C3 C4 C5 C6] Hf. split; cbn; try done. intros _. apply C2. intros Hg. by destruct (C1 Hg).
Qed.

Lemma task_step_inv w s : inv w -> inv (step w s).
Proof.
  intros Hw. destruct s as [reg|k|i|i result|i|i|i|o|k|k|k|k]; cbn [step].
  - by apply call_inv.
  - destruct (calls w !! k) as [r|] eqn:Hk; [|done]. destruct (constructed r) eqn:Hc; [done|].
    destruct (submit (Some k) (executor w)) as [e b] eqn:Hs. by apply submit_inv.
  - apply closure_inv; [done|apply task_enter_ok].
  - apply closure_inv; [done|apply task_run_ok].
  - apply closure_inv; [done|apply task_check_ok].
  - apply closure_inv; [done|apply task_complete_ok].
  - destruct (running_call w i) as [[k r]|] eqn:E; [|by apply worker_inv; [done|]; rewrite E].
    destruct (progress r) eqn:Ep; try done. apply worker_inv; [done|]. rewrite E. by intros ? ? [= <- <-].
  - destruct (foreign o) eqn:Hf; [|done]. destruct (foreign_keeps (executor w) o Hf) as (E1 & E2 & E3).
    apply inv_set_executor; [done|apply apply_inv, Hw|by rewrite E2; apply Hw|done|]. intros k r _ _. by rewrite E1.
  - apply on_call_inv; [done|]. intros r _ _ Hr. split; [by apply request_stop_ok|done].
  - apply on_call_inv; [done|]. intros r _ _ Hr. split; [by apply cancel_finish_ok|].
    by destruct (finish_keeps rpc_cancelled None r) as (H1 & H2 & _).
  - apply on_call_inv; [done|]. intros r _ _ Hr. unfold shutdown.
    split; [apply refuse_ok; [by apply request_stop_ok|done]|].
    by destruct (finish_keeps shutting_down None (request_stop (cancelling r) r)) as (H1 & H2 & _).
  - apply on_call_inv; [done|]. intros r _ Hg Hr. split; [|done]. apply on_done_ok; [done|].
    apply andb_true_iff in Hg as [_ Hg]. by apply negb_true_iff, bool_decide_eq_false in Hg.
Qed.

Lemma task_run_inv e steps : Executor.inv e -> dropped e = [] -> accepted e = [] -> inv (run e steps).
Proof.
  intros H1 H2 H3. unfold run. pose proof (task_inv_start e H1 H2 H3) as H. revert H. generalize (start e).
  induction steps as [|s steps IH]; intros w Hw; [done|]. by apply IH, task_step_inv.
Qed.

(** With nothing queued and nothing running, no closure is outstanding. *)
Lemma idle_not_outstanding w k r :
  inv w -> idle (executor w) = true -> calls w !! k = Some r -> outstanding (progress r) = false.
Proof.
  intros Hw Hi Hk. destruct (outstanding (progress r)) eqn:E; [|done]. exfalso.
  destruct (proj2 (inv_calls _ Hw k r Hk) E) as [Ha Hc]. pose proof (inv_executor _ Hw) as He.
  unfold idle in Hi. apply andb_true_iff in Hi as [Hq%bool_decide_eq_true Hact%Z.eqb_eq].
  rewrite (inv_order _ He), Hq, (inv_kept _ Hw), !app_nil_r, (inv_started _ He), elem_of_app in Ha.
  destruct Ha as [Ha|Ha]; [done|]. rewrite (inv_active _ He) in Hact.
  destruct (running (executor w)); [by apply not_elem_of_nil in Ha|]. cbn in Hact. lia.
Qed.

(** C17: every unary call that runs its work on the bounded executor is answered at most
    once, whatever the order in which its worker, its cancellation, the shutdown of the
    server and gRPC's own calls reach it.  The work runs at most once; an [OK] answer
    carries the response the work produced with that very status, and any other answer
    leaves the response alone.  Once the executor is idle, every call whose constructor
    is over has been answered, the refused and the cancelled ones included. *)
Theorem unary_calls_answered threads cap reserve e steps k r :
  Z.of_nat threads < 2 ^ 64 -> Z.of_nat cap < 2 ^ 64 -> Executor.make threads cap reserve = Ok e ->
  calls (run e steps) !! k = Some r ->
  (finishes r = [] /\ response r = None
   \/ exists s, finishes r = [s]
      /\ (status_code s = OK -> exists x, response r = Some x /\ work r = [TaskReturns s x])
      /\ (status_code s <> OK -> response r = None))
  /\ (length (work r) <= 1)%nat
  /\ (constructed r = true -> idle (executor (run e steps)) = true -> finishes r <> []).
Proof.
  intros Ht Hc He Hk.
  assert (Hnew : dropped e = [] /\ accepted e = []).
  { revert He. unfold make. case_match; [done|]. by intros [= <-]. }
  assert (Hw : inv (run e steps)) by (apply task_run_inv; [by apply (inv_make threads cap reserve)|apply Hnew..]).
  destruct (inv_calls _ Hw k r Hk) as [Hr _]. split_and!.
  - destruct (decide (gate r = Gate.Open)) as [Hg|Hg];
      [left; by apply (cok_open _ Hr)|right; by apply (cok_finished _ Hr)].
  - pose proof (cok_work _ Hr) as H. destruct (progress r); rewrite ?H; cbn; try lia; apply H.
  - intros H Hi. pose proof (idle_not_outstanding _ k r Hw Hi Hk) as Ho.
    destruct (cok_finished _ Hr (cok_answered _ Hr H Ho)) as (s & -> & _). done.
Qed.

End Task.

(** Three calls on one worker and a queue of one: the second is refused, the third is
    cancelled, and its client gone, before a worker reaches it. *)
Definition sample_steps : list (Step (Response := Z)) :=
  [Call true; Submit 0; Call true; Submit 1; Worker 0; Call true; Submit 2;
   TaskEnter 0; TaskRun 0 (TaskReturns (mkGrpcStatus OK "") 7); TaskCheck 0; TaskComplete 0; Worker 0;
   Worker 0; Cancel 2; CancelFinish 2; Done 2; TaskEnter 0; Worker 0; Call false].

Definition sample_executor : Executor :=
  mkExecutor 1 0 [] [Awake] [] 0 0 true false true 0 0 [] [] [] [].

Lemma unary_calls_answered_witness :
  let w := run sample_executor sample_steps in
  (fun r => (finishes r, response r)) <$> calls w
  = [([mkGrpcStatus OK ""], Some 7); ([queue_full], None); ([rpc_cancelled], None); ([shutting_down], None)]
  /\ exists r, calls w !! 2%nat = Some r /\ (length (work r) <= 1)%nat
     /\ (constructed r = true -> idle (executor w) = true -> finishes r <> []).
Proof.
  split; [vm_compute; reflexivity|]. eexists. split; [vm_compute; reflexivity|].
  eapply (unary_calls_answered 1 1 0 sample_executor sample_steps 2);
    [lia|lia|reflexivity|vm_compute; reflexivity].
Defined.

End Task.

Module Command.
Import Ticket.
Import CommandRpc.

#[local] Existing Instance Gate.GateState_eq_dec.

Definition wait_cancelled : GrpcStatus :=
  mkGrpcStatus CANCELLED "command wait cancelled; any accepted work continues".
Definition command_shutting_down : GrpcStatus :=
  mkGrpcStatus UNAVAILABLE "server shutting down; any accepted command continues".

(** How the [Submit] function of a call ends.  With an [OK] status it set the ticket, in
    some state by the time it returns, and the wait policy. *)
Inductive Submission :=
| SubmitAccepted (ticket : CommandResult) (policy : CommandWaitPolicy)
| SubmitRefused (status : GrpcStatus)
| SubmitThrows (what : string)
| SubmitThrowsOther.

(** [Escaped]: [run_submit] was left by an exception it does not catch. *)
Inductive Phase :=
| Constructing
| Registered
| InQueue
| Submitting
| SubmitEnded (refusal : option GrpcStatus)
| Over
| Escaped.

(** [pending]: the notifications of the ticket for this call that its callback has yet to
    take to the reactor. *)
Record World := mkWorld {
  direct : bool;
  phase : Phase;
  gate : Gate.GateState;
  stop_requested : bool;
  response : option ExecuteCommandResponse;
  cancelling : bool;
  deleted : bool;
  finishes : list GrpcStatus;
  ticket : option (State * CommandWaitPolicy);
  pending : list CommandResult;
}.

Definition set_phase (p : Phase) (w : World) : World :=
  mkWorld (direct w) p (gate w) (stop_requested w) (response w) (cancelling w) (deleted w) (finishes w)
    (ticket w) (pending w).
Definition set_ticket (t : option (State * CommandWaitPolicy)) (l : list CommandResult) (w : World) : World :=
  mkWorld (direct w) (phase w) (gate w) (stop_requested w) (response w) (cancelling w) (deleted w) (finishes w)
    t l.
Definition request_stop (c : bool) (w : World) : World :=
  mkWorld (direct w) (phase w) (gate w) true (response w) c (deleted w) (finishes w) (ticket w) (pending w).

(** [gate_->finish], with the response the function sets. *)
Definition finish_with (status : GrpcStatus) (resp : option ExecuteCommandResponse) (w : World) : World :=
  if bool_decide (gate w = Gate.Open)
  then mkWorld (direct w) (phase w) Gate.Finishing (stop_requested w)
         (match resp with Some _ => resp | None => response w end) (cancelling w) (deleted w)
         (finishes w ++ [status]) (ticket w) (pending w)
  else w.

Definition finish (status : GrpcStatus) (w : World) : World := finish_with status None w.

(** [complete]; the fields it sets are [CommandRpc.complete]. *)
Definition complete (result : CommandResult) (w : World) : World :=
  finish_with (mkGrpcStatus OK "") (Some (CommandRpc.complete result)) w.

Definition shutdown (w : World) : World := finish command_shutting_down (request_stop (cancelling w) w).

(** [register_shutdown] *)
Definition register_shutdown (registered : bool) (w : World) : World :=
  match phase w with
  | Constructing => if registered then set_phase Registered w else shutdown (set_phase Over w)
  | _ => w
  end.

(** [executor.submit] in the second constructor. *)
Definition queue_submit (accepted : bool) (w : World) : World :=
  match phase w with
  | Registered =>
      if direct w then w
      else if accepted then set_phase InQueue w else finish queue_full (set_phase Over w)
  | _ => w
  end.

(** [run_submit] begins: in the first constructor, or in a worker. *)
Definition start_submit (w : World) : World :=
  match phase w with
  | Registered => if direct w then set_phase Submitting w else w
  | InQueue => set_phase Submitting w
  | _ => w
  end.

(** [submit(...)] and its [catch]. *)
Definition submit_ends (s : Submission) (w : World) : World :=
  match phase w with
  | Submitting =>
      match s with
      | SubmitAccepted r p => set_phase (SubmitEnded None) (set_ticket (Some (mkState r [], p)) [] w)
      | SubmitRefused st =>
          if bool_decide (status_code st = OK) then w else set_phase (SubmitEnded (Some st)) w
      | SubmitThrows what => set_phase (SubmitEnded (Some (mkGrpcStatus INTERNAL what))) w
      | SubmitThrowsOther => set_phase Escaped w
      end
  | _ => w
  end.

(** [weak_gate.lock()] and what follows. *)
Definition settle (w : World) : World :=
  match phase w with
  | SubmitEnded refusal =>
      let w1 := set_phase Over w in
      if deleted w then w1
      else match refusal, ticket w with
           | Some st, _ => finish st w1
           | None, Some (t, p) =>
               let '(t', notes) := observe p 0%nat t in
               set_ticket (Some (t', p)) (pending w ++ notes.*2) w1
           | None, None => w1
           end
  | _ => w
  end.

(** The coordinator moves the ticket. *)
Definition move_ticket (result : CommandState) (error : string) (accepted_sequence : Z) (w : World) : World :=
  match ticket w with
  | Some (t, p) =>
      let '(t', notes) := transition result error accepted_sequence t in
      set_ticket (Some (t', p)) (pending w ++ notes.*2) w
  | None => w
  end.

(** The callback given to [observe]. *)
Definition deliver (w : World) : World :=
  match pending w with
  | [] => w
  | r :: rest =>
      let w1 := set_ticket (ticket w) rest w in
      if deleted w then w1 else complete r w1
  end.

Inductive Step :=
| RegisterShutdown (registered : bool)
| QueueSubmit (accepted : bool)
| StartSubmit
| SubmitEnds (s : Submission)
| Settle
| Transition (result : CommandState) (error : string) (accepted_sequence : Z)
| Deliver
| Cancel
| CancelFinish
| Shutdown
| Done.

Definition step (w : World) (s : Step) : World :=
  match s with
  | RegisterShutdown b => register_shutdown b w
  | QueueSubmit b => queue_submit b w
  | StartSubmit => start_submit w
  | SubmitEnds x => submit_ends x w
  | Settle => settle w
  | Transition Queued _ _ => w
  | Transition result error n => move_ticket result error n w
  | Deliver => deliver w
  | Cancel => if deleted w then w else request_stop true w
  | CancelFinish =>
      if cancelling w then
        let w1 := finish wait_cancelled w in
        mkWorld (direct w1) (phase w1) (gate w1) (stop_requested w1) (response w1) false (deleted w1)
          (finishes w1) (ticket w1) (pending w1)
      else w
  | Shutdown =>
      match phase w with
      | Constructing => w
      | _ => if bool_decide (gate w = Gate.Open) then shutdown w else w
      end
  | Done =>
      if bool_decide (finishes w = []) || cancelling w || deleted w then w
      else mkWorld (direct w) (phase w) Gate.Done (stop_requested w) (response w) (cancelling w) true
             (finishes w) (ticket w) (pending w)
  end.

Definition start (direct : bool) : World :=
  mkWorld direct Constructing Gate.Open false None false false [] None [].
Definition run (direct : bool) (steps : list Step) : World := foldl step (start direct) steps.

(** ** The invariant *)

(** [r] is a result the ticket had, and one the wait was for. *)
Definition heard (t : State) (p : CommandWaitPolicy) (r : CommandResult) : Prop :=
  wait_ready p r = true /\ advances (mkState r []) t.

(** The call's observer, with the ticket or on its way. *)
Definition own (p : CommandWaitPolicy) : PendingObserver := mkPendingObserver p 0%nat.

Record inv (w : World) : Prop := mkInv {
  cinv_open : gate w = Gate.Open -> finishes w = [] /\ response w = None;
  cinv_finished : gate w <> Gate.Open -> exists s, finishes w = [s]
    /\ (status_code s <> OK -> response w = None)
    /\ (status_code s = OK -> exists t p r, ticket w = Some (t, p) /\ heard t p r
        /\ response w = Some (CommandRpc.complete r));
  cinv_deleted : deleted w = true -> gate w <> Gate.Open;
  cinv_ticket : match ticket w with
    | Some (t, p) => settled t /\ Forall (eq (own p)) (st_observers t) /\ Forall (heard t p) (pending w)
        /\ (phase w = SubmitEnded None \/ phase w = Over)
        /\ (phase w = SubmitEnded None -> st_observers t = [] /\ pending w = [])
        /\ (gate w = Gate.Open -> phase w = Over ->
            st_observers t <> [] \/ pending w <> [])
    | None => pending w = [] /\ phase w <> SubmitEnded None
        /\ (phase w = Over -> gate w <> Gate.Open)
    end;
  cinv_refusal : forall st, phase w = SubmitEnded (Some st) -> status_code st <> OK;
}.

(** What [finish_with] changes, and what it leaves alone. *)
Lemma finish_with_keeps s resp w :
  let w' := finish_with s resp w in
  gate w' <> Gate.Open /\ phase w' = phase w /\ ticket w' = ticket w /\ pending w' = pending w
  /\ deleted w' = deleted w /\ cancelling w' = cancelling w /\ direct w' = direct w.
Proof. unfold finish_with. case_bool_decide; by split_and!. Qed.

(** The part of the invariant about the answer, on its own. *)
Definition answer_ok (w : World) : Prop :=
  (gate w = Gate.Open -> finishes w = [] /\ response w = None)
  /\ (gate w <> Gate.Open -> exists s, finishes w = [s]
      /\ (status_code s <> OK -> response w = None)
      /\ (status_code s = OK -> exists t p r, ticket w = Some (t, p) /\ heard t p r
          /\ response w = Some (CommandRpc.complete r))).

Lemma inv_answer w : inv w -> answer_ok w.
Proof. intros H. split; apply H. Qed.

Lemma finish_answer s w : answer_ok w -> status_code s <> OK -> answer_ok (finish s w).
Proof.
  intros [H1 H2] Hs. unfold finish, finish_with. case_bool_decide as Eg; [|by split].
  destruct (H1 Eg) as [Hf Hr]. split; cbn; [done|]. intros _. exists s. by rewrite Hf.
Qed.

Lemma complete_answer r t p w :
  answer_ok w -> ticket w = Some (t, p) -> heard t p r -> answer_ok (complete r w).
Proof.
  intros [H1 H2] Ht Hr. unfold complete, finish_with. case_bool_decide as Eg; [|by split].
  destruct (H1 Eg) as [Hf _]. split; cbn; [done|]. intros _. eexists. rewrite Hf. split; [done|].
  split; [done|]. intros _. by exists t, p, r.
Qed.

(** A non-[OK] answer at any moment. *)
Lemma finish_inv s w : inv w -> status_code s <> OK -> inv (finish s w).
Proof.
  intros Hw Hs. destruct (finish_answer s w (inv_answer w Hw) Hs) as [A1 A2].
  destruct (finish_with_keeps s None w) as (K1 & K2 & K3 & K4 & K5 & _). fold (finish s w) in *.
  destruct Hw as [C1 C2 C3 C4 C5]. split; [done|done|done| |by rewrite K2].
  rewrite K2, K3, K4. destruct (ticket w) as [[t p]|]; [|naive_solver].
  destruct C4 as (? & ? & ? & ? & ? & ?). by split_and!.
Qed.

(** A change of the ticket that it may advance by. *)
Lemma heard_advances t t' p r : advances t t' -> heard t p r -> heard t' p r.
Proof. intros Ha [H1 H2]. split; [done|]. by etrans. Qed.

Lemma ticket_answer t t' p l w :
  answer_ok w -> ticket w = Some (t, p) -> advances t t' -> answer_ok (set_ticket (Some (t', p)) l w).
Proof.
  intros [H1 H2] Ht Ha. split; cbn; [done|]. intros Hg. destruct (H2 Hg) as (s & Hs & Hno & Hok).
  exists s. split_and!; [done..|]. intros E. destruct (Hok E) as (t1 & p1 & r & Ht1 & Hh & Hr).
  rewrite Ht in Ht1. injection Ht1 as <- <-. exists t', p, r. split_and!; [done| |done].
  by eapply heard_advances.
Qed.

(** What the two operations of a ticket do with the call's observer. *)
Definition ticket_step (t t' : State) (p : CommandWaitPolicy) (notes : list notification) : Prop :=
  advances t t' /\ settled t' /\ Forall (eq (own p)) (st_observers t') /\ Forall (heard t' p) notes.*2
  /\ (st_observers t' = [] -> notes = [] -> st_observers t = []).

Lemma notes_heard t' p (notes : list notification) :
  (forall cb r, (cb, r) ∈ notes -> r = st_result t' /\ wait_ready p r = true) -> Forall (heard t' p) notes.*2.
Proof.
  intros H. apply Forall_fmap, Forall_forall. intros [cb r] Hin. destruct (H cb r Hin) as [-> Hw].
  by split; [|repeat split].
Qed.

Lemma transition_step result error acc t p :
  result <> Queued -> settled t -> Forall (eq (own p)) (st_observers t) ->
  ticket_step t (transition result error acc t).1 p (transition result error acc t).2.
Proof.
  intros Hr Hs Ho. split_and!.
  - by apply transition_advances.
  - by apply transition_settled.
  - unfold transition. case_match; [done|]. case_match; [done|]. cbn. rewrite Forall_forall in *.
    intros o [_ Hin]%list_elem_of_filter. by apply Ho.
  - apply notes_heard. intros cb r (H1 & o & Hin & _ & Hw)%transition_notifies. split; [done|].
    rewrite Forall_forall in Ho. by rewrite <- (Ho o Hin) in Hw.
  - intros E1 E2. pose proof (transition_conserves result error acc t) as P. rewrite E1, E2 in P.
    by apply Permutation_nil_r, fmap_nil_inv in P.
Qed.

Lemma observe_step t p :
  settled t -> st_observers t = [] ->
  ticket_step t (observe p 0%nat t).1 p (observe p 0%nat t).2
  /\ (st_observers (observe p 0%nat t).1 <> [] \/ (observe p 0%nat t).2 <> []).
Proof.
  intros Hs Ho. split; [split_and!|].
  - apply observe_advances.
  - by apply observe_settled.
  - apply Forall_forall. intros o [H|H]%Coordinator.observe_pending; [rewrite Ho in H; by apply not_elem_of_nil in H|by subst].
  - apply notes_heard. intros cb r H. destruct (Coordinator.observe_notifies _ _ _ _ _ H) as [_ Hw]. split; [|done].
    revert H. unfold observe. case_match; cbn; [by intros [= -> ->]%list_elem_of_singleton|by intros ?%elem_of_nil].
  - done.
  - unfold observe. case_match; cbn; [by right|left]. by destruct (st_observers t).
Qed.

Lemma settle_inv w : inv w -> inv (settle w).
Proof.
  intros Hw. unfold settle. destruct (phase w) as [| | | |refusal| |] eqn:Ep; try done.
  pose proof (inv_answer w Hw) as [A1 A2]. pose proof Hw as [C1 C2 C3 C4 C5]. destruct (deleted w) eqn:Ed.
  - pose proof (C3 eq_refl) as Hg. split; cbn; try done.
    destruct (ticket w) as [[t p]|]; [|by destruct C4 as (? & _)].
    destruct C4 as (? & ? & ? & _). split_and!; try done. by right.
  - destruct refusal as [st|].
    + pose proof (C5 st Ep) as Hst.
      destruct (finish_answer st (set_phase Over w) (inv_answer w Hw) Hst) as [B1 B2].
      destruct (finish_with_keeps st None (set_phase Over w)) as (K1 & K2 & K3 & K4 & K5 & _).
      fold (finish st (set_phase Over w)) in *. split; [done|done|done| |by rewrite K2].
      rewrite K2, K3, K4. cbn. destruct (ticket w) as [[t p]|]; [|by destruct C4].
      destruct C4 as (_ & _ & _ & [H|H] & _); congruence.
    + destruct (ticket w) as [[t p]|] eqn:Et; [|by destruct C4 as (_ & [] & _)].
      destruct C4 as (Hs & Ho & Hh & _ & Hn & _). destruct (Hn Ep) as [Hobs Hp].
      destruct (observe_step t p Hs Hobs) as [(T1 & T2 & T3 & T4 & _) Hown].
      destruct (observe p 0%nat t) as [t' notes]. cbn in *.
      destruct (ticket_answer t t' p (pending w ++ notes.*2) (set_phase Over w) (inv_answer w Hw) Et T1) as [B1 B2].
      split; [done|done|cbn; by rewrite Ed| |done]. cbn. rewrite Hp. cbn. split_and!; try done; [by right|].
      intros _ _. destruct Hown as [H|H]; [by left|right]. by destruct notes.
Qed.

Lemma move_ticket_inv result error acc w : result <> Queued -> inv w -> inv (move_ticket result error acc w).
Proof.
  intros Hr Hw. unfold move_ticket. pose proof Hw as [C1 C2 C3 C4 C5].
  destruct (ticket w) as [[t p]|] eqn:Et; [|done]. destruct C4 as (Hs & Ho & Hh & Hp & Hn & Ha).
  destruct (transition_step result error acc t p Hr Hs Ho) as (T1 & T2 & T3 & T4 & T5).
  destruct (transition result error acc t) as [t' notes] eqn:Etr. cbn in *.
  destruct (ticket_answer t t' p (pending w ++ notes.*2) w (inv_answer w Hw) Et T1) as [B1 B2].
  split; [done|done|done| |done]. cbn. split_and!; try done.
  - apply Forall_app. split; [|done]. eapply Forall_impl; [done|]. intros r. by apply heard_advances.
  - intros E. destruct (Hn E) as [H1 H2]. pose proof (transition_conserves result error acc t) as P.
    rewrite Etr, H1 in P. cbn in P. apply Permutation_nil, app_nil in P as [P1 P2].
    apply fmap_nil_inv in P1, P2. by rewrite P1, P2, H2.
  - intros Hg Hph. destruct (Ha Hg Hph) as [H|H]; [|right; by destruct (pending w)].
    destruct (decide (st_observers t' = [])) as [E1|E1]; [right|by left]. intros [_ E2]%app_nil.
    apply H, T5; [done|]. by apply fmap_nil_inv in E2.
Qed.

Lemma deliver_inv w : inv w -> inv (deliver w).
Proof.
  intros Hw. unfold deliver. pose proof Hw as [C1 C2 C3 C4 C5].
  destruct (pending w) as [|r rest] eqn:Ep; [done|]. destruct (ticket w) as [[t p]|] eqn:Et; [|by destruct C4].
  destruct C4 as (Hs & Ho & [Hr Hrest]%Forall_cons & Hp & Hn & Ha).
  destruct (ticket_answer t t p rest w (inv_answer w Hw) Et ltac:(reflexivity)) as [B1 B2].
  set (w1 := set_ticket _ _ _) in *.
  assert (Hnone : phase w1 = SubmitEnded None -> False) by (intros E; by destruct (Hn E)).
  destruct (deleted w) eqn:Ed.
  - pose proof (C3 eq_refl) as Hg. split; [done|done|by cbn|cbn|done].
    split_and!; try done.
  - destruct (complete_answer r t p w1) as [D1 D2]; [done|done|done|].
    destruct (finish_with_keeps (mkGrpcStatus OK "") (Some (CommandRpc.complete r)) w1)
      as (K1 & K2 & K3 & K4 & K5 & _). fold (complete r w1) in *.
    split; [done|done|done| |by rewrite K2]. rewrite K2, K3, K4. cbn. split_and!; try done.
Qed.

Lemma set_phase_inv p w :
  inv w -> ticket w = None -> p <> SubmitEnded None -> (p = Over -> gate w <> Gate.Open) ->
  (forall st, p = SubmitEnded (Some st) -> status_code st <> OK) -> inv (set_phase p w).
Proof.
  intros [C1 C2 C3 C4 C5] Ht Hp Ho Hr. rewrite Ht in C4. split; cbn; rewrite ?Ht in *; try done.
  by destruct C4.
Qed.

Lemma finish_set_phase s p w : finish s (set_phase p w) = set_phase p (finish s w).
Proof. unfold finish, finish_with. cbn. by case_bool_decide. Qed.

(** A call that is over before it had a ticket. *)
Lemma over_inv s w : inv w -> ticket w = None -> status_code s <> OK -> inv (finish s (set_phase Over w)).
Proof.
  intros Hw Ht Hs. rewrite finish_set_phase. destruct (finish_with_keeps s None w) as (K1 & _ & K3 & _).
  apply set_phase_inv; [by apply finish_inv|by rewrite <- K3 in Ht|done|by intros _|done].
Qed.

(** No ticket before the submission has ended. *)
Lemma no_ticket w : inv w -> phase w <> SubmitEnded None -> phase w <> Over -> ticket w = None.
Proof.
  intros Hw H1 H2. pose proof (cinv_ticket _ Hw) as H. destruct (ticket w) as [[t p]|]; [|done].
  destruct H as (_ & _ & _ & [H|H] & _); done.
Qed.

Lemma request_stop_inv c w : inv w -> inv (request_stop c w).
Proof. by intros []. Qed.

Lemma shutdown_inv w : inv w -> inv (shutdown w).
Proof. intros Hw. apply finish_inv; [by apply request_stop_inv|done]. Qed.

Lemma submit_ends_inv s w : inv w -> inv (submit_ends s w).
Proof.
  intros Hw. unfold submit_ends. destruct (phase w) eqn:Ep; try done.
  assert (Ht : ticket w = None) by (apply no_ticket; [done|by rewrite Ep..]).
  destruct s as [r p|st|what|].
  - destruct Hw as [C1 C2 C3 C4 C5]. split; cbn; try done.
    + intros Hg. destruct (C2 Hg) as (s & Hs & Hno & Hok). exists s. split_and!; [done..|].
      intros E. destruct (Hok E) as (? & ? & ? & H & _). congruence.
    + split_and!; try done; [|by left]. by apply Forall_nil.
  - case_bool_decide; [done|]. apply set_phase_inv; try done. by intros ? [= <-].
  - apply set_phase_inv; try done. by intros ? [= <-].
  - by apply set_phase_inv.
Qed.

Lemma command_step_inv w s : inv w -> inv (step w s).
Proof.
  intros Hw. destruct s as [b|b| |s| |[] error n| | | | |]; cbn [step]; try done.
  - unfold register_shutdown. destruct (phase w) eqn:Ep; try done.
    assert (Ht : ticket w = None) by (apply no_ticket; [done|by rewrite Ep..]).
    destruct b; [by apply set_phase_inv|].
    by apply (over_inv command_shutting_down (request_stop (cancelling w) w)); [apply request_stop_inv|..].
  - unfold queue_submit. destruct (phase w) eqn:Ep; try done. destruct (direct w); [done|].
    assert (Ht : ticket w = None) by (apply no_ticket; [done|by rewrite Ep..]).
    destruct b; [by apply set_phase_inv|by apply over_inv].
  - unfold start_submit. destruct (phase w) eqn:Ep; try done; [destruct (direct w); [|done]|];
      (apply set_phase_inv; try done; apply no_ticket; [done|by rewrite Ep..]).
  - by apply submit_ends_inv.
  - by apply settle_inv.
  - by apply move_ticket_inv.
  - by apply move_ticket_inv.
  - by apply move_ticket_inv.
  - by apply deliver_inv.
  - destruct (deleted w); [done|]. by apply request_stop_inv.
  - destruct (cancelling w); [|done]. by destruct (finish_inv wait_cancelled w Hw ltac:(done)).
  - destruct (phase w); try done; (case_bool_decide; [by apply shutdown_inv|done]).
  - destruct (bool_decide (finishes w = [])) eqn:Ef; [done|]. destruct (cancelling w || deleted w) eqn:Ec.
    { cbn. by rewrite Ec. }
    cbn. rewrite Ec. apply bool_decide_eq_false in Ef. destruct Hw as [C1 C2 C3 C4 C5].
    assert (Hg : gate w <> Gate.Open) by (intros E; by destruct (C1 E)).
    split; cbn; try done; [by intros _; apply C2|]. destruct (ticket w) as [[t p]|]; [|by destruct C4 as (? & ? & _)].
    destruct C4 as (? & ? & ? & ? & ? & _). by split_and!.
Qed.

Lemma command_run_inv direct steps : inv (run direct steps).
Proof.
  unfold run. assert (H : inv (start direct)) by (split; cbn; try done).
  revert H. generalize (start direct). induction steps as [|s steps IH]; intros w Hw; [done|]. by apply IH, command_step_inv.
Qed.

(** C19: a command call is answered at most once, in every order of its submission, of the
    progress of its command, of the delivery of the ticket's notifications, of its
    cancellation and of the shutdown.  An [OK] answer carries the response for a result
    its wait policy was waiting for, and that result is still the command's: the ticket
    has at most advanced from accepted to finished, never to another outcome.  Every
    other answer leaves the response empty.  Once the submission is over and the ticket
    satisfies the policy with no notification under way, the call has been answered. *)
Theorem command_call_answered direct steps :
  let w := run direct steps in
  (finishes w = [] /\ response w = None
   \/ exists s, finishes w = [s] /\ (status_code s <> OK -> response w = None)
      /\ (status_code s = OK -> exists t p r, ticket w = Some (t, p)
           /\ wait_ready p r = true /\ response w = Some (CommandRpc.complete r)
           /\ result_sequence (st_result t) = result_sequence r
           /\ result_accepted_sequence (st_result t) = result_accepted_sequence r
           /\ (is_terminal (result_state r) = true -> st_result t = r)))
  /\ (phase w = Over -> pending w = [] ->
      (forall t p, ticket w = Some (t, p) -> wait_ready p (st_result t) = true) -> finishes w <> []).
Proof.
  intros w. pose proof (command_run_inv direct steps) as Hw. fold w in Hw. destruct Hw as [C1 C2 C3 C4 C5]. split.
  - destruct (decide (gate w = Gate.Open)) as [Hg|Hg]; [left; by apply C1|right].
    destruct (C2 Hg) as (s & Hs & Hno & Hok). exists s. split_and!; [done..|]. intros E.
    destruct (Hok E) as (t & p & r & Ht & [Hr (Ha1 & _ & Ha3 & Ha4)] & Hresp). cbn in *.
    exists t, p, r. split_and!; try done. apply Ha4. by destruct p, r as [? ? [] ?].
  - intros Hp Hpend Ht Hf. destruct (decide (gate w = Gate.Open)) as [Hg|Hg];
      [|by destruct (C2 Hg) as (s & Hs & _); rewrite Hf in Hs].
    destruct (ticket w) as [[t p]|]; [|by destruct C4 as (_ & _ & H); destruct (H Hp)].
    destruct C4 as (Hs & Ho & _ & _ & _ & Ha). destruct (Ha Hg Hp) as [H|H]; [|done].
    destruct (st_observers t) as [|o l] eqn:El; [done|]. unfold settled in Hs. rewrite El in Hs.
    apply Forall_cons in Hs as [Hs _]. apply Forall_cons in Ho as [<- _]. cbn in Hs. by rewrite (Ht t p eq_refl) in Hs.
Qed.

(** A client that waits for completion hears of it once, although its cancellation and
    the shutdown of the server come right behind. *)
Definition sample_steps : list Step :=
  [RegisterShutdown true; StartSubmit; SubmitEnds (SubmitAccepted (mkCommandResult 3 0 Queued "") WaitCompleted);
   Transition Accepted "" 41; Settle; Transition Completed "" 0; Cancel; Deliver; CancelFinish; Shutdown; Done].

Example sample_run :
  let w := run true sample_steps in
  finishes w = [mkGrpcStatus OK ""] /\ response w = Some (mkResponse 41 RCS_STATUS_DONE None).
Proof. split; reflexivity. Qed.

(** An exception that is not a [std::exception] leaves [run_submit]: the call is not
    answered before a cancellation or the shutdown. *)
Example escape_unanswered :
  let w := run false [RegisterShutdown true; QueueSubmit true; StartSubmit; SubmitEnds SubmitThrowsOther; Settle] in
  phase w = Escaped /\ finishes w = [].
Proof. split; reflexivity. Qed.

End Command.
