(* ===== verification/StatusCodec.v ===== *)
(** The status codec ([machine/grpc/status_codec.cc]): the encoding of a native
    snapshot as a [LinuxCNCStat] message, and the typed deltas between two
    encoded statuses.  A client's reading of a delta, which the message
    definitions of [machine.proto] describe, is the specification
    [apply_status_delta]; the codec is correct when applying the delta to the
    previous status gives the current one, up to values that the wire cannot
    tell apart ([0.0] and [-0.0]). *)
From Stdlib Require Import String SpecFloat.
From S2P Require Import Prelude Float64 NmlStatus NmlCommand.
Import Request.

Local Open Scope Z_scope.

(** * Wire values

    [wire_eq] is the comparison of the sources ([!=] on scalars,
    [MessageDifferencer::Equals] on messages, [std::equal] on repeated fields),
    [wire_norm] a normal form with which values that compare equal agree. *)
Class Wire (A : Type) := {
  wire_eq : A -> A -> bool;
  wire_norm : A -> A;
  wire_law : forall a b, wire_eq a b = true -> wire_norm a = wire_norm b;
}.

Ltac solve_wire_law :=
  intros; cbv beta in *; bool_to_prop; f_equal; by apply wire_law.

#[export] Program Instance Z_wire : Wire Z := {| wire_eq := Z.eqb; wire_norm z := z |}.
Next Obligation. intros a b. apply Z.eqb_eq. Qed.
#[export] Program Instance bool_wire : Wire bool := {| wire_eq := Bool.eqb; wire_norm b := b |}.
Next Obligation. intros a b. apply Bool.eqb_prop. Qed.
#[export] Program Instance string_wire : Wire string := {| wire_eq := String.eqb; wire_norm s := s |}.
Next Obligation. intros a b. apply String.eqb_eq. Qed.
#[export] Instance f64_wire : Wire f64 :=
  {| wire_eq := f64_eq; wire_norm := norm_float; wire_law := f64_eq_norm |}.

(** Repeated fields: the same size and equal elements. *)
Fixpoint list_eq {A} `{Wire A} (l k : list A) : bool :=
  match l, k with
  | [], [] => true
  | x :: l', y :: k' => wire_eq x y && list_eq l' k'
  | _, _ => false
  end.

#[export] Program Instance list_wire {A} `{Wire A} : Wire (list A) :=
  {| wire_eq := list_eq; wire_norm l := wire_norm <$> l |}.
Next Obligation.
  intros A W l. induction l as [|x l IH]; intros [|y k]; cbn; try done.
  intros [Hx Hl]%andb_true_iff. f_equal; [by apply wire_law|by apply IH].
Qed.

(** [optional] fields: presence counts. *)
Definition option_eq {A} `{Wire A} (a b : option A) : bool :=
  match a, b with Some x, Some y => wire_eq x y | None, None => true | _, _ => false end.

#[export] Program Instance option_wire {A} `{Wire A} : Wire (option A) :=
  {| wire_eq := option_eq; wire_norm a := wire_norm <$> a |}.
Next Obligation. intros A W [x|] [y|]; cbn; try done. intros H. f_equal. by apply wire_law. Qed.

(** * Messages *)

Record ActiveGCodes := mkActiveGCodes {
  gc_g_mode0 : Z;
  gc_motion_mode : Z;
  gc_plane : Z;
  gc_distance_mode : Z;
  gc_ijk_distance_mode : Z;
  gc_feed_rate_mode : Z;
  gc_units : Z;
  gc_cutter_comp : Z;
  gc_tool_length_offset : Z;
  gc_retract_mode : Z;
  gc_origin : Z;
  gc_path_control : Z;
  gc_spindle_speed_mode : Z;
  gc_lathe_diameter_mode : Z;
  gc_g92_applied : Z;
}.

Record ActiveMCodes := mkActiveMCodes {
  mc_stopping : Z;
  mc_tool_change : Z;
  mc_spindle_control : Z;
  mc_mist_coolant : Z;
  mc_flood_coolant : Z;
  mc_override_control : Z;
  mc_adaptive_feed_control : Z;
  mc_feed_hold_control : Z;
}.

Record ActiveSettings := mkActiveSettings {
  as_feed_rate : f64;
  as_speed : f64;
  as_blend_tolerance : f64;
  as_naive_cam_tolerance : f64;
}.

Record JointStat := mkJointStat {
  jt_joint_type : Z;
  jt_units : f64;
  jt_backlash : f64;
  jt_min_position_limit : f64;
  jt_max_position_limit : f64;
  jt_min_ferror : f64;
  jt_max_ferror : f64;
  jt_ferror_current : f64;
  jt_ferror_high_mark : f64;
  jt_output : f64;
  jt_input : f64;
  jt_velocity : f64;
  jt_in_position : bool;
  jt_homing : bool;
  jt_homed : bool;
  jt_fault : bool;
  jt_enabled : bool;
  jt_min_soft_limit : bool;
  jt_max_soft_limit : bool;
  jt_min_hard_limit : bool;
  jt_max_hard_limit : bool;
  jt_override_limits : bool;
  jt_available : bool;
}.

Record AxisStat := mkAxisStat {
  ax_min_position_limit : f64;
  ax_max_position_limit : f64;
  ax_velocity : f64;
}.

Record SpindleStat := mkSpindleStat {
  sp_speed : f64;
  sp_feedback : f64;
  sp_override : f64;
  sp_css_maximum : f64;
  sp_css_factor : f64;
  sp_direction : Z;
  sp_brake : bool;
  sp_increasing : Z;
  sp_enabled : bool;
  sp_orient_state : Z;
  sp_orient_fault : Z;
  sp_spindle_override_enabled : bool;
  sp_homed : bool;
  sp_available : bool;
}.

Record ToolIoStat := mkToolIoStat {
  ti_pocket_prepped : Z;
  ti_tool_in_spindle : Z;
  ti_tool_from_pocket : Z;
}.

Record CoolantIoStat := mkCoolantIoStat {
  ci_mist : bool;
  ci_flood : bool;
}.

Record TaskStat := mkTaskStat {
  tk_mode : Z;
  tk_state : Z;
  tk_exec_state : Z;
  tk_interp_state : Z;
  tk_stop_state : Z;
  tk_call_level : Z;
  tk_motion_line : Z;
  tk_current_line : Z;
  tk_read_line : Z;
  tk_optional_stop_state : bool;
  tk_block_delete_state : bool;
  tk_input_timeout : bool;
  tk_file : string;
  tk_command : string;
  tk_ini_filename : string;
  tk_g5x_offset : list f64;
  tk_g5x_index : Z;
  tk_g5x_offsets : list (list f64);
  tk_g5x_rotations : list f64;
  tk_g92_offset : list f64;
  tk_g28_position : list f64;
  tk_g30_position : list f64;
  tk_rotation_xy : f64;
  tk_tool_offset : list f64;
  tk_active_g_codes : ActiveGCodes;
  tk_active_m_codes : ActiveMCodes;
  tk_active_settings : ActiveSettings;
  tk_program_units : Z;
  tk_interpreter_error_code : Z;
  tk_task_paused : bool;
  tk_delay_left : f64;
  tk_queued_mdi_commands : Z;
}.

Record TrajectoryStat := mkTrajectoryStat {
  tr_linear_units : f64;
  tr_angular_units : f64;
  tr_cycle_time : f64;
  tr_joints : Z;
  tr_spindles : Z;
  tr_available_axes : list Z;
  tr_mode : Z;
  tr_enabled : bool;
  tr_in_position : bool;
  tr_queue : Z;
  tr_active_queue : Z;
  tr_queue_full : bool;
  tr_id : Z;
  tr_paused : bool;
  tr_single_stepping : bool;
  tr_feed_rate_override : f64;
  tr_rapid_rate_override : f64;
  tr_position : list f64;
  tr_actual_position : list f64;
  tr_acceleration : f64;
  tr_max_velocity : f64;
  tr_max_acceleration : f64;
  tr_probed_position : list f64;
  tr_probe_tripped : bool;
  tr_probing : bool;
  tr_probe_val : f64;
  tr_kinematics_type : Z;
  tr_motion_type : Z;
  tr_distance_to_go : f64;
  tr_dtg : list f64;
  tr_current_velocity : f64;
  tr_feed_override_enabled : bool;
  tr_adaptive_feed_enabled : bool;
  tr_feed_hold_enabled : bool;
}.

Record MotionStat := mkMotionStat {
  mo_traj : TrajectoryStat;
  mo_joint : list JointStat;
  mo_axis : list AxisStat;
  mo_spindle : list SpindleStat;
  mo_digital_input : list Z;
  mo_digital_output : list Z;
  mo_analog_input : list f64;
  mo_analog_output : list f64;
}.

Record IoStat := mkIoStat {
  is_tool : ToolIoStat;
  is_coolant : CoolantIoStat;
  is_estop : bool;
}.

Record LinuxCNCStat := mkLinuxCNCStat {
  lc_echo_serial_number : Z;
  lc_state : Z;
  lc_task : TaskStat;
  lc_motion : MotionStat;
  lc_io : IoStat;
  lc_debug : Z;
  lc_tool_table : list ToolEntry;
}.

(** Deltas: [option] is field presence; [IndexedJointDelta] and the like are an
    index and an optional value. *)
Record TaskStatDelta := mkTaskStatDelta {
  dtk_mode : option Z;
  dtk_state : option Z;
  dtk_exec_state : option Z;
  dtk_interp_state : option Z;
  dtk_stop_state : option Z;
  dtk_call_level : option Z;
  dtk_motion_line : option Z;
  dtk_current_line : option Z;
  dtk_read_line : option Z;
  dtk_optional_stop_state : option bool;
  dtk_block_delete_state : option bool;
  dtk_input_timeout : option bool;
  dtk_file : option string;
  dtk_command : option string;
  dtk_ini_filename : option string;
  dtk_g5x_offset : option (list f64);
  dtk_g5x_index : option Z;
  dtk_g5x_offsets : list (list f64);
  dtk_replace_g5x_offsets : bool;
  dtk_g5x_rotations : list f64;
  dtk_replace_g5x_rotations : bool;
  dtk_g92_offset : option (list f64);
  dtk_g28_position : option (list f64);
  dtk_g30_position : option (list f64);
  dtk_rotation_xy : option f64;
  dtk_tool_offset : option (list f64);
  dtk_active_g_codes : option ActiveGCodes;
  dtk_active_m_codes : option ActiveMCodes;
  dtk_active_settings : option ActiveSettings;
  dtk_program_units : option Z;
  dtk_interpreter_error_code : option Z;
  dtk_task_paused : option bool;
  dtk_delay_left : option f64;
  dtk_queued_mdi_commands : option Z;
}.

Record TrajectoryStatDelta := mkTrajectoryStatDelta {
  dtr_linear_units : option f64;
  dtr_angular_units : option f64;
  dtr_cycle_time : option f64;
  dtr_joints : option Z;
  dtr_spindles : option Z;
  dtr_available_axes : list Z;
  dtr_mode : option Z;
  dtr_enabled : option bool;
  dtr_in_position : option bool;
  dtr_queue : option Z;
  dtr_active_queue : option Z;
  dtr_queue_full : option bool;
  dtr_id : option Z;
  dtr_paused : option bool;
  dtr_single_stepping : option bool;
  dtr_feed_rate_override : option f64;
  dtr_rapid_rate_override : option f64;
  dtr_position : option (list f64);
  dtr_actual_position : option (list f64);
  dtr_acceleration : option f64;
  dtr_max_velocity : option f64;
  dtr_max_acceleration : option f64;
  dtr_probed_position : option (list f64);
  dtr_probe_tripped : option bool;
  dtr_probing : option bool;
  dtr_probe_val : option f64;
  dtr_kinematics_type : option Z;
  dtr_motion_type : option Z;
  dtr_distance_to_go : option f64;
  dtr_dtg : option (list f64);
  dtr_current_velocity : option f64;
  dtr_feed_override_enabled : option bool;
  dtr_adaptive_feed_enabled : option bool;
  dtr_feed_hold_enabled : option bool;
  dtr_replace_available_axes : bool;
}.

Record MotionStatDelta := mkMotionStatDelta {
  dmo_traj : option TrajectoryStatDelta;
  dmo_joint : list (Z * option JointStat);
  dmo_axis : list (Z * option AxisStat);
  dmo_spindle : list (Z * option SpindleStat);
  dmo_digital_input : list Z;
  dmo_replace_digital_input : bool;
  dmo_digital_output : list Z;
  dmo_replace_digital_output : bool;
  dmo_analog_input : list f64;
  dmo_replace_analog_input : bool;
  dmo_analog_output : list f64;
  dmo_replace_analog_output : bool;
}.

Record IoStatDelta := mkIoStatDelta {
  dis_tool : option ToolIoStat;
  dis_coolant : option CoolantIoStat;
  dis_estop : option bool;
}.

Record LinuxCNCStatDelta := mkLinuxCNCStatDelta {
  dlc_sequence : Z;
  dlc_echo_serial_number : option Z;
  dlc_state : option Z;
  dlc_task : option TaskStatDelta;
  dlc_motion : option MotionStatDelta;
  dlc_io : option IoStatDelta;
  dlc_tool_table : option (list ToolEntry);
  dlc_debug : option Z;
}.

(** [message_equal] on the message types. *)
#[export] Program Instance ActiveGCodes_wire : Wire ActiveGCodes := {|
  wire_eq a b :=
    wire_eq (gc_g_mode0 a) (gc_g_mode0 b) && wire_eq (gc_motion_mode a) (gc_motion_mode b) &&
    wire_eq (gc_plane a) (gc_plane b) && wire_eq (gc_distance_mode a) (gc_distance_mode b) &&
    wire_eq (gc_ijk_distance_mode a) (gc_ijk_distance_mode b) && wire_eq (gc_feed_rate_mode a)
    (gc_feed_rate_mode b) && wire_eq (gc_units a) (gc_units b) && wire_eq (gc_cutter_comp a)
    (gc_cutter_comp b) && wire_eq (gc_tool_length_offset a) (gc_tool_length_offset b) && wire_eq
    (gc_retract_mode a) (gc_retract_mode b) && wire_eq (gc_origin a) (gc_origin b) && wire_eq
    (gc_path_control a) (gc_path_control b) && wire_eq (gc_spindle_speed_mode a)
    (gc_spindle_speed_mode b) && wire_eq (gc_lathe_diameter_mode a) (gc_lathe_diameter_mode b)
    && wire_eq (gc_g92_applied a) (gc_g92_applied b);
  wire_norm a :=
    mkActiveGCodes (wire_norm (gc_g_mode0 a)) (wire_norm (gc_motion_mode a)) (wire_norm
      (gc_plane a)) (wire_norm (gc_distance_mode a)) (wire_norm (gc_ijk_distance_mode a))
      (wire_norm (gc_feed_rate_mode a)) (wire_norm (gc_units a)) (wire_norm (gc_cutter_comp a))
      (wire_norm (gc_tool_length_offset a)) (wire_norm (gc_retract_mode a)) (wire_norm
      (gc_origin a)) (wire_norm (gc_path_control a)) (wire_norm (gc_spindle_speed_mode a))
      (wire_norm (gc_lathe_diameter_mode a)) (wire_norm (gc_g92_applied a));
|}.
Next Obligation. solve_wire_law. Qed.

#[export] Program Instance ActiveMCodes_wire : Wire ActiveMCodes := {|
  wire_eq a b :=
    wire_eq (mc_stopping a) (mc_stopping b) && wire_eq (mc_tool_change a) (mc_tool_change b) &&
    wire_eq (mc_spindle_control a) (mc_spindle_control b) && wire_eq (mc_mist_coolant a)
    (mc_mist_coolant b) && wire_eq (mc_flood_coolant a) (mc_flood_coolant b) && wire_eq
    (mc_override_control a) (mc_override_control b) && wire_eq (mc_adaptive_feed_control a)
    (mc_adaptive_feed_control b) && wire_eq (mc_feed_hold_control a) (mc_feed_hold_control b);
  wire_norm a :=
    mkActiveMCodes (wire_norm (mc_stopping a)) (wire_norm (mc_tool_change a)) (wire_norm
      (mc_spindle_control a)) (wire_norm (mc_mist_coolant a)) (wire_norm (mc_flood_coolant a))
      (wire_norm (mc_override_control a)) (wire_norm (mc_adaptive_feed_control a)) (wire_norm
      (mc_feed_hold_control a));
|}.
Next Obligation. solve_wire_law. Qed.

#[export] Program Instance ActiveSettings_wire : Wire ActiveSettings := {|
  wire_eq a b :=
    wire_eq (as_feed_rate a) (as_feed_rate b) && wire_eq (as_speed a) (as_speed b) && wire_eq
    (as_blend_tolerance a) (as_blend_tolerance b) && wire_eq (as_naive_cam_tolerance a)
    (as_naive_cam_tolerance b);
  wire_norm a :=
    mkActiveSettings (wire_norm (as_feed_rate a)) (wire_norm (as_speed a)) (wire_norm
      (as_blend_tolerance a)) (wire_norm (as_naive_cam_tolerance a));
|}.
Next Obligation. solve_wire_law. Qed.

#[export] Program Instance JointStat_wire : Wire JointStat := {|
  wire_eq a b :=
    wire_eq (jt_joint_type a) (jt_joint_type b) && wire_eq (jt_units a) (jt_units b) && wire_eq
    (jt_backlash a) (jt_backlash b) && wire_eq (jt_min_position_limit a) (jt_min_position_limit
    b) && wire_eq (jt_max_position_limit a) (jt_max_position_limit b) && wire_eq (jt_min_ferror
    a) (jt_min_ferror b) && wire_eq (jt_max_ferror a) (jt_max_ferror b) && wire_eq
    (jt_ferror_current a) (jt_ferror_current b) && wire_eq (jt_ferror_high_mark a)
    (jt_ferror_high_mark b) && wire_eq (jt_output a) (jt_output b) && wire_eq (jt_input a)
    (jt_input b) && wire_eq (jt_velocity a) (jt_velocity b) && wire_eq (jt_in_position a)
    (jt_in_position b) && wire_eq (jt_homing a) (jt_homing b) && wire_eq (jt_homed a) (jt_homed
    b) && wire_eq (jt_fault a) (jt_fault b) && wire_eq (jt_enabled a) (jt_enabled b) && wire_eq
    (jt_min_soft_limit a) (jt_min_soft_limit b) && wire_eq (jt_max_soft_limit a)
    (jt_max_soft_limit b) && wire_eq (jt_min_hard_limit a) (jt_min_hard_limit b) && wire_eq
    (jt_max_hard_limit a) (jt_max_hard_limit b) && wire_eq (jt_override_limits a)
    (jt_override_limits b) && wire_eq (jt_available a) (jt_available b);
  wire_norm a :=
    mkJointStat (wire_norm (jt_joint_type a)) (wire_norm (jt_units a)) (wire_norm (jt_backlash
      a)) (wire_norm (jt_min_position_limit a)) (wire_norm (jt_max_position_limit a)) (wire_norm
      (jt_min_ferror a)) (wire_norm (jt_max_ferror a)) (wire_norm (jt_ferror_current a))
      (wire_norm (jt_ferror_high_mark a)) (wire_norm (jt_output a)) (wire_norm (jt_input a))
      (wire_norm (jt_velocity a)) (wire_norm (jt_in_position a)) (wire_norm (jt_homing a))
      (wire_norm (jt_homed a)) (wire_norm (jt_fault a)) (wire_norm (jt_enabled a)) (wire_norm
      (jt_min_soft_limit a)) (wire_norm (jt_max_soft_limit a)) (wire_norm (jt_min_hard_limit a))
      (wire_norm (jt_max_hard_limit a)) (wire_norm (jt_override_limits a)) (wire_norm
      (jt_available a));
|}.
Next Obligation. solve_wire_law. Qed.

#[export] Program Instance AxisStat_wire : Wire AxisStat := {|
  wire_eq a b :=
    wire_eq (ax_min_position_limit a) (ax_min_position_limit b) && wire_eq
    (ax_max_position_limit a) (ax_max_position_limit b) && wire_eq (ax_velocity a) (ax_velocity
    b);
  wire_norm a :=
    mkAxisStat (wire_norm (ax_min_position_limit a)) (wire_norm (ax_max_position_limit a))
      (wire_norm (ax_velocity a));
|}.
Next Obligation. solve_wire_law. Qed.

#[export] Program Instance SpindleStat_wire : Wire SpindleStat := {|
  wire_eq a b :=
    wire_eq (sp_speed a) (sp_speed b) && wire_eq (sp_feedback a) (sp_feedback b) && wire_eq
    (sp_override a) (sp_override b) && wire_eq (sp_css_maximum a) (sp_css_maximum b) && wire_eq
    (sp_css_factor a) (sp_css_factor b) && wire_eq (sp_direction a) (sp_direction b) && wire_eq
    (sp_brake a) (sp_brake b) && wire_eq (sp_increasing a) (sp_increasing b) && wire_eq
    (sp_enabled a) (sp_enabled b) && wire_eq (sp_orient_state a) (sp_orient_state b) && wire_eq
    (sp_orient_fault a) (sp_orient_fault b) && wire_eq (sp_spindle_override_enabled a)
    (sp_spindle_override_enabled b) && wire_eq (sp_homed a) (sp_homed b) && wire_eq
    (sp_available a) (sp_available b);
  wire_norm a :=
    mkSpindleStat (wire_norm (sp_speed a)) (wire_norm (sp_feedback a)) (wire_norm (sp_override
      a)) (wire_norm (sp_css_maximum a)) (wire_norm (sp_css_factor a)) (wire_norm (sp_direction
      a)) (wire_norm (sp_brake a)) (wire_norm (sp_increasing a)) (wire_norm (sp_enabled a))
      (wire_norm (sp_orient_state a)) (wire_norm (sp_orient_fault a)) (wire_norm
      (sp_spindle_override_enabled a)) (wire_norm (sp_homed a)) (wire_norm (sp_available a));
|}.
Next Obligation. solve_wire_law. Qed.

#[export] Program Instance ToolIoStat_wire : Wire ToolIoStat := {|
  wire_eq a b :=
    wire_eq (ti_pocket_prepped a) (ti_pocket_prepped b) && wire_eq (ti_tool_in_spindle a)
    (ti_tool_in_spindle b) && wire_eq (ti_tool_from_pocket a) (ti_tool_from_pocket b);
  wire_norm a :=
    mkToolIoStat (wire_norm (ti_pocket_prepped a)) (wire_norm (ti_tool_in_spindle a)) (wire_norm
      (ti_tool_from_pocket a));
|}.
Next Obligation. solve_wire_law. Qed.

#[export] Program Instance CoolantIoStat_wire : Wire CoolantIoStat := {|
  wire_eq a b :=
    wire_eq (ci_mist a) (ci_mist b) && wire_eq (ci_flood a) (ci_flood b);
  wire_norm a :=
    mkCoolantIoStat (wire_norm (ci_mist a)) (wire_norm (ci_flood a));
|}.
Next Obligation. solve_wire_law. Qed.

#[export] Program Instance ToolEntry_wire : Wire ToolEntry := {|
  wire_eq a b :=
    wire_eq (te_tool_no a) (te_tool_no b) && wire_eq (te_pocket_no a) (te_pocket_no b) &&
    wire_eq (te_offset a) (te_offset b) && wire_eq (te_wear_offset a) (te_wear_offset b) &&
    wire_eq (te_diameter a) (te_diameter b) && wire_eq (te_front_angle a) (te_front_angle b) &&
    wire_eq (te_back_angle a) (te_back_angle b) && wire_eq (te_orientation a) (te_orientation b)
    && wire_eq (te_comment a) (te_comment b);
  wire_norm a :=
    mkToolEntry (wire_norm (te_tool_no a)) (wire_norm (te_pocket_no a)) (wire_norm (te_offset
      a)) (wire_norm (te_wear_offset a)) (wire_norm (te_diameter a)) (wire_norm (te_front_angle
      a)) (wire_norm (te_back_angle a)) (wire_norm (te_orientation a)) (wire_norm (te_comment
      a));
|}.
Next Obligation. solve_wire_law. Qed.

(** The normal form of a whole status: statuses with the same one are the same
    to every reader. *)
Definition norm_TaskStat (a : TaskStat) : TaskStat :=
  mkTaskStat (wire_norm (tk_mode a)) (wire_norm (tk_state a)) (wire_norm (tk_exec_state a))
    (wire_norm (tk_interp_state a)) (wire_norm (tk_stop_state a)) (wire_norm (tk_call_level a))
    (wire_norm (tk_motion_line a)) (wire_norm (tk_current_line a)) (wire_norm (tk_read_line a))
    (wire_norm (tk_optional_stop_state a)) (wire_norm (tk_block_delete_state a)) (wire_norm
    (tk_input_timeout a)) (wire_norm (tk_file a)) (wire_norm (tk_command a)) (wire_norm
    (tk_ini_filename a)) (wire_norm (tk_g5x_offset a)) (wire_norm (tk_g5x_index a)) (wire_norm
    (tk_g5x_offsets a)) (wire_norm (tk_g5x_rotations a)) (wire_norm (tk_g92_offset a))
    (wire_norm (tk_g28_position a)) (wire_norm (tk_g30_position a)) (wire_norm (tk_rotation_xy
    a)) (wire_norm (tk_tool_offset a)) (wire_norm (tk_active_g_codes a)) (wire_norm
    (tk_active_m_codes a)) (wire_norm (tk_active_settings a)) (wire_norm (tk_program_units a))
    (wire_norm (tk_interpreter_error_code a)) (wire_norm (tk_task_paused a)) (wire_norm
    (tk_delay_left a)) (wire_norm (tk_queued_mdi_commands a)).
Definition norm_TrajectoryStat (a : TrajectoryStat) : TrajectoryStat :=
  mkTrajectoryStat (wire_norm (tr_linear_units a)) (wire_norm (tr_angular_units a)) (wire_norm
    (tr_cycle_time a)) (wire_norm (tr_joints a)) (wire_norm (tr_spindles a)) (wire_norm
    (tr_available_axes a)) (wire_norm (tr_mode a)) (wire_norm (tr_enabled a)) (wire_norm
    (tr_in_position a)) (wire_norm (tr_queue a)) (wire_norm (tr_active_queue a)) (wire_norm
    (tr_queue_full a)) (wire_norm (tr_id a)) (wire_norm (tr_paused a)) (wire_norm
    (tr_single_stepping a)) (wire_norm (tr_feed_rate_override a)) (wire_norm
    (tr_rapid_rate_override a)) (wire_norm (tr_position a)) (wire_norm (tr_actual_position a))
    (wire_norm (tr_acceleration a)) (wire_norm (tr_max_velocity a)) (wire_norm
    (tr_max_acceleration a)) (wire_norm (tr_probed_position a)) (wire_norm (tr_probe_tripped a))
    (wire_norm (tr_probing a)) (wire_norm (tr_probe_val a)) (wire_norm (tr_kinematics_type a))
    (wire_norm (tr_motion_type a)) (wire_norm (tr_distance_to_go a)) (wire_norm (tr_dtg a))
    (wire_norm (tr_current_velocity a)) (wire_norm (tr_feed_override_enabled a)) (wire_norm
    (tr_adaptive_feed_enabled a)) (wire_norm (tr_feed_hold_enabled a)).
Definition norm_MotionStat (a : MotionStat) : MotionStat :=
  mkMotionStat (norm_TrajectoryStat (mo_traj a)) (wire_norm (mo_joint a)) (wire_norm (mo_axis
    a)) (wire_norm (mo_spindle a)) (wire_norm (mo_digital_input a)) (wire_norm
    (mo_digital_output a)) (wire_norm (mo_analog_input a)) (wire_norm (mo_analog_output a)).
Definition norm_IoStat (a : IoStat) : IoStat :=
  mkIoStat (wire_norm (is_tool a)) (wire_norm (is_coolant a)) (wire_norm (is_estop a)).
Definition norm_LinuxCNCStat (a : LinuxCNCStat) : LinuxCNCStat :=
  mkLinuxCNCStat (wire_norm (lc_echo_serial_number a)) (wire_norm (lc_state a)) (norm_TaskStat
    (lc_task a)) (norm_MotionStat (lc_motion a)) (norm_IoStat (lc_io a)) (wire_norm (lc_debug
    a)) (wire_norm (lc_tool_table a)).

#[export] Instance status_equiv : Equiv LinuxCNCStat :=
  fun a b => norm_LinuxCNCStat a = norm_LinuxCNCStat b.
#[export] Instance status_equivalence : Equivalence (≡@{LinuxCNCStat}).
Proof. split; [done|by intros a b E|intros a b c E1 E2; exact (eq_trans E1 E2)]. Qed.

(** * Encoding *)

(** [if (codes.size() > i) set(codes[i])]: the default otherwise. *)
Definition code_at (l : list Z) (i : nat) : Z := default 0 (l !! i).
Definition setting_at (l : list f64) (i : nat) : f64 := default f64_zero (l !! i).

Definition encode_g_codes (l : list Z) : ActiveGCodes :=
  {| gc_g_mode0 := code_at l 2;
     gc_motion_mode := code_at l 1;
     gc_plane := code_at l 3;
     gc_distance_mode := code_at l 6;
     gc_ijk_distance_mode := code_at l 14;
     gc_feed_rate_mode := code_at l 7;
     gc_units := code_at l 5;
     gc_cutter_comp := code_at l 4;
     gc_tool_length_offset := code_at l 9;
     gc_retract_mode := code_at l 10;
     gc_origin := code_at l 8;
     gc_path_control := code_at l 11;
     gc_spindle_speed_mode := code_at l 13;
     gc_lathe_diameter_mode := code_at l 15;
     gc_g92_applied := code_at l 16 |}.

Definition encode_m_codes (l : list Z) : ActiveMCodes :=
  {| mc_stopping := code_at l 1;
     mc_tool_change := code_at l 3;
     mc_spindle_control := code_at l 2;
     mc_mist_coolant := code_at l 4;
     mc_flood_coolant := code_at l 5;
     mc_override_control := code_at l 6;
     mc_adaptive_feed_control := code_at l 7;
     mc_feed_hold_control := code_at l 8 |}.

Definition encode_settings (l : list f64) : ActiveSettings :=
  {| as_feed_rate := setting_at l 1;
     as_speed := setting_at l 2;
     as_blend_tolerance := setting_at l 3;
     as_naive_cam_tolerance := setting_at l 4 |}.

Definition encode_task (s : NmlTaskStatus) : TaskStat :=
  {| tk_mode := ts_mode s;
     tk_state := ts_state s;
     tk_exec_state := ts_exec_state s;
     tk_interp_state := ts_interp_state s;
     tk_stop_state := ts_stop_state s;
     tk_call_level := ts_call_level s;
     tk_motion_line := ts_motion_line s;
     tk_current_line := ts_current_line s;
     tk_read_line := ts_read_line s;
     tk_optional_stop_state := ts_optional_stop_state s;
     tk_block_delete_state := ts_block_delete_state s;
     tk_input_timeout := ts_input_timeout s;
     tk_file := ts_file s;
     tk_command := ts_command s;
     tk_ini_filename := ts_ini_filename s;
     tk_g5x_offset := ts_g5x_offset s;
     tk_g5x_index := ts_g5x_index s;
     tk_g5x_offsets := ts_g5x_offsets s;
     tk_g5x_rotations := ts_g5x_rotations s;
     tk_g92_offset := ts_g92_offset s;
     tk_g28_position := ts_g28_position s;
     tk_g30_position := ts_g30_position s;
     tk_rotation_xy := ts_rotation_xy s;
     tk_tool_offset := ts_tool_offset s;
     tk_active_g_codes := encode_g_codes (ts_active_g_codes s);
     tk_active_m_codes := encode_m_codes (ts_active_m_codes s);
     tk_active_settings := encode_settings (ts_active_settings s);
     tk_program_units := ts_program_units s;
     tk_interpreter_error_code := ts_interpreter_error_code s;
     tk_task_paused := ts_task_paused s;
     tk_delay_left := ts_delay_left s;
     tk_queued_mdi_commands := ts_queued_mdi_commands s |}.

(** [AxisName] starts at one. *)
Definition encode_trajectory (s : NmlTrajectoryStatus) : TrajectoryStat :=
  {| tr_linear_units := traj_linear_units s;
     tr_angular_units := traj_angular_units s;
     tr_cycle_time := traj_cycle_time s;
     tr_joints := traj_joints s;
     tr_spindles := traj_spindles s;
     tr_available_axes := (fun axis => axis + 1) <$> traj_available_axes s;
     tr_mode := traj_mode s;
     tr_enabled := traj_enabled s;
     tr_in_position := traj_in_position s;
     tr_queue := traj_queue s;
     tr_active_queue := traj_active_queue s;
     tr_queue_full := traj_queue_full s;
     tr_id := traj_id s;
     tr_paused := traj_paused s;
     tr_single_stepping := traj_single_stepping s;
     tr_feed_rate_override := traj_feed_rate_override s;
     tr_rapid_rate_override := traj_rapid_rate_override s;
     tr_position := traj_position s;
     tr_actual_position := traj_actual_position s;
     tr_acceleration := traj_acceleration s;
     tr_max_velocity := traj_max_velocity s;
     tr_max_acceleration := traj_max_acceleration s;
     tr_probed_position := traj_probed_position s;
     tr_probe_tripped := traj_probe_tripped s;
     tr_probing := traj_probing s;
     tr_probe_val := traj_probe_val s;
     tr_kinematics_type := traj_kinematics_type s;
     tr_motion_type := traj_motion_type s;
     tr_distance_to_go := traj_distance_to_go s;
     tr_dtg := traj_dtg s;
     tr_current_velocity := traj_current_velocity s;
     tr_feed_override_enabled := traj_feed_override_enabled s;
     tr_adaptive_feed_enabled := traj_adaptive_feed_enabled s;
     tr_feed_hold_enabled := traj_feed_hold_enabled s |}.

Definition encode_joint (s : NmlJointStatus) : JointStat :=
  {| jt_joint_type := joint_joint_type s;
     jt_units := joint_units s;
     jt_backlash := joint_backlash s;
     jt_min_position_limit := joint_min_position_limit s;
     jt_max_position_limit := joint_max_position_limit s;
     jt_min_ferror := joint_min_ferror s;
     jt_max_ferror := joint_max_ferror s;
     jt_ferror_current := joint_ferror_current s;
     jt_ferror_high_mark := joint_ferror_high_mark s;
     jt_output := joint_output s;
     jt_input := joint_input s;
     jt_velocity := joint_velocity s;
     jt_in_position := joint_in_position s;
     jt_homing := joint_homing s;
     jt_homed := joint_homed s;
     jt_fault := joint_fault s;
     jt_enabled := joint_enabled s;
     jt_min_soft_limit := joint_min_soft_limit s;
     jt_max_soft_limit := joint_max_soft_limit s;
     jt_min_hard_limit := joint_min_hard_limit s;
     jt_max_hard_limit := joint_max_hard_limit s;
     jt_override_limits := joint_override_limits s;
     jt_available := joint_available s |}.

Definition encode_axis (s : NmlAxisStatus) : AxisStat :=
  {| ax_min_position_limit := axis_min_position_limit s;
     ax_max_position_limit := axis_max_position_limit s;
     ax_velocity := axis_velocity s |}.

Definition encode_spindle (s : NmlSpindleStatus) : SpindleStat :=
  {| sp_speed := spindle_speed s;
     sp_feedback := spindle_feedback s;
     sp_override := spindle_override_scale s;
     sp_css_maximum := spindle_css_maximum s;
     sp_css_factor := spindle_css_factor s;
     sp_direction := spindle_direction s;
     sp_brake := spindle_brake s;
     sp_increasing := spindle_increasing s;
     sp_enabled := spindle_enabled s;
     sp_orient_state := spindle_orient_state s;
     sp_orient_fault := spindle_orient_fault s;
     sp_spindle_override_enabled := spindle_spindle_override_enabled s;
     sp_homed := spindle_homed s;
     sp_available := spindle_available s |}.

Definition encode_tool (t : NmlToolEntry) : ToolEntry :=
  mkToolEntry (tool_no t) (Some (pocket_no t)) (Some (offset t)) (Some (wear_offset t))
    (Some (diameter t)) (Some (front_angle t)) (Some (back_angle t)) (Some (orientation t))
    (Some (comment t)).

Definition encode_motion (s : NmlMotionStatus) : MotionStat :=
  mkMotionStat (encode_trajectory (motion_traj s)) (encode_joint <$> motion_joints s)
    (encode_axis <$> motion_axes s) (encode_spindle <$> motion_spindles s)
    (motion_digital_input s) (motion_digital_output s)
    (motion_analog_input s) (motion_analog_output s).

Definition encode_io (s : NmlIoStatus) : IoStat :=
  mkIoStat (mkToolIoStat (io_pocket_prepped s) (io_tool_in_spindle s) (io_tool_from_pocket s))
    (mkCoolantIoStat (io_mist s) (io_flood s)) (io_estop s).

(** [encode_status] ([fill_status]). *)
Definition encode_status (s : NmlStatusSnapshot) : LinuxCNCStat :=
  mkLinuxCNCStat (echo_serial_number s) (rcs_status s) (encode_task (task_stat s))
    (encode_motion (motion_stat s)) (encode_io (io_stat s)) (debug s)
    (encode_tool <$> tool_table s).

(** * Deltas *)

(** [COPY_*_SCALAR], [COPY_*_MESSAGE]: the field is set when it differs. *)
Definition copy_field {A} `{Wire A} (previous current : A) : option A :=
  if wire_eq previous current then None else Some current.

(** A repeated field is replaced as a whole when it differs. *)
Definition copy_repeated {A} `{Wire A} (previous current : list A) : list A :=
  if wire_eq previous current then [] else current.
Definition replaces {A} `{Wire A} (previous current : list A) : bool :=
  negb (wire_eq previous current).

(** [copy_task_delta]: the delta and whether anything was copied. *)
Definition copy_task_delta (p c : TaskStat) : TaskStatDelta * bool :=
  ({| dtk_mode := copy_field (tk_mode p) (tk_mode c);
      dtk_state := copy_field (tk_state p) (tk_state c);
      dtk_exec_state := copy_field (tk_exec_state p) (tk_exec_state c);
      dtk_interp_state := copy_field (tk_interp_state p) (tk_interp_state c);
      dtk_stop_state := copy_field (tk_stop_state p) (tk_stop_state c);
      dtk_call_level := copy_field (tk_call_level p) (tk_call_level c);
      dtk_motion_line := copy_field (tk_motion_line p) (tk_motion_line c);
      dtk_current_line := copy_field (tk_current_line p) (tk_current_line c);
      dtk_read_line := copy_field (tk_read_line p) (tk_read_line c);
      dtk_optional_stop_state := copy_field (tk_optional_stop_state p) (tk_optional_stop_state c);
      dtk_block_delete_state := copy_field (tk_block_delete_state p) (tk_block_delete_state c);
      dtk_input_timeout := copy_field (tk_input_timeout p) (tk_input_timeout c);
      dtk_file := copy_field (tk_file p) (tk_file c);
      dtk_command := copy_field (tk_command p) (tk_command c);
      dtk_ini_filename := copy_field (tk_ini_filename p) (tk_ini_filename c);
      dtk_g5x_offset := copy_field (tk_g5x_offset p) (tk_g5x_offset c);
      dtk_g5x_index := copy_field (tk_g5x_index p) (tk_g5x_index c);
      dtk_g5x_offsets := copy_repeated (tk_g5x_offsets p) (tk_g5x_offsets c);
      dtk_replace_g5x_offsets := replaces (tk_g5x_offsets p) (tk_g5x_offsets c);
      dtk_g5x_rotations := copy_repeated (tk_g5x_rotations p) (tk_g5x_rotations c);
      dtk_replace_g5x_rotations := replaces (tk_g5x_rotations p) (tk_g5x_rotations c);
      dtk_g92_offset := copy_field (tk_g92_offset p) (tk_g92_offset c);
      dtk_g28_position := copy_field (tk_g28_position p) (tk_g28_position c);
      dtk_g30_position := copy_field (tk_g30_position p) (tk_g30_position c);
      dtk_rotation_xy := copy_field (tk_rotation_xy p) (tk_rotation_xy c);
      dtk_tool_offset := copy_field (tk_tool_offset p) (tk_tool_offset c);
      dtk_active_g_codes := copy_field (tk_active_g_codes p) (tk_active_g_codes c);
      dtk_active_m_codes := copy_field (tk_active_m_codes p) (tk_active_m_codes c);
      dtk_active_settings := copy_field (tk_active_settings p) (tk_active_settings c);
      dtk_program_units := copy_field (tk_program_units p) (tk_program_units c);
      dtk_interpreter_error_code := copy_field (tk_interpreter_error_code p) (tk_interpreter_error_code c);
      dtk_task_paused := copy_field (tk_task_paused p) (tk_task_paused c);
      dtk_delay_left := copy_field (tk_delay_left p) (tk_delay_left c);
      dtk_queued_mdi_commands := copy_field (tk_queued_mdi_commands p) (tk_queued_mdi_commands c) |},
   negb (wire_eq (tk_mode p) (tk_mode c) && wire_eq (tk_state p) (tk_state c) && wire_eq
     (tk_exec_state p) (tk_exec_state c) && wire_eq (tk_interp_state p) (tk_interp_state c) &&
     wire_eq (tk_stop_state p) (tk_stop_state c) && wire_eq (tk_call_level p) (tk_call_level c)
     && wire_eq (tk_motion_line p) (tk_motion_line c) && wire_eq (tk_current_line p)
     (tk_current_line c) && wire_eq (tk_read_line p) (tk_read_line c) && wire_eq
     (tk_optional_stop_state p) (tk_optional_stop_state c) && wire_eq (tk_block_delete_state p)
     (tk_block_delete_state c) && wire_eq (tk_input_timeout p) (tk_input_timeout c) && wire_eq
     (tk_file p) (tk_file c) && wire_eq (tk_command p) (tk_command c) && wire_eq
     (tk_ini_filename p) (tk_ini_filename c) && wire_eq (tk_g5x_offset p) (tk_g5x_offset c) &&
     wire_eq (tk_g5x_index p) (tk_g5x_index c) && wire_eq (tk_g5x_offsets p) (tk_g5x_offsets c)
     && wire_eq (tk_g5x_rotations p) (tk_g5x_rotations c) && wire_eq (tk_g92_offset p)
     (tk_g92_offset c) && wire_eq (tk_g28_position p) (tk_g28_position c) && wire_eq
     (tk_g30_position p) (tk_g30_position c) && wire_eq (tk_rotation_xy p) (tk_rotation_xy c) &&
     wire_eq (tk_tool_offset p) (tk_tool_offset c) && wire_eq (tk_active_g_codes p)
     (tk_active_g_codes c) && wire_eq (tk_active_m_codes p) (tk_active_m_codes c) && wire_eq
     (tk_active_settings p) (tk_active_settings c) && wire_eq (tk_program_units p)
     (tk_program_units c) && wire_eq (tk_interpreter_error_code p) (tk_interpreter_error_code c)
     && wire_eq (tk_task_paused p) (tk_task_paused c) && wire_eq (tk_delay_left p)
     (tk_delay_left c) && wire_eq (tk_queued_mdi_commands p) (tk_queued_mdi_commands c))).

Definition copy_trajectory_delta (p c : TrajectoryStat) : TrajectoryStatDelta * bool :=
  ({| dtr_linear_units := copy_field (tr_linear_units p) (tr_linear_units c);
      dtr_angular_units := copy_field (tr_angular_units p) (tr_angular_units c);
      dtr_cycle_time := copy_field (tr_cycle_time p) (tr_cycle_time c);
      dtr_joints := copy_field (tr_joints p) (tr_joints c);
      dtr_spindles := copy_field (tr_spindles p) (tr_spindles c);
      dtr_available_axes := copy_repeated (tr_available_axes p) (tr_available_axes c);
      dtr_mode := copy_field (tr_mode p) (tr_mode c);
      dtr_enabled := copy_field (tr_enabled p) (tr_enabled c);
      dtr_in_position := copy_field (tr_in_position p) (tr_in_position c);
      dtr_queue := copy_field (tr_queue p) (tr_queue c);
      dtr_active_queue := copy_field (tr_active_queue p) (tr_active_queue c);
      dtr_queue_full := copy_field (tr_queue_full p) (tr_queue_full c);
      dtr_id := copy_field (tr_id p) (tr_id c);
      dtr_paused := copy_field (tr_paused p) (tr_paused c);
      dtr_single_stepping := copy_field (tr_single_stepping p) (tr_single_stepping c);
      dtr_feed_rate_override := copy_field (tr_feed_rate_override p) (tr_feed_rate_override c);
      dtr_rapid_rate_override := copy_field (tr_rapid_rate_override p) (tr_rapid_rate_override c);
      dtr_position := copy_field (tr_position p) (tr_position c);
      dtr_actual_position := copy_field (tr_actual_position p) (tr_actual_position c);
      dtr_acceleration := copy_field (tr_acceleration p) (tr_acceleration c);
      dtr_max_velocity := copy_field (tr_max_velocity p) (tr_max_velocity c);
      dtr_max_acceleration := copy_field (tr_max_acceleration p) (tr_max_acceleration c);
      dtr_probed_position := copy_field (tr_probed_position p) (tr_probed_position c);
      dtr_probe_tripped := copy_field (tr_probe_tripped p) (tr_probe_tripped c);
      dtr_probing := copy_field (tr_probing p) (tr_probing c);
      dtr_probe_val := copy_field (tr_probe_val p) (tr_probe_val c);
      dtr_kinematics_type := copy_field (tr_kinematics_type p) (tr_kinematics_type c);
      dtr_motion_type := copy_field (tr_motion_type p) (tr_motion_type c);
      dtr_distance_to_go := copy_field (tr_distance_to_go p) (tr_distance_to_go c);
      dtr_dtg := copy_field (tr_dtg p) (tr_dtg c);
      dtr_current_velocity := copy_field (tr_current_velocity p) (tr_current_velocity c);
      dtr_feed_override_enabled := copy_field (tr_feed_override_enabled p) (tr_feed_override_enabled c);
      dtr_adaptive_feed_enabled := copy_field (tr_adaptive_feed_enabled p) (tr_adaptive_feed_enabled c);
      dtr_feed_hold_enabled := copy_field (tr_feed_hold_enabled p) (tr_feed_hold_enabled c);
      dtr_replace_available_axes := replaces (tr_available_axes p) (tr_available_axes c) |},
   negb (wire_eq (tr_linear_units p) (tr_linear_units c) && wire_eq (tr_angular_units p)
     (tr_angular_units c) && wire_eq (tr_cycle_time p) (tr_cycle_time c) && wire_eq (tr_joints
     p) (tr_joints c) && wire_eq (tr_spindles p) (tr_spindles c) && wire_eq (tr_available_axes
     p) (tr_available_axes c) && wire_eq (tr_mode p) (tr_mode c) && wire_eq (tr_enabled p)
     (tr_enabled c) && wire_eq (tr_in_position p) (tr_in_position c) && wire_eq (tr_queue p)
     (tr_queue c) && wire_eq (tr_active_queue p) (tr_active_queue c) && wire_eq (tr_queue_full
     p) (tr_queue_full c) && wire_eq (tr_id p) (tr_id c) && wire_eq (tr_paused p) (tr_paused c)
     && wire_eq (tr_single_stepping p) (tr_single_stepping c) && wire_eq (tr_feed_rate_override
     p) (tr_feed_rate_override c) && wire_eq (tr_rapid_rate_override p) (tr_rapid_rate_override
     c) && wire_eq (tr_position p) (tr_position c) && wire_eq (tr_actual_position p)
     (tr_actual_position c) && wire_eq (tr_acceleration p) (tr_acceleration c) && wire_eq
     (tr_max_velocity p) (tr_max_velocity c) && wire_eq (tr_max_acceleration p)
     (tr_max_acceleration c) && wire_eq (tr_probed_position p) (tr_probed_position c) && wire_eq
     (tr_probe_tripped p) (tr_probe_tripped c) && wire_eq (tr_probing p) (tr_probing c) &&
     wire_eq (tr_probe_val p) (tr_probe_val c) && wire_eq (tr_kinematics_type p)
     (tr_kinematics_type c) && wire_eq (tr_motion_type p) (tr_motion_type c) && wire_eq
     (tr_distance_to_go p) (tr_distance_to_go c) && wire_eq (tr_dtg p) (tr_dtg c) && wire_eq
     (tr_current_velocity p) (tr_current_velocity c) && wire_eq (tr_feed_override_enabled p)
     (tr_feed_override_enabled c) && wire_eq (tr_adaptive_feed_enabled p)
     (tr_adaptive_feed_enabled c) && wire_eq (tr_feed_hold_enabled p) (tr_feed_hold_enabled
     c))).

(** The loop over the joints (axes, spindles): one item per index that differs
    or exists on one side only, without a value when it is gone. *)
Fixpoint gone_items {A} (index : Z) (previous : list A) : list (Z * option A) :=
  match previous with
  | [] => []
  | _ :: previous' => (index, None) :: gone_items (index + 1) previous'
  end.
Fixpoint new_items {A} (index : Z) (current : list A) : list (Z * option A) :=
  match current with
  | [] => []
  | c :: current' => (index, Some c) :: new_items (index + 1) current'
  end.
Fixpoint indexed_delta {A} `{Wire A} (index : Z) (previous current : list A) :
    list (Z * option A) :=
  match previous, current with
  | [], _ => new_items index current
  | _, [] => gone_items index previous
  | p :: previous', c :: current' =>
      if wire_eq p c then indexed_delta (index + 1) previous' current'
      else (index, Some c) :: indexed_delta (index + 1) previous' current'
  end.

(** [if (copy(...)) changed = true; else delta.clear_...();] *)
Definition keep_if {A} (x : A * bool) : option A := if x.2 then Some x.1 else None.

Definition copy_motion_delta (p c : MotionStat) : MotionStatDelta * bool :=
  let traj := keep_if (copy_trajectory_delta (mo_traj p) (mo_traj c)) in
  let joint := indexed_delta 0 (mo_joint p) (mo_joint c) in
  let axis := indexed_delta 0 (mo_axis p) (mo_axis c) in
  let spindle := indexed_delta 0 (mo_spindle p) (mo_spindle c) in
  let nonempty {A} (l : list A) := match l with [] => false | _ => true end in
  ({| dmo_traj := traj; dmo_joint := joint; dmo_axis := axis; dmo_spindle := spindle;
      dmo_digital_input := copy_repeated (mo_digital_input p) (mo_digital_input c);
      dmo_replace_digital_input := replaces (mo_digital_input p) (mo_digital_input c);
      dmo_digital_output := copy_repeated (mo_digital_output p) (mo_digital_output c);
      dmo_replace_digital_output := replaces (mo_digital_output p) (mo_digital_output c);
      dmo_analog_input := copy_repeated (mo_analog_input p) (mo_analog_input c);
      dmo_replace_analog_input := replaces (mo_analog_input p) (mo_analog_input c);
      dmo_analog_output := copy_repeated (mo_analog_output p) (mo_analog_output c);
      dmo_replace_analog_output := replaces (mo_analog_output p) (mo_analog_output c) |},
   is_set traj || nonempty joint || nonempty axis || nonempty spindle
   || replaces (mo_digital_input p) (mo_digital_input c)
   || replaces (mo_digital_output p) (mo_digital_output c)
   || replaces (mo_analog_input p) (mo_analog_input c)
   || replaces (mo_analog_output p) (mo_analog_output c)).

Definition copy_io_delta (p c : IoStat) : IoStatDelta * bool :=
  ({| dis_tool := copy_field (is_tool p) (is_tool c);
      dis_coolant := copy_field (is_coolant p) (is_coolant c);
      dis_estop := copy_field (is_estop p) (is_estop c) |},
   negb (wire_eq (is_tool p) (is_tool c) && wire_eq (is_coolant p) (is_coolant c)
         && wire_eq (is_estop p) (is_estop c))).

(** [make_status_delta]; [None]: nothing changed. *)
Definition make_status_delta (p c : LinuxCNCStat) (sequence : Z) : option LinuxCNCStatDelta :=
  let task := keep_if (copy_task_delta (lc_task p) (lc_task c)) in
  let motion := keep_if (copy_motion_delta (lc_motion p) (lc_motion c)) in
  let io := keep_if (copy_io_delta (lc_io p) (lc_io c)) in
  let state := copy_field (lc_state p) (lc_state c) in
  let echo := copy_field (lc_echo_serial_number p) (lc_echo_serial_number c) in
  let dbg := copy_field (lc_debug p) (lc_debug c) in
  let tools := copy_field (lc_tool_table p) (lc_tool_table c) in
  if is_set state || is_set echo || is_set dbg || is_set task || is_set motion || is_set io
     || is_set tools
  then Some {| dlc_sequence := i64_wrap sequence; dlc_echo_serial_number := echo;
               dlc_state := state; dlc_task := task; dlc_motion := motion; dlc_io := io;
               dlc_tool_table := tools; dlc_debug := dbg |}
  else None.

(** * The reader's side *)

Definition apply_field {A} (d : option A) (v : A) : A := default v d.
Definition apply_repeated {A} (replace : bool) (d v : list A) : list A := if replace then d else v.

(** An item with a value sets or appends the element at its index; one without
    a value removes it and what follows. *)
Definition apply_item {A} (l : list A) (item : Z * option A) : list A :=
  let i := Z.to_nat item.1 in
  match item.2 with
  | Some v => if (i <? length l)%nat then <[i := v]> l else l ++ [v]
  | None => take i l
  end.
Definition apply_indexed {A} (items : list (Z * option A)) (l : list A) : list A :=
  foldl apply_item l items.

Definition apply_option {D V} (f : D -> V -> V) (d : option D) (v : V) : V :=
  match d with Some d => f d v | None => v end.

Definition apply_task (d : TaskStatDelta) (v : TaskStat) : TaskStat :=
  {| tk_mode := apply_field (dtk_mode d) (tk_mode v);
     tk_state := apply_field (dtk_state d) (tk_state v);
     tk_exec_state := apply_field (dtk_exec_state d) (tk_exec_state v);
     tk_interp_state := apply_field (dtk_interp_state d) (tk_interp_state v);
     tk_stop_state := apply_field (dtk_stop_state d) (tk_stop_state v);
     tk_call_level := apply_field (dtk_call_level d) (tk_call_level v);
     tk_motion_line := apply_field (dtk_motion_line d) (tk_motion_line v);
     tk_current_line := apply_field (dtk_current_line d) (tk_current_line v);
     tk_read_line := apply_field (dtk_read_line d) (tk_read_line v);
     tk_optional_stop_state := apply_field (dtk_optional_stop_state d) (tk_optional_stop_state v);
     tk_block_delete_state := apply_field (dtk_block_delete_state d) (tk_block_delete_state v);
     tk_input_timeout := apply_field (dtk_input_timeout d) (tk_input_timeout v);
     tk_file := apply_field (dtk_file d) (tk_file v);
     tk_command := apply_field (dtk_command d) (tk_command v);
     tk_ini_filename := apply_field (dtk_ini_filename d) (tk_ini_filename v);
     tk_g5x_offset := apply_field (dtk_g5x_offset d) (tk_g5x_offset v);
     tk_g5x_index := apply_field (dtk_g5x_index d) (tk_g5x_index v);
     tk_g5x_offsets := apply_repeated (dtk_replace_g5x_offsets d) (dtk_g5x_offsets d) (tk_g5x_offsets v);
     tk_g5x_rotations := apply_repeated (dtk_replace_g5x_rotations d) (dtk_g5x_rotations d) (tk_g5x_rotations v);
     tk_g92_offset := apply_field (dtk_g92_offset d) (tk_g92_offset v);
     tk_g28_position := apply_field (dtk_g28_position d) (tk_g28_position v);
     tk_g30_position := apply_field (dtk_g30_position d) (tk_g30_position v);
     tk_rotation_xy := apply_field (dtk_rotation_xy d) (tk_rotation_xy v);
     tk_tool_offset := apply_field (dtk_tool_offset d) (tk_tool_offset v);
     tk_active_g_codes := apply_field (dtk_active_g_codes d) (tk_active_g_codes v);
     tk_active_m_codes := apply_field (dtk_active_m_codes d) (tk_active_m_codes v);
     tk_active_settings := apply_field (dtk_active_settings d) (tk_active_settings v);
     tk_program_units := apply_field (dtk_program_units d) (tk_program_units v);
     tk_interpreter_error_code := apply_field (dtk_interpreter_error_code d) (tk_interpreter_error_code v);
     tk_task_paused := apply_field (dtk_task_paused d) (tk_task_paused v);
     tk_delay_left := apply_field (dtk_delay_left d) (tk_delay_left v);
     tk_queued_mdi_commands := apply_field (dtk_queued_mdi_commands d) (tk_queued_mdi_commands v) |}.

Definition apply_trajectory (d : TrajectoryStatDelta) (v : TrajectoryStat) : TrajectoryStat :=
  {| tr_linear_units := apply_field (dtr_linear_units d) (tr_linear_units v);
     tr_angular_units := apply_field (dtr_angular_units d) (tr_angular_units v);
     tr_cycle_time := apply_field (dtr_cycle_time d) (tr_cycle_time v);
     tr_joints := apply_field (dtr_joints d) (tr_joints v);
     tr_spindles := apply_field (dtr_spindles d) (tr_spindles v);
     tr_available_axes := apply_repeated (dtr_replace_available_axes d) (dtr_available_axes d) (tr_available_axes v);
     tr_mode := apply_field (dtr_mode d) (tr_mode v);
     tr_enabled := apply_field (dtr_enabled d) (tr_enabled v);
     tr_in_position := apply_field (dtr_in_position d) (tr_in_position v);
     tr_queue := apply_field (dtr_queue d) (tr_queue v);
     tr_active_queue := apply_field (dtr_active_queue d) (tr_active_queue v);
     tr_queue_full := apply_field (dtr_queue_full d) (tr_queue_full v);
     tr_id := apply_field (dtr_id d) (tr_id v);
     tr_paused := apply_field (dtr_paused d) (tr_paused v);
     tr_single_stepping := apply_field (dtr_single_stepping d) (tr_single_stepping v);
     tr_feed_rate_override := apply_field (dtr_feed_rate_override d) (tr_feed_rate_override v);
     tr_rapid_rate_override := apply_field (dtr_rapid_rate_override d) (tr_rapid_rate_override v);
     tr_position := apply_field (dtr_position d) (tr_position v);
     tr_actual_position := apply_field (dtr_actual_position d) (tr_actual_position v);
     tr_acceleration := apply_field (dtr_acceleration d) (tr_acceleration v);
     tr_max_velocity := apply_field (dtr_max_velocity d) (tr_max_velocity v);
     tr_max_acceleration := apply_field (dtr_max_acceleration d) (tr_max_acceleration v);
     tr_probed_position := apply_field (dtr_probed_position d) (tr_probed_position v);
     tr_probe_tripped := apply_field (dtr_probe_tripped d) (tr_probe_tripped v);
     tr_probing := apply_field (dtr_probing d) (tr_probing v);
     tr_probe_val := apply_field (dtr_probe_val d) (tr_probe_val v);
     tr_kinematics_type := apply_field (dtr_kinematics_type d) (tr_kinematics_type v);
     tr_motion_type := apply_field (dtr_motion_type d) (tr_motion_type v);
     tr_distance_to_go := apply_field (dtr_distance_to_go d) (tr_distance_to_go v);
     tr_dtg := apply_field (dtr_dtg d) (tr_dtg v);
     tr_current_velocity := apply_field (dtr_current_velocity d) (tr_current_velocity v);
     tr_feed_override_enabled := apply_field (dtr_feed_override_enabled d) (tr_feed_override_enabled v);
     tr_adaptive_feed_enabled := apply_field (dtr_adaptive_feed_enabled d) (tr_adaptive_feed_enabled v);
     tr_feed_hold_enabled := apply_field (dtr_feed_hold_enabled d) (tr_feed_hold_enabled v) |}.

Definition apply_motion (d : MotionStatDelta) (v : MotionStat) : MotionStat :=
  {| mo_traj := apply_option apply_trajectory (dmo_traj d) (mo_traj v);
     mo_joint := apply_indexed (dmo_joint d) (mo_joint v);
     mo_axis := apply_indexed (dmo_axis d) (mo_axis v);
     mo_spindle := apply_indexed (dmo_spindle d) (mo_spindle v);
     mo_digital_input := apply_repeated (dmo_replace_digital_input d) (dmo_digital_input d) (mo_digital_input v);
     mo_digital_output := apply_repeated (dmo_replace_digital_output d) (dmo_digital_output d) (mo_digital_output v);
     mo_analog_input := apply_repeated (dmo_replace_analog_input d) (dmo_analog_input d) (mo_analog_input v);
     mo_analog_output := apply_repeated (dmo_replace_analog_output d) (dmo_analog_output d) (mo_analog_output v) |}.

Definition apply_io (d : IoStatDelta) (v : IoStat) : IoStat :=
  {| is_tool := apply_field (dis_tool d) (is_tool v);
     is_coolant := apply_field (dis_coolant d) (is_coolant v);
     is_estop := apply_field (dis_estop d) (is_estop v) |}.

Definition apply_status_delta (d : LinuxCNCStatDelta) (v : LinuxCNCStat) : LinuxCNCStat :=
  {| lc_echo_serial_number := apply_field (dlc_echo_serial_number d) (lc_echo_serial_number v);
     lc_state := apply_field (dlc_state d) (lc_state v);
     lc_task := apply_option apply_task (dlc_task d) (lc_task v);
     lc_motion := apply_option apply_motion (dlc_motion d) (lc_motion v);
     lc_io := apply_option apply_io (dlc_io d) (lc_io v);
     lc_debug := apply_field (dlc_debug d) (lc_debug v);
     lc_tool_table := apply_field (dlc_tool_table d) (lc_tool_table v) |}.

(** * Correctness *)

Lemma field_roundtrip {A} `{Wire A} (p c : A) :
  wire_norm (apply_field (copy_field p c) p) = wire_norm c.
Proof.
  unfold copy_field. destruct (wire_eq p c) eqn:E; [|done]. by apply wire_law.
Qed.

Lemma repeated_roundtrip {A} `{Wire A} (p c : list A) :
  wire_norm (apply_repeated (replaces p c) (copy_repeated p c) p) = wire_norm c.
Proof.
  unfold replaces, copy_repeated. destruct (wire_eq p c) eqn:E; [|done]. by apply wire_law.
Qed.

Lemma apply_indexed_cons {A} (x : Z * option A) items l :
  apply_indexed (x :: items) l = apply_indexed items (apply_item l x).
Proof. done. Qed.

Lemma apply_item_set {A} (done ps : list A) p c :
  apply_item (done ++ p :: ps) (Z.of_nat (length done), Some c) = done ++ c :: ps.
Proof.
  unfold apply_item. cbn [fst snd]. rewrite Nat2Z.id.
  rewrite (proj2 (Nat.ltb_lt _ _)) by (rewrite length_app; cbn; lia).
  by rewrite insert_app_r_alt, Nat.sub_diag by done.
Qed.

Lemma apply_item_append {A} (l : list A) c :
  apply_item l (Z.of_nat (length l), Some c) = l ++ [c].
Proof.
  unfold apply_item. cbn [fst snd]. rewrite Nat2Z.id. by rewrite (proj2 (Nat.ltb_ge _ _)).
Qed.

Lemma apply_new_items {A} (done cs : list A) :
  apply_indexed (new_items (Z.of_nat (length done)) cs) done = done ++ cs.
Proof.
  revert done. induction cs as [|c cs IH]; intros done; cbn [new_items]; [by rewrite app_nil_r|].
  rewrite apply_indexed_cons, apply_item_append.
  replace (Z.of_nat (length done) + 1) with (Z.of_nat (length (done ++ [c])))
    by (rewrite length_app; cbn; lia).
  rewrite IH. by rewrite <- app_assoc.
Qed.

Lemma apply_gone_items {A} (l ps : list A) i :
  Z.of_nat (length l) <= i -> apply_indexed (gone_items i ps) l = l.
Proof.
  revert i. induction ps as [|p ps IH]; intros i Hi; cbn [gone_items]; [done|].
  rewrite apply_indexed_cons. unfold apply_item. cbn [fst snd].
  rewrite take_ge by lia. apply IH. lia.
Qed.

Lemma indexed_roundtrip_from {A} `{Wire A} (ps cs done : list A) :
  wire_norm (apply_indexed (indexed_delta (Z.of_nat (length done)) ps cs) (done ++ ps))
  = wire_norm (done ++ cs).
Proof.
  revert cs done. induction ps as [|p ps IH]; intros cs done.
  { rewrite app_nil_r. cbn [indexed_delta]. by rewrite apply_new_items. }
  destruct cs as [|c cs]; cbn [indexed_delta].
  - cbn [gone_items]. rewrite apply_indexed_cons. unfold apply_item. cbn [fst snd].
    rewrite Nat2Z.id, take_app_length, apply_gone_items, app_nil_r by lia. done.
  - assert (Hstep : forall x : A, Z.of_nat (length done) + 1 = Z.of_nat (length (done ++ [x])))
      by (intros x; rewrite length_app; cbn; lia).
    assert (Hsnoc : forall (x : A) l, done ++ x :: l = (done ++ [x]) ++ l)
      by (intros; by rewrite <- app_assoc).
    destruct (wire_eq p c) eqn:E.
    + rewrite (Hstep p), (Hsnoc p ps), IH, (Hsnoc c cs). cbn.
      rewrite !fmap_app. cbn. by rewrite (wire_law p c E).
    + rewrite apply_indexed_cons, apply_item_set, (Hstep c), (Hsnoc c ps), IH. by rewrite (Hsnoc c cs).
Qed.

Lemma indexed_roundtrip {A} `{Wire A} (p c : list A) :
  wire_norm (apply_indexed (indexed_delta 0 p c) p) = wire_norm c.
Proof. apply (indexed_roundtrip_from p c []). Qed.

Lemma indexed_same {A} `{Wire A} (p c : list A) i :
  indexed_delta i p c = [] -> wire_norm p = wire_norm c.
Proof.
  revert c i. induction p as [|x p IH]; intros [|y c] i; cbn; try done.
  destruct (wire_eq x y) eqn:E; [|done]. intros Hd. f_equal; [by apply wire_law|by eapply IH].
Qed.

(** A field that was not copied is the same. *)
Lemma copy_field_none {A} `{Wire A} (p c : A) :
  is_set (copy_field p c) = false -> wire_norm p = wire_norm c.
Proof. unfold copy_field. destruct (wire_eq p c) eqn:E; [|done]. intros _. by apply wire_law. Qed.

Lemma replaces_false {A} `{Wire A} (p c : list A) :
  replaces p c = false -> wire_norm p = wire_norm c.
Proof. unfold replaces. intros ?%negb_false_iff. by apply wire_law. Qed.

#[local] Arguments wire_norm : simpl never.
#[local] Arguments apply_field : simpl never.
#[local] Arguments copy_field : simpl never.
#[local] Arguments apply_repeated : simpl never.
#[local] Arguments copy_repeated : simpl never.
#[local] Arguments replaces : simpl never.
#[local] Arguments apply_indexed : simpl never.
#[local] Arguments indexed_delta : simpl never.
#[local] Arguments keep_if : simpl never.
#[local] Hint Resolve field_roundtrip repeated_roundtrip indexed_roundtrip : lcnc.

Lemma task_roundtrip p c :
  norm_TaskStat (apply_option apply_task (keep_if (copy_task_delta p c)) p) = norm_TaskStat c.
Proof.
  unfold keep_if. destruct (copy_task_delta p c).2 eqn:E; cbn [apply_option].
  - unfold norm_TaskStat. cbn [copy_task_delta fst]. unfold apply_task. cbn. f_equal; auto with lcnc.
  - unfold copy_task_delta in E. cbn [snd] in E. unfold norm_TaskStat. bool_to_prop.
    f_equal; by apply wire_law.
Qed.

Lemma trajectory_roundtrip p c :
  norm_TrajectoryStat (apply_option apply_trajectory (keep_if (copy_trajectory_delta p c)) p)
  = norm_TrajectoryStat c.
Proof.
  unfold keep_if. destruct (copy_trajectory_delta p c).2 eqn:E; cbn [apply_option].
  - unfold norm_TrajectoryStat. cbn [copy_trajectory_delta fst]. unfold apply_trajectory. cbn.
    f_equal; auto with lcnc.
  - unfold copy_trajectory_delta in E. cbn [snd] in E. unfold norm_TrajectoryStat. bool_to_prop.
    f_equal; by apply wire_law.
Qed.

Lemma motion_roundtrip p c :
  norm_MotionStat (apply_option apply_motion (keep_if (copy_motion_delta p c)) p)
  = norm_MotionStat c.
Proof.
  pose proof (trajectory_roundtrip (mo_traj p) (mo_traj c)) as Ht.
  unfold keep_if at 1. destruct (copy_motion_delta p c).2 eqn:E; cbn [apply_option].
  - unfold norm_MotionStat. cbn [copy_motion_delta fst]. unfold apply_motion. cbn.
    f_equal; auto with lcnc.
  - unfold copy_motion_delta in E. cbn [snd] in E. bool_to_prop.
    unfold norm_MotionStat. f_equal; try by apply replaces_false.
    + unfold keep_if in *. destruct (copy_trajectory_delta _ _).2; done.
    + eapply indexed_same. by destruct (indexed_delta 0 (mo_joint p) _) eqn:Ej.
    + eapply indexed_same. by destruct (indexed_delta 0 (mo_axis p) _) eqn:Ej.
    + eapply indexed_same. by destruct (indexed_delta 0 (mo_spindle p) _) eqn:Ej.
Qed.

Lemma io_roundtrip p c :
  norm_IoStat (apply_option apply_io (keep_if (copy_io_delta p c)) p) = norm_IoStat c.
Proof.
  unfold keep_if. destruct (copy_io_delta p c).2 eqn:E; cbn [apply_option].
  - unfold norm_IoStat. cbn [copy_io_delta fst]. unfold apply_io. cbn. f_equal; auto with lcnc.
  - unfold copy_io_delta in E. cbn [snd] in E. unfold norm_IoStat. bool_to_prop.
    f_equal; by apply wire_law.
Qed.

(** The contract of the codec: the delta brings the previous status to the
    current one; none is made only when they are the same. *)
Lemma status_delta_correct p c sequence :
  match make_status_delta p c sequence with
  | Some d => apply_status_delta d p ≡ c /\ dlc_sequence d = i64_wrap sequence
  | None => p ≡ c
  end.
Proof.
  pose proof (task_roundtrip (lc_task p) (lc_task c)) as Ht.
  pose proof (motion_roundtrip (lc_motion p) (lc_motion c)) as Hm.
  pose proof (io_roundtrip (lc_io p) (lc_io c)) as Hi.
  unfold make_status_delta. destruct (_ || _) eqn:E.
  - split; [|done]. unfold equiv, status_equiv, norm_LinuxCNCStat, apply_status_delta.
    cbn. f_equal; auto with lcnc.
  - bool_to_prop. unfold equiv, status_equiv, norm_LinuxCNCStat.
    f_equal; try by apply copy_field_none.
    + by destruct (keep_if (copy_task_delta _ _)).
    + by destruct (keep_if (copy_motion_delta _ _)).
    + by destruct (keep_if (copy_io_delta _ _)).
Qed.

(** ** Readers that hold an equivalent status *)

Lemma apply_field_norm {A} `{Wire A} (d : option A) (v w : A) :
  wire_norm v = wire_norm w -> wire_norm (apply_field d v) = wire_norm (apply_field d w).
Proof. by destruct d. Qed.

Lemma apply_repeated_norm {A} `{Wire A} r (d v w : list A) :
  wire_norm v = wire_norm w -> wire_norm (apply_repeated r d v) = wire_norm (apply_repeated r d w).
Proof. by destruct r. Qed.

Lemma apply_item_norm {A} `{Wire A} (v w : list A) x :
  wire_norm v = wire_norm w -> wire_norm (apply_item v x) = wire_norm (apply_item w x).
Proof.
  unfold wire_norm, list_wire. intros E. assert (Hl : length v = length w).
  { rewrite <- (length_fmap wire_norm v), E. apply length_fmap. }
  unfold apply_item. rewrite Hl. destruct (x.2) as [y|].
  - destruct (_ <? _)%nat; [by rewrite !list_fmap_insert, E|by rewrite !fmap_app, E].
  - by rewrite !fmap_take, E.
Qed.

Lemma apply_indexed_norm {A} `{Wire A} items (v w : list A) :
  wire_norm v = wire_norm w ->
  wire_norm (apply_indexed items v) = wire_norm (apply_indexed items w).
Proof.
  revert v w. induction items as [|x items IH]; intros v w E; [done|].
  rewrite !apply_indexed_cons. by apply IH, apply_item_norm.
Qed.

(** The equality of a field from the equality of the normal forms. *)
Ltac project E :=
  match goal with |- ?n (?f ?v) = ?n (?f ?w) => exact (f_equal f E) end.
Ltac solve_apply_norm E :=
  first [apply apply_field_norm; project E | apply apply_repeated_norm; project E
        | apply apply_indexed_norm; project E].

Lemma apply_task_norm d v w :
  norm_TaskStat v = norm_TaskStat w ->
  norm_TaskStat (apply_option apply_task d v) = norm_TaskStat (apply_option apply_task d w).
Proof.
  intros E. destruct d as [d|]; [|done]. unfold norm_TaskStat. cbn. f_equal; solve_apply_norm E.
Qed.

Lemma apply_trajectory_norm d v w :
  norm_TrajectoryStat v = norm_TrajectoryStat w ->
  norm_TrajectoryStat (apply_option apply_trajectory d v)
  = norm_TrajectoryStat (apply_option apply_trajectory d w).
Proof.
  intros E. destruct d as [d|]; [|done]. unfold norm_TrajectoryStat. cbn.
  f_equal; solve_apply_norm E.
Qed.

Lemma apply_motion_norm d v w :
  norm_MotionStat v = norm_MotionStat w ->
  norm_MotionStat (apply_option apply_motion d v) = norm_MotionStat (apply_option apply_motion d w).
Proof.
  intros E. destruct d as [d|]; [|done]. unfold norm_MotionStat. cbn.
  f_equal; first [apply apply_trajectory_norm; project E | solve_apply_norm E].
Qed.

Lemma apply_io_norm d v w :
  norm_IoStat v = norm_IoStat w ->
  norm_IoStat (apply_option apply_io d v) = norm_IoStat (apply_option apply_io d w).
Proof.
  intros E. destruct d as [d|]; [|done]. unfold norm_IoStat. cbn. f_equal; solve_apply_norm E.
Qed.

#[export] Instance apply_status_delta_proper d : Proper ((≡) ==> (≡)) (apply_status_delta d).
Proof.
  intros v w E. unfold equiv, status_equiv in *. unfold norm_LinuxCNCStat at 1 2. cbn.
  f_equal; first [apply apply_task_norm; project E | apply apply_motion_norm; project E
                 | apply apply_io_norm; project E | solve_apply_norm E].
Qed.

(** C31: deltas lose nothing: for any two native snapshots, a reader that holds
    a status equivalent to the first one and applies the delta the codec makes
    holds the second one, also when joints, axes, spindles, outputs or tools
    appear or disappear; the codec makes no delta only when every reader of the
    first status already has the second. *)
Theorem status_delta_roundtrip (s1 s2 : NmlStatusSnapshot) (sequence : Z) (v : LinuxCNCStat) :
  v ≡ encode_status s1 ->
  match make_status_delta (encode_status s1) (encode_status s2) sequence with
  | Some d => apply_status_delta d v ≡ encode_status s2 /\ dlc_sequence d = i64_wrap sequence
  | None => v ≡ encode_status s2
  end.
Proof.
  intros Hv. pose proof (status_delta_correct (encode_status s1) (encode_status s2) sequence) as Hd.
  destruct (make_status_delta _ _ _) as [d|]; [|by rewrite Hv].
  destruct Hd as [Hd ?]. split; [by rewrite Hv|done].
Qed.

(** Two joints, then one joint and a moved axis. *)
Definition sample_snapshot (joints : nat) (position : f64) : NmlStatusSnapshot :=
  let joint := mkNmlJointStatus 0 f64_one f64_zero f64_zero f64_zero f64_zero f64_zero f64_zero
    f64_zero position position f64_zero true false true false true false false false false false
    true in
  mkNmlStatusSnapshot 7 1 0 0 0 0 0 0 0 0 false false EmptyString EmptyString EmptyString 0 0 []
    default_taskstatus
    (mkNmlMotionStatus default_trajectorystatus (replicate joints joint) [] [] [] [] [] [])
    default_iostatus [default_tool].

Lemma status_delta_roundtrip_witness :
  exists d, make_status_delta (encode_status (sample_snapshot 2 f64_zero))
              (encode_status (sample_snapshot 1 f64_one)) 9 = Some d
    /\ apply_status_delta d (encode_status (sample_snapshot 2 f64_zero))
       ≡ encode_status (sample_snapshot 1 f64_one).
Proof.
  eexists. split; [reflexivity|].
  refine (proj1 (status_delta_roundtrip (sample_snapshot 2 f64_zero) (sample_snapshot 1 f64_one)
            9 _ _)). reflexivity.
Defined.

(** A change of the sign of a zero is not reported: the statuses differ, yet no
    delta is made.  This is why the contract above is up to wire equality. *)
Lemma negative_zero_unreported :
  encode_status (sample_snapshot 1 f64_zero) <> encode_status (sample_snapshot 1 (S754_zero true))
  /\ make_status_delta (encode_status (sample_snapshot 1 f64_zero))
       (encode_status (sample_snapshot 1 (S754_zero true))) 9 = None.
Proof. split; [intros E; vm_compute in E; congruence|reflexivity]. Qed.
