(* ===== verification/StatusHistory.v ===== *)
(** The status side of the machine service ([machine/grpc/service.cc]): the
    retained history of encoded samples ([observe_status],
    [mark_status_unavailable], [select_status_history]) and the [WatchStatus]
    stream ([StatusReactor]).

    The stream is developed against an interface of the codec, [StatusDeltas],
    which the status codec implements; what a client ends up with depends on
    its laws only. *)
From S2P Require Import Prelude Float64 NmlStatus StatusCodec.

Local Open Scope Z_scope.

(** * The interface of the codec *)

Class StatusDeltas (Stat Delta : Type) `{Equiv Stat} := {
  make_delta : Stat -> Stat -> Z -> option Delta;
  apply_delta : Delta -> Stat -> Stat;
}.

Class StatusDeltasLaws (Stat Delta : Type) `{StatusDeltas Stat Delta} := {
  stat_equivalence :: Equivalence (≡@{Stat});
  apply_delta_proper :: forall d, Proper ((≡) ==> (≡)) (apply_delta d);
  delta_correct : forall p c n,
    match make_delta p c n with
    | Some d => apply_delta d p ≡ c
    | None => p ≡ c
    end;
}.

#[export] Instance codec_deltas : StatusDeltas LinuxCNCStat LinuxCNCStatDelta :=
  {| make_delta := make_status_delta; apply_delta := apply_status_delta |}.

#[export] Instance codec_deltas_laws : StatusDeltasLaws LinuxCNCStat LinuxCNCStatDelta.
Proof.
  constructor; [apply _|apply _|]. intros p c n. pose proof (status_delta_correct p c n) as Hc.
  cbn. destruct (make_status_delta p c n); tauto.
Qed.

Section Status.
Context {Stat Delta : Type} `{StatusDeltas Stat Delta}.

(** * The history *)

Record StatusSample := mkSample {
  sample_sequence : Z;
  encoded : Stat;
  delta_from_previous : option Delta;
}.

(** The members guarded by [status_mutex_]. *)
Record Status := mkStatus {
  latest : option StatusSample;
  status_available : bool;
  sequence : Z;
  history : list StatusSample;
  replay_capacity : nat;
}.

(** The constructor: a zero capacity is raised to one. *)
Definition status_init (capacity : nat) : Status := mkStatus None false 0 [] (Nat.max 1 capacity).

(** [observe_status] under its lock: the new state and the published sequence. *)
Definition observe_status (fresh : Stat) (force_rebase : bool) (s : Status) :
    Status * option Z :=
  match latest s with
  | None =>
      let sample := mkSample 1 fresh None in
      (mkStatus (Some sample) (status_available s) 1 (history s ++ [sample]) (replay_capacity s),
       Some 1)
  | Some last =>
      if force_rebase then
        let n := u64_succ (sequence s) in
        let sample := mkSample n fresh None in
        (mkStatus (Some sample) (status_available s) n [sample] (replay_capacity s), Some n)
      else
        match make_delta (encoded last) fresh (u64_succ (sequence s)) with
        | None => (s, None)
        | Some delta =>
            let n := u64_succ (sequence s) in
            let sample := mkSample n fresh (Some delta) in
            (mkStatus (Some sample) (status_available s) n
               (keep_last (replay_capacity s) (history s ++ [sample])) (replay_capacity s),
             Some n)
        end
  end.

(** The status branch of the poller on [Updated]: availability is restored, and
    a recovery rebases the history. *)
Definition status_updated (fresh : Stat) (s : Status) : Status * option Z :=
  let recovered := negb (status_available s) in
  observe_status fresh recovered
    (mkStatus (latest s) true (sequence s) (history s) (replay_capacity s)).

(** [mark_status_unavailable]. *)
Definition mark_status_unavailable (s : Status) : Status * option Z :=
  (mkStatus (latest s) false (sequence s) (history s) (replay_capacity s),
   if status_available s then Some (sequence s) else None).

(** [read_status], the answer of [GetStatus]. *)
Definition read_status (s : Status) : option StatusSample :=
  if status_available s then latest s else None.

Record StatusHistorySelection := mkSelection {
  anchor_retained : bool;
  entries : list StatusSample;
}.

(** [std::find_if] on the history: the suffix from the anchor on. *)
Fixpoint find_anchor (anchor : Z) (l : list StatusSample) : option (list StatusSample) :=
  match l with
  | [] => None
  | e :: l' => if sample_sequence e =? anchor then Some l else find_anchor anchor l'
  end.

Definition select_status_history (anchor : Z) (include_replay : bool) (s : Status) :
    StatusHistorySelection :=
  match history s with
  | [] => mkSelection false []
  | first :: rest =>
      let back := List.last rest first in
      match find_anchor anchor (history s) with
      | Some suffix =>
          mkSelection true (if include_replay && negb (anchor =? 0) then suffix else [back])
      | None => mkSelection false [back]
      end
  end.

(** * The stream *)

Inductive WatchStatusEvent :=
| SnapshotEvent (sequence : Z) (status : Stat)
| ReplayEvent (sequence from_sequence to_sequence : Z) (snapshot : Stat) (deltas : list Delta)
| DeltaEvent (sequence : Z) (delta : Delta).

Inductive Termination :=
| StreamCancelled | ServerShutdown | StatusStale | StatusUnavailable | EncodingQueueFull
| WriteFailed.

(** [StatusReactor]; [in_flight] is the write of [write_finish_], [client] what
    the reader of the stream holds after the writes completed so far. *)
Record StatusReactor := mkReactor {
  after : Z;
  initial_written : bool;
  cursor : Z;
  previous : option StatusSample;
  writing_sample : option StatusSample;
  in_flight : option WatchStatusEvent;
  wake_scheduled : bool;
  terminated : option Termination;
  client : option Stat;
}.

(** What [wake] does with a selection that is not empty: the event to write and
    the sample it brings the reader to, or nothing. *)
Definition next_event (r : StatusReactor) (sel : StatusHistorySelection)
    (front latest : StatusSample) : option WatchStatusEvent :=
  let n := sample_sequence latest in
  if negb (initial_written r) then
    if negb (after r =? 0) && anchor_retained sel
    then Some (ReplayEvent n (after r) n (encoded front)
                 (omap delta_from_previous (tail (entries sel))))
    else Some (SnapshotEvent n (encoded latest))
  else if n =? cursor r then None
  else if negb (anchor_retained sel) then Some (SnapshotEvent n (encoded latest))
  else
    match previous r with
    | None => None
    | Some p =>
        DeltaEvent n <$>
          (if u64_succ (sample_sequence p) =? n then delta_from_previous latest
           else make_delta (encoded p) (encoded latest) n)
    end.

Definition terminate (why : Termination) (r : StatusReactor) : StatusReactor :=
  mkReactor (after r) (initial_written r) (cursor r) (previous r) (writing_sample r)
    (in_flight r) (wake_scheduled r)
    (match terminated r with Some t => Some t | None => Some why end) (client r).

Definition start_write (e : WatchStatusEvent) (sample : StatusSample) (r : StatusReactor) :
    StatusReactor :=
  mkReactor (after r) (initial_written r) (cursor r) (previous r) (Some sample) (Some e)
    (wake_scheduled r) (terminated r) (client r).

(** [StatusReactor::wake]; [available] is what [status_available] returned, which
    may be older than the selection. *)
Definition wake (available : bool) (s : Status) (r : StatusReactor) : StatusReactor :=
  match in_flight r, terminated r with
  | None, None =>
      if negb available then terminate StatusStale r
      else
        let sel := select_status_history (if initial_written r then cursor r else after r)
                     (negb (initial_written r)) s in
        match entries sel with
        | [] => terminate StatusUnavailable r
        | front :: rest =>
            let latest := List.last rest front in
            match next_event r sel front latest with
            | None => r
            | Some e => start_write e latest r
            end
        end
  | _, _ => r
  end.

Definition set_scheduled (b : bool) (r : StatusReactor) : StatusReactor :=
  mkReactor (after r) (initial_written r) (cursor r) (previous r) (writing_sample r)
    (in_flight r) b (terminated r) (client r).

(** [schedule_wake]; [room]: the executor accepts the task. *)
Definition schedule_wake (room : bool) (r : StatusReactor) : StatusReactor :=
  match terminated r with
  | Some _ => r
  | None =>
      if wake_scheduled r then r
      else if room then set_scheduled true r
      else terminate EncodingQueueFull r
  end.

(** The reader. *)
Definition receive (e : WatchStatusEvent) (c : option Stat) : option Stat :=
  match e with
  | SnapshotEvent _ s => Some s
  | ReplayEvent _ _ _ s deltas => Some (foldl (fun s d => apply_delta d s) s deltas)
  | DeltaEvent _ d => apply_delta d <$> c
  end.

(** [write_done]: [previous_ = writing_sample_], the cursor follows. *)
Definition write_done (ok room : bool) (r : StatusReactor) : StatusReactor :=
  match in_flight r with
  | None => r
  | Some e =>
      let idle c := mkReactor (after r) (initial_written r) (cursor r) (previous r)
                      (writing_sample r) None (wake_scheduled r) (terminated r) c in
      if negb ok then terminate WriteFailed (idle (client r))
      else
        match terminated r, writing_sample r with
        | None, Some sample =>
            schedule_wake room
              (mkReactor (after r) true (sample_sequence sample) (Some sample) None None
                 (wake_scheduled r) None (receive e (client r)))
        | _, _ => idle (receive e (client r))
        end
  end.

(** The constructor of the reactor, after admission. *)
Definition watch_start (after : Z) (room : bool) : StatusReactor :=
  schedule_wake room (mkReactor after false 0 None None None false None None).

(** ** The threads around a stream *)

Inductive Step :=
| Updated (fresh : Stat) (room : bool)
| Unavailable (room : bool)
| RunWake (available : bool)
| WriteDone (ok room : bool)
| Stop (why : Termination).

(** A published sequence wakes the subscribed stream. *)
Definition published (p : option Z) (room : bool) (r : StatusReactor) : StatusReactor :=
  match p with Some _ => schedule_wake room r | None => r end.

Definition step (x : Status * StatusReactor) (st : Step) : Status * StatusReactor :=
  let (s, r) := x in
  match st with
  | Updated fresh room =>
      let (s', p) := status_updated fresh s in (s', published p room r)
  | Unavailable room =>
      let (s', p) := mark_status_unavailable s in (s', published p room r)
  | RunWake available =>
      if wake_scheduled r then (s, wake available s (set_scheduled false r)) else (s, r)
  | WriteDone ok room => (s, write_done ok room r)
  | Stop why => (s, terminate why r)
  end.

Definition run (x : Status * StatusReactor) (l : list Step) : Status * StatusReactor :=
  foldl step x l.

(** * Correctness of the history *)

(** Neighbours in the history: consecutive sequences, and a delta between. *)
Definition link (a b : StatusSample) : Prop :=
  sample_sequence b = sample_sequence a + 1
  /\ exists d, delta_from_previous b = Some d /\ apply_delta d (encoded a) ≡ encoded b.

Record history_ok (s : Status) : Prop := mkHistoryOk {
  ho_capacity : (0 < replay_capacity s)%nat /\ (length (history s) <= replay_capacity s)%nat;
  ho_linked : Sorted link (history s);
  ho_latest : latest s = last (history s);
  ho_sequence : forall e, latest s = Some e -> sample_sequence e = sequence s;
  ho_empty : latest s = None -> sequence s = 0;
  ho_nonneg : 0 <= sequence s;
  ho_bound : Forall (fun e => 0 < sample_sequence e <= sequence s) (history s);
}.

Lemma sorted_suffix {A} (R : relation A) (l k : list A) : Sorted R (l ++ k) -> Sorted R k.
Proof. induction l as [|x l IH]; [done|]. intros Hs. apply IH. by inversion Hs. Qed.

Lemma sorted_snoc {A} (R : relation A) (l : list A) x :
  Sorted R l -> (forall y, last l = Some y -> R y x) -> Sorted R (l ++ [x]).
Proof.
  induction l as [|y l IH]; intros Hs Hx; [by repeat constructor|].
  apply Sorted_inv in Hs as [Hs Hd]. cbn. constructor.
  - apply IH; [done|]. intros z Hz. apply Hx. destruct l; [done|]. exact Hz.
  - destruct l as [|z l]; cbn; constructor; [by apply Hx|by inversion Hd].
Qed.

Lemma last_default {A} (l : list A) x : last (x :: l) = Some (List.last l x).
Proof.
  revert x. induction l as [|y l IH]; intros x; [done|].
  change (last (x :: y :: l)) with (last (y :: l)). rewrite IH.
  f_equal. destruct l as [|z l]; [done|]. cbn. clear. revert y z.
  induction l as [|w l IH]; intros y z; [done|]. cbn. apply (IH y w).
Qed.

Lemma sorted_index (l : list StatusSample) i j a b :
  Sorted link l -> l !! i = Some a -> l !! j = Some b -> (i <= j)%nat ->
  sample_sequence b = sample_sequence a + Z.of_nat (j - i).
Proof.
  intros Hs Hi Hj Hij. remember (j - i)%nat as k eqn:Hk. revert j b Hj Hij Hk.
  induction k as [|k IH]; intros j b Hj Hij Hk.
  - replace j with i in Hj by lia. rewrite Hi in Hj. injection Hj as <-. lia.
  - destruct j as [|j]; [lia|].
    assert (is_Some (l !! j)) as [c Hc].
    { apply lookup_lt_is_Some. apply lookup_lt_Some in Hj. lia. }
    specialize (IH j c Hc ltac:(lia) ltac:(lia)).
    assert (Hl : link c b).
    { rewrite <- (take_drop_middle l j c Hc) in Hs. apply sorted_suffix in Hs.
      apply Sorted_inv in Hs as [_ Hd].
      assert (Hb : drop (S j) l !! 0%nat = Some b) by by rewrite lookup_drop, Nat.add_0_r.
      destruct (drop (S j) l) as [|b' l']; [done|]. injection Hb as ->. by inversion Hd. }
    destruct Hl as [-> _]. lia.
Qed.

Lemma sorted_same (l : list StatusSample) a b :
  Sorted link l -> a ∈ l -> b ∈ l -> sample_sequence a = sample_sequence b -> a = b.
Proof.
  intros Hs [i Hi]%list_elem_of_lookup [j Hj]%list_elem_of_lookup He.
  destruct (decide (i <= j)%nat).
  - pose proof (sorted_index l i j a b Hs Hi Hj ltac:(lia)).
    assert (i = j) as <- by lia. congruence.
  - pose proof (sorted_index l j i b a Hs Hj Hi ltac:(lia)).
    assert (i = j) as <- by lia. congruence.
Qed.

(** Consecutive retained samples are linked. *)
Lemma sorted_next (l : list StatusSample) a b :
  Sorted link l -> a ∈ l -> b ∈ l -> sample_sequence b = sample_sequence a + 1 -> link a b.
Proof.
  intros Hs [i Hi]%list_elem_of_lookup [j Hj]%list_elem_of_lookup He.
  destruct (decide (i <= j)%nat) as [Hij|Hij].
  - pose proof (sorted_index l i j a b Hs Hi Hj Hij). assert (j = S i) as -> by lia.
    rewrite <- (take_drop_middle l i a Hi) in Hs. apply sorted_suffix in Hs.
    apply Sorted_inv in Hs as [_ Hd].
    assert (Hb : drop (S i) l !! 0%nat = Some b) by by rewrite lookup_drop, Nat.add_0_r.
    destruct (drop (S i) l) as [|b' l']; [done|]. injection Hb as ->. by inversion Hd.
  - pose proof (sorted_index l j i b a Hs Hj Hi ltac:(lia)). lia.
Qed.

Lemma find_anchor_spec n (l suffix : list StatusSample) :
  find_anchor n l = Some suffix ->
  exists pre e rest, l = pre ++ suffix /\ suffix = e :: rest /\ sample_sequence e = n.
Proof.
  induction l as [|e l IH]; cbn; [done|]. destruct (Z.eqb_spec (sample_sequence e) n).
  - intros [= <-]. by exists [], e, l.
  - intros (pre & e' & rest & -> & -> & Hn)%IH. by exists (e :: pre), e', rest.
Qed.

Context `{!StatusDeltasLaws Stat Delta}.

(** Replaying the deltas behind a sample gives the newest one. *)
Lemma replay_correct (l : list StatusSample) e c :
  Sorted link (e :: l) -> c ≡ encoded e ->
  foldl (fun s d => apply_delta d s) c (omap delta_from_previous l) ≡ encoded (List.last l e).
Proof.
  revert e c. induction l as [|x l IH]; intros e c Hs Hc; [done|].
  apply Sorted_inv in Hs as [Hs Hd]. inversion Hd as [|? ? [_ (d & Hx & Ha)]]; subst.
  assert (Hl : List.last (x :: l) e = List.last l x).
  { pose proof (last_default (x :: l) e) as E1. pose proof (last_default l x) as E2.
    change (last (e :: x :: l)) with (last (x :: l)) in E1. congruence. }
  rewrite Hl. cbn. rewrite Hx. cbn. apply IH; [done|]. by rewrite Hc.
Qed.

Lemma history_init capacity : history_ok (status_init capacity).
Proof. unfold status_init. constructor; cbn; try done; try lia. Qed.

Lemma history_available b s :
  history_ok s ->
  history_ok (mkStatus (latest s) b (sequence s) (history s) (replay_capacity s)).
Proof. by intros []. Qed.

(** What one observation does to the history. *)
Lemma observe_status_ok fresh rebase s s' p :
  history_ok s -> sequence s + 1 < 2 ^ 64 -> observe_status fresh rebase s = (s', p) ->
  history_ok s' /\ sequence s <= sequence s' <= sequence s + 1
  /\ (forall e, e ∈ history s' -> e ∈ history s \/ sequence s < sample_sequence e)
  /\ (p = None -> latest s' = latest s /\ is_Some (latest s)).
Proof.
  intros [[Hc Hlen] Hl Hla Hs He Hn Hb] Hw. unfold observe_status.
  destruct (latest s) as [last_|] eqn:El.
  - rewrite u64_succ_small by lia.
    destruct rebase; [|destruct (make_delta _ _ _) as [d|] eqn:Ed]; intros [= <- <-].
    + split_and!; [constructor; cbn; try done; try lia|cbn; lia|cbn; lia| |done].
      * repeat constructor.
      * by intros e [= <-].
      * apply Forall_singleton. cbn. lia.
      * cbn. intros e ->%list_elem_of_singleton. right. cbn. lia.
    + specialize (Hs _ eq_refl).
      assert (Hlink : Sorted link (history s ++ [mkSample (sequence s + 1) fresh (Some d)])).
      { apply sorted_snoc; [done|]. intros y Hy. rewrite <- Hla in Hy. injection Hy as <-.
        split; [cbn; lia|]. exists d. split; [done|].
        pose proof (delta_correct (encoded last_) fresh (sequence s + 1)) as Hd.
        by rewrite Ed in Hd. }
      assert (Hne : forall x, keep_last (replay_capacity s) (history s ++ [x])
                    = drop (length (history s) + 1 - replay_capacity s) (history s) ++ [x]).
      { intros x. unfold keep_last. rewrite length_app. cbn [length].
        apply drop_app_le. lia. }
      split_and!; [constructor; cbn; try done; try lia|cbn; lia|cbn; lia| |done].
      * split; [done|]. rewrite keep_last_length. lia.
      * unfold keep_last. eapply (sorted_suffix _ (take _ _)). by rewrite take_drop.
      * by rewrite Hne, last_snoc.
      * by intros e [= <-].
      * rewrite Hne. apply Forall_app. split; [|apply Forall_singleton; cbn; lia].
        apply Forall_drop. eapply Forall_impl; [exact Hb|]. cbn. lia.
      * cbn. rewrite Hne. intros e [Hin| ->%list_elem_of_singleton]%elem_of_app.
        -- left. rewrite <- (take_drop (length (history s) + 1 - replay_capacity s) (history s)).
           apply elem_of_app. by right.
        -- right. cbn. lia.
    + split_and!; [by constructor; rewrite ?El|lia|lia|by left|done].
  - intros [= <- <-]. specialize (He eq_refl).
    assert (Hnil : history s = []) by (symmetry in Hla; by apply last_None in Hla).
    rewrite Hnil. split_and!; [constructor; cbn; try done; try lia|cbn; lia|cbn; lia| |done].
    + repeat constructor.
    + by intros e [= <-].
    + apply Forall_singleton. cbn. lia.
    + cbn. intros e ->%list_elem_of_singleton. right. cbn. lia.
Qed.

(** * Correctness of the stream *)

(** A sample held by the stream: what is retained under its sequence is it. *)
Definition known (s : Status) (p : StatusSample) : Prop :=
  sample_sequence p <= sequence s
  /\ forall e, e ∈ history s -> sample_sequence e = sample_sequence p -> e = p.

Definition known_opt (s : Status) (o : option StatusSample) : Prop :=
  forall p, o = Some p -> known s p.

(** The reader holds the status of [p]. *)
Definition holds (c : option Stat) (p : StatusSample) : Prop :=
  exists v, c = Some v /\ v ≡ encoded p.

(** The newest status is that of [p]. *)
Definition current (s : Status) (p : StatusSample) : Prop :=
  exists l, latest s = Some l /\ encoded p ≡ encoded l.

Record watch_ok (s : Status) (r : StatusReactor) : Prop := mkWatchOk {
  wo_history : history_ok s;
  wo_previous : known_opt s (previous r);
  wo_writing : known_opt s (writing_sample r);
  wo_cursor : initial_written r = true ->
    exists p, previous r = Some p /\ cursor r = sample_sequence p;
  wo_idle : terminated r = None -> in_flight r = None -> initial_written r = true ->
    exists p, previous r = Some p /\ holds (client r) p;
  wo_flight : terminated r = None -> forall e, in_flight r = Some e ->
    exists w, writing_sample r = Some w /\ holds (receive e (client r)) w;
  wo_quiet : terminated r = None -> in_flight r = None -> wake_scheduled r = false ->
    initial_written r = true /\ exists p, previous r = Some p /\ current s p;
}.

Lemma known_later s s' p :
  sequence s <= sequence s' ->
  (forall e, e ∈ history s' -> e ∈ history s \/ sequence s < sample_sequence e) ->
  known s p -> known s' p.
Proof.
  intros Hs He [Hp Hk]. split; [lia|]. intros e Hin Heq.
  destruct (He e Hin) as [|]; [by apply Hk|lia].
Qed.

Lemma schedule_wake_eq room r :
  schedule_wake room r = r \/ schedule_wake room r = set_scheduled true r
  \/ schedule_wake room r = terminate EncodingQueueFull r.
Proof.
  unfold schedule_wake. destruct (terminated r); [by left|].
  destruct (wake_scheduled r); [by left|]. destruct room; auto.
Qed.

Lemma schedule_wake_scheduled room r :
  terminated (schedule_wake room r) = None -> wake_scheduled (schedule_wake room r) = true.
Proof.
  unfold schedule_wake. destruct (terminated r) eqn:Et; [by rewrite Et|].
  destruct (wake_scheduled r) eqn:Ew; [done|]. destruct room; [done|].
  unfold terminate. cbn. by rewrite Et.
Qed.

(** Everything but the quiescence clause survives scheduling and termination. *)
Lemma watch_ok_schedule s r room :
  history_ok s -> known_opt s (previous r) -> known_opt s (writing_sample r) ->
  (initial_written r = true -> exists p, previous r = Some p /\ cursor r = sample_sequence p) ->
  (terminated r = None -> in_flight r = None -> initial_written r = true ->
     exists p, previous r = Some p /\ holds (client r) p) ->
  (terminated r = None -> forall e, in_flight r = Some e ->
     exists w, writing_sample r = Some w /\ holds (receive e (client r)) w) ->
  watch_ok s (schedule_wake room r).
Proof.
  intros Hh Hp Hw Hc Hi Hf.
  pose proof (schedule_wake_scheduled room r) as Hq.
  destruct (schedule_wake_eq room r) as [E|[E|E]]; rewrite E in *.
  - constructor; auto. intros Ht _ Hs. specialize (Hq Ht). congruence.
  - constructor; auto. done.
  - constructor; auto; unfold terminate; cbn; by destruct (terminated r).
Qed.

Lemma watch_ok_terminate s r why : watch_ok s r -> watch_ok s (terminate why r).
Proof. intros []. constructor; try done; unfold terminate; cbn; by destruct (terminated r). Qed.

Lemma watch_ok_status s s' r p room :
  watch_ok s r -> history_ok s' -> sequence s <= sequence s' ->
  (forall e, e ∈ history s' -> e ∈ history s \/ sequence s < sample_sequence e) ->
  (p = None -> latest s' = latest s) ->
  watch_ok s' (published p room r).
Proof.
  intros [Hh Hp Hw Hc Hi Hf Hq] Hh' Hs He Hl.
  assert (Hk : forall o, known_opt s o -> known_opt s' o).
  { intros o Ho q Hoq. eapply known_later; eauto. }
  destruct p as [n|]; cbn [published].
  - apply watch_ok_schedule; auto.
  - constructor; auto. intros Ht Hin Hsc. destruct (Hq Ht Hin Hsc) as (Hiw & q & Hpq & l & Hll & E).
    split; [done|]. exists q. split; [done|]. exists l. by rewrite (Hl eq_refl).
Qed.

(** The selection of a history that is not empty. *)
Lemma select_cases anchor include_replay s :
  history_ok s ->
  (history s = [] /\ entries (select_status_history anchor include_replay s) = [])
  \/ exists front rest back,
       entries (select_status_history anchor include_replay s) = front :: rest
       /\ List.last rest front = back /\ latest s = Some back /\ back ∈ history s
       /\ Sorted link (front :: rest)
       /\ (rest <> [] -> include_replay = true /\ anchor <> 0
           /\ anchor_retained (select_status_history anchor include_replay s) = true)
       /\ (anchor_retained (select_status_history anchor include_replay s) = true ->
           exists e, e ∈ history s /\ sample_sequence e = anchor).
Proof.
  intros [_ Hl Hla _ _ _ _]. unfold select_status_history.
  destruct (history s) as [|first rest] eqn:Eh; [by left|right].
  assert (Hback : latest s = Some (List.last rest first)) by by rewrite Hla, last_default.
  assert (Hin : List.last rest first ∈ first :: rest).
  { apply last_Some_elem_of. by rewrite last_default. }
  destruct (find_anchor anchor (first :: rest)) as [suffix|] eqn:Ef.
  - apply find_anchor_spec in Ef as (pre & e & tl & Hsplit & -> & He).
    assert (Hel : e ∈ first :: rest) by (rewrite Hsplit; set_solver).
    cbn [entries anchor_retained].
    destruct (include_replay && negb (anchor =? 0)) eqn:Ei.
    + exists e, tl, (List.last rest first). apply andb_true_iff in Ei as [-> Ei%negb_true_iff].
      apply Z.eqb_neq in Ei. split_and!; try done.
      * pose proof (last_default tl e) as E1. pose proof (last_default rest first) as E2.
        rewrite Hsplit, last_app_cons in E2. congruence.
      * rewrite Hsplit in Hl. by apply sorted_suffix in Hl.
      * intros _. by exists e.
    + exists (List.last rest first), [], (List.last rest first). split_and!; try done.
      * by repeat constructor.
      * intros _. by exists e.
  - exists (List.last rest first), [], (List.last rest first). split_and!; try done.
    by repeat constructor.
Qed.

(** The event [wake] writes brings the reader to the newest sample; when there
    is none the reader is there already. *)
Lemma next_event_correct s r front rest back :
  watch_ok s r -> sequence s + 1 < 2 ^ 64 -> terminated r = None -> in_flight r = None ->
  let sel := select_status_history (if initial_written r then cursor r else after r)
               (negb (initial_written r)) s in
  entries sel = front :: rest -> List.last rest front = back ->
  latest s = Some back -> back ∈ history s -> Sorted link (front :: rest) ->
  (rest <> [] -> negb (initial_written r) = true
     /\ (if initial_written r then cursor r else after r) <> 0 /\ anchor_retained sel = true) ->
  (anchor_retained sel = true ->
     exists e, e ∈ history s
       /\ sample_sequence e = (if initial_written r then cursor r else after r)) ->
  match next_event r sel front back with
  | Some e => holds (receive e (client r)) back
  | None => initial_written r = true /\ exists p, previous r = Some p /\ current s p
  end.
Proof.
  intros [Hh Hp _ Hc Hi _ _] Hw Ht Hin sel He Hb Hl Hbin Hs Hrest Hanchor.
  assert (Hsnap : holds (Some (encoded back)) back) by by exists (encoded back).
  unfold next_event. destruct (initial_written r) eqn:Ei; cbn [negb].
  - destruct (Hc eq_refl) as (p & Hpp & Hcur). destruct (Hi Ht Hin eq_refl) as (p' & Hpp' & v & Hv & Ev).
    rewrite Hpp in Hpp'. injection Hpp' as <-. destruct (Hp p Hpp) as [Hle Hk].
    assert (Hcurrent : encoded p ≡ encoded back -> current s p) by (intros E; by exists back).
    destruct (Z.eqb_spec (sample_sequence back) (cursor r)) as [Eq|Ne].
    { split; [done|]. exists p. split; [done|]. apply Hcurrent.
      rewrite (Hk back Hbin); [done|congruence]. }
    destruct (anchor_retained sel) eqn:Ea; cbn [negb]; [|exact Hsnap].
    destruct (Hanchor eq_refl) as (e & Hein & Hes). rewrite Hpp.
    assert (e = p) as -> by (apply Hk; [done|congruence]).
    destruct Hh as [_ Hlink _ _ _ _ Hbd]. rewrite Forall_forall in Hbd.
    destruct (Z.eqb_spec (u64_succ (sample_sequence p)) (sample_sequence back)) as [En|_].
    + assert (Hnext : link p back).
      { apply (sorted_next (history s)); try done.
        rewrite <- En. pose proof (Hbd p Hein). apply u64_succ_small; lia. }
      destruct Hnext as [_ (d & -> & Ed)]. cbn. rewrite Hv. cbn. eexists. split; [done|].
      by rewrite Ev.
    + pose proof (delta_correct (encoded p) (encoded back) (sample_sequence back)) as Hd.
      destruct (make_delta _ _ _) as [d|]; cbn;
        [|split; [done|]; exists p; split; [done|by apply Hcurrent]].
      rewrite Hv. cbn. eexists. split; [done|]. by rewrite Ev.
  - destruct (negb (after r =? 0) && anchor_retained sel) eqn:Er; cbn [receive]; [|exact Hsnap].
    eexists. split; [done|]. rewrite He. cbn [tail]. rewrite <- Hb. by apply replay_correct.
Qed.

Lemma watch_ok_wake available s r :
  watch_ok s r -> sequence s + 1 < 2 ^ 64 -> watch_ok s (wake available s (set_scheduled false r)).
Proof.
  intros Hok0 Hw. assert (Hok := Hok0). destruct Hok0 as [Hh Hp Hwr Hc Hi Hf _].
  set (r0 := set_scheduled false r).
  assert (Hkeep : (terminated r = None -> in_flight r = None ->
      initial_written r = true /\ exists p, previous r = Some p /\ current s p) ->
    watch_ok s r0) by (intros Hq; constructor; auto).
  unfold wake. destruct (in_flight r0) as [e|] eqn:Ein, (terminated r0) as [why|] eqn:Et;
    try (apply Hkeep; intros Ht' Hi'; cbn in Ein, Et; congruence).
  assert (Hterm : forall why, watch_ok s (terminate why r0)).
  { intros why. constructor; auto; unfold terminate; cbn; cbn in Et; by rewrite Et. }
  destruct available; cbn [negb]; [|by apply Hterm].
  cbn [initial_written cursor after r0 set_scheduled].
  destruct (select_cases (if initial_written r then cursor r else after r)
              (negb (initial_written r)) s Hh)
    as [[_ ->]|(front & rest & back & He & Hb & Hl & Hbin & Hs & Hrest & Hanchor)];
    [by apply Hterm|].
  rewrite He, Hb.
  pose proof (next_event_correct s r front rest back Hok Hw Et Ein He Hb Hl Hbin Hs Hrest Hanchor)
    as Hev.
  change (next_event r0) with (next_event r).
  destruct (next_event r _ front back) as [e|]; [|by apply Hkeep].
  unfold start_write. constructor; cbn; try done.
  - intros q [= <-]. split.
    + destruct Hh as [_ _ _ Hseq _ _ _]. rewrite (Hseq back Hl). lia.
    + intros x Hx. by apply (sorted_same (history s)); [apply Hh|..].
  - intros _ e' [= <-]. by exists back.
Qed.

Lemma watch_ok_write_done ok room s r : watch_ok s r -> watch_ok s (write_done ok room r).
Proof.
  intros Hok. unfold write_done. destruct (in_flight r) as [e|] eqn:Ein; [|done].
  destruct Hok as [Hh Hp Hw Hc Hi Hf Hq].
  destruct ok; cbn [negb].
  - destruct (terminated r) as [why|] eqn:Et.
    { by constructor; cbn; rewrite ?Et. }
    destruct (Hf eq_refl e Ein) as (w & Hww & Hr). rewrite Hww.
    apply watch_ok_schedule; cbn; try done.
    + intros q [= <-]. by apply Hw.
    + intros _. by exists w.
    + intros _ _ _. by exists w.
  - by constructor; cbn; try done; destruct (terminated r).
Qed.

Lemma watch_ok_step s r st :
  watch_ok s r -> sequence s + 1 < 2 ^ 64 ->
  watch_ok (step (s, r) st).1 (step (s, r) st).2
  /\ sequence (step (s, r) st).1 <= sequence s + 1.
Proof.
  intros Hok Hw. destruct st as [fresh room|room|available|ok room|why]; cbn [step].
  - destruct (status_updated fresh s) as [s' p] eqn:Eu. cbn.
    pose proof (wo_history _ _ Hok) as Hh.
    apply observe_status_ok in Eu as (Hh' & Hs & He & Hp);
      [|by apply history_available|done]. cbn in Hs, He, Hp.
    split; [|lia]. eapply watch_ok_status; eauto; [lia|]. intros Hn. by apply Hp.
  - cbn. split; [|lia]. eapply watch_ok_status; [done|by apply history_available, Hok|..]; cbn; auto.
    lia.
  - destruct (wake_scheduled r); cbn; [|split; [done|lia]]. split; [by apply watch_ok_wake|lia].
  - cbn. split; [by apply watch_ok_write_done|lia].
  - cbn. split; [by apply watch_ok_terminate|lia].
Qed.

Lemma watch_ok_run l s r :
  watch_ok s r -> sequence s + Z.of_nat (length l) < 2 ^ 64 ->
  watch_ok (run (s, r) l).1 (run (s, r) l).2.
Proof.
  revert s r. induction l as [|st l IH]; intros s r Hok Hw; [done|]. cbn in Hw.
  destruct (watch_ok_step s r st Hok ltac:(lia)) as [Hok' Hs].
  unfold run. cbn [foldl]. destruct (step (s, r) st) as [s' r']. cbn in *. apply IH; [done|lia].
Qed.

(** The history before the stream was opened: observations ([Some]) and losses
    of the channel ([None]). *)
Definition observed (s : Status) (o : option Stat) : Status :=
  match o with Some fresh => (status_updated fresh s).1 | None => (mark_status_unavailable s).1 end.

Definition history_run (capacity : nat) (l : list (option Stat)) : Status :=
  foldl observed (status_init capacity) l.

Lemma history_run_ok capacity l :
  Z.of_nat (length l) < 2 ^ 64 ->
  history_ok (history_run capacity l) /\ sequence (history_run capacity l) <= Z.of_nat (length l).
Proof.
  unfold history_run. induction l as [|o l IH] using rev_ind; intros Hl.
  { split; [apply history_init|done]. }
  rewrite length_app in *. cbn in Hl |- *. rewrite foldl_app. cbn [foldl].
  destruct IH as [IH Hn]; [lia|]. set (s := foldl observed _ l) in *. clearbody s.
  destruct o as [fresh|]; cbn [observed].
  - unfold status_updated. destruct (observe_status _ _ _) as [s' p] eqn:Eo. cbn.
    apply observe_status_ok in Eo as (? & Hs & _);
      [split; [done|cbn in Hs; lia]|by apply history_available|cbn; lia].
  - cbn. split; [by apply history_available|lia].
Qed.

Lemma watch_start_ok s after room : history_ok s -> watch_ok s (watch_start after room).
Proof. intros Hh. apply watch_ok_schedule; cbn; done. Qed.

End Status.

Arguments Step : clear implicits.

(** C1: a status watcher converges: whatever was observed or lost before the
    stream was opened, for every replay position the client asks for and every
    interleaving of observations, channel losses, wake-ups and completed
    writes, the reader of a live stream holds, after each completed write, the
    status of the sample at the stream's cursor; and whenever no write is in
    flight and no wake-up is pending, it holds the newest status. *)
Theorem status_stream_converges (capacity : nat) (before : list (option NmlStatusSnapshot))
    (after : Z) (room : bool) (steps : list (Step LinuxCNCStat)) :
  Z.of_nat (length before) + Z.of_nat (length steps) < 2 ^ 64 ->
  let x := run (history_run capacity (option_map encode_status <$> before), watch_start after room)
             steps in
  terminated x.2 = None -> in_flight x.2 = None ->
  (initial_written x.2 = true ->
     exists p v, previous x.2 = Some p /\ cursor x.2 = sample_sequence p
       /\ client x.2 = Some v /\ v ≡ encoded p)
  /\ (wake_scheduled x.2 = false ->
     exists v newest, client x.2 = Some v /\ latest x.1 = Some newest /\ v ≡ encoded newest).
Proof.
  intros Hl x Ht Hi.
  destruct (history_run_ok capacity (option_map encode_status <$> before)) as [Hh Hn];
    [rewrite length_fmap; lia|]. rewrite length_fmap in Hn.
  pose proof (watch_ok_run steps _ _ (watch_start_ok _ after room Hh) ltac:(lia))
    as [_ _ _ Hc Hid _ Hq].
  fold x in Hc, Hid, Hq. split.
  - intros Hw. destruct (Hc Hw) as (p & Hp & Hcur). destruct (Hid Ht Hi Hw) as (q & Hq' & v & Hv & E).
    rewrite Hp in Hq'. injection Hq' as <-. by exists p, v.
  - intros Hs. destruct (Hq Ht Hi Hs) as (Hw & p & Hp & l & Hll & El).
    destruct (Hid Ht Hi Hw) as (q & Hq' & v & Hv & E). rewrite Hp in Hq'. injection Hq' as <-.
    exists v, l. split_and!; [done|done|]. by rewrite E.
Qed.

(** A client that resumes at sequence 1 of a history of two samples, then sees
    a third one. *)
Definition sample_before : list (option NmlStatusSnapshot) :=
  [Some (sample_snapshot 2 Float64.f64_zero); Some (sample_snapshot 1 Float64.f64_zero)].
Definition sample_steps : list (Step LinuxCNCStat) :=
  [RunWake true; Updated (encode_status (sample_snapshot 3 Float64.f64_one)) true;
   WriteDone true true; RunWake true; WriteDone true true; RunWake true].
Definition sample_stream :=
  run (history_run 16 (option_map encode_status <$> sample_before), watch_start 1 true) sample_steps.

Lemma status_stream_converges_witness :
  exists v newest, client sample_stream.2 = Some v /\ latest sample_stream.1 = Some newest
    /\ v ≡ encoded newest.
Proof.
  refine (proj2 (status_stream_converges 16 sample_before 1 true sample_steps _ _ _) _);
    vm_compute; reflexivity.
Defined.
