(* ===== verification/MachinePoller.v ===== *)
(** The poller of the machine service ([machine/grpc/service.cc], [poll_positions]): the
    thread that polls status, positions and errors on their own schedules and feeds the
    status history, the position history and the error ring.

    One step per critical section or call of another component; the RPCs that configure
    and clear the position history and the end of the service interleave with them.  The
    clock never goes back, and what LinuxCNC answers is an argument.  What happens to the
    published errors is [ErrorStream], to the status samples [StatusHistory]; the
    reconciliation of workspaces inside [observe_status] is [Workspace]. *)
From Stdlib Require Import String.
From stdpp Require Import vector.
From S2P Require Import Prelude Float64 PositionHistory NmlStatus NmlCommand NmlAdapter NmlPoll.
From S2P Require Import StatusCodec StatusHistory.

Local Open Scope Z_scope.

Module Poller.
Import History Poll.
Import Adapter (NmlStatusPoll, Updated, Idle, Stale, Disconnected).

(** ** Samples *)

Definition kMaxPositionSamplePeriodMs : Z := 60000.
Definition kErrorBatchSize : nat := 32.

(** The commanded position without the tool offset. *)
Definition coordinates_of (position tool_offset : NmlPose) : vec f64 9 :=
  fun_to_vec (fun i => f64_sub (nth (fin_to_nat i) position f64_zero)
                               (nth (fin_to_nat i) tool_offset f64_zero)).

Definition sample_of_status (s : NmlStatusSnapshot) : PositionSample :=
  mkSample (coordinates_of (traj_position (motion_traj (motion_stat s)))
                           (ts_tool_offset (task_stat s)))
           (NmlStatus.motion_type s).

Definition sample_of_position (p : NmlPositionSnapshot) : PositionSample :=
  mkSample (coordinates_of (commanded p) (tool_offset p)) (position_motion_type p).

(** Both readers of a status make the same sample. *)
Lemma samples_agree `{NmlTypes} {E : Message.EmcNml} d st s :
  Read.read_status Message.canon_pockets_max d st = Some s ->
  sample_of_status s
  = sample_of_position
      (mkPositionSnapshot (Message.from_emc_pose (Read.position (Read.traj (Read.motion st))))
         (Message.from_emc_pose (Read.toolOffset (Read.task st)))
         (Read.motion_type_ (Read.traj (Read.motion st)))).
Proof.
  intros Hs. destruct (position_readers_agree d st s Hs) as (H1 & H2 & H3).
  unfold sample_of_status, sample_of_position. by rewrite H1, H2, H3.
Qed.

(** ** The state *)

(** What [position_mutex_] guards, with the history the samples go to.  The other
    members are read by no operation: the number of configurations so far, that number
    when positions were last switched off, and the samples appended since the history
    was last cleared, each with its [Tag]: the number of configurations and of changes
    of the availability when its pass read the configuration and when it was appended. *)
Record Tag := mkTag { tag_config : nat; tag_epoch : nat }.

Record Positions := mkPositions {
  position_enabled : bool;
  position_period : Z;
  position_config_generation : Z;
  position_reader_available : bool;
  positions : PositionHistory;
  configurations : nat;
  disabled_at : nat;
  provenance : list (PositionSample * Tag);
}.

Definition clear_positions (q : Positions) : Positions :=
  mkPositions (position_enabled q) (position_period q) (position_config_generation q)
    (position_reader_available q) (History.clear (positions q)) (configurations q) (disabled_at q) [].

Definition set_reader_available (b : bool) (q : Positions) : Positions :=
  mkPositions (position_enabled q) (position_period q) (position_config_generation q) b
    (positions q) (configurations q) (disabled_at q) (provenance q).

Definition append_position (s : PositionSample) (t : Tag) (q : Positions) : Positions :=
  mkPositions (position_enabled q) (position_period q) (position_config_generation q)
    (position_reader_available q) (History.append s (positions q)).1 (configurations q)
    (disabled_at q) ((s, t) :: provenance q).

Record PositionHistoryConfig := mkConfig {
  enabled : option bool;
  capacity : Z;
  sample_period_ms : Z;
}.

Inductive StatusCode := OK | INVALID_ARGUMENT | RESOURCE_EXHAUSTED.

(** [configure_position] *)
Definition configure_position (request : PositionHistoryConfig) (q : Positions) : Positions * StatusCode :=
  if 100000 <? capacity request then (q, RESOURCE_EXHAUSTED)
  else if kMaxPositionSamplePeriodMs <? sample_period_ms request then (q, INVALID_ARGUMENT)
  else
    let n := S (configurations q) in
    let off := bool_decide (enabled request = Some false) in
    let q1 :=
      mkPositions (default (position_enabled q) (enabled request))
        (if 0 <? sample_period_ms request then Channel.ms (sample_period_ms request) else position_period q)
        (u64_succ (position_config_generation q)) (position_reader_available q)
        (if 0 <? capacity request
         then History.configure (Z.to_nat (capacity request)) kDefaultEpsilon (positions q)
         else positions q)
        n (if off then n else disabled_at q) (provenance q) in
    (if off then clear_positions (set_reader_available false q1) else q1, OK).

(** One pass of the loop: what it read at its beginning. *)
Record Pass := mkPass {
  pass_now : Z;
  pass_enabled : bool;
  pass_period : Z;
  pass_generation : Z;
  pass_config : nat;   (* [configurations]; read by no operation *)
  status_due : bool;
  position_due : bool;
}.

(** What is left to do with the answer of a poll, one lock after the other. *)
Inductive Action :=
| MarkAvailable
| ClearIfRecovered
| Append (s : PositionSample)
| Observe (s : NmlStatusSnapshot)
| CheckOutage
| ClearIfAvailable
| MarkUnavailable
| ReaderFailed.

(** [flag]: [recovered] or [was_available]. *)
Inductive Phase :=
| Top
| Polling (p : Pass)
| Acting (p : Pass) (flag : bool) (todo : list Action)
| Scheduling (p : Pass)
| Errors (p : Pass)
| Waiting (deadline : Z) (generation : Z)
| Exited.

Record Timers := mkTimers { next_status : Z; next_error : Z; next_position : Z }.

Abbreviation MachineStatus := (StatusHistory.Status (Stat := LinuxCNCStat) (Delta := LinuxCNCStatDelta)).

(** [epoch]: the number of changes of the availability; [status_polls]: the times of the
    full status polls; [last_status]: the status of the last one that was not idle, if it
    succeeded; [published]: the errors put into the ring.  No operation reads them. *)
Record World := mkWorld {
  shared : Positions;
  status : MachineStatus;
  stopping : bool;
  clock : Z;
  timers : Timers;
  phase : Phase;
  epoch : nat;
  status_polls : list Z;
  last_status : option LinuxCNCStat;
  published : list NmlErrorEvent;
}.

Definition set_phase (p : Phase) (w : World) : World :=
  mkWorld (shared w) (status w) (stopping w) (clock w) (timers w) p (epoch w) (status_polls w)
    (last_status w) (published w).
Definition set_shared (q : Positions) (w : World) : World :=
  mkWorld q (status w) (stopping w) (clock w) (timers w) (phase w) (epoch w) (status_polls w)
    (last_status w) (published w).
Definition set_status (s : MachineStatus) (e : nat) (w : World) : World :=
  mkWorld (shared w) s (stopping w) (clock w) (timers w) (phase w) e (status_polls w)
    (last_status w) (published w).
Definition set_timers (t : Timers) (w : World) : World :=
  mkWorld (shared w) (status w) (stopping w) (clock w) t (phase w) (epoch w) (status_polls w)
    (last_status w) (published w).
Definition set_clock (now : Z) (w : World) : World :=
  mkWorld (shared w) (status w) (stopping w) now (timers w) (phase w) (epoch w) (status_polls w)
    (last_status w) (published w).

Section Poller.
(** The periods of [DaemonConfig] and the capacity of the status history. *)
Context (status_period error_period position_period0 : Z) (replay_capacity : nat).

Definition start (now : Z) : World :=
  mkWorld (mkPositions true position_period0 0 false (History.make 10000 kDefaultEpsilon) 0 0 [])
    (status_init replay_capacity) false now (mkTimers now now now) Top 0 [] None [].

(** ** The loop *)

(** The loop test, the configuration and the clock. *)
Definition begin_pass (now : Z) (w : World) : World :=
  if stopping w then set_phase Exited w
  else
    let q := shared w in
    let t := timers w in
    let p := mkPass now (position_enabled q) (position_period q) (position_config_generation q)
               (configurations q) (next_status t <=? now)
               (position_enabled q && (next_position t <=? now)) in
    let w1 := set_clock now w in
    if status_due p || position_due p then set_phase (Polling p) w1
    else
      set_phase (Errors p)
        (set_timers (if pass_enabled p then t
                     else mkTimers (next_status t) (next_error t) (now + pass_period p)) w1).

(** The poll: of the full status when it is due, else of the position. *)
Definition actions (p : Pass) (result : NmlStatusPoll) (s : NmlStatusSnapshot)
    (position : NmlPositionSnapshot) : list Action :=
  match result with
  | Updated =>
      (if status_due p then [MarkAvailable; ClearIfRecovered] else [])
      ++ (if position_due p
          then [Append (if status_due p then sample_of_status s else sample_of_position position)] else [])
      ++ (if status_due p then [Observe s] else [])
  | Stale | Disconnected =>
      if status_due p then [CheckOutage; ClearIfAvailable; MarkUnavailable] else [ReaderFailed]
  | Idle => []
  end.

Definition poll (p : Pass) (result : NmlStatusPoll) (s : NmlStatusSnapshot)
    (position : NmlPositionSnapshot) (w : World) : World :=
  mkWorld (shared w) (status w) (stopping w) (clock w) (timers w)
    (Acting p false (actions p result s position)) (epoch w)
    (if status_due p then pass_now p :: status_polls w else status_polls w)
    (match status_due p, result with
     | true, Updated => Some (encode_status s)
     | true, (Stale | Disconnected) => None
     | _, _ => last_status w
     end) (published w).

(** One action: the new flag and state. *)
Definition act (p : Pass) (flag : bool) (a : Action) (w : World) : bool * World :=
  let st := status w in
  match a with
  | MarkAvailable =>
      let recovered := negb (status_available st) in
      (recovered,
       set_status (mkStatus (latest st) true (StatusHistory.sequence st) (history st)
                     (StatusHistory.replay_capacity st))
         (if recovered then S (epoch w) else epoch w) w)
  | ClearIfRecovered => (flag, if flag then set_shared (clear_positions (shared w)) w else w)
  | Append s =>
      let q := shared w in
      (flag,
       if position_enabled q && (position_config_generation q =? pass_generation p)
       then set_shared (append_position s (mkTag (pass_config p) (epoch w)) (set_reader_available true q)) w
       else w)
  | Observe s => (flag, set_status (observe_status (encode_status s) flag st).1 (epoch w) w)
  | CheckOutage => (status_available st, w)
  | ClearIfAvailable => (flag, if flag then set_shared (clear_positions (shared w)) w else w)
  | MarkUnavailable =>
      (flag, set_status (mark_status_unavailable st).1
               (if status_available st then S (epoch w) else epoch w) w)
  | ReaderFailed =>
      (flag,
       if position_reader_available (shared w)
       then set_shared (clear_positions (set_reader_available false (shared w))) w else w)
  end.

(** [do next += period while (next <= now)]; [None]: it does not end. *)
Definition catch_up (period next now : Z) : option Z :=
  catch_up_loop (catch_up_fuel period next now) period next now.

(** The next polls of the status and of the position. *)
Definition schedule (p : Pass) (t : Timers) : option Timers :=
  s ← (if status_due p then catch_up status_period (next_status t) (pass_now p) else Some (next_status t));
  q ← (if position_due p then catch_up (pass_period p) (next_position t) (pass_now p)
       else Some (next_position t));
  Some (mkTimers s (next_error t) q).

(** The errors that were available, up to a batch, and the next time. *)
Definition drain_errors (p : Pass) (available : list NmlErrorEvent) (t : Timers) :
    option (Timers * list NmlErrorEvent) :=
  if next_error t <=? pass_now p then
    let drained := take kErrorBatchSize available in
    e ← (if (length drained =? kErrorBatchSize)%nat then Some (pass_now p)
         else catch_up error_period (next_error t) (pass_now p));
    Some (mkTimers (next_status t) e (next_position t), drained)
  else Some (t, []).

(** The time the loop waits for, under the lock. *)
Definition deadline (q : Positions) (t : Timers) : Z :=
  let d := Z.min (next_status t) (next_error t) in
  if position_enabled q then Z.min d (next_position t) else d.

(** The end of the wait: the deadline has passed, the service stops, or the
    configuration changed. *)
Definition wake_up (d generation now : Z) (w : World) : World :=
  let changed := negb (position_config_generation (shared w) =? generation) in
  if (d <=? now) || stopping w || changed then
    let t := timers w in
    set_phase Top
      (set_timers (if changed then mkTimers (next_status t) (next_error t) now else t) (set_clock now w))
  else w.

Inductive Step :=
| Begin (now : Z)
| Poll (result : NmlStatusPoll) (s : NmlStatusSnapshot) (position : NmlPositionSnapshot)
| Act
| Schedule
| DrainErrors (available : list NmlErrorEvent)
| WakeUp (now : Z)
| Configure (request : PositionHistoryConfig)   (* ConfigurePositionHistory *)
| ClearHistory                                  (* ClearPositionHistory *)
| Stop.

Definition step (w : World) (s : Step) : World :=
  match s, phase w with
  | Begin now, Top => if clock w <=? now then begin_pass now w else w
  | Poll result s position, Polling p => poll p result s position w
  | Act, Acting p flag (a :: todo) =>
      let '(flag', w') := act p flag a w in set_phase (Acting p flag' todo) w'
  | Act, Acting p _ [] => set_phase (Scheduling p) w
  | Schedule, Scheduling p =>
      match schedule p (timers w) with
      | Some t => set_phase (Errors p) (set_timers t w)
      | None => w
      end
  | DrainErrors available, Errors p =>
      match drain_errors p available (timers w) with
      | Some (t, drained) =>
          let w1 := set_timers t w in
          mkWorld (shared w1) (status w1) (stopping w1) (clock w1) (timers w1)
            (Waiting (deadline (shared w1) t) (pass_generation p)) (epoch w1) (status_polls w1)
            (last_status w1) (published w1 ++ drained)
      | None => w
      end
  | WakeUp now, Waiting d generation => if clock w <=? now then wake_up d generation now w else w
  | Configure request, _ => set_shared (configure_position request (shared w)).1 w
  | ClearHistory, _ => set_shared (clear_positions (shared w)) w
  | Stop, _ =>
      mkWorld (shared w) (status w) true (clock w) (timers w) (phase w) (epoch w) (status_polls w)
        (last_status w) (published w)
  | _, _ => w
  end.

Definition run (now : Z) (steps : list Step) : World := foldl step (start now) steps.

(** ** The position history and its configuration *)

(** The entries of a history after an operation are among the old ones and the new
    sample. *)
Lemma append_entries s h e : e ∈ entries (History.append s h).1 -> e ∈ entries h \/ sample e = s.
Proof.
  destruct (append_cases s h) as [->|(es & Hc & ->)]; cbn [fst]; [by left|].
  assert (Hes : e ∈ es -> e ∈ entries h \/ sample e = s).
  { destruct Hc as [|pre b' b He]; rewrite ?He; set_unfold; naive_solver. }
  destruct (_ <? _)%nat; cbn [entries]; [|done].
  destruct es as [|x es]; cbn; [done|]. intros ?. apply Hes. by right.
Qed.

Lemma configure_entries max eps h e : e ∈ entries (History.configure max eps h) -> e ∈ entries h.
Proof. cbn. unfold keep_last. intros (i & Hi)%list_elem_of_lookup. rewrite lookup_drop in Hi. by eapply list_elem_of_lookup_2. Qed.

(** Where the samples come from, and the numbers that identify a configuration. *)
Record positions_ok (n : nat) (q : Positions) : Prop := mkPositionsOk {
  pok_generation : position_config_generation q = u64_wrap (Z.of_nat (configurations q));
  pok_bound : (configurations q <= n)%nat;
  pok_entries : forall e, e ∈ entries (positions q) -> exists t, (sample e, t) ∈ provenance q;
  pok_tags : forall s t, (s, t) ∈ provenance q -> (disabled_at q <= tag_config t <= configurations q)%nat;
  pok_off : position_enabled q = false -> provenance q = [];
  pok_disabled : (disabled_at q <= configurations q)%nat;
  pok_period : 0 < position_period q;
}.

Lemma positions_ok_S n q : positions_ok n q -> positions_ok (S n) q.
Proof. intros []. split; try done. lia. Qed.

Lemma clear_positions_ok n q : positions_ok n q -> positions_ok n (clear_positions q).
Proof. intros []. split; cbn; try done; set_solver. Qed.

Lemma set_reader_available_ok n b q : positions_ok n q -> positions_ok n (set_reader_available b q).
Proof. intros []. by split. Qed.

Lemma append_position_ok n s t q :
  positions_ok n q -> position_enabled q = true -> tag_config t = configurations q ->
  positions_ok n (append_position s t q).
Proof.
  intros [Q1 Q2 Q3 Q4 Q5 Q6 Q7] He Ht. split; cbn; try done; try congruence.
  - intros e [H|H]%append_entries.
    + destruct (Q3 e H) as [t' ?]. exists t'. by right.
    + exists t. rewrite H. by left.
  - intros s' t' [[= -> ->]|H]%elem_of_cons; [lia|]. by apply (Q4 s').
Qed.

Lemma u64_count_succ n : u64_succ (u64_wrap (Z.of_nat n)) = u64_wrap (Z.of_nat (S n)).
Proof. rewrite u64_succ_wrap. f_equal. lia. Qed.

Lemma poller_configure_ok n request q :
  positions_ok n q -> positions_ok (S n) (configure_position request q).1.
Proof.
  intros Hq. unfold configure_position. do 2 (destruct (_ <? _); [by apply positions_ok_S|]). cbn [fst].
  set (q1 := mkPositions _ _ _ _ _ _ _ _).
  destruct Hq as [Q1 Q2 Q3 Q4 Q5 Q6 Q7].
  assert (Hentries : forall e, e ∈ entries (positions q1) -> exists t, (sample e, t) ∈ provenance q).
  { intros e. unfold q1. cbn. destruct (0 <? capacity request); [intros ?%configure_entries|]; auto. }
  assert (Hgen : position_config_generation q1 = u64_wrap (Z.of_nat (S (configurations q)))).
  { unfold q1. cbn. by rewrite Q1, u64_count_succ. }
  assert (Hp : 0 < position_period q1).
  { unfold q1, Channel.ms. cbn. destruct (Z.ltb_spec 0 (sample_period_ms request)); [lia|done]. }
  destruct (bool_decide (enabled request = Some false)) eqn:Eoff; unfold q1 in *; cbn in *.
  - split; cbn in *; try done; first [lia|set_solver].
  - split; cbn in *; try done; try lia.
    + intros s t H. specialize (Q4 s t H). lia.
    + intros H. apply Q5. destruct (enabled request) as [[]|]; cbn in *; bool_to_prop; done.
Qed.

(** A configuration that was not changed is the one the pass read. *)
Lemma same_configuration n a b :
  Z.of_nat n < 2 ^ 64 -> (a <= n)%nat -> (b <= n)%nat ->
  u64_wrap (Z.of_nat a) = u64_wrap (Z.of_nat b) -> a = b.
Proof. intros. rewrite !u64_wrap_small in * by (unfold in_u64; lia). lia. Qed.

(** ** The invariant *)

(** [GetStatus] answers with the status polled last, or not at all. *)
Definition answers (w : World) : Prop :=
  match last_status w with
  | Some v => exists sample, read_status (status w) = Some sample /\ encoded sample ≡ v
  | None => read_status (status w) = None
  end.

(** The last actions: samples, and at the end possibly the status. *)
Inductive tail_ok : list Action -> Prop :=
| tail_nil : tail_ok []
| tail_observe s : tail_ok [Observe s]
| tail_append s l : tail_ok l -> tail_ok (Append s :: l)
| tail_failed l : tail_ok l -> tail_ok (ReaderFailed :: l).

(** The actions that are left are a rest of those of one answer. *)
Definition todo_ok (w : World) (flag : bool) (todo : list Action) : Prop :=
  match todo with
  | MarkAvailable :: l => exists l' s, l = ClearIfRecovered :: l' /\ tail_ok l' /\ last l' = Some (Observe s)
  | ClearIfRecovered :: l => tail_ok l
  | CheckOutage :: l => l = [ClearIfAvailable; MarkUnavailable]
  | ClearIfAvailable :: l => l = [MarkUnavailable] /\ flag = status_available (status w)
  | MarkUnavailable :: l => l = [] /\ (status_available (status w) = true -> provenance (shared w) = [])
  | _ => tail_ok todo
  end.

(** What the last of them will make of the status. *)
Definition status_ok (w : World) (todo : list Action) : Prop :=
  match last todo with
  | Some (Observe s) => last_status w = Some (encode_status s)
      /\ (head todo = Some MarkAvailable \/ status_available (status w) = true)
  | Some MarkUnavailable => last_status w = None
  | _ => answers w
  end.

Record pass_ok (w : World) (p : Pass) : Prop := mkPassOk {
  pass_generation_ok : pass_generation p = u64_wrap (Z.of_nat (pass_config p));
  pass_config_ok : (pass_config p <= configurations (shared w))%nat;
  pass_same : pass_config p = configurations (shared w) ->
    pass_enabled p = position_enabled (shared w) /\ pass_period p = position_period (shared w);
  pass_period_ok : 0 < pass_period p;
  pass_clock : pass_now p = clock w;
  pass_position : position_due p = true -> pass_enabled p = true;
}.

Definition phase_ok (w : World) : Prop :=
  match phase w with
  | Acting p flag todo => pass_ok w p /\ todo_ok w flag todo /\ status_ok w todo
  | Polling p | Scheduling p | Errors p => pass_ok w p /\ answers w
  | _ => answers w
  end.

(** Between the recovery of the status and the clearing of the positions. *)
Definition recovering (w : World) : Prop :=
  exists p l, phase w = Acting p true (ClearIfRecovered :: l).

Record inv (n : nat) (w : World) : Prop := mkInv {
  inv_positions : positions_ok n (shared w);
  inv_phase : phase_ok w;
  inv_epoch : ~ recovering w -> forall s t, (s, t) ∈ provenance (shared w) -> tag_epoch t = epoch w;
}.

Lemma poller_inv_start now : 0 < position_period0 -> inv 0 (start now).
Proof.
  intros Hp. split; [|done|].
  - split; cbn; try done; set_solver.
  - intros _ s t H. cbn in H. set_solver.
Qed.

(** A change of the shared state by an RPC. *)
Lemma inv_set_shared n w q :
  inv n w -> positions_ok (S n) q ->
  (configurations q = S (configurations (shared w))
   \/ (configurations q = configurations (shared w) /\ position_enabled q = position_enabled (shared w)
       /\ position_period q = position_period (shared w))) ->
  provenance q = provenance (shared w) \/ provenance q = [] -> inv (S n) (set_shared q w).
Proof.
  intros [I1 I2 I3] Hq Hc Hp.
  assert (Hpass : forall p, pass_ok w p -> pass_ok (set_shared q w) p).
  { intros p [P1 P2 P3 P4 P5 P6]. split; cbn; try done; [lia|]. intros E.
    destruct Hc as [Hc|(Hc & -> & ->)]; [lia|]. apply P3. lia. }
  assert (Hprov : provenance (shared w) = [] -> provenance q = []) by (destruct Hp; congruence).
  split; cbn; [done| |].
  - unfold phase_ok in *. cbn. destruct (phase w) as [|p|p flag todo|p|p|d g|]; try naive_solver.
    destruct I2 as (H1 & H2 & H3). split_and!; [auto| |done].
    destruct todo as [|[]]; try done. cbn in *. naive_solver.
  - intros Hn s t Hin. apply (I3 Hn s t). by destruct Hp as [<-|E]; [|rewrite E in Hin; set_solver].
Qed.

(** ** The actions *)

Lemma tail_todo_ok w flag l : tail_ok l -> todo_ok w flag l.
Proof. destruct 1; constructor; done. Qed.

Lemma status_ok_tail w w' a l :
  status_ok w (a :: l) -> match a with MarkAvailable | Observe _ | MarkUnavailable => False | _ => True end ->
  status w' = status w -> last_status w' = last_status w -> status_ok w' l.
Proof.
  intros H Ha Hs Hl. unfold status_ok, answers in *. rewrite Hs, Hl. destruct l as [|b l].
  - by destruct a.
  - change (last (a :: b :: l)) with (last (b :: l)) in H.
    destruct (last (b :: l)) as [[]|]; try done. destruct H as [H1 [H2|H2]]; [by destruct a|].
    split; [done|by right].
Qed.

(** An observed status is the one [GetStatus] answers with. *)
Lemma observe_answers fresh force s :
  status_available s = true ->
  exists sample, read_status (observe_status fresh force s).1 = Some sample /\ encoded sample ≡ fresh.
Proof.
  intros Ha. unfold observe_status. destruct (latest s) as [old|] eqn:El.
  - destruct force; [unfold read_status; cbn; rewrite Ha; eexists; split; [done|reflexivity]|].
    pose proof (delta_correct (encoded old) fresh (u64_succ (StatusHistory.sequence s))) as Hd.
    destruct (make_delta _ _ _) as [d|]; unfold read_status; cbn; rewrite Ha.
    + eexists; split; [done|reflexivity].
    + by exists old.
  - unfold read_status. cbn. rewrite Ha. eexists; split; [done|reflexivity].
Qed.

(** What an action leaves of the pass. *)
Lemma pass_ok_ext w w' p :
  pass_ok w p -> clock w' = clock w -> configurations (shared w') = configurations (shared w) ->
  position_enabled (shared w') = position_enabled (shared w) ->
  position_period (shared w') = position_period (shared w) -> pass_ok w' p.
Proof. intros [] Hc H1 H2 H3. split; rewrite ?Hc, ?H1, ?H2, ?H3; done. Qed.

Lemma act_inv n w p flag a todo :
  inv n w -> Z.of_nat n < 2 ^ 64 -> phase w = Acting p flag (a :: todo) ->
  let '(flag', w') := act p flag a w in inv (S n) (set_phase (Acting p flag' todo) w').
Proof.
  intros [I1 I2 I3] Hn Hp. unfold phase_ok in I2. rewrite Hp in I2. destruct I2 as (Hpass & Htodo & Hst).
  assert (Hrec : ~ (flag = true /\ a = ClearIfRecovered) -> ~ recovering w).
  { intros H (p' & l & E). rewrite Hp in E. injection E as -> -> -> ->. by apply H. }
  assert (Hmain : forall flag' w',
    positions_ok n (shared w') -> clock w' = clock w ->
    configurations (shared w') = configurations (shared w) ->
    position_enabled (shared w') = position_enabled (shared w) ->
    position_period (shared w') = position_period (shared w) ->
    todo_ok w' flag' todo -> status_ok w' todo ->
    (~ (flag' = true /\ head todo = Some ClearIfRecovered) ->
     forall s t, (s, t) ∈ provenance (shared w') -> tag_epoch t = epoch w') ->
    inv (S n) (set_phase (Acting p flag' todo) w')).
  { intros flag' w' H1 H2 H3 H4 H5 H6 H7 H8. split.
    - by apply positions_ok_S.
    - unfold phase_ok. cbn. split_and!; [|done..]. by apply (pass_ok_ext w).
    - intros Hr. apply H8. intros [-> Hh]. apply Hr. destruct todo as [|[] l]; try done. by exists p, l. }
  assert (Htail : forall w', tail_ok todo -> a <> MarkAvailable -> (forall s, a <> Observe s) ->
    a <> MarkUnavailable -> status w' = status w -> last_status w' = last_status w ->
    forall flag', todo_ok w' flag' todo /\ status_ok w' todo).
  { intros w' Ht H1 H2 H3 Hs Hl flag'. split; [by apply tail_todo_ok|].
    apply (status_ok_tail w w' a); try done. destruct a; try done. by destruct (H2 s). }
  destruct a; cbn [act] in *.
  - destruct Htodo as (l & s & -> & Ht & Hlast).
    assert (Hl2 : forall x, last (x :: l) = Some (Observe s)) by (intros x; by destruct l).
    apply Hmain; try done; unfold status_ok in *; cbn [last] in *.
    + rewrite Hl2 in *. destruct Hst as [Hst _]. split; [done|by right].
    + cbn. intros Hr. destruct (status_available (status w)); [|by destruct Hr]. apply I3, Hrec. by intros [].
  - assert (Hc : forall w', status w' = status w -> last_status w' = last_status w ->
      todo_ok w' flag todo /\ status_ok w' todo) by (intros w' ??; by apply Htail).
    destruct flag.
    + destruct (Hc (set_shared (clear_positions (shared w)) w)) as [H1 H2]; [done..|].
      apply Hmain; try done; [by apply clear_positions_ok|]. by intros _ s t ?%not_elem_of_nil.
    + destruct (Hc w) as [H1 H2]; [done..|]. apply Hmain; try done. intros _. apply I3, Hrec. by intros [].
  - inversion Htodo as [| |s' l' Ht|]; subst. destruct (_ && _) eqn:Eg.
    + bool_to_prop. destruct (Htail (set_shared (append_position s (mkTag (pass_config p) (epoch w))
        (set_reader_available true (shared w))) w)) with flag as [H1 H2]; try done.
      apply Hmain; try done.
      * apply append_position_ok; [by apply set_reader_available_ok|done|]. cbn.
        apply (same_configuration n); [done|..].
        -- transitivity (configurations (shared w)); [apply Hpass|apply I1].
        -- apply I1.
        -- rewrite <- (pass_generation_ok _ _ Hpass), <- (pok_generation _ _ I1). congruence.
      * cbn. intros _ s' t [[= -> ->]|Hin]%elem_of_cons; [done|]. eapply I3; [|done]. apply Hrec. by intros [].
    + destruct (Htail w) with flag as [H1 H2]; try done. apply Hmain; try done. intros _. apply I3, Hrec. by intros [].
  - inversion Htodo; subst. unfold status_ok in Hst. cbn in Hst. destruct Hst as [Hl [?|Ha]]; [done|].
    apply Hmain; try done.
    + constructor.
    + unfold status_ok, answers. cbn. rewrite Hl. by apply observe_answers.
    + intros _. apply I3, Hrec. by intros [].
  - cbn in Htodo. subst todo. apply Hmain; try done. intros _. apply I3, Hrec. by intros [].
  - destruct Htodo as [-> Hflag].
    destruct flag; apply Hmain; try done; cbn.
    + by apply clear_positions_ok.
    + by intros _ s t ?%not_elem_of_nil.
    + split; [done|]. congruence.
    + intros _. apply I3, Hrec. by intros [].
  - destruct Htodo as [-> Hprov]. unfold status_ok in Hst. cbn in Hst. apply Hmain; try done; cbn.
    + constructor.
    + unfold status_ok, answers. cbn. by rewrite Hst.
    + intros _. destruct (status_available (status w)).
      * rewrite Hprov by done. by intros s t ?%not_elem_of_nil.
      * apply I3, Hrec. by intros [].
  - inversion Htodo; subst. destruct (position_reader_available (shared w)).
    + destruct (Htail (set_shared (clear_positions (set_reader_available false (shared w))) w)) with flag
        as [H1 H2]; try done.
      apply Hmain; try done; [by apply clear_positions_ok, set_reader_available_ok|].
      by intros _ s t ?%not_elem_of_nil.
    + destruct (Htail w) with flag as [H1 H2]; try done. apply Hmain; try done. intros _. apply I3, Hrec. by intros [].
Qed.

(** ** The steps *)

(** A step that only moves the thread. *)
Lemma poller_inv_move n w w' :
  inv n w -> shared w' = shared w -> status w' = status w -> epoch w' = epoch w ->
  phase_ok w' -> ~ recovering w -> inv (S n) w'.
Proof.
  intros [I1 I2 I3] Hs Hst He Hp Hr. split; [rewrite Hs; by apply positions_ok_S|done|].
  intros _. rewrite Hs, He. by apply I3.
Qed.

Lemma not_recovering w : match phase w with Acting _ true _ => False | _ => True end -> ~ recovering w.
Proof. intros H (p & l & E). by rewrite E in H. Qed.

Lemma begin_inv n w now : inv n w -> phase w = Top -> inv (S n) (begin_pass now w).
Proof.
  intros Hw Hp. pose proof Hw as [I1 I2 I3]. unfold phase_ok in I2. rewrite Hp in I2.
  assert (Hr : ~ recovering w) by (apply not_recovering; by rewrite Hp).
  unfold begin_pass. destruct (stopping w); [by apply (poller_inv_move n w)|].
  set (p := mkPass _ _ _ _ _ _ _).
  assert (Hpass : forall w', shared w' = shared w -> clock w' = now -> pass_ok w' p).
  { intros w' Hs Hc. split; rewrite ?Hs; cbn; try done; try apply I1.
    by intros [? _]%andb_true_iff. }
  destruct (_ || _); [|destruct (pass_enabled p)]; apply (poller_inv_move n w); try done;
    split; try done; by apply Hpass.
Qed.

Lemma poll_inv n w p result s position :
  inv n w -> phase w = Polling p -> inv (S n) (poll p result s position w).
Proof.
  intros Hw Hp. pose proof Hw as [I1 I2 I3]. unfold phase_ok in I2. rewrite Hp in I2.
  destruct I2 as [Hpass Ha].
  assert (Hr : ~ recovering w) by (apply not_recovering; by rewrite Hp).
  apply (poller_inv_move n w); try done. unfold phase_ok. cbn.
  split; [by apply (pass_ok_ext w)|]. unfold actions, status_ok, answers in *. cbn.
  destruct result, (status_due p); cbn.
  - split.
    + destruct (position_due p); cbn; eexists _, _; (split; [done|]); split; try done; repeat constructor.
    + destruct (position_due p); cbn; split; try done; by left.
  - rewrite app_nil_r. destruct (position_due p); split; try done; repeat constructor.
  - split; [constructor|done].
  - split; [constructor|done].
  - done.
  - split; [repeat constructor|done].
  - done.
  - split; [repeat constructor|done].
Qed.

Lemma poller_step_inv n w s : inv n w -> Z.of_nat n < 2 ^ 64 -> inv (S n) (step w s).
Proof.
  intros Hw Hn. pose proof Hw as [I1 I2 I3].
  assert (Hsame : inv (S n) w) by (split; [by apply positions_ok_S|done..]).
  destruct s as [now|result s position| | |available|now|request| |]; unfold step.
  - destruct (phase w) eqn:Hp; try done. destruct (_ <=? _); [by apply begin_inv|done].
  - destruct (phase w) eqn:Hp; try done. by apply poll_inv.
  - destruct (phase w) as [| |p flag [|a todo]| | | |] eqn:Hp; try done.
    + unfold phase_ok in I2. rewrite Hp in I2. destruct I2 as (H1 & _ & H2).
      apply (poller_inv_move n w); try done; [|intros (p' & l & E); congruence]. split; [by apply (pass_ok_ext w)|done].
    + pose proof (act_inv n w p flag a todo Hw Hn Hp) as H. by destruct (act p flag a w).
  - destruct (phase w) as [| | |p| | |] eqn:Hp; try done. destruct (schedule p (timers w)) as [t|]; [|done].
    unfold phase_ok in I2. rewrite Hp in I2. destruct I2 as [H1 H2].
    apply (poller_inv_move n w); try done; [|apply not_recovering; by rewrite Hp].
    split; [by apply (pass_ok_ext w)|done].
  - destruct (phase w) as [| | | |p| |] eqn:Hp; try done.
    destruct (drain_errors p available (timers w)) as [[t drained]|]; [|done].
    unfold phase_ok in I2. rewrite Hp in I2. destruct I2 as [H1 H2].
    apply (poller_inv_move n w); try done. apply not_recovering; by rewrite Hp.
  - destruct (phase w) as [| | | | |d g|] eqn:Hp; try done. destruct (_ <=? _); [|done].
    unfold wake_up. destruct (_ || _); [|done].
    unfold phase_ok in I2. rewrite Hp in I2.
    apply (poller_inv_move n w); try done. apply not_recovering; by rewrite Hp.
  - apply (inv_set_shared n w); [done|by apply poller_configure_ok|..]; unfold configure_position;
      do 2 (destruct (_ <? _); cbn [fst]; [by auto|]); destruct (bool_decide _); cbn; auto.
  - apply (inv_set_shared n w); [done|by apply positions_ok_S, clear_positions_ok|..]; cbn; auto.
  - split; cbn; [by apply positions_ok_S| |].
    + unfold phase_ok in *. cbn. destruct (phase w); try done; destruct I2 as [H1 H2];
        (split; [by apply (pass_ok_ext w)|done]).
    + intros Hr. apply I3. intros (p & l & E). apply Hr. by exists p, l.
Qed.

Lemma poller_run_inv now steps :
  0 < position_period0 -> Z.of_nat (length steps) < 2 ^ 64 -> inv (length steps) (run now steps).
Proof.
  intros Hp. unfold run. induction steps as [|s steps IH] using rev_ind; intros Hn; [by apply poller_inv_start|].
  rewrite length_app in *. cbn in Hn |- *. rewrite Nat.add_1_r, foldl_app. cbn.
  apply poller_step_inv; [apply IH; lia|lia].
Qed.

(** C4: The position history never shows what it should not.  In every interleaving of the
    poller with configurations, clearings and the end of the service: while positions are
    switched off the history is empty; and every sample in it was read in a pass that
    began after positions were last switched off, and (but for the moment between the
    recovery of the status and the clearing that follows) since the machine status last
    became available or was lost.  So a poll that was under way when positions were
    switched off, or before an outage, cannot bring back what was cleared. *)
Theorem position_history_current (now : Z) (steps : list Step) :
  0 < position_period0 -> Z.of_nat (length steps) < 2 ^ 64 ->
  let w := run now steps in
  let q := shared w in
  (position_enabled q = false -> entries (positions q) = [])
  /\ (forall e, e ∈ entries (positions q) -> exists t, (sample e, t) ∈ provenance q
       /\ (disabled_at q <= tag_config t <= configurations q)%nat
       /\ (~ recovering w -> tag_epoch t = epoch w)).
Proof.
  intros Hp Hn w q. destruct (poller_run_inv now steps Hp Hn) as [[Q1 Q2 Q3 Q4 Q5 Q6 Q7] _ I3].
  fold w in Q3, Q4, Q5, I3. fold q in Q3, Q4, Q5, I3. split.
  - intros Hoff. specialize (Q5 Hoff). destruct (entries (positions q)) as [|e l]; [done|].
    destruct (Q3 e ltac:(by left)) as [t Ht]. rewrite Q5 in Ht. by apply not_elem_of_nil in Ht.
  - intros e He. destruct (Q3 e He) as [t Ht]. exists t. split_and!; [done|by eapply Q4..|]. eauto.
Qed.

(** C18: Between two passes of the poller [GetStatus] answers with the status that was
    polled last, up to the equality that suppresses a publication, if the last full
    status poll that said anything succeeded, and with nothing otherwise; failures of the
    separate position reader never make it unavailable. *)
Theorem get_status_current (now : Z) (steps : list Step) :
  0 < position_period0 -> Z.of_nat (length steps) < 2 ^ 64 ->
  let w := run now steps in
  (forall p flag todo, phase w <> Acting p flag todo) ->
  match last_status w with
  | Some v => exists sample, read_status (status w) = Some sample /\ encoded sample ≡ v
  | None => read_status (status w) = None
  end.
Proof.
  intros Hp Hn w Hphase. destruct (poller_run_inv now steps Hp Hn) as [_ I2 _]. fold w in I2.
  unfold phase_ok in I2. destruct (phase w) eqn:E; try apply I2. by destruct (Hphase p flag todo).
Qed.

(** ** The schedule *)

Definition polled (w : World) : nat :=
  match phase w with
  | Acting p _ _ | Scheduling p => if status_due p then 1 else 0
  | _ => 0
  end%nat.

(** Which timers of a pass are due. *)
Record due_ok (w : World) (p : Pass) : Prop := mkDueOk {
  due_status : if status_due p then next_status (timers w) <= pass_now p else pass_now p < next_status (timers w);
  due_position : position_due p = true -> next_position (timers w) <= pass_now p;
  not_due_position : position_due p = false -> pass_enabled p = true -> pass_now p < next_position (timers w);
}.

Definition phase_due (w : World) : Prop :=
  match phase w with
  | Polling p | Acting p _ _ | Scheduling p => due_ok w p
  | Errors p => pass_now p < next_status (timers w)
      /\ (pass_enabled p = true -> pass_now p < next_position (timers w))
  | _ => True
  end.

(** The next status poll is on the grid of periods, and one period ahead at most. *)
Record paced (t0 : Z) (w : World) : Prop := mkPaced {
  pc_grid : exists k : nat, next_status (timers w) = t0 + Z.of_nat k * status_period
    /\ (length (status_polls w) <= k + polled w)%nat;
  pc_ahead : next_status (timers w) <= clock w + status_period;
  pc_clock : t0 <= clock w;
  pc_due : phase_due w;
}.

Lemma phase_due_ext w w' : phase_due w -> phase w' = phase w -> timers w' = timers w -> phase_due w'.
Proof.
  unfold phase_due. intros H -> Ht. rewrite Ht. destruct (phase w); try done; destruct H; split; by rewrite Ht.
Qed.

Lemma catch_up_ok period next now :
  0 < period -> next <= now ->
  exists r j, catch_up period next now = Some r /\ now < r <= now + period
  /\ r = next + Z.of_nat (S j) * period.
Proof.
  intros Hp Hn. unfold catch_up.
  destruct (catch_up_loop_spec (catch_up_fuel period next now) period next now Hp Hn) as (r & Hr & Hb & Hm);
    [unfold catch_up_fuel; lia|].
  apply Z.mod_divide in Hm as [j Hj]; [|lia]. exists r, (Z.to_nat (j - 1)). split_and!; [done|lia..|].
  assert (0 < j); [|nia]. nia.
Qed.

Lemma act_keeps p flag a w :
  let w' := (act p flag a w).2 in
  timers w' = timers w /\ clock w' = clock w /\ status_polls w' = status_polls w.
Proof. destruct a; cbn; repeat case_match; done. Qed.

Lemma paced_start now : 0 < status_period -> paced now (start now).
Proof. intros. split; cbn; try done; [|lia]. exists 0%nat. split; [lia|done]. Qed.

(** A step that leaves the timers alone. *)
Lemma paced_keep t0 w w' :
  paced t0 w -> timers w' = timers w -> status_polls w' = status_polls w -> clock w <= clock w' ->
  (polled w <= polled w')%nat -> phase_due w' -> paced t0 w'.
Proof.
  intros [(k & H1 & H2) H3 H4 H5] Ht Hs Hc Hp Hd. split; rewrite ?Ht, ?Hs; [|lia|lia|done].
  exists k. split; [done|lia].
Qed.

Lemma begin_paced t0 w now : paced t0 w -> phase w = Top -> clock w <= now -> paced t0 (begin_pass now w).
Proof.
  intros Hw Hp Hc. unfold begin_pass. destruct (stopping w).
  { apply (paced_keep t0 w); try done. unfold polled. by rewrite Hp. }
  set (p := mkPass _ _ _ _ _ _ _).
  assert (Hpol : polled w = 0%nat) by (unfold polled; by rewrite Hp).
  assert (Hs : if status_due p then next_status (timers w) <= now else now < next_status (timers w)).
  { unfold p. cbn. destruct (Z.leb_spec (next_status (timers w)) now); lia. }
  assert (Hq : position_due p = false -> pass_enabled p = true -> now < next_position (timers w)).
  { unfold p. cbn. intros H E. rewrite E in H. cbn in H. bool_to_prop. lia. }
  destruct (status_due p || position_due p) eqn:Ed.
  - apply (paced_keep t0 w); try done; [rewrite Hpol; lia|]. split; cbn; try done.
    unfold p. cbn. intros [_ H]%andb_true_iff. bool_to_prop. lia.
  - apply orb_false_iff in Ed as [Es Eq]. rewrite Es in Hs. specialize (Hq Eq).
    destruct (pass_enabled p) eqn:Ee.
    + apply (paced_keep t0 w); try done; [rewrite Hpol; lia|]. split; cbn; [done|auto].
    + destruct Hw as [(k & H1 & H2) H3 H4 H5]. split; cbn; [|lia|lia|].
      * exists k. split; [done|]. rewrite Hpol in H2. unfold polled. cbn. lia.
      * split; [done|]. cbn. intros E. unfold p in Ee. cbn in Ee. congruence.
Qed.

Lemma schedule_ok t0 w p :
  0 < status_period -> 0 < pass_period p -> pass_now p = clock w -> paced t0 w -> phase w = Scheduling p ->
  exists t, schedule p (timers w) = Some t /\ paced t0 (set_phase (Errors p) (set_timers t w)).
Proof.
  intros Hsp Hpp Hc [(k & H1 & H2) H3 H4 H5] Hp. unfold polled in H2. unfold phase_due in H5. rewrite Hp in H2, H5.
  destruct H5 as [D1 D2 D3]. unfold schedule.
  assert (Hpos : exists q, (if position_due p then catch_up (pass_period p) (next_position (timers w)) (pass_now p)
      else Some (next_position (timers w))) = Some q /\ (pass_enabled p = true -> pass_now p < q)).
  { destruct (position_due p).
    - destruct (catch_up_ok (pass_period p) _ (pass_now p) Hpp (D2 eq_refl)) as (r & j & -> & Hr & _).
      exists r. split; [done|]. intros _. lia.
    - eexists. split; [done|]. auto. }
  destruct Hpos as (q & -> & Hq).
  assert (Hst : exists s j, (if status_due p then catch_up status_period (next_status (timers w)) (pass_now p)
      else Some (next_status (timers w))) = Some s /\ pass_now p < s /\ s <= clock w + status_period
      /\ s = next_status (timers w) + Z.of_nat j * status_period
      /\ ((if status_due p then 1 else 0) <= j)%nat).
  { destruct (status_due p).
    - destruct (catch_up_ok status_period _ (pass_now p) Hsp D1) as (r & j & -> & Hr & Hj).
      exists r, (S j). split_and!; try done; lia.
    - exists (next_status (timers w)), 0%nat. split_and!; try done; lia. }
  destruct Hst as (s & j & -> & Hs1 & Hs2 & Hs3 & Hj). cbn. eexists. split; [done|].
  split; cbn; [|done|done|done]. exists (k + j)%nat. split; [nia|]. unfold polled. cbn. lia.
Qed.

(** The errors are drained in bounded time, and the time to wait for is ahead. *)
Lemma drain_ok n w p available :
  0 < error_period -> Z.of_nat n < 2 ^ 64 -> inv n w -> phase_due w -> phase w = Errors p ->
  exists t drained, drain_errors p available (timers w) = Some (t, drained)
  /\ next_status t = next_status (timers w)
  /\ ((length available < kErrorBatchSize)%nat -> position_config_generation (shared w) = pass_generation p ->
      pass_now p < deadline (shared w) t).
Proof.
  intros He Hn [I1 I2 _] Hd Hp. unfold phase_due in Hd. unfold phase_ok in I2. rewrite Hp in Hd, I2.
  destruct Hd as [D1 D2], I2 as [Hpass _].
  assert (Hdead : forall e, pass_now p < e ->
    position_config_generation (shared w) = pass_generation p ->
    pass_now p < deadline (shared w) (mkTimers (next_status (timers w)) e (next_position (timers w)))).
  { intros e Hlt Hg. rewrite (pok_generation _ _ I1), (pass_generation_ok _ _ Hpass) in Hg.
    apply (same_configuration n) in Hg; [|done|apply I1|transitivity (configurations (shared w)); [apply Hpass|apply I1]].
    destruct (pass_same _ _ Hpass (eq_sym Hg)) as [Hen _]. unfold deadline. cbn.
    destruct (position_enabled (shared w)); [specialize (D2 Hen)|]; lia. }
  unfold drain_errors. destruct (Z.leb_spec (next_error (timers w)) (pass_now p)) as [Hle|Hgt].
  - set (drained := take kErrorBatchSize available).
    destruct (Nat.eqb_spec (length drained) kErrorBatchSize) as [Hl|Hl].
    + cbn. eexists _, _. split_and!; try done. intros Hlt. unfold drained in Hl. rewrite length_take in Hl.
      exfalso. unfold kErrorBatchSize in *. lia.
    + destruct (catch_up_ok error_period _ (pass_now p) He Hle) as (r & j & -> & Hr & _). cbn.
      eexists _, _. split_and!; try done. intros _. apply Hdead. lia.
  - eexists _, _. split_and!; try done. intros _ Hg. destruct (timers w). cbn in *. by apply Hdead.
Qed.

Lemma paced_step n t0 w s :
  0 < status_period -> 0 < error_period -> Z.of_nat n < 2 ^ 64 -> inv n w -> paced t0 w -> paced t0 (step w s).
Proof.
  intros Hsp Hep Hn Hw Hpc. pose proof Hw as [_ I2 _].
  destruct s as [now|result s position| | |available|now|request| |]; unfold step.
  - destruct (phase w) eqn:Hp; try done. destruct (Z.leb_spec (clock w) now); [by apply begin_paced|done].
  - destruct (phase w) as [|p| | | | |] eqn:Hp; try done.
    destruct Hpc as [(k & H1 & H2) H3 H4 H5]. unfold phase_due, polled in *. rewrite Hp in H2, H5.
    split; cbn; try done; [|unfold phase_due; cbn; by destruct H5]. exists k. split; [done|].
    unfold polled. cbn. destruct (status_due p); cbn; lia.
  - destruct (phase w) as [| |p flag [|a todo]| | | |] eqn:Hp; try done.
    + pose proof (pc_due _ _ Hpc) as Hd. unfold phase_due in Hd. rewrite Hp in Hd.
      apply (paced_keep t0 w); try done; [unfold polled; by rewrite Hp|]. unfold phase_due. cbn. by destruct Hd.
    + pose proof (act_keeps p flag a w) as (K1 & K2 & K3).
      destruct (act p flag a w) as [flag' w']. cbn [snd] in *.
      pose proof (pc_due _ _ Hpc) as Hd. unfold phase_due in Hd. rewrite Hp in Hd.
      apply (paced_keep t0 w); try done; [cbn; lia|unfold polled; by rewrite Hp|].
      unfold phase_due. cbn. destruct Hd. split; cbn; by rewrite K1.
  - destruct (phase w) as [| | |p| | |] eqn:Hp; try done.
    unfold phase_ok in I2. rewrite Hp in I2. destruct I2 as [Hpass _].
    destruct (schedule_ok t0 w p) as (t & -> & H); try done; apply Hpass.
  - destruct (phase w) as [| | | |p| |] eqn:Hp; try done.
    destruct (drain_ok n w p available Hep Hn Hw (pc_due _ _ Hpc) Hp) as (t & drained & -> & Ht & _).
    destruct Hpc as [(k & H1 & H2) H3 H4 H5]. unfold polled in H2. rewrite Hp in H2.
    split; cbn; rewrite ?Ht; try done. exists k. split; [done|]. unfold polled. cbn. lia.
  - destruct (phase w) as [| | | | |d g|] eqn:Hp; try done.
    destruct (Z.leb_spec (clock w) now); [|done]. unfold wake_up. destruct (_ || _); [|done].
    destruct Hpc as [(k & H1 & H2) H3 H4 H5]. unfold polled in H2. rewrite Hp in H2.
    split; cbn; [|destruct (negb _); cbn; lia|lia|done]. exists k. split; [by destruct (negb _)|].
    unfold polled. cbn. lia.
  - apply (paced_keep t0 w); try done. apply (phase_due_ext w); [apply (pc_due _ _ Hpc)|done..].
  - apply (paced_keep t0 w); try done. apply (phase_due_ext w); [apply (pc_due _ _ Hpc)|done..].
  - apply (paced_keep t0 w); try done. apply (phase_due_ext w); [apply (pc_due _ _ Hpc)|done..].
Qed.

Lemma run_paced now steps :
  0 < status_period -> 0 < error_period -> 0 < position_period0 -> Z.of_nat (length steps) < 2 ^ 64 ->
  inv (length steps) (run now steps) /\ paced now (run now steps).
Proof.
  intros Hsp Hep Hpp. unfold run. induction steps as [|s steps IH] using rev_ind; intros Hn.
  - split; [by apply poller_inv_start|by apply paced_start].
  - rewrite length_app in *. cbn in Hn |- *. rewrite Nat.add_1_r, foldl_app. cbn.
    destruct IH as [H1 H2]; [lia|]. split; [apply poller_step_inv; [done|lia]|].
    apply (paced_step (length steps)); try done; lia.
Qed.

(** C20: The poller keeps its pace.  With the positive periods that the configuration
    guarantees, whatever the RPCs do and however long the calls take: the full status is
    polled at most once per period (and once at the start); the loops that advance the
    timers end, so the thread never hangs in a pass; and a pass that did not find a whole
    batch of errors, during which nobody changed the configuration, ends in a wait for a
    time that is still ahead, so the thread does not spin. *)
Theorem poller_paced (now : Z) (steps : list Step) :
  0 < status_period -> 0 < error_period -> 0 < position_period0 -> Z.of_nat (length steps) < 2 ^ 64 ->
  let w := run now steps in
  (Z.of_nat (length (status_polls w)) - 1) * status_period <= clock w - now
  /\ (forall p, phase w = Scheduling p -> phase (step w Schedule) = Errors p)
  /\ (forall p available, phase w = Errors p -> exists d,
        phase (step w (DrainErrors available)) = Waiting d (pass_generation p)
        /\ ((length available < kErrorBatchSize)%nat ->
            position_config_generation (shared w) = pass_generation p -> clock w < d)).
Proof.
  intros Hsp Hep Hpp Hn w. destruct (run_paced now steps Hsp Hep Hpp Hn) as [Hw Hpc]. fold w in Hw, Hpc.
  pose proof Hw as [_ I2 _]. split_and!.
  - destruct Hpc as [(k & H1 & H2) H3 H4 H5]. assert (Hpol : polled w = 0%nat \/ next_status (timers w) <= clock w).
    { unfold polled, phase_due, phase_ok in *. destruct (phase w) as [| |p flag todo|p| | |]; try (by left).
      all: destruct (status_due p) eqn:E; [right|by left]; destruct H5 as [D1 _ _]; rewrite E in D1;
        destruct I2 as [Hpass _]; rewrite <- (pass_clock _ _ Hpass); lia. }
    assert (polled w <= 1)%nat by (unfold polled; repeat case_match; lia). nia.
  - intros p Hp. unfold step, phase_ok in *. rewrite Hp in *. destruct I2 as [Hpass _].
    by destruct (schedule_ok now w p) as (t & -> & _); [done|apply Hpass|apply Hpass|done..|].
  - intros p available Hp.
    destruct (drain_ok _ w p available Hep Hn Hw (pc_due _ _ Hpc) Hp) as (t & drained & Hd & _ & Hlt).
    unfold step, phase_ok in *. rewrite Hp in *. rewrite Hd. destruct I2 as [Hpass _].
    eexists. split; [done|]. rewrite <- (pass_clock _ _ Hpass). done.
Qed.

End Poller.

(** ** Runs *)

Definition sample_status (x : Z) (line : Z) : NmlStatusSnapshot :=
  let s := default_statussnapshot in
  mkNmlStatusSnapshot 0 0 0 0 0 0 0 line 0 0 false false EmptyString EmptyString EmptyString 0 1 []
    (task_stat s)
    (mkNmlMotionStatus
       (mkNmlTrajectoryStatus f64_zero f64_zero f64_zero 3 1 [] 0 false false 0 0 false 0 false false
          f64_zero f64_zero (f64_of_Z x :: replicate 8 f64_zero) zero_pose f64_zero f64_zero f64_zero
          zero_pose false false f64_zero 0 1 f64_zero zero_pose f64_zero false false false)
       [] [] [] [] [] [] [])
    (io_stat s) [].

Definition no_position : NmlPositionSnapshot := mkPositionSnapshot zero_pose zero_pose 0.

(** A whole pass with one answer. *)
Definition pass (now : Z) (result : NmlStatusPoll) (s : NmlStatusSnapshot) (wake : Z) : list Step :=
  [Begin now; Poll result s no_position; Act; Act; Act; Act; Act; Schedule; DrainErrors []; WakeUp wake].

Abbreviation sample_run := (run 100 50 20 4 0).

(** Positions are switched off while a sample is being read. *)
Definition sample_steps : list Step :=
  pass 0 Updated (sample_status 1 5) 20
  ++ [Begin 20; Poll Updated (sample_status 2 5) (mkPositionSnapshot [f64_of_Z 2] zero_pose 1);
      Configure (mkConfig (Some false) 0 0); Act; Act].

Lemma position_history_current_witness :
  position_enabled (shared (sample_run sample_steps)) = false
  /\ entries (positions (shared (sample_run sample_steps))) = []
  /\ length (entries (positions (shared (sample_run (pass 0 Updated (sample_status 1 5) 20))))) = 1%nat.
Proof.
  assert (Hoff : position_enabled (shared (sample_run sample_steps)) = false) by (vm_compute; reflexivity).
  split; [exact Hoff|]. split; [|vm_compute; reflexivity].
  apply (position_history_current 100 50 20 4 0 sample_steps); [reflexivity|vm_compute; reflexivity|exact Hoff].
Defined.

(** An outage and the recovery. *)
Definition sample_outage : list Step :=
  pass 0 Updated (sample_status 1 5) 100 ++ pass 100 Disconnected (sample_status 0 0) 200.

Lemma get_status_current_witness :
  last_status (sample_run (sample_outage ++ pass 200 Updated (sample_status 3 7) 220))
    = Some (encode_status (sample_status 3 7))
  /\ (exists sample,
        read_status (status (sample_run (sample_outage ++ pass 200 Updated (sample_status 3 7) 220)))
          = Some sample /\ encoded sample ≡ encode_status (sample_status 3 7))
  /\ read_status (status (sample_run sample_outage)) = None.
Proof.
  pose proof (get_status_current 100 50 20 4 0 (sample_outage ++ pass 200 Updated (sample_status 3 7) 220)
    ltac:(reflexivity) ltac:(vm_compute; reflexivity)) as H.
  assert (El : last_status (sample_run (sample_outage ++ pass 200 Updated (sample_status 3 7) 220))
    = Some (encode_status (sample_status 3 7))) by (vm_compute; reflexivity).
  assert (Et : phase (sample_run (sample_outage ++ pass 200 Updated (sample_status 3 7) 220)) = Top)
    by (vm_compute; reflexivity).
  split; [exact El|]. split; [|vm_compute; reflexivity].
  cbv zeta in H. rewrite El, Et in H. apply H. intros p flag todo E. discriminate E.
Defined.

(** During a recovery, before the new status is stored, [GetStatus] answers with the
    status from before the outage. *)
Example recovery_exposes_stale :
  let w := sample_run (sample_outage ++ [Begin 200; Poll Updated (sample_status 3 7) no_position; Act]) in
  exists sample, read_status (status w) = Some sample
  /\ encoded sample = encode_status (sample_status 1 5) /\ last_status w = Some (encode_status (sample_status 3 7)).
Proof. eexists. split; [vm_compute; reflexivity|]. split; vm_compute; reflexivity. Qed.

Lemma poller_paced_witness :
  phase (sample_run sample_outage) = Top
  /\ length (status_polls (sample_run sample_outage)) = 2%nat
  /\ (Z.of_nat (length (status_polls (sample_run sample_outage))) - 1) * 100
       <= clock (sample_run sample_outage) - 0.
Proof.
  split; [vm_compute; reflexivity|]. split; [vm_compute; reflexivity|].
  apply (poller_paced 100 50 20 4 0 sample_outage); try reflexivity; vm_compute; reflexivity.
Defined.

End Poller.
