(* ===== verification/Workspace.v ===== *)
(** Program workspaces: the store of uploaded revisions with its quotas and
    leases ([program/workspace.cc]), the transaction that publishes a revision
    under the active program directory ([filesystem/directory_transaction.cc]),
    the activation protocol of program open and close
    ([machine/grpc/service.cc]) and the leases of running program previews
    ([telemetry_websocket_server.cc]).

    The filesystem is the environment: what a check or a rename answers is an
    argument of the operation that asks. *)
From Stdlib Require Import Ascii String.
From S2P Require Import Prelude.

Local Open Scope Z_scope.

(** * The store *)
Module Store.

Record WorkspaceLimits := mkLimits {
  max_workspace_bytes : Z;
  max_total_bytes : Z;
  ttl : Z;
  max_workspaces : nat;
  max_entries_per_workspace : Z;
}.

Inductive WorkspacePublishStatus := Ok_ | Invalid | ResourceExhausted | IoError.

Record Workspace := mkWorkspace {
  expires_at : Z;
  bytes : Z;
  entries : Z;
  leases : nat;
}.

Record ProgramWorkspaceStore := mkStore {
  limits : WorkspaceLimits;
  workspaces : gmap string Workspace;
  recovered_leases : gset string;
}.

Definition set_workspaces (m : gmap string Workspace) (s : ProgramWorkspaceStore) :
    ProgramWorkspaceStore := mkStore (limits s) m (recovered_leases s).

Definition with_leases (n : nat) (w : Workspace) : Workspace :=
  mkWorkspace (expires_at w) (bytes w) (entries w) n.

(** A hexadecimal digit of an identifier. *)
Definition id_digit (c : ascii) : bool :=
  let n := Z.of_nat (nat_of_ascii c) in
  ((48 <=? n) && (n <=? 57)) || ((97 <=? n) && (n <=? 102)).

Definition valid_id (id : string) : bool :=
  String.prefix "workspace-" id && (String.length id =? 42)%nat
  && forallb id_digit (String.list_ascii_of_string (String.substring 10 32 id)).

(** The sum of the sizes, in [std::size_t]. *)
Definition total_size_locked (m : gmap string Workspace) : Z :=
  map_fold (fun _ w acc => u64_wrap (acc + bytes w)) 0 m.

(** The answer of the rename that publishes a revision. *)
Inductive Rename := Renamed | NoSpace | RenameFailed.

(** [publish_revision]: [is_directory] (the staged revision is a directory below
    the staging root), [touched] and [rename] are answers of the filesystem, [id] the identifier the random generator settled on. *)
Definition publish_revision (is_directory touched : bool) (rename : Rename) (size count : Z)
    (id : string) (now : Z) (s : ProgramWorkspaceStore) :
    ProgramWorkspaceStore * WorkspacePublishStatus :=
  let l := limits s in
  if negb is_directory || (max_workspace_bytes l <? size)
     || (max_entries_per_workspace l <? count)
  then (s, Invalid)
  else if (max_workspaces l <=? base.size (workspaces s))%nat || (max_total_bytes l <? size)
          || (max_total_bytes l - size <? total_size_locked (workspaces s))
  then (s, ResourceExhausted)
  else if negb touched then (s, IoError)
  else
    match rename with
    | NoSpace => (s, ResourceExhausted)
    | RenameFailed => (s, IoError)
    | Renamed =>
        (set_workspaces
           match workspaces s !! id with
           | Some _ => workspaces s
           | None => <[id := mkWorkspace (now + ttl l) size count 0]> (workspaces s)
           end s, Ok_)
    end.

(** [erase]; [removed]: the directory could be removed. *)
Definition erase (id : string) (removed : bool) (s : ProgramWorkspaceStore) :
    ProgramWorkspaceStore * bool :=
  if negb (valid_id id) then (s, false)
  else
    match workspaces s !! id with
    | None => (s, false)
    | Some w =>
        if negb (leases w =? 0)%nat then (s, false)
        else if negb removed then (s, false)
        else (set_workspaces (delete id (workspaces s)) s, true)
    end.

(** [pin_entry]; [entry_ok]: the relative path is valid and names a regular file
    below the workspace without symbolic links. *)
Definition pin_entry (id : string) (entry_ok : bool) (now : Z) (s : ProgramWorkspaceStore) :
    ProgramWorkspaceStore * bool :=
  if negb (valid_id id) then (s, false)
  else
    match workspaces s !! id with
    | None => (s, false)
    | Some w =>
        if (expires_at w <=? now) || negb entry_ok then (s, false)
        else (set_workspaces (<[id := with_leases (S (leases w)) w]> (workspaces s)) s, true)
    end.

Definition unpin_entry (id : string) (s : ProgramWorkspaceStore) : ProgramWorkspaceStore :=
  match workspaces s !! id with
  | None => s
  | Some w =>
      if (leases w =? 0)%nat then s
      else set_workspaces (<[id := with_leases (pred (leases w)) w]> (workspaces s)) s
  end.

(** The guard of [stage]. *)
Definition can_stage (id : string) (entry_ok : bool) (now : Z) (s : ProgramWorkspaceStore) : bool :=
  valid_id id
  && match workspaces s !! id with
     | None => false
     | Some w => negb (leases w =? 0)%nat && negb (expires_at w <=? now) && entry_ok
     end.

(** [prune_expired]; [removed id]: the directory could be removed. *)
Definition prunable (now : Z) (removed : string -> bool) (id : string) (w : Workspace) : bool :=
  (leases w =? 0)%nat && (expires_at w <=? now) && removed id.

Definition prune_expired (now : Z) (removed : string -> bool) (s : ProgramWorkspaceStore) :
    ProgramWorkspaceStore :=
  set_workspaces
    (filter (fun kv => prunable now removed kv.1 kv.2 = false) (workspaces s)) s.

(** [release_recovered_leases]; the result tells whether there were any. *)
Definition release_recovered_leases (s : ProgramWorkspaceStore) : ProgramWorkspaceStore * bool :=
  (mkStore (limits s)
     (map_imap (fun id w =>
        Some (if bool_decide (id ∈ recovered_leases s) then with_leases (pred (leases w)) w
              else w)) (workspaces s)) ∅,
   negb (bool_decide (recovered_leases s = ∅))).

(** The constructor.  [scanned]: the directories of the root with their write time
    and usage; a name that is not an identifier is skipped. *)
Definition scan (m : gmap string Workspace) (entry : string * (Z * Z * Z)) : gmap string Workspace :=
  let '(id, (time, size, count)) := entry in
  if valid_id id then
    match m !! id with Some _ => m | None => <[id := mkWorkspace time size count 0]> m end
  else m.

(** [linked_workspace_id]; [target]: the name below the root a link refers to. *)
Definition linked_workspace_id (target : option string) (s : ProgramWorkspaceStore) :
    option string :=
  match target with
  | Some id => if valid_id id && bool_decide (is_Some (workspaces s !! id)) then Some id else None
  | None => None
  end.

(** The lambda [recover]: pin the workspace a link of the previous run refers to. *)
Definition recover (s : ProgramWorkspaceStore) (target : option string) : ProgramWorkspaceStore :=
  match linked_workspace_id target s with
  | None => s
  | Some id =>
      if bool_decide (id ∈ recovered_leases s) then s
      else mkStore (limits s) (alter (fun w => with_leases (S (leases w)) w) id (workspaces s))
             ({[id]} ∪ recovered_leases s)
  end.

(** [act]: the target of the active link, [next]: those of the staging links. *)
Definition load (l : WorkspaceLimits) (scanned : list (string * (Z * Z * Z)))
    (act : option string) (next : list (option string)) : ProgramWorkspaceStore :=
  foldl recover (mkStore l (foldl scan ∅ scanned) ∅) (act :: next).

(** The active link afterwards: an invalid one is replaced by the empty directory. *)
Definition loaded_link (l : WorkspaceLimits) (scanned : list (string * (Z * Z * Z)))
    (act : option string) : option string :=
  linked_workspace_id act (mkStore l (foldl scan ∅ scanned) ∅).

(** The pins of a workspace. *)
Definition pins (s : ProgramWorkspaceStore) (id : string) : option nat :=
  leases <$> workspaces s !! id.

End Store.

(** * Publishing a directory *)
Module Transaction.

Inductive State := Staged | Committed | Completed | RolledBack.

(** A [DirectoryTransaction] whose two paths are links: what the staging link
    refers to, [None] for the empty directory. *)
Record DirectoryTransaction := mkTransaction {
  state : State;
  staging : option string;
}.

(** The operations, on the transaction and the active link; [exchanged]: the
    atomic exchange of the two paths succeeded. *)
Definition commit (exchanged : bool) (t : DirectoryTransaction) (link : option string) :
    DirectoryTransaction * option string * bool :=
  match state t with
  | Staged =>
      if exchanged then (mkTransaction Committed link, staging t, true) else (t, link, false)
  | _ => (t, link, false)
  end.

Definition complete (t : DirectoryTransaction) : DirectoryTransaction :=
  match state t with Committed => mkTransaction Completed (staging t) | _ => t end.

Definition rollback (exchanged : bool) (t : DirectoryTransaction) (link : option string) :
    DirectoryTransaction * option string :=
  match state t with
  | Committed => if exchanged then (mkTransaction RolledBack link, staging t) else (t, link)
  | _ => (t, link)
  end.

(** The destructor: a committed transaction is rolled back. *)
Definition destroy (exchanged : bool) (t : DirectoryTransaction) (link : option string) :
    option string := (rollback exchanged t link).2.

End Transaction.

(** * Activation *)
Module Activation.
Import Store Transaction.

(** One [ExecuteCommand] with [program_open], as far as it touches shared state.
    [Pinning]: the [opening] flag is set, the entry not pinned yet.  [Leased]: its
    [PendingWorkspaceLease] exists.  [Gone]: the lease was destroyed, or never
    made. *)
Inductive Phase := Pinning | Leased | Gone.

#[export] Instance Phase_eq_dec : EqDecision Phase.
Proof. solve_decision. Defined.

(** [decided]: [on_completed] or [on_failed] has run. *)
Record Open := mkOpen {
  workspace : string;
  phase : Phase;
  release : bool;
  transaction : option DirectoryTransaction;
  decided : bool;
}.

(** The parser task of one program preview ([start_preview]), as far as it
    touches the store.  [Queued]: the parser worker has accepted the task.
    [Parsing]: the task has pinned the entry and its [Lease] exists.  [Refused]:
    the entry is missing, expired or unsafe.  [Ended]: the task has left the
    block that holds the [Lease]. *)
Inductive PreviewPhase := Queued | Parsing | Refused | Ended.

#[export] Instance PreviewPhase_eq_dec : EqDecision PreviewPhase.
Proof. solve_decision. Defined.

Record Preview := mkPreview {
  workspace_id : string;
  task : PreviewPhase;
}.

(** How the block is left: the parser was cancelled, finished, or threw. *)
Inductive ParseExit := Cancelled | Finished | ParserError | OtherException.

(** The activation of the machine service with its pending opens, the store it
    shares with the previews, and the previews' tasks. *)
Record WorkspaceActivation := mkActivation {
  store : ProgramWorkspaceStore;
  active : option string;
  opening : bool;
  link : option string;
  opens : list Open;
  previews : list Preview;
}.

Definition set_store (s : ProgramWorkspaceStore) (a : WorkspaceActivation) : WorkspaceActivation :=
  mkActivation s (active a) (opening a) (link a) (opens a) (previews a).
Definition set_open (i : nat) (o : Open) (a : WorkspaceActivation) : WorkspaceActivation :=
  mkActivation (store a) (active a) (opening a) (link a) (<[i := o]> (opens a)) (previews a).
Definition set_preview (i : nat) (p : Preview) (a : WorkspaceActivation) : WorkspaceActivation :=
  mkActivation (store a) (active a) (opening a) (link a) (opens a) (<[i := p]> (previews a)).

(** The critical sections and callbacks, in the order the code allows for one
    command; those of different commands interleave freely.  A callback is one
    step: what it does outside the activation's mutex touches only the store,
    under the store's own mutex, and the active link. *)
Inductive Step :=
| Begin (ws : string)                       (* the test and set of [opening] *)
| Pin (i : nat) (entry_ok : bool) (now : Z) (* [pin_entry], then the lease *)
| Stage (i : nat) (ok : bool) (now : Z)     (* the path limit and [stage] *)
| Prepare (i : nat) (exchanged : bool)      (* [command.prepare] on the worker *)
| Complete (i : nat)                        (* [command.on_completed] *)
| Fail (i : nat) (exchanged : bool)         (* [command.on_failed] *)
| Drop (i : nat) (exchanged : bool)         (* the last closure is destroyed *)
| CloseCompleted (published : bool)         (* [on_completed] of a program close *)
| StatusEmpty (published : bool)            (* [observe_status] without a file *)
| StartPreview (ws : string) (accepted : bool) (* the parser worker's [submit] *)
| PinPreview (i : nat) (entry_ok : bool) (now : Z) (* the task begins: [pin_entry] *)
| EndPreview (i : nat) (exit : ParseExit)   (* the [Lease] is destroyed *)
| Publish (is_directory touched : bool) (rename : Rename) (size count : Z) (id : string) (now : Z)
| Erase (id : string) (removed : bool)
| Prune (now : Z) (removed : string -> bool).

Definition begin_open (ws : string) (a : WorkspaceActivation) : WorkspaceActivation :=
  if bool_decide (ws = EmptyString) || opening a then a
  else mkActivation (store a) (active a) true (link a)
         (opens a ++ [mkOpen ws Pinning true None false]) (previews a).

Definition pin (i : nat) (o : Open) (entry_ok : bool) (now : Z) (a : WorkspaceActivation) :
    WorkspaceActivation :=
  let (s, pinned) := pin_entry (workspace o) entry_ok now (store a) in
  if pinned
  then set_open i (mkOpen (workspace o) Leased true None false) (set_store s a)
  else
    let a1 := set_open i (mkOpen (workspace o) Gone true None false) a in
    mkActivation (store a1) (active a1) false (link a1) (opens a1) (previews a1).

Definition stage (i : nat) (o : Open) (ok : bool) (now : Z) (a : WorkspaceActivation) :
    WorkspaceActivation :=
  if can_stage (workspace o) ok now (store a)
  then set_open i (mkOpen (workspace o) Leased (release o)
                     (Some (mkTransaction Staged (Some (workspace o)))) false) a
  else a.

Definition prepare (i : nat) (o : Open) (t : DirectoryTransaction) (exchanged : bool)
    (a : WorkspaceActivation) : WorkspaceActivation :=
  let '(t', l, _) := commit exchanged t (link a) in
  mkActivation (store a) (active a) (opening a) l
    (<[i := mkOpen (workspace o) (phase o) (release o) (Some t') (decided o)]> (opens a)) (previews a).

(** [on_completed] of program open. *)
Definition on_completed (i : nat) (o : Open) (t : DirectoryTransaction)
    (a : WorkspaceActivation) : WorkspaceActivation :=
  let s := (release_recovered_leases (store a)).1 in
  let o' r := mkOpen (workspace o) (phase o) r (Some (Transaction.complete t)) true in
  if bool_decide (active a = Some (workspace o))
  then mkActivation s (active a) false (link a) (<[i := o' true]> (opens a)) (previews a)
  else mkActivation (match active a with Some old => unpin_entry old s | None => s end)
         (Some (workspace o)) false (link a) (<[i := o' false]> (opens a)) (previews a).

Definition on_failed (i : nat) (o : Open) (exchanged : bool) (a : WorkspaceActivation) :
    WorkspaceActivation :=
  match transaction o with
  | Some t =>
      let (t', l) := Transaction.rollback exchanged t (link a) in
      mkActivation (store a) (active a) (opening a) l
        (<[i := mkOpen (workspace o) (phase o) (release o) (Some t') true]> (opens a)) (previews a)
  | None => a
  end.

(** The destructors of the transaction and of the lease. *)
Definition drop_open (i : nat) (o : Open) (exchanged : bool) (a : WorkspaceActivation) :
    WorkspaceActivation :=
  let l := match transaction o with
           | Some t => destroy exchanged t (link a)
           | None => link a
           end in
  mkActivation (if release o then unpin_entry (workspace o) (store a) else store a)
    (active a) false l
    (<[i := mkOpen (workspace o) Gone (release o) None (decided o)]> (opens a)) (previews a).

(** [clear_active_link], when the link could be published. *)
Definition cleared (published : bool) (l : option string) : option string :=
  if published then None else l.

(** [on_completed] of program close. *)
Definition close_completed (published : bool) (a : WorkspaceActivation) : WorkspaceActivation :=
  let s := (release_recovered_leases (store a)).1 in
  mkActivation (match active a with Some old => unpin_entry old s | None => s end)
    None (opening a) (cleared published (link a)) (opens a) (previews a).

(** The reconciliation in [observe_status] when LinuxCNC has no file open. *)
Definition status_empty (published : bool) (a : WorkspaceActivation) : WorkspaceActivation :=
  if opening a then a
  else
    let (s, recovered) := release_recovered_leases (store a) in
    match active a with
    | Some old => mkActivation (unpin_entry old s) None false (cleared published (link a))
                    (opens a) (previews a)
    | None => mkActivation s None false (if recovered then cleared published (link a) else link a)
                (opens a) (previews a)
    end.

(** [start_preview]: a refused task closes the session with "try again later". *)
Definition start_preview (ws : string) (accepted : bool) (a : WorkspaceActivation) :
    WorkspaceActivation :=
  if accepted
  then mkActivation (store a) (active a) (opening a) (link a) (opens a)
         (previews a ++ [mkPreview ws Queued])
  else a.

(** The task begins; without the pin it answers INVALID_ENTRY and returns. *)
Definition pin_preview (i : nat) (ws : string) (entry_ok : bool) (now : Z)
    (a : WorkspaceActivation) : WorkspaceActivation :=
  let (s, leased) := pin_entry ws entry_ok now (store a) in
  if leased then set_preview i (mkPreview ws Parsing) (set_store s a)
  else set_preview i (mkPreview ws Refused) a.

(** The destructor of [Lease] runs on every exit from the block. *)
Definition end_preview (i : nat) (ws : string) (exit : ParseExit) (a : WorkspaceActivation) :
    WorkspaceActivation :=
  set_preview i (mkPreview ws Ended) (set_store (unpin_entry ws (store a)) a).

Definition step (a : WorkspaceActivation) (st : Step) : WorkspaceActivation :=
  match st with
  | Begin ws => begin_open ws a
  | Pin i ok now =>
      match opens a !! i with
      | Some o => if bool_decide (phase o = Pinning) then pin i o ok now a else a
      | None => a
      end
  | Stage i ok now =>
      match opens a !! i with
      | Some (mkOpen _ Leased _ None false as o) => stage i o ok now a
      | _ => a
      end
  | Prepare i ex =>
      match opens a !! i with
      | Some (mkOpen _ Leased _ (Some (mkTransaction Staged _ as t)) false as o) =>
          prepare i o t ex a
      | _ => a
      end
  | Complete i =>
      match opens a !! i with
      | Some (mkOpen _ Leased _ (Some (mkTransaction Committed _ as t)) false as o) =>
          on_completed i o t a
      | _ => a
      end
  | Fail i ex =>
      match opens a !! i with
      | Some (mkOpen _ Leased _ (Some _) false as o) => on_failed i o ex a
      | _ => a
      end
  | Drop i ex =>
      match opens a !! i with
      | Some (mkOpen _ Leased _ _ _ as o) => drop_open i o ex a
      | _ => a
      end
  | CloseCompleted pub => close_completed pub a
  | StatusEmpty pub => status_empty pub a
  | StartPreview ws accepted => start_preview ws accepted a
  | PinPreview i ok now =>
      match previews a !! i with
      | Some (mkPreview ws Queued) => pin_preview i ws ok now a
      | _ => a
      end
  | EndPreview i exit =>
      match previews a !! i with
      | Some (mkPreview ws Parsing) => end_preview i ws exit a
      | _ => a
      end
  | Publish d t r size count id now =>
      set_store (publish_revision d t r size count id now (store a)).1 a
  | Erase id removed => set_store (Store.erase id removed (store a)).1 a
  | Prune now removed => set_store (prune_expired now removed (store a)) a
  end.

Definition run (a : WorkspaceActivation) (l : list Step) : WorkspaceActivation := foldl step a l.

(** The daemon after startup: no program open, the recovered workspaces pinned. *)
Definition started (l : WorkspaceLimits) (scanned : list (string * (Z * Z * Z)))
    (act : option string) (next : list (option string)) : WorkspaceActivation :=
  mkActivation (load l scanned act next) None false (loaded_link l scanned act) [] [].

(** ** Pins *)

Definition held (s : ProgramWorkspaceStore) (id : string) : nat := default 0%nat (pins s id).

Definition open_pins (id : string) (o : Open) : nat :=
  match phase o with
  | Leased => if release o && bool_decide (workspace o = id) then 1 else 0
  | _ => 0
  end.
Definition active_pins (id : string) (act : option string) : nat :=
  match act with Some ws => if bool_decide (ws = id) then 1 else 0 | None => 0 end.
Definition recovered_pins (id : string) (r : gset string) : nat :=
  if bool_decide (id ∈ r) then 1 else 0.

Definition preview_pins (id : string) (p : Preview) : nat :=
  match task p with
  | Parsing => if bool_decide (workspace_id p = id) then 1 else 0
  | _ => 0
  end.

(** Who holds a pin on a workspace: leases of pending opens, the active program,
    leases recovered at startup, and leases of previews being parsed. *)
Definition holders (a : WorkspaceActivation) (id : string) : nat :=
  (sum_list_with (open_pins id) (opens a) + active_pins id (active a)
   + recovered_pins id (recovered_leases (store a))
   + sum_list_with (preview_pins id) (previews a))%nat.

Definition accounted (a : WorkspaceActivation) : Prop :=
  forall id, held (store a) id = holders a id.

Lemma recovered_pins_empty id : recovered_pins id ∅ = 0%nat.
Proof. unfold recovered_pins. by rewrite bool_decide_eq_false_2 by set_solver. Qed.

Lemma sum_list_with_replace {A} (f : A -> nat) (l : list A) i x y :
  l !! i = Some x -> (sum_list_with f (<[i := y]> l) + f x = sum_list_with f l + f y)%nat.
Proof.
  intros H. rewrite (list_insert_split _ _ _ y H). rewrite (list_split_at l i x H) at 3.
  rewrite !sum_list_with_app. cbn. lia.
Qed.

Lemma held_insert id id' w s :
  held (set_workspaces (<[id' := w]> (workspaces s)) s) id =
  if bool_decide (id = id') then leases w else held s id.
Proof.
  unfold held, pins, set_workspaces. cbn. case_bool_decide as E.
  - subst. by rewrite lookup_insert_eq.
  - by rewrite lookup_insert_ne.
Qed.

Lemma held_pin id ws ok now s s' b :
  pin_entry ws ok now s = (s', b) ->
  recovered_leases s' = recovered_leases s
  /\ held s' id = (held s id + if b && bool_decide (id = ws) then 1 else 0)%nat.
Proof.
  unfold pin_entry. destruct (valid_id ws); cbn [negb]; [|intros [= <- <-]; split; [done|cbn; lia]].
  destruct (workspaces s !! ws) as [w|] eqn:E; [|intros [= <- <-]; split; [done|cbn; lia]].
  destruct (_ || _); intros [= <- <-]; (split; [done|]); [cbn; lia|].
  rewrite held_insert. cbn. case_bool_decide as Ei; [|lia]. subst.
  unfold held, pins. rewrite E. cbn. lia.
Qed.

Lemma held_unpin id ws s :
  recovered_leases (unpin_entry ws s) = recovered_leases s
  /\ held (unpin_entry ws s) id = (held s id - if bool_decide (id = ws) then 1 else 0)%nat.
Proof.
  unfold unpin_entry. destruct (workspaces s !! ws) as [w|] eqn:E.
  - destruct (Nat.eqb_spec (leases w) 0) as [Hz|Hz].
    + split; [done|]. case_bool_decide; [|lia]. subst. unfold held, pins. rewrite E. cbn. lia.
    + split; [done|]. rewrite held_insert. cbn. case_bool_decide as Ei; [|lia]. subst.
      unfold held, pins. rewrite E. cbn. lia.
  - split; [done|]. case_bool_decide; [|lia]. subst. unfold held, pins. by rewrite E.
Qed.

Lemma held_release id s :
  recovered_leases (release_recovered_leases s).1 = ∅
  /\ held (release_recovered_leases s).1 id
     = (held s id - recovered_pins id (recovered_leases s))%nat.
Proof.
  split; [done|]. unfold held, pins, release_recovered_leases, recovered_pins. cbn.
  rewrite map_lookup_imap. destruct (workspaces s !! id) as [w|]; cbn; [|by case_bool_decide].
  case_bool_decide; cbn; lia.
Qed.

Lemma held_publish id d t r size count ws now s :
  recovered_leases (publish_revision d t r size count ws now s).1 = recovered_leases s
  /\ held (publish_revision d t r size count ws now s).1 id = held s id.
Proof.
  unfold publish_revision. destruct (_ || _); [done|]. destruct (_ || _); [done|].
  destruct t; [|done]. destruct r; [|done..]. cbn. split; [done|].
  destruct (workspaces s !! ws) as [w|] eqn:E.
  - by unfold held, pins, set_workspaces.
  - rewrite held_insert. case_bool_decide; [|done]. subst. unfold held, pins. by rewrite E.
Qed.

Lemma held_erase id ws removed s :
  recovered_leases (Store.erase ws removed s).1 = recovered_leases s
  /\ held (Store.erase ws removed s).1 id = held s id.
Proof.
  unfold Store.erase. destruct (valid_id ws); [|done]. cbn [negb].
  destruct (workspaces s !! ws) as [w|] eqn:E; [|done].
  destruct (Nat.eqb_spec (leases w) 0) as [Hz|]; cbn; [|done]. destruct removed; cbn; [|done].
  split; [done|]. unfold held, pins, set_workspaces. cbn. destruct (decide (id = ws)) as [->|].
  - rewrite lookup_delete_eq, E. cbn. by rewrite Hz.
  - by rewrite lookup_delete_ne.
Qed.

Lemma held_prune id now removed s :
  recovered_leases (prune_expired now removed s) = recovered_leases s
  /\ held (prune_expired now removed s) id = held s id.
Proof.
  split; [done|]. unfold held, pins, prune_expired, set_workspaces. cbn.
  destruct (workspaces s !! id) as [w|] eqn:E.
  - destruct (prunable now removed id w) eqn:Ep.
    + rewrite (map_lookup_filter_None_2 _ _ _) by (right; intros w' Hw; cbn; congruence).
      unfold prunable in Ep. bool_to_prop. cbn. lia.
    + by rewrite (map_lookup_filter_Some_2 _ _ _ w).
  - by rewrite map_lookup_filter_None_2 by by left.
Qed.

(** The store changes, the pins of [id] and the recovered set do not. *)
Lemma accounted_store s a :
  accounted a -> recovered_leases s = recovered_leases (store a) ->
  (forall id, held s id = held (store a) id) -> accounted (set_store s a).
Proof.
  intros Ha Hr Hh id. unfold holders. cbn. rewrite Hh, Hr. apply Ha.
Qed.

(** An open command is replaced by one that holds the same pins. *)
Lemma accounted_open i o o' op l a :
  accounted a -> opens a !! i = Some o -> (forall id, open_pins id o' = open_pins id o) ->
  accounted (mkActivation (store a) (active a) op l (<[i := o']> (opens a)) (previews a)).
Proof.
  intros Ha Ho He id. specialize (Ha id). unfold holders in *. cbn.
  pose proof (sum_list_with_replace (open_pins id) (opens a) i o o' Ho) as Hs.
  rewrite He in Hs. lia.
Qed.

Lemma accounted_pin i o ok now a :
  accounted a -> opens a !! i = Some o -> phase o = Pinning -> accounted (pin i o ok now a).
Proof.
  intros Ha Ho Hp. unfold pin.
  destruct (pin_entry (workspace o) ok now (store a)) as [s b] eqn:Es.
  destruct b.
  - intros id. specialize (Ha id). unfold holders in *. cbn.
    destruct (held_pin id _ _ _ _ _ _ Es) as [-> ->].
    pose proof (sum_list_with_replace (open_pins id) (opens a) i o
      (mkOpen (workspace o) Leased true None false) Ho) as Hs.
    unfold open_pins at 2 4 in Hs. rewrite Hp in Hs. cbn in Hs. cbn [andb].
    rewrite (bool_decide_ext (id = workspace o) (workspace o = id)) by done. lia.
  - refine (accounted_open i o (mkOpen (workspace o) Gone true None false) false (link a) a Ha Ho _).
    intros id. unfold open_pins. by rewrite Hp.
Qed.

(** The task of a preview starts or ends, with the pin it takes or gives back. *)
Lemma accounted_pin_preview i ws ok now a :
  accounted a -> previews a !! i = Some (mkPreview ws Queued) ->
  accounted (pin_preview i ws ok now a).
Proof.
  intros Ha Hi. unfold pin_preview.
  destruct (pin_entry ws ok now (store a)) as [s b] eqn:Es.
  destruct b; intros id; specialize (Ha id); unfold holders in *; cbn.
  - destruct (held_pin id _ _ _ _ _ _ Es) as [-> ->].
    pose proof (sum_list_with_replace (preview_pins id) _ i _ (mkPreview ws Parsing) Hi) as Hs.
    unfold preview_pins at 2 4 in Hs. cbn in Hs. cbn [andb].
    rewrite (bool_decide_ext (id = ws) (ws = id)) by done. lia.
  - pose proof (sum_list_with_replace (preview_pins id) _ i _ (mkPreview ws Refused) Hi) as Hs.
    unfold preview_pins at 2 4 in Hs. cbn in Hs. lia.
Qed.

Lemma accounted_end_preview i ws exit a :
  accounted a -> previews a !! i = Some (mkPreview ws Parsing) ->
  accounted (end_preview i ws exit a).
Proof.
  intros Ha Hi id. specialize (Ha id). unfold holders, end_preview in *. cbn.
  pose proof (sum_list_with_replace (preview_pins id) _ i _ (mkPreview ws Ended) Hi) as Hs.
  unfold preview_pins at 2 4 in Hs. cbn in Hs.
  destruct (held_unpin id ws (store a)) as [-> ->].
  rewrite (bool_decide_ext (id = ws) (ws = id)) by done. lia.
Qed.

(** The active program lets go of its pin, the recovered leases are released. *)
Lemma accounted_release a id :
  accounted a ->
  (held (match active a with
         | Some old => unpin_entry old (release_recovered_leases (store a)).1
         | None => (release_recovered_leases (store a)).1
         end) id = sum_list_with (open_pins id) (opens a)
                   + sum_list_with (preview_pins id) (previews a))%nat
  /\ recovered_leases (match active a with
         | Some old => unpin_entry old (release_recovered_leases (store a)).1
         | None => (release_recovered_leases (store a)).1
         end) = ∅.
Proof.
  intros Ha. specialize (Ha id). unfold holders in Ha.
  destruct (held_release id (store a)) as [Hr Hh].
  destruct (active a) as [old|].
  - destruct (held_unpin id old (release_recovered_leases (store a)).1) as [Hr' Hh'].
    rewrite Hr', Hr, Hh', Hh. split; [|done]. unfold active_pins in Ha.
    rewrite (bool_decide_ext (id = old) (old = id)) by done. lia.
  - rewrite Hr, Hh. split; [|done]. cbn in Ha. lia.
Qed.

Lemma accounted_completed i o t a :
  accounted a -> opens a !! i = Some o -> phase o = Leased -> release o = true ->
  accounted (on_completed i o t a).
Proof.
  intros Ha Ho Hp Hrel. unfold on_completed. case_bool_decide as Hact.
  - intros id. specialize (Ha id). unfold holders in *. cbn [store opens active previews].
    destruct (held_release id (store a)) as [Hr Hh]. rewrite Hh, Hr.
    pose proof (sum_list_with_replace (open_pins id) (opens a) i o
      (mkOpen (workspace o) (phase o) true (Some (Transaction.complete t)) true) Ho) as Hs.
    unfold open_pins at 2 4 in Hs. rewrite Hrel in Hs. cbn in Hs.
    rewrite recovered_pins_empty. lia.
  - intros id. destruct (accounted_release a id Ha) as [Hh Hr]. unfold holders. cbn [store opens active previews].
    rewrite Hh, Hr.
    pose proof (sum_list_with_replace (open_pins id) (opens a) i o
      (mkOpen (workspace o) (phase o) false (Some (Transaction.complete t)) true) Ho) as Hs.
    unfold open_pins at 2 4 in Hs. rewrite Hp, Hrel in Hs. cbn in Hs.
    cbn [active_pins]. rewrite recovered_pins_empty. rewrite Hp in *. lia.
Qed.

Lemma accounted_drop i o ex a :
  accounted a -> opens a !! i = Some o -> phase o = Leased -> accounted (drop_open i o ex a).
Proof.
  intros Ha Ho Hp id. specialize (Ha id). unfold holders, drop_open in *. cbn.
  pose proof (sum_list_with_replace (open_pins id) (opens a) i o
    (mkOpen (workspace o) Gone (release o) None (decided o)) Ho) as Hs.
  unfold open_pins at 2 4 in Hs. rewrite Hp in Hs. cbn in Hs.
  destruct (release o); cbn in Hs; [|lia].
  destruct (held_unpin id (workspace o) (store a)) as [-> ->].
  rewrite (bool_decide_ext (id = workspace o) (workspace o = id)) by done. lia.
Qed.

Lemma accounted_step a st :
  accounted a -> (forall i o, opens a !! i = Some o -> decided o = false -> release o = true) ->
  accounted (step a st).
Proof.
  intros Ha Hrel. destruct st; cbn [step].
  - unfold begin_open. destruct (_ || _); [done|]. intros id. specialize (Ha id).
    unfold holders in *. cbn. rewrite sum_list_with_app. cbn. lia.
  - destruct (opens a !! i) as [o|] eqn:Ho; [|done]. case_bool_decide; [|done].
    by apply accounted_pin.
  - destruct (opens a !! i) as [[ws [] r [t|] []]|] eqn:Ho; try done. unfold stage.
    destruct (can_stage _ _ _ _); [|done].
    by refine (accounted_open i _ _ (opening a) (link a) a Ha Ho _).
  - destruct (opens a !! i) as [[ws [] r [[[] st]|] []]|] eqn:Ho; try done. unfold prepare.
    destruct (commit _ _ _) as [[t' l] b].
    by refine (accounted_open i _ _ (opening a) l a Ha Ho _).
  - destruct (opens a !! i) as [[ws [] r [[[] st]|] []]|] eqn:Ho; try done.
    apply accounted_completed; try done. by apply (Hrel i _ Ho).
  - destruct (opens a !! i) as [[ws [] r [t|] []]|] eqn:Ho; try done. unfold on_failed. cbn.
    destruct (Transaction.rollback _ _ _) as [t' l].
    by refine (accounted_open i _ _ (opening a) l a Ha Ho _).
  - destruct (opens a !! i) as [[ws [] r t d]|] eqn:Ho; try done. by apply accounted_drop.
  - intros id. destruct (accounted_release a id Ha) as [Hh Hr].
    unfold holders, close_completed. cbn [store opens active previews].
    rewrite Hh, Hr, recovered_pins_empty. cbn. lia.
  - unfold status_empty. destruct (opening a); [done|].
    destruct (release_recovered_leases (store a)) as [s rec] eqn:Es.
    intros id. destruct (accounted_release a id Ha) as [Hh Hr]. rewrite Es in Hh, Hr.
    unfold holders. destruct (active a); cbn [store opens active previews fst] in *;
      rewrite Hh, Hr, recovered_pins_empty; cbn; lia.
  - unfold start_preview. destruct accepted; [|done]. intros id. specialize (Ha id).
    unfold holders in *. cbn. rewrite sum_list_with_app. cbn. lia.
  - destruct (previews a !! i) as [[ws []]|] eqn:Hi; try done. by apply accounted_pin_preview.
  - destruct (previews a !! i) as [[ws []]|] eqn:Hi; try done. by apply accounted_end_preview.
  - apply accounted_store; [done|apply (held_publish EmptyString)|]. intros. apply held_publish.
  - apply accounted_store; [done|apply (held_erase EmptyString)|]. intros. apply held_erase.
  - apply accounted_store; [done|done|]. intros. apply held_prune.
Qed.

(** An undecided open still owns its pin. *)
Definition owns (o : Open) : Prop := decided o = false -> release o = true.

(** What a step does to the open commands: at most one is appended or replaced. *)
Lemma step_opens a st :
  opens (step a st) = opens a
  \/ (exists ws, st = Begin ws /\ opening a = false
       /\ opens (step a st) = opens a ++ [mkOpen ws Pinning true None false])
  \/ exists i o o', opens a !! i = Some o /\ opens (step a st) = <[i := o']> (opens a)
       /\ (owns o -> owns o') /\ phase o <> Gone.
Proof.
  destruct st; cbn [step]; try (by left).
  - unfold begin_open. destruct (opening a) eqn:Eo; [by left; rewrite orb_true_r|].
    rewrite orb_false_r. case_bool_decide; [by left|]. right. left. by exists ws.
  - destruct (opens a !! i) as [o|] eqn:Ho; [|by left]. case_bool_decide as Hp; [|by left].
    right. right. unfold pin. destruct (pin_entry _ _ _ _) as [s []]; cbn;
      (do 3 eexists; split_and!; [exact Ho|reflexivity|done|by rewrite Hp]).
  - destruct (opens a !! i) as [[ws [] r [t|] []]|] eqn:Ho; try (by left). unfold stage.
    destruct (can_stage _ _ _ _); [|by left]. right. right.
    do 3 eexists. by split_and!; [exact Ho|reflexivity|..].
  - destruct (opens a !! i) as [[ws [] r [[[] st]|] []]|] eqn:Ho; try (by left). unfold prepare.
    destruct (commit _ _ _) as [[t' l] b]. right. right.
    do 3 eexists. by split_and!; [exact Ho|reflexivity|..].
  - destruct (opens a !! i) as [[ws [] r [[[] st]|] []]|] eqn:Ho; try (by left).
    right. right. unfold on_completed.
    case_bool_decide; (do 3 eexists; by split_and!; [exact Ho|reflexivity|..]).
  - destruct (opens a !! i) as [[ws [] r [t|] []]|] eqn:Ho; try (by left). unfold on_failed. cbn.
    destruct (Transaction.rollback _ _ _) as [t' l]. right. right.
    do 3 eexists. by split_and!; [exact Ho|reflexivity|..].
  - destruct (opens a !! i) as [[ws [] r t d]|] eqn:Ho; try (by left). right. right.
    do 3 eexists. by split_and!; [exact Ho|reflexivity|..].
  - left. unfold status_empty. destruct (opening a); [done|].
    destruct (release_recovered_leases (store a)). by destruct (active a).
  - left. unfold start_preview. by destruct accepted.
  - left. destruct (previews a !! i) as [[ws []]|]; try done. unfold pin_preview.
    by destruct (pin_entry _ _ _ _) as [s []].
  - left. by destruct (previews a !! i) as [[ws []]|].
Qed.

Lemma owns_step a st : Forall owns (opens a) -> Forall owns (opens (step a st)).
Proof.
  intros H. destruct (step_opens a st) as [->|[(ws & _ & _ & ->)|(i & o & o' & Ho & -> & Hw & _)]].
  - done.
  - apply Forall_app. split; [done|]. by apply Forall_singleton.
  - apply Forall_insert; [done|]. apply Hw. by eapply Forall_lookup_1.
Qed.

Lemma accounted_run a l :
  accounted a -> Forall owns (opens a) -> accounted (run a l).
Proof.
  unfold run. revert a. induction l as [|st l IH]; intros a Ha Ho; [done|]. cbn. apply IH.
  - apply accounted_step; [done|]. intros i o Hi. by apply (Forall_lookup_1 _ _ _ _ Ho Hi).
  - by apply owns_step.
Qed.

Lemma owns_run a l : Forall owns (opens a) -> Forall owns (opens (run a l)).
Proof.
  unfold run. revert a. induction l as [|st l IH]; intros a Ho; [done|]. by apply IH, owns_step.
Qed.

(** ** Serialization

    Steps that keep activations apart: an open begins only when the closures of
    the previous one are gone, the exchange of a rollback succeeds, and a
    program close completes (and publishes the empty directory) only when no
    open has published its revision yet. *)
Definition lingering (o : Open) : bool := bool_decide (phase o = Leased) && decided o.
Definition published (o : Open) : bool :=
  bool_decide (phase o = Leased) && negb (decided o)
  && match transaction o with Some (mkTransaction Committed _) => true | _ => false end.

Definition well_timed (a : WorkspaceActivation) (st : Step) : bool :=
  match st with
  | Begin _ => forallb (fun o => negb (lingering o)) (opens a)
  | Fail _ ex | Drop _ ex => ex
  | CloseCompleted pub => pub && forallb (fun o => negb (published o)) (opens a)
  | StatusEmpty pub => pub
  | _ => true
  end.

Fixpoint well_timed_run (a : WorkspaceActivation) (l : list Step) : bool :=
  match l with [] => true | st :: l' => well_timed a st && well_timed_run (step a st) l' end.

Definition others_gone (i : nat) (l : list Open) : Prop :=
  forall j o, j <> i -> l !! j = Some o -> phase o = Gone.

(** The one open in progress, the active link and the active workspace. *)
Definition in_progress (o : Open) (a : WorkspaceActivation) : Prop :=
  match phase o, transaction o, decided o with
  | Pinning, None, false | Leased, None, false => opening a = true /\ link a = active a
  | Leased, Some (mkTransaction Staged target), false =>
      opening a = true /\ link a = active a /\ target = Some (workspace o)
  | Leased, Some (mkTransaction Committed old), false =>
      opening a = true /\ link a = Some (workspace o) /\ old = active a
  | Leased, Some (mkTransaction (Staged | Completed | RolledBack) _), true => link a = active a
  | _, _, _ => False
  end.

Definition at_rest (a : WorkspaceActivation) : Prop :=
  Forall (fun o => phase o = Gone) (opens a) /\ opening a = false /\ link a = active a.

Definition serialized (a : WorkspaceActivation) : Prop :=
  at_rest a
  \/ exists i o, opens a !! i = Some o /\ others_gone i (opens a) /\ in_progress o a.

Lemma others_gone_insert i o l : others_gone i l -> others_gone i (<[i := o]> l).
Proof. intros H j o' Hj. rewrite list_lookup_insert_ne by done. by apply H. Qed.

Lemma all_gone_insert i o l :
  phase o = Gone -> others_gone i l -> Forall (fun o => phase o = Gone) (<[i := o]> l).
Proof.
  intros Ho H. apply Forall_lookup. intros j x Hj. destruct (decide (j = i)) as [->|Hne].
  - apply list_lookup_insert_Some in Hj as [(_ & <- & _)|[? _]]; done.
  - rewrite list_lookup_insert_ne in Hj by done. by eapply H.
Qed.

(** The open of a step is the one in progress. *)
Lemma serialized_at i o a :
  serialized a -> opens a !! i = Some o -> phase o <> Gone ->
  others_gone i (opens a) /\ in_progress o a.
Proof.
  intros [(Hg & _)|(j & o' & Hj & Hot & Hin)] Hi Hp.
  - rewrite Forall_lookup in Hg. destruct (Hp (Hg i o Hi)).
  - destruct (decide (i = j)) as [->|Hne]; [|destruct (Hp (Hot i o Hne Hi))].
    rewrite Hj in Hi. by injection Hi as <-.
Qed.

(** The open in progress is replaced. *)
Lemma serialized_replace i o o' a a' :
  opens a !! i = Some o -> others_gone i (opens a) -> opens a' = <[i := o']> (opens a) ->
  in_progress o' a' -> serialized a'.
Proof.
  intros Hi Hot Ho Hin. right. exists i, o'. rewrite Ho. split_and!; [|by apply others_gone_insert|done].
  apply list_lookup_insert_eq. by eapply lookup_lt_Some.
Qed.

Lemma serialized_finished i o a a' :
  others_gone i (opens a) -> phase o = Gone -> opens a' = <[i := o]> (opens a) ->
  opening a' = false -> link a' = active a' -> serialized a'.
Proof. intros Hot Hp Ho Hop Hl. left. split_and!; [|done|done]. rewrite Ho. by apply all_gone_insert. Qed.

(** Activation and link change together while nothing is published. *)
Lemma serialized_relink a a' :
  serialized a -> opens a' = opens a -> link a' = active a' ->
  (opening a' = opening a) -> forallb (fun o => negb (published o)) (opens a) = true ->
  serialized a'.
Proof.
  intros Hs Ho Hl Hop Hn. destruct Hs as [(Hg & Hf & _)|(i & o & Hi & Hot & Hin)].
  - left. split_and!; rewrite ?Ho; congruence.
  - right. exists i, o. rewrite Ho. split_and!; [done|done|].
    assert (Hnp : published o = false).
    { rewrite forallb_forall in Hn. apply negb_true_iff, Hn. apply list_elem_of_In.
      by eapply list_elem_of_lookup_2. }
    unfold in_progress, published in *. destruct o as [ws [] r [[[] t]|] []]; cbn in *;
      try done; try (by destruct Hin as (? & ? & ?); split_and!; congruence);
      try (by destruct Hin; split; congruence).
Qed.

Lemma serialized_frame a a' :
  serialized a -> opens a' = opens a -> link a' = link a -> active a' = active a ->
  opening a' = opening a -> serialized a'.
Proof.
  intros [(?&?&?)|(i & o & Hi & Hot & Hin)] Ho Hl Ha Hop.
  - left. split_and!; rewrite ?Ho; congruence.
  - right. exists i, o. rewrite Ho. split_and!; try done. unfold in_progress in *.
    rewrite Hl, Ha, Hop. done.
Qed.

Lemma serialized_step a st : serialized a -> well_timed a st = true -> serialized (step a st).
Proof.
  intros Hs Hw. destruct st; cbn [step well_timed] in *;
    try (by apply (serialized_frame a)).
  - unfold begin_open. destruct (_ || opening a) eqn:Eb; [done|]. bool_to_prop.
    destruct Hs as [(Hg & _ & Hl)|(i & o & Hi & Hot & Hin)].
    + right. exists (length (opens a)), (mkOpen ws Pinning true None false). cbn. split_and!.
      * by rewrite lookup_app_r, Nat.sub_diag by done.
      * intros j o Hj [Ho|[Hj' _]]%lookup_snoc_Some; [|done].
        destruct Ho as [_ Ho]. rewrite Forall_lookup in Hg. by apply (Hg j).
      * done.
      * done.
    + exfalso. rewrite forallb_forall in Hw.
      assert (Hli : lingering o = false).
      { apply negb_true_iff, Hw, list_elem_of_In. by eapply list_elem_of_lookup_2. }
      unfold in_progress, lingering in *. destruct o as [w [] r [[[] t]|] []]; cbn in *;
        try done; destruct Hin; congruence.
  - destruct (opens a !! i) as [o|] eqn:Hi; [|done]. case_bool_decide as Hp; [|done].
    destruct (serialized_at i o a Hs Hi ltac:(congruence)) as [Hot Hin].
    unfold in_progress in Hin. rewrite Hp in Hin.
    destruct (transaction o); [done|]. destruct (decided o); [done|]. destruct Hin as [Hop Hl].
    unfold pin. destruct (pin_entry _ _ _ _) as [s []].
    + eapply (serialized_replace i o _ a); [done|done|reflexivity|]. by split.
    + by eapply (serialized_finished i _ a); [exact Hot| |reflexivity|reflexivity|exact Hl].
  - destruct (opens a !! i) as [[w [] r [t|] []]|] eqn:Hi; try done. unfold stage.
    destruct (can_stage _ _ _ _); [|done].
    destruct (serialized_at i _ a Hs Hi ltac:(done)) as [Hot [Hop Hl]].
    by eapply (serialized_replace i _ _ a); [done|done|reflexivity|].
  - destruct (opens a !! i) as [[w [] r [[[] tg]|] []]|] eqn:Hi; try done.
    destruct (serialized_at i _ a Hs Hi ltac:(done)) as [Hot (Hop & Hl & Ht)]. cbn in Ht.
    unfold prepare. cbn. destruct exchanged;
      (eapply (serialized_replace i _ _ a); [done|done|reflexivity|]); by split_and!.
  - destruct (opens a !! i) as [[w [] r [[[] old]|] []]|] eqn:Hi; try done.
    destruct (serialized_at i _ a Hs Hi ltac:(done)) as [Hot (Hop & Hl & Ht)]. cbn in Hl.
    unfold on_completed. case_bool_decide as Ha;
      (eapply (serialized_replace i _ _ a); [done|done|reflexivity|]); cbn in *; congruence.
  - destruct (opens a !! i) as [[w [] r [[ts old]|] []]|] eqn:Hi; try done.
    destruct (serialized_at i _ a Hs Hi ltac:(done)) as [Hot Hin]. subst exchanged.
    unfold on_failed, in_progress in *. cbn in *. destruct ts; try done;
      (eapply (serialized_replace i _ _ a); [done|done|reflexivity|]); cbn;
      destruct Hin as (? & ? & ?); congruence.
  - destruct (opens a !! i) as [[w [] r t d]|] eqn:Hi; try done.
    destruct (serialized_at i _ a Hs Hi ltac:(done)) as [Hot Hin]. subst exchanged.
    eapply (serialized_finished i _ a); [done| |reflexivity|done|]; [done|].
    unfold in_progress in Hin. cbn in *. destruct t as [[[] old]|], d; cbn; try done;
      destruct Hin as (? & ?); try done; naive_solver congruence.
  - apply andb_true_iff in Hw as [-> Hn]. by apply (serialized_relink a).
  - unfold status_empty. subst published0. destruct (opening a) eqn:Eo; [done|].
    destruct (release_recovered_leases (store a)) as [s rec].
    assert (Hn : forallb (fun o => negb (published o)) (opens a) = true /\ link a = active a).
    { destruct Hs as [(Hg & _ & Hl)|(i & o & Hi & Hot & Hin)].
      - split; [|done]. apply forallb_forall. intros o Hin%list_elem_of_In.
        rewrite Forall_forall in Hg. unfold published. by rewrite (Hg o Hin).
      - unfold in_progress in Hin. destruct o as [w [] r [[[] t]|] []]; cbn in Hin; try done;
          try (by destruct Hin; congruence);
          (split; [|done]; apply forallb_forall; intros x Hx%list_elem_of_In;
           apply list_elem_of_lookup in Hx as [j Hj]; destruct (decide (j = i)) as [->|Hne];
           [rewrite Hi in Hj; injection Hj as <-; done
           |unfold published; by rewrite (Hot j x Hne Hj)]). }
    destruct Hn as [Hn Hl]. destruct (active a) eqn:Ea.
    + by apply (serialized_relink a).
    + apply (serialized_relink a); try done. cbn. by destruct rec; rewrite ?Hl.
  - unfold start_preview. by destruct accepted; try apply (serialized_frame a).
  - destruct (previews a !! i) as [[ws []]|]; try done. unfold pin_preview.
    destruct (pin_entry _ _ _ _) as [s []]; by apply (serialized_frame a).
  - by destruct (previews a !! i) as [[ws []]|].
Qed.

Lemma serialized_run a l :
  serialized a -> well_timed_run a l = true -> serialized (run a l).
Proof.
  unfold run. revert a. induction l as [|st l IH]; intros a Hs Hw; [done|]. cbn in *.
  apply andb_true_iff in Hw as [Hst Hw]. by apply IH; [apply serialized_step|].
Qed.

(** ** Theorems *)

Lemma held_lookup s id : (0 < held s id)%nat -> is_Some (workspaces s !! id).
Proof. unfold held, pins. destruct (workspaces s !! id); cbn; [done|lia]. Qed.

Lemma sum_list_with_elem {A} (f : A -> nat) (l : list A) i x :
  l !! i = Some x -> (f x <= sum_list_with f l)%nat.
Proof. intros H. rewrite (list_split_at l i x H), sum_list_with_app. cbn. lia. Qed.

Lemma sum_list_with_zero {A} (f : A -> nat) (l : list A) :
  Forall (fun x => f x = 0%nat) l -> sum_list_with f l = 0%nat.
Proof. induction 1; cbn; lia. Qed.

(** Startup: exactly the recovered workspaces are pinned, once each. *)
Lemma held_recover s target id :
  (forall id, held s id = recovered_pins id (recovered_leases s)) ->
  held (recover s target) id = recovered_pins id (recovered_leases (recover s target)).
Proof.
  intros H. unfold recover. destruct (linked_workspace_id target s) as [ws|] eqn:El; [|done].
  case_bool_decide as Hin; [done|]. pose proof (H ws) as Hws.
  unfold held, pins, recovered_pins in *. cbn. destruct (decide (id = ws)) as [->|Hne].
  - rewrite lookup_alter_eq, (bool_decide_eq_true_2 (ws ∈ _)) by set_solver.
    rewrite bool_decide_eq_false_2 in Hws by done.
    unfold linked_workspace_id in El. destruct target as [t|]; [|done].
    destruct (valid_id t); [|done]. case_bool_decide as Hs; [|done]. injection El as ->.
    destruct Hs as [w Hw]. rewrite Hw in *. cbn in *. by rewrite Hws.
  - rewrite lookup_alter_ne by done. rewrite H.
    by rewrite (bool_decide_ext (id ∈ {[ws]} ∪ recovered_leases s) (id ∈ recovered_leases s))
      by set_solver.
Qed.

Lemma scan_unpinned scanned id w :
  foldl scan ∅ scanned !! id = Some w -> leases w = 0%nat.
Proof.
  assert (Hm : forall m : gmap string Workspace,
    (forall id w, m !! id = Some w -> leases w = 0%nat) ->
    forall id w, foldl scan m scanned !! id = Some w -> leases w = 0%nat).
  { induction scanned as [|[ws [[t sz] c]] l IH]; intros m Hm; [done|]. cbn. apply IH.
    intros i v. destruct (valid_id ws); [|by apply Hm]. destruct (m !! ws) eqn:E; [by apply Hm|].
    intros [[<- <-]|[_ Hv]]%lookup_insert_Some; [done|by eapply Hm]. }
  by apply Hm.
Qed.

Lemma held_load l scanned act next id :
  held (load l scanned act next) id = recovered_pins id (recovered_leases (load l scanned act next)).
Proof.
  unfold load. revert id.
  assert (Hf : forall links s, (forall id, held s id = recovered_pins id (recovered_leases s)) ->
    forall id, held (foldl recover s links) id
               = recovered_pins id (recovered_leases (foldl recover s links))).
  { induction links as [|t links IH]; intros s H; [done|]. cbn. apply IH.
    intros id. by apply held_recover. }
  apply Hf. intros id. cbn. rewrite recovered_pins_empty. unfold held, pins. cbn.
  destruct (_ !! id) eqn:E; [|done]. by apply scan_unpinned in E.
Qed.

Lemma accounted_started l scanned act next : accounted (started l scanned act next).
Proof. intros id. unfold holders, started. cbn [store opens active previews].
  rewrite held_load. cbn. lia. Qed.

Lemma erase_unpinned id s :
  valid_id id = true -> is_Some (workspaces s !! id) -> held s id = 0%nat ->
  (Store.erase id true s).2 = true.
Proof.
  intros Hv [w Hw] Hh. unfold held, pins in Hh. rewrite Hw in Hh. cbn in Hh.
  unfold Store.erase. by rewrite Hv, Hw, Hh.
Qed.

(** C39: From any recovered state of the store, however program opens, closes,
    uploads, deletions, expiry, status reconciliation and program previews
    interleave, the pin count of every workspace equals the number of its
    holders: pending opens that own a lease, the active program, a lease
    recovered at startup, and the previews that are being parsed.  So the active
    workspace and the workspaces of undecided opens and of running previews stay
    in the store, whatever is erased or pruned, and once nothing is open, the
    recovered leases are gone and every preview has left its parser (refused,
    cancelled, finished or failed), no pin is left: every workspace can be
    erased. *)
Theorem pins_accounted l scanned act next steps :
  let a := run (started l scanned act next) steps in
  (forall id, held (store a) id = holders a id)
  /\ (forall ws, active a = Some ws -> is_Some (workspaces (store a) !! ws))
  /\ (forall i o, opens a !! i = Some o -> phase o = Leased -> decided o = false ->
        is_Some (workspaces (store a) !! workspace o))
  /\ (forall i p, previews a !! i = Some p -> task p = Parsing ->
        is_Some (workspaces (store a) !! workspace_id p))
  /\ (Forall (fun o => phase o = Gone) (opens a) -> active a = None ->
        recovered_leases (store a) = ∅ -> Forall (fun p => task p <> Parsing) (previews a) ->
        forall id, valid_id id = true -> is_Some (workspaces (store a) !! id) ->
        (Store.erase id true (store a)).2 = true).
Proof.
  intros a.
  assert (Ha : accounted a) by by apply accounted_run; [apply accounted_started|].
  assert (Hown : Forall owns (opens a)) by by apply owns_run.
  split_and!; [done|..].
  - intros ws Hws. apply held_lookup. rewrite Ha. unfold holders, active_pins. rewrite Hws.
    rewrite bool_decide_eq_true_2 by done. lia.
  - intros i o Hi Hp Hd. apply held_lookup. rewrite Ha. unfold holders.
    pose proof (sum_list_with_elem (open_pins (workspace o)) _ _ _ Hi) as Hle.
    unfold open_pins at 1 in Hle. rewrite Hp, (Forall_lookup_1 _ _ _ _ Hown Hi Hd) in Hle.
    rewrite bool_decide_eq_true_2 in Hle by done. cbn in Hle. lia.
  - intros i p Hi Hp. apply held_lookup. rewrite Ha. unfold holders.
    pose proof (sum_list_with_elem (preview_pins (workspace_id p)) _ _ _ Hi) as Hle.
    unfold preview_pins at 1 in Hle. rewrite Hp, bool_decide_eq_true_2 in Hle by done. lia.
  - intros Hg Hn Hr Hv id Hi Hid. apply erase_unpinned; [done|done|]. rewrite Ha. unfold holders.
    rewrite Hn, Hr, recovered_pins_empty, !sum_list_with_zero; [done|..].
    + eapply Forall_impl; [exact Hv|]. cbn. intros p Hp. unfold preview_pins.
      destruct (task p) eqn:Et; [done| |done..]. by destruct Hp.
    + eapply Forall_impl; [exact Hg|]. intros o Ho. unfold open_pins. by rewrite Ho.
Qed.

(** Two opens in progress are the same one. *)
Lemma serialized_unique a i j o o' :
  serialized a -> opens a !! i = Some o -> opens a !! j = Some o' ->
  phase o <> Gone -> phase o' <> Gone -> i = j.
Proof.
  intros Hs Hi Hj Hp Hp'. destruct (serialized_at i o a Hs Hi Hp) as [Hot _].
  destruct (decide (j = i)) as [->|Hne]; [done|]. destruct (Hp' (Hot j o' Hne Hj)).
Qed.

Lemma serialized_published a i o :
  serialized a -> opens a !! i = Some o -> published o = true ->
  link a = Some (workspace o) /\ link (step a (Fail i true)) = active a.
Proof.
  intros Hs Hi Hp. unfold published in Hp.
  destruct o as [ws [] r [[[] old]|] []]; try done.
  destruct (serialized_at i _ a Hs Hi ltac:(done)) as [_ (_ & Hl & Ho)]. split; [done|].
  cbn [step]. rewrite Hi. unfold on_failed. cbn. congruence.
Qed.

Lemma serialized_link a :
  serialized a -> (forall i o, opens a !! i = Some o -> published o = false) -> link a = active a.
Proof.
  intros [(_ & _ & Hl)|(i & o & Hi & _ & Hin)] Hn; [done|]. specialize (Hn i o Hi).
  unfold in_progress, published in *. destruct o as [ws [] r [[[] t]|] []]; cbn in *;
    try done; by destruct Hin as (? & ?); try done; naive_solver.
Qed.

(** As long as an open begins only after the closures of the previous one
    are destroyed, rollbacks and the empty link can be published, and no program
    close completes while an open has published its revision, at most one open
    is in progress; the active program link then refers to the revision that
    open published, whose failure would restore the active workspace, and
    otherwise to exactly the active workspace (the empty directory when there
    is none). *)
Theorem activation_serialized l scanned next steps :
  well_timed_run (started l scanned None next) steps = true ->
  let a := run (started l scanned None next) steps in
  (forall i j o o', opens a !! i = Some o -> opens a !! j = Some o' ->
     phase o <> Gone -> phase o' <> Gone -> i = j)
  /\ (forall i o, opens a !! i = Some o -> published o = true ->
        link a = Some (workspace o) /\ link (step a (Fail i true)) = active a)
  /\ ((forall i o, opens a !! i = Some o -> published o = false) -> link a = active a).
Proof.
  intros Hw a. assert (Hs : serialized a) by (apply serialized_run; [by left|done]).
  split_and!; intros.
  - by eapply serialized_unique.
  - by apply serialized_published.
  - by apply serialized_link.
Qed.

(** ** Quotas *)

(** The sizes of the workspaces, whatever their leases, and their exact sum. *)
Definition usage (m : gmap string Workspace) : gmap string (Z * Z) :=
  (fun w => (bytes w, entries w)) <$> m.
Definition sum_bytes (u : gmap string (Z * Z)) : Z := map_fold (fun _ e acc => acc + e.1) 0 u.

Definition entry_fits (l : WorkspaceLimits) (e : Z * Z) : Prop :=
  0 <= e.1 <= max_workspace_bytes l /\ 0 <= e.2 <= max_entries_per_workspace l.

Definition within (l : WorkspaceLimits) (u : gmap string (Z * Z)) : Prop :=
  (base.size u <= max_workspaces l)%nat /\ sum_bytes u <= max_total_bytes l
  /\ map_Forall (fun _ => entry_fits l) u.

Definition within_limits (s : ProgramWorkspaceStore) : Prop := within (limits s) (usage (workspaces s)).

Lemma sum_bytes_insert id e u :
  u !! id = None -> sum_bytes (<[id := e]> u) = sum_bytes u + e.1.
Proof. intros H. unfold sum_bytes. rewrite map_fold_insert_L; [done| |done]. intros; lia. Qed.

Lemma sum_bytes_subseteq u u' :
  map_Forall (fun _ e => 0 <= e.1) u -> u' ⊆ u -> 0 <= sum_bytes u' <= sum_bytes u.
Proof.
  revert u'. induction u as [|id e u Hid IH] using map_ind; intros u' Hu Hsub.
  - assert (u' = ∅) as ->; [|done]. apply map_size_empty_inv.
    apply map_subseteq_size in Hsub. rewrite map_size_empty in Hsub. lia.
  - apply map_Forall_insert in Hu as [He Hu]; [|done]. rewrite sum_bytes_insert by done.
    assert (Hd : delete id u' ⊆ u).
    { rewrite <- (delete_insert_id u id e) by done. by apply delete_mono. }
    specialize (IH _ Hu Hd). destruct (u' !! id) as [e'|] eqn:E.
    + pose proof (lookup_weaken _ _ _ _ E Hsub) as Heq. rewrite lookup_insert_eq in Heq.
      injection Heq as <-. rewrite <- (insert_delete_id u' id e) by done.
      rewrite sum_bytes_insert by apply lookup_delete_eq. lia.
    + rewrite delete_id in IH by done. lia.
Qed.

Lemma within_nonneg l u : within l u -> map_Forall (fun _ e => 0 <= e.1) u.
Proof. intros (_ & _ & H). eapply map_Forall_impl; [exact H|]. intros id e [? _]. lia. Qed.

(** Removing workspaces keeps the limits. *)
Lemma within_subseteq l u u' : within l u -> u' ⊆ u -> within l u'.
Proof.
  intros Hw Hsub. pose proof (sum_bytes_subseteq u u' (within_nonneg l u Hw) Hsub) as Hs.
  destruct Hw as (Hn & Ht & Hf). split_and!.
  - etransitivity; [by apply map_subseteq_size|done].
  - lia.
  - intros id e He. apply (Hf id). by eapply lookup_weaken.
Qed.

(** The sum the code computes is exact. *)
Lemma total_size_exact l m :
  in_u64 (max_total_bytes l) -> within l (usage m) -> total_size_locked m = sum_bytes (usage m).
Proof.
  intros Hl Hw. pose proof (within_nonneg _ _ Hw) as Hn. destruct Hw as (_ & Ht & _).
  revert Hn Ht. induction m as [|id w m Hid IH] using map_ind; intros Hn Ht; [done|].
  unfold usage in *. rewrite fmap_insert in *.
  assert (Hid' : ((fun w => (bytes w, entries w)) <$> m) !! id = None) by by rewrite lookup_fmap, Hid.
  apply map_Forall_insert in Hn as [Hb Hn]; [|done]. rewrite sum_bytes_insert in * by done.
  cbn in *. specialize (IH Hn ltac:(lia)). unfold total_size_locked in *.
  pose proof (sum_bytes_subseteq _ ∅ Hn (map_empty_subseteq _)) as [_ Hp].
  rewrite map_fold_insert_L; [|intros; unfold u64_wrap; rewrite !Zplus_mod_idemp_l; f_equal; lia|done].
  rewrite IH. apply u64_wrap_small. unfold in_u64, sum_bytes in *. rewrite map_fold_empty in Hp. lia.
Qed.

Lemma usage_same id w w' m :
  m !! id = Some w -> bytes w' = bytes w -> entries w' = entries w ->
  usage (<[id := w']> m) = usage m.
Proof.
  intros H Hb He. unfold usage. rewrite fmap_insert. apply insert_id.
  by rewrite lookup_fmap, H, Hb, He.
Qed.

Lemma usage_unpin id s : usage (workspaces (unpin_entry id s)) = usage (workspaces s)
  /\ limits (unpin_entry id s) = limits s.
Proof.
  unfold unpin_entry. destruct (workspaces s !! id) as [w|] eqn:E; [|done].
  destruct (_ =? _)%nat; [done|]. split; [|done]. by apply (usage_same _ w).
Qed.

Lemma usage_release s :
  usage (workspaces (release_recovered_leases s).1) = usage (workspaces s).
Proof.
  apply map_eq. intros id. unfold usage. cbn. rewrite !lookup_fmap, map_lookup_imap.
  destruct (workspaces s !! id); cbn; [|done]. by case_bool_decide.
Qed.

Lemma within_pin id ok now s :
  within_limits s -> within_limits (pin_entry id ok now s).1.
Proof.
  unfold pin_entry. destruct (valid_id id); [|done]. cbn [negb].
  destruct (workspaces s !! id) as [w|] eqn:E; [|done]. destruct (_ || _); [done|].
  unfold within_limits. cbn. by rewrite (usage_same _ w).
Qed.

Lemma within_unpin id s : within_limits s -> within_limits (unpin_entry id s).
Proof. unfold within_limits. by destruct (usage_unpin id s) as [-> ->]. Qed.

Lemma within_release s : within_limits s -> within_limits (release_recovered_leases s).1.
Proof. unfold within_limits. by rewrite usage_release. Qed.

Lemma within_remove s m :
  m ⊆ workspaces s -> within_limits s -> within_limits (set_workspaces m s).
Proof. intros Hm Hw. eapply within_subseteq; [exact Hw|]. by apply map_fmap_mono. Qed.

Lemma within_publish d t r size count id now s :
  in_u64 (max_total_bytes (limits s)) -> 0 <= size -> 0 <= count ->
  within_limits s -> within_limits (publish_revision d t r size count id now s).1.
Proof.
  intros Hl Hsz Hc Hw. unfold publish_revision.
  destruct (negb d || _ || _) eqn:E1 in |- *; [done|].
  destruct (_ || _ || (_ <? total_size_locked _)) eqn:E2; [done|].
  destruct t; cbn [negb fst]; [|exact Hw]. destruct r; cbn [fst]; [|exact Hw..].
  destruct (workspaces s !! id) as [w|] eqn:E; [by destruct s|].
  rewrite (total_size_exact _ _ Hl Hw) in E2. destruct Hw as (Hn & Ht & Hf).
  rewrite !orb_false_iff in *. destruct E1 as [[_ Eb] Ee], E2 as [[En _] Et].
  apply Nat.leb_gt in En. apply Z.ltb_ge in Eb, Ee, Et.
  assert (Hid : usage (workspaces s) !! id = None) by (unfold usage; by rewrite lookup_fmap, E).
  unfold within_limits, within, set_workspaces. cbn [limits workspaces].
  unfold usage. rewrite fmap_insert. fold (usage (workspaces s)).
  split_and!.
  - rewrite map_size_insert_None by done. unfold usage. rewrite map_size_fmap. lia.
  - rewrite sum_bytes_insert by done. cbn. lia.
  - apply map_Forall_insert; [done|]. split; [|done]. split; cbn; lia.
Qed.

Lemma pin_limits id ok now s : limits (pin_entry id ok now s).1 = limits s.
Proof. unfold pin_entry. repeat case_match; done. Qed.

(** Releasing the recovered leases and the pin of the active program. *)
Lemma within_unpins (act : option string) s :
  within_limits s ->
  let s' := (release_recovered_leases s).1 in
  within_limits (match act with Some old => unpin_entry old s' | None => s' end)
  /\ limits (match act with Some old => unpin_entry old s' | None => s' end) = limits s.
Proof.
  intros Hw s'. assert (Hs : within_limits s') by by apply within_release.
  destruct act; [|done]. split; [by apply within_unpin|]. by rewrite (proj2 (usage_unpin _ s')).
Qed.

(** The environment reports sizes as [std::size_t]. *)
Definition sized (st : Step) : bool :=
  match st with Publish _ _ _ size count _ _ => (0 <=? size) && (0 <=? count) | _ => true end.

Lemma within_step a st :
  in_u64 (max_total_bytes (limits (store a))) -> sized st = true -> within_limits (store a) ->
  within_limits (store (step a st)) /\ limits (store (step a st)) = limits (store a).
Proof.
  intros Hl Hz Hw. destruct st; cbn [step sized] in *.
  - unfold begin_open. by destruct (_ || _).
  - destruct (opens a !! i) as [o|]; [|done]. case_bool_decide; [|done]. unfold pin.
    pose proof (within_pin (workspace o) entry_ok now (store a) Hw) as Hp.
    pose proof (pin_limits (workspace o) entry_ok now (store a)) as Hpl.
    by destruct (pin_entry _ _ _ _) as [s []].
  - destruct (opens a !! i) as [[ws [] r [t|] []]|]; try done. unfold stage.
    by destruct (can_stage _ _ _ _).
  - destruct (opens a !! i) as [[ws [] r [[[] st]|] []]|]; try done. unfold prepare.
    by destruct (commit _ _ _) as [[? ?] ?].
  - destruct (opens a !! i) as [[ws [] r [[[] st]|] []]|]; try done. unfold on_completed.
    case_bool_decide; cbn [store]; [split; [by apply within_release|done]|]. apply within_unpins, Hw.
  - destruct (opens a !! i) as [[ws [] r [t|] []]|]; try done. unfold on_failed. cbn.
    by destruct (Transaction.rollback _ _ _).
  - destruct (opens a !! i) as [[ws [] r t d]|]; try done. unfold drop_open. cbn.
    destruct r; [|done]. split; [by apply within_unpin|]. by apply usage_unpin.
  - apply within_unpins, Hw.
  - unfold status_empty. destruct (opening a); [done|].
    pose proof (within_unpins (active a) _ Hw) as Hu.
    destruct (release_recovered_leases (store a)) as [s rec]. by destruct (active a).
  - unfold start_preview. by destruct accepted.
  - destruct (previews a !! i) as [[ws []]|]; try done. unfold pin_preview.
    pose proof (within_pin ws entry_ok now (store a) Hw) as Hp.
    pose proof (pin_limits ws entry_ok now (store a)) as Hpl.
    by destruct (pin_entry _ _ _ _) as [s []].
  - destruct (previews a !! i) as [[ws []]|]; try done. unfold end_preview. cbn.
    split; [by apply within_unpin|]. by apply usage_unpin.
  - apply andb_true_iff in Hz as [Hs Hc]. cbn. apply Z.leb_le in Hs, Hc.
    split; [by apply within_publish|]. unfold publish_revision. repeat case_match; done.
  - cbn. unfold Store.erase. destruct (negb _); [done|]. destruct (workspaces _ !! _); [|done].
    destruct (negb _); [done|]. destruct removed; [|done]. split; [|done].
    apply within_remove; [apply delete_subseteq|done].
  - cbn. split; [|done]. apply within_remove; [apply map_filter_subseteq|done].
Qed.

Lemma within_run a l :
  in_u64 (max_total_bytes (limits (store a))) -> forallb sized l = true ->
  within_limits (store a) ->
  within_limits (store (run a l)) /\ limits (store (run a l)) = limits (store a).
Proof.
  unfold run. revert a. induction l as [|st l IH]; intros a Hl Hz Hw; [done|]. cbn in Hz |- *.
  apply andb_true_iff in Hz as [Hz Hzs]. destruct (within_step a st Hl Hz Hw) as [Hw' He].
  destruct (IH (step a st)) as [? Hlim]; [by rewrite He|done|done|]. by rewrite Hlim.
Qed.

(** Starting within the configured limits, no sequence of uploads, program
    commands, deletions and expiries takes the store beyond them: the number of
    workspaces, their total size and the size and entry count of each stay
    bounded, and the total the code computes in 64 bits is the exact sum. *)
Theorem workspace_quotas a steps :
  in_u64 (max_total_bytes (limits (store a))) -> forallb sized steps = true ->
  within_limits (store a) ->
  let s := store (run a steps) in
  limits s = limits (store a)
  /\ (base.size (workspaces s) <= max_workspaces (limits s))%nat
  /\ total_size_locked (workspaces s) = sum_bytes (usage (workspaces s))
  /\ sum_bytes (usage (workspaces s)) <= max_total_bytes (limits s)
  /\ (forall id w, workspaces s !! id = Some w ->
        0 <= bytes w <= max_workspace_bytes (limits s)
        /\ 0 <= entries w <= max_entries_per_workspace (limits s)).
Proof.
  intros Hl Hz Hw s. destruct (within_run a steps Hl Hz Hw) as [Hs Hlim]. fold s in Hs, Hlim.
  split; [done|]. rewrite <- Hlim in Hl. pose proof (total_size_exact _ _ Hl Hs) as Ht.
  destruct Hs as (Hn & Hb & Hf). unfold usage in Hn. rewrite map_size_fmap in Hn.
  split_and!; [done..|]. intros id w Hid. apply (Hf id (bytes w, entries w)). unfold usage. by rewrite lookup_fmap, Hid.
Qed.

(** ** Concrete runs *)

Definition sample_limits : WorkspaceLimits := mkLimits 1000 2500 600 3 10.
Definition ws_a : string := "workspace-0000000000000000000000000000000a".
Definition ws_b : string := "workspace-0000000000000000000000000000000b".
Definition ws_c : string := "workspace-0000000000000000000000000000000c".

Definition uploads : list Step :=
  [Publish true true Renamed 500 3 ws_a 0; Publish true true Renamed 600 4 ws_b 0;
   Publish true true Renamed 700 5 ws_c 0].

(** An open up to the publication of its revision. *)
Definition open_steps (i : nat) (ws : string) : list Step :=
  [Begin ws; Pin i true 1; Stage i true 1; Prepare i true].

Definition sample_start : WorkspaceActivation := started sample_limits [] None [].

(** Open [ws_a]; open [ws_b], which fails; close. *)
Definition orderly_run : list Step :=
  uploads ++ open_steps 0 ws_a ++ [Complete 0; Drop 0 true]
  ++ open_steps 1 ws_b ++ [Fail 1 true; Drop 1 true; Prune 1000 (fun _ => true)].

Lemma activation_serialized_witness :
  active (run sample_start orderly_run) = Some ws_a
  /\ dom (workspaces (store (run sample_start orderly_run))) = {[ws_a]}
  /\ ((forall i o, opens (run sample_start orderly_run) !! i = Some o -> published o = false) ->
       link (run sample_start orderly_run) = active (run sample_start orderly_run)).
Proof.
  split; [vm_compute; reflexivity|]. split; [vm_compute; reflexivity|].
  apply (activation_serialized sample_limits [] [] orderly_run). vm_compute. reflexivity.
Defined.

Lemma workspace_quotas_witness :
  base.size (workspaces (store (run sample_start uploads))) = 3%nat
  /\ total_size_locked (workspaces (store (run sample_start uploads))) = 1800
  /\ sum_bytes (usage (workspaces (store (run sample_start uploads))))
     <= max_total_bytes sample_limits.
Proof.
  split; [vm_compute; reflexivity|]. split; [vm_compute; reflexivity|].
  destruct (workspace_quotas sample_start uploads) as (Hl & _ & _ & Hb & _).
  - split; [vm_compute; discriminate|vm_compute; reflexivity].
  - reflexivity.
  - split_and!; [vm_compute; lia|vm_compute; discriminate|].
    intros id e H. vm_compute in H. discriminate.
  - rewrite Hl in Hb. exact Hb.
Defined.

(** The next upload is refused: the store is full. *)
Example upload_refused :
  (publish_revision true true Renamed 100 1 ws_a 5
     (store (run sample_start uploads))).2 = ResourceExhausted.
Proof. vm_compute. reflexivity. Qed.

(** The closures of the open of [ws_a] are destroyed only after the next open
    began: the lease's destructor clears the [opening] flag of that open, and a
    third one is admitted.  The second one fails. *)
Definition overlapping_run : list Step :=
  uploads ++ open_steps 0 ws_a ++ [Complete 0; Begin ws_b; Drop 0 true]
  ++ tail (open_steps 1 ws_b) ++ open_steps 2 ws_c ++ [Fail 1 true; Complete 2].

(** A program close and an open submitted one after the other, the open
    executed by the worker before the close is observed to be complete. *)
Definition pipelined_run : list Step :=
  uploads ++ open_steps 0 ws_a ++ [Complete 0; Drop 0 true]
  ++ open_steps 1 ws_b ++ [CloseCompleted true; Complete 1; Drop 1 true].

(** A preview pins [ws_a]; meanwhile the workspaces expire, and [ws_a] alone
    stays.  When its parser fails the next expiry removes it. *)
Definition preview_run : list Step :=
  uploads ++ [StartPreview ws_a true; PinPreview 0 true 1; Erase ws_a true;
              Prune 5000 (fun _ => true)].

Example preview_keeps_workspace :
  dom (workspaces (store (run sample_start preview_run))) = {[ws_a]}
  /\ held (store (run sample_start preview_run)) ws_a = 1%nat
  /\ dom (workspaces (store (run sample_start
         (preview_run ++ [EndPreview 0 ParserError; Prune 5001 (fun _ => true)])))) = ∅.
Proof. split_and!; vm_compute; reflexivity. Qed.

(** Outside the well-timed runs the active link and the active workspace
    diverge.  The lease of a completed open clears the [opening] flag again when
    its closures are destroyed; if another open began in between, a third is
    admitted beside it, and the failure of the second puts the link back to the
    first workspace although the third is active.  And a program close clears
    the link without regard to an open that has already published its revision:
    that open completes as the active program, with the link at the empty
    directory. *)
Theorem activation_races :
  (active (run sample_start overlapping_run) = Some ws_c
   /\ link (run sample_start overlapping_run) = Some ws_a)
  /\ (active (run sample_start pipelined_run) = Some ws_b
      /\ link (run sample_start pipelined_run) = None).
Proof. vm_compute. repeat split. Qed.

End Activation.
