(* ===== verification/Archive.v ===== *)
(** Uploaded workspaces: the extraction of an archive into a fresh directory
    ([program/workspace_archive.cc]) and the upload call that publishes the result
    ([program/grpc/service.cc]).

    The file system is a tree of directories and regular files, keyed by the resolved
    path; extraction creates no links, so none occur in it.  What libarchive returns
    is an argument, and so are the failures of the operating system: a list of
    answers, consumed one per call; when it is exhausted every call succeeds. *)
From Stdlib Require Import Ascii String.
From S2P Require Import Prelude Workspace.

Local Open Scope Z_scope.

(** * The file system *)
Module Files.

Abbreviation path := (list string).

Inductive Node := Dir | File (content : list Z).

#[export] Instance Node_eq_dec : EqDecision Node.
Proof. solve_decision. Defined.

Definition ENOENT : Z := 2.
Definition EINTR : Z := 4.
Definition ENOMEM : Z := 12.
Definition EEXIST : Z := 17.
Definition ENOTDIR : Z := 20.
Definition EINVAL : Z := 22.
Definition EFBIG : Z := 27.
Definition ENOSPC : Z := 28.

(** How a system call ends.  For a write: [Wrote n] takes [n + 1] bytes, [Zero]
    takes none and leaves [errno] as it was. *)
Inductive Answer := Go | Wrote (n : nat) | Zero (errno : Z) | Fail (errno : Z).

Record Os := mkOs { tree : gmap path Node; answers : list Answer }.

Definition set_tree (t : gmap path Node) (s : Os) : Os := mkOs t (answers s).

(** The answer of the next call. *)
Definition ask (s : Os) : outcome Z unit * Os :=
  match answers s with
  | [] => (Ok tt, s)
  | a :: rest =>
      (match a with Fail e | Zero e => Err e | _ => Ok tt end, mkOs (tree s) rest)
  end.

(** The node a path leads to: the kernel follows [..] to the parent. *)
Definition enter (p : path) (c : string) : path :=
  if bool_decide (c = EmptyString) || bool_decide (c = "."%string) then p
  else if bool_decide (c = ".."%string) then removelast p
  else p ++ [c].
Definition resolve (p : path) : path := foldl enter [] p.

(** A new node in an existing directory. *)
Definition make_node (p : path) (n : Node) (s : Os) : Os * outcome Z unit :=
  match tree s !! removelast (resolve p) with
  | Some Dir =>
      let '(a, s1) := ask s in
      match a with
      | Err e => (s1, Err e)
      | Ok _ => (set_tree (<[resolve p := n]> (tree s1)) s1, Ok tt)
      end
  | Some (File _) => (s, Err ENOTDIR)
  | None => (s, Err ENOENT)
  end.

(** [fs::create_directory]; an existing directory is not an error. *)
Definition create_directory (p : path) (s : Os) : Os * outcome Z unit :=
  match tree s !! resolve p with
  | Some Dir => (s, Ok tt)
  | Some (File _) => (s, Err ENOTDIR)
  | None => make_node p Dir s
  end.

(** [fs::create_directories], from the directory [done] down. *)
Fixpoint create_below (from rest : path) (s : Os) : Os * outcome Z unit :=
  match rest with
  | [] => (s, Ok tt)
  | c :: rest' =>
      match create_directory (from ++ [c]) s with
      | (s1, Err e) => (s1, Err e)
      | (s1, Ok _) => create_below (from ++ [c]) rest' s1
      end
  end.
Definition create_directories (p : path) (s : Os) : Os * outcome Z unit := create_below [] p s.

(** [open] with [O_CREAT | O_EXCL | O_NOFOLLOW]. *)
Definition open_new (p : path) (s : Os) : Os * outcome Z unit :=
  match tree s !! resolve p with
  | Some _ => (s, Err EEXIST)
  | None => make_node p (File []) s
  end.

(** [close] *)
Definition close (s : Os) : Os * outcome Z unit := let '(a, s1) := ask s in (s1, a).

Definition append (p : path) (bytes : list Z) (t : gmap path Node) : gmap path Node :=
  alter (fun n => match n with File c => File (c ++ bytes) | Dir => Dir end) (resolve p) t.

(** The loop around [write]: a partial write goes on with the rest, an interrupted one
    is repeated. *)
Fixpoint write_loop (l : list Answer) (bytes : list Z) : list Answer * list Z * outcome Z unit :=
  match bytes with
  | [] => (l, [], Ok tt)
  | _ =>
      match l with
      | [] => ([], bytes, Ok tt)
      | Go :: rest => (rest, bytes, Ok tt)
      | Wrote n :: rest =>
          let '(rest', more, r) := write_loop rest (drop (S n) bytes) in
          (rest', take (S n) bytes ++ more, r)
      | Zero e :: rest => (rest, [], Err e)
      | Fail e :: rest => if e =? EINTR then write_loop rest bytes else (rest, [], Err e)
      end
  end.

Definition write_all (p : path) (bytes : list Z) (s : Os) : Os * outcome Z unit :=
  let '(rest, taken, r) := write_loop (answers s) bytes in
  (mkOs (append p taken (tree s)) rest, r).

(** [fs::remove_all]: what is at or below the path; a failure leaves it as it was. *)
Definition below (p q : path) : bool := bool_decide (p `prefix_of` q).
Definition remove_all (p : path) (s : Os) : Os * outcome Z unit :=
  if bool_decide (tree s !! resolve p = None) then (s, Ok tt)
  else
    let '(a, s1) := ask s in
    match a with
    | Err e => (s1, Err e)
    | Ok _ => (set_tree (filter (fun kn => below (resolve p) kn.1 = false) (tree s1)) s1, Ok tt)
    end.

(** ** Trees *)

(** Every node is in a directory. *)
Definition tree_ok (t : gmap path Node) : Prop :=
  t !! [] = Some Dir /\ forall p c n, t !! (p ++ [c]) = Some n -> t !! p = Some Dir.

Definition node_size (n : Node) : Z :=
  match n with Dir => 0 | File c => Z.of_nat (length c) end.
Definition tree_bytes (t : gmap path Node) : Z := map_fold (fun _ n acc => node_size n + acc) 0 t.

(** A component that is an ordinary name. *)
Definition plain (c : string) : Prop := c <> EmptyString /\ c <> "."%string /\ c <> ".."%string.

Lemma enter_plain p c : plain c -> enter p c = p ++ [c].
Proof. intros (H1 & H2 & H3). unfold enter. by rewrite !bool_decide_eq_false_2. Qed.

Lemma resolve_snoc p c : resolve (p ++ [c]) = enter (resolve p) c.
Proof. unfold resolve. by rewrite foldl_app. Qed.

Lemma resolve_plain p q : resolve p = p -> Forall plain q -> resolve (p ++ q) = p ++ q.
Proof.
  intros Hp Hq. induction q as [|c q IH] using rev_ind; [by rewrite app_nil_r|].
  apply Forall_app in Hq as [Hq [Hc _]%Forall_cons].
  by rewrite app_assoc, resolve_snoc, IH, enter_plain.
Qed.

Lemma tree_ok_prefix t p q : tree_ok t -> is_Some (t !! (p ++ q)) -> q <> [] -> t !! p = Some Dir.
Proof.
  intros [_ Ht]. induction q as [|c q IH] using rev_ind; [done|]. intros [n Hn] _.
  rewrite app_assoc in Hn. apply Ht in Hn. destruct q as [|d q]; [by rewrite app_nil_r in Hn|].
  apply IH; [eauto|done].
Qed.

Lemma tree_bytes_insert t p n :
  t !! p = None -> tree_bytes (<[p := n]> t) = node_size n + tree_bytes t.
Proof. intros Hp. unfold tree_bytes. rewrite map_fold_insert_L; [done| |done]. intros. lia. Qed.

Lemma tree_bytes_delete t p n :
  t !! p = Some n -> tree_bytes t = node_size n + tree_bytes (delete p t).
Proof.
  intros Hp. rewrite <- (insert_delete_id t p n Hp) at 1.
  by rewrite tree_bytes_insert by apply lookup_delete_eq.
Qed.

Lemma tree_bytes_append t p c bytes :
  t !! resolve p = Some (File c) ->
  tree_bytes (append p bytes t) = Z.of_nat (length bytes) + tree_bytes t.
Proof.
  intros Hp. unfold append. rewrite (tree_bytes_delete _ (resolve p) (File (c ++ bytes))).
  - rewrite (tree_bytes_delete t (resolve p) (File c)) by done.
    replace (delete (resolve p) (alter _ (resolve p) t)) with (delete (resolve p) t).
    + cbn [node_size]. rewrite length_app. lia.
    + apply map_eq. intros q. destruct (decide (q = resolve p)) as [->|Hq].
      * by rewrite !lookup_delete_eq.
      * by rewrite !lookup_delete_ne, lookup_alter_ne by done.
  - by rewrite lookup_alter_eq, Hp.
Qed.

End Files.

(** * Extraction *)
Module Extract.
Import Files.

Record WorkspaceArchiveLimits := mkLimits {
  max_extracted_bytes : Z;
  max_entries : Z;
  max_metadata_bytes : Z;
}.

Inductive WorkspaceArchiveStatus := Ok_ | Invalid | ResourceExhausted | IoError.

#[export] Instance WorkspaceArchiveStatus_eq_dec : EqDecision WorkspaceArchiveStatus.
Proof. solve_decision. Defined.

Record WorkspaceArchiveResult := mkResult {
  status : WorkspaceArchiveStatus;
  extracted_bytes : Z;
  entries : Z;
}.

Definition fail (st : WorkspaceArchiveStatus) : WorkspaceArchiveResult := mkResult st 0 0.

(** ** What libarchive returns *)

Inductive FileType := AE_IFREG | AE_IFDIR | AE_OTHER.

(** [Data]: [archive_read_data_block] returns [ARCHIVE_OK]; [BlockError]: another
    code than that and the end, with the archive's [errno]. *)
Inductive Block := Data (bytes : list Z) (offset : Z) | BlockError (errno : Z).

Record Entry := mkEntry {
  pathname : option string;
  symlink : bool;
  hardlink : bool;
  sparse_count : Z;
  xattr_count : Z;
  acl_count : Z;
  filetype : FileType;
  blocks : list Block;
}.

(** [zstd] and [tar]: the filter code and the format once a header is read. *)
Inductive Header := Next (zstd tar : bool) (e : Entry) | HeaderError (errno : Z).

(** [allocated], [zstd_support], [tar_support] and [opened]: the calls before the
    first header; [zstd_at_end]: the filter code at the end. *)
Record Archive := mkArchive {
  allocated : bool;
  zstd_support : bool;
  tar_support : bool;
  opened : outcome Z unit;
  headers : list Header;
  zstd_at_end : bool;
}.

(** ** Paths *)

Definition slash : ascii := "/"%char.

(** The components between slashes. *)
Fixpoint split_path (s : string) (component : string) : list string :=
  match s with
  | EmptyString => [component]
  | String c s' =>
      if (c =? slash)%char then component :: split_path s' EmptyString
      else split_path s' (String.append component (String c EmptyString))
  end.

Definition is_absolute (s : string) : bool :=
  match s with String c _ => (c =? slash)%char | EmptyString => false end.

(** The loop over the components; a relative path has no root to compare with. *)
Fixpoint normalize (components : list string) (normalized : path) : option path :=
  match components with
  | [] => Some normalized
  | c :: rest =>
      if bool_decide (c = EmptyString) || bool_decide (c = "."%string) then normalize rest normalized
      else if bool_decide (c = ".."%string) then None
      else normalize rest (normalized ++ [c])
  end.

Definition normalized_relative_path (raw : option string) : option path :=
  match raw with
  | None => None
  | Some s =>
      if bool_decide (s = EmptyString) || is_absolute s then None
      else
        match normalize (split_path s EmptyString) [] with
        | Some [] | None => None
        | Some p => Some p
        end
  end.

Definition generic_string (p : path) : string := String.concat "/" p.

(** ** The loop over the entries *)

Definition out_of_space (errno : Z) : bool := (errno =? ENOSPC) || (errno =? ENOMEM).
Definition io_status (errno : Z) : WorkspaceArchiveStatus :=
  if out_of_space errno then ResourceExhausted else IoError.
Definition archive_status (errno : Z) : WorkspaceArchiveStatus :=
  if out_of_space errno then ResourceExhausted else Invalid.

Record Progress := mkProgress {
  done_entries : Z;
  done_bytes : Z;
  metadata_bytes : Z;
  paths : gset string;
}.
Definition none_done : Progress := mkProgress 0 0 0 ∅.

Definition size_max : Z := 2 ^ 64 - 1.
Definition name_size (q : path) : Z := Z.of_nat (String.length (generic_string q)).

(** The checks of a header; the type is looked at later. *)
Definition check_entry (l : WorkspaceArchiveLimits) (zstd tar : bool) (e : Entry) (x : Progress) :
    outcome WorkspaceArchiveStatus (path * Progress) :=
  if negb zstd || negb tar then Err Invalid
  else if max_entries l <=? done_entries x then Err ResourceExhausted
  else
    match normalized_relative_path (pathname e) with
    | None => Err Invalid
    | Some relative =>
        let name := generic_string relative in
        if (max_metadata_bytes l <? name_size relative) || (size_max - 1 <? done_entries x)
           || bool_decide (name ∈ paths x)
        then Err Invalid
        else if max_metadata_bytes l - Z.min (metadata_bytes x) (max_metadata_bytes l) <? name_size relative
        then Err ResourceExhausted
        else if symlink e || hardlink e || negb (sparse_count e =? 0) || negb (xattr_count e =? 0)
                || negb (acl_count e =? 0)
        then Err Invalid
        else Ok (relative, mkProgress (done_entries x + 1) (done_bytes x)
                             (metadata_bytes x + name_size relative) ({[name]} ∪ paths x))
    end.

(** The loop over the blocks; the result is [write_error], if any. *)
Fixpoint extract_blocks (l : WorkspaceArchiveLimits) (p : path) (bs : list Block) (file_offset total : Z)
    (s : Os) : Os * Z * option Z :=
  match bs with
  | [] => (s, total, None)
  | BlockError e :: _ => (s, total, Some (if e =? 0 then EINVAL else e))
  | Data bytes offset :: rest =>
      let size := Z.of_nat (length bytes) in
      if (offset <? 0) || negb (offset =? file_offset)
         || (max_extracted_bytes l - Z.min total (max_extracted_bytes l) <? size)
      then (s, total, Some EFBIG)
      else
        match write_all p bytes s with
        | (s1, Err e) => (s1, total, Some e)
        | (s1, Ok _) => extract_blocks l p rest (file_offset + size) (total + size) s1
        end
  end.

Definition write_status (errno : Z) : WorkspaceArchiveStatus :=
  if errno =? EFBIG then ResourceExhausted
  else if errno =? EINVAL then Invalid else io_status errno.

(** A regular file. *)
Definition extract_file (l : WorkspaceArchiveLimits) (p : path) (e : Entry) (total : Z) (s : Os) :
    Os * outcome WorkspaceArchiveStatus Z :=
  match create_directories (removelast p) s with
  | (s1, Err errno) => (s1, Err (io_status errno))
  | (s1, Ok _) =>
      match open_new p s1 with
      | (s2, Err errno) => (s2, Err (io_status errno))
      | (s2, Ok _) =>
          let '(s3, total', failed) := extract_blocks l p (blocks e) 0 total s2 in
          let '(s4, closed) := close s3 in
          match failed, closed with
          | Some errno, _ | None, Err errno => (s4, Err (write_status errno))
          | None, Ok _ => (s4, Ok total')
          end
      end
  end.

Definition extract_entry (l : WorkspaceArchiveLimits) (destination : path) (zstd tar : bool) (e : Entry)
    (x : Progress) (s : Os) : Os * outcome WorkspaceArchiveStatus Progress :=
  match check_entry l zstd tar e x with
  | Err st => (s, Err st)
  | Ok (relative, x1) =>
      let p := destination ++ relative in
      match filetype e with
      | AE_IFDIR =>
          match create_directories p s with
          | (s1, Err errno) => (s1, Err (io_status errno))
          | (s1, Ok _) => (s1, Ok x1)
          end
      | AE_OTHER => (s, Err Invalid)
      | AE_IFREG =>
          match extract_file l p e (done_bytes x1) s with
          | (s1, Err st) => (s1, Err st)
          | (s1, Ok total) =>
              (s1, Ok (mkProgress (done_entries x1) total (metadata_bytes x1) (paths x1)))
          end
      end
  end.

Fixpoint extract_headers (l : WorkspaceArchiveLimits) (destination : path) (hs : list Header)
    (x : Progress) (s : Os) : Os * outcome WorkspaceArchiveStatus Progress :=
  match hs with
  | [] => (s, Ok x)
  | HeaderError errno :: _ => (s, Err (archive_status errno))
  | Next zstd tar e :: rest =>
      match extract_entry l destination zstd tar e x s with
      | (s1, Err st) => (s1, Err st)
      | (s1, Ok x1) => extract_headers l destination rest x1 s1
      end
  end.

Definition extract_workspace_archive (a : Archive) (destination : path) (l : WorkspaceArchiveLimits)
    (s : Os) : Os * WorkspaceArchiveResult :=
  if negb (allocated a) then (s, fail ResourceExhausted)
  else if negb (zstd_support a) || negb (tar_support a) then (s, fail IoError)
  else
    match opened a with
    | Err errno => (s, fail (archive_status errno))
    | Ok _ =>
        match tree s !! resolve destination with
        | Some Dir =>
            match extract_headers l destination (headers a) none_done s with
            | (s1, Err st) => (s1, fail st)
            | (s1, Ok x) =>
                if match headers a with [] => true | _ => false end || negb (zstd_at_end a)
                then (s1, fail Invalid)
                else (s1, mkResult Ok_ (done_bytes x) (done_entries x))
            end
        | _ => (s, fail IoError)
        end
    end.

(** ** What the calls of the file system leave *)

Lemma resolve_id p : Forall plain p -> resolve p = p.
Proof. intros Hp. by apply (resolve_plain [] p). Qed.

Lemma ask_tree s : tree (ask s).2 = tree s.
Proof. unfold ask. by destruct (answers s). Qed.

Lemma ask_none s : answers s = [] -> ask s = (Ok tt, s).
Proof. intros Hs. unfold ask. by rewrite Hs. Qed.

Lemma tree_ok_insert t p c n :
  tree_ok t -> t !! p = Some Dir -> t !! (p ++ [c]) = None -> tree_ok (<[p ++ [c] := n]> t).
Proof.
  intros [H1 H2] Hp Hn. split.
  - rewrite lookup_insert_ne; [done|]. by destruct p.
  - intros q d m. intros [[Heq _]|[_ Hm]]%lookup_insert_Some.
    + apply app_inj_tail in Heq as [<- _]. rewrite lookup_insert_ne; [done|].
      intros E. apply (f_equal length) in E. rewrite length_app in E. cbn in E. lia.
    + apply H2 in Hm. rewrite lookup_insert_ne; [done|]. intros E. congruence.
Qed.

(** [t'] has the directories of [t] that lead to [p] in addition. *)
Record made (t t' : gmap path Node) (p : path) : Prop := mkMade {
  made_old : forall q n, t !! q = Some n -> t' !! q = Some n;
  made_new : forall q n, t' !! q = Some n -> t !! q = None -> n = Dir /\ q `prefix_of` p;
  made_tree : tree_ok t';
  made_bytes : tree_bytes t' = tree_bytes t;
}.

Lemma made_refl t p : tree_ok t -> made t t p.
Proof. intros Ht. split; try done. intros q n H1 H2. congruence. Qed.

Lemma made_trans t1 t2 t3 p : made t1 t2 p -> made t2 t3 p -> made t1 t3 p.
Proof.
  intros [A1 A2 A3 A4] [B1 B2 B3 B4]. split; [auto| |done|congruence].
  intros q n H3 H1. destruct (t2 !! q) as [m|] eqn:E; [|by apply B2].
    pose proof (B1 _ _ E) as H. assert (n = m) as -> by congruence. by apply A2.
Qed.

Lemma made_prefix t t' p q : made t t' p -> p `prefix_of` q -> made t t' q.
Proof.
  intros [A1 A2 A3 A4] Hq. split; try done. intros r n H1 H2. destruct (A2 r n H1 H2). split; [done|].
  by etrans.
Qed.

(** A call that makes one node. *)
Lemma make_node_spec p c n s s' r :
  Forall plain (p ++ [c]) -> tree s !! p = Some Dir -> make_node (p ++ [c]) n s = (s', r) ->
  (r = Ok tt /\ tree s' = <[p ++ [c] := n]> (tree s) \/ r <> Ok tt /\ tree s' = tree s)
  /\ (answers s = [] -> r = Ok tt /\ answers s' = []).
Proof.
  intros Hp Hd. unfold make_node. rewrite (resolve_id _ Hp), removelast_last, Hd.
  pose proof (ask_tree s) as Ha. destruct (ask s) as [a s1] eqn:Ea. cbn in Ha.
  destruct a as [[]|e]; intros [= <- <-]; cbn; rewrite Ha; split; try by auto.
  - intros Hs. rewrite (ask_none s Hs) in Ea. by injection Ea as <-.
  - intros Hs. by rewrite (ask_none s Hs) in Ea.
Qed.

Lemma create_directory_spec p c s s' r :
  tree_ok (tree s) -> Forall plain (p ++ [c]) -> tree s !! p = Some Dir ->
  create_directory (p ++ [c]) s = (s', r) ->
  made (tree s) (tree s') (p ++ [c])
  /\ (r = Ok tt -> tree s' !! (p ++ [c]) = Some Dir)
  /\ (answers s = [] -> answers s' = []
      /\ ((forall d, tree s !! (p ++ [c]) <> Some (File d)) -> r = Ok tt)).
Proof.
  intros Ht Hp Hd. unfold create_directory. rewrite (resolve_id _ Hp).
  destruct (tree s !! (p ++ [c])) as [[|d]|] eqn:E.
  - intros [= <- <-]. split_and!; [by apply made_refl|done|done].
  - intros [= <- <-]. split_and!; [by apply made_refl|done|]. intros Hs. split; [done|]. intros H. by destruct (H d).
  - intros Hm. destruct (make_node_spec _ _ _ _ _ _ Hp Hd Hm) as [H1 H2].
    destruct H1 as [[-> Hs']|[Hr ->]].
    + rewrite Hs'. split_and!.
      * split; [| |by apply tree_ok_insert|by rewrite tree_bytes_insert].
        -- intros q n Hq. rewrite lookup_insert_ne; [done|]. intros <-. congruence.
        -- intros q n. intros [[<- <-]|[_ H]]%lookup_insert_Some ?; [done|congruence].
      * intros _. apply lookup_insert_eq.
      * intros Hs. by destruct (H2 Hs).
    + split_and!; [by apply made_refl|by intros ->|]. intros Hs. destruct (H2 Hs). by split.
Qed.

(** [create_below] from a directory makes the directories of the rest. *)
Lemma create_below_spec q p s s' r :
  tree_ok (tree s) -> Forall plain (p ++ q) -> tree s !! p = Some Dir ->
  create_below p q s = (s', r) ->
  made (tree s) (tree s') (p ++ q)
  /\ (r = Ok tt -> tree s' !! (p ++ q) = Some Dir)
  /\ (answers s = [] -> answers s' = []
      /\ ((forall q' d, q' `prefix_of` q -> tree s !! (p ++ q') <> Some (File d)) -> r = Ok tt)).
Proof.
  revert p s. induction q as [|c q IH]; intros p s Ht Hp Hd; cbn [create_below].
  { intros [= <- <-]. rewrite app_nil_r. split_and!; [by apply made_refl|done|done]. }
  rewrite (cons_middle c p q), app_assoc in *.
  destruct (create_directory (p ++ [c]) s) as [s1 r1] eqn:E1.
  apply create_directory_spec in E1 as (M1 & O1 & N1); [|done|by apply Forall_app in Hp as []|done].
  assert (Hpre : (p ++ [c]) `prefix_of` (p ++ [c]) ++ q) by by eexists.
  destruct r1 as [[]|e].
  - intros E2. apply IH in E2 as (M2 & O2 & N2); [|apply M1|done|by apply O1].
    split_and!; [|done|].
    + eapply made_trans; [|done]. by eapply made_prefix.
    + intros Hs. destruct (N1 Hs) as [Hs1 _]. destruct (N2 Hs1) as [Hs' Hok]. split; [done|].
      intros Hf. apply Hok. intros q' d Hq' Hd'. destruct (tree s !! ((p ++ [c]) ++ q')) as [n|] eqn:En.
      * pose proof (made_old _ _ _ M1 _ _ En) as H. rewrite Hd' in H. injection H as <-.
        rewrite <- app_assoc in En. eapply (Hf (c :: q') d); [|exact En]. by apply prefix_cons.
      * by destruct (made_new _ _ _ M1 _ _ Hd' En) as [? _].
  - intros [= <- <-]. split_and!; [by eapply made_prefix|done|].
    intros Hs. destruct (N1 Hs) as [Hs1 Hok]. split; [done|]. intros Hf.
    assert (Err e = Ok tt :> outcome Z unit) as ?; [|done]. apply Hok. intros d.
    apply (Hf [c] d). by eexists.
Qed.

Lemma create_directories_spec p s s' r :
  tree_ok (tree s) -> Forall plain p -> create_directories p s = (s', r) ->
  made (tree s) (tree s') p
  /\ (r = Ok tt -> tree s' !! p = Some Dir)
  /\ (answers s = [] -> answers s' = []
      /\ ((forall q d, q `prefix_of` p -> tree s !! q <> Some (File d)) -> r = Ok tt)).
Proof. intros Ht Hp. unfold create_directories. apply (create_below_spec p []); [done..|]. apply Ht. Qed.

Lemma write_loop_spec l bytes l' taken r :
  write_loop l bytes = (l', taken, r) ->
  (exists more, bytes = taken ++ more) /\ (r = Ok tt -> taken = bytes) /\ (l = [] -> r = Ok tt /\ l' = []).
Proof.
  revert bytes l' taken r. induction l as [|a l IH]; intros [|b bytes] l' taken r; cbn [write_loop];
    [intros [= <- <- <-]; split_and!; by eauto using app_nil_r
    |intros [= <- <- <-]; split_and!; [exists []; by rewrite app_nil_r|done..]
    |intros [= <- <- <-]; split_and!; by eauto using app_nil_r|].
  destruct a as [|n|e|e]; [intros [= <- <- <-]; split_and!; [exists []; by rewrite app_nil_r|done..]| | |].
  - destruct (write_loop l (drop (S n) (b :: bytes))) as [[l1 more] r1] eqn:E. intros [= <- <- <-].
    apply IH in E as ((rest & E) & Hok & _). split_and!; [|intros Hr|done].
    + exists rest. cbn in *. by rewrite <- app_assoc, <- E, take_drop.
    + cbn in *. by rewrite (Hok Hr), take_drop.
  - intros [= <- <- <-]. split_and!; [by eexists|done..].
  - destruct (e =? EINTR).
    + intros E. apply IH in E as (H1 & H2 & _). by split_and!.
    + intros [= <- <- <-]. split_and!; [by eexists|done..].
Qed.

Lemma append_file p c bytes t :
  Forall plain p -> t !! p = Some (File c) -> append p bytes t = <[p := File (c ++ bytes)]> t.
Proof.
  intros Hp Ht. unfold append. rewrite (resolve_id _ Hp). apply map_eq. intros q.
  destruct (decide (q = p)) as [->|Hq].
  - by rewrite lookup_alter_eq, lookup_insert_eq, Ht.
  - by rewrite lookup_alter_ne, lookup_insert_ne.
Qed.

Lemma write_all_spec p c bytes s s' r :
  Forall plain p -> tree s !! p = Some (File c) -> write_all p bytes s = (s', r) ->
  (exists data more, bytes = data ++ more /\ tree s' = <[p := File (c ++ data)]> (tree s)
     /\ (r = Ok tt -> data = bytes)) /\ (answers s = [] -> r = Ok tt /\ answers s' = []).
Proof.
  intros Hp Ht. unfold write_all. destruct (write_loop _ _) as [[rest taken] r1] eqn:E. intros [= <- <-].
  apply write_loop_spec in E as ((more & Hm) & Hok & Hs). split; [|done].
  exists taken, more. cbn. by rewrite (append_file p c).
Qed.

(** *** Files *)

Fixpoint contiguous (offset : Z) (bs : list Block) : Prop :=
  match bs with
  | [] => True
  | Data bytes o :: rest => o = offset /\ contiguous (offset + Z.of_nat (length bytes)) rest
  | BlockError _ :: _ => False
  end.
Definition block_data (bs : list Block) : list Z :=
  concat ((fun b => match b with Data bytes _ => bytes | BlockError _ => [] end) <$> bs).
#[local] Arguments block_data : simpl never.

Lemma block_data_cons bytes o bs : block_data (Data bytes o :: bs) = bytes ++ block_data bs.
Proof. done. Qed.

Lemma extract_blocks_spec l p bs c off total s s' total' failed :
  Forall plain p -> tree s !! p = Some (File c) -> 0 <= off -> total <= max_extracted_bytes l ->
  extract_blocks l p bs off total s = (s', total', failed) ->
  (exists data, tree s' = <[p := File (c ++ data)]> (tree s)
     /\ total + Z.of_nat (length data) <= max_extracted_bytes l
     /\ (failed = None -> total' = total + Z.of_nat (length data) /\ contiguous off bs
                          /\ data = block_data bs))
  /\ (answers s = [] -> answers s' = [] /\ (contiguous off bs ->
        total + Z.of_nat (length (block_data bs)) <= max_extracted_bytes l -> failed = None)).
Proof.
  intros Hp. revert c off total s. induction bs as [|[bytes o|e] bs IH]; intros c off total s Ht Ho Hm; cbn.
  - intros [= <- <- <-]. split; [|done]. exists []. rewrite app_nil_r, insert_id by done. cbn.
    split_and!; [done|lia|]. intros _. split_and!; [lia|done..].
  - destruct (_ || _) eqn:Eg.
    + intros [= <- <- <-]. split.
      * exists []. rewrite app_nil_r, insert_id by done. cbn. split_and!; [done|lia|done].
      * intros Hs. split; [done|]. intros [-> _]. rewrite block_data_cons, length_app. intros Hb. exfalso. bool_to_prop. lia.
    + destruct (write_all p bytes s) as [s1 rw] eqn:Ew.
      destruct (write_all_spec p c bytes s s1 rw Hp Ht Ew) as ((data & more & Hd & Hs1 & Hok) & Hn).
      destruct rw as [[]|e].
      * intros Ex. rewrite (Hok eq_refl) in *. bool_to_prop.
        assert (Ht1 : tree s1 !! p = Some (File (c ++ bytes))) by (rewrite Hs1; apply lookup_insert_eq).
        apply (IH _ _ _ _ Ht1) in Ex as ((d & Hs' & Hb & Hf) & Hc); [|lia..]. split.
        -- exists (bytes ++ d). rewrite Hs', Hs1, insert_insert_eq, app_assoc, length_app.
           split_and!; [done|lia|]. intros Hfail. destruct (Hf Hfail) as (-> & Hcont & ->).
           split_and!; [lia|lia|done|done].
        -- intros Hs. destruct (Hn Hs) as [_ Hs1']. destruct (Hc Hs1') as [? Hc']. split; [done|].
           intros [Hc1 Hc2]. rewrite block_data_cons, length_app. intros Hb2. apply Hc'; [done|lia].
      * intros [= <- <- <-]. split.
        -- exists data. apply (f_equal length) in Hd. rewrite length_app in Hd. bool_to_prop.
           split_and!; [done|lia|done].
        -- intros Hs. by destruct (Hn Hs) as [? _].
  - intros [= <- <- <-]. split; [|done]. exists []. rewrite app_nil_r, insert_id by done. cbn.
    split_and!; [done|lia|done].
Qed.

(** The parents of a path and the path itself. *)
Lemma prefix_parent (p q : path) : p `prefix_of` removelast q -> p `prefix_of` q.
Proof.
  intros H. destruct q as [|c q _] using rev_ind; [done|]. rewrite removelast_last in H.
  etrans; [done|]. by eexists.
Qed.

Lemma prefix_proper (p q : path) : p `prefix_of` q -> p <> q -> p `prefix_of` removelast q.
Proof.
  intros [r ->] Hne. destruct r as [|c r _] using rev_ind; [by rewrite app_nil_r in Hne|].
  rewrite app_assoc, removelast_last. by eexists.
Qed.

(** The regular file [p] with [data], in directories that were made for it. *)
Definition put (t t' : gmap path Node) (p : path) (data : list Z) : Prop :=
  exists t1, made t t1 (removelast p) /\ t1 !! removelast p = Some Dir /\ t1 !! p = None
    /\ t' = <[p := File data]> t1.

Lemma extract_file_spec l p c e total s s' r :
  tree_ok (tree s) -> Forall plain (p ++ [c]) -> total <= max_extracted_bytes l ->
  extract_file l (p ++ [c]) e total s = (s', r) ->
  (made (tree s) (tree s') p /\ (forall total', r <> Ok total')
   \/ exists data, put (tree s) (tree s') (p ++ [c]) data
      /\ total + Z.of_nat (length data) <= max_extracted_bytes l
      /\ forall total', r = Ok total' -> total' = total + Z.of_nat (length data)
           /\ contiguous 0 (blocks e) /\ data = block_data (blocks e))
  /\ (answers s = [] -> answers s' = []
      /\ ((forall q d, q `prefix_of` p -> tree s !! q <> Some (File d)) -> tree s !! (p ++ [c]) = None ->
          contiguous 0 (blocks e) ->
          total + Z.of_nat (length (block_data (blocks e))) <= max_extracted_bytes l ->
          exists total', r = Ok total')).
Proof.
  intros Ht Hp Hm. unfold extract_file. rewrite removelast_last.
  assert (Hp' : Forall plain p) by by apply Forall_app in Hp as [].
  destruct (create_directories p s) as [s1 r1] eqn:E1.
  destruct (create_directories_spec p s s1 r1 Ht Hp' E1) as (M1 & O1 & N1).
  destruct r1 as [[]|e1].
  2: { intros [= <- <-]. split; [left; by split|]. intros Hs. destruct (N1 Hs) as [Hs1 Hok].
       split; [done|]. intros Hf. by specialize (Hok Hf). }
  unfold open_new. rewrite (resolve_id _ Hp).
  destruct (tree s1 !! (p ++ [c])) as [n|] eqn:En.
  { intros [= <- <-]. split; [left; by split|]. intros Hs. destruct (N1 Hs) as [Hs1 _]. split; [done|].
    intros _ Hnone. exfalso. destruct (made_new _ _ _ M1 _ _ En Hnone) as [_ Hq].
    apply prefix_length in Hq. rewrite length_app in Hq. cbn in Hq. lia. }
  destruct (make_node (p ++ [c]) (File []) s1) as [s2 r2] eqn:E2.
  destruct (make_node_spec _ _ _ _ _ _ Hp (O1 eq_refl) E2) as [[[-> H2]|[Hr H2]] N2].
  2: { destruct r2 as [[]|e2]; [done|]. intros [= <- <-]. rewrite H2. split; [left; by split|].
       intros Hs. destruct (N1 Hs) as [Hs1 _]. by destruct (N2 Hs1). }
  destruct (extract_blocks l (p ++ [c]) (blocks e) 0 total s2) as [[s3 total'] failed] eqn:E3.
  assert (Ht2 : tree s2 !! (p ++ [c]) = Some (File [])) by (rewrite H2; apply lookup_insert_eq).
  apply (extract_blocks_spec _ _ _ []) in E3 as ((data & H3 & Hb & Hf) & N3); [|done..|lia|done].
  unfold close. pose proof (ask_tree s3) as Ha. destruct (ask s3) as [closed s4] eqn:E4. cbn in Ha.
  assert (Hput : put (tree s) (tree s4) (p ++ [c]) data).
  { exists (tree s1). rewrite removelast_last. split_and!; [done|by apply O1|done|].
    by rewrite Ha, H3, H2, insert_insert_eq. }
  intros Hres. assert (Hs4 : s' = s4) by (destruct failed, closed; by injection Hres). subst s4. split.
  - right. exists data. split_and!; [done..|]. intros t' ->. destruct failed; [done|].
    destruct closed; [|done]. injection Hres as <-. by apply Hf.
  - intros Hs. destruct (N1 Hs) as [Hs1 _]. destruct (N2 Hs1) as [_ Hs2]. destruct (N3 Hs2) as [Hs3 Hn].
    rewrite (ask_none s3 Hs3) in E4. injection E4 as <- <-. split; [done|]. intros _ _ Hc Hle.
    rewrite (Hn Hc Hle) in Hres. injection Hres as <-. eauto.
Qed.

(** *** Entries *)

Lemma normalize_plain cs q p : normalize cs q = Some p -> Forall plain q -> Forall plain p.
Proof.
  revert q. induction cs as [|c cs IH]; intros q; cbn; [by intros [= ->]|].
  destruct (_ || _) eqn:E; [apply IH|]. destruct (bool_decide (c = ".."%string)) eqn:E2; [done|]. intros Hn Hq. bool_to_prop.
  eapply IH; [exact Hn|]. apply Forall_app. split; [done|]. apply Forall_singleton. by split_and!.
Qed.

Lemma normalized_plain raw q : normalized_relative_path raw = Some q -> Forall plain q /\ q <> [].
Proof.
  unfold normalized_relative_path. destruct raw as [s|]; [|done]. destruct (_ || _); [done|].
  destruct (normalize _ _) as [[|c p]|] eqn:E; [done| |done]. intros [= <-]. split; [|done].
  by eapply normalize_plain.
Qed.

Definition entry_path (e : Entry) : path := default [] (normalized_relative_path (pathname e)).
Definition entry_name (e : Entry) : string := generic_string (entry_path e).
Definition entry_data (e : Entry) : list Z :=
  match filetype e with AE_IFREG => block_data (blocks e) | _ => [] end.
Definition entry_size (e : Entry) : Z := Z.of_nat (length (entry_data e)).

(** An entry that can be extracted: a safe relative path, no link, no extended
    metadata, a file or a directory, and data without holes. *)
Record entry_ok (e : Entry) : Prop := mkEntryOk {
  eok_path : is_Some (normalized_relative_path (pathname e));
  eok_links : symlink e = false /\ hardlink e = false;
  eok_metadata : sparse_count e = 0 /\ xattr_count e = 0 /\ acl_count e = 0;
  eok_type : filetype e <> AE_OTHER;
  eok_blocks : filetype e = AE_IFREG -> contiguous 0 (blocks e);
}.

Lemma entry_ok_plain e : entry_ok e -> Forall plain (entry_path e) /\ entry_path e <> [].
Proof. intros [[q Hq] _ _ _ _]. unfold entry_path. rewrite Hq. by eapply normalized_plain. Qed.

Definition advance (e : Entry) (x : Progress) : Progress :=
  mkProgress (done_entries x + 1) (done_bytes x + entry_size e) (metadata_bytes x + name_size (entry_path e))
    ({[entry_name e]} ∪ paths x).

(** The limits hold for one more entry. *)
Record room (l : WorkspaceArchiveLimits) (e : Entry) (x : Progress) : Prop := mkRoom {
  room_entries : done_entries x < max_entries l;
  room_metadata : metadata_bytes x + name_size (entry_path e) <= max_metadata_bytes l;
  room_bytes : done_bytes x + entry_size e <= max_extracted_bytes l;
  room_name : entry_name e ∉ paths x;
}.

Definition limits_ok (l : WorkspaceArchiveLimits) : Prop :=
  0 <= max_extracted_bytes l <= size_max /\ 0 <= max_entries l <= size_max
  /\ 0 <= max_metadata_bytes l <= size_max.
Definition progress_ok (l : WorkspaceArchiveLimits) (x : Progress) : Prop :=
  0 <= metadata_bytes x <= max_metadata_bytes l /\ 0 <= done_bytes x <= max_extracted_bytes l.

Lemma check_entry_spec l zstd tar e x :
  limits_ok l -> progress_ok l x ->
  match check_entry l zstd tar e x with
  | Ok (q, x1) =>
      zstd = true /\ tar = true /\ is_Some (normalized_relative_path (pathname e)) /\ q = entry_path e
      /\ x1 = mkProgress (done_entries x + 1) (done_bytes x) (metadata_bytes x + name_size q)
                ({[entry_name e]} ∪ paths x)
      /\ symlink e = false /\ hardlink e = false /\ sparse_count e = 0 /\ xattr_count e = 0
      /\ acl_count e = 0 /\ done_entries x < max_entries l
      /\ metadata_bytes x + name_size q <= max_metadata_bytes l /\ entry_name e ∉ paths x
  | Err _ => zstd = true -> tar = true -> entry_ok e -> room l e x -> False
  end.
Proof.
  intros (Hl1 & Hl2 & Hl3) (Hm & Hb). unfold check_entry.
  destruct zstd, tar; cbn [negb orb]; try done.
  destruct (Z.leb_spec (max_entries l) (done_entries x)) as [Hc|Hc]; [intros _ _ _ [? _ _ _]; lia|].
  destruct (normalized_relative_path (pathname e)) as [q|] eqn:Eq;
    [|intros _ _ [[q Hq] _ _ _ _] _; congruence].
  assert (Hq : entry_path e = q) by (unfold entry_path; by rewrite Eq).
  assert (Hname : generic_string q = entry_name e) by (unfold entry_name; by rewrite Hq).
  assert (H0 : 0 <= name_size q) by (unfold name_size; lia). rewrite Hname.
  destruct (_ || _) eqn:E1.
  { intros _ _ _ [R1 R2 _ R4]. rewrite Hq in R2. apply orb_true_iff in E1 as [[E1|E1]%orb_true_iff|E1]; bool_to_prop; [lia|lia|done]. }
  destruct (Z.ltb_spec (max_metadata_bytes l - Z.min (metadata_bytes x) (max_metadata_bytes l)) (name_size q))
    as [Hn|Hn]; [intros _ _ _ [_ R2 _ _]; rewrite Hq in R2; lia|].
  destruct (symlink e) eqn:E2, (hardlink e) eqn:E3; cbn [orb]; try (intros _ _ [_ [? ?] _ _ _] _; congruence).
  match goal with |- context [if ?b then Err Invalid else _] => destruct b eqn:E4 end.
  - intros _ _ [_ _ (? & ? & ?) _ _] _.
    apply orb_true_iff in E4 as [[E4|E4]%orb_true_iff|E4]; bool_to_prop; done.
  - bool_to_prop. split_and!; (done || lia).
Qed.

(** What extracting an entry does to the tree. *)
Inductive changed (l : WorkspaceArchiveLimits) (dest : path) (x : Progress) (t t' : gmap path Node) : Prop :=
| changed_same : t' = t -> changed l dest x t t'
| changed_made q : made t t' (dest ++ q) -> changed l dest x t t'
| changed_put q data : q <> [] -> put t t' (dest ++ q) data ->
    done_bytes x + Z.of_nat (length data) <= max_extracted_bytes l -> changed l dest x t t'.

(** No file is in the way of the entry, and none of its own. *)
Definition clear (dest : path) (e : Entry) (t : gmap path Node) : Prop :=
  (forall q d, q `prefix_of` entry_path e -> t !! (dest ++ q) <> Some (File d))
  /\ (filetype e = AE_IFREG -> t !! (dest ++ entry_path e) = None).

Definition extracted (dest : path) (e : Entry) (t t' : gmap path Node) : Prop :=
  match filetype e with
  | AE_IFDIR => made t t' (dest ++ entry_path e) /\ t' !! (dest ++ entry_path e) = Some Dir
  | AE_IFREG => put t t' (dest ++ entry_path e) (entry_data e)
  | AE_OTHER => False
  end.

Lemma prefix_app_cases (p a b : path) :
  p `prefix_of` a ++ b -> p `prefix_of` a \/ exists q, q <> [] /\ p = a ++ q /\ q `prefix_of` b.
Proof.
  revert p. induction a as [|c a IH]; intros p H; cbn in *.
  - destruct p as [|d p]; [left; by eexists|]. right. by exists (d :: p).
  - destruct p as [|d p]; [left; apply prefix_nil|]. destruct H as [r Hr]. cbn in Hr. injection Hr as <- Hr.
    destruct (IH p) as [H|(q & H1 & -> & H2)]; [by exists r|left; by apply prefix_cons|].
    right. by exists q.
Qed.

Lemma extract_entry_spec l dest zstd tar e x s s' r :
  limits_ok l -> progress_ok l x -> tree_ok (tree s) -> Forall plain dest -> tree s !! dest = Some Dir ->
  extract_entry l dest zstd tar e x s = (s', r) ->
  changed l dest x (tree s) (tree s')
  /\ (forall x', r = Ok x' -> zstd = true /\ tar = true /\ entry_ok e /\ room l e x /\ x' = advance e x
       /\ extracted dest e (tree s) (tree s'))
  /\ (answers s = [] -> answers s' = []
      /\ (zstd = true -> tar = true -> entry_ok e -> room l e x -> clear dest e (tree s) -> is_ok r = true)).
Proof.
  intros Hl Hx Ht Hd Hdir. unfold extract_entry. pose proof (check_entry_spec l zstd tar e x Hl Hx) as C.
  destruct (check_entry l zstd tar e x) as [[q x1]|st].
  2: { intros [= <- <-]. split_and!; [by apply changed_same|done|]. intros Hs. split; [done|]. intros H1 H2 H3 H4 _.
       by destruct (C H1 H2 H3 H4). }
  destruct C as (-> & -> & Hpath & -> & -> & C1 & C2 & C3 & C4 & C5 & C6 & C7 & C8).
  assert (Hq : Forall plain (entry_path e) /\ entry_path e <> []).
  { destruct Hpath as [q Hq]. unfold entry_path. rewrite Hq. by eapply normalized_plain. }
  destruct Hq as [Hq Hne]. assert (Hp : Forall plain (dest ++ entry_path e)) by by apply Forall_app.
  (* a file in the way is in the way of the entry *)
  assert (Hway : clear dest e (tree s) -> forall q d, q `prefix_of` dest ++ entry_path e -> tree s !! q <> Some (File d)).
  { intros [Hc _] q d [Hpre|(q' & _ & -> & Hq')]%prefix_app_cases; [|by apply Hc].
    destruct (decide (q = dest)) as [->|Hn]; [congruence|]. destruct Hpre as [r0 Hr0].
    rewrite (tree_ok_prefix (tree s) q r0); [done|done| |]; rewrite <- ?Hr0; [by eauto|].
    intros ->. rewrite app_nil_r in Hr0. congruence. }
  destruct (filetype e) eqn:Ef.
  - destruct (exists_last Hne) as (qs & c & Eq). rewrite Eq in *.
    cbn [done_bytes]. destruct (extract_file l (dest ++ qs ++ [c]) e (done_bytes x) s) as [s1 r1] eqn:E1.
    rewrite app_assoc in E1, Hp, Hway.
    apply extract_file_spec in E1 as [E1 N1]; [|done|done|apply Hx].
    assert (Hdata : entry_data e = block_data (blocks e)) by (unfold entry_data; by rewrite Ef).
    intros Hr. assert (Hs : s' = s1) by (destruct r1; by injection Hr). subst s1. split_and!.
    + destruct E1 as [[M _]|(data & P & Hb & _)]; [by eapply changed_made|].
      apply (changed_put _ _ _ _ _ (qs ++ [c]) data); [by destruct qs|by rewrite app_assoc|done].
    + intros x' ->. destruct r1 as [total|st]; [|done]. injection Hr as <-.
      destruct E1 as [[_ H]|(data & P & Hb & H)]; [by destruct (H total)|].
      destruct (H total eq_refl) as (-> & Hc & ->). rewrite <- Hdata in *. split_and!; try done.
      * constructor; [done..|by rewrite Ef|done].
      * constructor; [done|by rewrite Eq|done|done].
      * unfold advance. by rewrite Eq.
      * unfold extracted. by rewrite Ef, Eq, app_assoc.
    + intros Hs. destruct (N1 Hs) as [Hs' Hok]. split; [done|]. intros _ _ [_ _ _ _ Hc] [_ _ Hb _] Hcl.
      unfold entry_size in Hb. rewrite Hdata in Hb.
      destruct Hok as [t' ->].
      * intros q d Hpre. apply Hway; [done|]. etrans; [done|]. by eexists.
      * destruct Hcl as [_ Hf]. rewrite Eq, app_assoc in Hf. by apply Hf.
      * by apply Hc.
      * done.
      * by injection Hr as <-.
  - destruct (create_directories (dest ++ entry_path e) s) as [s1 r1] eqn:E1.
    destruct (create_directories_spec _ _ _ _ Ht Hp E1) as (M1 & O1 & N1).
    intros Hr. assert (Hs : s' = s1) by (destruct r1 as [[]|]; by injection Hr). subst s1. split_and!.
    + by eapply changed_made.
    + intros x' ->. destruct r1 as [[]|]; [|done]. injection Hr as <-.
      assert (Hz : entry_size e = 0) by (unfold entry_size, entry_data; by rewrite Ef). split_and!; try done.
      * constructor; [done..|by rewrite Ef|by rewrite Ef].
      * constructor; [done|done|rewrite Hz; destruct Hx; lia|done].
      * unfold advance. f_equal. rewrite Hz. lia.
      * unfold extracted. rewrite Ef. split; [done|by apply O1].
    + intros Hs. destruct (N1 Hs) as [Hs' Hok]. split; [done|]. intros _ _ _ _ Hcl.
      rewrite (Hok (Hway Hcl)) in Hr. by injection Hr as <-.
  - intros [= <- <-]. split_and!; [by apply changed_same|done|]. intros Hs. split; [done|].
    intros _ _ [_ _ _ H _]. by destruct H.
Qed.

(** *** Containment *)

(** [t] has grown from [t0] below [dest] only. *)
Record contained (dest : path) (t0 t : gmap path Node) : Prop := mkContained {
  con_old : forall p n, t0 !! p = Some n -> t !! p = Some n;
  con_new : forall p n, t !! p = Some n -> t0 !! p = None -> exists q, q <> [] /\ p = dest ++ q;
  con_tree : tree_ok t;
}.

Lemma contained_refl dest t : tree_ok t -> contained dest t t.
Proof. intros Ht. split; try done. intros p n H1 H2. congruence. Qed.

Section Contained.
Context (dest : path) (t0 : gmap path Node) (Ht0 : tree_ok t0) (Hdest : t0 !! dest = Some Dir).

Lemma prefix_of_dest q : q `prefix_of` dest -> t0 !! q = Some Dir.
Proof.
  intros [r Hr]. destruct (decide (q = dest)) as [->|Hn]; [done|].
  apply (tree_ok_prefix t0 q r); [done|rewrite <- Hr; eauto|]. intros ->. by rewrite app_nil_r in Hr.
Qed.

Lemma contained_made t t' q : contained dest t0 t -> made t t' (dest ++ q) -> contained dest t0 t'.
Proof.
  intros [C1 C2 C3] [M1 M2 M3 M4]. split; [auto| |done]. intros p n Hn H0.
  destruct (t !! p) as [m|] eqn:E; [by eapply C2|]. destruct (M2 p n Hn E) as [_ Hp].
  apply prefix_app_cases in Hp as [Hp|(r & ? & -> & _)]; [|eauto].
  apply prefix_of_dest in Hp. congruence.
Qed.

Lemma removelast_app_ne (q : path) : q <> [] -> removelast (dest ++ q) = dest ++ removelast q.
Proof. intros Hq. by apply removelast_app. Qed.

Lemma contained_put t t' q data :
  q <> [] -> contained dest t0 t -> put t t' (dest ++ q) data -> contained dest t0 t'.
Proof.
  intros Hq Hc (t1 & M & Hd & Hn & ->). rewrite removelast_app_ne in * by done.
  pose proof (contained_made _ _ _ Hc M) as [C1 C2 C3].
  destruct (exists_last Hq) as (qs & c & ->). rewrite removelast_last, app_assoc in *. split.
  - intros p n Hp. rewrite lookup_insert_ne; [auto|]. intros <-. apply C1 in Hp. congruence.
  - intros p n [[<- _]|[_ Hp]]%lookup_insert_Some H0; [|by eapply C2].
    exists (qs ++ [c]). split; [by destruct qs|by rewrite app_assoc].
  - by apply tree_ok_insert.
Qed.

Lemma put_bytes t t' p data : put t t' p data -> tree_bytes t' = tree_bytes t + Z.of_nat (length data).
Proof.
  intros (t1 & M & _ & Hn & ->). rewrite tree_bytes_insert by done. rewrite (made_bytes _ _ _ M). cbn. lia.
Qed.

Lemma contained_changed l x t t' :
  contained dest t0 t -> changed l dest x t t' -> done_bytes x <= max_extracted_bytes l ->
  contained dest t0 t' /\ tree_bytes t' <= tree_bytes t + (max_extracted_bytes l - done_bytes x).
Proof.
  intros Hc Hch Hb. destruct Hch as [->|q M|q data Hq P Hd].
  - split; [done|lia].
  - split; [by eapply contained_made|]. rewrite (made_bytes _ _ _ M). lia.
  - split; [by eapply contained_put|]. rewrite (put_bytes _ _ _ _ P). lia.
Qed.

Lemma extracted_bytes_exact e t t' : extracted dest e t t' -> tree_bytes t' = tree_bytes t + entry_size e.
Proof.
  unfold extracted, entry_size, entry_data. destruct (filetype e); [apply put_bytes| |done].
  intros [M _]. rewrite (made_bytes _ _ _ M). cbn. lia.
Qed.

Lemma advance_ok l e x : progress_ok l x -> room l e x -> progress_ok l (advance e x).
Proof.
  intros [Hm Hb] [_ R2 R3 _]. unfold progress_ok, advance, entry_size, name_size in *. cbn in *. lia.
Qed.

Lemma headers_contained l hs x s s' r :
  limits_ok l -> progress_ok l x -> Forall plain dest -> contained dest t0 (tree s) ->
  tree_bytes (tree s) = tree_bytes t0 + done_bytes x ->
  extract_headers l dest hs x s = (s', r) ->
  contained dest t0 (tree s') /\ tree_bytes (tree s') <= tree_bytes t0 + max_extracted_bytes l
  /\ (answers s = [] -> answers s' = []).
Proof.
  intros Hl Hx Hd. revert x s Hx. induction hs as [|[zstd tar e|err] hs IH]; intros x s Hx Hc Hb; cbn.
  - intros [= <- <-]. split_and!; [done| |done]. destruct Hx. lia.
  - destruct (extract_entry l dest zstd tar e x s) as [s1 r1] eqn:E.
    destruct (extract_entry_spec _ _ _ _ _ _ _ _ _ Hl Hx (con_tree _ _ _ Hc) Hd (con_old _ _ _ Hc _ _ Hdest) E)
      as (Hch & Hok & Hans).
    destruct (contained_changed _ _ _ _ Hc Hch) as [Hc1 Hb1]; [apply Hx|].
    destruct r1 as [x1|st].
    + destruct (Hok x1 eq_refl) as (_ & _ & _ & R & -> & Hex). intros E2.
      apply IH in E2 as (H1 & H2 & H3); [|by apply advance_ok|done|].
      * split_and!; [done..|]. intros Hs. apply H3. by destruct (Hans Hs).
      * rewrite (extracted_bytes_exact _ _ _ Hex), Hb. cbn. lia.
    + intros [= <- <-]. split_and!; [done|lia|]. intros Hs. by destruct (Hans Hs).
  - intros [= <- <-]. split_and!; [done| |done]. destruct Hx. lia.
Qed.

End Contained.

(** *** The extracted tree *)

Definition total {A} (f : A -> Z) (l : list A) : Z := foldr (fun a acc => f a + acc) 0 l.

Lemma total_snoc {A} (f : A -> Z) l a : total f (l ++ [a]) = total f l + f a.
Proof. unfold total. induction l as [|b l IH]; cbn in *; [lia|]. rewrite IH. lia. Qed.
#[local] Arguments total : simpl never.

Definition progress_of (es : list Entry) : Progress :=
  mkProgress (Z.of_nat (length es)) (total entry_size es) (total (fun e => name_size (entry_path e)) es)
    (list_to_set (entry_name <$> es)).

Lemma progress_snoc es e : progress_of (es ++ [e]) = advance e (progress_of es).
Proof.
  unfold progress_of, advance. cbn. rewrite !total_snoc, length_app, fmap_app, list_to_set_app_L. cbn.
  f_equal; [lia|]. set_solver.
Qed.

(** The node an archive describes at a path. *)
Definition describes (es : list Entry) (q : path) (n : Node) : Prop :=
  match n with
  | File d => exists e, e ∈ es /\ filetype e = AE_IFREG /\ entry_path e = q /\ entry_data e = d
  | Dir => exists e, e ∈ es /\ q `prefix_of` entry_path e /\ (filetype e = AE_IFREG -> entry_path e <> q)
  end.

Definition reflects (dest : path) (es : list Entry) (t : gmap path Node) : Prop :=
  tree_ok t /\ t !! dest = Some Dir
  /\ forall q n, q <> [] -> (t !! (dest ++ q) = Some n <-> describes es q n).

(** No entry is a file where another has a file or a directory. *)
Definition apart (es : list Entry) (e : Entry) : Prop :=
  forall e1, e1 ∈ es ->
    (filetype e1 = AE_IFREG -> ~ entry_path e1 `prefix_of` entry_path e)
    /\ (filetype e = AE_IFREG -> ~ entry_path e `prefix_of` entry_path e1).

(** An archive within the limits whose entries can all be extracted. *)
Record proper (l : WorkspaceArchiveLimits) (es : list Entry) : Prop := mkProper {
  pr_entries : Forall entry_ok es;
  pr_count : Z.of_nat (length es) <= max_entries l;
  pr_metadata : total (fun e => name_size (entry_path e)) es <= max_metadata_bytes l;
  pr_bytes : total entry_size es <= max_extracted_bytes l;
  pr_names : NoDup (entry_name <$> es);
  pr_apart : forall i e, es !! i = Some e -> apart (take i es) e;
}.

Lemma proper_nil l : limits_ok l -> proper l [].
Proof.
  intros (? & ? & ?). constructor; [constructor|unfold total; cbn; lia..|constructor|done].
Qed.

Lemma size_nonneg e : 0 <= entry_size e /\ 0 <= name_size (entry_path e).
Proof. unfold entry_size, name_size. lia. Qed.

Lemma proper_snoc l es e :
  proper l (es ++ [e]) <-> proper l es /\ entry_ok e /\ room l e (progress_of es) /\ apart es e.
Proof.
  pose proof (size_nonneg e) as [Hz1 Hz2]. split.
  - intros [P1 P2 P3 P4 P5 P6]. rewrite !total_snoc in *. rewrite length_app in P2. cbn in P2.
    apply Forall_app in P1 as [P1 [Pe _]%Forall_cons]. rewrite fmap_app in P5.
    apply NoDup_app in P5 as (P5 & P7 & _). split_and!; [|done| |].
    + split; [done|lia..|done|]. intros i e1 Hi. specialize (P6 i e1).
      rewrite lookup_app_l, take_app_le in P6; [by apply P6|apply lookup_lt_Some in Hi; lia|by eapply lookup_lt_Some].
    + split; cbn; [lia..|]. rewrite elem_of_list_to_set. intros Hin. apply (P7 _ Hin). cbn. by left.
    + specialize (P6 (length es) e). rewrite take_app_length in P6. apply P6.
      rewrite lookup_app_r by lia. by rewrite Nat.sub_diag.
  - intros ([P1 P2 P3 P4 P5 P6] & He & [R1 R2 R3 R4] & Ha). cbn in R1, R2, R3, R4.
    rewrite elem_of_list_to_set in R4. split.
    + apply Forall_app. split; [done|by apply Forall_singleton].
    + rewrite length_app. cbn. lia.
    + rewrite total_snoc. lia.
    + rewrite total_snoc. lia.
    + rewrite fmap_app. apply NoDup_app. split_and!; [done| |apply NoDup_singleton].
      intros x Hx. cbn. rewrite list_elem_of_singleton. by intros ->.
    + intros i e1 [Hi|[Hi He1]]%lookup_app_Some.
      * rewrite take_app_le by (apply lookup_lt_Some in Hi; lia). by apply P6.
      * destruct (i - length es)%nat as [|k] eqn:Ek; [|done]. injection He1 as <-.
        replace i with (length es) by lia. by rewrite take_app_length.
Qed.

(** What [made] means for the paths below the destination. *)
Lemma made_below dest p t t1 :
  made t t1 (dest ++ p) -> t1 !! (dest ++ p) = Some Dir ->
  (forall q n, t1 !! (dest ++ q) = Some n <-> t !! (dest ++ q) = Some n \/ n = Dir /\ q `prefix_of` p)
  /\ (forall q d, q `prefix_of` p -> t !! (dest ++ q) <> Some (File d)).
Proof.
  intros M Hd. assert (Hpre : forall q, q `prefix_of` p -> t1 !! (dest ++ q) = Some Dir).
  { intros q [r ->]. destruct (decide (r = [])) as [->|Hr]; [by rewrite app_nil_r in *|].
    apply (tree_ok_prefix t1 _ r); [apply M|rewrite <- app_assoc; eauto|done]. }
  split.
  - intros q n. split.
    + intros Hn. destruct (t !! (dest ++ q)) as [m|] eqn:E.
      * left. rewrite (made_old _ _ _ M _ _ E) in Hn. done.
      * right. destruct (made_new _ _ _ M _ _ Hn E) as [-> Hq]. split; [done|]. by apply prefix_app_inv in Hq.
    + intros [Hn|[-> Hq]]; [by apply (made_old _ _ _ M)|by apply Hpre].
  - intros q d Hq Hf. apply (made_old _ _ _ M) in Hf. by rewrite Hpre in Hf.
Qed.

Lemma describes_mono es es' q n : es `prefix_of` es' -> describes es q n -> describes es' q n.
Proof.
  intros [k ->]. destruct n as [|d]; intros (e & He & H); exists e; (split; [|done]); apply elem_of_app; by left.
Qed.

Lemma describes_snoc es e q n :
  describes (es ++ [e]) q n <-> describes es q n \/ describes [e] q n.
Proof.
  split.
  - destruct n as [|d]; intros (e1 & [He|He]%elem_of_app & H); [left|right|left|right]; by exists e1.
  - intros [H|H]; [by eapply describes_mono, H; eexists|].
    destruct n as [|d]; destruct H as (e1 & He & H); exists e1; (split; [|done]); apply elem_of_app; by right.
Qed.

Lemma describes_one e q n :
  entry_path e <> [] ->
  describes [e] q n <->
    match filetype e with
    | AE_IFREG => n = Dir /\ q `prefix_of` removelast (entry_path e)
                  \/ n = File (entry_data e) /\ q = entry_path e
    | _ => n = Dir /\ q `prefix_of` entry_path e
    end.
Proof.
  intros Hne. unfold describes. split.
  - destruct n as [|d]; intros (e1 & ->%list_elem_of_singleton & H); destruct (filetype e) eqn:Ef.
    + left. destruct H as [H1 H2]. split; [done|]. apply prefix_proper; [done|]. intros ->. by apply H2.
    + by destruct H.
    + by destruct H.
    + right. destruct H as (_ & <- & <-). done.
    + by destruct H.
    + by destruct H.
  - destruct (filetype e) eqn:Ef; [intros [[-> H]|[-> ->]]|intros [-> H]|intros [-> H]];
      exists e; (split; [by left|]).
    + split; [by apply prefix_parent|]. intros _ <-. destruct (exists_last Hne) as (qs & c & E).
      rewrite E, removelast_last in H. apply prefix_length in H. rewrite length_app in H. cbn in H. lia.
    + done.
    + split; [done|]. by rewrite Ef.
    + split; [done|]. by rewrite Ef.
Qed.

Lemma reflects_snoc dest es e t t' :
  reflects dest es t -> entry_ok e -> extracted dest e t t' ->
  reflects dest (es ++ [e]) t' /\ clear dest e t.
Proof.
  intros (Ht & Hd & Hr) He. destruct (entry_ok_plain e He) as [_ Hne]. unfold extracted.
  pose proof (fun q n => describes_one e q n Hne) as D1.
  destruct (filetype e) eqn:Ef; [|intros [M Hp]|done].
  - intros (t1 & M & Hp & Hn & ->). rewrite removelast_app_ne in M, Hp by done.
    destruct (made_below _ _ _ _ M Hp) as [B1 B2].
    destruct (exists_last Hne) as (qs & c & Eq). split; [split_and!|split].
    + rewrite Eq in *. rewrite removelast_last in *. rewrite app_assoc in *.
      apply tree_ok_insert; [apply M|done|done].
    + rewrite lookup_insert_ne; [by apply (made_old _ _ _ M)|]. intros E. apply (f_equal length) in E.
      rewrite Eq, !length_app in E. cbn in E. lia.
    + intros q n Hq. rewrite describes_snoc, D1, <- Hr by done.
      rewrite lookup_insert_Some. split.
      * intros [[E%app_inv_head <-]|[_ H]]; [by right; right|]. apply B1 in H as [?|?]; [by left|by right; left].
      * intros H. destruct (decide (q = entry_path e)) as [->|Hqe].
        -- left. split; [done|]. destruct H as [H|[[-> H]|[-> _]]]; [|exfalso|done].
           ++ apply (made_old _ _ _ M) in H. congruence.
           ++ rewrite Eq, removelast_last in H. apply prefix_length in H. rewrite length_app in H. cbn in H. lia.
        -- right. split; [by intros E%app_inv_head|]. apply B1. destruct H as [?|[?|[_ ?]]]; [by left|by right|done].
    + intros q d Hq Hf. destruct (decide (q = entry_path e)) as [->|Hqe].
      * apply (made_old _ _ _ M) in Hf. congruence.
      * eapply B2, Hf. by apply prefix_proper.
    + intros _. destruct (t !! (dest ++ entry_path e)) as [m|] eqn:E; [|done].
      apply (made_old _ _ _ M) in E. congruence.
  - destruct (made_below _ _ _ _ M Hp) as [B1 B2]. split; [split_and!|split].
    + apply M.
    + by apply (made_old _ _ _ M).
    + intros q n Hq. by rewrite describes_snoc, D1, <- Hr, B1.
    + done.
    + congruence.
Qed.

Lemma clear_apart dest es e t :
  reflects dest es t -> Forall entry_ok es -> entry_path e <> [] -> clear dest e t <-> apart es e.
Proof.
  intros (Ht & Hd & Hr) Hes Hne. unfold clear, apart. split.
  - intros [C1 C2] e1 He1. rewrite Forall_forall in Hes. destruct (entry_ok_plain e1 (Hes e1 He1)) as [_ Hne1]. split.
    + intros Hf Hpre. apply (C1 _ (entry_data e1) Hpre), Hr; [done|]. by exists e1.
    + intros Hf Hpre. specialize (C2 Hf).
      assert (Hn : forall n, ~ describes es (entry_path e) n) by (intros n H%Hr; [congruence|done]).
      destruct (decide (entry_path e1 = entry_path e)) as [E|E].
      * destruct (filetype e1) eqn:Ef1; [apply (Hn (File (entry_data e1)))|apply (Hn Dir)|apply (Hn Dir)];
          exists e1; rewrite ?Ef1; by split_and!.
      * apply (Hn Dir). by exists e1.
  - intros Ha. split.
    + intros q d Hpre Hf. destruct (decide (q = [])) as [->|Hq]; [rewrite app_nil_r in Hf; congruence|].
      apply Hr in Hf as (e1 & He1 & Hf1 & <- & _); [|done]. by destruct (Ha e1 He1) as [H _]; apply H.
    + intros Hf. destruct (t !! (dest ++ entry_path e)) as [n|] eqn:E; [|done].
      apply Hr in E; [|done]. destruct n as [|d]; destruct E as (e1 & He1 & H).
      * destruct (Ha e1 He1) as [_ H2]. exfalso. by apply H2; [|apply H].
      * destruct H as (Hf1 & E & _). destruct (Ha e1 He1) as [_ H2]. exfalso. apply H2; [done|]. by rewrite E.
Qed.

Lemma proper_progress_ok l es : proper l es -> progress_ok l (progress_of es).
Proof.
  intros [_ P2 P3 P4 _ _]. unfold progress_ok. cbn.
  assert (H : forall (f : Entry -> Z) es0, (forall e, 0 <= f e) -> 0 <= total f es0).
  { intros f es0 Hf. unfold total. induction es0 as [|e es0 IH]; cbn; [done|]. specialize (Hf e). lia. }
  split; (split; [|done]); apply H; intros; apply size_nonneg.
Qed.

Lemma headers_exact l dest hs es s s' r :
  limits_ok l -> Forall plain dest -> proper l es -> reflects dest es (tree s) ->
  extract_headers l dest hs (progress_of es) s = (s', r) ->
  (forall x', r = Ok x' -> exists es', hs = Next true true <$> es' /\ proper l (es ++ es')
     /\ x' = progress_of (es ++ es') /\ reflects dest (es ++ es') (tree s'))
  /\ (answers s = [] -> forall es', hs = Next true true <$> es' -> proper l (es ++ es') -> is_ok r = true).
Proof.
  intros Hl Hd. revert es s. induction hs as [|[zstd tar e|err] hs IH]; intros es s Hp Hr; cbn.
  - intros [= <- <-]. split; [|done]. intros x' [= <-]. exists []. by rewrite app_nil_r.
  - destruct (extract_entry l dest zstd tar e (progress_of es) s) as [s1 r1] eqn:E.
    pose proof Hr as (Ht & Hdir & _).
    destruct (extract_entry_spec _ _ _ _ _ _ _ _ _ Hl (proper_progress_ok _ _ Hp) Ht Hd Hdir E)
      as (_ & Hok & Hcomp).
    (* a step that succeeds is one entry more *)
    assert (Hstep : forall x1, r1 = Ok x1 -> zstd = true /\ tar = true /\ x1 = progress_of (es ++ [e])
      /\ proper l (es ++ [e]) /\ reflects dest (es ++ [e]) (tree s1)).
    { intros x1 Hx1. destruct (Hok x1 Hx1) as (-> & -> & He & R & -> & Hex).
      destruct (reflects_snoc _ _ _ _ _ Hr He Hex) as [Hr1 Hc]. rewrite progress_snoc. split_and!; try done.
      apply proper_snoc. split_and!; try done. apply (clear_apart dest es e (tree s)); try done; [apply Hp|].
      by apply entry_ok_plain. }
    destruct r1 as [x1|st].
    + destruct (Hstep x1 eq_refl) as (-> & -> & -> & Hp1 & Hr1). intros E2.
      destruct (IH _ _ Hp1 Hr1 E2) as [H1 H2]. split.
      * intros x' Hx'. destruct (H1 x' Hx') as (es' & -> & H). exists (e :: es').
        by rewrite (cons_middle e es es'), app_assoc.
      * intros Hs es' Hes' Hpr. destruct es' as [|e' es']; [done|]. injection Hes' as <- ->.
        destruct (Hcomp Hs) as [Hs1 _]. apply (H2 Hs1 es'); [done|]. by rewrite <- app_assoc.
    + intros [= <- <-]. split; [done|]. intros Hs es' Hes' Hpr. destruct es' as [|e' es']; [done|].
      injection Hes' as -> -> <- ->. rewrite (cons_middle e es es'), app_assoc in Hpr.
      assert (Hpe : proper l (es ++ [e])).
      { clear - Hpr. induction es' as [|e1 es' IH] using rev_ind; [by rewrite app_nil_r in Hpr|].
        rewrite app_assoc in Hpr. apply proper_snoc in Hpr as [Hpr _]. auto. }
      apply proper_snoc in Hpe as (_ & He & R & Ha). destruct (Hcomp Hs) as [_ H].
      assert (Hc : clear dest e (tree s)).
      { apply (clear_apart dest es e (tree s)); try done; [apply Hp|by apply entry_ok_plain]. }
      by specialize (H eq_refl eq_refl He R Hc).
  - intros [= <- <-]. split; [done|]. intros _ es' Hes' _. by destruct es'.
Qed.

Lemma reflects_fresh dest t :
  tree_ok t -> t !! dest = Some Dir -> (forall q, q <> [] -> t !! (dest ++ q) = None) -> reflects dest [] t.
Proof.
  intros Ht Hd Hf. split_and!; [done..|]. intros q n Hq. rewrite Hf by done. split; [done|].
  destruct n as [|d]; intros (e & He%not_elem_of_nil & _); done.
Qed.

Lemma none_done_progress : none_done = progress_of [].
Proof. done. Qed.

Lemma headers_refused l dest hs x s s' st : extract_headers l dest hs x s = (s', Err st) -> st <> Ok_.
Proof.
  assert (Hio : forall e, io_status e <> Ok_) by (intros e; unfold io_status; by destruct (out_of_space e)).
  assert (Hfile : forall p e total s0 s1 st0, extract_file l p e total s0 = (s1, Err st0) -> st0 <> Ok_).
  { intros p e total0 s0 s1 st0. unfold extract_file, write_status.
    repeat case_match; simplify_eq; intros ?; simplify_eq; done. }
  revert x s. induction hs as [|[zstd tar e|err] hs IH]; intros x s; cbn; [done| |].
  - destruct (extract_entry l dest zstd tar e x s) as [s1 [x1|st1]] eqn:E; [apply IH|].
    intros [= <- <-]. revert E. unfold extract_entry, check_entry.
    repeat case_match; simplify_eq; intros ?; simplify_eq; by eauto.
  - intros [= <- <-]. unfold archive_status. by destruct (out_of_space err).
Qed.

Lemma archive_contained a dest l s s' res :
  limits_ok l -> Forall plain dest -> tree_ok (tree s) ->
  extract_workspace_archive a dest l s = (s', res) ->
  contained dest (tree s) (tree s') /\ tree_bytes (tree s') <= tree_bytes (tree s) + max_extracted_bytes l
  /\ (answers s = [] -> answers s' = []).
Proof.
  intros Hl Hd Ht. pose proof (contained_refl dest _ Ht) as Hc.
  assert (Hsame : contained dest (tree s) (tree s)
    /\ tree_bytes (tree s) <= tree_bytes (tree s) + max_extracted_bytes l /\ (answers s = [] -> answers s = [])).
  { split_and!; [done| |done]. destruct Hl. lia. }
  unfold extract_workspace_archive. destruct (negb (allocated a)); [by intros [= <- <-]|].
  destruct (_ || _); [by intros [= <- <-]|]. destruct (opened a); [|by intros [= <- <-]].
  rewrite (resolve_id _ Hd). destruct (tree s !! dest) as [[|]|] eqn:E; [|by intros [= <- <-]..].
  destruct (extract_headers l dest (headers a) none_done s) as [s1 r1] eqn:Eh.
  apply (headers_contained dest (tree s)) in Eh; try done.
  - destruct r1 as [x|st]; [destruct (_ || _)|]; by intros [= <- <-].
  - rewrite none_done_progress. by apply proper_progress_ok, proper_nil.
  - cbn. lia.
Qed.

Lemma archive_exact a dest l s s' res :
  limits_ok l -> Forall plain dest -> tree_ok (tree s) -> tree s !! dest = Some Dir ->
  (forall q, q <> [] -> tree s !! (dest ++ q) = None) ->
  extract_workspace_archive a dest l s = (s', res) ->
  (status res = Ok_ -> exists es, headers a = Next true true <$> es /\ es <> [] /\ proper l es
     /\ extracted_bytes res = total entry_size es /\ entries res = Z.of_nat (length es)
     /\ reflects dest es (tree s'))
  /\ (answers s = [] -> allocated a = true -> zstd_support a = true -> tar_support a = true ->
      opened a = Ok tt -> zstd_at_end a = true ->
      forall es, headers a = Next true true <$> es -> es <> [] -> proper l es -> status res = Ok_).
Proof.
  intros Hl Hd Ht Hdir Hf. pose proof (reflects_fresh _ _ Ht Hdir Hf) as Hr.
  unfold extract_workspace_archive. destruct (negb (allocated a)) eqn:E1.
  { intros [= <- <-]. split; [done|]. by intros _ Ha; rewrite Ha in E1. }
  destruct (_ || _) eqn:E2.
  { intros [= <- <-]. split; [done|]. by intros _ _ Hz Htar; rewrite Hz, Htar in E2. }
  destruct (opened a) as [[]|e].
  2: { intros [= <- <-]. split; [|done]. cbn. unfold archive_status. by destruct (out_of_space e). }
  rewrite (resolve_id _ Hd), Hdir.
  destruct (extract_headers l dest (headers a) none_done s) as [s1 r1] eqn:Eh.
  rewrite none_done_progress in Eh.
  destruct (headers_exact _ _ _ [] _ _ _ Hl Hd (proper_nil l Hl) Hr Eh) as [H1 H2].
  destruct r1 as [x|st].
  - destruct (H1 x eq_refl) as (es & Hes & Hp & -> & Hr'). rewrite Hes. destruct es as [|e es]; cbn.
    + intros [= <- <-]. split; [done|]. intros _ _ _ _ _ _ es Hes' Hne _. by destruct es.
    + destruct (zstd_at_end a); cbn; intros [= <- <-]; (split; [|done]); [|done].
      intros _. exists (e :: es). by split_and!.
  - intros [= <- <-]. split; [cbn; intros ->; by destruct (headers_refused _ _ _ _ _ _ _ Eh)|]. intros Hs _ _ _ _ _ es Hes _ Hp.
    by specialize (H2 Hs es Hes Hp).
Qed.

(** C13: Extraction never leaves its directory.  Whatever the archive contains and
    however the system calls fail, every file and directory that existed is as it
    was, everything that is new is below the destination, and the files that were
    written, partial ones included, hold at most the permitted number of bytes. *)
Theorem extraction_contained (a : Archive) (dest : path) (l : WorkspaceArchiveLimits) (s : Os) :
  limits_ok l -> Forall plain dest -> tree_ok (tree s) ->
  let s' := (extract_workspace_archive a dest l s).1 in
  tree_ok (tree s')
  /\ (forall p n, tree s !! p = Some n -> tree s' !! p = Some n)
  /\ (forall p n, tree s' !! p = Some n -> tree s !! p = None -> exists q, q <> [] /\ p = dest ++ q)
  /\ tree_bytes (tree s') <= tree_bytes (tree s) + max_extracted_bytes l.
Proof.
  intros Hl Hd Ht s'.
  destruct (archive_contained a dest l s s' (extract_workspace_archive a dest l s).2 Hl Hd Ht) as ([H1 H2 H3] & H4 & _);
    [apply surjective_pairing|]. by split_and!.
Qed.

(** C25: Extraction into an empty directory is exact.  If it is reported to succeed,
    every entry was a file or a directory with a safe relative path and no links or
    extended metadata, all limits held, no two entries collided, and the destination
    holds exactly the described tree: the files with their data, the directories, and
    the directories on the way.  Conversely, when no system call fails every such
    archive is extracted. *)
Theorem extraction_exact (a : Archive) (dest : path) (l : WorkspaceArchiveLimits) (s : Os) :
  limits_ok l -> Forall plain dest -> tree_ok (tree s) -> tree s !! dest = Some Dir ->
  (forall q, q <> [] -> tree s !! (dest ++ q) = None) ->
  let '(s', res) := extract_workspace_archive a dest l s in
  (status res = Ok_ -> exists es, headers a = Next true true <$> es /\ es <> [] /\ proper l es
     /\ extracted_bytes res = total entry_size es /\ entries res = Z.of_nat (length es)
     /\ forall q n, q <> [] -> (tree s' !! (dest ++ q) = Some n <-> describes es q n))
  /\ (answers s = [] -> allocated a = true -> zstd_support a = true -> tar_support a = true ->
      opened a = Ok tt -> zstd_at_end a = true ->
      forall es, headers a = Next true true <$> es -> es <> [] -> proper l es -> status res = Ok_).
Proof.
  intros Hl Hd Ht Hdir Hf. destruct (extract_workspace_archive a dest l s) as [s' res] eqn:E.
  destruct (archive_exact a dest l s s' res Hl Hd Ht Hdir Hf E) as [H1 H2]. split; [|done].
  intros Hok. destruct (H1 Hok) as (es & ? & ? & ? & ? & ? & Hr). exists es. split_and!; try done. apply Hr.
Qed.

(** ** An archive *)

Definition sample_limits : WorkspaceArchiveLimits := mkLimits 10 4 100.
Definition regular (name : string) (bytes : list Z) : Entry :=
  mkEntry (Some name) false false 0 0 0 AE_IFREG [Data bytes 0].
Definition sample_entries : list Entry :=
  [regular "./main.ngc" [71; 48]; regular "sub//tool.ngc" [77; 54; 10];
   mkEntry (Some "sub"%string) false false 0 0 0 AE_IFDIR []].
Definition archive_of (es : list Entry) : Archive :=
  mkArchive true true true (Ok tt) (Next true true <$> es) true.
Definition sample_dest : path := ["var"; "revision"]%string.
Definition sample_os (l : list Answer) : Os :=
  mkOs {[ [] := Dir; ["var"%string] := Dir; sample_dest := Dir ]} l.

Lemma sample_tree_ok l : tree_ok (tree (sample_os l)).
Proof.
  split; [vm_compute; reflexivity|]. intros p c n Hn. apply elem_of_map_to_list in Hn.
  vm_compute in Hn. repeat (apply elem_of_cons in Hn as [[= Heq _]|Hn]);
    [..|by apply not_elem_of_nil in Hn]; destruct p as [|a [|b [|d p]]]; simplify_eq/=; vm_compute; reflexivity.
Qed.

Lemma sample_plain : Forall plain sample_dest.
Proof. repeat constructor; discriminate. Qed.

Lemma sample_limits_ok : limits_ok sample_limits.
Proof. unfold limits_ok, size_max. cbn. lia. Qed.

Lemma sample_fresh l q : q <> [] -> tree (sample_os l) !! (sample_dest ++ q) = None.
Proof.
  intros Hq. destruct (tree (sample_os l) !! (sample_dest ++ q)) as [n|] eqn:E; [|done]. exfalso.
  apply elem_of_map_to_list in E.
  assert (Hm : map_to_list (tree (sample_os l)) = [(["var"%string], Dir); (sample_dest, Dir); ([], Dir)])
    by (vm_compute; reflexivity).
  rewrite Hm in E. repeat (apply elem_of_cons in E as [[= Heq _]|E]); try by apply not_elem_of_nil in E.
  by apply Hq.
Qed.

Lemma sample_proper : proper sample_limits sample_entries.
Proof.
  constructor.
  - repeat constructor; cbn; by eauto.
  - vm_compute. discriminate.
  - vm_compute. discriminate.
  - vm_compute. discriminate.
  - vm_compute. repeat constructor; set_solver.
  - intros i e Hi e1 He1. do 3 (destruct i as [|i]; [injection Hi as <-; cbn in He1;
      repeat (apply elem_of_cons in He1 as [->|He1]; [vm_compute; split; intros ? [k Hk]; discriminate|]);
      by apply not_elem_of_nil in He1|]). done.
Qed.

(** The write of a file stops half way for lack of space. *)
Example extraction_contained_witness :
  let s' := (extract_workspace_archive (archive_of sample_entries) sample_dest sample_limits
               (sample_os [Go; Wrote 0; Fail ENOSPC])).1 in
  tree s' !! (sample_dest ++ ["main.ngc"%string]) = Some (File [71])
  /\ tree s' !! ["var"%string] = Some Dir /\ tree_bytes (tree s') <= tree_bytes (tree (sample_os [])) + 10.
Proof.
  intros s'.
  destruct (extraction_contained (archive_of sample_entries) sample_dest sample_limits
              (sample_os [Go; Wrote 0; Fail ENOSPC]) sample_limits_ok sample_plain (sample_tree_ok _))
    as (_ & H2 & _ & H4).
  split; [vm_compute; reflexivity|]. split; [apply (H2 ["var"%string] Dir); vm_compute; reflexivity|exact H4].
Defined.

Example extraction_exact_witness :
  let e := extract_workspace_archive (archive_of sample_entries) sample_dest sample_limits (sample_os []) in
  status e.2 = Ok_ /\ entries e.2 = 3
  /\ tree e.1 !! (sample_dest ++ ["sub"; "tool.ngc"]%string) = Some (File [77; 54; 10]).
Proof.
  pose proof (extraction_exact (archive_of sample_entries) sample_dest sample_limits (sample_os [])
    sample_limits_ok sample_plain (sample_tree_ok _) eq_refl (sample_fresh [])) as H.
  rewrite (surjective_pairing (extract_workspace_archive _ _ _ _)) in H. destruct H as [_ H2].
  split; [|split; vm_compute; reflexivity].
  apply (H2 eq_refl eq_refl eq_refl eq_refl eq_refl eq_refl sample_entries eq_refl);
    [discriminate|exact sample_proper].
Defined.

End Extract.

(** * The upload call *)
Module Upload.
Import Files Extract.

Inductive Code :=
| OK | CANCELLED | INVALID_ARGUMENT | DEADLINE_EXCEEDED | RESOURCE_EXHAUSTED | INTERNAL.

#[export] Instance Code_eq_dec : EqDecision Code.
Proof. solve_decision. Defined.

Definition kMaxUploadChunk : Z := 16 * 1024 * 1024.

Definition io_failure (errno : Z) : Code :=
  if out_of_space errno then RESOURCE_EXHAUSTED else INTERNAL.

Record Config := mkConfig {
  root : path;
  max_upload_bytes : Z;
  archive_limits : WorkspaceArchiveLimits;
  upload_timeout : Z;
  upload_limit : nat;
}.

Definition staging_root (cfg : Config) : path := root cfg ++ [".uploads"%string].
Definition directory (cfg : Config) : path := staging_root cfg ++ ["current"%string].
Definition archive (cfg : Config) : path := directory cfg ++ ["workspace.tar.zst"%string].
Definition revision (cfg : Config) : path := directory cfg ++ ["revision"%string].
Definition workspace_path (cfg : Config) (id : string) : path := root cfg ++ [id].

(** The file system, the store and the uploads in progress. *)
Record Server := mkServer {
  os : Os;
  store : Store.ProgramWorkspaceStore;
  uploads : nat;
}.

(** ** [StagedArchive] *)

(** [open] *)
Definition open_staged (cfg : Config) (s : Os) : Os * outcome Code unit :=
  match remove_all (directory cfg) s with
  | (s1, Err e) => (s1, Err (io_failure e))
  | (s1, Ok _) =>
      match create_directory (directory cfg) s1 with
      | (s2, Err e) => (s2, Err (io_failure e))
      | (s2, Ok _) =>
          match open_new (archive cfg) s2 with
          | (s3, Err e) => (s3, Err (io_failure e))
          | (s3, Ok _) => (s3, Ok tt)
          end
      end
  end.

(** The destructor; it ignores the errors. *)
Definition destroy_staged (cfg : Config) (is_open : bool) (s : Os) : Os :=
  let s1 := if is_open then (close s).1 else s in (remove_all (directory cfg) s1).1.

(** One message: what [IsCancelled] answers after it, and its chunk. *)
Record Upload := mkUpload { cancelled : bool; archive_chunk : list Z }.

(** The loop over the messages; [bytes]: the bytes staged so far. *)
Fixpoint receive (cfg : Config) (messages : list Upload) (bytes : Z) (s : Os) :
    Os * outcome Code Z :=
  match messages with
  | [] => (s, Ok bytes)
  | m :: rest =>
      let size := Z.of_nat (length (archive_chunk m)) in
      if cancelled m then (s, Err CANCELLED)
      else if (size =? 0) || (kMaxUploadChunk <? size) then (s, Err INVALID_ARGUMENT)
      else if (max_upload_bytes cfg <? size) || (max_upload_bytes cfg - size <? bytes)
      then (s, Err RESOURCE_EXHAUSTED)
      else
        match write_all (archive cfg) (archive_chunk m) s with
        | (s1, Err e) => (s1, Err (io_failure e))
        | (s1, Ok _) => receive cfg rest (bytes + size) s1
        end
  end.

(** ** The store and its directories *)

(** [fs::rename] of a directory to a name that is not in use. *)
Definition relocate (from to : path) (kn : path * Node) : path * Node :=
  if below from kn.1 then (to ++ drop (length from) kn.1, kn.2) else kn.
Definition rename (from to : path) (s : Os) : Os * outcome Z unit :=
  match tree s !! to with
  | Some _ => (s, Err EEXIST)
  | None =>
      let '(a, s1) := ask s in
      match a with
      | Err e => (s1, Err e)
      | Ok _ => (set_tree (list_to_map (relocate from to <$> map_to_list (tree s1))) s1, Ok tt)
      end
  end.

(** [publish_revision], with the calls it makes once its checks have passed: the
    expiry is stored as the write time, then the revision is renamed. *)
Definition publish (cfg : Config) (id : string) (now size count : Z) (w : Os * Store.ProgramWorkspaceStore) :
    (Os * Store.ProgramWorkspaceStore) * Store.WorkspacePublishStatus :=
  let '(s, st) := w in
  let is_dir := bool_decide (tree s !! revision cfg = Some Dir) in
  let publish_with touched renamed := Store.publish_revision is_dir touched renamed size count id now st in
  match publish_with true Store.Renamed with
  | (_, Store.Ok_) =>
      match ask s with
      | (Err _, s1) => (let '(st1, r) := publish_with false Store.Renamed in ((s1, st1), r))
      | (Ok _, s1) =>
          match rename (revision cfg) (workspace_path cfg id) s1 with
          | (s2, Ok _) => let '(st1, r) := publish_with true Store.Renamed in ((s2, st1), r)
          | (s2, Err e) =>
              let '(st1, r) :=
                publish_with true (if e =? ENOSPC then Store.NoSpace else Store.RenameFailed) in
              ((s2, st1), r)
          end
      end
  | (_, r) => ((s, st), r)
  end.

(** [prune_expired]: the directories of the workspaces that go; [removed] tells
    which can be removed. *)
Definition pruned (cfg : Config) (now : Z) (removed : string -> bool) (st : Store.ProgramWorkspaceStore)
    (p : path) : bool :=
  match drop (length (root cfg)) p with
  | id :: _ =>
      below (root cfg) p
      && match Store.workspaces st !! id with
         | Some w => Store.prunable now removed id w
         | None => false
         end
  | [] => false
  end.
Definition prune (cfg : Config) (now : Z) (removed : string -> bool) (w : Os * Store.ProgramWorkspaceStore) :
    Os * Store.ProgramWorkspaceStore :=
  let '(s, st) := w in
  (set_tree (filter (fun kn => pruned cfg now removed st kn.1 = false) (tree s)) s,
   Store.prune_expired now removed st).

Definition archive_failure (st : WorkspaceArchiveStatus) : Code :=
  match st with
  | ResourceExhausted => RESOURCE_EXHAUSTED
  | Invalid => INVALID_ARGUMENT
  | _ => INTERNAL
  end.
Definition publish_failure (st : Store.WorkspacePublishStatus) : Code :=
  match st with
  | Store.ResourceExhausted => RESOURCE_EXHAUSTED
  | Store.Invalid => INVALID_ARGUMENT
  | _ => INTERNAL
  end.

Record UploadWorkspaceResponse := mkResponse {
  workspace_id : string;
  archive_bytes : Z;
  response_extracted_bytes : Z;
  response_entries : Z;
  expires_at_unix_ms : Z;
}.

(** ** [UploadWorkspace] *)

Section UploadWorkspace.
(** libarchive: what its calls return for the bytes of an archive. *)
Context (libarchive : list Z -> Archive).

(** The bytes of the staged archive. *)
Definition staged_bytes (cfg : Config) (t : gmap path Node) : list Z :=
  match t !! archive cfg with Some (File c) => c | _ => [] end.

(** After the archive is staged: [late_cancel] is the last test of the context. *)
Definition finish_upload (cfg : Config) (late_cancel : bool) (id : string) (now bytes : Z)
    (w : Os * Store.ProgramWorkspaceStore) :
    (Os * Store.ProgramWorkspaceStore) * outcome Code UploadWorkspaceResponse :=
  let '(s, st) := w in
  match close s with
  | (s1, Err e) => ((s1, st), Err (io_failure e))
  | (s1, Ok _) =>
      match create_directory (revision cfg) s1 with
      | (s2, Err e) => ((s2, st), Err (io_failure e))
      | (s2, Ok _) =>
          let '(s3, ex) := extract_workspace_archive (libarchive (staged_bytes cfg (tree s2))) (revision cfg)
                             (archive_limits cfg) s2 in
          if negb (bool_decide (status ex = Ok_)) then ((s3, st), Err (archive_failure (status ex)))
          else if late_cancel then ((s3, st), Err CANCELLED)
          else
            match publish cfg id now (extracted_bytes ex) (entries ex) (s3, st) with
            | (w', Store.Ok_) => (w', Ok (mkResponse id bytes (extracted_bytes ex) (entries ex)
                                       (u64_wrap (now + Store.ttl (Store.limits st)))))
            | (w', r) => (w', Err (publish_failure r))
            end
      end
  end.

(** The body of the [try] block, with the destructor of the staged archive. *)
Definition upload_body (cfg : Config) (messages : list Upload) (end_cancel late_cancel : bool)
    (id : string) (now : Z) (w : Os * Store.ProgramWorkspaceStore) :
    (Os * Store.ProgramWorkspaceStore) * outcome Code UploadWorkspaceResponse :=
  let '(s, st) := w in
  match open_staged cfg s with
  | (s1, Err c) => ((destroy_staged cfg false s1, st), Err c)
  | (s1, Ok _) =>
      match receive cfg messages 0 s1 with
      | (s2, Err c) => ((destroy_staged cfg true s2, st), Err c)
      | (s2, Ok bytes) =>
          if end_cancel then ((destroy_staged cfg true s2, st), Err CANCELLED)
          else if bytes =? 0 then ((destroy_staged cfg true s2, st), Err INVALID_ARGUMENT)
          else
            let '((s3, st1), r) := finish_upload cfg late_cancel id now bytes (s2, st) in
            ((destroy_staged cfg false s3, st1), r)
      end
  end.

(** [deadline]: [None] for no deadline.  The slot is given back on every path. *)
Definition UploadWorkspace (cfg : Config) (deadline : option Z) (now : Z) (removed : string -> bool)
    (messages : list Upload) (end_cancel late_cancel : bool) (id : string) (publish_now : Z) (sv : Server) :
    Server * outcome Code UploadWorkspaceResponse :=
  if negb (uploads sv <? upload_limit cfg)%nat then (sv, Err RESOURCE_EXHAUSTED)
  else
    match deadline with
    | None => (sv, Err INVALID_ARGUMENT)
    | Some d =>
        if upload_timeout cfg <? d - now then (sv, Err INVALID_ARGUMENT)
        else if d <=? now then (sv, Err DEADLINE_EXCEEDED)
        else
          let '((s, st), r) := upload_body cfg messages end_cancel late_cancel id publish_now
                                 (prune cfg now removed (os sv, store sv)) in
          (mkServer s st (uploads sv), r)
    end.

(** [DeleteWorkspace]; [gone]: the directory could be removed. *)
Definition DeleteWorkspace (cfg : Config) (is_cancelled : bool) (now : Z) (removed : string -> bool)
    (id : string) (gone : bool) (sv : Server) : Server * Code :=
  if is_cancelled then (sv, CANCELLED)
  else
    let '(s, st) := prune cfg now removed (os sv, store sv) in
    let '(st1, erased) := Store.erase id gone st in
    if erased
    then (mkServer (set_tree (filter (fun kn => below (workspace_path cfg id) kn.1 = false) (tree s)) s)
            st1 (uploads sv), OK)
    else (mkServer s st1 (uploads sv), INVALID_ARGUMENT).

End UploadWorkspace.

(** ** What the calls leave of the file system *)

Record cfg_ok (cfg : Config) : Prop := mkCfgOk {
  cfg_root : Forall plain (root cfg);
  cfg_limits : limits_ok (archive_limits cfg);
}.

Lemma plain_name c : (c =? "")%string = false -> (c =? ".")%string = false -> (c =? "..")%string = false -> plain c.
Proof. intros H1%String.eqb_neq H2%String.eqb_neq H3%String.eqb_neq. by split_and!. Qed.

Lemma cfg_plain cfg :
  cfg_ok cfg -> Forall plain (staging_root cfg) /\ Forall plain (directory cfg)
    /\ Forall plain (archive cfg) /\ Forall plain (revision cfg).
Proof.
  intros [Hr _]. unfold archive, revision, directory, staging_root.
  split_and!; repeat (apply Forall_app; split); try done; apply Forall_singleton; by apply plain_name.
Qed.

(** Only what is at or below the staged upload differs. *)
Definition untouched (cfg : Config) (t t' : gmap path Node) : Prop :=
  forall p, below (directory cfg) p = false -> t' !! p = t !! p.

Lemma untouched_trans cfg t1 t2 t3 : untouched cfg t1 t2 -> untouched cfg t2 t3 -> untouched cfg t1 t3.
Proof. intros H1 H2 p Hp. by rewrite H2, H1. Qed.

Lemma below_app p q : below p (p ++ q) = true.
Proof. apply bool_decide_eq_true. by eexists. Qed.

Lemma below_trans p q r : below p q = true -> below q r = true -> below p r = true.
Proof. unfold below. rewrite !bool_decide_eq_true. intros. by etrans. Qed.

Lemma untouched_insert cfg t p n :
  below (directory cfg) p = true -> untouched cfg t (<[p := n]> t).
Proof. intros Hp q Hq. rewrite lookup_insert_ne; [done|]. intros ->. congruence. Qed.

(** The state of a call: the tree is one, and only the staged upload was touched. *)
Definition staging (cfg : Config) (t0 t : gmap path Node) : Prop := tree_ok t /\ untouched cfg t0 t.

Lemma staging_refl cfg t : tree_ok t -> staging cfg t t.
Proof. by split. Qed.

Lemma filter_below (t : gmap path Node) p q :
  filter (fun kn : path * Node => below p kn.1 = false) t !! q = if below p q then None else t !! q.
Proof.
  destruct (below p q) eqn:E.
  - apply map_lookup_filter_None. right. intros n _ H. cbn in H. congruence.
  - destruct (t !! q) as [n|] eqn:En.
    + by apply map_lookup_filter_Some.
    + apply map_lookup_filter_None. by left.
Qed.

Lemma tree_ok_remove (t : gmap path Node) p : p <> [] -> tree_ok t -> tree_ok (filter (fun kn => below p kn.1 = false) t).
Proof.
  intros Hp [H1 H2]. split.
  - rewrite filter_below. destruct (below p []) eqn:E; [|done]. apply bool_decide_eq_true in E.
    by apply prefix_nil_inv in E.
  - intros q c n. rewrite !filter_below. destruct (below p (q ++ [c])) eqn:E; [done|]. intros Hn.
    destruct (below p q) eqn:E'; [|by eapply H2].
    rewrite (below_trans p q) in E; [done|done|apply below_app].
Qed.

Lemma directory_ne cfg : directory cfg <> [].
Proof. unfold directory. by destruct (staging_root cfg). Qed.

Lemma remove_staged cfg t0 s s' r :
  cfg_ok cfg -> staging cfg t0 (tree s) -> remove_all (directory cfg) s = (s', r) ->
  staging cfg t0 (tree s')
  /\ (r = Ok tt -> forall p, below (directory cfg) p = true -> tree s' !! p = None)
  /\ (answers s = [] -> r = Ok tt /\ answers s' = []).
Proof.
  intros Hc [Ht Hu]. destruct (cfg_plain cfg Hc) as (_ & Hd & _). unfold remove_all.
  rewrite (resolve_id _ Hd). case_bool_decide as E.
  - intros [= <- <-]. split_and!; [done..| |done]. intros _ p Hp. apply bool_decide_eq_true in Hp as [q ->].
    destruct (tree s !! (directory cfg ++ q)) as [n|] eqn:En; [|done]. exfalso.
    destruct (decide (q = [])) as [->|Hq]; [rewrite app_nil_r in En; congruence|].
    rewrite (tree_ok_prefix (tree s) _ q) in E; [done|done|by eauto|done].
  - pose proof (ask_tree s) as Ha. destruct (ask s) as [[[]|e] s1] eqn:Ea; cbn in Ha; intros [= <- <-].
    + split_and!.
      * split; [cbn; rewrite Ha; apply tree_ok_remove; [apply directory_ne|done]|].
        intros p Hp. cbn. rewrite filter_below, Hp, Ha. by apply Hu.
      * intros _ p Hp. cbn. by rewrite filter_below, Hp.
      * intros Hs. rewrite (ask_none s Hs) in Ea. injection Ea as <-. done.
    + rewrite Ha. split_and!; [by split|done|]. intros Hs. by rewrite (ask_none s Hs) in Ea.
Qed.

Lemma directory_snoc cfg : directory cfg = staging_root cfg ++ ["current"%string].
Proof. done. Qed.

Lemma staging_root_kept cfg t0 t :
  t0 !! staging_root cfg = Some Dir -> untouched cfg t0 t -> t !! staging_root cfg = Some Dir.
Proof.
  intros Hs Hu. rewrite Hu; [done|]. apply bool_decide_eq_false. intros H%prefix_length.
  rewrite directory_snoc, length_app in H. cbn in H. lia.
Qed.

(** Below the directory of an upload there is the archive, and nothing else. *)
Definition only_archive (cfg : Config) (c : list Z) (t : gmap path Node) : Prop :=
  t !! directory cfg = Some Dir /\ t !! archive cfg = Some (File c)
  /\ forall p, below (directory cfg) p = true -> p <> directory cfg -> p <> archive cfg -> t !! p = None.

Lemma archive_ne cfg : directory cfg <> archive cfg.
Proof. unfold archive. intros E%(f_equal length). rewrite length_app in E. cbn in E. lia. Qed.

Lemma open_staged_spec cfg t0 s s' r :
  cfg_ok cfg -> staging cfg t0 (tree s) -> t0 !! staging_root cfg = Some Dir ->
  open_staged cfg s = (s', r) ->
  staging cfg t0 (tree s') /\ (r = Ok tt -> only_archive cfg [] (tree s'))
  /\ (answers s = [] -> answers s' = []).
Proof.
  intros Hc Hst Hroot. destruct (cfg_plain cfg Hc) as (_ & Hd & Ha & _). unfold open_staged.
  destruct (remove_all (directory cfg) s) as [s1 r1] eqn:E1.
  destruct (remove_staged _ _ _ _ _ Hc Hst E1) as (S1 & N1 & A1).
  destruct r1 as [[]|e1]; [|intros [= <- <-]; split_and!; [done..|intros Hs; by destruct (A1 Hs)]].
  specialize (N1 eq_refl).
  destruct (create_directory (directory cfg) s1) as [s2 r2] eqn:E2.
  pose proof (staging_root_kept _ _ _ Hroot (proj2 S1)) as Hr1.
  destruct (create_directory_spec (staging_root cfg) "current"%string s1 s2 r2 (proj1 S1) Hd Hr1 E2) as (M2 & O2 & A2).
  rewrite <- directory_snoc in M2, O2.
  assert (S2 : staging cfg t0 (tree s2)).
  { split; [apply M2|]. intros p Hp. destruct (tree s1 !! p) as [n|] eqn:En.
    - rewrite (made_old _ _ _ M2 _ _ En), <- En. by apply (proj2 S1).
    - destruct (tree s2 !! p) as [n|] eqn:En2; [|rewrite <- En; by apply (proj2 S1)].
      destruct (made_new _ _ _ M2 _ _ En2 En) as [-> Hpre]. rewrite directory_snoc in Hpre.
      apply prefix_app_cases in Hpre as [Hpre|([|c q] & Hq & -> & Hq')]; [|done|].
      + destruct Hpre as [k Hk]. destruct (decide (k = [])) as [->|Hk0];
          [rewrite app_nil_r in Hk; congruence|].
        rewrite (tree_ok_prefix (tree s1) p k) in En; [done|apply S1|rewrite <- Hk; eauto|done].
      + apply prefix_cons_inv_1 in Hq' as Hc0. apply prefix_cons_inv_2 in Hq'. subst c.
        apply prefix_nil_inv in Hq'. subst q. rewrite <- directory_snoc in Hp.
        pose proof (below_app (directory cfg) []) as H. rewrite app_nil_r in H. congruence. }
  destruct r2 as [[]|e2].
  2: { intros [= <- <-]. split_and!; [done..|]. intros Hs. destruct (A1 Hs) as [_ Hs1]. by destruct (A2 Hs1). }
  specialize (O2 eq_refl).
  unfold open_new. rewrite (resolve_id _ Ha).
  assert (N2 : forall p, below (directory cfg) p = true -> p <> directory cfg -> tree s2 !! p = None).
  { intros p Hp Hne. destruct (tree s2 !! p) as [n|] eqn:En; [|done].
    destruct (made_new _ _ _ M2 _ _ En (N1 _ Hp)) as [_ Hpre]. apply bool_decide_eq_true in Hp.
    destruct Hne. by apply (anti_symm prefix). }
  rewrite N2; [|apply below_app|intros E; by apply (archive_ne cfg)].
  destruct (make_node (archive cfg) (File []) s2) as [s3 r3] eqn:E3.
  destruct (make_node_spec (directory cfg) _ _ _ _ _ Ha O2 E3) as [H3 A3].
  assert (Hres : (s', r) = (s3, match r3 with Ok _ => Ok tt | Err e => Err (io_failure e) end) ->
    staging cfg t0 (tree s') /\ (r = Ok tt -> only_archive cfg [] (tree s')) /\ (answers s = [] -> answers s' = [])).
  { intros [= -> ->]. destruct H3 as [[-> H3]|[Hr3 H3]]; rewrite H3.
    - split_and!.
      + split.
        * apply tree_ok_insert; [apply S2|done|]. apply N2; [apply below_app|]. intros E; by apply (archive_ne cfg).
        * eapply untouched_trans; [apply S2|]. apply untouched_insert, below_app.
      + intros _. split_and!.
        * rewrite lookup_insert_ne; [done|]. intros E. by apply (archive_ne cfg).
        * apply lookup_insert_eq.
        * intros p Hp H1 H2. rewrite lookup_insert_ne by done. by apply N2.
      + intros Hs. destruct (A1 Hs) as [_ Hs1]. destruct (A2 Hs1) as [Hs2 _]. by destruct (A3 Hs2).
    - split_and!; [done| |].
      + by destruct r3 as [[]|].
      + intros Hs. destruct (A1 Hs) as [_ Hs1]. destruct (A2 Hs1) as [Hs2 _]. by destruct (A3 Hs2). }
  intros E. apply Hres. destruct r3 as [[]|]; by injection E as <- <-.
Qed.

Lemma receive_spec cfg ms bytes c s s' r :
  cfg_ok cfg -> tree s !! archive cfg = Some (File c) -> bytes = Z.of_nat (length c) ->
  receive cfg ms bytes s = (s', r) ->
  (exists c', tree s' = <[archive cfg := File c']> (tree s)
     /\ forall total, r = Ok total -> c' = c ++ concat (archive_chunk <$> ms)
          /\ total = Z.of_nat (length c') /\ (ms <> [] -> total <= max_upload_bytes cfg))
  /\ (answers s = [] -> answers s' = []).
Proof.
  intros Hc. destruct (cfg_plain cfg Hc) as (_ & _ & Ha & _). revert bytes c s.
  induction ms as [|m ms IH]; intros bytes c s Ht Hb; cbn [receive].
  - intros [= <- <-]. split; [|done]. exists c. rewrite insert_id by done. split; [done|].
    intros t [= <-]. cbn. by rewrite app_nil_r.
  - assert (Hrefuse : forall st, (s, Err st) = (s', r) ->
      (exists c', tree s' = <[archive cfg := File c']> (tree s)
        /\ forall total, r = Ok total -> c' = c ++ concat (archive_chunk <$> (m :: ms))
          /\ total = Z.of_nat (length c') /\ (m :: ms <> [] -> total <= max_upload_bytes cfg))
      /\ (answers s = [] -> answers s' = [])).
    { intros st [= <- <-]. split; [|done]. exists c. by rewrite insert_id. }
    destruct (cancelled m); [apply Hrefuse|]. destruct ((_ =? 0) || _); [apply Hrefuse|].
    destruct (_ || _) eqn:Eq; [apply Hrefuse|]. bool_to_prop.
    destruct (write_all (archive cfg) (archive_chunk m) s) as [s1 r1] eqn:Ew.
    destruct (write_all_spec _ c _ _ _ _ Ha Ht Ew) as ((data & more & Hd & Hs1 & Hok) & Hn).
    destruct r1 as [[]|e].
    + rewrite (Hok eq_refl) in Hs1. intros Er.
      apply (IH _ (c ++ archive_chunk m)) in Er as [(c' & Hs' & Hr) An].
      * split; [|intros Hs; apply An; by destruct (Hn Hs)]. exists c'. rewrite Hs', Hs1, insert_insert_eq. split; [done|].
        intros total Ht'. destruct (Hr total Ht') as (-> & -> & Hmax). cbn. rewrite <- app_assoc in *. split_and!; [done..|].
        intros _. destruct ms as [|m1 ms]; [|by apply Hmax]. cbn. rewrite app_nil_r, length_app. lia.
      * rewrite Hs1. apply lookup_insert_eq.
      * rewrite length_app. lia.
    + intros [= <- <-]. split; [|intros Hs; by destruct (Hn Hs)]. exists (c ++ data). by split.
Qed.

(** *** Renaming a directory *)

Section Rename.
Context (t : gmap path Node) (from to : path).
Context (Hto : forall q, t !! (to ++ q) = None).
Context (Hapart : below from to = false) (Hapart' : below to from = false).

Lemma relocate_lookup p :
  (list_to_map (relocate from to <$> map_to_list t) : gmap path Node) !! p
  = if below to p then t !! (from ++ drop (length to) p) else if below from p then None else t !! p.
Proof.
  assert (Hkey : forall kn, kn ∈ map_to_list t -> t !! kn.1 = Some kn.2 /\ below to kn.1 = false).
  { intros [k n] H%elem_of_map_to_list. split; [done|]. apply bool_decide_eq_false. intros [q Hq].
    cbn in Hq. subst k. by rewrite Hto in H. }
  assert (Hnd : NoDup (fst <$> (relocate from to <$> map_to_list t))).
  { rewrite <- list_fmap_compose. apply NoDup_fmap_2_strong; [|apply NoDup_map_to_list].
    intros [k n] [k' n'] H H'. destruct (Hkey _ H) as [L B]. destruct (Hkey _ H') as [L' B'].
    cbn in *. unfold relocate. cbn.
    destruct (below from k) eqn:E, (below from k') eqn:E'; cbn; unfold below in *.
    - intros Hk%app_inv_head. apply bool_decide_eq_true in E as [q ->], E' as [q' ->].
      rewrite !drop_app_length in Hk. subst q'.
      by rewrite L in L'; injection L' as ->.
    - intros <-. apply bool_decide_eq_false in B'. destruct B'. by eexists.
    - intros ->. apply bool_decide_eq_false in B. destruct B. by eexists.
    - intros <-. rewrite L in L'. by injection L' as ->. }
  destruct (list_to_map _ !! p) as [n|] eqn:E.
  - apply elem_of_list_to_map_2 in E. apply list_elem_of_fmap in E as ([k m] & Hr & Hin).
    destruct (Hkey _ Hin) as [L B]. cbn in *. unfold relocate in Hr. cbn in Hr.
    destruct (below from k) eqn:Ef; injection Hr as -> ->.
    + rewrite below_app, drop_app_length. apply bool_decide_eq_true in Ef as [q ->]. by rewrite drop_app_length.
    + by rewrite B, Ef.
  - apply not_elem_of_list_to_map_2 in E.
    assert (Hno : forall k n, t !! k = Some n -> (relocate from to (k, n)).1 <> p).
    { intros k n Hk Hp. apply E. apply list_elem_of_fmap. exists (relocate from to (k, n)). split; [done|].
      apply list_elem_of_fmap. exists (k, n). split; [done|]. by apply elem_of_map_to_list. }
    destruct (below to p) eqn:Et.
    + destruct (t !! (from ++ drop (length to) p)) as [n|] eqn:En; [|done]. exfalso. apply (Hno _ _ En).
      unfold relocate. cbn. rewrite below_app, drop_app_length. cbn. apply bool_decide_eq_true in Et as [q ->].
      by rewrite drop_app_length.
    + destruct (below from p) eqn:Ef; [done|]. destruct (t !! p) as [n|] eqn:En; [|done]. exfalso.
      apply (Hno _ _ En). unfold relocate. cbn. by rewrite Ef.
Qed.

End Rename.

Lemma workspace_apart cfg id :
  Store.valid_id id = true ->
  below (revision cfg) (workspace_path cfg id) = false /\ below (workspace_path cfg id) (revision cfg) = false
  /\ below (directory cfg) (workspace_path cfg id) = false
  /\ below (workspace_path cfg id) (directory cfg) = false.
Proof.
  intros Hid. assert (Hne : id <> ".uploads"%string) by (intros ->; by vm_compute in Hid).
  unfold below, workspace_path, revision, directory, staging_root.
  split_and!; apply bool_decide_eq_false; rewrite <- ?app_assoc; intros H%prefix_app_inv;
    [apply prefix_length in H; cbn in H; lia|cbn in H|apply prefix_length in H; cbn in H; lia|cbn in H];
    by apply prefix_cons_inv_1 in H.
Qed.

(** The directory of the revision, moved to the workspace. *)
Definition moved (cfg : Config) (id : string) (t t' : gmap path Node) : Prop :=
  forall p, t' !! p =
    if below (workspace_path cfg id) p then t !! (revision cfg ++ drop (length (workspace_path cfg id)) p)
    else if below (revision cfg) p then None else t !! p.

Lemma tree_ok_moved cfg id t t' :
  Store.valid_id id = true -> tree_ok t -> t !! root cfg = Some Dir -> t !! revision cfg = Some Dir ->
  moved cfg id t t' -> tree_ok t'.
Proof.
  intros Hid [H1 H2] Hroot Hrev Hm. destruct (workspace_apart cfg id Hid) as (B1 & B2 & _ & _).
  assert (Hnil : forall p, p <> [] -> below p [] = false).
  { intros p Hp. apply bool_decide_eq_false. by intros ?%prefix_nil_inv. }
  split.
  - rewrite Hm, !Hnil; [done|unfold revision; by destruct (directory cfg)|].
    unfold workspace_path. by destruct (root cfg).
  - intros p c n. rewrite !Hm.
    destruct (below (workspace_path cfg id) (p ++ [c])) eqn:Ew.
    + apply bool_decide_eq_true in Ew as [q Hq]. destruct q as [|d q _] using rev_ind.
      * rewrite app_nil_r in Hq. unfold workspace_path in *. apply app_inj_tail in Hq as [-> ->]. intros _.
        assert (E1 : below (root cfg ++ [id]) (root cfg) = false).
        { apply bool_decide_eq_false. intros H%prefix_length. rewrite length_app in H. cbn in H. lia. }
        assert (E2 : below (revision cfg) (root cfg) = false).
        { apply bool_decide_eq_false. intros H%prefix_length. unfold revision, directory, staging_root in H.
          rewrite !length_app in H. cbn in H. lia. }
        by rewrite E1, E2.
      * rewrite app_assoc in Hq. apply app_inj_tail in Hq as [-> ->]. rewrite <- app_assoc, drop_app_length.
        rewrite app_assoc, below_app, drop_app_length. apply H2.
    + assert (E1 : below (workspace_path cfg id) p = false).
      { destruct (below (workspace_path cfg id) p) eqn:E; [|done]. by rewrite (below_trans _ _ _ E (below_app p [c])) in Ew. }
      rewrite E1. destruct (below (revision cfg) (p ++ [c])) eqn:Er; [done|].
      assert (E2 : below (revision cfg) p = false).
      { destruct (below (revision cfg) p) eqn:E; [|done]. by rewrite (below_trans _ _ _ E (below_app p [c])) in Er. }
      rewrite E2. apply H2.
Qed.

Lemma store_publish_refused is_dir touched renamed size count id now st :
  let '(st', r) := Store.publish_revision is_dir touched renamed size count id now st in
  r <> Store.Ok_ -> st' = st.
Proof. unfold Store.publish_revision. by repeat case_match; simplify_eq. Qed.

(** [publish] moves the revision and enters it in the store, or does neither. *)
Lemma publish_spec cfg id now size count s st s' st' r :
  tree_ok (tree s) -> tree s !! workspace_path cfg id = None -> Store.valid_id id = true ->
  publish cfg id now size count (s, st) = ((s', st'), r) ->
  (r = Store.Ok_ /\ tree s !! revision cfg = Some Dir
    /\ Store.publish_revision true true Store.Renamed size count id now st = (st', Store.Ok_)
    /\ moved cfg id (tree s) (tree s')
   \/ r <> Store.Ok_ /\ st' = st /\ tree s' = tree s)
  /\ (answers s = [] -> answers s' = []).
Proof.
  intros Ht Hfresh Hid. unfold publish.
  pose proof (store_publish_refused (bool_decide (tree s !! revision cfg = Some Dir))) as Hrefused.
  destruct (Store.publish_revision _ true Store.Renamed size count id now st) as [st1 r1] eqn:E1.
  destruct r1; try (intros [= <- <- <-]; split; [by right|done]).
  assert (Hdir : tree s !! revision cfg = Some Dir).
  { unfold Store.publish_revision in E1. case_bool_decide; [done|]. by cbn in E1. }
  rewrite (bool_decide_eq_true_2 _ Hdir) in E1, Hrefused |- *.
  pose proof (ask_tree s) as Ha. pose proof (ask_none s) as Hn. destruct (ask s) as [[[]|e] s1]; cbn in Ha.
  - unfold rename. rewrite Ha, Hfresh.
    pose proof (ask_tree s1) as Ha2. pose proof (ask_none s1) as Hn2. destruct (ask s1) as [[[]|e] s2]; cbn in Ha2.
    + rewrite E1. intros [= <- <- <-]. split.
      * left. split_and!; try done. intros p. cbn. rewrite Ha2, Ha.
        destruct (workspace_apart cfg id Hid) as (B1 & B2 & _ & _). apply relocate_lookup; [|done..].
        intros q. destruct (tree s !! (workspace_path cfg id ++ q)) as [n|] eqn:En; [|done].
        destruct (decide (q = [])) as [->|Hq]; [rewrite app_nil_r in En; congruence|].
        rewrite (tree_ok_prefix (tree s) _ q) in Hfresh; [done|done|by eauto|done].
      * intros Hs. specialize (Hn Hs). injection Hn as ->. specialize (Hn2 Hs). injection Hn2 as ->. done.
    + specialize (Hrefused true (if e =? ENOSPC then Store.NoSpace else Store.RenameFailed) size count id now st).
      assert (Hne : (Store.publish_revision true true (if e =? ENOSPC then Store.NoSpace else Store.RenameFailed)
                       size count id now st).2 <> Store.Ok_).
      { unfold Store.publish_revision; repeat case_match; cbn in *; congruence. }
      destruct (Store.publish_revision true true (if e =? ENOSPC then _ else _) _ _ _ _ _) as [st2 r2].
      intros [= <- <- <-]. rewrite (Hrefused Hne). split; [right; by rewrite Ha2, Ha|].
      intros Hs. specialize (Hn Hs). injection Hn as ->. by specialize (Hn2 Hs).
  - specialize (Hrefused false Store.Renamed size count id now st).
    assert (Hne : (Store.publish_revision true false Store.Renamed size count id now st).2 <> Store.Ok_).
    { destruct (e =? ENOSPC); unfold Store.publish_revision; repeat case_match; cbn in *; congruence. }
    destruct (Store.publish_revision true false Store.Renamed _ _ _ _ _) as [st2 r2].
    intros [= <- <- <-]. rewrite (Hrefused Hne). split; [right; by rewrite Ha|].
    intros Hs. by specialize (Hn Hs).
Qed.

(** *** The call *)

Lemma staging_contained cfg t0 t t' :
  staging cfg t0 t -> contained (revision cfg) t t' -> staging cfg t0 t'.
Proof.
  intros [Ht Hu] [C1 C2 C3]. split; [done|]. eapply untouched_trans; [done|]. intros p Hp.
  destruct (t !! p) as [n|] eqn:E; [by apply C1|]. destruct (t' !! p) as [n|] eqn:E'; [|done].
  destruct (C2 p n E' E) as (q & _ & ->). unfold revision in Hp. by rewrite <- app_assoc, below_app in Hp.
Qed.

Lemma staging_made cfg t0 t t' p :
  staging cfg t0 t -> t !! directory cfg = Some Dir -> made t t' (directory cfg ++ p) -> staging cfg t0 t'.
Proof.
  intros [Ht Hu] Hd M. split; [apply M|]. eapply untouched_trans; [done|]. intros q Hq.
  destruct (t !! q) as [n|] eqn:E; [by apply (made_old _ _ _ M)|]. destruct (t' !! q) as [n|] eqn:E'; [|done].
  destruct (made_new _ _ _ M _ _ E' E) as [_ Hpre].
  apply prefix_app_cases in Hpre as [Hpre|(r & _ & -> & _)]; [|by rewrite below_app in Hq].
  destruct Hpre as [k Hk]. destruct (decide (k = [])) as [->|Hk0]; [rewrite app_nil_r in Hk; congruence|].
  rewrite (tree_ok_prefix t q k) in E; [done|done|rewrite <- Hk; eauto|done].
Qed.

Section Call.
Context (libarchive : list Z -> Archive) (cfg : Config) (Hcfg : cfg_ok cfg).

(** The published upload: [content] are the staged bytes, [t3] is the tree before the
    revision is moved. *)
Definition published (t0 : gmap path Node) (content : list Z) (id : string) (now bytes : Z)
    (st st' : Store.ProgramWorkspaceStore) (t' : gmap path Node) (resp : UploadWorkspaceResponse) : Prop :=
  exists es t3,
    headers (libarchive content) = Next true true <$> es /\ es <> [] /\ proper (archive_limits cfg) es
    /\ resp = mkResponse id bytes (total entry_size es) (Z.of_nat (length es))
                (u64_wrap (now + Store.ttl (Store.limits st)))
    /\ Store.publish_revision true true Store.Renamed (total entry_size es) (Z.of_nat (length es)) id now st
       = (st', Store.Ok_)
    /\ staging cfg t0 t3 /\ reflects (revision cfg) es t3 /\ moved cfg id t3 t'.

Lemma only_archive_revision c s s1 r :
  tree_ok (tree s) -> only_archive cfg c (tree s) -> create_directory (revision cfg) s = (s1, r) ->
  made (tree s) (tree s1) (revision cfg) /\ (answers s = [] -> answers s1 = [])
  /\ (r = Ok tt -> tree s1 !! revision cfg = Some Dir /\ tree s1 !! archive cfg = Some (File c)
       /\ forall q, q <> [] -> tree s1 !! (revision cfg ++ q) = None).
Proof.
  intros Ht (Hd & Ha & Hn) E. destruct (cfg_plain cfg Hcfg) as (_ & _ & _ & Hp).
  destruct (create_directory_spec (directory cfg) "revision"%string s s1 r Ht Hp Hd E) as (M & O & A).
  split_and!; [done|by intros Hs; destruct (A Hs)|]. intros Hr. split_and!; [by apply O|by apply (made_old _ _ _ M)|].
  intros q Hq. destruct (tree s1 !! (revision cfg ++ q)) as [n|] eqn:En; [|done].
  assert (Hno : tree s !! (revision cfg ++ q) = None).
  { apply Hn.
    - unfold revision. rewrite <- app_assoc. apply below_app.
    - unfold revision. intros H%(f_equal length). rewrite !length_app in H. cbn in H. lia.
    - unfold revision, archive. rewrite <- app_assoc. by intros H%app_inv_head. }
  destruct (made_new _ _ _ M _ _ En Hno) as [_ H%prefix_length]. rewrite length_app in H.
  change (directory cfg ++ ["revision"%string]) with (revision cfg) in H.
  destruct q; [done|]. cbn in H. lia.
Qed.

Lemma finish_upload_spec t0 late_cancel id now bytes content s st s' st' r :
  staging cfg t0 (tree s) -> only_archive cfg content (tree s) -> t0 !! staging_root cfg = Some Dir ->
  t0 !! workspace_path cfg id = None -> Store.valid_id id = true ->
  finish_upload libarchive cfg late_cancel id now bytes (s, st) = ((s', st'), r) ->
  (forall e, r = Err e -> st' = st /\ staging cfg t0 (tree s'))
  /\ (forall resp, r = Ok resp -> published t0 content id now bytes st st' (tree s') resp)
  /\ (answers s = [] -> answers s' = []).
Proof.
  intros Hst Honly Hroot Hfresh Hid. destruct (cfg_plain cfg Hcfg) as (_ & _ & _ & Hrev).
  unfold finish_upload, close. pose proof (ask_tree s) as Ha. pose proof (ask_none s) as Hn.
  destruct (ask s) as [[[]|e] s1]; cbn in Ha.
  2: { intros [= <- <- <-]. rewrite Ha. split_and!; [done..|]. intros Hs. by specialize (Hn Hs). }
  rewrite <- Ha in Hst, Honly.
  destruct (create_directory (revision cfg) s1) as [s2 r2] eqn:E2.
  destruct (only_archive_revision content s1 s2 r2 (proj1 Hst) Honly E2) as (M2 & A2 & O2).
  assert (Hans : answers s = [] -> answers s2 = []).
  { intros Hs. apply A2. specialize (Hn Hs). by injection Hn as ->. }
  pose proof (staging_made cfg t0 _ _ _ Hst (proj1 Honly) M2) as S2.
  destruct r2 as [[]|e2]; [|by intros [= <- <- <-]].
  destruct (O2 eq_refl) as (Hdir & Harch & Hempty).
  assert (Hc : staged_bytes cfg (tree s2) = content) by (unfold staged_bytes; by rewrite Harch). rewrite Hc.
  destruct (extract_workspace_archive (libarchive content) (revision cfg) (archive_limits cfg) s2) as [s3 ex] eqn:E3.
  destruct (archive_contained _ _ _ _ _ _ (cfg_limits cfg Hcfg) Hrev (proj1 S2) E3) as (C3 & _ & A3).
  destruct (archive_exact _ _ _ _ _ _ (cfg_limits cfg Hcfg) Hrev (proj1 S2) Hdir Hempty E3) as [X3 _].
  pose proof (staging_contained _ _ _ _ S2 C3) as S3.
  case_bool_decide as Hok; cbn [negb]; [|intros [= <- <- <-]; split_and!; [done..|auto]].
  destruct (X3 Hok) as (es & H1 & H2 & H3 & -> & -> & H6).
  destruct late_cancel; [intros [= <- <- <-]; split_and!; [done..|auto]|].
  destruct (publish cfg id now _ _ (s3, st)) as [[s4 st4] r4] eqn:E4.
  assert (Hw : tree s3 !! workspace_path cfg id = None).
  { rewrite (proj2 S3); [done|]. by apply workspace_apart. }
  destruct (publish_spec _ _ _ _ _ _ _ _ _ _ (proj1 S3) Hw Hid E4) as [Hp A4].
  assert (Hans4 : answers s = [] -> answers s4 = []) by auto.
  destruct Hp as [(-> & _ & Hpub & Hmoved)|(Hne & -> & Ht4)].
  - intros [= <- <- <-]. split_and!; [done| |done]. intros resp [= <-]. exists es, (tree s3). by split_and!.
  - intros E. assert (Hr : exists e, r = Err e /\ s' = s4 /\ st' = st).
    { destruct r4; try done; injection E as <- <- <-; eauto. }
    destruct Hr as (e & -> & -> & ->). split_and!; [|done|done]. intros _ _. by rewrite Ht4.
Qed.

(** The destructor leaves the rest of the tree, and clears the staged upload when it can. *)
Lemma destroy_spec is_open s :
  tree_ok (tree s) ->
  let s' := destroy_staged cfg is_open s in
  tree_ok (tree s') /\ untouched cfg (tree s) (tree s')
  /\ (answers s = [] -> answers s' = [] /\ tree s' !! directory cfg = None).
Proof.
  intros Ht. unfold destroy_staged. set (s1 := if is_open then _ else _).
  assert (H1 : tree s1 = tree s /\ (answers s = [] -> answers s1 = [])).
  { unfold s1, close. destruct is_open; [|done]. pose proof (ask_tree s) as Ha. pose proof (ask_none s) as Hn.
    destruct (ask s) as [a s2]. cbn in *. split; [done|]. intros Hs. specialize (Hn Hs). by injection Hn as _ ->. }
  destruct H1 as [Ht1 An1].
  assert (S1 : staging cfg (tree s) (tree s1)) by (rewrite Ht1; by apply staging_refl).
  destruct (remove_all (directory cfg) s1) as [s2 r] eqn:E.
  destruct (remove_staged _ _ _ _ _ Hcfg S1 E) as ([S2 U2] & N2 & A2). cbn. split_and!; [done..|].
  intros Hs. destruct (A2 (An1 Hs)) as [Hr Hs2]. split; [done|]. apply N2; [done|].
  by apply bool_decide_eq_true.
Qed.

Lemma upload_body_spec t0 messages end_cancel late_cancel id now s st s' st' r :
  tree s = t0 -> tree_ok t0 -> t0 !! staging_root cfg = Some Dir ->
  t0 !! workspace_path cfg id = None -> Store.valid_id id = true ->
  upload_body libarchive cfg messages end_cancel late_cancel id now (s, st) = ((s', st'), r) ->
  let content := concat (archive_chunk <$> messages) in
  (forall e, r = Err e -> st' = st /\ staging cfg t0 (tree s'))
  /\ (forall resp, r = Ok resp -> Z.of_nat (length content) <= max_upload_bytes cfg
       /\ exists t', published t0 content id now (Z.of_nat (length content)) st st' t' resp
            /\ tree_ok (tree s') /\ untouched cfg t' (tree s'))
  /\ (answers s = [] -> answers s' = [] /\ tree s' !! directory cfg = None).
Proof.
  intros Ht0 Hok Hroot Hfresh Hid. unfold upload_body.
  assert (S0 : staging cfg t0 (tree s)) by (rewrite Ht0; by apply staging_refl).
  destruct (open_staged cfg s) as [s1 r1] eqn:E1.
  destruct (open_staged_spec _ _ _ _ _ Hcfg S0 Hroot E1) as (S1 & O1 & A1).
  assert (Hend : forall is_open s2, staging cfg t0 (tree s2) -> (answers s = [] -> answers s2 = []) ->
    staging cfg t0 (tree (destroy_staged cfg is_open s2))
    /\ (answers s = [] -> answers (destroy_staged cfg is_open s2) = []
        /\ tree (destroy_staged cfg is_open s2) !! directory cfg = None)).
  { intros is_open s2 [H1 H2] H3. destruct (destroy_spec is_open s2 H1) as (D1 & D2 & D3). split; [|auto].
    split; [done|]. by eapply untouched_trans. }
  assert (Hrefuse : forall is_open s2 e, staging cfg t0 (tree s2) -> (answers s = [] -> answers s2 = []) ->
    ((destroy_staged cfg is_open s2, st), Err e) = ((s', st'), r) ->
    (forall e, r = Err e -> st' = st /\ staging cfg t0 (tree s'))
    /\ (forall resp, r = Ok resp -> Z.of_nat (length (concat (archive_chunk <$> messages))) <= max_upload_bytes cfg
       /\ exists t', published t0 (concat (archive_chunk <$> messages)) id now
              (Z.of_nat (length (concat (archive_chunk <$> messages)))) st st' t' resp
            /\ tree_ok (tree s') /\ untouched cfg t' (tree s'))
    /\ (answers s = [] -> answers s' = [] /\ tree s' !! directory cfg = None)).
  { intros is_open s2 e H2 A2 [= <- <- <-]. destruct (Hend is_open s2 H2 A2). by split_and!. }
  destruct r1 as [[]|e1]; [|by apply Hrefuse]. destruct (O1 eq_refl) as (D1 & F1 & N1).
  destruct (receive cfg messages 0 s1) as [s2 r2] eqn:E2.
  destruct (receive_spec cfg messages 0 [] s1 s2 r2 Hcfg F1 eq_refl E2) as [(c & Ht2 & Hr2) A2].
  assert (S2 : staging cfg t0 (tree s2)).
  { rewrite Ht2. split.
    - unfold archive in *. destruct S1 as [[X1 X2] _]. split.
      + rewrite lookup_insert_ne; [done|]. by destruct (directory cfg).
      + intros p c0 n [[E _]|[_ Hn]]%lookup_insert_Some.
        * apply app_inj_tail in E as [<- _]. rewrite lookup_insert_ne; [done|].
          intros E%(f_equal length). rewrite length_app in E. cbn in E. lia.
        * apply X2 in Hn. rewrite lookup_insert_ne; [done|]. intros E. congruence.
    - eapply untouched_trans; [apply S1|]. apply untouched_insert, below_app. }
  assert (A02 : answers s = [] -> answers s2 = []) by auto.
  destruct r2 as [bytes|e2]; [|by apply Hrefuse]. destruct (Hr2 bytes eq_refl) as (-> & -> & Hmax).
  cbn [app] in *. destruct end_cancel; [by apply Hrefuse|].
  destruct (_ =? 0) eqn:Ez; [by apply Hrefuse|].
  assert (Honly : only_archive cfg (concat (archive_chunk <$> messages)) (tree s2)).
  { rewrite Ht2. split_and!; [|apply lookup_insert_eq|].
    - rewrite lookup_insert_ne; [done|]. intros E. by apply (archive_ne cfg).
    - intros p Hp H1 H2. rewrite lookup_insert_ne by done. by apply N1. }
  destruct (finish_upload libarchive cfg late_cancel id now _ (s2, st)) as [[s3 st3] r3] eqn:E3.
  destruct (finish_upload_spec _ _ _ _ _ _ _ _ _ _ _ S2 Honly Hroot Hfresh Hid E3) as (X1 & X2 & A3).
  intros [= <- <- <-]. destruct r3 as [resp|e3].
  - destruct (X2 resp eq_refl) as (es & t3 & P1 & P2 & P3 & P4 & P5 & P6 & P7 & P8).
    assert (Ht3 : tree_ok (tree s3)).
    { eapply tree_ok_moved; [done|apply P6| |apply P7|done].
      assert (Hr : t3 !! staging_root cfg = Some Dir) by (eapply staging_root_kept; [done|apply P6]).
      apply (tree_ok_prefix t3 (root cfg) [".uploads"%string]); [apply P6|by eauto|done]. }
    destruct (destroy_spec false s3 Ht3) as (Y1 & Y2 & Y3). split_and!; [done| |auto].
    intros resp' [= <-]. split.
    + apply Hmax. intros ->. cbn in Ez. done.
    + exists (tree s3). split_and!; try done. exists es, t3. by split_and!.
  - destruct (X1 e3 eq_refl) as [-> S3]. destruct (Hend false s3 S3) as [Z1 Z2]; [auto|].
    split_and!; [by intros _ _|done|done].
Qed.

End Call.

(** The tree is one, the staging root exists, and the store holds workspaces only. *)
Record server_ok (cfg : Config) (sv : Server) : Prop := mkServerOk {
  sv_tree : tree_ok (tree (os sv));
  sv_staging : tree (os sv) !! staging_root cfg = Some Dir;
  sv_ids : forall id, is_Some (Store.workspaces (store sv) !! id) -> Store.valid_id id = true;
}.

Lemma prune_lookup cfg now removed s st p :
  tree (prune cfg now removed (s, st)).1 !! p = if pruned cfg now removed st p then None else tree s !! p.
Proof.
  cbn. destruct (pruned cfg now removed st p) eqn:E.
  - apply map_lookup_filter_None. right. intros n _ H. cbn in H. congruence.
  - destruct (tree s !! p) as [n|] eqn:En; [by apply map_lookup_filter_Some|].
    apply map_lookup_filter_None. by left.
Qed.

Lemma pruned_below cfg now removed st p q :
  pruned cfg now removed st p = true -> pruned cfg now removed st (p ++ q) = true.
Proof.
  unfold pruned. destruct (drop (length (root cfg)) p) as [|id r] eqn:Ed; [done|]. intros H.
  apply andb_true_iff in H as [Hb H]. apply bool_decide_eq_true in Hb as [k ->].
  rewrite drop_app_length in Ed. subst k. rewrite <- app_assoc, drop_app_length. cbn.
  apply andb_true_iff. split; [|done]. apply below_app.
Qed.

Lemma prune_ok cfg now removed sv :
  server_ok cfg sv ->
  let w := prune cfg now removed (os sv, store sv) in
  tree_ok (tree w.1) /\ tree w.1 !! staging_root cfg = Some Dir
  /\ (forall id, is_Some (Store.workspaces w.2 !! id) -> Store.valid_id id = true)
  /\ answers w.1 = answers (os sv) /\ (forall p, tree (os sv) !! p = None -> tree w.1 !! p = None).
Proof.
  intros [[T1 T2] Hs Hids] w.
  assert (Hl : forall p, tree w.1 !! p = if pruned cfg now removed (store sv) p then None else tree (os sv) !! p)
    by (intros; apply prune_lookup).
  split_and!; [split| | |done|].
  - rewrite Hl. unfold pruned. by rewrite drop_nil.
  - intros p c n. rewrite !Hl. destruct (pruned cfg now removed (store sv) (p ++ [c])) eqn:E; [done|].
    intros Hn. destruct (pruned cfg now removed (store sv) p) eqn:E'; [|by eapply T2].
    by rewrite (pruned_below _ _ _ _ _ _ E') in E.
  - rewrite Hl. unfold pruned, staging_root. rewrite drop_app_length, below_app. cbn [andb].
    destruct (Store.workspaces (store sv) !! ".uploads"%string) eqn:E; [|done].
    assert (Hv : Store.valid_id ".uploads" = true) by (apply Hids; eauto). by vm_compute in Hv.
  - intros id [x Hx]. apply Hids. cbn in Hx. apply map_lookup_filter_Some in Hx as [Hx _]. eauto.
  - intros p Hp. rewrite Hl, Hp. by destruct (pruned _ _ _ _ _).
Qed.

(** C26: An upload publishes exactly the archive it received, or nothing.  If the call
    answers OK, the messages joined are an archive within the limits, the new
    workspace holds exactly the tree the archive describes, it is entered in the
    store within the quotas, and the answer names it with its sizes; if it answers
    anything else the store is as it was after pruning.  In both cases no path outside
    the new workspace and the staged upload differs, whatever system calls fail; and
    when none fails, the staged upload is gone afterwards. *)
Theorem upload_publishes (libarchive : list Z -> Archive) (cfg : Config) (deadline : option Z) (now : Z)
    (removed : string -> bool) (messages : list Upload) (end_cancel late_cancel : bool) (id : string)
    (publish_now : Z) (sv : Server) :
  cfg_ok cfg -> server_ok cfg sv -> Store.valid_id id = true ->
  tree (os sv) !! workspace_path cfg id = None ->
  let '(sv', r) := UploadWorkspace libarchive cfg deadline now removed messages end_cancel late_cancel id
                     publish_now sv in
  let w := prune cfg now removed (os sv, store sv) in
  let content := concat (archive_chunk <$> messages) in
  server_ok cfg sv' /\ uploads sv' = uploads sv
  /\ (forall e, r = Err e -> sv' = sv \/ store sv' = w.2 /\ untouched cfg (tree w.1) (tree (os sv')))
  /\ (forall resp, r = Ok resp -> exists es,
        headers (libarchive content) = Next true true <$> es /\ es <> [] /\ proper (archive_limits cfg) es
        /\ Z.of_nat (length content) <= max_upload_bytes cfg
        /\ resp = mkResponse id (Z.of_nat (length content)) (total entry_size es) (Z.of_nat (length es))
                    (u64_wrap (publish_now + Store.ttl (Store.limits w.2)))
        /\ Store.publish_revision true true Store.Renamed (total entry_size es) (Z.of_nat (length es)) id
             publish_now w.2 = (store sv', Store.Ok_)
        /\ tree (os sv') !! workspace_path cfg id = Some Dir
        /\ (forall q n, q <> [] -> tree (os sv') !! (workspace_path cfg id ++ q) = Some n <-> describes es q n)
        /\ forall p, below (directory cfg) p = false -> below (workspace_path cfg id) p = false ->
             tree (os sv') !! p = tree w.1 !! p)
  /\ (answers (os sv) = [] -> tree (os sv) !! directory cfg = None -> tree (os sv') !! directory cfg = None).
Proof.
  intros Hcfg Hsv Hid Hfresh. unfold UploadWorkspace.
  destruct (negb _); [split_and!; try done; intros e _; by left|].
  destruct deadline as [d|]; [|split_and!; try done; intros e _; by left].
  destruct (_ <? _); [split_and!; try done; intros e _; by left|].
  destruct (_ <=? _); [split_and!; try done; intros e _; by left|].
  destruct (prune_ok cfg now removed sv Hsv) as (Ht & Hs & Hids & Ha & Hnone).
  destruct (prune cfg now removed (os sv, store sv)) as [s st]. cbn [fst snd] in *.
  destruct (upload_body libarchive cfg messages end_cancel late_cancel id publish_now (s, st)) as [[s' st'] r] eqn:E.
  destruct (upload_body_spec libarchive cfg Hcfg (tree s) _ _ _ _ _ _ _ _ _ _ eq_refl Ht Hs (Hnone _ Hfresh) Hid E)
    as (H1 & H2 & H3).
  rewrite <- Ha. destruct (workspace_apart cfg id Hid) as (B1 & B2 & B3 & B4).
  destruct r as [resp|e].
  - destruct (H2 resp eq_refl) as (Hmax & t' & (es & t3 & P1 & P2 & P3 & P4 & P5 & P6 & P7 & P8) & Hok & Hu).
    assert (Hw : forall q, tree s' !! (workspace_path cfg id ++ q) = t3 !! (revision cfg ++ q)).
    { intros q. rewrite Hu; [rewrite P8, below_app, drop_app_length; done|].
      apply bool_decide_eq_false. intros Hpre. apply prefix_app_cases in Hpre as [Hpre|(k & Hk & Heq & _)].
      - apply bool_decide_eq_false in B3. done.
      - apply bool_decide_eq_false in B4. destruct B4. rewrite Heq. by eexists. }
    assert (Hrest : forall p, below (directory cfg) p = false -> below (workspace_path cfg id) p = false ->
      tree s' !! p = tree s !! p).
    { intros p Hp Hq. rewrite Hu, P8, Hq by done. destruct (below (revision cfg) p) eqn:Er.
      - rewrite (below_trans (directory cfg) (revision cfg) p) in Hp; [done|apply below_app|done].
      - by apply P6. }
    destruct P7 as (R1 & R2 & R3). cbn [os store uploads fst snd].
    split_and!; [split; cbn [os store]|done|done| |].
    + done.
    + rewrite Hrest; [done| |].
      * apply bool_decide_eq_false. intros H%prefix_length. rewrite directory_snoc, length_app in H. cbn in H. lia.
      * apply bool_decide_eq_false. unfold workspace_path, staging_root. intros H%prefix_app_inv.
        apply prefix_cons_inv_1 in H. subst id. by vm_compute in Hid.
    + intros i [x Hx]. unfold Store.publish_revision in P5. repeat case_match; simplify_eq/=; [apply Hids; eauto|].
      apply lookup_insert_Some in Hx as [[<- _]|[_ Hx]]; [done|apply Hids; eauto].
    + intros resp' [= <-]. exists es. split_and!; try done.
      * specialize (Hw []). rewrite !app_nil_r in Hw. by rewrite Hw.
      * intros q n Hq. rewrite Hw. by apply R3.
    + intros Hans _. by apply H3.
  - destruct (H1 e eq_refl) as [-> [S1 S2]]. cbn [os store uploads fst snd].
    split_and!; [split; cbn [os store]|done| |done|].
    + done.
    + by eapply staging_root_kept.
    + done.
    + intros _ _. by right.
    + intros Hans _. by apply H3.
Qed.

(** ** An upload *)

Definition sample_cfg : Config := mkConfig ["ws"%string] 100 sample_limits 60000 1.
Definition sample_id : string := Activation.ws_a.
Definition sample_server (l : list Answer) : Server :=
  mkServer (mkOs {[ [] := Dir; ["ws"%string] := Dir; ["ws"; ".uploads"]%string := Dir ]} l)
    (Store.mkStore Activation.sample_limits ∅ ∅) 0.
(** The three bytes of the sample archive, and any other bytes. *)
Definition sample_libarchive (bytes : list Z) : Archive :=
  if bool_decide (bytes = [1; 2; 3]) then archive_of sample_entries
  else mkArchive true true true (Err EINVAL) [] false.
Definition sample_upload (l : list Answer) : Server * outcome Code UploadWorkspaceResponse :=
  UploadWorkspace sample_libarchive sample_cfg (Some 1000) 0 (fun _ => true)
    [mkUpload false [1; 2]; mkUpload false [3]] false false sample_id 0 (sample_server l).

Lemma sample_cfg_ok : cfg_ok sample_cfg.
Proof. constructor; [repeat constructor; discriminate|exact sample_limits_ok]. Qed.

Lemma sample_server_ok l : server_ok sample_cfg (sample_server l).
Proof.
  constructor; [split; [vm_compute; reflexivity|]|vm_compute; reflexivity|].
  - intros p c n Hn. apply elem_of_map_to_list in Hn.
    vm_compute in Hn. repeat (apply elem_of_cons in Hn as [[= Heq _]|Hn]);
      [..|by apply not_elem_of_nil in Hn]; destruct p as [|a [|b [|d p]]]; simplify_eq/=; vm_compute; reflexivity.
  - intros id [x Hx]. cbn in Hx. by rewrite lookup_empty in Hx.
Qed.

(** The upload is published, and one byte of it is missing on a full disk. *)
Example upload_publishes_witness :
  (exists resp, (sample_upload []).2 = Ok resp /\ workspace_id resp = sample_id /\ response_entries resp = 3)
  /\ tree (os (sample_upload []).1) !! (["ws"; sample_id; "sub"; "tool.ngc"]%string) = Some (File [77; 54; 10])
  /\ (sample_upload [Go; Go; Go; Fail ENOSPC]).2 = Err RESOURCE_EXHAUSTED
  /\ tree (os (sample_upload []).1) !! directory sample_cfg = None.
Proof.
  pose proof (upload_publishes sample_libarchive sample_cfg (Some 1000) 0 (fun _ => true)
    [mkUpload false [1; 2]; mkUpload false [3]] false false sample_id 0 (sample_server [])
    sample_cfg_ok (sample_server_ok []) eq_refl eq_refl) as H.
  change (UploadWorkspace _ _ _ _ _ _ _ _ _ _ _) with (sample_upload []) in H.
  rewrite (surjective_pairing (sample_upload [])) in H. destruct H as (_ & _ & _ & _ & H5).
  split; [eexists; split; [vm_compute; reflexivity|split; vm_compute; reflexivity]|].
  split; [vm_compute; reflexivity|]. split; [vm_compute; reflexivity|].
  apply H5; vm_compute; reflexivity.
Defined.

End Upload.
