(* ===== verification/RemoteComponent.v ===== *)
(** Remote HAL components: the HAL component a proxy owns ([hal/adapter.cc]), the
    scalar mapping ([hal/grpc/mapping.cc]) and the registry of retained proxies
    ([hal/grpc/remote_component_registry.cc]).

    HAL itself (name lookup, shared memory, the limit on names) is the
    environment: its answers are arguments of the operations that ask. *)
From Stdlib Require Import SpecFloat Ascii String.
From S2P Require Import Prelude Float64 StreamWrite.

Local Open Scope Z_scope.

(** * HAL components *)
Module HalComponent.

Inductive HalAdapterType := TBit | TFloat | TS32 | TU32 | TS64 | TU64.
Inductive HalAdapterValue :=
| VBit (b : bool) | VFloat (x : f64) | VS32 (z : Z) | VU32 (z : Z) | VS64 (z : Z) | VU64 (z : Z).
Inductive HalAdapterPinDirection := In_ | Out_ | Io_.
Inductive HalAdapterParamDirection := ReadOnly | ReadWrite.

#[export] Instance HalAdapterType_eq_dec : EqDecision HalAdapterType.
Proof. solve_decision. Defined.
#[export] Instance HalAdapterPinDirection_eq_dec : EqDecision HalAdapterPinDirection.
Proof. solve_decision. Defined.
#[export] Instance HalAdapterParamDirection_eq_dec : EqDecision HalAdapterParamDirection.
Proof. solve_decision. Defined.

(** The alternative a variant holds. *)
Definition type_of (v : HalAdapterValue) : HalAdapterType :=
  match v with
  | VBit _ => TBit | VFloat _ => TFloat | VS32 _ => TS32 | VU32 _ => TU32 | VS64 _ => TS64
  | VU64 _ => TU64
  end.

Definition same_type (t : HalAdapterType) (v : HalAdapterValue) : bool :=
  bool_decide (type_of v = t).

(** [operator==] of the variant. *)
Definition variant_eq (a b : HalAdapterValue) : bool :=
  match a, b with
  | VBit x, VBit y => Bool.eqb x y
  | VFloat x, VFloat y => f64_eq x y
  | VS32 x, VS32 y | VU32 x, VU32 y | VS64 x, VS64 y | VU64 x, VU64 y => x =? y
  | _, _ => false
  end.

(** Fresh HAL memory. *)
Definition zero_value (t : HalAdapterType) : HalAdapterValue :=
  match t with
  | TBit => VBit false | TFloat => VFloat f64_zero | TS32 => VS32 0 | TU32 => VU32 0
  | TS64 => VS64 0 | TU64 => VU64 0
  end.

(** ** The slab of item slots

    [free_], the back of the vector first. *)
Record Slab := mkSlab { capacity : nat; free : list nat }.

Definition make_slab (n : nat) : Slab := mkSlab n (seq 0 n).
Definition acquire (s : Slab) : option (nat * Slab) :=
  match free s with [] => None | i :: rest => Some (i, mkSlab (capacity s) rest) end.
Definition release (i : nat) (s : Slab) : Slab :=
  if (capacity s <=? i)%nat then s else mkSlab (capacity s) (i :: free s).

(** ** Components *)

(** [data]: what the item's data pointer refers to, the pin's own memory or the
    signal it is linked to. *)
Record Item := mkItem {
  full_name_ : string;
  type : HalAdapterType;
  pin : bool;
  pin_direction : HalAdapterPinDirection;
  param_direction : HalAdapterParamDirection;
  data : HalAdapterValue;
  slab_slot : nat;
}.

Record LinuxCncHalComponent := mkComponent {
  name : string;
  prefix : string;
  ready : bool;
  items : gmap string Item;
}.

(** The answers of [hal_init], [hal_pin_new] or [hal_param_new] (for a full name)
    and [hal_ready], and HAL's limit on names. *)
Record Hal := mkHal {
  hal_init : Z;
  hal_new : string -> Z;
  hal_ready : Z;
  name_len : nat;
}.

Definition EINVAL : Z := 22.
Definition EBUSY : Z := 16.
Definition ENOENT : Z := 2.

Definition full_name (h : Hal) (prefix suffix : string) : string :=
  if bool_decide (suffix = EmptyString) then EmptyString
  else
    let result := if bool_decide (prefix = EmptyString) then suffix
                  else String.append prefix (String "." suffix) in
    if (name_len h <? String.length result)%nat then EmptyString else result.

Definition set_items (m : gmap string Item) (c : LinuxCncHalComponent) : LinuxCncHalComponent :=
  mkComponent (name c) (prefix c) (ready c) m.

Definition set_data (v : HalAdapterValue) (i : Item) : Item :=
  mkItem (full_name_ i) (type i) (pin i) (pin_direction i) (param_direction i) v (slab_slot i).

(** [open_component]; an error is the code of the [HalAdapterError]. *)
Definition open_component (h : Hal) (nm pre : string) : outcome Z LinuxCncHalComponent :=
  if bool_decide (nm = EmptyString) || (name_len h <? String.length nm)%nat then Err (- EINVAL)
  else
    let p := if bool_decide (pre = EmptyString) then nm else pre in
    if (name_len h <? String.length p)%nat then Err (- EINVAL)
    else if hal_init h <=? 0 then Err (hal_init h)
    else Ok (mkComponent nm p false ∅).

(** The common body of [add_pin] and [add_param]: [Ok None] is the result [false]. *)
Definition add_item (h : Hal) (suffix : string) (make : string -> nat -> Item)
    (c : LinuxCncHalComponent) (s : Slab) : outcome Z (option (LinuxCncHalComponent * Slab)) :=
  if ready c || bool_decide (suffix = EmptyString) || bool_decide (is_Some (items c !! suffix))
  then Ok None
  else
    let full := full_name h (prefix c) suffix in
    if bool_decide (full = EmptyString) then Ok None
    else
      match acquire s with
      | None => Err (- EBUSY)
      | Some (slot, s') =>
          if hal_new h full =? 0
          then Ok (Some (set_items (<[suffix := make full slot]> (items c)) c, s'))
          else Err (hal_new h full)
      end.

Definition add_pin (h : Hal) (suffix : string) (t : HalAdapterType) (d : HalAdapterPinDirection) :=
  add_item h suffix (fun full slot => mkItem full t true d ReadOnly (zero_value t) slot).

Definition add_param (h : Hal) (suffix : string) (t : HalAdapterType)
    (d : HalAdapterParamDirection) :=
  add_item h suffix (fun full slot => mkItem full t false In_ d (zero_value t) slot).

Definition set_ready (h : Hal) (c : LinuxCncHalComponent) : outcome Z LinuxCncHalComponent :=
  if hal_ready h =? 0 then Ok (mkComponent (name c) (prefix c) true (items c))
  else Err (hal_ready h).

Definition read (c : LinuxCncHalComponent) (suffix : string) : option HalAdapterValue :=
  data <$> items c !! suffix.

Definition write (suffix : string) (v : HalAdapterValue) (c : LinuxCncHalComponent) :
    LinuxCncHalComponent * bool :=
  match items c !! suffix with
  | None => (c, false)
  | Some i =>
      if negb (same_type (type i) v) then (c, false)
      else if pin i && bool_decide (pin_direction i = In_) then (c, false)
      else (set_items (<[suffix := set_data v i]> (items c)) c, true)
  end.

(** [close]: [hal_exit], and the slots go back to the slab. *)
Definition slots (c : LinuxCncHalComponent) : list nat := slab_slot ∘ snd <$> map_to_list (items c).
Definition close (c : LinuxCncHalComponent) (s : Slab) : Slab := foldr release s (slots c).

(** What the rest of HAL may change: inputs, bidirectional pins, read-write
    parameters, within their type. *)
Definition hal_change (suffix : string) (v : HalAdapterValue) (c : LinuxCncHalComponent) :
    LinuxCncHalComponent :=
  match items c !! suffix with
  | Some i =>
      if same_type (type i) v
         && (if pin i then negb (bool_decide (pin_direction i = Out_))
             else bool_decide (param_direction i = ReadWrite))
      then set_items (<[suffix := set_data v i]> (items c)) c
      else c
  | None => c
  end.

End HalComponent.

(** * The registry *)
Module Registry.
Import HalComponent.

(** ** Messages *)

Definition HAL_ITEM_KIND_PIN : Z := 1.
Definition HAL_ITEM_KIND_PARAM : Z := 2.

Record HalScalar := mkScalar { scalar_type : Z; scalar_value : option HalAdapterValue }.
Record HalItemRef := mkRef { ref_kind : Z; ref_name : string }.

Definition type_code (t : HalAdapterType) : Z :=
  match t with TBit => 1 | TFloat => 2 | TS32 => 3 | TU32 => 4 | TS64 => 5 | TU64 => 6 end.

Definition decode_hal_type (z : Z) : option HalAdapterType :=
  if (z <? 1) || (6 <? z) then None
  else [TBit; TFloat; TS32; TU32; TS64; TU64] !! Z.to_nat (z - 1).

Definition decode_hal_scalar (s : HalScalar) : option HalAdapterValue :=
  match scalar_value s with
  | Some v => if scalar_type s =? type_code (type_of v) then Some v else None
  | None => None
  end.

Definition encode_hal_scalar (v : HalAdapterValue) : HalScalar :=
  mkScalar (type_code (type_of v)) (Some v).

Definition typed_value (t : HalAdapterType) (s : HalScalar) : option HalAdapterValue :=
  match decode_hal_scalar s with
  | Some v => if bool_decide (type_of v = t) then Some v else None
  | None => None
  end.

(** A pin or a parameter of a create request. *)
Record SchemaItem := mkSchema {
  sch_name : string;
  sch_type : Z;
  sch_direction : Z;
  sch_disconnect : option HalScalar;
}.

Record HalComponentCreate := mkCreate {
  create_name : string;
  create_prefix : string;
  pins : list SchemaItem;
  parameters : list SchemaItem;
  create_sampling_period_ms : Z;
}.

Inductive CloseMode := Unspecified | Detach | Destroy.

Inductive HalComponentClientMessage :=
| Create (c : HalComponentCreate)
| Attach (proxy name : string) (token : list Z)
| Activate (generation : Z) (values : list (HalItemRef * HalScalar))
| Update (generation sequence : Z) (values : list (HalItemRef * HalScalar))
| Heartbeat (generation : Z)
| Close (generation : Z) (mode : CloseMode)
| NotSet.

(** Server messages other than deltas, which are those of the outbox. *)
Inductive Response :=
| Attached (proxy name prefix : string) (generation : Z)
    (retained : list (Outbox.ComponentValue (Value := HalScalar)))
    (sampling_period heartbeat_interval heartbeat_timeout : Z) (token : option (list Z))
| Active (generation : Z)
| UpdateAck (generation sequence : Z)
| HeartbeatAck (generation : Z)
| Closed (proxy : string) (mode : CloseMode).

Definition Message : Type := Outbox.Message (Value := HalScalar) (Payload := Response).

Inductive StatusCode :=
| OK | INVALID_ARGUMENT | NOT_FOUND | ALREADY_EXISTS | RESOURCE_EXHAUSTED | FAILED_PRECONDITION
| OUT_OF_RANGE | UNAUTHENTICATED.

Record RemoteComponentResult := mkResult {
  status : StatusCode;
  response : option Response;
  proxy_id : string;
  result_generation : Z;
  close_stream : bool;
}.

Definition refuse (s : StatusCode) : RemoteComponentResult := mkResult s None EmptyString 0 false.

Definition hal_error (code : Z) : StatusCode :=
  if code =? - ENOENT then NOT_FOUND
  else if code =? - EBUSY then RESOURCE_EXHAUSTED
  else if code =? - EINVAL then INVALID_ARGUMENT
  else FAILED_PRECONDITION.

(** ** State *)

Record Item := mkItem {
  suffix : string;
  kind : Z;
  item_type : HalAdapterType;
  item_full_name : string;
  client_writable : bool;
  server_readable : bool;
  disconnect_value : option HalAdapterValue;
  previous : option HalAdapterValue;
}.

(** [callbacks]: the reactor the callbacks lead to. *)
Record Proxy := mkProxy {
  ownership_token : list Z;
  component : LinuxCncHalComponent;
  items : list Item;
  sampling_period : Z;
  next_sample : Z;
  last_heartbeat : Z;
  generation : Z;
  client_sequence : Z;
  server_sequence : Z;
  attached : bool;
  active : bool;
  callbacks : option nat;
}.

Record Config := mkConfig {
  max_items : Z;
  heartbeat_interval : Z;
  heartbeat_timeout : Z;
  default_sampling_period : Z;
  min_sampling_period : Z;
  max_sampling_period : Z;
}.

(** What reaches a reactor, with the proxy it concerns. *)
Inductive Event :=
| Sent (reactor : nat) (proxy : string) (m : Message)
| TimedOut (reactor : nat) (proxy : string) (generation : Z).

(** [admitted], [admission_limit] and [accepting]: the admission counter of
    components, which only the registry uses.  [log]: the events so far, which no
    operation reads. *)
Record RemoteComponentRegistry := mkRegistry {
  config : Config;
  proxies : gmap string Proxy;
  retained_item_count : Z;
  admitted : nat;
  admission_limit : nat;
  accepting : bool;
  slab : Slab;
  log : list Event;
}.

Definition kOnlinePin : string := "online".

Definition set_proxies (m : gmap string Proxy) (r : RemoteComponentRegistry) :
    RemoteComponentRegistry :=
  mkRegistry (config r) m (retained_item_count r) (admitted r) (admission_limit r) (accepting r)
    (slab r) (log r).
Definition set_slab (s : Slab) (r : RemoteComponentRegistry) : RemoteComponentRegistry :=
  mkRegistry (config r) (proxies r) (retained_item_count r) (admitted r) (admission_limit r)
    (accepting r) s (log r).
Definition emit (es : list Event) (r : RemoteComponentRegistry) : RemoteComponentRegistry :=
  mkRegistry (config r) (proxies r) (retained_item_count r) (admitted r) (admission_limit r)
    (accepting r) (slab r) (log r ++ es).

Definition set_component (c : LinuxCncHalComponent) (p : Proxy) : Proxy :=
  mkProxy (ownership_token p) c (items p) (sampling_period p) (next_sample p) (last_heartbeat p)
    (generation p) (client_sequence p) (server_sequence p) (attached p) (active p) (callbacks p).
Definition set_previous (v : option HalAdapterValue) (i : Item) : Item :=
  mkItem (suffix i) (kind i) (item_type i) (item_full_name i) (client_writable i)
    (server_readable i) (disconnect_value i) v.
Definition set_items (its : list Item) (p : Proxy) : Proxy :=
  mkProxy (ownership_token p) (component p) its (sampling_period p) (next_sample p)
    (last_heartbeat p) (generation p) (client_sequence p) (server_sequence p) (attached p)
    (active p) (callbacks p).

(** ** Updates *)

(** [name.rfind(prefix, 0) == 0] with the rest, or nothing. *)
Fixpoint strip_prefix (pre s : string) : option string :=
  match pre, s with
  | EmptyString, _ => Some s
  | String a pre', String b s' => if bool_decide (a = b) then strip_prefix pre' s' else None
  | String _ _, EmptyString => None
  end.

(** [find_item]: the index of the item. *)
Definition find_item (p : Proxy) (ref : HalItemRef) : option nat :=
  let nm := default (ref_name ref)
              (strip_prefix (String.append (prefix (component p)) ".") (ref_name ref)) in
  fst <$> list_find (fun i => suffix i = nm /\ kind i = ref_kind ref) (items p).

Fixpoint decode_loop (p : Proxy) (values : list (HalItemRef * HalScalar)) (seen : list nat)
    (decoded : list (nat * HalAdapterValue)) : outcome StatusCode (list (nat * HalAdapterValue)) :=
  match values with
  | [] => Ok decoded
  | (ref, scalar) :: rest =>
      match find_item p ref with
      | None => Err INVALID_ARGUMENT
      | Some n =>
          match items p !! n with
          | None => Err INVALID_ARGUMENT
          | Some i =>
              if negb (client_writable i) then Err INVALID_ARGUMENT
              else if bool_decide (n ∈ seen) then Err INVALID_ARGUMENT
              else
                match typed_value (item_type i) scalar with
                | None => Err INVALID_ARGUMENT
                | Some v => decode_loop p rest (seen ++ [n]) (decoded ++ [(n, v)])
                end
          end
      end
  end.

Definition decode_values (p : Proxy) (values : list (HalItemRef * HalScalar)) (complete : bool) :
    outcome StatusCode (list (nat * HalAdapterValue)) :=
  decoded ← decode_loop p values [] [];
  if complete
     && negb (length decoded =? length (filter (fun i => client_writable i = true) (items p)))%nat
  then Err INVALID_ARGUMENT
  else Ok decoded.

(** The loop over the decoded values; it stops at a write that fails. *)
Fixpoint write_values (its : list Item) (values : list (nat * HalAdapterValue))
    (c : LinuxCncHalComponent) : LinuxCncHalComponent * bool :=
  match values with
  | [] => (c, true)
  | (n, v) :: rest =>
      match its !! n with
      | None => (c, false)
      | Some i =>
          let (c', ok) := write (suffix i) v c in
          if ok then write_values its rest c' else (c', false)
      end
  end.

(** ** Attachment *)

Definition component_value (i : Item) (v : HalAdapterValue) :
    Outbox.ComponentValue (Value := HalScalar) :=
  Outbox.mkValue (kind i) (item_full_name i) (encode_hal_scalar v).

(** [encode_snapshot]: the proxy with the values it reports as [previous]. *)
Definition snapshot_item (c : LinuxCncHalComponent) (i : Item) : Item :=
  match read c (suffix i) with Some v => set_previous (Some v) i | None => i end.

Definition retained_values (p : Proxy) : list (Outbox.ComponentValue (Value := HalScalar)) :=
  omap (fun i => component_value i <$> read (component p) (suffix i)) (items p).

Definition encode_snapshot (cfg : Config) (id : string) (include_token : bool) (p : Proxy) :
    Proxy * Response :=
  (set_items (snapshot_item (component p) <$> items p) p,
   Attached id (name (component p)) (prefix (component p)) (generation p) (retained_values p)
     (u32_wrap (sampling_period p)) (u32_wrap (heartbeat_interval cfg))
     (u32_wrap (heartbeat_timeout cfg)) (if include_token then Some (ownership_token p) else None)).

Definition disconnect_item (c : LinuxCncHalComponent) (i : Item) : LinuxCncHalComponent :=
  match disconnect_value i with Some v => (write (suffix i) v c).1 | None => c end.

Definition disconnect_component (its : list Item) (c : LinuxCncHalComponent) :
    LinuxCncHalComponent :=
  foldl disconnect_item (write kOnlinePin (VBit false) c).1 its.

Definition apply_disconnect (p : Proxy) : Proxy :=
  mkProxy (ownership_token p) (disconnect_component (items p) (component p)) (items p)
    (sampling_period p) (next_sample p) (last_heartbeat p) (generation p) (client_sequence p)
    (server_sequence p) (attached p) false (callbacks p).

(** [apply_disconnect] with the two assignments that follow it everywhere. *)
Definition release_proxy (p : Proxy) : Proxy :=
  let q := apply_disconnect p in
  mkProxy (ownership_token q) (component q) (items q) (sampling_period q) (next_sample q)
    (last_heartbeat q) (generation q) (client_sequence q) (server_sequence q) false (active q) None.

Definition detach (id : string) (gen : Z) (r : RemoteComponentRegistry) : RemoteComponentRegistry :=
  match proxies r !! id with
  | None => r
  | Some p =>
      if negb (attached p) || negb (generation p =? gen) then r
      else set_proxies (<[id := release_proxy p]> (proxies r)) r
  end.

(** ** Creation *)

Record Definition_ := mkDefinition {
  def_name : string;
  def_kind : Z;
  def_type : HalAdapterType;
  def_direction : Z;
  def_disconnect : option HalAdapterValue;
}.

(** One pin ([HAL_PIN_DIRECTION_IN = 1], [OUT = 2], [IO = 3]) or parameter
    ([HAL_PARAM_DIRECTION_RO = 1], [RW = 2]) of the schema. *)
Definition define_item (is_pin : bool) (names : gset string) (s : SchemaItem) :
    outcome StatusCode (gset string * Definition_) :=
  match decode_hal_type (sch_type s) with
  | None => Err INVALID_ARGUMENT
  | Some t =>
      if bool_decide (sch_name s = EmptyString) || bool_decide (sch_name s ∈ names)
         || (sch_direction s <? 1) || ((if is_pin then 3 else 2) <? sch_direction s)
      then Err INVALID_ARGUMENT
      else
        disconnect ←
          match sch_disconnect s with
          | None => Ok None
          | Some scalar =>
              if is_pin && negb (sch_direction s =? 2) && negb (sch_direction s =? 3)
              then Err INVALID_ARGUMENT
              else match typed_value t scalar with
                   | None => Err INVALID_ARGUMENT
                   | Some v => Ok (Some v)
                   end
          end;
        Ok ({[sch_name s]} ∪ names,
            mkDefinition (sch_name s) (if is_pin then HAL_ITEM_KIND_PIN else HAL_ITEM_KIND_PARAM) t
              (sch_direction s) disconnect)
  end.

Fixpoint define_items (is_pin : bool) (names : gset string) (l : list SchemaItem) :
    outcome StatusCode (gset string * list Definition_) :=
  match l with
  | [] => Ok (names, [])
  | s :: rest =>
      '(names1, d) ← define_item is_pin names s;
      '(names2, ds) ← define_items is_pin names1 rest;
      Ok (names2, d :: ds)
  end.

Definition definitions (c : HalComponentCreate) : outcome StatusCode (list Definition_) :=
  '(names, ps) ← define_items true {[kOnlinePin]} (pins c);
  '(_, qs) ← define_items false names (parameters c);
  Ok (ps ++ qs).

Definition pin_writable (d : Definition_) : bool :=
  if def_kind d =? HAL_ITEM_KIND_PIN then negb (def_direction d =? 1) else true.
Definition pin_readable (d : Definition_) : bool :=
  if def_kind d =? HAL_ITEM_KIND_PIN then negb (def_direction d =? 2) else def_direction d =? 2.

Definition add_definition (h : Hal) (d : Definition_) (c : LinuxCncHalComponent) (s : Slab) :
    outcome Z (option (LinuxCncHalComponent * Slab)) :=
  if def_kind d =? HAL_ITEM_KIND_PIN
  then add_pin h (def_name d) (def_type d)
         (if def_direction d =? 1 then In_ else if def_direction d =? 2 then Out_ else Io_) c s
  else add_param h (def_name d) (def_type d)
         (if def_direction d =? 2 then ReadWrite else ReadOnly) c s.

Definition item_of (pre : string) (d : Definition_) : Item :=
  mkItem (def_name d) (def_kind d) (def_type d) (String.append pre (String "." (def_name d)))
    (pin_writable d) (pin_readable d) (def_disconnect d) None.

Definition online_item (pre : string) : Item :=
  mkItem kOnlinePin HAL_ITEM_KIND_PIN TBit (String.append pre ".online") false false None None.

(** The loop over the definitions: the component and the slab as they are when it
    ends, and the code of the exception that ended it. *)
Fixpoint add_definitions (h : Hal) (l : list Definition_) (c : LinuxCncHalComponent) (s : Slab) :
    LinuxCncHalComponent * Slab * option Z :=
  match l with
  | [] => (c, s, None)
  | d :: rest =>
      match add_definition h d c s with
      | Err code => (c, s, Some code)
      | Ok None => (c, s, Some (- EINVAL))
      | Ok (Some (c', s')) => add_definitions h rest c' s'
      end
  end.

(** From [open_component] to [set_ready]; on an exception the component is closed. *)
Definition build_component (h : Hal) (nm pre : string) (defs : list Definition_) (s : Slab) :
    Slab * outcome Z LinuxCncHalComponent :=
  match open_component h nm pre with
  | Err code => (s, Err code)
  | Ok c0 =>
      let '(c1, s1, e) := add_definitions h defs c0 s in
      match e with
      | Some code => (HalComponent.close c1 s1, Err code)
      | None =>
          match add_pin h kOnlinePin TBit Out_ c1 s1 with
          | Err code => (HalComponent.close c1 s1, Err code)
          | Ok None => (HalComponent.close c1 s1, Err (- EINVAL))
          | Ok (Some (c2, s2)) =>
              let c3 := (write kOnlinePin (VBit false) c2).1 in
              match set_ready h c3 with
              | Err code => (HalComponent.close c3 s2, Err code)
              | Ok c4 => (s2, Ok c4)
              end
          end
      end
  end.

(** [std::clamp]. *)
Definition clamp (v lo hi : Z) : Z := if v <? lo then lo else if hi <? v then hi else v.

(** [create]: [id] and [token] are the random identifier and token, [now] the
    clock. *)
Definition create (h : Hal) (id : string) (token : list Z) (now : Z) (reactor : nat)
    (m : HalComponentCreate) (r : RemoteComponentRegistry) :
    RemoteComponentRegistry * RemoteComponentResult :=
  let pre := if bool_decide (create_prefix m = EmptyString) then create_name m else create_prefix m in
  if bool_decide (create_name m = EmptyString) || bool_decide (pre = EmptyString)
  then (r, refuse INVALID_ARGUMENT)
  else if bool_decide (map_Exists (fun _ p => name (component p) = create_name m) (proxies r))
  then (r, refuse ALREADY_EXISTS)
  else
    match definitions m with
    | Err st => (r, refuse st)
    | Ok defs =>
        let count := Z.of_nat (S (length defs)) in
        let cfg := config r in
        if (max_items cfg <? count) || (max_items cfg - count <? retained_item_count r)
           || negb (accepting r && (admitted r <? admission_limit r)%nat)
        then (r, refuse RESOURCE_EXHAUSTED)
        else
          match build_component h (create_name m) pre defs (slab r) with
          | (s, Err code) => (set_slab s r, refuse (hal_error code))
          | (s, Ok c) =>
              let requested :=
                if create_sampling_period_ms m =? 0 then default_sampling_period cfg
                else create_sampling_period_ms m in
              let p0 := mkProxy token c ((item_of pre <$> defs) ++ [online_item pre])
                          (clamp requested (min_sampling_period cfg) (max_sampling_period cfg))
                          now now 1 0 0 true false (Some reactor) in
              let (p, msg) := encode_snapshot cfg id true p0 in
              (mkRegistry cfg (<[id := p]> (proxies r)) (retained_item_count r + count)
                 (S (admitted r)) (admission_limit r) (accepting r) s (log r),
               mkResult OK (Some msg) id 1 false)
          end
    end.

(** [token_equal], without an early exit. *)
Definition token_equal (left right : list Z) : bool :=
  (length left =? length right)%nat
  && (foldl (fun difference ab => Z.lor difference (Z.lxor ab.1 ab.2)) 0 (zip left right) =? 0).

(** [attach]. *)
Definition attach (now : Z) (reactor : nat) (id nm : string) (token : list Z)
    (r : RemoteComponentRegistry) : RemoteComponentRegistry * RemoteComponentResult :=
  match proxies r !! id with
  | None => (r, refuse NOT_FOUND)
  | Some p =>
      if negb (bool_decide (name (component p) = nm)) then (r, refuse NOT_FOUND)
      else if negb (token_equal (ownership_token p) token) then (r, refuse UNAUTHENTICATED)
      else if attached p then (r, refuse ALREADY_EXISTS)
      else
        let p0 := mkProxy (ownership_token p) (write kOnlinePin (VBit false) (component p)).1
                    (items p) (sampling_period p) (next_sample p) now (u64_succ (generation p)) 0
                    (server_sequence p) true false (Some reactor) in
        let (q, msg) := encode_snapshot (config r) id false p0 in
        (set_proxies (<[id := q]> (proxies r)) r, mkResult OK (Some msg) id (generation q) false)
  end.

(** ** Messages of an attached stream *)

Definition set_activity (c : LinuxCncHalComponent) (act : bool) (sequence now : Z) (p : Proxy) :
    Proxy :=
  mkProxy (ownership_token p) c (items p) (sampling_period p) (next_sample p) now (generation p)
    sequence (server_sequence p) (attached p) act (callbacks p).

(** The branch [has_activate]. *)
Definition activate (now : Z) (gen : Z) (values : list (HalItemRef * HalScalar)) (p : Proxy) :
    Proxy * outcome StatusCode Response :=
  if active p || negb (gen =? generation p) then (p, Err FAILED_PRECONDITION)
  else
    match decode_values p values true with
    | Err st => (p, Err st)
    | Ok decoded =>
        let (c, ok) := write_values (items p) decoded (component p) in
        if negb ok then (set_component c p, Err INVALID_ARGUMENT)
        else (set_activity (write kOnlinePin (VBit true) c).1 true (client_sequence p) now p,
              Ok (Active (generation p)))
    end.

(** The branch [has_update]. *)
Definition update (now : Z) (gen sequence : Z) (values : list (HalItemRef * HalScalar)) (p : Proxy) :
    Proxy * outcome StatusCode Response :=
  if negb (active p) || negb (gen =? generation p) then (p, Err FAILED_PRECONDITION)
  else if negb (sequence =? u64_succ (client_sequence p)) then (p, Err OUT_OF_RANGE)
  else
    match decode_values p values false with
    | Err st => (p, Err st)
    | Ok decoded =>
        let (c, ok) := write_values (items p) decoded (component p) in
        if negb ok then (set_component c p, Err INVALID_ARGUMENT)
        else (set_activity c (active p) sequence now p, Ok (UpdateAck (generation p) sequence))
    end.

(** The branch [has_heartbeat]. *)
Definition heartbeat (now : Z) (gen : Z) (p : Proxy) : Proxy * outcome StatusCode Response :=
  if negb (gen =? generation p) then (p, Err FAILED_PRECONDITION)
  else (set_activity (component p) (active p) (client_sequence p) now p,
        Ok (HeartbeatAck (generation p))).

(** The branch [has_close]. *)
Definition close_proxy (id : string) (gen : Z) (mode : CloseMode) (p : Proxy)
    (r : RemoteComponentRegistry) : RemoteComponentRegistry * RemoteComponentResult :=
  match mode with
  | Unspecified => (r, mkResult INVALID_ARGUMENT None id (generation p) false)
  | _ =>
      if negb (gen =? generation p) then (r, mkResult INVALID_ARGUMENT None id (generation p) false)
      else
        let q := release_proxy p in
        (match mode with
         | Destroy =>
             mkRegistry (config r) (delete id (proxies r))
               (retained_item_count r - Z.of_nat (length (items q))) (pred (admitted r))
               (admission_limit r) (accepting r) (HalComponent.close (component q) (slab r)) (log r)
         | _ => set_proxies (<[id := q]> (proxies r)) r
         end,
         mkResult OK (Some (Closed id mode)) id (generation p) true)
  end.

Definition finish_message (id : string) (pr : Proxy * outcome StatusCode Response)
    (r : RemoteComponentRegistry) : RemoteComponentRegistry * RemoteComponentResult :=
  let (p, res) := pr in
  (set_proxies (<[id := p]> (proxies r)) r,
   match res with
   | Ok msg => mkResult OK (Some msg) id (generation p) false
   | Err st => mkResult st None id (generation p) false
   end).

(** [consume] for a message that is neither [Create] nor [Attach]. *)
Definition consume_attached (now : Z) (attached_id : string) (attached_generation : Z)
    (request : HalComponentClientMessage) (r : RemoteComponentRegistry) :
    RemoteComponentRegistry * RemoteComponentResult :=
  match proxies r !! attached_id with
  | None => (r, refuse FAILED_PRECONDITION)
  | Some p =>
      if negb (attached p) || negb (generation p =? attached_generation)
      then (r, refuse FAILED_PRECONDITION)
      else
        match request with
        | Activate gen values => finish_message attached_id (activate now gen values p) r
        | Update gen sequence values => finish_message attached_id (update now gen sequence values p) r
        | Heartbeat gen => finish_message attached_id (heartbeat now gen p) r
        | Close gen mode => close_proxy attached_id gen mode p r
        | _ => (r, mkResult INVALID_ARGUMENT None attached_id (generation p) false)
        end
  end.

Definition consume (h : Hal) (id : string) (token : list Z) (now : Z) (attached_id : string)
    (attached_generation : Z) (reactor : nat) (request : HalComponentClientMessage)
    (r : RemoteComponentRegistry) : RemoteComponentRegistry * RemoteComponentResult :=
  let first := bool_decide (attached_id = EmptyString) in
  match request with
  | Create m => if first then create h id token now reactor m r else (r, refuse INVALID_ARGUMENT)
  | Attach proxy nm tok =>
      if first then attach now reactor proxy nm tok r else (r, refuse INVALID_ARGUMENT)
  | _ =>
      if first then (r, refuse INVALID_ARGUMENT)
      else consume_attached now attached_id attached_generation request r
  end.

(** ** Sampling *)

(** The loop over the items: the values that changed, and what [previous] becomes. *)
Definition sample_item (c : LinuxCncHalComponent) (i : Item) :
    Item * option (Outbox.ComponentValue (Value := HalScalar)) :=
  if negb (server_readable i) then (i, None)
  else
    match read c (suffix i) with
    | None => (i, None)
    | Some v =>
        if match previous i with Some old => variant_eq old v | None => false end then (i, None)
        else (set_previous (Some v) i, Some (component_value i v))
    end.

Definition sample_proxy (cfg : Config) (now : Z) (id : string) (p : Proxy) : Proxy * list Event :=
  if negb (attached p) then (p, [])
  else if heartbeat_timeout cfg <=? now - last_heartbeat p
  then (release_proxy p,
        match callbacks p with Some k => [TimedOut k id (generation p)] | None => [] end)
  else if negb (active p) || (now <? next_sample p) then (p, [])
  else
    let sampled := sample_item (component p) <$> items p in
    let values := omap snd sampled in
    let sequence := match values with [] => server_sequence p | _ => u64_succ (server_sequence p) end in
    (mkProxy (ownership_token p) (component p) (fst <$> sampled) (sampling_period p)
       (now + sampling_period p) (last_heartbeat p) (generation p) (client_sequence p) sequence
       (attached p) (active p) (callbacks p),
     match values, callbacks p with
     | _ :: _, Some k =>
         [Sent k id (Outbox.DeltaMessage (Outbox.mkDelta (generation p) sequence values))]
     | _, _ => []
     end).

(** [sample]: the order of the proxies is that of the hash table. *)
Definition sample (now : Z) (r : RemoteComponentRegistry) : RemoteComponentRegistry :=
  emit (concat ((fun kv => (sample_proxy (config r) now kv.1 kv.2).2) <$> map_to_list (proxies r)))
    (set_proxies (map_imap (fun id p => Some (sample_proxy (config r) now id p).1) (proxies r)) r).

Definition shutdown (r : RemoteComponentRegistry) : RemoteComponentRegistry :=
  mkRegistry (config r) ∅ 0 (admitted r - base.size (proxies r)) (admission_limit r) (accepting r)
    (map_fold (fun _ p s => HalComponent.close (component p) s) (slab r) (proxies r)) (log r).

(** ** Runs

    All operations run on the HAL worker, one after the other; HAL changes items
    in between. *)
Inductive Step :=
| Consume (h : Hal) (id : string) (token : list Z) (now : Z) (attached_id : string)
    (attached_generation : Z) (reactor : nat) (request : HalComponentClientMessage)
| DetachStep (id : string) (gen : Z)
| Sample (now : Z)
| HalChange (id suffix : string) (v : HalAdapterValue)
| StopAdmission
| Shutdown.

(** The response of [consume], as an event of the stream that sent the request. *)
Definition answered (reactor : nat) (res : RemoteComponentResult) : list Event :=
  match response res with
  | Some m => [Sent reactor (proxy_id res) (Outbox.OtherMessage m)]
  | None => []
  end.

(** The loop around the random identifier never settles on one in use. *)
Definition id_taken (id : string) (request : HalComponentClientMessage)
    (r : RemoteComponentRegistry) : bool :=
  match request with Create _ => bool_decide (is_Some (proxies r !! id)) | _ => false end.

Definition step (r : RemoteComponentRegistry) (st : Step) : RemoteComponentRegistry :=
  match st with
  | Consume h id token now aid gen k request =>
      if id_taken id request r then r
      else let (r', res) := consume h id token now aid gen k request r in emit (answered k res) r'
  | DetachStep id gen => detach id gen r
  | Sample now => sample now r
  | HalChange id suffix v =>
      match proxies r !! id with
      | Some p => set_proxies (<[id := set_component (hal_change suffix v (component p)) p]> (proxies r)) r
      | None => r
      end
  | StopAdmission =>
      mkRegistry (config r) (proxies r) (retained_item_count r) (admitted r) (admission_limit r) false
        (slab r) (log r)
  | Shutdown => shutdown r
  end.

Definition run (r : RemoteComponentRegistry) (l : list Step) : RemoteComponentRegistry :=
  foldl step r l.

Definition start (cfg : Config) (limit items : nat) : RemoteComponentRegistry :=
  mkRegistry cfg ∅ 0 0 limit true (make_slab items) [].

(** ** Layout

    What an operation other than [create] leaves alone: everything of a component
    but its data, everything of an item but [previous]. *)
Definition erase_data (hi : HalComponent.Item) : HalComponent.Item := set_data (VBit false) hi.
Definition layout (c : LinuxCncHalComponent) : string * string * gmap string HalComponent.Item :=
  (name c, prefix c, erase_data <$> HalComponent.items c).
#[local] Arguments layout : simpl never.
Definition forget (i : Item) : Item := set_previous None i.
Definition shape (p : Proxy) : list Item * (string * string * gmap string HalComponent.Item) :=
  (forget <$> items p, layout (component p)).

(** The component accepts writes to the item. *)
Definition accepts (hi : HalComponent.Item) : bool :=
  negb (pin hi && bool_decide (pin_direction hi = In_)).
(** Only the component writes the item. *)
Definition exclusive (hi : HalComponent.Item) : bool :=
  if pin hi then bool_decide (pin_direction hi = Out_) else bool_decide (param_direction hi = ReadOnly).

(** An item of the proxy and the item of its component. *)
Record item_matches (pre : string) (i : Item) (hi : HalComponent.Item) : Prop := mkMatches {
  im_type : type hi = item_type i;
  im_full : item_full_name i = String.append pre (String "." (suffix i));
  im_writable : client_writable i = true -> accepts hi = true;
  im_disconnect : forall v, disconnect_value i = Some v ->
    type_of v = item_type i /\ accepts hi = true;
  im_online : suffix i = kOnlinePin -> client_writable i = false /\ disconnect_value i = None;
}.

Definition well_formed (sh : list Item * (string * string * gmap string HalComponent.Item)) : Prop :=
  let '(its, (_, pre, m)) := sh in
  NoDup (suffix <$> its)
  /\ Forall (fun i => exists hi, m !! suffix i = Some hi /\ item_matches pre i hi) its
  /\ base.size m = length its
  /\ exists hi, m !! kOnlinePin = Some hi /\ type hi = TBit /\ accepts hi = true
       /\ exclusive hi = true.

Lemma layout_lookup c s : (layout c).2 !! s = erase_data <$> HalComponent.items c !! s.
Proof. apply lookup_fmap. Qed.

Lemma layout_set_data c s v hi :
  HalComponent.items c !! s = Some hi ->
  layout (HalComponent.set_items (<[s := set_data v hi]> (HalComponent.items c)) c) = layout c.
Proof.
  intros H. unfold layout. cbn. f_equal. rewrite fmap_insert. apply insert_id.
  by rewrite lookup_fmap, H.
Qed.

Lemma layout_write s v c : layout (write s v c).1 = layout c.
Proof.
  unfold write. destruct (HalComponent.items c !! s) as [hi|] eqn:E; [|done].
  destruct (negb _); [done|]. destruct (_ && _); [done|]. by apply layout_set_data.
Qed.

Lemma layout_hal_change s v c : layout (hal_change s v c) = layout c.
Proof.
  unfold hal_change. destruct (HalComponent.items c !! s) as [hi|] eqn:E; [|done].
  destruct (_ && _); [|done]. by apply layout_set_data.
Qed.

(** A write the item accepts takes effect, on that item only. *)
Lemma write_ok s v c hi :
  (layout c).2 !! s = Some hi -> type_of v = type hi -> accepts hi = true ->
  (write s v c).2 = true
  /\ forall s', read (write s v c).1 s' = if bool_decide (s' = s) then Some v else read c s'.
Proof.
  rewrite layout_lookup. destruct (HalComponent.items c !! s) as [h|] eqn:E; [|done].
  cbn. intros [= <-] Ht Ha. unfold write. rewrite E. unfold same_type.
  rewrite bool_decide_eq_true_2 by done. cbn [negb]. unfold accepts in Ha. cbn in Ha.
  apply negb_true_iff in Ha. rewrite Ha. split; [done|]. clear Ha. intros s'.
  unfold read, HalComponent.set_items. cbn [HalComponent.items fst].
  case_bool_decide as Es; [subst; by rewrite lookup_insert_eq|by rewrite lookup_insert_ne].
Qed.

Lemma read_write_other s v c s' : s' <> s -> read (write s v c).1 s' = read c s'.
Proof.
  intros Hne. unfold write, read. destruct (HalComponent.items c !! s) eqn:E; [|done].
  destruct (negb _); [done|]. destruct (_ && _); [done|].
  unfold HalComponent.set_items. cbn [HalComponent.items fst]. by rewrite lookup_insert_ne.
Qed.

Lemma read_is_some c s hi : (layout c).2 !! s = Some hi -> is_Some (read c s).
Proof. rewrite layout_lookup. unfold read. destruct (HalComponent.items c !! s); naive_solver. Qed.

(** ** Disconnection *)

(** Items whose disconnect value the component accepts. *)
Definition disconnectable (m : gmap string HalComponent.Item) (i : Item) : Prop :=
  forall v, disconnect_value i = Some v ->
  exists hi, m !! suffix i = Some hi /\ type_of v = type hi /\ accepts hi = true.

Lemma layout_disconnect its c : layout (foldl disconnect_item c its) = layout c.
Proof.
  revert c. induction its as [|i its IH]; intros c; [done|]. cbn. rewrite IH.
  unfold disconnect_item. destruct (disconnect_value i); [apply layout_write|done].
Qed.

Lemma read_disconnect_other its c s :
  s ∉ suffix <$> its -> read (foldl disconnect_item c its) s = read c s.
Proof.
  revert c. induction its as [|i its IH]; intros c Hs; [done|]. cbn in *.
  apply not_elem_of_cons in Hs as [Hne Hs]. rewrite IH by done.
  unfold disconnect_item. destruct (disconnect_value i); [by apply read_write_other|done].
Qed.

Lemma read_disconnect_skip its c s :
  (forall i, i ∈ its -> suffix i = s -> disconnect_value i = None) ->
  read (foldl disconnect_item c its) s = read c s.
Proof.
  revert c. induction its as [|i its IH]; intros c Hs; [done|]. cbn.
  rewrite IH by (intros j Hj; apply Hs; by right). unfold disconnect_item.
  destruct (disconnect_value i) as [v|] eqn:Ev; [|done]. apply read_write_other. intros ->.
  by rewrite Hs in Ev by (by left || done).
Qed.

Lemma read_disconnect its c i v :
  NoDup (suffix <$> its) -> Forall (disconnectable (layout c).2) its ->
  i ∈ its -> disconnect_value i = Some v ->
  read (foldl disconnect_item c its) (suffix i) = Some v.
Proof.
  revert c. induction its as [|j its IH]; intros c Hnd Hf Hi Hv; [by apply not_elem_of_nil in Hi|].
  cbn in *. apply NoDup_cons in Hnd as [Hj Hnd]. apply Forall_cons in Hf as [Hdj Hf].
  apply elem_of_cons in Hi as [->|Hi].
  - rewrite read_disconnect_other by done. unfold disconnect_item. rewrite Hv.
    destruct (Hdj v Hv) as (hi & Hm & Ht & Ha). destruct (write_ok _ v c hi Hm Ht Ha) as [_ Hr].
    rewrite Hr. by rewrite bool_decide_eq_true_2.
  - apply IH; [done| |done|done]. unfold disconnect_item.
    destruct (disconnect_value j); [by rewrite layout_write|done].
Qed.

Lemma well_formed_disconnectable p :
  well_formed (shape p) -> Forall (disconnectable (layout (component p)).2) (items p).
Proof.
  intros (_ & Hf & _). rewrite Forall_fmap in Hf. eapply Forall_impl; [exact Hf|].
  intros i (hi & Hm & [Ht _ _ Hd _]) v Hv. destruct (Hd v Hv) as [Hty Ha].
  exists hi. split_and!; [done|by rewrite Ht|done].
Qed.

Lemma forget_suffix (its : list Item) : suffix <$> (forget <$> its) = suffix <$> its.
Proof. by rewrite <- list_fmap_compose. Qed.

Lemma well_formed_nodup p : well_formed (shape p) -> NoDup (suffix <$> items p).
Proof. intros (H & _). by rewrite forget_suffix in H. Qed.

Lemma layout_apply_disconnect its c : layout (disconnect_component its c) = layout c.
Proof. unfold disconnect_component. by rewrite layout_disconnect, layout_write. Qed.

(** After a disconnection the managed pin is low and the disconnect values hold. *)
Lemma disconnect_reads p :
  well_formed (shape p) ->
  read (disconnect_component (items p) (component p)) kOnlinePin = Some (VBit false)
  /\ forall i v, i ∈ items p -> disconnect_value i = Some v ->
     read (disconnect_component (items p) (component p)) (suffix i) = Some v.
Proof.
  intros Hw. unfold disconnect_component.
  set (c := (write kOnlinePin (VBit false) (component p)).1).
  assert (Hl : layout c = layout (component p)) by apply layout_write.
  pose proof (well_formed_disconnectable p Hw) as Hd. pose proof (well_formed_nodup p Hw) as Hn.
  split.
  - assert (Hon : read c kOnlinePin = Some (VBit false)).
    { destruct Hw as (_ & _ & _ & hi & Hm & Ht & Ha & _).
      destruct (write_ok kOnlinePin (VBit false) (component p) hi Hm) as [_ Hr]; [by rewrite Ht|done|].
      unfold c. rewrite Hr. by rewrite bool_decide_eq_true_2. }
    rewrite (read_disconnect_skip (items p) c kOnlinePin); [done|]. intros i Hi Hs.
    destruct Hw as (_ & Hf & _). rewrite Forall_fmap, Forall_forall in Hf.
    destruct (Hf i Hi) as (hi & _ & [_ _ _ _ Hon']). by apply Hon'.
  - intros i v Hi Hv. apply read_disconnect; try done. by rewrite Hl.
Qed.

(** ** Decoded updates *)

(** Each decoded value belongs to a writable item and has its type; no item occurs
    twice. *)
Definition decoded_ok (p : Proxy) (decoded : list (nat * HalAdapterValue)) : Prop :=
  NoDup decoded.*1
  /\ Forall (fun nv => exists i, items p !! nv.1 = Some i /\ client_writable i = true
                             /\ type_of nv.2 = item_type i) decoded.

(** The decoded value of an entry of the request. *)
Definition decodes (p : Proxy) (entry : HalItemRef * HalScalar) (nv : nat * HalAdapterValue) : Prop :=
  find_item p entry.1 = Some nv.1
  /\ exists i, items p !! nv.1 = Some i /\ typed_value (item_type i) entry.2 = Some nv.2.

Lemma typed_value_type t s v : typed_value t s = Some v -> type_of v = t.
Proof.
  unfold typed_value. destruct (decode_hal_scalar s); [|done]. case_bool_decide; naive_solver.
Qed.

Lemma decode_loop_ok p values decoded out :
  decode_loop p values decoded.*1 decoded = Ok out -> decoded_ok p decoded ->
  decoded_ok p out /\ exists more, out = decoded ++ more /\ Forall2 (decodes p) values more.
Proof.
  revert decoded. induction values as [|[ref sc] values IH]; intros decoded; cbn.
  - intros [= <-] Hd. split; [done|]. exists []. by rewrite app_nil_r.
  - destruct (find_item p ref) as [n|] eqn:Ef; [|done].
    destruct (items p !! n) as [i|] eqn:Ei; [|done].
    destruct (client_writable i) eqn:Ew; [|done]. cbn [negb].
    case_bool_decide as Hin; [done|]. destruct (typed_value (item_type i) sc) as [v|] eqn:Ev; [|done].
    replace (decoded.*1 ++ [n]) with (decoded ++ [(n, v)]).*1 by by rewrite fmap_app.
    intros Hout [Hn Hf]. destruct (IH _ Hout) as [Hok (more & -> & Hm)].
    + split.
      * rewrite fmap_app. apply NoDup_app. split_and!; [done|set_solver|apply NoDup_singleton].
      * apply Forall_app. split; [done|]. apply Forall_singleton. exists i.
        split_and!; [done|done|by eapply typed_value_type].
    + split; [done|]. exists ((n, v) :: more). rewrite <- app_assoc. split; [done|].
      constructor; [|done]. split; [done|]. by exists i.
Qed.

Lemma decode_values_ok p values complete out :
  decode_values p values complete = Ok out ->
  decoded_ok p out /\ Forall2 (decodes p) values out
  /\ (complete = true ->
      length out = length (filter (fun i => client_writable i = true) (items p))).
Proof.
  unfold decode_values. intros (dec & Hd & Hc)%outcome_bind_ok.
  destruct (decode_loop_ok p values [] dec Hd) as [Hok (more & -> & Hm)].
  { by split; [apply NoDup_nil_2|]. }
  cbn in *. destruct complete; cbn in Hc.
  - destruct (Nat.eqb_spec (length more) (length (filter (λ i, client_writable i = true) (items p))));
      cbn in Hc; [|done]. by injection Hc as <-.
  - by injection Hc as <-.
Qed.

(** Writing decoded values succeeds and changes exactly the items named. *)
Lemma write_values_ok its decoded c :
  NoDup (suffix <$> its) -> NoDup decoded.*1 ->
  Forall (fun nv => exists i hi, its !! nv.1 = Some i /\ (layout c).2 !! suffix i = Some hi
                    /\ type_of nv.2 = type hi /\ accepts hi = true) decoded ->
  (write_values its decoded c).2 = true
  /\ layout (write_values its decoded c).1 = layout c
  /\ (forall s, (forall n v i, (n, v) ∈ decoded -> its !! n = Some i -> suffix i <> s) ->
        read (write_values its decoded c).1 s = read c s)
  /\ (forall n v i, (n, v) ∈ decoded -> its !! n = Some i ->
        read (write_values its decoded c).1 (suffix i) = Some v).
Proof.
  intros Hits. revert c. induction decoded as [|[n v] decoded IH]; intros c Hn Hf.
  { cbn. split_and!; [done|done|done|]. intros ? ? ? []%not_elem_of_nil. }
  cbn in Hn. apply NoDup_cons in Hn as [Hnn Hn]. apply Forall_cons in Hf as [(i & hi & Hi & Hl & Ht & Ha) Hf].
  cbn [fst snd] in *. destruct (write_ok _ v c hi Hl Ht Ha) as [Hok Hr].
  pose proof (layout_write (suffix i) v c) as Hlw. cbn [write_values]. rewrite Hi.
  destruct (write (suffix i) v c) as [c' ok]. cbn [fst snd] in *. subst ok.
  destruct (IH c') as (H2 & Hlay & Hother & Hsame); [done|by rewrite Hlw|].
  split_and!; [done|by rewrite Hlay|..].
  - intros s Hs. rewrite Hother by (intros; eapply Hs; [by right|done]). rewrite Hr.
    rewrite bool_decide_eq_false_2; [done|]. intros ->. by eapply Hs; [left|..].
  - intros m w j [[= -> ->]|Hin]%elem_of_cons Hj; [|by eapply Hsame].
    rewrite Hi in Hj. injection Hj as <-. rewrite Hother; [by rewrite Hr, bool_decide_eq_true_2|].
    intros m w' j Hin Hj Heq. destruct Hnn. apply list_elem_of_fmap. exists (m, w').
    split; [|done]. cbn. eapply (NoDup_lookup (suffix <$> its)); [done|..];
      rewrite list_lookup_fmap; [by rewrite Hi|by rewrite Hj, <- Heq].
Qed.

(** ** The state of a proxy *)

Record proxy_ok (p : Proxy) : Prop := mkProxyOk {
  po_shape : well_formed (shape p);
  po_online : read (component p) kOnlinePin = Some (VBit (attached p && active p));
  po_detached : attached p = false -> active p = false /\ callbacks p = None;
  po_attached : attached p = true -> is_Some (callbacks p);
  po_safe : attached p = false -> forall i v hi,
    i ∈ forget <$> items p -> disconnect_value i = Some v ->
    (layout (component p)).2 !! suffix i = Some hi -> exclusive hi = true ->
    read (component p) (suffix i) = Some v;
}.

Lemma forget_idemp i : forget (forget i) = forget i.
Proof. done. Qed.

Lemma shape_release p : shape (release_proxy p) = shape p.
Proof. unfold shape. cbn. by rewrite layout_apply_disconnect. Qed.

Lemma proxy_ok_release p : proxy_ok p -> proxy_ok (release_proxy p).
Proof.
  intros [Hs _ _ _ _]. destruct (disconnect_reads p Hs) as [Hon Hd]. split.
  - by rewrite shape_release.
  - exact Hon.
  - done.
  - done.
  - intros _ i v hi (j & -> & Hj)%list_elem_of_fmap Hv _ _. by apply (Hd j).
Qed.

(** Only [previous] changes. *)
Lemma proxy_ok_items p q :
  proxy_ok p -> forget <$> items q = forget <$> items p -> component q = component p ->
  attached q = attached p -> active q = active p -> callbacks q = callbacks p -> proxy_ok q.
Proof.
  intros [Hs Ho Hd Ha Hf] Hi Hc Hat Hac Hcb.
  split; unfold shape in *; rewrite ?Hi, ?Hc, ?Hat, ?Hac, ?Hcb; done.
Qed.

Lemma snapshot_forget c (its : list Item) : forget <$> (snapshot_item c <$> its) = forget <$> its.
Proof.
  rewrite <- list_fmap_compose. apply list_fmap_ext. intros n i _. cbn. unfold snapshot_item.
  by destruct (read c (suffix i)).
Qed.

Lemma sample_forget c (its : list Item) :
  forget <$> (fst <$> (sample_item c <$> its)) = forget <$> its.
Proof.
  rewrite <- !list_fmap_compose. apply list_fmap_ext. intros n i _. cbn. unfold sample_item.
  destruct (negb _); [done|]. destruct (read c (suffix i)) as [v|]; [|done].
  by destruct (match previous i with Some old => variant_eq old v | None => false end).
Qed.

(** An item that the client writes is not the managed pin, and is accepted. *)
Lemma decoded_writable p decoded :
  well_formed (shape p) -> decoded_ok p decoded ->
  Forall (fun nv => exists i hi, items p !! nv.1 = Some i
     /\ (layout (component p)).2 !! suffix i = Some hi
     /\ type_of nv.2 = type hi /\ accepts hi = true) decoded
  /\ forall n v i, (n, v) ∈ decoded -> items p !! n = Some i -> suffix i <> kOnlinePin.
Proof.
  intros Hw [_ Hf]. destruct Hw as (_ & Hits & _). rewrite Forall_fmap, Forall_forall in Hits.
  assert (Hm : forall nv, nv ∈ decoded -> exists i hi, items p !! nv.1 = Some i
    /\ client_writable i = true /\ type_of nv.2 = item_type i
    /\ (layout (component p)).2 !! suffix i = Some hi /\ item_matches (layout (component p)).1.2 (forget i) hi).
  { intros nv Hin. rewrite Forall_forall in Hf. destruct (Hf nv Hin) as (i & Hi & Hwr & Ht).
    destruct (Hits i) as (hi & Hl & Hma); [by eapply list_elem_of_lookup_2|]. by exists i, hi. }
  split.
  - apply Forall_forall. intros nv Hin. destruct (Hm nv Hin) as (i & hi & Hi & Hwr & Ht & Hl & []).
    exists i, hi. split_and!; [done|done|by rewrite Ht, im_type0|by apply im_writable0].
  - intros n v i Hin Hi Heq. destruct (Hm _ Hin) as (j & hi & Hj & Hwr & _ & _ & []).
    cbn in Hj. rewrite Hi in Hj. injection Hj as <-.
    destruct im_online0 as [Hf' _]; [done|]. cbn in Hf'. congruence.
Qed.

(** What the messages of an attached stream keep. *)
Record keeps (p q : Proxy) : Prop := mkKeeps {
  kp_ok : proxy_ok q;
  kp_shape : shape q = shape p;
  kp_generation : generation q = generation p;
  kp_attached : attached q = attached p;
  kp_callbacks : callbacks q = callbacks p;
  kp_items : items q = items p;
}.

(** The values of a decoded request are all written. *)
Lemma write_decoded p decoded :
  proxy_ok p -> decoded_ok p decoded ->
  let w := write_values (items p) decoded (component p) in
  w.2 = true /\ layout w.1 = layout (component p)
  /\ read w.1 kOnlinePin = read (component p) kOnlinePin
  /\ (forall s, (forall n v i, (n, v) ∈ decoded -> items p !! n = Some i -> suffix i <> s) ->
        read w.1 s = read (component p) s)
  /\ (forall n v i, (n, v) ∈ decoded -> items p !! n = Some i -> read w.1 (suffix i) = Some v).
Proof.
  intros [Hs _ _ _ _] Hd w. destruct (decoded_writable p decoded Hs Hd) as [Hf Hon].
  destruct (write_values_ok (items p) decoded (component p)) as (H1 & H2 & H3 & H4);
    [by apply well_formed_nodup|by destruct Hd|done|].
  split_and!; [done|done|by apply H3|done|done].
Qed.

Lemma keeps_attached p c act seq now :
  proxy_ok p -> attached p = true -> layout c = layout (component p) ->
  read c kOnlinePin = Some (VBit act) -> keeps p (set_activity c act seq now p).
Proof.
  intros [Hs _ _ Ha _] Hat Hl Hon. split; try done.
  - split; unfold shape in *; cbn; rewrite ?Hl, ?Hat; try done. intros _. by apply Ha.
  - unfold shape. cbn. by rewrite Hl.
Qed.

Lemma keeps_refl p : proxy_ok p -> keeps p p.
Proof. done. Qed.

Lemma activate_keeps now gen values p :
  proxy_ok p -> attached p = true -> keeps p (activate now gen values p).1.
Proof.
  intros Hp Hat. unfold activate. destruct (_ || _); [by apply keeps_refl|].
  destruct (decode_values p values true) as [decoded|] eqn:Ed; [|by apply keeps_refl].
  apply decode_values_ok in Ed as (Hd & _). destruct (write_decoded p decoded Hp Hd) as (Hw & Hl & _).
  destruct (write_values _ _ _) as [c ok]. cbn [fst snd] in *. subst ok. cbn [negb fst].
  destruct (po_shape p Hp) as (_ & _ & _ & hi & Hm & Ht & Ha & _).
  destruct (write_ok kOnlinePin (VBit true) c hi) as [_ Hr]; [by rewrite Hl|by rewrite Ht|done|].
  apply keeps_attached; [done|done|by rewrite layout_write|]. by rewrite Hr, bool_decide_eq_true_2.
Qed.

Lemma update_keeps now gen seq values p :
  proxy_ok p -> attached p = true -> keeps p (update now gen seq values p).1.
Proof.
  intros Hp Hat. unfold update. destruct (_ || _); [by apply keeps_refl|].
  destruct (negb _); [by apply keeps_refl|].
  destruct (decode_values p values false) as [decoded|] eqn:Ed; [|by apply keeps_refl].
  apply decode_values_ok in Ed as (Hd & _).
  destruct (write_decoded p decoded Hp Hd) as (Hw & Hl & Hon & _).
  destruct (write_values _ _ _) as [c ok]. cbn [fst snd] in *. subst ok. cbn [negb fst].
  apply keeps_attached; [done|done|done|]. by rewrite Hon, (po_online p Hp), Hat.
Qed.

Lemma heartbeat_keeps now gen p :
  proxy_ok p -> attached p = true -> keeps p (heartbeat now gen p).1.
Proof.
  intros Hp Hat. unfold heartbeat. destruct (negb _); [by apply keeps_refl|].
  apply keeps_attached; [done|done|done|]. by rewrite (po_online p Hp), Hat.
Qed.

Lemma read_hal_change s v c s' hi :
  (layout c).2 !! s' = Some hi -> exclusive hi = true -> read (hal_change s v c) s' = read c s'.
Proof.
  rewrite layout_lookup. intros Hl He. unfold hal_change.
  destruct (HalComponent.items c !! s) as [h|] eqn:E; [|done]. destruct (_ && _) eqn:Eb; [|done].
  destruct (decide (s' = s)) as [->|Hne].
  - exfalso. rewrite E in Hl. cbn in Hl. injection Hl as <-. unfold exclusive in He. cbn in He.
    bool_to_prop. destruct (pin h); bool_to_prop; congruence.
  - unfold read, HalComponent.set_items. cbn [HalComponent.items]. by rewrite lookup_insert_ne.
Qed.

Lemma proxy_ok_hal_change s v p :
  proxy_ok p -> proxy_ok (set_component (hal_change s v (component p)) p).
Proof.
  intros [Hs Ho Hd Ha Hf].
  assert (Hl : layout (hal_change s v (component p)) = layout (component p)) by apply layout_hal_change.
  split; unfold shape in *; cbn; rewrite ?Hl; try done.
  - destruct Hs as (_ & _ & _ & hi & Hm & _ & _ & He). by rewrite (read_hal_change _ _ _ _ hi).
  - intros Hat i w hi Hi Hv Hm He. rewrite (read_hal_change _ _ _ _ hi) by done. by eapply Hf.
Qed.

(** Attaching writes the managed pin low and takes a snapshot. *)
Lemma proxy_ok_attach p period next now gen seq sseq k token :
  well_formed (shape p) ->
  let q := mkProxy token (write kOnlinePin (VBit false) (component p)).1 (items p) period next now gen
             seq sseq true false (Some k) in
  proxy_ok (set_items (snapshot_item (component q) <$> items q) q)
  /\ shape (set_items (snapshot_item (component q) <$> items q) q) = shape p.
Proof.
  intros Hs q.
  assert (Hsh : shape (set_items (snapshot_item (component q) <$> items q) q) = shape p).
  { unfold shape. cbn. rewrite snapshot_forget. by rewrite layout_write. }
  split; [|done]. split; [by rewrite Hsh| |done|done|done].
  destruct Hs as (_ & _ & _ & hi & Hm & Ht & Ha & _).
  destruct (write_ok kOnlinePin (VBit false) (component p) hi) as [_ Hr]; [done|by rewrite Ht|done|].
  cbn. rewrite Hr. by rewrite bool_decide_eq_true_2.
Qed.

(** ** Creation *)

(** What the validated schema guarantees of a definition. *)
Definition def_valid (d : Definition_) : Prop :=
  forall v, def_disconnect d = Some v ->
  type_of v = def_type d /\ (def_kind d = HAL_ITEM_KIND_PIN -> def_direction d <> 1).

Lemma define_item_valid is_pin names s names' d :
  define_item is_pin names s = Ok (names', d) -> def_valid d.
Proof.
  unfold define_item. destruct (decode_hal_type (sch_type s)) as [t|]; [|done].
  destruct (_ || _); [done|]. intros (dc & Hdc & [= _ <-])%outcome_bind_ok v Hv. cbn in *. subst dc.
  destruct (sch_disconnect s) as [sc|]; [|done].
  destruct (is_pin && _ && _) eqn:Eb; [done|]. destruct (typed_value t sc) as [w|] eqn:Et; [|done].
  injection Hdc as ->. split; [by eapply typed_value_type|]. destruct is_pin; [|done]. intros _ Heq.
  by rewrite Heq in Eb.
Qed.

Lemma define_items_valid is_pin names l names' ds :
  define_items is_pin names l = Ok (names', ds) -> Forall def_valid ds.
Proof.
  revert names names' ds. induction l as [|s l IH]; intros names names' ds; cbn.
  - by intros [= _ <-].
  - intros ([n1 d] & Hd & H)%outcome_bind_ok. apply outcome_bind_ok in H as ([n2 ds'] & Hds & [= _ <-]).
    constructor; [by eapply define_item_valid|by eapply IH].
Qed.

Lemma definitions_valid m ds : definitions m = Ok ds -> Forall def_valid ds.
Proof.
  unfold definitions. intros ([n ps] & Hp & H)%outcome_bind_ok.
  apply outcome_bind_ok in H as ([n' qs] & Hq & [= <-]). apply Forall_app.
  split; by eapply define_items_valid.
Qed.

(** The item of the component that a definition asks for. *)
Definition def_matches (d : Definition_) (hi : HalComponent.Item) : Prop :=
  type hi = def_type d /\ (pin_writable d = true -> accepts hi = true)
  /\ ((def_kind d = HAL_ITEM_KIND_PIN -> def_direction d <> 1) -> accepts hi = true).

(** Slots in use and free slots. *)
Definition slots_of (m : gmap string HalComponent.Item) : list nat :=
  slab_slot ∘ snd <$> map_to_list m.

Lemma slots_of_insert m k hi :
  m !! k = None -> slots_of (<[k := hi]> m) ≡ₚ slab_slot hi :: slots_of m.
Proof. intros H. unfold slots_of. by rewrite map_to_list_insert. Qed.

Lemma slots_of_layout c : slots_of (layout c).2 ≡ₚ slots c.
Proof.
  unfold slots_of, slots, layout. cbn [snd]. rewrite map_to_list_fmap, <- list_fmap_compose.
  apply reflexive_eq, list_fmap_ext. by intros ? [].
Qed.

(** One more item in a component: what [add_item] does when it succeeds. *)
Record added (suffix : string) (hi : HalComponent.Item) (c c' : LinuxCncHalComponent) (s s' : Slab) :
    Prop := mkAdded {
  ad_fresh : HalComponent.items c !! suffix = None;
  ad_component : c' = HalComponent.set_items (<[suffix := hi]> (HalComponent.items c)) c;
  ad_slots : slots c' ++ free s' ≡ₚ slots c ++ free s;
  ad_capacity : capacity s' = capacity s;
}.

Lemma add_item_added h sfx make c s c' s' :
  (forall full slot, slab_slot (make full slot) = slot) ->
  add_item h sfx make c s = Ok (Some (c', s')) ->
  exists full slot, added sfx (make full slot) c c' s s'.
Proof.
  intros Hm. unfold add_item. destruct (_ || _) eqn:Eg; [done|]. bool_to_prop.
  destruct (bool_decide (_ = EmptyString)); [done|]. unfold acquire.
  destruct (free s) as [|slot rest] eqn:Ef; [done|]. destruct (_ =? 0); [|done]. intros [= <- <-].
  exists (full_name h (prefix c) sfx), slot.
  assert (Hn : HalComponent.items c !! sfx = None).
  { destruct (HalComponent.items c !! sfx) eqn:E; [|done]. exfalso. naive_solver. }
  split; [done|done| |done]. cbn [free]. rewrite Ef. change (slots ?c) with (slots_of (HalComponent.items c)).
  unfold HalComponent.set_items. cbn [HalComponent.items]. rewrite slots_of_insert by done.
  rewrite Hm. by rewrite <- Permutation_middle.
Qed.

Lemma add_definition_added h d c s c' s' :
  add_definition h d c s = Ok (Some (c', s')) ->
  exists hi, added (def_name d) hi c c' s s' /\ def_matches d hi.
Proof.
  unfold add_definition, add_pin, add_param. destruct (def_kind d =? HAL_ITEM_KIND_PIN) eqn:Ek; intros H;
    apply add_item_added in H as (full & slot & Ha); try done; eexists; (split; [exact Ha|]);
    unfold def_matches, pin_writable, accepts; cbn; rewrite ?Ek.
  - apply Z.eqb_eq in Ek. split_and!; [done|..].
    + intros Hd%negb_true_iff. rewrite Hd. by destruct (def_direction d =? 2).
    + intros Hd. specialize (Hd Ek). apply Z.eqb_neq in Hd. rewrite Hd. by destruct (def_direction d =? 2).
  - done.
Qed.

Lemma add_definitions_slots h l c s c' s' e :
  add_definitions h l c s = (c', s', e) ->
  slots c' ++ free s' ≡ₚ slots c ++ free s /\ capacity s' = capacity s.
Proof.
  revert c s. induction l as [|d l IH]; intros c s; cbn; [by intros [= <- <- _]|].
  destruct (add_definition h d c s) as [[[c1 s1]|]|code] eqn:Ea; [|by intros [= <- <- _]..].
  intros H. apply add_definition_added in Ea as (hi & [_ _ Hs Hc] & _).
  destruct (IH _ _ H) as [Hs' Hc']. by rewrite Hs', Hc'.
Qed.

(** All definitions were added: each name once, with the item asked for. *)
Record all_added (l : list Definition_) (c c' : LinuxCncHalComponent) : Prop := mkAllAdded {
  aa_name : name c' = name c;
  aa_prefix : prefix c' = prefix c;
  aa_size : base.size (HalComponent.items c') = (base.size (HalComponent.items c) + length l)%nat;
  aa_old : HalComponent.items c ⊆ HalComponent.items c';
  aa_fresh : Forall (fun d => HalComponent.items c !! def_name d = None) l;
  aa_items : Forall (fun d => exists hi, HalComponent.items c' !! def_name d = Some hi
                                     /\ def_matches d hi) l;
  aa_nodup : NoDup (def_name <$> l);
}.

Lemma add_definitions_all h l c s c' s' :
  add_definitions h l c s = (c', s', None) -> all_added l c c'.
Proof.
  revert c s. induction l as [|d l IH]; intros c s; cbn.
  { intros [= <- <-]. split; try done. apply NoDup_nil_2. }
  destruct (add_definition h d c s) as [[[c1 s1]|]|code] eqn:Ea; [|done..]. intros H.
  apply add_definition_added in Ea as (hi & [Hf -> _ _] & Hm).
  destruct (IH _ _ H) as [Hn Hp Hsz Ho Hfr Hi Hnd]. cbn [HalComponent.items HalComponent.set_items
    name prefix] in *.
  assert (Hne : Forall (fun d' => def_name d' <> def_name d /\ HalComponent.items c !! def_name d' = None) l).
  { eapply Forall_impl; [exact Hfr|]. intros d' Hd'. cbn in Hd'.
    apply lookup_insert_None in Hd' as [? ?]. split; congruence. }
  split; try done.
  - rewrite Hsz, map_size_insert_None by done. cbn. lia.
  - etrans; [by apply insert_subseteq|done].
  - constructor; [done|]. eapply Forall_impl; [exact Hne|]. by intros ? [].
  - constructor; [|done]. exists hi. split; [|done]. eapply lookup_weaken; [|exact Ho].
    apply lookup_insert_eq.
  - apply NoDup_cons. split; [|done]. intros (d' & Heq & Hin)%list_elem_of_fmap.
    rewrite Forall_forall in Hne. by destruct (Hne d' Hin).
Qed.

(** ** Slots *)

Lemma release_free i s :
  (i < capacity s)%nat -> release i s = mkSlab (capacity s) (i :: free s).
Proof. intros H. unfold release. destruct (Nat.leb_spec (capacity s) i); [lia|done]. Qed.

Lemma close_slots c s :
  Forall (fun i => (i < capacity s)%nat) (slots c) ->
  free (HalComponent.close c s) = slots c ++ free s
  /\ capacity (HalComponent.close c s) = capacity s.
Proof.
  unfold HalComponent.close. induction (slots c) as [|i l IH]; intros H; [done|]. cbn.
  apply Forall_cons in H as [Hi Hl]. destruct (IH Hl) as [Hf Hc].
  rewrite release_free by by rewrite Hc. cbn. by rewrite Hf, Hc.
Qed.

Lemma slots_write sfx v c : slots (write sfx v c).1 ≡ₚ slots c.
Proof. by rewrite <- !slots_of_layout, layout_write. Qed.

Lemma build_component_slots h nm pre defs s s' out :
  Forall (fun i => (i < capacity s)%nat) (free s) ->
  build_component h nm pre defs s = (s', out) ->
  capacity s' = capacity s
  /\ free s ≡ₚ match out with Ok c => slots c ++ free s' | Err _ => free s' end.
Proof.
  intros Hlt. unfold build_component, open_component.
  destruct (_ || _); [by intros [= <- <-]|]. destruct (_ <? _)%nat; [by intros [= <- <-]|].
  destruct (_ <=? 0); [by intros [= <- <-]|].
  destruct (add_definitions h defs _ s) as [[c1 s1] e] eqn:Ea.
  apply add_definitions_slots in Ea as [Hs1 Hc1]. change (slots (mkComponent _ _ _ ∅)) with (@nil nat) in Hs1.
  assert (Hb : forall c t, slots c ++ free t ≡ₚ free s -> capacity t = capacity s ->
    capacity (HalComponent.close c t) = capacity s /\ free s ≡ₚ free (HalComponent.close c t)).
  { intros c t Hp Hc.
    assert (Hlc : Forall (fun i => (i < capacity t)%nat) (slots c)).
    { rewrite Hc. rewrite <- Hp in Hlt. by apply Forall_app in Hlt as [? _]. }
    destruct (close_slots c t Hlc) as [-> ->]. by rewrite Hp. }
  destruct e; [intros [= <- <-]; by apply Hb|].
  destruct (add_pin h kOnlinePin TBit Out_ c1 s1) as [[[c2 s2]|]|code] eqn:Ep;
    [|intros [= <- <-]; by apply Hb..].
  apply add_item_added in Ep as (full & slot & [_ _ Hs2 Hc2]); [|done].
  assert (Hs3 : slots (write kOnlinePin (VBit false) c2).1 ++ free s2 ≡ₚ free s).
  { by rewrite slots_write, Hs2, Hs1. }
  unfold set_ready. destruct (_ =? 0); intros [= <- <-].
  - split; [congruence|]. symmetry. exact Hs3.
  - apply Hb; [done|congruence].
Qed.

(** The items of a new proxy match those of the component built for it. *)
Lemma item_of_matches pre d hi :
  def_valid d -> def_matches d hi -> def_name d <> kOnlinePin ->
  item_matches pre (item_of pre d) (erase_data hi).
Proof.
  intros Hv (Ht & Hw & Hd) Hne. split; cbn; [done|done|done| |done].
  intros v Hdc. destruct (Hv v Hdc) as [Hty Hdir]. split; [done|]. by apply Hd.
Qed.

Lemma build_component_ok h nm pre defs s s' c :
  pre <> EmptyString -> Forall def_valid defs ->
  build_component h nm pre defs s = (s', Ok c) ->
  well_formed (forget <$> ((item_of pre <$> defs) ++ [online_item pre]), layout c)
  /\ read c kOnlinePin = Some (VBit false) /\ name c = nm.
Proof.
  intros Hpre Hdv. unfold build_component, open_component.
  destruct (_ || _); [done|]. destruct (_ <? _)%nat; [done|]. destruct (_ <=? 0); [done|].
  rewrite bool_decide_eq_false_2 by done.
  destruct (add_definitions h defs _ s) as [[c1 s1] [e|]] eqn:Ea; [done|].
  apply add_definitions_all in Ea as [Hn Hp Hsz _ _ Hi Hnd]. cbn in Hn, Hp.
  cbn [HalComponent.items] in Hsz. rewrite map_size_empty in Hsz.
  destruct (add_pin h kOnlinePin TBit Out_ c1 s1) as [[[c2 s2]|]|] eqn:Ep; [|done..].
  apply add_item_added in Ep as (full & slot & [Hf -> _ _]); [|done].
  set (on := HalComponent.mkItem full TBit true Out_ ReadOnly (zero_value TBit) slot).
  set (c2 := HalComponent.set_items (<[kOnlinePin := on]> (HalComponent.items c1)) c1).
  unfold set_ready. destruct (_ =? 0); intros [= <- <-].
  assert (Hl : layout (mkComponent (name (write kOnlinePin (VBit false) c2).1)
      (prefix (write kOnlinePin (VBit false) c2).1) true
      (HalComponent.items (write kOnlinePin (VBit false) c2).1)) = layout c2)
    by exact (layout_write kOnlinePin (VBit false) c2).
  assert (Hnp : name c2 = nm /\ prefix c2 = pre) by done.
  rewrite Hl. assert (H1 : (layout c2).1 = (nm, pre)) by by destruct Hnp as [<- <-].
  assert (Hlw : (layout (write kOnlinePin (VBit false) c2).1).1 = (nm, pre)) by by rewrite layout_write.
  split; [|split; [|exact (f_equal fst Hlw)]]; cycle 1.
  { destruct (write_ok kOnlinePin (VBit false) c2 (erase_data on)) as [_ Hr]; [|done|done|].
    - rewrite layout_lookup. unfold c2, HalComponent.set_items. cbn [HalComponent.items].
      by rewrite lookup_insert_eq.
    - specialize (Hr kOnlinePin). by rewrite bool_decide_eq_true_2 in Hr. }
  assert (Hne : Forall (fun d => def_name d <> kOnlinePin) defs).
  { eapply Forall_impl; [exact Hi|]. intros d (hi & Hd & _) Heq. rewrite Heq in Hd. congruence. }
  assert (H2 : (layout c2).2 = <[kOnlinePin := erase_data on]> (erase_data <$> HalComponent.items c1))
    by apply fmap_insert.
  assert (Hsfx : suffix <$> (forget <$> ((item_of pre <$> defs) ++ [online_item pre]))
    = (def_name <$> defs) ++ [kOnlinePin]).
  { by rewrite forget_suffix, fmap_app, <- list_fmap_compose. }
  destruct (layout c2) as [np m]. cbn in H1, H2. subst np m. unfold well_formed. rewrite Hsfx.
  split_and!.
  - apply NoDup_app. split_and!; [done| |apply NoDup_singleton].
    intros x (d & -> & Hd)%list_elem_of_fmap Hx%list_elem_of_singleton.
    rewrite Forall_forall in Hne. by apply (Hne d).
  - rewrite fmap_app. apply Forall_app. split.
    + rewrite !Forall_fmap. rewrite Forall_forall in *. intros d Hd.
      destruct (Hi d Hd) as (hi & Hk & Hm). exists (erase_data hi). cbn. split.
      * rewrite lookup_insert_ne by (intros Heq; by apply (Hne d Hd)). by rewrite lookup_fmap, Hk.
      * apply (item_of_matches pre d hi); [by apply Hdv|done|by apply Hne].
    + apply Forall_singleton. exists (erase_data on). split; [apply lookup_insert_eq|]. by split.
  - rewrite map_size_insert_None by (by rewrite lookup_fmap, Hf). rewrite map_size_fmap, Hsz.
    rewrite length_fmap, length_app, length_fmap. cbn. lia.
  - exists (erase_data on). by rewrite lookup_insert_eq.
Qed.

(** ** The registry's accounts *)

(** What the proxies hold together. *)
Definition gather {A} (f : Proxy -> list A) (m : gmap string Proxy) : list A :=
  concat ((fun kv => f kv.2) <$> map_to_list m).

Section Gather.
Context {A : Type} (f : Proxy -> list A).

Lemma gather_insert m k p : m !! k = None -> gather f (<[k := p]> m) ≡ₚ f p ++ gather f m.
Proof. intros H. unfold gather. by rewrite map_to_list_insert. Qed.

Lemma gather_delete m k p : m !! k = Some p -> gather f m ≡ₚ f p ++ gather f (delete k m).
Proof.
  intros H. rewrite <- (insert_delete_id m k p) at 1 by done.
  apply gather_insert, lookup_delete_eq.
Qed.

Lemma gather_update m k p q :
  m !! k = Some p -> f q ≡ₚ f p -> gather f (<[k := q]> m) ≡ₚ gather f m.
Proof.
  intros H Hq. rewrite (gather_delete m k p) by done. rewrite <- Hq.
  rewrite <- insert_delete_eq. apply gather_insert, lookup_delete_eq.
Qed.

Lemma gather_imap (g : string -> Proxy -> Proxy) m :
  map_Forall (fun k p => f (g k p) ≡ₚ f p) m ->
  gather f (map_imap (fun k p => Some (g k p)) m) ≡ₚ gather f m.
Proof.
  induction m as [|k p m Hk IH] using map_ind; intros Hm; [by rewrite map_imap_empty|].
  apply map_Forall_insert in Hm as [Hp Hm]; [|done].
  erewrite map_imap_insert_Some by done. rewrite !gather_insert; [|done|].
  - by rewrite Hp, IH.
  - by rewrite map_lookup_imap, Hk.
Qed.

End Gather.

Definition proxy_slots (p : Proxy) : list nat := slots (component p).

Definition proxy_names (p : Proxy) : list string := [name (component p)].

Record registry_ok (r : RemoteComponentRegistry) : Prop := mkRegistryOk {
  ro_proxies : map_Forall (fun _ p => proxy_ok p) (proxies r);
  ro_items : retained_item_count r = Z.of_nat (length (gather items (proxies r)));
  ro_budget : retained_item_count r <= max_items (config r);
  ro_admitted : admitted r = base.size (proxies r);
  ro_limit : (admitted r <= admission_limit r)%nat;
  ro_slots : gather proxy_slots (proxies r) ++ free (slab r) ≡ₚ seq 0 (capacity (slab r));
  ro_names : NoDup (gather proxy_names (proxies r));
}.

(** Proxies of the same shape hold the same slots, as many items and one name. *)
Lemma shape_slots p q : shape q = shape p -> proxy_slots q ≡ₚ proxy_slots p.
Proof.
  intros H. unfold proxy_slots. rewrite <- !slots_of_layout.
  by rewrite (f_equal (fun sh => sh.2) H : layout (component q) = layout (component p)).
Qed.

Lemma shape_name p q : shape q = shape p -> proxy_names q = proxy_names p.
Proof.
  intros H. unfold proxy_names. f_equal. exact (f_equal (fun sh => sh.2.1.1) H).
Qed.

Lemma shape_length p q : shape q = shape p -> length (items q) = length (items p).
Proof.
  intros H. apply (f_equal (fun sh => length sh.1)) in H. cbn in H. by rewrite !length_fmap in H.
Qed.

(** The slab below the registry. *)
Lemma registry_slots_lt r :
  registry_ok r -> (forall i p, proxies r !! i = Some p ->
    Forall (fun n => (n < capacity (slab r))%nat) (proxy_slots p))
  /\ Forall (fun n => (n < capacity (slab r))%nat) (free (slab r)).
Proof.
  intros [_ _ _ _ _ Hs _].
  assert (Hf : Forall (fun n => (n < capacity (slab r))%nat)
                 (gather proxy_slots (proxies r) ++ free (slab r))).
  { rewrite Hs. apply Forall_forall. intros n Hn%elem_of_seq. lia. }
  apply Forall_app in Hf as [Hg Hf]. split; [|done]. intros i p Hi.
  rewrite (gather_delete _ _ i p) in Hg by done. by apply Forall_app in Hg as [? _].
Qed.

(** Replacing a proxy by one of the same shape. *)
Lemma registry_ok_update r id p q :
  registry_ok r -> proxies r !! id = Some p -> proxy_ok q -> shape q = shape p ->
  registry_ok (set_proxies (<[id := q]> (proxies r)) r).
Proof.
  intros [Hp Hi Hb Ha Hl Hs Hn] Hid Hq Hsh. split; cbn; try done.
  - by apply map_Forall_insert_2.
  - rewrite Hi. f_equal. rewrite (gather_delete items (proxies r) id p) by done.
    rewrite <- insert_delete_eq, gather_insert by apply lookup_delete_eq.
    by rewrite !length_app, (shape_length p q).
  - by rewrite map_size_insert_Some.
  - rewrite (gather_update _ _ id p); [done|done|by apply shape_slots].
  - rewrite (gather_update _ _ id p); [done|done|]. by rewrite (shape_name p q).
Qed.

Lemma registry_ok_emit r es : registry_ok r -> registry_ok (emit es r).
Proof. by intros []. Qed.

Lemma imap_counts (g : string -> Proxy -> Proxy) (m : gmap string Proxy) :
  map_Forall (fun k p => shape (g k p) = shape p) m ->
  base.size (map_imap (fun k p => Some (g k p)) m) = base.size m
  /\ length (gather items (map_imap (fun k p => Some (g k p)) m)) = length (gather items m).
Proof.
  induction m as [|k p m Hk IH] using map_ind; intros Hm; [by rewrite map_imap_empty|].
  apply map_Forall_insert in Hm as [Hsh Hm]; [|done]. destruct (IH Hm) as [Hz Hl].
  assert (Hk' : map_imap (fun k p => Some (g k p)) m !! k = None) by by rewrite map_lookup_imap, Hk.
  erewrite map_imap_insert_Some by done. split.
  - by rewrite !map_size_insert_None, Hz by done.
  - by rewrite !gather_insert, !length_app, Hl, (shape_length p (g k p)) by done.
Qed.

(** Replacing every proxy by one of the same shape. *)
Lemma registry_ok_imap r (g : string -> Proxy -> Proxy) :
  registry_ok r -> map_Forall (fun k p => proxy_ok (g k p) /\ shape (g k p) = shape p) (proxies r) ->
  registry_ok (set_proxies (map_imap (fun k p => Some (g k p)) (proxies r)) r).
Proof.
  intros [Hp Hi Hb Ha Hl Hs Hn] Hg. destruct (imap_counts g (proxies r)) as [Hz Hlen].
  { intros k p Hk. by apply (Hg k p). }
  split; cbn; rewrite ?Hz, ?Hlen; try done.
  - intros k q Hq. rewrite map_lookup_imap in Hq. destruct (proxies r !! k) as [p|] eqn:E; [|done].
    cbn in Hq. injection Hq as <-. by apply (Hg k p).
  - rewrite gather_imap; [done|]. intros k p Hk. apply shape_slots. by apply (Hg k p).
  - rewrite gather_imap; [done|]. intros k p Hk. by rewrite (shape_name p) by apply (Hg k p Hk).
Qed.

(** ** Steps *)

Lemma sample_proxy_ok cfg now id p :
  proxy_ok p -> proxy_ok (sample_proxy cfg now id p).1 /\ shape (sample_proxy cfg now id p).1 = shape p.
Proof.
  intros Hp. unfold sample_proxy. destruct (negb (attached p)); [done|].
  destruct (_ <=? _); [split; [by apply proxy_ok_release|apply shape_release]|].
  destruct (_ || _); [done|]. cbn [fst]. split.
  - apply (proxy_ok_items p); try done. apply sample_forget.
  - unfold shape. cbn. by rewrite sample_forget.
Qed.

(** A new proxy. *)
Lemma registry_ok_insert r id q s :
  registry_ok r -> proxies r !! id = None -> proxy_ok q ->
  map_Forall (fun _ p => name (component p) <> name (component q)) (proxies r) ->
  retained_item_count r + Z.of_nat (length (items q)) <= max_items (config r) ->
  (admitted r < admission_limit r)%nat ->
  free (slab r) ≡ₚ proxy_slots q ++ free s -> capacity s = capacity (slab r) ->
  registry_ok (mkRegistry (config r) (<[id := q]> (proxies r))
    (retained_item_count r + Z.of_nat (length (items q))) (S (admitted r)) (admission_limit r)
    (accepting r) s (log r)).
Proof.
  intros [Hp Hi Hb Ha Hl Hs Hn] Hid Hq Hnm Hbud Hadm Hf Hc. split; cbn; try done.
  - by apply map_Forall_insert_2.
  - rewrite gather_insert, length_app, Hi by done. lia.
  - by rewrite map_size_insert_None, Ha.
  - rewrite gather_insert, Hc, <- Hs, Hf by done. rewrite (Permutation_app_comm (proxy_slots q)).
    by rewrite <- app_assoc.
  - rewrite gather_insert by done. cbn. apply NoDup_cons. split; [|done]. unfold gather.
    rewrite list_elem_of_In, in_concat. intros (l & Hl'%list_elem_of_In & Hin%list_elem_of_In).
    apply list_elem_of_fmap in Hl' as ([k p] & -> & Hkp).
    apply elem_of_map_to_list in Hkp. apply list_elem_of_singleton in Hin. by apply (Hnm k p).
Qed.

Lemma create_ok h id token now k m r :
  registry_ok r -> proxies r !! id = None -> registry_ok (create h id token now k m r).1.
Proof.
  intros Hr Hid. unfold create. set (pre := if bool_decide _ then _ else _).
  destruct (bool_decide (create_name m = EmptyString) || bool_decide (pre = EmptyString)) eqn:En; [done|].
  apply orb_false_iff in En as [_ Hpre%bool_decide_eq_false].
  case_bool_decide as Hex; [done|]. destruct (definitions m) as [defs|] eqn:Ed; [|done].
  apply definitions_valid in Ed.
  destruct ((_ <? _) || _ || _) eqn:Eq; [done|]. apply orb_false_iff in Eq as [Eq Eadm].
  apply orb_false_iff in Eq as [_ Eq%Z.ltb_ge]. apply negb_false_iff, andb_true_iff in Eadm as [_ Eadm%Nat.ltb_lt].
  destruct (build_component h (create_name m) pre defs (slab r)) as [s [c|code]] eqn:Eb.
  - destruct (build_component_slots _ _ _ _ _ _ _ (proj2 (registry_slots_lt r Hr)) Eb) as [Hc Hf].
    apply build_component_ok in Eb as (Hw & Hon & Hn); [|done|done].
    unfold encode_snapshot. set (its := (item_of pre <$> defs) ++ [online_item pre]) in *.
    set (q := set_items _ _).
    assert (Hlen : Z.of_nat (length (items q)) = Z.of_nat (S (length defs))).
    { unfold q, its. cbn. rewrite length_fmap, length_app, length_fmap. cbn. lia. }
    rewrite <- Hlen. apply registry_ok_insert; try done; [| |lia].
    + split; try done. by unfold shape, q; cbn; rewrite snapshot_forget.
    + intros i p Hi Heq. apply Hex. exists i, p. split; [done|]. rewrite Heq. exact Hn.
  - destruct (build_component_slots _ _ _ _ _ _ _ (proj2 (registry_slots_lt r Hr)) Eb) as [Hc Hf].
    destruct Hr as [Hp Hi Hb Ha Hl Hs Hnm]. split; cbn; try done. by rewrite <- Hf, Hc.
Qed.

Lemma destroy_ok r id p :
  registry_ok r -> proxies r !! id = Some p ->
  registry_ok (mkRegistry (config r) (delete id (proxies r))
    (retained_item_count r - Z.of_nat (length (items (release_proxy p)))) (pred (admitted r))
    (admission_limit r) (accepting r) (HalComponent.close (component (release_proxy p)) (slab r)) (log r)).
Proof.
  intros Hr Hid. pose proof (proj1 (registry_slots_lt r Hr) id p Hid) as Hlt.
  pose proof (shape_slots p (release_proxy p) (shape_release p)) as Hss.
  assert (Hlt' : Forall (fun n => (n < capacity (slab r))%nat) (slots (component (release_proxy p)))).
  { change (slots _) with (proxy_slots (release_proxy p)). by rewrite Hss. }
  destruct (close_slots _ _ Hlt') as [Hf Hc].
  destruct Hr as [Hp Hi Hb Ha Hl Hs Hn].
  assert (Hgi : length (gather items (proxies r))
    = (length (items p) + length (gather items (delete id (proxies r))))%nat).
  { by rewrite (gather_delete items _ id p), length_app. }
  split; cbn [proxies retained_item_count admitted config admission_limit slab].
  - by apply map_Forall_delete.
  - change (items (release_proxy p)) with (items p). lia.
  - change (items (release_proxy p)) with (items p). lia.
  - rewrite map_size_delete_Some by done. by rewrite Ha.
  - lia.
  - rewrite Hf, Hc, <- Hs, (gather_delete proxy_slots (proxies r) id p) by done. rewrite <- Hss.
    unfold proxy_slots at 2. by rewrite app_assoc, (Permutation_app_comm (gather _ _)).
  - rewrite (gather_delete proxy_names _ id p) in Hn by done. by apply NoDup_app in Hn as (_ & _ & ?).
Qed.

Lemma shutdown_slots (m : gmap string Proxy) s :
  Forall (fun n => (n < capacity s)%nat) (gather proxy_slots m) ->
  free (map_fold (fun _ p s => HalComponent.close (component p) s) s m) = gather proxy_slots m ++ free s
  /\ capacity (map_fold (fun _ p s => HalComponent.close (component p) s) s m) = capacity s.
Proof.
  rewrite map_fold_foldr. unfold gather. induction (map_to_list m) as [|[k p] l IH]; intros H; [done|].
  cbn in *. apply Forall_app in H as [Hp Hl]. destruct (IH Hl) as [Hf Hc].
  destruct (close_slots (component p) (foldr (uncurry (fun _ p s => HalComponent.close (component p) s)) s l))
    as [-> ->]; [by rewrite Hc|]. by rewrite Hf, Hc, app_assoc.
Qed.

Lemma shutdown_ok r : registry_ok r -> 0 <= max_items (config r) -> registry_ok (shutdown r).
Proof.
  intros [Hp Hi Hb Ha Hl Hs Hn] H0.
  assert (Hlt : Forall (fun n => (n < capacity (slab r))%nat) (gather proxy_slots (proxies r))).
  { assert (Hf : Forall (fun n => (n < capacity (slab r))%nat) (seq 0 (capacity (slab r)))).
    { apply Forall_forall. intros n Hin%elem_of_seq. lia. }
    rewrite <- Hs in Hf. by apply Forall_app in Hf as [? _]. }
  destruct (shutdown_slots _ _ Hlt) as [Hf Hc].
  split; cbn [proxies retained_item_count admitted config admission_limit slab shutdown]; try done.
  - rewrite Ha, Nat.sub_diag. done.
  - lia.
  - rewrite Hc, Hf. exact Hs.
  - apply NoDup_nil_2.
Qed.

Lemma finish_message_ok id p pr r :
  registry_ok r -> proxies r !! id = Some p -> keeps p pr.1 ->
  registry_ok (finish_message id pr r).1.
Proof. intros Hr Hid [Hk Hs _ _ _ _]. destruct pr as [q res]. by apply (registry_ok_update r id p). Qed.

Lemma consume_attached_ok now aid gen request r :
  registry_ok r -> registry_ok (consume_attached now aid gen request r).1.
Proof.
  intros Hr. unfold consume_attached. destruct (proxies r !! aid) as [p|] eqn:Ep; [|done].
  destruct (_ || _) eqn:Eb; [done|]. apply orb_false_iff in Eb as [Hat%negb_false_iff _].
  pose proof (ro_proxies r Hr aid p Ep) as Hp. destruct request; try done.
  - by apply (finish_message_ok _ p); [| |apply activate_keeps].
  - by apply (finish_message_ok _ p); [| |apply update_keeps].
  - by apply (finish_message_ok _ p); [| |apply heartbeat_keeps].
  - unfold close_proxy. destruct mode; [done|destruct (negb _); [done|]..]; cbn [fst].
    + apply (registry_ok_update r aid p); [done|done|by apply proxy_ok_release|apply shape_release].
    + by apply destroy_ok.
Qed.

Lemma attach_ok now k id nm token r : registry_ok r -> registry_ok (attach now k id nm token r).1.
Proof.
  intros Hr. unfold attach. destruct (proxies r !! id) as [p|] eqn:Ep; [|done].
  destruct (negb _); [done|]. destruct (negb _); [done|]. destruct (attached p); [done|].
  pose proof (po_shape p (ro_proxies r Hr id p Ep)) as Hs. unfold encode_snapshot. cbn [fst].
  destruct (proxy_ok_attach p (sampling_period p) (next_sample p) now (u64_succ (generation p)) 0
    (server_sequence p) k (ownership_token p) Hs) as [Hok Hsh].
  by apply (registry_ok_update r id p).
Qed.

Lemma consume_ok h id token now aid gen k request r :
  registry_ok r -> id_taken id request r = false ->
  registry_ok (consume h id token now aid gen k request r).1.
Proof.
  intros Hr Hid. unfold consume. destruct request; destruct (bool_decide _); try done;
    try (by apply consume_attached_ok).
  - apply create_ok; [done|]. cbn in Hid. bool_to_prop. by apply eq_None_not_Some.
  - by apply attach_ok.
Qed.

Lemma step_ok r st :
  0 <= max_items (config r) -> registry_ok r -> registry_ok (step r st).
Proof.
  intros H0 Hr. destruct st; cbn [step].
  - destruct (id_taken id request r) eqn:Ei; [done|].
    pose proof (consume_ok h id token now attached_id attached_generation reactor request r Hr Ei) as Hc.
    destruct (consume _ _ _ _ _ _ _ _ _) as [r' res]. by apply registry_ok_emit.
  - unfold detach. destruct (proxies r !! id) as [p|] eqn:Ep; [|done]. destruct (_ || _); [done|].
    apply (registry_ok_update r id p); [done|done| |apply shape_release].
    apply proxy_ok_release. by apply (ro_proxies r Hr id).
  - apply registry_ok_emit, registry_ok_imap; [done|]. intros k p Hk. apply sample_proxy_ok.
    by apply (ro_proxies r Hr k).
  - destruct (proxies r !! id) as [p|] eqn:Ep; [|done].
    apply (registry_ok_update r id p); [done|done| |].
    + apply proxy_ok_hal_change. by apply (ro_proxies r Hr id).
    + unfold shape. cbn. by rewrite layout_hal_change.
  - by destruct Hr.
  - by apply shutdown_ok.
Qed.

Lemma create_config h id token now k m r : config (create h id token now k m r).1 = config r.
Proof.
  unfold create. destruct (_ || _); [done|]. case_bool_decide; [done|].
  destruct (definitions m); [|done]. destruct (_ || _); [done|].
  by destruct (build_component _ _ _ _ _) as [? []].
Qed.

Lemma consume_attached_config now aid gen request r :
  config (consume_attached now aid gen request r).1 = config r.
Proof.
  unfold consume_attached. destruct (proxies r !! aid) as [p|]; [|done]. destruct (_ || _); [done|].
  destruct request; try done; unfold finish_message.
  - by destruct (activate _ _ _ _).
  - by destruct (update _ _ _ _ _).
  - by destruct (heartbeat _ _ _).
  - unfold close_proxy. destruct mode; [done|by destruct (negb _)..].
Qed.

Lemma step_config r st : config (step r st) = config r.
Proof.
  destruct st; cbn [step]; try done.
  - destruct (id_taken _ _ _); [done|].
    assert (H : config (consume h id token now attached_id attached_generation reactor request r).1 = config r).
    { unfold consume. destruct request; destruct (bool_decide _); try done;
        try apply consume_attached_config; [apply create_config|].
      unfold attach. destruct (proxies r !! proxy); [|done]. destruct (negb _); [done|].
      destruct (negb _); [done|]. by destruct (attached _). }
    by destruct (consume _ _ _ _ _ _ _ _ _).
  - unfold detach. destruct (proxies r !! id); [|done]. by destruct (_ || _).
  - by destruct (proxies r !! id).
Qed.

Lemma run_ok l r : 0 <= max_items (config r) -> registry_ok r -> registry_ok (run r l).
Proof.
  unfold run. revert r. induction l as [|st l IH]; intros r H0 Hr; [done|]. cbn. apply IH.
  - by rewrite step_config.
  - by apply step_ok.
Qed.

Lemma start_ok cfg limit slots : 0 <= max_items cfg -> registry_ok (start cfg limit slots).
Proof. intros H. split; cbn; try done; [lia|apply NoDup_nil_2]. Qed.

(** ** Theorems *)

Lemma sample_lookup r now id p' :
  proxies (sample now r) !! id = Some p' ->
  exists p, proxies r !! id = Some p /\ p' = (sample_proxy (config r) now id p).1.
Proof.
  cbn. rewrite map_lookup_imap. destruct (proxies r !! id) as [p|]; [|done]. cbn. intros [= <-].
  by exists p.
Qed.

Lemma sample_event r now id p e :
  proxies r !! id = Some p -> e ∈ (sample_proxy (config r) now id p).2 -> e ∈ log (sample now r).
Proof.
  intros Hp He. cbn. apply elem_of_app. right. apply list_elem_of_In, in_concat.
  exists (sample_proxy (config r) now id p).2. rewrite <- !list_elem_of_In. split; [|done].
  apply list_elem_of_fmap. exists (id, p). split; [done|]. by apply elem_of_map_to_list.
Qed.

(** C7: The fail-safe state of a remote component.  In every reachable state the
    managed [online] pin is high exactly while the proxy is attached and active;
    a proxy that is not attached is inactive, has no callbacks, and each of its
    items that only the component drives (outputs and read-only parameters)
    holds its configured disconnect value.  A sampling pass leaves no proxy
    attached whose last heartbeat is as old as the timeout, and reports each
    such proxy to its stream with the generation it had. *)
Theorem component_fail_safe cfg limit n steps :
  0 <= max_items cfg ->
  let r := run (start cfg limit n) steps in
  (forall id p, proxies r !! id = Some p ->
     read (component p) kOnlinePin = Some (VBit (attached p && active p))
     /\ (attached p = false ->
          active p = false /\ callbacks p = None
          /\ forall i v hi, i ∈ items p -> disconnect_value i = Some v ->
               HalComponent.items (component p) !! suffix i = Some hi -> exclusive hi = true ->
               read (component p) (suffix i) = Some v))
  /\ (forall now id p', proxies (step r (Sample now)) !! id = Some p' -> attached p' = true ->
        now - last_heartbeat p' < heartbeat_timeout (config r))
  /\ (forall now id p k, proxies r !! id = Some p -> attached p = true -> callbacks p = Some k ->
        heartbeat_timeout (config r) <= now - last_heartbeat p ->
        TimedOut k id (generation p) ∈ log (step r (Sample now))).
Proof.
  intros H0 r. assert (Hr : registry_ok r) by by apply run_ok; [|apply start_ok].
  split_and!.
  - intros id p Hp. destruct (ro_proxies r Hr id p Hp) as [_ Ho Hd _ Hf]. split; [done|].
    intros Hat. destruct (Hd Hat) as [Ha Hc]. split_and!; [done|done|]. intros i v hi Hi Hv Hhi He.
    apply (Hf Hat (forget i) v (erase_data hi)); [by apply list_elem_of_fmap_2|done| |done].
    change (suffix (forget i)) with (suffix i). by rewrite layout_lookup, Hhi.
  - intros now id p' Hp' Hat. apply sample_lookup in Hp' as (p & _ & ->). unfold sample_proxy in *.
    destruct (attached p) eqn:Ea; cbn [negb] in *; [|cbn in Hat; congruence].
    destruct (Z.leb_spec (heartbeat_timeout (config r)) (now - last_heartbeat p)); [done|].
    by destruct (_ || _).
  - intros now id p k Hp Hat Hk Hto. apply (sample_event r now id p); [done|].
    unfold sample_proxy. rewrite Hat, Hk. cbn [negb].
    destruct (Z.leb_spec (heartbeat_timeout (config r)) (now - last_heartbeat p)); [|lia].
    by left.
Qed.

(** The registry's accounts are exact in every reachable state: the retained
    item count is the number of items of all proxies and stays within the
    configured budget, the admission units are the proxies and stay within the
    limit, component names are unique, and the slots of all items together with
    the free slots of the slab are each slot of the slab exactly once (no two
    items share memory and none is lost, also when a creation fails half way). *)
Theorem registry_accounts cfg limit n steps :
  0 <= max_items cfg ->
  let r := run (start cfg limit n) steps in
  retained_item_count r = Z.of_nat (length (gather items (proxies r)))
  /\ retained_item_count r <= max_items (config r)
  /\ admitted r = base.size (proxies r)
  /\ (admitted r <= admission_limit r)%nat
  /\ NoDup (gather proxy_names (proxies r))
  /\ gather proxy_slots (proxies r) ++ free (slab r) ≡ₚ seq 0 (capacity (slab r)).
Proof. intros H0 r. by destruct (run_ok steps (start cfg limit n) H0 (start_ok cfg limit n H0)). Qed.

(** The indices of the client's items. *)
Definition writable_indices (its : list Item) : list nat :=
  (filter (fun ni => client_writable ni.2 = true) (zip (seq 0 (length its)) its)).*1.

Lemma writable_indices_elem its n i :
  its !! n = Some i -> client_writable i = true -> n ∈ writable_indices its.
Proof.
  intros Hn Hw. apply list_elem_of_fmap. exists (n, i). split; [done|].
  apply list_elem_of_filter. split; [done|]. apply (list_elem_of_lookup_2 _ n).
  apply lookup_zip_with_Some. exists n, i. split_and!; [done| |done].
  apply lookup_seq. split; [done|by eapply lookup_lt_Some].
Qed.

Lemma writable_indices_length its :
  length (writable_indices its) = length (filter (fun i => client_writable i = true) its).
Proof.
  unfold writable_indices. rewrite length_fmap. generalize 0%nat.
  induction its as [|i its IH]; intros k; [done|]. cbn [length seq zip_with].
  rewrite !filter_cons. cbn [snd].
  destruct (decide (client_writable i = true)); cbn [length]; by rewrite IH.
Qed.

(** A complete update names every client item. *)
Lemma complete_covers p decoded n i :
  decoded_ok p decoded ->
  length decoded = length (filter (fun i => client_writable i = true) (items p)) ->
  items p !! n = Some i -> client_writable i = true -> exists v, (n, v) ∈ decoded.
Proof.
  intros [Hnd Hf] Hlen Hn Hw.
  assert (Hin : n ∈ decoded.*1).
  { apply list_elem_of_In.
    eapply (NoDup_length_incl (l := decoded.*1) (l' := writable_indices (items p))).
    - by apply NoDup_ListNoDup.
    - by rewrite writable_indices_length, length_fmap, Hlen.
    - intros m Hm%list_elem_of_In. apply list_elem_of_In. apply list_elem_of_fmap in Hm as (nv & -> & Hnv).
      rewrite Forall_forall in Hf. destruct (Hf nv Hnv) as (j & Hj & Hjw & _).
      by eapply writable_indices_elem.
    - apply list_elem_of_In. by eapply writable_indices_elem. }
  apply list_elem_of_fmap in Hin as ([m v] & -> & Hv). by exists v.
Qed.

(** The component after an accepted request: the named items hold the decoded
    values, the others (the managed pin aside) what they held. *)
Definition applied (p : Proxy) (decoded : list (nat * HalAdapterValue)) (c : LinuxCncHalComponent) : Prop :=
  (forall n v i, (n, v) ∈ decoded -> items p !! n = Some i -> read c (suffix i) = Some v)
  /\ (forall s, s <> kOnlinePin ->
       (forall n v i, (n, v) ∈ decoded -> items p !! n = Some i -> suffix i <> s) ->
       read c s = read (component p) s).

Lemma decode_loop_err p values seen decoded st :
  decode_loop p values seen decoded = Err st -> st = INVALID_ARGUMENT.
Proof.
  revert seen decoded. induction values as [|[ref sc] values IH]; intros seen decoded; cbn; [done|].
  destruct (find_item p ref); [|by intros [= <-]]. destruct (items p !! _); [|by intros [= <-]].
  destruct (negb _); [by intros [= <-]|]. case_bool_decide; [by intros [= <-]|].
  destruct (typed_value _ _); [apply IH|by intros [= <-]].
Qed.

Lemma decode_values_err p values complete st :
  decode_values p values complete = Err st -> st = INVALID_ARGUMENT.
Proof.
  unfold decode_values. destruct (decode_loop p values [] []) as [d|e] eqn:E; cbn.
  - destruct (_ && _); [by intros [= <-]|done].
  - intros [= <-]. by eapply decode_loop_err.
Qed.

(** The conditions under which the values of a request are decoded. *)
Definition activate_guard (gen : Z) (p : Proxy) : bool := negb (active p) && (gen =? generation p).
Definition update_guard (gen seq : Z) (p : Proxy) : bool :=
  active p && (gen =? generation p) && (seq =? u64_succ (client_sequence p)).

Lemma guard_or a b : negb a || negb b = true -> a && b = false.
Proof. by destruct a, b. Qed.

Lemma update_cases now gen seq values p q res :
  proxy_ok p -> update now gen seq values p = (q, res) ->
  match res with
  | Err st => q = p /\ st <> OK /\ (update_guard gen seq p = true ->
      decode_values p values false = Err INVALID_ARGUMENT)
  | Ok _ => gen = generation p /\ active p = true /\ seq = u64_succ (client_sequence p)
      /\ client_sequence q = seq
      /\ exists decoded, Forall2 (decodes p) values decoded /\ applied p decoded (component q)
  end.
Proof.
  intros Hp. unfold update, update_guard.
  destruct (_ || _) eqn:Eb; [intros [= <- <-]; by rewrite (guard_or _ _ Eb)|].
  destruct (negb (seq =? _)) eqn:Es.
  { intros [= <- <-]. apply negb_true_iff in Es. by rewrite Es, andb_false_r. }
  bool_to_prop.
  destruct (decode_values p values false) as [decoded|st] eqn:Ed;
    [|apply decode_values_err in Ed as ->; by intros [= <- <-]].
  apply decode_values_ok in Ed as (Hd & Hdec & _).
  destruct (write_decoded p decoded Hp Hd) as (Hw & _ & _ & Hother & Hsame).
  destruct (write_values _ _ _) as [c ok]. cbn [fst snd] in *. subst ok. cbn [negb].
  intros [= <- <-]. split_and!; try done. exists decoded. split; [done|]. split; [done|].
  intros s _ Hs. by apply Hother.
Qed.

Lemma activate_cases now gen values p q res :
  proxy_ok p -> activate now gen values p = (q, res) ->
  match res with
  | Err st => q = p /\ st <> OK /\ (activate_guard gen p = true ->
      decode_values p values true = Err INVALID_ARGUMENT)
  | Ok _ => gen = generation p /\ active p = false /\ active q = true
      /\ exists decoded, Forall2 (decodes p) values decoded /\ applied p decoded (component q)
         /\ forall n i, items p !! n = Some i -> client_writable i = true ->
              exists v, (n, v) ∈ decoded
  end.
Proof.
  intros Hp. unfold activate, activate_guard.
  destruct (_ || _) eqn:Eb; [|bool_to_prop].
  { intros [= <- <-]. destruct (active p); [done|].
    apply negb_true_iff in Eb. by rewrite Eb. }
  destruct (decode_values p values true) as [decoded|st] eqn:Ed;
    [|apply decode_values_err in Ed as ->; by intros [= <- <-]].
  apply decode_values_ok in Ed as (Hd & Hdec & Hlen).
  destruct (decoded_writable p decoded (po_shape p Hp) Hd) as [_ Hon].
  destruct (write_decoded p decoded Hp Hd) as (Hw & _ & _ & Hother & Hsame).
  destruct (write_values _ _ _) as [c ok]. cbn [fst snd] in *. subst ok. cbn [negb].
  intros [= <- <-]. split_and!; try done. exists decoded. split_and!; [done| |].
  - split; cbn.
    + intros n v i Hin Hi. rewrite read_write_other by by eapply Hon. by eapply Hsame.
    + intros s Hne Hs. rewrite read_write_other by done. by apply Hother.
  - intros n i Hi Hwr. by eapply complete_covers; [|apply Hlen|..].
Qed.

Lemma set_proxies_id r id p : proxies r !! id = Some p -> set_proxies (<[id := p]> (proxies r)) r = r.
Proof. intros H. destruct r. unfold set_proxies. cbn in *. by rewrite insert_id. Qed.

(** Client updates are atomic.  In every reachable state an activation or an
    update of the attached stream is either refused, and then nothing changes,
    the request having been stale, out of order or undecodable, or accepted, and
    then every entry of the request was decoded at the exact
    type of an item the client owns and is what that item reads, and every
    other item (the managed pin aside) keeps its value.  An accepted activation
    was for an inactive proxy and covers every item the client owns; an
    accepted update was for an active one and carries the next sequence
    number. *)
Theorem client_updates_atomic cfg limit n steps now id gen request :
  0 <= max_items cfg ->
  let r := run (start cfg limit n) steps in
  let out := consume_attached now id gen request r in
  match request with
  | Activate g values =>
      (status out.2 <> OK /\ out.1 = r
       /\ forall p, proxies r !! id = Some p -> attached p = true -> gen = generation p ->
            activate_guard g p = true -> decode_values p values true = Err INVALID_ARGUMENT)
      \/ exists p q decoded, proxies r !! id = Some p /\ proxies out.1 !! id = Some q
          /\ attached p = true /\ g = generation p /\ gen = generation p /\ active p = false /\ active q = true
          /\ Forall2 (decodes p) values decoded /\ applied p decoded (component q)
          /\ (forall n i, items p !! n = Some i -> client_writable i = true ->
                exists v, (n, v) ∈ decoded)
  | Update g seq values =>
      (status out.2 <> OK /\ out.1 = r
       /\ forall p, proxies r !! id = Some p -> attached p = true -> gen = generation p ->
            update_guard g seq p = true -> decode_values p values false = Err INVALID_ARGUMENT)
      \/ exists p q decoded, proxies r !! id = Some p /\ proxies out.1 !! id = Some q
          /\ attached p = true /\ g = generation p /\ gen = generation p /\ active p = true
          /\ seq = u64_succ (client_sequence p) /\ client_sequence q = seq
          /\ Forall2 (decodes p) values decoded /\ applied p decoded (component q)
  | _ => True
  end.
Proof.
  intros H0 r out. assert (Hr : registry_ok r) by by apply run_ok; [|apply start_ok].
  subst out. destruct request; try done; unfold consume_attached;
    (destruct (proxies r !! id) as [p|] eqn:Ep; [|by left]);
    (destruct (_ || _) eqn:Eb;
     [left; split_and!; [done|done|]; intros ? [= <-] Hat ->; by rewrite Hat, Z.eqb_refl in Eb|]);
    bool_to_prop;
    pose proof (ro_proxies r Hr id p Ep) as Hp; unfold finish_message.
  - destruct (activate now generation0 values p) as [q res] eqn:Ea.
    apply (activate_cases _ _ _ _ _ _ Hp) in Ea. destruct res as [msg|st].
    + right. destruct Ea as (-> & Ha & Hq & decoded & Hd & Hap & Hc). exists p, q, decoded. cbn.
      by rewrite lookup_insert_eq.
    + left. destruct Ea as (-> & Hst & Hd). cbn [fst snd]. rewrite set_proxies_id by done.
      split_and!; [done|done|]. by intros ? [= <-].
  - destruct (update now generation0 sequence values p) as [q res] eqn:Ea.
    apply (update_cases _ _ _ _ _ _ _ Hp) in Ea. destruct res as [msg|st].
    + right. destruct Ea as (-> & Ha & Hs & Hq & decoded & Hd & Hap). exists p, q, decoded. cbn.
      by rewrite lookup_insert_eq.
    + left. destruct Ea as (-> & Hst & Hd). cbn [fst snd]. rewrite set_proxies_id by done.
      split_and!; [done|done|]. by intros ? [= <-].
Qed.

(** ** Generations *)

(** A handle that no longer leads to an attachment. *)
Definition stale (id : string) (gen : Z) (r : RemoteComponentRegistry) : Prop :=
  match proxies r !! id with
  | None => True
  | Some p => gen < generation p \/ (generation p = gen /\ attached p = false)
  end.

Definition creates (id : string) (st : Step) : bool :=
  match st with Consume _ id' _ _ _ _ _ (Create _) => bool_decide (id' = id) | _ => false end.

(** How the attachment of a proxy may change: not at all, to detached, or to a new
    generation when it was detached. *)
Definition succeeds (p p' : Proxy) : Prop :=
  (generation p' = generation p /\ (attached p = false -> attached p' = false))
  \/ (attached p = false /\ generation p' = u64_succ (generation p)).

Lemma succeeds_refl p : succeeds p p.
Proof. by left. Qed.
#[local] Hint Resolve succeeds_refl : core.

Lemma insert_succeeds (m : gmap string Proxy) k p q id p' :
  m !! k = Some p -> succeeds p q -> <[k := q]> m !! id = Some p' ->
  exists p0, m !! id = Some p0 /\ succeeds p0 p'.
Proof.
  intros Hk Hs. destruct (decide (id = k)) as [->|Hne].
  - rewrite lookup_insert_eq. intros [= <-]. by exists p.
  - rewrite lookup_insert_ne by done. intros H. by exists p'.
Qed.

Lemma message_succeeds p :
  (forall now gen values, succeeds p (activate now gen values p).1)
  /\ (forall now gen seq values, succeeds p (update now gen seq values p).1)
  /\ (forall now gen, succeeds p (heartbeat now gen p).1)
  /\ succeeds p (release_proxy p)
  /\ forall cfg now id, succeeds p (sample_proxy cfg now id p).1.
Proof.
  split_and!; intros; unfold activate, update, heartbeat, sample_proxy;
    repeat case_match; simplify_eq/=; try done; by left.
Qed.

Lemma consume_attached_succeeds now aid gen request r id p' :
  proxies (consume_attached now aid gen request r).1 !! id = Some p' ->
  exists p, proxies r !! id = Some p /\ succeeds p p'.
Proof.
  unfold consume_attached. destruct (proxies r !! aid) as [p|] eqn:Ep; [|intros; by exists p'].
  destruct (_ || _); [intros; by exists p'|].
  destruct (message_succeeds p) as (Ha & Hu & Hh & Hr & _).
  destruct request; try (intros; by exists p'); unfold finish_message.
  - specialize (Ha now generation0 values). destruct (activate _ _ _ _). by eapply insert_succeeds.
  - specialize (Hu now generation0 sequence values). destruct (update _ _ _ _ _). by eapply insert_succeeds.
  - specialize (Hh now generation0). destruct (heartbeat _ _ _). by eapply insert_succeeds.
  - unfold close_proxy. destruct mode; [intros; by exists p'| |]; destruct (negb _); cbn [fst proxies];
      try (intros; by exists p').
    + by eapply insert_succeeds.
    + intros [_ H]%lookup_delete_Some. by exists p'.
Qed.

Lemma attach_succeeds now k aid nm token r id p' :
  proxies (attach now k aid nm token r).1 !! id = Some p' ->
  exists p, proxies r !! id = Some p /\ succeeds p p'.
Proof.
  unfold attach. destruct (proxies r !! aid) as [p|] eqn:Ep; [|intros; by exists p'].
  destruct (negb _); [intros; by exists p'|]. destruct (negb _); [intros; by exists p'|].
  destruct (attached p) eqn:Ea; [intros; by exists p'|]. apply insert_succeeds with p; [done|].
  right. done.
Qed.

Lemma create_other h nid token now k m r id p' :
  nid <> id -> proxies (create h nid token now k m r).1 !! id = Some p' -> proxies r !! id = Some p'.
Proof.
  intros Hne. unfold create. destruct (_ || _); [done|]. case_bool_decide; [done|].
  destruct (definitions m); [|done]. destruct (_ || _); [done|].
  destruct (build_component _ _ _ _ _) as [s [c|]]; [|done]. cbn. by rewrite lookup_insert_ne.
Qed.

Lemma step_succeeds r st id p' :
  creates id st = false -> proxies (step r st) !! id = Some p' ->
  exists p, proxies r !! id = Some p /\ succeeds p p'.
Proof.
  intros Hc. destruct st; cbn [step].
  - destruct (id_taken _ _ _); [intros; by exists p'|].
    assert (H : proxies (consume h id0 token now attached_id attached_generation reactor request r).1
      !! id = Some p' -> exists p, proxies r !! id = Some p /\ succeeds p p').
    { unfold consume. destruct request; destruct (bool_decide (attached_id = _));
        try (intros; by exists p'); try apply consume_attached_succeeds; [|apply attach_succeeds].
      cbn in Hc. bool_to_prop. intros H. exists p'. split; [|done]. by eapply create_other. }
    destruct (consume _ _ _ _ _ _ _ _ _). exact H.
  - unfold detach. destruct (proxies r !! id0) as [p|] eqn:Ep; [|intros; by exists p'].
    destruct (_ || _); [intros; by exists p'|]. eapply insert_succeeds; [done|].
    by destruct (message_succeeds p) as (_ & _ & _ & ? & _).
  - intros (p & Hp & ->)%sample_lookup. exists p. split; [done|].
    by destruct (message_succeeds p) as (_ & _ & _ & _ & ?).
  - destruct (proxies r !! id0) as [p|] eqn:Ep; [|intros; by exists p'].
    eapply insert_succeeds; [done|]. by left.
  - intros H. by exists p'.
  - done.
Qed.

Lemma stale_step r st id gen :
  creates id st = false -> stale id gen r ->
  (forall p, proxies r !! id = Some p -> 0 <= generation p /\ generation p + 1 < 2 ^ 64) ->
  stale id gen (step r st)
  /\ forall p', proxies (step r st) !! id = Some p' -> exists p, proxies r !! id = Some p
       /\ generation p <= generation p' <= generation p + 1.
Proof.
  intros Hc Hs Hb. pose proof (step_succeeds r st id) as Hst. unfold stale in *.
  destruct (proxies (step r st) !! id) as [p'|]; [|done].
  destruct (Hst p' Hc eq_refl) as (p & Hp & Hsu). destruct (Hb p Hp) as [H0 H1]. rewrite Hp in Hs.
  destruct Hsu as [[Hg Hat]|[Hat Hg]].
  - split; [rewrite Hg; destruct Hs as [?|[? ?]]; [by left|right; auto]|].
    intros ? [= <-]. exists p. split; [done|]. lia.
  - rewrite u64_succ_small in Hg by lia. split; [left; destruct Hs as [?|[? ?]]; lia|].
    intros ? [= <-]. exists p. split; [done|]. lia.
Qed.

Lemma stale_run l r id gen :
  stale id gen r -> forallb (fun st => negb (creates id st)) l = true ->
  (forall p, proxies r !! id = Some p ->
     0 <= generation p /\ generation p + Z.of_nat (length l) < 2 ^ 64) ->
  stale id gen (run r l).
Proof.
  unfold run. revert r. induction l as [|st l IH]; intros r Hs Hl Hb; [done|].
  cbn [forallb foldl length] in *. apply andb_true_iff in Hl as [Hc%negb_true_iff Hl].
  destruct (stale_step r st id gen Hc Hs) as [Hs' Hb'].
  { intros p Hp. specialize (Hb p Hp). lia. }
  apply IH; [done|done|]. intros p' Hp'. destruct (Hb' p' Hp') as (p & Hp & Hle).
  specialize (Hb p Hp). lia.
Qed.

(** Work queued by a former stream cannot touch a proxy again.  Once the
    attachment a handle names has ended, then whatever happens afterwards
    (re-attachment by another stream included, but no creation under the same
    random identifier) a message of the old stream is refused without any
    effect, and so is its detachment. *)
Theorem stale_attachment_inert r steps id gen now request :
  stale id gen r -> forallb (fun st => negb (creates id st)) steps = true ->
  (forall p, proxies r !! id = Some p ->
     0 <= generation p /\ generation p + Z.of_nat (length steps) < 2 ^ 64) ->
  let r' := run r steps in
  consume_attached now id gen request r' = (r', refuse FAILED_PRECONDITION)
  /\ detach id gen r' = r'.
Proof.
  intros Hs Hl Hb r'. pose proof (stale_run steps r id gen Hs Hl Hb) as Hst.
  change (run r steps) with r' in Hst. unfold stale, consume_attached, detach in *.
  destruct (proxies r' !! id) as [p|]; [|done].
  assert (Hg : negb (attached p) || negb (generation p =? gen) = true); [|by rewrite Hg].
  destruct Hst as [Hlt|[_ Hat]]; [|by rewrite Hat]. apply orb_true_iff. right.
  apply negb_true_iff, Z.eqb_neq. lia.
Qed.

(** ** The view of the client *)

(** What the stream of the latest attachment knows of the component: the retained
    values, then the deltas. *)
Definition view_step (id : string) (m : gmap (Z * string) HalScalar) (e : Event) :
    gmap (Z * string) HalScalar :=
  match e with
  | Sent _ id' (Outbox.OtherMessage (Attached _ _ _ _ retained _ _ _ _)) =>
      if bool_decide (id' = id) then Outbox.apply_values retained ∅ else m
  | Sent _ id' (Outbox.DeltaMessage d) =>
      if bool_decide (id' = id) then Outbox.apply_values (Outbox.values d) m else m
  | _ => m
  end.

Definition view (id : string) (r : RemoteComponentRegistry) : gmap (Z * string) HalScalar :=
  foldl (view_step id) ∅ (log r).

Definition key (i : Item) : Z * string := (kind i, item_full_name i).

Lemma apply_omap_other (g : Item -> option (Outbox.ComponentValue (Value := HalScalar))) its m k :
  (forall j v, g j = Some v -> Outbox.item_key v = key j) -> k ∉ key <$> its ->
  Outbox.apply_values (omap g its) m !! k = m !! k.
Proof.
  intros Hg. revert m. induction its as [|j its IH]; intros m Hk; [done|].
  rewrite fmap_cons in Hk. apply not_elem_of_cons in Hk as [Hne Hk]. cbn [omap list_omap].
  destruct (g j) as [v|] eqn:Ev; [|by apply IH].
  change (Outbox.apply_values (v :: omap g its) m)
    with (Outbox.apply_values (omap g its) (<[Outbox.item_key v := Outbox.value v]> m)).
  rewrite IH by done. rewrite (Hg j v Ev). by rewrite lookup_insert_ne.
Qed.

Lemma apply_omap (g : Item -> option (Outbox.ComponentValue (Value := HalScalar))) its m i :
  (forall j v, g j = Some v -> Outbox.item_key v = key j) -> NoDup (key <$> its) -> i ∈ its ->
  Outbox.apply_values (omap g its) m !! key i
  = match g i with Some v => Some (Outbox.value v) | None => m !! key i end.
Proof.
  intros Hg. revert m. induction its as [|j its IH]; intros m Hnd Hi; [by apply not_elem_of_nil in Hi|].
  rewrite fmap_cons in Hnd. apply NoDup_cons in Hnd as [Hj Hnd]. cbn [omap list_omap].
  assert (Hstep : Outbox.apply_values (match g j with Some v => v :: omap g its | None => omap g its end) m
    = Outbox.apply_values (omap g its)
        (match g j with Some v => <[key j := Outbox.value v]> m | None => m end)).
  { destruct (g j) as [v|] eqn:Ev; [|done]. by rewrite <- (Hg j v Ev). }
  rewrite Hstep. apply elem_of_cons in Hi as [->|Hi].
  - rewrite apply_omap_other by done. destruct (g j); [by rewrite lookup_insert_eq|done].
  - rewrite IH by done. destruct (g i); [done|]. destruct (g j); [|done].
    apply lookup_insert_ne. intros Heq. apply Hj. rewrite Heq. by apply list_elem_of_fmap_2.
Qed.

Lemma append_inj a b c : String.append a b = String.append a c -> b = c.
Proof. induction a as [|x a IH]; cbn; [done|]. intros [= H]. by apply IH. Qed.

Lemma keys_nodup p : well_formed (shape p) -> NoDup (key <$> items p).
Proof.
  intros Hw. pose proof (well_formed_nodup p Hw) as Hn. destruct Hw as (_ & Hf & _).
  rewrite Forall_fmap, Forall_forall in Hf.
  apply NoDup_alt. intros a b k Ha Hb. rewrite list_lookup_fmap in Ha, Hb.
  destruct (items p !! a) as [i|] eqn:Ei; [|done]. destruct (items p !! b) as [j|] eqn:Ej; [|done].
  cbn in Ha, Hb. injection Ha as <-. injection Hb as Hk Hfull.
  eapply (NoDup_lookup (suffix <$> items p)); [done| |]; rewrite list_lookup_fmap; [by rewrite Ei|].
  rewrite Ej. cbn. f_equal.
  destruct (Hf i) as (hi & _ & [_ Hi _ _ _]); [by eapply list_elem_of_lookup_2|].
  destruct (Hf j) as (hj & _ & [_ Hj _ _ _]); [by eapply list_elem_of_lookup_2|].
  cbn in Hi, Hj. rewrite Hi, Hj in Hfull. apply append_inj in Hfull. by injection Hfull.
Qed.

(** While a proxy is attached its client knows the [previous] values. *)
Definition informed (p : Proxy) (m : gmap (Z * string) HalScalar) : Prop :=
  attached p = true -> forall i, i ∈ items p ->
  exists v, previous i = Some v /\ m !! key i = Some (encode_hal_scalar v).

Lemma informed_snapshot cfg id token p m k :
  well_formed (shape p) ->
  informed (encode_snapshot cfg id token p).1
    (view_step id m (Sent k id (Outbox.OtherMessage (encode_snapshot cfg id token p).2))).
Proof.
  intros Hw _ i (j & -> & Hj)%list_elem_of_fmap. cbn. rewrite bool_decide_eq_true_2 by done.
  assert (Hr : exists v, read (component p) (suffix j) = Some v).
  { destruct Hw as (_ & Hf & _). rewrite Forall_fmap, Forall_forall in Hf.
    destruct (Hf j Hj) as (hi & Hl & _). exact (read_is_some _ _ _ Hl). }
  destruct Hr as [v Hv]. exists v. unfold snapshot_item. rewrite Hv. split; [done|].
  unfold retained_values. change (key (set_previous (Some v) j)) with (key j).
  rewrite (apply_omap (fun i => component_value i <$> read (component p) (suffix i)));
    [by rewrite Hv| |by apply keys_nodup|done].
  intros x w. destruct (read (component p) (suffix x)) as [u|]; cbn; [|done]. by intros [= <-].
Qed.

Definition event_proxy (e : Event) : string :=
  match e with Sent _ id _ => id | TimedOut _ id _ => id end.

Lemma view_step_other id m e : event_proxy e <> id -> view_step id m e = m.
Proof.
  intros H. destruct e as [k id' msg|k id' g]; cbn in *; [|done].
  destruct msg as [d|[]]; try done; by rewrite bool_decide_eq_false_2.
Qed.

Lemma view_steps_other id m es : Forall (fun e => event_proxy e <> id) es -> foldl (view_step id) m es = m.
Proof. induction 1 as [|e es He Hes IH]; [done|]. cbn. by rewrite view_step_other. Qed.

Lemma sample_proxy_events cfg now id p :
  Forall (fun e => event_proxy e = id) (sample_proxy cfg now id p).2.
Proof.
  unfold sample_proxy. destruct (negb (attached p)); [done|].
  destruct (_ <=? _); [by destruct (callbacks p); repeat constructor|].
  destruct (_ || _); [done|]. cbn [snd].
  destruct (omap snd _); [done|]. by destruct (callbacks p); repeat constructor.
Qed.

(** A sampling pass tells the client of a proxy about that proxy only. *)
Lemma view_sample cfg now id m (l : list (string * Proxy)) :
  NoDup l.*1 ->
  foldl (view_step id) m (concat ((fun kv => (sample_proxy cfg now kv.1 kv.2).2) <$> l))
  = match list_find (fun kv => kv.1 = id) l with
    | Some (_, kv) => foldl (view_step id) m (sample_proxy cfg now id kv.2).2
    | None => m
    end.
Proof.
  revert m. induction l as [|[k p] l IH]; intros m Hnd; [done|].
  cbn in *. apply NoDup_cons in Hnd as [Hk Hnd]. rewrite foldl_app, IH by done.
  destruct (decide (k = id)) as [->|Hne].
  - destruct (list_find (fun kv => kv.1 = id) l) as [[n kv]|] eqn:Ef; [|done].
    exfalso. apply list_find_Some in Ef as (Hl & Hkv & _). apply Hk. rewrite <- Hkv.
    apply list_elem_of_fmap_2. by eapply list_elem_of_lookup_2.
  - rewrite (view_steps_other id m).
    + by destruct (list_find (fun kv => kv.1 = id) l) as [[]|].
    + eapply Forall_impl; [apply sample_proxy_events|]. intros e He. cbn in He. congruence.
Qed.

Lemma view_after_sample r now id p :
  proxies r !! id = Some p ->
  view id (sample now r) = foldl (view_step id) (view id r) (sample_proxy (config r) now id p).2.
Proof.
  intros Hp. unfold view. cbn. rewrite foldl_app, view_sample by apply NoDup_fst_map_to_list.
  apply elem_of_map_to_list in Hp as Hin. apply list_elem_of_lookup in Hin as [n Hn].
  destruct (list_find (fun kv => kv.1 = id) (map_to_list (proxies r))) as [[k [id' q]]|] eqn:Ef.
  - apply list_find_Some in Ef as (Hl & Hkv & _). cbn in Hkv. subst id'.
    apply list_elem_of_lookup_2, elem_of_map_to_list in Hl. rewrite Hp in Hl. by injection Hl as <-.
  - apply list_find_None in Ef. rewrite Forall_forall in Ef.
    destruct (Ef (id, p)); [by eapply list_elem_of_lookup_2|done].
Qed.

(** What a client holds for an item after a pass of the proxy. *)
Lemma sample_item_key c i v : (sample_item c i).2 = Some v -> Outbox.item_key v = key i.
Proof.
  unfold sample_item. destruct (negb _); [done|]. destruct (read c (suffix i)); [|done].
  destruct (match previous i with Some _ => _ | None => _ end); [done|]. by intros [= <-].
Qed.

Lemma omap_fmap_snd c (its : list Item) :
  omap snd (sample_item c <$> its) = omap (fun i => (sample_item c i).2) its.
Proof. induction its as [|i its IH]; [done|]. cbn. by rewrite IH. Qed.

Lemma informed_sample cfg now id p m :
  proxy_ok p -> informed p m ->
  informed (sample_proxy cfg now id p).1 (foldl (view_step id) m (sample_proxy cfg now id p).2).
Proof.
  intros Hp Hi. unfold sample_proxy. destruct (attached p) eqn:Ea; cbn [negb]; [|exact Hi].
  destruct (_ <=? _); [done|]. destruct (_ || _); [exact Hi|]. cbn [fst snd].
  intros _ i Hin. cbn [items] in Hin. apply list_elem_of_fmap in Hin as (iv & -> & Hin).
  apply list_elem_of_fmap in Hin as (j & -> & Hj).
  destruct (Hi Ea j Hj) as (old & Hprev & Hold). destruct (po_attached p Hp Ea) as [k Hk].
  assert (Hview : foldl (view_step id) m
    match omap snd (sample_item (component p) <$> items p), callbacks p with
    | _ :: _, Some k0 => [Sent k0 id (Outbox.DeltaMessage (Outbox.mkDelta (generation p)
        (match omap snd (sample_item (component p) <$> items p) with [] => server_sequence p
         | _ => u64_succ (server_sequence p) end)
        (omap snd (sample_item (component p) <$> items p))))]
    | _, _ => [] end = Outbox.apply_values (omap snd (sample_item (component p) <$> items p)) m).
  { rewrite Hk. destruct (omap snd _); [done|]. cbn [foldl view_step Outbox.values].
    by rewrite bool_decide_eq_true_2. }
  rewrite Hview, omap_fmap_snd.
  assert (Hkey : key (sample_item (component p) j).1 = key j).
  { unfold sample_item. destruct (negb _); [done|]. destruct (read _ _); [|done].
    by destruct (match previous j with Some _ => _ | None => _ end). }
  rewrite Hkey, (apply_omap (fun i => (sample_item (component p) i).2));
    [|apply sample_item_key|apply keys_nodup, Hp|done].
  unfold sample_item. destruct (server_readable j); [|by exists old]. cbn [negb].
  destruct (read (component p) (suffix j)) as [v|]; [|by exists old].
  destruct (match previous j with Some _ => _ | None => _ end); [by exists old|by exists v].
Qed.

(** The client of a proxy learns nothing new, and needs nothing new. *)
Definition quiet (p p' : Proxy) : Prop :=
  items p' = items p /\ (attached p' = true -> attached p = true).

Definition quiet_step (r r' : RemoteComponentRegistry) : Prop :=
  forall id p', proxies r' !! id = Some p' -> exists p, proxies r !! id = Some p /\ quiet p p'.

Definition informed_all (r : RemoteComponentRegistry) : Prop :=
  forall id p, proxies r !! id = Some p -> informed p (view id r).

Lemma informed_quiet p p' m : quiet p p' -> informed p m -> informed p' m.
Proof. intros [Hi Ha] H Hat. rewrite Hi. by apply H, Ha. Qed.

Lemma informed_all_quiet r r' :
  quiet_step r r' -> (forall id, view id r' = view id r) -> informed_all r -> informed_all r'.
Proof.
  intros Hq Hv Hi id p' Hp'. destruct (Hq id p' Hp') as (p & Hp & Hqp). rewrite Hv.
  by eapply informed_quiet, Hi.
Qed.

Lemma quiet_refl r : quiet_step r r.
Proof. intros id p Hp. by exists p. Qed.
#[local] Hint Resolve quiet_refl : core.

Lemma quiet_insert r k p q :
  proxies r !! k = Some p -> quiet p q -> quiet_step r (set_proxies (<[k := q]> (proxies r)) r).
Proof.
  intros Hk Hq id p'. cbn. destruct (decide (id = k)) as [->|Hne].
  - rewrite lookup_insert_eq. intros [= <-]. by exists p.
  - rewrite lookup_insert_ne by done. intros H. by exists p'.
Qed.

Lemma message_quiet p :
  (forall now gen values, quiet p (activate now gen values p).1)
  /\ (forall now gen seq values, quiet p (update now gen seq values p).1)
  /\ (forall now gen, quiet p (heartbeat now gen p).1)
  /\ quiet p (release_proxy p).
Proof.
  split_and!; intros; unfold activate, update, heartbeat; repeat case_match; simplify_eq/=; done.
Qed.

(** A response that is not a snapshot. *)
Definition not_snapshot (res : RemoteComponentResult) : Prop :=
  match response res with Some (Attached _ _ _ _ _ _ _ _ _) => False | _ => True end.

Lemma view_answered id k res r : not_snapshot res -> view id (emit (answered k res) r) = view id r.
Proof.
  unfold not_snapshot, answered, view. cbn. rewrite foldl_app.
  destruct (response res) as [[]|]; done.
Qed.

Lemma consume_attached_quiet now aid gen request r :
  quiet_step r (consume_attached now aid gen request r).1
  /\ not_snapshot (consume_attached now aid gen request r).2
  /\ log (consume_attached now aid gen request r).1 = log r.
Proof.
  unfold consume_attached. destruct (proxies r !! aid) as [p|] eqn:Ep; [|done].
  destruct (_ || _); [done|]. destruct (message_quiet p) as (Ha & Hu & Hh & Hr).
  destruct request; try done; unfold finish_message.
  - specialize (Ha now generation0 values). destruct (activate _ _ _ _) as [q res] eqn:E.
    split; [by eapply quiet_insert|]. unfold activate in E. repeat case_match; by simplify_eq/=.
  - specialize (Hu now generation0 sequence values). destruct (update _ _ _ _ _) as [q res] eqn:E.
    split; [by eapply quiet_insert|]. unfold update in E. repeat case_match; by simplify_eq/=.
  - specialize (Hh now generation0). destruct (heartbeat _ _ _) as [q res] eqn:E.
    split; [by eapply quiet_insert|]. unfold heartbeat in E. repeat case_match; by simplify_eq/=.
  - unfold close_proxy. destruct mode; [done|destruct (negb _); [done|]..]; cbn [fst snd].
    + split; [by eapply quiet_insert|done].
    + split; [|done]. intros id p'. cbn [proxies]. intros [_ H]%lookup_delete_Some. by exists p'.
Qed.

(** A request is quiet or takes a snapshot of the proxy it answers with. *)
Lemma consume_snapshot h id token now aid gen k request r :
  registry_ok r -> id_taken id request r = false ->
  let out := consume h id token now aid gen k request r in
  (quiet_step r out.1 /\ not_snapshot out.2 /\ log out.1 = log r)
  \/ exists pid tok p, well_formed (shape p)
     /\ proxies out.1 = <[pid := (encode_snapshot (config r) pid tok p).1]> (proxies r)
     /\ response out.2 = Some (encode_snapshot (config r) pid tok p).2
     /\ proxy_id out.2 = pid /\ log out.1 = log r.
Proof.
  intros Hr Hid. unfold consume. destruct request; destruct (bool_decide (aid = _)); cbn zeta;
    try (left; split_and!; done); try (left; apply consume_attached_quiet).
  - unfold create. set (pre := if bool_decide _ then _ else _).
    destruct (_ || bool_decide (pre = EmptyString)) eqn:En; [by left|].
    apply orb_false_iff in En as [_ Hpre%bool_decide_eq_false].
    case_bool_decide; [by left|]. destruct (definitions c) as [defs|] eqn:Ed; [|by left].
    destruct (_ || _); [by left|].
    destruct (build_component _ _ _ _ _) as [s [comp|code]] eqn:Eb; [|by left; split; [exact (quiet_refl r)|]]. right.
    apply build_component_ok in Eb as (Hw & _); [|done|by eapply definitions_valid].
    match goal with |- context [encode_snapshot _ _ true ?q] => exists id, true, q end.
    by split_and!; [exact Hw|..].
  - unfold attach. destruct (proxies r !! proxy) as [p|] eqn:Ep; [|by left].
    destruct (negb _); [by left|]. destruct (negb _); [by left|]. destruct (attached p); [by left|].
    right. match goal with |- context [encode_snapshot _ _ false ?q] => exists proxy, false, q end.
    split_and!; [|done..].
    unfold shape. cbn. rewrite layout_write. exact (po_shape p (ro_proxies r Hr proxy p Ep)).
Qed.

Lemma informed_step r st : registry_ok r -> informed_all r -> informed_all (step r st).
Proof.
  intros Hr Hi. destruct st; cbn [step].
  - destruct (id_taken id request r) eqn:Et; [done|].
    pose proof (consume_snapshot h id token now attached_id attached_generation reactor request r Hr Et) as Hc.
    destruct (consume _ _ _ _ _ _ _ _ _) as [r' res]. cbn in Hc.
    destruct Hc as [(Hq & Hn & Hl)|(pid & tok & p & Hw & Hp & Hres & Hpid & Hl)].
    + apply (informed_all_quiet r); [exact Hq| |done]. intros i. rewrite view_answered by done.
      unfold view. by rewrite Hl.
    + intros i q Hq. unfold view. cbn in *. rewrite Hl, foldl_app. unfold answered. rewrite Hres, Hpid.
      rewrite Hp in Hq. destruct (decide (i = pid)) as [->|Hne].
      * rewrite lookup_insert_eq in Hq. injection Hq as <-. by apply informed_snapshot.
      * rewrite lookup_insert_ne in Hq by done. cbn. rewrite bool_decide_eq_false_2 by done.
        by apply Hi.
  - unfold detach. destruct (proxies r !! id) as [p|] eqn:Ep; [|done]. destruct (_ || _); [done|].
    apply (informed_all_quiet r); [|done|done]. eapply quiet_insert; [done|]. apply message_quiet.
  - intros id p' Hp'. apply sample_lookup in Hp' as (p & Hp & ->).
    rewrite (view_after_sample r now id p Hp).
    apply informed_sample; [by apply (ro_proxies r Hr id)|by apply Hi].
  - destruct (proxies r !! id) as [p|] eqn:Ep; [|done].
    apply (informed_all_quiet r); [|done|done]. by eapply quiet_insert.
  - apply (informed_all_quiet r); [exact (quiet_refl r)|done|done].
  - intros i p. done.
Qed.

Lemma informed_run l r :
  0 <= max_items (config r) -> registry_ok r -> informed_all r -> informed_all (run r l).
Proof.
  unfold run. revert r. induction l as [|st l IH]; intros r H0 Hr Hi; [done|]. cbn. apply IH.
  - by rewrite step_config.
  - by apply step_ok.
  - by apply informed_step.
Qed.

(** Values a reader cannot tell apart by [==]. *)
Definition same_value (w v : HalAdapterValue) : Prop := w = v \/ variant_eq w v = true.

(** C9: The client of a component follows HAL.  In every reachable state, when a
    sampling pass is due for an attached and active proxy whose heartbeat has not
    run out, then afterwards the client that has applied the retained values of
    its attachment and every delta since holds, for each item it may read, a
    value equal to what the component reads. *)
Theorem component_view_converges cfg limit n steps now id p i :
  0 <= max_items cfg ->
  let r := run (start cfg limit n) steps in
  proxies r !! id = Some p -> attached p = true -> active p = true ->
  now - last_heartbeat p < heartbeat_timeout (config r) -> next_sample p <= now ->
  i ∈ items p -> server_readable i = true ->
  exists v w, read (component p) (suffix i) = Some v
    /\ view id (step r (Sample now)) !! (kind i, item_full_name i) = Some (encode_hal_scalar w)
    /\ same_value w v.
Proof.
  intros H0 r Hp Hat Hac Hhb Hdue Hi Hrd.
  assert (Hr : registry_ok r) by by apply run_ok; [|apply start_ok].
  assert (Hinf : informed_all r) by by apply informed_run; [|apply start_ok|].
  pose proof (ro_proxies r Hr id p Hp) as Hok.
  assert (Hread : is_Some (read (component p) (suffix i))).
  { destruct (po_shape p Hok) as (_ & Hf & _). rewrite Forall_fmap, Forall_forall in Hf.
    destruct (Hf i Hi) as (hi & Hl & _). exact (read_is_some _ _ _ Hl). }
  destruct Hread as [v Hv].
  assert (Hp' : proxies (step r (Sample now)) !! id = Some (sample_proxy (config r) now id p).1).
  { cbn. by rewrite map_lookup_imap, Hp. }
  pose proof (informed_step r (Sample now) Hr Hinf id _ Hp') as Hafter.
  unfold sample_proxy in Hafter. rewrite Hat in Hafter. cbn [negb] in Hafter.
  destruct (Z.leb_spec (heartbeat_timeout (config r)) (now - last_heartbeat p)); [lia|].
  rewrite Hac in Hafter. destruct (Z.ltb_spec now (next_sample p)); [lia|]. cbn [negb orb fst] in Hafter.
  destruct (Hafter eq_refl (sample_item (component p) i).1) as (w & Hw & Hview).
  { by apply list_elem_of_fmap_2, list_elem_of_fmap_2. }
  exists v, w. split; [done|]. unfold sample_item, same_value in *. rewrite Hrd, Hv in *. cbn [negb] in *.
  destruct (previous i) as [old|] eqn:Eprev; [destruct (variant_eq old v) eqn:Ev|];
    cbn in Hw, Hview; simplify_eq; split; [exact Hview|by right|exact Hview|by left|exact Hview|by left].
Qed.

(** Comparing tokens without an early exit decides equality. *)
Lemma token_equal_eq left right : token_equal left right = true <-> left = right.
Proof.
  unfold token_equal. rewrite andb_true_iff, Nat.eqb_eq, Z.eqb_eq.
  assert (H : forall l r d, length l = length r ->
    foldl (fun difference ab => Z.lor difference (Z.lxor ab.1 ab.2)) d (zip l r) = 0
    <-> d = 0 /\ l = r).
  { induction l as [|a l IH]; intros [|b r] d Hl; try done; cbn in *; [tauto|].
    rewrite IH by lia. rewrite Z.lor_eq_0_iff, Z.lxor_eq_0_iff. split.
    - intros [[-> ->] ->]. done.
    - by intros [-> [= -> ->]]. }
  split.
  - intros [Hl Hf]. by apply H in Hf as [_ ?].
  - intros ->. split; [done|]. by apply H.
Qed.

(** ** A concrete session *)

Definition sample_config : Config := mkConfig 16 1000 3000 20 5 500.
Definition sample_hal : Hal := mkHal 7 (fun _ => 0) 0 47.
Definition sample_create : HalComponentCreate :=
  mkCreate "panel" EmptyString
    [mkSchema "start" 1 2 (Some (mkScalar 1 (Some (VBit false)))); mkSchema "speed" 3 1 None]
    [mkSchema "gain" 2 2 None] 0.

Definition bit_update (b : bool) : list (HalItemRef * HalScalar) :=
  [(mkRef 1 "panel.start", mkScalar 1 (Some (VBit b)))].
Definition full_state : list (HalItemRef * HalScalar) :=
  bit_update true ++ [(mkRef 2 "gain", mkScalar 2 (Some (VFloat f64_one)))].

Definition request (now : Z) (gen : Z) (m : HalComponentClientMessage) : Step :=
  Consume sample_hal "proxy" [1; 2; 3] now "proxy" gen 1 m.

(** Create, activate, a change of the input, an update. *)
Definition session : list Step :=
  [Consume sample_hal "proxy" [1; 2; 3] 0 EmptyString 0 1 (Create sample_create);
   request 1 1 (Activate 1 full_state); HalChange "proxy" "speed" (VS32 40);
   request 2 1 (Update 1 1 (bit_update true))].

Definition sample_start : RemoteComponentRegistry := start sample_config 2 8.

Definition speed_item : Item :=
  mkItem "speed" 1 TS32 "panel.speed" false true None (Some (VS32 0)).

Definition sample_proxy_state : Proxy :=
  default (mkProxy [] (mkComponent EmptyString EmptyString false ∅) [] 0 0 0 0 0 0 false false None)
    (proxies (run sample_start session) !! "proxy"%string).

Lemma component_fail_safe_witness :
  TimedOut 1 "proxy" 1 ∈ log (step (run sample_start session) (Sample 3002)).
Proof.
  destruct (component_fail_safe sample_config 2 8 session) as (_ & _ & H); [vm_compute; discriminate|].
  apply (H 3002 "proxy"%string sample_proxy_state 1%nat); vm_compute; try reflexivity. discriminate.
Defined.

Lemma registry_accounts_witness :
  retained_item_count (run sample_start session) = 4
  /\ (admitted (run sample_start session) <= 2)%nat.
Proof.
  split; [vm_compute; reflexivity|].
  destruct (registry_accounts sample_config 2 8 session) as (_ & _ & _ & H & _);
    [vm_compute; discriminate|]. exact H.
Defined.

Lemma client_updates_atomic_witness :
  status (consume_attached 3 "proxy" 1 (Update 1 2 (bit_update false)) (run sample_start session)).2 = OK
  /\ ((status (consume_attached 3 "proxy" 1 (Update 1 2 (bit_update false)) (run sample_start session)).2 <> OK
       /\ True)
      \/ exists p q decoded, proxies (run sample_start session) !! "proxy"%string = Some p
         /\ Forall2 (decodes p) (bit_update false) decoded /\ applied p decoded (component q)).
Proof.
  split; [vm_compute; reflexivity|].
  destruct (client_updates_atomic sample_config 2 8 session 3 "proxy" 1 (Update 1 2 (bit_update false)))
    as [(H & _)|(p & q & decoded & Hp & _ & _ & _ & _ & _ & _ & _ & Hd & Ha)];
    [vm_compute; discriminate|left; split; [exact H|exact I]|].
  right. exists p, q, decoded. split; [exact Hp|]. split; [exact Hd|exact Ha].
Defined.

(** Detached, then attached again by another stream. *)
Lemma stale_attachment_inert_witness :
  let r := step (run sample_start session) (DetachStep "proxy" 1) in
  let l := [Consume sample_hal EmptyString [] 9 EmptyString 0 2 (Attach "proxy" "panel" [1; 2; 3])] in
  detach "proxy" 1 (run r l) = run r l
  /\ (generation <$> proxies (run r l) !! "proxy"%string) = Some 2.
Proof.
  intros r l. split; [|vm_compute; reflexivity].
  apply (stale_attachment_inert r l "proxy" 1 10 (Heartbeat 1)).
  - vm_compute. right. by split.
  - reflexivity.
  - intros p Hp. assert (Hg : generation p = 1).
    { assert (H : generation <$> proxies r !! "proxy"%string = Some 1) by (vm_compute; reflexivity).
      rewrite Hp in H. by injection H. }
    rewrite Hg. vm_compute. split; [discriminate|reflexivity].
Defined.

Lemma component_view_converges_witness :
  exists v w, read (component sample_proxy_state) "speed" = Some v
    /\ view "proxy" (step (run sample_start session) (Sample 60)) !! (1, "panel.speed"%string)
       = Some (encode_hal_scalar w)
    /\ same_value w v.
Proof.
  apply (component_view_converges sample_config 2 8 session 60 "proxy" sample_proxy_state speed_item).
  - vm_compute. discriminate.
  - vm_compute. reflexivity.
  - vm_compute. reflexivity.
  - vm_compute. reflexivity.
  - vm_compute. reflexivity.
  - vm_compute. discriminate.
  - vm_compute. right. left.
  - vm_compute. reflexivity.
Defined.

End Registry.
