(* ===== verification/ComponentRpc.v ===== *)
(** The bidirectional stream of a remote HAL component
    ([hal/grpc/remote_component_rpc.cc]).

    [Session] models the reactors of the streams, the task queue of the HAL worker
    (one thread, so tasks run in order), and their composition with the registry of
    retained components.  The callbacks of gRPC, the worker, the cancellations and
    the timer are the steps; they interleave freely.  The worker refuses a message or
    a clean-up task by the rules of [BoundedExecutor]: its queue is full, or it has
    stopped.  A refused clean-up task is lost. *)
From Stdlib Require Import SpecFloat Ascii String.
From S2P Require Import Prelude Float64 CallbackRuntime StreamWrite RemoteComponent.

Local Open Scope Z_scope.

Module Session.
Import RemoteComponent.Registry.

#[local] Existing Instance Gate.GateState_eq_dec.

#[local] Instance StatusCode_eq_dec : EqDecision StatusCode.
Proof. solve_decision. Defined.

(** ** The reactor *)

Inductive Status := Code (c : StatusCode) | CANCELLED | UNAVAILABLE | DEADLINE_EXCEEDED.

Abbreviation Deferred := (DeferredFinish.DeferredWriteFinish (Status := Status)).
Abbreviation Entry := (Outbox.Entry (Value := HalScalar) (Payload := Response)).
Abbreviation mkEntry := (Outbox.mkEntry (Value := HalScalar) (Payload := Response)).

(** [session_id], [session_generation], [reply]: [proxy_id_], [generation_],
    [response_].  [reads]: the reads started and not yet done; [finished]: the status
    passed to [Finish]; [sent]: the messages written. *)
Record Reactor := mkReactor {
  stream_admitted : bool;
  active_response : bool;
  resume_read_when_idle : bool;
  received_first_message : bool;
  finish_after_responses : bool;
  detach_requested : bool;
  first_message_deadline : Z;
  session_id : string;
  session_generation : Z;
  reply : option Message;
  outbox : list Entry;
  write_finish : Deferred;
  gate : Gate.GateState;
  reads : nat;
  finished : option Status;
  sent : list Message;
}.

Definition set_active_response (x : bool) (r : Reactor) : Reactor :=
  mkReactor (stream_admitted r) x (resume_read_when_idle r) (received_first_message r)
    (finish_after_responses r) (detach_requested r) (first_message_deadline r) (session_id r)
    (session_generation r) (reply r) (outbox r) (write_finish r) (gate r) (reads r) (finished r)
    (sent r).
Definition set_resume_read_when_idle (x : bool) (r : Reactor) : Reactor :=
  mkReactor (stream_admitted r) (active_response r) x (received_first_message r)
    (finish_after_responses r) (detach_requested r) (first_message_deadline r) (session_id r)
    (session_generation r) (reply r) (outbox r) (write_finish r) (gate r) (reads r) (finished r)
    (sent r).
Definition set_received_first_message (x : bool) (r : Reactor) : Reactor :=
  mkReactor (stream_admitted r) (active_response r) (resume_read_when_idle r) x
    (finish_after_responses r) (detach_requested r) (first_message_deadline r) (session_id r)
    (session_generation r) (reply r) (outbox r) (write_finish r) (gate r) (reads r) (finished r)
    (sent r).
Definition set_finish_after_responses (x : bool) (r : Reactor) : Reactor :=
  mkReactor (stream_admitted r) (active_response r) (resume_read_when_idle r)
    (received_first_message r) x (detach_requested r) (first_message_deadline r) (session_id r)
    (session_generation r) (reply r) (outbox r) (write_finish r) (gate r) (reads r) (finished r)
    (sent r).
Definition set_detach_requested (x : bool) (r : Reactor) : Reactor :=
  mkReactor (stream_admitted r) (active_response r) (resume_read_when_idle r)
    (received_first_message r) (finish_after_responses r) x (first_message_deadline r)
    (session_id r) (session_generation r) (reply r) (outbox r) (write_finish r) (gate r)
    (reads r) (finished r) (sent r).
Definition set_session_id (x : string) (r : Reactor) : Reactor :=
  mkReactor (stream_admitted r) (active_response r) (resume_read_when_idle r)
    (received_first_message r) (finish_after_responses r) (detach_requested r)
    (first_message_deadline r) x (session_generation r) (reply r) (outbox r) (write_finish r)
    (gate r) (reads r) (finished r) (sent r).
Definition set_session_generation (x : Z) (r : Reactor) : Reactor :=
  mkReactor (stream_admitted r) (active_response r) (resume_read_when_idle r)
    (received_first_message r) (finish_after_responses r) (detach_requested r)
    (first_message_deadline r) (session_id r) x (reply r) (outbox r) (write_finish r) (gate r)
    (reads r) (finished r) (sent r).
Definition set_reply (x : option Message) (r : Reactor) : Reactor :=
  mkReactor (stream_admitted r) (active_response r) (resume_read_when_idle r)
    (received_first_message r) (finish_after_responses r) (detach_requested r)
    (first_message_deadline r) (session_id r) (session_generation r) x (outbox r)
    (write_finish r) (gate r) (reads r) (finished r) (sent r).
Definition set_outbox (x : list Entry) (r : Reactor) : Reactor :=
  mkReactor (stream_admitted r) (active_response r) (resume_read_when_idle r)
    (received_first_message r) (finish_after_responses r) (detach_requested r)
    (first_message_deadline r) (session_id r) (session_generation r) (reply r) x
    (write_finish r) (gate r) (reads r) (finished r) (sent r).
Definition set_write_finish (x : Deferred) (r : Reactor) : Reactor :=
  mkReactor (stream_admitted r) (active_response r) (resume_read_when_idle r)
    (received_first_message r) (finish_after_responses r) (detach_requested r)
    (first_message_deadline r) (session_id r) (session_generation r) (reply r) (outbox r) x
    (gate r) (reads r) (finished r) (sent r).
Definition set_gate (x : Gate.GateState) (r : Reactor) : Reactor :=
  mkReactor (stream_admitted r) (active_response r) (resume_read_when_idle r)
    (received_first_message r) (finish_after_responses r) (detach_requested r)
    (first_message_deadline r) (session_id r) (session_generation r) (reply r) (outbox r)
    (write_finish r) x (reads r) (finished r) (sent r).
Definition set_reads (x : nat) (r : Reactor) : Reactor :=
  mkReactor (stream_admitted r) (active_response r) (resume_read_when_idle r)
    (received_first_message r) (finish_after_responses r) (detach_requested r)
    (first_message_deadline r) (session_id r) (session_generation r) (reply r) (outbox r)
    (write_finish r) (gate r) x (finished r) (sent r).
Definition set_finished (x : option Status) (r : Reactor) : Reactor :=
  mkReactor (stream_admitted r) (active_response r) (resume_read_when_idle r)
    (received_first_message r) (finish_after_responses r) (detach_requested r)
    (first_message_deadline r) (session_id r) (session_generation r) (reply r) (outbox r)
    (write_finish r) (gate r) (reads r) x (sent r).
Definition set_sent (x : list Message) (r : Reactor) : Reactor :=
  mkReactor (stream_admitted r) (active_response r) (resume_read_when_idle r)
    (received_first_message r) (finish_after_responses r) (detach_requested r)
    (first_message_deadline r) (session_id r) (session_generation r) (reply r) (outbox r)
    (write_finish r) (gate r) (reads r) (finished r) x.

(** A task of the HAL worker. *)
Inductive Task :=
| ConsumeTask (k : nat) (proxy : string) (gen : Z) (request : HalComponentClientMessage)
| DetachTask (proxy : string) (gen : Z).

Definition start_read (r : Reactor) : Reactor := set_reads (S (reads r)) r.

Definition finish_if_ready (r : Reactor) : Reactor * bool :=
  let '(d, st) := DeferredFinish.take_finish_status (write_finish r) in
  let r1 := set_write_finish d r in
  match st with
  | None => (r1, false)
  | Some s =>
      (if bool_decide (gate r1 = Gate.Open) then set_finished (Some s) (set_gate Gate.Finishing r1)
       else r1, true)
  end.

Definition request_finish (st : Status) (r : Reactor) : Reactor :=
  let r1 := set_resume_read_when_idle false (set_outbox [] r) in
  (finish_if_ready (set_write_finish (DeferredFinish.request_finish st (write_finish r1)) r1)).1.

Definition detach_transport (r : Reactor) : Reactor * list Task :=
  if detach_requested r || bool_decide (session_id r = EmptyString) then (r, [])
  else (set_detach_requested true r, [DetachTask (session_id r) (session_generation r)]).

Definition start_write (e : Entry) (r : Reactor) : Reactor :=
  let r1 := set_active_response (Outbox.resume_read e) (set_reply (Some (Outbox.message e)) r) in
  let '(d, started) := DeferredFinish.try_start_write (write_finish r1) in
  if started then set_write_finish d r1 else r1.

Definition offer_delta (m : Message) (r : Reactor) : Reactor :=
  if DeferredFinish.termination_requested (write_finish r) then r
  else if DeferredFinish.write_in_flight (write_finish r) then
    set_outbox (Outbox.push_delta m (outbox r)) r
  else start_write (mkEntry m false) r.

Definition offer_response (m : Message) (r : Reactor) : Reactor :=
  if DeferredFinish.termination_requested (write_finish r) then r
  else if DeferredFinish.write_in_flight (write_finish r) then
    set_outbox (Outbox.push_response m (outbox r)) r
  else start_write (mkEntry m true) r.

(** [OnWriteDone], inside the gate. *)
Definition on_write_done (ok : bool) (r : Reactor) : Reactor :=
  let r0 := if ok then set_sent (sent r ++ option_list (reply r)) r else r in
  let '(r1, finishing) :=
    finish_if_ready (set_write_finish
      (DeferredFinish.complete_write (Code OK) ok (write_finish r0)) r0) in
  if finishing || negb ok then r1
  else
    let r2 := if active_response r1 then set_resume_read_when_idle true r1 else r1 in
    match Outbox.pop_front (outbox r2) with
    | Some (e, rest) => start_write e (set_outbox rest r2)
    | None =>
        if finish_after_responses r2 then request_finish (Code OK) r2
        else if resume_read_when_idle r2 then start_read (set_resume_read_when_idle false r2)
        else r2
    end.

Definition on_cancel (r : Reactor) : Reactor * list Task :=
  let '(r1, tasks) := detach_transport r in (request_finish CANCELLED r1, tasks).

Definition shutdown (r : Reactor) : Reactor * list Task :=
  let '(r1, tasks) := detach_transport r in (request_finish UNAVAILABLE r1, tasks).

(** [OnDone]; the unit of the stream admission goes back, and the object is deleted. *)
Definition on_done (r : Reactor) : Reactor * list Task := detach_transport (set_gate Gate.Done r).

Definition tick (now : Z) (r : Reactor) : Reactor :=
  if negb (received_first_message r) && (first_message_deadline r <=? now)
  then request_finish DEADLINE_EXCEEDED r else r.

Definition heartbeat_timeout (gen : Z) (r : Reactor) : Reactor :=
  if session_generation r =? gen
  then request_finish DEADLINE_EXCEEDED (set_detach_requested true r) else r.

(** [read_done]; [full]: the worker refuses the message. *)
Definition read_done (k : nat) (ok : bool) (request : HalComponentClientMessage) (full : bool)
    (r : Reactor) : Reactor * list Task :=
  if DeferredFinish.termination_requested (write_finish r) then (r, [])
  else if negb ok then
    let '(r1, tasks) := detach_transport r in (request_finish (Code OK) r1, tasks)
  else
    let r1 := set_received_first_message true r in
    if full then (request_finish (Code RESOURCE_EXHAUSTED) r1, [])
    else (r1, [ConsumeTask k (session_id r1) (session_generation r1) request]).

(** The function the worker passes to the gate after [consume]. *)
Definition deliver (res : RemoteComponentResult) (r : Reactor) : Reactor * list Task :=
  if negb (bool_decide (status res = OK)) then
    let '(r1, tasks) := detach_transport r in (request_finish (Code (status res)) r1, tasks)
  else
    let r1 := if bool_decide (proxy_id res = EmptyString) then r
              else set_session_generation (result_generation res) (set_session_id (proxy_id res) r) in
    match response res with
    | Some m =>
        let r2 := offer_response (Outbox.OtherMessage m) r1 in
        (if close_stream res
         then set_finish_after_responses true (set_detach_requested true r2) else r2, [])
    | None =>
        (if close_stream res then request_finish (Code OK) r1
         else if negb (DeferredFinish.termination_requested (write_finish r1)) then start_read r1
         else r1, [])
    end.

(** The constructor; the deadline for the first message is 5 s away. *)
Definition construct (registered admitted : bool) (now : Z) : Reactor * list Task * bool :=
  let r := mkReactor admitted false false false false false (now + 5000) EmptyString 0 None []
             DeferredFinish.make Gate.Open 0 None [] in
  if negb registered then (shutdown r, false)
  else if negb admitted then (request_finish (Code RESOURCE_EXHAUSTED) r, [], false)
  else (start_read r, [], true).

(** ** The streams, the worker and the registry *)

(** The executor as its callers meet it: its limits, the ordinary and the clean-up
    tasks that other callers have queued, and whether it still takes tasks. *)
Record Worker := mkWorker {
  capacity : nat;
  cleanup_reserve : nat;
  others_ordinary : nat;
  others_cleanup : nat;
  worker_accepting : bool;
  worker_stopping : bool;
}.

(** [delivering]: the worker is between [consume] and the gate of the stream whose
    message it consumed.  [refused] is a history: the tasks the worker did not take. *)
Record World := mkWorld {
  registry : RemoteComponentRegistry;
  reactors : gmap nat Reactor;
  streams : list nat;
  queue : list Task;
  delivering : option (nat * RemoteComponentResult);
  worker : Worker;
  refused : list Task;
}.

Definition start (cfg : Config) (limit items : nat) (x : Worker) : World :=
  mkWorld (Registry.start cfg limit items) ∅ [] [] None x [].

Definition is_cleanup (t : Task) : bool :=
  match t with ConsumeTask _ _ _ _ => false | DetachTask _ _ => true end.

(** The tasks in the executor's queue, those of other callers included. *)
Definition queued (w : World) : nat :=
  (length (queue w) + others_ordinary (worker w) + others_cleanup (worker w))%nat.

(** The answer of [BoundedExecutor::submit_impl]. *)
Definition submit_impl (cleanup : bool) (w : World) : bool :=
  let x := worker w in
  if worker_stopping x || (negb cleanup && negb (worker_accepting x)) then false
  else if (capacity x <=? queued w)%nat then false
  else if negb cleanup
          && (capacity x - cleanup_reserve x
              <=? length (filter (fun t => is_cleanup t = false) (queue w)) + others_ordinary x)%nat
  then false
  else true.

(** What becomes of the tasks a reactor submits: a message is submitted by
    [read_done], which asks for the answer; that of [submit_cleanup] is ignored. *)
Definition taken (w : World) (ts : list Task) : list Task :=
  if submit_impl true w then ts else filter (fun t => is_cleanup t = false) ts.
Definition lost (w : World) (ts : list Task) : list Task :=
  if submit_impl true w then [] else filter (fun t => is_cleanup t = true) ts.

Inductive Step :=
| Open (k : nat) (registered admitted : bool) (now : Z)
| ReadDone (k : nat) (ok : bool) (request : HalComponentClientMessage)
| WriteDone (k : nat) (ok : bool)
| Cancel (k : nat)
| ShutdownStream (k : nat)
| DoneStream (k : nat)
| TickStreams (now : Z)
| Work (h : HalComponent.Hal) (id : string) (token : list Z) (now : Z)
| Deliver
| Others (ordinary cleanup : nat) (accept stop : bool)
| Sample (now : Z)
| HalChange (id suffix : string) (v : HalComponent.HalAdapterValue)
| ShutdownRegistry.

(** A function on the reactor of [k] and the tasks it submits. *)
Definition put (k : nat) (rt : Reactor * list Task) (w : World) : World :=
  mkWorld (registry w) (<[k := rt.1]> (reactors w)) (streams w) (queue w ++ taken w rt.2)
    (delivering w) (worker w) (refused w ++ lost w rt.2).

Definition open_gate (r : Reactor) : bool := bool_decide (gate r = Gate.Open).

(** [gate->invoke] *)
Definition invoke (k : nat) (f : Reactor -> Reactor * list Task) (w : World) : World :=
  match reactors w !! k with
  | Some r => if open_gate r then put k (f r) w else w
  | None => w
  end.

Definition set_registry (g : RemoteComponentRegistry) (w : World) : World :=
  mkWorld g (reactors w) (streams w) (queue w) (delivering w) (worker w) (refused w).

(** The callbacks a sampling pass calls. *)
Definition dispatch (w : World) (e : Event) : World :=
  match e with
  | Sent k _ m => invoke k (fun r => (offer_delta m r, [])) w
  | TimedOut k _ gen => invoke k (fun r => (heartbeat_timeout gen r, [])) w
  end.

Definition is_done (w : World) (k : nat) : bool :=
  match reactors w !! k with Some r => bool_decide (gate r = Gate.Done) | None => true end.

Definition busy (w : World) : bool := bool_decide (is_Some (delivering w)).

Definition step (w : World) (s : Step) : World :=
  match s with
  | Open k registered admitted now =>
      match reactors w !! k with
      | Some _ => w
      | None =>
          let '(rt, listed) := construct registered admitted now in
          let w1 := put k rt w in
          mkWorld (registry w1) (reactors w1) (if listed then streams w1 ++ [k] else streams w1)
            (queue w1) (delivering w1) (worker w1) (refused w1)
      end
  | ReadDone k ok request =>
      match reactors w !! k with
      | Some r =>
          if (reads r =? 0)%nat then w
          else
            let r1 := set_reads (pred (reads r)) r in
            if open_gate r1 then put k (read_done k ok request (negb (submit_impl false w)) r1) w
            else put k (r1, []) w
      | None => w
      end
  | WriteDone k ok =>
      match reactors w !! k with
      | Some r =>
          if DeferredFinish.write_in_flight (write_finish r)
          then invoke k (fun r => (on_write_done ok r, [])) w else w
      | None => w
      end
  | Cancel k => invoke k on_cancel w
  | ShutdownStream k => invoke k shutdown w
  | DoneStream k =>
      match reactors w !! k with
      | Some r =>
          if bool_decide (is_Some (finished r)) && negb (bool_decide (gate r = Gate.Done))
          then put k (on_done r) w else w
      | None => w
      end
  | TickStreams now =>
      let current := filter (fun k => is_done w k = false) (streams w) in
      foldl (fun w k => invoke k (fun r => (tick now r, [])) w)
        (mkWorld (registry w) (reactors w) current (queue w) (delivering w) (worker w) (refused w)) current
  | Work h id token now =>
      if busy w then w
      else
        match queue w with
        | [] => w
        | DetachTask proxy gen :: rest =>
            mkWorld (Registry.detach proxy gen (registry w)) (reactors w) (streams w) rest None
              (worker w) (refused w)
        | ConsumeTask k proxy gen request :: rest =>
            if id_taken id request (registry w) || bool_decide (id = EmptyString) then w
            else
              let '(g, res) := consume h id token now proxy gen k request (registry w) in
              mkWorld g (reactors w) (streams w) rest (Some (k, res)) (worker w) (refused w)
        end
  | Deliver =>
      match delivering w with
      | None => w
      | Some (k, res) =>
          let w1 := mkWorld (registry w) (reactors w) (streams w) (queue w) None (worker w) (refused w) in
          if match reactors w !! k with Some r => open_gate r | None => false end
          then invoke k (deliver res) w1
          else if bool_decide (proxy_id res = EmptyString) then w1
          else set_registry (Registry.detach (proxy_id res) (result_generation res) (registry w)) w1
      end
  | Others ordinary cleanup accept stop =>
      let x := worker w in
      mkWorld (registry w) (reactors w) (streams w) (queue w) (delivering w)
        (mkWorker (capacity x) (cleanup_reserve x) ordinary cleanup accept stop) (refused w)
  | Sample now =>
      if busy w then w
      else
        let g := Registry.sample now (registry w) in
        foldl dispatch (set_registry g w) (drop (length (log (registry w))) (log g))
  | HalChange id suffix v => set_registry (Registry.step (registry w) (Registry.HalChange id suffix v)) w
  | ShutdownRegistry => if busy w then w else set_registry (Registry.shutdown (registry w)) w
  end.

Definition run (steps : list Step) (w : World) : World := foldl step w steps.

(** ** One token per stream

    A stream that can go on has exactly one thing to wait for: a read, a message in
    the worker's queue or between [consume] and its delivery, a response that is
    queued or being written, or the read that is resumed when writing stops. *)
Definition live (r : Reactor) : Prop :=
  DeferredFinish.terminal_status (write_finish r) = None
  /\ DeferredFinish.finish_started (write_finish r) = false /\ gate r = Gate.Open.
Definition flying (r : Reactor) : bool := DeferredFinish.write_in_flight (write_finish r).

#[local] Arguments Outbox.resumes : simpl never.

Definition one (b : bool) : nat := if b then 1 else 0.
Lemma resumes_nil : Outbox.resumes ([] : list Entry) = 0%nat.
Proof. done. Qed.
Lemma resumes_cons (e : Entry) es :
  Outbox.resumes (e :: es) = (one (Outbox.resume_read e) + Outbox.resumes es)%nat.
Proof. unfold Outbox.resumes. rewrite filter_cons. by destruct e as [m []]. Qed.

Definition responding (r : Reactor) : nat :=
  (Outbox.resumes (outbox r) + one (flying r && active_response r) + one (resume_read_when_idle r))%nat.
Definition weight (r : Reactor) : nat := (reads r + responding r)%nat.

Definition is_consume (k : nat) (t : Task) : bool :=
  match t with ConsumeTask k' _ _ _ => (k' =? k)%nat | DetachTask _ _ => false end.
Definition consumes (k : nat) (q : list Task) : nat := length (filter (fun t => is_consume k t = true) q).
#[local] Arguments consumes : simpl never.

Lemma consumes_nil k : consumes k [] = 0%nat.
Proof. done. Qed.

Lemma consumes_app k q q' : consumes k (q ++ q') = (consumes k q + consumes k q')%nat.
Proof. unfold consumes. by rewrite filter_app, length_app. Qed.

Lemma consumes_cons k t q : consumes k (t :: q) = (one (is_consume k t) + consumes k q)%nat.
Proof. unfold consumes. rewrite filter_cons. by destruct (is_consume k t). Qed.

Definition delivers (k : nat) (d : option (nat * RemoteComponentResult)) : nat :=
  match d with Some (k', _) => one (k' =? k)%nat | None => 0%nat end.
#[local] Arguments delivers : simpl never.

Lemma delivers_none k : delivers k None = 0%nat.
Proof. done. Qed.

(** Nothing is left to write when no write is in flight. *)
Definition quiet (r : Reactor) : Prop :=
  live r -> flying r = false -> outbox r = [] /\ resume_read_when_idle r = false.

(** The effect of a call on the tokens: [a] leave the reactor, [b] enter it. *)
Record moves (a b : nat) (r r' : Reactor) : Prop := mkMoves {
  mv_weight : (a + weight r' <= b + weight r)%nat;
  mv_live : live r' -> live r;
  mv_exact : live r' -> (a + weight r' = b + weight r)%nat;
  mv_quiet : quiet r -> quiet r';
}.

Lemma live_not_terminated r : live r -> DeferredFinish.termination_requested (write_finish r) = false.
Proof. intros (H1 & H2 & _). unfold DeferredFinish.termination_requested. by rewrite H1, H2. Qed.

Lemma terminated_not_live r : DeferredFinish.termination_requested (write_finish r) = true -> ~ live r.
Proof. intros H Hl. by rewrite live_not_terminated in H. Qed.

Lemma moves_dead a b r r' : ~ live r' -> (a + weight r' <= b + weight r)%nat -> moves a b r r'.
Proof. intros Hl Hw. split; [done|by intros ?|by intros ?|]. by intros _ ?. Qed.

Lemma moves_refl r : moves 0 0 r r.
Proof. by split. Qed.

Lemma moves_trans a b r1 r2 r3 : moves 0 0 r1 r2 -> moves a b r2 r3 -> moves a b r1 r3.
Proof.
  intros [W1 L1 E1 Q1] [W2 L2 E2 Q2]. split; [lia|auto| |auto].
  intros Hl. specialize (E2 Hl). specialize (E1 (L2 Hl)). lia.
Qed.

(** *** Ending *)

Lemma finish_if_ready_same r :
  let r' := (finish_if_ready r).1 in
  outbox r' = outbox r /\ resume_read_when_idle r' = resume_read_when_idle r /\ reads r' = reads r
  /\ active_response r' = active_response r /\ flying r' = flying r
  /\ DeferredFinish.terminal_status (write_finish r') = DeferredFinish.terminal_status (write_finish r)
  /\ (DeferredFinish.finish_started (write_finish r) = true ->
      DeferredFinish.finish_started (write_finish r') = true)
  /\ session_id r' = session_id r /\ session_generation r' = session_generation r
  /\ detach_requested r' = detach_requested r /\ (gate r' = Gate.Done <-> gate r = Gate.Done)
  /\ finish_after_responses r' = finish_after_responses r /\ reply r' = reply r.
Proof.
  unfold finish_if_ready, DeferredFinish.take_finish_status, flying. destruct (_ || _) eqn:E.
  { cbn. by split_and!. }
  apply orb_false_iff in E as [[E _]%orb_false_iff _].
  destruct (DeferredFinish.terminal_status (write_finish r)) eqn:Et; cbn;
    [case_bool_decide; cbn; rewrite ?Et; split_and!; try done; split; congruence|by split_and!].
Qed.

Lemma request_finish_ends st r : ~ live (request_finish st r).
Proof.
  intros (H1 & H2 & _). unfold request_finish in *.
  set (r1 := set_write_finish _ _) in *.
  destruct (finish_if_ready_same r1) as (_ & _ & _ & _ & _ & E1 & E2 & _).
  rewrite E1 in H1. unfold r1 in H1. cbn in H1. unfold DeferredFinish.request_finish in H1.
  destruct (_ && _) eqn:Eg; [done|]. cbn in H1. rewrite H1 in Eg.
  cbn in Eg. bool_to_prop. rewrite E2 in H2; [done|]. unfold r1. cbn.
  unfold DeferredFinish.request_finish. rewrite H1, Eg. by cbn.
Qed.

Lemma request_finish_flying st r : flying (request_finish st r) = flying r.
Proof.
  unfold request_finish. set (r1 := set_write_finish _ _).
  destruct (finish_if_ready_same r1) as (_ & _ & _ & _ & -> & _). unfold r1, flying. cbn.
  unfold DeferredFinish.request_finish. by destruct (_ && _).
Qed.

Lemma request_finish_weight st r : (weight (request_finish st r) <= weight r)%nat.
Proof.
  unfold weight, responding. rewrite request_finish_flying. unfold request_finish.
  set (r1 := set_write_finish _ _).
  destruct (finish_if_ready_same r1) as (-> & -> & -> & -> & _). unfold r1. cbn. rewrite resumes_nil. lia.
Qed.

Lemma request_finish_moves st r : moves 0 0 r (request_finish st r).
Proof. apply moves_dead; [apply request_finish_ends|]. pose proof (request_finish_weight st r). lia. Qed.

(** *** Writing *)

Lemma start_write_moves e r :
  flying r = false -> moves 0 (one (Outbox.resume_read e)) r (start_write e r).
Proof.
  intros Hf. unfold start_write. unfold DeferredFinish.try_start_write. cbn. fold (flying r).
  rewrite Hf. cbn. destruct (_ || _) eqn:Et; cbn.
  - apply moves_dead.
    + intros (H1 & H2 & _). cbn in H1, H2. by rewrite H1, H2 in Et.
    + unfold weight, responding, flying in *. cbn. rewrite Hf. cbn. lia.
  - apply orb_false_iff in Et as [Et Es]. bool_to_prop. rewrite <- eq_None_not_Some in Et.
    split.
    + unfold weight, responding, flying in *. cbn. rewrite Hf. destruct (Outbox.resume_read e); cbn; lia.
    + intros (? & ? & ?). by split_and!.
    + intros _. unfold weight, responding, flying in *. cbn. rewrite Hf.
      destruct (Outbox.resume_read e); cbn; lia.
    + intros _ _ Hf'. unfold flying in Hf'. done.
Qed.

Lemma push_delta_resumes m (es : list Entry) : Outbox.resumes (Outbox.push_delta m es) = Outbox.resumes es.
Proof.
  destruct (Outbox.push_delta_cases m es) as [[-> _]|(pre & d & t & x & _ & -> & ->)];
    rewrite !Outbox.resumes_app, !resumes_cons, ?resumes_nil; cbn; lia.
Qed.

Lemma set_outbox_moves b es r :
  flying r = true -> Outbox.resumes es = (b + Outbox.resumes (outbox r))%nat -> moves 0 b r (set_outbox es r).
Proof.
  intros Hf He. assert (Hw : (weight (set_outbox es r) = b + weight r)%nat).
  { unfold weight, responding. cbn. rewrite He. unfold flying. cbn. lia. }
  split; [lia|done|lia|]. intros _ _ Hf'. unfold flying in *. cbn in Hf'. congruence.
Qed.

Lemma offer_delta_moves m r : moves 0 0 r (offer_delta m r).
Proof.
  unfold offer_delta. destruct (DeferredFinish.termination_requested _); [apply moves_refl|].
  fold (flying r). destruct (flying r) eqn:Ef.
  - apply set_outbox_moves; [done|]. by rewrite push_delta_resumes.
  - by apply (start_write_moves (mkEntry m false)).
Qed.

Lemma offer_response_moves m r : moves 0 1 r (offer_response m r).
Proof.
  unfold offer_response. destruct (DeferredFinish.termination_requested _) eqn:Et.
  - apply moves_dead; [by apply terminated_not_live|]. lia.
  - fold (flying r). destruct (flying r) eqn:Ef.
    + apply set_outbox_moves; [done|]. unfold Outbox.push_response. rewrite Outbox.resumes_app, resumes_cons, resumes_nil. cbn. lia.
    + by apply (start_write_moves (mkEntry m true)).
Qed.

Lemma complete_write_flying ok (d : Deferred) :
  DeferredFinish.write_in_flight (DeferredFinish.complete_write (Code OK) ok d) = false.
Proof. done. Qed.

Lemma on_write_done_moves ok r :
  flying r = true -> (weight r <= 1)%nat -> moves 0 0 r (on_write_done ok r).
Proof.
  intros Hf Hone. unfold on_write_done.
  set (r0 := if ok then set_sent (sent r ++ option_list (reply r)) r else r).
  set (rc := set_write_finish (DeferredFinish.complete_write (Code OK) ok (write_finish r0)) r0).
  pose proof (finish_if_ready_same rc) as (F1 & F2 & F3 & F4 & F5 & F6 & F7 & _).
  destruct (finish_if_ready rc) as [r1 finishing] eqn:Efin. cbn [fst] in *.
  assert (Hrc : outbox rc = outbox r /\ resume_read_when_idle rc = resume_read_when_idle r
    /\ reads rc = reads r /\ active_response rc = active_response r /\ flying rc = false)
    by (unfold rc, r0; by destruct ok).
  destruct Hrc as (C1 & C2 & C3 & C4 & C5). rewrite C1 in F1. rewrite C2 in F2. rewrite C3 in F3.
  rewrite C4 in F4. rewrite C5 in F5.
  assert (Hw1 : (weight r1 + one (active_response r) = weight r)%nat).
  { unfold weight, responding. rewrite F1, F2, F3, F4, F5, Hf. cbn. lia. }
  destruct (finishing || negb ok) eqn:Eg.
  { apply moves_dead; [|lia]. intros (H1 & H2 & H3). rewrite F6 in H1.
    apply orb_true_iff in Eg as [-> | Eg].
    - unfold finish_if_ready in Efin. destruct (DeferredFinish.take_finish_status _) as [d [s|]] eqn:Et;
        [|done]. unfold DeferredFinish.take_finish_status in Et. destruct (_ || _); [done|].
      injection Et as <- Et. pose proof (eq_trans (eq_sym Et) H1). done.
    - destruct ok; [done|]. unfold rc, r0 in H1. cbn in H1.
      by destruct (DeferredFinish.terminal_status (write_finish r)). }
  apply orb_false_iff in Eg as [-> Eg]. destruct ok; [|done].
  assert (Hlive : live r1 -> live r).
  { intros (H1 & H2 & H3). rewrite F6 in H1. unfold finish_if_ready in Efin.
    destruct (DeferredFinish.take_finish_status _) as [d [s|]] eqn:Et; [done|].
    unfold DeferredFinish.take_finish_status in Et. destruct (_ || _).
    - injection Et as <-. injection Efin as <-. by split_and!.
    - injection Et as <- Et. injection Efin as <-. by split_and!. }
  clear Efin F7.
  set (r2 := if active_response r1 then set_resume_read_when_idle true r1 else r1).
  assert (Hf2 : flying r2 = false) by (unfold r2; by destruct (active_response r1)).
  assert (Hl2 : live r2 -> live r) by (unfold r2; destruct (active_response r1); intros ?; by apply Hlive).
  assert (Hw2 : weight r2 = weight r).
  { unfold r2. rewrite F4. destruct (active_response r) eqn:Ea; cbn in Hw1; [|lia].
    unfold weight, responding, flying in *. cbn. rewrite F1, F2, F3, F4, F5 in *. rewrite Hf in *.
    cbn in *. destruct (resume_read_when_idle r); cbn in *; lia. }
  clearbody r2. clear - Hf2 Hl2 Hw2.
  destruct (Outbox.pop_front (outbox r2)) as [[e rest]|] eqn:Ep.
  - destruct (outbox r2) as [|e' rest'] eqn:Eo; [done|]. injection Ep as -> ->.
    destruct (start_write_moves e (set_outbox rest r2) Hf2) as [M1 M2 M3 M4].
    assert (Hw3 : (one (Outbox.resume_read e) + weight (set_outbox rest r2) = weight r)%nat).
    { rewrite <- Hw2. unfold weight, responding. rewrite Eo. cbn. unfold flying. cbn.
      rewrite resumes_cons. lia. }
    split; [lia| | |].
    + intros Hl. apply Hl2. apply (M2 Hl).
    + intros Hl. specialize (M3 Hl). lia.
    + intros _ Hl Hfl. exfalso. unfold start_write, DeferredFinish.try_start_write in *. cbn in *.
      fold (flying r2) in *. rewrite Hf2 in *. cbn in *. destruct (_ || _) eqn:Et; [|done].
      destruct Hl as (H1 & H2 & _). cbn in H1, H2. by rewrite H1, H2 in Et.
  - destruct (outbox r2) eqn:Eo; [|done]. destruct (finish_after_responses r2).
    { apply moves_dead; [apply request_finish_ends|]. pose proof (request_finish_weight (Code OK) r2). lia. }
    destruct (resume_read_when_idle r2) eqn:Er.
    + assert (Hw3 : weight (start_read (set_resume_read_when_idle false r2)) = weight r).
      { rewrite <- Hw2. unfold weight, responding, flying. cbn. rewrite Er. cbn. lia. }
      split; [lia|intros Hl; by apply Hl2|lia|]. intros _ _ _. by split.
    + split; [lia|done|lia|]. by intros _ _ _.
Qed.

(** *** Reading and delivering *)

Lemma detach_moves r : moves 0 0 r (detach_transport r).1.
Proof. unfold detach_transport. destruct (_ || _); apply moves_refl || by split. Qed.

Lemma detach_tasks k r : consumes k (detach_transport r).2 = 0%nat.
Proof. unfold detach_transport. by destruct (_ || _). Qed.

Lemma read_done_moves k ok request full r :
  let rt := read_done k ok request full r in moves (consumes k rt.2) 1 r rt.1 /\ forall k', k' <> k -> consumes k' rt.2 = 0%nat.
Proof.
  unfold read_done. destruct (DeferredFinish.termination_requested _) eqn:Et.
  { split; [|done]. apply moves_dead; [by apply terminated_not_live|]. cbn. rewrite consumes_nil. lia. }
  destruct ok; cbn [negb].
  - destruct full; cbn.
    + split; [|done]. apply moves_dead; [apply request_finish_ends|].
      pose proof (request_finish_weight (Code RESOURCE_EXHAUSTED) (set_received_first_message true r)) as W.
      cbn. rewrite consumes_nil. change (weight (set_received_first_message true r)) with (weight r) in W. lia.
    + split.
      * unfold consumes. cbn. rewrite Nat.eqb_refl. cbn. by split.
      * intros k' Hne. unfold consumes. cbn. rewrite (proj2 (Nat.eqb_neq k k')) by done. done.
  - pose proof (detach_moves r) as M. pose proof (detach_tasks k r) as T.
    assert (T' : forall k', consumes k' (detach_transport r).2 = 0%nat) by (intros; apply detach_tasks).
    destruct (detach_transport r) as [r1 tasks]. cbn [fst snd] in *. split; [|done].
    rewrite T. apply moves_dead; [apply request_finish_ends|].
    pose proof (request_finish_weight (Code OK) r1). pose proof (mv_weight _ _ _ _ M). lia.
Qed.

Lemma start_read_moves r : moves 0 1 r (start_read r).
Proof.
  split; unfold weight, responding, flying in *; cbn; try done; try lia.
Qed.

Lemma deliver_moves k res r :
  let rt := deliver res r in moves 0 1 r rt.1 /\ consumes k rt.2 = 0%nat.
Proof.
  unfold deliver. destruct (negb _).
  - pose proof (detach_moves r) as M. pose proof (detach_tasks k r) as T.
    destruct (detach_transport r) as [r1 tasks]. cbn [fst snd] in *. split; [|done].
    apply moves_dead; [apply request_finish_ends|].
    pose proof (request_finish_weight (Code (status res)) r1). pose proof (mv_weight _ _ _ _ M). lia.
  - set (r1 := if bool_decide _ then r else _).
    assert (M1 : moves 0 0 r r1) by (unfold r1; case_bool_decide; [apply moves_refl|by split]).
    clearbody r1. destruct (response res) as [m|]; cbn [fst snd].
    + split; [|done]. pose proof (offer_response_moves (Outbox.OtherMessage m) r1) as M2.
      eapply moves_trans; [done|]. destruct (close_stream res); [|done]. destruct M2. by split.
    + split; [|done]. eapply moves_trans; [done|]. destruct (close_stream res).
      * apply moves_dead; [apply request_finish_ends|]. pose proof (request_finish_weight (Code OK) r1). lia.
      * destruct (DeferredFinish.termination_requested _) eqn:Et; cbn [negb].
        -- apply moves_dead; [by apply terminated_not_live|]. lia.
        -- apply start_read_moves.
Qed.

Lemma tick_moves now r : moves 0 0 r (tick now r).
Proof. unfold tick. destruct (_ && _); [apply request_finish_moves|apply moves_refl]. Qed.

Lemma heartbeat_timeout_moves gen r : moves 0 0 r (heartbeat_timeout gen r).
Proof.
  unfold heartbeat_timeout. destruct (_ =? _); [|apply moves_refl].
  eapply moves_trans; [|apply request_finish_moves]. by split.
Qed.

Lemma ended_moves (f : Reactor -> Reactor * list Task) r st :
  moves 0 0 r (f r).1 -> moves 0 0 r (request_finish st (f r).1).
Proof. intros. eapply moves_trans; [done|]. apply request_finish_moves. Qed.

(** *** The tokens of all streams *)

Definition tokens (k : nat) (w : World) (r : Reactor) : nat :=
  (weight r + consumes k (queue w) + delivers k (delivering w))%nat.

Record tokens_ok (w : World) : Prop := mkTokens {
  tok_one : forall k r, reactors w !! k = Some r ->
    (tokens k w r <= 1)%nat /\ (live r -> tokens k w r = 1%nat) /\ quiet r;
  tok_none : forall k, reactors w !! k = None ->
    consumes k (queue w) = 0%nat /\ delivers k (delivering w) = 0%nat;
}.

(** *** The answer of the executor *)

Lemma taken_nil w : taken w [] = [].
Proof. unfold taken. by destruct (submit_impl true w). Qed.

Lemma lost_nil w : lost w [] = [].
Proof. unfold lost. by destruct (submit_impl true w). Qed.

Lemma taken_elem w t ts : t ∈ taken w ts -> t ∈ ts.
Proof. unfold taken. destruct (submit_impl true w); [done|]. by intros [_ ?]%list_elem_of_filter. Qed.

Lemma taken_or_lost w t ts : t ∈ ts -> t ∈ taken w ts \/ t ∈ lost w ts.
Proof.
  intros Hin. unfold taken, lost. destruct (submit_impl true w); [by left|].
  destruct (is_cleanup t) eqn:E; [right|left]; by apply list_elem_of_filter.
Qed.

(** No message is lost: only the answer to [submit_cleanup] is ignored. *)
Lemma consumes_taken k w ts : consumes k (taken w ts) = consumes k ts.
Proof.
  unfold taken. destruct (submit_impl true w); [done|].
  induction ts as [|[k' proxy gen request|proxy gen] ts IH]; [done|..].
  - by rewrite filter_cons_True, !consumes_cons, IH.
  - by rewrite filter_cons_False, consumes_cons, IH.
Qed.

(** A call on one reactor. *)
Lemma tokens_put w k r r' ts :
  tokens_ok w -> reactors w !! k = Some r -> moves (consumes k ts) 0 r r' ->
  (forall k', k' <> k -> consumes k' ts = 0%nat) -> tokens_ok (put k (r', ts) w).
Proof.
  intros [T1 T2] Hr [M1 M2 M3 M4] Hts. split; cbn.
  - intros k' x. destruct (decide (k' = k)) as [->|Hne].
    + rewrite lookup_insert_eq. intros [= <-]. destruct (T1 k r Hr) as (H1 & H2 & H3).
      unfold tokens in *. cbn. rewrite consumes_app, consumes_taken. split_and!; [lia| |auto].
      intros Hl. specialize (M3 Hl). specialize (H2 (M2 Hl)). lia.
    + rewrite lookup_insert_ne by done. intros Hx. unfold tokens. cbn.
      rewrite consumes_app, consumes_taken, Hts, Nat.add_0_r by done. by apply T1.
  - intros k' Hk'. apply lookup_insert_None in Hk' as [Hk' Hne]. rewrite consumes_app, consumes_taken, Hts by done.
    destruct (T2 k' Hk'). lia.
Qed.

Lemma tokens_invoke w k f :
  tokens_ok w -> (forall r, reactors w !! k = Some r -> moves 0 0 r (f r).1 /\ forall k', consumes k' (f r).2 = 0%nat) ->
  tokens_ok (invoke k f w).
Proof.
  intros Hw Hf. unfold invoke. destruct (reactors w !! k) as [r|] eqn:Er; [|done].
  destruct (open_gate r); [|done]. destruct (Hf r eq_refl) as [H1 H2].
  destruct (f r) as [r' ts]. cbn in *. eapply tokens_put; [done..| |auto]. by rewrite H2.
Qed.

Lemma tokens_same w w' :
  tokens_ok w -> reactors w' = reactors w -> queue w' = queue w -> delivering w' = delivering w -> tokens_ok w'.
Proof. intros [T1 T2] Hr Hq Hd. unfold tokens in T1. split; unfold tokens; rewrite Hr, Hq, Hd; done. Qed.

Lemma tokens_dispatch w e : tokens_ok w -> tokens_ok (dispatch w e).
Proof.
  intros Hw. destruct e as [k id m|k id gen]; cbn; apply tokens_invoke; try done; intros r _; cbn.
  - split; [apply offer_delta_moves|done].
  - split; [apply heartbeat_timeout_moves|done].
Qed.

Lemma tokens_construct w k registered adm now :
  tokens_ok w -> reactors w !! k = None -> tokens_ok (put k (construct registered adm now).1 w).
Proof.
  intros [T1 T2] Hk. destruct (T2 k Hk) as [C1 C2].
  set (r := mkReactor adm false false false false false (now + 5000) EmptyString 0 None []
             DeferredFinish.make Gate.Open 0 None []).
  assert (Hc : (construct registered adm now).1.2 = []
    /\ (weight (construct registered adm now).1.1 <= 1)%nat
    /\ (live (construct registered adm now).1.1 -> weight (construct registered adm now).1.1 = 1%nat)
    /\ quiet (construct registered adm now).1.1).
  { unfold construct. fold r. destruct registered; cbn [negb]; [destruct adm; cbn [negb fst snd]|].
    - done.
    - split_and!; [done| |by intros ?%request_finish_ends|by intros ?%request_finish_ends].
      pose proof (request_finish_weight (Code RESOURCE_EXHAUSTED) r) as W.
      change (weight r) with 0%nat in W. lia.
    - unfold shutdown, detach_transport. cbn [detach_requested session_id r].
      rewrite bool_decide_eq_true_2 by done. cbn [orb fst snd].
      split_and!; [done| |by intros ?%request_finish_ends|by intros ?%request_finish_ends].
      pose proof (request_finish_weight UNAVAILABLE r) as W.
      change (weight r) with 0%nat in W. lia. }
  destruct (construct registered adm now) as [[r' ts] listed]. cbn in Hc. destruct Hc as (-> & H1 & H2 & H3).
  split; cbn.
  - intros k' x. destruct (decide (k' = k)) as [->|Hne].
    + rewrite lookup_insert_eq. intros [= <-]. unfold tokens. cbn. rewrite taken_nil, app_nil_r, C1, C2.
      split_and!; [lia| |done]. intros Hl. rewrite H2; [done|exact Hl].
    + rewrite lookup_insert_ne by done. intros Hx. unfold tokens. cbn. rewrite taken_nil, app_nil_r. by apply T1.
  - intros k' Hk'. apply lookup_insert_None in Hk' as [Hk' _].
    rewrite taken_nil, app_nil_r. by apply T2.
Qed.

Lemma on_cancel_moves r : moves 0 0 r (on_cancel r).1 /\ forall k, consumes k (on_cancel r).2 = 0%nat.
Proof.
  unfold on_cancel. pose proof (detach_moves r) as M. pose proof (fun k => detach_tasks k r) as T.
  destruct (detach_transport r) as [r1 ts]. cbn in *. split; [|done].
  eapply moves_trans; [done|]. apply request_finish_moves.
Qed.

Lemma shutdown_moves r : moves 0 0 r (shutdown r).1 /\ forall k, consumes k (shutdown r).2 = 0%nat.
Proof.
  unfold shutdown. pose proof (detach_moves r) as M. pose proof (fun k => detach_tasks k r) as T.
  destruct (detach_transport r) as [r1 ts]. cbn in *. split; [|done].
  eapply moves_trans; [done|]. apply request_finish_moves.
Qed.

Lemma on_done_moves r : moves 0 0 r (on_done r).1 /\ forall k, consumes k (on_done r).2 = 0%nat.
Proof.
  unfold on_done. split; [|intros; apply detach_tasks].
  eapply moves_trans; [|apply detach_moves]. apply moves_dead; [by intros (_ & _ & ?)|].
  unfold weight, responding, flying. cbn. lia.
Qed.

Lemma fold_preserves {A} (f : World -> A -> World) (l : list A) w :
  (forall w a, tokens_ok w -> tokens_ok (f w a)) -> tokens_ok w -> tokens_ok (foldl f w l).
Proof. intros Hf Hw. by apply foldl_preserves. Qed.

Lemma tokens_read_done w k r ok request full :
  tokens_ok w -> reactors w !! k = Some r -> reads r <> 0%nat ->
  tokens_ok (let r1 := set_reads (pred (reads r)) r in
             if open_gate r1 then put k (read_done k ok request full r1) w else put k (r1, []) w).
Proof.
  intros Hw Hr Hreads. cbn zeta. set (r1 := set_reads (pred (reads r)) r).
  assert (Hw1 : (1 + weight r1 = weight r)%nat) by (unfold r1, weight, responding, flying; cbn; lia).
  destruct (open_gate r1) eqn:Eo.
  - destruct (read_done_moves k ok request full r1) as [[M1 M2 M3 M4] Hts].
    destruct (read_done k ok request full r1) as [r2 ts]. cbn in *.
    eapply tokens_put; [done..| |done]. split; [lia|done| |].
    + intros Hl. specialize (M3 Hl). lia.
    + intros Hq. apply M4. exact Hq.
  - eapply tokens_put; [done..| |done]. apply moves_dead; [|rewrite consumes_nil; lia].
    intros (_ & _ & Hg). unfold open_gate in Eo. by rewrite Hg in Eo.
Qed.

Lemma tokens_step w s : tokens_ok w -> tokens_ok (step w s).
Proof.
  intros Hw. destruct s as [k registered adm now|k ok request|k ok|k|k|k|now|h id token now| |o c a st|now|id sfx v|]; cbn.
  - destruct (reactors w !! k) eqn:Ek; [done|]. pose proof (tokens_construct w k registered adm now Hw Ek) as T.
    destruct (construct registered adm now) as [rt listed]. by eapply tokens_same.
  - destruct (reactors w !! k) as [r|] eqn:Ek; [|done]. destruct (reads r =? 0)%nat eqn:Ez; [done|].
    apply Nat.eqb_neq in Ez. by apply tokens_read_done.
  - destruct (reactors w !! k) as [r|] eqn:Ek; [|done].
    destruct (DeferredFinish.write_in_flight (write_finish r)) eqn:Ef; [|done].
    apply tokens_invoke; [done|]. intros r0 Hr0. rewrite Ek in Hr0. injection Hr0 as <-. split; [|done].
    apply on_write_done_moves; [done|]. destruct (tok_one _ Hw k r Ek) as [H _]. unfold tokens in H. lia.
  - apply tokens_invoke; [done|]. intros r _. apply on_cancel_moves.
  - apply tokens_invoke; [done|]. intros r _. apply shutdown_moves.
  - destruct (reactors w !! k) as [r|] eqn:Ek; [|done]. destruct (_ && _); [|done].
    destruct (on_done_moves r) as [M T]. destruct (on_done r) as [r1 ts]. cbn in *.
    eapply tokens_put; [done..| |done]. by rewrite T.
  - apply fold_preserves; [|by eapply tokens_same]. intros w' k Hw'. apply tokens_invoke; [done|].
    intros r _. cbn. split; [apply tick_moves|done].
  - destruct (busy w) eqn:Eb; [done|]. unfold busy in Eb. bool_to_prop. rewrite <- eq_None_not_Some in Eb.
    destruct (queue w) as [|[k proxy gen request|proxy gen] rest] eqn:Eq; [done| |].
    + destruct (_ || _); [done|]. destruct (consume _ _ _ _ _ _ _ _ _) as [g res].
      destruct Hw as [T1 T2]. split; cbn.
      * intros k' r Hr. specialize (T1 k' r Hr). unfold tokens in *. cbn. rewrite Eq, Eb, consumes_cons in T1.
        unfold delivers in *. cbn in T1. rewrite Nat.add_0_r in T1. by replace (weight r + consumes k' rest + one (k =? k')%nat)%nat
          with (weight r + (one (k =? k')%nat + consumes k' rest))%nat by lia.
      * intros k' Hk'. specialize (T2 k' Hk'). rewrite Eq, consumes_cons in T2.
        unfold delivers. cbn in T2. lia.
    + destruct Hw as [T1 T2]. split; cbn.
      * intros k' r Hr. specialize (T1 k' r Hr). unfold tokens in *. cbn. by rewrite Eq, Eb, consumes_cons in T1.
      * intros k' Hk'. specialize (T2 k' Hk'). by rewrite Eq, consumes_cons, Eb in T2.
  - destruct (delivering w) as [[k res]|] eqn:Ed; [|done].
    assert (Hne : forall k', k' <> k -> delivers k' (Some (k, res)) = 0%nat).
    { intros k' Hne. unfold delivers. by rewrite (proj2 (Nat.eqb_neq k k')) by done. }
    assert (Hk : delivers k (Some (k, res)) = 1%nat) by (unfold delivers; by rewrite Nat.eqb_refl).
    destruct (reactors w !! k) as [r|] eqn:Ek.
    2: { destruct (tok_none _ Hw k Ek) as [_ H]. rewrite Ed in H. lia. }
    destruct (open_gate r) eqn:Eo.
    + unfold invoke. cbn. rewrite Ek, Eo. destruct (deliver_moves k res r) as [[M1 M2 M3 M4] Hts].
      assert (Hts' : forall k', consumes k' (deliver res r).2 = 0%nat) by (intros; apply deliver_moves).
      destruct (deliver res r) as [r' ts]. cbn in *. destruct Hw as [T1 T2]. split; cbn.
      * intros k' x. destruct (decide (k' = k)) as [->|Hn].
        -- rewrite lookup_insert_eq. intros [= <-]. destruct (T1 k r Ek) as (H1 & H2 & H3).
           unfold tokens in *. cbn. rewrite Ed, Hk in *. rewrite consumes_app, consumes_taken, Hts, delivers_none.
           split_and!; [lia| |auto]. intros Hl. specialize (M3 Hl). specialize (H2 (M2 Hl)). lia.
        -- rewrite lookup_insert_ne by done. intros Hx. specialize (T1 k' x Hx). unfold tokens in *. cbn.
           rewrite Ed, Hne in T1 by done. by rewrite consumes_app, consumes_taken, Hts', delivers_none, (Nat.add_0_r (consumes _ _)).
      * intros k' Hk'. apply lookup_insert_None in Hk' as [Hk' _]. destruct (T2 k' Hk').
        by rewrite consumes_app, consumes_taken, Hts', Nat.add_0_r.
    + assert (Hnl : ~ live r) by (intros (_ & _ & Hg); unfold open_gate in Eo; by rewrite Hg in Eo).
      assert (T : tokens_ok (mkWorld (registry w) (reactors w) (streams w) (queue w) None (worker w) (refused w))).
      { destruct Hw as [T1 T2]. split; cbn.
        - intros k' x Hx. specialize (T1 k' x Hx). unfold tokens in *. cbn. rewrite Ed in T1.
          destruct (decide (k' = k)) as [->|Hn].
          + rewrite Ek in Hx. injection Hx as <-. destruct T1 as (H1 & _ & H3). rewrite Hk, ?delivers_none in *. split_and!; [lia|by intros ?|done].
          + by rewrite Hne in T1.
        - intros k' Hk'. destruct (T2 k' Hk'). done. }
      case_bool_decide; [done|]. by eapply tokens_same.
  - by eapply tokens_same.
  - destruct (busy w); [done|]. apply fold_preserves; [intros; by apply tokens_dispatch|]. by eapply tokens_same.
  - by eapply tokens_same.
  - destruct (busy w); [done|]. by eapply tokens_same.
Qed.

Lemma tokens_start cfg limit items x : tokens_ok (start cfg limit items x).
Proof. by split. Qed.

Lemma tokens_run w steps : tokens_ok w -> tokens_ok (run steps w).
Proof. intros Hw. unfold run. apply foldl_preserves; [intros; by apply tokens_step|done]. Qed.

(** Every component stream takes its messages strictly in turn.  Whatever the order
    of callbacks, worker tasks, deltas and endings, at most one read is outstanding;
    while it is, no message of the stream is queued or being consumed and no response
    is queued or being written; and a stream that can go on and has nothing to write,
    to consume or to deliver is always reading, so no session gets stuck. *)
Theorem session_reads_in_turn (cfg : Config) (limit items : nat) (x : Worker) (steps : list Step) (k : nat) (r : Reactor) :
  let w := run steps (start cfg limit items x) in
  reactors w !! k = Some r ->
  (reads r <= 1)%nat
  /\ (reads r = 1%nat -> consumes k (queue w) = 0%nat /\ delivers k (delivering w) = 0%nat
      /\ Outbox.resumes (outbox r) = 0%nat /\ flying r && active_response r = false)
  /\ (live r -> flying r = false -> consumes k (queue w) = 0%nat -> delivers k (delivering w) = 0%nat ->
      reads r = 1%nat).
Proof.
  intros w Hr. pose proof (tokens_run _ steps (tokens_start cfg limit items x)) as Hw. fold w in Hw.
  destruct (tok_one _ Hw k r Hr) as (H1 & H2 & H3). unfold tokens, weight, responding in *.
  split_and!; [lia| |].
  - intros Hreads. destruct (flying r && active_response r); cbn [one] in *; split_and!; lia || done.
  - intros Hl Hf Hc Hd. destruct (H3 Hl Hf) as [Ho Hfl]. specialize (H2 Hl).
    rewrite Ho, Hfl, Hf, Hc, Hd, resumes_nil in H2. cbn in H2. lia.
Qed.

(** ** Attachments and their streams *)

(** [k] is the live stream of an attachment, or its detachment is queued. *)
Definition held (w : World) (id : string) (gen : Z) (k : nat) : Prop :=
  exists r, reactors w !! k = Some r /\ session_id r = id /\ session_generation r = gen
    /\ ((gate r <> Gate.Done /\ detach_requested r = false) \/ DetachTask id gen ∈ queue w
        \/ DetachTask id gen ∈ refused w).

(** The attachment was made by the message whose result is on its way to [k]. *)
Definition arriving (w : World) (id : string) (gen : Z) (k : nat) : Prop :=
  exists res r, delivering w = Some (k, res) /\ status res = OK /\ close_stream res = false
    /\ proxy_id res = id /\ result_generation res = gen
    /\ reactors w !! k = Some r /\ session_id r = EmptyString /\ detach_requested r = false.

Record attached_ok (w : World) : Prop := mkAttached {
  att_held : forall id p, proxies (registry w) !! id = Some p -> attached p = true ->
    exists k, callbacks p = Some k /\ (held w id (generation p) k \/ arriving w id (generation p) k);
  att_ids : proxies (registry w) !! EmptyString = None;
  att_fresh : forall k r, reactors w !! k = Some r -> session_id r = EmptyString -> detach_requested r = false;
  att_tasks : forall k proxy gen request, ConsumeTask k proxy gen request ∈ queue w ->
    exists r, reactors w !! k = Some r /\ session_id r = proxy /\ session_generation r = gen;
  att_result : forall k res, delivering w = Some (k, res) -> exists r, reactors w !! k = Some r
    /\ (status res = OK -> session_id r <> EmptyString ->
         proxy_id res = session_id r /\ result_generation res = session_generation r)
    /\ (close_stream res = true -> forall p, proxies (registry w) !! proxy_id res = Some p -> attached p = false)
    /\ (status res = OK -> proxy_id res <> EmptyString);
}.

(** What [consume] does to the attachments. *)
Record consumed (k : nat) (aid : string) (gen : Z) (g g' : RemoteComponentRegistry)
    (res : RemoteComponentResult) : Prop := mkConsumed {
  con_attached : forall i p', proxies g' !! i = Some p' -> attached p' = true ->
    (exists p, proxies g !! i = Some p /\ attached p = true /\ generation p' = generation p
       /\ callbacks p' = callbacks p)
    \/ (aid = EmptyString /\ status res = OK /\ close_stream res = false /\ proxy_id res = i
        /\ result_generation res = generation p' /\ callbacks p' = Some k);
  con_ids : proxies g' !! EmptyString = None;
  con_session : status res = OK -> aid <> EmptyString ->
    proxy_id res = aid /\ result_generation res = gen;
  con_closed : close_stream res = true -> forall p, proxies g' !! proxy_id res = Some p -> attached p = false;
  con_named : status res = OK -> proxy_id res <> EmptyString;
}.

Lemma consumed_refused k aid gen g st id x :
  st <> OK -> proxies g !! EmptyString = None -> consumed k aid gen g g (mkResult st None id x false).
Proof.
  intros Hst Hids. split; try done. intros i p' Hp Ha. left. eauto.
Qed.

(** Replacing a proxy by one with the same attachment, or a detached one. *)
Lemma consumed_insert k aid gen g g' res id p q :
  proxies g !! id = Some p -> proxies g !! EmptyString = None ->
  proxies g' = <[id := q]> (proxies g) ->
  (attached q = true -> attached p = true /\ generation q = generation p /\ callbacks q = callbacks p) ->
  (status res = OK -> id = aid /\ proxy_id res = id /\ result_generation res = gen) ->
  (close_stream res = true -> proxy_id res = id /\ attached q = false) -> consumed k aid gen g g' res.
Proof.
  intros Hp Hids Hg Hq Hs Hc.
  assert (Hne : id <> EmptyString) by (intros ->; congruence).
  split; rewrite ?Hg.
  - intros i p' [[<- <-]|[_ Hi]]%lookup_insert_Some Ha; left; [|eauto].
    destruct (Hq Ha) as (? & ? & ?). eauto.
  - by rewrite lookup_insert_ne.
  - intros Hok _. destruct (Hs Hok) as (<- & ? & ?). done.
  - intros Hcl p0. destruct (Hc Hcl) as [-> Hqd]. rewrite lookup_insert_eq. by intros [= <-].
  - intros Hok. destruct (Hs Hok) as (_ & -> & _). done.
Qed.

Lemma message_keeps p :
  (forall now gen values, let q := (activate now gen values p).1 in
     attached q = attached p /\ generation q = generation p /\ callbacks q = callbacks p)
  /\ (forall now gen seq values, let q := (update now gen seq values p).1 in
     attached q = attached p /\ generation q = generation p /\ callbacks q = callbacks p)
  /\ (forall now gen, let q := (heartbeat now gen p).1 in
     attached q = attached p /\ generation q = generation p /\ callbacks q = callbacks p).
Proof.
  split_and!; intros; unfold q, activate, update, heartbeat; repeat case_match; by simplify_eq/=.
Qed.

Lemma message_status (p : Proxy) :
  (forall now gen values st, (activate now gen values p).2 = Err st -> st <> OK)
  /\ (forall now gen seq values st, (update now gen seq values p).2 = Err st -> st <> OK)
  /\ (forall now gen st, (heartbeat now gen p).2 = Err st -> st <> OK).
Proof.
  assert (Hd : forall values complete st, decode_values p values complete = Err st -> st <> OK).
  { intros values complete st E%decode_values_err. by subst. }
  split_and!; intros; unfold activate, update, heartbeat in *; repeat case_match; simplify_eq/=; try done; by eauto.
Qed.

Lemma consume_attached_consumed now aid gen request k g g' res :
  proxies g !! EmptyString = None -> aid <> EmptyString ->
  consume_attached now aid gen request g = (g', res) -> consumed k aid gen g g' res.
Proof.
  intros Hids Haid. unfold consume_attached.
  destruct (proxies g !! aid) as [p|] eqn:Ep; [|intros [= <- <-]; by apply consumed_refused].
  destruct (_ || _) eqn:Eg; [intros [= <- <-]; by apply consumed_refused|]. bool_to_prop.
  destruct (message_keeps p) as (Ka & Ku & Kh). destruct (message_status p) as (Sa & Su & Sh).
  assert (Hfin : forall q res0, attached q = attached p /\ generation q = generation p /\ callbacks q = callbacks p ->
    (forall st, res0 = Err st -> st <> OK) ->
    finish_message aid (q, res0) g = (g', res) -> consumed k aid gen g g' res).
  { intros q res0 (Q1 & Q2 & Q3) Hst. unfold finish_message. intros [= <- <-].
    apply (consumed_insert k aid gen _ _ _ aid p q); try done.
    - destruct res0 as [m|st]; cbn; [intros _; by split_and!; [..|congruence]|].
      intros E. exfalso. by eapply Hst.
    - by destruct res0. }
  destruct request; try (intros [= <- <-]; by apply consumed_refused).
  - specialize (Ka now generation0 values). specialize (Sa now generation0 values).
    destruct (activate now generation0 values p). intros E. eapply Hfin; [exact Ka|exact Sa|exact E].
  - specialize (Ku now generation0 sequence values). specialize (Su now generation0 sequence values).
    destruct (update now generation0 sequence values p). intros E. eapply Hfin; [exact Ku|exact Su|exact E].
  - specialize (Kh now generation0). specialize (Sh now generation0).
    destruct (heartbeat now generation0 p). intros E. eapply Hfin; [exact Kh|exact Sh|exact E].
  - unfold close_proxy. destruct mode; [intros [= <- <-]; by apply consumed_refused|..];
      (destruct (negb _); [intros [= <- <-]; by apply consumed_refused|]); intros [= <- <-].
    + apply (consumed_insert k aid gen _ _ _ aid p (release_proxy p)); try done.
    + split; cbn; try done.
      * intros i p' [_ Hi]%lookup_delete_Some Ha. left. eauto.
      * by rewrite lookup_delete_ne.
      * intros _ p'. by rewrite lookup_delete_eq.
Qed.

Lemma definitions_err m st : definitions m = Err st -> st = INVALID_ARGUMENT.
Proof.
  assert (Hitem : forall is_pin names s e, define_item is_pin names s = Err e -> e = INVALID_ARGUMENT).
  { intros is_pin names s e. unfold define_item. destruct (decode_hal_type _); [|by intros [= <-]].
    destruct (_ || _); [by intros [= <-]|]. destruct (sch_disconnect s); [|done].
    destruct (_ && _); [by intros [= <-]|]. destruct (typed_value _ _); [done|by intros [= <-]]. }
  assert (Hitems : forall is_pin l names e, define_items is_pin names l = Err e -> e = INVALID_ARGUMENT).
  { intros is_pin. induction l as [|s l IH]; intros names e; cbn; [done|].
    destruct (define_item is_pin names s) as [[n d]|e'] eqn:E; cbn; [|intros [= <-]; by eapply Hitem].
    destruct (define_items is_pin n l) as [[n' ds]|e'] eqn:E'; cbn; [done|]. intros [= <-]. by eapply IH. }
  unfold definitions. destruct (define_items true _ _) as [[n ps]|e] eqn:E; cbn; [|intros [= <-]; by eapply Hitems].
  destruct (define_items false _ _) as [[n' qs]|e] eqn:E'; cbn; [done|]. intros [= <-]. by eapply Hitems.
Qed.

Lemma hal_error_not_ok code : hal_error code <> OK.
Proof. unfold hal_error. by repeat case_match. Qed.

(** The branches of [consume] that make an attachment. *)
Lemma create_consumed h id token now k m gen g g' res :
  proxies g !! EmptyString = None -> id <> EmptyString ->
  create h id token now k m g = (g', res) -> consumed k EmptyString gen g g' res.
Proof.
  intros Hids Hid. unfold create.
  assert (Hr : forall g0 st, st <> OK -> proxies g0 = proxies g -> (g0, refuse st) = (g', res) ->
    consumed k EmptyString gen g g' res).
  { intros g0 st Hst Hp [= <- <-]. split; cbn; rewrite ?Hp; try done. intros i p' Hi Ha. left. eauto. }
  destruct (_ || _); [by eapply Hr|]. case_bool_decide; [by eapply Hr|].
  destruct (definitions m) as [defs|st] eqn:Ed.
  2: { apply Hr; [|done]. by rewrite (definitions_err _ _ Ed). }
  destruct (_ || _); [by eapply Hr|].
  destruct (build_component _ _ _ _ _) as [s [c|code]]; [|apply Hr; [apply hal_error_not_ok|done]].
  cbn. intros [= <- <-]. split; cbn; try done.
  - intros i p' [[<- <-]|[_ Hi]]%lookup_insert_Some Ha; [by right; split_and!|left; eauto].
  - by rewrite lookup_insert_ne.
Qed.

Lemma attach_consumed now k id nm token gen g g' res :
  proxies g !! EmptyString = None ->
  attach now k id nm token g = (g', res) -> consumed k EmptyString gen g g' res.
Proof.
  intros Hids. unfold attach.
  destruct (proxies g !! id) as [p|] eqn:Ep; [|intros [= <- <-]; by apply consumed_refused].
  destruct (negb _); [intros [= <- <-]; by apply consumed_refused|].
  destruct (negb _); [intros [= <- <-]; by apply consumed_refused|].
  destruct (attached p); [intros [= <- <-]; by apply consumed_refused|].
  cbn. intros [= <- <-]. assert (Hid : id <> EmptyString) by (intros ->; congruence). split; cbn; try done.
  - intros i p' [[<- <-]|[_ Hi]]%lookup_insert_Some Ha; [by right; split_and!|left; eauto].
  - by rewrite lookup_insert_ne.
Qed.

Lemma consume_attachments h id token now aid gen k request g g' res :
  proxies g !! EmptyString = None -> id <> EmptyString ->
  consume h id token now aid gen k request g = (g', res) -> consumed k aid gen g g' res.
Proof.
  intros Hids Hid. unfold consume.
  assert (Hother : aid <> EmptyString -> consume_attached now aid gen request g = (g', res) ->
    consumed k aid gen g g' res) by (intros; by eapply consume_attached_consumed).
  assert (Hr : forall st, st <> OK -> (g, refuse st) = (g', res) -> consumed k aid gen g g' res).
  { intros st Hst [= <- <-]. by apply consumed_refused. }
  destruct request; case_bool_decide as Ha; try (by apply Hr); try (by apply Hother); subst aid.
  - by eapply create_consumed.
  - by eapply attach_consumed.
Qed.

(** *** Calls that do not end an attachment behind its back *)

(** What a call must leave: the identity of the session, and either its hold or a
    queued detachment. *)
Record covers (k : nat) (r r' : Reactor) (ts : list Task) : Prop := mkCovers {
  cov_id : session_id r' = session_id r;
  cov_generation : session_generation r' = session_generation r;
  cov_hold : session_id r <> EmptyString -> gate r <> Gate.Done -> detach_requested r = false ->
    (gate r' <> Gate.Done /\ detach_requested r' = false)
    \/ DetachTask (session_id r) (session_generation r) ∈ ts;
  cov_fresh : session_id r = EmptyString -> detach_requested r' = detach_requested r;
  cov_tasks : forall k' proxy gen request, ConsumeTask k' proxy gen request ∈ ts ->
    k' = k /\ proxy = session_id r /\ gen = session_generation r;
}.

Lemma covers_same k r r' :
  session_id r' = session_id r -> session_generation r' = session_generation r ->
  detach_requested r' = detach_requested r -> (gate r' = Gate.Done <-> gate r = Gate.Done) -> covers k r r' [].
Proof.
  intros H1 H2 H3 H4. split; try done; [|by intros ? ? ? ? ?%not_elem_of_nil].
  intros _ Hg Hd. left. rewrite H3. split; [|done]. by rewrite H4.
Qed.

Lemma covers_refl k r : covers k r r [].
Proof. by apply covers_same. Qed.

Lemma covers_trans k r1 r2 r3 ts1 ts2 :
  covers k r1 r2 ts1 -> covers k r2 r3 ts2 -> covers k r1 r3 (ts1 ++ ts2).
Proof.
  intros [A1 A2 A3 A4 A5] [B1 B2 B3 B4 B5]. rewrite A1, A2 in *. split; [congruence|congruence| | |].
  - intros Hs Hg Hd. destruct (A3 Hs Hg Hd) as [[Hg2 Hd2]|Hin]; [|right; set_solver].
    destruct (B3 Hs Hg2 Hd2) as [?|?]; [by left|right; set_solver].
  - intros Hs. rewrite B4, A4; done.
  - intros k' proxy gen request [Hin|Hin]%elem_of_app; [by eapply A5|by eapply B5].
Qed.

Lemma request_finish_covers k st r : covers k r (request_finish st r) [].
Proof.
  unfold request_finish. set (r1 := set_write_finish _ _).
  destruct (finish_if_ready_same r1) as (_ & _ & _ & _ & _ & _ & _ & E1 & E2 & E3 & E4 & _).
  by apply covers_same.
Qed.

Lemma start_write_covers k e r : covers k r (start_write e r) [].
Proof.
  unfold start_write. destruct (DeferredFinish.try_start_write _) as [d []]; by apply covers_same.
Qed.

Lemma offer_covers k m r : covers k r (offer_delta m r) [] /\ covers k r (offer_response m r) [].
Proof.
  unfold offer_delta, offer_response. repeat case_match; split;
    first [apply covers_refl|by apply covers_same|apply start_write_covers].
Qed.

Lemma on_write_done_covers k ok r : covers k r (on_write_done ok r) [].
Proof.
  unfold on_write_done. set (r0 := if ok then _ else r).
  set (rc := set_write_finish _ r0).
  pose proof (finish_if_ready_same rc) as (_ & _ & _ & _ & _ & _ & _ & E1 & E2 & E3 & E4 & _).
  destruct (finish_if_ready rc) as [r1 finishing]. cbn [fst] in *.
  assert (H1 : covers k r r1 []).
  { apply covers_same; rewrite ?E1, ?E2, ?E3, ?E4; unfold rc, r0; by destruct ok. }
  destruct (_ || _); [done|]. set (r2 := if active_response r1 then _ else r1).
  assert (H2 : covers k r r2 []).
  { apply (covers_trans k r r1 r2 [] []); [done|]. unfold r2. destruct (active_response r1);
      [by apply covers_same|apply covers_refl]. }
  clearbody r2. destruct (Outbox.pop_front (outbox r2)) as [[e rest]|].
  - apply (covers_trans k r r2 _ [] []); [done|].
    apply (covers_trans k r2 (set_outbox rest r2) _ [] []); [by apply covers_same|apply start_write_covers].
  - apply (covers_trans k r r2 _ [] []); [done|].
    destruct (finish_after_responses r2); [apply request_finish_covers|].
    destruct (resume_read_when_idle r2); [by apply covers_same|apply covers_refl].
Qed.

Lemma detach_transport_covers k r : covers k r (detach_transport r).1 (detach_transport r).2.
Proof.
  unfold detach_transport. destruct (_ || _) eqn:E; cbn [fst snd]; [apply covers_refl|].
  apply orb_false_iff in E as [Ed Es]. bool_to_prop. split; cbn; try done.
  - intros _ _ _. right. by left.
  - by intros k' proxy gen request [?|?%not_elem_of_nil]%elem_of_cons.
Qed.

Lemma ending_covers k st r :
  covers k r (request_finish st (detach_transport r).1) (detach_transport r).2.
Proof.
  rewrite <- (app_nil_r (detach_transport r).2).
  eapply covers_trans; [apply detach_transport_covers|apply request_finish_covers].
Qed.

Lemma on_cancel_covers k r : covers k r (on_cancel r).1 (on_cancel r).2.
Proof.
  unfold on_cancel. pose proof (ending_covers k CANCELLED r). by destruct (detach_transport r).
Qed.

Lemma shutdown_covers k r : covers k r (shutdown r).1 (shutdown r).2.
Proof.
  unfold shutdown. pose proof (ending_covers k UNAVAILABLE r). by destruct (detach_transport r).
Qed.

Lemma on_done_covers k r : covers k r (on_done r).1 (on_done r).2.
Proof.
  unfold on_done, detach_transport. cbn [detach_requested session_id set_gate session_generation].
  destruct (detach_requested r) eqn:Ed; cbn [orb].
  { split; cbn; try done; [intros _ _ ?; congruence|by intros ? ? ? ? ?%not_elem_of_nil]. }
  case_bool_decide as Es; cbn [fst snd].
  - split; cbn; try done. by intros ? ? ? ? ?%not_elem_of_nil.
  - split; cbn; try done.
    + intros _ _ _. right. by left.
    + by intros k' proxy gen request [?|?%not_elem_of_nil]%elem_of_cons.
Qed.

Lemma read_done_covers k ok request full r :
  covers k r (read_done k ok request full r).1 (read_done k ok request full r).2.
Proof.
  unfold read_done. destruct (DeferredFinish.termination_requested _); [apply covers_refl|].
  destruct ok; cbn [negb].
  - destruct full; cbn [fst snd].
    + apply (covers_trans k r (set_received_first_message true r) _ [] []); [by apply covers_same|
        apply request_finish_covers].
    + split; cbn; try done; [intros _ ? ?; by left|].
      intros k' proxy gen request' [[= -> -> ->]|?%not_elem_of_nil]%elem_of_cons; done.
  - pose proof (ending_covers k (Code OK) r). by destruct (detach_transport r).
Qed.

Lemma tick_covers k now r : covers k r (tick now r) [].
Proof. unfold tick. destruct (_ && _); [apply request_finish_covers|apply covers_refl]. Qed.

(** *** The invariant is kept *)

Lemma attached_put w k r r' ts :
  attached_ok w -> reactors w !! k = Some r -> covers k r r' ts -> attached_ok (put k (r', ts) w).
Proof.
  intros [A1 A2 A3 A4 A5] Hr [C1 C2 C3 C4 C5]. split; cbn [put registry reactors queue delivering fst snd].
  - intros id p Hp Ha. destruct (A1 id p Hp Ha) as (k' & Hk' & H). exists k'. split; [done|].
    destruct H as [(x & Hx & Hs & Hg & Hh)|(res & x & Hd & H1 & H2 & H3 & H4 & Hx & Hs & Hdet)].
    + left. destruct (decide (k' = k)) as [->|Hne].
      * rewrite Hr in Hx. injection Hx as <-. exists r'. cbn. rewrite lookup_insert_eq.
        split_and!; [done|congruence|congruence|].
        assert (Hid : session_id r <> EmptyString) by (rewrite Hs; intros ->; congruence).
        destruct Hh as [[Hg1 Hd1]|[Hin|Hin]]; [|right; set_solver..].
        destruct (C3 Hid Hg1 Hd1) as [?|Hin]; [by left|]. right. rewrite Hs, Hg in Hin.
        apply (taken_or_lost w) in Hin. set_solver.
      * exists x. cbn. rewrite lookup_insert_ne by done. split_and!; [done..|].
        destruct Hh as [?|[?|?]]; [by left|right; set_solver..].
    + right. destruct (decide (k' = k)) as [->|Hne].
      * rewrite Hr in Hx. injection Hx as <-. exists res, r'. cbn. rewrite lookup_insert_eq, C4, C1 by done.
        by split_and!.
      * exists res, x. cbn. rewrite lookup_insert_ne by done. by split_and!.
  - done.
  - intros k' x. intros [[<- <-]|[_ Hx]]%lookup_insert_Some Hs; [|by eapply A3].
    rewrite C1 in Hs. rewrite C4 by done. by eapply A3.
  - intros k' proxy gen request [Hin|Hin]%elem_of_app.
    + destruct (A4 _ _ _ _ Hin) as (x & Hx & Hs & Hg). destruct (decide (k' = k)) as [->|Hne].
      * rewrite Hr in Hx. injection Hx as <-. exists r'. rewrite lookup_insert_eq. split_and!; congruence.
      * exists x. by rewrite lookup_insert_ne.
    + destruct (C5 _ _ _ _ (taken_elem _ _ _ Hin)) as (-> & -> & ->). exists r'. rewrite lookup_insert_eq. split_and!; congruence.
  - intros k' res Hd. destruct (A5 _ _ Hd) as (x & Hx & H1 & H2 & H3).
    destruct (decide (k' = k)) as [->|Hne].
    + rewrite Hr in Hx. injection Hx as <-. exists r'. rewrite lookup_insert_eq, C1, C2. by split_and!.
    + exists x. rewrite lookup_insert_ne by done. by split_and!.
Qed.

Lemma attached_invoke w k f :
  attached_ok w -> (forall r, reactors w !! k = Some r -> covers k r (f r).1 (f r).2) ->
  attached_ok (invoke k f w).
Proof.
  intros Hw Hf. unfold invoke. destruct (reactors w !! k) as [r|] eqn:Er; [|done].
  destruct (open_gate r); [|done]. specialize (Hf r eq_refl). destruct (f r) as [r' ts].
  by eapply attached_put.
Qed.

(** A registry whose attachments are among those of the present one. *)
Lemma attached_registry w g :
  attached_ok w -> proxies g !! EmptyString = None ->
  (forall id p', proxies g !! id = Some p' -> attached p' = true -> exists p,
     proxies (registry w) !! id = Some p /\ attached p = true /\ generation p' = generation p
     /\ callbacks p' = callbacks p) ->
  attached_ok (set_registry g w).
Proof.
  intros [A1 A2 A3 A4 A5] Hids Hg. split; cbn; try done.
  - intros id p' Hp Ha. destruct (Hg id p' Hp Ha) as (p & Hp0 & Ha0 & -> & ->). by apply A1.
  - intros k res Hd. destruct (A5 k res Hd) as (x & Hx & H1 & H2 & H3). exists x. split_and!; try done.
    intros Hc p' Hp'. destruct (attached p') eqn:Ea; [|done].
    destruct (Hg _ _ Hp' Ea) as (p & Hp & Ha & _). by rewrite (H2 Hc p Hp) in Ha.
Qed.

Lemma attached_lists w w' :
  attached_ok w -> registry w' = registry w -> reactors w' = reactors w -> queue w' = queue w ->
  delivering w' = delivering w -> refused w' = refused w -> attached_ok w'.
Proof.
  intros [A1 A2 A3 A4 A5] H1 H2 H3 H4 H5.
  split; unfold held, arriving in *; rewrite ?H1, ?H2, ?H3, ?H4, ?H5; done.
Qed.

Lemma attached_construct w k registered adm now :
  attached_ok w -> reactors w !! k = None -> attached_ok (put k (construct registered adm now).1 w).
Proof.
  intros [A1 A2 A3 A4 A5] Hk.
  assert (Hc : (construct registered adm now).1.2 = [] /\ session_id (construct registered adm now).1.1 = EmptyString
    /\ detach_requested (construct registered adm now).1.1 = false).
  { unfold construct. set (r := mkReactor _ _ _ _ _ _ _ _ _ _ _ _ _ _ _ _).
    destruct registered; cbn [negb]; [destruct adm; cbn [negb fst snd]; [done|]|].
    - pose proof (request_finish_covers k (Code RESOURCE_EXHAUSTED) r) as [E1 _ _ E2 _].
      split_and!; [done|by rewrite E1|by rewrite E2].
    - unfold shutdown, detach_transport. cbn [detach_requested session_id r].
      rewrite bool_decide_eq_true_2 by done. cbn [orb fst snd].
      destruct (request_finish_covers k UNAVAILABLE r) as [E1 _ _ E2 _].
      split_and!; [done|by rewrite E1|by rewrite E2]. }
  destruct (construct registered adm now) as [[r' ts] listed]. cbn in Hc. destruct Hc as (-> & Hs & Hd).
  assert (Hne : forall k' x, reactors w !! k' = Some x -> (<[k := r']> (reactors w)) !! k' = Some x).
  { intros k' x Hx. rewrite lookup_insert_ne; [done|]. intros ->. congruence. }
  split; cbn; rewrite ?taken_nil, ?app_nil_r; try done.
  - intros id p Hp Ha. destruct (A1 id p Hp Ha) as (k' & Hk' & H). exists k'. split; [done|].
    destruct H as [(x & Hx & H)|(res & x & Hd' & H1 & H2 & H3 & H4 & Hx & H)].
    + left. exists x. cbn. rewrite taken_nil, lost_nil, !app_nil_r. split; [by apply Hne|done].
    + right. exists res, x. cbn. split_and!; try done; [by apply Hne|apply H|apply H].
  - intros k' x [[<- <-]|[_ Hx]]%lookup_insert_Some; [done|by eapply A3].
  - intros k' proxy gen request Hin. destruct (A4 _ _ _ _ Hin) as (x & Hx & H). exists x. split; [by apply Hne|done].
  - intros k' res Hd'. destruct (A5 _ _ Hd') as (x & Hx & H). exists x. split; [by apply Hne|done].
Qed.

(** The delivery of a result to its stream. *)
Lemma deliver_session res r :
  status res = OK -> proxy_id res <> EmptyString -> gate r = Gate.Open ->
  let rt := deliver res r in
  rt.2 = [] /\ session_id rt.1 = proxy_id res /\ session_generation rt.1 = result_generation res
  /\ gate rt.1 <> Gate.Done
  /\ (close_stream res = false -> detach_requested rt.1 = detach_requested r).
Proof.
  intros Hs Hp Hg. unfold deliver. rewrite bool_decide_eq_true_2, bool_decide_eq_false_2 by done. cbn [negb].
  set (r1 := set_session_generation _ _).
  destruct (response res) as [m|]; cbn [fst snd].
  - destruct (offer_covers 0 (Outbox.OtherMessage m) r1) as [_ C].
    assert (Hgate : gate (offer_response (Outbox.OtherMessage m) r1) = Gate.Open).
    { unfold offer_response, start_write. repeat case_match; done. }
    assert (Hdet : detach_requested (offer_response (Outbox.OtherMessage m) r1) = detach_requested r).
    { unfold offer_response, start_write. repeat case_match; done. }
    destruct C as [C1 C2 _ _ _]. destruct (close_stream res); cbn; rewrite C1, C2, ?Hgate, ?Hdet; by split_and!.
  - destruct (close_stream res); cbn [negb].
    + destruct (request_finish_covers 0 (Code OK) r1) as [C1 C2 C3 _ _]. rewrite C1, C2. split_and!; try done.
      unfold request_finish. set (x := set_write_finish _ _).
      destruct (finish_if_ready_same x) as (_ & _ & _ & _ & _ & _ & _ & _ & _ & _ & E & _).
      rewrite E. unfold x, r1. cbn. by rewrite Hg.
    + destruct (negb _); cbn; by rewrite Hg.
Qed.

Lemma consumes_none_elem k proxy gen request q :
  consumes k q = 0%nat -> ConsumeTask k proxy gen request ∉ q.
Proof.
  intros Hc Hin. induction q as [|t q IH]; [by apply not_elem_of_nil in Hin|].
  rewrite consumes_cons in Hc. apply elem_of_cons in Hin as [<-|Hin].
  - cbn in Hc. rewrite Nat.eqb_refl in Hc. cbn in Hc. lia.
  - apply IH; [lia|done].
Qed.

Lemma attached_deliver w : tokens_ok w -> attached_ok w -> attached_ok (step w Deliver).
Proof.
  intros Htok Hw. cbn. destruct (delivering w) as [[k res]|] eqn:Ed; [|done].
  destruct Hw as [A1 A2 A3 A4 A5]. destruct (A5 _ _ Ed) as (r & Hr & R1 & R2 & R3). rewrite Hr.
  set (w1 := mkWorld (registry w) (reactors w) (streams w) (queue w) None (worker w) (refused w)).
  assert (Hq : consumes k (queue w) = 0%nat).
  { destruct (tok_one _ Htok k r Hr) as [H _]. unfold tokens in H. rewrite Ed in H.
    unfold delivers in H. rewrite Nat.eqb_refl in H. cbn in H. lia. }
  (* without an attachment on its way, the result can be forgotten *)
  assert (Hforget : (forall id p, proxies (registry w) !! id = Some p -> attached p = true ->
      exists k', callbacks p = Some k' /\ held w id (generation p) k') -> attached_ok w1).
  { intros Hh. split; cbn; try done. intros id p Hp Ha. destruct (Hh id p Hp Ha) as (k' & ? & ?). eauto. }
  destruct (open_gate r) eqn:Eo.
  - unfold open_gate in Eo. bool_to_prop. unfold invoke. cbn. rewrite Hr. unfold open_gate.
    rewrite bool_decide_eq_true_2 by done.
    destruct (decide (status res = OK)) as [Hok|Hbad].
    + specialize (R3 Hok). destruct (deliver_session res r Hok R3 Eo) as (D1 & D2 & D3 & D4 & D5).
      destruct (deliver res r) as [r' ts]. cbn in *. subst ts.
      split; cbn; rewrite ?taken_nil, ?lost_nil, ?app_nil_r; try done.
      * intros id p Hp Ha. destruct (A1 id p Hp Ha) as (k' & Hk' & H). exists k'. split; [done|]. left.
        destruct H as [(x & Hx & Hs & Hg & Hh)|(res' & x & Hd' & H1 & H2 & H3 & H4 & Hx & Hs & Hdet)].
        -- destruct (decide (k' = k)) as [->|Hne].
           ++ rewrite Hr in Hx. injection Hx as <-.
              assert (Hid : session_id r <> EmptyString) by (rewrite Hs; intros ->; congruence).
              destruct (R1 Hok Hid) as [E1 E2]. exists r'. cbn. rewrite lookup_insert_eq, taken_nil, ?lost_nil, ?app_nil_r.
              split_and!; [done|congruence|congruence|]. destruct Hh as [[_ Hdr]|Hin]; [|by right]. left.
              split; [done|]. rewrite D5; [done|]. destruct (close_stream res) eqn:Ec; [|done].
              exfalso. rewrite E1, Hs in R2. by rewrite (R2 eq_refl p Hp) in Ha.
           ++ exists x. cbn. rewrite lookup_insert_ne, taken_nil, ?lost_nil, ?app_nil_r by done. by split_and!.
        -- rewrite Ed in Hd'. injection Hd' as <- <-. rewrite Hr in Hx. injection Hx as <-.
           exists r'. cbn. rewrite lookup_insert_eq, taken_nil, ?lost_nil, ?app_nil_r. split_and!; [done|congruence|congruence|].
           left. split; [done|]. by rewrite D5.
      * intros k' x [[<- <-]|[_ Hx]]%lookup_insert_Some Hs; [congruence|by eapply A3].
      * intros k' proxy gen request Hin. destruct (A4 _ _ _ _ Hin) as (x & Hx & H).
        destruct (decide (k' = k)) as [->|Hne]; [by apply consumes_none_elem in Hin|].
        exists x. by rewrite lookup_insert_ne.
    + change (attached_ok (put k (deliver res r) w1)).
      assert (C : covers k r (deliver res r).1 (deliver res r).2).
      { unfold deliver. rewrite bool_decide_eq_false_2 by done. cbn [negb].
        pose proof (ending_covers k (Code (status res)) r). by destruct (detach_transport r). }
      destruct (deliver res r) as [r' ts]. apply attached_put with r; [|done|done].
      apply Hforget. intros id p Hp Ha. destruct (A1 id p Hp Ha) as (k' & Hk' & [H|H]); [eauto|].
      destruct H as (res' & x & Hd' & H1 & _). rewrite Ed in Hd'. injection Hd' as <- <-. done.
  - (* the stream is gone: an attachment made for it is undone at once *)
    case_bool_decide as Hp.
    + apply Hforget. intros id p Hp' Ha. destruct (A1 id p Hp' Ha) as (k' & Hk' & [H|H]); [eauto|].
      destruct H as (res' & x & Hd' & _ & _ & H3 & _). rewrite Ed in Hd'. injection Hd' as <- <-. congruence.
    + unfold Registry.detach.
      assert (Hheld : forall id p, proxies (registry w) !! id = Some p -> attached p = true ->
        (id <> proxy_id res \/ generation p <> result_generation res) ->
        exists k', callbacks p = Some k' /\ held w id (generation p) k').
      { intros id p Hp' Ha Hor. destruct (A1 id p Hp' Ha) as (k' & Hk' & [H|H]); [eauto|].
        destruct H as (res' & x & Hd' & _ & _ & H3 & H4 & _). rewrite Ed in Hd'. injection Hd' as <- <-.
        destruct Hor; congruence. }
      destruct (proxies (registry w) !! proxy_id res) as [p0|] eqn:Ep.
      2: { apply Hforget. intros id p Hp' Ha. apply Hheld; try done. left. congruence. }
      destruct (negb (attached p0) || negb (generation p0 =? result_generation res)) eqn:Eg.
      * apply Hforget. intros id p Hp' Ha. apply Hheld; try done.
        destruct (decide (id = proxy_id res)) as [->|]; [right|by left]. rewrite Ep in Hp'. injection Hp' as ->.
        rewrite Ha in Eg. cbn in Eg. bool_to_prop. done.
      * split; cbn; try done.
        -- intros id p [[<- <-]|[Hne Hp']]%lookup_insert_Some Ha; [done|].
           destruct (Hheld id p Hp' Ha) as (k' & ? & ?); [by left|eauto].
        -- by rewrite lookup_insert_ne.
Qed.

(** The worker consumes a message, or detaches. *)
Lemma attached_work w h id token now :
  attached_ok w -> tokens_ok w -> attached_ok (step w (Work h id token now)).
Proof.
  intros Hw Htok. cbn. destruct (busy w) eqn:Eb; [done|]. unfold busy in Eb. bool_to_prop.
  rewrite <- eq_None_not_Some in Eb. pose proof Hw as [A1 A2 A3 A4 A5].
  assert (Hheld : forall i p, proxies (registry w) !! i = Some p -> attached p = true ->
    exists k, callbacks p = Some k /\ held w i (generation p) k).
  { intros i p Hp Ha. destruct (A1 i p Hp Ha) as (k & Hk & [H|(res & x & Hd & _)]); [eauto|congruence]. }
  destruct (queue w) as [|[k proxy gen request|proxy gen] rest] eqn:Eq; [done| |].
  - destruct (id_taken id request (registry w)) eqn:Et; [done|]. cbn [orb]. case_bool_decide as Hid; [done|].
    destruct (consume h id token now proxy gen k request (registry w)) as [g res] eqn:Ec.
    apply consume_attachments in Ec as [C1 C2 C3 C4 C5]; [|done..].
    destruct (A4 k proxy gen request) as (r & Hr & Hs & Hg); [by left|].
    split; cbn; try done.
    + intros i p' Hp' Ha. destruct (C1 i p' Hp' Ha) as [(p & Hp & Hpa & -> & ->)|(-> & H1 & H2 & H3 & H4 & H5)].
      * destruct (Hheld i p Hp Hpa) as (k' & Hk' & x & Hx & Hxs & Hxg & Hh). exists k'. split; [done|]. left.
        exists x. cbn. split_and!; try done. destruct Hh as [?|[Hin|?]]; [by left|right|by right; right].
        rewrite Eq in Hin. left. by apply elem_of_cons in Hin as [?|?].
      * exists k. split; [done|]. right. exists res, r. cbn. split_and!; try done. by eapply A3.
    + intros k' proxy' gen' request' Hin. eapply A4. by right.
    + intros k' res' [= <- <-]. exists r. split_and!; try done.
      intros Hok Hne. rewrite Hs, Hg. apply C3; [done|]. by rewrite <- Hs.
  - (* a detachment: the one that is queued, or a later one *)
    unfold Registry.detach.
    assert (Hq : forall i p k', held w i (generation p) k' -> (i <> proxy \/ generation p <> gen) ->
      held (mkWorld (registry w) (reactors w) (streams w) rest None (worker w) (refused w)) i (generation p) k').
    { intros i p k' (x & Hx & Hxs & Hxg & Hh) Hor. exists x. split_and!; try done.
      destruct Hh as [?|[Hin|?]]; [by left|right|by right; right]. rewrite Eq in Hin.
      apply elem_of_cons in Hin as [[= <- <-]|?]; [by destruct Hor|by left]. }
    assert (Htasks : forall k proxy gen request, ConsumeTask k proxy gen request ∈ rest ->
      exists r, reactors w !! k = Some r /\ session_id r = proxy /\ session_generation r = gen).
    { intros k' proxy' gen' request' Hin. eapply A4. by right. }
    assert (Hforget : (forall i p, proxies (registry w) !! i = Some p -> attached p = true ->
        i <> proxy \/ generation p <> gen) ->
      attached_ok (mkWorld (registry w) (reactors w) (streams w) rest None (worker w) (refused w))).
    { intros Hor. split; cbn; try done. intros i p Hp Ha. destruct (Hheld i p Hp Ha) as (k & Hk & H).
      exists k. split; [done|]. left. apply Hq; [done|]. by apply Hor. }
    destruct (proxies (registry w) !! proxy) as [p0|] eqn:Ep.
    2: { apply Hforget. intros i p Hp _. left. congruence. }
    destruct (negb (attached p0) || negb (generation p0 =? gen)) eqn:Eg.
    { apply Hforget. intros i p Hp Ha. destruct (decide (i = proxy)) as [->|]; [right|by left].
      rewrite Ep in Hp. injection Hp as ->. rewrite Ha in Eg. cbn in Eg. bool_to_prop. done. }
    split; cbn; try done.
    + intros i p [[<- <-]|[Hne Hp]]%lookup_insert_Some Ha; [done|].
      destruct (Hheld i p Hp Ha) as (k & Hk & H). exists k. split; [done|]. left. apply Hq; [done|]. by left.
    + rewrite lookup_insert_ne; [done|]. intros ->. congruence.
Qed.

(** *** A sampling pass *)

(** The proxies of the timeouts still to be reported are released, and the streams
    are theirs. *)
Definition reported (w : World) (e : Event) : Prop :=
  match e with
  | Sent _ _ _ => True
  | TimedOut k id _ => (exists r, reactors w !! k = Some r /\ session_id r = id /\ id <> EmptyString)
      /\ forall p, proxies (registry w) !! id = Some p -> attached p = false
  end.

Lemma invoke_session k f w k' r :
  (forall r, session_id (f r).1 = session_id r) ->
  reactors w !! k' = Some r -> exists r', reactors (invoke k f w) !! k' = Some r' /\ session_id r' = session_id r.
Proof.
  intros Hf Hr. unfold invoke. destruct (reactors w !! k) as [x|] eqn:Ex; [|by eauto].
  destruct (open_gate x); [|by eauto]. cbn. destruct (decide (k' = k)) as [->|Hne].
  - rewrite lookup_insert_eq. rewrite Ex in Hr. injection Hr as <-. eauto.
  - rewrite lookup_insert_ne by done. eauto.
Qed.

Lemma invoke_registry k f w : registry (invoke k f w) = registry w /\ delivering (invoke k f w) = delivering w.
Proof. unfold invoke. destruct (reactors w !! k) as [x|]; [|done]. by destruct (open_gate x). Qed.

Lemma request_finish_session st r :
  session_id (request_finish st r) = session_id r /\ session_generation (request_finish st r) = session_generation r.
Proof. destruct (request_finish_covers 0 st r) as [C1 C2 _ _ _]. done. Qed.

Lemma dispatch_reported w e e' : reported w e' -> reported (dispatch w e) e'.
Proof.
  destruct e' as [|k' id' gen']; [done|]. intros [(r & Hr & Hs & Hne) Hp].
  assert (Hf : exists k f, dispatch w e = invoke k f w /\ forall r, session_id (f r).1 = session_id r).
  { destruct e as [k id m|k id gen]; cbn; do 2 eexists; (split; [reflexivity|]); intros x; cbn.
    - by destruct (offer_covers 0 m x) as [[C _ _ _ _] _].
    - unfold heartbeat_timeout. destruct (_ =? _); [|done].
      by destruct (request_finish_session DEADLINE_EXCEEDED (set_detach_requested true x)). }
  destruct Hf as (k & f & -> & Hf). cbn. destruct (invoke_registry k f w) as [-> _]. split; [|done].
  destruct (invoke_session k f w k' r Hf Hr) as (r' & ? & ?). exists r'. split_and!; congruence.
Qed.

Lemma attached_dispatch w e : attached_ok w -> delivering w = None -> reported w e -> attached_ok (dispatch w e).
Proof.
  intros Hw Hd Hr. destruct e as [k id m|k id gen]; cbn.
  - apply attached_invoke; [done|]. intros r _. cbn. apply offer_covers.
  - destruct Hr as [(x & Hx & Hs & Hne) Hp]. unfold invoke. rewrite Hx. destruct (open_gate x); [|done].
    assert (Hsame : session_id (heartbeat_timeout gen x) = session_id x
      /\ session_generation (heartbeat_timeout gen x) = session_generation x).
    { unfold heartbeat_timeout. destruct (_ =? _); [|done].
      apply (request_finish_session DEADLINE_EXCEEDED (set_detach_requested true x)). }
    destruct Hsame as [S1 S2]. destruct Hw as [A1 A2 A3 A4 A5].
    split; cbn; rewrite ?taken_nil, ?app_nil_r; try done.
    + intros i p Hi Ha. destruct (A1 i p Hi Ha) as (k' & Hk' & [(y & Hy & H1 & H2 & H3)|(res & y & Hd' & _)]);
        [|congruence].
      exists k'. split; [done|]. left. exists y. cbn. rewrite taken_nil, lost_nil, !app_nil_r. split; [|done].
      rewrite lookup_insert_ne; [done|]. intros ->. rewrite Hx in Hy. injection Hy as <-.
      assert (i = id) as -> by congruence. by rewrite (Hp p Hi) in Ha.
    + intros k' y [[<- <-]|[_ Hy]]%lookup_insert_Some Hy'; [congruence|by eapply A3].
    + intros k' proxy gen' request Hin. destruct (A4 _ _ _ _ Hin) as (y & Hy & H1 & H2).
      destruct (decide (k' = k)) as [->|Hn].
      * rewrite Hx in Hy. injection Hy as <-. exists (heartbeat_timeout gen x). rewrite lookup_insert_eq.
        split_and!; congruence.
      * exists y. by rewrite lookup_insert_ne.
    + intros k' res Hd'. congruence.
Qed.

Lemma attached_reports es w :
  attached_ok w -> delivering w = None -> (forall e, e ∈ es -> reported w e) ->
  attached_ok (foldl dispatch w es).
Proof.
  revert w. induction es as [|e es IH]; intros w Hw Hd Hr; [done|]. cbn. apply IH.
  - apply attached_dispatch; [done..|]. apply Hr. by left.
  - destruct e; cbn; by rewrite (proj2 (invoke_registry _ _ _)).
  - intros e' He'. apply dispatch_reported, Hr. by right.
Qed.

Lemma sampled_proxy cfg now id p :
  let q := (sample_proxy cfg now id p).1 in
  (attached q = true -> attached p = true /\ generation q = generation p /\ callbacks q = callbacks p)
  /\ forall k id' gen, TimedOut k id' gen ∈ (sample_proxy cfg now id p).2 ->
       id' = id /\ attached p = true /\ callbacks p = Some k /\ attached q = false.
Proof.
  intros q. unfold q, sample_proxy. destruct (attached p) eqn:Ea; cbn [negb].
  2: { split; [cbn; congruence|by intros ? ? ? ?%not_elem_of_nil]. }
  destruct (_ <=? _).
  { split; [done|]. intros k id' gen. destruct (callbacks p) eqn:Ec; [|by intros ?%not_elem_of_nil].
    intros [[= -> -> _]|?%not_elem_of_nil]%elem_of_cons; [done|done]. }
  destruct (_ || _); [split; [done|by intros ? ? ? ?%not_elem_of_nil]|].
  split; [done|]. intros k id' gen. cbn [snd].
  destruct (omap _ _); [by intros ?%not_elem_of_nil|]. destruct (callbacks p); [|by intros ?%not_elem_of_nil].
  by intros [?|?%not_elem_of_nil]%elem_of_cons.
Qed.

Lemma attached_sample w now : attached_ok w -> attached_ok (step w (Sample now)).
Proof.
  intros Hw. cbn -[Registry.sample]. destruct (busy w) eqn:Eb; [done|]. unfold busy in Eb. bool_to_prop.
  rewrite <- eq_None_not_Some in Eb.
  assert (Hlook : forall id p', proxies (Registry.sample now (registry w)) !! id = Some p' -> exists p,
    proxies (registry w) !! id = Some p /\ p' = (sample_proxy (config (registry w)) now id p).1)
    by (intros; by apply sample_lookup).
  apply attached_reports; [|done|].
  - apply attached_registry; [done| |].
    + destruct (_ !! EmptyString) as [p'|] eqn:E; [|done]. apply Hlook in E as (p & Hp & _).
      by rewrite (att_ids _ Hw) in Hp.
    + intros id p' Hp' Ha. destruct (Hlook id p' Hp') as (p & Hp & ->).
      destruct (sampled_proxy (config (registry w)) now id p) as [S _]. destruct (S Ha) as (? & ? & ?). eauto.
  - intros e He. cbn in He. rewrite drop_app_length in He.
    apply list_elem_of_In, in_concat in He as (l & Hl & He). apply list_elem_of_In in Hl. apply list_elem_of_In in He.
    apply list_elem_of_fmap in Hl as ([id p] & -> & Hp). apply elem_of_map_to_list in Hp. cbn in He.
    destruct e as [|k id' gen]; [done|].
    destruct (sampled_proxy (config (registry w)) now id p) as [_ S].
    destruct (S _ _ _ He) as (-> & Ha & Hk & Hq). cbn -[Registry.sample]. split.
    + destruct (att_held _ Hw id p Hp Ha) as (k' & Hk' & [(r & Hr & Hs & _)|(res & x & Hd & _)]); [|congruence].
      assert (k' = k) as -> by congruence. exists r. split_and!; try done. intros ->.
      by rewrite (att_ids _ Hw) in Hp.
    + intros p' Hp'. destruct (Hlook id p' Hp') as (p0 & Hp0 & ->). congruence.
Qed.

Lemma attached_step w s : tokens_ok w -> attached_ok w -> attached_ok (step w s).
Proof.
  intros Htok Hw. destruct s as [k registered adm now|k ok request|k ok|k|k|k|now|h id token now| |o c a st|now|id sfx v|].
  - cbn. destruct (reactors w !! k) eqn:Ek; [done|]. pose proof (attached_construct w k registered adm now Hw Ek) as T.
    destruct (construct registered adm now) as [rt listed]. by eapply attached_lists.
  - cbn. destruct (reactors w !! k) as [r|] eqn:Ek; [|done]. destruct (reads r =? 0)%nat; [done|].
    set (r1 := set_reads _ r). assert (C : covers k r r1 []) by by apply covers_same.
    destruct (open_gate r1); [|by apply (attached_put w k r)].
    pose proof (covers_trans k r r1 _ _ _ C (read_done_covers k ok request (negb (submit_impl false w)) r1)) as C'. cbn [app] in C'.
    destruct (read_done k ok request _ r1) as [r2 ts]. by apply (attached_put w k r).
  - cbn. destruct (reactors w !! k) as [r|]; [|done]. destruct (DeferredFinish.write_in_flight _); [|done].
    apply attached_invoke; [done|]. intros x _. apply on_write_done_covers.
  - apply attached_invoke; [done|]. intros r _. apply on_cancel_covers.
  - apply attached_invoke; [done|]. intros r _. apply shutdown_covers.
  - cbn. destruct (reactors w !! k) as [r|] eqn:Ek; [|done]. destruct (_ && _); [|done].
    pose proof (on_done_covers k r). destruct (on_done r) as [r1 ts]. by apply (attached_put w k r).
  - cbn. apply foldl_preserves; [|by eapply attached_lists]. intros w' k Hw'. apply attached_invoke; [done|].
    intros r _. apply tick_covers.
  - by apply attached_work.
  - by apply attached_deliver.
  - by eapply attached_lists.
  - by apply attached_sample.
  - cbn. apply attached_registry; [done| |]; destruct (proxies (registry w) !! id) as [p|] eqn:Ep; cbn;
      try apply (att_ids _ Hw); eauto.
    + rewrite lookup_insert_ne; [apply (att_ids _ Hw)|]. intros ->. by rewrite (att_ids _ Hw) in Ep.
    + intros i p' [[<- <-]|[_ Hp']]%lookup_insert_Some Ha; eauto.
  - cbn. destruct (busy w); [done|]. by apply attached_registry.
Qed.

Lemma attached_start cfg limit items x : attached_ok (start cfg limit items x).
Proof. split; cbn; try done. by intros ? ? ? ? ?%not_elem_of_nil. Qed.

Lemma attached_run w steps : tokens_ok w -> attached_ok w -> attached_ok (run steps w).
Proof.
  intros Ht Ha. unfold run.
  apply (foldl_preserves step (fun w => tokens_ok w /\ attached_ok w)); [|done].
  intros w' s [H1 H2]. split; [by apply tokens_step|by apply attached_step].
Qed.

Lemma attached_one w id id' p p' k :
  attached_ok w -> proxies (registry w) !! id = Some p -> attached p = true ->
  proxies (registry w) !! id' = Some p' -> attached p' = true ->
  callbacks p = Some k -> callbacks p' = Some k -> id = id'.
Proof.
  intros Hw Hp Ha Hp' Ha' Hk Hk'.
  assert (Hids : id <> EmptyString /\ id' <> EmptyString).
  { split; intros ->; by rewrite (att_ids _ Hw) in *. }
  destruct (att_held _ Hw id p Hp Ha) as (k1 & Hk1 & H). destruct (att_held _ Hw id' p' Hp' Ha') as (k2 & Hk2 & H').
  simplify_eq.
  destruct H as [(r & Hr & Hs & _)|(res & r & Hd & _ & _ & Hi & _ & Hr & Hs & _)],
    H' as [(r' & Hr' & Hs' & _)|(res' & r' & Hd' & _ & _ & Hi' & _ & Hr' & Hs' & _)]; simplify_eq; try done;
    destruct Hids; congruence.
Qed.

(** *** Lost clean-up tasks *)

Lemma invoke_refused k f w : (forall r, (f r).2 = []) -> refused (invoke k f w) = refused w.
Proof.
  intros Hf. unfold invoke. destruct (reactors w !! k) as [r|]; [|done]. destruct (open_gate r); [|done].
  cbn. by rewrite Hf, lost_nil, app_nil_r.
Qed.

Lemma folded_refused {A} (f : World -> A -> World) (l : list A) w :
  (forall w a, refused (f w a) = refused w) -> refused (foldl f w l) = refused w.
Proof. intros Hf. revert w. induction l as [|a l IH]; intros w; [done|]. cbn. by rewrite IH. Qed.

Lemma put_refused k rt w : submit_impl true w = true -> refused (put k rt w) = refused w.
Proof. intros Hs. cbn. unfold lost. rewrite Hs. apply app_nil_r. Qed.

Lemma invoke_taken k f w : submit_impl true w = true -> refused (invoke k f w) = refused w.
Proof.
  intros Hs. unfold invoke. destruct (reactors w !! k) as [r|]; [|done]. destruct (open_gate r); [|done].
  by apply put_refused.
Qed.

(** Only a clean-up task that [submit_cleanup] refuses is lost. *)
Lemma step_refused w s : submit_impl true w = true -> refused (step w s) = refused w.
Proof.
  intros Hs.
  destruct s as [k registered adm now|k ok request|k ok|k|k|k|now|h id token now| |o c a st|now|id sfx v|]; cbn -[Registry.sample dispatch];
    try done; try by apply invoke_taken.
  - destruct (reactors w !! k); [done|]. destruct (construct registered adm now) as [rt listed]. by apply (put_refused k rt).
  - destruct (reactors w !! k) as [r|]; [|done]. destruct (reads r =? 0)%nat; [done|].
    destruct (open_gate _); by rewrite put_refused.
  - destruct (reactors w !! k) as [r|]; [|done]. destruct (DeferredFinish.write_in_flight _); [|done].
    by apply invoke_taken.
  - destruct (reactors w !! k) as [r|]; [|done]. destruct (_ && _); [by rewrite put_refused|done].
  - rewrite folded_refused; [done|]. intros w' k. by apply invoke_refused.
  - destruct (busy w); [done|]. destruct (queue w) as [|[k proxy gen request|proxy gen] rest]; [done| |done].
    destruct (_ || _); [done|]. by destruct (consume _ _ _ _ _ _ _ _ _).
  - destruct (delivering w) as [[k res]|]; [|done].
    destruct (match reactors w !! k with Some r => open_gate r | None => false end).
    + rewrite invoke_taken; done.
    + by case_bool_decide.
  - destruct (busy w); [done|]. rewrite (folded_refused dispatch); [done|].
    intros w' [k' id m|k' id gen]; by apply invoke_refused.
  - by destruct (busy w).
Qed.

Lemma refused_from steps w :
  refused (run steps w) <> refused w ->
  exists pre s post, steps = pre ++ s :: post /\ submit_impl true (run pre w) = false.
Proof.
  induction steps as [|s steps IH] using rev_ind; [done|]. unfold run in *. rewrite foldl_snoc. intros Hne.
  destruct (submit_impl true (foldl step w steps)) eqn:Es; [|by exists steps, s, []].
  rewrite step_refused in Hne by done. destruct (IH Hne) as (pre & x & post & -> & H).
  exists pre, x, (post ++ [s]). by rewrite <- app_assoc.
Qed.

Lemma full_or_stopping w :
  submit_impl true w = false ->
  worker_stopping (worker w) = true \/ (capacity (worker w) <= queued w)%nat.
Proof.
  unfold submit_impl. destruct (worker_stopping (worker w)); [by left|]. cbn.
  destruct (_ <=? _)%nat eqn:E; [|done]. right. by apply Nat.leb_le.
Qed.

Lemma dispatched_registry es w : registry (foldl dispatch w es) = registry w.
Proof.
  revert w. induction es as [|e es IH]; intros w; [done|]. cbn. rewrite IH.
  destruct e; cbn; apply invoke_registry.
Qed.

Lemma ticked_registry now ks w : registry (foldl (fun w k => invoke k (fun r => (tick now r, [])) w) w ks) = registry w.
Proof. revert w. induction ks as [|k ks IH]; intros w; [done|]. cbn. rewrite IH. apply invoke_registry. Qed.

Lemma step_registry_config w s : config (registry (step w s)) = config (registry w).
Proof.
  destruct s as [k registered adm now|k ok request|k ok|k|k|k|now|h id token now| |o c a st|now|id sfx v|]; cbn -[Registry.sample dispatch];
    try done; try by rewrite (proj1 (invoke_registry _ _ _)).
  - destruct (reactors w !! k); [done|]. by destruct (construct registered adm now) as [rt listed].
  - destruct (reactors w !! k) as [r|]; [|done]. destruct (reads r =? 0)%nat; [done|]. by destruct (open_gate _).
  - destruct (reactors w !! k) as [r|]; [|done]. destruct (DeferredFinish.write_in_flight _); [|done].
    by rewrite (proj1 (invoke_registry _ _ _)).
  - destruct (reactors w !! k) as [r|]; [|done]. by destruct (_ && _).
  - by rewrite ticked_registry.
  - destruct (busy w); [done|]. destruct (queue w) as [|[k proxy gen request|proxy gen] rest]; [done| |].
    + destruct (id_taken id request (registry w)) eqn:Et; [done|]. cbn [orb]. case_bool_decide; [done|].
      pose proof (step_config (registry w) (Registry.Consume h id token now proxy gen k request)) as E.
      cbn [Registry.step] in E. rewrite Et in E. by destruct (consume _ _ _ _ _ _ _ _ _).
    + apply (step_config (registry w) (Registry.DetachStep proxy gen)).
  - destruct (delivering w) as [[k res]|]; [|done].
    destruct (match reactors w !! k with Some r => open_gate r | None => false end);
      [by rewrite (proj1 (invoke_registry _ _ _))|]. case_bool_decide; [done|].
    apply (step_config (registry w) (Registry.DetachStep _ _)).
  - destruct (busy w); [done|]. rewrite dispatched_registry. apply (step_config (registry w) (Registry.Sample now)).
  - apply (step_config (registry w) (Registry.HalChange id sfx v)).
  - by destruct (busy w).
Qed.

Lemma run_registry_config steps w : config (registry (run steps w)) = config (registry w).
Proof.
  unfold run. revert w. induction steps as [|s steps IH]; intros w; [done|]. cbn. by rewrite IH, step_registry_config.
Qed.

(** A proxy that is still attached after a sampling pass has had a recent heartbeat. *)
Lemma sampled_recent cfg now id p :
  attached (sample_proxy cfg now id p).1 = true ->
  now - last_heartbeat (sample_proxy cfg now id p).1 < RemoteComponent.Registry.heartbeat_timeout cfg.
Proof.
  unfold sample_proxy. destruct (attached p) eqn:Ea; cbn [negb]; [|cbn; congruence].
  destruct (_ <=? _) eqn:E; [done|]. apply Z.leb_gt in E. by destruct (_ || _).
Qed.

Lemma sample_recent w now id p :
  delivering w = None -> proxies (registry (step w (Sample now))) !! id = Some p -> attached p = true ->
  now - last_heartbeat p < RemoteComponent.Registry.heartbeat_timeout (config (registry w)).
Proof.
  intros Hd. cbn -[Registry.sample]. unfold busy. rewrite Hd. cbn -[Registry.sample].
  rewrite dispatched_registry. cbn -[Registry.sample]. intros (q & _ & ->)%sample_lookup. apply sampled_recent.
Qed.

(** C10: An attachment of a retained component never outlives its stream.  Whatever the
    interleaving of messages, endings, cancellations, timeouts and worker tasks, an
    attached proxy has one stream of its own, and either that stream is not done and still
    owes the detachment, or the detachment is in the worker's queue, or the result
    that made the attachment is about to be delivered to it, or the worker refused the
    detachment.  So once every stream is done and the worker has nothing left, no
    component is attached any more except where a refused detachment was lost.  A
    detachment is refused only while the worker has stopped or its queue is full, and
    what is lost ends at the heartbeat timeout: whatever is attached after a sampling
    pass has had a heartbeat more recently than that. *)
Theorem attachment_released (cfg : Config) (limit items : nat) (x : Worker) (steps : list Step) :
  let w := run steps (start cfg limit items x) in
  (forall id p, proxies (registry w) !! id = Some p -> attached p = true ->
     exists k r, callbacks p = Some k /\ reactors w !! k = Some r
       /\ (forall id' p', proxies (registry w) !! id' = Some p' -> attached p' = true ->
             callbacks p' = Some k -> id' = id)
       /\ ((session_id r = id /\ session_generation r = generation p
             /\ gate r <> Gate.Done /\ detach_requested r = false)
           \/ DetachTask id (generation p) ∈ queue w
           \/ (exists res, delivering w = Some (k, res) /\ proxy_id res = id
                 /\ result_generation res = generation p)
           \/ DetachTask id (generation p) ∈ refused w))
  /\ ((forall k r, reactors w !! k = Some r -> gate r = Gate.Done) -> queue w = [] -> delivering w = None ->
      forall id p, proxies (registry w) !! id = Some p -> attached p = true ->
        DetachTask id (generation p) ∈ refused w)
  /\ (refused w <> [] -> exists pre s post, steps = pre ++ s :: post
       /\ let v := run pre (start cfg limit items x) in
          worker_stopping (worker v) = true \/ (capacity (worker v) <= queued v)%nat)
  /\ (forall now id p, delivering w = None -> proxies (registry (step w (Sample now))) !! id = Some p ->
       attached p = true -> now - last_heartbeat p < RemoteComponent.Registry.heartbeat_timeout cfg).
Proof.
  intros w.
  pose proof (attached_run _ steps (tokens_start cfg limit items x) (attached_start cfg limit items x)) as Hw.
  fold w in Hw. split_and!.
  - intros id p Hp Ha. destruct (att_held _ Hw id p Hp Ha) as (k & Hk & H).
    assert (Hone : forall id' p', proxies (registry w) !! id' = Some p' -> attached p' = true ->
      callbacks p' = Some k -> id' = id) by (intros; by eapply (attached_one w)).
    destruct H as [(r & Hr & Hs & Hg & Hh)|(res & r & Hd & _ & _ & Hi & Hg & Hr & _)]; exists k, r; split_and!; try done.
    + destruct Hh as [[? ?]|[?|?]]; [left|right; left|right; right; right]; done.
    + right; right; left. by exists res.
  - intros Hdone Hq Hd id p Hp Ha.
    destruct (att_held _ Hw id p Hp Ha) as (k & _ & [(r & Hr & _ & _ & [[Hn _]|[Hin|?]])|(res & r & Hd' & _)]); [| |done|].
    + by destruct Hn; eapply Hdone.
    + rewrite Hq in Hin. by apply not_elem_of_nil in Hin.
    + congruence.
  - intros (pre & s & post & -> & H)%refused_from. exists pre, s, post. split; [done|]. by apply full_or_stopping.
  - intros now id p Hd Hp Ha. pose proof (sample_recent w now id p Hd Hp Ha) as H.
    unfold w in H. by rewrite run_registry_config in H.
Qed.

(** ** A session *)

(** A client opens stream 1, creates a component, is answered, and cancels. *)
Definition opened : list Step :=
  [Open 1 true true 0; ReadDone 1 true (Create sample_create);
   Work sample_hal "proxy" [1; 2; 3] 0; Deliver; WriteDone 1 true].
Definition cancelled : list Step := opened ++ [Cancel 1].
Definition closed : list Step := cancelled ++ [DoneStream 1; Work sample_hal EmptyString [] 0].

Definition sample_worker : Worker := mkWorker 128 3 0 0 true false.
(** The stream is cancelled while the worker is stopping. *)
Definition abandoned : list Step := opened ++ [Others 0 0 false true; Cancel 1; DoneStream 1].

Abbreviation sample_world steps := (run steps (start sample_config 2 8 sample_worker)).
Definition sample_reactor (steps : list Step) : Reactor :=
  default (construct false false 0).1.1 (reactors (sample_world steps) !! 1%nat).

Example session_reads_in_turn_witness :
  reactors (sample_world opened) !! 1%nat = Some (sample_reactor opened)
  /\ reads (sample_reactor opened) = 1%nat /\ Outbox.resumes (outbox (sample_reactor opened)) = 0%nat.
Proof.
  assert (H : reactors (sample_world opened) !! 1%nat = Some (sample_reactor opened)) by (vm_compute; reflexivity).
  destruct (session_reads_in_turn sample_config 2 8 sample_worker opened 1 (sample_reactor opened) H) as (_ & H2 & H3).
  assert (Hr : reads (sample_reactor opened) = 1%nat).
  { apply H3; [vm_compute; split; [reflexivity|split; reflexivity]|vm_compute; reflexivity..]. }
  split; [exact H|split; [exact Hr|]]. apply H2. exact Hr.
Defined.

Example attachment_released_witness :
  (exists p, proxies (registry (sample_world cancelled)) !! "proxy"%string = Some p /\ attached p = true)
  /\ queue (sample_world cancelled) = [DetachTask "proxy" 1]
  /\ (forall id p, proxies (registry (sample_world closed)) !! id = Some p -> attached p = false)
  /\ (exists p, proxies (registry (sample_world abandoned)) !! "proxy"%string = Some p /\ attached p = true)
  /\ forall id p, proxies (registry (step (sample_world abandoned) (Sample 3000))) !! id = Some p ->
       attached p = true -> 3000 - last_heartbeat p < 3000.
Proof.
  split; [|split; [|split; [|split]]].
  - vm_compute. eexists. split; reflexivity.
  - vm_compute. reflexivity.
  - assert (Hdone : forall k r, reactors (sample_world closed) !! k = Some r -> gate r = Gate.Done).
    { assert (E : reactors (sample_world closed) = {[1%nat := sample_reactor closed]})
        by (vm_compute; reflexivity).
      intros k r. rewrite E. intros [_ <-]%lookup_singleton_Some. vm_compute. reflexivity. }
    assert (Hq : queue (sample_world closed) = []) by (vm_compute; reflexivity).
    assert (Hd : delivering (sample_world closed) = None) by (vm_compute; reflexivity).
    assert (Hr : refused (sample_world closed) = []) by (vm_compute; reflexivity).
    pose proof (proj1 (proj2 (attachment_released sample_config 2 8 sample_worker closed))) as H. cbv zeta in H.
    intros id p Hp. destruct (attached p) eqn:Ea; [|reflexivity].
    specialize (H Hdone Hq Hd id p Hp Ea). rewrite Hr in H. destruct (not_elem_of_nil _ H).
  - vm_compute. eexists. split; reflexivity.
  - assert (Hd : delivering (sample_world abandoned) = None) by (vm_compute; reflexivity).
    pose proof (proj2 (proj2 (proj2 (attachment_released sample_config 2 8 sample_worker abandoned)))) as H.
    cbv zeta in H. intros id p Hp Ha. exact (H 3000 id p Hd Hp Ha).
Defined.

End Session.
