(* ===== verification/HalAdapter.v ===== *)
(** The HAL adapter ([hal/adapter.hpp], [hal/adapter.cc]) and the message mapping of
    HAL data ([hal/grpc/mapping.cc]).

    [Shm] is what the adapter reads of LinuxCNC's shared memory: the linked lists of
    [hal_priv.h] as lists, pointers between their entries as indices, and the 64-bit
    data cells.  The private search functions of LinuxCNC are the operations of the
    class [HalPriv]; what the adapter relies on of them is [HalPrivLaws].  [Adapter]
    is the adapter, [Mapping] the conversion to protobuf messages. *)
From Stdlib Require Import SpecFloat Ascii String.
From S2P Require Import Prelude Float64 RemoteComponent.

Local Open Scope Z_scope.

(** * Shared memory *)
Module Shm.
Export HalComponent (HalAdapterType, TBit, TFloat, TS32, TU32, TS64, TU64,
  HalAdapterValue, VBit, VFloat, VS32, VU32, VS64, VU64,
  HalAdapterPinDirection, In_, Out_, Io_, HalAdapterParamDirection, ReadOnly, ReadWrite,
  type_of, same_type, HalAdapterType_eq_dec).

Inductive hal_type_t :=
| HAL_TYPE_UNSPECIFIED | HAL_BIT | HAL_FLOAT | HAL_S32 | HAL_U32 | HAL_PORT | HAL_S64 | HAL_U64.
Inductive hal_pin_dir_t := HAL_DIR_UNSPECIFIED | HAL_IN | HAL_OUT | HAL_IO.
Inductive hal_param_dir_t := HAL_RO | HAL_RW.
Inductive component_type_t :=
| COMPONENT_TYPE_UNKNOWN | COMPONENT_TYPE_USER | COMPONENT_TYPE_REALTIME | COMPONENT_TYPE_OTHER.

#[export] Instance hal_type_eq_dec : EqDecision hal_type_t.
Proof. solve_decision. Defined.
#[export] Instance hal_pin_dir_eq_dec : EqDecision hal_pin_dir_t.
Proof. solve_decision. Defined.
#[export] Instance hal_param_dir_eq_dec : EqDecision hal_param_dir_t.
Proof. solve_decision. Defined.

(** The address of a data cell; a data pointer is [None] when it is null. *)
Abbreviation loc := positive.

Record hal_comp_t := mkComp {
  comp_id : Z; comp_name : string; comp_type : component_type_t; comp_ready : Z; comp_pid : Z }.
Record hal_funct_t := mkFunct {
  funct_name : string; funct_owner : option nat; funct_uses_fp : Z; funct_reentrant : Z;
  funct_users : Z; funct_maxtime : Z; funct_maxtime_increased : Z }.
Record hal_thread_t := mkThread {
  thread_name : string; thread_period : Z; thread_priority : Z; thread_uses_fp : Z;
  thread_maxtime : Z; thread_functs : list (option nat) }.
Record hal_pin_t := mkPin {
  pin_name : string; pin_type : hal_type_t; pin_dir : hal_pin_dir_t; pin_owner : option nat;
  pin_signal : option nat; dummysig : loc }.
Record hal_param_t := mkParam {
  param_name : string; param_type : hal_type_t; param_dir : hal_param_dir_t;
  param_owner : option nat; param_data : option loc }.
Record hal_sig_t := mkSig {
  sig_name : string; sig_type : hal_type_t; sig_data : option loc;
  sig_readers : Z; sig_writers : Z; sig_bidirs : Z }.

(** [hal_data] without the data cells. *)
Record Lists := mkLists {
  comps : list hal_comp_t;
  functs : list hal_funct_t;
  threads : list hal_thread_t;
  threads_running : Z;
  pins : list hal_pin_t;
  params : list hal_param_t;
  sigs : list hal_sig_t;
}.

(** [attached]: [hal_data] is not null; [cells]: the 64 bits of each data cell;
    [msg_level]: the RTAPI message level. *)
Record Hal := mkHal {
  attached : bool;
  lists : Lists;
  cells : gmap loc Z;
  msg_level : Z;
}.

Definition set_cells (m : gmap loc Z) (h : Hal) : Hal :=
  mkHal (attached h) (lists h) m (msg_level h).

Definition cell (h : Hal) (l : loc) : Z := default 0 (cells h !! l).

(** ** Values in cells

    A cell read at a type: the low byte of a bit, the low 32 bits of a 32-bit
    integer (little endian), all 64 bits otherwise. *)
Definition read_word (t : HalAdapterType) (w : Z) : HalAdapterValue :=
  match t with
  | TBit => VBit (negb (w mod 2 ^ 8 =? 0))
  | TFloat => VFloat (f64_of_bits w)
  | TS32 => VS32 (i32_wrap w)
  | TU32 => VU32 (u32_wrap w)
  | TS64 => VS64 (i64_wrap w)
  | TU64 => VU64 (u64_wrap w)
  end.

(** The 64 bits of a double; the NaN is the quiet one. *)
Definition bits_of_f64 (x : f64) : Z :=
  let sign (s : bool) := if s then 2 ^ 63 else 0 in
  match x with
  | S754_zero s => sign s
  | S754_infinity s => sign s + 2047 * 2 ^ 52
  | S754_nan => 2047 * 2 ^ 52 + 2 ^ 51
  | S754_finite s m e =>
      if Zpos m <? 2 ^ 52 then sign s + Zpos m
      else sign s + (e + 1075) * 2 ^ 52 + (Zpos m - 2 ^ 52)
  end.

(** A store of the value's width into the low bytes of a cell. *)
Definition store_low (bits w z : Z) : Z := (w / 2 ^ bits) * 2 ^ bits + z mod 2 ^ bits.

Definition write_word (v : HalAdapterValue) (w : Z) : Z :=
  match v with
  | VBit b => store_low 8 w (if b then 1 else 0)
  | VFloat x => bits_of_f64 x
  | VS32 z | VU32 z => store_low 32 w z
  | VS64 z | VU64 z => store_low 64 w z
  end.

(** The values of the variant's alternatives. *)
Definition value_ok (v : HalAdapterValue) : Prop :=
  match v with
  | VBit _ => True
  | VFloat x => valid_binary 53 1024 x = true
  | VS32 z => in_i32 z
  | VU32 z => in_u32 z
  | VS64 z => in_i64 z
  | VU64 z => in_u64 z
  end.

Lemma store_low_mod bits w z : 0 <= bits -> store_low bits w z mod 2 ^ bits = z mod 2 ^ bits.
Proof.
  intros H. unfold store_low.
  rewrite Z.add_comm, Z.mod_add by (apply Z.pow_nonzero; lia). apply Z.mod_mod, Z.pow_nonzero; lia.
Qed.

Lemma wrap_back bits z : 0 < bits -> - 2 ^ (bits - 1) <= z < 2 ^ (bits - 1) ->
  (z mod 2 ^ bits + 2 ^ (bits - 1)) mod 2 ^ bits - 2 ^ (bits - 1) = z.
Proof.
  intros Hb Hz. rewrite Z.add_mod_idemp_l by (apply Z.pow_nonzero; lia).
  replace (2 ^ bits) with (2 * 2 ^ (bits - 1)) by (rewrite <- Z.pow_succ_r by lia; f_equal; lia).
  rewrite Z.mod_small; lia.
Qed.

(** The three fields of a double's word. *)
Lemma word_fields s e m :
  0 <= e < 2048 -> 0 <= m < 2 ^ 52 ->
  let w := (if s : bool then 2 ^ 63 else 0) + e * 2 ^ 52 + m in
  Z.testbit w 63 = s /\ Z.land (Z.shiftr w 52) 2047 = e /\ Z.land w (Z.ones 52) = m.
Proof.
  intros He Hm w.
  assert (Hw : w = ((if s then 2048 else 0) + e) * 2 ^ 52 + m) by (unfold w; destruct s; lia).
  split_and!.
  - rewrite Z.testbit_eqb by lia.
    assert (w / 2 ^ 63 = if s then 1 else 0) as ->; [|by destruct s].
    unfold w. destruct s.
    + symmetry. apply Z.div_unique with (r := e * 2 ^ 52 + m); lia.
    + apply Z.div_small. lia.
  - change 2047 with (Z.ones 11). rewrite Z.land_ones, Z.shiftr_div_pow2 by lia.
    assert (w / 2 ^ 52 = (if s then 2048 else 0) + e) as ->.
    { symmetry. apply Z.div_unique with (r := m); lia. }
    destruct s; [|by rewrite Z.mod_small by lia].
    symmetry. apply Z.mod_unique with (q := 1); lia.
  - rewrite Z.land_ones by lia. symmetry. rewrite Hw.
    apply Z.mod_unique with (q := (if s then 2048 else 0) + e); lia.
Qed.

Lemma digits2_pos_range m :
  2 ^ (Zpos (digits2_pos m) - 1) <= Zpos m < 2 ^ Zpos (digits2_pos m).
Proof.
  induction m as [m IH|m IH|]; cbn [digits2_pos]; [| |done];
    rewrite Pos2Z.inj_succ, Z.pow_succ_r by lia;
    replace (Z.succ (Zpos (digits2_pos m)) - 1) with (Z.succ (Zpos (digits2_pos m) - 1)) by lia;
    rewrite Z.pow_succ_r by lia; lia.
Qed.

(** The mantissa and exponent of a finite double. *)
Lemma finite_fields s m e :
  valid_binary 53 1024 (S754_finite s m e) = true ->
  (Zpos m < 2 ^ 52 /\ e = -1074) \/ (2 ^ 52 <= Zpos m < 2 ^ 53 /\ -1074 <= e <= 971).
Proof.
  cbn [valid_binary]. unfold bounded, canonical_mantissa, fexp, emin. intros H. bool_to_prop.
  pose proof (digits2_pos_range m) as [Hl Hu].
  set (d := Zpos (digits2_pos m)) in *.
  assert (Hd : d <= 53) by lia.
  assert (Zpos m < 2 ^ 53) by (eapply Z.lt_le_trans; [done|]; apply Z.pow_le_mono_r; lia).
  destruct (decide (d = 53)) as [E|E].
  - right. rewrite E in Hl. lia.
  - left. split; [|lia]. eapply Z.lt_le_trans; [exact Hu|]. apply Z.pow_le_mono_r; lia.
Qed.

Lemma f64_of_bits_of x : valid_binary 53 1024 x = true -> f64_of_bits (bits_of_f64 x) = x.
Proof.
  destruct x as [s|s| |s m e]; [by destruct s|by destruct s|done|]. intros H.
  unfold bits_of_f64. apply finite_fields in H as [[Hm ->]|[Hm He]].
  - rewrite (proj2 (Z.ltb_lt _ _)) by done.
    pose proof (word_fields s 0 (Zpos m) ltac:(lia) ltac:(lia)) as F. cbn zeta in F.
    rewrite Z.mul_0_l, Z.add_0_r in F. destruct F as (F1 & F2 & F3).
    unfold f64_of_bits. by rewrite F1, F2, F3.
  - rewrite (proj2 (Z.ltb_ge _ _)) by lia.
    pose proof (word_fields s (e + 1075) (Zpos m - 2 ^ 52) ltac:(lia) ltac:(lia)) as F.
    cbn zeta in F. destruct F as (F1 & F2 & F3).
    unfold f64_of_bits. rewrite F1, F2, F3.
    rewrite (proj2 (Z.eqb_neq (e + 1075) 2047)), (proj2 (Z.eqb_neq (e + 1075) 0)) by lia.
    replace (Zpos m - 2 ^ 52 + 2 ^ 52) with (Zpos m) by lia. f_equal. lia.
Qed.

Lemma read_write_word v w : value_ok v -> read_word (type_of v) (write_word v w) = v.
Proof.
  destruct v as [b|x|z|z|z|z]; cbn [value_ok type_of read_word write_word]; intros H.
  - rewrite store_low_mod by lia. by destruct b.
  - by rewrite f64_of_bits_of.
  - f_equal. unfold i32_wrap.
    rewrite <- Z.add_mod_idemp_l, store_low_mod by lia. by apply (wrap_back 32).
  - f_equal. unfold u32_wrap. rewrite store_low_mod by lia. by apply u32_wrap_small.
  - f_equal. unfold i64_wrap.
    rewrite <- Z.add_mod_idemp_l, store_low_mod by lia. by apply (wrap_back 64).
  - f_equal. unfold u64_wrap. rewrite store_low_mod by lia. by apply u64_wrap_small.
Qed.

Lemma type_of_read_word t w : type_of (read_word t w) = t.
Proof. by destruct t. Qed.

End Shm.

(** * LinuxCNC's private functions

    The search functions see the lists only; [hal_signal_new] and
    [rtapi_set_msg_level] return their result code. *)
Class HalPriv := {
  HAL_NAME_LEN : nat;
  halpr_find_comp_by_name : Shm.Lists -> string -> option nat;
  halpr_find_pin_by_name : Shm.Lists -> string -> option nat;
  halpr_find_param_by_name : Shm.Lists -> string -> option nat;
  halpr_find_sig_by_name : Shm.Lists -> string -> option nat;
  (** the first pin linked to the signal, or the first one after a given pin *)
  halpr_find_pin_by_sig : Shm.Lists -> nat -> option nat -> option nat;
  hal_signal_new : string -> Shm.hal_type_t -> Shm.Hal -> Shm.Hal * Z;
  rtapi_set_msg_level : Z -> Shm.Hal -> Shm.Hal * Z;
}.

(** The pins linked to signal [s] from index [k] on. *)
Definition linked (l : Shm.Lists) (s k : nat) : Prop :=
  exists p, Shm.pins l !! k = Some p /\ Shm.pin_signal p = Some s.

(** What the adapter relies on: a search by name finds the entry of that name, and
    the search by signal enumerates the linked pins in list order. *)
Class HalPrivLaws `{HalPriv} : Prop := {
  find_pin_named l i p : NoDup (Shm.pin_name <$> Shm.pins l) ->
    Shm.pins l !! i = Some p -> halpr_find_pin_by_name l (Shm.pin_name p) = Some i;
  find_param_named l i p : NoDup (Shm.param_name <$> Shm.params l) ->
    Shm.params l !! i = Some p -> halpr_find_param_by_name l (Shm.param_name p) = Some i;
  find_sig_named l i p : NoDup (Shm.sig_name <$> Shm.sigs l) ->
    Shm.sigs l !! i = Some p -> halpr_find_sig_by_name l (Shm.sig_name p) = Some i;
  find_by_sig_linked l s start j : halpr_find_pin_by_sig l s start = Some j ->
    linked l s j /\ (forall i, start = Some i -> (i < j)%nat);
  find_by_sig_complete l s start k : linked l s k -> (forall i, start = Some i -> (i < k)%nat) ->
    exists j, halpr_find_pin_by_sig l s start = Some j /\ (j <= k)%nat;
}.

(** * The adapter *)
Module Adapter.
Import Shm.
Export HalComponent (EINVAL, EBUSY, ENOENT).

Definition ENODEV : Z := 19.
Definition EFAULT : Z := 14.
Definition ECANCELED : Z := 125.

Inductive HalAdapterItemKind := Pin | Param | Signal.
Inductive HalAdapterComponentKind := Unknown | User | Realtime | Other.

#[export] Instance HalAdapterItemKind_eq_dec : EqDecision HalAdapterItemKind.
Proof. solve_decision. Defined.

Record HalAdapterReference := mkReference { ref_kind : HalAdapterItemKind; ref_name : string }.

#[export] Instance HalAdapterReference_eq_dec : EqDecision HalAdapterReference.
Proof. solve_decision. Defined.

Record HalAdapterComponentInfo := mkComponentInfo {
  ci_id : Z; ci_name : string; ci_kind : HalAdapterComponentKind; ci_ready : bool;
  ci_pid : option Z }.
Record HalAdapterFunctionInfo := mkFunctionInfo {
  fi_name : string; fi_owner_id : Z; fi_owner_name : string; fi_uses_fp : bool;
  fi_reentrant : bool; fi_users : Z; fi_runtime : option Z; fi_max_runtime : Z;
  fi_max_runtime_increased : bool }.
Record HalAdapterThreadInfo := mkThreadInfo {
  ti_name : string; ti_period_ns : Z; ti_priority : Z; ti_uses_fp : bool; ti_running : bool;
  ti_runtime : option Z; ti_max_runtime : Z; ti_functions : list string }.
Record HalAdapterPinInfo := mkPinInfo {
  pi_name : string; pi_value : HalAdapterValue; pi_type : HalAdapterType;
  pi_direction : HalAdapterPinDirection; pi_owner_id : Z; pi_signal_name : option string }.
Record HalAdapterParamInfo := mkParamInfo {
  ai_name : string; ai_value : HalAdapterValue; ai_type : HalAdapterType;
  ai_direction : HalAdapterParamDirection; ai_owner_id : Z }.
Record HalAdapterSignalInfo := mkSignalInfo {
  si_name : string; si_value : HalAdapterValue; si_type : HalAdapterType;
  si_driver : option string; si_readers : Z; si_writers : Z; si_bidirs : Z }.
Record HalAdapterTopology := mkTopology {
  t_components : list HalAdapterComponentInfo;
  t_functions : list HalAdapterFunctionInfo;
  t_threads : list HalAdapterThreadInfo;
  t_pins : list HalAdapterPinInfo;
  t_params : list HalAdapterParamInfo;
  t_signals : list HalAdapterSignalInfo;
}.

(** ** Conversions *)

Definition native_type (t : HalAdapterType) : hal_type_t :=
  match t with
  | TBit => HAL_BIT | TFloat => HAL_FLOAT | TS32 => HAL_S32 | TU32 => HAL_U32 | TS64 => HAL_S64
  | TU64 => HAL_U64
  end.

Definition adapter_type (t : hal_type_t) : option HalAdapterType :=
  match t with
  | HAL_BIT => Some TBit | HAL_FLOAT => Some TFloat | HAL_S32 => Some TS32 | HAL_U32 => Some TU32
  | HAL_S64 => Some TS64 | HAL_U64 => Some TU64
  | HAL_TYPE_UNSPECIFIED | HAL_PORT => None
  end.

Definition pin_direction (d : hal_pin_dir_t) : HalAdapterPinDirection :=
  match d with HAL_OUT => Out_ | HAL_IO => Io_ | _ => In_ end.

Definition param_direction (d : hal_param_dir_t) : HalAdapterParamDirection :=
  match d with HAL_RW => ReadWrite | HAL_RO => ReadOnly end.

Definition component_kind (t : component_type_t) : HalAdapterComponentKind :=
  match t with
  | COMPONENT_TYPE_USER => User | COMPONENT_TYPE_REALTIME => Realtime
  | COMPONENT_TYPE_OTHER => Other | COMPONENT_TYPE_UNKNOWN => Unknown
  end.

(** ** Cells; an error is the code of the [HalAdapterError] *)

Definition read_value (h : Hal) (t : HalAdapterType) (p : option loc) : outcome Z HalAdapterValue :=
  match p with
  | None => Err (- EFAULT)
  | Some l => Ok (read_word t (cell h l))
  end.

Definition write_value (t : HalAdapterType) (p : option loc) (v : HalAdapterValue) (h : Hal) :
    Hal * bool :=
  match p with
  | None => (h, false)
  | Some l =>
      if negb (same_type t v) then (h, false)
      else (set_cells (<[l := write_word v (cell h l)]> (cells h)) h, true)
  end.

(** [HalMutex]: the lock, which throws when HAL is not initialized. *)
Definition locked {A} (h : Hal) (k : outcome Z A) : outcome Z A :=
  if attached h then k else Err (- ENODEV).

Definition pin_data (l : Lists) (p : hal_pin_t) : option loc :=
  match pin_signal p with
  | Some s => sg ← sigs l !! s; sig_data sg
  | None => Some (dummysig p)
  end.

(** [std::stop_token]: the number of tests that still answer [false]; [None] is a
    token that is never stopped. *)
Definition stop_token : Type := option nat.
Definition stop_requested (t : stop_token) : bool * stop_token :=
  match t with
  | None => (false, None)
  | Some O => (true, Some O)
  | Some (S n) => (false, Some n)
  end.

Section Adapter.
Context `{HalPriv}.

(** The name is a C string of the shared memory, so it is never null. *)
Definition runtime_pin_value (h : Hal) (owner_name : string) : option Z :=
  let nm := String.append owner_name ".time" in
  if (HAL_NAME_LEN <? String.length nm)%nat then None
  else
    i ← halpr_find_pin_by_name (lists h) nm;
    p ← pins (lists h) !! i;
    if bool_decide (pin_type p = HAL_S32) then
      l ← pin_data (lists h) p;
      Some (i32_wrap (cell h l))
    else None.

(** [ResolvedItem]: of the three pointers exactly one is set. *)
Inductive Entry := PinEntry (p : hal_pin_t) | ParamEntry (p : hal_param_t) | SigEntry (s : hal_sig_t).
Record ResolvedItem := mkResolved {
  r_type : HalAdapterType; r_data : option loc; r_entry : Entry }.

Definition entry_type (e : Entry) : hal_type_t :=
  match e with PinEntry p => pin_type p | ParamEntry p => param_type p | SigEntry s => sig_type s end.
Definition entry_data (l : Lists) (e : Entry) : option loc :=
  match e with PinEntry p => pin_data l p | ParamEntry p => param_data p | SigEntry s => sig_data s end.

Definition find_entry (l : Lists) (r : HalAdapterReference) : option Entry :=
  match ref_kind r with
  | Pin => i ← halpr_find_pin_by_name l (ref_name r); PinEntry <$> pins l !! i
  | Param => i ← halpr_find_param_by_name l (ref_name r); ParamEntry <$> params l !! i
  | Signal => i ← halpr_find_sig_by_name l (ref_name r); SigEntry <$> sigs l !! i
  end.

Definition resolve_unlocked (l : Lists) (r : HalAdapterReference) : option ResolvedItem :=
  if bool_decide (ref_name r = EmptyString) then None
  else
    e ← find_entry l r;
    t ← adapter_type (entry_type e);
    Some (mkResolved t (entry_data l e) e).

(** ** Reads *)

Definition read_unlocked (h : Hal) (r : HalAdapterReference) : outcome Z (option HalAdapterValue) :=
  match resolve_unlocked (lists h) r with
  | None => Ok None
  | Some item => v ← read_value h (r_type item) (r_data item); Ok (Some v)
  end.

Definition read (h : Hal) (r : HalAdapterReference) : outcome Z (option HalAdapterValue) :=
  locked h (read_unlocked h r).

Fixpoint read_loop (h : Hal) (refs : list HalAdapterReference) (token : stop_token) :
    outcome Z (list (option HalAdapterValue)) :=
  match refs with
  | [] => Ok []
  | r :: rest =>
      let '(stop, token1) := stop_requested token in
      if stop then Err (- ECANCELED)
      else
        v ← read_unlocked h r;
        vs ← read_loop h rest token1;
        Ok (v :: vs)
  end.

Definition read_many (h : Hal) (refs : list HalAdapterReference) (token : stop_token) :
    outcome Z (list (option HalAdapterValue)) :=
  locked h (read_loop h refs token).

(** ** Writes *)

(** The three writability tests. *)
Definition writable (e : Entry) : bool :=
  match e with
  | ParamEntry p => bool_decide (param_dir p = HAL_RW)
  | PinEntry p => negb (bool_decide (pin_dir p = HAL_OUT) || bool_decide (is_Some (pin_signal p)))
  | SigEntry s => negb (0 <? sig_writers s)
  end.

Definition write (r : HalAdapterReference) (v : HalAdapterValue) (h : Hal) :
    outcome Z (Hal * option HalAdapterValue) :=
  locked h
    match resolve_unlocked (lists h) r with
    | None => Ok (h, None)
    | Some item =>
        if negb (same_type (r_type item) v) then Ok (h, None)
        else if negb (writable (r_entry item)) then Ok (h, None)
        else
          let '(h1, ok) := write_value (r_type item) (r_data item) v h in
          if negb ok then Ok (h1, None)
          else w ← read_value h1 (r_type item) (r_data item); Ok (h1, Some w)
    end.

(** The loop that resolves every update before the first write; [Ok None] is the
    early [return 0]. *)
Fixpoint resolve_updates (l : Lists) (updates : list (HalAdapterReference * HalAdapterValue))
    (token : stop_token) : outcome Z (option (list ResolvedItem) * stop_token) :=
  match updates with
  | [] => Ok (Some [], token)
  | (r, v) :: rest =>
      let '(stop, token1) := stop_requested token in
      if stop then Err (- ECANCELED)
      else
        match resolve_unlocked l r with
        | None => Ok (None, token1)
        | Some item =>
            if negb (bool_decide (is_Some (r_data item))) || negb (same_type (r_type item) v)
               || negb (writable (r_entry item))
            then Ok (None, token1)
            else
              '(items, token2) ← resolve_updates l rest token1;
              Ok (option_map (cons item) items, token2)
        end
  end.

(** The write loop: it returns the index of a write that fails. *)
Fixpoint write_loop (items : list ResolvedItem) (vs : list HalAdapterValue) (index : nat)
    (written : list HalAdapterValue) (h : Hal) : outcome Z (Hal * nat * list HalAdapterValue) :=
  match items, vs with
  | item :: items', v :: vs' =>
      let '(h1, ok) := write_value (r_type item) (r_data item) v h in
      if negb ok then Ok (h1, index, written)
      else
        w ← read_value h1 (r_type item) (r_data item);
        write_loop items' vs' (S index) (written ++ [w]) h1
  | _, _ => Ok (h, index, written)
  end.

Definition write_many (updates : list (HalAdapterReference * HalAdapterValue)) (token : stop_token)
    (h : Hal) : outcome Z (Hal * nat * list HalAdapterValue) :=
  locked h (
    '(items, token1) ← resolve_updates (lists h) updates token;
    match items with
    | None => Ok (h, 0%nat, [])
    | Some its =>
        let '(stop, _) := stop_requested token1 in
        if stop then Err (- ECANCELED) else write_loop its updates.*2 0 [] h
    end).

(** ** The remaining queries and commands *)

Definition create_signal (nm : string) (t : HalAdapterType) (h : Hal) : Hal * outcome Z bool :=
  if bool_decide (nm = EmptyString) || (HAL_NAME_LEN <? String.length nm)%nat then (h, Ok false)
  else
    let '(h1, code) := hal_signal_new nm (native_type t) h in
    (h1, if code =? 0 then Ok true else Err code).

Definition pin_has_writer (h : Hal) (nm : string) : outcome Z bool :=
  locked h
    match halpr_find_pin_by_name (lists h) nm ≫= (fun i => pins (lists h) !! i) with
    | None => Err (- ENOENT)
    | Some p =>
        match pin_signal p with
        | None => Ok false
        | Some s => Ok (match sigs (lists h) !! s with
                        | Some sg => 0 <? sig_writers sg | None => false end)
        end
    end.

Definition component_exists (h : Hal) (nm : string) : outcome Z bool :=
  locked h (Ok (bool_decide (is_Some (halpr_find_comp_by_name (lists h) nm)))).

Definition component_ready (h : Hal) (nm : string) : outcome Z bool :=
  locked h
    match halpr_find_comp_by_name (lists h) nm ≫= (fun i => comps (lists h) !! i) with
    | Some c => Ok (negb (comp_ready c =? 0))
    | None => Ok false
    end.

Definition message_level (h : Hal) : Z := msg_level h.

Definition set_message_level (level : Z) (h : Hal) : Hal * outcome Z unit :=
  let '(h1, code) := rtapi_set_msg_level level h in
  (h1, if code =? 0 then Ok tt else Err code).

(** ** The topology *)

Definition nonzero (z : Z) : bool := negb (z =? 0).

Definition owner_id (l : Lists) (o : option nat) : Z :=
  match o ≫= (fun i => comps l !! i) with Some c => comp_id c | None => 0 end.

Definition component_info (c : hal_comp_t) : HalAdapterComponentInfo :=
  mkComponentInfo (comp_id c) (comp_name c) (component_kind (comp_type c)) (nonzero (comp_ready c))
    (if 0 <? comp_pid c then Some (comp_pid c) else None).

Definition function_info (h : Hal) (f : hal_funct_t) : HalAdapterFunctionInfo :=
  mkFunctionInfo (funct_name f) (owner_id (lists h) (funct_owner f))
    (match funct_owner f ≫= (fun i => comps (lists h) !! i) with
     | Some c => comp_name c | None => EmptyString end)
    (nonzero (funct_uses_fp f)) (nonzero (funct_reentrant f)) (funct_users f)
    (runtime_pin_value h (funct_name f)) (funct_maxtime f) (nonzero (funct_maxtime_increased f)).

Definition thread_info (h : Hal) (t : hal_thread_t) : HalAdapterThreadInfo :=
  mkThreadInfo (thread_name t) (thread_period t) (thread_priority t) (nonzero (thread_uses_fp t))
    (nonzero (threads_running (lists h))) (runtime_pin_value h (thread_name t)) (thread_maxtime t)
    (omap (fun o => funct_name <$> (o ≫= (fun i => functs (lists h) !! i))) (thread_functs t)).

Definition pin_info (h : Hal) (p : hal_pin_t) : outcome Z (option HalAdapterPinInfo) :=
  match adapter_type (pin_type p) with
  | None => Ok None
  | Some t =>
      v ← read_value h t (pin_data (lists h) p);
      Ok (Some (mkPinInfo (pin_name p) v t (pin_direction (pin_dir p))
        (owner_id (lists h) (pin_owner p))
        (s ← pin_signal p; sig_name <$> sigs (lists h) !! s)))
  end.

Definition param_info (h : Hal) (p : hal_param_t) : outcome Z (option HalAdapterParamInfo) :=
  match adapter_type (param_type p) with
  | None => Ok None
  | Some t =>
      v ← read_value h t (param_data p);
      Ok (Some (mkParamInfo (param_name p) v t (param_direction (param_dir p))
        (owner_id (lists h) (param_owner p))))
  end.

(** The loop over the pins of a signal; it advances in a finite list. *)
Definition drives (p : hal_pin_t) : bool :=
  bool_decide (pin_dir p = HAL_OUT) || bool_decide (pin_dir p = HAL_IO).

Fixpoint find_driver (fuel : nat) (l : Lists) (s : nat) (start : option nat) : option string :=
  match fuel with
  | O => None
  | S fuel' =>
      match halpr_find_pin_by_sig l s start with
      | None => None
      | Some j =>
          match pins l !! j with
          | None => None
          | Some p => if drives p then Some (pin_name p) else find_driver fuel' l s (Some j)
          end
      end
  end.

Definition signal_info (h : Hal) (i : nat) (s : hal_sig_t) : outcome Z (option HalAdapterSignalInfo) :=
  match adapter_type (sig_type s) with
  | None => Ok None
  | Some t =>
      v ← read_value h t (sig_data s);
      Ok (Some (mkSignalInfo (sig_name s) v t
        (find_driver (S (length (pins (lists h)))) (lists h) i None)
        (sig_readers s) (sig_writers s) (sig_bidirs s)))
  end.

(** A loop that appends, skips with [continue] or throws. *)
Fixpoint collect {A B} (f : nat -> A -> outcome Z (option B)) (i : nat) (l : list A) :
    outcome Z (list B) :=
  match l with
  | [] => Ok []
  | a :: rest => b ← f i a; bs ← collect f (S i) rest; Ok (option_list b ++ bs)
  end.

Definition topology (h : Hal) : outcome Z HalAdapterTopology :=
  locked h (
    ps ← collect (fun _ => pin_info h) 0 (pins (lists h));
    qs ← collect (fun _ => param_info h) 0 (params (lists h));
    ss ← collect (signal_info h) 0 (sigs (lists h));
    Ok (mkTopology (component_info <$> comps (lists h)) (function_info h <$> functs (lists h))
          (thread_info h <$> threads (lists h)) ps qs ss)).

(** ** Writes happen completely or not at all *)

(** The item an update would be written to. *)
Definition accepts (l : Lists) (u : HalAdapterReference * HalAdapterValue) (item : ResolvedItem) : Prop :=
  resolve_unlocked l u.1 = Some item /\ is_Some (r_data item)
  /\ type_of u.2 = r_type item /\ writable (r_entry item) = true.

Definition store (h : Hal) (lv : loc * HalAdapterValue) : Hal :=
  set_cells (<[lv.1 := write_word lv.2 (cell h lv.1)]> (cells h)) h.

(** The cells of resolved items. *)
Definition item_cells (items : list ResolvedItem) : list loc := omap r_data items.

Lemma same_type_true t v : same_type t v = true <-> type_of v = t.
Proof. unfold same_type. by rewrite bool_decide_eq_true. Qed.

Lemma resolve_updates_cases l us token :
  match resolve_updates l us token with
  | Ok (Some items, _) => Forall2 (accepts l) us items
  | Ok (None, _) => exists u, u ∈ us /\ forall item, ~ accepts l u item
  | Err e => e = - ECANCELED
  end.
Proof.
  revert token. induction us as [|[r v] us IH]; intros token; cbn [resolve_updates]; [constructor|].
  destruct (stop_requested token) as [stop token1]. destruct stop; [done|].
  destruct (resolve_unlocked l r) as [item|] eqn:Er.
  2: { exists (r, v). split; [left|]. intros item (E & _). cbn in E. congruence. }
  destruct (_ || _) eqn:Eg.
  - exists (r, v). split; [left|]. intros item' (E & Hd & Ht & Hw). cbn in E, Ht.
    assert (item' = item) as -> by congruence.
    rewrite bool_decide_eq_true_2, (proj2 (same_type_true _ _) Ht), Hw in Eg by done. done.
  - bool_to_prop. specialize (IH token1).
    destruct (resolve_updates l us token1) as [[[items|] token2]|e]; cbn; [|set_solver|done].
    constructor; [|done]. unfold accepts; cbn. split_and!; try done. by apply same_type_true.
Qed.

Lemma write_value_store item v h l :
  r_data item = Some l -> type_of v = r_type item ->
  write_value (r_type item) (r_data item) v h = (store h (l, v), true).
Proof. intros -> E. cbn. by rewrite (proj2 (same_type_true _ _) E). Qed.

Lemma cell_store h l v : cell (store h (l, v)) l = write_word v (cell h l).
Proof. unfold cell, store. cbn. by rewrite lookup_insert_eq. Qed.

Lemma cell_store_ne h l l' v : l <> l' -> cell (store h (l, v)) l' = cell h l'.
Proof. intros. unfold cell, store. cbn. by rewrite lookup_insert_ne. Qed.

Lemma write_loop_all l us items k ws h :
  Forall2 (accepts l) us items -> Forall value_ok us.*2 ->
  write_loop items us.*2 k ws h =
  Ok (foldl store h (zip (item_cells items) us.*2), (k + length us)%nat, ws ++ us.*2).
Proof.
  intros Hf. revert k ws h. induction Hf as [|[r v] item us items Ha Hf IH]; intros k ws h Hv; cbn.
  - by rewrite Nat.add_0_r, app_nil_r.
  - destruct Ha as (_ & [loc Hd] & Ht & _). cbn in Ht, Hv. apply Forall_cons in Hv as [Hv Hvs].
    rewrite (write_value_store _ _ _ loc) by done. cbn. rewrite Hd. cbn.
    rewrite cell_store, <- Ht, read_write_word by done. rewrite IH by done. cbn.
    f_equal. f_equal; [f_equal; lia|]. by rewrite <- app_assoc.
Qed.

(** A batch of writes is cancelled or refused without any effect, or every value
    of the batch is stored, in order, and reads back as it was given. *)
Lemma write_many_cases us token h :
  Forall value_ok us.*2 ->
  match write_many us token h with
  | Err e => e = - ECANCELED \/ e = - ENODEV
  | Ok (h', n, written) =>
      (n = 0%nat /\ h' = h /\ exists u, u ∈ us /\ forall item, ~ accepts (lists h) u item)
      \/ (n = length us /\ written = us.*2 /\ exists items,
          Forall2 (accepts (lists h)) us items /\ h' = foldl store h (zip (item_cells items) us.*2))
  end.
Proof.
  intros Hv. unfold write_many, locked. destruct (attached h); [|by right].
  pose proof (resolve_updates_cases (lists h) us token) as Hc.
  destruct (resolve_updates (lists h) us token) as [[[items|] token1]|e]; cbn; [|by left|by left].
  destruct (stop_requested token1) as [[] ?]; [by left|].
  rewrite (write_loop_all (lists h)) by done. right. eauto.
Qed.

Lemma store_lists h ws : lists (foldl store h ws) = lists h.
Proof. revert h. induction ws as [|w ws IH]; intros h; cbn; [done|]. by rewrite IH. Qed.

Lemma store_attached h ws : attached (foldl store h ws) = attached h.
Proof. revert h. induction ws as [|w ws IH]; intros h; cbn; [done|]. by rewrite IH. Qed.

Lemma cell_stores_other ws h l : l ∉ ws.*1 -> cell (foldl store h ws) l = cell h l.
Proof.
  revert h. induction ws as [|[k v] ws IH]; intros h Hl; cbn in *; [done|].
  rewrite IH by set_solver. apply cell_store_ne. set_solver.
Qed.

(** With distinct cells, each cell holds the value stored in it. *)
Lemma cell_stores ws h i l v :
  NoDup ws.*1 -> ws !! i = Some (l, v) -> exists w, cell (foldl store h ws) l = write_word v w.
Proof.
  revert h i. induction ws as [|[k x] ws IH]; intros h i Hn Hi; [done|].
  cbn in Hn. apply NoDup_cons in Hn as [Hk Hn]. destruct i as [|i]; cbn in *.
  - simplify_eq. exists (cell h l). rewrite cell_stores_other by done. apply cell_store.
  - eauto.
Qed.

Lemma item_cells_length l us items :
  Forall2 (accepts l) us items -> length (item_cells items) = length us.
Proof.
  induction 1 as [|u item us items (_ & [k Hk] & _) _ IH]; cbn; [done|]. rewrite Hk. cbn. f_equal. exact IH.
Qed.

Lemma item_cells_lookup l us items i item :
  Forall2 (accepts l) us items -> items !! i = Some item -> item_cells items !! i = r_data item.
Proof.
  intros Hf. revert i. induction Hf as [|u it us items (_ & [k Hk] & _) _ IH]; intros i Hi; [done|].
  cbn. rewrite Hk. destruct i as [|i]; cbn in *; [congruence|]. by apply IH.
Qed.

(** ** A read is the read of the same cell *)

Lemma read_loop_ok h refs token vs :
  read_loop h refs token = Ok vs -> Forall2 (fun r v => read_unlocked h r = Ok v) refs vs.
Proof.
  revert token vs. induction refs as [|r refs IH]; intros token vs; cbn; [by intros [= <-]|].
  destruct (stop_requested token) as [[] token1]; [done|].
  rewrite outcome_bind_ok. intros (v & Hv & Hr). apply outcome_bind_ok in Hr as (vs' & Hvs & [= <-]).
  constructor; eauto.
Qed.

Lemma read_loop_error h refs token e :
  read_loop h refs token = Err e -> e = - ECANCELED \/ e = - EFAULT.
Proof.
  revert token. induction refs as [|r refs IH]; intros token; cbn; [done|].
  destruct (stop_requested token) as [[] token1]; [intros [= <-]; by left|].
  destruct (read_unlocked h r) as [v|e'] eqn:Er; cbn.
  - destruct (read_loop h refs token1) eqn:El; cbn; [done|]. intros [= <-]. eauto.
  - intros [= <-]. unfold read_unlocked in Er. destruct (resolve_unlocked _ _) as [item|]; [|done].
    destruct (r_data item); cbn in Er; [done|]. injection Er as <-. by right.
Qed.

(** A token that is not stopped. *)
Lemma read_loop_complete h refs :
  (forall r, r ∈ refs -> is_ok (read_unlocked h r) = true) ->
  exists vs, read_loop h refs None = Ok vs.
Proof.
  induction refs as [|r refs IH]; intros Hok; cbn; [eauto|].
  specialize (Hok r ltac:(left)) as Hr. destruct (read_unlocked h r); [|done]. cbn.
  destruct IH as [vs ->]; [intros; apply Hok; by right|]. cbn. eauto.
Qed.

(** ** The topology *)

(** The driver of signal [s]: the first linked pin that writes it. *)
Definition is_driver (s : nat) (p : hal_pin_t) : Prop := pin_signal p = Some s /\ drives p = true.
#[local] Instance is_driver_dec s p : Decision (is_driver s p).
Proof. unfold is_driver. apply _. Defined.
Definition driver_of (l : Lists) (s : nat) : option string :=
  (fun ip => pin_name ip.2) <$> list_find (is_driver s) (pins l).

Lemma list_find_skip {A} (P : A -> Prop) `{!forall x, Decision (P x)} (l : list A) n :
  (forall k x, (k < n)%nat -> l !! k = Some x -> ~ P x) ->
  snd <$> list_find P l = snd <$> list_find P (drop n l).
Proof.
  revert n. induction l as [|a l IH]; intros n Hn; [by rewrite drop_nil|].
  destruct n as [|n]; [done|]. cbn.
  rewrite decide_False by (apply (Hn 0%nat); [lia|done]).
  rewrite <- (IH n) by (intros k x Hk; apply (Hn (S k)); lia).
  by destruct (list_find P l) as [[]|].
Qed.

Definition after (start : option nat) : nat := match start with None => 0%nat | Some i => S i end.

Context `{!HalPrivLaws}.

Lemma find_driver_spec fuel l s start :
  (length (pins l) < fuel + after start)%nat ->
  find_driver fuel l s start =
  pin_name <$> (snd <$> list_find (is_driver s) (drop (after start) (pins l))).
Proof.
  revert start. induction fuel as [|fuel IH]; intros start Hf; cbn [find_driver].
  { rewrite drop_ge by lia. done. }
  assert (Hafter : forall k, (after start <= k)%nat <-> forall i, start = Some i -> (i < k)%nat).
  { intros k. destruct start as [i|]; cbn; split; [|intros Hi; by apply Hi|done|lia].
    intros ? ? [= <-]. lia. }
  destruct (halpr_find_pin_by_sig l s start) as [j|] eqn:Ej.
  - destruct (find_by_sig_linked _ _ _ _ Ej) as [(p & Hp & Hl) Hj]. apply Hafter in Hj. rewrite Hp.
    rewrite (list_find_skip _ _ (j - after start)).
    2: { intros k x Hk Hx [Hxs _]. rewrite lookup_drop in Hx.
         destruct (find_by_sig_complete l s start (after start + k)) as (j' & Ej' & Hle).
         - by exists x.
         - apply Hafter. lia.
         - rewrite Ej in Ej'. injection Ej' as <-. lia. }
    rewrite drop_drop. replace (after start + (j - after start))%nat with j by lia.
    rewrite (drop_S _ p) by done. cbn [list_find]. destruct (drives p) eqn:Ed.
    + by rewrite decide_True by done.
    + rewrite decide_False by (intros [_ ?]; congruence).
      rewrite IH by (cbn; lia). cbn [after]. by destruct (list_find _ _) as [[]|].
  - rewrite (proj2 (list_find_None _ _)); [done|]. apply Forall_lookup. intros k x Hx [Hxs _].
    rewrite lookup_drop in Hx. destruct (find_by_sig_complete l s start (after start + k)) as (j' & Ej' & _).
    + by exists x.
    + apply Hafter. lia.
    + congruence.
Qed.

Lemma find_driver_exact l s : find_driver (S (length (pins l))) l s None = driver_of l s.
Proof.
  rewrite find_driver_spec by (cbn; lia). cbn [after]. rewrite drop_0. unfold driver_of.
  by destruct (list_find _ _) as [[]|].
Qed.

(** What a collecting loop returns: the results of the entries it did not skip. *)
Lemma collect_ok {A B} (f : nat -> A -> outcome Z (option B)) i l bs :
  collect f i l = Ok bs ->
  exists os, Forall2 (fun '(k, a) o => f k a = Ok o) (imap (fun k a => ((i + k)%nat, a)) l) os
    /\ bs = omap id os.
Proof.
  revert i bs. induction l as [|a l IH]; intros i bs; cbn.
  - intros [= <-]. exists []. by split; [constructor|].
  - rewrite outcome_bind_ok. intros (o & Ho & Hr). apply outcome_bind_ok in Hr as (bs' & Hb & [= <-]).
    destruct (IH _ _ Hb) as (os & Hos & ->). exists (o :: os). split.
    + constructor; [by rewrite Nat.add_0_r|].
      erewrite imap_ext; [exact Hos|]. intros k x _. cbn. f_equal. lia.
    + by destruct o.
Qed.

Lemma collect_elem {A B} (f : nat -> A -> outcome Z (option B)) l bs b :
  collect f 0 l = Ok bs -> b ∈ bs -> exists i a, l !! i = Some a /\ f i a = Ok (Some b).
Proof.
  intros (os & Hos & ->)%collect_ok Hb.
  apply list_elem_of_omap in Hb as (o & Ho & Hid). cbn in Hid. subst o.
  apply list_elem_of_lookup in Ho as [k Hk].
  destruct (Forall2_lookup_r _ _ _ _ _ Hos Hk) as ([k' a] & Ha & Hf).
  rewrite list_lookup_imap in Ha. destruct (l !! k) as [a'|] eqn:El; cbn in Ha; [|done].
  injection Ha as <- <-. eauto.
Qed.

(** The names of the entries of the six scalar types. *)
Definition scalar_names {A} (nm : A -> string) (ty : A -> hal_type_t) (l : list A) : list string :=
  omap (fun a => match adapter_type (ty a) with Some _ => Some (nm a) | None => None end) l.

Lemma collect_names {A B} (f : nat -> A -> outcome Z (option B)) (nm : A -> string) ty (nb : B -> string) :
  (forall i a o, f i a = Ok o ->
     nb <$> o = match adapter_type (ty a) with Some _ => Some (nm a) | None => None end) ->
  forall l i bs, collect f i l = Ok bs -> nb <$> bs = scalar_names nm ty l.
Proof.
  intros Hf. induction l as [|a l IH]; intros i bs; cbn; [by intros [= <-]|].
  rewrite outcome_bind_ok. intros (o & Ho & Hr). apply outcome_bind_ok in Hr as (bs' & Hb & [= <-]).
  specialize (Hf _ _ _ Ho). rewrite fmap_app, (IH _ _ Hb).
  destruct (adapter_type (ty a)), o; cbn in Hf; simplify_eq; [|done]. cbn. by rewrite Hf.
Qed.

(** HAL's naming discipline. *)
Definition well_named {A} (nm : A -> string) (l : list A) : Prop :=
  NoDup (nm <$> l) /\ Forall (fun a => nm a <> EmptyString) l.

Definition named (l : Lists) : Prop :=
  well_named pin_name (pins l) /\ well_named param_name (params l) /\ well_named sig_name (sigs l).

(** Reading an entry by its name. *)
Lemma read_entry h r e t :
  attached h = true -> ref_name r <> EmptyString -> find_entry (lists h) r = Some e ->
  adapter_type (entry_type e) = Some t ->
  read h r = (v ← read_value h t (entry_data (lists h) e); Ok (Some v)).
Proof.
  intros Ha Hn He Ht. unfold read, locked, read_unlocked, resolve_unlocked.
  by rewrite Ha, bool_decide_eq_false_2, He by done; cbn; rewrite Ht.
Qed.

Lemma read_value_type h t l v : read_value h t l = Ok v -> type_of v = t.
Proof. destruct l; cbn; [|done]. intros [= <-]. apply type_of_read_word. Qed.

Lemma pin_info_reads h i p info :
  attached h = true -> named (lists h) -> pins (lists h) !! i = Some p ->
  pin_info h p = Ok (Some info) ->
  read h (mkReference Pin (pi_name info)) = Ok (Some (pi_value info))
  /\ type_of (pi_value info) = pi_type info.
Proof.
  intros Ha ([Hn He] & _) Hp. unfold pin_info. destruct (adapter_type (pin_type p)) as [t|] eqn:Et; [|done].
  rewrite outcome_bind_ok. intros (v & Hv & [= <-]). cbn.
  split; [|by eapply read_value_type].
  rewrite (read_entry h _ (PinEntry p) t); cbn; [by rewrite Hv| done | | |done].
  - exact (Forall_lookup_1 _ _ i p He ltac:(eassumption)).
  - unfold find_entry. cbn. rewrite (find_pin_named _ i p) by done. cbn. by simplify_option_eq.
Qed.

Lemma param_info_reads h i p info :
  attached h = true -> named (lists h) -> params (lists h) !! i = Some p ->
  param_info h p = Ok (Some info) ->
  read h (mkReference Param (ai_name info)) = Ok (Some (ai_value info)).
Proof.
  intros Ha (_ & [Hn He] & _) Hp. unfold param_info. destruct (adapter_type (param_type p)) as [t|] eqn:Et; [|done].
  rewrite outcome_bind_ok. intros (v & Hv & [= <-]). cbn.
  rewrite (read_entry h _ (ParamEntry p) t); cbn; [by rewrite Hv| done | | |done].
  - exact (Forall_lookup_1 _ _ i p He ltac:(eassumption)).
  - unfold find_entry. cbn. rewrite (find_param_named _ i p) by done. cbn. by simplify_option_eq.
Qed.

Lemma signal_info_reads h i s info :
  attached h = true -> named (lists h) -> sigs (lists h) !! i = Some s ->
  signal_info h i s = Ok (Some info) ->
  read h (mkReference Signal (si_name info)) = Ok (Some (si_value info))
  /\ si_driver info = driver_of (lists h) i /\ si_name info = sig_name s.
Proof.
  intros Ha (_ & _ & [Hn He]) Hs. unfold signal_info. rewrite find_driver_exact.
  destruct (adapter_type (sig_type s)) as [t|] eqn:Et; [|done].
  rewrite outcome_bind_ok. intros (v & Hv & [= <-]). cbn [si_name si_value si_driver].
  split; [|done].
  rewrite (read_entry h _ (SigEntry s) t); cbn; [by rewrite Hv| done | | |done].
  - exact (Forall_lookup_1 _ _ i s He ltac:(eassumption)).
  - unfold find_entry. cbn. rewrite (find_sig_named _ i s) by done. cbn. by simplify_option_eq.
Qed.

(** C28: The topology is what the readers of HAL see: it lists exactly the pins,
    parameters and signals of the six scalar types, in HAL's order and by name, the
    value of each is the one a read of its reference returns in the same state, and
    the driver of a signal is the first linked pin that writes it. *)
Theorem topology_agrees_with_reads (h : Hal) (topo : HalAdapterTopology) :
  named (lists h) -> topology h = Ok topo ->
  (pi_name <$> t_pins topo = scalar_names pin_name pin_type (pins (lists h))
   /\ forall info, info ∈ t_pins topo ->
      read h (mkReference Pin (pi_name info)) = Ok (Some (pi_value info))
      /\ type_of (pi_value info) = pi_type info)
  /\ (ai_name <$> t_params topo = scalar_names param_name param_type (params (lists h))
      /\ forall info, info ∈ t_params topo ->
         read h (mkReference Param (ai_name info)) = Ok (Some (ai_value info)))
  /\ (si_name <$> t_signals topo = scalar_names sig_name sig_type (sigs (lists h))
      /\ forall info, info ∈ t_signals topo ->
         read h (mkReference Signal (si_name info)) = Ok (Some (si_value info))
         /\ exists i s, sigs (lists h) !! i = Some s /\ sig_name s = si_name info
            /\ si_driver info = driver_of (lists h) i).
Proof.
  intros Hn. unfold topology, locked. destruct (attached h) eqn:Ha; [|done].
  rewrite outcome_bind_ok. intros (ps & Hps & Hr). apply outcome_bind_ok in Hr as (qs & Hqs & Hr).
  apply outcome_bind_ok in Hr as (ss & Hss & [= <-]). cbn [t_pins t_params t_signals].
  split_and!.
  - refine (collect_names _ _ _ _ _ _ _ _ Hps). intros _ a o. unfold pin_info.
    destruct (adapter_type _); [|by intros [= <-]]. rewrite outcome_bind_ok. by intros (? & _ & [= <-]).
  - intros info (i & p & Hp & Hi)%(collect_elem _ _ _ _ Hps). by eapply pin_info_reads.
  - refine (collect_names _ _ _ _ _ _ _ _ Hqs). intros _ a o. unfold param_info.
    destruct (adapter_type _); [|by intros [= <-]]. rewrite outcome_bind_ok. by intros (? & _ & [= <-]).
  - intros info (i & p & Hp & Hi)%(collect_elem _ _ _ _ Hqs). by eapply param_info_reads.
  - refine (collect_names _ _ _ _ _ _ _ _ Hss). intros i a o. unfold signal_info.
    destruct (adapter_type _); [|by intros [= <-]]. rewrite outcome_bind_ok. by intros (? & _ & [= <-]).
  - intros info (i & s & Hs & Hi)%(collect_elem _ _ _ _ Hss).
    destruct (signal_info_reads _ _ _ _ Ha Hn Hs Hi) as (? & ? & ?). split; [done|]. eauto.
Qed.

End Adapter.

(** ** A concrete HAL

    Searches by walking the lists; new signals get the next free cell. *)
Definition find_index {A} (nm : A -> string) (l : list A) (n : string) : option nat :=
  fst <$> list_find (fun a => nm a = n) l.

Definition find_linked (l : Lists) (s : nat) (start : option nat) : option nat :=
  (fun ip => (after start + ip.1)%nat) <$>
    list_find (fun p => pin_signal p = Some s) (drop (after start) (pins l)).

Definition add_signal (nm : string) (t : hal_type_t) (h : Hal) : Hal * Z :=
  let l := lists h in
  if bool_decide (nm ∈ sig_name <$> sigs l) then (h, - EINVAL)
  else
    let c := fresh (dom (cells h)) in
    (mkHal (attached h)
       (mkLists (comps l) (functs l) (threads l) (threads_running l) (pins l) (params l)
          (mkSig nm t (Some c) 0 0 0 :: sigs l))
       (<[c := 0]> (cells h)) (msg_level h), 0).

Definition list_priv : HalPriv := {|
  HAL_NAME_LEN := 47;
  halpr_find_comp_by_name l := find_index comp_name (comps l);
  halpr_find_pin_by_name l := find_index pin_name (pins l);
  halpr_find_param_by_name l := find_index param_name (params l);
  halpr_find_sig_by_name l := find_index sig_name (sigs l);
  halpr_find_pin_by_sig := find_linked;
  hal_signal_new := add_signal;
  rtapi_set_msg_level z h := (mkHal (attached h) (lists h) (cells h) z, 0);
|}.

Lemma find_index_named {A} (nm : A -> string) l i a :
  NoDup (nm <$> l) -> l !! i = Some a -> find_index nm l (nm a) = Some i.
Proof.
  intros Hn Hi. unfold find_index.
  assert (list_find (fun b => nm b = nm a) l = Some (i, a)) as ->; [|done].
  apply list_find_Some. split_and!; [done|done|]. intros j y Hj Hlt E.
  assert (i = j); [|lia].
  apply (NoDup_lookup (nm <$> l) i j (nm a)); [done|..]; rewrite list_lookup_fmap.
  - by rewrite Hi.
  - rewrite Hj. cbn. by f_equal.
Qed.

#[export] Instance list_priv_laws : @HalPrivLaws list_priv.
Proof.
  split; cbn.
  - intros l i p. apply find_index_named.
  - intros l i p. apply find_index_named.
  - intros l i p. apply find_index_named.
  - intros l s start j Hj. apply fmap_Some in Hj as ([k p] & Hk & ->).
    apply list_find_Some in Hk as (Hk & Hp & _). rewrite lookup_drop in Hk. cbn. split.
    + by exists p.
    + intros i ->. cbn. lia.
  - intros l s start k (p & Hp & Hs) Hstart. unfold find_linked.
    assert (Hk : (after start <= k)%nat) by (destruct start; cbn; [by apply Hstart|lia]).
    destruct (list_find (fun p => pin_signal p = Some s) (drop (after start) (pins l))) as [[j q]|] eqn:E.
    + exists (after start + j)%nat. split; [done|].
      apply list_find_Some in E as (_ & _ & Hmin). apply Nat.nlt_ge. intros Hlt.
      apply (Hmin (k - after start)%nat p); [|lia|done].
      rewrite lookup_drop. by replace (after start + (k - after start))%nat with k by lia.
    + exfalso. apply list_find_None in E. rewrite Forall_lookup in E.
      apply (E (k - after start)%nat p); [|done].
      rewrite lookup_drop. by replace (after start + (k - after start))%nat with k by lia.
Qed.

(** Two components, a signal driven by an output pin, a free input pin, two
    parameters and a port. *)
Definition sample_hal : Hal :=
  mkHal true
    (mkLists
       [mkComp 4 "linuxcnc-grpc" COMPONENT_TYPE_USER 1 812; mkComp 3 "motmod" COMPONENT_TYPE_REALTIME 1 0]
       [mkFunct "motion-controller" (Some 1%nat) 1 0 1 90 0]
       [mkThread "servo-thread" 1000000 9 1 120 [Some 0%nat]]
       1
       [mkPin "spindle.0.at-speed" HAL_BIT HAL_IN (Some 1%nat) (Some 0%nat) 10;
        mkPin "vfd.ready" HAL_BIT HAL_OUT None (Some 0%nat) 11;
        mkPin "jog.scale" HAL_FLOAT HAL_IN (Some 0%nat) None 12;
        mkPin "raw.stream" HAL_PORT HAL_IN None None 13;
        mkPin "servo-thread.time" HAL_S32 HAL_OUT (Some 1%nat) None 14]
       [mkParam "pid.x.limit" HAL_U32 HAL_RW (Some 1%nat) (Some 20%positive);
        mkParam "pid.x.cycles" HAL_S32 HAL_RO (Some 1%nat) (Some 21%positive)]
       [mkSig "at-speed" HAL_BIT (Some 30%positive) 1 1 0;
        mkSig "spare" HAL_S64 (Some 31%positive) 0 0 0])
    {[30%positive := 1; 21%positive := 2 ^ 32 - 5; 14%positive := 310;
      12%positive := 4609434218613702656]}
    1.

Definition sample_topology : HalAdapterTopology :=
  match @topology list_priv sample_hal with Ok t => t | Err _ => mkTopology [] [] [] [] [] [] end.

Lemma sample_named : named (lists sample_hal).
Proof.
  unfold named, well_named. split_and!; try (apply (bool_decide_unpack _); vm_compute; exact I);
    repeat constructor; done.
Qed.

Lemma topology_agrees_with_reads_witness :
  (pi_name <$> t_pins sample_topology
   = ["spindle.0.at-speed"; "vfd.ready"; "jog.scale"; "servo-thread.time"]%string)
  /\ (si_driver <$> t_signals sample_topology = [Some "vfd.ready"%string; None])
  /\ @read list_priv sample_hal (mkReference Pin "vfd.ready") = Ok (Some (VBit true)).
Proof.
  pose proof (@topology_agrees_with_reads list_priv list_priv_laws sample_hal sample_topology
    sample_named ltac:(vm_compute; reflexivity)) as ((Hn & Hv) & _).
  split_and!; [rewrite Hn; vm_compute; reflexivity|vm_compute; reflexivity|].
  apply (Hv (mkPinInfo "vfd.ready" (VBit true) TBit Out_ 0 (Some "at-speed"%string))).
  apply (list_elem_of_lookup_2 _ 1). vm_compute. reflexivity.
Defined.

End Adapter.

(** * The lifetime of the adapter's own HAL component *)
Module Lifetime.
Import HalComponent.

(** The answers of HAL while an adapter is constructed; [hal_malloc] may fail. *)
Record Answers := mkAnswers { ans_init : Z; ans_ready : Z; ans_malloc : bool }.
Inductive HalCall := HalInit (nm : string) (result : Z) | HalReady (id result : Z) | HalExit (id : Z).

Record LinuxCncHalAdapter := mkAdapter {
  component_id : Z; component_name : string; dynamic_items : Slab }.

(** [std::numeric_limits<long>::max() / sizeof(hal_data_u)]. *)
Definition max_capacity : Z := (2 ^ 63 - 1) / 8.

(** The constructor, with the HAL calls it makes. *)
Definition open (name_len : nat) (a : Answers) (nm : string) (capacity : Z) :
    outcome Z LinuxCncHalAdapter * list HalCall :=
  if bool_decide (nm = EmptyString) || (name_len <? String.length nm)%nat then (Err (- EINVAL), [])
  else if (capacity =? 0) || (max_capacity <? capacity) then (Err (- EINVAL), [])
  else if ans_init a <=? 0 then (Err (ans_init a), [HalInit nm (ans_init a)])
  else if negb (ans_ready a =? 0) then
    (Err (ans_ready a),
     [HalInit nm (ans_init a); HalReady (ans_init a) (ans_ready a); HalExit (ans_init a)])
  else if negb (ans_malloc a) then
    (Err (- EBUSY), [HalInit nm (ans_init a); HalReady (ans_init a) 0; HalExit (ans_init a)])
  else (Ok (mkAdapter (ans_init a) nm (make_slab (Z.to_nat capacity))),
        [HalInit nm (ans_init a); HalReady (ans_init a) 0]).

(** The destructor, and the move assignment, of possibly moved-from adapters. *)
Definition destroy (a : option LinuxCncHalAdapter) : list HalCall :=
  match a with
  | Some x => if 0 <? component_id x then [HalExit (component_id x)] else []
  | None => []
  end.

Definition move_assign (self other : option LinuxCncHalAdapter) :
    option LinuxCncHalAdapter * option LinuxCncHalAdapter * list HalCall :=
  (other, None, destroy self).

(** The component ids that are registered after a sequence of calls. *)
Definition registered_step (s : gset Z) (c : HalCall) : gset Z :=
  match c with
  | HalInit _ id => if 0 <? id then s ∪ {[id]} else s
  | HalReady _ _ => s
  | HalExit id => s ∖ {[id]}
  end.
Definition registered (cs : list HalCall) (s : gset Z) : gset Z := foldl registered_step s cs.

#[local] Arguments Z.ltb : simpl never.

(** A constructor that throws leaves no component behind, one that returns leaves
    exactly the adapter's, and the destructor removes it. *)
Lemma open_registration name_len a nm capacity s :
  ans_init a ∉ s ->
  match open name_len a nm capacity with
  | (Err _, cs) => registered cs s = s
  | (Ok x, cs) => registered cs s = s ∪ {[component_id x]} /\ registered (cs ++ destroy (Some x)) s = s
  end.
Proof.
  intros Hs. unfold open. destruct (_ || _); [done|]. destruct (_ || _); [done|].
  destruct (ans_init a <=? 0) eqn:Ei; bool_to_prop.
  { cbn. by rewrite (proj2 (Z.ltb_ge _ _)) by lia. }
  assert (Hi : (0 <? ans_init a) = true) by (apply Z.ltb_lt; lia).
  destruct (negb (ans_ready a =? 0)); [cbn; rewrite Hi; set_solver|].
  destruct (negb (ans_malloc a)); [cbn; rewrite Hi; set_solver|].
  cbn. rewrite Hi. split; [done|]. cbn. set_solver.
Qed.

End Lifetime.

(** * The message mapping *)
Module Mapping.
Import Shm Adapter.
Export RemoteComponent.Registry (HalScalar, mkScalar, scalar_type, scalar_value, HalItemRef, mkRef,
  HAL_ITEM_KIND_PIN, HAL_ITEM_KIND_PARAM, type_code, decode_hal_type, decode_hal_scalar,
  encode_hal_scalar).

Definition HAL_ITEM_KIND_SIGNAL : Z := 3.

Record HalComponentInfo := mkComponentMsg {
  cm_id : Z; cm_name : string; cm_kind : Z; cm_ready : bool; cm_pid : Z }.
Record HalFunctionInfo := mkFunctionMsg {
  fm_name : string; fm_owner_id : Z; fm_owner_name : string; fm_uses_fp : bool;
  fm_reentrant : bool; fm_users : Z; fm_runtime : f64; fm_max_runtime : f64;
  fm_max_runtime_increased : bool }.
Record HalThreadInfo := mkThreadMsg {
  tm_name : string; tm_period_ns : Z; tm_priority : Z; tm_uses_fp : bool; tm_running : bool;
  tm_runtime : f64; tm_max_runtime : f64; tm_functions : list string }.
Record HalPinInfo := mkPinMsg {
  pm_name : string; pm_value : option HalScalar; pm_type : Z; pm_direction : Z; pm_owner_id : Z;
  pm_signal_name : string }.
Record HalParamInfo := mkParamMsg {
  am_name : string; am_value : option HalScalar; am_type : Z; am_direction : Z; am_owner_id : Z }.
Record HalSignalInfo := mkSignalMsg {
  sm_name : string; sm_value : option HalScalar; sm_type : Z; sm_driver : string;
  sm_readers : Z; sm_writers : Z; sm_bidirs : Z }.
Record HalTopology := mkTopologyMsg {
  m_components : list HalComponentInfo;
  m_functions : list HalFunctionInfo;
  m_threads : list HalThreadInfo;
  m_pins : list HalPinInfo;
  m_params : list HalParamInfo;
  m_signals : list HalSignalInfo;
}.

Definition encode_pin_direction (d : HalAdapterPinDirection) : Z :=
  match d with In_ => 1 | Out_ => 2 | Io_ => 3 end.
Definition encode_param_direction (d : HalAdapterParamDirection) : Z :=
  match d with ReadOnly => 1 | ReadWrite => 2 end.
Definition encode_component_kind (k : HalAdapterComponentKind) : Z :=
  match k with User => 1 | Realtime => 2 | Other => 3 | Unknown => 4 end.

Definition decode_hal_reference (source : HalItemRef) : option HalAdapterReference :=
  let nm := RemoteComponent.Registry.ref_name source in
  let kind := RemoteComponent.Registry.ref_kind source in
  if bool_decide (nm = EmptyString) then None
  else if kind =? HAL_ITEM_KIND_PIN then Some (mkReference Pin nm)
  else if kind =? HAL_ITEM_KIND_PARAM then Some (mkReference Param nm)
  else if kind =? HAL_ITEM_KIND_SIGNAL then Some (mkReference Signal nm)
  else None.

(** An absent optional leaves the field at its default. *)
Definition encode_component (c : HalAdapterComponentInfo) : HalComponentInfo :=
  mkComponentMsg (ci_id c) (ci_name c) (encode_component_kind (ci_kind c)) (ci_ready c)
    (default 0 (ci_pid c)).

Definition encode_runtime (r : option Z) : f64 :=
  match r with Some z => f64_of_Z z | None => f64_zero end.

Definition encode_function (f : HalAdapterFunctionInfo) : HalFunctionInfo :=
  mkFunctionMsg (fi_name f) (fi_owner_id f) (fi_owner_name f) (fi_uses_fp f) (fi_reentrant f)
    (fi_users f) (encode_runtime (fi_runtime f)) (f64_of_Z (fi_max_runtime f))
    (fi_max_runtime_increased f).

Definition encode_thread (t : HalAdapterThreadInfo) : HalThreadInfo :=
  mkThreadMsg (ti_name t) (u64_wrap (ti_period_ns t)) (ti_priority t) (ti_uses_fp t)
    (ti_running t) (encode_runtime (ti_runtime t)) (f64_of_Z (ti_max_runtime t)) (ti_functions t).

Definition encode_pin (p : HalAdapterPinInfo) : HalPinInfo :=
  mkPinMsg (pi_name p) (Some (encode_hal_scalar (pi_value p))) (type_code (pi_type p))
    (encode_pin_direction (pi_direction p)) (pi_owner_id p) (default EmptyString (pi_signal_name p)).

Definition encode_param (p : HalAdapterParamInfo) : HalParamInfo :=
  mkParamMsg (ai_name p) (Some (encode_hal_scalar (ai_value p))) (type_code (ai_type p))
    (encode_param_direction (ai_direction p)) (ai_owner_id p).

Definition encode_signal (s : HalAdapterSignalInfo) : HalSignalInfo :=
  mkSignalMsg (si_name s) (Some (encode_hal_scalar (si_value s))) (type_code (si_type s))
    (default EmptyString (si_driver s)) (u32_wrap (si_readers s)) (u32_wrap (si_writers s))
    (u32_wrap (si_bidirs s)).

Definition encode_hal_topology (t : HalAdapterTopology) : HalTopology :=
  mkTopologyMsg (encode_component <$> t_components t) (encode_function <$> t_functions t)
    (encode_thread <$> t_threads t) (encode_pin <$> t_pins t) (encode_param <$> t_params t)
    (encode_signal <$> t_signals t).

(** Every value survives the wire. *)
Lemma scalar_roundtrip v : decode_hal_scalar (encode_hal_scalar v) = Some v.
Proof. unfold decode_hal_scalar, encode_hal_scalar. cbn. by rewrite Z.eqb_refl. Qed.

Lemma type_roundtrip t : decode_hal_type (type_code t) = Some t.
Proof. by destruct t. Qed.

Lemma decode_reference_name r a :
  decode_hal_reference r = Some a -> ref_name a = RemoteComponent.Registry.ref_name r.
Proof. unfold decode_hal_reference. intros. split_tests; done. Qed.

End Mapping.
