(* ===== verification/HalService.v ===== *)
(** The HAL service ([hal/grpc/service_hal.cc]).

    [Rpc] models the unary calls (reads, writes, signals, value subscriptions) and the
    sampling pass that feeds the value telemetry; [Topology] the topology snapshot,
    its sequence and the streams that watch it.  The calls run on the HAL worker,
    which has one thread, so each of them is one step. *)
From Stdlib Require Import SpecFloat Ascii String.
From S2P Require Import Prelude Float64 CallbackRuntime StreamWrite HalTelemetry RemoteComponent HalAdapter.

Local Open Scope Z_scope.

(** * The unary calls *)
Module Rpc.
Import Shm Adapter Mapping.

#[local] Existing Instance Values.HalTelemetryType_eq_dec.

Inductive StatusCode :=
| OK | CANCELLED | INVALID_ARGUMENT | NOT_FOUND | RESOURCE_EXHAUSTED | FAILED_PRECONDITION
| ABORTED | INTERNAL.

#[export] Instance StatusCode_eq_dec : EqDecision StatusCode.
Proof. solve_decision. Defined.

Definition kMaxHalBatchItems : Z := 1024.

(** The enumerators of [HalAdapterItemKind] are 0, 1 and 2. *)
Definition item_digit (k : HalAdapterItemKind) : string :=
  match k with Pin => "0" | Param => "1" | Signal => "2" end.

Definition reference_key (r : HalAdapterReference) : string :=
  String.append (item_digit (ref_kind r)) (String.append ":" (ref_name r)).

Definition hal_error (code : Z) : StatusCode :=
  if code =? - ENOENT then NOT_FOUND
  else if code =? - EBUSY then RESOURCE_EXHAUSTED
  else if code =? - ECANCELED then CANCELLED
  else if code =? - EINVAL then INVALID_ARGUMENT
  else FAILED_PRECONDITION.

(** ** Reads and writes *)

Record HalReadValue := mkReadValue { rv_item : HalItemRef; rv_value : HalScalar }.

(** The loop over the items of a read request. *)
Fixpoint decode_items (items : list HalItemRef) (token : stop_token) (unique : gset string)
    (references : list HalAdapterReference) :
    outcome StatusCode (list HalAdapterReference * stop_token) :=
  match items with
  | [] => Ok (references, token)
  | item :: rest =>
      let '(stop, token1) := stop_requested token in
      if stop then Err CANCELLED
      else
        match decode_hal_reference item with
        | None => Err INVALID_ARGUMENT
        | Some decoded =>
            if bool_decide (reference_key decoded ∈ unique) then Err INVALID_ARGUMENT
            else decode_items rest token1 ({[reference_key decoded]} ∪ unique)
                   (references ++ [decoded])
        end
  end.

(** The loop over the values that were read; it leaves at a missing item. *)
Fixpoint encode_values (items : list HalItemRef) (vs : list (option HalAdapterValue))
    (response : list HalReadValue) : StatusCode * list HalReadValue :=
  match vs, items with
  | [], _ => (OK, response)
  | None :: _, _ => (NOT_FOUND, response)
  | Some v :: vs', item :: items' =>
      encode_values items' vs' (response ++ [mkReadValue item (encode_hal_scalar v)])
  | Some _ :: _, [] => (OK, response)
  end.

Section Rpc.
Context `{HalPriv}.

Definition do_read (token : stop_token) (items : list HalItemRef) (h : Hal) :
    StatusCode * list HalReadValue :=
  if kMaxHalBatchItems <? Z.of_nat (length items) then (RESOURCE_EXHAUSTED, [])
  else
    match decode_items items token ∅ [] with
    | Err s => (s, [])
    | Ok (references, token1) =>
        match read_many h references token1 with
        | Err code => (hal_error code, [])
        | Ok vs => encode_values items vs []
        end
    end.

(** The loop over the writes of a request. *)
Fixpoint decode_writes (writes : list (HalItemRef * HalScalar)) (token : stop_token)
    (unique : gset string) (updates : list (HalAdapterReference * HalAdapterValue)) :
    outcome StatusCode (list (HalAdapterReference * HalAdapterValue) * stop_token) :=
  match writes with
  | [] => Ok (updates, token)
  | (item, scalar) :: rest =>
      let '(stop, token1) := stop_requested token in
      if stop then Err CANCELLED
      else
        match decode_hal_reference item, decode_hal_scalar scalar with
        | Some reference, Some value =>
            if bool_decide (reference_key reference ∈ unique) then Err INVALID_ARGUMENT
            else decode_writes rest token1 ({[reference_key reference]} ∪ unique)
                   (updates ++ [(reference, value)])
        | _, _ => Err INVALID_ARGUMENT
        end
  end.

Definition do_write (token : stop_token) (writes : list (HalItemRef * HalScalar)) (h : Hal) :
    Hal * (StatusCode * list HalReadValue) :=
  if kMaxHalBatchItems <? Z.of_nat (length writes) then (h, (RESOURCE_EXHAUSTED, []))
  else
    match decode_writes writes token ∅ [] with
    | Err s => (h, (s, []))
    | Ok (updates, token1) =>
        match write_many updates token1 h with
        | Err code => (h, (hal_error code, []))
        | Ok (h1, count, written) =>
            if negb (count =? length updates)%nat then (h1, (FAILED_PRECONDITION, []))
            else (h1, (OK, zip_with (fun w v => mkReadValue w.1 (encode_hal_scalar v)) writes written))
        end
    end.

(** ** Signals, the message level, the writer's metadata *)

Definition do_create_signal (nm : string) (type : Z) (h : Hal) :
    Hal * (StatusCode * option HalSignalInfo) :=
  match decode_hal_type type with
  | Some t =>
      if bool_decide (nm = EmptyString) then (h, (INVALID_ARGUMENT, None))
      else
        match create_signal nm t h with
        | (h1, Err code) => (h1, (hal_error code, None))
        | (h1, Ok false) => (h1, (INVALID_ARGUMENT, None))
        | (h1, Ok true) =>
            match topology h1 with
            | Err code => (h1, (hal_error code, None))
            | Ok topo =>
                match list_find (fun s => si_name s = nm) (t_signals topo) with
                | None => (h1, (INTERNAL, None))
                | Some (_, found) =>
                    let one := mkTopology [] [] [] [] [] [found] in
                    (h1, (OK, m_signals (encode_hal_topology one) !! 0%nat))
                end
            end
        end
  | None => (h, (INVALID_ARGUMENT, None))
  end.

Definition RTAPI_MESSAGE_LEVEL_NONE : Z := 1.
Definition RTAPI_MESSAGE_LEVEL_ALL : Z := 6.

Definition do_set_message_level (level : Z) (h : Hal) : Hal * StatusCode :=
  if (level <? RTAPI_MESSAGE_LEVEL_NONE) || (RTAPI_MESSAGE_LEVEL_ALL <? level)
  then (h, INVALID_ARGUMENT)
  else
    match set_message_level (level - 1) h with
    | (h1, Ok _) => (h1, OK)
    | (h1, Err code) => (h1, hal_error code)
    end.

Record HalWriterMetadata := mkWriterMetadata { writer_id : string; metadata_ready : bool }.
Definition do_get_writer_metadata (writer_ready : bool) : StatusCode * HalWriterMetadata :=
  (OK, mkWriterMetadata "linuxcnc-grpc-server" writer_ready).
Definition do_set_writer_ready (ready writer_ready : bool) : bool * StatusCode := (ready, OK).

(** ** Value subscriptions *)

Definition telemetry_kind (k : HalAdapterItemKind) : Values.HalTelemetryItemKind :=
  match k with Pin => Values.Pin | Param => Values.Param | Signal => Values.Signal end.

Definition telemetry_reference (r : HalAdapterReference) : Values.HalTelemetryReference :=
  Values.mkReference (telemetry_kind (ref_kind r)) (ref_name r).

Definition adapter_reference (r : Values.HalTelemetryReference) : HalAdapterReference :=
  match Values.ref_kind r with
  | Values.Pin => mkReference Pin (Values.ref_name r)
  | Values.Param => mkReference Param (Values.ref_name r)
  | Values.Signal => mkReference Signal (Values.ref_name r)
  end.

(** The two names of one variant type. *)
Definition telemetry_value (v : HalAdapterValue) : Values.HalTelemetryValue :=
  match v with
  | VBit b => Values.VBit b | VFloat x => Values.VFloat x | VS32 z => Values.VS32 z
  | VU32 z => Values.VU32 z | VS64 z => Values.VS64 z | VU64 z => Values.VU64 z
  end.

(** [static_cast<HalTelemetryType>(value->index() + 1)]. *)
Definition telemetry_type (v : HalAdapterValue) : Values.HalTelemetryType :=
  match v with
  | VBit _ => Values.Bit | VFloat _ => Values.Float | VS32 _ => Values.S32
  | VU32 _ => Values.U32 | VS64 _ => Values.S64 | VU64 _ => Values.U64
  end.

(** The period in milliseconds. *)
Definition subscription_period (value : Z) : option Z :=
  let value := if value =? 0 then 100 else value in
  if (value <? 50) || (60000 <? value) then None else Some value.

Fixpoint decode_subscription (items : list HalItemRef) (unique : gset string)
    (references : list HalAdapterReference) : outcome StatusCode (list HalAdapterReference) :=
  match items with
  | [] => Ok references
  | item :: rest =>
      match decode_hal_reference item with
      | None => Err INVALID_ARGUMENT
      | Some decoded =>
          if bool_decide (reference_key decoded ∈ unique) then Err INVALID_ARGUMENT
          else decode_subscription rest ({[reference_key decoded]} ∪ unique)
                 (references ++ [decoded])
      end
  end.

(** The type [prior] holds for a key: that of the first binding with the key. *)
Definition prior_type (existing : option Values.HalTelemetryDescriptor) (k : string) :
    option Values.HalTelemetryType :=
  d ← existing;
  ib ← list_find (fun b => Values.key (Values.bind_item b) = k) (Values.d_bindings d);
  Some (Values.bind_type ib.2).

Fixpoint resolve_loop (existing : option Values.HalTelemetryDescriptor)
    (references : list HalAdapterReference) (vs : list (option HalAdapterValue)) :
    outcome StatusCode (list Values.HalTelemetryResolvedItem) :=
  match references, vs with
  | r :: rest, v :: vs' =>
      let reference := telemetry_reference r in
      match (match v with
             | Some x => Some (telemetry_type x)
             | None => prior_type existing (Values.key reference)
             end) with
      | None => Err NOT_FOUND
      | Some t => items ← resolve_loop existing rest vs'; Ok (Values.mkResolved reference t :: items)
      end
  | _, _ => Ok []
  end.

(** The outer [Err] is a [HalAdapterError] that leaves the call. *)
Definition resolve_subscription_items (items : list HalItemRef)
    (existing : option Values.HalTelemetryDescriptor) (h : Hal) :
    outcome Z (outcome StatusCode (list Values.HalTelemetryResolvedItem)) :=
  if 1024 <? Z.of_nat (length items) then Ok (Err RESOURCE_EXHAUSTED)
  else
    match decode_subscription items ∅ [] with
    | Err s => Ok (Err s)
    | Ok references =>
        vs ← read_many h references None;
        Ok (resolve_loop existing references vs)
    end.

Record HalValueSubscription := mkSubscription {
  vs_subscription_id : string;
  vs_websocket_path : string;
  vs_revision : Z;
  vs_sample_period_ms : Z;
  vs_slots : list (Z * (Z * string) * Z);  (* slot, item, type *)
}.

(** The enumerators of the two telemetry enumerations. *)
Definition kind_number (k : Values.HalTelemetryItemKind) : Z :=
  match k with Values.Pin => 1 | Values.Param => 2 | Values.Signal => 3 end.
Definition type_number (t : Values.HalTelemetryType) : Z :=
  match t with
  | Values.Unavailable => 0 | Values.Bit => 1 | Values.Float => 2 | Values.S32 => 3
  | Values.U32 => 4 | Values.S64 => 5 | Values.U64 => 6
  end.

Definition encode_subscription (d : Values.HalTelemetryDescriptor) : HalValueSubscription :=
  mkSubscription (Values.d_subscription_id d) (Values.d_websocket_path d) (Values.d_revision d)
    (u32_wrap (Values.d_sample_period d))
    ((fun b => (Values.slot b, (kind_number (Values.ref_kind (Values.bind_item b)),
                                Values.ref_name (Values.bind_item b)),
                type_number (Values.bind_type b))) <$> Values.d_bindings d).

(** The store, the status and the response; [Err] is an escaping exception.
    [clock] and [draws] are the readings and random tokens the store takes; the
    inner [None] of [Values.create] (no fresh token among the draws) leaves the
    call undetermined. *)
Definition Answer : Type := Values.HalValueTelemetry * (StatusCode * option HalValueSubscription).

Definition do_create_value_subscription (items : list HalItemRef) (sample_period_ms : Z)
    (clock : Z * Z * Z) (draws : list string) (h : Hal) (t : Values.HalValueTelemetry) :
    outcome Z (option Answer) :=
  let '(now, now_ttl, now_due) := clock in
  if bool_decide (items = []) then Ok (Some (t, (INVALID_ARGUMENT, None)))
  else
    resolved ← resolve_subscription_items items None h;
    match resolved with
    | Err s => Ok (Some (t, (s, None)))
    | Ok its =>
        match subscription_period sample_period_ms with
        | None => Ok (Some (t, (INVALID_ARGUMENT, None)))
        | Some period =>
            Ok (match Values.create its period now now_ttl now_due draws t with
                | None => None
                | Some (t1, None) => Some (t1, (RESOURCE_EXHAUSTED, None))
                | Some (t1, Some d) => Some (t1, (OK, Some (encode_subscription d)))
                end)
        end
    end.

Definition do_update_value_subscription (sid : string) (expected_revision : Z)
    (items : list HalItemRef) (sample_period_ms now_due : Z) (h : Hal)
    (t : Values.HalValueTelemetry) : outcome Z Answer :=
  match Values.descriptor sid t with
  | None => Ok (t, (NOT_FOUND, None))
  | Some current =>
      if negb (Values.d_revision current =? expected_revision) then Ok (t, (ABORTED, None))
      else
        resolved ← resolve_subscription_items items (Some current) h;
        match resolved with
        | Err s => Ok (t, (s, None))
        | Ok its =>
            match subscription_period sample_period_ms with
            | None => Ok (t, (INVALID_ARGUMENT, None))
            | Some period =>
                Ok (match Values.update sid expected_revision its period now_due t with
                    | (t1, None) => (t1, (ABORTED, None))
                    | (t1, Some (d, _)) => (t1, (OK, Some (encode_subscription d)))
                    end)
            end
        end
  end.

Definition do_delete_value_subscription (sid : string) (t : Values.HalValueTelemetry) :
    Values.HalValueTelemetry * StatusCode :=
  if bool_decide (sid = EmptyString) then (t, INVALID_ARGUMENT)
  else ((Values.erase sid t).1, OK).

(** ** The sampling pass *)

Definition DueSample : Type := string * Z * list Values.HalTelemetryBinding.

(** The distinct references of the due samples, with the index of each key. *)
Definition add_reference (acc : list HalAdapterReference * gmap string nat)
    (b : Values.HalTelemetryBinding) : list HalAdapterReference * gmap string nat :=
  let '(references, indexes) := acc in
  let k := Values.key (Values.bind_item b) in
  match indexes !! k with
  | Some _ => (references, indexes)
  | None => (references ++ [adapter_reference (Values.bind_item b)],
             <[k := length references]> indexes)
  end.

Definition gather_references (samples : list DueSample) :
    list HalAdapterReference * gmap string nat :=
  foldl add_reference ([], ∅) (concat (snd <$> samples)).

(** The value published for a binding. *)
Definition published_value (vs : list (option HalAdapterValue)) (indexes : gmap string nat)
    (b : Values.HalTelemetryBinding) : Values.slot_value :=
  match indexes !! Values.key (Values.bind_item b) ≫= (fun i => vs !! i) with
  | Some (Some v) =>
      if bool_decide (telemetry_type v = Values.bind_type b) then Some (telemetry_value v) else None
  | _ => None
  end.

(** The publishing loop; [env] are the operations of other threads on the store
    before each publication. *)
Fixpoint publish_samples (samples : list DueSample) (vs : list (option HalAdapterValue))
    (indexes : gmap string nat) (env : list (list Values.Op)) (t : Values.HalValueTelemetry) :
    Values.HalValueTelemetry * list (nat * Z) :=
  match samples with
  | [] => (t, [])
  | (sid, rev, bs) :: rest =>
      let t1 := Values.run (default [] (head env)) t in
      let '(t2, wakes) := Values.publish sid rev (published_value vs indexes <$> bs) t1 in
      let '(t3, more) := publish_samples rest vs indexes (tail env) t2 in
      (t3, wakes ++ more)
  end.

Definition sample_telemetry (now : Z) (env : list (list Values.Op)) (h : Hal)
    (t : Values.HalValueTelemetry) :
    Values.HalValueTelemetry * outcome Z (list (nat * Z)) :=
  let '(t1, samples) := Values.due now t in
  let '(references, indexes) := gather_references samples in
  match read_many h references None with
  | Err code => (t1, Err code)
  | Ok vs =>
      let '(t2, wakes) := publish_samples samples vs indexes env t1 in (t2, Ok wakes)
  end.

(** ** Batches of writes *)

Lemma reference_key_inj a b : reference_key a = reference_key b -> a = b.
Proof. destruct a as [[] ?], b as [[] ?]; cbn; intros E; by simplify_eq/=. Qed.

Lemma encode_decode_scalar s v : decode_hal_scalar s = Some v -> encode_hal_scalar v = s.
Proof.
  destruct s as [t [x|]]; unfold decode_hal_scalar, encode_hal_scalar; cbn; [|done].
  destruct (t =? type_code (type_of x)) eqn:E; [|done]. bool_to_prop. by intros [= ->]; subst.
Qed.

(** The update a write of the request asks for. *)
Definition asks (w : HalItemRef * HalScalar) (u : HalAdapterReference * HalAdapterValue) : Prop :=
  decode_hal_reference w.1 = Some u.1 /\ decode_hal_scalar w.2 = Some u.2.

(** A request the service carries out: at most 1024 writes that decode, to distinct
    items, each of which exists with the type of its value and may be written. *)
Definition write_batch (h : Hal) (writes : list (HalItemRef * HalScalar))
    (us : list (HalAdapterReference * HalAdapterValue)) : Prop :=
  Z.of_nat (length writes) <= kMaxHalBatchItems /\ Forall2 asks writes us /\ NoDup us.*1
  /\ Forall (fun u => exists item, accepts (lists h) u item) us.

(** The cell a reference leads to. *)
Definition cell_of (l : Lists) (r : HalAdapterReference) : option loc :=
  item ← resolve_unlocked l r; r_data item.

Lemma decode_writes_ok writes token unique done_ us token1 :
  decode_writes writes token unique done_ = Ok (us, token1) ->
  NoDup done_.*1 -> (forall r, reference_key r ∈ unique <-> r ∈ done_.*1) ->
  exists more, us = done_ ++ more /\ Forall2 asks writes more /\ NoDup us.*1.
Proof.
  revert token unique done_. induction writes as [|[item scalar] writes IH]; intros token unique done_; cbn.
  { intros [= <- <-] Hn _. exists []. rewrite app_nil_r. by split_and!; [|constructor|]. }
  destruct (stop_requested token) as [[] token2]; [done|].
  destruct (decode_hal_reference item) as [r|] eqn:Er; [|done].
  destruct (decode_hal_scalar scalar) as [v|] eqn:Ev; [|done].
  case_bool_decide as Hin; [done|]. intros Hd Hn Hu.
  destruct (IH _ _ _ Hd) as (more & -> & Ha & Hn').
  - rewrite fmap_app. cbn. apply NoDup_app. split_and!; [done| |apply NoDup_singleton].
    intros x Hx ->%list_elem_of_singleton. by apply Hin, Hu.
  - intros x. rewrite elem_of_union, elem_of_singleton, fmap_app, elem_of_app, Hu. cbn.
    rewrite list_elem_of_singleton. split; [intros [->%reference_key_inj|]; auto|].
    intros [?| ->]; auto.
  - exists ((r, v) :: more). rewrite <- app_assoc in *. cbn. split_and!; [done| |done]. by constructor.
Qed.

Lemma decode_writes_complete writes us unique done_ :
  Forall2 asks writes us -> NoDup us.*1 ->
  (forall u, u ∈ us -> reference_key u.1 ∉ unique) ->
  decode_writes writes None unique done_ = Ok (done_ ++ us, None).
Proof.
  intros Hf. revert unique done_. induction Hf as [|[item scalar] [r v] writes us [Hr Hv] Hf IH];
    intros unique done_ Hn Hu; cbn; [by rewrite app_nil_r|].
  cbn in Hr, Hv. rewrite Hr, Hv. cbn in Hn. apply NoDup_cons in Hn as [Hr' Hn].
  rewrite bool_decide_eq_false_2 by (apply (Hu (r, v)); left).
  rewrite IH; [by rewrite <- app_assoc|done|].
  intros u Hin. rewrite elem_of_union, elem_of_singleton. intros [E%reference_key_inj|E].
  - apply Hr'. rewrite <- E. by apply list_elem_of_fmap_2.
  - by eapply Hu; [right|].
Qed.

Lemma cells_of_items l us items :
  Forall2 (accepts l) us items -> item_cells items = omap (cell_of l) us.*1.
Proof.
  induction 1 as [|u item us items (Hr & Hd & _) _ IH]; [done|]. cbn.
  unfold cell_of at 1. rewrite Hr. cbn. unfold item_cells in IH. by rewrite IH.
Qed.

Lemma accepts_cell l u item : accepts l u item -> cell_of l u.1 = r_data item.
Proof. intros (Hr & _). unfold cell_of. by rewrite Hr. Qed.

(** A read depends on its own cell only. *)
Lemma read_cell h h' r :
  attached h' = attached h -> lists h' = lists h ->
  (forall l, cell_of (lists h) r = Some l -> cell h' l = cell h l) ->
  read h' r = read h r.
Proof.
  intros Ha Hl Hc. unfold read, locked, read_unlocked. rewrite Ha, Hl.
  unfold cell_of in Hc. destruct (resolve_unlocked (lists h) r) as [item|]; [|done]. cbn in *.
  destruct (r_data item) as [l|]; [|done]. cbn. by rewrite Hc.
Qed.

(** The state after an accepted batch. *)
Lemma stored_reads h us items :
  attached h = true -> Forall2 (accepts (lists h)) us items -> Forall value_ok us.*2 ->
  let h' := foldl store h (zip (item_cells items) us.*2) in
  (NoDup (item_cells items) -> forall u, u ∈ us -> read h' u.1 = Ok (Some u.2))
  /\ (forall r, (forall l, cell_of (lists h) r = Some l -> l ∉ item_cells items) -> read h' r = read h r).
Proof.
  intros Ha Hf Hv h'.
  assert (Hz : (zip (item_cells items) us.*2).*1 = item_cells items).
  { apply fst_zip. rewrite length_fmap. by rewrite (item_cells_length _ _ _ Hf). }
  split.
  - intros Hn u Hu. apply list_elem_of_lookup in Hu as [i Hi].
    destruct (Forall2_lookup_l _ _ _ _ _ Hf Hi) as (item & Hit & Hacc).
    destruct Hacc as (Hr & [c Hd] & Ht & _).
    pose proof (item_cells_lookup _ _ _ _ _ Hf Hit) as Hc. rewrite Hd in Hc.
    unfold read, locked, read_unlocked, h'. rewrite store_attached, store_lists, Ha, Hr, Hd. cbn.
    destruct (cell_stores (zip (item_cells items) us.*2) h i c u.2) as [w ->].
    + by rewrite Hz.
    + apply lookup_zip_with_Some. exists c, u.2. split_and!; [done|done|].
      by rewrite list_lookup_fmap, Hi.
    + rewrite <- Ht, read_write_word; [done|].
      rewrite Forall_forall in Hv. apply Hv. apply list_elem_of_fmap_2. by eapply list_elem_of_lookup_2.
  - intros r Hr. apply read_cell; [apply store_attached|apply store_lists|].
    intros l Hl. apply cell_stores_other. rewrite Hz. by apply Hr.
Qed.

Lemma asks_echo writes us :
  Forall2 asks writes us ->
  zip_with (fun w v => mkReadValue w.1 (encode_hal_scalar v)) writes us.*2
  = (fun w => mkReadValue w.1 w.2) <$> writes.
Proof.
  induction 1 as [|w u writes us [_ Hv] _ IH]; [done|]. cbn. by rewrite IH, (encode_decode_scalar _ _ Hv).
Qed.

Lemma asks_unique writes us us' : Forall2 asks writes us -> Forall2 asks writes us' -> us = us'.
Proof.
  intros Hf. revert us'. induction Hf as [|w u writes us [H1 H2] _ IH]; intros us' Hf'.
  - by apply Forall2_nil_inv_l in Hf'.
  - apply Forall2_cons_inv_l in Hf' as (u' & us'' & [H1' H2'] & Hf' & ->).
    f_equal; [|by apply IH]. destruct u, u'; cbn in *; congruence.
Qed.

(** Without cancellation the batch is answered. *)
Lemma write_many_answers us h e : attached h = true -> write_many us None h <> Err e.
Proof.
  intros Ha. unfold write_many, locked. rewrite Ha.
  assert (Hr : exists items, resolve_updates (lists h) us None = Ok (items, None)).
  { induction us as [|[r v] us [items IH]]; cbn; [eauto|].
    destruct (resolve_unlocked _ _); [|eauto]. destruct (_ || _); [eauto|]. rewrite IH. cbn. eauto. }
  destruct Hr as [items ->]. cbn. destruct items as [its|]; [|done].
  generalize 0%nat ([] : list HalAdapterValue). revert h Ha us.
  induction its as [|item its IH]; intros h Ha [|u us] k ws; cbn; try done.
  unfold write_value. destruct (r_data item); [|done]. destruct (negb _); [done|]. cbn. by apply IH.
Qed.

(** C12: A write request takes effect completely or not at all.  It is answered OK
    only if it asks for at most 1024 writes to distinct existing items, each of the
    value's type and writable; then the answer echoes the request, every written
    item reads back as the requested value (the items being backed by distinct
    cells), and every item backed by another cell reads as before.  Any other answer
    leaves HAL unchanged, and a request that asks for such writes is refused only
    when it is cancelled or HAL is gone. *)
Theorem hal_write_atomic (h : Hal) (token : stop_token) (writes : list (HalItemRef * HalScalar)) :
  Forall (fun w => forall v, decode_hal_scalar w.2 = Some v -> value_ok v) writes ->
  let h' := (do_write token writes h).1 in
  let response := (do_write token writes h).2.2 in
  match (do_write token writes h).2.1 with
  | OK => exists us, write_batch h writes us
      /\ response = (fun w => mkReadValue w.1 w.2) <$> writes
      /\ (NoDup (omap (cell_of (lists h)) us.*1) -> forall u, u ∈ us -> read h' u.1 = Ok (Some u.2))
      /\ (forall r, (forall l, cell_of (lists h) r = Some l -> l ∉ omap (cell_of (lists h)) us.*1) ->
           read h' r = read h r)
  | _ => h' = h /\ response = []
      /\ (token = None -> attached h = true -> forall us, ~ write_batch h writes us)
  end.
Proof.
  intros Hok h' response. unfold h', response, do_write.
  destruct (kMaxHalBatchItems <? _) eqn:El; bool_to_prop.
  { cbn. split_and!; [done..|]. intros _ _ us (Hb & _). lia. }
  assert (Hfail : forall us, Forall2 asks writes us -> NoDup us.*1 ->
    decode_writes writes None ∅ [] = Ok (us, None)).
  { intros us Hf Hn. rewrite (decode_writes_complete _ us) by set_solver. done. }
  destruct (decode_writes writes token ∅ []) as [[us token1]|st] eqn:Ed.
  2: { assert (st <> OK).
       { clear -Ed. revert Ed. generalize (∅ : gset string) ([] : list (HalAdapterReference * HalAdapterValue)).
         revert token. induction writes as [|[item scalar] writes IH]; intros token u d; cbn; [done|].
         destruct (stop_requested token) as [[] token2]; [by intros [= <-]|].
         destruct (decode_hal_reference item), (decode_hal_scalar scalar); try by intros [= <-].
         case_bool_decide; [by intros [= <-]|]. apply IH. }
       destruct st; try done; cbn; (split_and!; [done..|]);
         intros -> _ us (_ & Hf & Hn & _); by rewrite (Hfail us) in Ed. }
  destruct (decode_writes_ok _ _ _ _ _ _ Ed) as (us' & E & Hf & Hn); [constructor|set_solver|].
  cbn in E. subst us'.
  assert (Hv : Forall value_ok us.*2).
  { clear -Hf Hok. induction Hf as [|w u writes us [_ Hw] _ IH]; cbn; [constructor|].
    apply Forall_cons in Hok as [H1 H2]. constructor; eauto. }
  assert (Hnot : forall token0, token = token0 -> token0 = None -> token1 = None).
  { intros t0 <- ->. rewrite (Hfail us) in Ed by done. congruence. }
  pose proof (write_many_cases us token1 h Hv) as Hc.
  destruct (write_many us token1 h) as [[[h1 n] written]|e] eqn:Ew.
  - destruct Hc as [(-> & -> & u & Hu & Hno)|(-> & -> & items & Ha & ->)].
    + destruct us as [|u0 us]; [by apply not_elem_of_nil in Hu|]. cbn.
      split_and!; [done..|]. intros _ _ us' (_ & Hf' & _ & Hacc).
      rewrite <- (asks_unique _ _ _ Hf Hf') in Hacc. rewrite Forall_forall in Hacc.
      destruct (Hacc u Hu) as [item Hi]. by eapply Hno.
    + rewrite Nat.eqb_refl. cbn. exists us.
      assert (Hatt : attached h = true).
      { unfold write_many, locked in Ew. by destruct (attached h). }
      destruct (stored_reads h us items Hatt Ha Hv) as [S1 S2].
      rewrite <- (cells_of_items _ _ _ Ha). split_and!; [split_and!; try done|by apply asks_echo|done|done].
      clear -Ha. induction Ha; constructor; eauto.
  - assert (hal_error e <> OK) by (unfold hal_error; repeat case_match; done).
    assert (Hr : token = None -> attached h = true -> forall us', ~ write_batch h writes us').
    { intros Ht Hatt _ _. rewrite (Hnot token eq_refl Ht) in Ew.
      by apply write_many_answers in Ew. }
    destruct (hal_error e) eqn:Ee; try done; cbn; by split_and!.
Qed.

(** ** Sampling *)

(** What a subscriber of a binding is to see: the value in HAL if it has the type of
    the binding, nothing otherwise. *)
Definition current_value (h : Hal) (b : Values.HalTelemetryBinding) : Values.slot_value :=
  match read h (adapter_reference (Values.bind_item b)) with
  | Ok (Some v) =>
      if bool_decide (telemetry_type v = Values.bind_type b) then Some (telemetry_value v) else None
  | _ => None
  end.

Lemma telemetry_key_inj a b : Values.key a = Values.key b -> a = b.
Proof. destruct a as [[] ?], b as [[] ?]; cbn; intros E; by simplify_eq/=. Qed.

(** Every key leads to the reference of its item. *)
Definition indexed (acc : list HalAdapterReference * gmap string nat) : Prop :=
  forall k i, acc.2 !! k = Some i ->
    exists r, Values.key r = k /\ acc.1 !! i = Some (adapter_reference r).

Lemma indexed_add acc b : indexed acc -> indexed (add_reference acc b).
Proof.
  destruct acc as [refs m]. intros Hi. unfold add_reference. cbn.
  destruct (m !! Values.key (Values.bind_item b)) as [j|] eqn:E; [done|].
  intros k i. cbn. intros [[<- <-]|[_ Hk]]%lookup_insert_Some.
  - exists (Values.bind_item b). split; [done|]. rewrite lookup_app_r by lia. by rewrite Nat.sub_diag.
  - destruct (Hi k i Hk) as (r & Hr & Hl). exists r. split; [done|]. by apply lookup_app_l_Some.
Qed.

Lemma add_reference_keeps bs acc k :
  is_Some (acc.2 !! k) -> is_Some ((foldl add_reference acc bs).2 !! k).
Proof.
  revert acc. induction bs as [|b bs IH]; intros acc Hk; [done|]. cbn. apply IH.
  destruct acc as [refs m]. unfold add_reference. cbn in *.
  destruct (m !! Values.key _) eqn:E; [done|]. cbn.
  destruct (decide (Values.key (Values.bind_item b) = k)) as [<-|Hne].
  - rewrite lookup_insert_eq. eauto.
  - by rewrite lookup_insert_ne.
Qed.

Lemma gathered bs acc :
  indexed acc ->
  indexed (foldl add_reference acc bs)
  /\ forall b, b ∈ bs -> is_Some ((foldl add_reference acc bs).2 !! Values.key (Values.bind_item b)).
Proof.
  revert acc. induction bs as [|b bs IH]; intros acc Hi; cbn; [set_solver|].
  destruct (IH _ (indexed_add _ b Hi)) as [IH1 IH2]. split; [done|].
  intros b' [->|Hb]%elem_of_cons; [|by apply IH2]. apply add_reference_keeps.
  destruct acc as [refs m]. unfold add_reference. cbn.
  destruct (m !! Values.key (Values.bind_item b)) eqn:E; cbn; [rewrite E|rewrite lookup_insert_eq]; eauto.
Qed.

(** The published values are the current ones. *)
Lemma published_current h samples vs sid rev bs b :
  attached h = true ->
  read_many h (gather_references samples).1 None = Ok vs -> (sid, rev, bs) ∈ samples -> b ∈ bs ->
  published_value vs (gather_references samples).2 b = current_value h b.
Proof.
  intros Ha Hr Hs Hb. unfold read_many, locked in Hr. rewrite Ha in Hr. apply read_loop_ok in Hr.
  destruct (gathered (concat (snd <$> samples)) ([], ∅)) as [Hi Hall]; [by intros k i|].
  fold (gather_references samples) in Hi, Hall.
  destruct (Hall b) as [i Hk].
  { apply list_elem_of_In, in_concat. exists bs. rewrite <- !list_elem_of_In. split; [|done].
    apply list_elem_of_fmap. by exists (sid, rev, bs). }
  destruct (Hi _ _ Hk) as (r & Er & Hl). apply telemetry_key_inj in Er as ->.
  destruct (Forall2_lookup_l _ _ _ _ _ Hr Hl) as (v & Hv & Hread).
  unfold published_value, current_value. rewrite Hk. cbn. rewrite Hv.
  unfold read, locked. by rewrite Ha, Hread.
Qed.

(** The operations of the WebSocket threads. *)
Definition is_transport (o : Values.Op) : Prop :=
  match o with
  | Values.OpClaim _ _ _ | Values.OpDetach _ _ | Values.OpSubscribe _ _ | Values.OpClose => True
  | _ => False
  end.

(** What they leave of a subscription. *)
Definition kept (st0 st : Values.State) : Prop :=
  Values.bindings st = Values.bindings st0 /\ Values.revision st = Values.revision st0
  /\ Values.values st = Values.values st0 /\ Values.sampled st = Values.sampled st0
  /\ Values.sequence st = Values.sequence st0.

Definition keeps (t t' : Values.HalValueTelemetry) : Prop :=
  forall i st, Values.states t' !! i = Some st -> exists st0, Values.states t !! i = Some st0 /\ kept st0 st.

Lemma kept_refl st : kept st st.
Proof. done. Qed.

Lemma kept_trans st1 st2 st3 : kept st1 st2 -> kept st2 st3 -> kept st1 st3.
Proof. intros (? & ? & ? & ? & ?) (? & ? & ? & ? & ?). unfold kept. split_and!; congruence. Qed.

Lemma keeps_store_refl t : keeps t t.
Proof. intros i st Hi. eauto using kept_refl. Qed.

Lemma keeps_trans t1 t2 t3 : keeps t1 t2 -> keeps t2 t3 -> keeps t1 t3.
Proof.
  intros H12 H23 i st Hi. destruct (H23 i st Hi) as (st2 & H2 & K2).
  destruct (H12 i st2 H2) as (st1 & H1 & K1). exists st1. split; [done|].
  by eapply kept_trans.
Qed.

Lemma keeps_expire now t : keeps t (Values.expire_locked now t).
Proof. intros i st [Hi _]%Values.expire_lookup. eauto using kept_refl. Qed.

Lemma keeps_put t st st0 :
  Values.states t !! Values.id st = Some st0 -> kept st0 st -> keeps t (Values.put_state st t).
Proof.
  intros H0 Hk i st'. cbn. intros [[<- <-]|[_ Hi]]%lookup_insert_Some; eauto using kept_refl.
Qed.

Lemma keeps_transport t o : Values.inv t -> is_transport o -> keeps t (Values.apply t o).
Proof.
  intros Hinv Ho. destruct o as [| |tok now due|sid now| | | | |sid cb]; try done; cbn.
  - unfold Values.claim. eapply keeps_trans; [apply (keeps_expire now)|].
    pose proof (Values.inv_expire now t Hinv) as H1. revert H1.
    generalize (Values.expire_locked now t) as t1. intros t1 H1.
    destruct (Values.tokens t1 !! tok) as [i|]; [|apply keeps_store_refl].
    destruct (Values.closed t1); [apply keeps_store_refl|].
    destruct (Values.states t1 !! i) as [st|] eqn:Hi; [|apply keeps_store_refl].
    destruct (Values.attached st); [apply keeps_store_refl|]. cbn.
    apply keeps_put with (st0 := st); [|done]. cbn. by rewrite (Values.inv_id _ H1 _ _ Hi).
  - unfold Values.detach. destruct (Values.states t !! sid) as [st|] eqn:Hi; [|apply keeps_store_refl].
    destruct (negb _); [apply keeps_store_refl|]. cbn.
    apply keeps_put with (st0 := st); [|done]. cbn. by rewrite (Values.inv_id _ Hinv _ _ Hi).
  - unfold Values.close. destruct (Values.closed t); [apply keeps_store_refl|]. intros i st. cbn. by rewrite lookup_empty.
  - unfold Values.subscribe. destruct (Values.states t !! sid) as [st|] eqn:Hi; [|apply keeps_store_refl].
    destruct (Registry.register cb _). cbn.
    apply keeps_put with (st0 := st); [|done]. cbn. by rewrite (Values.inv_id _ Hinv _ _ Hi).
Qed.

Lemma transport_valid o : is_transport o -> Values.valid_op o.
Proof. by destruct o. Qed.

Lemma keeps_transports t ops :
  Values.inv t -> Forall is_transport ops -> keeps t (Values.run ops t) /\ Values.inv (Values.run ops t).
Proof.
  intros Hinv Ho. revert t Hinv. induction Ho as [|o ops Ho _ IH]; intros t Hinv; [by split; [apply keeps_store_refl|]|].
  cbn. destruct (IH (Values.apply t o)) as [H1 H2].
  - by apply Values.telemetry_inv_apply, transport_valid.
  - split; [|done]. eapply keeps_trans; [|done]. by apply keeps_transport.
Qed.

(** The values of a subscription after it was sampled. *)
Definition shows (h : Hal) (st : Values.State) : Prop :=
  let e := current_value h <$> Values.bindings st in
  Values.sampled st = true /\ (Values.values st = e \/ Values.values_eq (Values.values st) e = true).

(** One publication. *)
Lemma publish_cases sid rev vs t :
  Values.inv t ->
  let t' := (Values.publish sid rev vs t).1 in
  Values.inv t'
  /\ (forall i, i <> sid -> Values.states t' !! i = Values.states t !! i)
  /\ (forall st', Values.states t' !! sid = Some st' -> exists st, Values.states t !! sid = Some st
      /\ Values.bindings st' = Values.bindings st /\ Values.revision st' = Values.revision st
      /\ (Values.revision st = rev -> length vs = length (Values.bindings st) ->
          Values.sampled st' = true
          /\ (Values.values st' = vs \/ Values.values_eq (Values.values st') vs = true))).
Proof.
  intros Hinv. split; [by apply Values.inv_publish|]. unfold Values.publish.
  destruct (Values.states t !! sid) as [st|] eqn:Hi; cbn; [|by split; [|intros ?; rewrite Hi]].
  pose proof (Values.inv_id _ Hinv _ _ Hi) as Hid. pose proof (Values.inv_lengths _ Hinv _ _ Hi) as Hlen.
  destruct (_ || _) eqn:Eg.
  { cbn. split; [done|]. intros st' Hs. rewrite Hi in Hs. injection Hs as <-. exists st.
    split_and!; [done..|]. intros Hr Hl. rewrite Hr, Z.eqb_refl, Hlen, Hl, Nat.eqb_refl in Eg. done. }
  destruct (negb (negb _ || _)) eqn:Eq; cbn.
  - split; [done|]. intros st' Hs. rewrite Hi in Hs. injection Hs as <-. exists st.
    split_and!; [done..|]. intros _ _. bool_to_prop. auto.
  - rewrite Hid. split; [intros i Hne; by rewrite lookup_insert_ne|].
    intros st' [[_ <-]|[? _]]%lookup_insert_Some; [|done]. exists st. cbn. split_and!; [done..|]. auto.
Qed.

Lemma publish_samples_spec h vs indexes samples env t :
  Values.inv t -> Forall (Forall is_transport) env -> NoDup samples.*1.*1 ->
  (forall sid rev bs, (sid, rev, bs) ∈ samples -> forall b, b ∈ bs ->
     published_value vs indexes b = current_value h b) ->
  (forall sid rev bs st, (sid, rev, bs) ∈ samples -> Values.states t !! sid = Some st ->
     Values.revision st = rev /\ Values.bindings st = bs) ->
  forall sid st', Values.states (publish_samples samples vs indexes env t).1 !! sid = Some st' ->
  exists st, Values.states t !! sid = Some st
    /\ Values.bindings st' = Values.bindings st /\ Values.revision st' = Values.revision st
    /\ if bool_decide (sid ∈ samples.*1.*1) then shows h st' else kept st st'.
Proof.
  revert env t. induction samples as [|[[sid0 rev0] bs0] samples IH]; intros env t Hinv Henv Hn Hp Hc sid st'; cbn.
  { intros Hs. exists st'. split_and!; done. }
  set (t1 := Values.run (default [] (head env)) t).
  destruct (keeps_transports t (default [] (head env)) Hinv) as [K1 Hinv1].
  { destruct Henv; [constructor|done]. }
  fold t1 in K1, Hinv1.
  pose proof (publish_cases sid0 rev0 (published_value vs indexes <$> bs0) t1 Hinv1) as (Hinv2 & Hother & Hself).
  destruct (Values.publish sid0 rev0 (published_value vs indexes <$> bs0) t1) as [t2 wakes] eqn:E2.
  cbn [fst] in Hinv2, Hother, Hself.
  cbn in Hn. apply NoDup_cons in Hn as [Hn0 Hn].
  assert (Hback : forall i st2, Values.states t2 !! i = Some st2 ->
    exists st, Values.states t !! i = Some st /\ Values.bindings st2 = Values.bindings st
      /\ Values.revision st2 = Values.revision st /\ (i = sid0 -> shows h st2) /\ (i <> sid0 -> kept st st2)).
  { intros i st2 Hi. destruct (decide (i = sid0)) as [->|Hne].
    - destruct (Hself st2 Hi) as (st1 & H1 & Hb & Hr & Hval). destruct (K1 _ _ H1) as (st & H0 & K).
      destruct (Hc sid0 rev0 bs0 st ltac:(left) H0) as [Er Eb].
      destruct K as (Kb & Kr & _). exists st. split_and!; [done|congruence|congruence| |done].
      intros _. destruct Hval as [Hs Hv]; [congruence|rewrite length_fmap; congruence|].
      assert (Evs : published_value vs indexes <$> bs0 = current_value h <$> Values.bindings st2).
      { rewrite Hb, Kb, Eb. apply list_fmap_ext. intros k b Hk. apply (Hp sid0 rev0 bs0); [left|].
        by eapply list_elem_of_lookup_2. }
      unfold shows. rewrite <- Evs. auto.
    - rewrite Hother in Hi by done. destruct (K1 _ _ Hi) as (st & H0 & K).
      exists st. pose proof K as (Kb & Kr & _). by split_and!. }
  specialize (IH (tail env) t2 Hinv2).
  destruct (publish_samples samples vs indexes (tail env) t2) as [t3 more]. cbn [fst] in IH |- *.
  intros Hs. destruct (IH) with (sid := sid) (st' := st') as (st2 & H2 & Eb2 & Er2 & Hres); try done.
  - by destruct Henv.
  - intros ? ? ? ?. eapply Hp. by right.
  - intros s r b st Hin Hst. destruct (Hback _ _ Hst) as (st0 & H0 & Eb & Er & _).
    destruct (Hc s r b st0 ltac:(by right) H0). split; congruence.
  - destruct (Hback _ _ H2) as (st & H0 & Eb & Er & Hself' & Hkept).
    exists st. split_and!; [done|congruence|congruence|].
    destruct (decide (sid = sid0)) as [->|Hne].
    + rewrite (bool_decide_eq_true_2 (sid0 ∈ sid0 :: _)) by left.
      rewrite bool_decide_eq_false_2 in Hres by done.
      destruct Hres as (Kb & _ & Kv & Ks & _). unfold shows. rewrite Ks, Kv, Kb. by apply Hself'.
    + case_bool_decide as Hin; case_bool_decide as Hin'; try done.
      * exfalso. apply Hin'. by right.
      * apply elem_of_cons in Hin' as [?|?]; done.
      * by eapply kept_trans, Hres; apply Hkept.
Qed.

(** C14: A sampling pass publishes to each subscription exactly what HAL holds.  After
    the pass, whatever the WebSocket threads did meanwhile, every remaining
    subscription that was due is sampled and each of its slots has the value a read
    of its item returns, or nothing when the item is gone or has another type (up to
    the equality that suppresses a publication); every other subscription is as it
    was.  No subscription changes its items or its revision. *)
Theorem sampling_exact (h : Hal) (now : Z) (env : list (list Values.Op))
    (t t' : Values.HalValueTelemetry) (wakes : list (nat * Z)) :
  Values.inv t -> Forall (Forall is_transport) env ->
  sample_telemetry now env h t = (t', Ok wakes) ->
  forall sid st', Values.states t' !! sid = Some st' ->
  exists st, Values.states t !! sid = Some st
    /\ Values.bindings st' = Values.bindings st /\ Values.revision st' = Values.revision st
    /\ if Values.is_due now st then shows h st' else kept st st'.
Proof.
  intros Hinv Henv Hsample sid st' Hs. unfold sample_telemetry in Hsample.
  pose proof (Values.inv_due now t Hinv) as Hinv1.
  set (samples := (Values.due now t).2) in *. set (t1 := (Values.due now t).1) in *.
  rewrite (surjective_pairing (Values.due now t)) in Hsample. fold samples t1 in Hsample.
  rewrite (surjective_pairing (gather_references samples)) in Hsample.
  destruct (read_many h (gather_references samples).1 None) as [vs|] eqn:Er; [|done].
  assert (Hatt : attached h = true).
  { unfold read_many, locked in Er. by destruct (attached h). }
  assert (Hdue : forall i st1, Values.states t1 !! i = Some st1 -> exists st, Values.states t !! i = Some st
    /\ kept st st1 /\ Values.expired now st = false).
  { intros i st1. unfold t1, Values.due. cbn [fst Values.states]. rewrite lookup_fmap.
    intros (st & [Hi He]%Values.expire_lookup & ->)%fmap_Some. exists st.
    destruct (Values.is_due now st); by split_and!. }
  assert (Hin : forall i rev bs, (i, rev, bs) ∈ samples <-> exists st,
    Values.states t !! i = Some st /\ Values.expired now st = false /\ Values.is_due now st = true
    /\ rev = Values.revision st /\ bs = Values.bindings st).
  { intros i rev bs. unfold samples, Values.due. cbn [snd]. rewrite list_elem_of_fmap. split.
    - intros ([j st] & [= -> -> ->] & [Hd [Hj He]%elem_of_map_to_list%Values.expire_lookup]%list_elem_of_filter).
      cbn in *. eauto 10.
    - intros (st & Hi & He & Hd & -> & ->). exists (i, st). split; [done|].
      apply list_elem_of_filter. split; [done|]. by apply elem_of_map_to_list, Values.expire_lookup. }
  assert (Hnd : NoDup samples.*1.*1).
  { unfold samples, Values.due. cbn [snd]. rewrite <- !list_fmap_compose.
    apply (NoDup_fmap_filter (fun kv : string * Values.State => kv.1)), NoDup_fst_map_to_list. }
  pose proof (publish_samples_spec h vs (gather_references samples).2 samples env t1 Hinv1 Henv Hnd) as P.
  destruct (publish_samples samples vs (gather_references samples).2 env t1) as [t2 w] eqn:Ep.
  injection Hsample as -> ->.
  destruct (P ltac:(intros; by eapply published_current)) with (sid := sid) (st' := st')
    as (st1 & H1 & Eb & Erv & Hres); [|done|].
  - intros i rev bs st1 (st & Hi & He & Hd & -> & ->)%Hin H1.
    destruct (Hdue _ _ H1) as (st0 & H0 & (Kb & Kr & _) & _). rewrite Hi in H0. injection H0 as <-. done.
  - destruct (Hdue _ _ H1) as (st & H0 & K & He). pose proof K as (Kb & Kr & _).
    exists st. split_and!; [done|congruence|congruence|].
    destruct (Values.is_due now st) eqn:Ed.
    + rewrite bool_decide_eq_true_2 in Hres; [done|].
      apply list_elem_of_fmap. exists (sid, Values.revision st). split; [done|].
      apply list_elem_of_fmap. exists (sid, Values.revision st, Values.bindings st). split; [done|].
      apply Hin. eauto 10.
    + rewrite bool_decide_eq_false_2 in Hres; [by eapply kept_trans|].
      intros ([s r] & -> & ([[s' r'] bs] & [= -> ->] & Hs')%list_elem_of_fmap)%list_elem_of_fmap.
      apply Hin in Hs' as (st0 & H0' & _ & Hd & _). cbn in *. congruence.
Qed.

End Rpc.

(** A float pin and a parameter are set in one request. *)
Definition sample_writes : list (HalItemRef * HalScalar) :=
  [(mkRef HAL_ITEM_KIND_PIN "jog.scale", encode_hal_scalar (VFloat (f64_of_Z 7)));
   (mkRef HAL_ITEM_KIND_PARAM "pid.x.limit", encode_hal_scalar (VU32 7))].
Definition sample_updates : list (HalAdapterReference * HalAdapterValue) :=
  [(mkReference Pin "jog.scale", VFloat (f64_of_Z 7)); (mkReference Param "pid.x.limit", VU32 7)].

Lemma hal_write_atomic_witness :
  let after := (@do_write list_priv None sample_writes sample_hal).1 in
  @read list_priv after (mkReference Param "pid.x.limit") = Ok (Some (VU32 7))
  /\ @read list_priv after (mkReference Signal "at-speed") = Ok (Some (VBit true)).
Proof.
  assert (Hv : Forall (fun w => forall v, decode_hal_scalar w.2 = Some v -> value_ok v) sample_writes).
  { unfold sample_writes. rewrite !Forall_cons. split_and!; [| |apply Forall_nil_2];
      intros v E; vm_compute in E; injection E as <-; vm_compute; done. }
  pose proof (@hal_write_atomic list_priv sample_hal None sample_writes Hv) as W. cbn zeta in W.
  assert (E : (@do_write list_priv None sample_writes sample_hal).2.1 = OK) by (vm_compute; reflexivity).
  rewrite E in W. destruct W as (us & (_ & Hf & _) & _ & Hsame & Hother).
  assert (us = sample_updates) as ->.
  { apply (asks_unique sample_writes); [exact Hf|]. repeat constructor. }
  assert (Hn : NoDup (omap (@cell_of list_priv (lists sample_hal)) sample_updates.*1)).
  { apply (bool_decide_unpack _). vm_compute. exact I. }
  assert (Hin : (mkReference Param "pid.x.limit", VU32 7) ∈ sample_updates) by (right; left).
  specialize (Hsame Hn _ Hin). specialize (Hother (mkReference Signal "at-speed")). cbn [fst snd] in Hsame.
  assert (Hr : @read list_priv sample_hal (mkReference Signal "at-speed") = Ok (Some (VBit true)))
    by (vm_compute; reflexivity).
  rewrite Hr in Hother. split; [exact Hsame|]. apply Hother.
  intros l Hl. vm_compute in Hl. injection Hl as <-.
  apply (bool_decide_unpack _). vm_compute. exact I.
Defined.

(** A claimed subscription of a float pin, of a parameter and of a pin that is gone. *)
Definition sample_store : Values.HalValueTelemetry :=
  Values.run
    [Values.OpCreate
       [Values.mkResolved (Values.mkReference Values.Pin "jog.scale") Values.Float;
        Values.mkResolved (Values.mkReference Values.Param "pid.x.cycles") Values.S32;
        Values.mkResolved (Values.mkReference Values.Pin "gone") Values.Bit]
       100 0 0 0 ["id"; "token"]; Values.OpClaim "token" 10 10]%string (Values.make 4 30000).

Lemma sampling_exact_witness :
  let after := (@sample_telemetry list_priv 200 [] sample_hal sample_store).1 in
  exists st, Values.states after !! "id"%string = Some st /\ Values.sampled st = true
    /\ length (Values.values st) = 3%nat.
Proof.
  intros after.
  assert (Hinv : Values.inv sample_store).
  { apply Values.telemetry_inv_run; [apply Values.inv_empty|]. repeat constructor; done. }
  destruct (Values.states after !! "id"%string) as [st|] eqn:Es; [|by vm_compute in Es].
  destruct (@sampling_exact list_priv sample_hal 200 [] sample_store after [] Hinv (Forall_nil_2 _)
    ltac:(vm_compute; reflexivity) "id"%string st Es) as (st0 & H0 & _ & _ & Hres).
  assert (Hd : Values.is_due 200 st0 = true).
  { vm_compute in H0. injection H0 as <-. vm_compute. reflexivity. }
  rewrite Hd in Hres. exists st. split_and!; [done|apply Hres|].
  vm_compute in Es. injection Es as <-. vm_compute. reflexivity.
Defined.

End Rpc.

(** * The topology and its watchers *)
Module Topology.
Import Shm Adapter Mapping.

#[local] Existing Instance Gate.GateState_eq_dec.

(** ** The snapshot *)

(** The structure of a topology: the values and the run times are cleared. *)
Definition structural (t : HalTopology) : HalTopology :=
  mkTopologyMsg (m_components t)
    ((fun f => mkFunctionMsg (fm_name f) (fm_owner_id f) (fm_owner_name f) (fm_uses_fp f)
        (fm_reentrant f) (fm_users f) f64_zero f64_zero false) <$> m_functions t)
    ((fun x => mkThreadMsg (tm_name x) (tm_period_ns x) (tm_priority x) (tm_uses_fp x)
        (tm_running x) f64_zero f64_zero (tm_functions x)) <$> m_threads t)
    ((fun p => mkPinMsg (pm_name p) None (pm_type p) (pm_direction p) (pm_owner_id p)
        (pm_signal_name p)) <$> m_pins t)
    ((fun p => mkParamMsg (am_name p) None (am_type p) (am_direction p) (am_owner_id p)) <$> m_params t)
    ((fun s => mkSignalMsg (sm_name s) None (sm_type s) (sm_driver s) (sm_readers s) (sm_writers s)
        (sm_bidirs s)) <$> m_signals t).

(** [TopologySnapshot], and the event that carries it. *)
Record Snapshot := mkSnapshot { seq : Z; topology : HalTopology }.

(** [names]: the structure each sequence number was given to, and [published]: the
    greatest sequence published; neither is read by an operation. *)
Record State := mkState {
  topology_serialized : string;
  topology_snapshot : option Snapshot;
  topology_sequence : Z;
  last_published : Z;
  names : gmap Z string;
  published : Z;
}.

Definition fresh_state : State := mkState EmptyString None 0 0 ∅ 0.

(** ** The stream of one watcher *)

Inductive Status := OK | CANCELLED | RESOURCE_EXHAUSTED | UNAVAILABLE.

#[export] Instance Status_eq_dec : EqDecision Status.
Proof. solve_decision. Defined.

Abbreviation Deferred := (DeferredFinish.DeferredWriteFinish (Status := Status)).

(** [message]: the event being built; [wire]: the event handed to gRPC. *)
Record Reactor := mkReactor {
  after_ : Z;
  writing_sequence : Z;
  admitted : bool;
  message : option Snapshot;
  wire : option Snapshot;
  pending : option Snapshot;
  subscribed : bool;
  write_finish : Deferred;
  gate : Gate.GateState;
  finished : option Status;
}.

Definition make (adm : bool) : Reactor :=
  mkReactor 0 0 adm None None None false DeferredFinish.make Gate.Open None.

Definition set_pending (p : option Snapshot) (r : Reactor) : Reactor :=
  mkReactor (after_ r) (writing_sequence r) (admitted r) (message r) (wire r) p (subscribed r)
    (write_finish r) (gate r) (finished r).
Definition set_subscribed (b : bool) (r : Reactor) : Reactor :=
  mkReactor (after_ r) (writing_sequence r) (admitted r) (message r) (wire r) (pending r) b
    (write_finish r) (gate r) (finished r).
Definition set_write_finish (d : Deferred) (r : Reactor) : Reactor :=
  mkReactor (after_ r) (writing_sequence r) (admitted r) (message r) (wire r) (pending r)
    (subscribed r) d (gate r) (finished r).
Definition set_after (a : Z) (r : Reactor) : Reactor :=
  mkReactor a (writing_sequence r) (admitted r) (message r) (wire r) (pending r)
    (subscribed r) (write_finish r) (gate r) (finished r).

(** [offer] and [start_write] in the steps another thread may see: the tests, the
    message with its sequence, and the start of the write. *)
Inductive Offer := Idle | Offered (s : Snapshot) | Tested (s : Snapshot) | Built (s : Snapshot).

Definition offer_step (o : Offer) (r : Reactor) : Offer * Reactor :=
  match o with
  | Idle => (Idle, r)
  | Offered s =>
      if (seq s =? after_ r) || DeferredFinish.termination_requested (write_finish r)
         || negb (bool_decide (gate r = Gate.Open))
      then (Idle, r)
      else if DeferredFinish.write_in_flight (write_finish r) then
        (Idle,
         if (writing_sequence r <? seq s)
            && match pending r with None => true | Some p => seq p <? seq s end
         then set_pending (Some s) r else r)
      else (Tested s, r)
  | Tested s =>
      (Built s, mkReactor (after_ r) (seq s) (admitted r) (Some s) (wire r) (pending r)
                  (subscribed r) (write_finish r) (gate r) (finished r))
  | Built s =>
      let '(d, started) := DeferredFinish.try_start_write (write_finish r) in
      (Idle, if started
             then mkReactor (after_ r) (writing_sequence r) (admitted r) (message r) (message r)
                    (pending r) (subscribed r) d (gate r) (finished r)
             else r)
  end.

(** [start_write] within one call. *)
Definition start_write (s : Snapshot) (r : Reactor) : Reactor :=
  if seq s =? after_ r then r
  else let '(o, r1) := offer_step (Tested s) r in (offer_step o r1).2.

(** [finish_if_ready] *)
Definition finish_if_ready (r : Reactor) : Reactor * bool :=
  let '(d, st) := DeferredFinish.take_finish_status (write_finish r) in
  match st with
  | None => (set_write_finish d r, false)
  | Some s =>
      (if bool_decide (gate r = Gate.Open)
       then mkReactor (after_ r) (writing_sequence r) (admitted r) (message r) (wire r) (pending r)
              false d Gate.Finishing (Some s)
       else set_write_finish d r, true)
  end.

Definition request_finish (st : Status) (r : Reactor) : Reactor :=
  let r1 := set_pending None (set_subscribed false r) in
  (finish_if_ready (set_write_finish (DeferredFinish.request_finish st (write_finish r1)) r1)).1.

Definition shutdown (r : Reactor) : Reactor := request_finish UNAVAILABLE (set_subscribed false r).

Definition on_write_done (ok : bool) (r : Reactor) : Reactor :=
  let '(r1, finishing) :=
    finish_if_ready (set_write_finish (DeferredFinish.complete_write OK ok (write_finish r)) r) in
  if negb finishing && ok then
    let r2 := set_after (writing_sequence r1) r1 in
    match pending r2 with
    | Some p => start_write p (set_pending None r2)
    | None => r2
    end
  else r1.

Definition on_cancel (r : Reactor) : Reactor := request_finish CANCELLED r.

(** [OnDone]: the reactor ends; its unit of the stream admission is given back. *)
Definition on_done (r : Reactor) : Reactor :=
  mkReactor (after_ r) (writing_sequence r) false (message r) (wire r) (pending r) false
    (write_finish r) Gate.Done (finished r).

(** ** The service and one watcher

    [Begin]: the RPC has not arrived; [Subscribed]: the constructor has subscribed;
    [At o]: it is in its own [offer], or has returned ([At Idle]). *)
Inductive Constructor := Begin | Subscribed | At (o : Offer).

Record World := mkWorld {
  service : State;
  reactor : Reactor;
  constructor : Constructor;
  worker : Offer;              (* the offer the HAL worker is in *)
  hub_closed : bool;
  received : list Snapshot;    (* by the client *)
}.

Inductive Step :=
| Construct (registered adm : bool)
| ConstructorStep
| Get (h : Hal)        (* GetTopology *)
| Tick (h : Hal)       (* the timer's refresh and publication *)
| WorkerStep
| WriteDone (ok : bool)
| Cancel
| Shutdown             (* the registered callback *)
| CloseHub
| Done.

Definition set_reactor (r : Reactor) (w : World) : World :=
  mkWorld (service w) r (constructor w) (worker w) (hub_closed w) (received w).
Definition set_service (s : State) (w : World) : World :=
  mkWorld s (reactor w) (constructor w) (worker w) (hub_closed w) (received w).

Section Topology.
Context `{HalPriv} (SerializeAsString : HalTopology -> string).

(** [refresh_topology_snapshot] *)
Definition refresh_topology_snapshot (h : Hal) (s : State) : outcome Z (State * Snapshot) :=
  topo ← Adapter.topology h;
  let current := encode_hal_topology topo in
  let serialized := SerializeAsString (structural current) in
  let changed := negb (bool_decide (is_Some (topology_snapshot s)))
                 || negb (bool_decide (serialized = topology_serialized s)) in
  let sequence := if changed then u64_succ (topology_sequence s) else topology_sequence s in
  let snapshot := mkSnapshot sequence current in
  Ok (mkState (if changed then serialized else topology_serialized s) (Some snapshot) sequence
        (last_published s) (if changed then <[sequence := serialized]> (names s) else names s)
        (published s),
      snapshot).

Definition do_get_topology (h : Hal) (s : State) : State * (Rpc.StatusCode * option Snapshot) :=
  match refresh_topology_snapshot h s with
  | Ok (s1, snapshot) => (s1, (Rpc.OK, Some snapshot))
  | Err code => (s, (Rpc.hal_error code, None))
  end.

(** The topology part of the timer's task: the snapshot it publishes, if any. *)
Definition publish_topology (h : Hal) (s : State) : State * option Snapshot :=
  match refresh_topology_snapshot h s with
  | Err _ =>
      (mkState (topology_serialized s) (topology_snapshot s) (topology_sequence s) 0 (names s)
         (published s), None)
  | Ok (s1, snapshot) =>
      if last_published s1 <? seq snapshot then
        (mkState (topology_serialized s1) (topology_snapshot s1) (topology_sequence s1)
           (seq snapshot) (names s1) (seq snapshot), Some snapshot)
      else (s1, None)
  end.

(** The constructor up to its own [offer]. *)
Definition construct (registered adm closed : bool) : Reactor * bool :=
  let r := make adm in
  if negb registered then (shutdown r, true)
  else if negb adm then (request_finish RESOURCE_EXHAUSTED r, true)
  else (set_subscribed (negb closed) r, false).

Definition returned (w : World) : bool := match constructor w with At Idle => true | _ => false end.
Definition worker_idle (w : World) : bool := match worker w with Idle => true | _ => false end.

(** gRPC delivers its reactions after the constructor has returned; the gate
    keeps them out of a worker's offer. *)
Definition step (w : World) (s : Step) : World :=
  match s with
  | Construct registered adm =>
      match constructor w with
      | Begin =>
          let '(r, returns) := construct registered adm (hub_closed w) in
          mkWorld (service w) r (if returns then At Idle else Subscribed) (worker w) (hub_closed w)
            (received w)
      | _ => w
      end
  | ConstructorStep =>
      match constructor w with
      | Subscribed =>
          mkWorld (service w) (reactor w)
            (At (match topology_snapshot (service w) with Some s => Offered s | None => Idle end))
            (worker w) (hub_closed w) (received w)
      | At o =>
          let '(o1, r1) := offer_step o (reactor w) in
          mkWorld (service w) r1 (At o1) (worker w) (hub_closed w) (received w)
      | Begin => w
      end
  | Get h => if worker_idle w then set_service (do_get_topology h (service w)).1 w else w
  | Tick h =>
      if worker_idle w then
        let '(s1, snapshot) := publish_topology h (service w) in
        mkWorld s1 (reactor w) (constructor w)
          (match snapshot with
           | Some sn =>
               if subscribed (reactor w) && negb (hub_closed w)
                  && bool_decide (gate (reactor w) = Gate.Open)
               then Offered sn else Idle
           | None => Idle
           end) (hub_closed w) (received w)
      else w
  | WorkerStep =>
      let '(o1, r1) := offer_step (worker w) (reactor w) in
      mkWorld (service w) r1 (constructor w) o1 (hub_closed w) (received w)
  | WriteDone ok =>
      if returned w && worker_idle w && DeferredFinish.write_in_flight (write_finish (reactor w))
         && bool_decide (gate (reactor w) = Gate.Open)
      then mkWorld (service w) (on_write_done ok (reactor w)) (constructor w) (worker w)
             (hub_closed w)
             (received w ++ if ok then option_list (wire (reactor w)) else [])
      else w
  | Cancel =>
      if returned w && worker_idle w && bool_decide (gate (reactor w) = Gate.Open)
      then set_reactor (on_cancel (reactor w)) w else w
  | Shutdown =>
      if worker_idle w && bool_decide (gate (reactor w) = Gate.Open)
         && match constructor w with Begin => false | _ => true end
      then set_reactor (shutdown (reactor w)) w else w
  | CloseHub => mkWorld (service w) (reactor w) (constructor w) (worker w) true (received w)
  | Done =>
      if returned w && worker_idle w && bool_decide (is_Some (finished (reactor w)))
      then set_reactor (on_done (reactor w)) w else w
  end.

Definition run (steps : list Step) (w : World) : World := foldl step w steps.

(** The service's constructor takes the first snapshot. *)
Definition start (h : Hal) : outcome Z World :=
  '(s, _) ← refresh_topology_snapshot h fresh_state;
  Ok (mkWorld s (make false) Begin Idle false []).

(** ** Snapshots and their sequence *)

(** The sequence of a snapshot names its structure. *)
Definition snap_ok (v : State) (s : Snapshot) : Prop :=
  1 <= seq s <= topology_sequence v
  /\ names v !! seq s = Some (SerializeAsString (structural (topology s))).

Record state_ok (n : nat) (v : State) : Prop := mkStateOk {
  sok_snapshot : exists s, topology_snapshot v = Some s /\ seq s = topology_sequence v /\ snap_ok v s;
  sok_serialized : names v !! topology_sequence v = Some (topology_serialized v);
  sok_last : 0 <= last_published v <= published v;
  sok_published : published v <= topology_sequence v;
  sok_names : forall k, is_Some (names v !! k) -> k <= topology_sequence v;
  sok_bound : topology_sequence v <= Z.of_nat n < 2 ^ 64;
}.

Definition extends (v v' : State) : Prop := forall s, snap_ok v s -> snap_ok v' s.

Lemma extends_refl v : extends v v.
Proof. by intros s. Qed.
#[local] Hint Resolve extends_refl : core.

Lemma refresh_ok n h v v' s :
  state_ok n v -> Z.of_nat (S n) < 2 ^ 64 -> refresh_topology_snapshot h v = Ok (v', s) ->
  state_ok (S n) v' /\ snap_ok v' s /\ seq s = topology_sequence v' /\ extends v v'
  /\ published v' = published v /\ last_published v' = last_published v
  /\ topology_sequence v <= topology_sequence v'.
Proof.
  intros [(s0 & Hs0 & Hq0 & Hs0ok) Hser Hlast Hpub Hnames Hbound] Hn. unfold refresh_topology_snapshot.
  rewrite outcome_bind_ok. intros (topo & _ & E). rewrite Hs0 in E. cbn [negb orb] in E.
  rewrite bool_decide_eq_true_2 in E by eauto. cbn [negb orb] in E.
  set (ser := SerializeAsString _) in *. set (q := topology_sequence v) in *.
  destruct (bool_decide (ser = topology_serialized v)) eqn:Ec; cbn [negb] in E; injection E as <- <-.
  - bool_to_prop.
    assert (Hs : snap_ok v (mkSnapshot q (encode_hal_topology topo))).
    { split; cbn; [unfold snap_ok in Hs0ok; lia|]. rewrite Hser. by f_equal. }
    split_and!; try done; [|by intros s']. split; cbn; try done; [eauto|lia].
  - assert (Hq : u64_succ q = q + 1) by (apply u64_succ_small; unfold snap_ok in Hs0ok; lia).
    rewrite Hq in *.
    assert (Hext : forall s, snap_ok v s -> s.(seq) <> q + 1) by (intros s [? _]; lia).
    assert (Hs : snap_ok (mkState ser (Some (mkSnapshot (q + 1) (encode_hal_topology topo))) (q + 1)
        (last_published v) (<[q + 1:=ser]> (names v)) (published v))
        (mkSnapshot (q + 1) (encode_hal_topology topo))).
    { split; cbn; [unfold snap_ok in Hs0ok; lia|]. by rewrite lookup_insert_eq. }
    split_and!; try done; cbn; [|intros s Hok; split; cbn|lia].
    + split; cbn; [eauto|by rewrite lookup_insert_eq|lia|lia| |lia].
      intros k [x [[<- _]|[_ Hk]]%lookup_insert_Some]; [lia|]. specialize (Hnames k ltac:(eauto)). lia.
    + destruct Hok as [? _]. lia.
    + rewrite lookup_insert_ne by (pose proof (Hext s Hok); lia). apply Hok.
Qed.

Lemma state_ok_S n v : state_ok n v -> Z.of_nat (S n) < 2 ^ 64 -> state_ok (S n) v.
Proof. intros [] ?. split; try done. lia. Qed.

Lemma publish_topology_ok n h v v' o :
  state_ok n v -> Z.of_nat (S n) < 2 ^ 64 -> publish_topology h v = (v', o) ->
  state_ok (S n) v' /\ extends v v'
  /\ match o with
     | Some s => snap_ok v' s /\ seq s = published v' /\ seq s = topology_sequence v'
     | None => published v' = published v
     end.
Proof.
  intros Hv Hn. unfold publish_topology. destruct (refresh_topology_snapshot h v) as [[v1 s]|e] eqn:E.
  - destruct (refresh_ok _ _ _ _ _ Hv Hn E) as (H1 & Hs & Hq & Hx & Hp & Hl & Hm).
    destruct (_ <? _) eqn:El; intros [= <- <-]; [|by split_and!]. bool_to_prop.
    split_and!; try done. destruct H1. split; cbn; try done; lia.
  - intros [= <- <-]. split_and!; [|by intros s|done]. destruct Hv. split; cbn; try done; lia.
Qed.

(** ** The stream *)

Definition live (r : Reactor) : Prop :=
  DeferredFinish.terminal_status (write_finish r) = None
  /\ DeferredFinish.finish_started (write_finish r) = false /\ gate r = Gate.Open.
Definition flying (r : Reactor) : bool := DeferredFinish.write_in_flight (write_finish r).

(** The sequence the client will have when the writes under way are done. *)
Definition cover (r : Reactor) : Z :=
  if flying r then match pending r with Some p => seq p | None => writing_sequence r end
  else after_ r.

Record reactor_ok (v : State) (r : Reactor) : Prop := mkReactorOk {
  rok_pending : forall s, pending r = Some s -> snap_ok v s;
  rok_message : forall s, message r = Some s -> snap_ok v s;
  rok_wire : forall s, wire r = Some s -> snap_ok v s;
  rok_after : after_ r <= topology_sequence v;
  rok_flying : live r -> flying r = true -> exists m, wire r = Some m /\ seq m = writing_sequence r
    /\ after_ r <= writing_sequence r /\ forall p, pending r = Some p -> writing_sequence r < seq p;
  rok_quiet : live r -> flying r = false -> pending r = None;
  rok_open : gate r = Gate.Open -> DeferredFinish.finish_started (write_finish r) = false;
}.

Definition offered (o : Offer) : option Snapshot :=
  match o with Idle => None | Offered s | Tested s | Built s => Some s end.

Definition offer_ok (v : State) (r : Reactor) (o : Offer) : Prop :=
  (forall s, offered o = Some s -> snap_ok v s /\ after_ r <= seq s)
  /\ match o with
     | Idle | Offered _ => True
     | Tested s => live r -> flying r = false
     | Built s => live r -> flying r = false /\ message r = Some s /\ writing_sequence r = seq s
     end.

Lemma not_live_terminated r : live r -> DeferredFinish.termination_requested (write_finish r) = false.
Proof.
  intros (H1 & H2 & _). unfold DeferredFinish.termination_requested. by rewrite H1, H2.
Qed.

(** One step of an offer. *)
Record offer_effect (v : State) (r : Reactor) (o : Offer) (o' : Offer) (r' : Reactor) : Prop := mkEffect {
  eff_reactor : reactor_ok v r';
  eff_offer : offer_ok v r' o';
  eff_live : live r' <-> live r;
  eff_subscribed : subscribed r' = subscribed r;
  eff_after : after_ r' = after_ r;
  eff_quiet : flying r' = false -> flying r = false;
  eff_offered : o' = Idle \/ offered o' = offered o;
  eff_done : o' = Idle -> live r' -> forall s, offered o = Some s -> seq s <= cover r';
}.

Lemma offered_effect v r s :
  reactor_ok v r -> offer_ok v r (Offered s) ->
  offer_effect v r (Offered s) (offer_step (Offered s) r).1 (offer_step (Offered s) r).2.
Proof.
  intros Hr [Ho _]. destruct (Ho s eq_refl) as [Hs Ha]. cbn.
  destruct (_ || _) eqn:Et.
  - split; cbn; try done; [by left|]. intros _ Hl s' [= <-]. rewrite not_live_terminated in Et by done.
    rewrite bool_decide_eq_true_2 in Et by apply Hl. rewrite !orb_false_r in Et. bool_to_prop.
    unfold cover. destruct (flying r) eqn:Ef; [|lia].
    destruct (rok_flying _ _ Hr Hl Ef) as (m & _ & _ & Hle & Hp).
    destruct (pending r) as [p|]; [specialize (Hp p eq_refl)|]; lia.
  - destruct (DeferredFinish.write_in_flight (write_finish r)) eqn:Ef.
    + destruct (_ && _) eqn:Ec; cbn.
      * bool_to_prop. destruct Hr as [R1 R2 R3 R4 R5 R6 R7].
        split; cbn; try done; [split; cbn; try done|by left|].
        -- by intros s' [= <-].
        -- intros Hl _. destruct (R5 Hl Ef) as (m & Hm & Hq & Hle & _). exists m.
           split_and!; try done. intros p [= <-]. done.
        -- intros Hl E. unfold flying in E. cbn in E. congruence.
        -- intros _ _ s' [= <-]. unfold cover, flying. cbn. rewrite Ef. lia.
      * split; cbn; try done; [by left|]. intros _ Hl s' [= <-]. unfold cover, flying. rewrite Ef.
        destruct (rok_flying _ _ Hr Hl Ef) as (m & _ & _ & Hle & Hp).
        destruct (pending r) as [p|]; [specialize (Hp p eq_refl)|].
        -- apply andb_false_iff in Ec as [Ec|Ec]; bool_to_prop; lia.
        -- rewrite andb_true_r in Ec. bool_to_prop. lia.
    + split; cbn; try done. by right.
Qed.

Lemma tested_effect v r s :
  reactor_ok v r -> offer_ok v r (Tested s) ->
  offer_effect v r (Tested s) (offer_step (Tested s) r).1 (offer_step (Tested s) r).2.
Proof.
  intros [R1 R2 R3 R4 R5 R6 R7] [Ho Hf]. destruct (Ho s eq_refl) as [Hs Ha]. cbn.
  split; cbn; try done; [split; cbn; try done|split; cbn; [done|]|by right].
  - by intros s' [= <-].
  - intros Hl E. unfold flying in *. cbn in *. by rewrite Hf in E.
  - intros Hl. split_and!; try done. by apply Hf.
Qed.

Lemma built_effect v r s :
  reactor_ok v r -> offer_ok v r (Built s) ->
  offer_effect v r (Built s) (offer_step (Built s) r).1 (offer_step (Built s) r).2.
Proof.
  intros [R1 R2 R3 R4 R5 R6 R7] [Ho Hf]. destruct (Ho s eq_refl) as [Hs Ha]. cbn.
  unfold DeferredFinish.try_start_write.
  destruct (_ || _) eqn:Et; cbn.
  - split; cbn; try done; [by left|]. intros _ Hl. exfalso.
    destruct (Hf Hl) as [Hfl _]. destruct Hl as (Ht & Hs' & _). unfold flying in Hfl.
    by rewrite Hfl, Ht, Hs' in Et.
  - apply orb_false_iff in Et as [[Ew Et]%orb_false_iff Es]. bool_to_prop.
    rewrite <- eq_None_not_Some in Et.
    assert (Hlive : live (mkReactor (after_ r) (writing_sequence r) (admitted r) (message r) (message r)
        (pending r) (subscribed r) (DeferredFinish.mkDeferred true
          (DeferredFinish.finish_started (write_finish r)) (DeferredFinish.terminal_status (write_finish r)))
        (gate r) (finished r)) <-> live r) by done.
    apply mkEffect; [| |done|done|done|done|by left|].
    + split; cbn; try done. intros Hl _. apply Hlive in Hl.
      destruct (Hf Hl) as (_ & Hm & Hw). exists s. rewrite Hw. split_and!; try done.
      intros p Hp. by rewrite R6 in Hp.
    + by split.
    + intros _ Hl s' [= <-]. apply Hlive in Hl. unfold cover. cbn.
      destruct (Hf Hl) as (Hfl & _ & Hw). rewrite R6, Hw by done. lia.
Qed.

Lemma offer_step_effect v r o :
  reactor_ok v r -> offer_ok v r o -> offer_effect v r o (offer_step o r).1 (offer_step o r).2.
Proof.
  destruct o as [|s|s|s]; intros Hr Ho.
  - split; cbn; try done. by left.
  - by apply offered_effect.
  - by apply tested_effect.
  - by apply built_effect.
Qed.

(** ** Endings *)

Lemma finish_if_ready_terminal r :
  DeferredFinish.terminal_status (write_finish (finish_if_ready r).1)
  = DeferredFinish.terminal_status (write_finish r)
  /\ (DeferredFinish.finish_started (write_finish r) = true ->
      DeferredFinish.finish_started (write_finish (finish_if_ready r).1) = true).
Proof.
  unfold finish_if_ready, DeferredFinish.take_finish_status. destruct (_ || _); cbn; [done|].
  destruct (DeferredFinish.terminal_status (write_finish r)) eqn:E; [|done]. by case_bool_decide.
Qed.

Lemma topology_finish_ends st r : ~ live (request_finish st r).
Proof.
  intros (H1 & H2 & _). unfold request_finish in *.
  set (r1 := set_write_finish _ _) in *. destruct (finish_if_ready_terminal r1) as [E1 E2].
  rewrite E1 in H1. unfold r1 in H1. cbn in H1. unfold DeferredFinish.request_finish in H1.
  destruct (_ && _) eqn:Eg; [done|]. cbn in H1. rewrite H1 in Eg.
  cbn in Eg. bool_to_prop. rewrite E2 in H2; [done|]. unfold r1. cbn.
  unfold DeferredFinish.request_finish. rewrite H1, Eg. by cbn.
Qed.

(** What an ending keeps. *)
Lemma finish_if_ready_keeps r :
  let r' := (finish_if_ready r).1 in
  pending r' = pending r /\ message r' = message r /\ wire r' = wire r /\ after_ r' = after_ r.
Proof.
  unfold finish_if_ready. destruct (DeferredFinish.take_finish_status _) as [d [s|]]; cbn; [|done].
  by case_bool_decide.
Qed.

Lemma finish_if_ready_open r :
  (gate r = Gate.Open -> DeferredFinish.finish_started (write_finish r) = false) ->
  gate (finish_if_ready r).1 = Gate.Open ->
  DeferredFinish.finish_started (write_finish (finish_if_ready r).1) = false.
Proof.
  unfold finish_if_ready, DeferredFinish.take_finish_status.
  destruct (write_finish r) as [[] [] [t|]] eqn:E; cbn; try (by rewrite ?E).
  intros _. by case_bool_decide.
Qed.

Lemma reactor_ok_ended v r r' :
  reactor_ok v r -> ~ live r' -> (pending r' = None \/ pending r' = pending r) ->
  message r' = message r -> wire r' = wire r -> after_ r' = after_ r ->
  (gate r' = Gate.Open -> DeferredFinish.finish_started (write_finish r') = false) -> reactor_ok v r'.
Proof.
  intros [R1 R2 R3 R4 R5 R6 R7] Hl Hp Hm Hw Ha Ho. split; try done; rewrite ?Hm, ?Hw, ?Ha; try done.
  destruct Hp as [-> | ->]; [done|apply R1].
Qed.

Lemma request_finish_ok v st r : reactor_ok v r -> reactor_ok v (request_finish st r).
Proof.
  intros Hr. apply (reactor_ok_ended v r); [done|apply topology_finish_ends|..];
    unfold request_finish; destruct (finish_if_ready_keeps (set_write_finish
      (DeferredFinish.request_finish st (write_finish (set_pending None (set_subscribed false r))))
      (set_pending None (set_subscribed false r)))) as (E1 & E2 & E3 & E4).
  - left. by rewrite E1.
  - by rewrite E2.
  - by rewrite E3.
  - by rewrite E4.
  - apply finish_if_ready_open. cbn. intros Hg. pose proof (rok_open _ _ Hr Hg) as Ho.
    unfold DeferredFinish.request_finish. by destruct (_ && _).
Qed.

Lemma request_finish_after st r : after_ (request_finish st r) = after_ r.
Proof. unfold request_finish. by destruct (finish_if_ready_keeps (set_write_finish
      (DeferredFinish.request_finish st (write_finish (set_pending None (set_subscribed false r))))
      (set_pending None (set_subscribed false r)))) as (_ & _ & _ & E). Qed.

Lemma set_subscribed_ok v b r : reactor_ok v r -> reactor_ok v (set_subscribed b r).
Proof. intros []. by split. Qed.

(** A write that completed without a reason to terminate. *)
Lemma write_done_live v r :
  reactor_ok v r -> flying r = true -> gate r = Gate.Open -> live (on_write_done true r) ->
  live r /\ reactor_ok v (on_write_done true r) /\ subscribed (on_write_done true r) = subscribed r
  /\ cover (on_write_done true r) = cover r
  /\ exists m, wire r = Some m /\ after_ (on_write_done true r) = seq m.
Proof.
  intros Hr Hf Hg Hl. pose proof Hr as [R1 R2 R3 R4 R5 R6 R7].
  assert (Hd : write_finish r = DeferredFinish.mkDeferred true false None).
  { destruct Hl as (H1 & H2 & _). unfold on_write_done, finish_if_ready in H1, H2.
    unfold DeferredFinish.complete_write, DeferredFinish.take_finish_status in H1, H2.
    destruct (write_finish r) as [fl fs ts] eqn:E. unfold flying in Hf. rewrite E in Hf. cbn in *.
    subst fl. destruct ts as [t|], fs; cbn in *; try done; exfalso.
    all: try by case_bool_decide.
    all: destruct (pending r) as [p|]; cbn in *; [|done].
    all: unfold start_write in H1, H2; cbn in H1, H2; by destruct (_ =? _). }
  assert (Hlr : live r) by (unfold live; rewrite Hd; by split_and!).
  destruct (R5 Hlr Hf) as (m & Hm & Hq & Hle & Hp). split; [done|].
  unfold on_write_done, finish_if_ready in *. rewrite Hd in *. cbn in *.
  unfold cover at 2. rewrite Hf.
  destruct (pending r) as [p|] eqn:Ep; cbn in *.
  - specialize (Hp p eq_refl). unfold start_write in *. cbn in *.
    rewrite (proj2 (Z.eqb_neq _ _)) in * by lia. cbn in *.
    split_and!; [|done|done|exists m; by split_and!].
    split; cbn; try done.
    + destruct (R3 m Hm). lia.
    + intros _ _. exists p. split_and!; try done; lia.
  - split_and!; [|done|done|exists m; by split_and!].
    split; cbn; try done; [by rewrite Ep|destruct (R3 m Hm); lia].
Qed.


Lemma write_done_ok v ok r :
  reactor_ok v r -> flying r = true -> gate r = Gate.Open ->
  reactor_ok v (on_write_done ok r) /\ (live (on_write_done ok r) -> ok = true).
Proof.
  intros Hr Hf Hg. pose proof (rok_open _ _ Hr Hg) as Ho.
  destruct (decide (ok = true /\ DeferredFinish.terminal_status (write_finish r) = None)) as [[-> Ht]|Hn].
  - split; [|done]. apply write_done_live; [done..|].
    unfold on_write_done, finish_if_ready.
    destruct (write_finish r) as [fl fs ts] eqn:E. cbn in *. subst. cbn.
    destruct (pending r) as [p|] eqn:Ep; cbn; [|done]. unfold start_write. cbn. by destruct (_ =? _).
  - assert (Hs : exists t, DeferredFinish.terminal_status
      (DeferredFinish.complete_write OK ok (write_finish r)) = Some t).
    { destruct (write_finish r) as [fl fs [t|]]; cbn in *; [destruct ok; cbn; eauto|].
      destruct ok; [naive_solver|]. cbn. eauto. }
    destruct Hs as [t Hs].
    assert (E : on_write_done ok r = mkReactor (after_ r) (writing_sequence r) (admitted r) (message r)
      (wire r) (pending r) false (DeferredFinish.mkDeferred false true (Some t)) Gate.Finishing (Some t)).
    { unfold on_write_done, finish_if_ready.
      destruct (write_finish r) as [fl fs ts] eqn:E. cbn in Hs, Ho |- *. subst fs.
      destruct ts as [t'|], ok; cbn in Hs |- *; simplify_eq; by rewrite bool_decide_eq_true_2. }
    rewrite E. split.
    + by apply (reactor_ok_ended v r); try done; [intros (_ & _ & ?)|right].
    + by intros (_ & _ & ?).
Qed.

(** ** The invariant *)

Record inv (n : nat) (w : World) : Prop := mkInv {
  inv_state : state_ok n (service w);
  inv_reactor : reactor_ok (service w) (reactor w);
  inv_received : Forall (snap_ok (service w)) (received w);
  inv_worker : offer_ok (service w) (reactor w) (worker w);
  inv_worker_seq : forall s, offered (worker w) = Some s -> seq s = published (service w);
  inv_constructor : forall o, constructor w = At o -> offer_ok (service w) (reactor w) o
    /\ forall s, offered o = Some s -> published (service w) <= seq s;
  inv_alone : returned w = false -> forall o, constructor w = At o -> worker w = Idle;
  inv_fresh : returned w = false -> after_ (reactor w) = 0;
  inv_cover : returned w = true -> worker w = Idle -> live (reactor w) ->
    subscribed (reactor w) = true -> hub_closed w = false ->
    1 <= cover (reactor w) /\ published (service w) <= cover (reactor w);
  inv_last : live (reactor w) -> flying (reactor w) = false -> 1 <= after_ (reactor w) ->
    exists s, last (received w) = Some s /\ seq s = after_ (reactor w);
  inv_begin : constructor w = Begin -> worker w = Idle /\ subscribed (reactor w) = false;
}.

(** No publication falls into the constructor's own offer. *)
Definition timely (w : World) (s : Step) : Prop :=
  match s with
  | ConstructorStep => worker w = Idle
  | Tick _ | WorkerStep => forall o, constructor w = At o -> o = Idle
  | _ => True
  end.

Fixpoint well_timed (steps : list Step) (w : World) : Prop :=
  match steps with
  | [] => True
  | s :: rest => timely w s /\ well_timed rest (step w s)
  end.

Lemma reactor_ok_extends v v' r :
  extends v v' -> topology_sequence v <= topology_sequence v' -> reactor_ok v r -> reactor_ok v' r.
Proof. intros He Hq []. split; eauto; lia. Qed.

Lemma offer_ok_extends v v' r o : extends v v' -> offer_ok v r o -> offer_ok v' r o.
Proof. intros He [H1 H2]. split; [|done]. intros s Hs. destruct (H1 s Hs). auto. Qed.

Lemma extends_sequence v v' n : state_ok n v -> extends v v' -> topology_sequence v <= topology_sequence v'.
Proof. intros [(s & _ & Hq & Hs)] He. destruct (He s Hs) as [? _]. lia. Qed.

(** A step of the service alone. *)
Lemma inv_service n n' w v' :
  inv n w -> state_ok n' v' -> extends (service w) v' -> published v' = published (service w) ->
  inv n' (set_service v' w).
Proof.
  intros [I1 I2 I3 I4 I5 I6 I7 I8 I9 I10 I11] Hv He Hp.
  pose proof (extends_sequence _ _ _ I1 He) as Hq.
  split; cbn; rewrite ?Hp; try done.
  - by eapply reactor_ok_extends.
  - eapply Forall_impl; [done|]. auto.
  - by eapply offer_ok_extends.
  - intros o Ho. destruct (I6 o Ho). split; [by eapply offer_ok_extends|done].
Qed.

(** A step that ends the stream, or leaves it. *)
Lemma inv_ended n w r' :
  inv n w -> reactor_ok (service w) r' -> ~ live r' -> worker w = Idle -> constructor w <> Begin ->
  after_ r' = after_ (reactor w) -> inv n (set_reactor r' w).
Proof.
  intros [I1 I2 I3 I4 I5 I6 I7 I8 I9 I10 I11] Hr Hl Hw Hb Ha. split; cbn; try done.
  - rewrite Hw. by split.
  - intros o Ho. destruct (I6 o Ho) as [[H1 H2] H3]. split; [|done]. split.
    + intros s Hs. rewrite Ha. by apply H1.
    + by destruct o.
  - intros Hret. rewrite Ha. by apply I8.
Qed.

Lemma inv_S n w : inv n w -> Z.of_nat (S n) < 2 ^ 64 -> inv (S n) w.
Proof. intros [] ?. split; try done. by apply state_ok_S. Qed.

Lemma worker_idle_true w : worker_idle w = true <-> worker w = Idle.
Proof. unfold worker_idle. destruct (worker w); naive_solver. Qed.

Lemma returned_true w : returned w = true <-> constructor w = At Idle.
Proof. unfold returned. destruct (constructor w) as [| |[]]; naive_solver. Qed.

Lemma make_reactor_ok v adm : 0 <= topology_sequence v -> reactor_ok v (make adm).
Proof. intros Hq. by split. Qed.

Lemma construct_inv n w registered adm :
  inv n w -> constructor w = Begin -> inv n (step w (Construct registered adm)).
Proof.
  intros Hw Hb. pose proof Hw as [I1 I2 I3 I4 I5 I6 I7 I8 I9 I10 I11].
  destruct (I11 Hb) as [Hidle _]. cbn. rewrite Hb.
  assert (Hq : 0 <= topology_sequence (service w)).
  { destruct I1 as [(s & _ & Hq & [? _]) _ _ _ _ _]. lia. }
  assert (Hend : forall r', reactor_ok (service w) r' -> ~ live r' ->
    inv n (mkWorld (service w) r' (At Idle) (worker w) (hub_closed w) (received w))).
  { intros r' Hr Hl. split; cbn; try done;
      [rewrite Hidle; by split|intros o [= <-]; by split]. }
  unfold construct. destruct registered; cbn [negb]; [destruct adm; cbn [negb]|].
  - split; cbn; try done; rewrite Hidle; by split.
  - apply Hend; [apply request_finish_ok, make_reactor_ok, Hq|apply topology_finish_ends].
  - apply Hend; [apply request_finish_ok, make_reactor_ok, Hq|apply topology_finish_ends].
Qed.

(** A step of the offer of one thread while the other one is not in an offer. *)
Lemma offer_inv_last n w v r o o' r' :
  inv n w -> offer_effect v (reactor w) o o' r' -> r = r' ->
  live r -> flying r = false -> 1 <= after_ r -> exists s, last (received w) = Some s /\ seq s = after_ r.
Proof.
  intros Hw He -> Hl Hf Ha. rewrite (eff_after _ _ _ _ _ He) in *.
  apply (inv_last _ _ Hw); [by apply (eff_live _ _ _ _ _ He)|by apply (eff_quiet _ _ _ _ _ He)|done].
Qed.

Lemma constructor_step_inv n w :
  inv n w -> worker w = Idle -> inv n (step w ConstructorStep).
Proof.
  intros Hw Hidle. pose proof Hw as [I1 I2 I3 I4 I5 I6 I7 I8 I9 I10 I11]. cbn.
  destruct (constructor w) as [| |o] eqn:Ec.
  - done.
  - destruct I1 as [(s & Hs & Hq & Hok) ? Hp ? ? ?] eqn:E1. rewrite Hs. clear E1.
    assert (Ha : after_ (reactor w) = 0) by (apply I8; unfold returned; by rewrite Ec).
    split; cbn; try done.
    intros o [= <-]. split; [split; [|done]|].
    + intros s' [= <-]. split; [done|]. destruct Hok. lia.
    + intros s' [= <-]. lia.
  - destruct (I6 o eq_refl) as [Ho Hp]. pose proof (offer_step_effect _ _ _ I2 Ho) as He.
    destruct (offer_step o (reactor w)) as [o1 r1] eqn:Eo. cbn [fst snd] in He.
    pose proof He as [E1 E2 E3 E4 E5 E6 E7 E8].
    assert (Hret : o = Idle -> o1 = Idle /\ r1 = reactor w) by (intros ->; by injection Eo as <- <-).
    split; cbn; try done.
    + rewrite Hidle. by split.
    + intros o' [= <-]. split; [done|]. intros s Hs. apply Hp. destruct E7 as [->|E7]; [done|congruence].
    + intros Hr. rewrite E5. apply I8. unfold returned. rewrite Ec. destruct o; try done.
      destruct (Hret eq_refl) as [-> _]. done.
    + intros Hr _ Hl Hsub Hh. assert (o1 = Idle) as -> by (by destruct o1).
      destruct (offered o) as [s|] eqn:Es.
      * destruct Ho as [Ho _]. destruct (Ho s Es) as [[Hs _] _]. specialize (Hp s eq_refl).
        specialize (E8 eq_refl Hl s eq_refl). lia.
      * assert (o = Idle) as -> by (by destruct o). destruct (Hret eq_refl) as [_ Er]. rewrite Er in *.
        apply I9; [by apply returned_true|congruence..].
    + by eapply offer_inv_last.
Qed.

Lemma worker_step_inv n w :
  inv n w -> (forall o, constructor w = At o -> o = Idle) -> inv n (step w WorkerStep).
Proof.
  intros Hw Hc. pose proof Hw as [I1 I2 I3 I4 I5 I6 I7 I8 I9 I10 I11]. cbn.
  pose proof (offer_step_effect _ _ _ I2 I4) as He.
  destruct (offer_step (worker w) (reactor w)) as [o1 r1] eqn:Eo. cbn [fst snd] in He.
  pose proof He as [E1 E2 E3 E4 E5 E6 E7 E8].
  assert (Hret : worker w = Idle -> o1 = Idle /\ r1 = reactor w)
    by (intros E; rewrite E in Eo; by injection Eo as <- <-).
  split; cbn; try done.
  - intros s Hs. apply I5. destruct E7 as [->|E7]; [done|congruence].
  - intros o Ho. rewrite (Hc o Ho). by split.
  - intros Hr o Ho. rewrite (Hc o Ho) in Ho. unfold returned in Hr. cbn in Hr. by rewrite Ho in Hr.
  - intros Hr. rewrite E5. by apply I8.
  - intros Hr -> Hl Hsub Hh. destruct (offered (worker w)) as [s|] eqn:Es.
    + destruct I4 as [Ho _]. destruct (Ho s Es) as [[Hs _] _]. specialize (I5 s eq_refl).
      specialize (E8 eq_refl Hl s eq_refl). lia.
    + assert (Hi : worker w = Idle) by (by destruct (worker w)). destruct (Hret Hi) as [_ ->].
      by apply I9.
  - by eapply offer_inv_last.
  - intros Hb. destruct (I11 Hb) as [Hi Hs]. destruct (Hret Hi) as [-> ->]. done.
Qed.

Lemma tick_inv n w h :
  inv n w -> Z.of_nat (S n) < 2 ^ 64 -> (forall o, constructor w = At o -> o = Idle) ->
  worker w = Idle -> inv (S n) (step w (Tick h)).
Proof.
  intros Hw Hn Hc Hidle. pose proof Hw as [I1 I2 I3 I4 I5 I6 I7 I8 I9 I10 I11]. cbn.
  rewrite (proj2 (worker_idle_true w) Hidle).
  destruct (publish_topology h (service w)) as [v' o] eqn:Ep.
  destruct (publish_topology_ok _ _ _ _ _ I1 Hn Ep) as (Hv & He & Ho).
  pose proof (extends_sequence _ _ _ I1 He) as Hq.
  set (delivered := subscribed (reactor w) && negb (hub_closed w) && bool_decide (gate (reactor w) = Gate.Open)).
  split; cbn; try done.
  - by eapply reactor_ok_extends.
  - eapply Forall_impl; [done|]. auto.
  - destruct o as [s|]; [|by split]. destruct Ho as (Hs & _ & Hseq). destruct delivered; [|by split].
    split; [|done]. intros s' [= <-]. split; [done|]. rewrite Hseq.
    pose proof (rok_after _ _ I2). lia.
  - intros s. destruct o as [s'|]; [|done]. destruct delivered; [|done]. intros [= <-]. apply Ho.
  - intros o' Ho'. rewrite (Hc o' Ho'). by split.
  - intros Hr o' Ho'. rewrite (Hc o' Ho') in Ho'. cbn in Hr. unfold returned in Hr. cbn in Hr.
    by rewrite Ho' in Hr.
  - intros Hr Hi Hl Hsub Hh. destruct o as [s|].
    + unfold delivered in Hi. rewrite Hsub, Hh, bool_decide_eq_true_2 in Hi by apply Hl. done.
    + rewrite Ho. by apply I9.
  - intros Hb. destruct (I11 Hb) as [_ Hsub]. split; [|done].
    destruct o; [|done]. unfold delivered. by rewrite Hsub.
Qed.

Lemma write_done_inv n w ok : inv n w -> inv n (step w (WriteDone ok)).
Proof.
  intros Hw. pose proof Hw as [I1 I2 I3 I4 I5 I6 I7 I8 I9 I10 I11]. cbn.
  destruct (_ && _) eqn:Eg; [|done]. bool_to_prop.
  match goal with E : returned w = true |- _ => pose proof (proj1 (returned_true w) E) as Hc end.
  match goal with E : worker_idle w = true |- _ => apply worker_idle_true in E as Hi end.
  fold (flying (reactor w)) in *.
  destruct (write_done_ok (service w) ok (reactor w) I2 ltac:(done) ltac:(done)) as [Hr Hok].
  assert (Hlive : live (on_write_done ok (reactor w)) -> ok = true /\ live (reactor w)
    /\ subscribed (on_write_done true (reactor w)) = subscribed (reactor w)
    /\ cover (on_write_done true (reactor w)) = cover (reactor w)
    /\ exists m, wire (reactor w) = Some m /\ after_ (on_write_done true (reactor w)) = seq m).
  { intros Hl. pose proof (Hok Hl). subst ok. split; [done|].
    destruct (write_done_live (service w) (reactor w)) as (? & _ & ?); done. }
  split; cbn; try done.
  - apply Forall_app_2; [done|]. destruct ok; [|done]. destruct (wire (reactor w)) as [m|] eqn:Em; [|done].
    repeat constructor; by apply (rok_wire _ _ I2).
  - rewrite Hi. by split.
  - rewrite Hc. intros o [= <-]. by split.
  - intros Hret. unfold returned in Hret. cbn in Hret. by rewrite Hc in Hret.
  - intros _ _ Hl Hsub Hh. destruct (Hlive Hl) as (-> & Hl' & Es & -> & _). apply I9; try done. congruence.
  - intros Hl Hf Ha. destruct (Hlive Hl) as (-> & Hl' & _ & _ & m & Hm & ->).
    exists m. rewrite Hm. cbn. by rewrite last_snoc.
  - intros Hb. congruence.
Qed.

Lemma inv_step n w s : inv n w -> timely w s -> Z.of_nat (S n) < 2 ^ 64 -> inv (S n) (step w s).
Proof.
  intros Hw Ht Hn. destruct s as [registered adm| |h|h| |ok| | | |]; cbn [timely] in Ht.
  - destruct (constructor w) eqn:Ec; [apply inv_S; [by apply construct_inv|done]|..];
      cbn; rewrite Ec; by apply inv_S.
  - apply inv_S; [by apply constructor_step_inv|done].
  - cbn. destruct (worker_idle w); [|by apply inv_S]. unfold do_get_topology.
    destruct (refresh_topology_snapshot h (service w)) as [[v' s]|e] eqn:E; cbn.
    + destruct (refresh_ok _ _ _ _ _ (inv_state _ _ Hw) Hn E) as (H1 & _ & _ & Hx & Hp & _).
      by eapply inv_service.
    + apply (inv_service n); try done. apply state_ok_S; [apply Hw|done].
  - destruct (worker_idle w) eqn:Ei; [apply worker_idle_true in Ei; by apply tick_inv|].
    cbn. rewrite Ei. by apply inv_S.
  - apply inv_S; [by apply worker_step_inv|done].
  - apply inv_S; [by apply write_done_inv|done].
  - cbn. destruct (_ && _) eqn:Eg; [|by apply inv_S]. bool_to_prop.
    apply inv_S; [|done]. apply inv_ended; [done|apply request_finish_ok, Hw|apply topology_finish_ends| | |].
    + by apply worker_idle_true.
    + by rewrite (proj1 (returned_true w)).
    + apply request_finish_after.
  - cbn. destruct (_ && _) eqn:Eg; [|by apply inv_S]. bool_to_prop.
    apply inv_S; [|done]. apply inv_ended; [done| |apply topology_finish_ends| | |].
    + apply request_finish_ok, Hw.
    + by apply worker_idle_true.
    + by destruct (constructor w).
    + unfold shutdown. by rewrite request_finish_after.
  - apply inv_S; [|done]. destruct Hw. by split.
  - cbn. destruct (_ && _) eqn:Eg; [|by apply inv_S]. bool_to_prop.
    apply inv_S; [|done]. apply inv_ended; [done| |by intros (_ & _ & ?)| | |done].
    + apply (reactor_ok_ended _ (reactor w)); try done; [apply Hw|by intros (_ & _ & ?)|by right].
    + by apply worker_idle_true.
    + by rewrite (proj1 (returned_true w)).
Qed.

(** ** The order of what is sent *)

(** Nothing has asked the stream to end. *)
Definition going (r : Reactor) : Prop :=
  DeferredFinish.terminal_status (write_finish r) = None
  /\ DeferredFinish.finish_started (write_finish r) = false.

(** An offer past its first test is newer than what the client has. *)
Definition offer_newer (r : Reactor) (o : Offer) : Prop :=
  match o with
  | Idle | Offered _ => True
  | Tested s => after_ r < seq s
  | Built s => after_ r < seq s /\ message r = Some s
  end.

Record ordered (w : World) : Prop := mkOrdered {
  ord_sorted : StronglySorted (fun s t => seq s < seq t) (received w);
  ord_after : going (reactor w) -> Forall (fun s => seq s <= after_ (reactor w)) (received w);
  ord_wire : flying (reactor w) = true ->
    exists m, wire (reactor w) = Some m /\ Forall (fun s => seq s < seq m) (received w);
  ord_worker : offer_newer (reactor w) (worker w);
  ord_constructor : forall o, constructor w = At o -> offer_newer (reactor w) o;
  ord_fresh : returned w = false -> received w = [];
}.

Lemma request_finish_going st r : ~ going (request_finish st r).
Proof.
  intros [H1 H2]. unfold request_finish in *.
  set (r1 := set_write_finish _ _) in *. destruct (finish_if_ready_terminal r1) as [E1 E2].
  rewrite E1 in H1. unfold r1 in H1. cbn in H1. unfold DeferredFinish.request_finish in H1.
  destruct (_ && _) eqn:Eg; [done|]. cbn in H1. rewrite H1 in Eg.
  cbn in Eg. bool_to_prop. rewrite E2 in H2; [done|]. unfold r1. cbn.
  unfold DeferredFinish.request_finish. rewrite H1, Eg. by cbn.
Qed.

(** What the order of the stream depends on. *)
Record same_order (r r' : Reactor) : Prop := mkSameOrder {
  so_after : after_ r' = after_ r;
  so_message : message r' = message r;
  so_wire : wire r' = wire r;
  so_flying : flying r' = true -> flying r = true;
  so_going : going r' -> going r;
}.

Lemma offer_newer_same r r' o : same_order r r' -> offer_newer r o -> offer_newer r' o.
Proof. intros [S1 S2 _ _ _]. destruct o; cbn; by rewrite ?S1, ?S2. Qed.

Lemma request_finish_order st r : same_order r (request_finish st r).
Proof.
  set (r1 := set_write_finish (DeferredFinish.request_finish st
    (write_finish (set_pending None (set_subscribed false r)))) (set_pending None (set_subscribed false r))).
  destruct (finish_if_ready_keeps r1) as (_ & E2 & E3 & E4).
  split; [exact E4|exact E2|exact E3| |by intros ?%request_finish_going].
  change (flying (finish_if_ready r1).1 = true -> flying r = true).
  assert (Hf1 : flying r1 = flying r) by (unfold r1, flying, DeferredFinish.request_finish; cbn; by destruct (_ && _)).
  rewrite <- Hf1. unfold finish_if_ready, flying, DeferredFinish.take_finish_status.
  destruct (_ || _); [done|]. destruct (DeferredFinish.terminal_status _); cbn; [|done].
  by case_bool_decide.
Qed.

Lemma ordered_reactor w v' r' c' h' :
  ordered w -> same_order (reactor w) r' -> (forall o, c' = At o -> offer_newer r' o) ->
  (returned w = false \/ c' = At Idle) -> ordered (mkWorld v' r' c' (worker w) h' (received w)).
Proof.
  intros [O1 O2 O3 O4 O5 O6] Hs Hc Hb. pose proof (offer_newer_same _ _ _ Hs O4) as Hw. destruct Hs as [S1 S2 S3 S4 S5].
  split; cbn; try done; [intros Hg; rewrite S1; auto| |].
  - intros Hf. rewrite S3. auto.
  - destruct Hb as [Hb| ->]; [auto|done].
Qed.

Lemma same_order_refl r : same_order r r.
Proof. by split. Qed.

(** One step of the only offer under way. *)
Lemma offer_ordered v r o rcv :
  reactor_ok v r -> offer_ok v r o -> offer_newer r o ->
  (going r -> Forall (fun s => seq s <= after_ r) rcv) ->
  (flying r = true -> exists m, wire r = Some m /\ Forall (fun s => seq s < seq m) rcv) ->
  let '(o', r') := offer_step o r in
  offer_newer r' o' /\ (going r' -> Forall (fun s => seq s <= after_ r') rcv)
  /\ (flying r' = true -> exists m, wire r' = Some m /\ Forall (fun s => seq s < seq m) rcv).
Proof.
  intros Hr [Ho _] Hn Ha Hw. destruct o as [|s|s|s]; cbn; [done|..].
  - destruct (Ho s eq_refl) as [_ Hle]. destruct (_ || _) eqn:Et; [done|].
    bool_to_prop. destruct (DeferredFinish.write_in_flight _).
    + by destruct (_ && _).
    + split_and!; [cbn|done..]. lia.
  - by split_and!.
  - destruct Hn as [Hlt Hm]. unfold DeferredFinish.try_start_write.
    destruct (_ || _) eqn:Et; cbn; [done|].
    apply orb_false_iff in Et as [[_ Et]%orb_false_iff Es]. bool_to_prop.
    rewrite <- eq_None_not_Some in Et. assert (Hg : going r) by done.
    split_and!; [done|intros _; by apply Ha|]. intros _. exists s. split; [done|].
    eapply Forall_impl; [by apply Ha|]. cbn. intros. lia.
Qed.

(** A completed write. *)
Lemma write_done_order v ok r :
  reactor_ok v r -> flying r = true -> gate r = Gate.Open ->
  (going (on_write_done ok r) -> ok = true /\ live r /\ after_ (on_write_done ok r) = writing_sequence r)
  /\ (flying (on_write_done ok r) = true ->
       ok = true /\ live r /\ exists p, pending r = Some p /\ wire (on_write_done ok r) = Some p).
Proof.
  intros Hr Hf Hg. pose proof (rok_open _ _ Hr Hg) as Ho. pose proof Hr as [_ _ _ _ R5 _ _].
  destruct (decide (ok = true /\ DeferredFinish.terminal_status (write_finish r) = None)) as [[-> Ht]|Hn].
  - assert (Hl : live r) by done. destruct (R5 Hl Hf) as (m & _ & _ & Hle & Hp).
    unfold on_write_done, finish_if_ready, flying in *.
    destruct (write_finish r) as [fl fs ts] eqn:E. cbn in *. subst.
    destruct (pending r) as [p|] eqn:Ep; cbn; rewrite ?Ep; cbn;
      [|by split; [intros _; split_and!|]].
    specialize (Hp p eq_refl). unfold start_write. cbn. rewrite (proj2 (Z.eqb_neq _ _)) by lia. cbn.
    split; [done|]. intros _. split_and!; [done..|]. eauto.
  - unfold on_write_done, finish_if_ready, flying, going in *.
    destruct (write_finish r) as [fl fs ts] eqn:E. cbn in *. subst fs fl.
    destruct ts as [t'|], ok; cbn in *; try (by destruct Hn); rewrite bool_decide_eq_true_2 by done; cbn;
      by split; intros [? ?] || intros ?.
Qed.

Lemma same_order_done r : same_order r (on_done r).
Proof. by split. Qed.

Lemma ordered_set_reactor w r' : ordered w -> same_order (reactor w) r' -> ordered (set_reactor r' w).
Proof.
  intros Hw Hs. destruct (returned w) eqn:Er.
  - apply returned_true in Er. apply ordered_reactor; [done|done| |by right].
    rewrite Er. by intros o [= <-].
  - apply ordered_reactor; [done|done| |by left]. intros o Ho. by eapply offer_newer_same, ord_constructor.
Qed.

Lemma construct_ordered n w registered adm :
  inv n w -> ordered w -> constructor w = Begin -> ordered (step w (Construct registered adm)).
Proof.
  intros Hw Hord Hb. destruct (inv_begin _ _ Hw Hb) as [Hidle _].
  pose proof (ord_fresh _ Hord) as Hr. unfold returned in Hr. rewrite Hb in Hr. specialize (Hr eq_refl).
  cbn. rewrite Hb.
  assert (Hend : forall r' c', flying r' = false -> (forall o, c' = At o -> o = Idle) ->
    ordered (mkWorld (service w) r' c' (worker w) (hub_closed w) (received w))).
  { intros r' c' Hf Hc. split; cbn; rewrite ?Hr, ?Hidle; try done; [constructor|by rewrite Hf|].
    intros o Ho. by rewrite (Hc o Ho). }
  assert (Hfin : forall st r, flying r = false -> flying (request_finish st r) = false).
  { intros st r Hf. destruct (flying (request_finish st r)) eqn:E; [|done].
    apply (so_flying _ _ (request_finish_order st r)) in E. congruence. }
  unfold construct. destruct registered; cbn [negb]; [destruct adm; cbn [negb]|]; apply Hend; try done;
    try (by intros o [= <-]); by apply Hfin.
Qed.

Lemma constructor_step_ordered n w :
  inv n w -> worker w = Idle -> ordered w -> ordered (step w ConstructorStep).
Proof.
  intros Hw Hidle Hord. pose proof Hord as [O1 O2 O3 O4 O5 O6]. cbn.
  destruct (constructor w) as [| |o] eqn:Ec; [done| |].
  - apply ordered_reactor; [done|apply same_order_refl| |left; unfold returned; by rewrite Ec].
    intros o [= <-]. by destruct (topology_snapshot _).
  - destruct (inv_constructor _ _ Hw o Ec) as [Ho _].
    pose proof (offer_ordered _ _ _ _ (inv_reactor _ _ Hw) Ho (O5 o eq_refl) O2 O3) as Heff.
    assert (Hret : o = Idle -> (offer_step o (reactor w)).1 = Idle) by (by intros ->).
    destruct (offer_step o (reactor w)) as [o1 r1]. destruct Heff as (H1 & H2 & H3).
    split; cbn; try done.
    + by rewrite Hidle.
    + by intros o' [= <-].
    + intros Hb. apply O6. unfold returned in *. rewrite Ec. cbn in Hb, Hret.
      destruct o; try done. by rewrite Hret in Hb.
Qed.

Lemma worker_step_ordered n w :
  inv n w -> (forall o, constructor w = At o -> o = Idle) -> ordered w -> ordered (step w WorkerStep).
Proof.
  intros Hw Hc Hord. pose proof Hord as [O1 O2 O3 O4 O5 O6]. cbn.
  pose proof (offer_ordered _ _ _ _ (inv_reactor _ _ Hw) (inv_worker _ _ Hw) O4 O2 O3) as Heff.
  destruct (offer_step (worker w) (reactor w)) as [o1 r1]. destruct Heff as (H1 & H2 & H3).
  split; cbn; try done. intros o Ho. by rewrite (Hc o Ho).
Qed.

Lemma write_done_ordered n w ok : inv n w -> ordered w -> ordered (step w (WriteDone ok)).
Proof.
  intros Hw Hord. pose proof Hord as [O1 O2 O3 O4 O5 O6]. cbn.
  destruct (_ && _) eqn:Eg; [|done]. bool_to_prop. fold (flying (reactor w)) in *.
  match goal with E : returned w = true |- _ => pose proof (proj1 (returned_true w) E) as Hc end.
  match goal with E : worker_idle w = true |- _ => apply worker_idle_true in E as Hi end.
  destruct (write_done_order (service w) ok (reactor w) (inv_reactor _ _ Hw) ltac:(done) ltac:(done)) as [Hg Hf].
  destruct (O3 ltac:(done)) as (m & Hm & Hlt). rewrite Hm.
  split; cbn.
  - destruct ok; [|by rewrite app_nil_r]. apply StronglySorted_app_2; [|done|by repeat constructor].
    intros x y Hx ->%list_elem_of_singleton. rewrite Forall_forall in Hlt. by apply Hlt.
  - intros (-> & Hl & ->)%Hg. destruct (rok_flying _ _ (inv_reactor _ _ Hw) Hl) as (m' & Hm' & <- & _ & _); [done|].
    rewrite Hm in Hm'. injection Hm' as <-. apply Forall_app_2; [|by repeat constructor].
    eapply Forall_impl; [exact Hlt|]. cbn. lia.
  - intros (-> & Hl & p & Hp & ->)%Hf.
    destruct (rok_flying _ _ (inv_reactor _ _ Hw) Hl) as (m' & Hm' & Hq & _ & Hlast); [done|].
    rewrite Hm in Hm'. injection Hm' as <-. specialize (Hlast p Hp). exists p. split; [done|].
    apply Forall_app_2; [|repeat constructor; lia]. eapply Forall_impl; [exact Hlt|]. cbn. lia.
  - by rewrite Hi.
  - rewrite Hc. by intros o [= <-].
  - intros Hb. unfold returned in Hb. cbn in Hb. by rewrite Hc in Hb.
Qed.

Lemma ordered_step n w s : inv n w -> timely w s -> ordered w -> ordered (step w s).
Proof.
  intros Hw Ht Hord. destruct s as [registered adm| |h|h| |ok| | | |]; cbn [timely] in Ht.
  - destruct (constructor w) eqn:Ec; [by eapply construct_ordered|cbn; by rewrite Ec..].
  - by eapply constructor_step_ordered.
  - cbn. destruct (worker_idle w); [|done]. destruct Hord. by split.
  - cbn. destruct (worker_idle w) eqn:Ei; [|done]. destruct (publish_topology h (service w)) as [v' o].
    destruct Hord. split; try done. cbn. destruct o; [|done]. by destruct (_ && _).
  - by eapply worker_step_ordered.
  - by eapply write_done_ordered.
  - cbn. destruct (_ && _); [|done]. apply ordered_set_reactor; [done|apply request_finish_order].
  - cbn. destruct (_ && _); [|done]. apply ordered_set_reactor; [done|]. apply request_finish_order.
  - destruct Hord. by split.
  - cbn. destruct (_ && _); [|done]. apply ordered_set_reactor; [done|apply same_order_done].
Qed.

Lemma watch_ordered_start h w : start h = Ok w -> ordered w.
Proof.
  unfold start. destruct (refresh_topology_snapshot h fresh_state) as [[v s]|e]; cbn; [|done].
  intros [= <-]. by split; try constructor.
Qed.

Lemma inv_run n w steps :
  inv n w -> well_timed steps w -> Z.of_nat (n + length steps) < 2 ^ 64 ->
  inv (n + length steps) (run steps w).
Proof.
  revert n w. induction steps as [|s steps IH]; intros n w Hw Ht Hn; cbn in *.
  - by rewrite Nat.add_0_r.
  - destruct Ht as [Ht Hts]. rewrite <- Nat.add_succ_comm. apply IH; [|done|lia].
    apply inv_step; [done|done|lia].
Qed.

Lemma ordered_run n w steps :
  inv n w -> ordered w -> well_timed steps w -> Z.of_nat (n + length steps) < 2 ^ 64 -> ordered (run steps w).
Proof.
  revert n w. induction steps as [|s steps IH]; intros n w Hw Hord Ht Hn; [done|]. cbn in *.
  destruct Ht as [Ht Hts]. apply (IH (S n)); [apply inv_step; [done|done|lia]| |done|lia].
  by eapply ordered_step.
Qed.

Lemma watch_inv_start h w : start h = Ok w -> inv 1 w.
Proof.
  unfold start, refresh_topology_snapshot, fresh_state.
  destruct (Adapter.topology h) as [topo|e]; cbn; [|done]. intros [= <-].
  set (ser := SerializeAsString _).
  assert (Hs : snap_ok (mkState ser (Some (mkSnapshot 1 (encode_hal_topology topo))) 1 0 {[1 := ser]} 0)
    (mkSnapshot 1 (encode_hal_topology topo))) by (split; cbn; [lia|by rewrite lookup_singleton_eq]).
  split; cbn; try done.
  - split; cbn; try done; [eauto|].
    intros k [x Hx]. apply lookup_insert_Some in Hx as [[<- _]|[_ Hx]]; [done|by rewrite lookup_empty in Hx].
Qed.

(** C15: A topology watcher is up to date when its stream is quiet.  In every run of
    topology requests, timer refreshes, write completions and endings in which no
    publication falls into the constructor's own offer, the sequence numbers the client
    receives are strictly increasing, and whenever the stream is open and subscribed with no write under way, the client holds a snapshot at least as
    new as every published one, and the structure it shows is the one its sequence
    number was given to; in particular it is the current structure when the latest
    was published. *)
Theorem watcher_up_to_date (h : Hal) (w0 : World) (steps : list Step) :
  start h = Ok w0 -> well_timed steps w0 -> Z.of_nat (S (length steps)) < 2 ^ 64 ->
  let w := run steps w0 in
  StronglySorted (fun s t => seq s < seq t) (received w)
  /\ (constructor w = At Idle -> worker w = Idle -> hub_closed w = false ->
      live (reactor w) -> subscribed (reactor w) = true -> flying (reactor w) = false ->
      exists s, last (received w) = Some s /\ published (service w) <= seq s
        /\ names (service w) !! seq s = Some (SerializeAsString (structural (topology s)))
        /\ (published (service w) = topology_sequence (service w) ->
            SerializeAsString (structural (topology s)) = topology_serialized (service w))).
Proof.
  intros Hs Ht Hn w.
  pose proof (inv_run 1 w0 steps (watch_inv_start h w0 Hs) Ht Hn) as Hw. fold w in Hw. split.
  { by apply (ordered_run 1 w0 steps (watch_inv_start h w0 Hs) (watch_ordered_start h w0 Hs) Ht Hn). }
  intros Hc Hi Hh Hl Hsub Hf.
  destruct (inv_cover _ _ Hw (proj2 (returned_true w) Hc) Hi Hl Hsub Hh) as [H1 H2].
  unfold cover in H1, H2. rewrite Hf in H1, H2.
  destruct (inv_last _ _ Hw Hl Hf H1) as (s & Hlast & Hseq).
  assert (Hok : snap_ok (service w) s).
  { pose proof (inv_received _ _ Hw) as Hr. rewrite Forall_forall in Hr. apply Hr.
    by apply last_Some_elem_of. }
  destruct Hok as [Hrange Hname]. exists s. rewrite Hseq in *. split_and!; try done.
  intros Hp. pose proof (sok_serialized _ _ (inv_state _ _ Hw)) as Hser.
  assert (after_ (reactor w) = topology_sequence (service w)) as E by lia.
  rewrite E, Hser in Hname. by injection Hname as ->.
Qed.

End Topology.

(** ** Runs *)

(** A serialization that is enough for the examples: the names of the signals. *)
Definition signal_names (t : HalTopology) : string :=
  foldr (fun s acc => String.append (sm_name s) (String.append ";" acc)) EmptyString (m_signals t).

Definition sample_later : Hal := (add_signal "extra" HAL_BIT sample_hal).1.

Definition sample_start : World :=
  match start (H := list_priv) signal_names sample_hal with
  | Ok w => w
  | Err _ => mkWorld fresh_state (make false) Begin Idle false []
  end.

(** A signal appears while the first snapshot is being written. *)
Definition sample_steps : list Step :=
  [Tick sample_hal; Construct true true; ConstructorStep; ConstructorStep; ConstructorStep;
   ConstructorStep; Get sample_later; Tick sample_later; WorkerStep; WriteDone true; WriteDone true].

Lemma watcher_up_to_date_witness :
  StronglySorted (fun s t => seq s < seq t) (received (run (H := list_priv) signal_names sample_steps sample_start))
  /\ exists s, last (received (run (H := list_priv) signal_names sample_steps sample_start)) = Some s
    /\ 2 <= seq s.
Proof.
  destruct (@watcher_up_to_date list_priv signal_names sample_hal sample_start sample_steps) as [Hsorted Hlast].
  - vm_compute. reflexivity.
  - cbn [well_timed timely sample_steps].
    repeat (split; [first [exact I | intros o Ho; vm_compute in Ho; (discriminate Ho || (injection Ho as <-; reflexivity))
      | vm_compute; reflexivity]|]); exact I.
  - vm_compute. reflexivity.
  - split; [exact Hsorted|].
    destruct Hlast as (s & Hs & Hp & _); [vm_compute; first [reflexivity|split_and!; reflexivity]..|].
    exists s. split; [exact Hs|]. etrans; [|exact Hp]. vm_compute. discriminate.
Defined.

(** The constructor has tested that no write is in flight when the worker publishes
    a new topology: the constructor's older message overwrites the newer one, and
    the worker's [try_start_write] fails. *)
Definition race : list Step :=
  [Construct true true; ConstructorStep; ConstructorStep; Tick sample_later; WorkerStep; WorkerStep;
   ConstructorStep; ConstructorStep; WorkerStep; WriteDone true].

(** The watcher is left with the old topology: the stream is open and quiet, a newer
    snapshot was published, and no later refresh of the same topology is sent. *)
Theorem constructor_race :
  let w := run (H := list_priv) signal_names race sample_start in
  live (reactor w) /\ subscribed (reactor w) = true /\ flying (reactor w) = false
  /\ seq <$> last (received w) = Some 1 /\ published (service w) = 2
  /\ forall n, run (H := list_priv) signal_names (mjoin (replicate n [Tick sample_later; WorkerStep])) w = w.
Proof.
  intros w. split_and!; [vm_compute; split_and!; reflexivity|vm_compute; reflexivity..|].
  assert (Hfix : run (H := list_priv) signal_names [Tick sample_later; WorkerStep] w = w)
    by (vm_compute; reflexivity).
  exact (foldl_repeat _ _ w Hfix).
Qed.

End Topology.
