(* ===== verification/HalTimer.v ===== *)
(** The timer thread of the HAL service and the end of the service
    ([hal/grpc/service_hal.cc]), composed with the executor of [CallbackRuntime] that runs
    the sampling tasks and the last task, which destroys the registry of remote
    components.  What a sampling pass does is in [HalService] and [RemoteComponent]. *)
From S2P Require Import Prelude CallbackRuntime.

Local Open Scope Z_scope.

Module Timer.
Import Executor.

#[local] Existing Instance Item_eq_dec.

Section Timer.
Context (topology_period : Z).

(** The tasks of the HAL worker that matter here; other users' tasks have other numbers. *)
Definition destroy : Item := mkItem 0 true.
Definition sample (refresh_topology : bool) : Item := mkItem (if refresh_topology then 2 else 1) false.

Inductive Event := Destroyed | Sampled (refresh_topology : bool).

#[export] Instance Event_eq_dec : EqDecision Event.
Proof. solve_decision. Defined.

(** What the task does when it runs. *)
Definition event_of (i : Item) : option Event :=
  if decide (i = destroy) then Some Destroyed
  else if decide (i = sample false) then Some (Sampled false)
  else if decide (i = sample true) then Some (Sampled true)
  else None.

(** [timer_loop]: at the test of [stopping_], before and after the submission, in the
    wait, and returned. *)
Inductive TimerThread :=
| Testing
| Submitting (refresh_topology : bool)
| Ticking
| Waiting (deadline : Z)
| TimerReturned.

(** The first [shutdown]: not called, and its steps.  Later calls return at once. *)
Inductive Shutdown :=
| NotCalled
| ClosingWakes
| ClosingCallbacks
| Notifying
| JoiningTimer
| SubmittingDestroy
| AwaitingDestroy
| Draining
| Inline
| Returned.

(** [log]: what the tasks, and the inline call of [destroy], did. *)
Record World := mkWorld {
  stopping_ : bool;
  wakes_closed : bool;
  callbacks_shutdown : bool;
  timer : TimerThread;
  ender : Shutdown;
  clock : Z;
  next_topology : Z;
  worker_ : Executor;
  ticks : list Z;
  log : list Event;
}.

Definition set_timer (t : TimerThread) (w : World) : World :=
  mkWorld (stopping_ w) (wakes_closed w) (callbacks_shutdown w) t (ender w) (clock w) (next_topology w)
    (worker_ w) (ticks w) (log w).
Definition set_ender (e : Shutdown) (w : World) : World :=
  mkWorld (stopping_ w) (wakes_closed w) (callbacks_shutdown w) (timer w) e (clock w) (next_topology w)
    (worker_ w) (ticks w) (log w).
Definition set_worker (e : Executor) (w : World) : World :=
  mkWorld (stopping_ w) (wakes_closed w) (callbacks_shutdown w) (timer w) (ender w) (clock w)
    (next_topology w) e (ticks w) (log w).
Definition set_next (n : Z) (w : World) : World :=
  mkWorld (stopping_ w) (wakes_closed w) (callbacks_shutdown w) (timer w) (ender w) (clock w) n
    (worker_ w) (ticks w) (log w).
Definition set_clock (n : Z) (w : World) : World :=
  mkWorld (stopping_ w) (wakes_closed w) (callbacks_shutdown w) (timer w) (ender w) n (next_topology w)
    (worker_ w) (ticks w) (log w).
Definition tick_streams (w : World) : World :=
  mkWorld (stopping_ w) (wakes_closed w) (callbacks_shutdown w) (timer w) (ender w) (clock w)
    (next_topology w) (worker_ w) (ticks w ++ [clock w]) (log w).
Definition append_log (l : list Event) (w : World) : World :=
  mkWorld (stopping_ w) (wakes_closed w) (callbacks_shutdown w) (timer w) (ender w) (clock w)
    (next_topology w) (worker_ w) (ticks w) (log w ++ l).
Definition close (stopping wakes callbacks : bool) (w : World) : World :=
  mkWorld (stopping_ w || stopping) (wakes_closed w || wakes) (callbacks_shutdown w || callbacks) (timer w)
    (ender w) (clock w) (next_topology w) (worker_ w) (ticks w) (log w).

#[local] Instance TimerThread_eq_dec : EqDecision TimerThread.
Proof. solve_decision. Defined.
#[local] Instance Shutdown_eq_dec : EqDecision Shutdown.
Proof. solve_decision. Defined.

(** One step of [timer_loop]; the result of the submission is ignored. *)
Definition timer_step (w : World) : World :=
  match timer w with
  | Testing =>
      if stopping_ w then set_timer TimerReturned w
      else
        let refresh_topology := next_topology w <=? clock w in
        set_timer (Submitting refresh_topology)
          (if refresh_topology then set_next (clock w + topology_period) w else w)
  | Submitting b => set_timer Ticking (set_worker (submit (Some (item_task (sample b))) (worker_ w)).1 w)
  | Ticking => set_timer (Waiting (clock w + 50)) (tick_streams w)
  | Waiting deadline => if stopping_ w || (deadline <=? clock w) then set_timer Testing w else w
  | TimerReturned => w
  end.

(** One step of [shutdown]; [Notifying] is [timer_condition_.notify_all()], which the
    timer needs not hear: its wait ends by itself. *)
Definition shutdown_step (w : World) : World :=
  match ender w with
  | NotCalled => set_ender ClosingWakes (close true false false w)
  | ClosingWakes => set_ender ClosingCallbacks (close false true false w)
  | ClosingCallbacks => set_ender Notifying (close false false true w)
  | Notifying => set_ender JoiningTimer w
  | JoiningTimer => match timer w with TimerReturned => set_ender SubmittingDestroy w | _ => w end
  | SubmittingDestroy =>
      let '(e, accepted) := submit_cleanup (Some (item_task destroy)) (worker_ w) in
      set_ender (if accepted then AwaitingDestroy else Draining) (set_worker e w)
  | AwaitingDestroy => if decide (Destroyed ∈ log w) then set_ender Returned w else w
  | Draining => if idle (worker_ w) then set_ender Inline w else w
  | Inline => set_ender Returned (append_log [Destroyed] w)
  | Returned => w
  end.

(** The worker: the end of a task is where its effect shows. *)
Definition worker_task (w : World) : World :=
  let w1 := set_worker (worker_step 0 (worker_ w)) w in
  match workers (worker_ w) !! 0%nat with
  | Some (Running i) => append_log (match event_of i with Some e => [e] | None => [] end) w1
  | _ => w1
  end.

(** Everyone else who uses the executor. *)
Definition foreign (o : Executor.Op) : bool :=
  match o with
  | OpSubmit (Some t) => negb (t <? 3)%nat
  | OpSubmitCleanup (Some t) => negb (t <? 3)%nat
  | OpWorker _ => false
  | _ => true
  end.

Inductive Step :=
| TimerStep
| ShutdownStep
| WorkerTask
| Exec (o : Executor.Op)
| Wait (n : Z).

Definition step (w : World) (s : Step) : World :=
  match s with
  | TimerStep => timer_step w
  | ShutdownStep => shutdown_step w
  | WorkerTask => worker_task w
  | Exec o => if foreign o then set_worker (Executor.apply (worker_ w) o) w else w
  | Wait n => set_clock (clock w + Z.max 0 n) w
  end.

Definition start (now : Z) (e : Executor) : World :=
  mkWorld false false false Testing NotCalled now now e [] [].
Definition run (now : Z) (e : Executor) (steps : list Step) : World := foldl step (start now e) steps.

(** ** One worker *)

#[local] Arguments running : simpl never.

Lemma running_insert_same (ws : list WorkerThread) i x y :
  ws !! i = Some x -> running_item x = running_item y ->
  concat (running_item <$> <[i := y]> ws) = concat (running_item <$> ws).
Proof.
  intros Hi E. rewrite list_fmap_insert, list_insert_id; [done|]. by rewrite list_lookup_fmap, Hi, <- E.
Qed.

(** What an operation of someone else leaves, and the tasks it may add. *)
Record kept (e e' : Executor) (add : list Item) : Prop := mkKept {
  kept_accepted : accepted e' = accepted e ++ add;
  kept_completed : completed e' = completed e;
  kept_started : started e' = started e;
  kept_running : running e' = running e;
  kept_workers : length (workers e') = length (workers e);
  kept_queue : forall x, x ∈ queue e' -> x ∈ queue e ++ add;
}.

Lemma kept_wake e : kept e (wake_all e) [].
Proof.
  split; cbn; rewrite ?app_nil_r; try done; [|by rewrite length_fmap]. unfold running. cbn. by rewrite running_wake.
Qed.

Lemma submit_impl_kept t c e :
  kept e (submit_impl t c e).1
    (if (submit_impl t c e).2 then match t with Some n => [mkItem n c] | None => [] end else []).
Proof.
  unfold submit_impl. destruct t as [t|]; [|by split; rewrite ?app_nil_r].
  destruct (_ || _); [|destruct (_ <=? _)%nat; [|destruct (_ && _)]]; by split; cbn; rewrite ?app_nil_r.
Qed.

Lemma notify_kept e w : kept e (notify_one w e) [].
Proof.
  assert (Hid : kept e e []) by (by split; rewrite ?app_nil_r). unfold notify_one.
  destruct (pending_one e); [done|]. destruct w as [i|j].
  - case_bool_decide as Ei.
    + split; cbn; rewrite ?app_nil_r; try done; [|by rewrite length_insert]. unfold running. cbn.
      by apply (running_insert_same _ _ Sleeping).
    + destruct (someone_sleeps e); [done|]. by split; cbn; rewrite ?app_nil_r.
  - case_bool_decide.
    + by split; cbn; rewrite ?app_nil_r.
    + destruct (someone_sleeps e); [done|]. by split; cbn; rewrite ?app_nil_r.
Qed.

Lemma small_event t c : (t <? 3)%nat = false -> event_of (mkItem t c) = None.
Proof.
  intros H. apply Nat.ltb_ge in H. unfold event_of, destroy, sample.
  rewrite !decide_False by (intros [= -> _]; lia). done.
Qed.

Lemma foreign_kept e o :
  foreign o = true ->
  exists add, kept e (Executor.apply e o) add /\ Forall (fun x => event_of x = None) add.
Proof.
  intros Hf. destruct o as [t|t| |d| |x| |i|j]; cbn in Hf |- *; try done.
  - destruct t as [t|]; [|exists []; split; [by split; rewrite ?app_nil_r|done]].
    eexists. split; [apply submit_impl_kept|]. destruct (submit_impl _ _ _).2; [|done].
    apply Forall_singleton, small_event. by apply negb_true_iff.
  - destruct t as [t|]; [|exists []; split; [by split; rewrite ?app_nil_r|done]].
    eexists. split; [apply submit_impl_kept|]. destruct (submit_impl _ _ _).2; [|done].
    apply Forall_singleton, small_event. by apply negb_true_iff.
  - exists []. split; [by split; cbn; rewrite ?app_nil_r|done].
  - exists []. split; [|done]. unfold Executor.shutdown. destruct (stopping e); [by split; rewrite ?app_nil_r|].
    split; cbn; rewrite ?app_nil_r; try done. destruct d; [done|]. by intros x ?%not_elem_of_nil.
  - exists []. split; [by split; cbn; rewrite ?app_nil_r|done].
  - exists []. split; [apply notify_kept|done].
  - exists []. split; [|done]. unfold notify_all. destruct (pending_all e); [by split; rewrite ?app_nil_r|].
    by destruct (kept_wake (set_pending (pending_one e) n e)); split.
  - exists []. split; [|done]. unfold drainer_step. destruct (drainers e !! j) as [[]|]; by split; cbn; rewrite ?app_nil_r.
Qed.

(** The worker of an executor that has one. *)
Lemma worker_kept e :
  length (workers e) = 1%nat ->
  let e' := worker_step 0 e in
  length (workers e') = 1%nat /\ accepted e' = accepted e
  /\ match workers e !! 0%nat with
     | Some (Running i) =>
         running e = [i] /\ running e' = [] /\ completed e' = completed e ++ [i] /\ started e' = started e
         /\ queue e' = queue e
     | _ =>
         running e = [] /\ completed e' = completed e /\ started e' = started e ++ running e'
         /\ queue e = running e' ++ queue e'
     end.
Proof.
  intros H1. destruct (workers e) as [|x [|]] eqn:Ew; try done. cbn. unfold worker_step. rewrite Ew. cbn.
  assert (Hrun : running e = running_item x) by (unfold running; rewrite Ew; cbn; by rewrite app_nil_r).
  destruct x as [| |i|].
  - unfold running in *. rewrite Ew in *. by rewrite app_nil_r.
  - destruct (stopping e || negb (bool_decide (queue e = []))) eqn:Et.
    + destruct (queue e) as [|item rest] eqn:Eq.
      * destruct (stopping e); rewrite ?Eq; unfold running in *; rewrite ?Ew in *; cbn; by rewrite ?app_nil_r.
      * unfold running in *. cbn. rewrite Ew in *. done.
    + unfold running in *. cbn. rewrite Ew in *. by rewrite ?app_nil_r.
  - match goal with |- context [wake_all ?x] => set (e1 := x) end.
    assert (H : forall e2, e2 = e1 \/ e2 = wake_all e1 ->
      length (workers e2) = 1%nat /\ accepted e2 = accepted e /\ running e2 = []
      /\ completed e2 = completed e ++ [i] /\ started e2 = started e /\ queue e2 = queue e).
    { intros e2 He2. assert (Hr1 : running e1 = []) by (unfold running, e1; cbn; by rewrite ?Ew).
      destruct He2 as [->| ->]; [by unfold e1; cbn; rewrite ?Ew|].
      destruct (kept_wake e1) as [_ _ _ Hr Hl _]. rewrite Hr, Hl. unfold e1. cbn. rewrite ?Ew. split_and!; done. }
    match goal with |- length (workers ?e2) = _ /\ _ => destruct (H e2) as (K1 & K2 & K3 & K4 & K5 & K6) end.
    { destruct (idle e1); [by right|]. destruct (_ && _); [by right|by left]. }
    by split_and!.
  - unfold running in *. rewrite Ew in *. by rewrite app_nil_r.
Qed.

(** ** The end of the service *)

Definition quiet (x : Item) : Prop := event_of x = None.

(** Nothing of the timer's, and no second [destroy], was accepted after [destroy]. *)
Definition clean (l : list Item) : Prop := forall l1 l2, l = l1 ++ destroy :: l2 -> Forall quiet l2.

Lemma event_destroy : event_of destroy = Some Destroyed.
Proof. done. Qed.

Lemma event_sample b : event_of (sample b) = Some (Sampled b).
Proof. by destruct b. Qed.

Lemma not_quiet_destroy : ~ quiet destroy.
Proof. done. Qed.

Lemma clean_quiet l add : clean l -> Forall quiet add -> clean (l ++ add).
Proof.
  intros Hl Ha l1 l2 E. rewrite Forall_forall in Ha.
  destruct (app_eq_inv _ _ _ _ E) as [(k & -> & E2)|(k & -> & E2)].
  - destruct k as [|x k].
    + cbn in E2. destruct (not_quiet_destroy (Ha destroy ltac:(rewrite <- E2; set_solver))).
    + injection E2 as <- ->. apply Forall_app_2; [by apply (Hl l1 k)|by apply Forall_forall].
  - destruct (not_quiet_destroy (Ha destroy ltac:(rewrite E2; set_solver))).
Qed.

Lemma clean_snoc l x : destroy ∉ l -> clean (l ++ [x]).
Proof.
  intros Hl l1 l2 E. destruct l2 as [|y l2 _] using rev_ind; [done|exfalso].
  apply Hl. rewrite app_comm_cons, app_assoc in E. apply app_inj_tail in E as [-> _]. set_solver.
Qed.

(** What the executor's histories say of each other. *)
Definition future (e : Executor) : list Item := running e ++ queue e.

(** [shutdown] is not past the join. *)
Definition early (s : Shutdown) : Prop :=
  match s with
  | NotCalled | ClosingWakes | ClosingCallbacks | Notifying | JoiningTimer => True
  | _ => False
  end.

(** [log] tells what was done, with the call in [shutdown] when it came to that. *)
Definition log_ok (w : World) : Prop :=
  let e := worker_ w in
  log w = omap event_of (completed e)
  \/ ender w = Returned /\ log w = omap event_of (completed e) ++ [Destroyed]
     /\ Forall quiet (future e) /\ destroy ∉ accepted e.

Record inv (w : World) : Prop := mkInv {
  inv_executor : Executor.inv (worker_ w);
  inv_one : length (workers (worker_ w)) = 1%nat;
  inv_order : started (worker_ w) = completed (worker_ w) ++ running (worker_ w);
  inv_log : log_ok w;
  inv_clean : clean (accepted (worker_ w));
  inv_destroy : destroy ∈ accepted (worker_ w) -> ender w = AwaitingDestroy \/ ender w = Returned;
  inv_timer : timer w <> TimerReturned -> early (ender w);
  inv_inline : ender w = Inline -> Forall quiet (future (worker_ w));
  inv_flags : stopping_ w = bool_decide (ender w <> NotCalled)
    /\ (wakes_closed w = false -> ender w = NotCalled \/ ender w = ClosingWakes)
    /\ (callbacks_shutdown w = false ->
        ender w = NotCalled \/ ender w = ClosingWakes \/ ender w = ClosingCallbacks);
  inv_returned : ender w = Returned -> Destroyed ∈ log w;
}.

Lemma hal_apply_inv e o : Executor.inv e -> Executor.inv (Executor.apply e o).
Proof. intros H. exact (executor_inv_run [o] e H). Qed.

Lemma quiet_not_destroy l : Forall quiet l -> destroy ∉ l.
Proof. rewrite Forall_forall. intros H Hin. by destruct (not_quiet_destroy (H _ Hin)). Qed.

Lemma future_kept e e' add :
  kept e e' add -> Forall quiet add -> Forall quiet (future e) -> Forall quiet (future e').
Proof.
  intros [_ _ _ Kr _ Kq] Ha Hf. unfold future in *. rewrite Kr. rewrite !Forall_forall in *.
  intros x [H|H]%elem_of_app; [apply Hf; set_solver|].
  apply Kq in H. apply elem_of_app in H as [H|H]; [apply Hf; set_solver|by apply Ha].
Qed.

(** Someone else's tasks. *)
Lemma inv_kept e add w :
  inv w -> kept (worker_ w) e add -> Forall quiet add -> Executor.inv e -> inv (set_worker e w).
Proof.
  intros [I1 I2 I3 I4 I5 I6 I7 I8 I9 I10] K Ha He. pose proof K as [Ka Kc Ks Kr Kw Kq].
  pose proof (quiet_not_destroy _ Ha) as Hd. split; cbn; try done.
  - by rewrite Kw.
  - by rewrite Kc, Kr, Ks.
  - destruct I4 as [H|(H1 & H2 & H3 & H4)]; [left; cbn; by rewrite Kc|right]. cbn. rewrite Kc, Ka.
    split_and!; try done; [by eapply future_kept|]. set_solver.
  - rewrite Ka. by apply clean_quiet.
  - rewrite Ka. intros H. apply I6. set_solver.
  - intros H. eapply future_kept; [done|done|by apply I8].
Qed.

Lemma inv_worker_task w : inv w -> inv (worker_task w).
Proof.
  intros [I1 I2 I3 I4 I5 I6 I7 I8 I9 I10]. unfold worker_task. destruct (worker_kept (worker_ w) I2) as (K1 & K2 & K3).
  pose proof (hal_apply_inv _ (OpWorker 0) I1) as He. cbn [Executor.apply] in He.
  set (e' := worker_step 0 (worker_ w)) in *.
  assert (Hrun : (exists i, workers (worker_ w) !! 0%nat = Some (Running i))
    \/ (forall i, workers (worker_ w) !! 0%nat <> Some (Running i)))
    by (destruct (workers (worker_ w) !! 0%nat) as [[| |i|]|]; eauto; by right).
  destruct Hrun as [[i Hi]|Hi].
  - rewrite Hi in *. destruct K3 as (R1 & R2 & R3 & R4 & R5).
    set (l := match event_of i with Some e => [e] | None => [] end).
    assert (Hl : omap event_of (completed e') = omap event_of (completed (worker_ w)) ++ l)
      by (rewrite R3, omap_app; unfold l; cbn; by destruct (event_of i)).
    assert (Hfut : Forall quiet (future (worker_ w)) -> Forall quiet (future e') /\ l = []).
    { unfold future. rewrite R1, R2, R5. cbn. intros [H1 H2]%Forall_cons. split; [done|].
      unfold l. by rewrite H1. }
    split; cbn; try done.
    + by rewrite R4, R3, R2, app_nil_r, I3, R1.
    + destruct I4 as [H|(H1 & H2 & H3 & H4)]; [left|right]; cbn; rewrite Hl; [by rewrite H|].
      destruct (Hfut H3) as [Hf ->]. rewrite !app_nil_r, K2. by split_and!.
    + by rewrite K2.
    + by rewrite K2.
    + intros H. by apply Hfut, I8.
    + intros H. rewrite elem_of_app. left. by apply I10.
  - assert (K4 : running (worker_ w) = [] /\ completed e' = completed (worker_ w)
      /\ started e' = started (worker_ w) ++ running e' /\ queue (worker_ w) = running e' ++ queue e')
      by (destruct (workers (worker_ w) !! 0%nat) as [[| |i|]|]; try done; by destruct (Hi i)).
    destruct K4 as (R1 & R2 & R3 & R4).
    assert (Hfut : future e' = future (worker_ w)) by (unfold future; by rewrite R1, R4).
    assert (Hgoal : inv (set_worker e' w)).
    { split; cbn; try done.
      - by rewrite R3, R2, I3, R1, app_nil_r.
      - destruct I4 as [H|(H1 & H2 & H3 & H4)]; [left; cbn; by rewrite R2|right]. cbn. rewrite R2, K2, Hfut.
        by split_and!.
      - by rewrite K2.
      - by rewrite K2.
      - intros H. rewrite Hfut. by apply I8. }
    destruct (workers (worker_ w) !! 0%nat) as [[| |i|]|]; try done. by destruct (Hi i).
Qed.

Lemma log_plain w : log_ok w -> ender w <> Returned -> log w = omap event_of (completed (worker_ w)).
Proof. by intros [H|(H & _)]. Qed.

(** The timer or the shutdown adds one of its tasks. *)
Lemma inv_add x en e w :
  inv w -> kept (worker_ w) e [x] -> Executor.inv e ->
  en = ender w /\ early en /\ x <> destroy \/ en = AwaitingDestroy /\ ender w = SubmittingDestroy ->
  inv (set_ender en (set_worker e w)).
Proof.
  intros [I1 I2 I3 I4 I5 I6 I7 I8 I9 I10] [Ka Kc Ks Kr Kw Kq] He Hen.
  assert (Hnd : destroy ∉ accepted (worker_ w)).
  { intros H. destruct (I6 H) as [E|E]; rewrite E in Hen; by destruct Hen as [(-> & ? & _)|[_ ?]]. }
  assert (Hnr : ender w <> Returned) by (intros E; rewrite E in Hen; by destruct Hen as [(-> & ? & _)|[_ ?]]).
  split; cbn; try done.
  - by rewrite Kw.
  - by rewrite Kc, Kr, Ks.
  - left. cbn. rewrite Kc. by apply log_plain.
  - rewrite Ka. by apply clean_snoc.
  - rewrite Ka, elem_of_app, list_elem_of_singleton. intros [H|H]; [done|].
    destruct Hen as [(_ & _ & ?)|[-> _]]; [by subst|by left].
  - intros Ht. pose proof (I7 Ht) as Hearly. destruct Hen as [(-> & _)|[_ E]]; [done|]. by rewrite E in Hearly.
  - intros ->. by destruct Hen as [(_ & ? & _)|[? _]].
  - destruct Hen as [(-> & _)|[-> E]]; [done|]. rewrite E in I9.
    destruct I9 as (-> & Hw & Hc). split_and!; [done|naive_solver|naive_solver].
  - intros ->. by destruct Hen as [(_ & ? & _)|[? _]].
Qed.

Lemma hal_submit_inv t c w :
  inv w -> Executor.inv (submit_impl t c (worker_ w)).1.
Proof.
  intros Hw. destruct c.
  - apply (hal_apply_inv _ (OpSubmitCleanup t)), Hw.
  - apply (hal_apply_inv _ (OpSubmit t)), Hw.
Qed.

(** A change outside the executor, the log and [shutdown]. *)
Lemma inv_set_timer t w : inv w -> timer w <> TimerReturned \/ t = TimerReturned -> inv (set_timer t w).
Proof.
  intros [I1 I2 I3 I4 I5 I6 I7 I8 I9 I10] Ht. split; cbn; try done. intros H. apply I7.
  destruct Ht as [?|?]; [done|congruence].
Qed.

Lemma inv_timer_step w : inv w -> inv (timer_step w).
Proof.
  intros Hw. unfold timer_step. destruct (timer w) as [|b| |deadline|] eqn:Et; try done.
  - destruct (stopping_ w); [apply inv_set_timer; [done|by right]|].
    apply inv_set_timer; [|left]; (destruct (next_topology w <=? clock w); [|by rewrite ?Et]);
      [by destruct Hw|by cbn; rewrite Et].
  - apply inv_set_timer; [|left; cbn; by rewrite Et].
    pose proof (submit_impl_kept (Some (item_task (sample b))) false (worker_ w)) as K.
    pose proof (hal_submit_inv (Some (item_task (sample b))) false w Hw) as He. unfold submit.
    destruct (submit_impl _ _ _) as [e r]. cbn in *. destruct r.
    + replace (set_worker e w) with (set_ender (ender w) (set_worker e w)) by done.
      apply (inv_add (sample b)); [done| |done|left].
      * by replace (sample b) with (mkItem (if b then 2 else 1)%nat false) by by destruct b.
      * split_and!; [done|apply (inv_timer _ Hw); by rewrite Et|by destruct b].
    + by apply (inv_kept _ []).
  - apply inv_set_timer; [by destruct Hw|left; cbn; by rewrite Et].
  - destruct (_ || _); [|done]. apply inv_set_timer; [done|left; by rewrite Et].
Qed.

(** [shutdown] goes on before it has a task of its own. *)
Lemma hal_inv_move en st wk cb w :
  inv w -> early (ender w) -> early en \/ en = SubmittingDestroy /\ timer w = TimerReturned ->
  (stopping_ w || st = bool_decide (en <> NotCalled)
   /\ (wakes_closed w || wk = false -> en = NotCalled \/ en = ClosingWakes)
   /\ (callbacks_shutdown w || cb = false -> en = NotCalled \/ en = ClosingWakes \/ en = ClosingCallbacks)) ->
  inv (set_ender en (close st wk cb w)).
Proof.
  intros [I1 I2 I3 I4 I5 I6 I7 I8 I9 I10] He Hen Hfl.
  assert (Hnr : ender w <> Returned) by (intros E; by rewrite E in He).
  split; cbn; try done.
  - left. cbn. by apply log_plain.
  - intros H. destruct (I6 H) as [E|E]; by rewrite E in He.
  - intros Ht. destruct Hen as [?|[_ ?]]; done.
  - intros ->. by destruct Hen as [?|[? _]].
  - intros ->. by destruct Hen as [?|[? _]].
Qed.

(** [shutdown] goes on after that. *)
Lemma inv_end en l w :
  inv w -> match ender w, en with
           | AwaitingDestroy, Returned => l = [] /\ Destroyed ∈ log w
           | Draining, Inline => l = [] /\ Forall quiet (future (worker_ w))
           | Inline, Returned => l = [Destroyed]
           | SubmittingDestroy, Draining => l = []
           | _, _ => False
           end -> inv (set_ender en (append_log l w)).
Proof.
  intros [I1 I2 I3 I4 I5 I6 I7 I8 I9 I10] Hen. destruct I9 as (F1 & F2 & F3).
  destruct (ender w) eqn:Ew, en; try done.
  - subst l. split; cbn; rewrite ?app_nil_r; try done.
    + left. cbn. rewrite app_nil_r. by apply log_plain; [|rewrite Ew].
    + intros H. by destruct (I6 H).
    + split_and!; [done|naive_solver|naive_solver].
  - destruct Hen as [-> Hd]. split; cbn; rewrite ?app_nil_r; try done.
    + left. cbn. rewrite app_nil_r. by apply log_plain; [|rewrite Ew].
    + by right.
    + split_and!; [done|naive_solver|naive_solver].
  - destruct Hen as [-> Hq]. split; cbn; rewrite ?app_nil_r; try done.
    + left. cbn. rewrite app_nil_r. by apply log_plain; [|rewrite Ew].
    + intros H. by destruct (I6 H).
    + split_and!; [done|naive_solver|naive_solver].
  - subst l. split; cbn; try done.
    + right. cbn. split_and!; [done| |by apply I8|].
      * by rewrite (log_plain _ I4) by by rewrite Ew.
      * intros H. by destruct (I6 H).
    + by right.
    + split_and!; [done|naive_solver|naive_solver].
    + intros _. rewrite elem_of_app, list_elem_of_singleton. by right.
Qed.

Lemma idle_future e : Executor.inv e -> idle e = true -> future e = [].
Proof.
  intros He Hi. unfold idle in Hi. apply andb_true_iff in Hi as [Hq%bool_decide_eq_true Ha%Z.eqb_eq].
  unfold future. rewrite Hq, app_nil_r. rewrite (inv_active _ He) in Ha. destruct (running e); [done|]. cbn in Ha. lia.
Qed.

Lemma inv_shutdown_step w : inv w -> inv (shutdown_step w).
Proof.
  intros Hw. unfold shutdown_step. pose proof (inv_flags _ Hw) as (F1 & F2 & F3).
  destruct (ender w) eqn:Ew; try done.
  - apply hal_inv_move; [done|by rewrite Ew|by left|]. rewrite orb_true_r. split_and!; [done|auto..].
  - apply hal_inv_move; [done|by rewrite Ew|by left|]. rewrite orb_true_r, orb_false_r, F1. split_and!; [done..|auto].
  - apply hal_inv_move; [done|by rewrite Ew|by left|]. rewrite orb_true_r, !orb_false_r, F1.
    split_and!; [done|naive_solver|done].
  - replace w with (close false false false w) at 1 by (destruct w; unfold close; cbn; by rewrite !orb_false_r).
    apply hal_inv_move; [done|by rewrite Ew|by left|]. rewrite !orb_false_r, F1. split_and!; [done|naive_solver..].
  - destruct (timer w) eqn:Et; try done.
    replace w with (close false false false w) at 1 by (destruct w; unfold close; cbn; by rewrite !orb_false_r).
    apply hal_inv_move; [done|by rewrite Ew|by right|]. rewrite !orb_false_r, F1. split_and!; [done|naive_solver..].
  - pose proof (submit_impl_kept (Some (item_task destroy)) true (worker_ w)) as K.
    pose proof (hal_submit_inv (Some (item_task destroy)) true w Hw) as He. unfold submit_cleanup.
    destruct (submit_impl _ _ _) as [e r]. cbn in K, He. destruct r.
    + apply (inv_add destroy); [done|done|done|by right].
    + assert (H1 : inv (set_worker e w)) by (by apply (inv_kept _ [])).
      replace (set_worker e w) with (append_log [] (set_worker e w)) by (destruct w; unfold append_log; cbn; by rewrite app_nil_r).
      apply inv_end; [done|]. cbn. by rewrite Ew.
  - destruct (decide _) as [Hd|]; [|done].
    replace w with (append_log [] w) at 1 by (destruct w; unfold append_log; cbn; by rewrite app_nil_r).
    apply inv_end; [done|]. by rewrite Ew.
  - destruct (idle (worker_ w)) eqn:Ei; [|done].
    replace w with (append_log [] w) at 1 by (destruct w; unfold append_log; cbn; by rewrite app_nil_r).
    apply inv_end; [done|]. rewrite Ew. split; [done|]. rewrite (idle_future _ (inv_executor _ Hw) Ei). done.
  - apply inv_end; [done|]. by rewrite Ew.
Qed.

Lemma hal_step_inv w s : inv w -> inv (step w s).
Proof.
  intros Hw. destruct s as [| | |o|n]; cbn [step].
  - by apply inv_timer_step.
  - by apply inv_shutdown_step.
  - by apply inv_worker_task.
  - destruct (foreign o) eqn:Hf; [|done]. destruct (foreign_kept (worker_ w) o Hf) as (add & K & Ha).
    apply (inv_kept _ add); [done..|]. apply hal_apply_inv, Hw.
  - by destruct Hw.
Qed.

Lemma hal_run_inv now cap reserve e steps :
  Z.of_nat cap < 2 ^ 64 -> Executor.make 1 cap reserve = Ok e -> inv (run now e steps).
Proof.
  intros Hc He. assert (H : inv (start now e)).
  { pose proof (inv_make 1 cap reserve e ltac:(lia) Hc He) as Hi. revert He. unfold make. case_match; [done|].
    intros [= <-]. split; cbn; try done.
    - by left.
    - intros l1 l2 E. by destruct l1.
    - by intros ?%not_elem_of_nil.
    - split_and!; [done|auto..]. }
  unfold run. revert H. generalize (start now e). induction steps as [|s steps IH]; intros w Hw; [done|].
  by apply IH, hal_step_inv.
Qed.

(** The events behind the one of [destroy]. *)
Lemma after_destroy l done_ l1 l2 :
  clean l -> done_ `prefix_of` l -> omap event_of done_ = l1 ++ Destroyed :: l2 -> l2 = [].
Proof.
  intros Hc [rest ->]. revert l1 Hc. induction done_ as [|x done_ IH]; intros l1 Hc E; [by destruct l1|].
  destruct (decide (x = destroy)) as [->|Hx].
  - assert (Hq : Forall quiet (done_ ++ rest)) by (by apply (Hc [])).
    apply Forall_app in Hq as [Hq _].
    assert (Hnil : omap event_of done_ = []).
    { clear - Hq. induction Hq as [|y l Hy _ IH]; [done|]. cbn. by rewrite Hy. }
    cbn in E. rewrite Hnil in E. destruct l1 as [|? [|]]; [by injection E|done|done].
  - assert (Hc' : clean (done_ ++ rest)).
    { intros k1 k2 Ek. apply (Hc (x :: k1) k2). cbn. by rewrite Ek. }
    cbn in E. destruct (event_of x) as [ev|] eqn:Ex; [|by apply (IH l1)].
    destruct l1 as [|y l1]; [|injection E as _ E; by apply (IH l1)].
    injection E as -> _. exfalso. revert Ex. unfold event_of. rewrite decide_False by done.
    by repeat case_decide.
Qed.

(** C23: the service of HAL ends in order.  Whatever the timer, the other users of the HAL
    worker and the end of the service do, and in whatever order: the registry of remote
    components is destroyed at most once, and nothing of the timer's is run after it, so
    no sampling pass works on a destroyed registry.  When [shutdown] has returned, the
    registry was destroyed, the timer thread had returned, and no stream and no callback
    is left open.  Once the service is stopping, the timer returns within four of its
    steps, whatever time its wait was to take. *)
Theorem hal_service_ends now cap reserve e steps :
  Z.of_nat cap < 2 ^ 64 -> Executor.make 1 cap reserve = Ok e ->
  let w := run now e steps in
  (forall l1 l2, log w = l1 ++ Destroyed :: l2 -> l2 = [])
  /\ (ender w = Returned ->
      Destroyed ∈ log w /\ timer w = TimerReturned /\ stopping_ w = true
      /\ wakes_closed w = true /\ callbacks_shutdown w = true)
  /\ (stopping_ w = true -> timer (foldl step w (replicate 4 TimerStep)) = TimerReturned).
Proof.
  intros Hc He w. pose proof (hal_run_inv now cap reserve e steps Hc He) as Hw. fold w in Hw. split_and!.
  - intros l1 l2 E. destruct Hw as [I1 I2 I3 I4 I5 I6 I7 I8 I9 I10].
    destruct I4 as [H|(_ & H & _ & Hn)].
    + rewrite H in E. apply (after_destroy _ _ _ _ I5) in E; [done|].
      rewrite (Executor.inv_order _ I1), I3, <- app_assoc. by apply prefix_app_r.
    + rewrite H in E. destruct l2 as [|y l2 _] using rev_ind; [done|exfalso].
      rewrite app_comm_cons, app_assoc in E. apply app_inj_tail in E as [E _].
      assert (Hin : Destroyed ∈ omap event_of (completed (worker_ w))) by (rewrite E; set_solver).
      apply list_elem_of_omap in Hin as (x & Hx & Ev). apply Hn.
      assert (x = destroy) as ->.
      { revert Ev. unfold event_of. destruct (decide (x = destroy)); [done|].
        destruct (decide (x = sample false)); [done|]. by destruct (decide (x = sample true)). }
      rewrite (Executor.inv_order _ I1), I3, !elem_of_app. auto.
  - intros Hr. destruct (inv_flags _ Hw) as (F1 & F2 & F3). rewrite Hr in *. split_and!.
    + by apply (inv_returned _ Hw).
    + destruct (decide (timer w = TimerReturned)) as [|Hn]; [done|].
      pose proof (inv_timer _ Hw Hn) as H. by rewrite Hr in H.
    + done.
    + destruct (wakes_closed w); [done|]. naive_solver.
    + destruct (callbacks_shutdown w); [done|]. naive_solver.
  - intros Hs. cbn. destruct (timer w) as [|b| |deadline|] eqn:Et; unfold timer_step; rewrite ?Et, ?Hs; cbn;
      rewrite ?Hs; cbn; rewrite ?Hs; cbn; done.
Qed.

End Timer.

(** A sampling pass, then the end of the service: the worker runs the last task. *)
Definition sample_executor : Executor :=
  mkExecutor 4 1 [] [Awake] [] 0 0 true false true 0 0 [] [] [] [].
Definition sample_steps : list Step :=
  [TimerStep; TimerStep; TimerStep; WorkerTask; WorkerTask; ShutdownStep; ShutdownStep; ShutdownStep; ShutdownStep;
   TimerStep; TimerStep; ShutdownStep; ShutdownStep; WorkerTask; WorkerTask; ShutdownStep].

Lemma hal_service_ends_witness :
  let w := run 1000 7 sample_executor sample_steps in
  log w = [Sampled true; Destroyed] /\ ender w = Returned /\ timer w = TimerReturned.
Proof.
  split; [vm_compute; reflexivity|]. split; [vm_compute; reflexivity|].
  destruct (hal_service_ends 1000 7 4 1 sample_executor sample_steps) as (_ & H & _); [lia|reflexivity|].
  apply H. vm_compute. reflexivity.
Defined.

End Timer.
