(* ===== verification/ScopeFrames.v ===== *)
(** Delivery of scope frames: the queue with one frame in flight and one pending
    ([ScopeFrameQueue] of [scope/controller.cc]), the attachment token of the
    browser ([scope/telemetry.cc]) and the scope part of a WebSocket session
    ([telemetry_websocket_server.cc]).

    The payload of a frame (a capture or a roll delta) is a parameter of the
    queue, which only moves it. *)
From S2P Require Import Prelude.

Local Open Scope Z_scope.

(** * The queue *)
Module FrameQueue.
Section FrameQueue.
Context {Payload : Type}.

Record ScopeFrame := mkFrame {
  generation : Z;
  skipped_frames : Z;
  payload : Payload;
}.

(** [listener]: whether a listener is set. *)
Record ScopeFrameQueue := mkQueue {
  owner : string;
  in_flight : option ScopeFrame;
  pending : option ScopeFrame;
  delivered : bool;
  next_generation : Z;
  pending_skipped_frames : Z;
  skipped_total : Z;
  listener : bool;
}.

Definition make : ScopeFrameQueue := mkQueue EmptyString None None false 1 0 0 false.

Definition acquire (o : string) (q : ScopeFrameQueue) : ScopeFrameQueue * bool :=
  if bool_decide (o = EmptyString) then (q, false)
  else if negb (bool_decide (owner q = EmptyString)) && negb (bool_decide (owner q = o))
  then (q, false)
  else (mkQueue o (in_flight q) (pending q) (delivered q) (next_generation q)
          (pending_skipped_frames q) (skipped_total q) (listener q), true).

Definition clear (o : string) (q : ScopeFrameQueue) : ScopeFrameQueue :=
  if negb (bool_decide (owner q = o)) then q
  else mkQueue (owner q) None None false (next_generation q) 0 (skipped_total q) (listener q).

Definition release (o : string) (q : ScopeFrameQueue) : ScopeFrameQueue :=
  if negb (bool_decide (owner q = o)) then q
  else mkQueue EmptyString None None false (next_generation q) 0 0 (listener q).

Definition acquired (q : ScopeFrameQueue) : bool := negb (bool_decide (owner q = EmptyString)).

(** [publish]; the results tell whether the frame was taken and whether the
    listener is called. *)
Definition publish (p : Payload) (q : ScopeFrameQueue) : ScopeFrameQueue * bool * bool :=
  if bool_decide (owner q = EmptyString) then (q, false, false)
  else
    let f := mkFrame (next_generation q) 0 p in
    let next := u64_succ (next_generation q) in
    (match in_flight q with
     | Some _ =>
         mkQueue (owner q) (in_flight q) (Some f) (delivered q) next
           (match pending q with
            | Some _ => u64_succ (pending_skipped_frames q)
            | None => pending_skipped_frames q
            end) (skipped_total q) (listener q)
     | None =>
         mkQueue (owner q) (Some f) (pending q) false next (pending_skipped_frames q)
           (skipped_total q) (listener q)
     end, true, listener q).

Definition set_listener (b : bool) (q : ScopeFrameQueue) : ScopeFrameQueue :=
  mkQueue (owner q) (in_flight q) (pending q) (delivered q) (next_generation q)
    (pending_skipped_frames q) (skipped_total q) b.

(** [next], and [wait_next] once its wait is over. *)
Definition next (o : string) (q : ScopeFrameQueue) : ScopeFrameQueue * option ScopeFrame :=
  match in_flight q with
  | Some f =>
      if negb (bool_decide (owner q = o)) || delivered q then (q, None)
      else (mkQueue (owner q) (in_flight q) (pending q) true (next_generation q)
              (pending_skipped_frames q) (skipped_total q) (listener q), Some f)
  | None => (q, None)
  end.

Definition acknowledge (o : string) (g : Z) (q : ScopeFrameQueue) :
    ScopeFrameQueue * option ScopeFrame :=
  match in_flight q with
  | Some f =>
      if negb (bool_decide (owner q = o)) || negb (generation f =? g) then (q, None)
      else
        match pending q with
        | None =>
            (mkQueue (owner q) None None false (next_generation q) (pending_skipped_frames q)
               (skipped_total q) (listener q), None)
        | Some p =>
            let p' := mkFrame (generation p) (pending_skipped_frames q) (payload p) in
            (mkQueue (owner q) (Some p') None true (next_generation q) 0
               (u64_wrap (skipped_total q + pending_skipped_frames q)) (listener q), Some p')
        end
  | None => (q, None)
  end.

(** ** Runs *)

Inductive Op :=
| Acquire (o : string)
| Clear (o : string)
| Release (o : string)
| Publish (p : Payload)
| Listen (b : bool)
| Next (o : string)
| Acknowledge (o : string) (g : Z).

(** A frame the consumer received: the generation it acknowledged for it ([None]: it
    asked with [next]), and how many published frames have been discarded since the
    frame before: removed by [clear] or [release], or acknowledged without having been
    handed out. *)
Record Delivery := mkDelivery {
  cause : option Z;
  frame : ScopeFrame;
  discarded : Z;
}.

(** The frames in the queue that were not handed out: the one in flight, and the
    pending one with those it replaced. *)
Definition unseen (q : ScopeFrameQueue) : Z :=
  match in_flight q with Some _ => if delivered q then 0 else 1 | None => 0 end.
Definition waiting (q : ScopeFrameQueue) : Z :=
  unseen q + match pending q with Some _ => 1 + pending_skipped_frames q | None => 0 end.

(** The frames an acknowledgement removes unseen. *)
Definition acknowledged_unseen (o : string) (g : Z) (q : ScopeFrameQueue) : Z :=
  match in_flight q with
  | Some f => if negb (bool_decide (owner q = o)) || negb (generation f =? g) then 0 else unseen q
  | None => 0
  end.

(** The queue, what was received, and the frames discarded since. *)
Definition Run : Type := ScopeFrameQueue * list Delivery * Z.

Definition receive (c : option Z) (f : option ScopeFrame) (q : ScopeFrameQueue) (ds : list Delivery) (n : Z) : Run :=
  match f with
  | Some f => (q, ds ++ [mkDelivery c f n], 0)
  | None => (q, ds, n)
  end.

Definition apply (s : Run) (op : Op) : Run :=
  let '(q, ds, n) := s in
  match op with
  | Acquire o => ((acquire o q).1, ds, n)
  | Clear o => (clear o q, ds, if bool_decide (owner q = o) then n + waiting q else n)
  | Release o => (release o q, ds, if bool_decide (owner q = o) then n + waiting q else n)
  | Publish p => ((publish p q).1.1, ds, n)
  | Listen b => (set_listener b q, ds, n)
  | Next o => let (q', f) := next o q in receive None f q' ds n
  | Acknowledge o g =>
      let (q', f) := acknowledge o g q in receive (Some g) f q' ds (n + acknowledged_unseen o g q)
  end.

Definition run (ops : list Op) : Run := foldl apply (make, [], 0) ops.

(** ** Invariant *)

(** Every generation is accounted for: the frame received after [g] says how many it
    replaced, and the others in between were discarded. *)
Fixpoint accounted (g : Z) (ds : list Delivery) : Prop :=
  match ds with
  | [] => True
  | d :: ds =>
      generation (frame d) = g + 1 + skipped_frames (frame d) + discarded d
      /\ 0 <= skipped_frames (frame d) /\ 0 <= discarded d
      /\ match cause d with
         | Some g => generation (frame d) = g + 1 + skipped_frames (frame d)
         | None => skipped_frames (frame d) = 0
         end
      /\ accounted (generation (frame d)) ds
  end.

Fixpoint last_generation (g : Z) (ds : list Delivery) : Z :=
  match ds with [] => g | d :: ds => last_generation (generation (frame d)) ds end.

Lemma last_generation_snoc g ds d : last_generation g (ds ++ [d]) = generation (frame d).
Proof. revert g. by induction ds as [|e ds IH]; intros g; cbn. Qed.

Lemma accounted_snoc g ds d :
  accounted g ds ->
  generation (frame d) = last_generation g ds + 1 + skipped_frames (frame d) + discarded d ->
  0 <= skipped_frames (frame d) -> 0 <= discarded d ->
  match cause d with
  | Some g => generation (frame d) = g + 1 + skipped_frames (frame d)
  | None => skipped_frames (frame d) = 0
  end -> accounted g (ds ++ [d]).
Proof.
  revert g. induction ds as [|e ds IH]; intros g; cbn; [by intros|].
  intros (H1 & H2 & H3 & H4 & H5) He Hs Hd Hc. split_and!; try done. by apply IH.
Qed.

(** Later frames have larger generations. *)
Lemma accounted_sorted g ds :
  accounted g ds ->
  StronglySorted (fun a b => generation (frame a) < generation (frame b)) ds
  /\ Forall (fun d => g < generation (frame d)) ds.
Proof.
  revert g. induction ds as [|d ds IH]; intros g; cbn; [split; constructor|].
  intros (H1 & H2 & H3 & _ & H5). destruct (IH _ H5) as [Hs Hf].
  split; constructor; try done; [lia|]. eapply Forall_impl; [exact Hf|]. cbn. lia.
Qed.

Record queue_ok (n : Z) (q : ScopeFrameQueue) (ds : list Delivery) (k : Z) : Prop := mkQueueOk {
  qo_next : next_generation q <= n + 1;
  qo_idle : owner q = EmptyString -> in_flight q = None;
  qo_none : in_flight q = None -> pending q = None;
  qo_skip : pending q = None -> pending_skipped_frames q = 0;
  qo_count : 0 <= pending_skipped_frames q;
  qo_flight : forall f, in_flight q = Some f ->
    next_generation q = generation f + 1
      + match pending q with Some _ => 1 + pending_skipped_frames q | None => 0 end;
  qo_pending : forall g, pending q = Some g -> next_generation q = generation g + 1;
  qo_fresh : forall f, in_flight q = Some f -> delivered q = false -> skipped_frames f = 0;
  qo_accounted : accounted 0 ds;
  qo_discarded : 0 <= k;
  qo_total : next_generation q = last_generation 0 ds + 1 + k + waiting q;
  qo_last : 0 <= last_generation 0 ds;
}.

Lemma waiting_nonneg n q ds k : queue_ok n q ds k -> 0 <= waiting q.
Proof.
  intros Hq. pose proof (qo_count _ _ _ _ Hq). unfold waiting, unseen.
  destruct (in_flight q), (delivered q), (pending q); lia.
Qed.

(** The queue is emptied. *)
Lemma queue_ok_empty n o b t l q ds k :
  queue_ok n q ds k -> queue_ok n (mkQueue o None None b (next_generation q) 0 t l) ds (k + waiting q).
Proof.
  intros Hq. pose proof (waiting_nonneg _ _ _ _ Hq). destruct Hq.
  split; unfold waiting, unseen in *; cbn; try done; lia.
Qed.

Lemma publish_ok n p q ds k :
  0 <= n -> n + 2 < 2 ^ 64 -> queue_ok n q ds k -> queue_ok (n + 1) (publish p q).1.1 ds k.
Proof.
  intros Hn Hb Hq. pose proof (waiting_nonneg _ _ _ _ Hq) as Hw.
  destruct Hq as [H1 H2 H3 H4 H5 H6 H7 H8 H9 H10 H11 H12]. unfold publish.
  case_bool_decide as Eo; [split; cbn; try done; lia|].
  rewrite u64_succ_small by lia. unfold waiting, unseen in *.
  destruct (in_flight q) as [f|] eqn:Ef; cbn [fst].
  - specialize (H6 f eq_refl).
    assert (Hg : forall j, 0 <= j ->
      next_generation q = generation f + 1 + j ->
      queue_ok (n + 1) (mkQueue (owner q) (Some f) (Some (mkFrame (next_generation q) 0 p))
        (delivered q) (next_generation q + 1) j (skipped_total q) (listener q)) ds k).
    { intros j Hj Hj'. split; unfold waiting, unseen in *; cbn; try done.
      - lia.
      - intros f' [= <-]. lia.
      - by intros g' [= <-].
      - destruct (delivered q), (pending q); lia. }
    destruct (pending q) as [g|] eqn:Eg.
    + specialize (H7 g eq_refl). rewrite u64_succ_small by (destruct (delivered q); lia). apply Hg; lia.
    + rewrite H4 by done. apply Hg; lia.
  - specialize (H3 eq_refl). specialize (H4 H3). rewrite H3 in *.
    split; unfold waiting, unseen; cbn; try done; try lia.
    + intros f' [= <-]. cbn. lia.
    + by intros f' [= <-].
Qed.

Lemma next_ok n o q ds k q' f :
  queue_ok n q ds k -> next o q = (q', f) ->
  let '(q1, ds1, k1) := receive None f q' ds k in queue_ok n q1 ds1 k1.
Proof.
  intros Hq. unfold next. destruct (in_flight q) as [g|] eqn:Eg; [|by intros [= <- <-]].
  destruct (_ || _) eqn:Eb; intros [= <- <-]; cbn; [done|].
  apply orb_false_iff in Eb as [_ Ed]. destruct Hq as [H1 H2 H3 H4 H5 H6 H7 H8 H9 H10 H11 H12].
  specialize (H6 g Eg). specialize (H8 g Eg Ed). unfold waiting, unseen in H11. rewrite Eg, Ed in H11.
  assert (Hg : generation g = last_generation 0 ds + 1 + k) by (destruct (pending q); lia).
  split; unfold waiting, unseen; cbn; rewrite ?Eg, ?last_generation_snoc; try done.
  - by intros H%H2; rewrite Eg in H.
  - by intros f' [= <-].
  - apply accounted_snoc; cbn; [done|lia..].
  - cbn. lia.
  - cbn. lia.
Qed.

Lemma acknowledge_ok n o a q ds k q' f :
  n + 2 < 2 ^ 64 -> queue_ok n q ds k -> acknowledge o a q = (q', f) ->
  let '(q1, ds1, k1) := receive (Some a) f q' ds (k + acknowledged_unseen o a q) in queue_ok n q1 ds1 k1.
Proof.
  intros Hb Hq. unfold acknowledge, acknowledged_unseen.
  destruct (in_flight q) as [g|] eqn:Eg; [|intros [= <- <-]; cbn; by rewrite Z.add_0_r].
  destruct (_ || _) eqn:Eb; [intros [= <- <-]; cbn; by rewrite Z.add_0_r|].
  apply orb_false_iff in Eb as [_ Ek%negb_false_iff]. apply Z.eqb_eq in Ek. subst a.
  destruct (pending q) as [h|] eqn:Eh; intros [= <- <-]; cbn [receive].
  - destruct Hq as [H1 H2 H3 H4 H5 H6 H7 H8 H9 H10 H11 H12].
    specialize (H6 g Eg). specialize (H7 h Eh). unfold waiting in H11. rewrite Eh in *.
    assert (Hu : 0 <= unseen q) by (unfold unseen; rewrite Eg; destruct (delivered q); lia).
    revert H11 Hu. generalize (unseen q) as u. intros u H11 Hu.
    split; unfold waiting, unseen; cbn; rewrite ?last_generation_snoc; try done.
    + intros H%H2. congruence.
    + intros f' [= <-]. cbn. lia.
    + apply accounted_snoc; cbn; [done|lia..].
    + cbn. lia.
    + cbn. lia.
  - pose proof (qo_skip _ _ _ _ Hq Eh) as Hs. rewrite Hs.
    assert (E : unseen q = waiting q) by (unfold waiting; rewrite Eh; lia). rewrite E.
    by apply queue_ok_empty.
Qed.

Lemma apply_ok n s op :
  0 <= n -> n + 2 < 2 ^ 64 -> queue_ok n s.1.1 s.1.2 s.2 ->
  queue_ok (n + 1) (apply s op).1.1 (apply s op).1.2 (apply s op).2.
Proof.
  intros Hn Hb Hq. destruct s as [[q ds] k]. cbn [fst snd] in *.
  assert (Hw : forall q' ds' k', queue_ok n q' ds' k' -> queue_ok (n + 1) q' ds' k').
  { intros q' ds' k' []. split; try done. lia. }
  destruct op; cbn [apply fst snd].
  - apply Hw. unfold acquire. case_bool_decide; [done|]. destruct (_ && _) eqn:Eb; [done|].
    destruct Hq. split; cbn; try done.
  - apply Hw. unfold clear. case_bool_decide; cbn; [|done]. by apply queue_ok_empty.
  - apply Hw. unfold release. case_bool_decide; cbn; [|done]. by apply queue_ok_empty.
  - by apply publish_ok.
  - apply Hw. destruct Hq. split; done.
  - destruct (next o q) as [q' f] eqn:E. apply Hw. pose proof (next_ok _ _ _ _ _ _ _ Hq E) as H.
    by destruct (receive None f q' ds k) as [[q1 ds1] k1].
  - destruct (acknowledge o g q) as [q' f] eqn:E. apply Hw.
    pose proof (acknowledge_ok _ _ _ _ _ _ _ _ Hb Hq E) as H.
    by destruct (receive (Some g) f q' ds _) as [[q1 ds1] k1].
Qed.

Lemma queue_run_ok ops :
  Z.of_nat (length ops) + 2 < 2 ^ 64 ->
  queue_ok (Z.of_nat (length ops)) (run ops).1.1 (run ops).1.2 (run ops).2.
Proof.
  induction ops as [|op ops IH] using rev_ind; intros Hb; [by split|].
  unfold run in *. rewrite length_app, foldl_app in *. cbn [length foldl] in *.
  replace (Z.of_nat (length ops + 1)) with (Z.of_nat (length ops) + 1) by lia.
  apply apply_ok; [lia|lia|]. apply IH. lia.
Qed.

(** C33: What the consumer of scope frames sees, for every interleaving of
    publications, acknowledgements, clears and changes of ownership.  The frames it
    receives have strictly increasing generations, and every published frame is
    accounted for: between two frames received one after the other lie exactly the
    frames the second one reports as skipped (replaced while they were pending) and
    those discarded meanwhile (removed by [clear] or [release], or acknowledged unseen);
    a frame received for the acknowledgement of generation [g] reports exactly the
    frames published in between, and one received by [next] reports none.  After the
    last frame received come the discarded ones and those still waiting in the queue. *)
Theorem scope_frames_exact ops :
  Z.of_nat (length ops) + 2 < 2 ^ 64 ->
  let '(q, ds, k) := run ops in
  StronglySorted (fun a b => generation (frame a) < generation (frame b)) ds
  /\ accounted 0 ds
  /\ next_generation q = last_generation 0 ds + 1 + k + waiting q
  /\ (in_flight q = None -> pending q = None)
  /\ (forall f g, in_flight q = Some f -> pending q = Some g ->
        generation g = generation f + 1 + pending_skipped_frames q
        /\ next_generation q = generation g + 1).
Proof.
  intros Hb. pose proof (queue_run_ok ops Hb) as Hq. destruct (run ops) as [[q ds] k]. cbn in Hq.
  destruct Hq as [H1 H2 H3 H4 H5 H6 H7 H8 H9 H10 H11 H12].
  split_and!; [by eapply accounted_sorted|done..|].
  intros f g Hf Hg. specialize (H6 f Hf). specialize (H7 g Hg). rewrite Hg in H6. lia.
Qed.

End FrameQueue.

Lemma scope_frames_exact_witness :
  let ops := [Acquire "o"; Publish 1; Publish 2; Publish 3; Next "o"; Acknowledge "o" 1; Publish 4; Publish 5;
              Clear "o"; Publish 6; Next "o"] in
  (fun d : Delivery => (cause d, generation (frame d), skipped_frames (frame d), discarded d)) <$> (run ops).1.2
    = [(None, 1, 0, 0); (Some 1, 3, 1, 0); (None, 6, 0, 2)]
  /\ accounted 0 (run ops).1.2.
Proof.
  intros ops. assert (Hb : Z.of_nat (length ops) + 2 < 2 ^ 64) by (vm_compute; reflexivity).
  pose proof (scope_frames_exact ops Hb) as H. split; [vm_compute; reflexivity|].
  destruct (run ops) as [[q ds] k]. exact (proj1 (proj2 H)).
Defined.

End FrameQueue.

(** * The attachment of the browser *)
Module Telemetry.
Section Telemetry.
Context {Payload : Type}.
Implicit Types q : @FrameQueue.ScopeFrameQueue Payload.

(** [ScopeTelemetry::State]. [subscribed]: whether the attached session's
    callback is registered in [wakes]. The [controller] is the only one of the
    daemon: its frames are the queue the operations take. *)
Record State := mkState {
  owner : string;
  token : string;
  attached : bool;
  subscribed : bool;
}.

Record ScopeTelemetry := mkTelemetry {
  state : option State;
  closed : bool;
}.

Definition make : ScopeTelemetry := mkTelemetry None false.

Definition path (token : string) : string := "/v1/scope/" +:+ token.

(** [register_controller]; [tok] is what [make_token] draws. *)
Definition register_controller (o tok : string) (t : ScopeTelemetry) : ScopeTelemetry * string :=
  if closed t || bool_decide (o = EmptyString) then (t, EmptyString)
  else
    match state t with
    | Some st => (t, if bool_decide (owner st = o) then path (token st) else EmptyString)
    | None => (mkTelemetry (Some (mkState o tok false false)) (closed t), path tok)
    end.

(** The state is dropped, its subscriptions with it ([wakes.close]). *)
Definition revoke (o : string) (t : ScopeTelemetry) q : ScopeTelemetry * FrameQueue.ScopeFrameQueue :=
  match state t with
  | Some st =>
      if bool_decide (owner st = o)
      then (mkTelemetry None (closed t), FrameQueue.set_listener false q)
      else (t, q)
  | None => (t, q)
  end.

Definition close (t : ScopeTelemetry) q : ScopeTelemetry * FrameQueue.ScopeFrameQueue :=
  if closed t then (t, q)
  else
    (mkTelemetry None true,
     match state t with Some _ => FrameQueue.set_listener false q | None => q end).

Definition claim (tok : string) (t : ScopeTelemetry) q :
    ScopeTelemetry * FrameQueue.ScopeFrameQueue * option string :=
  match state t with
  | Some st =>
      if closed t || negb (bool_decide (token st = tok)) || attached st then (t, q, None)
      else (mkTelemetry (Some (mkState (owner st) (token st) true (subscribed st))) (closed t),
            FrameQueue.set_listener true q, Some tok)
  | None => (t, q, None)
  end.

(** The state whose token a session presents while it is attached. *)
Definition attachment (tok : string) (t : ScopeTelemetry) : option State :=
  match state t with
  | Some st => if bool_decide (token st = tok) && attached st then Some st else None
  | None => None
  end.

Definition release (tok : string) (t : ScopeTelemetry) q :
    ScopeTelemetry * FrameQueue.ScopeFrameQueue :=
  match attachment tok t with
  | Some st =>
      (mkTelemetry (Some (mkState (owner st) (token st) false (subscribed st))) (closed t),
       FrameQueue.clear (owner st) (FrameQueue.set_listener false q))
  | None => (t, q)
  end.

Definition next (tok : string) (t : ScopeTelemetry) q :=
  match attachment tok t with
  | Some st => FrameQueue.next (owner st) q
  | None => (q, None)
  end.

Definition acknowledge (tok : string) (g : Z) (t : ScopeTelemetry) q :=
  match attachment tok t with
  | Some st => FrameQueue.acknowledge (owner st) g q
  | None => (q, None)
  end.

(** [subscribe] and the reset of the subscription it returns. *)
Definition subscribe (tok : string) (b : bool) (t : ScopeTelemetry) : ScopeTelemetry :=
  match state t with
  | Some st =>
      if bool_decide (token st = tok)
      then mkTelemetry (Some (mkState (owner st) (token st) (attached st) b)) (closed t)
      else t
  | None => t
  end.

(** Whether a publication of the queue reaches the session: its listener is the
    one [claim] installs, which publishes to [wakes]. *)
Definition wakes (t : ScopeTelemetry) : bool :=
  match state t with Some st => subscribed st | None => false end.

End Telemetry.
End Telemetry.

(** * The WebSocket session of the scope *)
Module Session.
Section Session.
Context {Payload : Type}.
Abbreviation ScopeFrame := (@FrameQueue.ScopeFrame Payload).
Abbreviation ScopeFrameQueue := (@FrameQueue.ScopeFrameQueue Payload).

(** The scope part of [Session]. [wakes_posted]: calls of [wake_scope] posted to
    the executor and not yet run; [sent]: the frames handed to [write_frame];
    [accepted]: the upgrade is done and the subscription made. *)
Record Session := mkSession {
  token : string;
  generation : Z;
  accepted : bool;
  writing : bool;
  closing : bool;
  closed : bool;
  wakes_posted : nat;
  sent : list ScopeFrame;
}.

(** The daemon's scope: the frames of its controller, the attachment and the
    session of the browser that claimed it last. All session handlers run on
    the one thread of the server's executor. *)
Record World := mkWorld {
  frames : ScopeFrameQueue;
  telemetry : Telemetry.ScopeTelemetry;
  session : option Session;
}.

Definition with_session (s : Session) (w : World) : World :=
  mkWorld (frames w) (telemetry w) (Some s).

(** [write_frame], with the generation noted by its callers. *)
Definition write_frame (f : ScopeFrame) (s : Session) : Session :=
  mkSession (token s) (FrameQueue.generation f) (accepted s) true (closing s) (closed s)
    (wakes_posted s) (sent s ++ [f]).

Definition wake_scope (s : Session) (w : World) : World :=
  if closed s || writing s then with_session s w
  else
    let (q, f) := Telemetry.next (token s) (telemetry w) (frames w) in
    mkWorld q (telemetry w)
      (Some match f with Some f => write_frame f s | None => s end).

Definition fail (s : Session) (w : World) : World :=
  if closed s then with_session s w
  else
    let (t, q) :=
      Telemetry.release (token s) (Telemetry.subscribe (token s) false (telemetry w)) (frames w) in
    mkWorld q t
      (Some (mkSession EmptyString (generation s) (accepted s) (writing s) (closing s) true
               (wakes_posted s) (sent s))).

(** [on_upgrade_request] for the target [path tok]. *)
Definition on_upgrade_request (tok : string) (w : World) : World :=
  match Telemetry.claim tok (telemetry w) (frames w) with
  | (t, q, Some tok) => mkWorld q t (Some (mkSession tok 0 false false false false 0 []))
  | (t, q, None) => mkWorld q t (session w)
  end.

Definition on_accept (error : bool) (s : Session) (w : World) : World :=
  if error then fail s w
  else
    let s' := mkSession (token s) (generation s) true (writing s) (closing s) (closed s)
                (wakes_posted s) (sent s) in
    wake_scope s' (mkWorld (frames w) (Telemetry.subscribe (token s) true (telemetry w)) (Some s')).

Definition on_write (error : bool) (s : Session) (w : World) : World :=
  let s := mkSession (token s) (generation s) (accepted s) false (closing s) (closed s)
             (wakes_posted s) (sent s) in
  if error then fail s w
  else if closing s then with_session s w
  else
    let (q, f) := Telemetry.acknowledge (token s) (generation s) (telemetry w) (frames w) in
    mkWorld q (telemetry w)
      (Some match f with Some f => write_frame f s | None => s end).

Definition on_read (error : bool) (s : Session) (w : World) : World :=
  if error then fail s w
  else
    with_session (mkSession (token s) (generation s) (accepted s) (writing s) true (closed s)
                    (wakes_posted s) (sent s)) w.

(** A publication of the poll thread: the listener posts a wake. *)
Definition publish (p : Payload) (w : World) : World :=
  let '(q, _, heard) := FrameQueue.publish p (frames w) in
  mkWorld q (telemetry w)
    (if heard && Telemetry.wakes (telemetry w)
     then (fun s => mkSession (token s) (generation s) (accepted s) (writing s) (closing s)
                      (closed s) (S (wakes_posted s)) (sent s)) <$> session w
     else session w).

(** ** Runs *)

Inductive Op :=
| Publish (p : Payload)
| Clear
| Upgrade (tok : string)
| Accepted (error : bool)
| Wake
| Written (error : bool)
| Read (error : bool)
| Closed
| Shutdown
| TelemetryClose.

Section Run.
Variable kScopeOwner : string.

(** What each handler needs to run: the posted call, the write in flight, the
    pending accept. [Clear] is the effect of [stop] and [configure] on the
    frames, [Closed] the end of a close or of the write deadline, [Shutdown] the
    destructor of the scope service. *)
Definition step (w : World) (op : Op) : World :=
  match op, session w with
  | Publish p, _ => publish p w
  | Clear, _ => mkWorld (FrameQueue.clear kScopeOwner (frames w)) (telemetry w) (session w)
  | Upgrade tok, _ => on_upgrade_request tok w
  | Accepted e, Some s => if accepted s || closed s then w else on_accept e s w
  | Wake, Some s =>
      match wakes_posted s with
      | O => w
      | S n =>
          wake_scope (mkSession (token s) (generation s) (accepted s) (writing s) (closing s)
                        (closed s) n (sent s)) w
      end
  | Written e, Some s => if writing s then on_write e s w else w
  | Read e, Some s => if accepted s && negb (closing s) then on_read e s w else w
  | Closed, Some s => fail s w
  | Shutdown, _ =>
      let (t, q) := Telemetry.revoke kScopeOwner (telemetry w) (frames w) in
      mkWorld (FrameQueue.release kScopeOwner q) t (session w)
  | TelemetryClose, _ =>
      let (t, q) := Telemetry.close (telemetry w) (frames w) in mkWorld q t (session w)
  | _, None => w
  end.

(** The world after [ensure_controller]. *)
Definition start (tok : string) : World :=
  mkWorld (FrameQueue.acquire kScopeOwner FrameQueue.make).1
    (Telemetry.register_controller kScopeOwner tok Telemetry.make).1 None.

Definition run (tok : string) (ops : list Op) : World := foldl step (start tok) ops.

(** No frame is discarded while the session writes one. *)
Definition writing_now (w : World) : bool :=
  match session w with Some s => writing s && negb (closed s) | None => false end.

Fixpoint calm (w : World) (ops : list Op) : bool :=
  match ops with
  | [] => true
  | op :: ops =>
      match op with Clear => negb (writing_now w) | _ => true end && calm (step w op) ops
  end.

(** ** Invariant *)

(** The session as the telemetry sees it: none attached, or an open one that
    writes exactly the frame in flight, or writes nothing and will be woken when
    a frame waits. *)
Definition session_ok (tok : string) (q : ScopeFrameQueue) (st : Telemetry.State)
    (s : option Session) : Prop :=
  match s with
  | Some s =>
      if closed s
      then token s = EmptyString /\ Telemetry.attached st = false
           /\ Telemetry.subscribed st = false /\ FrameQueue.delivered q = false
      else token s = tok /\ Telemetry.attached st = true /\ Telemetry.subscribed st = accepted s
           /\ (accepted s = false ->
               writing s = false /\ closing s = false /\ wakes_posted s = O)
           /\ (closing s = false ->
               if writing s
               then exists f, FrameQueue.in_flight q = Some f
                    /\ FrameQueue.generation f = generation s /\ FrameQueue.delivered q = true
               else FrameQueue.delivered q = false
                    /\ (accepted s = true -> FrameQueue.in_flight q <> None ->
                        (0 < wakes_posted s)%nat))
  | None => Telemetry.attached st = false /\ Telemetry.subscribed st = false
            /\ FrameQueue.delivered q = false
  end.

(** While the controller is registered. *)
Record attached_ok (tok : string) (q : ScopeFrameQueue) (st : Telemetry.State)
    (s : option Session) : Prop := mkAttachedOk {
  ao_owner : Telemetry.owner st = kScopeOwner;
  ao_token : Telemetry.token st = tok;
  ao_frames : FrameQueue.owner q = kScopeOwner;
  ao_listener : FrameQueue.listener q = Telemetry.attached st;
  ao_pending : FrameQueue.in_flight q = None -> FrameQueue.pending q = None;
  ao_session : session_ok tok q st s;
}.

Definition world_ok (tok : string) (w : World) : Prop :=
  match Telemetry.state (telemetry w) with
  | Some st => Telemetry.closed (telemetry w) = false
               /\ attached_ok tok (frames w) st (session w)
  | None => True
  end.

Abbreviation live q st s := (mkWorld q (Telemetry.mkTelemetry (Some st) false) s).

(** One more posted wake. *)
Definition post (s : Session) : Session :=
  mkSession (token s) (generation s) (accepted s) (writing s) (closing s) (closed s)
    (S (wakes_posted s)) (sent s).

Lemma fail_ok tok q st s s0 :
  attached_ok tok q st (Some s0) -> token s = token s0 -> closed s = closed s0 ->
  world_ok tok (fail s (live q st (Some s0))).
Proof.
  intros [H1 H2 H3 H4 H5 H6] Ht Hc. unfold fail. cbn in H6. rewrite Hc, Ht.
  destruct (closed s0) eqn:Ec; cbn.
  - split; [done|]. split; try done. cbn. by rewrite Hc, Ht.
  - destruct H6 as (-> & Ha & _). rewrite (bool_decide_true _ H2). cbn.
    unfold Telemetry.release, Telemetry.attachment. cbn. rewrite (bool_decide_true _ H2), Ha. cbn.
    split; [done|]. unfold FrameQueue.clear. cbn. rewrite H1, (bool_decide_true _ H3). cbn.
    by split; cbn.
Qed.

Lemma wake_scope_ok tok q st s s0 :
  attached_ok tok q st (Some (post s)) -> (closed s = false -> accepted s = true) ->
  world_ok tok (wake_scope s (live q st s0)).
Proof.
  intros [H1 H2 H3 H4 H5 H6] Hacc. unfold wake_scope. cbn in H6.
  destruct (closed s) eqn:Ec; cbn.
  { split; [done|]. split; try done. cbn. by rewrite Ec. }
  destruct H6 as (Ht & Ha & Hs & Hn & Hw). specialize (Hacc eq_refl). clear Hn. rewrite Hacc in *.
  destruct (writing s) eqn:Ew; cbn.
  { split; [done|]. split; try done. cbn. rewrite Ec, Ew, Hacc. by split_and!. }
  unfold Telemetry.next, Telemetry.attachment. cbn. rewrite Ht, (bool_decide_true _ H2), Ha. cbn.
  rewrite H1. unfold FrameQueue.next. destruct (FrameQueue.in_flight q) as [f|] eqn:Ef.
  - rewrite (bool_decide_true _ H3). cbn. destruct (FrameQueue.delivered q) eqn:Ed; cbn.
    + split; [done|]. split; try done. { by rewrite Ef. } cbn. rewrite Ec, Ew, Hacc. split_and!; try done.
      intros Hcl. by destruct (Hw Hcl).
    + split; [done|]. split; try done. cbn. rewrite Ec, Hacc. split_and!; try done.
      intros _. by exists f.
  - cbn. split; [done|]. split; try done. { by rewrite Ef. } cbn. rewrite Ec, Ew, Hacc. split_and!; try done.
    intros Hcl. destruct (Hw Hcl) as [Hd _]. by rewrite Ef.
Qed.

Lemma on_write_ok tok e q st s :
  tok <> EmptyString -> attached_ok tok q st (Some s) -> writing s = true ->
  world_ok tok (on_write e s (live q st (Some s))).
Proof.
  intros Hne Hok Hwr. unfold on_write. destruct e; [by apply fail_ok|].
  destruct Hok as [H1 H2 H3 H4 H5 H6]. cbn in *. rewrite Hwr in H6.
  destruct (closed s) eqn:Ec.
  - destruct H6 as (Ht & Ha & Hs & Hd). destruct (closing s) eqn:Ecl; cbn.
    { split; [done|]. split; try done. }
    unfold Telemetry.acknowledge, Telemetry.attachment. cbn. rewrite Ha, andb_false_r. cbn.
    split; [done|]. split; try done.
  - destruct H6 as (Ht & Ha & Hs & Hn & Hw). destruct (closing s) eqn:Ecl; cbn.
    { split; [done|]. split; try done. cbn. split_and!; try done.
      intros Hac. by destruct (Hn Hac). }
    destruct (Hw eq_refl) as (f & Hf & Hg & Hd).
    assert (Hac : accepted s = true).
    { destruct (accepted s); [done|]. by destruct (Hn eq_refl). }
    unfold Telemetry.acknowledge, Telemetry.attachment. cbn.
    rewrite Ht, (bool_decide_true _ H2), Ha. cbn. rewrite H1. unfold FrameQueue.acknowledge.
    rewrite Hf, (bool_decide_true _ H3). cbn. rewrite Hg, Z.eqb_refl. cbn.
    destruct (FrameQueue.pending q) as [p|] eqn:Ep; cbn.
    + split; [done|]. split; try done. cbn. split_and!; try done.
      intros _. by eexists.
    + split; [done|]. split; try done. cbn. split_and!; try done. intros; congruence.
Qed.

Lemma publish_ok_world tok p q st s :
  kScopeOwner <> EmptyString -> attached_ok tok q st s -> world_ok tok (publish p (live q st s)).
Proof.
  intros Hne [H1 H2 H3 H4 H5 H6]. unfold publish, FrameQueue.publish. cbn.
  rewrite bool_decide_false by congruence. cbn.
  split; [done|]. rewrite H4. destruct (FrameQueue.in_flight q) as [f|] eqn:Ef;
    (split; cbn; try done); (destruct s as [s|]; cbn in *; [|destruct H6 as (Ha & ? & ?); by rewrite Ha]);
    destruct (closed s) eqn:Ec.
  - destruct H6 as (Ht & Ha & Hs & Hd). rewrite Ha. cbn. by rewrite Ec.
  - destruct H6 as (Ht & Ha & Hs & Hn & Hw). rewrite Ha, Hs. cbn.
    destruct (accepted s) eqn:Ea; cbn; rewrite ?Ec, ?Ha, ?Hs, ?Ea; split_and!; try done;
      intros Hcl; specialize (Hw Hcl); (destruct (writing s); [by rewrite <- Ef|]);
      (split; [apply Hw|by lia || done]).
  - destruct H6 as (Ht & Ha & Hs & Hd). rewrite Ha. cbn. by rewrite Ec.
  - destruct H6 as (Ht & Ha & Hs & Hn & Hw). rewrite Ha, Hs. cbn.
    destruct (accepted s) eqn:Ea; cbn; rewrite ?Ec, ?Ha, ?Hs, ?Ea; split_and!; try done.
    + intros Hcl. specialize (Hw Hcl). destruct (writing s); [by destruct Hw as (? & ? & _); congruence|].
      split; [done|]. lia.
    + intros Hcl. destruct (Hn eq_refl) as (-> & _ & _). by split.
Qed.

Lemma on_upgrade_ok tok u q st s :
  tok <> EmptyString -> attached_ok tok q st s ->
  world_ok tok (on_upgrade_request u (live q st s)).
Proof.
  intros Hne [H1 H2 H3 H4 H5 H6]. unfold on_upgrade_request, Telemetry.claim. cbn.
  destruct (_ || _) eqn:Eb; cbn; [by split|].
  apply orb_false_iff in Eb as [Et%negb_false_iff Ea]. apply bool_decide_eq_true in Et. subst u.
  assert (Hs : Telemetry.subscribed st = false /\ FrameQueue.delivered q = false).
  { destruct s as [s|]; cbn in H6; [|by destruct H6 as (_ & ? & ?)].
    destruct (closed s); destruct_and?; [by split|congruence]. }
  split; [done|]. split; cbn; try done. destruct Hs. by split_and!.
Qed.

Lemma on_accept_ok tok e q st s :
  attached_ok tok q st (Some s) -> accepted s = false -> closed s = false ->
  world_ok tok (on_accept e s (live q st (Some s))).
Proof.
  intros Hok Ha Hc. unfold on_accept. destruct e; [by apply fail_ok|].
  destruct Hok as [H1 H2 H3 H4 H5 H6]. cbn in H6. rewrite Hc in H6.
  destruct H6 as (Ht & Hat & Hs & Hn & Hw). destruct (Hn Ha) as (Hwr & Hcl & _).
  unfold Telemetry.subscribe. cbn. rewrite Ht, (bool_decide_true _ H2). cbn.
  apply wake_scope_ok; [|done]. split; cbn; try done. rewrite Hc, Hwr. split_and!; try done.
  intros Hcl'. specialize (Hw Hcl'). rewrite Hwr in Hw. destruct Hw as [Hd _]. split; [done|]. lia.
Qed.

Lemma step_none w op :
  Telemetry.state (telemetry w) = None -> Telemetry.state (telemetry (step w op)) = None.
Proof.
  destruct w as [q [st c] s]. cbn. intros ->.
  destruct op; cbn; try (destruct s as [s|]; cbn);
    unfold publish, FrameQueue.publish, on_upgrade_request, on_accept, on_write, on_read,
      wake_scope, fail, Telemetry.release, Telemetry.next, Telemetry.acknowledge,
      Telemetry.attachment, Telemetry.close; cbn;
    repeat (case_match; cbn in *; simplify_eq); done.
Qed.

Lemma world_step_ok tok w op :
  kScopeOwner <> EmptyString -> tok <> EmptyString -> world_ok tok w ->
  match op with Clear => writing_now w = false | _ => True end -> world_ok tok (step w op).
Proof.
  intros Hne Htok Hok Hcalm. destruct (Telemetry.state (telemetry w)) as [st|] eqn:Est; last first.
  { unfold world_ok. by rewrite (step_none w op Est). }
  destruct w as [q [st' c] s]. cbn in *. subst st'. destruct Hok as [Hc Hok]. cbn in Hc. subst c.
  destruct op as [p| |u|e| |e|e| | |]; cbn [step session frames telemetry] in *.
  - by apply publish_ok_world.
  - destruct Hok as [H1 H2 H3 H4 H5 H6]. cbn. unfold FrameQueue.clear.
    rewrite (bool_decide_true _ H3). cbn. split; [done|]. split; cbn; try done.
    destruct s as [s|]; cbn in *; [|by destruct H6 as (? & ? & ?)].
    destruct (closed s) eqn:Ec; [by destruct H6 as (? & ? & ? & ?)|].
    destruct H6 as (Ht & Ha & Hs & Hn & Hw). rewrite andb_true_r in Hcalm. rewrite Hcalm in *.
    split_and!; try done; intros; by split_and!.
  - by apply on_upgrade_ok.
  - destruct s as [s|]; [|by split]. destruct (_ || _) eqn:Eb; [by split|].
    apply orb_false_iff in Eb as [? ?]. by apply on_accept_ok.
  - destruct s as [s|]; [|by split]. destruct (wakes_posted s) as [|n] eqn:En; [by split|].
    apply wake_scope_ok.
    + unfold post. cbn. rewrite <- En. by destruct s.
    + cbn. intros Hc. destruct Hok as [H1 H2 H3 H4 H5 H6]. cbn in H6. rewrite Hc in H6.
      destruct H6 as (_ & _ & _ & Hn & _). destruct (accepted s); [done|].
      destruct (Hn eq_refl) as (_ & _ & ?). congruence.
  - destruct s as [s|]; [|by split]. destruct (writing s) eqn:Ew; [by apply on_write_ok|by split].
  - destruct s as [s|]; [|by split]. destruct (_ && _) eqn:Eb; [|by split].
    apply andb_true_iff in Eb as [Ea _]. destruct e; [by apply fail_ok|].
    destruct Hok as [H1 H2 H3 H4 H5 H6]. cbn in *. split; [done|]. split; cbn; try done.
    destruct (closed s) eqn:Ec; [done|]. destruct H6 as (Ht & Ha & Hs & Hn & Hw).
    split_and!; try done. congruence.
  - destruct s as [s|]; [by apply fail_ok|by split].
  - cbn. by rewrite (bool_decide_true _ (ao_owner _ _ _ _ Hok)).
  - done.
Qed.

Lemma world_start_ok tok : kScopeOwner <> EmptyString -> world_ok tok (start tok).
Proof.
  intros Hne. unfold start, FrameQueue.acquire, Telemetry.register_controller. cbn.
  rewrite bool_decide_false by done. cbn. split; [done|]. by split.
Qed.

Lemma calm_ok tok w ops :
  kScopeOwner <> EmptyString -> tok <> EmptyString -> world_ok tok w -> calm w ops = true ->
  world_ok tok (foldl step w ops).
Proof.
  intros Hne Ht. revert w. induction ops as [|op ops IH]; intros w Hw Hc; [done|].
  cbn in *. apply andb_true_iff in Hc as [Hn Hc]. apply IH; [|done]. apply world_step_ok; try done.
  destruct op; try done. by apply negb_true_iff.
Qed.

(** No scope frame is left behind: when an accepted, open session writes
    nothing and no wake is posted to it, the queue holds neither a frame in
    flight nor a pending one (every published frame was written, discarded by
    the owner, or counted as skipped), for every interleaving of publications,
    upgrades, wakes, completed writes and failures in which the owner does not
    discard frames in the middle of a write. *)
Theorem scope_session_drains tok ops s :
  kScopeOwner <> EmptyString -> tok <> EmptyString -> calm (start tok) ops = true ->
  let w := run tok ops in
  session w = Some s -> accepted s = true -> closed s = false -> closing s = false ->
  writing s = false -> wakes_posted s = O -> Telemetry.state (telemetry w) <> None ->
  FrameQueue.in_flight (frames w) = None /\ FrameQueue.pending (frames w) = None.
Proof.
  cbn zeta. intros Hne Ht Hc Hs Ha Hcl Hcg Hw Hp Hst.
  pose proof (calm_ok tok (start tok) ops Hne Ht (world_start_ok tok Hne) Hc) as Hok. fold (run tok ops) in Hok.
  unfold world_ok in Hok. destruct (Telemetry.state _) as [st|]; [|done]. destruct Hok as [_ Hok].
  pose proof (ao_session _ _ _ _ Hok) as Hso. rewrite Hs in Hso. cbn in Hso. rewrite Hcl in Hso.
  destruct Hso as (_ & _ & _ & _ & H). specialize (H Hcg). rewrite Hw in H. destruct H as [_ H].
  assert (Hf : FrameQueue.in_flight (frames (run tok ops)) = None).
  { destruct (FrameQueue.in_flight _); [|done]. specialize (H Ha ltac:(done)). lia. }
  split; [done|]. by apply (ao_pending _ _ _ _ Hok).
Qed.

End Run.
(** Discarding frames in the middle of a write strands the next one: a
    capture is being written, the owner stops and restarts the scope (the queue
    is cleared), the new single-shot capture is published while the old write
    is still running (its wake is ignored), and when that write completes it
    acknowledges a generation that is gone. The session is then idle with the
    new capture undelivered in the queue and no wake posted: the browser does not
    receive it until another frame is published. *)
Theorem scope_capture_stranded (p1 p2 : Payload) :
  let w := run "grpc-control-plane" "t"
             [Publish p1; Upgrade "t"; Accepted false; Clear; Publish p2; Wake; Written false] in
  exists s, session w = Some s /\ accepted s = true /\ closed s = false /\ closing s = false
  /\ writing s = false /\ wakes_posted s = O
  /\ FrameQueue.payload <$> sent s = [p1]
  /\ FrameQueue.payload <$> FrameQueue.in_flight (frames w) = Some p2
  /\ FrameQueue.delivered (frames w) = false.
Proof. eexists. split; [reflexivity|]. by split_and!. Qed.

End Session.

Definition sample_run : list Op :=
  [Publish 7; Upgrade "t"; Accepted false; Publish 8; Publish 9; Written false; Wake; Wake;
   Written false].

Lemma scope_session_drains_witness :
  FrameQueue.in_flight (frames (run "o" "t" sample_run)) = None
  /\ FrameQueue.pending (frames (run "o" "t" sample_run)) = None.
Proof.
  refine (scope_session_drains "o" "t" sample_run
    (mkSession "t" 3 true false false false 0
       [FrameQueue.mkFrame 1 0 7; FrameQueue.mkFrame 3 1 9]) _ _ _ _ _ _ _ _ _ _);
    solve [discriminate | vm_compute; first [reflexivity | discriminate]].
Defined.

End Session.
