(* ===== verification/Scope.v ===== *)
(** The realtime scope: the controller that shares a control record and a ring of
    samples with LinuxCNC's [scope_rt] ([scope/controller.cc], [scope/shm_abi.h]),
    and its gRPC service ([scope/grpc/service_controller.cc]).

    The shared memory is explicit: a control record and a list of cells. The
    realtime side may change the fields it owns ([Rt]) and every cell between any
    two operations, to anything. HAL's lists are explicit too; what its
    functions answer is an argument.  Integer arithmetic of the type [int] that
    would overflow, and reads outside the cells, end in [Undefined], so that a
    theorem which excludes it says that the code never gets there. Each
    operation sees one state of the shared memory. *)
From Stdlib Require Import SpecFloat.
From S2P Require Import Prelude Float64 ScopeFrames.

Local Open Scope Z_scope.

(** * Data *)

Module Controller.

Definition kScopeChannelCount : nat := 16.

Inductive ScopeState :=
| Idle | Init | PreTrigger | TriggerWait | PostTrigger | Done | Reset | Invalid.

Inductive ScopeRunMode := Run | Single | Roll.

Inductive ScopeSourceKind := Pin | Param | Signal.

#[export] Instance run_mode_eq_dec : EqDecision ScopeRunMode.
Proof. solve_decision. Defined.

Record ScopeSource := mkSource {
  kind : ScopeSourceKind;
  name : string;
}.

Record ScopeChannelConfig := mkChannel {
  enabled : bool;
  source : ScopeSource;
}.

Definition disabled_channel : ScopeChannelConfig := mkChannel false (mkSource Pin EmptyString).

Record ScopeConfig := mkConfig {
  thread_name : string;
  multiplier : Z;
  pre_trigger : Z;
  trigger_channel : Z;
  trigger_level : f64;
  rising : bool;
  automatic : bool;
  channels : list ScopeChannelConfig;
}.

(** HAL's types; [HAL_TYPE_OTHER] stands for the ones the scope has no case for. *)
Inductive hal_type_t :=
| HAL_TYPE_UNSPECIFIED | HAL_BIT | HAL_FLOAT | HAL_S32 | HAL_U32 | HAL_TYPE_OTHER.

#[export] Instance hal_type_eq_dec : EqDecision hal_type_t.
Proof. solve_decision. Defined.

(** ** The shared memory *)

(** [linuxcnc_scope_state_t]. *)
Definition LINUXCNC_SCOPE_IDLE : Z := 0.
Definition LINUXCNC_SCOPE_INIT : Z := 1.
Definition LINUXCNC_SCOPE_PRE_TRIG : Z := 2.
Definition LINUXCNC_SCOPE_TRIG_WAIT : Z := 3.
Definition LINUXCNC_SCOPE_POST_TRIG : Z := 4.
Definition LINUXCNC_SCOPE_DONE : Z := 5.
Definition LINUXCNC_SCOPE_RESET : Z := 6.

(** The member of the union [trig_level] that was written. *)
Inductive scope_level :=
| d_u8 (b : bool)
| d_s32 (z : Z)
| d_u32 (z : Z)
| d_real (x : f64).

(** The fields of the control record that the realtime side writes. *)
Record Rt := mkRt {
  watchdog : Z;
  force_trig : Z;
  start : Z;
  curr : Z;
  samples : Z;
  state : Z;
}.

(** The rest of [linuxcnc_scope_shm_control_t], written by the controller. *)
Record Control := mkControl {
  buf_len : Z;
  thread : string;
  mult : Z;
  rec_len : Z;
  sample_len : Z;
  pre_trig : Z;
  trig_chan : Z;
  trig_level : scope_level;
  trig_edge : Z;
  auto_trig : Z;
  data_offset : list Z;
  data_type : list hal_type_t;
  data_len : list Z;
  rt : Rt;
}.

(** [linuxcnc_scope_data_t], by its 64 bits. *)
Abbreviation cell := Z (only parsing).

(** ** HAL *)

Record hal_thread_t := mkThread {
  th_name : string;
  th_period : Z;
  th_functs : list string;
}.

Record hal_pin_t := mkPin {
  pin_type : hal_type_t;
  pin_signal : option Z;
  pin_dummysig : Z;
}.

(** HAL's lists; data pointers are offsets into its shared memory. The lists of
    components and items are what HAL shows, the links of [scope.sample] change
    with the calls of the controller. *)
Record Hal := mkHal {
  comps : list (string * Z);
  hal_params : gmap string (hal_type_t * Z);
  hal_pins : gmap string hal_pin_t;
  hal_sigs : gmap string (hal_type_t * Z);
  hal_functs : list string;
  threads : list hal_thread_t;
}.

(** ** Frames *)

Definition ScopeChannelSamples : Type := list (option (list f64)).

Record ScopeCapture := mkCapture {
  cap_channels : ScopeChannelSamples;
  cap_samples : Z;
  trigger_index : Z;
  cap_period_ns : Z;
}.

Record ScopeCaptureDelta := mkDelta {
  delta_channels : ScopeChannelSamples;
  delta_count : Z;
  capacity : Z;
  sequence : Z;
  delta_period_ns : Z;
  reset : bool;
}.

(** [ScopeFrame::payload], with [ScopeFrame::kind]. *)
Inductive ScopePayload :=
| CaptureFrame (c : ScopeCapture)
| RollFrame (d : ScopeCaptureDelta).

(** [ScopeControllerError] by its code, or behaviour the language leaves
    undefined. *)
Inductive Error :=
| ScopeControllerError (code : Z)
| Undefined.

Definition EPERM : Z := 1.
Definition ENOENT : Z := 2.
Definition EAGAIN : Z := 11.
Definition EBUSY : Z := 16.
Definition ENODEV : Z := 19.
Definition EINVAL : Z := 22.
Definition ERANGE : Z := 34.
Definition EPROTO : Z := 71.

Definition throw {A} (code : Z) : outcome Error A := Err (ScopeControllerError (- code)).

(** A result of type [int]. *)
Definition int (z : Z) : outcome Error Z :=
  if (- 2 ^ 31 <=? z) && (z <? 2 ^ 31) then Ok z else Err Undefined.

Definition scope_state (s : Z) : ScopeState :=
  if s =? LINUXCNC_SCOPE_IDLE then Idle
  else if s =? LINUXCNC_SCOPE_INIT then Init
  else if s =? LINUXCNC_SCOPE_PRE_TRIG then PreTrigger
  else if s =? LINUXCNC_SCOPE_TRIG_WAIT then TriggerWait
  else if s =? LINUXCNC_SCOPE_POST_TRIG then PostTrigger
  else if s =? LINUXCNC_SCOPE_DONE then Done
  else if s =? LINUXCNC_SCOPE_RESET then Reset
  else Invalid.

(** ** Looking up HAL *)

Definition starts_with (value prefix : string) : bool := String.prefix prefix value.

(** [live pid]: [kill(pid, 0)] succeeds or is not permitted. *)
Definition process_is_live (live : Z -> bool) (pid : Z) : bool :=
  if pid <=? 0 then false else live pid.

Definition has_scope_controller_owner (live : Z -> bool) (h : Hal) : bool :=
  existsb (fun c => String.eqb c.1 "halscope"
                    || (starts_with c.1 "linuxcnc-grpc-scope" && process_is_live live c.2))
    (comps h).

Definition resolve_scope_source_unlocked (h : Hal) (s : ScopeSource) :
    option Z * hal_type_t :=
  if bool_decide (name s = EmptyString) then (None, HAL_TYPE_UNSPECIFIED)
  else
    match kind s with
    | Param =>
        match hal_params h !! name s with
        | Some (t, d) => (Some d, t)
        | None => (None, HAL_TYPE_UNSPECIFIED)
        end
    | Pin =>
        match hal_pins h !! name s with
        | Some p =>
            (Some (match pin_signal p with Some d => d | None => pin_dummysig p end), pin_type p)
        | None => (None, HAL_TYPE_UNSPECIFIED)
        end
    | Signal =>
        match hal_sigs h !! name s with
        | Some (t, d) => (Some d, t)
        | None => (None, HAL_TYPE_UNSPECIFIED)
        end
    end.

Definition scope_sample : string := "scope.sample".

Definition scope_rt_loaded (h : Hal) : bool :=
  bool_decide (scope_sample ∈ hal_functs h).

Definition find_scope_thread_unlocked (h : Hal) : string :=
  if negb (scope_rt_loaded h) then EmptyString
  else
    match list_find (fun t => scope_sample ∈ th_functs t) (threads h) with
    | Some (_, t) => th_name t
    | None => EmptyString
    end.

(** [halpr_find_thread_by_name]. *)
Definition find_thread (h : Hal) (n : string) : option hal_thread_t :=
  snd <$> list_find (fun t => th_name t = n) (threads h).

(** What [hal_add_funct_to_thread] and [hal_del_funct_from_thread] do when they
    answer 0. *)
Definition set_functs (f : list string -> list string) (n : string) (h : Hal) : Hal :=
  mkHal (comps h) (hal_params h) (hal_pins h) (hal_sigs h) (hal_functs h)
    ((fun t => if String.eqb (th_name t) n
               then mkThread (th_name t) (th_period t) (f (th_functs t)) else t) <$> threads h).

Definition hal_add_funct_to_thread (n : string) (answer : Z) (h : Hal) : Hal :=
  if answer =? 0 then set_functs (fun l => l ++ [scope_sample]) n h else h.

Definition hal_del_funct_from_thread (n : string) (answer : Z) (h : Hal) : Hal :=
  if answer =? 0 then set_functs (filter (fun f => f <> scope_sample)) n h else h.

(** ** Samples and trigger levels *)

Definition source_length (t : hal_type_t) : Z :=
  match t with HAL_BIT => 1 | HAL_FLOAT => 8 | HAL_S32 => 4 | HAL_U32 => 4 | _ => 0 end.

Definition sample_value (v : cell) (t : hal_type_t) : f64 :=
  match t with
  | HAL_BIT => if Z.land v 255 =? 0 then f64_zero else f64_one
  | HAL_FLOAT => f64_of_bits v
  | HAL_S32 => f64_of_Z (i32_wrap v)
  | HAL_U32 => f64_of_Z (u32_wrap v)
  | _ => f64_zero
  end.

Definition sample_period_ns_unlocked (h : Hal) (c : Control) : Z :=
  if bool_decide (thread c = EmptyString) then 0
  else
    match find_thread h (thread c) with
    | Some t => if mult c <=? 0 then 0 else i64_wrap (th_period t * mult c)
    | None => 0
    end.

(** [static_cast] to [rtapi_s32] or [rtapi_u32]. *)
Definition cast_to (lo hi : Z) (x : f64) : outcome Error Z :=
  match f64_trunc x with
  | Some z => if (lo <=? z) && (z <=? hi) then Ok z else Err Undefined
  | None => Err Undefined
  end.

Definition set_trigger_level (t : hal_type_t) (x : f64) : outcome Error scope_level :=
  match t with
  | HAL_BIT => Ok (d_u8 (negb (f64_eq x f64_zero)))
  | HAL_S32 => z ← cast_to (- 2 ^ 31) (2 ^ 31 - 1) x; Ok (d_s32 z)
  | HAL_U32 => z ← cast_to 0 (2 ^ 32 - 1) x; Ok (d_u32 z)
  | _ => Ok (d_real x)
  end.

Definition validate_trigger_level (t : hal_type_t) (x : f64) : outcome Error unit :=
  if bool_decide (t = HAL_S32)
     && (negb (f64_isfinite x) || f64_lt x (f64_of_Z (- 2 ^ 31)) || f64_gt x (f64_of_Z (2 ^ 31 - 1)))
  then throw ERANGE
  else if bool_decide (t = HAL_U32)
     && (negb (f64_isfinite x) || f64_lt x f64_zero || f64_gt x (f64_of_Z (2 ^ 32 - 1)))
  then throw ERANGE
  else Ok tt.

(** ** The controller *)

(** [LinuxCncScopeControllerState]; [shm]: the mapped control record and cells
    ([control] and [buffer]), [None] once torn down. Times are nanoseconds. *)
Record State := mkState {
  component_id : Z;
  shared_memory_id : Z;
  shm : option (Control * list cell);
  heartbeat_period : Z;
  polling : bool;
  owner : string;
  run_mode : ScopeRunMode;
  running : bool;
  configured : bool;
  config : ScopeConfig;
  frames : @FrameQueue.ScopeFrameQueue ScopePayload;
  delta_initialized : bool;
  delta_start : Z;
  delta_samples : Z;
  delta_sample_len : Z;
  delta_sequence : Z;
  delta_snapshot_at : Z;
  heartbeat_at : Z;
}.

Definition set_shm x s := mkState (component_id s) (shared_memory_id s) x (heartbeat_period s)
  (polling s) (owner s) (run_mode s) (running s) (configured s) (config s) (frames s)
  (delta_initialized s) (delta_start s) (delta_samples s) (delta_sample_len s)
  (delta_sequence s) (delta_snapshot_at s) (heartbeat_at s).
Definition set_ids c i s := mkState c i (shm s) (heartbeat_period s) (polling s) (owner s)
  (run_mode s) (running s) (configured s) (config s) (frames s) (delta_initialized s)
  (delta_start s) (delta_samples s) (delta_sample_len s) (delta_sequence s)
  (delta_snapshot_at s) (heartbeat_at s).
Definition set_polling x s := mkState (component_id s) (shared_memory_id s) (shm s)
  (heartbeat_period s) x (owner s) (run_mode s) (running s) (configured s) (config s) (frames s)
  (delta_initialized s) (delta_start s) (delta_samples s) (delta_sample_len s)
  (delta_sequence s) (delta_snapshot_at s) (heartbeat_at s).
Definition set_owner x s := mkState (component_id s) (shared_memory_id s) (shm s)
  (heartbeat_period s) (polling s) x (run_mode s) (running s) (configured s) (config s)
  (frames s) (delta_initialized s) (delta_start s) (delta_samples s) (delta_sample_len s)
  (delta_sequence s) (delta_snapshot_at s) (heartbeat_at s).
Definition set_run mode r s := mkState (component_id s) (shared_memory_id s) (shm s)
  (heartbeat_period s) (polling s) (owner s) mode r (configured s) (config s) (frames s)
  (delta_initialized s) (delta_start s) (delta_samples s) (delta_sample_len s)
  (delta_sequence s) (delta_snapshot_at s) (heartbeat_at s).
Definition set_configured b c s := mkState (component_id s) (shared_memory_id s) (shm s)
  (heartbeat_period s) (polling s) (owner s) (run_mode s) (running s) b c (frames s)
  (delta_initialized s) (delta_start s) (delta_samples s) (delta_sample_len s)
  (delta_sequence s) (delta_snapshot_at s) (heartbeat_at s).
Definition set_frames x s := mkState (component_id s) (shared_memory_id s) (shm s)
  (heartbeat_period s) (polling s) (owner s) (run_mode s) (running s) (configured s) (config s)
  x (delta_initialized s) (delta_start s) (delta_samples s) (delta_sample_len s)
  (delta_sequence s) (delta_snapshot_at s) (heartbeat_at s).
Definition set_delta i st sa sl sq at_ s := mkState (component_id s) (shared_memory_id s) (shm s)
  (heartbeat_period s) (polling s) (owner s) (run_mode s) (running s) (configured s) (config s)
  (frames s) i st sa sl sq at_ (heartbeat_at s).
Definition set_heartbeat x s := mkState (component_id s) (shared_memory_id s) (shm s)
  (heartbeat_period s) (polling s) (owner s) (run_mode s) (running s) (configured s) (config s)
  (frames s) (delta_initialized s) (delta_start s) (delta_samples s) (delta_sample_len s)
  (delta_sequence s) (delta_snapshot_at s) x.

(** [impl.delta_initialized = false]. *)
Definition forget_delta (s : State) : State :=
  set_delta false (delta_start s) (delta_samples s) (delta_sample_len s) (delta_sequence s)
    (delta_snapshot_at s) s.
(** [impl.delta_sequence = 0]. *)
Definition restart_sequence (s : State) : State :=
  set_delta (delta_initialized s) (delta_start s) (delta_samples s) (delta_sample_len s) 0
    (delta_snapshot_at s) s.

Definition set_rt (r : Rt) (c : Control) : Control :=
  mkControl (buf_len c) (thread c) (mult c) (rec_len c) (sample_len c) (pre_trig c) (trig_chan c)
    (trig_level c) (trig_edge c) (auto_trig c) (data_offset c) (data_type c) (data_len c) r.
Definition set_state (x : Z) (c : Control) : Control :=
  let r := rt c in
  set_rt (mkRt (watchdog r) (force_trig r) (start r) (curr r) (samples r) x) c.
Definition set_force (x : Z) (c : Control) : Control :=
  let r := rt c in
  set_rt (mkRt (watchdog r) x (start r) (curr r) (samples r) (state r)) c.
Definition set_watchdog (x : Z) (c : Control) : Control :=
  let r := rt c in
  set_rt (mkRt x (force_trig r) (start r) (curr r) (samples r) (state r)) c.
Definition set_pre_trig (x : Z) (c : Control) : Control :=
  mkControl (buf_len c) (thread c) (mult c) (rec_len c) (sample_len c) x (trig_chan c)
    (trig_level c) (trig_edge c) (auto_trig c) (data_offset c) (data_type c) (data_len c) (rt c).

(** [impl.control = …] on the mapped record. *)
Definition with_control (f : Control -> Control) (s : State) : State :=
  set_shm ((fun m => (f m.1, m.2)) <$> shm s) s.

Definition ensure_attached (s : State) : outcome Error (Control * list cell) :=
  match shm s with
  | Some m => if component_id s <=? 0 then throw ENODEV else Ok m
  | None => throw ENODEV
  end.

Definition ensure_owner (s : State) (o : string) : outcome Error unit :=
  if bool_decide (o = EmptyString) || negb (bool_decide (owner s = o)) then throw EPERM else Ok tt.

Record ScopeStatus := mkStatus {
  st_state : ScopeState;
  buffer_length : Z;
  record_length : Z;
  sample_length : Z;
  st_samples : Z;
  st_start : Z;
  st_multiplier : Z;
  st_watchdog : Z;
  st_thread_name : string;
  st_sample_period_ns : Z;
}.

Definition status_unlocked (h : Hal) (s : State) : outcome Error ScopeStatus :=
  '(c, _) ← ensure_attached s;
  Ok (mkStatus (scope_state (state (rt c))) (buf_len c) (rec_len c) (sample_len c)
        (samples (rt c)) (start (rt c)) (mult c) (watchdog (rt c)) (thread c)
        (sample_period_ns_unlocked h c)).

(** ** Copying samples *)

(** One sample of a channel: [impl.buffer[cell]] after [cell %= buffer_length]. *)
Definition read_sample (c : Control) (buffer : list cell) (packed : Z) (t : hal_type_t)
    (index : Z) : outcome Error f64 :=
  offset ← int (index * sample_len c);
  sum ← int (start (rt c) + offset);
  at_ ← int (sum + packed);
  match (if at_ `rem` buf_len c <? 0 then None else buffer !! Z.to_nat (at_ `rem` buf_len c)) with
  | Some v => Ok (sample_value v t)
  | None => Err Undefined
  end.

(** The loops over the channels: enabled channels are packed in each sample.
    [first]: the oldest sample to copy, [count]: how many. *)
Fixpoint copy_channels (c : Control) (buffer : list cell) (first count : Z)
    (lens : list Z) (types : list hal_type_t) (packed : Z) : outcome Error ScopeChannelSamples :=
  match lens, types with
  | len :: lens, t :: types =>
      if len =? 0
      then rest ← copy_channels c buffer first count lens types packed; Ok (None :: rest)
      else
        values ← mapM (fun i => read_sample c buffer packed t (first + i)) (seqZ 0 count);
        rest ← copy_channels c buffer first count lens types (packed + 1);
        Ok (Some values :: rest)
  | _, _ => Ok []
  end.

Definition copy_capture_unlocked (h : Hal) (s : State) (live : bool) :
    outcome Error ScopeCapture :=
  '(c, buffer) ← ensure_attached s;
  let n := samples (rt c) in
  let st := start (rt c) in
  if n <=? 0 then throw EAGAIN
  else if negb (sample_len c =? 16) || (rec_len c <? n) || (buf_len c <? n) || (st <? 0)
          || (buf_len c <=? st) || (rec_len c <=? 0) then throw EPROTO
  else
    values ← copy_channels c buffer 0 n (data_len c) (data_type c) 0;
    Ok (mkCapture values n (if live then n - 1 else pre_trig c) (sample_period_ns_unlocked h c)).

(** The part of [copy_delta_unlocked] that decides how many samples are new. *)
Definition delta_plan (h : Hal) (s : State) (c : Control) (now : Z) : outcome Error (bool * Z) :=
  let n := samples (rt c) in
  let st := start (rt c) in
  let period := sample_period_ns_unlocked h c in
  let elapsed := now - delta_snapshot_at s in
  let ambiguous_wrap :=
    delta_initialized s && (0 <? period) && (i64_wrap (rec_len c * period) <=? elapsed) in
  let reset := negb (delta_initialized s) || negb (sample_len c =? delta_sample_len s)
               || (n <? delta_samples s) || ambiguous_wrap in
  '(reset, count) ←
    (if negb reset && (delta_samples s <? n) then Ok (reset, n - delta_samples s)
     else if negb reset && negb (st =? delta_start s) then
       d ← int (st - delta_start s);
       sum ← int (d + buf_len c);
       let cells := sum `rem` buf_len c in
       if negb (cells `rem` sample_len c =? 0) then Ok (true, 0)
       else Ok (reset, cells `quot` sample_len c)
     else Ok (reset, if reset then n else 0));
  let count := if reset : bool then n else count in
  Ok (if (n <? count) || (rec_len c <=? count) then (true, n) else (reset, count)).

Definition copy_delta_unlocked (h : Hal) (now : Z) (s : State) :
    outcome Error (State * option ScopeCaptureDelta) :=
  '(c, buffer) ← ensure_attached s;
  let n := samples (rt c) in
  let st := start (rt c) in
  if n <=? 0 then Ok (s, None)
  else if negb (sample_len c =? 16) || (rec_len c <=? 0) || (rec_len c <? n) || (st <? 0)
          || (buf_len c <=? st) then throw EPROTO
  else
    '(reset, count) ← delta_plan h s c now;
    let s := set_delta true st n (sample_len c) (delta_sequence s) now s in
    if count =? 0 then Ok (s, None)
    else
      let sequence := if reset : bool then n else u64_wrap (delta_sequence s + count) in
      let s := set_delta true st n (sample_len c) sequence now s in
      values ← copy_channels c buffer (n - count) count (data_len c) (data_type c) 0;
      Ok (s, Some (mkDelta values count (rec_len c) sequence (sample_period_ns_unlocked h c) reset)).

(** ** The poll thread *)

Definition publish (p : ScopePayload) (s : State) : State :=
  set_frames (FrameQueue.publish p (frames s)).1.1 s.

(** The body of the [try]. *)
Definition poll_frames (h : Hal) (now : Z) (s : State) : outcome Error State :=
  '(c, _) ← ensure_attached s;
  if bool_decide (run_mode s = Roll) && running s then
    '(s, delta) ← copy_delta_unlocked h now s;
    let s := match delta with Some d => publish (RollFrame d) s | None => s end in
    Ok (if state (rt c) =? LINUXCNC_SCOPE_DONE
        then with_control (set_state LINUXCNC_SCOPE_INIT) s else s)
  else if running s && negb (bool_decide (run_mode s = Roll))
          && (state (rt c) =? LINUXCNC_SCOPE_DONE) then
    capture ← copy_capture_unlocked h s false;
    let s := publish (CaptureFrame capture) s in
    Ok (if bool_decide (run_mode s = Run)
        then with_control (set_state LINUXCNC_SCOPE_INIT) s
        else set_run (run_mode s) false s)
  else Ok s.

Definition poll_once (h : Hal) (now : Z) (s : State) : outcome Error State :=
  if negb (polling s) || bool_decide (owner s = EmptyString) then Ok s
  else
    '(c, _) ← ensure_attached s;
    s ← (if (heartbeat_at s =? 0) || (heartbeat_period s <=? now - heartbeat_at s)
         then w ← int (watchdog (rt c) + 1);
              Ok (set_heartbeat now (with_control (set_watchdog (Z.min w 10)) s))
         else Ok s);
    match poll_frames h now s with
    | Ok s => Ok s
    | Err (ScopeControllerError _) => Ok (forget_delta s)
    | Err Undefined => Err Undefined
    end.

(** ** Tearing down *)

(** The controller gives up waiting for the realtime side. *)
Definition force_idle (c : Control) : Control :=
  set_rt (mkRt (watchdog (rt c)) 0 0 0 0 LINUXCNC_SCOPE_IDLE) c.

(** The wait for the realtime side to leave the reset state: it ends with the
    realtime fields [settled], after at most 250 looks. *)
Definition teardown (h : Hal) (settled : Rt) (del_answer : Z) (s : State) : State * Hal :=
  let s := set_polling false s in
  let (s, h) :=
    match shm s with
    | Some (c, _) =>
        let s := with_control (set_rt settled) s in
        if state settled =? LINUXCNC_SCOPE_IDLE then (s, h)
        else
          (with_control force_idle s,
           if bool_decide (thread c = EmptyString) then h
           else hal_del_funct_from_thread (thread c) del_answer h)
    | None => (s, h)
    end in
  (set_ids 0 (-1) (set_shm None s), h).

(** ** Construction *)

(** What the platform answers while the controller is constructed: [hal_init],
    [load_scope_rt], [rtapi_shmem_new], the mapping of [rtapi_shmem_getptr] with
    the record's [shm_size], and [hal_ready]. *)
Record Platform := mkPlatform {
  live : Z -> bool;
  hal_init : Z;
  load_scope_rt : Z;
  shmem_new : Z;
  shmem_getptr : Z * option (Z * Control * list cell);
  hal_ready : Z;
  teardown_rt : Rt;
  teardown_del : Z;
}.

Definition default_config : ScopeConfig :=
  mkConfig EmptyString 1 0 0 f64_zero true false (replicate kScopeChannelCount disabled_channel).

Section Construct.
Variables HAL_NAME_LEN control_size : Z.

Definition blank (id : Z) (heartbeat : Z) : State :=
  mkState id (-1) None heartbeat false EmptyString Single false false default_config
    FrameQueue.make false 0 0 0 0 0 0.

(** [strncpy] of a thread name and its terminator. *)
Definition copy_name (n : string) : string := String.substring 0 (Z.to_nat HAL_NAME_LEN) n.

Definition set_thread (n : string) (c : Control) : Control :=
  mkControl (buf_len c) n (mult c) (rec_len c) (sample_len c) (pre_trig c) (trig_chan c)
    (trig_level c) (trig_edge c) (auto_trig c) (data_offset c) (data_type c) (data_len c) (rt c).

(** [(sizeof(control) + 3) & ~3]. *)
Definition header_size : Z := Z.land (control_size + 3) (Z.lnot 3).

(** [make]: the constructor, up to and with [start_polling]. *)
Definition make (component_name : string) (poll_period heartbeat requested : Z)
    (p : Platform) (h : Hal) : Hal * outcome Error State :=
  if bool_decide (component_name = EmptyString)
     || (HAL_NAME_LEN <? Z.of_nat (String.length component_name)) then (h, throw EINVAL)
  else if (poll_period <=? 0) || (heartbeat <=? 0) then (h, throw EINVAL)
  else if (requested <? 1000) || (1000000 <? requested) then (h, throw ERANGE)
  else if has_scope_controller_owner (live p) h then (h, throw EBUSY)
  else if hal_init p <=? 0 then (h, Err (ScopeControllerError (hal_init p)))
  else
    let s := blank (hal_init p) heartbeat in
    let down h s code :=
      ((teardown h (teardown_rt p) (teardown_del p) s).2, Err (ScopeControllerError code)) in
    let loaded := if scope_rt_loaded h then 0 else load_scope_rt p in
    if negb (loaded =? 0) then down h s loaded
    else
    let h := if scope_rt_loaded h then h
             else mkHal (comps h) (hal_params h) (hal_pins h) (hal_sigs h)
                    (scope_sample :: hal_functs h) (threads h) in
    if shmem_new p <? 0 then down h s (shmem_new p)
    else
      let s := set_ids (hal_init p) (shmem_new p) s in
      match shmem_getptr p with
      | (result, Some (shm_size, c, buffer)) =>
          if result <? 0 then down h s result
          else
            let mapped := set_shm (Some (c, buffer)) s in
            if (shm_size <? header_size) || (buf_len c <=? 0)
               || (shm_size <? u64_wrap (header_size + buf_len c * 8))
            then down h mapped (- EPROTO)
            else
              let found := find_scope_thread_unlocked h in
              let c :=
                if bool_decide (thread c = EmptyString) && negb (bool_decide (found = EmptyString))
                then set_thread (copy_name found) c else c in
              let s := set_shm (Some (c, buffer)) s in
              if negb (hal_ready p =? 0) then down h s (hal_ready p)
              else (h, Ok (set_polling true s))
      | (result, None) => down h s result
      end.

(** ** Operations of the owner *)

Definition acquire (o : string) (now : Z) (s : State) : outcome Error (State * bool) :=
  if bool_decide (o = EmptyString) then Ok (s, false)
  else
    _ ← ensure_attached s;
    let (q, taken) := FrameQueue.acquire o (frames s) in
    Ok (if taken then (set_heartbeat now (set_owner o (set_frames q s)), true) else (s, false)).

Definition release (o : string) (s : State) : State :=
  if negb (bool_decide (owner s = o)) then s
  else
    let s := with_control (fun c => set_force 0 (set_state LINUXCNC_SCOPE_RESET c)) s in
    let s := forget_delta (set_configured false (config s) (set_run (run_mode s) false s)) in
    set_owner EmptyString (set_frames (FrameQueue.release o (frames s)) s).

Definition status (h : Hal) (s : State) : outcome Error ScopeStatus := status_unlocked h s.

(** The sources of the enabled channels: offset, type and length of each. *)
Fixpoint resolve_channels (h : Hal) (cs : list ScopeChannelConfig) :
    outcome Error (list (Z * hal_type_t * Z)) :=
  match cs with
  | [] => Ok []
  | ch :: cs =>
      if negb (enabled ch)
      then rest ← resolve_channels h cs; Ok ((0, HAL_TYPE_UNSPECIFIED, 0) :: rest)
      else
        let (data, t) := resolve_scope_source_unlocked h (source ch) in
        match data with
        | Some d =>
            if source_length t =? 0 then throw EINVAL
            else rest ← resolve_channels h cs; Ok ((d, t, source_length t) :: rest)
        | None => throw EINVAL
        end
  end.

(** What HAL and the realtime side answer to [configure]: the realtime fields at
    the end of the wait for the idle state, and the links of [scope.sample]. *)
Record Answers := mkAnswers {
  settled : Rt;
  reset_del : Z;
  move_del : Z;
  link_add : Z;
}.

(** Lines 783 to 798: the checks that need the thread and the sources. *)
Definition check_config (h : Hal) (cfg : ScopeConfig) (sources : list (Z * hal_type_t * Z)) :
    outcome Error hal_type_t :=
  let period := match find_thread h (thread_name cfg) with Some t => th_period t | None => 0 end in
  if period <=? 0 then throw ENOENT
  else
    let max_multiplier := Z.min 1000 (1000000000 `quot` period) in
    if (multiplier cfg <? 1) || (max_multiplier <? multiplier cfg) then throw ERANGE
    else
      let chosen := Z.to_nat (trigger_channel cfg - 1) in
      if (0 <? trigger_channel cfg)
         && negb (match channels cfg !! chosen with Some ch => enabled ch | None => false end)
      then throw EINVAL
      else
        let t := if 0 <? trigger_channel cfg
                 then match sources !! chosen with Some x => x.1.2 | None => HAL_FLOAT end
                 else HAL_FLOAT in
        _ ← validate_trigger_level t (trigger_level cfg);
        Ok t.

(** Lines 800 to 816: reset the realtime side; the second result is the thread
    [scope.sample] is still linked to. *)
Definition settle (a : Answers) (attached : string) (h : Hal) (s : State) : State * Hal * string :=
  match shm s with
  | Some (c, _) =>
      if state (rt c) =? LINUXCNC_SCOPE_IDLE then (s, h, attached)
      else
        let s := with_control (set_rt (settled a)) s in
        if state (settled a) =? LINUXCNC_SCOPE_IDLE then (s, h, attached)
        else
          (with_control force_idle s,
           if bool_decide (attached = EmptyString) then h
           else hal_del_funct_from_thread attached (reset_del a) h, EmptyString)
  | None => (s, h, attached)
  end.

(** Lines 817 to 832: link [scope.sample] to the configured thread. *)
Definition link (a : Answers) (cfg : ScopeConfig) (attached : string) (h : Hal) :
    Hal * outcome Error unit :=
  if bool_decide (attached = thread_name cfg) then (h, Ok tt)
  else if negb (bool_decide (attached = EmptyString)) && negb (move_del a =? 0)
  then (h, Err (ScopeControllerError (move_del a)))
  else
    let h := if bool_decide (attached = EmptyString) then h
             else hal_del_funct_from_thread attached (move_del a) h in
    if negb (link_add a =? 0) then (h, Err (ScopeControllerError (link_add a)))
    else (hal_add_funct_to_thread (thread_name cfg) (link_add a) h, Ok tt).

(** Lines 834 to 854. *)
Definition write_control (cfg : ScopeConfig) (level : scope_level)
    (sources : list (Z * hal_type_t * Z)) (c : Control) : Control :=
  let rec := buf_len c `quot` 16 in
  mkControl (buf_len c) (copy_name (thread_name cfg)) (multiplier cfg) rec 16
    (Z.max 0 (Z.min (pre_trigger cfg) (Z.max 0 (rec - 1)))) (trigger_channel cfg) level
    (if rising cfg then 1 else 0) (if automatic cfg then 1 else 0)
    ((fun x => x.1.1) <$> sources) ((fun x => x.1.2) <$> sources) ((fun x => x.2) <$> sources) (rt c).

(** Lines 746 to 798: the checks that precede every change. *)
Definition configure_guard (o : string) (cfg : ScopeConfig) (h : Hal) (s : State) :
    outcome Error (list (Z * hal_type_t * Z) * hal_type_t) :=
  _ ← ensure_attached s;
  _ ← ensure_owner s o;
  if bool_decide (thread_name cfg = EmptyString)
     || (HAL_NAME_LEN <? Z.of_nat (String.length (thread_name cfg)))
     || (trigger_channel cfg <? 0) || (16 <? trigger_channel cfg) then throw EINVAL
  else
    sources ← resolve_channels h (channels cfg);
    t ← check_config h cfg sources;
    Ok (sources, t).

(** The state and HAL are returned with errors too: an operation that throws may
    have changed them. *)
Definition configure (a : Answers) (o : string) (cfg : ScopeConfig) (h : Hal) (s : State) :
    State * Hal * outcome Error unit :=
  match configure_guard o cfg h s with
  | Err e => (s, h, Err e)
  | Ok (sources, t) =>
      let '(s, h, attached) := settle a (find_scope_thread_unlocked h) h s in
      match link a cfg attached h with
      | (h, Err e) => (s, h, Err e)
      | (h, Ok _) =>
          match shm s with
          | None => (s, h, throw ENODEV)
          | Some (c, _) =>
              if buf_len c `quot` 16 <=? 0
              then (with_control (fun c =>
                      mkControl (buf_len c) (copy_name (thread_name cfg)) (mult c)
                        (buf_len c `quot` 16) 16 (pre_trig c) (trig_chan c) (trig_level c)
                        (trig_edge c) (auto_trig c) (data_offset c) (data_type c) (data_len c)
                        (rt c)) s, h, throw EPROTO)
              else
                match set_trigger_level t (trigger_level cfg) with
                | Err e => (s, h, Err e)
                | Ok level =>
                    let s := with_control (write_control cfg level sources) s in
                    let s := set_configured true cfg (set_run (run_mode s) false s) in
                    let s := restart_sequence (forget_delta s) in
                    (set_frames (FrameQueue.clear o (frames s)) s, h, Ok tt)
                end
          end
      end
  end.

Definition run (o : string) (mode : ScopeRunMode) (s : State) : outcome Error State :=
  '(c, _) ← ensure_attached s;
  _ ← ensure_owner s o;
  if negb (configured s) then throw EINVAL
  else if negb (state (rt c) =? LINUXCNC_SCOPE_IDLE) && negb (state (rt c) =? LINUXCNC_SCOPE_DONE)
  then throw EBUSY
  else
    let last := Z.max 0 (rec_len c - 1) in
    let pre := match mode with
               | Roll => last
               | _ => Z.max 0 (Z.min (pre_trigger (config s)) last)
               end in
    Ok (with_control (fun c => set_state LINUXCNC_SCOPE_INIT (set_pre_trig pre c))
          (set_run mode true (restart_sequence (forget_delta s)))).

Definition stop (o : string) (s : State) : outcome Error State :=
  _ ← ensure_attached s;
  _ ← ensure_owner s o;
  let s := forget_delta (set_run (run_mode s) false s) in
  let s := with_control (fun c => set_force 0 (set_state LINUXCNC_SCOPE_RESET c)) s in
  Ok (set_frames (FrameQueue.clear o (frames s)) s).

Definition trigger (o : string) (s : State) : outcome Error State :=
  _ ← ensure_attached s;
  _ ← ensure_owner s o;
  Ok (with_control (set_force 1) s).

Definition next_frame (o : string) (s : State) :=
  let (q, f) := FrameQueue.next o (frames s) in (set_frames q s, f).

Definition acknowledge (o : string) (g : Z) (s : State) :=
  let (q, f) := FrameQueue.acknowledge o g (frames s) in (set_frames q s, f).

Definition discard_frames (o : string) (s : State) : State :=
  set_frames (FrameQueue.clear o (frames s)) s.

(** ** Runs *)

(** [RtWrites]: the realtime side changes its fields and the cells; [HalChanges]:
    HAL's lists are changed by others. *)
Inductive Op :=
| RtWrites (r : Rt) (cells : list cell)
| HalChanges (h : Hal)
| Acquire (o : string) (now : Z)
| Release (o : string)
| Configure (a : Answers) (o : string) (cfg : ScopeConfig)
| RunOp (o : string) (mode : ScopeRunMode)
| Stop (o : string)
| Trigger (o : string)
| Poll (now : Z)
| Listen (b : bool)
| Next (o : string)
| Acknowledge (o : string) (g : Z)
| Discard (o : string).

(** An operation that throws, or whose behaviour is undefined, keeps the state. *)
Definition keep (s : State) (h : Hal) (m : outcome Error State) : State * Hal * outcome Error unit :=
  match m with Ok s' => (s', h, Ok tt) | Err e => (s, h, Err e) end.

Definition step (s : State) (h : Hal) (op : Op) : State * Hal * outcome Error unit :=
  match op with
  | RtWrites r cells => (set_shm ((fun m => (set_rt r m.1, cells)) <$> shm s) s, h, Ok tt)
  | HalChanges h' => (s, h', Ok tt)
  | Acquire o now => keep s h (r ← acquire o now s; Ok r.1)
  | Release o => (release o s, h, Ok tt)
  | Configure a o cfg => configure a o cfg h s
  | RunOp o mode => keep s h (run o mode s)
  | Stop o => keep s h (stop o s)
  | Trigger o => keep s h (trigger o s)
  | Poll now => keep s h (poll_once h now s)
  | Listen b => (set_frames (FrameQueue.set_listener b (frames s)) s, h, Ok tt)
  | Next o => ((next_frame o s).1, h, Ok tt)
  | Acknowledge o g => ((acknowledge o g s).1, h, Ok tt)
  | Discard o => (discard_frames o s, h, Ok tt)
  end.

(** A run: the final state and the result of every operation. *)
Fixpoint runs (s : State) (h : Hal) (ops : list Op) : State * list (outcome Error unit) :=
  match ops with
  | [] => (s, [])
  | op :: ops =>
      let '(s, h, r) := step s h op in
      let (s, rs) := runs s h ops in (s, r :: rs)
  end.

(** ** Invariant *)

(** Trigger levels are doubles. *)
Definition double (x : f64) : Prop := valid_binary 53 1024 x = true.

(** The realtime fields are of type [int]. *)
Definition rt_ok (r : Rt) : Prop :=
  in_i32 (start r) /\ in_i32 (samples r) /\ in_i32 (watchdog r).

Definition int_max : Z := 2 ^ 31 - 1.

(** The poll raises the watchdog. *)
Definition beat_due (now : Z) (s : State) : bool :=
  polling s && negb (bool_decide (owner s = EmptyString))
  && ((heartbeat_at s =? 0) || (heartbeat_period s <=? now - heartbeat_at s)).

(** [control->watchdog + 1] does not fit. *)
Definition watchdog_overflows (s : State) (op : Op) : Prop :=
  match op with
  | Poll now => beat_due now s = true /\ exists c b, shm s = Some (c, b) /\ watchdog (rt c) = int_max
  | _ => False
  end.

Fixpoint overflow_free (s : State) (h : Hal) (ops : list Op) : Prop :=
  match ops with
  | [] => True
  | op :: ops => ~ watchdog_overflows s op /\ (let '(s, h, _) := step s h op in overflow_free s h ops)
  end.


(** What a configuration leaves in the control record. *)
Record control_ok (cfg : ScopeConfig) (c : Control) : Prop := mkControlOk {
  co_sample : sample_len c = 16;
  co_record : rec_len c = buf_len c `quot` 16 /\ 0 < rec_len c;
  co_pre : 0 <= pre_trig c < rec_len c;
  co_mult : 1 <= mult c <= 1000;
  co_trigger : 0 <= trig_chan c <= 16;
  co_lens : length (data_len c) = 16%nat;
  co_types : length (data_type c) = 16%nat;
  co_offsets : length (data_offset c) = 16%nat;
  co_len : forall i ch len, channels cfg !! i = Some ch -> data_len c !! i = Some len ->
    if enabled ch then len ∈ [1; 4; 8] else len = 0;
  co_source : 0 < trig_chan c ->
    exists ch, channels cfg !! Z.to_nat (trig_chan c - 1) = Some ch /\ enabled ch = true;
}.

Record inv (s : State) : Prop := mkInv {
  inv_shm : exists c buffer, shm s = Some (c, buffer) /\ 0 < buf_len c
    /\ 2 * buf_len c + 16 < 2 ^ 31 /\ Z.of_nat (length buffer) = buf_len c
    /\ rt_ok (rt c)
    /\ (configured s = true -> control_ok (config s) c)
    /\ (delta_initialized s = true -> 0 <= delta_start s < buf_len c /\ 0 <= delta_samples s);
  inv_component : 0 < component_id s;
  inv_owner : FrameQueue.owner (frames s) = owner s;
  inv_running : running s = true -> configured s = true;
  inv_configured : configured s = true -> owner s <> EmptyString;
}.

(** The operations as the environment may perform them: [configure] receives
    doubles and the sixteen channels of the array, and what the realtime side
    writes has the types of the record and leaves the mapping alone. *)
Definition op_ok (s : State) (op : Op) : Prop :=
  match op with
  | RtWrites r cells =>
      rt_ok r /\ match shm s with Some (_, b) => length cells = length b | None => True end
  | Configure a o cfg =>
      length (channels cfg) = kScopeChannelCount /\ double (trigger_level cfg)
      /\ rt_ok (settled a)
  | _ => True
  end.

Fixpoint ops_ok (s : State) (h : Hal) (ops : list Op) : Prop :=
  match ops with
  | [] => True
  | op :: ops => op_ok s op /\ (let '(s, h, _) := step s h op in ops_ok s h ops)
  end.

(** *** Reads *)

Lemma int_ok z : in_i32 z -> int z = Ok z.
Proof.
  unfold in_i32, int. intros H.
  by rewrite (proj2 (Z.leb_le _ _)), (proj2 (Z.ltb_lt _ _)) by lia.
Qed.

Lemma read_sample_ok c buffer packed t i :
  0 < buf_len c -> 2 * buf_len c + 16 < 2 ^ 31 -> Z.of_nat (length buffer) = buf_len c ->
  sample_len c = 16 -> 0 <= start (rt c) < buf_len c -> 0 <= packed < 16 ->
  0 <= i < buf_len c `quot` 16 ->
  exists v, buffer !! Z.to_nat ((start (rt c) + 16 * i + packed) mod buf_len c) = Some v
    /\ read_sample c buffer packed t i = Ok (sample_value v t).
Proof.
  intros Hb Hs Hl Hsl Hst Hp Hi.
  assert (16 * i + 16 <= buf_len c).
  { rewrite Z.quot_div_nonneg in Hi by lia. pose proof (Z.mul_div_le (buf_len c) 16). lia. }
  unfold read_sample. rewrite Hsl.
  rewrite (int_ok (i * 16)) by (unfold in_i32; lia). cbn [mbind outcome_bind].
  rewrite (int_ok (_ + _)) by (unfold in_i32; lia). cbn [mbind outcome_bind].
  rewrite (int_ok (_ + _)) by (unfold in_i32; lia). cbn [mbind outcome_bind].
  rewrite Z.rem_mod_nonneg by lia. replace (i * 16) with (16 * i) by lia.
  pose proof (Z.mod_pos_bound (start (rt c) + 16 * i + packed) (buf_len c) Hb) as Hm.
  rewrite (proj2 (Z.ltb_ge _ 0)) by lia.
  destruct (lookup_lt_is_Some_2 buffer (Z.to_nat ((start (rt c) + 16 * i + packed) mod buf_len c)))
    as [v Hv]; [lia|]. exists v. by rewrite Hv.
Qed.

(** Sample [i] of the ring that starts at [start], the [packed]-th cell of it. *)
Definition ring_value (c : Control) (buffer : list cell) (packed : Z) (t : hal_type_t) (i : Z) : f64 :=
  sample_value (default 0 (buffer !! Z.to_nat ((start (rt c) + 16 * i + packed) mod buf_len c))) t.

(** The channels of samples [first] to [first + count - 1], given the value of
    each cell of a sample: the reference for the loops of the code. *)
Fixpoint channels_of (value : Z -> hal_type_t -> Z -> f64) (first count : Z)
    (lens : list Z) (types : list hal_type_t) (packed : Z) : ScopeChannelSamples :=
  match lens, types with
  | len :: lens, t :: types =>
      if len =? 0 then None :: channels_of value first count lens types packed
      else Some ((fun i => value packed t (first + i)) <$> seqZ 0 count)
           :: channels_of value first count lens types (packed + 1)
  | _, _ => []
  end.

Definition ring_channels (c : Control) (buffer : list cell) :
    Z -> Z -> list Z -> list hal_type_t -> Z -> ScopeChannelSamples :=
  channels_of (ring_value c buffer).

Lemma channels_of_ext v v' first first' count lens types packed :
  (forall k t i, 0 <= k < 16 -> 0 <= i < count -> v k t (first + i) = v' k t (first' + i)) ->
  0 <= packed -> packed + Z.of_nat (length lens) <= 16 ->
  channels_of v first count lens types packed = channels_of v' first' count lens types packed.
Proof.
  intros Hv. revert types packed.
  induction lens as [|len lens IH]; intros [|t types] packed Hp Hl; try done.
  cbn [channels_of length] in *. destruct (len =? 0); [by rewrite IH by lia|].
  rewrite (IH types (packed + 1)) by lia. do 2 f_equal. apply list_fmap_ext.
  intros j i Hi%list_elem_of_lookup_2%elem_of_seqZ. apply Hv; lia.
Qed.

Lemma mapM_ok {A B} (f : A -> outcome Error B) (g : A -> B) l :
  (forall x, x ∈ l -> f x = Ok (g x)) -> mapM f l = Ok (g <$> l).
Proof.
  induction l as [|x l IH]; intros H; [done|]. cbn.
  rewrite (H x) by apply list_elem_of_here. cbn. rewrite IH; [done|].
  intros y Hy. apply H. by apply list_elem_of_further.
Qed.

Lemma copy_channels_eq c buffer first count lens types packed :
  0 < buf_len c -> 2 * buf_len c + 16 < 2 ^ 31 -> Z.of_nat (length buffer) = buf_len c ->
  sample_len c = 16 -> 0 <= start (rt c) < buf_len c -> 0 <= first -> 0 <= count ->
  first + count <= buf_len c `quot` 16 -> 0 <= packed -> packed + Z.of_nat (length lens) <= 16 ->
  copy_channels c buffer first count lens types packed
  = Ok (ring_channels c buffer first count lens types packed).
Proof.
  intros Hb Hs Hl Hsl Hst Hf Hc Hfc. revert types packed.
  induction lens as [|len lens IH]; intros [|t types] packed Hp Hn; try done.
  unfold ring_channels. cbn [copy_channels channels_of length] in *. destruct (len =? 0).
  - rewrite IH by lia. done.
  - rewrite (mapM_ok _ (fun i => ring_value c buffer packed t (first + i))).
    + cbn. rewrite IH by lia. done.
    + intros i Hi%elem_of_seqZ.
      destruct (read_sample_ok c buffer packed t (first + i)) as (v & Hv & ->); try done; try lia.
      cbv beta. unfold ring_value. by rewrite Hv.
Qed.

(** *** Trigger levels *)

Lemma canonical_small s m e : double (S754_finite s m e) -> Zpos m < 2 ^ 53.
Proof.
  unfold double, valid_binary, bounded, canonical_mantissa. intros H.
  apply andb_true_iff in H as [H _]. apply Zeq_bool_eq in H. unfold fexp, emin in H.
  assert (Hd : Zpos (digits2_pos m) <= 53) by lia.
  assert (Hm : Zpos m < 2 ^ Zpos (digits2_pos m)).
  { clear. induction m as [m IH|m IH|]; cbn [digits2_pos]; [| |reflexivity];
      rewrite Pos2Z.inj_succ, Z.pow_succ_r by lia; lia. }
  eapply Z.lt_le_trans; [exact Hm|]. by apply Z.pow_le_mono_r.
Qed.

(** The magnitude of a double that is not above [M * 2 ^ - k]. *)
Lemma magnitude_le m e M k :
  Zpos m < 2 ^ 53 -> 2 ^ 52 <= Zpos M -> 0 < k ->
  match e ?= - k with Lt => True | Eq => Zpos m <= Zpos M | Gt => False end ->
  0 <= (if 0 <=? e then Z.shiftl (Zpos m) e else Z.shiftr (Zpos m) (- e))
    <= Z.shiftr (Zpos M) k.
Proof.
  intros Hm HM Hk He. destruct (Z.compare_spec e (- k)) as [->|Hlt|]; [| |done].
  - rewrite (proj2 (Z.leb_gt _ _)), Z.opp_involutive by lia. rewrite !Z.shiftr_div_pow2 by lia.
    split; [apply Z.div_pos; lia|]. apply Z.div_le_mono; lia.
  - rewrite (proj2 (Z.leb_gt _ _)) by lia. rewrite !Z.shiftr_div_pow2 by lia.
    split; [apply Z.div_pos; lia|].
    apply Z.le_trans with (2 ^ 52 / 2 ^ k); [|apply Z.div_le_mono; lia].
    apply Z.le_trans with (Zpos m / 2 ^ (k + 1)).
    + apply Z.div_le_compat_l; [lia|]. split; [lia|]. apply Z.pow_le_mono_r; lia.
    + rewrite Z.pow_add_r, (Z.mul_comm (2 ^ k)) by lia. rewrite <- Z.div_div by lia.
      apply Z.div_le_mono; [lia|]. apply Z.lt_succ_r. apply Z.div_lt_upper_bound; lia.
Qed.

Definition not_above (m : positive) (e : Z) (M : positive) (k : Z) : Prop :=
  match e ?= - k with Lt => True | Eq => Zpos m <= Zpos M | Gt => False end.

Lemma not_gt m e M k :
  f64_gt (S754_finite false m e) (S754_finite false M (- k)) = false -> not_above m e M k.
Proof.
  unfold f64_gt, SFltb, SFcompare, not_above. rewrite (Z.compare_antisym (- k) e).
  destruct (- k ?= e); cbn; try done. fold (Pos.compare M m).
  destruct (Pos.compare_spec M m); subst; cbn; try done; lia.
Qed.

Lemma not_lt m e M k :
  f64_lt (S754_finite true m e) (S754_finite true M (- k)) = false -> not_above m e M k.
Proof.
  unfold f64_lt, SFltb, SFcompare, not_above. destruct (e ?= - k); cbn; try done.
  fold (Pos.compare m M). destruct (Pos.compare_spec m M); subst; cbn; try done; lia.
Qed.

Lemma cast_ok lo hi x z : f64_trunc x = Some z -> lo <= z <= hi -> cast_to lo hi x = Ok z.
Proof.
  intros Hz Hr. unfold cast_to. rewrite Hz.
  by rewrite (proj2 (Z.leb_le _ _)), (proj2 (Z.leb_le _ _)) by lia.
Qed.

Lemma cast_s32_ok x :
  double x -> f64_isfinite x = true -> f64_lt x (f64_of_Z (- 2 ^ 31)) = false ->
  f64_gt x (f64_of_Z (2 ^ 31 - 1)) = false -> exists z, cast_to (- 2 ^ 31) (2 ^ 31 - 1) x = Ok z.
Proof.
  intros Hx Hf Hl Hg. destruct x as [z|z| |z m e]; try done; [by exists 0|].
  pose proof (canonical_small _ _ _ Hx) as Hm. eexists. apply cast_ok; [reflexivity|]. destruct z.
  - apply (not_lt m e 4503599627370496 21) in Hl. apply magnitude_le in Hl; try done.
    change (Z.shiftr 4503599627370496 21) with (2 ^ 31) in Hl. lia.
  - apply (not_gt m e 9007199250546688 22) in Hg. apply magnitude_le in Hg; try done.
    change (Z.shiftr 9007199250546688 22) with (2 ^ 31 - 1) in Hg. lia.
Qed.

Lemma cast_u32_ok x :
  double x -> f64_isfinite x = true -> f64_lt x f64_zero = false ->
  f64_gt x (f64_of_Z (2 ^ 32 - 1)) = false -> exists z, cast_to 0 (2 ^ 32 - 1) x = Ok z.
Proof.
  intros Hx Hf Hl Hg. destruct x as [z|z| |[] m e]; try done; [by exists 0|].
  pose proof (canonical_small _ _ _ Hx) as Hm. eexists. apply cast_ok; [reflexivity|].
  apply (not_gt m e 9007199252643840 21) in Hg. by apply magnitude_le in Hg.
Qed.

(** A level that passed the validation is representable. *)
Lemma validate_trigger_ok t x u :
  double x -> validate_trigger_level t x = Ok u -> exists l, set_trigger_level t x = Ok l.
Proof.
  intros Hx. unfold validate_trigger_level, set_trigger_level.
  destruct t; try (intros _; by eexists);
    repeat case_bool_decide; try done; rewrite ?andb_true_l, ?andb_false_l;
    (destruct (f64_isfinite x) eqn:Ef; [|done]);
    (destruct (f64_lt _ _) eqn:El; [done|]); (destruct (f64_gt _ _) eqn:Eg; [done|]); intros _.
  - destruct (cast_s32_ok x) as [z ->]; try done. by eexists.
  - destruct (cast_u32_ok x) as [z ->]; try done. by eexists.
Qed.

(** *** Preservation *)

Lemma publish_owner p q : FrameQueue.owner (FrameQueue.publish (Payload := ScopePayload) p q).1.1
  = FrameQueue.owner q.
Proof. unfold FrameQueue.publish. case_bool_decide; [done|]. by destruct (FrameQueue.in_flight q). Qed.

Lemma clear_owner o q : FrameQueue.owner (FrameQueue.clear (Payload := ScopePayload) o q)
  = FrameQueue.owner q.
Proof. unfold FrameQueue.clear. by destruct (negb _). Qed.

Lemma inv_frames q s :
  inv s -> FrameQueue.owner q = FrameQueue.owner (frames s) -> inv (set_frames q s).
Proof. intros [] Hq. split; cbn; congruence || done. Qed.

Lemma inv_published p s : inv s -> inv (publish p s).
Proof. intros H. apply inv_frames; [done|]. apply publish_owner. Qed.

Lemma inv_forget s : inv s -> inv (forget_delta s).
Proof.
  intros [(c & b & H) H2 H3 H4 H5]. split; cbn; try done. exists c, b. naive_solver.
Qed.

Lemma inv_restart s : inv s -> inv (restart_sequence s).
Proof. intros [(c & b & H) H2 H3 H4 H5]. split; cbn; try done. by exists c, b. Qed.

Lemma inv_delta st n k sq at_ s :
  inv s -> (forall c b, shm s = Some (c, b) -> 0 <= st < buf_len c) -> 0 <= n ->
  inv (set_delta true st n k sq at_ s).
Proof.
  intros [(c & b & Hm & H) H2 H3 H4 H5] Hst Hn. split; cbn; try done. exists c, b.
  specialize (Hst c b Hm). naive_solver.
Qed.

Lemma inv_heartbeat x s : inv s -> inv (set_heartbeat x s).
Proof. intros [(c & b & H) H2 H3 H4 H5]. split; cbn; try done. by exists c, b. Qed.

Lemma inv_halt mode s : inv s -> inv (set_run mode false s).
Proof. intros [(c & b & H) H2 H3 H4 H5]. split; cbn; try done. by exists c, b. Qed.

Lemma inv_control f s :
  (forall c, buf_len (f c) = buf_len c /\ (rt_ok (rt c) -> rt_ok (rt (f c)))
    /\ (forall cfg, control_ok cfg c -> control_ok cfg (f c))) ->
  inv s -> inv (with_control f s).
Proof.
  intros Hf [(c & b & Hm & H) H2 H3 H4 H5]. destruct (Hf c) as (Hb & Hr & Hc).
  split; cbn; try done. exists (f c), b. rewrite Hm, Hb. cbn. naive_solver.
Qed.

Lemma control_ok_rt r cfg c : control_ok cfg c -> control_ok cfg (set_rt r c).
Proof. by intros []. Qed.

Lemma inv_set_rt (f : Rt -> Rt) s :
  (forall r, rt_ok r -> rt_ok (f r)) -> inv s -> inv (with_control (fun c => set_rt (f (rt c)) c) s).
Proof.
  intros Hf. apply inv_control. intros c. split_and!; [done|apply Hf|].
  intros cfg. apply control_ok_rt.
Qed.

Lemma inv_set_state x s : inv s -> inv (with_control (set_state x) s).
Proof.
  apply (inv_set_rt (fun r => mkRt (watchdog r) (force_trig r) (start r) (curr r) (samples r) x)).
  by intros r.
Qed.

Lemma inv_reset s :
  inv s -> inv (with_control (fun c => set_force 0 (set_state LINUXCNC_SCOPE_RESET c)) s).
Proof.
  apply (inv_set_rt (fun r => mkRt (watchdog r) 0 (start r) (curr r) (samples r) LINUXCNC_SCOPE_RESET)).
  by intros r.
Qed.

Lemma inv_attached s :
  inv s -> exists c b, shm s = Some (c, b) /\ ensure_attached s = Ok (c, b).
Proof.
  intros [(c & b & Hm & H) H2 _ _ _]. exists c, b. unfold ensure_attached. rewrite Hm.
  by rewrite (proj2 (Z.leb_gt _ _)).
Qed.

Lemma inv_beat w now s :
  inv s -> in_i32 w -> inv (set_heartbeat now (with_control (set_watchdog (Z.min w 10)) s)).
Proof.
  intros Hi Hw. apply inv_heartbeat.
  apply (inv_set_rt (fun r => mkRt (Z.min w 10) (force_trig r) (start r) (curr r) (samples r)
    (state r))); [|done].
  intros r (H1 & H2 & H3). unfold rt_ok, in_i32 in *. cbn. lia.
Qed.

(** *** Polls *)

(** What a copy relies on. *)
Record copy_ready (s : State) (c : Control) (buffer : list cell) : Prop := mkReady {
  rd_shm : shm s = Some (c, buffer);
  rd_attached : ensure_attached s = Ok (c, buffer);
  rd_buf : 0 < buf_len c;
  rd_small : 2 * buf_len c + 16 < 2 ^ 31;
  rd_len : Z.of_nat (length buffer) = buf_len c;
  rd_rt : rt_ok (rt c);
  rd_sample : sample_len c = 16;
  rd_rec : rec_len c = buf_len c `quot` 16;
  rd_pos : 0 < rec_len c;
  rd_lens : length (data_len c) = 16%nat;
  rd_types : length (data_type c) = 16%nat;
  rd_delta : delta_initialized s = true -> 0 <= delta_start s < buf_len c /\ 0 <= delta_samples s;
}.

Lemma running_ready s : inv s -> running s = true -> exists c b, copy_ready s c b.
Proof.
  intros Hi Hr. destruct (inv_attached s Hi) as (c & b & Hm & Ha).
  destruct Hi as [(c' & b' & Hm' & H1 & H2 & H3 & H4 & H5 & H6) _ _ Hrc _].
  rewrite Hm in Hm'. simplify_eq. destruct (H5 (Hrc Hr)) as [E1 [E2 E2'] _ _ _ E3 E4 _ _ _].
  exists c', b'. by split.
Qed.

Lemma copy_capture_total h s c b live :
  copy_ready s c b ->
  (exists e, copy_capture_unlocked h s live = Err (ScopeControllerError e))
  \/ (0 < samples (rt c) <= rec_len c /\ 0 <= start (rt c) < buf_len c
     /\ copy_capture_unlocked h s live
        = Ok (mkCapture (ring_channels c b 0 (samples (rt c)) (data_len c) (data_type c) 0)
                (samples (rt c)) (if live then samples (rt c) - 1 else pre_trig c)
                (sample_period_ns_unlocked h c))).
Proof.
  intros [Hm Ha Hb Hs Hl Hr Hsl Hrl Hp Hdl Hdt _]. unfold copy_capture_unlocked. rewrite Ha. cbn.
  destruct (Z.leb_spec (samples (rt c)) 0) as [?|Hn]; [left; by eexists|].
  destruct (_ || _) eqn:Eb; [left; by eexists|]. right. bool_to_prop.
  split; [lia|]. split; [lia|]. by rewrite copy_channels_eq by (rewrite ?Hdl; lia).
Qed.

Lemma delta_plan_total h s c b now :
  copy_ready s c b -> 0 < samples (rt c) <= rec_len c -> 0 <= start (rt c) < buf_len c ->
  exists r n, delta_plan h s c now = Ok (r, n) /\ 0 <= n <= samples (rt c)
    /\ (r = true -> n = samples (rt c)).
Proof.
  intros [Hm Ha Hb Hs Hl Hr Hsl Hrl Hp Hdl Hdt Hd] Hn Hst. unfold delta_plan. rewrite Hsl.
  set (amb := delta_initialized s && _ && _).
  destruct (negb (delta_initialized s) || _ || _ || amb) eqn:Er; cbn.
  { clear Er. destruct (_ || (_ <=? _)); eexists _, _; (split; [reflexivity|]); (split; [lia|done]). }
  apply orb_false_iff in Er as [Er _]. bool_to_prop. destruct (Hd ltac:(done)) as [Hd1 Hd2].
  destruct (Z.ltb_spec (delta_samples s) (samples (rt c))) as [Hlt|Hge]; cbn.
  { destruct (_ || (_ <=? _)) eqn:Ec; eexists _, _; (split; [reflexivity|]); (split; [lia|done]). }
  destruct (Z.eqb_spec (start (rt c)) (delta_start s)) as [He|He]; cbn.
  { destruct (_ || (_ <=? _)) eqn:Ec; eexists _, _; (split; [reflexivity|]); (split; [lia|done]). }
  rewrite int_ok by (unfold in_i32; lia). cbn. rewrite int_ok by (unfold in_i32; lia). cbn.
  rewrite (Z.rem_mod_nonneg (_ + buf_len c)) by lia.
  pose proof (Z.mod_pos_bound (start (rt c) - delta_start s + buf_len c) (buf_len c) Hb) as Hmod.
  destruct (Z.eqb_spec (((start (rt c) - delta_start s + buf_len c) mod buf_len c) `rem` 16) 0)
    as [Hz|Hz]; cbn.
  - destruct (_ || (_ <=? _)) eqn:Ec; eexists _, _; (split; [reflexivity|]); [split; [lia|done]|].
    bool_to_prop. split; [|done]. split; [apply Z.quot_pos; lia|done].
  - destruct (_ || (_ <=? _)) eqn:Ec; eexists _, _; (split; [reflexivity|]); (split; [lia|done]).
Qed.

(** A delta refused, empty, or with the newest samples of the ring. *)
Lemma copy_delta_total h now s c b :
  copy_ready s c b ->
  (exists e, copy_delta_unlocked h now s = Err (ScopeControllerError e))
  \/ (samples (rt c) <= 0 /\ copy_delta_unlocked h now s = Ok (s, None))
  \/ (0 < samples (rt c) <= rec_len c /\ 0 <= start (rt c) < buf_len c
     /\ exists r n, delta_plan h s c now = Ok (r, n) /\ 0 <= n <= samples (rt c)
     /\ let sq := if r : bool then samples (rt c) else u64_wrap (delta_sequence s + n) in
        copy_delta_unlocked h now s =
        if n =? 0
        then Ok (set_delta true (start (rt c)) (samples (rt c)) 16 (delta_sequence s) now s, None)
        else Ok (set_delta true (start (rt c)) (samples (rt c)) 16 sq now s,
                 Some (mkDelta (ring_channels c b (samples (rt c) - n) n (data_len c) (data_type c) 0)
                         n (rec_len c) sq (sample_period_ns_unlocked h c) r))).
Proof.
  intros Hr. pose proof Hr as [Hm Ha Hb Hs Hl Hrt Hsl Hrl Hp Hdl Hdt Hd].
  unfold copy_delta_unlocked. rewrite Ha. cbn [mbind outcome_bind].
  destruct (Z.leb_spec (samples (rt c)) 0) as [?|Hn]; [right; by left|].
  destruct (_ || _) eqn:Eb; [left; by eexists|]. right; right. bool_to_prop.
  split; [lia|]. split; [lia|].
  destruct (delta_plan_total h s c b now Hr) as (r & n & Hpl & Hn1 & Hn2); [lia|lia|].
  exists r, n. rewrite Hpl. cbn [mbind outcome_bind]. split; [done|]. split; [done|].
  rewrite Hsl. cbn zeta. destruct (n =? 0); [done|].
  rewrite copy_channels_eq by (rewrite ?Hdl; lia). cbn. done.
Qed.

Lemma poll_frames_ok h now s :
  inv s ->
  match poll_frames h now s with Ok s' => inv s' | Err e => exists code, e = ScopeControllerError code end.
Proof.
  intros Hi. unfold poll_frames. destruct (inv_attached s Hi) as (c & b & Hm & ->). cbn.
  destruct (running s) eqn:Er; rewrite ?andb_false_r; cbn; [|done].
  destruct (running_ready s Hi Er) as (c' & b' & Hr).
  pose proof (rd_shm _ _ _ Hr) as Hm'. rewrite Hm in Hm'. simplify_eq. rewrite andb_true_r.
  case_bool_decide as Hmode; cbn.
  - destruct (copy_delta_total h now s c' b' Hr) as [[e ->]|[[_ ->]|(Hn & Hst & r & n & _ & _ & ->)]];
      cbn; [by eexists| |].
    + destruct (_ =? _); [by apply inv_set_state|done].
    + assert (Hd : forall sq, inv (set_delta true (start (rt c')) (samples (rt c')) 16 sq now s)).
      { intros sq. apply inv_delta; [done| |lia]. intros ? ? H. congruence. }
      destruct (n =? 0); cbn; destruct (state (rt c') =? LINUXCNC_SCOPE_DONE);
        auto using inv_set_state, inv_published.
  - destruct (state (rt c') =? LINUXCNC_SCOPE_DONE); [|done].
    destruct (copy_capture_total h s c' b' false Hr) as [[e ->]|(_ & _ & ->)]; cbn; [by eexists|].
    case_bool_decide; [apply inv_set_state|apply inv_halt]; by apply inv_published.
Qed.

Lemma raise_watchdog z : in_i32 z -> (z = int_max /\ int (z + 1) = Err Undefined)
  \/ (z <> int_max /\ in_i32 (z + 1) /\ int (z + 1) = Ok (z + 1)).
Proof.
  intros Hz. destruct (Z.eq_dec z int_max) as [->|Hne]; [by left|right].
  assert (Hin : in_i32 (z + 1)) by (unfold in_i32, int_max in *; lia).
  split; [done|]. split; [done|]. by apply int_ok.
Qed.

Lemma poll_once_ok h now s :
  inv s ->
  match poll_once h now s with
  | Ok s' => inv s' /\ ~ watchdog_overflows s (Poll now)
  | Err Undefined => watchdog_overflows s (Poll now)
  | Err (ScopeControllerError _) => ~ watchdog_overflows s (Poll now)
  end.
Proof.
  intros Hi. unfold poll_once. cbn [watchdog_overflows]. unfold beat_due.
  destruct (polling s); cbn; [|by split; [done|intros [? _]]].
  destruct (bool_decide (owner s = EmptyString)); cbn; [by split; [done|intros [? _]]|].
  destruct (inv_attached s Hi) as (c & b & Hm & ->). cbn.
  assert (Hw : rt_ok (rt c)).
  { destruct Hi as [(c' & b' & Hm' & _ & _ & _ & Hw & _) _ _ _ _]. rewrite Hm in Hm'. by simplify_eq. }
  assert (Hp : forall s, inv s ->
    match match poll_frames h now s with
          | Ok s => Ok s
          | Err (ScopeControllerError _) => Ok (forget_delta s)
          | Err Undefined => Err Undefined
          end with Ok s' => inv s' | Err _ => False end).
  { intros s' Hs'. pose proof (poll_frames_ok h now s' Hs') as H.
    destruct (poll_frames h now s') as [?|e]; [done|]. destruct H as [code ->].
    by apply inv_forget. }
  destruct (_ || _); cbn.
  - destruct (raise_watchdog _ (proj2 (proj2 Hw))) as [[Hz ->]|(Hz & Hin & ->)]; cbn.
    { split; [done|]. by exists c, b. }
    assert (Hno : ~ (true = true /\ exists c b, shm s = Some (c, b) /\ watchdog (rt c) = int_max)).
    { intros (_ & c' & b' & Hm' & ?). rewrite Hm in Hm'. by simplify_eq. }
    specialize (Hp _ (inv_beat _ now s Hi Hin)). by destruct (poll_frames h now _) as [?|[?|]].
  - assert (Hno : forall P, ~ (false = true /\ P)) by (by intros P [? _]).
    specialize (Hp _ Hi). destruct (poll_frames h now _) as [?|[?|]]; try done; by split; [|apply Hno].
Qed.

(** *** Configuration *)

Lemma source_length_cases t : source_length t = 0 \/ source_length t ∈ [1; 4; 8].
Proof. destruct t; cbn; set_solver. Qed.

Lemma resolve_channels_ok h cs sources :
  resolve_channels h cs = Ok sources ->
  length sources = length cs
  /\ forall i ch x, cs !! i = Some ch -> sources !! i = Some x ->
     if enabled ch then x.2 ∈ [1; 4; 8] else x.2 = 0.
Proof.
  revert sources. induction cs as [|ch cs IH]; intros sources; cbn.
  { intros [= <-]. split; [done|]. intros i ?. by rewrite lookup_nil. }
  destruct (enabled ch) eqn:Ee; cbn.
  - destruct (resolve_scope_source_unlocked h (source ch)) as [[d|] t]; [|done].
    destruct (Z.eqb_spec (source_length t) 0); [done|].
    destruct (resolve_channels h cs) as [rest|e]; [|done]. intros [= <-].
    destruct (IH rest eq_refl) as [Hl Hx]. split; [cbn; by rewrite Hl|].
    intros [|i] ch' x; cbn; [|by apply Hx]. intros [= <-] [= <-]. rewrite Ee. cbn.
    by destruct (source_length_cases t).
  - destruct (resolve_channels h cs) as [rest|e]; [|done]. intros [= <-].
    destruct (IH rest eq_refl) as [Hl Hx]. split; [cbn; by rewrite Hl|].
    intros [|i] ch' x; cbn; [|by apply Hx]. intros [= <-] [= <-]. by rewrite Ee.
Qed.

Lemma resolve_channels_no_undefined h cs e :
  resolve_channels h cs = Err e -> exists code, e = ScopeControllerError code.
Proof.
  induction cs as [|ch cs IH]; cbn; [done|]. destruct (enabled ch); cbn.
  - destruct (resolve_scope_source_unlocked h (source ch)) as [[d|] t];
      [|intros [= <-]; by eexists].
    destruct (_ =? 0); [intros [= <-]; by eexists|].
    destruct (resolve_channels h cs); [done|]. intros [= <-]. by apply IH.
  - destruct (resolve_channels h cs); [done|]. intros [= <-]. by apply IH.
Qed.

Lemma check_config_ok h cfg sources t :
  check_config h cfg sources = Ok t -> double (trigger_level cfg) ->
  1 <= multiplier cfg <= 1000
  /\ (0 < trigger_channel cfg -> exists ch,
       channels cfg !! Z.to_nat (trigger_channel cfg - 1) = Some ch /\ enabled ch = true)
  /\ exists l, set_trigger_level t (trigger_level cfg) = Ok l.
Proof.
  unfold check_config. intros H Hd. destruct (_ <=? 0); [done|].
  destruct (_ || _) eqn:Em; [done|]. destruct (_ && _) eqn:Et; [done|].
  destruct (validate_trigger_level _ _) eqn:Ev; [|done]. cbn in H. injection H as <-.
  bool_to_prop. split; [lia|]. split; [|by eapply validate_trigger_ok].
  intros Hc. rewrite (proj2 (Z.ltb_lt _ _) Hc) in Et. cbn in Et.
  destruct (channels cfg !! _) as [ch|]; [|done]. exists ch. split; [done|].
  by apply negb_false_iff in Et.
Qed.

Lemma check_config_no_undefined h cfg sources e :
  check_config h cfg sources = Err e -> exists code, e = ScopeControllerError code.
Proof.
  unfold check_config, validate_trigger_level, throw. intros H.
  repeat (case_match; cbn in H; simplify_eq/=; try by eexists).
Qed.

Lemma settle_ok a attached h s :
  inv s -> rt_ok (settled a) ->
  inv (settle a attached h s).1.1 /\ config (settle a attached h s).1.1 = config s
  /\ owner (settle a attached h s).1.1 = owner s.
Proof.
  intros Hi Ha. unfold settle. destruct (shm s) as [[c b]|] eqn:Em; [|done].
  destruct (_ =? _); [done|].
  assert (H : inv (with_control (set_rt (settled a)) s)).
  { by apply (inv_set_rt (fun _ => settled a)). }
  destruct (_ =? _); cbn; [done|]. split; [|done].
  apply (inv_set_rt (fun r => mkRt (watchdog r) 0 0 0 0 LINUXCNC_SCOPE_IDLE)); [|done].
  intros r (_ & _ & ?). unfold rt_ok, in_i32 in *. cbn. lia.
Qed.

Lemma write_control_ok cfg level sources c :
  0 < buf_len c `quot` 16 -> length (channels cfg) = kScopeChannelCount ->
  length sources = length (channels cfg) ->
  (forall i ch x, channels cfg !! i = Some ch -> sources !! i = Some x ->
     if enabled ch then x.2 ∈ [1; 4; 8] else x.2 = 0) ->
  1 <= multiplier cfg <= 1000 -> 0 <= trigger_channel cfg <= 16 ->
  (0 < trigger_channel cfg -> exists ch,
       channels cfg !! Z.to_nat (trigger_channel cfg - 1) = Some ch /\ enabled ch = true) ->
  control_ok cfg (write_control cfg level sources c).
Proof.
  intros Hb Hc Hl Hx Hm Ht Hs. assert (Hlen : length sources = 16%nat) by (by rewrite Hl, Hc).
  split; cbn; try done; rewrite ?length_fmap; try congruence; try lia.
  intros i ch len Hi Hd. apply list_lookup_fmap_Some in Hd as (x & -> & Hx'). by eapply Hx.
Qed.

Lemma ensure_owner_spec s o :
  ensure_owner s o = throw EPERM \/ (ensure_owner s o = Ok tt /\ o <> EmptyString /\ owner s = o).
Proof.
  unfold ensure_owner. destruct (_ || _) eqn:E; [by left|]. right. by bool_to_prop.
Qed.

Lemma configure_guard_ok o cfg h s sources t :
  configure_guard o cfg h s = Ok (sources, t) -> double (trigger_level cfg) ->
  (o <> EmptyString /\ owner s = o) /\ 0 <= trigger_channel cfg <= 16
  /\ length sources = length (channels cfg)
  /\ (forall i ch x, channels cfg !! i = Some ch -> sources !! i = Some x ->
       if enabled ch then x.2 ∈ [1; 4; 8] else x.2 = 0)
  /\ 1 <= multiplier cfg <= 1000
  /\ (0 < trigger_channel cfg -> exists ch,
       channels cfg !! Z.to_nat (trigger_channel cfg - 1) = Some ch /\ enabled ch = true)
  /\ exists l, set_trigger_level t (trigger_level cfg) = Ok l.
Proof.
  unfold configure_guard. intros H Hd. apply outcome_bind_ok in H as (m & _ & H).
  destruct (ensure_owner_spec s o) as [Eo|(Eo & Ho)]; rewrite Eo in H; [done|]. cbn in H.
  destruct (_ || _) eqn:En; [done|]. bool_to_prop.
  apply outcome_bind_ok in H as (sources' & Hs & H). apply outcome_bind_ok in H as (t' & Ht & [= -> ->]).
  destruct (resolve_channels_ok _ _ _ Hs). destruct (check_config_ok _ _ _ _ Ht Hd) as (? & ? & ?).
  destruct Ho. split_and!; done || lia.
Qed.

Lemma configure_guard_err o cfg h s e :
  configure_guard o cfg h s = Err e -> e <> Undefined.
Proof.
  unfold configure_guard, ensure_attached. intros H He. subst e.
  destruct (shm s) as [m|]; [|done]. destruct (_ <=? 0); [done|]. cbn in H.
  destruct (ensure_owner_spec s o) as [Eo|(Eo & Ho)]; rewrite Eo in H; [done|]. cbn in H.
  destruct (_ || _) eqn:En; [done|].
  destruct (resolve_channels h (channels cfg)) as [sources|e] eqn:Es; cbn in H.
  - destruct (check_config h cfg sources) as [t|e] eqn:Ec; [done|]. cbn in H. simplify_eq.
    by destruct (check_config_no_undefined _ _ _ _ Ec).
  - simplify_eq. by destruct (resolve_channels_no_undefined _ _ _ Es).
Qed.

Lemma configure_ok a o cfg h s :
  inv s -> op_ok s (Configure a o cfg) ->
  inv (configure a o cfg h s).1.1 /\ (configure a o cfg h s).2 <> Err Undefined.
Proof.
  intros Hi (Hch & Hd & Hr). unfold configure.
  destruct (configure_guard o cfg h s) as [[sources t]|e] eqn:Eg; last first.
  { split; [done|]. apply configure_guard_err in Eg. cbn. congruence. }
  apply configure_guard_ok in Eg as ([Ho Ho2] & Htc & Hl & Hx & Hmul & Htr & level & Hlev); [|done].
  pose proof (settle_ok a (find_scope_thread_unlocked h) h s Hi Hr) as (Hi' & _ & Ho').
  destruct (settle a _ h s) as [[s' h'] attached] eqn:Est. cbn in Hi', Ho'.
  destruct (link a cfg attached h') as [h'' [[]|e]] eqn:Elink.
  2: { split; [done|]. cbn. unfold link in Elink. repeat case_match; simplify_eq; discriminate. }
  destruct (inv_attached s' Hi') as (c' & b' & Hm' & _). rewrite Hm'.
  destruct (Z.leb_spec (buf_len c' `quot` 16) 0) as [Hz|Hz].
  - split; [|discriminate]. cbn. destruct Hi' as [(c2 & b2 & Hm2 & H1 & H2 & H3 & H4 & H5 & H6) E2 E3 E4 E5].
    rewrite Hm' in Hm2. simplify_eq. split; cbn; try done. eexists _, b2. rewrite Hm'. cbn.
    split; [reflexivity|]. split_and!; try done. cbn. intros Hconf. exfalso.
    destruct (co_record _ _ (H5 Hconf)) as [? ?]. lia.
  - rewrite Hlev. split; [|discriminate]. cbn.
    apply inv_frames; [|apply clear_owner]. apply inv_restart, inv_forget.
    destruct Hi' as [(c2 & b2 & Hm2 & H1 & H2 & H3 & H4 & H5 & H6) E2 E3 E4 E5].
    rewrite Hm' in Hm2. simplify_eq. split; cbn; try done.
    + eexists _, b2. rewrite Hm'. cbn. split; [reflexivity|]. split_and!; try done.
      intros _. apply write_control_ok; try done; lia.
    + intros _. congruence.
Qed.

(** *** The other operations *)

Lemma with_control_pre pre s :
  inv s ->
  (forall c b, shm s = Some (c, b) -> configured s = true -> 0 <= pre < rec_len c) ->
  inv (with_control (fun c => set_state LINUXCNC_SCOPE_INIT (set_pre_trig pre c)) s).
Proof.
  intros [(c & b & Hm & H1 & H2 & H3 & H4 & H5 & H6) E2 E3 E4 E5] Hpre. split; cbn; try done.
  eexists _, b. rewrite Hm. cbn. split; [reflexivity|]. split_and!; try done.
  intros Hc. destruct (H5 Hc). split; cbn; try done. by eapply Hpre.
Qed.

Lemma run_op_ok o mode s :
  inv s ->
  match run o mode s with Ok s' => inv s' | Err e => exists code, e = ScopeControllerError code end.
Proof.
  intros Hi. unfold run. destruct (inv_attached s Hi) as (c & b & Hm & ->). cbn.
  destruct (ensure_owner_spec s o) as [->|[-> _]]; cbn; [by eexists|].
  destruct (configured s) eqn:Ec; cbn; [|by eexists].
  destruct (_ && _); cbn; [by eexists|]. apply with_control_pre.
  - pose proof (inv_restart _ (inv_forget _ Hi)) as [? ? ? ? ?]. split; cbn in *; done.
  - cbn. intros c' b' Hm' _. rewrite Hm in Hm'. simplify_eq.
    destruct Hi as [(c2 & b2 & Hm2 & H1 & H2 & H3 & H4 & H5 & H6) _ _ _ _].
    rewrite Hm in Hm2. simplify_eq. destruct (co_record _ _ (H5 Ec)). destruct mode; lia.
Qed.

Lemma stop_ok o s :
  inv s ->
  match stop o s with Ok s' => inv s' | Err e => exists code, e = ScopeControllerError code end.
Proof.
  intros Hi. unfold stop. destruct (inv_attached s Hi) as (c & b & Hm & ->). cbn.
  destruct (ensure_owner_spec s o) as [->|[-> _]]; cbn; [by eexists|].
  apply inv_frames; [|apply clear_owner]. by apply inv_reset, inv_forget, inv_halt.
Qed.

Lemma trigger_ok o s :
  inv s ->
  match trigger o s with Ok s' => inv s' | Err e => exists code, e = ScopeControllerError code end.
Proof.
  intros Hi. unfold trigger. destruct (inv_attached s Hi) as (c & b & Hm & ->). cbn.
  destruct (ensure_owner_spec s o) as [->|[-> _]]; cbn; [by eexists|].
  apply (inv_set_rt (fun r => mkRt (watchdog r) 1 (start r) (curr r) (samples r) (state r)));
    [by intros r|done].
Qed.

Lemma acquire_ok o now s :
  inv s ->
  match acquire o now s with
  | Ok (s', _) => inv s'
  | Err e => exists code, e = ScopeControllerError code
  end.
Proof.
  intros Hi. unfold acquire. case_bool_decide as Eo; [done|].
  destruct (inv_attached s Hi) as (c & b & Hm & ->). cbn.
  unfold FrameQueue.acquire. rewrite bool_decide_false by done.
  destruct (_ && _) eqn:Eb; [done|]. cbn.
  destruct Hi as [H1 H2 H3 H4 H5]. split; cbn; done.
Qed.

Lemma release_ok o s : inv s -> inv (release o s).
Proof.
  intros Hi. unfold release. case_bool_decide as Eo; cbn; [|done].
  pose proof (inv_forget _ (inv_halt (run_mode s) _ (inv_reset _ Hi)))
    as [(c & b & Hm & H1 & H2 & H3 & H4 & H5 & H6) E2 E3 E4 E5].
  split; cbn in *; try done.
  - exists c, b. by split_and!.
  - unfold FrameQueue.release. by rewrite E3, (bool_decide_true _ Eo).
Qed.

Lemma controller_step_ok s h op :
  inv s -> op_ok s op ->
  inv (step s h op).1.1 /\ ((step s h op).2 = Err Undefined <-> watchdog_overflows s op).
Proof.
  intros Hi Hop.
  assert (Hnever : forall P : Prop, ~ P -> ~ watchdog_overflows s op -> (P <-> watchdog_overflows s op))
    by (intros; tauto).
  assert (Hkeep : forall m, ~ watchdog_overflows s op ->
    match m with Ok s' => inv s' | Err e => exists code, e = ScopeControllerError code end ->
    inv (keep s h m).1.1 /\ ((keep s h m).2 = Err Undefined <-> watchdog_overflows s op)).
  { intros [s'|e] Hn; cbn; [by intros ?; split; [|apply Hnever]|].
    intros [code ->]. split; [done|by apply Hnever]. }
  destruct op as [r cells|h'|o now|o|a o cfg|o mode|o|o|now|b|o|o g|o]; cbn [step].
  - split; [|done]. destruct Hop as [Hr Hl].
    destruct Hi as [(c & b & Hm & H1 & H2 & H3 & H4 & H5 & H6) E2 E3 E4 E5].
    split; cbn; try done. rewrite Hm in *. cbn. eexists _, cells. split; [reflexivity|].
    split_and!; try done; [by rewrite Hl|]. intros Hc. by apply control_ok_rt, H5.
  - done.
  - apply Hkeep; [by intros ?|]. pose proof (acquire_ok o now s Hi) as H. by destruct (acquire o now s) as [[? ?]|].
  - split; [by apply release_ok|done].
  - destruct (configure_ok a o cfg h s Hi Hop). split; [done|]. apply Hnever; [done|by intros ?].
  - apply Hkeep; [by intros ?|apply run_op_ok, Hi].
  - apply Hkeep; [by intros ?|apply stop_ok, Hi].
  - apply Hkeep; [by intros ?|apply trigger_ok, Hi].
  - pose proof (poll_once_ok h now s Hi) as H. destruct (poll_once h now s) as [s'|[code|]]; cbn.
    + destruct H. split; [done|]. by apply Hnever.
    + split; [done|]. by apply Hnever.
    + done.
  - split; [by apply inv_frames|done].
  - split; [|done]. unfold next_frame, FrameQueue.next.
    destruct (FrameQueue.in_flight (frames s)); [destruct (_ || _)|]; by apply inv_frames.
  - split; [|done]. unfold acknowledge, FrameQueue.acknowledge.
    destruct (FrameQueue.in_flight (frames s)); [|by apply inv_frames].
    destruct (_ || _); [by apply inv_frames|].
    destruct (FrameQueue.pending (frames s)); by apply inv_frames.
  - split; [|done]. apply inv_frames; [done|apply clear_owner].
Qed.

Lemma controller_runs_ok ops s h :
  inv s -> ops_ok s h ops ->
  inv (runs s h ops).1 /\ (Forall (fun r => r <> Err Undefined) (runs s h ops).2 <-> overflow_free s h ops).
Proof.
  revert s h. induction ops as [|op ops IH]; intros s h Hi Hops; [done|]. cbn in *.
  destruct Hops as [Hop Hops]. destruct (controller_step_ok s h op Hi Hop) as [Hi' Hr].
  destruct (step s h op) as [[s' h'] r]. cbn in *. destruct (IH s' h' Hi' Hops) as [H1 H2].
  destruct (runs s' h' ops) as [s'' rs]. cbn in *. split; [done|]. rewrite Forall_cons. tauto.
Qed.

(** *** A watchdog the realtime side leaves alone *)


(** The memory a platform maps has the advertised size and an [int] can address
    two rings of it. *)
Definition platform_ok (p : Platform) : Prop :=
  match shmem_getptr p with
  | (_, Some (_, c, buffer)) =>
      Z.of_nat (length buffer) = buf_len c /\ 2 * buf_len c + 16 < 2 ^ 31 /\ rt_ok (rt c)
  | _ => True
  end.

Lemma make_ok n poll heartbeat requested p h h' s :
  platform_ok p -> make n poll heartbeat requested p h = (h', Ok s) -> inv s.
Proof.
  unfold platform_ok, make. intros Hp H.
  repeat match type of H with (if ?b then _ else _) = _ => destruct b eqn:?; [done|] end.
  cbn zeta in H.
  repeat match type of H with (if ?b then _ else _) = _ => destruct b eqn:?; [done|] end.
  destruct (shmem_getptr p) as [result [[[size c] buffer]|]]; [|done].
  repeat match type of H with (if ?b then _ else _) = _ => destruct b eqn:?; [done|] end.
  injection H as <- <-. bool_to_prop. split; cbn; try done.
  eexists _, buffer. split; [reflexivity|]. destruct Hp as (? & ? & ?).
  destruct (_ && _); cbn; by split_and!.
Qed.













(** C36: The control record shared with the realtime side stays consistent: in
    every reachable state the frame queue has the owner of the controller, a
    running scope is configured and owned, and a configured scope has in the
    shared record sixteen cells per sample, the largest record the buffer holds,
    a pre-trigger inside it, a multiplier in range, data lengths exactly for the
    enabled channels, and an enabled trigger channel. *)
Theorem scope_control_valid n poll heartbeat requested p h h' s ops :
  platform_ok p -> make n poll heartbeat requested p h = (h', Ok s) -> ops_ok s h' ops ->
  let s' := (runs s h' ops).1 in
  FrameQueue.owner (frames s') = owner s'
  /\ (running s' = true -> configured s' = true)
  /\ (configured s' = true -> owner s' <> EmptyString
       /\ exists c b, shm s' = Some (c, b) /\ control_ok (config s') c).
Proof.
  intros Hp Hm Ho. apply make_ok in Hm; [|done].
  destruct (controller_runs_ok ops s h' Hm Ho) as [[(c & b & Hs & _ & _ & _ & _ & Hc & _) H2 H3 H4 H5] _].
  cbn zeta. split_and!; [done|done|]. intros Hconf. split; [by apply H5|]. exists c, b.
  split; [done|]. by apply Hc.
Qed.

(** ** Rolling deltas *)

Section Roll.
(** What the realtime side does in roll mode: sample [i] has the cells
    [hist i 0], [hist i 1], …; the ring keeps the newest [lim] of them. *)
Variable hist : Z -> Z -> cell.
Variable lim : Z.

Record ring (T : Z) (c : Control) (buffer : list cell) : Prop := mkRing {
  ring_samples : samples (rt c) = Z.min T lim;
  ring_start : start (rt c) = (16 * (T - Z.min T lim)) mod buf_len c;
  ring_cells : forall i k, T - Z.min T lim <= i < T -> 0 <= k < 16 ->
    buffer !! Z.to_nat ((16 * i + k) mod buf_len c) = Some (hist i k);
}.

(** The snapshot the controller keeps of the ring after [T] samples. *)
Record snapshot (T : Z) (len : Z) (s : State) : Prop := mkSnapshot {
  sn_init : delta_initialized s = true;
  sn_samples : delta_samples s = Z.min T lim;
  sn_start : delta_start s = (16 * (T - Z.min T lim)) mod len;
  sn_len : delta_sample_len s = 16;
}.

Definition history (k : Z) (t : hal_type_t) (i : Z) : f64 := sample_value (hist i k) t.

Lemma ring_value_hist T c b k t j :
  ring T c b -> 0 < buf_len c -> 0 <= j < Z.min T lim -> 0 <= k < 16 ->
  ring_value c b k t j = history k t (T - Z.min T lim + j).
Proof.
  intros [H1 H2 H3] Hb Hj Hk. unfold ring_value, history.
  assert ((start (rt c) + 16 * j + k) mod buf_len c
    = (16 * (T - Z.min T lim + j) + k) mod buf_len c) as ->.
  { rewrite H2, <- Z.add_assoc, Z.add_mod_idemp_l by lia. f_equal. lia. }
  rewrite H3 by lia. done.
Qed.

Lemma ring_channels_hist T c b n lens types :
  ring T c b -> 0 < buf_len c -> 0 <= n <= Z.min T lim -> Z.of_nat (length lens) <= 16 ->
  ring_channels c b (Z.min T lim - n) n lens types 0 = channels_of history (T - n) n lens types 0.
Proof.
  intros Hr Hb Hn Hl. apply channels_of_ext; [|lia|lia]. intros k t i Hk Hi.
  rewrite (ring_value_hist T) by (done || lia). f_equal. lia.
Qed.


(** The guards of [delta_plan] for a ring that follows a snapshot. *)
Record following (T0 T : Z) (h : Hal) (now : Z) (s : State) (c : Control) (b : list cell) : Prop :=
  mkFollowing {
  fo_ready : copy_ready s c b;
  fo_ring : ring T c b;
  fo_snapshot : snapshot T0 (buf_len c) s;
  fo_exact : buf_len c = 16 * rec_len c;
  fo_lim : 0 < lim <= rec_len c;
  fo_time : 0 < T0 <= T;
  fo_period : 0 < sample_period_ns_unlocked h c < 2 ^ 32;
  fo_rate : (T - T0) * sample_period_ns_unlocked h c <= now - delta_snapshot_at s;
}.

Section Following.
Context {T0 T : Z} {h : Hal} {now : Z} {s : State} {c : Control} {b : list cell}.
Hypothesis HF : following T0 T h now s c b.
Let period := sample_period_ns_unlocked h c.
Let elapsed := now - delta_snapshot_at s.

Lemma capacity_product : i64_wrap (rec_len c * period) = rec_len c * period.
Proof.
  destruct HF as [Hr _ _ He _ _ Hp _]. destruct Hr. apply i64_wrap_small. unfold in_i64, period.
  assert (rec_len c < 2 ^ 27) by lia. nia.
Qed.


Lemma plan_steady :
  elapsed < rec_len c * period ->
  delta_plan h s c now =
  (count ← (if Z.min T0 lim <? Z.min T lim then Ok (false, Z.min T lim - Z.min T0 lim)
            else if negb (start (rt c) =? delta_start s) then
              d ← int (start (rt c) - delta_start s);
              sum ← int (d + buf_len c);
              let cells := sum `rem` buf_len c in
              if negb (cells `rem` 16 =? 0) then Ok (true, 0) else Ok (false, cells `quot` 16)
            else Ok (false, 0));
   let '(reset, count) := count in
   let count := if reset : bool then Z.min T lim else count in
   Ok (if (Z.min T lim <? count) || (rec_len c <=? count) then (true, Z.min T lim)
       else (reset, count))).
Proof.
  intros He. pose proof capacity_product as Hcp. unfold period, elapsed in *.
  destruct HF as [Hr Hring Hsn Hex Hl Ht Hp Hrate]. unfold delta_plan.
  rewrite Hcp, (proj2 (Z.leb_gt _ _) He), (sn_init _ _ _ Hsn), (rd_sample _ _ _ Hr), (sn_len _ _ _ Hsn).
  rewrite (ring_samples _ _ _ Hring), (sn_samples _ _ _ Hsn).
  rewrite (proj2 (Z.ltb_ge (Z.min T lim) _)) by lia. rewrite andb_false_r. cbn. done.
Qed.

(** While the ring fills. *)
Lemma plan_filling :
  elapsed < rec_len c * period -> T0 < lim -> T <> T0 ->
  delta_plan h s c now = Ok (false, Z.min T lim - T0).
Proof.
  intros He HT Hne. rewrite (plan_steady He). destruct HF as [Hr Hring Hsn Hex Hl Ht Hp Hrate].
  rewrite (proj2 (Z.ltb_lt (Z.min T0 lim) _)) by lia. cbn.
  rewrite (Z.min_l T0 lim) by lia.
  rewrite (proj2 (Z.ltb_ge _ _)), (proj2 (Z.leb_gt _ _)) by lia. done.
Qed.



End Following.

(** A delta with the newest [n] samples. *)
Lemma copy_delta_following T0 T h now s c b r n :
  following T0 T h now s c b -> delta_plan h s c now = Ok (r, n) -> 0 <= n <= Z.min T lim ->
  exists s' d, copy_delta_unlocked h now s = Ok (s', d) /\ snapshot T (buf_len c) s'
  /\ if n =? 0 then d = None
     else exists sq, d = Some (mkDelta (channels_of history (T - n) n (data_len c) (data_type c) 0)
                      n (rec_len c) sq (sample_period_ns_unlocked h c) r)
          /\ (r = false -> sq = u64_wrap (delta_sequence s + n)).
Proof.
  intros [Hr Hring Hsn Hex Hl Ht Hp Hrate] Hpl Hn. pose proof (rd_buf _ _ _ Hr).
  pose proof (ring_samples _ _ _ Hring) as Hs. pose proof (ring_start _ _ _ Hring) as Hst.
  assert (Hsn' : forall sq, snapshot T (buf_len c)
    (set_delta true (start (rt c)) (samples (rt c)) 16 sq now s)).
  { intros sq. by split; cbn. }
  destruct (copy_delta_total h now s c b Hr) as [[e He]|[[Hz _]|(Hs1 & Hs2 & r' & n' & Hpl' & _ & He)]].
  - exfalso. revert He. unfold copy_delta_unlocked. rewrite (rd_attached _ _ _ Hr). cbn [mbind outcome_bind].
    rewrite (proj2 (Z.leb_gt (samples (rt c)) _)) by lia. rewrite (rd_sample _ _ _ Hr). cbn.
    pose proof (Z.mod_pos_bound (16 * (T - Z.min T lim)) (buf_len c) ltac:(lia)).
    rewrite (proj2 (Z.leb_gt (rec_len c) _)), (proj2 (Z.ltb_ge (rec_len c) _)),
      (proj2 (Z.ltb_ge (start (rt c)) _)), (proj2 (Z.leb_gt (buf_len c) _)) by lia. cbn.
    rewrite Hpl. cbn. destruct (n =? 0); [done|].
    destruct Hr. by rewrite copy_channels_eq by (rewrite ?rd_lens0; lia).
  - lia.
  - rewrite Hpl in Hpl'. simplify_eq. rewrite He. cbn zeta. destruct (n' =? 0).
    + eexists _, None. split; [reflexivity|]. by split.
    + eexists _, (Some _). split; [reflexivity|]. split; [done|].
      exists (if r' then samples (rt c) else u64_wrap (delta_sequence s + n')).
      split; [|by intros ->]. rewrite Hs. rewrite (ring_channels_hist T) by (rewrite ?(rd_lens _ _ _ Hr); done || lia). done.
Qed.



(** When the ring fills up between two polls the delta is short: it holds the
    newest [lim - T0] samples as if they followed the previous ones (no reset,
    and a sequence number that grows by as many), so the [T - lim] samples after
    the previous delta reach nobody and nothing tells the client. *)
Theorem roll_wrap_loses_samples T0 T h now s c b :
  following T0 T h now s c b -> T0 < lim < T ->
  now - delta_snapshot_at s < rec_len c * sample_period_ns_unlocked h c ->
  exists s' d, copy_delta_unlocked h now s = Ok (s', Some d) /\ snapshot T (buf_len c) s'
  /\ reset d = false /\ delta_count d = lim - T0
  /\ sequence d = u64_wrap (delta_sequence s + (lim - T0))
  /\ delta_channels d
     = channels_of history (T0 + (T - lim)) (lim - T0) (data_len c) (data_type c) 0.
Proof.
  intros HF Hs Hin. pose proof HF as [Hr Hring Hsn Hex Hl Ht Hp Hrate].
  destruct (copy_delta_following _ _ _ _ _ _ _ _ _ HF (plan_filling HF Hin ltac:(lia) ltac:(lia)))
    as (s' & d & He & Hs' & Hd); [lia|]. rewrite (Z.min_r T lim) in Hd by lia.
  rewrite (proj2 (Z.eqb_neq _ _)) in Hd by lia. destruct Hd as (sq & -> & Hsq).
  exists s', (mkDelta (channels_of history (T - (lim - T0)) (lim - T0) (data_len c) (data_type c) 0)
    (lim - T0) (rec_len c) sq (sample_period_ns_unlocked h c) false).
  split; [done|]. split; [done|]. cbn. split; [done|]. split; [done|]. split; [auto|].
  f_equal. lia.
Qed.

End Roll.

(** ** Captures *)

(** Whether a poll finds a finished capture to publish. *)
Definition capture_due (s : State) (c : Control) : bool :=
  running s && negb (bool_decide (run_mode s = Roll)) && (state (rt c) =? LINUXCNC_SCOPE_DONE)
  && (0 <? samples (rt c)) && (samples (rt c) <=? rec_len c) && (0 <=? start (rt c))
  && (start (rt c) <? buf_len c).

(** The capture of the ring. *)
Definition ring_capture (h : Hal) (c : Control) (b : list cell) : ScopeCapture :=
  mkCapture (ring_channels c b 0 (samples (rt c)) (data_len c) (data_type c) 0) (samples (rt c))
    (pre_trig c) (sample_period_ns_unlocked h c).

(** What a poll does about it. *)
Definition capture_outcome (h : Hal) (s : State) (c : Control) (b : list cell) (s' : State) : Prop :=
  if capture_due s c
  then frames s' = (FrameQueue.publish (CaptureFrame (ring_capture h c b)) (frames s)).1.1
       /\ (run_mode s = Single -> running s' = false)
       /\ (run_mode s = Run -> running s' = true
            /\ exists c', shm s' = Some (c', b) /\ state (rt c') = LINUXCNC_SCOPE_INIT)
  else frames s' = frames s /\ running s' = running s.

Lemma poll_frames_capture h now s c b :
  inv s -> shm s = Some (c, b) -> run_mode s <> Roll ->
  exists s', capture_outcome h s c b s'
  /\ (poll_frames h now s = Ok s'
      \/ s' = forget_delta s /\ exists e, poll_frames h now s = Err (ScopeControllerError e)).
Proof.
  intros Hi Hm Hmode. unfold poll_frames, capture_outcome, capture_due.
  destruct (inv_attached s Hi) as (c' & b' & Hm' & Ha). rewrite Hm in Hm'. injection Hm' as <- <-.
  rewrite Ha. cbn [mbind outcome_bind]. rewrite !bool_decide_false by done. cbn [andb negb].
  destruct (running s) eqn:Er; [|exists s; split; [done|by left]]. cbn [andb].
  destruct (state (rt c) =? LINUXCNC_SCOPE_DONE); cbn [andb]; [|exists s; split; [done|by left]].
  destruct (running_ready s Hi Er) as (c' & b' & Hr).
  pose proof (rd_shm _ _ _ Hr) as Hm'. rewrite Hm in Hm'. injection Hm' as <- <-.
  destruct (copy_capture_total h s c b false Hr) as [[e Hc]|(Hn & Hst & Hc)].
  - rewrite Hc. cbn [mbind outcome_bind]. destruct (_ && _) eqn:Eb; [|exists (forget_delta s); split; [done|right; eauto]].
    exfalso. bool_to_prop. revert Hc. unfold copy_capture_unlocked. rewrite Ha. cbn.
    destruct Hr as [_ _ Hb Hsm Hl _ Hsl Hrl Hp Hdl Hdt _].
    rewrite (proj2 (Z.leb_gt (samples (rt c)) _)), Hsl, (proj2 (Z.ltb_ge (rec_len c) _)),
      (proj2 (Z.ltb_ge (start (rt c)) _)), (proj2 (Z.leb_gt (buf_len c) _)),
      (proj2 (Z.leb_gt (rec_len c) _)) by lia.
    assert (rec_len c <= buf_len c).
    { rewrite Hrl, Z.quot_div_nonneg by lia. apply Z.div_le_upper_bound; lia. }
    rewrite (proj2 (Z.ltb_ge (buf_len c) _)) by lia. cbn.
    by rewrite copy_channels_eq by (rewrite ?Hdl; lia).
  - rewrite (proj2 (Z.ltb_lt 0 _)), (proj2 (Z.leb_le (samples (rt c)) _)),
      (proj2 (Z.leb_le 0 _)), (proj2 (Z.ltb_lt (start (rt c)) _)) by lia. cbn [andb].
    rewrite Hc. cbn [mbind outcome_bind]. eexists. split; [|left; reflexivity]. cbn.
    destruct (run_mode s) eqn:Emode; try done; repeat case_bool_decide; try done; cbn;
      (split_and!; try done); intros _; (split; [done|]); rewrite Hm; by eexists.
Qed.

(** Captures are complete and each is published once: a poll in run or single
    mode publishes a frame exactly when the realtime side reports a finished
    capture with plausible bounds; the frame holds for every enabled channel all
    samples of the ring, oldest first, with the configured trigger position; a
    single capture ends the acquisition, so that no later poll publishes it
    again, and a repeated one re-arms the realtime side. *)
Theorem scope_capture_exact h now s c b :
  inv s -> shm s = Some (c, b) -> run_mode s <> Roll -> polling s = true ->
  owner s <> EmptyString -> watchdog (rt c) <> int_max ->
  exists s', poll_once h now s = Ok s' /\ capture_outcome h s c b s'.
Proof.
  intros Hi Hm Hmode Hp Ho Hmax. unfold poll_once. rewrite Hp, bool_decide_false by done. cbn.
  destruct (inv_attached s Hi) as (c' & b' & Hm' & ->). rewrite Hm in Hm'. injection Hm' as <- <-. cbn.
  assert (Hrt : rt_ok (rt c)).
  { destruct Hi as [(c' & b' & Hm' & _ & _ & _ & Hw & _) _ _ _ _]. rewrite Hm in Hm'. by simplify_eq. }
  assert (Hgo : forall s1 c1, inv s1 -> shm s1 = Some (c1, b) -> run_mode s1 = run_mode s ->
    (forall s', capture_outcome h s1 c1 b s' -> capture_outcome h s c b s') ->
    exists s', match poll_frames h now s1 with
               | Ok s => Ok s
               | Err (ScopeControllerError _) => Ok (forget_delta s1)
               | Err Undefined => Err Undefined
               end = Ok s' /\ capture_outcome h s c b s').
  { intros s1 c1 Hi1 Hm1 Hmo Hout.
    destruct (poll_frames_capture h now s1 c1 b Hi1 Hm1 ltac:(congruence))
      as (s' & H & [->|[-> [e ->]]]); eauto. }
  destruct (_ || _); cbn; [|by apply (Hgo s c)].
  destruct (raise_watchdog _ (proj2 (proj2 Hrt))) as [[? _]|(_ & Hin & ->)]; [done|]. cbn.
  apply (Hgo _ (set_watchdog (Z.min (watchdog (rt c) + 1) 10) c)); try done.
  - by apply inv_beat.
  - cbn. by rewrite Hm.
Qed.

End Construct.

(** ** A small scope *)

(** A buffer of two samples, one bit channel on a servo thread. *)
Definition sample_hal : Hal :=
  mkHal [] ∅ {["p" := mkPin HAL_BIT None 64]} ∅ [scope_sample] [mkThread "servo" 1000000 []].

Definition sample_control : Control :=
  mkControl 32 EmptyString 0 0 0 0 0 (d_real f64_zero) 0 0 (replicate 16 0)
    (replicate 16 HAL_TYPE_UNSPECIFIED) (replicate 16 0) (mkRt 0 0 0 0 0 LINUXCNC_SCOPE_IDLE).

Definition sample_platform : Platform :=
  mkPlatform (fun _ => false) 7 0 3 (0, Some (1000, sample_control, replicate 32 1)) 0
    (mkRt 0 0 0 0 0 LINUXCNC_SCOPE_IDLE) 0.

Definition sample_config : ScopeConfig :=
  mkConfig "servo" 1 1 1 f64_one true false
    (mkChannel true (mkSource Pin "p") :: replicate 15 disabled_channel).

Definition sample_answers : Answers := mkAnswers (mkRt 0 0 0 0 0 LINUXCNC_SCOPE_IDLE) 0 0 0.

Definition sample_made : Hal * outcome Error State :=
  make 47 400 "linuxcnc-grpc-scope" 20 100 32000 sample_platform sample_hal.

Definition sample_state : State :=
  match sample_made.2 with Ok s => s | Err _ => blank 0 0 end.

Definition sample_ops : list Op :=
  [Acquire "o" 5; Configure sample_answers "o" sample_config; RunOp "o" Single;
   RtWrites (mkRt 3 0 16 0 2 LINUXCNC_SCOPE_DONE) (replicate 32 1); Poll 25;
   RtWrites (mkRt 3 0 (-1) 0 5 9) (replicate 32 0); Poll 45; Configure sample_answers "x" sample_config].

(** Two polls in roll mode with [T0] and [T] samples of a ring that keeps three. *)
Definition sample_roll (T : Z) : Control :=
  mkControl 48 "servo" 1 3 16 2 0 (d_real f64_zero) 0 0 (replicate 16 64)
    (HAL_BIT :: replicate 15 HAL_TYPE_UNSPECIFIED) (1 :: replicate 15 0)
    (mkRt 0 0 ((16 * (T - Z.min T 3)) mod 48) 0 (Z.min T 3) LINUXCNC_SCOPE_TRIG_WAIT).

Definition sample_rolling (T0 T : Z) : State :=
  mkState 7 3 (Some (sample_roll T, replicate 48 1)) 100 true "o" Roll true true sample_config
    FrameQueue.make true ((16 * (T0 - Z.min T0 3)) mod 48) (Z.min T0 3) 16 (Z.min T0 3) 0 0.

Lemma sample_following (T0 T now : Z) :
  0 < T0 <= T -> (T - T0) * 1000000 <= now ->
  following (fun _ _ => 1) 3 T0 T sample_hal now (sample_rolling T0 T) (sample_roll T) (replicate 48 1).
Proof.
  intros HT Hn. split; [|..]; try done.
  - assert (0 <= (16 * (T0 - Z.min T0 3)) mod 48 < 48) by (apply Z.mod_pos_bound; lia).
    assert (0 <= (16 * (T - Z.min T 3)) mod 48 < 48) by (apply Z.mod_pos_bound; lia).
    split; cbn; try done; unfold rt_ok, in_i32; cbn; lia.
  - split; try done. intros i k _ _. cbn [sample_roll buf_len].
    apply lookup_replicate_2. pose proof (Z.mod_pos_bound (16 * i + k) 48). lia.
  - change (sample_period_ns_unlocked sample_hal (sample_roll T)) with 1000000. cbn. lia.
Qed.

Lemma sample_ops_ok : ops_ok 47 sample_state sample_made.1 sample_ops.
Proof. vm_compute. repeat split; discriminate. Qed.





Lemma scope_control_valid_witness :
  exists c b, shm (runs 47 sample_state sample_made.1 sample_ops).1 = Some (c, b)
  /\ control_ok sample_config c /\ rec_len c = 2.
Proof.
  destruct (scope_control_valid 47 400 "linuxcnc-grpc-scope" 20 100 32000 sample_platform sample_hal
    sample_made.1 sample_state sample_ops) as (_ & _ & H).
  - vm_compute. repeat split; discriminate.
  - vm_compute. reflexivity.
  - exact sample_ops_ok.
  - destruct H as (_ & c & b & Hs & Hc); [vm_compute; reflexivity|]. exists c, b.
    split; [exact Hs|]. split; [exact Hc|]. vm_compute in Hs. injection Hs as <- _. reflexivity.
Defined.


Lemma roll_wrap_loses_samples_witness :
  exists s' d, copy_delta_unlocked sample_hal 2500000 (sample_rolling 2 4) = Ok (s', Some d)
  /\ reset d = false /\ delta_count d = 1 /\ sequence d = 3.
Proof.
  destruct (roll_wrap_loses_samples (fun _ _ => 1) 3 2 4 sample_hal 2500000 (sample_rolling 2 4)
    (sample_roll 4) (replicate 48 1)) as (s' & d & He & _ & Hr & Hc & Hs & _).
  - apply sample_following; lia.
  - lia.
  - change (sample_period_ns_unlocked sample_hal (sample_roll 4)) with 1000000. cbn. lia.
  - exists s', d. split; [exact He|]. split; [exact Hr|]. split; [exact Hc|exact Hs].
Defined.

(** A finished single capture. *)
Definition sample_done : State := (runs 47 sample_state sample_made.1 (take 4 sample_ops)).1.
Definition sample_done_shm : Control * list cell := default (sample_control, []) (shm sample_done).

Lemma sample_done_inv : inv sample_done.
Proof.
  apply (controller_runs_ok 47 (take 4 sample_ops) sample_state sample_made.1).
  - apply (make_ok 47 400 "linuxcnc-grpc-scope" 20 100 32000 sample_platform sample_hal sample_made.1);
      vm_compute; [repeat split; discriminate|reflexivity].
  - vm_compute. repeat split; discriminate.
Qed.

Lemma scope_capture_exact_witness :
  exists s', poll_once sample_hal 25 sample_done = Ok s' /\ running s' = false.
Proof.
  destruct (scope_capture_exact sample_hal 25 sample_done sample_done_shm.1 sample_done_shm.2
    sample_done_inv) as (s' & He & Hc).
  - vm_compute. reflexivity.
  - vm_compute. discriminate.
  - vm_compute. reflexivity.
  - vm_compute. discriminate.
  - vm_compute. discriminate.
  - exists s'. split; [exact He|]. unfold capture_outcome in Hc.
    replace (capture_due sample_done sample_done_shm.1) with true in Hc by (vm_compute; reflexivity).
    destruct Hc as (_ & Hc & _). apply Hc. vm_compute. reflexivity.
Defined.

End Controller.

(** * The gRPC service *)
Module Service.
Import Controller.

Definition kScopeOwner : string := "grpc-control-plane".

(** The messages of the service: a channel of [ScopeAcquisitionConfig] with the
    kind of its item as the enum's number, and the configuration. *)
Record Channel := mkWireChannel {
  ch_index : Z;
  ch_enabled : bool;
  item_kind : Z;
  item_name : string;
}.

Record ScopeAcquisitionConfig := mkWire {
  w_thread_name : string;
  w_multiplier : Z;
  w_pre_trigger : Z;
  w_trigger_channel : Z;
  w_trigger_level : f64;
  w_rising : bool;
  w_automatic : bool;
  w_channels : list Channel;
}.

(** [HalItemKind]. *)
Definition decode_kind (k : Z) : option ScopeSourceKind :=
  if k =? 1 then Some Pin
  else if k =? 2 then Some Param
  else if k =? 3 then Some Signal
  else None.

(** One turn of the loop over the channels; [done]: the [assigned] array. *)
Definition decode_channel (done : list bool) (cs : list ScopeChannelConfig) (ch : Channel) :
    outcome Error (list bool * list ScopeChannelConfig) :=
  let i := Z.to_nat (ch_index ch) in
  if (16 <=? ch_index ch) || default true (done !! i) then throw EINVAL
  else
    let done := <[i := true]> done in
    let old := default disabled_channel (cs !! i) in
    if negb (ch_enabled ch) then Ok (done, <[i := mkChannel false (source old)]> cs)
    else if bool_decide (item_name ch = EmptyString) then throw EINVAL
    else
      match decode_kind (item_kind ch) with
      | Some k => Ok (done, <[i := mkChannel true (mkSource k (item_name ch))]> cs)
      | None => throw EINVAL
      end.

Fixpoint decode_channels (done : list bool) (cs : list ScopeChannelConfig) (l : list Channel) :
    outcome Error (list ScopeChannelConfig) :=
  match l with
  | [] => Ok cs
  | ch :: l => r ← decode_channel done cs ch; decode_channels r.1 r.2 l
  end.

Definition decode_config (w : ScopeAcquisitionConfig) : outcome Error ScopeConfig :=
  cs ← decode_channels (replicate kScopeChannelCount false)
         (replicate kScopeChannelCount disabled_channel) (w_channels w);
  Ok (mkConfig (w_thread_name w) (i32_wrap (w_multiplier w)) (i32_wrap (w_pre_trigger w))
        (i32_wrap (w_trigger_channel w)) (w_trigger_level w) (w_rising w) (w_automatic w) cs).

(** [ScopeRuntimeState]. *)
Definition encode_scope_state (s : ScopeState) : Z :=
  match s with
  | Idle => 1 | Init => 2 | PreTrigger => 3 | TriggerWait => 4 | PostTrigger => 5 | Done => 6
  | Reset => 7 | Invalid => 8
  end.

(** The wire form of a status: state, seven unsigned counts, thread and period. *)
Definition encode_scope_status (s : ScopeStatus) : Z * list Z * string * Z :=
  (encode_scope_state (st_state s),
   Z.max 0 <$> [buffer_length s; record_length s; sample_length s; st_samples s; st_start s;
                st_multiplier s; st_watchdog s],
   st_thread_name s, Z.max 0 (st_sample_period_ns s)).

Inductive StatusCode :=
| OK | RESOURCE_EXHAUSTED | INVALID_ARGUMENT | UNAVAILABLE | FAILED_PRECONDITION.

Definition scope_error (code : Z) : StatusCode :=
  if code =? - EBUSY then RESOURCE_EXHAUSTED
  else if (code =? - EINVAL) || (code =? - ERANGE) then INVALID_ARGUMENT
  else if (code =? - ENOENT) || (code =? - ENODEV) then UNAVAILABLE
  else FAILED_PRECONDITION.

(** The service with the telemetry and HAL it works on. *)
Record ScopeService := mkService {
  controller : option State;
  websocket_path : string;
  telemetry : Telemetry.ScopeTelemetry;
  hal : Hal;
}.

(** How an RPC ends: a status with its response, or an exception that leaves the
    handler on the gRPC thread. *)
Inductive Reply :=
| Replied (code : StatusCode) (body : option (Z * list Z * string * Z * string))
| Escaped (e : Error).

Section Rpc.
Variables HAL_NAME_LEN control_size : Z.
(** What the construction of a controller is given: the configured periods and
    samples, the platform, the clock and the token of the attachment. *)
Variables poll_period heartbeat_period requested_samples : Z.
Variable platform : Platform.
Variable now : Z.
Variable token : string.

Definition destroy (h : Hal) (s : State) : Hal :=
  (teardown h (teardown_rt platform) (teardown_del platform) s).2.

Definition ensure_controller (w : ScopeService) : ScopeService * outcome Error State :=
  match controller w with
  | Some c => (w, Ok c)
  | None =>
      let failed h t e := (mkService None (websocket_path w) t h, Err e) in
      match make HAL_NAME_LEN control_size "linuxcnc-grpc-scope" poll_period heartbeat_period
              requested_samples platform (hal w) with
      | (h, Err e) => failed h (telemetry w) e
      | (h, Ok c) =>
          match acquire kScopeOwner now c with
          | Err e => failed (destroy h c) (telemetry w) e
          | Ok (c, false) => failed (destroy h c) (telemetry w) (ScopeControllerError (- EBUSY))
          | Ok (c, true) =>
              let (t, path) := Telemetry.register_controller kScopeOwner token (telemetry w) in
              if bool_decide (path = EmptyString)
              then failed (destroy h (release kScopeOwner c)) t (ScopeControllerError (- ENODEV))
              else (mkService (Some c) path t h, Ok c)
          end
      end
  end.

(** [run]: what the worker does for a request. *)
Definition run_rpc (operation : Hal -> State -> State * Hal * outcome Error unit)
    (w : ScopeService) : ScopeService * Reply :=
  let fails e := match e with
                 | ScopeControllerError code => Replied (scope_error code) None
                 | Undefined => Escaped e
                 end in
  match ensure_controller w with
  | (w, Err e) => (w, fails e)
  | (w, Ok c) =>
      let '(c, h, r) := operation (hal w) c in
      let w := mkService (Some c) (websocket_path w) (telemetry w) h in
      match r with
      | Err e => (w, fails e)
      | Ok _ =>
          match status h c with
          | Err e => (w, fails e)
          | Ok st => (w, Replied OK (Some (encode_scope_status st, websocket_path w)))
          end
      end
  end.

Definition GetStatus : ScopeService -> ScopeService * Reply :=
  run_rpc (fun h s => (s, h, Ok tt)).

(** [Configure] decodes before it hands the request to the worker. *)
Definition Configure (a : Answers) (request : ScopeAcquisitionConfig) (w : ScopeService) :
    ScopeService * Reply :=
  match decode_config request with
  | Err e => (w, Escaped e)
  | Ok cfg => run_rpc (fun h s => configure HAL_NAME_LEN a kScopeOwner cfg h s) w
  end.

Definition Run (mode : Z) (w : ScopeService) : ScopeService * Reply :=
  let go m := run_rpc (fun h s => keep s h (run kScopeOwner m s)) w in
  if mode =? 1 then go Controller.Run
  else if mode =? 2 then go Single
  else if mode =? 3 then go Roll
  else run_rpc (fun h s => (s, h, throw EINVAL)) w.

Definition Stop : ScopeService -> ScopeService * Reply :=
  run_rpc (fun h s => keep s h (stop kScopeOwner s)).

Definition Trigger : ScopeService -> ScopeService * Reply :=
  run_rpc (fun h s => keep s h (trigger kScopeOwner s)).

End Rpc.

(** ** Decoding a configuration *)

(** What the loop accepts: distinct indices below sixteen, and a named item of a
    known kind for each enabled channel. *)
Definition channel_ok (ch : Channel) : Prop :=
  ch_index ch < 16
  /\ (ch_enabled ch = true -> item_name ch <> EmptyString /\ decode_kind (item_kind ch) <> None).

Definition wire_channel (ch : Channel) : ScopeChannelConfig :=
  if ch_enabled ch
  then mkChannel true (mkSource (default Pin (decode_kind (item_kind ch))) (item_name ch))
  else disabled_channel.

(** The loop state: the channels decoded so far are in place and marked, all others are
    untouched. *)
Record decoded (l : list Channel) (done : list bool) (cs : list ScopeChannelConfig) : Prop :=
  mkDecoded {
  de_done : length done = kScopeChannelCount;
  de_channels : length cs = kScopeChannelCount;
  de_marks : forall i, done !! i = Some true <-> exists ch, ch ∈ l /\ Z.to_nat (ch_index ch) = i;
  de_set : forall ch, ch ∈ l -> cs !! Z.to_nat (ch_index ch) = Some (wire_channel ch);
  de_rest : forall i, done !! i = Some false -> cs !! i = Some disabled_channel;
}.

Lemma decode_channel_spec l done cs ch :
  decoded l done cs -> 0 <= ch_index ch ->
  match decode_channel done cs ch with
  | Ok (done', cs') =>
      channel_ok ch /\ Z.to_nat (ch_index ch) ∉ (fun c => Z.to_nat (ch_index c)) <$> l
      /\ decoded (l ++ [ch]) done' cs'
  | Err e => ~ channel_ok ch \/ Z.to_nat (ch_index ch) ∈ (fun c => Z.to_nat (ch_index c)) <$> l
  end.
Proof.
  intros [H1 H2 H3 H4 H5] Hi. unfold decode_channel. set (i := Z.to_nat (ch_index ch)).
  destruct (Z.leb_spec 16 (ch_index ch)) as [Hbig|Hsmall]; cbn [orb].
  { left. intros [? _]. lia. }
  destruct (lookup_lt_is_Some_2 done i) as [b Hb].
  { rewrite H1. unfold kScopeChannelCount. lia. }
  rewrite Hb. cbn [default]. destruct b.
  { right. apply H3 in Hb as (c & Hc & Hci). apply list_elem_of_fmap. by exists c. }
  pose proof (H5 i Hb) as Hci. rewrite Hci. cbn [default source disabled_channel].
  assert (Hnew : i ∉ (fun c => Z.to_nat (ch_index c)) <$> l).
  { intros (c & Hc & Hin)%list_elem_of_fmap. assert (done !! i = Some true); [|congruence].
    apply H3. by exists c. }
  assert (Hgo : channel_ok ch -> decoded (l ++ [ch]) (<[i := true]> done)
    (<[i := wire_channel ch]> cs)).
  { intros Hok. assert (Hil : (i < length done)%nat) by (by eapply lookup_lt_Some).
    assert (Hil' : (i < length cs)%nat) by (rewrite H2, <- H1; done).
    split; rewrite ?length_insert; try done.
    - intros j. destruct (decide (j = i)) as [->|Hne].
      + rewrite list_lookup_insert_eq by done. split; [|done]. intros _. exists ch.
        split; [set_solver|done].
      + rewrite list_lookup_insert_ne by done. rewrite H3. split; intros (c & Hc & Hj); exists c.
        * split; [set_solver|done].
        * split; [|done]. apply elem_of_app in Hc as [?| ->%list_elem_of_singleton]; [done|].
          by destruct Hne.
    - intros c [Hc| ->%list_elem_of_singleton]%elem_of_app.
      + destruct (decide (Z.to_nat (ch_index c) = i)) as [He|Hne].
        * exfalso. apply Hnew, list_elem_of_fmap. by exists c.
        * rewrite list_lookup_insert_ne by done. by apply H4.
      + fold i. by rewrite list_lookup_insert_eq.
    - intros j Hj. destruct (decide (j = i)) as [->|Hne].
      + by rewrite list_lookup_insert_eq in Hj.
      + rewrite list_lookup_insert_ne in Hj by done. rewrite list_lookup_insert_ne by done.
        by apply H5. }
  unfold wire_channel in Hgo. destruct (ch_enabled ch) eqn:Ee; cbn [negb].
  - case_bool_decide as En; [left; intros [_ Hx]; by destruct (Hx Ee)|].
    destruct (decode_kind (item_kind ch)) as [k|] eqn:Ek; [|left; intros [_ Hx]; by destruct (Hx Ee)].
    assert (Hok : channel_ok ch) by (split; [lia|]; intros _; by rewrite Ek).
    split; [done|]. split; [done|]. by apply Hgo.
  - assert (Hok : channel_ok ch) by (split; [lia|]; intros; congruence).
    split; [done|]. split; [done|]. by apply Hgo.
Qed.

Lemma decode_channels_spec l k done cs :
  decoded k done cs -> Forall (fun ch => 0 <= ch_index ch) l ->
  match decode_channels done cs l with
  | Ok cs' => Forall channel_ok l
      /\ (forall ch, ch ∈ l -> Z.to_nat (ch_index ch) ∉ (fun c => Z.to_nat (ch_index c)) <$> k)
      /\ NoDup ((fun c => Z.to_nat (ch_index c)) <$> l)
      /\ exists done', decoded (k ++ l) done' cs'
  | Err e => ~ Forall channel_ok l
      \/ ~ NoDup ((fun c => Z.to_nat (ch_index c)) <$> k ++ l)
  end.
Proof.
  revert k done cs. induction l as [|ch l IH]; intros k done cs Hd Hl; cbn.
  { split; [done|]. split; [set_solver|]. split; [constructor|]. rewrite app_nil_r. by exists done. }
  apply Forall_cons in Hl as [Hch Hl]. pose proof (decode_channel_spec k done cs ch Hd Hch) as H.
  destruct (decode_channel done cs ch) as [[done' cs']|e]; cbn.
  - destruct H as (Hok & Hnew & Hd'). specialize (IH (k ++ [ch]) done' cs' Hd' Hl).
    destruct (decode_channels done' cs' l) as [cs2|e].
    + destruct IH as (Hall & Hfresh & Hnd & done2 & Hd2). rewrite <- app_assoc in Hd2.
      split; [by constructor|]. split.
      * intros c [->|Hc]%elem_of_cons; [done|]. specialize (Hfresh c Hc).
        rewrite fmap_app in Hfresh. set_solver.
      * split; [|by exists done2]. apply NoDup_cons. split; [|done].
        intros (c & Hc & Hin)%list_elem_of_fmap. specialize (Hfresh c Hin).
        rewrite fmap_app in Hfresh. cbn in Hfresh. set_solver.
    + destruct IH as [Hall|Hnd]; [left; intros [_ ?]%Forall_cons; done|right].
      by rewrite <- app_assoc in Hnd.
  - destruct H as [H|H]; [left; intros [? _]%Forall_cons; done|right].
    rewrite fmap_app. cbn. intros (_ & Hx & _)%NoDup_app. apply (Hx _ H). set_solver.
Qed.

(** A scope configuration is decoded exactly: the request is accepted
    precisely when its channel indices are distinct and below sixteen and every
    enabled channel names an item of a known kind, and then each channel of the
    request is at its index, all others are disabled, and the numbers are the
    request's, reduced to [int]. *)
Theorem decode_config_exact w :
  Forall (fun ch => 0 <= ch_index ch) (w_channels w) ->
  match decode_config w with
  | Ok cfg =>
      Forall channel_ok (w_channels w)
      /\ NoDup ((fun c => Z.to_nat (ch_index c)) <$> w_channels w)
      /\ length (channels cfg) = kScopeChannelCount
      /\ (forall ch, ch ∈ w_channels w ->
           channels cfg !! Z.to_nat (ch_index ch) = Some (wire_channel ch))
      /\ (forall i, (i < kScopeChannelCount)%nat ->
           i ∉ (fun c => Z.to_nat (ch_index c)) <$> w_channels w ->
           channels cfg !! i = Some disabled_channel)
      /\ multiplier cfg = i32_wrap (w_multiplier w) /\ pre_trigger cfg = i32_wrap (w_pre_trigger w)
      /\ trigger_channel cfg = i32_wrap (w_trigger_channel w)
  | Err e => ~ (Forall channel_ok (w_channels w)
                /\ NoDup ((fun c => Z.to_nat (ch_index c)) <$> w_channels w))
  end.
Proof.
  intros Hl. unfold decode_config.
  assert (Hd : decoded [] (replicate kScopeChannelCount false)
    (replicate kScopeChannelCount disabled_channel)).
  { split; try done; intros i.
    - split; [|intros (? & []%not_elem_of_nil & _)]. by intros [? _]%lookup_replicate.
    - intros Hx. by apply not_elem_of_nil in Hx.
    - intros [_ Hi]%lookup_replicate. by apply lookup_replicate. }
  pose proof (decode_channels_spec (w_channels w) [] _ _ Hd Hl) as H.
  destruct (decode_channels _ _ _) as [cs|e]; cbn.
  - destruct H as (Hok & _ & Hnd & done & [H1 H2 H3 H4 H5]). cbn in *.
    split_and!; try done. intros i Hi Hni. apply H5.
    destruct (lookup_lt_is_Some_2 done i) as [b Hb]; [by rewrite H1|]. destruct b; [|done].
    destruct Hni. apply H3 in Hb as (c & Hc & <-). apply list_elem_of_fmap. by exists c.
  - intros [Ha Hb]. by destruct H.
Qed.

Lemma decode_config_exact_witness :
  match decode_config (mkWire "servo" 1 4294967295 1 f64_one true false
          [mkWireChannel 2 true 1 "p"; mkWireChannel 0 false 0 ""]) with
  | Ok cfg => channels cfg !! 2%nat = Some (mkChannel true (mkSource Pin "p"))
      /\ pre_trigger cfg = -1
  | Err _ => False
  end.
Proof.
  pose proof (decode_config_exact (mkWire "servo" 1 4294967295 1 f64_one true false
    [mkWireChannel 2 true 1 "p"; mkWireChannel 0 false 0 ""])) as H.
  assert (Hl : Forall (fun ch => 0 <= ch_index ch)
    [mkWireChannel 2 true 1 "p"; mkWireChannel 0 false 0 ""]) by (repeat constructor; cbn; lia).
  specialize (H Hl). cbn in H |- *. destruct H as (_ & _ & _ & Hch & _ & _ & Hpre & _).
  split; [|exact Hpre].
  exact (Hch (mkWireChannel 2 true 1 "p") ltac:(apply list_elem_of_here)).
Defined.

(** ** The service in operation *)

(** The operations of the controller keep its owner. *)
Lemma copy_delta_owner h now s s' d :
  copy_delta_unlocked h now s = Ok (s', d) -> owner s' = owner s.
Proof.
  unfold copy_delta_unlocked. intros H. apply outcome_bind_ok in H as ([c b] & _ & H).
  destruct (_ <=? 0); [by simplify_eq|]. destruct (_ || _); [done|].
  apply outcome_bind_ok in H as ([r n] & _ & H). destruct (n =? 0); [by simplify_eq|].
  apply outcome_bind_ok in H as (v & _ & H). by simplify_eq.
Qed.

Lemma poll_frames_owner h now s s' : poll_frames h now s = Ok s' -> owner s' = owner s.
Proof.
  unfold poll_frames. intros H. apply outcome_bind_ok in H as ([c b] & _ & H).
  destruct (_ && running s).
  - apply outcome_bind_ok in H as ([s1 d] & Hd & H). apply copy_delta_owner in Hd.
    destruct d, (_ =? _); by simplify_eq.
  - destruct (_ && _); [|by simplify_eq]. apply outcome_bind_ok in H as (v & _ & H).
    case_bool_decide; by simplify_eq.
Qed.

Lemma poll_once_owner h now s s' : poll_once h now s = Ok s' -> owner s' = owner s.
Proof.
  unfold poll_once. destruct (_ || _); [by intros [= <-]|]. intros H.
  apply outcome_bind_ok in H as ([c b] & _ & H). apply outcome_bind_ok in H as (s1 & H1 & H).
  assert (owner s1 = owner s) as <-.
  { destruct (_ || _); [|by simplify_eq]. apply outcome_bind_ok in H1 as (w & _ & H1).
    by simplify_eq. }
  destruct (poll_frames h now s1) as [s2|[e|]] eqn:Ep; simplify_eq; [|done].
  by eapply poll_frames_owner.
Qed.

Lemma configure_owner n a o cfg h s : owner (configure n a o cfg h s).1.1 = owner s.
Proof.
  unfold configure. destruct (configure_guard _ _ _ _ _) as [[sources t]|]; [|done].
  assert (Hs : owner (settle a (find_scope_thread_unlocked h) h s).1.1 = owner s).
  { unfold settle. destruct (shm s) as [[c b]|]; [|done]. by repeat destruct (_ =? _). }
  destruct (settle _ _ _ _) as [[s' h'] attached]. cbn in Hs.
  destruct (link a cfg attached h') as [h'' [[]|e]]; [|done].
  destruct (shm s') as [[c b]|]; [|done]. destruct (_ <=? 0); [done|].
  by destruct (set_trigger_level _ _).
Qed.

(** A controller of the service. *)
Definition owned (c : State) : Prop := inv c /\ owner c = kScopeOwner.

Section Operation.
Variables HAL_NAME_LEN control_size : Z.
Variables poll_period heartbeat_period requested_samples : Z.
Variable platform : Platform.
Variable now : Z.
Variable token : string.
Hypothesis Hplatform : platform_ok platform.

Definition service_ok (w : ScopeService) : Prop :=
  match controller w with
  | Some c => owned c /\ websocket_path w <> EmptyString
  | None => True
  end.

Abbreviation ensure := (ensure_controller HAL_NAME_LEN control_size poll_period heartbeat_period
  requested_samples platform now token).
Abbreviation rpc := (run_rpc HAL_NAME_LEN control_size poll_period heartbeat_period
  requested_samples platform now token).

Lemma make_no_undefined n h h' e :
  make HAL_NAME_LEN control_size n poll_period heartbeat_period requested_samples platform h
  = (h', Err e) -> e <> Undefined.
Proof. unfold make, throw. intros H. repeat case_match; by simplify_eq. Qed.

Lemma register_path o t :
  (Telemetry.register_controller o token t).2 = EmptyString
  \/ exists tok, (Telemetry.register_controller o token t).2 = Telemetry.path tok.
Proof.
  unfold Telemetry.register_controller. destruct (_ || _); [by left|].
  destruct (Telemetry.state t) as [st|]; [|right; by eexists].
  case_bool_decide; [right; by eexists|by left].
Qed.

Lemma ensure_controller_ok w :
  service_ok w -> service_ok (ensure w).1
  /\ match (ensure w).2 with
     | Ok c => owned c /\ controller (ensure w).1 = Some c
     | Err e => e <> Undefined
     end.
Proof.
  intros Hw. unfold ensure_controller. unfold service_ok in Hw.
  destruct (controller w) as [c|] eqn:Ec.
  { destruct Hw as [Hc Hp]. split; [|by split]. unfold service_ok. cbn. by rewrite Ec. }
  destruct (make _ _ _ _ _ _ _ _) as [h [c|e]] eqn:Em; cbn.
  2: { split; [done|]. by eapply make_no_undefined. }
  pose proof (make_ok _ _ _ _ _ _ _ _ _ _ Hplatform Em) as Hi.
  pose proof (acquire_ok kScopeOwner now c Hi) as Ha.
  destruct (acquire kScopeOwner now c) as [[c' b]|e] eqn:Eacq.
  2: { split; [done|]. cbn. by destruct Ha as [? ->]. }
  destruct b; [|by split].
  assert (Ho : owner c' = kScopeOwner).
  { unfold acquire in Eacq. case_bool_decide; [done|].
    apply outcome_bind_ok in Eacq as (m & _ & Hx).
    destruct (FrameQueue.acquire _ _) as [q [|]]; by simplify_eq. }
  destruct (Telemetry.register_controller kScopeOwner token (telemetry w)) as [t path].
  case_bool_decide; cbn; [by split|]. by split_and!.
Qed.

(** A complete answer: the status with the path of the telemetry, or an error. *)
Definition answered (r : Reply) : Prop :=
  match r with
  | Replied OK (Some (_, path)) => path <> EmptyString
  | Replied OK None => False
  | Replied _ body => body = None
  | Escaped _ => False
  end.

Lemma scope_error_answered code : answered (Replied (scope_error code) None).
Proof. unfold scope_error. by repeat destruct (_ =? _). Qed.

(** A request on a valid service keeps it valid and is answered. *)
Lemma rpc_ok op w :
  service_ok w ->
  (forall h s, owned s -> owned (op h s).1.1 /\ (op h s).2 <> Err Undefined) ->
  service_ok (rpc op w).1 /\ answered (rpc op w).2.
Proof.
  intros Hw Hop. unfold run_rpc. pose proof (ensure_controller_ok w Hw) as [Hw' He].
  destruct (ensure w) as [w' [c|e]]; cbn in *.
  2: { split; [done|]. destruct e; [apply scope_error_answered|done]. }
  destruct He as [Hc Hcw]. unfold service_ok in Hw'. rewrite Hcw in Hw'. destruct Hw' as [_ Hp].
  specialize (Hop (hal w') c Hc). destruct (op (hal w') c) as [[c' h'] [[]|e]]; cbn in *.
  - destruct Hop as [[Hi Ho] _]. unfold status, status_unlocked.
    destruct (inv_attached c' Hi) as (ct & b & _ & ->). cbn. split; [by split|done].
  - destruct Hop as [Hc' He']. split; [by split|]. destruct e; [apply scope_error_answered|done].
Qed.

(** [Env]: the poll thread, the realtime side, HAL and the browser's session. *)
Inductive ServiceOp :=
| RpcGetStatus
| RpcConfigure (a : Answers) (request : ScopeAcquisitionConfig)
| RpcRun (mode : Z)
| RpcStop
| RpcTrigger
| Env (op : Op).

Definition env_step (op : Op) (w : ScopeService) : ScopeService :=
  match controller w with
  | Some c =>
      let '(c, h, _) := step HAL_NAME_LEN c (hal w) op in
      mkService (Some c) (websocket_path w) (telemetry w) h
  | None => w
  end.

Definition serve (w : ScopeService) (op : ServiceOp) : ScopeService * option Reply :=
  let reply r := (r.1, Some r.2) in
  match op with
  | RpcGetStatus => reply (GetStatus HAL_NAME_LEN control_size poll_period heartbeat_period
      requested_samples platform now token w)
  | RpcConfigure a r => reply (Configure HAL_NAME_LEN control_size poll_period heartbeat_period
      requested_samples platform now token a r w)
  | RpcRun m => reply (Run HAL_NAME_LEN control_size poll_period heartbeat_period
      requested_samples platform now token m w)
  | RpcStop => reply (Stop HAL_NAME_LEN control_size poll_period heartbeat_period
      requested_samples platform now token w)
  | RpcTrigger => reply (Trigger HAL_NAME_LEN control_size poll_period heartbeat_period
      requested_samples platform now token w)
  | Env op => (env_step op w, None)
  end.

(** Requests carry doubles and unsigned indices; the environment does not take
    the scope away from the service. *)
Definition service_op_ok (w : ScopeService) (op : ServiceOp) : Prop :=
  match op with
  | RpcConfigure a r => double (w_trigger_level r) /\ rt_ok (settled a)
      /\ Forall (fun ch => 0 <= ch_index ch) (w_channels r)
  | Env op =>
      match op with
      | Acquire _ _ | Release _ | Controller.Configure _ _ _ | RunOp _ _ | Controller.Stop _
      | Controller.Trigger _ => False
      | _ => match controller w with Some c => op_ok c op | None => True end
      end
  | _ => True
  end.

Fixpoint serves (w : ScopeService) (ops : list ServiceOp) : ScopeService * list (option Reply) :=
  match ops with
  | [] => (w, [])
  | op :: ops =>
      let (w, r) := serve w op in
      let (w, rs) := serves w ops in (w, r :: rs)
  end.

Fixpoint service_ops_ok (w : ScopeService) (ops : list ServiceOp) : Prop :=
  match ops with
  | [] => True
  | op :: ops => service_op_ok w op /\ service_ops_ok (serve w op).1 ops
  end.

(** What each operation is answered with. *)
Definition reply_ok (op : ServiceOp) (r : option Reply) : Prop :=
  match op, r with
  | Env _, r => r = None
  | RpcConfigure a req, Some r =>
      match decode_config req with Err e => r = Escaped e | Ok _ => answered r end
  | _, Some r => answered r
  | _, None => False
  end.

Lemma keep_owned h s (m : outcome Error State) :
  owned s ->
  match m with Ok s' => inv s' | Err e => exists code, e = ScopeControllerError code end ->
  (forall s', m = Ok s' -> owner s' = owner s) ->
  owned (keep s h m).1.1 /\ (keep s h m).2 <> Err Undefined.
Proof.
  intros [Hi Ho] Hm Hown. destruct m as [s'|e]; cbn.
  - split; [|done]. split; [done|]. rewrite <- Ho. by apply Hown.
  - by destruct Hm as [code ->].
Qed.

Lemma run_owner o mode s s' : run o mode s = Ok s' -> owner s' = owner s.
Proof.
  unfold run. intros H. apply outcome_bind_ok in H as ([c b] & _ & H).
  apply outcome_bind_ok in H as (? & _ & H). destruct (negb _); [done|].
  destruct (_ && _); by simplify_eq.
Qed.

Lemma stop_owner o s s' : stop o s = Ok s' -> owner s' = owner s.
Proof.
  unfold stop. intros H. apply outcome_bind_ok in H as (m & _ & H).
  apply outcome_bind_ok in H as (? & _ & H). by simplify_eq.
Qed.

Lemma trigger_owner o s s' : trigger o s = Ok s' -> owner s' = owner s.
Proof.
  unfold trigger. intros H. apply outcome_bind_ok in H as (m & _ & H).
  apply outcome_bind_ok in H as (? & _ & H). by simplify_eq.
Qed.

Lemma env_step_ok w op : service_ok w -> service_op_ok w (Env op) -> service_ok (env_step op w).
Proof.
  intros Hw Hop. unfold env_step, service_ok in *. cbn in Hop.
  destruct (controller w) as [c|] eqn:Ec; [|by rewrite Ec]. destruct Hw as [[Hi Ho] Hp].
  assert (H : inv (step HAL_NAME_LEN c (hal w) op).1.1
    /\ owner (step HAL_NAME_LEN c (hal w) op).1.1 = owner c).
  { destruct op; try done; (split; [by apply controller_step_ok|]); try done.
    - unfold step. pose proof (poll_once_owner (hal w) now0 c) as Hx.
      destruct (poll_once (hal w) now0 c); [by apply Hx|done].
    - cbn. unfold next_frame. by destruct (FrameQueue.next _ _).
    - cbn. unfold acknowledge. by destruct (FrameQueue.acknowledge _ _ _). }
  destruct (step HAL_NAME_LEN c (hal w) op) as [[c' h'] r]. cbn in *.
  destruct H as [Hi' Ho']. split; [|done]. split; [done|]. congruence.
Qed.

Lemma serve_ok w op :
  service_ok w -> service_op_ok w op ->
  service_ok (serve w op).1 /\ reply_ok op (serve w op).2.
Proof.
  intros Hw Hop. destruct op as [|a r|m| | |op]; cbn [serve fst snd reply_ok].
  - apply rpc_ok; [done|]. intros h s Hs. by split.
  - destruct Hop as (Hd & Hr & Hpos). unfold Configure.
    pose proof (decode_config_exact r Hpos) as Hx. destruct (decode_config r) as [cfg|e] eqn:Ed; [|done].
    apply rpc_ok; [done|]. intros h s [Hi Ho].
    assert (Hl : double (trigger_level cfg)).
    { unfold decode_config in Ed. apply outcome_bind_ok in Ed as (cs & _ & Ed). by simplify_eq. }
    destruct (configure_ok HAL_NAME_LEN a kScopeOwner cfg h s Hi) as [Hi' Hu].
    { split; [by destruct Hx as (_ & _ & ? & _)|by split]. }
    split; [|done]. split; [done|]. by rewrite configure_owner.
  - unfold Run. destruct (m =? 1); [|destruct (m =? 2); [|destruct (m =? 3)]].
    1-3: apply rpc_ok; [done|]; intros h s Hs; apply keep_owned;
      [done|apply run_op_ok, Hs|apply run_owner].
    apply rpc_ok; [done|]. intros h s Hs. by split.
  - apply rpc_ok; [done|]. intros h s Hs.
    apply keep_owned; [done|apply stop_ok, Hs|apply stop_owner].
  - apply rpc_ok; [done|]. intros h s Hs.
    apply keep_owned; [done|apply trigger_ok, Hs|apply trigger_owner].
  - split; [by apply env_step_ok|done].
Qed.

(** C40: The scope service answers every request: over any sequence of requests
    interleaved with polls, writes of the realtime side, changes of HAL and the
    browser's session, each request gets the current status with the telemetry
    path or an error status, whatever failed on the way (a controller that
    cannot be built is tried again by the next request), except that a
    [Configure] whose channels cannot be decoded leaves the handler with the
    exception. The controller stays owned by the service throughout. *)
Theorem scope_service_answers t h ops :
  let w := mkService None EmptyString t h in
  service_ops_ok w ops ->
  Forall2 reply_ok ops (serves w ops).2 /\ service_ok (serves w ops).1.
Proof.
  cbn zeta. intros Hops.
  assert (Hw : service_ok (mkService None EmptyString t h)) by done.
  revert Hw Hops. generalize (mkService None EmptyString t h) as w.
  induction ops as [|op ops IH]; intros w Hw Hops; cbn; [done|].
  destruct Hops as [Hop Hops]. destruct (serve_ok w op Hw Hop) as [Hw' Hr].
  destruct (serve w op) as [w' r] eqn:Es. cbn in *. destruct (IH w' Hw' Hops) as [H1 H2].
  destruct (serves w' ops) as [w'' rs]. cbn in *. split; [by constructor|done].
Qed.

End Operation.

Lemma scope_service_answers_witness :
  let ops := [RpcGetStatus; RpcRun 2;
    RpcConfigure sample_answers (mkWire "servo" 1 1 0 f64_one true false [mkWireChannel 0 true 1 "p"]);
    RpcRun 2; Env (Poll 30);
    RpcConfigure sample_answers (mkWire "servo" 1 1 0 f64_one true false [mkWireChannel 16 true 1 "p"])] in
  let r := serves 47 400 20 100 32000 sample_platform 5 "t"
             (mkService None EmptyString Telemetry.make sample_hal) ops in
  Forall2 reply_ok ops r.2
  /\ (fun x => match x with Some (Replied c _) => Some c | _ => None end) <$> r.2
     = [Some OK; Some INVALID_ARGUMENT; Some OK; Some OK; None; None].
Proof.
  cbn zeta. split; [|vm_compute; reflexivity].
  apply (scope_service_answers 47 400 20 100 32000 sample_platform 5 "t").
  - vm_compute. repeat split; discriminate.
  - vm_compute. repeat split; try discriminate; repeat constructor; discriminate.
Defined.

End Service.
