(* ===== verification/TelemetryFrames.v ===== *)
(** The binary frames of the telemetry sessions ([telemetry_websocket_server.cc],
    [websocket.proto], [scope.proto]): how the position batches and the scope frames
    become messages, and that the browser can read them back.  The sessions that send
    them are in [WebSocket] and [ScopeFrames]. *)
From S2P Require Import Prelude Float64 PositionHistory ScopeFrames Scope.

Local Open Scope Z_scope.

Module Frames.

Inductive FrameKind := FRAME_KIND_REPLACEMENT | FRAME_KIND_DELTA.

Definition frame_kind (replacement : bool) : FrameKind :=
  if replacement then FRAME_KIND_REPLACEMENT else FRAME_KIND_DELTA.

(** ** Positions *)

Record PositionHistoryFrame := mkPositionFrame {
  kind : FrameKind;
  frame_generation : Z;
  frame_first_sequence : Z;
  frame_next_sequence : Z;
  replacement_count : Z;
  frame_values : list f64;
}.

(** [encode_position_frame] *)
Definition encode_position_frame (batch : History.PositionHistoryBatch) (replacement : bool) : PositionHistoryFrame :=
  mkPositionFrame (frame_kind replacement) (History.batch_generation batch) (History.first_sequence batch)
    (History.batch_next_sequence batch)
    (if replacement then 0 else u32_wrap (Z.of_nat (History.replace_count batch))) (History.packed batch).

(** What the browser does with a frame. *)
Definition receive_frame (f : PositionHistoryFrame) (c : History.Consumer) : History.Consumer :=
  History.mkConsumer
    (match kind f with
     | FRAME_KIND_REPLACEMENT => frame_values f
     | FRAME_KIND_DELTA =>
         take (length (History.buffer c) - Z.to_nat (replacement_count f) * History.kPositionStride)
           (History.buffer c) ++ frame_values f
     end) (frame_next_sequence f) (frame_generation f).

(** The frame says what the batch says. *)
Theorem position_frame_faithful batch c :
  Z.of_nat (History.replace_count batch) < 2 ^ 32 ->
  receive_frame (encode_position_frame batch (History.reset batch)) c = History.receive batch c.
Proof.
  intros H. unfold receive_frame, encode_position_frame, History.receive. destruct (History.reset batch); cbn; [done|].
  rewrite u32_wrap_small by (unfold in_u32; lia). by rewrite Nat2Z.id.
Qed.

(** ** Scope frames *)

Record PackedChannel := mkChannel { channel_values : list f64; channel_index : Z; channel_enabled : bool }.

Record CaptureMessage := mkCaptureMessage {
  cm_channels : list PackedChannel;
  cm_samples : Z;
  cm_trigger_index : Z;
  cm_sample_period_ns : Z;
  cm_generation : Z;
  cm_skipped_frames : Z;
}.

Record DeltaMessage := mkDeltaMessage {
  dm_channels : list PackedChannel;
  dm_samples : Z;
  dm_capacity : Z;
  dm_sequence : Z;
  dm_sample_period_ns : Z;
  dm_reset : bool;
  dm_generation : Z;
  dm_skipped_frames : Z;
}.

Inductive ScopeTelemetryFrame := Capture (m : CaptureMessage) | Roll (m : DeltaMessage).

(** [encode_scope_channels] *)
Definition encode_scope_channels (channels : Controller.ScopeChannelSamples) : list PackedChannel :=
  imap (fun i c => mkChannel (default [] c) (u32_wrap (Z.of_nat i)) (match c with Some _ => true | None => false end)) channels.

(** [encode_scope_frame] *)
Definition encode_scope_frame (source : FrameQueue.ScopeFrame (Payload := Controller.ScopePayload)) :
    ScopeTelemetryFrame :=
  match FrameQueue.payload source with
  | Controller.CaptureFrame c =>
      Capture (mkCaptureMessage (encode_scope_channels (Controller.cap_channels c))
        (u32_wrap (Z.max 0 (Controller.cap_samples c))) (u32_wrap (Z.max 0 (Controller.trigger_index c)))
        (Z.max 0 (Controller.cap_period_ns c)) (FrameQueue.generation source) (FrameQueue.skipped_frames source))
  | Controller.RollFrame d =>
      Roll (mkDeltaMessage (encode_scope_channels (Controller.delta_channels d))
        (u32_wrap (Z.max 0 (Controller.delta_count d))) (u32_wrap (Z.max 0 (Controller.capacity d)))
        (Controller.sequence d) (Z.max 0 (Controller.delta_period_ns d)) (Controller.reset d)
        (FrameQueue.generation source) (FrameQueue.skipped_frames source))
  end.

(** A browser that reads the channels by position. *)
Definition decode_channels (l : list PackedChannel) : Controller.ScopeChannelSamples :=
  (fun c => if channel_enabled c then Some (channel_values c) else None) <$> l.

Definition decode_scope_frame (f : ScopeTelemetryFrame) : FrameQueue.ScopeFrame (Payload := Controller.ScopePayload) :=
  match f with
  | Capture m =>
      FrameQueue.mkFrame (cm_generation m) (cm_skipped_frames m)
        (Controller.CaptureFrame (Controller.mkCapture (decode_channels (cm_channels m)) (cm_samples m)
          (cm_trigger_index m) (cm_sample_period_ns m)))
  | Roll m =>
      FrameQueue.mkFrame (dm_generation m) (dm_skipped_frames m)
        (Controller.RollFrame (Controller.mkDelta (decode_channels (dm_channels m)) (dm_samples m) (dm_capacity m)
          (dm_sequence m) (dm_sample_period_ns m) (dm_reset m)))
  end.

Definition count_ok (n : Z) : Prop := 0 <= n < 2 ^ 31.

(** What the controller delivers: counts in the range of an [int], none negative. *)
Definition payload_ok (p : Controller.ScopePayload) : Prop :=
  match p with
  | Controller.CaptureFrame c =>
      count_ok (Controller.cap_samples c) /\ count_ok (Controller.trigger_index c) /\ 0 <= Controller.cap_period_ns c
  | Controller.RollFrame d =>
      count_ok (Controller.delta_count d) /\ count_ok (Controller.capacity d) /\ 0 <= Controller.delta_period_ns d
  end.

Lemma count_sent n : count_ok n -> u32_wrap (Z.max 0 n) = n.
Proof. intros H. unfold count_ok in H. rewrite u32_wrap_small by (unfold in_u32; lia). lia. Qed.

Lemma channels_roundtrip l : decode_channels (encode_scope_channels l) = l.
Proof.
  unfold decode_channels, encode_scope_channels. apply list_eq. intros i.
  rewrite list_lookup_fmap, list_lookup_imap. unfold Controller.ScopeChannelSamples in *.
  by destruct (l !! i) as [[v|]|].
Qed.

(** Every channel keeps its position, also past disabled ones. *)
Lemma channels_indexed l i c :
  encode_scope_channels l !! i = Some c -> Z.of_nat (length l) < 2 ^ 32 -> channel_index c = Z.of_nat i.
Proof.
  unfold encode_scope_channels, Controller.ScopeChannelSamples in *. rewrite list_lookup_imap. intros H Hl.
  destruct (l !! i) as [x|] eqn:E; [|done]. injection H as <-. cbn. apply lookup_lt_Some in E.
  apply u32_wrap_small. unfold in_u32. lia.
Qed.

(** A scope frame is read back as it was sent, its disabled channels included. *)
Theorem scope_frame_roundtrip (f : FrameQueue.ScopeFrame (Payload := Controller.ScopePayload)) :
  payload_ok (FrameQueue.payload f) -> decode_scope_frame (encode_scope_frame f) = f.
Proof.
  destruct f as [g k [c|d]]; cbn; intros (H1 & H2 & H3); unfold encode_scope_frame; cbn.
  - rewrite channels_roundtrip, !count_sent, Z.max_r by done. by destruct c.
  - rewrite channels_roundtrip, !count_sent, Z.max_r by done. by destruct d.
Qed.

End Frames.
