(* ===== verification/DaemonConfig.v ===== *)
(** The daemon's configuration ([daemon/config.cc]): the command line, its
    validation, and where the telemetry server binds
    ([split_endpoint] of [telemetry_websocket_server.cc]).

    Paths are the sequences of elements that iterating a
    [std::filesystem::path] yields: the root directory, the names, and an empty
    element for a trailing separator.  The file system itself (which files are
    regular, what [weakly_canonical] resolves, the current directory) is a
    parameter. *)
From Stdlib Require Import Ascii.
From stdpp Require Import pretty.
From S2P Require Import Prelude.

Local Open Scope Z_scope.

(** * The configuration *)

Inductive TextField :=
| endpoint | telemetry_endpoint | ini_file | nml_file | workspace_root
| active_program_directory | tls_certificate | tls_private_key | tls_client_ca.

Inductive SizeField :=
| workspace_quota_bytes | total_quota_bytes | max_workspaces | max_workspace_entries
| max_upload_metadata_bytes | command_queue_capacity | status_replay_capacity
| gcode_batch_size | scope_samples | max_remote_components | max_remote_hal_items.

(** Durations: seconds for the first two, milliseconds for the others. *)
Inductive TimeField :=
| workspace_ttl | upload_timeout | command_completion_timeout | status_period | error_period
| position_period | topology_period | scope_period | scope_heartbeat
| component_heartbeat_interval | component_heartbeat_timeout
| component_default_sampling_period | component_min_sampling_period
| component_max_sampling_period.

Inductive FlagField := tls | mtls | reflection | allow_plaintext_non_loopback.

#[export] Instance text_field_eq_dec : EqDecision TextField.
Proof. solve_decision. Defined.
#[export] Instance size_field_eq_dec : EqDecision SizeField.
Proof. solve_decision. Defined.
#[export] Instance time_field_eq_dec : EqDecision TimeField.
Proof. solve_decision. Defined.
#[export] Instance flag_field_eq_dec : EqDecision FlagField.
Proof. solve_decision. Defined.

(** [DaemonConfig], its fields grouped by type. *)
Record DaemonConfig := mkConfig {
  text : TextField -> string;
  size : SizeField -> Z;
  time : TimeField -> Z;
  flag : FlagField -> bool;
}.

Definition set_text (f : TextField) (v : string) (c : DaemonConfig) : DaemonConfig :=
  mkConfig (fun g => if decide (g = f) then v else text c g) (size c) (time c) (flag c).
Definition set_size (f : SizeField) (v : Z) (c : DaemonConfig) : DaemonConfig :=
  mkConfig (text c) (fun g => if decide (g = f) then v else size c g) (time c) (flag c).
Definition set_time (f : TimeField) (v : Z) (c : DaemonConfig) : DaemonConfig :=
  mkConfig (text c) (size c) (fun g => if decide (g = f) then v else time c g) (flag c).
Definition set_flag (f : FlagField) (c : DaemonConfig) : DaemonConfig :=
  mkConfig (text c) (size c) (time c) (fun g => if decide (g = f) then true else flag c g).

Definition kMaxWorkspaceTtl : Z := 24 * 30 * 3600.

Definition default_text (f : TextField) : string :=
  match f with
  | endpoint => "127.0.0.1:50051"
  | telemetry_endpoint => "127.0.0.1:50052"
  | workspace_root => "/var/lib/linuxcnc-grpc/workspaces"
  | active_program_directory => "/var/lib/linuxcnc-grpc/active-program"
  | _ => EmptyString
  end.

Definition default_size (f : SizeField) : Z :=
  match f with
  | workspace_quota_bytes => 256 * 1024 * 1024
  | total_quota_bytes => 1024 * 1024 * 1024
  | max_workspaces => 64
  | max_workspace_entries => 4096
  | max_upload_metadata_bytes => 1024 * 1024
  | command_queue_capacity => 128
  | status_replay_capacity => 256
  | gcode_batch_size => 128
  | scope_samples => 32000
  | max_remote_components => 64
  | max_remote_hal_items => 4096
  end.

Definition default_time (f : TimeField) : Z :=
  match f with
  | workspace_ttl => 24 * 60 * 60
  | upload_timeout => 5 * 60
  | command_completion_timeout => 0
  | status_period => 50
  | error_period => 100
  | position_period => 10
  | topology_period => 2000
  | scope_period => 20
  | scope_heartbeat => 100
  | component_heartbeat_interval => 1000
  | component_heartbeat_timeout => 3000
  | component_default_sampling_period => 20
  | component_min_sampling_period => 5
  | component_max_sampling_period => 1000
  end.

Definition default_config : DaemonConfig :=
  mkConfig default_text default_size default_time (fun _ => false).

(** * Strings *)

Module Text.

(** [std::string::find], [rfind] of a character and [substr]. *)
Fixpoint find (c : Ascii.ascii) (s : string) : option nat :=
  match s with
  | EmptyString => None
  | String d s => if Ascii.eqb c d then Some O else S <$> find c s
  end.

Fixpoint rfind (c : Ascii.ascii) (s : string) : option nat :=
  match s with
  | EmptyString => None
  | String d s =>
      match rfind c s with
      | Some n => Some (S n)
      | None => if Ascii.eqb c d then Some O else None
      end
  end.

Fixpoint take (n : nat) (s : string) : string :=
  match n, s with
  | S n, String c s => String c (take n s)
  | _, _ => EmptyString
  end.

Fixpoint drop (n : nat) (s : string) : string :=
  match n, s with
  | S n, String _ s => drop n s
  | _, s => s
  end.

(** The last character. *)
Fixpoint back (s : string) : option Ascii.ascii :=
  match s with
  | EmptyString => None
  | String c EmptyString => Some c
  | String _ s => back s
  end.

(** A decimal digit. *)
Definition digit (c : Ascii.ascii) : option Z :=
  let n := Z.of_nat (Ascii.nat_of_ascii c) in
  if (48 <=? n) && (n <=? 57) then Some (n - 48) else None.

(** [std::from_chars] on a [std::size_t] that must use up the whole string. *)
Fixpoint digits (acc : Z) (s : string) : option Z :=
  match s with
  | EmptyString => Some acc
  | String c s => d ← digit c; digits (10 * acc + d) s
  end.

End Text.
Import Text.

Definition parse_size (value : string) : option Z :=
  match value with
  | EmptyString => None
  | _ => n ← digits 0 value; if n <? 2 ^ 64 then Some n else None
  end.

(** The unsigned count becomes the signed count of a duration. *)
Definition parse_milliseconds (value : string) : option Z := i64_wrap <$> parse_size value.

Definition option_value (argument opt : string) : option string :=
  let prefix := opt +:+ "=" in
  if String.prefix prefix argument then Some (drop (String.length prefix) argument) else None.

Definition endpoint_host (e : string) : string :=
  match e with
  | EmptyString => EmptyString
  | String c rest =>
      if Ascii.eqb c "["%char then
        match find "]"%char e with
        | Some n => take (n - 1) rest
        | None => EmptyString
        end
      else
        match rfind ":"%char e with
        | Some n => take n e
        | None => e
        end
  end.

Definition loopback_host (h : string) : bool :=
  String.eqb h "localhost" || String.eqb h "127.0.0.1" || String.eqb h "::1"
  || String.eqb h "[::1]".

(** Where the telemetry server binds: host and port, [None] for the exception. *)
Definition split_endpoint (e : string) : option (string * string) :=
  match rfind ":"%char e with
  | None => None
  | Some n =>
      let host := take n e in
      let host :=
        match host with
        | String c rest =>
            if (1 <? String.length host)%nat && Ascii.eqb c "["%char
               && bool_decide (back host = Some "]"%char)
            then take (String.length host - 2) rest else host
        | EmptyString => host
        end in
      Some (host, drop (S n) e)
  end.

(** * Paths *)

Definition path : Type := list string.

(** The names between separators, without empty ones, and whether the string ends
    in a separator. [name]: the characters of the current name, reversed. *)
Fixpoint split_names (s name : string) : list string * bool :=
  let flush rest := match name with EmptyString => rest | _ => String.rev name :: rest end in
  match s with
  | EmptyString => (flush [], bool_decide (name = EmptyString))
  | String c s =>
      if Ascii.eqb c "/"%char
      then let (rest, trailing) := split_names s EmptyString in (flush rest, trailing)
      else split_names s (String c name)
  end.

(** [absolute(p).lexically_normal()] on the names of an absolute path: [.] and
    [name/..] go, and a path that ended in one of them ends in a separator. *)
Definition dot : string := ".".
Definition dotdot : string := "..".

Fixpoint normal_names (stack names : list string) : list string :=
  match names with
  | [] => rev stack
  | n :: names =>
      if String.eqb n dot then normal_names stack names
      else if String.eqb n dotdot then normal_names (tail stack) names
      else normal_names (n :: stack) names
  end.

Definition root : string := "/".

Section FileSystem.
(** The names of the current directory, what [weakly_canonical] resolves, and
    which files are regular. *)
Variable cwd : list string.
Variable weakly_canonical : path -> option path.
Variable is_regular_file : string -> bool.

Definition absolute_normal (p : string) : path :=
  let (names, trailing) := split_names p EmptyString in
  let names := if bool_decide (find "/"%char p = Some O) then names else cwd ++ names in
  let ends := match last names with
              | Some n => trailing || String.eqb n dot || String.eqb n dotdot
              | None => trailing
              end in
  let normal := normal_names [] names in
  root :: normal ++ (if ends && negb (bool_decide (normal = [])) then [EmptyString] else []).

(** [parent_path()], [filename()] and [operator/] on an absolute path. *)
Definition parent_path (p : path) : path :=
  match p with [_] => p | _ => removelast p end.
Definition filename (p : path) : string :=
  match p with [_] => EmptyString | _ => default EmptyString (last p) end.
Definition append (p : path) (n : string) : path :=
  if bool_decide (n = EmptyString)
  then match last p with
       | Some l => if String.eqb l root || String.eqb l EmptyString then p else p ++ [EmptyString]
       | None => p
       end
  else p ++ [n].

Definition path_contains (parent child : path) : bool := bool_decide (parent `prefix_of` child).

(** [None] also where the library throws: an empty path has no absolute form. *)
Definition configured_location (p : string) : option path :=
  if bool_decide (p = EmptyString) then None
  else
  let absolute := absolute_normal p in
  q ← weakly_canonical (parent_path absolute); Some (append q (filename absolute)).

(** * Validation *)

(** The [bool] of the code, [true] for a valid configuration. *)
Definition valid_endpoint (c : DaemonConfig) (e : string) (tls_protected : bool) : bool :=
  match rfind ":"%char e with
  | None => false
  | Some n =>
      if (n =? 0)%nat || (S n =? String.length e)%nat then false
      else tls_protected || flag c allow_plaintext_non_loopback || loopback_host (endpoint_host e)
  end.

Definition empty (s : string) : bool := bool_decide (s = EmptyString).

Definition validate_paths (c : DaemonConfig) : bool :=
  match configured_location (text c workspace_root) with
  | None => false
  | Some ws =>
      match configured_location (text c active_program_directory) with
      | None => false
      | Some active => negb (path_contains ws active || path_contains active ws)
      end
  end.

Definition validate_tls (c : DaemonConfig) : bool :=
  negb (flag c mtls && negb (flag c tls))
  && negb (flag c tls && (empty (text c tls_certificate) || empty (text c tls_private_key)))
  && negb (flag c mtls && empty (text c tls_client_ca))
  && negb (flag c tls && (negb (is_regular_file (text c tls_certificate))
                          || negb (is_regular_file (text c tls_private_key))))
  && negb (flag c mtls && negb (is_regular_file (text c tls_client_ca)))
  && negb (negb (empty (text c nml_file)) && negb (is_regular_file (text c nml_file))).

Definition validate_limits (c : DaemonConfig) : bool :=
  negb ((size c workspace_quota_bytes =? 0) || (size c total_quota_bytes =? 0)
        || (size c max_workspaces =? 0) || (size c max_workspace_entries =? 0)
        || (size c max_upload_metadata_bytes =? 0))
  && negb (size c total_quota_bytes <? size c workspace_quota_bytes)
  && negb (size c command_queue_capacity =? 0)
  && negb ((size c max_remote_components =? 0) || (size c max_remote_hal_items =? 0))
  && negb (2 ^ 64 - 1 - 65 <? size c max_remote_components)
  && negb ((size c status_replay_capacity =? 0) || (size c gcode_batch_size =? 0))
  && negb ((size c scope_samples <? 1000) || (1000000 <? size c scope_samples)).

Definition validate_periods (c : DaemonConfig) : bool :=
  negb ((time c workspace_ttl <=? 0) || (kMaxWorkspaceTtl <? time c workspace_ttl)
        || (time c upload_timeout <=? 0) || (time c status_period <=? 0)
        || (time c error_period <=? 0) || (time c position_period <=? 0)
        || (time c topology_period <=? 0) || (time c scope_period <=? 0)
        || (time c scope_heartbeat <=? 0) || (time c component_heartbeat_interval <=? 0)
        || (time c component_heartbeat_timeout <=? time c component_heartbeat_interval)
        || (time c component_min_sampling_period <=? 0)
        || (time c component_max_sampling_period <? time c component_min_sampling_period)
        || (time c component_default_sampling_period <? time c component_min_sampling_period)
        || (time c component_max_sampling_period <? time c component_default_sampling_period)).

Definition validate_config (c : DaemonConfig) : bool :=
  valid_endpoint c (text c endpoint) (flag c tls)
  && valid_endpoint c (text c telemetry_endpoint) false
  && negb (String.eqb (text c endpoint) (text c telemetry_endpoint))
  && validate_tls c && validate_paths c && validate_limits c && validate_periods c.

(** * The command line *)

(** What an option does with its value. *)
Inductive Setter :=
| SetText (f : TextField)
| SetSize (f : SizeField)
| SetMilliseconds (f : TimeField)
| SetTtl
| SetUploadTimeout.

#[export] Instance setter_eq_dec : EqDecision Setter.
Proof. solve_decision. Defined.

Definition options : list (string * Setter) :=
  [("--endpoint", SetText endpoint); ("--telemetry-endpoint", SetText telemetry_endpoint);
   ("--ini", SetText ini_file); ("--nml", SetText nml_file);
   ("--workspace-root", SetText workspace_root);
   ("--active-program-directory", SetText active_program_directory);
   ("--tls-certificate", SetText tls_certificate); ("--tls-private-key", SetText tls_private_key);
   ("--tls-client-ca", SetText tls_client_ca);
   ("--workspace-quota", SetSize workspace_quota_bytes);
   ("--total-quota", SetSize total_quota_bytes); ("--max-workspaces", SetSize max_workspaces);
   ("--max-workspace-entries", SetSize max_workspace_entries);
   ("--max-upload-metadata", SetSize max_upload_metadata_bytes);
   ("--workspace-ttl-seconds", SetTtl); ("--upload-timeout-seconds", SetUploadTimeout);
   ("--command-queue-capacity", SetSize command_queue_capacity);
   ("--command-completion-timeout-ms", SetMilliseconds command_completion_timeout);
   ("--status-replay-capacity", SetSize status_replay_capacity);
   ("--gcode-batch-size", SetSize gcode_batch_size); ("--scope-samples", SetSize scope_samples);
   ("--max-remote-components", SetSize max_remote_components);
   ("--max-remote-hal-items", SetSize max_remote_hal_items);
   ("--status-period-ms", SetMilliseconds status_period);
   ("--error-period-ms", SetMilliseconds error_period);
   ("--position-period-ms", SetMilliseconds position_period);
   ("--topology-period-ms", SetMilliseconds topology_period);
   ("--scope-period-ms", SetMilliseconds scope_period);
   ("--scope-heartbeat-ms", SetMilliseconds scope_heartbeat);
   ("--component-heartbeat-interval-ms", SetMilliseconds component_heartbeat_interval);
   ("--component-heartbeat-timeout-ms", SetMilliseconds component_heartbeat_timeout);
   ("--component-default-sampling-ms", SetMilliseconds component_default_sampling_period);
   ("--component-min-sampling-ms", SetMilliseconds component_min_sampling_period);
   ("--component-max-sampling-ms", SetMilliseconds component_max_sampling_period)].

Definition apply_setter (s : Setter) (value : string) (c : DaemonConfig) : option DaemonConfig :=
  match s with
  | SetText f => Some (set_text f value c)
  | SetSize f => (fun n => set_size f n c) <$> parse_size value
  | SetMilliseconds f => (fun n => set_time f n c) <$> parse_milliseconds value
  | SetTtl =>
      n ← parse_size value;
      if (n =? 0) || (kMaxWorkspaceTtl <? n) then None else Some (set_time workspace_ttl (i64_wrap n) c)
  | SetUploadTimeout =>
      n ← parse_size value;
      if n =? 0 then None else Some (set_time upload_timeout (i64_wrap n) c)
  end.

(** The first option the argument gives a value for. *)
Fixpoint find_option (argument : string) (l : list (string * Setter)) : option (Setter * string) :=
  match l with
  | [] => None
  | (name, s) :: l =>
      match option_value argument name with
      | Some value => Some (s, value)
      | None => find_option argument l
      end
  end.

(** One argument: the configuration and whether help was asked for. *)
Definition parse_argument (argument : string) (st : DaemonConfig * bool) :
    option (DaemonConfig * bool) :=
  let (c, help) := st in
  if String.eqb argument "--help" || String.eqb argument "-h" then Some (c, true)
  else if String.eqb argument "--tls" then Some (set_flag tls c, help)
  else if String.eqb argument "--mtls" then Some (set_flag mtls c, help)
  else if String.eqb argument "--reflection" then Some (set_flag reflection c, help)
  else if String.eqb argument "--allow-plaintext-non-loopback"
  then Some (set_flag allow_plaintext_non_loopback c, help)
  else
    '(s, value) ← find_option argument options;
    c ← apply_setter s value c; Some (c, help).

Fixpoint parse_arguments (args : list string) (st : DaemonConfig * bool) :
    option (DaemonConfig * bool) :=
  match args with
  | [] => Some st
  | a :: args => st ← parse_argument a st; parse_arguments args st
  end.

(** [parse_config], without the program name and the error texts. *)
Definition parse_config (args : list string) : option (DaemonConfig * bool) :=
  st ← parse_arguments args (default_config, false);
  if validate_config st.1 then Some st else None.

End FileSystem.

(** * The command line is read back *)

Lemma digit_pretty (x : N) : (x < 10)%N -> digit (pretty_N_char x) = Some (Z.of_N x).
Proof.
  intros Hx. assert (x ∈ [0; 1; 2; 3; 4; 5; 6; 7; 8; 9]%N) as Hin.
  { destruct x as [|p]; [apply list_elem_of_here|]. apply list_elem_of_lookup.
    exists (Pos.to_nat p). do 10 (destruct p as [p|p|]; try reflexivity; try lia). }
  repeat (apply elem_of_cons in Hin as [->|Hin]; [reflexivity|]). by apply not_elem_of_nil in Hin.
Qed.

(** Digits that were printed are read back. *)
Lemma digits_pretty_go (x : N) : forall acc, digits 0 (pretty_N_go x acc) = digits (Z.of_N x) acc.
Proof.
  induction (N.lt_wf_0 x) as [x _ IH]. intros acc. destruct (N.eq_dec x 0%N) as [->|Hx]; [done|].
  rewrite pretty_N_go_step by lia. rewrite IH by (apply N.div_lt; lia). cbn [digits].
  rewrite digit_pretty by (apply N.mod_lt; done). cbn [mbind option_bind]. f_equal.
  pose proof (N.div_mod x 10 ltac:(done)). lia.
Qed.

Lemma pretty_N_go_nonempty x acc : acc <> EmptyString -> pretty_N_go x acc <> EmptyString.
Proof.
  revert acc. induction (N.lt_wf_0 x) as [x _ IH]. intros acc Ha.
  destruct (N.eq_dec x 0%N) as [->|Hx]; [done|]. rewrite pretty_N_go_step by lia.
  apply IH; [apply N.div_lt; lia|done].
Qed.

Lemma parse_size_pretty (n : N) : (n < 2 ^ 64)%N -> parse_size (pretty n) = Some (Z.of_N n).
Proof.
  intros Hn. unfold pretty, pretty_N. case_decide as H0; [by subst|].
  assert (Hne : pretty_N_go n EmptyString <> EmptyString).
  { rewrite pretty_N_go_step by lia. by apply pretty_N_go_nonempty. }
  assert (Hd : digits 0 (pretty_N_go n EmptyString) = Some (Z.of_N n)) by apply digits_pretty_go.
  unfold parse_size. destruct (pretty_N_go n EmptyString) as [|c s]; [done|].
  rewrite Hd. cbn [mbind option_bind]. by rewrite (proj2 (Z.ltb_lt _ _)) by lia.
Qed.

(** ** Options *)

(** No ["="] in the name of an option. *)
Definition plain (s : string) : Prop := find "="%char s = None.

Lemma plain_cons c s : plain (String c s) -> c <> "="%char /\ plain s.
Proof.
  unfold plain. cbn [find]. destruct (Ascii.eqb_spec "="%char c) as [<-|Hne]; [done|].
  destruct (find "="%char s); [done|]. by split.
Qed.

Lemma prefix_cons c s d t :
  String.prefix (String c s) (String d t) = bool_decide (c = d) && String.prefix s t.
Proof.
  cbn [String.prefix]. destruct (Ascii.ascii_dec c d) as [->|Hne];
    [by rewrite bool_decide_true|by rewrite bool_decide_false].
Qed.

Lemma string_app_cons c (s t : string) : String c s +:+ t = String c (s +:+ t).
Proof. done. Qed.

Lemma option_value_spec name m v :
  plain name -> plain m ->
  option_value (name +:+ "=" +:+ v) m = if decide (name = m) then Some v else None.
Proof.
  unfold option_value. revert m. induction name as [|c name IH]; intros m Hn Hm.
  - destruct m as [|d m].
    + rewrite decide_True by done. by destruct v.
    + apply plain_cons in Hm as [Hd _]. rewrite decide_False by done.
      change (EmptyString +:+ "=" +:+ v) with (String "="%char v).
      rewrite string_app_cons, prefix_cons, bool_decide_false by done. done.
  - apply plain_cons in Hn as [Hc Hn]. rewrite !string_app_cons. destruct m as [|d m].
    + rewrite decide_False by done. change (EmptyString +:+ "=") with (String "="%char EmptyString).
      rewrite prefix_cons, bool_decide_false by done. done.
    + apply plain_cons in Hm as [Hd Hm]. rewrite string_app_cons, prefix_cons.
      specialize (IH m Hn Hm). case_bool_decide as Hcd; [subst d|].
      * etransitivity; [exact IH|]. destruct (decide (name = m)) as [->|Hne].
        -- by rewrite decide_True.
        -- rewrite decide_False by congruence. done.
      * cbn [andb]. rewrite decide_False by congruence. done.
Qed.

Lemma find_option_spec l name s v :
  Forall (fun o : string * Setter => plain o.1) l -> NoDup (fst <$> l) -> (name, s) ∈ l ->
  find_option (name +:+ "=" +:+ v) l = Some (s, v).
Proof.
  intros Hp Hn Hin. assert (Hname : plain name).
  { rewrite Forall_forall in Hp. by apply (Hp (name, s)). }
  induction l as [|[m s'] l IH]; [by apply not_elem_of_nil in Hin|].
  apply Forall_cons in Hp as [Hm Hp]. cbn in Hn. apply NoDup_cons in Hn as [Hnin Hn].
  cbn [find_option]. rewrite option_value_spec by done.
  apply elem_of_cons in Hin as [[= -> ->]|Hin]; [by rewrite decide_True|].
  rewrite decide_False; [by apply IH|]. intros ->. apply Hnin, list_elem_of_fmap. by exists (m, s).
Qed.

Lemma options_plain : Forall (fun o : string * Setter => plain o.1) options.
Proof. unfold options, plain. repeat constructor. Qed.

Lemma options_nodup : NoDup (fst <$> options).
Proof. apply (bool_decide_unpack _). vm_compute. exact I. Qed.

Lemma option_not_flag name v w : plain w -> String.eqb (name +:+ "=" +:+ v) w = false.
Proof.
  intros Hw. apply String.eqb_neq. intros <-. induction name as [|c name IH].
  - by apply (plain_cons "="%char v) in Hw as [? _].
  - rewrite string_app_cons in Hw. apply IH. by apply plain_cons in Hw as [_ ?].
Qed.

(** Options are read back exactly: every option of the table, given as
    [name=value], is recognised as itself (no other option and no flag takes
    it), and a size printed in decimal sets its field to that number and leaves
    every other field alone. *)
Theorem option_roundtrip name s v (n : N) c help :
  (name, s) ∈ options -> (n < 2 ^ 64)%N ->
  parse_argument (name +:+ "=" +:+ v) (c, help)
    = (c' ← apply_setter s v c; Some (c', help))
  /\ (forall f, s = SetSize f ->
      exists c', parse_argument (name +:+ "=" +:+ pretty n) (c, help) = Some (c', help)
      /\ size c' f = Z.of_N n /\ (forall g, g <> f -> size c' g = size c g)
      /\ text c' = text c /\ time c' = time c /\ flag c' = flag c).
Proof.
  intros Hin Hn.
  assert (Hp : forall v, parse_argument (name +:+ "=" +:+ v) (c, help)
    = (c' ← apply_setter s v c; Some (c', help))).
  { intros w. unfold parse_argument. rewrite !option_not_flag by reflexivity. cbn [orb].
    by rewrite (find_option_spec _ _ _ _ options_plain options_nodup Hin). }
  split; [apply Hp|]. intros f ->. rewrite Hp. cbn [apply_setter].
  rewrite parse_size_pretty by done. cbn. eexists. split; [reflexivity|]. cbn.
  split; [by rewrite decide_True|]. split; [|done]. intros g Hg. by rewrite decide_False.
Qed.

Lemma option_roundtrip_witness :
  exists c', parse_argument "--scope-samples=16000" (default_config, false) = Some (c', false)
  /\ size c' scope_samples = 16000.
Proof.
  destruct (option_roundtrip "--scope-samples" (SetSize scope_samples) "" 16000 default_config false)
    as [_ H].
  - apply (bool_decide_unpack _). vm_compute. exact I.
  - reflexivity.
  - destruct (H scope_samples eq_refl) as (c' & Hc & Hs & _). exists c'.
    split; [exact Hc|exact Hs].
Defined.

(** * Accepted configurations *)

(** An endpoint whose bracketed host, if it has one, ends right before the port. *)
Definition bracket_ok (e : string) : bool :=
  match e with
  | String c _ =>
      if Ascii.eqb c "["%char then bool_decide (rfind ":"%char e = S <$> find "]"%char e) else true
  | EmptyString => true
  end.

Lemma take_take a b s : take a (take b s) = take (a `min` b) s.
Proof. revert b s. induction a as [|a IH]; intros [|b] [|c s]; cbn; try done. by rewrite IH. Qed.

Lemma find_back c s k :
  find c s = Some k -> back (take (S k) s) = Some c /\ String.length (take (S k) s) = S k.
Proof.
  revert k. induction s as [|d s IH]; intros k; cbn [find]; [done|].
  destruct (Ascii.eqb_spec c d) as [->|Hne]; [by intros [= <-]|].
  destruct (find c s) as [j|] eqn:Ef; [|done]. intros [= <-].
  destruct (IH j eq_refl) as [Hb Hl]. destruct s as [|e s]; [done|]. cbn in *. by rewrite Hl.
Qed.

(** The validated host is the one the telemetry server resolves. *)
Lemma split_endpoint_host e n :
  rfind ":"%char e = Some n -> n <> O -> bracket_ok e = true ->
  exists port, split_endpoint e = Some (endpoint_host e, port).
Proof.
  intros Hr Hn Hb. unfold split_endpoint, endpoint_host, bracket_ok in *. rewrite Hr.
  destruct e as [|c rest]; [done|]. destruct n as [|n]; [done|]. cbn [take].
  destruct (Ascii.eqb_spec c "["%char) as [->|Hc]; rewrite ?andb_true_r, ?andb_false_r; cbn [andb].
  - apply bool_decide_eq_true in Hb. rewrite Hr in Hb.
    destruct (find "]"%char (String "["%char rest)) as [k|] eqn:Ef; [|done]. cbn in Hb.
    injection Hb as ->. destruct (find_back _ _ _ Ef) as [Hba Hl].
    cbn [take] in Hba, Hl. rewrite Hba, bool_decide_true, andb_true_r by done.
    destruct k as [|k]; [done|]. rewrite Hl. cbn [Nat.ltb Nat.leb Nat.sub].
    eexists. rewrite Nat.sub_0_r, take_take. by replace (k `min` S k)%nat with k by lia.
  - by eexists.
Qed.

Section Accepted.
Variable cwd : list string.
Variable weakly_canonical : path -> option path.
Variable is_regular_file : string -> bool.
Abbreviation parse := (parse_config cwd weakly_canonical is_regular_file).

(** What the parts of the daemon rely on. *)
Record limits_ok (c : DaemonConfig) : Prop := mkLimits {
  lo_quota : 0 < size c workspace_quota_bytes <= size c total_quota_bytes;
  lo_counts : Forall (fun f => 0 < size c f)
    [max_workspaces; max_workspace_entries; max_upload_metadata_bytes; command_queue_capacity;
     status_replay_capacity; gcode_batch_size; max_remote_components; max_remote_hal_items];
  lo_components : size c max_remote_components + 65 < 2 ^ 64;
  lo_scope : 1000 <= size c scope_samples <= 1000000;
  lo_ttl : 0 < time c workspace_ttl <= kMaxWorkspaceTtl;
  lo_periods : Forall (fun f => 0 < time c f)
    [upload_timeout; status_period; error_period; position_period; topology_period; scope_period;
     scope_heartbeat; component_heartbeat_interval; component_min_sampling_period];
  lo_heartbeat : time c component_heartbeat_interval < time c component_heartbeat_timeout;
  lo_sampling : time c component_min_sampling_period <= time c component_default_sampling_period
    <= time c component_max_sampling_period;
}.

(** Sizes come from the table of defaults or from [parse_size]. *)
Definition sizes_ok (c : DaemonConfig) : Prop := forall f, in_u64 (size c f).

Lemma digits_nonneg acc v n : 0 <= acc -> digits acc v = Some n -> 0 <= n.
Proof.
  revert acc. induction v as [|ch v IH]; intros acc Ha; cbn [digits]; [by intros [= <-]|].
  unfold digit. destruct (_ && _) eqn:Eb; [|done]. cbn. bool_to_prop. apply IH. lia.
Qed.

Lemma parse_size_range v n : parse_size v = Some n -> in_u64 n.
Proof.
  unfold parse_size. destruct v as [|ch v]; [done|].
  destruct (digits 0 (String ch v)) as [k|] eqn:Ed; [|done]. cbn.
  destruct (Z.ltb_spec k (2 ^ 64)); [|done]. intros [= <-]. split; [|done].
  by eapply digits_nonneg; [|exact Ed].
Qed.

Lemma parse_argument_sizes a st st' :
  sizes_ok st.1 -> parse_argument a st = Some st' -> sizes_ok st'.1.
Proof.
  intros Hs. unfold parse_argument. destruct st as [c help].
  repeat (destruct (String.eqb _ _); [intros [= <-]; done|]). cbn [orb].
  destruct (find_option a options) as [[s v]|]; [|done]. cbn [mbind option_bind].
  destruct s; cbn [apply_setter].
  - intros [= <-]. done.
  - destruct (parse_size v) as [n|] eqn:Ep; [|done]. intros [= <-]. intros g. cbn.
    case_decide; [by eapply parse_size_range|apply Hs].
  - unfold parse_milliseconds. destruct (parse_size v); [|done]. by intros [= <-].
  - destruct (parse_size v); [|done]. cbn. destruct (_ || _); [done|]. by intros [= <-].
  - destruct (parse_size v); [|done]. cbn. destruct (_ =? 0); [done|]. by intros [= <-].
Qed.

Lemma parse_arguments_sizes args st st' :
  sizes_ok st.1 -> parse_arguments args st = Some st' -> sizes_ok st'.1.
Proof.
  revert st. induction args as [|a args IH]; intros st Hs; cbn; [by intros [= <-]|].
  destruct (parse_argument a st) as [st1|] eqn:Ea; [|done]. cbn.
  apply IH. by eapply parse_argument_sizes.
Qed.

Lemma default_sizes : sizes_ok default_config.
Proof. by intros []. Qed.

Lemma validate_limits_ok c :
  sizes_ok c -> validate_limits c = true -> validate_periods c = true -> limits_ok c.
Proof.
  intros Hs Hl Hp. unfold validate_limits, validate_periods in *. bool_to_prop.
  assert (Hpos : forall f, size c f <> 0 -> 0 < size c f).
  { intros f Hf. destruct (Hs f). lia. }
  split; repeat constructor; try (by apply Hpos); try lia; apply Hpos; done.
Qed.

(** A path without its trailing separator, and whether another is at or below it. *)
Definition strip (p : path) : path :=
  if bool_decide (last p = Some EmptyString) then removelast p else p.
Definition inside (parent child : path) : Prop := strip parent `prefix_of` child.

Lemma strip_none p : last p <> Some EmptyString -> strip p = p.
Proof. intros H. unfold strip. by rewrite bool_decide_false. Qed.

(** A file is named, and is there. *)
Definition given_file (f : string) : Prop := f <> EmptyString /\ is_regular_file f = true.

(** C37: What an accepted configuration satisfies: the limits, quotas, periods and the
    workspace TTL named in [limits_ok] are positive and ordered as the components assume
    (the command completion timeout is not among them); the gRPC and telemetry endpoints
    differ; when the override for plaintext endpoints is not given, a gRPC endpoint
    without TLS has a loopback host, and a telemetry endpoint whose brackets, if any, end
    right before the port is resolved by the server to a loopback host; mTLS implies TLS
    and names the file of the client CA, TLS names both of its files, and an NML file, if
    one is named, is a file; and the elements of neither of the workspace root and the
    active program directory are a prefix of those of the other, which for a directory
    written without a trailing separator means that the other is not at or below it. *)
Theorem config_accepted args c help :
  parse args = Some (c, help) ->
  limits_ok c
  /\ text c endpoint <> text c telemetry_endpoint
  /\ (flag c allow_plaintext_non_loopback = false ->
       (flag c tls = false -> loopback_host (endpoint_host (text c endpoint)) = true)
       /\ (bracket_ok (text c telemetry_endpoint) = true ->
           exists host port, split_endpoint (text c telemetry_endpoint) = Some (host, port)
             /\ loopback_host host = true))
  /\ (flag c mtls = true -> flag c tls = true /\ given_file (text c tls_client_ca))
  /\ (flag c tls = true -> given_file (text c tls_certificate)
       /\ given_file (text c tls_private_key))
  /\ (text c nml_file <> EmptyString -> is_regular_file (text c nml_file) = true)
  /\ exists ws active,
       configured_location cwd weakly_canonical (text c workspace_root) = Some ws
       /\ configured_location cwd weakly_canonical (text c active_program_directory) = Some active
       /\ ~ ws `prefix_of` active /\ ~ active `prefix_of` ws
       /\ (last ws <> Some EmptyString -> ~ inside ws active)
       /\ (last active <> Some EmptyString -> ~ inside active ws).
Proof.
  unfold parse_config. intros H.
  destruct (parse_arguments args (default_config, false)) as [[c' help']|] eqn:Ea; [|done].
  cbn [mbind option_bind fst] in H. destruct (validate_config _ _ _ c') eqn:Ev; [|done].
  injection H as -> ->. unfold validate_config in Ev. bool_to_prop.
  pose proof (parse_arguments_sizes _ (default_config, false) _ default_sizes Ea) as Hs. cbn in Hs.
  split; [by apply validate_limits_ok|]. split; [by apply String.eqb_neq|].
  unfold valid_endpoint in *.
  destruct (rfind ":"%char (text c telemetry_endpoint)) as [n|] eqn:En; [|done].
  destruct (rfind ":"%char (text c endpoint)) as [k|] eqn:Ek; [|done].
  destruct (_ || _) eqn:Eb; [done|]. destruct ((n =? 0)%nat || _) eqn:Eb'; [done|].
  split; [|split; [|split; [|split]]].
  - intros Hal. rewrite Hal in *. cbn [orb] in *. split; [intros Ht; by rewrite Ht in *|].
    intros Hbr. bool_to_prop.
    destruct (split_endpoint_host _ _ En ltac:(done) Hbr) as [port Hport].
    by exists (endpoint_host (text c telemetry_endpoint)), port.
  - intros Hm. unfold validate_tls, empty, given_file in *. rewrite Hm in *. cbn [andb] in *.
    bool_to_prop. by destruct (flag c tls).
  - intros Ht. unfold validate_tls, empty, given_file in *. rewrite Ht in *. cbn [andb] in *.
    by bool_to_prop.
  - intros Hn. unfold validate_tls, empty in *. rewrite (bool_decide_eq_false_2 _ Hn) in *.
    bool_to_prop. by destruct (is_regular_file (text c nml_file)).
  - unfold validate_paths in *. destruct (configured_location _ _ (text c workspace_root)) as [ws|];
      [|done].
    destruct (configured_location _ _ (text c active_program_directory)) as [active|]; [|done].
    exists ws, active. unfold path_contains in *. bool_to_prop. unfold inside.
    split_and!; try done; intros Hl; by rewrite strip_none.
Qed.

End Accepted.

Definition any_path (p : path) : option path := Some p.
Definition no_file (_ : string) : bool := false.

Lemma config_accepted_witness :
  exists c, parse_config ["home"] any_path no_file
              ["--endpoint=[::1]:7000"; "--telemetry-endpoint=[::1]:7001"; "--workspace-root=ws"]
            = Some (c, false)
  /\ exists host port, split_endpoint (text c telemetry_endpoint) = Some (host, port)
      /\ loopback_host host = true.
Proof.
  destruct (parse_config ["home"] any_path no_file
    ["--endpoint=[::1]:7000"; "--telemetry-endpoint=[::1]:7001"; "--workspace-root=ws"])
    as [[c help]|] eqn:E; [|vm_compute in E; discriminate].
  pose proof (config_accepted _ _ _ _ _ _ E) as (_ & _ & H & _).
  assert (Hh : help = false) by (vm_compute in E; congruence). subst help.
  exists c. split; [reflexivity|]. vm_compute in E. injection E as <-.
  destruct (H eq_refl) as [_ Hb]. exact (Hb eq_refl).
Defined.

(** What validation lets through: a trailing separator on the workspace root
    hides that the active program directory is inside it; text between the
    closing bracket and the port is ignored by the loopback check although the
    telemetry server resolves the whole host; and periods are not bounded above
    (the greatest 64-bit count of milliseconds is accepted, which no count of
    nanoseconds can express), nor the completion timeout below. *)
Theorem config_gaps :
  (exists c ws active, parse_config [] any_path no_file
       ["--workspace-root=/srv/ws/"; "--active-program-directory=/srv/ws/active"] = Some (c, false)
     /\ configured_location [] any_path (text c workspace_root) = Some ws
     /\ configured_location [] any_path (text c active_program_directory) = Some active
     /\ inside ws active)
  /\ (exists c host port, parse_config [] any_path no_file
       ["--telemetry-endpoint=[localhost].example:80"] = Some (c, false)
     /\ split_endpoint (text c telemetry_endpoint) = Some (host, port)
     /\ loopback_host host = false)
  /\ (exists c, parse_config [] any_path no_file ["--status-period-ms=9223372036854775807"]
       = Some (c, false) /\ ~ in_i64 (time c status_period * 1000000))
  /\ exists c, parse_config [] any_path no_file
       ["--command-completion-timeout-ms=18446744073709551615"] = Some (c, false)
     /\ time c command_completion_timeout < 0.
Proof.
  split_and!.
  - eexists _, _, _. split; [vm_compute; reflexivity|]. split; [vm_compute; reflexivity|].
    split; [vm_compute; reflexivity|]. by exists ["active"].
  - eexists _, _, _. split; [vm_compute; reflexivity|]. split; vm_compute; reflexivity.
  - eexists. split; [vm_compute; reflexivity|]. unfold in_i64. vm_compute. intros [_ H]. discriminate.
  - eexists. split; [vm_compute; reflexivity|]. vm_compute. reflexivity.
Qed.
