(* ===== verification/Paths.v ===== *)
(** The paths of the workspace store ([program/workspace.cc]): the names a client gives,
    the kernel's resolution of paths with symbolic links, and the checks that keep an
    entry inside its workspace.  What the store does with them is in [Workspace]. *)
From Stdlib Require Import String Ascii.
From S2P Require Import Prelude Workspace DaemonConfig.

Local Open Scope Z_scope.

(** * Names *)
Module Names.
Import Text.

(** The elements a relative path iterates over. *)
Definition elements (v : string) : list string :=
  let (names, trailing) := split_names v EmptyString in
  names ++ (if trailing && negb (bool_decide (names = [])) then [EmptyString] else []).

(** [lexically_normal()] of a relative path: [.] goes, [..] takes the name before it. *)
Fixpoint relative_names (stack names : list string) : list string :=
  match names with
  | [] => rev stack
  | n :: names =>
      if String.eqb n dot || String.eqb n EmptyString then relative_names stack names
      else if String.eqb n dotdot then
        match stack with
        | top :: below =>
            if String.eqb top dotdot then relative_names (n :: stack) names else relative_names below names
        | [] => relative_names [n] names
        end
      else relative_names (n :: stack) names
  end.

Definition lexically_normal (path : list string) : list string :=
  match path with
  | [] => []
  | _ =>
      let normal := relative_names [] path in
      let ends := match last path with
                  | Some n => String.eqb n EmptyString || String.eqb n dot || String.eqb n dotdot
                  | None => false
                  end in
      match last normal with
      | None => [dot]
      | Some n => if ends && negb (String.eqb n dotdot) then normal ++ [EmptyString] else normal
      end
  end.

Definition special (n : string) : bool := String.eqb n EmptyString || String.eqb n dot || String.eqb n dotdot.

(** [valid_relative_path] *)
Definition valid_relative_path (value : string) : option (list string) :=
  if bool_decide (value = EmptyString) then None
  else
    let path := elements value in
    if bool_decide (find "/"%char value = Some O) || negb (bool_decide (path = lexically_normal path)) then None
    else if existsb special path then None
    else Some path.

(** [path_contains] *)
Definition path_contains (parent child : list string) : bool := bool_decide (parent `prefix_of` child).

(** [opaque_workspace_id], from the numbers of the random device. *)
Definition hex_digit (n : Z) : Ascii.ascii :=
  match String.get (Z.to_nat (Z.land n 15)) "0123456789abcdef" with Some c => c | None => "0"%char end.

Fixpoint hex_digits (count : nat) (random : list Z) : string :=
  match count with
  | O => EmptyString
  | S count => String (hex_digit (hd 0 random)) (hex_digits count (tl random))
  end.

Definition opaque_workspace_id (random : list Z) : string := "workspace-" +:+ hex_digits 32 random.

Lemma relative_names_proper stack names :
  existsb special names = false -> relative_names stack names = rev stack ++ names.
Proof.
  revert stack. induction names as [|n names IH]; intros stack; cbn; [by rewrite app_nil_r|].
  unfold special at 1. intros [Hn H]%orb_false_iff. apply orb_false_iff in Hn as [Hn Hdd].
  apply orb_false_iff in Hn as [He Hd]. rewrite Hd, He, Hdd. cbn. rewrite IH by done. cbn. by rewrite <- app_assoc.
Qed.

(** The comparison with the normal form adds nothing to the test of the components. *)
Theorem valid_relative_path_iff value path :
  valid_relative_path value = Some path <->
  value <> EmptyString /\ find "/"%char value <> Some O /\ path = elements value
  /\ Forall (fun n => special n = false) path.
Proof.
  unfold valid_relative_path. rewrite Forall_forall.
  assert (Hsp : forall l, existsb special l = false <-> forall n, n ∈ l -> special n = false).
  { intros l. split.
    - intros H n Hn. destruct (special n) eqn:E; [|done]. rewrite <- H. symmetry. apply existsb_exists. exists n.
      by rewrite <- list_elem_of_In.
    - intros H. destruct (existsb special l) eqn:E; [|done]. apply existsb_exists in E as (x & Hx & Hs).
      rewrite <- list_elem_of_In in Hx. by rewrite (H x Hx) in Hs. }
  case_bool_decide as Hv; [naive_solver|].
  destruct (bool_decide (find "/"%char value = Some O)) eqn:Ea; cbn [orb].
  { apply bool_decide_eq_true_1 in Ea. naive_solver. }
  apply bool_decide_eq_false_1 in Ea. destruct (existsb special (elements value)) eqn:Es.
  - assert (Hno : ~ forall n, n ∈ elements value -> special n = false) by (rewrite <- Hsp; congruence).
    destruct (negb _); naive_solver.
  - assert (Hn : elements value = lexically_normal (elements value)).
    { unfold lexically_normal. destruct (elements value) as [|n l] eqn:El; [done|].
      rewrite relative_names_proper by done. cbn [rev app].
      assert (Hlast : forall x, last (n :: l) = Some x -> special x = false).
      { intros x Hx. apply (proj1 (Hsp _) Es). by apply last_Some_elem_of. }
      destruct (last (n :: l)) as [x|] eqn:Ex; [|by apply last_None in Ex].
      pose proof (Hlast x eq_refl) as H. unfold special in H. by rewrite H. }
    rewrite bool_decide_eq_true_2 by done. cbn. rewrite Hsp in Es. naive_solver.
Qed.

(** Every generated identifier is one the store accepts. *)
Lemma hex_digit_ok n : Store.id_digit (hex_digit n) = true.
Proof.
  unfold hex_digit. assert (H : 0 <= Z.land n 15 < 16).
  { change 15 with (Z.ones 4). rewrite Z.land_ones by done. by apply Z.mod_pos_bound. }
  set (m := Z.land n 15) in *. clearbody m.
  assert (Hm : m ∈ seqZ 0 16) by (apply elem_of_seqZ; lia).
  assert (Hall : Forall (fun m => Store.id_digit
    match String.get (Z.to_nat m) "0123456789abcdef" with Some c => c | None => "0"%char end = true) (seqZ 0 16))
    by (vm_compute; repeat constructor).
  rewrite Forall_forall in Hall. by apply Hall.
Qed.

Lemma hex_digits_length count random : String.length (hex_digits count random) = count.
Proof. revert random. induction count as [|count IH]; intros random; [done|]. cbn. by rewrite IH. Qed.

Lemma substring_all s : String.substring 0 (String.length s) s = s.
Proof. induction s as [|c s IH]; [done|]. cbn. by rewrite IH. Qed.

Lemma hex_digits_ok count random :
  forallb Store.id_digit (String.list_ascii_of_string (hex_digits count random)) = true.
Proof. revert random. induction count as [|count IH]; intros random; [done|]. cbn. by rewrite hex_digit_ok, IH. Qed.

Lemma valid_id_digits s :
  String.length s = 32%nat -> forallb Store.id_digit (String.list_ascii_of_string s) = true ->
  Store.valid_id ("workspace-" +:+ s) = true.
Proof.
  intros Hl Hd. unfold Store.valid_id.
  assert (Hlen : String.length ("workspace-" +:+ s) = 42%nat)
    by (transitivity (10 + String.length s)%nat; [reflexivity|by rewrite Hl]).
  assert (Hsub : String.substring 10 32 ("workspace-" +:+ s) = s).
  { transitivity (String.substring 0 32 s); [reflexivity|]. rewrite <- Hl. apply substring_all. }
  assert (Hpre : String.prefix "workspace-" ("workspace-" +:+ s) = true) by by destruct s.
  by rewrite Hlen, Hsub, Hpre, Hd.
Qed.

Theorem opaque_id_valid random : Store.valid_id (opaque_workspace_id random) = true.
Proof. apply valid_id_digits; [apply hex_digits_length|apply hex_digits_ok]. Qed.

(** ** Ownership *)

(** What [lstat] tells of a directory. *)
Record Stat := mkStat { st_directory : bool; st_uid : Z; st_mode : Z }.

Definition S_IRWXG : Z := 56.
Definition S_IWGRP : Z := 16.
Definition S_IRWXO : Z := 7.
Definition S_IWOTH : Z := 2.

(** [require_owned_directory]; [None]: [lstat] failed. *)
Definition require_owned_directory (geteuid : Z) (status : option Stat) (private_directory : bool) : bool :=
  match status with
  | None => false
  | Some st =>
      st_directory st && (st_uid st =? geteuid)
      && (Z.land (st_mode st) (Z.lor S_IWGRP S_IWOTH) =? 0)
      && negb (private_directory && negb (Z.land (st_mode st) (Z.lor S_IRWXG S_IRWXO) =? 0))
  end.

(** The permissions [create_owned_directory] gives a directory it created. *)
Definition created_mode (private_directory : bool) : Z :=
  if private_directory then 448 else Z.lor 448 (Z.lor (Z.lor 32 8) (Z.lor 4 1)).

(** A directory the daemon created passes its own check, and what passes the check for a
    private directory grants nothing to anyone else. *)
Lemma created_directory_owned uid private :
  require_owned_directory uid (Some (mkStat true uid (created_mode private))) private = true.
Proof. unfold require_owned_directory. cbn [st_directory st_uid st_mode]. rewrite Z.eqb_refl. by destruct private. Qed.

End Names.

(** * The file system *)
Module Tree.
Import Names.

Inductive Kind := Directory | Regular | Symlink (absolute : bool) (target : list string) | Other.

#[export] Instance Kind_eq_dec : EqDecision Kind.
Proof. solve_decision. Defined.

(** What is at a place, named by the directories above it (never by links). *)
Abbreviation tree := (gmap (list string) Kind).

Definition node (t : tree) (p : list string) : option Kind :=
  if bool_decide (p = []) then Some Directory else t !! p.

(** Everything is in a directory. *)
Definition well_formed (t : tree) : Prop :=
  forall p n k, t !! (p ++ [n]) = Some k -> node t p = Some Directory.

(** The kernel's resolution of [rest] from the directory [here]; [follow] tells whether a
    link at the end is followed.  Each name costs one unit of [fuel], the names of links
    included: the kernel, too, gives up after so many links. *)
Fixpoint walk (fuel : nat) (t : tree) (follow : bool) (here rest : list string) : option (list string) :=
  match rest with
  | [] => Some here
  | n :: rest =>
      match fuel with
      | O => None
      | S fuel =>
          if String.eqb n EmptyString || String.eqb n dot then walk fuel t follow here rest
          else if String.eqb n dotdot then walk fuel t follow (removelast here) rest
          else
            match t !! (here ++ [n]) with
            | None => None
            | Some Directory => walk fuel t follow (here ++ [n]) rest
            | Some (Symlink absolute target) =>
                if bool_decide (rest = []) && negb follow then Some (here ++ [n])
                else walk fuel t follow (if absolute then [] else here) (target ++ rest)
            | Some _ => if bool_decide (rest = []) then Some (here ++ [n]) else None
            end
      end
  end.

Section Tree.
Context (fuel : nat) (t : tree).

(** [fs::symlink_status] *)
Definition symlink_status (p : list string) : option Kind := q ← walk fuel t false [] p; node t q.

(** [safe_regular_file] *)
Definition safe_regular_file (p : list string) : bool := bool_decide (symlink_status p = Some Regular).

Definition is_symlink (k : option Kind) : bool := match k with Some (Symlink _ _) => true | _ => false end.

(** [has_symlink_component]: from [path] up to [stop], or to the root. *)
Fixpoint climb (steps : nat) (current stop : list string) : bool :=
  if is_symlink (symlink_status current) then true
  else if bool_decide (current = stop) || bool_decide (current = []) then false
  else match steps with O => false | S steps => climb steps (removelast current) stop end.

Definition has_symlink_component (path stop : list string) : bool := climb (length path) path stop.

(** The constructor's test of the root, and what [pin_entry] opens. *)
Definition root_accepted (root : list string) : bool := negb (has_symlink_component root []).

Definition workspace_path (root : list string) (id : string) : list string := root ++ [id].

Definition entry_source (root : list string) (id value : string) : option (list string) :=
  if negb (Store.valid_id id) then None
  else
    entry ← valid_relative_path value;
    let workspace := workspace_path root id in
    let source := workspace ++ entry in
    if negb (safe_regular_file source) || has_symlink_component source workspace then None else Some source.

(** ** Confinement *)

Definition proper (p : list string) : Prop := Forall (fun n => special n = false) p.

(** No place from [p] down to [p ++ q] is a link. *)
Definition no_link (p : list string) : Prop := is_symlink (node t p) = false.

Lemma walk_special f b here n rest :
  special n = false ->
  walk (S f) t b here (n :: rest)
  = match t !! (here ++ [n]) with
    | None => None
    | Some Directory => walk f t b (here ++ [n]) rest
    | Some (Symlink absolute target) =>
        if bool_decide (rest = []) && negb b then Some (here ++ [n])
        else walk f t b (if absolute then [] else here) (target ++ rest)
    | Some _ => if bool_decide (rest = []) then Some (here ++ [n]) else None
    end.
Proof.
  unfold special. intros [H Hdd]%orb_false_iff. apply orb_false_iff in H as [He Hd]. cbn. by rewrite He, Hd, Hdd.
Qed.

(** A path whose directories are no links leads where it says. *)
Lemma walk_plain b q here f k :
  proper q -> (length q <= f)%nat -> well_formed t -> node t (here ++ q) = Some k ->
  (b = false \/ is_symlink (Some k) = false) -> walk f t b here q = Some (here ++ q).
Proof.
  revert here f. induction q as [|n q IH]; intros here f Hp Hf Hwf Hk Hb.
  { destruct f; cbn; by rewrite app_nil_r. }
  destruct f as [|f]; [cbn in Hf; lia|]. apply Forall_cons in Hp as [Hn Hp]. rewrite walk_special by done.
  assert (Hcons : here ++ n :: q = (here ++ [n]) ++ q) by by rewrite <- app_assoc.
  destruct (decide (q = [])) as [->|Hq].
  - unfold node in Hk. rewrite bool_decide_eq_false_2 in Hk by by destruct here. rewrite Hk.
    destruct k as [| |a l|]; rewrite ?bool_decide_eq_true_2 by done; try done; [by destruct f|].
    destruct Hb as [->|Hb]; [done|]. done.
  - assert (Hdir : node t (here ++ [n]) = Some Directory).
    { clear IH Hb Hf. rewrite Hcons in Hk. revert k Hk. induction q as [|x q IHq] using rev_ind; intros k Hk; [done|].
      rewrite app_assoc in Hk. unfold node in Hk. rewrite bool_decide_eq_false_2 in Hk by by destruct here.
      apply Hwf in Hk. destruct q as [|y q]; [by rewrite app_nil_r in Hk|]. apply Forall_app in Hp as [Hp _].
      apply (IHq Hp) with (k := Directory); [by rewrite <- app_assoc|done|done]. }
    unfold node in Hdir. rewrite bool_decide_eq_false_2 in Hdir by by destruct here. rewrite Hdir, Hcons.
    apply IH; [done|cbn in Hf; lia|done|by rewrite <- Hcons|done].
Qed.

(** A resolution through places that are no links stays where the names say. *)
Lemma walk_straight rest here f r :
  proper rest -> node t here = Some Directory -> walk f t false here rest = Some r ->
  (forall r1 n r2, rest = r1 ++ n :: r2 -> no_link (here ++ r1 ++ [n])) ->
  r = here ++ rest /\ exists k, node t (here ++ rest) = Some k.
Proof.
  revert here f. induction rest as [|n rest IH]; intros here f Hp Hd Hw Hl.
  { destruct f; injection Hw as <-; rewrite app_nil_r; eauto. }
  destruct f as [|f]; [done|]. apply Forall_cons in Hp as [Hn Hp]. rewrite walk_special in Hw by done.
  assert (Hnode : node t (here ++ [n]) = t !! (here ++ [n]))
    by (unfold node; by rewrite bool_decide_eq_false_2 by by destruct here).
  assert (Hno : no_link (here ++ [n])) by (by apply (Hl [] n rest)).
  assert (Hcons : here ++ n :: rest = (here ++ [n]) ++ rest) by by rewrite <- app_assoc.
  unfold no_link in Hno. rewrite Hnode in Hno.
  destruct (t !! (here ++ [n])) as [[| |a l|]|] eqn:Ek; try done.
  - rewrite Hcons. apply (IH (here ++ [n]) f); [done|by rewrite Hnode|done|].
    intros r1 m r2 ->. rewrite <- app_assoc. by apply (Hl (n :: r1) m r2).
  - case_bool_decide as Hr; [|done]. subst rest. injection Hw as <-. split; [done|]. exists Regular. by rewrite Hnode.
  - case_bool_decide as Hr; [|done]. subst rest. injection Hw as <-. split; [done|]. exists Other. by rewrite Hnode.
Qed.

(** What the climb has seen. *)
Lemma climb_spec steps current stop q :
  climb steps current stop = false -> (length current <= steps)%nat ->
  stop `prefix_of` q -> q `prefix_of` current -> is_symlink (symlink_status q) = false.
Proof.
  revert current. induction steps as [|steps IH]; intros current Hc Hlen Hs Hq.
  - destruct current; [|cbn in Hlen; lia]. apply prefix_nil_inv in Hq as ->. cbn [climb] in Hc.
    by destruct (is_symlink _).
  - cbn [climb] in Hc. destruct (is_symlink (symlink_status current)) eqn:Ec; [done|].
    destruct Hq as [l ->]. destruct l as [|x l _] using rev_ind; [by rewrite app_nil_r in Ec|].
    assert (Hne : q ++ l ++ [x] <> stop).
    { intros <-. apply prefix_length in Hs. rewrite !length_app in Hs. cbn in Hs. lia. }
    rewrite !bool_decide_eq_false_2 in Hc by (done || by destruct q, l). cbn [orb] in Hc.
    rewrite app_assoc, removelast_last in Hc. apply (IH (q ++ l)); [done| |done|by apply prefix_app_r].
    rewrite !length_app in *. cbn in Hlen. lia.
Qed.

(** A place whose status shows no link is none. *)
Lemma status_no_link p :
  well_formed t -> (length p <= fuel)%nat -> proper p -> is_symlink (symlink_status p) = false -> no_link p.
Proof.
  intros Hwf Hf Hp Hs. unfold no_link. destruct (node t p) as [k|] eqn:Ek; [|done].
  unfold symlink_status in Hs. rewrite (walk_plain false p [] fuel k) in Hs; [|done|done|done|done|by left].
  cbn in Hs. by rewrite Ek in Hs.
Qed.

Lemma valid_id_proper id : Store.valid_id id = true -> special id = false.
Proof.
  unfold Store.valid_id. intros H. apply andb_true_iff in H as [H _]. apply andb_true_iff in H as [_ H].
  apply Nat.eqb_eq in H. unfold special, dot, dotdot.
  destruct (String.eqb_spec id EmptyString) as [->|_]; [done|].
  destruct (String.eqb_spec id ".") as [->|_]; [done|]. by destruct (String.eqb_spec id "..") as [->|_].
Qed.

(** C24: a pinned entry is a file of its workspace.  Given a root that the constructor
    accepted, when a client's text passes the checks of [pin_entry] for a workspace
    identifier, the path it gives lies below the directory of that workspace, no part of
    it is a link, and the kernel resolves it, links followed or not, to that very place,
    where there is a regular file.  So no text, and no link in or around the workspace,
    leads the interpreter to a file outside. *)
Theorem entry_confined root id value source :
  well_formed t -> proper root -> root_accepted root = true -> (length source <= fuel)%nat ->
  entry_source root id value = Some source ->
  (exists entry, source = root ++ id :: entry /\ proper entry)
  /\ (forall p, p `prefix_of` source -> no_link p)
  /\ (forall follow, walk fuel t follow [] source = Some source)
  /\ t !! source = Some Regular.
Proof.
  intros Hwf Hroot Hacc Hfuel H. unfold entry_source in H. destruct (Store.valid_id id) eqn:Eid; [|done].
  cbn [negb] in H. destruct (valid_relative_path value) as [entry|] eqn:Ev; [|done]. cbn in H.
  apply valid_relative_path_iff in Ev as (_ & _ & _ & Hentry).
  destruct (negb _ || _) eqn:Ec; [done|]. injection H as <-. apply orb_false_iff in Ec as [Hsafe Hlink].
  apply negb_false_iff, bool_decide_eq_true_1 in Hsafe. unfold root_accepted in Hacc. apply negb_true_iff in Hacc.
  unfold workspace_path in *. set (source := (root ++ [id]) ++ entry) in *.
  assert (Hshape : source = root ++ id :: entry) by (unfold source; by rewrite <- app_assoc).
  assert (Hproper : proper source).
  { rewrite Hshape. apply Forall_app_2; [done|]. by constructor; [apply valid_id_proper|]. }
  assert (Hno : forall p, p `prefix_of` source -> no_link p).
  { intros p Hp. assert (Hpp : proper p) by (destruct Hp as [l Hl]; rewrite Hl in Hproper; by apply Forall_app in Hproper as [? _]).
    assert (Hpl : (length p <= fuel)%nat) by (apply prefix_length in Hp; lia).
    apply status_no_link; [done|done|done|].
    destruct (decide (p `prefix_of` root)) as [Hr|Hr].
    - eapply climb_spec; [exact Hacc|done|apply prefix_nil|done].
    - eapply climb_spec; [exact Hlink|done| |done].
      destruct (prefix_weak_total (root ++ [id]) p source) as [H|H]; [by exists entry|done|done|].
      destruct H as [l Hl]. destruct l as [|x l _] using rev_ind; [by rewrite app_nil_r in Hl; rewrite Hl|].
      destruct Hr. rewrite app_assoc in Hl. apply app_inj_tail in Hl as [-> _]. by exists l. }
  unfold symlink_status in Hsafe. destruct (walk fuel t false [] source) as [r|] eqn:Ew; [|done]. cbn in Hsafe.
  destruct (walk_straight source [] fuel r) as [-> _]; [done|done|done| |].
  { intros r1 n r2 E. apply Hno. exists r2. rewrite E. cbn. by rewrite <- app_assoc. }
  cbn in *. split_and!; [by exists entry|done| |].
  - intros follow. by rewrite (walk_plain follow source [] fuel Regular); [..|by right].
  - unfold node in Hsafe. by destruct (bool_decide (source = [])).
Qed.


End Tree.

(** A workspace with a program in a directory, and a link that points elsewhere. *)
Definition sample_id : string := opaque_workspace_id [].
Definition sample_tree : tree :=
  list_to_map
    [(["srv"], Directory); (["srv"; sample_id], Directory); (["srv"; sample_id; "sub"], Directory);
     (["srv"; sample_id; "sub"; "a.ngc"], Regular); (["srv"; sample_id; "out"], Symlink true ["etc"]);
     (["etc"], Directory); (["etc"; "passwd"], Regular)].

(** The same paths with and without the link. *)
Example link_refused :
  symlink_status 10 sample_tree ["srv"; sample_id; "out"; "passwd"] = Some Regular
  /\ entry_source 10 sample_tree ["srv"] sample_id "out/passwd" = None
  /\ entry_source 10 sample_tree ["srv"] sample_id "../srv/x" = None.
Proof. split_and!; vm_compute; reflexivity. Qed.

Lemma entry_confined_witness :
  entry_source 10 sample_tree ["srv"] sample_id "sub/a.ngc" = Some ["srv"; sample_id; "sub"; "a.ngc"]
  /\ forall follow, walk 10 sample_tree follow [] ["srv"; sample_id; "sub"; "a.ngc"]
       = Some ["srv"; sample_id; "sub"; "a.ngc"].
Proof.
  split; [vm_compute; reflexivity|].
  destruct (entry_confined 10 sample_tree ["srv"] sample_id "sub/a.ngc" ["srv"; sample_id; "sub"; "a.ngc"])
    as (_ & _ & H & _).
  - intros p n k Hk. unfold sample_tree in Hk.
    apply elem_of_list_to_map_2 in Hk. rewrite !elem_of_cons, elem_of_nil in Hk.
    repeat (destruct Hk as [Hk|Hk]; [injection Hk as Hp _|]); [..|done];
      first [apply (app_inj_tail p []) in Hp as [-> _]
            |apply (app_inj_tail p ["srv"]) in Hp as [-> _]
            |apply (app_inj_tail p ["srv"; sample_id]) in Hp as [-> _]
            |apply (app_inj_tail p ["srv"; sample_id; "sub"]) in Hp as [-> _]
            |apply (app_inj_tail p ["etc"]) in Hp as [-> _]]; vm_compute; reflexivity.
  - repeat constructor.
  - vm_compute. reflexivity.
  - vm_compute. lia.
  - vm_compute. reflexivity.
  - exact H.
Defined.

End Tree.
