(* ===== verification/ServerRuntime.v ===== *)
(** The server's life cycle ([grpc/server/runtime.cc], [grpc/server/main.cc]).

    [Shutdown] models [ServerRuntime]: the signal thread and the main thread, each at its
    own place in [request_shutdown] and [finalize], over the executors and the admission
    counters of [CallbackRuntime].  The services and gRPC appear as the steps that reach
    them.  [Pools] gives the sizes [run_grpc_server] chooses. *)
From Stdlib Require Import String Ascii.
From S2P Require Import Prelude CallbackRuntime DaemonConfig.

Local Open Scope Z_scope.

Module Shutdown.

Inductive Pool := blocking | parser_worker | hal_worker | scope_worker.
Inductive Counter := stream_admission | upload_admission | component_admission.
Inductive Part :=
| scope | hal | program | ini | machine | telemetry_websocket | position_telemetry | hal_telemetry.

#[export] Instance Pool_eq_dec : EqDecision Pool.
Proof. solve_decision. Defined.
#[export] Instance Counter_eq_dec : EqDecision Counter.
Proof. solve_decision. Defined.
#[export] Instance Part_eq_dec : EqDecision Part.
Proof. solve_decision. Defined.

(** One [invoke_shutdown] or one [reset].  [ShutdownPool] and [JoinPool] are the critical
    section and the joins of [BoundedExecutor::shutdown]. *)
Inductive Action :=
| HealthCheck
| StopWebSocket
| StopCounter (c : Counter)
| StopAdmission (p : Pool)
| CloseTelemetry (t : Part)
| ShutdownService (s : Part)
| ShutdownServer
| Drain (p : Pool)
| Release (t : Part)
| ShutdownPool (p : Pool)
| JoinPool (p : Pool)
| ReleaseServer.

#[export] Instance Action_eq_dec : EqDecision Action.
Proof. solve_decision. Defined.

(** The steps of [request_shutdown], in its order. *)
Definition edge : list Action :=
  [HealthCheck; StopWebSocket;
   StopCounter stream_admission; StopCounter upload_admission; StopCounter component_admission;
   StopAdmission blocking; StopAdmission parser_worker; StopAdmission hal_worker; StopAdmission scope_worker;
   CloseTelemetry position_telemetry; CloseTelemetry hal_telemetry;
   ShutdownService machine; ShutdownService ini; ShutdownService program; ShutdownService hal;
   ShutdownService scope; ShutdownServer].

(** The steps of [finalize] after the signal thread was joined. *)
Definition final : list Action :=
  [Drain blocking; Drain parser_worker; Drain hal_worker; Drain scope_worker;
   Release scope; Release hal; Release program; Release ini; Release machine;
   Release telemetry_websocket; Release position_telemetry; Release hal_telemetry;
   ShutdownPool parser_worker; JoinPool parser_worker; ShutdownPool hal_worker; JoinPool hal_worker;
   ShutdownPool scope_worker; JoinPool scope_worker; ShutdownPool blocking; JoinPool blocking;
   ReleaseServer].

(** The signal thread: not started, in [run_control_thread] before and in
    [request_shutdown], returned, and joined. *)
Inductive Control :=
| NotStarted
| SigWait
| ControlEnter
| ControlEdge (todo : list Action)
| ControlReturned
| Joined.

(** The calls the main thread still has to make, the current one first: [finalize] of
    [run_grpc_server], then the two of the destructor. *)
Inductive Call := RequestShutdown | Finalize.

Inductive Frame :=
| Enter
| InEdge (todo : list Action)
| Wake
| Join
| EnterFinal
| InFinal (todo : list Action).

Inductive Main :=
| StartControl
| Waiting
| Calling (f : Frame) (calls : list Call)
| Finished.

Definition destructor : list Call := [RequestShutdown; Finalize].

Record World := mkWorld {
  shutdown_requested : bool;
  finalized : bool;
  control : Control;
  main : Main;
  signalled : bool;
  server_stopped : bool;
  pools : Pool -> Executor.Executor;
  counters : Counter -> Admission.AdmissionCounter;
  attempted : list Action;
  failed : list Action;
}.

Definition set_control (c : Control) (w : World) : World :=
  mkWorld (shutdown_requested w) (finalized w) c (main w) (signalled w) (server_stopped w) (pools w)
    (counters w) (attempted w) (failed w).
Definition set_main (m : Main) (w : World) : World :=
  mkWorld (shutdown_requested w) (finalized w) (control w) m (signalled w) (server_stopped w) (pools w)
    (counters w) (attempted w) (failed w).
Definition set_requested (w : World) : World :=
  mkWorld true (finalized w) (control w) (main w) (signalled w) (server_stopped w) (pools w)
    (counters w) (attempted w) (failed w).
Definition set_finalized (w : World) : World :=
  mkWorld (shutdown_requested w) true (control w) (main w) (signalled w) (server_stopped w) (pools w)
    (counters w) (attempted w) (failed w).
Definition set_signalled (w : World) : World :=
  mkWorld (shutdown_requested w) (finalized w) (control w) (main w) true (server_stopped w) (pools w)
    (counters w) (attempted w) (failed w).
Definition set_stopped (w : World) : World :=
  mkWorld (shutdown_requested w) (finalized w) (control w) (main w) (signalled w) true (pools w)
    (counters w) (attempted w) (failed w).
Definition pool_op (p : Pool) (o : Executor.Op) (w : World) : World :=
  mkWorld (shutdown_requested w) (finalized w) (control w) (main w) (signalled w) (server_stopped w)
    (fun q => if decide (q = p) then Executor.apply (pools w q) o else pools w q)
    (counters w) (attempted w) (failed w).
Definition counter_op (c : Counter) (o : Admission.Op) (w : World) : World :=
  mkWorld (shutdown_requested w) (finalized w) (control w) (main w) (signalled w) (server_stopped w) (pools w)
    (fun d => if decide (d = c) then Admission.apply (counters w d) o else counters w d)
    (attempted w) (failed w).
Definition note (a : Action) (threw : bool) (w : World) : World :=
  mkWorld (shutdown_requested w) (finalized w) (control w) (main w) (signalled w) (server_stopped w) (pools w)
    (counters w) (attempted w ++ [a]) (if threw then failed w ++ [a] else failed w).

#[local] Existing Instance Executor.WorkerThread_eq_dec.

(** An action that waits does not return before. *)
Definition ready (a : Action) (w : World) : bool :=
  match a with
  | Drain p => Executor.idle (pools w p)
  | JoinPool p => forallb (fun t => bool_decide (t = Executor.Returned)) (Executor.workers (pools w p))
  | _ => true
  end.

(** [invoke_shutdown]: the action is attempted, and what it throws is swallowed.  The
    operations of the executors and of the counters do not throw. *)
Definition perform (a : Action) (throws : bool) (w : World) : World :=
  match a with
  | StopCounter c => note a false (counter_op c Admission.OpStop w)
  | StopAdmission p => note a false (pool_op p Executor.OpStopAdmission w)
  | Drain _ | JoinPool _ => note a false w
  | ShutdownPool p => note a false (pool_op p (Executor.OpShutdown true) w)
  | ShutdownServer => if throws then note a true w else note a false (set_stopped w)
  | _ => note a throws w
  end.

(** [start_control_thread] and [run_control_thread].  [ok]: the thread could be started. *)
Definition start_control (ok : bool) (w : World) : World :=
  if ok then set_main Waiting (set_control SigWait w)
  else set_main (Calling Enter destructor) w.

(** A step of the signal thread. *)
Definition control_step (throws : bool) (w : World) : World :=
  match control w with
  | SigWait => if signalled w then set_control ControlEnter w else w
  | ControlEnter =>
      if shutdown_requested w then set_control ControlReturned w
      else set_control (ControlEdge edge) (set_requested w)
  | ControlEdge (a :: todo) => set_control (ControlEdge todo) (perform a throws w)
  | ControlEdge [] => set_control ControlReturned w
  | _ => w
  end.

(** What the main thread does after a call. *)
Definition next_call (calls : list Call) : Main :=
  match calls with [] => Finished | _ => Calling Enter calls end.

Definition joinable (c : Control) : bool :=
  match c with NotStarted | Joined => false | _ => true end.

(** A step of the main thread. *)
Definition main_step (throws : bool) (w : World) : World :=
  match main w with
  | StartControl => start_control (negb throws) w
  | Waiting => if server_stopped w then set_main (Calling Enter (Finalize :: destructor)) w else w
  | Calling Enter calls =>
      if shutdown_requested w then
        set_main (match calls with Finalize :: _ => Calling Join calls | _ => next_call (tail calls) end) w
      else set_main (Calling (InEdge edge) calls) (set_requested w)
  | Calling (InEdge (a :: todo)) calls => set_main (Calling (InEdge todo) calls) (perform a throws w)
  | Calling (InEdge []) calls => set_main (Calling Wake calls) w
  | Calling Wake calls =>
      let w1 := if joinable (control w) then set_signalled w else w in
      set_main (match calls with Finalize :: _ => Calling Join calls | _ => next_call (tail calls) end) w1
  | Calling Join calls =>
      match control w with
      | ControlReturned => set_main (Calling EnterFinal calls) (set_control Joined w)
      | NotStarted | Joined => set_main (Calling EnterFinal calls) w
      | _ => w
      end
  | Calling EnterFinal calls =>
      if finalized w then set_main (next_call (tail calls)) w
      else set_main (Calling (InFinal final) calls) (set_finalized w)
  | Calling (InFinal (a :: todo)) calls =>
      if ready a w then set_main (Calling (InFinal todo) calls) (perform a throws w) else w
  | Calling (InFinal []) calls => set_main (next_call (tail calls)) w
  | Finished => w
  end.

(** Everyone else: signals, the end of the gRPC server for its own reasons, the callbacks
    and the threads of the executors, and the users of the counters. *)
Inductive Step :=
| MainStep (throws : bool)
| ControlStep (throws : bool)
| Signal
| ServerStops
| PoolStep (p : Pool) (o : Executor.Op)
| CounterStep (c : Counter) (o : Admission.Op).

Definition step (w : World) (s : Step) : World :=
  match s with
  | MainStep throws => main_step throws w
  | ControlStep throws => control_step throws w
  | Signal => set_signalled w
  | ServerStops => set_stopped w
  | PoolStep _ (Executor.OpShutdown _) => w
  | PoolStep p o => pool_op p o w
  | CounterStep c o => counter_op c o w
  end.

Definition start (ps : Pool -> Executor.Executor) (cs : Counter -> Admission.AdmissionCounter) : World :=
  mkWorld false false NotStarted StartControl false false ps cs [] [].
Definition run (ps : Pool -> Executor.Executor) (cs : Counter -> Admission.AdmissionCounter)
    (steps : list Step) : World := foldl step (start ps cs) steps.

(** ** The order of the steps *)

Definition control_todo (c : Control) : list Action := match c with ControlEdge l => l | _ => [] end.
Definition main_todo (m : Main) : list Action :=
  match m with Calling (InEdge l) _ | Calling (InFinal l) _ => l | _ => [] end.
Definition apart (c : Control) : Prop := c = NotStarted \/ c = Joined.
Definition before_edge (c : Control) : Prop := c = NotStarted \/ c = SigWait \/ c = ControlEnter.

Definition shape (calls : list Call) : Prop :=
  calls = Finalize :: destructor \/ calls = destructor \/ calls = [Finalize].

(** Where the main thread is, and what that says of the flags. *)
Definition main_ok (w : World) : Prop :=
  match main w with
  | StartControl => control w = NotStarted /\ finalized w = false /\ shutdown_requested w = false
  | Waiting => finalized w = false /\ ~ apart (control w)
  | Calling f calls =>
      shape calls
      /\ match f with
         | Enter => True
         | InEdge _ | Wake => shutdown_requested w = true /\ finalized w = false
         | Join => shutdown_requested w = true /\ head calls = Some Finalize
         | EnterFinal => shutdown_requested w = true /\ head calls = Some Finalize /\ apart (control w)
         | InFinal l => finalized w = true /\ head calls = Some Finalize /\ l `suffix_of` final
         end
  | Finished => finalized w = true
  end.

(** What is done and what is to do make up the sequence. *)
Record flow (w : World) : Prop := mkFlow {
  flow_main : main_ok w;
  flow_before : shutdown_requested w = false ->
    attempted w = [] /\ before_edge (control w) /\ main_todo (main w) = [] /\ finalized w = false;
  flow_edge : shutdown_requested w = true -> finalized w = false ->
    attempted w ++ control_todo (control w) ++ main_todo (main w) = edge
    /\ (control_todo (control w) = [] \/ main_todo (main w) = []);
  flow_final : finalized w = true ->
    attempted w ++ main_todo (main w) = edge ++ final /\ apart (control w) /\ shutdown_requested w = true;
}.

(** The part of the state [perform] leaves alone. *)
Lemma perform_keeps a t w :
  let w' := perform a t w in
  shutdown_requested w' = shutdown_requested w /\ finalized w' = finalized w /\ control w' = control w
  /\ main w' = main w /\ signalled w' = signalled w /\ attempted w' = attempted w ++ [a].
Proof. destruct a, t; by split_and!. Qed.

Lemma flow_start ps cs : flow (start ps cs).
Proof. split; cbn; try done. intros _. split_and!; try done. by left. Qed.

(** The signal thread moves without an action. *)
Lemma flow_set_control c w :
  flow w -> ~ apart (control w) -> control_todo c = control_todo (control w) ->
  (shutdown_requested w = false -> before_edge c) -> (main w = Waiting -> ~ apart c) -> flow (set_control c w).
Proof.
  intros [F1 F2 F3 F4] Ha Hc Hb Hx. split; cbn.
  - unfold main_ok in *. cbn. destruct (main w) as [| |[]|]; try done.
    + destruct F1 as [H _]. destruct Ha. by left.
    + split; [apply F1|by apply Hx].
    + by destruct F1 as (? & ? & ? & ?).
  - intros H. destruct (F2 H) as (? & ? & ? & ?). split_and!; auto.
  - by rewrite Hc.
  - intros H. by destruct (F4 H) as (_ & ? & _).
Qed.

(** An action that is tried leaves the sum of the done and the undone. *)
Lemma flow_control_step t w : flow w -> flow (control_step t w).
Proof.
  intros Hw. unfold control_step. destruct (control w) as [| | |[|a todo]| |] eqn:Ec; try done.
  - destruct (signalled w); [|done].
    apply flow_set_control; rewrite ?Ec; [done|by intros []|done| |by intros _ []]. intros _. by right; right.
  - destruct (shutdown_requested w) eqn:Er.
    + apply flow_set_control; rewrite ?Ec, ?Er; [done|by intros []|done|done|by intros _ []].
    + destruct Hw as [F1 F2 F3 F4]. destruct (F2 Er) as (Ha & _ & Hm & Hf). split; cbn.
      * unfold main_ok in *. cbn. rewrite Er, Hf, Ec in *.
        destruct (main w) as [| |[]|]; try done; try (by destruct F1 as (? & ? & _)); by split; [|intros []].
      * done.
      * intros _ _. rewrite Ha, Hm. cbn. split; [done|by right].
      * congruence.
  - apply flow_set_control; rewrite ?Ec; [done|by intros []|done| |by intros _ []]. intros H.
    destruct (flow_before _ Hw H) as (_ & Hb & _). by rewrite Ec in Hb; destruct Hb as [?|[?|?]].
  - destruct (perform_keeps a t w) as (K1 & K2 & _ & K4 & _ & K6). destruct Hw as [F1 F2 F3 F4].
    rewrite Ec in *.
    assert (Hr : shutdown_requested w = true).
    { destruct (shutdown_requested w); [done|]. by destruct (F2 eq_refl) as (_ & [?|[?|?]] & _). }
    assert (Hf : finalized w = false).
    { destruct (finalized w); [|done]. by destruct (F4 eq_refl) as (_ & [?|?] & _). }
    destruct (F3 Hr Hf) as [He Ho]. split; cbn; rewrite ?K1, ?K2, ?K4, ?K6; [|congruence| |congruence].
    + unfold main_ok in *. cbn. rewrite K1, K2, K4. rewrite Ec in *.
      destruct (main w) as [| |[]|]; try done; try (by destruct F1 as (? & ? & _)); [by split; [|intros []]|].
      by destruct F1 as (? & ? & ? & [?|?]).
    + intros _ _. cbn in *. rewrite <- app_assoc. split; [done|]. destruct Ho as [?|?]; [done|by right].
Qed.

(** The main thread moves without an action. *)
Lemma flow_set_main m w :
  flow w -> main_todo (main w) = [] -> main_todo m = [] ->
  main_ok (set_main m w) -> flow (set_main m w).
Proof.
  intros [F1 F2 F3 F4] H1 H2 Hm. rewrite H1 in *. split; cbn; rewrite ?H2; done.
Qed.

(** The main thread moves to its next call. *)
Lemma flow_next_call calls w :
  flow w -> main_todo (main w) = [] -> shape calls ->
  (calls = [Finalize] -> finalized w = true) -> flow (set_main (next_call (tail calls)) w).
Proof.
  intros Hw Hm Hs Hf. apply flow_set_main; [done|done|..].
  - by destruct calls as [|? [|? ?]].
  - unfold main_ok. cbn. destruct Hs as [->|[->| ->]]; cbn; [| |by apply Hf]; split; try done.
    + by right; left.
    + by right; right.
Qed.


Lemma flow_set_signalled w : flow w -> flow (set_signalled w).
Proof. by intros []. Qed.

(** The main thread attempts the first of its actions. *)
Lemma flow_perform m a todo t w :
  flow w -> main_todo (main w) = a :: todo -> main_todo m = todo -> shutdown_requested w = true ->
  main_ok (set_main m (perform a t w)) -> flow (set_main m (perform a t w)).
Proof.
  intros [F1 F2 F3 F4] H1 H2 Hr Hm. destruct (perform_keeps a t w) as (K1 & K2 & K3 & K4 & _ & K6).
  rewrite H1, Hr in *. split; cbn; rewrite ?K1, ?K2, ?K3, ?K6, ?H2; [done|congruence|..].
  - intros _ Hf. destruct (F3 eq_refl Hf) as [He [Hc|Hc]]; [|done]. rewrite Hc in *. cbn in *.
    rewrite <- app_assoc. split; [done|by left].
  - intros Hf. rewrite <- app_assoc. by apply F4.
Qed.

(** Back from the edge, or past it. *)
Lemma flow_after_edge calls w :
  flow w -> main_todo (main w) = [] -> shape calls -> shutdown_requested w = true ->
  flow (set_main (match calls with Finalize :: _ => Calling Join calls | _ => next_call (tail calls) end) w).
Proof.
  intros Hw Hm Hs Hr. destruct Hs as [->|[->| ->]].
  - apply flow_set_main; [done..|]. split; [by left|]. by split.
  - apply (flow_next_call destructor w); [done|done|by right; left|done].
  - apply flow_set_main; [done..|]. split; [by right; right|]. by split.
Qed.

Lemma flow_join calls c w :
  flow w -> main w = Calling Join calls -> ~ apart (control w) \/ control w = c -> apart c ->
  control_todo (control w) = [] -> flow (set_main (Calling EnterFinal calls) (set_control c w)).
Proof.
  intros Hw Em Hc Ha Ht. pose proof (flow_main _ Hw) as Hm. unfold main_ok in Hm. rewrite Em in Hm.
  destruct Hm as (Hs & Hr & Hh). apply flow_set_main.
  - destruct Hc as [Hc| <-]; [|by destruct w].
    apply flow_set_control; [done|done|by rewrite Ht; destruct Ha as [->| ->]|congruence|by rewrite Em].
  - cbn. by rewrite Em.
  - done.
  - by split_and!.
Qed.

Lemma flow_main_step t w : flow w -> flow (main_step t w).
Proof.
  intros Hw. pose proof (flow_main _ Hw) as Hm. unfold main_step. unfold main_ok in Hm.
  destruct (main w) as [| |[|[|a todo]| | | |[|a todo]] calls|] eqn:Em; try done.
  - destruct Hm as (Hc & Hf & _). unfold start_control. destruct (negb t).
    + destruct Hw as [F1 F2 F3 F4]. rewrite Hc, Em in *. split; cbn; [by split; [|intros []]| |done|by rewrite Hf].
      intros H. destruct (F2 H) as (? & _). split_and!; try done. by right; left.
    + apply flow_set_main; [done|by rewrite Em|done|]. split; [by right; left|done].
  - destruct (server_stopped w); [|done]. apply flow_set_main; [done|by rewrite Em|done|].
    split; [by left|done].
  - destruct Hm as [Hs _]. destruct (shutdown_requested w) eqn:Er.
    + by apply flow_after_edge; [|rewrite Em|..].
    + destruct Hw as [F1 F2 F3 F4]. destruct (F2 Er) as (Ha & Hb & _ & Hf). split; cbn.
      * split; [done|]. cbn. by rewrite Hf.
      * done.
      * intros _ _. rewrite Ha. destruct Hb as [->|[->| ->]]; (split; [done|by left]).
      * congruence.
  - apply flow_set_main; [done|by rewrite Em|done|]. by destruct Hm.
  - destruct (perform_keeps a t w) as (K1 & K2 & _). destruct Hm as (Hs & Hr & Hf).
    apply (flow_perform _ a todo); [done|by rewrite Em|done|done|]. split; [done|]. cbn. by rewrite K1, K2.
  - destruct Hm as (Hs & Hr & _). set (w1 := if joinable _ then _ else w).
    assert (H1 : flow w1 /\ main w1 = main w /\ shutdown_requested w1 = shutdown_requested w).
    { unfold w1. destruct (joinable (control w)); [by split_and!; [apply flow_set_signalled|..]|done]. }
    destruct H1 as (H1 & H2 & H3). by apply flow_after_edge; [|rewrite H2, Em|..|rewrite H3].
  - destruct (control w) eqn:Ec; try done.
    + replace w with (set_control NotStarted w) at 1 by (by destruct w; cbn in *; subst).
      apply flow_join; rewrite ?Ec; [done|done|by right|by left|done].
    + apply flow_join; rewrite ?Ec; [done|done|left; by intros []|by right|done].
    + replace w with (set_control Joined w) at 1 by (by destruct w; cbn in *; subst).
      apply flow_join; rewrite ?Ec; [done|done|by right|by right|done].
  - destruct Hm as (Hs & Hr & Hh & Ha). destruct (finalized w) eqn:Ef.
    + by apply flow_next_call; [|rewrite Em|..].
    + destruct Hw as [F1 F2 F3 F4]. rewrite Em in *. destruct (F3 Hr Ef) as [He _]. split; cbn.
      * split_and!; done.
      * congruence.
      * done.
      * intros _. split_and!; try done. cbn in He. rewrite app_nil_r in He.
        destruct Ha as [H|H]; rewrite H in He; cbn in He; by rewrite ?app_nil_r in He; rewrite He.
  - by apply flow_next_call; [|rewrite Em|apply Hm|intros _; apply Hm].
  - destruct (ready a w); [|done]. destruct (perform_keeps a t w) as (K1 & K2 & _). destruct Hm as (Hs & Hf & Hh & Hl).
    apply (flow_perform _ a todo); [done|by rewrite Em|done|by apply (flow_final _ Hw Hf)|].
    split; [done|]. cbn. rewrite K2. split_and!; [done|done|]. by eapply suffix_cons_l.
Qed.

Lemma flow_step w s : flow w -> flow (step w s).
Proof.
  intros Hw. destruct s as [t|t| | |p o|c o]; cbn [step].
  - by apply flow_main_step.
  - by apply flow_control_step.
  - by apply flow_set_signalled.
  - by destruct Hw.
  - destruct Hw, o; done.
  - by destruct Hw.
Qed.

Lemma flow_run ps cs steps : flow (run ps cs steps).
Proof.
  unfold run. pose proof (flow_start ps cs) as H. revert H. generalize (start ps cs).
  induction steps as [|s steps IH]; intros w Hw; [done|]. by apply IH, flow_step.
Qed.

(** ** What the steps leave behind *)

Definition all_returned (e : Executor.Executor) : Prop :=
  Forall (eq Executor.Returned) (Executor.workers e).

(** What no operation of a running server takes back. *)
Definition moved (e e' : Executor.Executor) : Prop :=
  (Executor.accepting e = false -> Executor.accepting e' = false)
  /\ (Executor.inv e -> Executor.inv e')
  /\ (Executor.dropped e = [] -> Executor.dropped e' = [])
  /\ (all_returned e -> all_returned e').

#[export] Instance moved_preorder : PreOrder moved.
Proof. split; [intros a; by split_and!|]. intros a b c H1 H2. unfold moved in *. naive_solver. Qed.

Lemma all_returned_wake e : all_returned e -> all_returned (Executor.wake_all e).
Proof.
  unfold all_returned. cbn. intros H. apply Forall_fmap. eapply Forall_impl; [done|]. by intros ? <-.
Qed.

(** Nobody moves a worker that has returned. *)
Lemma all_returned_apply e o : all_returned e -> all_returned (Executor.apply e o).
Proof.
  intros H. assert (Hl : forall i x, Executor.workers e !! i = Some x -> x = Executor.Returned).
  { intros i x Hi. unfold all_returned in H. rewrite Forall_forall in H. symmetry. apply H.
    by apply list_elem_of_lookup_2 with i. }
  destruct o as [t|t| |d| |[i|j]| |i|j]; cbn; try done.
  - unfold Executor.submit, Executor.submit_impl. by repeat case_match.
  - unfold Executor.submit_cleanup, Executor.submit_impl. by repeat case_match.
  - unfold Executor.shutdown. by destruct (Executor.stopping e).
  - unfold Executor.notify_one. case_match; [done|]. case_bool_decide as Ei; [by apply Hl in Ei|].
    by destruct (Executor.someone_sleeps e).
  - unfold Executor.notify_one. case_match; [done|]. case_bool_decide; [done|].
    by destruct (Executor.someone_sleeps e).
  - unfold Executor.notify_all. destruct (Executor.pending_all e); [done|]. by apply all_returned_wake.
  - unfold Executor.worker_step. destruct (Executor.workers e !! i) as [x|] eqn:Ei; [|done].
    by rewrite (Hl i x Ei).
  - unfold Executor.drainer_step. by repeat case_match.
Qed.

Lemma op_moved e o : o <> Executor.OpShutdown false -> moved e (Executor.apply e o).
Proof.
  intros Ho. split_and!.
  - destruct o as [t|t| |d| |[i|j]| |i|j]; cbn; try done.
    + unfold Executor.submit, Executor.submit_impl. by repeat case_match.
    + unfold Executor.submit_cleanup, Executor.submit_impl. by repeat case_match.
    + unfold Executor.shutdown. by destruct (Executor.stopping e).
    + unfold Executor.notify_one. by repeat case_match.
    + unfold Executor.notify_one. by repeat case_match.
    + unfold Executor.notify_all. by destruct (Executor.pending_all e).
    + unfold Executor.worker_step. by repeat case_match.
    + unfold Executor.drainer_step. by repeat case_match.
  - intros H. exact (Executor.executor_inv_run [o] e H).
  - destruct o as [t|t| |[]| |[i|j]| |i|j]; cbn; try done.
    + unfold Executor.submit, Executor.submit_impl. by repeat case_match.
    + unfold Executor.submit_cleanup, Executor.submit_impl. by repeat case_match.
    + unfold Executor.shutdown. by destruct (Executor.stopping e).
    + unfold Executor.notify_one. by repeat case_match.
    + unfold Executor.notify_one. by repeat case_match.
    + unfold Executor.notify_all. by destruct (Executor.pending_all e).
    + unfold Executor.worker_step. by repeat case_match.
    + unfold Executor.drainer_step. by repeat case_match.
  - apply all_returned_apply.
Qed.

Lemma counter_closed c o : Admission.accepting c = false -> Admission.accepting (Admission.apply c o) = false.
Proof. intros H. destruct o; cbn; try done; repeat case_match; done. Qed.

(** An action whose effect is there to stay. *)
Definition done_in (w : World) (a : Action) : Prop :=
  match a with
  | StopCounter c => Admission.accepting (counters w c) = false
  | StopAdmission p => Executor.accepting (pools w p) = false
  | JoinPool p => all_returned (pools w p)
  | ShutdownServer => server_stopped w = true \/ ShutdownServer ∈ failed w
  | _ => True
  end.

Definition wmoved (w w' : World) : Prop :=
  (forall p, moved (pools w p) (pools w' p))
  /\ (forall c, Admission.accepting (counters w c) = false -> Admission.accepting (counters w' c) = false)
  /\ (server_stopped w = true -> server_stopped w' = true)
  /\ (forall a, a ∈ failed w -> a ∈ failed w').

#[export] Instance wmoved_preorder : PreOrder wmoved.
Proof.
  split; [intros a; by split_and!|]. intros a b c (H1 & H2 & H3 & H4) (K1 & K2 & K3 & K4).
  split_and!; [|auto..]. intros p. etrans; [apply H1|apply K1].
Qed.

Lemma done_moved w w' a : wmoved w w' -> done_in w a -> done_in w' a.
Proof.
  intros (H1 & H2 & H3 & H4). destruct a as [| |c|p| | | | | | |p|]; cbn; auto; [by apply H1|naive_solver|by apply H1].
Qed.

Lemma pool_op_moved p o w : o <> Executor.OpShutdown false -> wmoved w (pool_op p o w).
Proof.
  intros Ho. split_and!; try done. intros q. cbn. destruct (decide (q = p)); [by apply op_moved|done].
Qed.

Lemma counter_op_moved c o w : wmoved w (counter_op c o w).
Proof.
  split_and!; try done. intros d. cbn. destruct (decide (d = c)); [by apply counter_closed|done].
Qed.

Lemma note_moved a t w : wmoved w (note a t w).
Proof. split_and!; try done. intros b. cbn. destruct t; set_solver. Qed.

Lemma perform_moved a t w : wmoved w (perform a t w).
Proof.
  destruct a as [| |c|p| | | | | |p| |]; cbn; try apply note_moved.
  - etrans; [by apply (counter_op_moved c Admission.OpStop)|apply note_moved].
  - etrans; [by apply (pool_op_moved p Executor.OpStopAdmission)|apply note_moved].
  - destruct t; [apply note_moved|]. by split_and!.
  - etrans; [by apply (pool_op_moved p (Executor.OpShutdown true))|apply note_moved].
Qed.

Lemma perform_done a t w : ready a w = true -> done_in (perform a t w) a.
Proof.
  intros Hr. destruct a as [| |c|p| | | | | | |p|]; cbn; try done.
  - by rewrite decide_True.
  - by rewrite decide_True.
  - destruct t; cbn; [right|by left]. set_solver.
  - cbn in Hr. apply Forall_forall. intros x Hx. apply list_elem_of_In in Hx. rewrite forallb_forall in Hr.
    symmetry. by apply (bool_decide_eq_true_1 _ (Hr x Hx)).
Qed.

(** What one step adds to the attempts, and that the rest stays. *)
Definition effect (w w' : World) : Prop :=
  wmoved w w'
  /\ (attempted w' = attempted w \/ exists a, attempted w' = attempted w ++ [a] /\ done_in w' a).

Lemma effect_same w w' :
  pools w' = pools w -> counters w' = counters w -> (server_stopped w = true -> server_stopped w' = true) ->
  failed w' = failed w -> attempted w' = attempted w -> effect w w'.
Proof.
  intros H1 H2 H3 H4 H5. split; [|by left]. split_and!; [by rewrite H1|by rewrite H2|done|by rewrite H4].
Qed.

Lemma effect_perform a t w w' :
  ready a w = true -> pools w' = pools (perform a t w) -> counters w' = counters (perform a t w) ->
  server_stopped w' = server_stopped (perform a t w) -> failed w' = failed (perform a t w) ->
  attempted w' = attempted (perform a t w) -> effect w w'.
Proof.
  intros Hr H1 H2 H3 H4 H5.
  assert (Hm : wmoved (perform a t w) w').
  { split_and!; [by rewrite H1|by rewrite H2|by rewrite H3|by rewrite H4]. }
  split; [etrans; [apply (perform_moved a t)|done]|right]. exists a. split.
  - rewrite H5. by destruct (perform_keeps a t w) as (_ & _ & _ & _ & _ & ->).
  - eapply done_moved; [done|]. by apply perform_done.
Qed.

Lemma edge_ready a w : a ∈ edge -> ready a w = true.
Proof. unfold edge. rewrite !elem_of_cons, elem_of_nil. naive_solver. Qed.

(** The actions that are left in the edge are actions of the edge. *)
Lemma edge_todo w a :
  flow w -> finalized w = false -> a ∈ control_todo (control w) ++ main_todo (main w) -> a ∈ edge.
Proof.
  intros Hw Hf Ha. destruct (shutdown_requested w) eqn:Er.
  - destruct (flow_edge _ Hw Er Hf) as [<- _]. rewrite !elem_of_app in *. tauto.
  - destruct (flow_before _ Hw Er) as (_ & [H|[H|H]] & Hm & _); rewrite H, Hm in Ha; by apply not_elem_of_nil in Ha.
Qed.

Lemma control_effect t w : flow w -> effect w (control_step t w).
Proof.
  intros Hw. unfold control_step. destruct (control w) as [| | |[|a todo]| |] eqn:Ec; try by apply effect_same.
  - destruct (signalled w); by apply effect_same.
  - destruct (shutdown_requested w); by apply effect_same.
  - eapply (effect_perform a t); [|done..]. apply edge_ready, (edge_todo w); [done| |].
    + destruct (finalized w) eqn:Ef; [|done]. destruct (flow_final _ Hw Ef) as (_ & [H|H] & _); congruence.
    + rewrite Ec. cbn. rewrite elem_of_cons. by left.
Qed.

Lemma main_effect t w : flow w -> effect w (main_step t w).
Proof.
  intros Hw. pose proof (flow_main _ Hw) as Hm. unfold main_step. unfold main_ok in Hm.
  destruct (main w) as [| |[|[|a todo]| | | |[|a todo]] calls|] eqn:Em; try by apply effect_same.
  - unfold start_control. destruct (negb t); by apply effect_same.
  - destruct (server_stopped w); by apply effect_same.
  - destruct (shutdown_requested w); by apply effect_same.
  - eapply (effect_perform a t); [|done..]. apply edge_ready, (edge_todo w); [done|apply Hm|].
    rewrite Em, elem_of_app. cbn. rewrite !elem_of_cons. auto.
  - destruct (joinable (control w)); by apply effect_same.
  - destruct (control w); by apply effect_same.
  - destruct (finalized w); by apply effect_same.
  - destruct (ready a w) eqn:Er; [|by apply effect_same]. by eapply (effect_perform a t).
Qed.

Lemma step_effect w s : flow w -> effect w (step w s).
Proof.
  intros Hw. destruct s as [t|t| | |p o|c o]; cbn [step].
  - by apply main_effect.
  - by apply control_effect.
  - by apply effect_same.
  - by apply effect_same.
  - assert (H : (exists d, o = Executor.OpShutdown d) \/ forall d, o <> Executor.OpShutdown d)
      by (destruct o; eauto; by right).
    destruct H as [[d ->]|H]; [by apply effect_same|].
    replace (match o with Executor.OpShutdown _ => w | _ => pool_op p o w end) with (pool_op p o w)
      by (by destruct o; try (by destruct (H drain))).
    split; [by apply pool_op_moved|by left].
  - split; [apply counter_op_moved|by left].
Qed.

(** A pool of the server when it starts. *)
Definition fresh (e : Executor.Executor) : Prop :=
  Executor.inv e /\ Executor.dropped e = [].

(** A thread that asked for the shutdown sees to it that the signal thread wakes. *)
Definition woken (w : World) : Prop :=
  shutdown_requested w = true -> control w = SigWait ->
  signalled w = true \/ match main w with Calling (InEdge _) _ | Calling Wake _ => True | _ => False end.

Lemma woken_perform a t w : woken w -> woken (set_main (main w) (perform a t w)).
Proof. destruct (perform_keeps a t w) as (K1 & _ & K3 & _ & K5 & _). unfold woken. cbn. by rewrite K1, K3, K5. Qed.

Lemma woken_step w s : flow w -> woken w -> woken (step w s).
Proof.
  intros Hf Hw. pose proof (flow_main _ Hf) as Hm. unfold main_ok in Hm.
  destruct s as [t|t| | |p o|c o]; cbn [step]; try done; [..|by left|by destruct o].
  - unfold main_step. destruct (main w) as [| |[|[|a todo]| | | |[|a todo]] calls|] eqn:Em; try done;
      unfold woken in *; rewrite Em in Hw.
    + unfold start_control. destruct Hm as (Hc & _ & Hr). destruct (negb t); cbn; congruence.
    + destruct (server_stopped w); cbn; rewrite ?Em; naive_solver.
    + destruct (shutdown_requested w) eqn:Er; cbn; [|by right]. naive_solver.
    + cbn. naive_solver.
    + cbn. by right.
    + intros _ H. left. revert H. destruct (control w) eqn:Ec; cbn; congruence.
    + destruct (control w) eqn:Ec; cbn; rewrite ?Ec, ?Em; naive_solver.
    + destruct (finalized w); cbn; naive_solver.
    + cbn. naive_solver.
    + destruct (perform_keeps a t w) as (K1 & _ & K3 & _ & K5 & _).
      destruct (ready a w); cbn; rewrite ?K1, ?K3, ?K5, ?Em; naive_solver.
  - unfold control_step, woken in *. destruct (control w) as [| | |[|a todo]| |] eqn:Ec; rewrite ?Ec; try done.
    + destruct (signalled w) eqn:Es; [done|]. by rewrite Ec, Es.
    + by destruct (shutdown_requested w).
Qed.

Record inv (ps : Pool -> Executor.Executor) (w : World) : Prop := mkInv {
  inv_flow : flow w;
  inv_woken : woken w;
  inv_done : Forall (done_in w) (attempted w);
  inv_pools : forall p, moved (ps p) (pools w p);
}.

Lemma runtime_inv_run ps cs steps : inv ps (run ps cs steps).
Proof.
  unfold run. assert (H : inv ps (start ps cs)) by (split; [apply flow_start|done..]).
  revert H. generalize (start ps cs). induction steps as [|s steps IH]; intros w Hw; [done|]. apply IH.
  destruct Hw as [I1 I0 I2 I3]. destruct (step_effect w s I1) as [Hm Ha]. split.
  - by apply flow_step.
  - by apply woken_step.
  - assert (H : Forall (done_in (step w s)) (attempted w)).
    { eapply Forall_impl; [done|]. intros a. by apply done_moved. }
    destruct Ha as [->|(a & -> & Hd)]; [done|]. by apply Forall_app_2; [|apply Forall_singleton].
  - intros p. etrans; [apply I3|apply Hm].
Qed.

(** A pool whose workers are gone, and which dropped nothing, did all it accepted. *)
Lemma joined_pool e : Executor.inv e -> Executor.dropped e = [] -> all_returned e ->
  Executor.queue e = [] /\ Executor.accepted e ≡ₚ Executor.completed e.
Proof.
  intros He Hd Hr. destruct (Executor.inv_limits _ He) as (_ & _ & _ & _ & Hne).
  assert (Hin : Executor.Returned ∈ Executor.workers e).
  { unfold all_returned in Hr. destruct (Executor.workers e) as [|x l]; [done|].
    apply Forall_cons in Hr as [<- _]. apply elem_of_cons. by left. }
  destruct (Executor.inv_returned _ He Hin) as [_ Hq]. split; [done|].
  rewrite (Executor.inv_order _ He), Hq, Hd, !app_nil_r, (Executor.inv_started _ He).
  assert (Hrun : Executor.running e = []).
  { unfold Executor.running. unfold all_returned in Hr. clear - Hr.
    induction (Executor.workers e) as [|x l IH]; [done|]. apply Forall_cons in Hr as [<- Hr]. by apply IH. }
  by rewrite Hrun, app_nil_r.
Qed.

Lemma flow_prefix w : flow w -> attempted w `prefix_of` edge ++ final.
Proof.
  intros Hw. destruct (finalized w) eqn:Ef; [|destruct (shutdown_requested w) eqn:Er].
  - destruct (flow_final _ Hw Ef) as (<- & _). by apply prefix_app_r.
  - destruct (flow_edge _ Hw Er Ef) as [<- _]. rewrite <- app_assoc. by apply prefix_app_r.
  - destruct (flow_before _ Hw Er) as [-> _]. apply prefix_nil.
Qed.

(** Once finalizing has begun the whole edge is behind. *)
Lemma final_after_edge w a : flow w -> finalized w = true -> a ∈ edge -> a ∈ attempted w.
Proof.
  intros Hw Hf Ha. destruct (flow_final _ Hw Hf) as (He & _ & _).
  assert (Hl : exists l, attempted w = edge ++ l).
  { pose proof (flow_main _ Hw) as Hm. unfold main_ok in Hm. rewrite Hf in Hm.
    assert (Hsuf : main_todo (main w) `suffix_of` final)
      by (destruct (main w) as [| |[]|]; cbn; try apply suffix_nil; naive_solver).
    destruct Hsuf as [l Hl]. exists l. rewrite Hl, app_assoc in He. by apply app_inv_tail in He. }
  destruct Hl as [l ->]. apply elem_of_app. by left.
Qed.

(** C21: whoever begins it, the signal thread, the main thread or both at once, and
    whatever its steps throw, the server shuts down in one order: the steps attempted are
    always a prefix of the edge followed by the final steps, so each is attempted at most
    once.  From the first drain on, no executor accepts ordinary work and no counter
    admits anyone.  When the main thread is through, the whole sequence was attempted, the
    signal thread was joined or never ran, all workers have returned, and every task an
    executor ever accepted has been run exactly once. *)
Theorem runtime_shuts_down_in_order ps cs steps :
  (forall p, fresh (ps p)) ->
  let w := run ps cs steps in
  attempted w `prefix_of` edge ++ final
  /\ (finalized w = true ->
      (forall p, Executor.accepting (pools w p) = false)
      /\ (forall c, Admission.accepting (counters w c) = false))
  /\ (main w = Finished ->
      attempted w = edge ++ final /\ apart (control w)
      /\ forall p, all_returned (pools w p) /\ Executor.queue (pools w p) = []
         /\ Executor.accepted (pools w p) ≡ₚ Executor.completed (pools w p)).
Proof.
  intros Hfresh w. destruct (runtime_inv_run ps cs steps) as [I1 _ I2 I3]. fold w in I1, I2, I3.
  rewrite Forall_forall in I2. split_and!.
  - by apply flow_prefix.
  - intros Hf. split.
    + intros p. apply (I2 (StopAdmission p)), final_after_edge; [done|done|]. destruct p; set_solver.
    + intros c. apply (I2 (StopCounter c)), final_after_edge; [done|done|]. destruct c; set_solver.
  - intros Hm. pose proof (flow_main _ I1) as Hf. unfold main_ok in Hf. rewrite Hm in Hf.
    destruct (flow_final _ I1 Hf) as (He & Ha & _). rewrite Hm in He. cbn [main_todo] in He.
    rewrite app_nil_r in He. split_and!; [done|done|]. intros p.
    assert (Hr : all_returned (pools w p)).
    { apply (I2 (JoinPool p)). rewrite He. destruct p; set_solver. }
    destruct (I3 p) as (_ & M2 & M3 & _). destruct (Hfresh p) as [H1 H2].
    split; [done|]. by apply joined_pool; [apply M2|apply M3|].
Qed.

(** ** Progress *)

Definition control_left (c : Control) : nat :=
  match c with
  | SigWait => 20
  | ControlEnter => 19
  | ControlEdge l => S (length l)
  | _ => 0
  end.
Definition frame_left (f : Frame) : nat :=
  match f with
  | Enter => 44
  | InEdge l => 26 + length l
  | Wake => 25
  | Join => 24
  | EnterFinal => 23
  | InFinal l => S (length l)
  end.
Definition main_left (m : Main) : nat :=
  match m with
  | StartControl => 200
  | Waiting => 170
  | Calling f calls => frame_left f + 50 * length (tail calls)
  | Finished => 0
  end.

(** A bound on the steps the two threads still take. *)
Definition remaining (w : World) : nat := main_left (main w) + control_left (control w).

(** [ShutdownServer] was attempted, and did not end the server. *)
Definition waits_for_server (w : World) : Prop :=
  main w = Waiting /\ server_stopped w = false
  /\ (control w = SigWait /\ signalled w = false
      \/ control w = ControlReturned /\ ShutdownServer ∈ failed w).

Definition waits_for_pool (w : World) : Prop :=
  exists a todo calls, main w = Calling (InFinal (a :: todo)) calls /\ ready a w = false.

Lemma next_call_left calls : shape calls -> (main_left (next_call (tail calls)) < 1 + 50 * length (tail calls))%nat.
Proof. intros [->|[->| ->]]; cbn; lia. Qed.

Lemma after_edge_left calls :
  shape calls ->
  (main_left (match calls with Finalize :: _ => Calling Join calls | _ => next_call (tail calls) end)
   < 25 + 50 * length (tail calls))%nat.
Proof. intros [->|[->| ->]]; cbn; lia. Qed.

Lemma perform_left a t w : remaining (perform a t w) = remaining w.
Proof. destruct (perform_keeps a t w) as (_ & _ & K3 & K4 & _). unfold remaining. by rewrite K3, K4. Qed.

(** No step of any thread prolongs the shutdown. *)
Lemma remaining_step w s : flow w -> (remaining (step w s) <= remaining w)%nat.
Proof.
  intros Hw. pose proof (flow_main _ Hw) as Hm. unfold main_ok in Hm.
  destruct s as [t|t| | |p o|c o]; cbn [step]; try done; [..|by destruct o].
  - unfold main_step. destruct (main w) as [| |[|[|a todo]| | | |[|a todo]] calls|] eqn:Em; try done;
      unfold remaining; rewrite ?Em.
    + unfold start_control. destruct (negb t), (control w) eqn:Ec; cbn; rewrite ?Ec; cbn; lia.
    + destruct (server_stopped w); cbn; rewrite ?Em; cbn; lia.
    + destruct Hm as [Hs _]. pose proof (after_edge_left calls Hs).
      destruct (shutdown_requested w); cbn [set_main main control frame_left main_left] in *; cbn; lia.
    + cbn. lia.
    + destruct (perform_keeps a t w) as (_ & _ & K3 & _). cbn. rewrite K3. lia.
    + pose proof (after_edge_left calls (proj1 Hm)).
      destruct (joinable (control w)); cbn [set_main set_signalled main control frame_left main_left] in *; lia.
    + destruct (control w) eqn:Ec; cbn; rewrite ?Em, ?Ec; cbn; lia.
    + pose proof (next_call_left calls (proj1 Hm)).
      destruct (finalized w); cbn [set_main set_finalized main control frame_left main_left] in *; cbn; lia.
    + pose proof (next_call_left calls (proj1 Hm)). cbn [set_main main control frame_left main_left length] in *. lia.
    + destruct (perform_keeps a t w) as (_ & _ & K3 & _). destruct (ready a w); cbn; rewrite ?K3, ?Em; cbn; lia.
  - unfold control_step, remaining. destruct (control w) as [| | |[|a todo]| |] eqn:Ec; rewrite ?Ec; try done.
    + destruct (signalled w); cbn; rewrite ?Ec; cbn; lia.
    + destruct (shutdown_requested w); cbn; lia.
    + cbn. lia.
    + destruct (perform_keeps a t w) as (_ & _ & _ & K4 & _). cbn. rewrite K4. lia.
Qed.

Lemma control_progress w :
  match control w with
  | SigWait => signalled w = true
  | ControlEnter | ControlEdge _ => True
  | _ => False
  end -> (remaining (step w (ControlStep false)) < remaining w)%nat.
Proof.
  cbn [step]. unfold control_step, remaining. destruct (control w) as [| | |[|a todo]| |] eqn:Ec; try done.
  - intros ->. cbn. lia.
  - intros _. destruct (shutdown_requested w); cbn; lia.
  - intros _. cbn. lia.
  - intros _. destruct (perform_keeps a false w) as (_ & _ & _ & K4 & _). cbn. rewrite K4. lia.
Qed.

Lemma main_progress w :
  flow w ->
  match main w with
  | Waiting => server_stopped w = true
  | Calling Join _ => match control w with ControlReturned | NotStarted | Joined => True | _ => False end
  | Calling (InFinal (a :: _)) _ => ready a w = true
  | Finished => False
  | _ => True
  end -> (remaining (step w (MainStep false)) < remaining w)%nat.
Proof.
  intros Hw H. pose proof (flow_main _ Hw) as Hm. unfold main_ok in Hm. cbn [step]. unfold main_step, remaining.
  destruct (main w) as [| |[|[|a todo]| | | |[|a todo]] calls|] eqn:Em; try done.
  - destruct Hm as (-> & _). cbn. lia.
  - rewrite H. cbn. lia.
  - pose proof (after_edge_left calls (proj1 Hm)).
    destruct (shutdown_requested w); cbn [set_main main control frame_left main_left] in *; cbn; lia.
  - cbn. lia.
  - destruct (perform_keeps a false w) as (_ & _ & K3 & _). cbn. rewrite K3. lia.
  - pose proof (after_edge_left calls (proj1 Hm)).
    destruct (joinable (control w)); cbn [set_main set_signalled main control frame_left main_left] in *; lia.
  - destruct (control w) eqn:Ec; try done; cbn; rewrite ?Ec; cbn; lia.
  - pose proof (next_call_left calls (proj1 Hm)).
    destruct (finalized w); cbn [set_main set_finalized main control frame_left main_left] in *; cbn; lia.
  - pose proof (next_call_left calls (proj1 Hm)). cbn [set_main main control frame_left main_left length] in *. lia.
  - destruct (perform_keeps a false w) as (_ & _ & K3 & _). rewrite H. cbn. rewrite K3. lia.
Qed.

(** C22: the shutdown cannot hang between the two threads.  In every state the server
    reaches before its main thread is through, one of the two threads has a step to take
    and each such step is one of at most [remaining] that are left, whatever the rest of
    the server does; the only exceptions are the waits the code means: for a signal, for
    a gRPC server that did not stop because its shutdown threw, and for an executor that
    is still busy when it is drained or joined. *)
Theorem runtime_never_hangs ps cs steps :
  let w := run ps cs steps in
  (remaining w <= 200)%nat
  /\ (forall s, (remaining (step w s) <= remaining w)%nat)
  /\ (main w = Finished
      \/ (exists s, s ∈ [MainStep false; ControlStep false] /\ (remaining (step w s) < remaining w)%nat)
      \/ waits_for_server w \/ waits_for_pool w).
Proof.
  intros w. pose proof (runtime_inv_run ps cs steps) as [I1 I0 I2 _]. fold w in I1, I0, I2. split_and!.
  - unfold w, run. assert (H : (remaining (start ps cs) <= 200)%nat) by (cbn; lia).
    pose proof (flow_start ps cs) as Hf. revert H Hf. clear. generalize (start ps cs).
    induction steps as [|s steps IH]; intros w Hr Hf; [done|]. cbn [foldl]. apply IH; [|by apply flow_step].
    pose proof (remaining_step w s Hf). lia.
  - intros s. by apply remaining_step.
  - assert (Hc : forall s, (remaining (step w s) < remaining w)%nat -> s ∈ [MainStep false; ControlStep false] ->
      exists s, s ∈ [MainStep false; ControlStep false] /\ (remaining (step w s) < remaining w)%nat) by eauto.
    pose proof (main_progress w I1) as Hmp. pose proof (control_progress w) as Hcp.
    pose proof (flow_main _ I1) as Hm. unfold main_ok in Hm.
    assert (M : MainStep false ∈ [MainStep false; ControlStep false]) by set_solver.
    assert (C : ControlStep false ∈ [MainStep false; ControlStep false]) by set_solver.
    destruct (main w) as [| |[|l| | | |[|a todo]] calls|] eqn:Em; [..|by left];
      right; try (left; by apply (Hc (MainStep false)); [apply Hmp|]).
    + destruct (server_stopped w) eqn:Es; [left; apply (Hc (MainStep false)); [by apply Hmp|done]|].
      destruct Hm as [Hf Ha].
      destruct (control w) as [| | |l| |] eqn:Ec; [by destruct Ha; left| | | | |by destruct Ha; right].
      * destruct (signalled w) eqn:Eg; [left; apply (Hc (ControlStep false)); [by apply Hcp|done]|].
        right; left. split_and!; [done|done|by left].
      * left. apply (Hc (ControlStep false)); [by apply Hcp|done].
      * left. apply (Hc (ControlStep false)); [by apply Hcp|done].
      * right; left. split_and!; [done|done|right]. split; [done|].
        assert (Hr : shutdown_requested w = true).
        { destruct (shutdown_requested w) eqn:Er; [done|].
          destruct (flow_before _ I1 Er) as (_ & [H|[H|H]] & _); congruence. }
        destruct (flow_edge _ I1 Hr Hf) as [He _]. rewrite Ec, Em, !app_nil_r in He.
        rewrite Forall_forall in I2. destruct (I2 ShutdownServer) as [H|H]; [|congruence|done].
        rewrite He. set_solver.
    + destruct (control w) as [| | |l| |] eqn:Ec; left;
        try (by apply (Hc (MainStep false)); [apply Hmp|]); apply (Hc (ControlStep false)); try done; apply Hcp; try done.
      destruct Hm as (_ & Hr & _). destruct (I0 Hr Ec) as [H|H]; [done|by rewrite Em in H].
    + destruct (ready a w) eqn:Er; [left; apply (Hc (MainStep false)); [by apply Hmp|done]|].
      right; right. by exists a, todo, calls.
Qed.

(** A signal arrives while a task is queued: everyone takes turns until all is over. *)
Definition sample_pool : Executor.Executor :=
  Executor.mkExecutor 4 1 [] [Executor.Awake] [] 0 0 true false true 0 0 [] [] [] [].
Definition turn : list Step :=
  [MainStep false; ControlStep false]
  ++ concat ((fun p => [PoolStep p Executor.OpNotifyAll; PoolStep p (Executor.OpWorker 0)])
               <$> [blocking; parser_worker; hal_worker; scope_worker]).
Definition sample_steps : list Step :=
  [MainStep false; PoolStep blocking (Executor.OpSubmit (Some 7%nat)); Signal] ++ concat (replicate 60 turn).

Lemma runtime_shuts_down_in_order_witness :
  let w := run (fun _ => sample_pool) (fun _ => Admission.make 4 0) sample_steps in
  main w = Finished
  /\ Executor.completed (pools w blocking) = [Executor.mkItem 7 false]
  /\ attempted w = edge ++ final
  /\ forall p, all_returned (pools w p) /\ Executor.queue (pools w p) = []
     /\ Executor.accepted (pools w p) ≡ₚ Executor.completed (pools w p).
Proof.
  intros w. assert (Hm : main w = Finished) by (vm_compute; reflexivity).
  split; [exact Hm|]. split; [vm_compute; reflexivity|].
  destruct (runtime_shuts_down_in_order (fun _ => sample_pool) (fun _ => Admission.make 4 0) sample_steps)
    as (_ & _ & H).
  - intros _. split; [|reflexivity]. apply (Executor.inv_make 1 4 1); [lia|lia|reflexivity].
  - destruct (H Hm) as (H1 & _ & H2). split; [exact H1|exact H2].
Defined.

End Shutdown.

(** * The start of the server *)
Module Startup.
Import Shutdown Text.

(** The executors and counters of [run_grpc_server]. *)
Definition make_pool (c : DaemonConfig) (p : Pool) : outcome string Executor.Executor :=
  let components := size c max_remote_components in
  match p with
  | blocking => Executor.make 4 128 8
  | parser_worker => Executor.make 1 8 0
  | hal_worker =>
      Executor.make 1 (Z.to_nat (Z.max 128 (u64_wrap (components + 65)))) (Z.to_nat (u64_wrap (components + 1)))
  | scope_worker => Executor.make 1 128 8
  end.

Definition make_counter (c : DaemonConfig) (users : nat) (k : Counter) : Admission.AdmissionCounter :=
  match k with
  | stream_admission => Admission.make 128 users
  | upload_admission => Admission.make 1 users
  | component_admission => Admission.make (size c max_remote_components) users
  end.

(** What the server uses of LinuxCNC's [IniFile]. *)
Record IniFile := mkIniFile {
  findSections : list string;
  findVariables : string -> list (string * string);
  findString : string -> string -> option string;
}.

Record IniEntry := mkIniEntry { entry_section : string; entry_key : string; entry_value : string }.

(** [ActiveIni::ActiveIni] *)
Definition entries (f : IniFile) : list IniEntry :=
  concat ((fun section => (fun kv => mkIniEntry section kv.1 kv.2) <$> findVariables f section)
            <$> findSections f).

Definition find_string (f : IniFile) (section key : string) : option string := findString f key section.

(** [IniServiceImpl::Read]: the entries of the snapshot. *)
Definition read_snapshot (f : IniFile) : list (string * string * string) :=
  (fun e => (entry_section e, entry_key e, entry_value e)) <$> entries f.

(** [path::is_relative], and [parent_path() / p] of a file and a relative path. *)
Definition is_relative (p : string) : bool := negb (bool_decide (find "/"%char p = Some O)).

(** The text without the separators at its end, and without the text behind the last. *)
Fixpoint strip_separators (s : string) : string :=
  match s with
  | EmptyString => EmptyString
  | String c s =>
      match strip_separators s with
      | EmptyString => if Ascii.eqb c "/"%char then EmptyString else String c EmptyString
      | t => String c t
      end
  end.

Definition parent_text (p : string) : string :=
  match rfind "/"%char p with
  | None => EmptyString
  | Some n => match strip_separators (take n p) with EmptyString => "/" | t => t end
  end.

Definition append_text (parent p : string) : string :=
  match back parent with
  | None => p
  | Some c => if Ascii.eqb c "/"%char then parent +:+ p else parent +:+ "/" +:+ p
  end.

Section Environment.
(** The file system, LinuxCNC's reader of INI files, and what the other calls of the start
    answer: [load_ini] gives nothing for a file it cannot read, [canonical] is
    [weakly_canonical(absolute(p))], which may throw, and [attempt_ok] tells of the
    remaining constructions whether they succeed. *)
Variable cwd : list string.
Variable weakly_canonical : path -> option path.
Variable is_regular_file : string -> bool.
Variable load_ini : string -> option IniFile.
Variable canonical : string -> option path.
Variable read_file : string -> string.

(** How a process ends: with a code, or by an exception nobody catches. *)
Inductive Exit := ExitCode (n : Z) | Terminated.

(** [validate_program_prefix]: the error, if any; nothing where it throws. *)
Definition validate_program_prefix (ini_file active_directory : string) : option (outcome string unit) :=
  match load_ini ini_file with
  | None => Some (Err ("cannot read LinuxCNC INI: " +:+ ini_file))
  | Some f =>
      match find_string f "DISPLAY" "PROGRAM_PREFIX" with
      | None | Some EmptyString => Some (Err "[DISPLAY] PROGRAM_PREFIX is missing from LinuxCNC INI")
      | Some prefix =>
          configured ← canonical (if is_relative prefix then append_text (parent_text ini_file) prefix else prefix);
          expected ← canonical active_directory;
          Some (if bool_decide (configured = expected) then Ok tt
                else Err "LinuxCNC PROGRAM_PREFIX does not match active program directory")
      end
  end.

(** What [run_grpc_server] constructs and does, in its order.  [MakeTelemetryServer] binds
    the telemetry endpoint. *)
Inductive Event :=
| BlockSignals
| LoadIni
| MakeWorkspaces
| MakePool (p : Pool)
| MakeService (s : Part)
| MakeTelemetryServer
| ReadTls
| BindGrpc
| StartRuntime.

Definition startup_sequence (c : DaemonConfig) : list Event :=
  [BlockSignals; LoadIni; MakeWorkspaces; MakePool blocking; MakePool parser_worker; MakePool hal_worker;
   MakePool scope_worker; MakeService machine; MakeService ini; MakeService program; MakeService hal;
   MakeService scope; MakeTelemetryServer]
  ++ (if flag c tls then [ReadTls] else []) ++ [BindGrpc; StartRuntime].

Variable attempt_ok : Event -> bool.

Definition event_ok (c : DaemonConfig) (e : Event) : bool :=
  match e with
  | LoadIni => match load_ini (text c ini_file) with Some _ => true | None => false end
  | MakePool p => match make_pool c p with Ok _ => true | Err _ => false end
  | ReadTls =>
      negb (empty (read_file (text c tls_private_key))) && negb (empty (read_file (text c tls_certificate)))
  | _ => attempt_ok e
  end.

(** The events up to the first that fails, that one included, and whether all succeed. *)
Fixpoint attempt (ok : Event -> bool) (l : list Event) : list Event * bool :=
  match l with
  | [] => ([], true)
  | e :: l =>
      if ok e then let '(es, b) := attempt ok l in (e :: es, b) else ([e], false)
  end.

(** [run_grpc_server]; with the last event done it returns when the runtime is over. *)
Definition run_grpc_server (c : DaemonConfig) : list Event * Exit :=
  if validate_config cwd weakly_canonical is_regular_file c then
    let '(es, b) := attempt (event_ok c) (startup_sequence c) in
    (es, ExitCode (if b then 0 else 2))
  else ([], ExitCode 2).

(** [main] of the daemon. *)
Definition daemon_main (args : list string) : list Event * Exit :=
  match parse_config cwd weakly_canonical is_regular_file args with
  | None => ([], ExitCode 2)
  | Some (c, true) => ([], ExitCode 0)
  | Some (c, false) =>
      if empty (text c ini_file) then ([], ExitCode 2)
      else if empty (text c nml_file) then ([], ExitCode 2)
      else if negb (is_regular_file (text c nml_file)) then ([], ExitCode 2)
      else
        match validate_program_prefix (text c ini_file) (text c active_program_directory) with
        | None => ([], Terminated)
        | Some (Err _) => ([], ExitCode 2)
        | Some (Ok _) => run_grpc_server c
        end
  end.

(** ** What a started server relies on *)

Lemma parse_config_limits args c help :
  parse_config cwd weakly_canonical is_regular_file args = Some (c, help) -> limits_ok c /\ sizes_ok c.
Proof.
  unfold parse_config. intros H.
  destruct (parse_arguments args (default_config, false)) as [[c' help']|] eqn:Ea; [|done].
  cbn [mbind option_bind fst] in H. destruct (validate_config _ _ _ c') eqn:Ev; [|done].
  injection H as -> ->. unfold validate_config in Ev. bool_to_prop.
  pose proof (parse_arguments_sizes _ (default_config, false) _ default_sizes Ea) as Hs.
  split; [by apply validate_limits_ok|done].
Qed.

(** The constructor's promise for limits it accepts. *)
Lemma make_fresh threads cap reserve :
  (threads <> 0)%nat -> (cap <> 0)%nat -> (reserve <= cap)%nat ->
  Z.of_nat threads < 2 ^ 64 -> Z.of_nat cap < 2 ^ 64 ->
  exists e, Executor.make threads cap reserve = Ok e /\ fresh e
    /\ Executor.capacity e = cap /\ Executor.cleanup_reserve e = reserve.
Proof.
  intros H1 H2 H3 Ht Hc. destruct (Executor.make threads cap reserve) as [e|] eqn:E.
  - exists e. split; [done|]. pose proof (Executor.inv_make _ _ _ _ Ht Hc E) as Hi.
    revert E. unfold Executor.make. case_match; [done|]. intros [= <-]. by split_and!; [split|..].
  - revert E. unfold Executor.make.
    rewrite (proj2 (Nat.eqb_neq _ _) H1), (proj2 (Nat.eqb_neq _ _) H2), (proj2 (Nat.ltb_ge _ _) H3). done.
Qed.

(** The executors can be built for every accepted budget of components, and the one for
    HAL keeps room for the cleanup of every component and one more task, besides 64
    ordinary ones. *)
Lemma pools_fit c :
  limits_ok c -> sizes_ok c ->
  forall p, exists e, make_pool c p = Ok e /\ fresh e
    /\ (p = hal_worker ->
        Z.of_nat (Executor.cleanup_reserve e) = size c max_remote_components + 1
        /\ (Executor.cleanup_reserve e + 64 <= Executor.capacity e)%nat).
Proof.
  intros Hl Hs p. pose proof (lo_components _ Hl) as H65. destruct (Hs max_remote_components) as [Hn _].
  destruct p; cbn [make_pool].
  - destruct (make_fresh 4 128 8) as (e & H1 & H2 & _); [lia..|]. by exists e.
  - destruct (make_fresh 1 8 0) as (e & H1 & H2 & _); [lia..|]. by exists e.
  - rewrite !u64_wrap_small by (unfold in_u64; lia).
    destruct (make_fresh 1 (Z.to_nat (Z.max 128 (size c max_remote_components + 65)))
                (Z.to_nat (size c max_remote_components + 1))) as (e & H1 & H2 & H3 & H4); [lia..|].
    exists e. split_and!; [done|done|]. intros _. rewrite H3, H4. split; lia.
  - destruct (make_fresh 1 128 8) as (e & H1 & H2 & _); [lia..|]. by exists e.
Qed.

(** An event that was reached: all before it succeeded. *)
Lemma attempt_reached ok l l' e :
  e ∈ (attempt ok (l ++ l')).1 -> e ∉ l -> Forall (fun x => ok x = true) l.
Proof.
  induction l as [|x l IH]; [done|]. cbn. rewrite elem_of_cons. intros He Hn.
  destruct (ok x) eqn:Ex.
  - destruct (attempt ok (l ++ l')) as [es b]. cbn in *. apply elem_of_cons in He as [->|He]; [tauto|].
    constructor; [done|]. apply IH; tauto.
  - apply list_elem_of_singleton in He. tauto.
Qed.

Lemma attempt_succeeds ok l es : attempt ok l = (es, true) -> es = l.
Proof.
  revert es. induction l as [|x l IH]; intros es; cbn; [by intros [= <-]|].
  destruct (ok x); [|done]. destruct (attempt ok l) as [es' b']. intros [= <- ->]. by rewrite (IH es').
Qed.

(** The program prefix that passes. *)
Lemma prefix_accepted ini_file active :
  validate_program_prefix ini_file active = Some (Ok tt) ->
  exists f prefix d, load_ini ini_file = Some f
    /\ find_string f "DISPLAY" "PROGRAM_PREFIX" = Some prefix /\ prefix <> EmptyString
    /\ canonical active = Some d
    /\ canonical (if is_relative prefix then append_text (parent_text ini_file) prefix else prefix) = Some d.
Proof.
  unfold validate_program_prefix. destruct (load_ini ini_file) as [f|]; [|done].
  destruct (find_string f _ _) as [[|ch rest]|] eqn:Ef; try done.
  set (prefix := String ch rest) in *. intros (configured & Hc & (expected & He & H)%bind_Some)%bind_Some.
  case_bool_decide as Heq; [|done]. subst expected. by exists f, prefix, configured.
Qed.

(** The daemon ends before it constructed anything, or all checks passed. *)
Lemma daemon_cases args :
  let r := daemon_main args in
  (r.1 = [] /\ (r.2 = ExitCode 0 ->
      exists c, parse_config cwd weakly_canonical is_regular_file args = Some (c, true)))
  \/ exists (c : DaemonConfig) (es : list Event) (b : bool), r = (es, ExitCode (if b then 0 else 2))
     /\ parse_config cwd weakly_canonical is_regular_file args = Some (c, false)
     /\ is_regular_file (text c nml_file) = true
     /\ validate_program_prefix (text c ini_file) (text c active_program_directory) = Some (Ok tt)
     /\ attempt (event_ok c) (startup_sequence c) = (es, b).
Proof.
  unfold daemon_main. destruct (parse_config _ _ _ args) as [[c [|]]|] eqn:Ep; [by left; eauto| |by left].
  destruct (empty (text c ini_file)); [by left|]. destruct (empty (text c nml_file)); [by left|].
  destruct (is_regular_file (text c nml_file)) eqn:Enml; [|by left].
  destruct (validate_program_prefix _ _) as [[[]|]|] eqn:Ev; [|by left..].
  unfold run_grpc_server. destruct (validate_config _ _ _ c); [|by left].
  destruct (attempt _ _) as [es b] eqn:Ea. right. by exists c, es, b.
Qed.

(** C30: nothing of the server is reachable before everything it relies on was checked.  If
    either endpoint is bound, the command line was accepted, LinuxCNC's INI file was read
    and its program prefix resolves to the directory the server activates programs in,
    the NML file is a regular file, and the snapshot of the INI file and all executors
    exist, the executors in the state their theorems start from and the one for HAL with
    its reserve for cleanups; and the gRPC endpoint is bound with TLS configured only with
    a certificate and a key.  The process exits with success only for a request for help
    or after it served. *)
Theorem startup_checked args :
  let r := daemon_main args in
  (r.2 = ExitCode 0 -> (exists c, parse_config cwd weakly_canonical is_regular_file args = Some (c, true))
     \/ StartRuntime ∈ r.1)
  /\ (MakeTelemetryServer ∈ r.1 \/ BindGrpc ∈ r.1 ->
      exists c f prefix d,
        parse_config cwd weakly_canonical is_regular_file args = Some (c, false)
        /\ load_ini (text c ini_file) = Some f
        /\ find_string f "DISPLAY" "PROGRAM_PREFIX" = Some prefix /\ prefix <> EmptyString
        /\ canonical (text c active_program_directory) = Some d
        /\ canonical (if is_relative prefix then append_text (parent_text (text c ini_file)) prefix else prefix)
           = Some d
        /\ is_regular_file (text c nml_file) = true
        /\ (BindGrpc ∈ r.1 -> flag c tls = true ->
            read_file (text c tls_private_key) <> EmptyString /\ read_file (text c tls_certificate) <> EmptyString)
        /\ forall p, exists e, make_pool c p = Ok e /\ fresh e
           /\ (p = hal_worker ->
               Z.of_nat (Executor.cleanup_reserve e) = size c max_remote_components + 1
               /\ (Executor.cleanup_reserve e + 64 <= Executor.capacity e)%nat)).
Proof.
  pose proof (daemon_cases args) as Hcases. cbv zeta in *. destruct Hcases as [[-> H]|(c & es & b & -> & Hp & Hnml & Hv & Ha)]; cbn [fst snd].
  { split; [by left; auto|]. by intros [[]%not_elem_of_nil|[]%not_elem_of_nil]. }
  split.
  - intros [= Hb]. destruct b; [|done]. apply attempt_succeeds in Ha as ->. right.
    unfold startup_sequence. rewrite !elem_of_app. right; right. set_solver.
  - intros _. destruct (prefix_accepted _ _ Hv) as (f & prefix & d & H1 & H2 & H3 & H4 & H5).
    exists c, f, prefix, d. split_and!; try done.
    + intros Hin Ht. unfold startup_sequence in Ha. rewrite Ht, app_assoc in Ha.
      pose proof (attempt_reached _ _ _ BindGrpc ltac:(by rewrite Ha)) as Hok.
      destruct (proj1 (Forall_app _ _ _) (Hok ltac:(rewrite elem_of_app; set_solver))) as [_ Htls].
      apply Forall_cons in Htls as [Hev _]. cbn in Hev. revert Hev. clear Hok. intros Hok. apply andb_true_iff in Hok as [K1 K2]. unfold empty in *.
      apply negb_true_iff in K1, K2. by split; eapply bool_decide_eq_false_1.
    + destruct (parse_config_limits args c false Hp) as [Hl Hs]. by apply pools_fit.
Qed.


End Environment.
(** A start that gets through, with a relative program prefix. *)
Definition sample_ini : IniFile :=
  mkIniFile ["DISPLAY"] (fun _ => [("PROGRAM_PREFIX", "nc")])
    (fun key section => if String.eqb key "PROGRAM_PREFIX" then Some "nc" else None).
Definition sample_args : list string :=
  ["--ini=/etc/cnc/mill.ini"; "--nml=/etc/cnc/mill.nml"; "--active-program-directory=/etc/cnc/nc";
   "--workspace-root=/srv/ws"].
Definition sample_canonical (p : string) : option path := Some (absolute_normal ["home"] p).

Lemma startup_checked_witness :
  let r := daemon_main ["home"] any_path (fun _ => true) (fun _ => Some sample_ini) sample_canonical
             (fun _ => "key") (fun _ => true) sample_args in
  r.2 = ExitCode 0
  /\ exists c f prefix d,
       parse_config ["home"] any_path (fun _ => true) sample_args = Some (c, false)
       /\ find_string f "DISPLAY" "PROGRAM_PREFIX" = Some prefix
       /\ sample_canonical (if is_relative prefix then append_text (parent_text (text c ini_file)) prefix else prefix)
          = Some d.
Proof.
  intros r. assert (Hr : r = (startup_sequence default_config, ExitCode 0)) by (vm_compute; reflexivity).
  split; [by rewrite Hr|].
  destruct (startup_checked ["home"] any_path (fun _ => true) (fun _ => Some sample_ini) sample_canonical
    (fun _ => "key") (fun _ => true) sample_args) as [_ H].
  destruct H as (c & f & prefix & d & H1 & _ & H2 & _ & _ & H3 & _).
  - left. change (MakeTelemetryServer ∈ r.1). rewrite Hr. cbn. rewrite !elem_of_cons. tauto.
  - exists c, f, prefix, d. split; [exact H1|]. split; [exact H2|exact H3].
Defined.

End Startup.
