(* ===== verification/WebSocket.v ===== *)
(** The telemetry WebSocket server ([telemetry_websocket_server.cc]): routing of
    the upgrade request with its query, the schedule of position frames, the
    preview stream of a program with its flow control, and the limit on
    sessions. The HAL and scope streams are in [HalTelemetry] and
    [ScopeFrames]. *)
From Stdlib Require Import Ascii.
From S2P Require Import Prelude Float64 PositionHistory DaemonConfig.

Local Open Scope Z_scope.

(** * Routing *)
Module Route.
Import DaemonConfig.Text.

Definition code (c : ascii) : Z := Z.of_nat (nat_of_ascii c).

Definition hex (c : ascii) : Z :=
  let v := code c in
  if (48 <=? v) && (v <=? 57) then v - 48
  else if (97 <=? v) && (v <=? 102) then v - 97 + 10
  else if (65 <=? v) && (v <=? 70) then v - 65 + 10
  else -1.

Fixpoint decode_query_value (s : string) : option string :=
  match s with
  | EmptyString => Some EmptyString
  | String c rest =>
      if Ascii.eqb c "+"%char then String " "%char <$> decode_query_value rest
      else if Ascii.eqb c "%"%char then
        match rest with
        | String a (String b rest) =>
            if (hex a <? 0) || (hex b <? 0) then None
            else String (ascii_of_nat (Z.to_nat (Z.lor (Z.shiftl (hex a) 4) (hex b))))
                   <$> decode_query_value rest
        | _ => None
        end
      else String c <$> decode_query_value rest
  end.

(** One [name=value] item, applied to the parameters found so far. *)
Definition apply_item (item : string) (found : string * string) : option (string * string) :=
  equals ← find "="%char item;
  let name := take equals item in
  decoded ← decode_query_value (drop (S equals) item);
  let workspace := if String.eqb name "workspace_id" then decoded else found.1 in
  let relative := if String.eqb name "relative_path" then decoded else found.2 in
  Some (workspace, relative).

(** The loop over the items, one turn per unit of fuel. *)
Fixpoint query_items (fuel : nat) (query : string) (found : string * string) :
    option (string * string) :=
  match fuel, query with
  | _, EmptyString => Some found
  | O, _ => None
  | S fuel, _ =>
      match find "&"%char query with
      | None => apply_item query found
      | Some n =>
          found ← apply_item (take n query) found;
          query_items fuel (drop (S n) query) found
      end
  end.

Definition preview_path : string := "/v1/program-preview?".

Definition preview_parameters (target : string) : option (string * string) :=
  if negb (String.prefix preview_path target) then None
  else
    let query := drop (String.length preview_path) target in
    found ← query_items (String.length query) query (EmptyString, EmptyString);
    if bool_decide (found.1 = EmptyString) || bool_decide (found.2 = EmptyString) then None
    else Some found.

(** What [on_upgrade_request] makes of a target. *)
Inductive Stream :=
| PositionStream
| PreviewStream (workspace relative : string)
| HalStream (token : string)
| ScopeStream (token : string)
| Refused.

Definition hal_prefix : string := "/v1/hal-values/".
Definition scope_prefix : string := "/v1/scope/".

Definition route (target : string) : Stream :=
  if String.eqb target "/v1/position-history" then PositionStream
  else
    match preview_parameters target with
    | Some (w, r) => PreviewStream w r
    | None =>
        if String.prefix hal_prefix target then HalStream (drop (String.length hal_prefix) target)
        else if String.prefix scope_prefix target
        then ScopeStream (drop (String.length scope_prefix) target)
        else Refused
    end.

(** ** Encoding *)

(** Percent-encoding as clients do it: characters in [safe] stay. *)
Definition hex_digit (n : Z) : ascii :=
  ascii_of_nat (Z.to_nat (if n <? 10 then 48 + n else 65 + (n - 10))).

Fixpoint encode_query_value (safe : ascii -> bool) (s : string) : string :=
  match s with
  | EmptyString => EmptyString
  | String c s =>
      if safe c then String c (encode_query_value safe s)
      else String "%"%char (String (hex_digit (code c / 16)) (String (hex_digit (code c mod 16))
             (encode_query_value safe s)))
  end.

(** The characters that separate parts of a query are not safe. *)
Definition separators : list ascii := ["%"; "+"; "&"; "="]%char.
Definition safe_ok (safe : ascii -> bool) : bool := forallb (fun c => negb (safe c)) separators.

Definition all_ascii : list ascii := ascii_of_nat <$> seq 0 256.

Lemma all_ascii_elem c : c ∈ all_ascii.
Proof.
  apply list_elem_of_fmap. exists (nat_of_ascii c). split; [by rewrite ascii_nat_embedding|].
  apply elem_of_seq. split; [lia|]. apply nat_ascii_bounded.
Qed.

(** A property of every character, by enumeration. *)
Lemma all_ascii_check (P : ascii -> bool) : forallb P all_ascii = true -> forall c, P c = true.
Proof. rewrite forallb_forall. intros H c. apply H. apply list_elem_of_In, all_ascii_elem. Qed.

Lemma hex_roundtrip c :
  0 <= hex (hex_digit (code c / 16)) /\ 0 <= hex (hex_digit (code c mod 16))
  /\ ascii_of_nat (Z.to_nat (Z.lor (Z.shiftl (hex (hex_digit (code c / 16))) 4)
                              (hex (hex_digit (code c mod 16))))) = c.
Proof.
  pose proof (all_ascii_check (fun c =>
    (0 <=? hex (hex_digit (code c / 16))) && (0 <=? hex (hex_digit (code c mod 16)))
    && Ascii.eqb (ascii_of_nat (Z.to_nat (Z.lor (Z.shiftl (hex (hex_digit (code c / 16))) 4)
                              (hex (hex_digit (code c mod 16)))))) c)
    ltac:(vm_compute; reflexivity) c) as H.
  apply andb_true_iff in H as [H Hc%Ascii.eqb_eq]. bool_to_prop. by split_and!.
Qed.

Lemma safe_ok_spec safe c : safe_ok safe = true -> safe c = true -> c ∉ separators.
Proof.
  unfold safe_ok. intros H Hc Hin. rewrite forallb_forall in H.
  apply list_elem_of_In in Hin. specialize (H c Hin). by rewrite Hc in H.
Qed.

Lemma decode_encode safe s :
  safe_ok safe = true -> decode_query_value (encode_query_value safe s) = Some s.
Proof.
  intros Hs. induction s as [|c s IH]; [done|]. cbn [encode_query_value].
  destruct (safe c) eqn:Ec.
  - pose proof (safe_ok_spec safe c Hs Ec) as Hn. unfold separators in Hn. cbn [decode_query_value].
    destruct (Ascii.eqb_spec c "+"%char) as [->|]; [set_solver|].
    destruct (Ascii.eqb_spec c "%"%char) as [->|]; [set_solver|]. by rewrite IH.
  - cbn [decode_query_value]. change (Ascii.eqb "%" "+") with false.
    change (Ascii.eqb "%" "%") with true. cbn match.
    destruct (hex_roundtrip c) as (H1 & H2 & H3).
    rewrite (proj2 (Z.ltb_ge _ _) H1), (proj2 (Z.ltb_ge _ _) H2). cbn [orb]. by rewrite IH, H3.
Qed.

(** Encoded text contains no separator of items. *)
Lemma encode_no_amp safe s :
  safe_ok safe = true -> find "&"%char (encode_query_value safe s) = None.
Proof.
  intros Hs. induction s as [|c s IH]; [done|]. cbn [encode_query_value].
  destruct (safe c) eqn:Ec.
  - pose proof (safe_ok_spec safe c Hs Ec) as Hn. unfold separators in Hn. cbn [find].
    destruct (Ascii.eqb_spec "&"%char c) as [<-|]; [set_solver|]. by rewrite IH.
  - assert (Hd : forall n, 0 <= n < 16 -> Ascii.eqb "&" (hex_digit n) = false).
    { intros n Hn. assert (n ∈ seqZ 0 16) as Hin by (apply elem_of_seqZ; lia).
      vm_compute in Hin. repeat (apply elem_of_cons in Hin as [->|Hin]; [reflexivity|]).
      by apply not_elem_of_nil in Hin. }
    assert (Hc : 0 <= code c < 256).
    { unfold code. pose proof (nat_ascii_bounded c). lia. }
    cbn [find]. change (Ascii.eqb "&" "%") with false. cbn match.
    rewrite !Hd by (first [apply Z.mod_pos_bound; lia | split; [apply Z.div_pos; lia|apply Z.div_lt_upper_bound; lia]]).
    by rewrite IH.
Qed.

(** ** Strings *)

Lemma take_app (a b : string) : take (String.length a) (a +:+ b) = a.
Proof. induction a as [|c a IH]; [by destruct b|]. cbn. f_equal. exact IH. Qed.

Lemma drop_app (a b : string) : drop (String.length a) (a +:+ b) = b.
Proof. induction a as [|c a IH]; [done|]. exact IH. Qed.

Lemma drop_S_app (a b : string) c : drop (S (String.length a)) (a +:+ String c b) = b.
Proof. induction a as [|d a IH]; [done|]. exact IH. Qed.

Lemma find_app c (a b : string) :
  find c a = None -> find c (a +:+ String c b) = Some (String.length a).
Proof.
  induction a as [|d a IH]; intros H; cbn [find] in *.
  - change (EmptyString +:+ String c b) with (String c b). cbn [find].
    by destruct (Ascii.eqb_spec c c).
  - rewrite string_app_cons. cbn [find String.length]. destruct (Ascii.eqb c d); [done|].
    destruct (find c a); [done|]. by rewrite IH.
Qed.

Lemma find_app_none c (a b : string) : find c a = None -> find c b = None -> find c (a +:+ b) = None.
Proof.
  intros Ha Hb. induction a as [|d a IH]; [exact Hb|]. rewrite string_app_cons. cbn [find] in *.
  destruct (Ascii.eqb c d); [done|]. destruct (find c a); [done|]. by rewrite IH.
Qed.

Lemma drop_shorter n s : (n < String.length s)%nat -> (String.length (drop (S n) s) < String.length s)%nat.
Proof.
  revert n. induction s as [|c s IH]; intros n Hn; [by cbn in Hn; lia|].
  destruct n as [|n]; cbn in *; [destruct s; cbn; lia|]. specialize (IH n). lia.
Qed.

Lemma find_bound c s n : find c s = Some n -> (n < String.length s)%nat.
Proof.
  revert n. induction s as [|d s IH]; intros n; cbn; [done|].
  destruct (Ascii.eqb c d); [intros [= <-]; lia|]. destruct (find c s) as [k|]; [|done].
  intros [= <-]. specialize (IH k eq_refl). lia.
Qed.

(** Every turn of the loop shortens the query, so its length is fuel enough: more
    changes nothing. *)
Lemma query_items_fuel k1 k2 query found :
  (String.length query <= k1)%nat -> (String.length query <= k2)%nat ->
  query_items k1 query found = query_items k2 query found.
Proof.
  revert k2 query found. induction k1 as [|k1 IH]; intros k2 query found H1 H2.
  { destruct query; cbn in H1; [by destruct k2|lia]. }
  destruct query as [|c query]; [by destruct k2|]. destruct k2 as [|k2]; [cbn in H2; lia|].
  cbn [query_items]. destruct (find "&"%char (String c query)) as [n|] eqn:En; [|done].
  destruct (apply_item _ found) as [found'|]; [|done]. cbn [mbind option_bind].
  pose proof (drop_shorter n (String c query) (find_bound _ _ _ En)). apply IH; lia.
Qed.

Lemma apply_item_spec name v w found :
  find "="%char name = None -> decode_query_value v = Some w ->
  apply_item (name +:+ String "="%char v) found
  = Some (if String.eqb name "workspace_id" then w else found.1,
          if String.eqb name "relative_path" then w else found.2).
Proof.
  intros Hn Hv. unfold apply_item. rewrite find_app by done. cbn [mbind option_bind].
  by rewrite take_app, drop_S_app, Hv.
Qed.

Lemma query_items_last k item found :
  find "&"%char item = None -> item <> EmptyString ->
  query_items (S k) item found = apply_item item found.
Proof. intros Hf Hne. destruct item; [done|]. cbn [query_items]. by rewrite Hf. Qed.

Lemma query_items_more k item rest found found' :
  find "&"%char item = None -> apply_item item found = Some found' ->
  query_items (S k) (item +:+ String "&"%char rest) found = query_items k rest found'.
Proof.
  intros Hf Ha. assert (Hne : exists c s, item +:+ String "&"%char rest = String c s).
  { destruct item; by eexists _, _. }
  destruct Hne as (c & s & Hcs). unfold query_items at 1. rewrite Hcs. fold query_items.
  rewrite <- Hcs, find_app by done. by rewrite take_app, Ha, drop_S_app.
Qed.

(** The preview request is read back: for any workspace and path (any bytes),
    encoded by any percent-encoding that escapes the separators of a query, the
    target opens the preview stream of exactly that workspace and path; the
    decoding of each value is the inverse of the encoding. *)
Theorem preview_request_roundtrip safe workspace relative :
  safe_ok safe = true -> workspace <> EmptyString -> relative <> EmptyString ->
  route (preview_path +:+ "workspace_id" +:+ String "=" (encode_query_value safe workspace)
           +:+ String "&" ("relative_path" +:+ String "=" (encode_query_value safe relative)))
  = PreviewStream workspace relative.
Proof.
  intros Hs Hw Hr.
  set (w := encode_query_value safe workspace). set (r := encode_query_value safe relative).
  set (query := ("workspace_id" +:+ String "="%char w)
                +:+ String "&"%char ("relative_path" +:+ String "="%char r)).
  assert (Hw' : find "&"%char w = None) by (by apply encode_no_amp).
  assert (Hr' : find "&"%char r = None) by (by apply encode_no_amp).
  assert (Hq : query_items (String.length query) query (EmptyString, EmptyString)
    = Some (workspace, relative)).
  { rewrite (query_items_fuel _ (S (S (String.length query)))) by lia.
    unfold query at 2. rewrite (query_items_more _ _ _ _ (workspace, EmptyString)).
    - rewrite query_items_last; [|apply find_app_none; [done|]|done].
      + rewrite (apply_item_spec "relative_path" r relative) by (done || by apply decode_encode).
        reflexivity.
      + cbn [find]. change (Ascii.eqb "&" "=") with false. cbn match. by rewrite Hr'.
    - apply find_app_none; [done|]. cbn [find]. change (Ascii.eqb "&" "=") with false. cbn match.
      by rewrite Hw'.
    - by rewrite (apply_item_spec "workspace_id" w workspace) by (done || by apply decode_encode). }
  change (route (preview_path +:+ query) = PreviewStream workspace relative).
  unfold route. change (String.eqb (preview_path +:+ query) "/v1/position-history") with false.
  cbn match. unfold preview_parameters. change (String.prefix preview_path (preview_path +:+ query)) with true.
  cbn match. rewrite drop_app, Hq. cbn. by rewrite !bool_decide_false.
Qed.

Lemma preview_request_roundtrip_witness :
  route (preview_path +:+ "workspace_id" +:+ String "="
           (encode_query_value (fun c => (97 <=? code c) && (code c <=? 122)) "a&b=")
         +:+ String "&" ("relative_path" +:+ String "="
           (encode_query_value (fun c => (97 <=? code c) && (code c <=? 122)) "x+y%.ngc")))
  = PreviewStream "a&b=" "x+y%.ngc".
Proof.
  apply (preview_request_roundtrip (fun c => (97 <=? code c) && (code c <=? 122)));
    [vm_compute; reflexivity|discriminate|discriminate].
Defined.

End Route.

(** * Position frames *)
Module Position.
Import PositionHistory.History.

(** 50 ms in nanoseconds. *)
Definition kPositionDeliveryPeriod : Z := 50000000.

(** The session of a position stream; [in_flight]: the batch being written;
    [reader]: what the browser has assembled from the frames it received. *)
Record Session := mkSession {
  cursor : Z;
  generation : Z;
  write_cursor : Z;
  write_generation : Z;
  next_delivery : Z;
  wake_pending : bool;
  delivery_scheduled : bool;
  writing : bool;
  closing : bool;
  closed : bool;
  in_flight : option PositionHistoryBatch;
  reader : Consumer;
}.

Record World := mkWorld { history : PositionHistory; session : Session }.

Definition set_wake (b : bool) (s : Session) : Session :=
  mkSession (cursor s) (generation s) (write_cursor s) (write_generation s) (next_delivery s) b
    (delivery_scheduled s) (writing s) (closing s) (closed s) (in_flight s) (reader s).
Definition set_schedule (b : bool) (next : Z) (s : Session) : Session :=
  mkSession (cursor s) (generation s) (write_cursor s) (write_generation s) next (wake_pending s)
    b (writing s) (closing s) (closed s) (in_flight s) (reader s).
Definition set_closing (closing_ closed_ : bool) (s : Session) : Session :=
  mkSession (cursor s) (generation s) (write_cursor s) (write_generation s) (next_delivery s)
    (wake_pending s) (delivery_scheduled s) (writing s) closing_ closed_ (in_flight s) (reader s).

Definition send_next (initial : bool) (h : PositionHistory) (s : Session) : Session :=
  let batch := if initial then snapshot h else Telemetry.since (cursor s) (generation s) h in
  if negb initial && negb (reset batch) && bool_decide (packed batch = []) then s
  else mkSession (cursor s) (generation s) (batch_next_sequence batch) (batch_generation batch)
         (next_delivery s) (wake_pending s) (delivery_scheduled s) true (closing s) (closed s)
         (Some batch) (reader s).

Definition schedule_position_delivery (s : Session) : Session :=
  if closed s || closing s || delivery_scheduled s then s
  else set_schedule true (next_delivery s) s.

(** [on_accept], with the subscription made before the first snapshot. *)
Definition on_accept (now : Z) (h : PositionHistory) : Session :=
  let s := mkSession 0 0 0 0 0 false false false false false None (mkConsumer [] 0 0) in
  let s := send_next true h s in
  schedule_position_delivery (set_schedule false (now + kPositionDeliveryPeriod) s).

Definition fail (s : Session) : Session := set_closing (closing s) true s.

(** [on_position_delivery]; [error]: the timer failed (it is not cancelled while
    the session is open). *)
Definition on_position_delivery (error : bool) (now : Z) (h : PositionHistory) (s : Session) :
    Session :=
  let s := set_schedule false (next_delivery s) s in
  if closed s || closing s then s
  else if error then fail s
  else
    let next := default (next_delivery s)
      (catch_up_loop (catch_up_fuel kPositionDeliveryPeriod (next_delivery s) now)
         kPositionDeliveryPeriod (next_delivery s) now) in
    let s := schedule_position_delivery (set_schedule (delivery_scheduled s) next s) in
    if negb (writing s) && wake_pending s then send_next false h (set_wake false s) else s.

(** [on_write] for a position stream; the browser receives what was written. *)
Definition on_write (error : bool) (s : Session) : Session :=
  let received := match in_flight s with
                  | Some b => if error then reader s else receive b (reader s)
                  | None => reader s
                  end in
  let s := mkSession (cursor s) (generation s) (write_cursor s) (write_generation s)
             (next_delivery s) (wake_pending s) (delivery_scheduled s) false (closing s) (closed s)
             None received in
  if error then fail s
  else mkSession (write_cursor s) (write_generation s) (write_cursor s) (write_generation s)
         (next_delivery s) (wake_pending s) (delivery_scheduled s) false (closing s) (closed s)
         None received.

Definition on_read (error : bool) (s : Session) : Session :=
  if error then fail s else set_closing true (closed s) s.

(** [Changes]: the telemetry changes the history and wakes its subscribers;
    [Woken]: a wake that comes late, or twice. *)
Inductive Op :=
| Changes (o : History.Op)
| Woken
| Timer (error : bool) (now : Z)
| Written (error : bool)
| Read (error : bool)
| Closed.

(** Whether the telemetry publishes a wake: [append] reports no change. *)
Definition wakes (o : History.Op) (h : PositionHistory) : bool :=
  match o with OpAppend s => (append s h).2 | _ => true end.

Definition step (w : World) (op : Op) : World :=
  let h := history w in
  let s := session w in
  match op with
  | Changes o => mkWorld (apply h o) (if wakes o h && negb (closed s) then set_wake true s else s)
  | Woken => mkWorld h (if closed s then s else set_wake true s)
  | Timer e now => mkWorld h (if delivery_scheduled s then on_position_delivery e now h s else s)
  | Written e => mkWorld h (if writing s then on_write e s else s)
  | Read e => mkWorld h (if closing s || closed s then s else on_read e s)
  | Closed => mkWorld h (fail s)
  end.

Definition start (before : list History.Op) (max : nat) (eps : f64) (now : Z) : World :=
  let h := run before (make max eps) in mkWorld h (on_accept now h).

(** The changes of the history in a run. *)
Definition changes (ops : list Op) : list History.Op :=
  omap (fun op => match op with Changes o => Some o | _ => None end) ops.

(** ** The schedule *)

(** The delivery timer catches up: the loop that moves the next delivery past
    the current time ends after one turn more than the periods that have passed,
    and then the next delivery is the first instant of the grid of periods after
    now (one period later, if now is before the current one); further turns
    would change nothing. *)
Theorem delivery_catches_up next now :
  exists r, (forall more, catch_up_loop (catch_up_fuel kPositionDeliveryPeriod next now + more)
               kPositionDeliveryPeriod next now = Some r)
  /\ Z.max next now < r <= Z.max next now + kPositionDeliveryPeriod
  /\ (r - next) mod kPositionDeliveryPeriod = 0.
Proof.
  assert (Hp : 0 < kPositionDeliveryPeriod) by done.
  destruct (Z.le_gt_cases next now) as [Hle|Hgt].
  - destruct (catch_up_loop_spec (catch_up_fuel kPositionDeliveryPeriod next now)
      kPositionDeliveryPeriod next now Hp Hle) as (r & Hr & Hb & Hm); [unfold catch_up_fuel; lia|].
    exists r. split; [|split; [lia|done]]. intros more. eapply catch_up_more; [exact Hr|lia].
  - exists (next + kPositionDeliveryPeriod). split.
    + intros more. cbn. by rewrite (proj2 (Z.leb_gt _ _)) by lia.
    + split; [lia|]. replace (next + kPositionDeliveryPeriod - next) with kPositionDeliveryPeriod by lia.
      done.
Qed.

(** ** The reader *)

Section Reader.
Variables (max : nat) (eps : f64).

(** A state of the history that the reader may hold, now [h]. *)
Definition past (n : nat) (h1 h : PositionHistory) : Prop :=
  exists before later, h1 = run before (make max eps) /\ h = run later h1
  /\ (length before + length later = n)%nat.

Definition same_buffer (h1 h : PositionHistory) : Prop := pack (entries h1) = pack (entries h).

(** The reader holds, or is being sent, a past state; without a pending wake it
    is the present one. *)
Record inv (n : nat) (w : World) : Prop := mkInv {
  inv_scheduled : closed (session w) = false -> closing (session w) = false ->
    delivery_scheduled (session w) = true;
  inv_reader : closed (session w) = false -> exists h1, past n h1 (history w)
    /\ (wake_pending (session w) = false -> same_buffer h1 (history w))
    /\ if writing (session w)
       then exists b, in_flight (session w) = Some b /\ receive b (reader (session w)) = in_sync h1
            /\ write_cursor (session w) = next_sequence h1
            /\ write_generation (session w) = History.generation h1
       else reader (session w) = in_sync h1 /\ cursor (session w) = next_sequence h1
            /\ generation (session w) = History.generation h1;
}.

Lemma receive_snapshot h c : receive (snapshot h) c = in_sync h.
Proof. done. Qed.

Lemma past_now n h1 h : past n h1 h -> past n h h.
Proof.
  intros (b & l & -> & -> & <-). exists (b ++ l), []. unfold run.
  rewrite foldl_app, length_app. split_and!; done || (cbn; lia).
Qed.

Lemma past_step n h1 h o : past n h1 h -> past (S n) h1 (apply h o).
Proof.
  intros (b & l & -> & -> & <-). exists b, (l ++ [o]). unfold run.
  rewrite foldl_app, length_app. split_and!; done || (cbn; lia).
Qed.

Lemma past_since n h1 h :
  Z.of_nat n + 1 < 2 ^ 64 -> past n h1 h ->
  receive (Telemetry.since (next_sequence h1) (History.generation h1) h) (in_sync h1) = in_sync h.
Proof.
  intros Hn (b & l & -> & -> & <-). apply since_run. lia.
Qed.

(** An empty batch that is no reset removes nothing either. *)
Lemma since_empty seq gen h :
  packed (since seq 0 gen h) = [] -> replace_count (since seq 0 gen h) = 0%nat.
Proof.
  unfold since. destruct (entries h) as [|e es]; [done|]. cbn [packed replace_count Nat.eqb].
  destruct (if _ || _ then e :: es else lower_bound seq (e :: es)) as [|e' first]; [done|].
  rewrite take_ge by done. unfold pack. cbn. unfold append_packed.
  by destruct (vec_to_list (coordinates (sample e'))).
Qed.

Lemma send_next_ok n h s h1 :
  Z.of_nat n + 1 < 2 ^ 64 -> past n h1 h -> writing s = false -> reader s = in_sync h1 ->
  cursor s = next_sequence h1 -> generation s = History.generation h1 ->
  delivery_scheduled s = true -> inv n (mkWorld h (send_next false h s)).
Proof.
  intros Hn Hp Hw Hr Hc Hg Hd. pose proof (past_since n h1 h Hn Hp) as Hs.
  unfold send_next. rewrite Hc, Hg. cbn [negb andb].
  set (batch := Telemetry.since (next_sequence h1) (History.generation h1) h) in *.
  destruct (negb (reset batch) && _) eqn:Eb.
  - apply andb_true_iff in Eb as [Er Ep]. apply negb_true_iff in Er. apply bool_decide_eq_true in Ep.
    split; cbn; [done|]. intros _. exists h1. split; [done|]. rewrite Hw.
    split; [|by split_and!]. intros _. unfold same_buffer.
    assert (Hz : replace_count batch = 0%nat) by (by apply since_empty).
    unfold receive in Hs. rewrite Er, Ep, Hz in Hs. cbn in Hs. injection Hs as Hs _ _.
    rewrite <- Hs, app_nil_r, Nat.sub_0_r, firstn_all. done.
  - split; cbn; [done|]. intros _. exists h. split; [by eapply past_now|]. split; [done|].
    exists batch. rewrite Hr. split; [done|]. split; [done|].
    unfold receive, in_sync in Hs. by injection Hs.
Qed.

Lemma position_inv_start before now : inv (length before) (start before max eps now).
Proof.
  split; cbn; [done|]. intros _. exists (run before (make max eps)). split.
  - exists before, []. split_and!; done || lia.
  - split; [done|]. eexists. split; [done|]. split; [apply receive_snapshot|done].
Qed.

Lemma position_inv_step n w op :
  Z.of_nat n + 2 < 2 ^ 64 -> inv n w ->
  inv (match op with Changes _ => S n | _ => n end) (step w op).
Proof.
  intros Hn [Hsch Hrd]. destruct w as [h s]. cbn in *. destruct op as [o| |e now|e|e|]; cbn.
  - assert (Hcl : closed (if wakes o h && negb (closed s) then set_wake true s else s) = closed s)
      by (by destruct (_ && _)).
    split; cbn; rewrite Hcl; [by destruct (_ && _)|]. intros Hc. destruct (Hrd Hc) as (h1 & Hp & Hb & H).
    exists h1. split; [by apply past_step|]. rewrite Hc, andb_true_r.
    destruct (wakes o h) eqn:Ew; cbn; [by split|]. split; [|done].
    intros Hwake. specialize (Hb Hwake). unfold same_buffer in *. rewrite Hb.
    destruct o as [| |sm]; try done. cbn in *. by destruct (append_cases sm h) as [->|(l & _ & Ha)];
      [|rewrite Ha in Ew].
  - destruct (closed s) eqn:Ec; [by split; cbn; rewrite Ec|]. split; cbn; [by rewrite Ec|]. intros _.
    destruct (Hrd eq_refl) as (h1 & Hp & _ & H). by exists h1.
  - destruct (delivery_scheduled s) eqn:Ed; [|by split; cbn; rewrite ?Ed]. unfold on_position_delivery. cbn.
    destruct (closed s) eqn:Ec; cbn; [by split; cbn; rewrite Ec|].
    destruct (Hrd eq_refl) as (h1 & Hp & Hb & H).
    destruct (closing s) eqn:Ecg; cbn.
    { split; cbn; [by rewrite Ecg|]. intros _. by exists h1. }
    destruct e; [by split|]. unfold schedule_position_delivery. cbn. rewrite Ec, Ecg. cbn.
    destruct (writing s) eqn:Ewr; cbn.
    { split; cbn; [done|]. intros _. exists h1. rewrite Ewr. by split_and!. }
    destruct (wake_pending s) eqn:Ewp.
    + destruct H as (Hr & Hc & Hg). apply (send_next_ok n h _ h1); try done. lia.
    + split; cbn; [done|]. intros _. exists h1. rewrite Ewr, Ewp. destruct H as (? & ? & ?). by split_and!.
  - destruct (writing s) eqn:Ew; [|by split; cbn; rewrite ?Ew]. unfold on_write.
    destruct e; [by split|]. split; cbn; [done|]. intros Hc.
    destruct (Hrd Hc) as (h1 & Hp & Hb & b & Hf & Hr & Hwc & Hwg). exists h1.
    split; [done|]. split; [done|]. by rewrite Hf.
  - destruct (closing s || closed s) eqn:Ecc; [by split|]. unfold on_read. destruct e; by split.
  - by split.
Qed.

Lemma changes_length ops : (length (changes ops) <= length ops)%nat.
Proof. unfold changes. induction ops as [|o ops IH]; [done|]. cbn. destruct o; cbn; lia. Qed.

Lemma position_inv_run before now ops :
  Z.of_nat (length before + length ops) + 2 < 2 ^ 64 ->
  inv (length before + length (changes ops)) (foldl step (start before max eps now) ops).
Proof.
  induction ops as [|op ops IH] using rev_ind; intros Hn.
  { cbn. rewrite Nat.add_0_r. apply position_inv_start. }
  rewrite length_app in Hn. cbn in Hn. rewrite foldl_app. cbn.
  pose proof (changes_length ops) as Hlen.
  pose proof (position_inv_step (length before + length (changes ops)) _ op ltac:(lia) (IH ltac:(lia))) as H.
  unfold changes in *. rewrite omap_app, length_app. destruct op; cbn in *; by rewrite ?Nat.add_0_r, ?Nat.add_succ_r, ?Nat.add_0_r in *.
Qed.

(** A quiet session without a pending wake is up to date. *)
Lemma inv_current n w :
  inv n w -> closed (session w) = false -> writing (session w) = false ->
  wake_pending (session w) = false ->
  buffer (reader (session w)) = pack (entries (history w)).
Proof.
  intros [_ Hr] Hc Hw Hp. destruct (Hr Hc) as (h1 & _ & Hb & H). rewrite Hw in H.
  destruct H as (-> & _). by apply Hb.
Qed.

(** The timer takes a pending wake. *)
Lemma timer_takes w now :
  closed (session w) = false -> closing (session w) = false ->
  delivery_scheduled (session w) = true -> writing (session w) = false ->
  let w1 := step w (Timer false now) in
  closed (session w1) = false /\ wake_pending (session w1) = false /\ history w1 = history w.
Proof.
  intros Hc Hcg Hd Hw. cbn. rewrite Hd. unfold on_position_delivery.
  set (next := default _ _). clearbody next. cbn. rewrite Hc, Hcg. cbn.
  unfold schedule_position_delivery. cbn. rewrite Hc, Hcg. cbn. rewrite Hw. cbn.
  destruct (wake_pending (session w)) eqn:Ewp; [|done]. unfold send_next.
  by destruct (negb false && _ && _).
Qed.

(** C8: The browser's position trace converges: in an open session the delivery
    timer is always armed, and from any reachable state in which nothing is being
    written, one expiry of the timer and the completion of the write it may
    start leave the browser with exactly the packed history; without a pending
    wake it holds it already.  This is for every interleaving of history changes
    (points, evictions, clears, reconfigurations), wakes, timers and writes. *)
Theorem position_reader_converges before now ops now' :
  Z.of_nat (length before + length ops) + 2 < 2 ^ 64 ->
  let w := foldl step (start before max eps now) ops in
  closed (session w) = false -> closing (session w) = false ->
  delivery_scheduled (session w) = true
  /\ (writing (session w) = false ->
      let w' := step (step w (Timer false now')) (Written false) in
      buffer (reader (session w')) = pack (entries (history w))
      /\ (wake_pending (session w) = false ->
          buffer (reader (session w)) = pack (entries (history w)))).
Proof.
  intros Hn w Hc Hcg. pose proof (position_inv_run before now ops Hn) as Hi. fold w in Hi.
  pose proof (changes_length ops) as Hlen.
  assert (Hn' : Z.of_nat (length before + length (changes ops)) + 2 < 2 ^ 64) by (clear -Hn Hlen; lia).
  pose proof (inv_scheduled _ _ Hi Hc Hcg) as Hd. split; [done|]. intros Hw. cbn zeta.
  split; [|by apply (inv_current _ _ Hi)].
  destruct (timer_takes w now' Hc Hcg Hd Hw) as (Hc1 & Hp1 & Hh1).
  pose proof (position_inv_step _ _ (Timer false now') Hn' Hi) as Hi1. cbn match in Hi1.
  pose proof (position_inv_step _ _ (Written false) Hn' Hi1) as Hi2. cbn match in Hi2.
  set (w1 := step w (Timer false now')) in *. clearbody w1.
  assert (H2 : closed (session (step w1 (Written false))) = false
    /\ writing (session (step w1 (Written false))) = false
    /\ wake_pending (session (step w1 (Written false))) = false).
  { cbn. destruct (writing (session w1)) eqn:Ew; [by cbn|done]. }
  destruct H2 as (Hc2 & Hw2 & Hp2). rewrite <- Hh1.
  by apply (inv_current _ _ Hi2 Hc2 Hw2 Hp2).
Qed.

End Reader.

Definition sample_point (x : Z) : PositionSample := point x x.

Lemma position_reader_converges_witness :
  let w := foldl step (start [OpAppend (sample_point 1)] 4 kDefaultEpsilon 0)
             [Written false; Changes (OpAppend (sample_point 5)); Changes OpClear;
              Changes (OpAppend (sample_point 7))] in
  buffer (reader (session (step (step w (Timer false 60000000)) (Written false))))
    = pack (entries (history w))
  /\ buffer (reader (session w)) <> pack (entries (history w)).
Proof.
  cbn zeta. split; [|vm_compute; discriminate].
  apply (position_reader_converges 4 kDefaultEpsilon [OpAppend (sample_point 1)] 0
    [Written false; Changes (OpAppend (sample_point 5)); Changes OpClear;
     Changes (OpAppend (sample_point 7))] 60000000);
    vm_compute; reflexivity.
Defined.

End Position.

(** * Program preview *)
Module Preview.

(** ** Frames of a batch *)
Section Frames.
Context {Operation : Type}.
(** [ByteSizeLong] of an event with these operations, and the limit. *)
Variable bytes : list Operation -> Z.
Variable limit : Z.

(** The loop of [on_batch]: the frames handed to [send_batch] and whether the loop
    ended without an exception; [room]: how many sends succeed before the stop. *)
Fixpoint batch_loop (room : nat) (event batch : list Operation) : list (list Operation) * bool :=
  match batch with
  | [] =>
      match event, room with
      | [], _ => ([], true)
      | _, O => ([], true)
      | _, S _ => ([event], true)
      end
  | op :: batch =>
      if bytes (event ++ [op]) <=? limit then batch_loop room (event ++ [op]) batch
      else
        match event, room with
        | [], _ => ([], false)
        | _, O => ([], true)
        | _, S room =>
            if limit <? bytes [op] then ([event], false)
            else let (frames, ok) := batch_loop room [op] batch in (event :: frames, ok)
        end
  end.

Definition on_batch (room : nat) (batch : list Operation) : list (list Operation) * bool :=
  batch_loop room [] batch.

(** Frames carry a prefix of the operations in order, within the limit. *)
Lemma batch_loop_prefix room event batch :
  event = [] \/ bytes event <= limit ->
  concat (batch_loop room event batch).1 `prefix_of` event ++ batch
  /\ Forall (fun f => f <> [] /\ bytes f <= limit) (batch_loop room event batch).1.
Proof.
  revert room event. induction batch as [|op batch IH]; intros room event He.
  { destruct event as [|e event], room; cbn; try (split; [apply prefix_nil|done]).
    destruct He as [He|He]; [done|]. rewrite !app_nil_r. split; [done|]. by apply Forall_singleton. }
  cbn [batch_loop]. destruct (Z.leb_spec (bytes (event ++ [op])) limit) as [Hle|Hgt].
  { destruct (IH room (event ++ [op]) ltac:(by right)) as [Hp Hf]. by rewrite <- app_assoc in Hp. }
  destruct event as [|e event]; [split; [apply prefix_nil|done]|].
  destruct room as [|room]; [split; [apply prefix_nil|done]|].
  destruct He as [He|He]; [done|].
  destruct (Z.ltb_spec limit (bytes [op])) as [Hbig|Hsmall].
  { cbn. rewrite app_nil_r. split; [|by apply Forall_singleton]. by exists (op :: batch). }
  destruct (IH room [op] ltac:(by right)) as [Hp Hf].
  destruct (batch_loop room [op] batch) as [frames ok]. cbn in *.
  split; [|by constructor]. destruct Hp as [k Hk]. exists k.
  rewrite Hk. cbn. by rewrite app_assoc.
Qed.

(** Without a stop the frames are complete, unless an operation is too large. *)
Lemma batch_loop_complete room event batch :
  (length batch < room)%nat -> Forall (fun op => bytes [op] <= limit) batch ->
  (batch_loop room event batch).2 = true
  /\ concat (batch_loop room event batch).1 = event ++ batch.
Proof.
  revert room event. induction batch as [|op batch IH]; intros room event Hr Hops.
  { destruct event, room; cbn in *; try lia; by rewrite ?app_nil_r. }
  apply Forall_cons in Hops as [Hop Hops]. cbn in Hr. cbn [batch_loop].
  destruct (Z.leb_spec (bytes (event ++ [op])) limit) as [Hle|Hgt].
  { destruct (IH room (event ++ [op])) as [H1 H2]; [lia|done|]. by rewrite <- app_assoc in H2. }
  destruct event as [|e event]; [cbn in Hgt; lia|]. destruct room as [|room]; [lia|].
  rewrite (proj2 (Z.ltb_ge _ _) Hop).
  destruct (IH room [op]) as [H1 H2]; [lia|done|].
  destruct (batch_loop room [op] batch) as [frames ok]. cbn in *. by rewrite H2.
Qed.

Lemma batch_loop_whole room event batch :
  (length batch < room)%nat -> (batch_loop room event batch).2 = true ->
  concat (batch_loop room event batch).1 = event ++ batch.
Proof.
  revert room event. induction batch as [|op batch IH]; intros room event Hr.
  { destruct event, room; cbn in *; try lia; by rewrite ?app_nil_r. }
  cbn in Hr. cbn [batch_loop]. destruct (bytes (event ++ [op]) <=? limit).
  { intros H. rewrite IH by (done || lia). by rewrite <- app_assoc. }
  destruct event as [|e event]; [done|]. destruct room as [|room]; [lia|].
  destruct (limit <? bytes [op]); [done|]. specialize (IH room [op] ltac:(lia)).
  destruct (batch_loop room [op] batch) as [frames ok]. cbn in *. intros H. by rewrite IH.
Qed.

Lemma batch_loop_throws room event batch :
  (batch_loop room event batch).2 = false -> exists op, op ∈ batch /\ limit < bytes [op].
Proof.
  revert room event. induction batch as [|op batch IH]; intros room event.
  { by destruct event, room. }
  cbn [batch_loop]. destruct (Z.leb_spec (bytes (event ++ [op])) limit) as [Hle|Hgt].
  { intros (o & Ho & Hb)%IH. exists o. split; [by apply list_elem_of_further|done]. }
  destruct event as [|e event]; [intros _; exists op; split; [apply list_elem_of_here|done]|].
  destruct room as [|room]; [done|]. destruct (Z.ltb_spec limit (bytes [op])) as [Hbig|Hsmall].
  { intros _. exists op. split; [apply list_elem_of_here|done]. }
  specialize (IH room [op]). destruct (batch_loop room [op] batch) as [frames ok]. cbn in *.
  intros (o & Ho & Hb)%IH. exists o. split; [by apply list_elem_of_further|done].
Qed.

(** A batch of preview operations is sent exactly: every frame is non-empty and
    within the byte limit and the frames together are a prefix of the batch in
    order; without a stop they are the whole batch whenever each operation fits
    a frame of its own, and the exception is only raised for an operation that
    does not. *)
Theorem preview_frames_exact room batch :
  let (frames, ok) := on_batch room batch in
  Forall (fun f => f <> [] /\ bytes f <= limit) frames
  /\ concat frames `prefix_of` batch
  /\ (ok = false -> exists op, op ∈ batch /\ limit < bytes [op])
  /\ ((length batch < room)%nat -> Forall (fun op => bytes [op] <= limit) batch ->
      ok = true /\ concat frames = batch).
Proof.
  unfold on_batch. destruct (batch_loop_prefix room [] batch ltac:(by left)) as [Hp Hf].
  pose proof (batch_loop_complete room [] batch) as Hc.
  pose proof (batch_loop_throws room [] batch) as Ht.
  destruct (batch_loop room [] batch) as [frames ok]. cbn in *. by split_and!.
Qed.

End Frames.

(** ** The worker *)
Section Stream.
Context {Operation Extents : Type}.
Variable bytes : list Operation -> Z.

(** [max_preview_frame_bytes] *)
Definition max_preview_frame_bytes : Z := 4 * 1024 * 1024.

Inductive ParseErrorCode := InvalidEntry | Interpreter | Internal.

(** [ProgramPreviewEvent] *)
Inductive Event :=
| EvProgress (bytes_read total_bytes : Z) (percent : option Z) (operation_count : Z)
| EvBatch (operations : list Operation)
| EvSummary (extents : Extents) (operation_count : Z)
| EvError (code : ParseErrorCode) (message : string) (line_number : option Z).

Record PreviewMessage := mkPreviewMessage {
  bytes_ : Event;
  batch : bool;
  terminal : bool;
  progress : bool;
}.

Record ParseProgress := mkParseProgress {
  bytesRead : Z; totalBytes : Z; percent : f64; operationCount : Z;
}.

(** What the parser does with its callbacks, and how it ends. *)
Inductive ParserCall := OnProgress (p : ParseProgress) | OnBatch (ops : list Operation).

Inductive ParserEnd :=
| Returned (cancelled : bool) (extents : Extents) (count : Z)
| ThrewParseError (code : ParseErrorCode) (what : string) (line : option Z)
| ThrewException (what : string).

(** [static_cast<std::uint32_t>(std::clamp(percent, 0.0, 100.0))] *)
Definition encode_percent (p : f64) : option Z :=
  f64_trunc (if f64_lt p f64_zero then f64_zero
             else if f64_lt (f64_of_Z 100) p then f64_of_Z 100 else p).

Definition on_progress (p : ParseProgress) : PreviewMessage :=
  mkPreviewMessage
    (EvProgress (bytesRead p) (totalBytes p) (encode_percent (percent p)) (operationCount p))
    false false true.

Definition batch_message (ops : list Operation) : PreviewMessage :=
  mkPreviewMessage (EvBatch ops) true false false.

Definition terminal_message (e : Event) : PreviewMessage := mkPreviewMessage e false true false.

(** The end of the parse, as the event sent last. *)
Definition finish (e : ParserEnd) : list PreviewMessage :=
  match e with
  | Returned true _ _ => []
  | Returned false extents count => [terminal_message (EvSummary extents count)]
  | ThrewParseError code what line => [terminal_message (EvError code what line)]
  | ThrewException what => [terminal_message (EvError Internal what None)]
  end.

(** The messages of a run of the worker that no stop interrupts; the exception of
    [on_batch] leaves the parser and becomes the terminal event. *)
Fixpoint worker_calls (calls : list ParserCall) (e : ParserEnd) : list PreviewMessage :=
  match calls with
  | [] => finish e
  | OnProgress p :: calls => on_progress p :: worker_calls calls e
  | OnBatch ops :: calls =>
      let (frames, ok) := on_batch bytes max_preview_frame_bytes (S (length ops)) ops in
      (batch_message <$> frames)
      ++ if ok then worker_calls calls e
         else finish (ThrewException "G-code operation exceeds preview frame byte limit")
  end.

Definition worker (leased : bool) (calls : list ParserCall) (e : ParserEnd) : list PreviewMessage :=
  if leased then worker_calls calls e
  else [terminal_message
          (EvError InvalidEntry "program workspace entry is missing or unsafe" None)].

(** ** The session *)
(** Where the messages are; [posted] is the executor's handlers, oldest first,
    [script] what the worker has still to send and [wire] what was handed to
    [write_frame], in order. *)
Record Stages := mkStages {
  wire : list PreviewMessage;
  queue : list PreviewMessage;
  posted : list PreviewMessage;
  script : list PreviewMessage;
}.

Record Socket := mkSocket {
  writing : bool;
  closing : bool;
  closed : bool;
  close_started : bool;              (** an [async_close] was started *)
  releases : Z;                      (** calls of [release_] *)
}.

Record Session := mkSession {
  stages : Stages;
  socket : Socket;
  outstanding_batches : Z;
  stop_requested : bool;
  active_batch : bool;
  active_terminal : bool;
  admitted : bool;
  units : Z;                         (** admission units held *)
}.

Definition set_stages (st : Stages) (s : Session) : Session :=
  mkSession st (socket s) (outstanding_batches s) (stop_requested s)
    (active_batch s) (active_terminal s) (admitted s) (units s).
Definition set_socket (k : Socket) (s : Session) : Session :=
  mkSession (stages s) k (outstanding_batches s) (stop_requested s)
    (active_batch s) (active_terminal s) (admitted s) (units s).
Definition set_outstanding (n : Z) (s : Session) : Session :=
  mkSession (stages s) (socket s) n (stop_requested s)
    (active_batch s) (active_terminal s) (admitted s) (units s).
Definition set_active (b t : bool) (s : Session) : Session :=
  mkSession (stages s) (socket s) (outstanding_batches s) (stop_requested s)
    b t (admitted s) (units s).

Definition set_writing (b : bool) (s : Session) : Session :=
  let k := socket s in
  set_socket (mkSocket b (closing k) (closed k) (close_started k) (releases k)) s.

Definition fail (s : Session) : Session :=
  let k := socket s in let st := stages s in
  if closed k then s
  else mkSession (mkStages (wire st) [] (posted st) (script st))
         (mkSocket (writing k) (closing k) true (close_started k) (releases k + 1))
         (outstanding_batches s) true (active_batch s) (active_terminal s)
         false (if admitted s then units s - 1 else units s).

(** [close_normal], [close_policy_violation] and [close_try_again_later]: the
    completion of the close calls [fail]. *)
Definition start_close (s : Session) : Session :=
  let k := socket s in
  set_socket (mkSocket (writing k) (closing k) (closed k) true (releases k)) s.

Definition pump_preview (s : Session) : Session :=
  let st := stages s in
  match queue st with
  | [] => s
  | message :: rest =>
      if writing (socket s) || closed (socket s) then s
      else
        let s := set_stages (mkStages (wire st ++ [message]) rest (posted st) (script st)) s in
        set_writing true (set_active (batch message) (terminal message) s)
  end.

(** The queue after a message: the text of a progress message at the back is
    replaced by that of a newer one. *)
Definition enqueue (m : PreviewMessage) (q : list PreviewMessage) : list PreviewMessage :=
  match last q with
  | Some back =>
      if progress m && progress back
      then take (length q - 1) q
           ++ [mkPreviewMessage (bytes_ m) (batch back) (terminal back) (progress back)]
      else q ++ [m]
  | None => q ++ [m]
  end.

(** The handler that [enqueue_preview] posts. *)
Definition on_posted (m : PreviewMessage) (s : Session) : Session :=
  let st := stages s in
  if closed (socket s) then s
  else pump_preview
         (set_stages (mkStages (wire st) (enqueue m (queue st)) (posted st) (script st)) s).

Definition on_write (error : bool) (s : Session) : Session :=
  let s := set_writing false s in
  if error then fail s
  else
    let s := if active_batch s then set_outstanding (u64_wrap (outstanding_batches s - 1)) s
             else s in
    let was_terminal := active_terminal s in
    let s := set_active false false s in
    if closing (socket s) then start_close s
    else if was_terminal then start_close s
    else pump_preview s.

Definition on_read (error : bool) (s : Session) : Session :=
  if error then fail s
  else
    let k := socket s in
    let s := set_socket (mkSocket (writing k) true (closed k) (close_started k) (releases k)) s in
    if writing k then s else start_close s.

(** [send] and [send_batch] on the worker: a batch waits for room in the window
    and is dropped once a stop is requested. *)
Definition worker_send (s : Session) : Session :=
  let st := stages s in
  match script st with
  | [] => s
  | m :: rest =>
      let sent := mkStages (wire st) (queue st) (posted st ++ [m]) rest in
      if batch m then
        if stop_requested s
        then set_stages (mkStages (wire st) (queue st) (posted st) rest) s
        else if outstanding_batches s <? 2
        then set_outstanding (outstanding_batches s + 1) (set_stages sent s)
        else s
      else set_stages sent s
  end.

(** [start_preview]: [acquired] and [submitted] are the answers of the admission
    counter and of the executor. *)
Definition start_preview (acquired submitted : bool) (sends : list PreviewMessage) : Session :=
  let k := mkSocket false false false false 0 in
  let fresh := mkSession (mkStages [] [] [] []) k 0 false false false in
  if acquired then
    if submitted then set_stages (mkStages [] [] [] sends) (fresh true 1)
    else start_close (fresh true 1)
  else start_close (fresh false 0).

Inductive Step :=
| WorkerSends
| WorkerCancelled            (** the parser notices the stop and returns *)
| HandlerRuns                (** the oldest posted handler *)
| WriteCompletes (error : bool)
| ReadCompletes (error : bool)
| CloseCompletes
| DeadlineExpires
| Stops.

Definition step (s : Session) (e : Step) : Session :=
  match e with
  | WorkerSends => worker_send s
  | WorkerCancelled =>
      let st := stages s in
      if stop_requested s then set_stages (mkStages (wire st) (queue st) (posted st) []) s else s
  | HandlerRuns =>
      let st := stages s in
      match posted st with
      | [] => s
      | m :: rest => on_posted m (set_stages (mkStages (wire st) (queue st) rest (script st)) s)
      end
  | WriteCompletes error => if writing (socket s) then on_write error s else s
  | ReadCompletes error => on_read error s
  | CloseCompletes => if close_started (socket s) then fail s else s
  | DeadlineExpires | Stops => fail s
  end.

(** ** What coalescing preserves *)

(** A progress message followed at once by another is superseded by it. *)
Fixpoint squash (l : list PreviewMessage) : list PreviewMessage :=
  match l with
  | m :: ((m' :: _) as rest) => if progress m && progress m' then squash rest else m :: squash rest
  | _ => l
  end.

Fixpoint calm (l : list PreviewMessage) : bool :=
  match l with
  | m :: ((m' :: _) as rest) => negb (progress m && progress m') && calm rest
  | _ => true
  end.

(** The operations an event carries, and those of a stream of messages. *)
Definition event_operations (e : Event) : list Operation :=
  match e with EvBatch operations => operations | _ => [] end.

Definition operations_of (l : list PreviewMessage) : list Operation :=
  concat ((fun m => event_operations (bytes_ m)) <$> l).

(** The flags of the three kinds of message. *)
Definition flags_ok (m : PreviewMessage) : Prop :=
  (progress m = true -> batch m = false /\ terminal m = false)
  /\ (batch m = true -> terminal m = false)
  /\ batch m || terminal m || progress m = true
  /\ (progress m = true -> event_operations (bytes_ m) = []).

Definition batches (l : list PreviewMessage) : nat := length (filter (fun m => batch m = true) l).
Definition kept (l : list PreviewMessage) : list PreviewMessage :=
  filter (fun m => progress m = false) l.
Definition terminals (l : list PreviewMessage) : nat :=
  length (filter (fun m => terminal m = true) l).

Lemma squash_cons m m' l :
  squash (m :: m' :: l) = if progress m && progress m' then squash (m' :: l) else m :: squash (m' :: l).
Proof. done. Qed.

Lemma squash_merge a q m b :
  progress q = true -> progress m = true -> squash (a ++ q :: m :: b) = squash (a ++ m :: b).
Proof.
  intros Hq Hm. induction a as [|x [|y a] IH].
  - cbn [app]. by rewrite squash_cons, Hq, Hm.
  - cbn [app] in *. by rewrite (squash_cons x q), (squash_cons x m), IH, Hq, Hm.
  - cbn [app] in *. by rewrite !(squash_cons x), IH.
Qed.

Lemma kept_squash l : kept (squash l) = kept l.
Proof.
  unfold kept. induction l as [|m [|m' l] IH]; [done..|]. rewrite squash_cons.
  destruct (progress m) eqn:Em; cbn [andb].
  - rewrite (filter_cons_False _ m) by congruence.
    destruct (progress m'); [done|]. rewrite filter_cons_False by congruence. done.
  - rewrite !(filter_cons_True _ m) by done. by rewrite IH.
Qed.

Lemma calm_length l : calm l = true -> (length l <= 2 * length (kept l) + 1)%nat.
Proof.
  unfold kept. cut (calm l = true -> (length l <= 2 * length (filter (fun m => progress m = false) l)
    + match l with m :: _ => if progress m then 1 else 0 | [] => 0 end)%nat).
  { intros H Hc. specialize (H Hc). destruct l as [|m l]; [lia|]. destruct (progress m); lia. }
  induction l as [|m [|m' l] IH]; [done| |].
  - intros _. destruct (progress m) eqn:E;
      [rewrite filter_cons_False by congruence|rewrite filter_cons_True by done]; cbn; lia.
  - cbn [calm]. intros [H1 H2]%andb_prop. specialize (IH H2).
    destruct (progress m) eqn:E; cbn in H1.
    + rewrite filter_cons_False by congruence. destruct (progress m'); [done|]. cbn [length] in *. lia.
    + rewrite filter_cons_True by done. destruct (progress m'); cbn [length] in *; lia.
Qed.

Lemma calm_tail m l : calm (m :: l) = true -> calm l = true.
Proof. destruct l; [done|]. by intros [_ H]%andb_prop. Qed.

Lemma calm_snoc l m :
  calm (l ++ [m]) = calm l && negb (progress m && match last l with Some b => progress b | None => false end).
Proof.
  induction l as [|x [|y l] IH]; [by rewrite andb_false_r| |].
  - cbn. by rewrite andb_true_r, (andb_comm (progress x)).
  - cbn [app calm] in *. rewrite IH. by rewrite andb_assoc.
Qed.

Lemma enqueue_preview_cases m q :
  (exists q0 b, q = q0 ++ [b] /\ progress m = true /\ progress b = true
     /\ enqueue m q = q0 ++ [mkPreviewMessage (bytes_ m) (batch b) (terminal b) (progress b)])
  \/ (enqueue m q = q ++ [m]
      /\ progress m && match last q with Some b => progress b | None => false end = false).
Proof.
  unfold enqueue. destruct q as [|b q0] using rev_ind; [right; by rewrite andb_false_r|].
  rewrite last_snoc. destruct (progress m && progress b) eqn:E; [left|by right].
  apply andb_prop in E as [E1 E2]. exists q0, b. split_and!; [done..|].
  rewrite length_app, Nat.add_sub. by rewrite take_app_length.
Qed.

Lemma enqueue_calm m q : calm q = true -> calm (enqueue m q) = true.
Proof.
  intros Hq. destruct (enqueue_preview_cases m q) as [(q0 & b & -> & Hm & Hb & ->)|[-> E]].
  - rewrite calm_snoc in Hq |- *. cbn. by rewrite Hb in *.
  - by rewrite calm_snoc, Hq, E.
Qed.

Lemma flags_progress m b :
  flags_ok m -> flags_ok b -> progress m = true -> progress b = true ->
  mkPreviewMessage (bytes_ m) (batch b) (terminal b) (progress b) = m.
Proof.
  intros [Hm _] [Hb _] Em Eb. destruct (Hm Em) as [H1 H2], (Hb Eb) as [H3 H4].
  destruct m; cbn in *; congruence.
Qed.

(** A message added to the queue and the same message after it read the same. *)
Lemma enqueue_squash m a q b :
  flags_ok m -> Forall flags_ok q -> squash (a ++ enqueue m q ++ b) = squash (a ++ q ++ m :: b).
Proof.
  intros Fm Fq. destruct (enqueue_preview_cases m q) as [(q0 & x & -> & Hm & Hx & ->)|[-> E]].
  - apply Forall_app in Fq as [_ Fx%Forall_inv]. rewrite (flags_progress m x) by assumption.
    rewrite <- !app_assoc. cbn [app].
    rewrite !(app_assoc a). rewrite squash_merge by done. done.
  - by rewrite <- app_assoc.
Qed.

(** ** The session's invariant *)
Section Run.
Variable sends : list PreviewMessage.

Definition in_flight (st : Stages) : list PreviewMessage :=
  wire st ++ queue st ++ posted st ++ script st.

Definition count (b : bool) : Z := if b then 1 else 0.

(** Holds in every reachable state, whatever else is running. *)
Record Core (s : Session) : Prop := {
  core_stream : closed (socket s) = false -> squash (in_flight (stages s)) = squash sends;
  core_window : closed (socket s) = false -> outstanding_batches s
    = Z.of_nat (batches (queue (stages s)) + batches (posted (stages s))) + count (active_batch s);
  core_bounds : count (active_batch s) <= outstanding_batches s <= 2;
  core_active : closed (socket s) = false -> writing (socket s) = false ->
    active_batch s = false /\ active_terminal s = false;
  core_calm : calm (queue (stages s)) = true;
  core_flags : Forall flags_ok (in_flight (stages s));
  core_stopped : stop_requested s = closed (socket s);
  core_units : units s = count (admitted s);
  core_released : releases (socket s) = count (closed (socket s))
    /\ (closed (socket s) = true -> admitted s = false);
}.

(** The queue is only left standing while a write runs or the session ends. *)
Definition Pumped (s : Session) : Prop :=
  closed (socket s) = false -> close_started (socket s) = false -> writing (socket s) = false ->
  queue (stages s) = [].

Lemma batches_app a b : batches (a ++ b) = (batches a + batches b)%nat.
Proof. unfold batches. by rewrite filter_app, length_app. Qed.

Lemma batches_cons m l : Z.of_nat (batches (m :: l)) = count (batch m) + Z.of_nat (batches l).
Proof.
  unfold batches, count. destruct (batch m) eqn:E;
    [rewrite filter_cons_True by done|rewrite filter_cons_False by congruence]; cbn; lia.
Qed.

Lemma batches_snoc l m : Z.of_nat (batches (l ++ [m])) = Z.of_nat (batches l) + count (batch m).
Proof.
  rewrite batches_app, Nat2Z.inj_add, batches_cons. change (batches []) with 0%nat. lia.
Qed.

Lemma count_bounds b : 0 <= count b <= 1.
Proof. destruct b; cbn; lia. Qed.

Lemma core_fail s : Core s -> Core (fail s).
Proof.
  intros Hs. unfold fail. destruct (closed (socket s)) eqn:Hc; [done|].
  destruct Hs as [H1 H2 H3 H4 H5 H6 H7 H8 [H9 H10]]. split; cbn -[count batches]; try done.
  - unfold in_flight in *. cbn. rewrite !Forall_app in *. naive_solver.
  - rewrite H8. by destruct (admitted s).
  - by rewrite H9, Hc.
Qed.

Lemma core_pump s : Core s -> Core (pump_preview s).
Proof.
  intros Hs. unfold pump_preview. destruct (queue (stages s)) as [|m rest] eqn:Hq; [done|].
  destruct (writing (socket s)) eqn:Hw; [done|]. destruct (closed (socket s)) eqn:Hc; [done|].
  destruct Hs as [H1 H2 H3 H4 H5 H6 H7 H8 H9]. specialize (H1 Hc). specialize (H2 Hc).
  destruct (H4 Hc Hw) as [Ha _]. rewrite Hq, Nat2Z.inj_add, batches_cons, Ha in H2. cbn [count] in H2.
  pose proof (count_bounds (batch m)). split; cbn -[count batches]; try done.
  - intros _. rewrite <- H1. unfold in_flight. by rewrite Hq, <- app_assoc.
  - intros _. lia.
  - lia.
  - rewrite Hq in H5. by apply calm_tail in H5.
  - unfold in_flight in *. cbn. by rewrite Hq, <- app_assoc in *.
Qed.

Lemma pump_pumped s : Pumped (pump_preview s).
Proof.
  unfold Pumped, pump_preview. destruct (queue (stages s)) as [|m rest] eqn:Hq; [by rewrite Hq|].
  destruct (writing (socket s)) eqn:Hw; cbn; [congruence|].
  destruct (closed (socket s)) eqn:Hc; cbn; congruence.
Qed.

Lemma start_close_pumped s : Pumped (start_close s).
Proof. by unfold Pumped. Qed.

Lemma batches_enqueue m q :
  flags_ok m -> Z.of_nat (batches (enqueue m q)) = Z.of_nat (batches q) + count (batch m).
Proof.
  intros Fm. destruct (enqueue_preview_cases m q) as [(q0 & b & -> & Em & Eb & ->)|[-> _]];
    rewrite !batches_snoc; cbn [batch]; [|done].
  rewrite (proj1 (proj1 Fm Em)). cbn [count]. lia.
Qed.

Lemma enqueue_flags m q : flags_ok m -> Forall flags_ok q -> Forall flags_ok (enqueue m q).
Proof.
  intros Fm Fq. destruct (enqueue_preview_cases m q) as [(q0 & b & -> & Em & Eb & ->)|[-> _]].
  - apply Forall_app in Fq as [Fq Fb%Forall_inv].
    rewrite (flags_progress m b) by assumption. apply Forall_app_2; [done|by constructor].
  - apply Forall_app_2; [done|by constructor].
Qed.

Lemma core_posted m s rest :
  posted (stages s) = m :: rest -> Core s -> Core (step s HandlerRuns).
Proof.
  intros Hp Hs. unfold step. cbn zeta. rewrite Hp. unfold on_posted. cbn [socket set_stages].
  destruct Hs as [H1 H2 H3 H4 H5 H6 H7 H8 H9].
  unfold in_flight in H6. rewrite Hp, !Forall_app, Forall_cons in H6.
  destruct (closed (socket s)) eqn:Hc.
  { split; cbn -[count batches]; rewrite ?Hc; try done.
    unfold in_flight. cbn. rewrite !Forall_app. naive_solver. }
  apply core_pump. specialize (H1 eq_refl). specialize (H2 eq_refl).
  destruct H6 as (Fw & Fq & [Fm Fp] & Fs).
  assert (He : squash (wire (stages s) ++ enqueue m (queue (stages s)) ++ rest ++ script (stages s))
    = squash (wire (stages s) ++ queue (stages s) ++ m :: rest ++ script (stages s)))
    by by apply enqueue_squash.
  split; cbn -[count batches]; rewrite ?Hc; try done.
  - intros _. rewrite <- H1. unfold in_flight. cbn. by rewrite Hp, He.
  - intros _. rewrite H2, Hp, !Nat2Z.inj_add, batches_cons.
    rewrite batches_enqueue by done. lia.
  - by apply enqueue_calm.
  - unfold in_flight. cbn. rewrite !Forall_app. split_and!; try done.
    by apply enqueue_flags.
Qed.

Lemma core_set_socket s k :
  closed k = closed (socket s) -> writing k = writing (socket s) ->
  releases k = releases (socket s) -> Core s -> Core (set_socket k s).
Proof.
  intros Hc Hw Hr [H1 H2 H3 H4 H5 H6 H7 H8 H9].
  split; cbn -[count batches]; rewrite ?Hc, ?Hw, ?Hr; done.
Qed.

Lemma core_start_close s : Core s -> Core (start_close s).
Proof. by apply core_set_socket. Qed.

Lemma core_write_done s : Core s -> writing (socket s) = true ->
  let s' := set_writing false s in
  Core (set_active false false
          (if active_batch s' then set_outstanding (u64_wrap (outstanding_batches s' - 1)) s' else s')).
Proof.
  intros [H1 H2 H3 H4 H5 H6 H7 H8 H9] Hw. cbn zeta. cbn [set_writing set_socket active_batch].
  destruct (active_batch s) eqn:Ha; cbn [count] in *.
  - assert (Hu : u64_wrap (outstanding_batches s - 1) = outstanding_batches s - 1)
      by (apply Z.mod_small; lia).
    split; cbn -[count batches u64_wrap]; try done.
    + intros Hc. rewrite Hu, (H2 Hc). cbn [count]. lia.
    + rewrite Hu. cbn [count]. lia.
  - split; cbn -[count batches u64_wrap]; try done.
Qed.

Lemma core_write error s : Core s -> Core (step s (WriteCompletes error)).
Proof.
  intros Hs. cbn [step]. destruct (writing (socket s)) eqn:Hw; [|done]. unfold on_write.
  destruct error.
  - destruct Hs as [H1 H2 H3 H4 H5 H6 H7 H8 [H9 H10]]. unfold fail. cbn [set_writing set_socket socket closed].
    destruct (closed (socket s)) eqn:Hc; split; cbn -[count batches]; rewrite ?Hc; try done.
    + unfold in_flight in *. cbn. rewrite !Forall_app in *. naive_solver.
    + rewrite H8. by destruct (admitted s).
    + by rewrite H9.
  - pose proof (core_write_done s Hs Hw) as Hd. cbn zeta in *.
    match goal with |- Core (if ?a then _ else if ?b then _ else _) => destruct a, b end;
      try by apply core_start_close. by apply core_pump.
Qed.

Lemma core_worker s : Core s -> Core (worker_send s).
Proof.
  intros Hs. unfold worker_send. destruct (script (stages s)) as [|m rest] eqn:Hsc; [done|].
  cbn zeta. pose proof Hs as [H1 H2 H3 H4 H5 H6 H7 H8 H9].
  unfold in_flight in H1, H6. rewrite Hsc in H1, H6.
  destruct (batch m) eqn:Hb; [destruct (stop_requested s) eqn:Hst|].
  - symmetry in H7. split; cbn -[count batches]; rewrite ?H7 in *; try done.
    unfold in_flight. cbn. rewrite !Forall_app, ?Forall_cons in *. naive_solver.
  - destruct (Z.ltb_spec (outstanding_batches s) 2); [|done].
    split; cbn -[count batches]; try done; try lia; try congruence.
    + intros Hc. rewrite <- (H1 Hc). unfold in_flight. cbn. by rewrite <- app_assoc.
    + intros Hc. rewrite (H2 Hc), !Nat2Z.inj_add, batches_snoc, Hb. cbn [count]. lia.
    + unfold in_flight. cbn. by rewrite <- app_assoc.
  - split; cbn -[count batches]; try done.
    + intros Hc. rewrite <- (H1 Hc). unfold in_flight. cbn. by rewrite <- app_assoc.
    + intros Hc. rewrite (H2 Hc), !Nat2Z.inj_add, batches_snoc, Hb. cbn [count]. lia.
    + unfold in_flight. cbn. by rewrite <- app_assoc.
Qed.

Lemma core_step s e : Core s -> Core (step s e).
Proof.
  intros Hs. destruct e as [| | |error|error| | |].
  - by apply core_worker.
  - cbn [step]. destruct (stop_requested s) eqn:Hst; [|done].
    destruct Hs as [H1 H2 H3 H4 H5 H6 H7 H8 H9]. rewrite Hst in H7. symmetry in H7.
    split; cbn -[count batches]; rewrite ?H7 in *; try done.
    unfold in_flight in *. cbn. rewrite !Forall_app in *. naive_solver.
  - destruct (posted (stages s)) as [|m rest] eqn:Hp; [by unfold step; rewrite Hp|].
    by apply (core_posted m s rest).
  - by apply core_write.
  - cbn [step]. unfold on_read. destruct error; [by apply core_fail|]. cbn zeta.
    destruct (writing (socket s)) eqn:Hw; [|apply core_start_close]; by apply core_set_socket.
  - cbn [step]. destruct (close_started (socket s)); [by apply core_fail|done].
  - by apply core_fail.
  - by apply core_fail.
Qed.

Lemma fail_closed s : closed (socket (fail s)) = true.
Proof. unfold fail. by destruct (closed (socket s)) eqn:E. Qed.

(** While a message is written the flags are those of the last one on the wire. *)
Definition Active (s : Session) : Prop :=
  closed (socket s) = false -> writing (socket s) = true ->
  exists w m, wire (stages s) = w ++ [m] /\ active_terminal s = terminal m.

Lemma pump_active s : Active s -> Active (pump_preview s).
Proof.
  intros Ha. unfold pump_preview. destruct (queue (stages s)); [done|].
  destruct (writing (socket s)) eqn:Hw; [done|].
  destruct (closed (socket s)) eqn:Hc; [done|]. unfold Active. cbn. eauto.
Qed.

Lemma step_shape s e : Pumped s -> Active s -> Pumped (step s e) /\ Active (step s e).
Proof.
  assert (Hf : forall t, Pumped (fail t) /\ Active (fail t)).
  { intros t. unfold Pumped, Active. by rewrite fail_closed. }
  intros Hp Ha. destruct e as [| | |error|error| | |]; cbn [step].
  - unfold worker_send. repeat case_match; split; (exact Hp || exact Ha).
  - case_match; split; (exact Hp || exact Ha).
  - destruct (posted (stages s)) eqn:E; [done|]. unfold on_posted. cbn [socket set_stages].
    destruct (closed (socket s)) eqn:Hc; [unfold Pumped, Active; cbn; split; congruence|].
    split; [apply pump_pumped|by apply pump_active].
  - destruct (writing (socket s)) eqn:Hw; [|done]. unfold on_write. destruct error; [done|]. cbn zeta.
    match goal with |- Pumped (if ?a then _ else if ?b then _ else _) /\ _ => destruct a, b end;
      (split; [apply start_close_pumped || apply pump_pumped|]);
      try apply pump_active; unfold Active; cbn; by destruct (active_batch s).
  - unfold on_read. destruct error; [done|]. cbn zeta. unfold Pumped, Active in *.
    destruct (writing (socket s)) eqn:Hw; cbn; [|split; intros; congruence].
    split; [congruence|intros; by apply Ha].
  - case_match; done.
  - done.
  - done.
Qed.

Record Good (s : Session) : Prop := {
  good_core : Core s;
  good_pumped : Pumped s;
  good_active : Active s;
}.

Lemma good_step s e : Good s -> Good (step s e).
Proof.
  intros [Hc Hp Ha]. destruct (step_shape s e Hp Ha). split; [by apply core_step|done..].
Qed.

Lemma good_run s ops : Good s -> Good (foldl step s ops).
Proof. revert s. induction ops as [|e ops IH]; intros s Hs; [done|]. cbn. by apply IH, good_step. Qed.

(** ** Terminal messages *)
Lemma last_squash l : last (squash l) = last l.
Proof.
  induction l as [|m [|m' l] IH]; [done..|]. rewrite squash_cons.
  destruct (progress m && progress m'); rewrite (last_cons m (m' :: l)), ?(last_cons m), IH;
    by destruct (last (m' :: l)) eqn:E; [|apply last_None in E].
Qed.

Lemma terminals_app a b : terminals (a ++ b) = (terminals a + terminals b)%nat.
Proof. unfold terminals. by rewrite filter_app, length_app. Qed.

Lemma terminals_cons m l :
  terminals (m :: l) = ((if terminal m then 1 else 0) + terminals l)%nat.
Proof.
  unfold terminals. destruct (terminal m) eqn:E;
    [rewrite filter_cons_True by done|rewrite filter_cons_False by congruence]; done.
Qed.

Lemma terminals_kept l : Forall flags_ok l -> terminals (kept l) = terminals l.
Proof.
  unfold kept. induction 1 as [|m l Hm Hl IH]; [done|]. rewrite terminals_cons, <- IH.
  destruct (progress m) eqn:E.
  - rewrite filter_cons_False by congruence. by destruct (proj1 Hm E) as [_ ->].
  - rewrite filter_cons_True by done. by rewrite terminals_cons.
Qed.

Lemma kept_bound l : Forall flags_ok l -> (length (kept l) <= batches l + terminals l)%nat.
Proof.
  unfold kept. induction 1 as [|m l Hm Hl IH]; [done|]. rewrite terminals_cons.
  apply Nat2Z.inj_le. rewrite Nat2Z.inj_add, batches_cons. destruct Hm as (_ & _ & Hm & _).
  destruct (progress m) eqn:E.
  - rewrite filter_cons_False by congruence. pose proof (count_bounds (batch m)). lia.
  - rewrite filter_cons_True by done. cbn [length]. destruct (batch m), (terminal m); cbn in *; lia || done.
Qed.

Lemma terminals_in_flight s :
  Forall flags_ok sends -> Core s -> closed (socket s) = false ->
  terminals (in_flight (stages s)) = terminals sends.
Proof.
  intros Hf Hs Hc. rewrite <- (terminals_kept _ (core_flags _ Hs)), <- kept_squash.
  rewrite (core_stream _ Hs Hc). by rewrite kept_squash, terminals_kept.
Qed.

Lemma good_queue_bound s :
  Forall flags_ok sends -> (terminals sends <= 1)%nat -> Good s -> closed (socket s) = false ->
  (length (queue (stages s)) <= 7)%nat.
Proof.
  intros Hf Ht [Hs _ _] Hc. pose proof (terminals_in_flight s Hf Hs Hc) as Hn.
  pose proof (core_window _ Hs Hc). pose proof (core_bounds _ Hs). pose proof (count_bounds (active_batch s)).
  pose proof (calm_length _ (core_calm _ Hs)).
  pose proof (core_flags _ Hs) as Hfl. unfold in_flight in Hn, Hfl.
  rewrite !terminals_app in Hn. rewrite !Forall_app in Hfl. destruct Hfl as (_ & Hq & _).
  pose proof (kept_bound _ Hq). lia.
Qed.

Lemma start_good : Forall flags_ok sends -> Good (start_preview true true sends).
Proof. intros Hf. split; [|done|done]. by split. Qed.

End Run.

Lemma refused_good acquired submitted sends :
  acquired && submitted = false -> Good [] (start_preview acquired submitted sends).
Proof.
  intros E. destruct acquired, submitted; try done; (split; [|done|done]); by split.
Qed.

(** What the worker of a session sends: at most one terminal message, at the end,
    and exactly one unless the parse was cancelled. *)
Lemma worker_shape leased calls e :
  let sends := worker leased calls e in
  Forall flags_ok sends
  /\ exists body tail, sends = body ++ tail /\ terminals body = 0%nat
     /\ (tail = [] /\ (exists x n, e = Returned true x n) \/ exists t, tail = [t] /\ terminal t = true).
Proof.
  assert (Hend : forall e', Forall flags_ok (finish e') /\
    (finish e' = [] /\ (exists x n, e' = Returned true x n) \/ exists t, finish e' = [t] /\ terminal t = true)).
  { intros [[] x n|code what line|what]; cbn; (split; [repeat constructor; done|]);
      [left; eauto|right; eauto..]. }
  cbn zeta. unfold worker. destruct leased; [|split; [by repeat constructor|]; exists []; eauto 10].
  induction calls as [|[p|ops] calls [IHf (body & tail & IHe & IHt & IHl)]]; cbn [worker_calls].
  - destruct (Hend e) as [H1 H2]. split; [done|]. exists [], (finish e). done.
  - split; [by repeat constructor|]. rewrite IHe. exists (on_progress p :: body), tail.
    by rewrite terminals_cons, IHt.
  - destruct (on_batch _ _ _ ops) as [frames ok].
    assert (Hb : Forall flags_ok (batch_message <$> frames) /\ terminals (batch_message <$> frames) = 0%nat).
    { split; [apply Forall_fmap, Forall_true; by repeat split|]. induction frames; [done|].
      cbn [fmap list_fmap]. by rewrite terminals_cons. }
    destruct Hb as [Hbf Hbt]. destruct ok.
    + split; [by apply Forall_app_2|]. exists ((batch_message <$> frames) ++ body), tail.
      by rewrite IHe, <- app_assoc, terminals_app, Hbt, IHt.
    + destruct (Hend (ThrewException "G-code operation exceeds preview frame byte limit")) as [H1 H2].
      split; [by apply Forall_app_2|]. eexists _, _. split; [done|]. split; [done|].
      destruct H2 as [[_ (x & n & H2)]|H2]; [done|by right].
Qed.

Lemma worker_terminals leased calls e : (terminals (worker leased calls e) <= 1)%nat.
Proof.
  destruct (worker_shape leased calls e) as (_ & body & tail & -> & Hb & Ht).
  rewrite terminals_app, Hb. destruct Ht as [[-> _]|(t & -> & Ht)]; [cbn; lia|].
  rewrite terminals_cons, Ht. cbn. lia.
Qed.

(** Flow control of a preview, whatever the parser does and however the
    worker, the executor, the socket, the deadline and a stop interleave: never more
    than two batches are outstanding and while the session is open the count is exact,
    the queue never holds more than seven messages (two batches, the
    end and coalesced progress between them), an open session always has a write
    or a handler under way when the window is full, so the worker is woken; the
    admission unit is held at most once and given back, with the session's place,
    exactly once. *)
Theorem preview_flow_bounded acquired submitted leased calls e ops :
  let s := foldl step (start_preview acquired submitted (worker leased calls e)) ops in
  0 <= outstanding_batches s <= 2
  /\ (closed (socket s) = false ->
      (length (queue (stages s)) <= 7)%nat
      /\ outstanding_batches s
         = Z.of_nat (batches (queue (stages s)) + batches (posted (stages s))) + count (active_batch s)
      /\ (close_started (socket s) = false -> outstanding_batches s = 2 ->
          writing (socket s) = true \/ posted (stages s) <> []))
  /\ units s = count (admitted s)
  /\ releases (socket s) = count (closed (socket s))
  /\ (closed (socket s) = true -> units s = 0 /\ stop_requested s = true).
Proof.
  intros s. assert (H : exists sends, Forall flags_ok sends /\ (terminals sends <= 1)%nat /\ Good sends s).
  { destruct (acquired && submitted) eqn:E.
    - apply andb_prop in E as [-> ->]. exists (worker leased calls e).
      pose proof (worker_shape leased calls e) as [Hf _]. split_and!; [done|apply worker_terminals|].
      by apply good_run, start_good.
    - exists []. split_and!; [done|cbn; lia|]. by apply good_run, refused_good. }
  clearbody s. destruct H as (sends & Hf & Ht & Hg). destruct (good_core _ _ Hg) as [H1 H2 H3 H4 H5 H6 H7 H8 [H9 H10]].
  pose proof (count_bounds (active_batch s)). split_and!; try done; try lia.
  - intros Hc. split_and!; [by apply (good_queue_bound sends)|by apply H2|].
    intros Hs Ho. destruct (writing (socket s)) eqn:Hw; [by left|right]. intros Hp.
    pose proof (good_pumped _ _ Hg Hc Hs Hw) as Hq. destruct (H4 Hc eq_refl) as [Ha _].
    specialize (H2 Hc). rewrite Hq, Hp, Ha in H2. cbn in H2. lia.
  - intros Hc. rewrite H8, (H10 Hc), H7, Hc. done.
Qed.

(** ** Completion *)
Definition work (s : Session) : nat :=
  let st := stages s in
  (4 * length (script st) + 3 * length (posted st) + 2 * length (queue st)
   + if writing (socket s) then 1 else 0)%nat.

(** Steps in which nothing fails, nobody closes and nothing is stopped. *)
Definition fault_free (e : Step) : bool :=
  match e with WorkerSends | HandlerRuns | WriteCompletes false => true | _ => false end.

Definition Delivered (sends : list PreviewMessage) (s : Session) : Prop :=
  squash (wire (stages s)) = squash sends /\ queue (stages s) = [] /\ posted (stages s) = []
  /\ script (stages s) = [] /\ writing (socket s) = false /\ outstanding_batches s = 0
  /\ close_started (socket s) = true.

(** A schedule of such steps can go on no further. *)
Definition settled (s : Session) : Prop := forall e, fault_free e = true -> step s e = s.

Lemma delivered_settled sends s : Delivered sends s -> settled s.
Proof.
  intros (_ & _ & Hp & Hs & Hw & _) e. destruct e as [| | |[]|[]| | |]; try done; intros _; cbn.
  - unfold worker_send. by rewrite Hs.
  - by rewrite Hp.
  - by rewrite Hw.
Qed.

Lemma pump_work s : (work (pump_preview s) <= work s)%nat.
Proof.
  unfold pump_preview, work. destruct (queue (stages s)) as [|m q] eqn:Eq; [by rewrite Eq|].
  destruct (writing (socket s)) eqn:Hw; cbn [orb]; [by rewrite Eq, ?Hw|].
  destruct (closed (socket s)); cbn; rewrite ?Hw, ?Eq; cbn [length]; lia.
Qed.

Lemma enqueue_length m q : (length (enqueue m q) <= S (length q))%nat.
Proof.
  destruct (enqueue_preview_cases m q) as [(q0 & b & -> & _ & _ & ->)|[-> _]]; rewrite !length_app; cbn; lia.
Qed.

Lemma worker_send_work s :
  worker_send s = s \/ (work (worker_send s) < work s)%nat.
Proof.
  unfold worker_send, work. destruct (script (stages s)) as [|m rest] eqn:E; [by left|]. cbn zeta.
  destruct (batch m); [destruct (stop_requested s)|]; [|case_match; [|by left]|]; right;
    cbn; rewrite ?E, ?length_app; cbn [length]; lia.
Qed.

Lemma handler_work s :
  posted (stages s) <> [] -> (work (step s HandlerRuns) < work s)%nat.
Proof.
  intros Hp. cbn [step]. destruct (posted (stages s)) as [|m rest] eqn:E; [done|]. unfold on_posted.
  cbn [socket set_stages]. destruct (closed (socket s)).
  - unfold work. cbn. rewrite E. cbn [length]. lia.
  - eapply Nat.le_lt_trans; [apply pump_work|]. unfold work. cbn. rewrite E.
    pose proof (enqueue_length m (queue (stages s))). cbn [length]. lia.
Qed.

Lemma write_work s :
  writing (socket s) = true -> (work (step s (WriteCompletes false)) < work s)%nat.
Proof.
  intros Hw. cbn [step]. rewrite Hw. unfold on_write. cbn zeta.
  match goal with |- (work (if ?a then _ else if ?b then _ else pump_preview ?u) < _)%nat =>
    assert (Hu : (work u < work s)%nat) end.
  { unfold work. rewrite Hw. cbn. destruct (active_batch s); cbn; lia. }
  match goal with |- (work (if ?a then _ else if ?b then _ else _) < _)%nat => destruct a, b end;
    try exact Hu. eapply Nat.le_lt_trans; [apply pump_work|exact Hu].
Qed.

Lemma fault_free_work s e :
  fault_free e = true -> step s e = s \/ (work (step s e) < work s)%nat.
Proof.
  destruct e as [| | |[]|[]| | |]; try done; intros _.
  - apply worker_send_work.
  - destruct (posted (stages s)) eqn:E; [left; cbn; by rewrite E|]. right. apply handler_work.
    by rewrite E.
  - destruct (writing (socket s)) eqn:E; [right; by apply write_work|left; cbn; by rewrite E].
Qed.

Section Completion.
Variable body : list PreviewMessage.
Variable t : PreviewMessage.
Hypothesis Hbody : terminals body = 0%nat.
Hypothesis Ht : terminal t = true.
Hypothesis Hflags : Forall flags_ok (body ++ [t]).

Lemma wire_last s w m :
  Core (body ++ [t]) s -> closed (socket s) = false -> wire (stages s) = w ++ [m] ->
  (terminal m = true -> queue (stages s) = [] /\ posted (stages s) = [] /\ script (stages s) = [])
  /\ (terminal m = false -> terminals (wire (stages s)) = 0%nat).
Proof.
  intros Hs Hc Hw. pose proof (terminals_in_flight _ s Hflags Hs Hc) as Hn.
  assert (Hl : last (in_flight (stages s)) = Some t).
  { by rewrite <- last_squash, (core_stream _ _ Hs Hc), last_squash, last_snoc. }
  unfold in_flight in *. rewrite Hw in *.
  remember (queue (stages s) ++ posted (stages s) ++ script (stages s)) as rest eqn:Er.
  rewrite !terminals_app, Hbody, !terminals_cons, Ht in Hn. change (terminals []) with 0%nat in Hn.
  destruct rest as [|x rest] using rev_ind.
  - rewrite app_nil_r, last_snoc in Hl. injection Hl as ->. symmetry in Er.
    apply app_nil in Er as [? [? ?]%app_nil]. by rewrite Ht.
  - rewrite app_assoc, last_snoc in Hl. injection Hl as ->.
    rewrite terminals_app, terminals_cons, Ht in Hn. change (terminals []) with 0%nat in Hn.
    split; intros Em; rewrite Em in Hn; [lia|]. rewrite terminals_app, terminals_cons, Em.
    change (terminals []) with 0%nat. lia.
Qed.

(** Before the close is started no terminal message has been written. *)
Definition Ended (s : Session) : Prop :=
  closed (socket s) = false -> closing (socket s) = false -> close_started (socket s) = false ->
  writing (socket s) = false -> terminals (wire (stages s)) = 0%nat.

Lemma ended_pump s : Ended s -> Ended (pump_preview s).
Proof.
  intros He. unfold pump_preview. destruct (queue (stages s)); [done|].
  by destruct (writing (socket s) || closed (socket s)).
Qed.

Lemma ended_step s e : Good (body ++ [t]) s -> Ended s -> Ended (step s e).
Proof.
  intros [Hs Hp Ha] He. destruct e as [| | |error|error| | |]; cbn [step].
  - unfold worker_send. by repeat case_match.
  - by case_match.
  - destruct (posted (stages s)); [done|]. unfold on_posted. cbn [socket set_stages].
    destruct (closed (socket s)) eqn:Hc; [unfold Ended; cbn; congruence|]. by apply ended_pump.
  - destruct (writing (socket s)) eqn:Hw; [|done]. unfold on_write.
    destruct error; [unfold Ended; by rewrite fail_closed|]. cbn zeta.
    destruct (closed (socket s)) eqn:Hc.
    { unfold Ended. repeat case_match; cbn in *; try congruence;
        unfold pump_preview; cbn; repeat case_match; cbn; congruence. }
    destruct (Ha Hc Hw) as (w & m & Ew & Em). destruct (wire_last s w m Hs Hc Ew) as [_ Hz].
    match goal with |- Ended (if ?a then _ else if ?b then _ else _) => destruct a, b eqn:Eb end; try done.
    apply ended_pump. unfold Ended. cbn.
    assert (active_terminal s = false) by (revert Eb; cbn; by destruct (active_batch s)).
    destruct (active_batch s); cbn; intros; apply Hz; congruence.
  - unfold on_read. destruct error; [unfold Ended; by rewrite fail_closed|]. cbn zeta.
    by destruct (writing (socket s)).
  - case_match; [unfold Ended; by rewrite fail_closed|done].
  - unfold Ended. by rewrite fail_closed.
  - unfold Ended. by rewrite fail_closed.
Qed.

Record Ready (s : Session) : Prop := {
  ready_good : Good (body ++ [t]) s;
  ready_ended : Ended s;
  ready_open : closed (socket s) = false;
  ready_quiet : closing (socket s) = false;
  ready_going : close_started (socket s) = false;
}.

(** Some such step makes progress until the close is started. *)
Lemma ready_next s :
  Ready s -> exists e, fault_free e = true /\ (work (step s e) < work s)%nat.
Proof.
  intros [[Hs Hp Ha] He Ho Hq Hg]. destruct (writing (socket s)) eqn:Hw.
  { exists (WriteCompletes false). split; [done|]. by apply write_work. }
  destruct (posted (stages s)) as [|m rest] eqn:Ep.
  2:{ exists HandlerRuns. split; [done|]. apply handler_work. by rewrite Ep. }
  exists WorkerSends. split; [done|]. cbn [step].
  pose proof (core_window _ _ Hs Ho) as Hn. rewrite (Hp Ho Hg Hw), Ep in Hn.
  destruct (core_active _ _ Hs Ho Hw) as [Hb _]. rewrite Hb in Hn.
  change (outstanding_batches s = 0) in Hn.
  destruct (worker_send_work s) as [Heq|Hlt]; [exfalso|done]. unfold worker_send in Heq.
  destruct (script (stages s)) as [|m rest] eqn:Esc.
  - pose proof (terminals_in_flight _ s Hflags Hs Ho) as Hc. unfold in_flight in Hc.
    rewrite (Hp Ho Hg Hw), Ep, Esc, !terminals_app, (He Ho Hq Hg Hw), Hbody, terminals_cons, Ht in Hc. done.
  - rewrite (core_stopped _ _ Hs), Ho, Hn in Heq. cbn in Heq.
    apply (f_equal (fun u => length (script (stages u)))) in Heq.
    destruct (batch m); cbn in Heq; rewrite Esc in Heq; cbn in Heq; lia.
Qed.

(** An open session stays open, and the close is started by the end of the stream. *)
Lemma pump_socket s :
  closed (socket (pump_preview s)) = closed (socket s)
  /\ closing (socket (pump_preview s)) = closing (socket s)
  /\ close_started (socket (pump_preview s)) = close_started (socket s).
Proof. unfold pump_preview. repeat case_match; done. Qed.

Lemma ready_written s :
  Ready s -> writing (socket s) = true ->
  let s' := step s (WriteCompletes false) in
  closed (socket s') = false /\ closing (socket s') = false
  /\ (close_started (socket s') = true -> Delivered (body ++ [t]) s').
Proof.
  intros [[Hs Hp Ha] He Ho Hq Hg] Hw. cbn zeta. cbn [step]. rewrite Hw. unfold on_write. cbn zeta.
  pose proof (core_write_done _ s Hs Hw) as Hd. cbn zeta in Hd.
  destruct (Ha Ho Hw) as (w & m & Ew & Em). destruct (wire_last s w m Hs Ho Ew) as [Hl _].
  match goal with |- context [pump_preview ?u] => set (s1 := u) in * end.
  assert (H1 : closed (socket s1) = false /\ closing (socket s1) = false
    /\ close_started (socket s1) = false /\ writing (socket s1) = false /\ stages s1 = stages s)
    by (subst s1; cbn; by destruct (active_batch s)).
  destruct H1 as (H1 & H2 & H3 & H4 & H5).
  match goal with |- context [if closing _ then _ else if ?b then _ else _] =>
    assert (Hb : b = terminal m) by (rewrite <- Em; cbn; by destruct (active_batch s)) end.
  rewrite Hb, H2. clearbody s1. destruct (terminal m).
  - cbn. split_and!; [done..|]. intros _. destruct (Hl eq_refl) as (Eq & Ep & Esc).
    destruct (core_active _ _ Hd H1 H4) as [Hb1 _].
    pose proof (core_window _ _ Hd H1) as Hn. pose proof (core_stream _ _ Hd H1) as Hst.
    rewrite H5, Eq, Ep, Hb1 in Hn. unfold in_flight in Hst. rewrite H5, Eq, Ep, Esc, app_nil_r in Hst.
    unfold Delivered. cbn. by rewrite H5, Eq, Ep, Esc.
  - destruct (pump_socket s1) as (-> & -> & ->). split_and!; [done..|]. by rewrite H3.
Qed.

Lemma ready_step s e :
  Ready s -> fault_free e = true -> Ready (step s e) \/ Delivered (body ++ [t]) (step s e).
Proof.
  intros Hr He. assert (H : closed (socket (step s e)) = false /\ closing (socket (step s e)) = false
    /\ (close_started (socket (step s e)) = true -> Delivered (body ++ [t]) (step s e))).
  { pose proof Hr as [Hg Hn Ho Hq Hc]. destruct e as [| | |[]|[]| | |]; try done.
    - cbn. unfold worker_send. repeat case_match; cbn; split_and!; first [done|intros; congruence].
    - cbn [step]. destruct (posted (stages s)); [split_and!; first [done|intros; congruence]|].
      unfold on_posted. cbn [socket set_stages]. rewrite Ho.
      match goal with |- context [pump_preview ?u] => destruct (pump_socket u) as (-> & -> & ->) end.
      cbn. split_and!; first [done|intros; congruence].
    - destruct (writing (socket s)) eqn:Hw; [by apply ready_written|].
      cbn [step]. rewrite Hw. split_and!; first [done|intros; congruence]. }
  destruct H as (H1 & H2 & H3). destruct (close_started (socket (step s e))) eqn:Hcs; [right; by apply H3|].
  left. destruct Hr as [Hg Hn Ho Hq Hc]. split; [by apply good_step|by apply ended_step|done..].
Qed.

Lemma ready_completes s :
  Ready s -> exists es, Forall (fun e => fault_free e = true) es /\ (length es <= work s)%nat
    /\ Delivered (body ++ [t]) (foldl step s es).
Proof.
  remember (work s) as n eqn:En. revert s En. induction (lt_wf n) as [n _ IH]. intros s -> Hr.
  destruct (ready_next s Hr) as (e & He & Hlt). destruct (ready_step s e Hr He) as [Hr'|Hd].
  - destruct (IH _ Hlt (step s e) eq_refl Hr') as (es & Hes & Hlen & Hdel).
    exists (e :: es). cbn [length foldl]. split_and!; [by constructor|lia|done].
  - exists [e]. cbn [length foldl]. split_and!; [by constructor|lia|done].
Qed.

Lemma ready_run s es :
  Forall (fun e => fault_free e = true) es -> Ready s \/ Delivered (body ++ [t]) s ->
  Ready (foldl step s es) \/ Delivered (body ++ [t]) (foldl step s es).
Proof.
  revert s. induction es as [|e es IH]; intros s Hes Hs; [done|]. apply Forall_cons in Hes as [He Hes].
  cbn. apply IH; [done|]. destruct Hs as [Hr|Hd]; [by apply ready_step|right].
  by rewrite (delivered_settled _ _ Hd e He).
Qed.

(** Whatever the schedule, it can only stop at the end. *)
Lemma ready_settles s es :
  Ready s -> Forall (fun e => fault_free e = true) es -> settled (foldl step s es) ->
  Delivered (body ++ [t]) (foldl step s es).
Proof.
  intros Hr Hes Hset. destruct (ready_run s es Hes (or_introl Hr)) as [Hr'|Hd]; [|done].
  destruct (ready_next _ Hr') as (e & He & Hlt). rewrite (Hset e He) in Hlt. lia.
Qed.

End Completion.

Lemma ended_run body t s ops :
  terminals body = 0%nat -> terminal t = true -> Forall flags_ok (body ++ [t]) ->
  Good (body ++ [t]) s -> Ended s -> Ended (foldl step s ops).
Proof.
  intros Hb Ht Hf. revert s. induction ops as [|e ops IH]; intros s Hg He; [done|]. cbn.
  apply IH; [by apply good_step|by apply (ended_step body t)].
Qed.

(** ** The operations of the program *)
Lemma operations_squash l : Forall flags_ok l -> operations_of (squash l) = operations_of l.
Proof.
  unfold operations_of. intros Hl. induction Hl as [|m [|m' l] Hm Hl IH]; [done..|].
  rewrite squash_cons. destruct (progress m && progress m') eqn:E.
  - apply andb_prop in E as [E _]. rewrite IH. cbn [fmap list_fmap concat].
    by rewrite (proj2 (proj2 (proj2 Hm)) E).
  - cbn [fmap list_fmap concat] in *. by rewrite IH.
Qed.

Definition parsed (calls : list ParserCall) : list Operation :=
  concat ((fun c => match c with OnBatch ops => ops | OnProgress _ => [] end) <$> calls).

(** The callback took the whole batch. *)
Definition batch_sent (c : ParserCall) : Prop :=
  match c with
  | OnBatch ops => (on_batch bytes max_preview_frame_bytes (S (length ops)) ops).2 = true
  | OnProgress _ => True
  end.

Lemma batches_fit calls :
  Forall (fun op => bytes [op] <= max_preview_frame_bytes) (parsed calls) -> Forall batch_sent calls.
Proof.
  unfold parsed. induction calls as [|[p|ops] calls IH]; intros Hf; [by constructor|..];
    cbn [fmap list_fmap concat] in Hf; apply Forall_app in Hf as [Hops Hf]; (constructor; [|by apply IH]); [done|].
  apply (batch_loop_complete bytes max_preview_frame_bytes); [lia|done].
Qed.

Lemma worker_operations calls e :
  Forall batch_sent calls -> operations_of (worker_calls calls e) = parsed calls.
Proof.
  unfold operations_of, parsed. induction calls as [|[p|ops] calls IH]; intros Hf.
  - by destruct e as [[]| |].
  - apply Forall_cons in Hf as [_ Hf]. cbn in *. by apply IH.
  - apply Forall_cons in Hf as [Hops Hf]. cbn [fmap list_fmap concat worker_calls]. cbn [batch_sent] in Hops.
    unfold on_batch in *. pose proof (batch_loop_whole bytes max_preview_frame_bytes
      (S (length ops)) [] ops ltac:(lia) Hops) as Hc.
    destruct (batch_loop _ _ _ [] ops) as [frames ok]. cbn in Hops, Hc. subst ok.
    rewrite fmap_app, concat_app, <- list_fmap_compose, IH by done. f_equal.
    rewrite <- Hc. f_equal. apply list_fmap_id.
Qed.

(** The stream then ends the way the parser did. *)
Lemma worker_calls_end calls e :
  Forall batch_sent calls -> exists body, worker_calls calls e = body ++ finish e.
Proof.
  induction calls as [|[p|ops] calls IH]; intros Hf; cbn [worker_calls]; [by exists []|..];
    apply Forall_cons in Hf as [Hops Hf]; destruct (IH Hf) as [body ->].
  - by exists (on_progress p :: body).
  - cbn [batch_sent] in Hops. destruct (on_batch _ _ _ ops) as [frames ok]. cbn in Hops. subst ok.
    exists ((batch_message <$> frames) ++ body). by rewrite app_assoc.
Qed.

(** An open session, for any run of the worker. *)
Lemma session_ready leased calls e ops :
  (forall x n, e <> Returned true x n) ->
  let sends := worker leased calls e in
  let s := foldl step (start_preview true true sends) ops in
  closed (socket s) = false -> closing (socket s) = false -> close_started (socket s) = false ->
  exists body t, sends = body ++ [t] /\ terminals body = 0%nat /\ terminal t = true
    /\ Forall flags_ok (body ++ [t]) /\ Ready body t s.
Proof.
  intros Hn sends s Ho Hq Hg.
  pose proof (worker_shape leased calls e) as (Hf & body & tail & Hsends & Hb & Ht). fold sends in Hsends, Hf.
  destruct Ht as [[_ (x & n & Hx)]|(t & -> & Ht)]; [by destruct (Hn x n)|].
  assert (Hgood : Good sends s) by by apply good_run, start_good.
  rewrite Hsends in Hf, Hgood. exists body, t. split_and!; [done..|].
  split; [done| |done..].
  apply (ended_run body t); try done. rewrite Hsends. by apply start_good.
Qed.

(** What was delivered has the operations of the program. *)
Lemma delivered_operations leased calls e ops :
  let sends := worker leased calls e in
  let s := foldl step (start_preview true true sends) ops in
  Delivered sends s -> leased = true -> Forall batch_sent calls ->
  operations_of (wire (stages s)) = parsed calls.
Proof.
  intros sends s Hd Hl Hfit. pose proof (worker_shape leased calls e) as (Hf & _). fold sends in Hf.
  assert (Hgood : Good sends s) by by apply good_run, start_good.
  pose proof (core_flags _ _ (good_core _ _ Hgood)) as Hfw.
  unfold in_flight in Hfw. apply Forall_app in Hfw as [Hfw _].
  rewrite <- (operations_squash _ Hfw), (proj1 Hd), operations_squash by done.
  unfold sends, worker. rewrite Hl. by apply worker_operations.
Qed.

Lemma session_delivers leased calls e ops :
  (forall x n, e <> Returned true x n) ->
  let sends := worker leased calls e in
  let s := foldl step (start_preview true true sends) ops in
  closed (socket s) = false -> closing (socket s) = false -> close_started (socket s) = false ->
  exists es, Forall (fun a => fault_free a = true) es /\ (length es <= work s)%nat
    /\ Delivered sends (foldl step s es)
    /\ (leased = true -> Forall batch_sent calls ->
        operations_of (wire (stages (foldl step s es))) = parsed calls).
Proof.
  intros Hn sends s Ho Hq Hg.
  destruct (session_ready leased calls e ops Hn Ho Hq Hg) as (body & t & Hs & Hb & Ht & Hf & Hr).
  destruct (ready_completes body t Hb Ht Hf s Hr) as (es & Hes & Hlen & Hd).
  fold sends in Hs. rewrite <- Hs in Hd. exists es. split_and!; [done..|].
  intros Hl Hfit. pose proof (delivered_operations leased calls e (ops ++ es)) as H. cbn zeta in H.
  rewrite foldl_app in H. by apply H.
Qed.

(** C35: A preview completes: from every state of a session that is open and in
    which neither side has begun to close, however it was reached, every schedule of
    sends, handlers and successful writes ends, after at most [work] effective steps,
    and wherever such a schedule can go on no further the whole stream is delivered,
    progress messages superseded by the next one apart, the terminal event last, and the
    normal close is started; if every operation fits a frame the browser then has exactly
    the operations of the program, in order.  Such an end is reached. *)
Theorem preview_completes leased calls e ops :
  (forall x n, e <> Returned true x n) ->
  let sends := worker leased calls e in
  let s := foldl step (start_preview true true sends) ops in
  closed (socket s) = false -> closing (socket s) = false -> close_started (socket s) = false ->
  (forall s' a, fault_free a = true -> step s' a = s' \/ (work (step s' a) < work s')%nat)
  /\ (forall es, Forall (fun a => fault_free a = true) es -> settled (foldl step s es) ->
      Delivered sends (foldl step s es)
      /\ (leased = true -> Forall (fun op => bytes [op] <= max_preview_frame_bytes) (parsed calls) ->
          operations_of (wire (stages (foldl step s es))) = parsed calls))
  /\ exists es, Forall (fun a => fault_free a = true) es /\ (length es <= work s)%nat
     /\ settled (foldl step s es).
Proof.
  intros Hn sends s Ho Hq Hg. split; [intros s' a; apply fault_free_work|].
  destruct (session_ready leased calls e ops Hn Ho Hq Hg) as (body & t & Hs & Hb & Ht & Hf & Hr).
  fold sends in Hs. split.
  - intros es Hes Hset. pose proof (ready_settles body t Hb Ht Hf s es Hr Hes Hset) as Hd.
    rewrite <- Hs in Hd. split; [done|]. intros Hl Hfit.
    pose proof (delivered_operations leased calls e (ops ++ es)) as H. cbn zeta in H.
    rewrite foldl_app in H. apply H; [done..|]. by apply batches_fit.
  - destruct (ready_completes body t Hb Ht Hf s Hr) as (es & Hes & Hlen & Hd).
    exists es. split_and!; [done..|]. by eapply delivered_settled.
Qed.

End Stream.

(** A program of three operations, two of which fill a frame. *)
Definition sample_bytes (l : list Z) : Z := 2097152 * Z.of_nat (length l).

Definition sample_calls : list (@ParserCall Z) :=
  [OnProgress (mkParseProgress 10 100 (f64_of_Z 10) 0); OnBatch [1; 2; 3];
   OnProgress (mkParseProgress 100 100 (f64_of_Z 100) 3)].

Definition sample_session : Session :=
  foldl step (start_preview true true (worker sample_bytes true sample_calls (Returned false tt 3)))
    [WorkerSends; WorkerSends; HandlerRuns].

Lemma preview_completes_witness :
  work sample_session = 16%nat
  /\ exists es, Forall (fun a => fault_free a = true) es /\ (length es <= 16)%nat
     /\ operations_of (wire (stages (foldl step sample_session es))) = [1; 2; 3].
Proof.
  split; [vm_compute; reflexivity|].
  destruct (preview_completes sample_bytes true sample_calls (Returned false tt 3)
    [WorkerSends; WorkerSends; HandlerRuns]) as (_ & Hall & es & H1 & H2 & H3);
    [discriminate|vm_compute; reflexivity..|].
  destruct (Hall es H1 H3) as [_ Hops].
  exists es. split; [exact H1|]. split; [exact H2|]. apply Hops; [reflexivity|].
  repeat constructor; discriminate.
Defined.

Example preview_percent_sample : encode_percent (f64_of_Z 250) = Some 100.
Proof. vm_compute. reflexivity. Qed.

End Preview.

(** * Accepting connections *)
Module Acceptor.

Definition kMaxSessions : Z := 16.

(** A session of the server's list: its [closed_] flag, and whether the last
    reference to it is gone. *)
Inductive Status := Open | Closed | Expired.

#[export] Instance Status_eq_dec : EqDecision Status.
Proof. solve_decision. Defined.

(** The accept operation: not started, started, or completed with its handler
    queued. *)
Inductive Accept := Idle | Waiting | Completed (error : bool).

Record Server := mkServer {
  accepting : Accept;
  sessions : list Status;
  active_sessions : Z;
  stopped : bool;
  stop_posted : bool;       (** the function that [stop] posts is queued *)
}.

Definition opens (l : list Status) : nat := length (filter (eq Open) l).

(** The handler of [async_accept]. *)
Definition on_accept (error : bool) (w : Server) : Server :=
  let next := if stopped w then Idle else Waiting in
  if error then mkServer next (sessions w) (active_sessions w) (stopped w) (stop_posted w)
  else
    let live := filter (fun s => s <> Expired) (sessions w) in
    if kMaxSessions <=? active_sessions w
    then mkServer next live (u64_wrap (u64_wrap (active_sessions w + 1) - 1)) (stopped w) (stop_posted w)
    else mkServer next (live ++ [Open]) (u64_wrap (active_sessions w + 1)) (stopped w) (stop_posted w).

(** [Session::fail] of the session at [i], with its [release_]. *)
Definition fail_at (i : nat) (w : Server) : Server :=
  match sessions w !! i with
  | Some Open => mkServer (accepting w) (<[i := Closed]> (sessions w))
                   (u64_wrap (active_sessions w - 1)) (stopped w) (stop_posted w)
  | _ => w
  end.

(** What [stop] posts: the acceptor is closed, which aborts a started accept,
    and every session is stopped. *)
Definition run_stop (w : Server) : Server :=
  let w := foldl (fun w i => fail_at i w) w (seq 0 (length (sessions w))) in
  mkServer (match accepting w with Waiting => Completed true | a => a end)
    [] (active_sessions w) (stopped w) false.

Definition init : Server := mkServer Waiting [] 0 false false.

Inductive Event :=
| Arrives (error : bool)    (** the accept completes *)
| Handler                   (** its handler runs *)
| Fails (i : nat)           (** a session ends *)
| Expires (i : nat)         (** an ended session is destroyed *)
| StopCalled
| StopRuns.

Definition step (w : Server) (e : Event) : Server :=
  match e with
  | Arrives error =>
      match accepting w with
      | Waiting => mkServer (Completed error) (sessions w) (active_sessions w) (stopped w) (stop_posted w)
      | _ => w
      end
  | Handler => match accepting w with Completed error => on_accept error w | _ => w end
  | Fails i => fail_at i w
  | Expires i =>
      match sessions w !! i with
      | Some Closed => mkServer (accepting w) (<[i := Expired]> (sessions w))
                         (active_sessions w) (stopped w) (stop_posted w)
      | _ => w
      end
  | StopCalled =>
      if stopped w then w
      else mkServer (accepting w) (sessions w) (active_sessions w) true true
  | StopRuns => if stop_posted w then run_stop w else w
  end.

(** The count is the number of open sessions. *)
Record Inv (w : Server) : Prop := {
  inv_count : active_sessions w = Z.of_nat (opens (sessions w));
  inv_limit : active_sessions w <= kMaxSessions;
  inv_posted : stop_posted w = true -> stopped w = true;
}.

Lemma opens_app a b : opens (a ++ b) = (opens a + opens b)%nat.
Proof. unfold opens. by rewrite filter_app, length_app. Qed.

Lemma opens_live l : opens (filter (fun s => s <> Expired) l) = opens l.
Proof.
  unfold opens. rewrite list_filter_filter. f_equal. apply list_filter_iff. intros []; naive_solver.
Qed.

Lemma opens_insert l i x y :
  l !! i = Some x -> (opens (<[i := y]> l) + opens [x] = opens l + opens [y])%nat.
Proof.
  intros Hi. rewrite <- (take_drop_middle l i x Hi) at 2. rewrite insert_take_drop by by eapply lookup_lt_Some.
  change (y :: drop (S i) l) with ([y] ++ drop (S i) l). change (x :: drop (S i) l) with ([x] ++ drop (S i) l).
  rewrite !opens_app. lia.
Qed.

Lemma acceptor_inv_fail i w : Inv w -> Inv (fail_at i w).
Proof.
  intros [Hc Hl Hp]. unfold fail_at. destruct (sessions w !! i) as [[]|] eqn:Hi; try done.
  pose proof (opens_insert _ i Open Closed Hi) as Ho. change (opens [Open]) with 1%nat in Ho.
  change (opens [Closed]) with 0%nat in Ho. unfold kMaxSessions in *.
  assert (Hu : u64_wrap (active_sessions w - 1) = active_sessions w - 1) by (apply Z.mod_small; lia).
  split; cbn -[u64_wrap opens]; rewrite ?Hu; [lia|unfold kMaxSessions; lia|done].
Qed.

Lemma acceptor_inv_accept error w : Inv w -> Inv (on_accept error w).
Proof.
  intros [Hc Hl Hp]. unfold on_accept. destruct error; [by split|]. unfold kMaxSessions in *.
  assert (Hu : u64_wrap (active_sessions w + 1) = active_sessions w + 1) by (apply Z.mod_small; lia).
  assert (Hv : u64_wrap (active_sessions w + 1 - 1) = active_sessions w) by (rewrite Z.add_simpl_r; apply Z.mod_small; lia).
  rewrite Hu, ?Hv. destruct (Z.leb_spec 16 (active_sessions w)); split; cbn -[opens];
    unfold kMaxSessions; rewrite ?opens_app, ?opens_live; try done; try lia.
  change (opens [Open]) with 1%nat. lia.
Qed.

(** Stopping the sessions of the list one by one closes them all. *)
Lemma fail_all_run w n :
  Inv w -> (n <= length (sessions w))%nat ->
  let w' := foldl (fun w i => fail_at i w) w (seq 0 n) in
  Inv w' /\ length (sessions w') = length (sessions w) /\ opens (take n (sessions w')) = 0%nat
  /\ accepting w' = accepting w /\ stopped w' = stopped w /\ stop_posted w' = stop_posted w.
Proof.
  intros Hi. induction n as [|n IH]; intros Hn; [by cbn|].
  rewrite seq_S, foldl_app. cbn [foldl]. cbn zeta in IH. destruct IH as (H1 & H2 & H3 & H4 & H5 & H6); [lia|].
  set (v := foldl _ w (seq 0 n)) in *. clearbody v. cbn zeta. rewrite Nat.add_0_l.
  split; [by apply acceptor_inv_fail|]. unfold fail_at.
  destruct (lookup_lt_is_Some_2 (sessions v) n) as [x Hx]; [lia|]. rewrite Hx.
  assert (Ho : forall y, y <> Open -> opens (take (S n) (<[n := y]> (sessions v))) = 0%nat).
  { intros y Hy. assert (Hl : <[n := y]> (sessions v) !! n = Some y) by (apply list_lookup_insert_eq; lia).
    rewrite (take_S_r _ _ _ Hl), opens_app, take_insert_ge, H3 by lia. by destruct y. }
  destruct x; cbn [sessions accepting stopped stop_posted]; rewrite ?length_insert; split_and!; try done.
  - by apply Ho.
  - rewrite <- (list_insert_id _ _ _ Hx). by apply Ho.
  - rewrite <- (list_insert_id _ _ _ Hx). by apply Ho.
Qed.

Lemma acceptor_inv_run_stop w : Inv w -> Inv (run_stop w) /\ active_sessions (run_stop w) = 0.
Proof.
  intros Hi. pose proof (fail_all_run w (length (sessions w)) Hi (Nat.le_refl _)) as H. unfold run_stop.
  set (v := foldl _ w _) in *. clearbody v. cbn zeta in H. destruct H as ([Hc Hl Hp] & Hlen & Ho & _).
  rewrite <- Hlen, firstn_all in Ho. rewrite Ho in Hc. cbn in *.
  split; [split; cbn; done|done].
Qed.

Lemma acceptor_inv_step w e : Inv w -> Inv (step w e).
Proof.
  intros Hi. destruct e as [error| |i|i| |]; cbn [step].
  - destruct Hi. case_match; by split.
  - case_match; [done..|]. by apply acceptor_inv_accept.
  - by apply acceptor_inv_fail.
  - destruct (sessions w !! i) as [[]|] eqn:Hx; try done. destruct Hi as [Hc Hl Hp].
    pose proof (opens_insert _ i Closed Expired Hx) as Ho. split; cbn -[opens]; [|done..].
    change (opens [Closed]) with 0%nat in Ho. change (opens [Expired]) with 0%nat in Ho. lia.
  - destruct Hi. case_match; by split.
  - case_match; [|done]. by apply acceptor_inv_run_stop.
Qed.

Lemma acceptor_inv_events w ops : Inv w -> Inv (foldl step w ops).
Proof. revert w. induction ops as [|e ops IH]; intros w Hw; [done|]. cbn. by apply IH, acceptor_inv_step. Qed.

Lemma init_inv : Inv init.
Proof. by split. Qed.

(** The number of sessions is bounded: after any sequence of connections, accept
    errors, ends of sessions and stops the counter is the number of open
    sessions and at most sixteen; a connection is admitted exactly when there are
    fewer, and a refused one changes no session. *)
Theorem acceptor_bounded ops :
  let w := foldl step init ops in
  active_sessions w = Z.of_nat (opens (sessions w))
  /\ 0 <= active_sessions w <= kMaxSessions
  /\ (forall error, accepting w = Completed error ->
      opens (sessions (step w Handler))
      = (opens (sessions w) + if negb error && (active_sessions w <? kMaxSessions)%Z then 1 else 0)%nat).
Proof.
  intros w. pose proof (acceptor_inv_events init ops init_inv) as Hi. fold w in Hi. clearbody w.
  destruct Hi as [Hc Hl Hp]. split_and!; [done|lia|done|]. intros error Ha. cbn [step]. rewrite Ha.
  unfold on_accept. destruct error; [cbn [sessions negb andb]; lia|]. cbn [negb andb]. rewrite Z.ltb_antisym.
  destruct (kMaxSessions <=? active_sessions w); cbn [negb sessions]; rewrite ?opens_app, opens_live; [lia|done].
Qed.

(** Nothing is open and nothing will be accepted. *)
Definition quiet (w : Server) : Prop :=
  stopped w = true /\ active_sessions w = 0
  /\ (accepting w = Idle \/ accepting w = Completed true).

Lemma quiet_step w e : Inv w -> quiet w -> quiet (step w e).
Proof.
  intros Hi (Hs & Ha & Hacc). pose proof (inv_count _ Hi) as Hc. rewrite Ha in Hc.
  assert (Hnone : forall i, sessions w !! i <> Some Open).
  { intros i Hx. pose proof (opens_insert _ i Open Closed Hx) as Ho.
    change (opens [Open]) with 1%nat in Ho. change (opens [Closed]) with 0%nat in Ho. lia. }
  destruct e as [error| |i|i| |]; cbn [step].
  - by destruct Hacc as [E|E]; rewrite E; unfold quiet; auto.
  - destruct Hacc as [E|E]; rewrite E; [by unfold quiet; auto|]. unfold on_accept, quiet. cbn.
    rewrite Hs. auto.
  - unfold fail_at. destruct (sessions w !! i) as [[]|] eqn:Hx; [by destruct (Hnone i)|done..].
  - destruct (sessions w !! i) as [[]|]; done.
  - by rewrite Hs.
  - case_match; [|done]. destruct (acceptor_inv_run_stop w Hi) as [_ H0].
    pose proof (fail_all_run w _ Hi (Nat.le_refl _)) as (_ & _ & _ & H1 & H2 & _).
    unfold quiet. rewrite H0. unfold run_stop. cbn. rewrite H1, H2. split_and!; [done..|].
    destruct Hacc as [->| ->]; auto.
Qed.

(** Stopping ends the server unless a connection was just accepted: if no
    accepted connection is waiting for its handler when the function posted by
    [stop] runs, then every session is closed and none is opened by anything that
    happens later, so the event loop runs out of work and [stop] can join it; but the
    accept handler does not look at [stopped_], and a connection accepted just before
    opens a session that nothing stops. *)
Theorem acceptor_stop ops later :
  (let w := foldl step init ops in
   stop_posted w = true -> accepting w <> Completed false ->
   quiet (foldl step (step w StopRuns) later))
  /\ (let w := foldl step init [Arrives false; StopCalled; StopRuns; Handler] in
      stopped w = true /\ stop_posted w = false /\ sessions w = [Open] /\ active_sessions w = 1
      /\ forall e, match e with Fails _ => True | _ => sessions (step w e) = [Open] end).
Proof.
  split.
  - intros w Hp Ha. pose proof (acceptor_inv_events init ops init_inv) as Hi. fold w in Hi. clearbody w.
    pose proof (acceptor_inv_step w StopRuns Hi) as Hi1.
    assert (Hq : quiet (step w StopRuns)).
    { cbn [step]. rewrite Hp. destruct (acceptor_inv_run_stop w Hi) as [_ H0].
      pose proof (fail_all_run w _ Hi (Nat.le_refl _)) as (_ & _ & _ & H1 & H2 & _).
      unfold quiet. rewrite H0. unfold run_stop. cbn. rewrite H1, H2, (inv_posted _ Hi Hp).
      split_and!; [done..|]. destruct (accepting w) as [| |[]]; auto. done. }
    revert Hi1 Hq. generalize (step w StopRuns). clear. induction later as [|e later IH]; intros w Hi Hq; [done|].
    cbn. apply IH; [by apply acceptor_inv_step|by apply quiet_step].
  - split_and!; try (vm_compute; reflexivity).
    intros [error| |i|[|i]| |]; vm_compute; done.
Qed.

End Acceptor.
