(* ===== verification/GCode.v ===== *)
(** The G-code preview: [Canon] translates the interpreter's recorded canonical
    calls into preview operations ([gcode/canon_preview.cc]), [Parser] drives the
    interpreter and hands out batches ([gcode/parser.cc]) and [Mapping] is the
    protobuf form of an operation ([protobuf_gcode_mapping.cc]).  The
    interpreter and its recording are LinuxCNC code: what they answer is an argument. *)
From Stdlib Require Import SpecFloat.
From S2P Require Import Prelude Float64 WebSocket.

Local Open Scope Z_scope.

(** * Translation of canonical calls *)
Module Canon.

Inductive Plane := XY | YZ | XZ | UV | VW | UW.
Inductive Units := INCHES | MM | CM.
Inductive CutterCompensationMode := OFF | LEFT | RIGHT.

#[export] Instance Plane_eq_dec : EqDecision Plane.
Proof. solve_decision. Defined.
#[export] Instance Units_eq_dec : EqDecision Units.
Proof. solve_decision. Defined.

Record Position := mkPosition {
  px : f64; py : f64; pz : f64; pa : f64; pb : f64; pc : f64; pu : f64; pv : f64; pw : f64;
}.

Record Position3 := mkPosition3 { p3x : f64; p3y : f64; p3z : f64 }.

Record Extents := mkExtents { emin : Position3; emax : Position3 }.

Record ArcData := mkArcData {
  centerFirst : f64; centerSecond : f64; rotation : Z; axisEndPoint : f64;
}.

Record NurbsG5ControlPoint := mkG5Point { g5x : f64; g5y : f64; weight : f64 }.
Record NurbsG6ControlPoint := mkG6Point { g6x : f64; g6y : f64; g6r : f64; g6k : f64 }.

Inductive Operation :=
| TraverseOp (lineNumber : Z) (pos : Position)
| FeedOp (lineNumber : Z) (pos : Position)
| ArcOp (lineNumber : Z) (pos : Position) (plane : Plane) (arcData : ArcData)
| ProbeOp (lineNumber : Z) (pos : Position)
| RigidTapOp (lineNumber : Z) (pos : Position3) (scale : f64)
| DwellOp (pos : Position) (duration : f64) (plane : Plane)
| NurbsG5Op (lineNumber : Z) (pos : Position) (plane : Plane) (order : Z)
    (controlPoints : list NurbsG5ControlPoint)
| NurbsG6Op (lineNumber : Z) (pos : Position) (plane : Plane) (order : Z)
    (interpolationMethod : Z) (controlPoints : list NurbsG6ControlPoint)
| UnitsChangeOp (units : Units)
| PlaneChangeOp (plane : Plane)
| G5xOffsetOp (origin : Z) (offset : Position)
| G92OffsetOp (offset : Position)
| XYRotationOp (degrees : f64)
| ToolOffsetOp (offset : Position)
| ToolChangeOp (toolNumber : Z)
| FeedRateChangeOp (feedRate : f64)
| CutterCompensationChangeOp (mode : CutterCompensationMode).

(** ** The recorded calls

    Enumerations of LinuxCNC, with a value for numbers outside them. *)
Inductive CANON_PLANE := CANON_XY | CANON_YZ | CANON_XZ | CANON_UV | CANON_VW | CANON_UW | CANON_PLANE_OTHER.
Inductive CANON_UNITS := CANON_UNITS_INCHES | CANON_UNITS_MM | CANON_UNITS_CM | CANON_UNITS_OTHER.
Inductive CANON_SIDE := CANON_SIDE_RIGHT | CANON_SIDE_LEFT | CANON_SIDE_OFF | CANON_SIDE_OTHER.

Record EmcPose := mkPose {
  tran_x : f64; tran_y : f64; tran_z : f64; pose_a : f64; pose_b : f64; pose_c : f64;
  pose_u : f64; pose_v : f64; pose_w : f64;
}.

Record ArcFeed := mkArcFeed {
  arc_line : Z; first_end : f64; second_end : f64; first_axis : f64; second_axis : f64;
  arc_rotation : Z; axis_end_point : f64;
  arc_a : f64; arc_b : f64; arc_c : f64; arc_u : f64; arc_v : f64; arc_w : f64;
  arc_plane : CANON_PLANE;
}.

Inductive Event :=
| StraightTraverse (line_number : Z) (end_ : EmcPose)
| StraightFeed (line_number : Z) (end_ : EmcPose)
| ArcFeedEvent (arc : ArcFeed)
| StraightProbe (line_number : Z) (end_ : EmcPose)
| RigidTap (line_number : Z) (x y z scale : f64)
| Dwell (seconds : f64)
| NurbsG5Feed (line_number : Z) (control_points : list NurbsG5ControlPoint) (order : Z)
    (plane : CANON_PLANE)
| NurbsG6Feed (line_number : Z) (control_points : list NurbsG6ControlPoint) (order : Z)
    (l_option : Z) (plane : CANON_PLANE)
| LengthUnits (units : CANON_UNITS)
| PlaneEvent (plane : CANON_PLANE)
| G5xOffset (index : Z) (offset : EmcPose)
| G92Offset (offset : EmcPose)
| XyRotation (degrees : f64)
| FeedRate (rate : f64)
| CutterCompensation (side : CANON_SIDE)
| ToolOffset (offset : EmcPose)
| ToolChange (tool_number : Z).

(** ** The context *)

(** Exceptions, by the class that the handlers distinguish. *)
Inductive Exn :=
| DomainError (what : string)
| ParseError (code : Preview.ParseErrorCode) (what : string) (line : option Z)
| OtherException (what : string).

(** [token]: what the next checks of the stop token will answer; a request is
    never withdrawn, and without more answers none comes. *)
Record ParseContext := mkContext {
  operations : list Operation;
  extents : Extents;
  currentPosition : Position;
  currentPlane : Plane;
  currentUnits : Units;
  currentFeedRate : f64;
  selectedTool : Z;
  linearUnitScale : f64;
  lastFeedRate : f64;
  operationCount : Z;
  token : list bool;
}.

Definition stop_requested (t : list bool) : bool := match t with b :: _ => b | [] => false end.
(** One check of the token has been made. *)
Definition checked (t : list bool) : list bool :=
  match t with true :: _ => t | _ :: t => t | [] => [] end.

Definition f64_minus_one : f64 := f64_of_Z (-1).
(** [25.4], [1e99] and [-1e99], rounded to the nearest double. *)
Definition inch : f64 := f64_of_bits 4627842682090579558.
Definition f1e99 : f64 := f64_of_bits 6088095589093318446.

Example inch_value : f64_mul inch (f64_of_Z 5) = f64_of_Z 127.
Proof. vm_compute. reflexivity. Qed.

Definition no_extents : Extents :=
  let lo := f1e99 in let hi := SFopp f1e99 in
  mkExtents (mkPosition3 lo lo lo) (mkPosition3 hi hi hi).

Definition origin : Position :=
  mkPosition f64_zero f64_zero f64_zero f64_zero f64_zero f64_zero f64_zero f64_zero f64_zero.

Definition fresh (t : list bool) : ParseContext :=
  mkContext [] no_extents origin XY MM f64_zero 0 inch f64_minus_one 0 t.

Definition set_extents (e : Extents) (c : ParseContext) : ParseContext :=
  mkContext (operations c) e (currentPosition c) (currentPlane c) (currentUnits c)
    (currentFeedRate c) (selectedTool c) (linearUnitScale c) (lastFeedRate c)
    (operationCount c) (token c).
Definition set_position (p : Position) (c : ParseContext) : ParseContext :=
  mkContext (operations c) (extents c) p (currentPlane c) (currentUnits c)
    (currentFeedRate c) (selectedTool c) (linearUnitScale c) (lastFeedRate c)
    (operationCount c) (token c).
Definition set_plane (p : Plane) (c : ParseContext) : ParseContext :=
  mkContext (operations c) (extents c) (currentPosition c) p (currentUnits c)
    (currentFeedRate c) (selectedTool c) (linearUnitScale c) (lastFeedRate c)
    (operationCount c) (token c).
Definition set_units (u : Units) (scale : f64) (c : ParseContext) : ParseContext :=
  mkContext (operations c) (extents c) (currentPosition c) (currentPlane c) u
    (currentFeedRate c) (selectedTool c) scale (lastFeedRate c)
    (operationCount c) (token c).
Definition set_feed (current last : f64) (c : ParseContext) : ParseContext :=
  mkContext (operations c) (extents c) (currentPosition c) (currentPlane c) (currentUnits c)
    current (selectedTool c) (linearUnitScale c) last (operationCount c) (token c).
Definition set_tool (t : Z) (c : ParseContext) : ParseContext :=
  mkContext (operations c) (extents c) (currentPosition c) (currentPlane c) (currentUnits c)
    (currentFeedRate c) t (linearUnitScale c) (lastFeedRate c) (operationCount c) (token c).
Definition set_output (ops : list Operation) (count : Z) (t : list bool) (c : ParseContext) :
    ParseContext :=
  mkContext ops (extents c) (currentPosition c) (currentPlane c) (currentUnits c)
    (currentFeedRate c) (selectedTool c) (linearUnitScale c) (lastFeedRate c) count t.

(** ** Extents *)
Definition update3 (x y z : f64) (e : Extents) : Extents :=
  let lower v m := if f64_lt v m then v else m in
  let upper v m := if f64_gt v m then v else m in
  mkExtents
    (mkPosition3 (lower x (p3x (emin e))) (lower y (p3y (emin e))) (lower z (p3z (emin e))))
    (mkPosition3 (upper x (p3x (emax e))) (upper y (p3y (emax e))) (upper z (p3z (emax e)))).

Definition isValid (e : Extents) : bool :=
  f64_le (p3x (emin e)) (p3x (emax e)) && f64_le (p3y (emin e)) (p3y (emax e))
  && f64_le (p3z (emin e)) (p3z (emax e)).

Definition finite_position (p : Position) : bool :=
  f64_isfinite (px p) && f64_isfinite (py p) && f64_isfinite (pz p)
  && f64_isfinite (pa p) && f64_isfinite (pb p) && f64_isfinite (pc p)
  && f64_isfinite (pu p) && f64_isfinite (pv p) && f64_isfinite (pw p).

Definition bad_value : Exn := DomainError "non-finite canonical preview value".
Definition bad_position : Exn := DomainError "non-finite canonical preview position".

Definition updateExtents (p : Position) (c : ParseContext) : outcome Exn ParseContext :=
  if finite_position p then Ok (set_extents (update3 (px p) (py p) (pz p) (extents c)) c)
  else Err bad_position.

Definition preview_plane (p : CANON_PLANE) : Plane :=
  match p with
  | CANON_XY => XY | CANON_YZ => YZ | CANON_XZ => XZ
  | CANON_UV => UV | CANON_VW => VW | CANON_UW => UW
  | CANON_PLANE_OTHER => XY
  end.

Definition preview_cutter_compensation (s : CANON_SIDE) : CutterCompensationMode :=
  match s with
  | CANON_SIDE_LEFT => LEFT | CANON_SIDE_RIGHT => RIGHT | CANON_SIDE_OFF => OFF
  | CANON_SIDE_OTHER => OFF
  end.

Definition linear_value (c : ParseContext) (v : f64) : f64 := f64_mul v (linearUnitScale c).

Definition preview_position (c : ParseContext) (p : EmcPose) : Position :=
  mkPosition (linear_value c (tran_x p)) (linear_value c (tran_y p)) (linear_value c (tran_z p))
    (pose_a p) (pose_b p) (pose_c p)
    (linear_value c (pose_u p)) (linear_value c (pose_v p)) (linear_value c (pose_w p)).

Definition set_plane_end (plane : Plane) (first second : f64) (p : Position) : Position :=
  match plane with
  | XY => mkPosition first second (pz p) (pa p) (pb p) (pc p) (pu p) (pv p) (pw p)
  | YZ => mkPosition (px p) first second (pa p) (pb p) (pc p) (pu p) (pv p) (pw p)
  | XZ => mkPosition second (py p) first (pa p) (pb p) (pc p) (pu p) (pv p) (pw p)
  | UV => mkPosition (px p) (py p) (pz p) (pa p) (pb p) (pc p) first second (pw p)
  | VW => mkPosition (px p) (py p) (pz p) (pa p) (pb p) (pc p) (pu p) first second
  | UW => mkPosition (px p) (py p) (pz p) (pa p) (pb p) (pc p) first (pv p) second
  end.

Definition update_control_point_extents (plane : Plane) (first second : f64) (c : ParseContext) :
    outcome Exn ParseContext :=
  updateExtents (set_plane_end plane first second (currentPosition c)) c.

(** ** Operations *)
Definition op_values (op : Operation) : list f64 :=
  match op with
  | ArcOp _ _ _ d => [centerFirst d; centerSecond d; axisEndPoint d]
  | RigidTapOp _ p scale => [p3x p; p3y p; p3z p; scale]
  | DwellOp _ duration _ => [duration]
  | NurbsG5Op _ _ _ _ pts => concat ((fun p => [g5x p; g5y p; weight p]) <$> pts)
  | NurbsG6Op _ _ _ _ _ pts => concat ((fun p => [g6x p; g6y p; g6r p; g6k p]) <$> pts)
  | XYRotationOp r => [r]
  | FeedRateChangeOp r => [r]
  | _ => []
  end.

Definition op_position (op : Operation) : option Position :=
  match op with
  | TraverseOp _ p | FeedOp _ p | ArcOp _ p _ _ | ProbeOp _ p | DwellOp p _ _
  | NurbsG5Op _ p _ _ _ | NurbsG6Op _ p _ _ _ _ => Some p
  | G5xOffsetOp _ p | G92OffsetOp p | ToolOffsetOp p => Some p
  | _ => None
  end.

(** The checks of [addOperation], in its order: the position, then the values. *)
Definition check_operation (op : Operation) : outcome Exn unit :=
  _ ← require (from_option finite_position true (op_position op)) bad_position;
  require (forallb f64_isfinite (op_values op)) bad_value.

Definition addOperation (op : Operation) (c : ParseContext) : outcome Exn ParseContext :=
  if stop_requested (token c) then Ok c
  else
    _ ← check_operation op;
    Ok (set_output (operations c ++ [op]) (u64_wrap (operationCount c + 1)) (checked (token c)) c).

(** The functions of [<cmath>] whose results the standard leaves to the
    implementation. *)
Class LibM := {
  fmod : f64 -> f64 -> f64;
  hypot : f64 -> f64 -> f64;
  atan2 : f64 -> f64 -> f64;
  cos : f64 -> f64;
  sin : f64 -> f64;
}.

Definition pi : f64 := f64_of_bits 4614256656552045848.
Definition two_pi : f64 := f64_mul (f64_of_Z 2) pi.
Definition arc_epsilon : f64 := f64_of_bits 4427486594234968593.

Section Consume.
Context {M : LibM}.

Definition positive_angle (angle : f64) : f64 :=
  let angle := fmod angle two_pi in
  if f64_lt angle f64_zero then f64_add angle two_pi else angle.

Definition angle_is_on_arc (angle start_angle sweep : f64) (clockwise : bool) : bool :=
  let distance := if clockwise then positive_angle (f64_sub start_angle angle)
                  else positive_angle (f64_sub angle start_angle) in
  f64_le distance (f64_add sweep arc_epsilon).

(** The coordinates of a position in a plane of linear axes. *)
Definition plane_coordinates (plane : Plane) (p : Position) : option (f64 * f64) :=
  match plane with
  | XY => Some (px p, py p) | YZ => Some (py p, pz p) | XZ => Some (pz p, px p)
  | _ => None
  end.

Definition cardinals : list f64 :=
  [f64_zero; f64_div pi (f64_of_Z 2); pi; f64_div (f64_mul (f64_of_Z 3) pi) (f64_of_Z 2)].

(** The turn at which the loop over the cardinal directions is. *)
Fixpoint update_cardinals (angles : list f64) (plane : Plane) (start : Position) (d : ArcData)
    (radius start_angle sweep : f64) (clockwise : bool) (c : ParseContext) :
    outcome Exn ParseContext :=
  match angles with
  | [] => Ok c
  | angle :: angles =>
      c ← (if angle_is_on_arc angle start_angle sweep clockwise
           then updateExtents
                  (set_plane_end plane
                     (f64_add (centerFirst d) (f64_mul radius (cos angle)))
                     (f64_add (centerSecond d) (f64_mul radius (sin angle))) start) c
           else Ok c);
      update_cardinals angles plane start d radius start_angle sweep clockwise c
  end.

Definition update_ends (start stop : Position) (c : ParseContext) : outcome Exn ParseContext :=
  c ← updateExtents start c; updateExtents stop c.

Definition arc_sweep (d : ArcData) (start_angle end_angle : f64) : f64 :=
  let sweep := if rotation d <? 0 then positive_angle (f64_sub start_angle end_angle)
               else positive_angle (f64_sub end_angle start_angle) in
  let turn_count := Z.abs (rotation d) in
  if f64_eq sweep f64_zero then two_pi
  else if 1 <=? turn_count
  then f64_add sweep (f64_mul (f64_mul (f64_of_Z (turn_count - 1)) (f64_of_Z 2)) pi)
  else sweep.

Definition update_arc_extents (start stop : Position) (plane : Plane) (d : ArcData)
    (c : ParseContext) : outcome Exn ParseContext :=
  match plane_coordinates plane start, plane_coordinates plane stop with
  | Some (start_first, start_second), Some (end_first, end_second) =>
      let first_offset := f64_sub start_first (centerFirst d) in
      let second_offset := f64_sub start_second (centerSecond d) in
      let radius := hypot first_offset second_offset in
      if negb (f64_isfinite radius) || f64_le radius f64_zero then update_ends start stop c
      else
        let start_angle := atan2 second_offset first_offset in
        let end_angle := atan2 (f64_sub end_second (centerSecond d))
                               (f64_sub end_first (centerFirst d)) in
        let sweep := arc_sweep d start_angle end_angle in
        c ← update_ends start stop c;
        update_cardinals cardinals plane start d radius start_angle sweep (rotation d <? 0) c
  | _, _ => update_ends start stop c
  end.

(** Straight moves: traverse, feed and probe. *)
Definition straight (op : Position -> Operation) (end_ : EmcPose) (c : ParseContext) :
    outcome Exn ParseContext :=
  let pos := preview_position c end_ in
  c ← updateExtents (currentPosition c) c;
  c ← updateExtents pos (set_position pos c);
  addOperation (op pos) c.

Definition arc_position (a : ArcFeed) (c : ParseContext) : Position :=
  let first := linear_value c (first_end a) in
  let second := linear_value c (second_end a) in
  let axis := linear_value c (axis_end_point a) in
  let p := currentPosition c in
  let q := match preview_plane (arc_plane a) with
           | XY => mkPosition first second axis (pa p) (pb p) (pc p) (pu p) (pv p) (pw p)
           | YZ => mkPosition axis first second (pa p) (pb p) (pc p) (pu p) (pv p) (pw p)
           | XZ => mkPosition second axis first (pa p) (pb p) (pc p) (pu p) (pv p) (pw p)
           | plane => set_plane_end plane first second p
           end in
  mkPosition (px q) (py q) (pz q) (arc_a a) (arc_b a) (arc_c a)
    (linear_value c (arc_u a)) (linear_value c (arc_v a)) (linear_value c (arc_w a)).

Definition consume_arc (a : ArcFeed) (c : ParseContext) : outcome Exn ParseContext :=
  let plane := preview_plane (arc_plane a) in
  let pos := arc_position a c in
  let d := mkArcData (linear_value c (first_axis a)) (linear_value c (second_axis a))
             (arc_rotation a) (linear_value c (axis_end_point a)) in
  c ← update_arc_extents (currentPosition c) pos plane d c;
  addOperation (ArcOp (arc_line a) pos plane d) (set_position pos c).

Definition consume_tap (line : Z) (x y z scale : f64) (c : ParseContext) :
    outcome Exn ParseContext :=
  let pos := mkPosition3 (linear_value c x) (linear_value c y) (linear_value c z) in
  c ← updateExtents (currentPosition c) c;
  let p := currentPosition c in
  let c := set_position (mkPosition (p3x pos) (p3y pos) (pz p) (pa p) (pb p) (pc p)
                           (pu p) (pv p) (pw p)) c in
  let c := set_extents (update3 (p3x pos) (p3y pos) (p3z pos) (extents c)) c in
  addOperation (RigidTapOp line pos scale) c.

Fixpoint update_control_points (plane : Plane) (points : list (f64 * f64)) (c : ParseContext) :
    outcome Exn ParseContext :=
  match points with
  | [] => Ok c
  | (x, y) :: points =>
      c ← update_control_point_extents plane x y c; update_control_points plane points c
  end.

(** The common part of the two kinds of splines: [moves] says whether the control
    points are used, and the operation is built from the end position. *)
Definition consume_nurbs (op : Position -> Operation) (plane : Plane) (points : list (f64 * f64))
    (moves : bool) (c : ParseContext) : outcome Exn ParseContext :=
  let pos := currentPosition c in
  c ← updateExtents pos c;
  match moves, last points with
  | true, Some (x, y) =>
      c ← update_control_points plane points c;
      let pos := set_plane_end plane x y pos in
      c ← updateExtents pos (set_position pos c);
      addOperation (op pos) c
  | _, _ => addOperation (op pos) c
  end.

Definition consume_units (u : CANON_UNITS) (c : ParseContext) : outcome Exn ParseContext :=
  let '(next, scale) :=
    match u with
    | CANON_UNITS_INCHES => (INCHES, inch)
    | CANON_UNITS_MM => (MM, f64_one)
    | CANON_UNITS_CM => (CM, f64_of_Z 10)
    | CANON_UNITS_OTHER => (MM, linearUnitScale c)
    end in
  if decide (next = currentUnits c) then Ok (set_units next scale c)
  else addOperation (UnitsChangeOp next) (set_units next scale c).

Definition consume_plane (p : CANON_PLANE) (c : ParseContext) : outcome Exn ParseContext :=
  let next := preview_plane p in
  if decide (next = currentPlane c) then Ok c
  else addOperation (PlaneChangeOp next) (set_plane next c).

Definition consume_feed_rate (r : f64) (c : ParseContext) : outcome Exn ParseContext :=
  let rate := linear_value c r in
  let c := set_feed rate (lastFeedRate c) c in
  if f64_eq rate (lastFeedRate c) then Ok c
  else addOperation (FeedRateChangeOp rate) (set_feed rate rate c).

Definition consume (e : Event) (c : ParseContext) : outcome Exn ParseContext :=
  match e with
  | StraightTraverse line end_ => straight (TraverseOp line) end_ c
  | StraightFeed line end_ => straight (FeedOp line) end_ c
  | ArcFeedEvent a => consume_arc a c
  | StraightProbe line end_ => straight (ProbeOp line) end_ c
  | RigidTap line x y z scale => consume_tap line x y z scale c
  | Dwell seconds => addOperation (DwellOp (currentPosition c) seconds (currentPlane c)) c
  | NurbsG5Feed line points order p =>
      let plane := preview_plane p in
      let points := (fun q => mkG5Point (linear_value c (g5x q)) (linear_value c (g5y q)) (weight q))
                      <$> points in
      consume_nurbs (fun pos => NurbsG5Op line pos plane order points) plane
        ((fun q => (g5x q, g5y q)) <$> points) true c
  | NurbsG6Feed line points order method p =>
      let plane := preview_plane p in
      let points := (fun q => mkG6Point (linear_value c (g6x q)) (linear_value c (g6y q))
                                (g6r q) (g6k q)) <$> points in
      consume_nurbs (fun pos => NurbsG6Op line pos plane order method points) plane
        ((fun q => (g6x q, g6y q)) <$> points)
        (order <? Z.of_nat (length points)) c
  | LengthUnits u => consume_units u c
  | PlaneEvent p => consume_plane p c
  | G5xOffset index offset => addOperation (G5xOffsetOp index (preview_position c offset)) c
  | G92Offset offset => addOperation (G92OffsetOp (preview_position c offset)) c
  | XyRotation degrees => addOperation (XYRotationOp degrees) c
  | FeedRate rate => consume_feed_rate rate c
  | CutterCompensation side =>
      addOperation (CutterCompensationChangeOp (preview_cutter_compensation side)) c
  | ToolOffset offset => addOperation (ToolOffsetOp (preview_position c offset)) c
  | ToolChange tool => addOperation (ToolChangeOp tool) (set_tool tool c)
  end.

Fixpoint consumeRecordingEvents (events : list Event) (c : ParseContext) :
    outcome Exn ParseContext :=
  match events with
  | [] => Ok c
  | e :: events => c ← consume e c; consumeRecordingEvents events c
  end.

(** ** What a call adds *)

(** A point within the extents. *)
Definition inside (e : Extents) (x y z : f64) : Prop :=
  (f64_lt x (p3x (emin e)) = false /\ f64_lt (p3x (emax e)) x = false)
  /\ (f64_lt y (p3y (emin e)) = false /\ f64_lt (p3y (emax e)) y = false)
  /\ (f64_lt z (p3z (emin e)) = false /\ f64_lt (p3z (emax e)) z = false).

(** A finite position within the extents. *)
Definition within (e : Extents) (p : Position) : Prop :=
  finite_position p = true /\ inside e (px p) (py p) (pz p).

(** Where an operation leaves a machine that was at [p]. *)
Definition position_after (p : Position) (op : Operation) : Position :=
  match op with
  | TraverseOp _ q | FeedOp _ q | ArcOp _ q _ _ | ProbeOp _ q
  | NurbsG5Op _ q _ _ _ | NurbsG6Op _ q _ _ _ _ => q
  | RigidTapOp _ q _ => mkPosition (p3x q) (p3y q) (pz p) (pa p) (pb p) (pc p) (pu p) (pv p) (pw p)
  | _ => p
  end.

(** The directions of the axes of a plane. *)
Definition quadrants : list f64 :=
  (fun k => f64_div (f64_mul (f64_of_Z k) pi) (f64_of_Z 2)) <$> [0; 1; 2; 3].

(** The points of a circle in the directions [angles] that lie on the arc. *)
Definition arc_points (angles : list f64) (plane : Plane) (start : Position) (d : ArcData)
    (radius start_angle sweep : f64) (clockwise : bool) : list Position :=
  (fun a => set_plane_end plane (f64_add (centerFirst d) (f64_mul radius (cos a)))
              (f64_add (centerSecond d) (f64_mul radius (sin a))) start)
  <$> filter (fun a => angle_is_on_arc a start_angle sweep clockwise = true) angles.

(** The points where an arc from [start] to [stop] is farthest along an axis. *)
Definition bulge (start stop : Position) (plane : Plane) (d : ArcData) : list Position :=
  match plane_coordinates plane start, plane_coordinates plane stop with
  | Some (x, y), Some (x', y') =>
      let dx := f64_sub x (centerFirst d) in
      let dy := f64_sub y (centerSecond d) in
      if f64_isfinite (hypot dx dy) && negb (f64_le (hypot dx dy) f64_zero) then
        let from := atan2 dy dx in
        let to := atan2 (f64_sub y' (centerSecond d)) (f64_sub x' (centerFirst d)) in
        arc_points quadrants plane start d (hypot dx dy) from (arc_sweep d from to) (rotation d <? 0)
      else []
  | _, _ => []
  end.

(** A motion from [p] is within the extents: its start, its end, the points where an
    arc bulges out, and the control points of a spline that moves. *)
Definition covered (p : Position) (e : Extents) (op : Operation) : Prop :=
  match op with
  | TraverseOp _ q | FeedOp _ q | ProbeOp _ q => within e p /\ within e q
  | ArcOp _ q plane d => within e p /\ within e q /\ Forall (within e) (bulge p q plane d)
  | NurbsG5Op _ q plane _ pts =>
      within e p /\ within e q /\ Forall (fun x => within e (set_plane_end plane (g5x x) (g5y x) p)) pts
  | NurbsG6Op _ q plane order _ pts =>
      within e p /\ within e q
      /\ ((order <? Z.of_nat (length pts)) = true ->
          Forall (fun x => within e (set_plane_end plane (g6x x) (g6y x) p)) pts)
  | RigidTapOp _ q _ => within e p /\ inside e (p3x q) (p3y q) (p3z q)
  | _ => True
  end.

Definition numbers (e : Extents) : Prop :=
  f64_isnan (p3x (emin e)) = false /\ f64_isnan (p3y (emin e)) = false
  /\ f64_isnan (p3z (emin e)) = false /\ f64_isnan (p3x (emax e)) = false
  /\ f64_isnan (p3y (emax e)) = false /\ f64_isnan (p3z (emax e)) = false.

(** The extents [e'] were updated from [e]. *)
Definition grows (e e' : Extents) : Prop :=
  (numbers e -> numbers e')
  /\ (numbers e -> forall x y z, f64_isnan x = false -> f64_isnan y = false -> f64_isnan z = false ->
      inside e x y z -> inside e' x y z).

#[local] Instance grows_preorder : PreOrder grows.
Proof. split; [by intros e|]. intros e1 e2 e3 [H1 H2] [H3 H4]. split; auto. Qed.

Lemma lt_not_nan x y : f64_lt x y = true -> f64_isnan x = false /\ f64_isnan y = false.
Proof. unfold f64_lt, SFltb. destruct x, y; done. Qed.

Lemma lower_facts v m : f64_isnan m = false ->
  let m' := if f64_lt v m then v else m in
  f64_isnan m' = false /\ f64_lt v m' = false
  /\ forall x, f64_isnan x = false -> f64_lt x m = false -> f64_lt x m' = false.
Proof.
  intros Hm. cbn zeta. destruct (f64_lt v m) eqn:E; [|by auto].
  destruct (lt_not_nan _ _ E) as [Hv _]. split_and!; [done|apply f64_lt_irrefl|].
  intros x Hx. by apply f64_not_lt_trans.
Qed.

Lemma upper_facts v m : f64_isnan m = false ->
  let m' := if f64_gt v m then v else m in
  f64_isnan m' = false /\ f64_lt m' v = false
  /\ forall x, f64_isnan x = false -> f64_lt m x = false -> f64_lt m' x = false.
Proof.
  intros Hm. cbn zeta. unfold f64_gt. fold (f64_lt m v). destruct (f64_lt m v) eqn:E; [|by auto].
  destruct (lt_not_nan _ _ E) as [_ Hv]. split_and!; [done|apply f64_lt_irrefl|].
  intros x Hx. by apply f64_not_lt_trans'.
Qed.

Lemma update3_facts x y z e :
  numbers e ->
  numbers (update3 x y z e) /\ inside (update3 x y z e) x y z
  /\ forall x0 y0 z0, f64_isnan x0 = false -> f64_isnan y0 = false -> f64_isnan z0 = false ->
     inside e x0 y0 z0 -> inside (update3 x y z e) x0 y0 z0.
Proof.
  intros (H1 & H2 & H3 & H4 & H5 & H6). unfold numbers, inside. cbn.
  destruct (lower_facts x _ H1) as (? & ? & ?), (lower_facts y _ H2) as (? & ? & ?),
    (lower_facts z _ H3) as (? & ? & ?), (upper_facts x _ H4) as (? & ? & ?),
    (upper_facts y _ H5) as (? & ? & ?), (upper_facts z _ H6) as (? & ? & ?).
  split_and!; try done. intros x0 y0 z0 ? ? ? ([? ?] & [? ?] & [? ?]). split_and!; auto.
Qed.

Lemma update3_grows x y z e : grows e (update3 x y z e).
Proof. split; intros He; by destruct (update3_facts x y z e He) as (? & ? & ?). Qed.

(** The modal state that a reader of the operations follows. *)
Definition modal (c : ParseContext) : Units * Plane * f64 :=
  (currentUnits c, currentPlane c, lastFeedRate c).

Definition replay (m : Units * Plane * f64) (op : Operation) : Units * Plane * f64 :=
  match op with
  | UnitsChangeOp u => (u, m.1.2, m.2)
  | PlaneChangeOp p => (m.1.1, p, m.2)
  | FeedRateChangeOp r => (m.1.1, m.1.2, r)
  | _ => m
  end.

(** The extents only grew, and nothing else that matters changed. *)
Record surveyed (c c' : ParseContext) : Prop := {
  surveyed_grows : grows (extents c) (extents c');
  surveyed_output : operations c' = operations c /\ operationCount c' = operationCount c /\ token c' = token c;
  surveyed_modal : modal c' = modal c /\ currentPosition c' = currentPosition c;
}.

#[local] Instance surveyed_preorder : PreOrder surveyed.
Proof.
  split; [by split|]. intros c1 c2 c3 [H1 (H2 & H3 & H4) [H5 H6]] [H7 (H8 & H9 & H10) [H11 H12]].
  split; [by etrans|split_and!; congruence|split; congruence].
Qed.

Lemma finite_not_nan p : finite_position p = true ->
  f64_isnan (px p) = false /\ f64_isnan (py p) = false /\ f64_isnan (pz p) = false.
Proof.
  unfold finite_position, f64_isfinite. destruct p as [x y z ? ? ? ? ? ?]; cbn.
  destruct (f64_isnan x), (f64_isnan y), (f64_isnan z); cbn; rewrite ?andb_false_r; try done;
    by destruct (f64_isinf x).
Qed.

Lemma within_grows e e' p : numbers e -> grows e e' -> within e p -> within e' p.
Proof.
  intros He [_ Hg] [Hf Hi]. destruct (finite_not_nan _ Hf) as (? & ? & ?). split; [done|]. by apply Hg.
Qed.

Lemma all_within_grows {A} (f : A -> Position) e e' l :
  numbers e -> grows e e' -> Forall (fun x => within e (f x)) l -> Forall (fun x => within e' (f x)) l.
Proof. intros He Hg Hl. eapply Forall_impl; [exact Hl|]. intros x. by apply within_grows. Qed.

Lemma updateExtents_ok p c c' :
  updateExtents p c = Ok c' ->
  surveyed c c' /\ (numbers (extents c) -> within (extents c') p).
Proof.
  unfold updateExtents, within. destruct (finite_position p); [|done]. intros [= <-].
  split; [split; [apply update3_grows|done..]|]. intros He. split; [done|].
  by destruct (update3_facts (px p) (py p) (pz p) (extents c) He) as (? & ? & ?).
Qed.

Lemma update_ends_ok p q c c' :
  update_ends p q c = Ok c' ->
  surveyed c c' /\ (numbers (extents c) -> within (extents c') p /\ within (extents c') q).
Proof.
  unfold update_ends. intros (c1 & (H1 & Hp)%updateExtents_ok & (H2 & Hq)%updateExtents_ok)%outcome_bind_ok.
  split; [by etrans|]. intros He. pose proof (proj1 (surveyed_grows _ _ H1) He) as He1.
  split; [|by apply Hq]. eapply within_grows; [exact He1|apply H2|by apply Hp].
Qed.

Lemma update_cardinals_ok angles plane start d radius sa sweep cw c c' :
  update_cardinals angles plane start d radius sa sweep cw c = Ok c' ->
  surveyed c c'
  /\ (numbers (extents c) -> Forall (within (extents c')) (arc_points angles plane start d radius sa sweep cw)).
Proof.
  unfold arc_points.
  revert c. induction angles as [|a angles IH]; intros c; cbn [update_cardinals].
  { intros [= <-]. split; [done|]. intros _. constructor. }
  intros (c1 & H1 & [H2 H3]%IH)%outcome_bind_ok. rewrite filter_cons.
  destruct (angle_is_on_arc a sa sweep cw).
  - apply updateExtents_ok in H1 as [H0 Hin]. split; [by etrans|]. intros He.
    pose proof (proj1 (surveyed_grows _ _ H0) He) as He1. cbn. constructor; [|by apply H3].
    eapply within_grows; [exact He1|apply H2|by apply Hin].
  - injection H1 as ->. split; [done|]. by intros He%H3.
Qed.

(** The directions the program looks at are those of the axes. *)
Lemma cardinals_quadrants : cardinals = quadrants.
Proof. vm_compute. reflexivity. Qed.

Lemma update_arc_ok start stop plane d c c' :
  update_arc_extents start stop plane d c = Ok c' ->
  surveyed c c' /\ (numbers (extents c) -> within (extents c') start /\ within (extents c') stop
    /\ Forall (within (extents c')) (bulge start stop plane d)).
Proof.
  assert (Hends : update_ends start stop c = Ok c' -> surveyed c c'
    /\ (numbers (extents c) -> within (extents c') start /\ within (extents c') stop /\ Forall (within (extents c')) [])).
  { intros [H1 H2]%update_ends_ok. split; [done|]. intros He. destruct (H2 He). by split_and!. }
  unfold update_arc_extents, bulge.
  destruct (plane_coordinates plane start) as [[sf ss]|]; [|done].
  destruct (plane_coordinates plane stop) as [[ef es]|]; [|done]. cbn zeta.
  destruct (f64_isfinite _); cbn [negb orb andb]; [|done].
  destruct (f64_le _ f64_zero); cbn [negb]; [done|]. rewrite cardinals_quadrants.
  intros (c1 & (H1 & H2)%update_ends_ok & (H3 & H4)%update_cardinals_ok)%outcome_bind_ok.
  split; [by etrans|]. intros He. pose proof (proj1 (surveyed_grows _ _ H1) He) as He1.
  destruct (H2 He) as [Hs Ht]. split_and!; [..|by apply H4]; (eapply within_grows; [exact He1|apply H3|done]).
Qed.

Lemma update_control_points_ok plane points c c' :
  update_control_points plane points c = Ok c' ->
  surveyed c c' /\ (numbers (extents c) ->
    Forall (fun q => within (extents c') (set_plane_end plane q.1 q.2 (currentPosition c))) points).
Proof.
  revert c. induction points as [|[x y] points IH]; intros c; cbn [update_control_points].
  { intros [= <-]. split; [done|]. intros _. constructor. }
  intros (c1 & (H1 & Hin)%updateExtents_ok & [H2 H3]%IH)%outcome_bind_ok. split; [by etrans|]. intros He.
  pose proof (proj1 (surveyed_grows _ _ H1) He) as He1. destruct (surveyed_modal _ _ H1) as [_ Hp].
  rewrite Hp in H3. constructor; [|by apply H3].
  eapply within_grows; [exact He1|apply H2|by apply Hin].
Qed.

(** Every operation is finite, and every motion within the extents. *)
Fixpoint good_from (p : Position) (e : Extents) (ops : list Operation) : Prop :=
  match ops with
  | [] => True
  | op :: ops =>
      check_operation op = Ok tt /\ covered p e op /\ good_from (position_after p op) e ops
  end.

Definition output (c : ParseContext) : list Operation * Z * list bool :=
  (operations c, operationCount c, token c).

(** One canonical call: at most one operation, none after a stop. *)
Record consumed (c c' : ParseContext) (new : list Operation) : Prop := {
  consumed_grows : grows (extents c) (extents c');
  consumed_good : numbers (extents c) -> good_from (currentPosition c) (extents c') new;
  consumed_output : output c' = output c /\ new = []
    \/ exists op, new = [op] /\ stop_requested (token c) = false
       /\ output c' = (operations c ++ [op], u64_wrap (operationCount c + 1), checked (token c));
  consumed_modal : stop_requested (token c) = false -> modal c' = foldl replay (modal c) new;
  consumed_position : stop_requested (token c) = false ->
    currentPosition c' = foldl position_after (currentPosition c) new;
}.

Lemma add_consumed op c c1 c' :
  grows (extents c) (extents c1) -> output c1 = output c ->
  (numbers (extents c) -> covered (currentPosition c) (extents c1) op) -> modal c1 = replay (modal c) op ->
  currentPosition c1 = position_after (currentPosition c) op ->
  addOperation op c1 = Ok c' -> exists new, consumed c c' new.
Proof.
  intros Hg Ho Hc Hm Hp. pose proof Ho as Ho'. injection Ho' as Ho1 Ho2 Ho3. unfold addOperation. rewrite Ho3.
  destruct (stop_requested (token c)) eqn:Hs.
  { intros [= <-]. exists []. split; [done|done|by left|by rewrite Hs..]. }
  intros ([] & H1 & H2)%outcome_bind_ok. injection H2 as <-. exists [op]. split; cbn; [done| |right|done|done].
  - intros He. split_and!; [done|by apply Hc|done].
  - exists op. split_and!; [done..|]. unfold output. cbn. by rewrite Ho1, Ho2.
Qed.

Lemma quiet_consumed c c' :
  extents c' = extents c -> output c' = output c -> modal c' = modal c ->
  currentPosition c' = currentPosition c -> consumed c c' [].
Proof. intros He Ho Hm Hp. split; [by rewrite He|done|by left|done..]. Qed.

Lemma survey_output c c' : surveyed c c' -> output c' = output c.
Proof. intros [_ (H1 & H2 & H3) _]. unfold output. congruence. Qed.

Lemma straight_consumed op end_ c c' :
  (forall p q e, within e p -> within e q -> covered p e (op q)) -> (forall q m, replay m (op q) = m) ->
  (forall p q, position_after p (op q) = q) ->
  straight op end_ c = Ok c' -> exists new, consumed c c' new.
Proof.
  intros Hc Hr Ha. unfold straight.
  intros (c1 & (H1 & Hp)%updateExtents_ok & (c2 & (H2 & Hq)%updateExtents_ok & H4)%outcome_bind_ok)%outcome_bind_ok.
  destruct H2 as [G2 O2 [M2 P2]]. cbn in *.
  eapply (add_consumed _ c c2); [| | | | |exact H4].
  - etrans; [apply H1|exact G2].
  - rewrite <- (survey_output _ _ H1). unfold output. destruct O2 as (-> & -> & ->). done.
  - intros He. pose proof (proj1 (surveyed_grows _ _ H1) He) as He1.
    apply Hc; [|by apply Hq]. eapply within_grows; [exact He1|exact G2|by apply Hp].
  - rewrite Hr. rewrite M2. change (modal c1 = modal c). apply H1.
  - by rewrite Ha, P2.
Qed.

Lemma nurbs_consumed op plane points moves c c' :
  (forall p q e, within e p -> within e q ->
     (moves = true -> Forall (fun x => within e (set_plane_end plane x.1 x.2 p)) points) -> covered p e (op q)) ->
  (forall p m, replay m (op p) = m) -> (forall p q, position_after p (op q) = q) ->
  consume_nurbs op plane points moves c = Ok c' -> exists new, consumed c c' new.
Proof.
  intros Hc Hr Ha. unfold consume_nurbs.
  intros (c1 & (H1 & Hin)%updateExtents_ok & H2)%outcome_bind_ok.
  assert (Hstay : (moves = true -> points = []) -> addOperation (op (currentPosition c)) c1 = Ok c' ->
    exists new, consumed c c' new).
  { intros Hn. apply (add_consumed _ c c1); [apply H1|by apply survey_output| | |].
    - intros He. apply Hc; [by apply Hin..|]. intros ->%Hn. constructor.
    - rewrite Hr. apply H1.
    - rewrite Ha. apply H1. }
  destruct moves; [|by apply Hstay].
  destruct (last points) as [[x y]|] eqn:El; [|apply Hstay; [intros _; by apply last_None|done]].
  apply outcome_bind_ok in H2 as (c2 & (H3 & Hpts)%update_control_points_ok & H4).
  apply outcome_bind_ok in H4 as (c3 & (H5 & H6)%updateExtents_ok & H7).
  pose proof (transitivity H1 H3) as H13. destruct H5 as [G5 O5 [M5 P5]]. cbn in *.
  eapply (add_consumed _ c c3); [| | | | |exact H7].
  - etrans; [apply H13|exact G5].
  - rewrite <- (survey_output _ _ H13). unfold output. destruct O5 as (-> & -> & ->). done.
  - intros He. pose proof (proj1 (surveyed_grows _ _ H1) He) as He1.
    pose proof (proj1 (surveyed_grows _ _ H13) He) as He2. destruct (surveyed_modal _ _ H1) as [_ Hpos].
    apply Hc; [|by apply H6|].
    + eapply within_grows; [exact He2|exact G5|]. eapply within_grows; [exact He1|apply H3|by apply Hin].
    + intros _. eapply all_within_grows; [exact He2|exact G5|]. rewrite <- Hpos. by apply Hpts.
  - rewrite Hr, M5. change (modal c2 = modal c). apply H13.
  - by rewrite Ha, P5.
Qed.

Lemma arc_consumed a c c' : consume_arc a c = Ok c' -> exists new, consumed c c' new.
Proof.
  unfold consume_arc. intros (c1 & (H1 & H2)%update_arc_ok & H4)%outcome_bind_ok.
  eapply (add_consumed _ c (set_position (arc_position a c) c1)); [| | | | |exact H4].
  - apply H1.
  - by apply (survey_output _ _ H1).
  - done.
  - apply H1.
  - done.
Qed.

Lemma tap_consumed line x y z scale c c' :
  consume_tap line x y z scale c = Ok c' -> exists new, consumed c c' new.
Proof.
  unfold consume_tap. intros (c1 & (H1 & Hin)%updateExtents_ok & H4)%outcome_bind_ok. cbn zeta in H4.
  destruct (surveyed_modal _ _ H1) as [Hm Hp].
  eapply (add_consumed _ c _); [| | | | |exact H4]; cbn.
  - etrans; [apply H1|apply update3_grows].
  - by apply (survey_output _ _ H1).
  - intros He. pose proof (proj1 (surveyed_grows _ _ H1) He) as He1. split.
    + eapply within_grows; [exact He1|apply update3_grows|by apply Hin].
    + by destruct (update3_facts (linear_value c x) (linear_value c y) (linear_value c z)
        (extents c1) He1) as (? & ? & ?).
  - apply Hm.
  - by rewrite Hp.
Qed.

(** Every canonical call that returns. *)
Lemma consume_consumed e c c' : consume e c = Ok c' -> exists new, consumed c c' new.
Proof.
  destruct e; cbn [consume];
    first [apply straight_consumed|apply arc_consumed|apply tap_consumed|apply nurbs_consumed|idtac];
    try done; try (by apply (add_consumed _ c c)).
  - intros p q e Hp Hq Hx. split_and!; try done. specialize (Hx eq_refl). by rewrite Forall_fmap in Hx.
  - intros p q e Hp Hq Hx. split_and!; try done. intros Ho%Hx. by rewrite Forall_fmap in Ho.
  - unfold consume_units. set (n := match units with CANON_UNITS_INCHES => _ | _ => _ end).
    destruct n as [next scale]. destruct (decide _) as [->|].
    + intros [= <-]. exists []. by apply quiet_consumed.
    + by apply (add_consumed _ c).
  - unfold consume_plane. destruct (decide _) as [E|].
    + intros [= <-]. exists []. by apply quiet_consumed.
    + by apply (add_consumed _ c).
  - unfold consume_feed_rate. cbn. case_match.
    + intros [= <-]. exists []. by apply quiet_consumed.
    + by apply (add_consumed _ c).
  - by apply (add_consumed _ c).
Qed.

(** ** The output does not influence the translation *)
Definition with_output (o : list Operation * Z * list bool) (c : ParseContext) : ParseContext :=
  set_output o.1.1 o.1.2 o.2 c.

Definition map_ok {A B} (f : A -> B) (m : outcome Exn A) : outcome Exn B :=
  match m with Ok a => Ok (f a) | Err e => Err e end.

(** [f] neither reads nor writes the output. *)
Definition framed (f : ParseContext -> outcome Exn ParseContext) : Prop :=
  forall o c, f (with_output o c) = map_ok (with_output o) (f c).

Lemma framed_bind f g : framed f -> framed g -> framed (fun c => c' ← f c; g c').
Proof. intros Hf Hg o c. cbn. rewrite Hf. destruct (f c); cbn; [apply Hg|done]. Qed.

Lemma updateExtents_framed p : framed (updateExtents p).
Proof. intros o c. unfold updateExtents. by destruct (finite_position p). Qed.

Lemma update_ends_framed p q : framed (update_ends p q).
Proof. apply framed_bind; apply updateExtents_framed. Qed.

Lemma update_cardinals_framed angles plane start d radius sa sweep cw :
  framed (update_cardinals angles plane start d radius sa sweep cw).
Proof.
  induction angles as [|a angles IH]; [done|]. apply (framed_bind _ _); [|done].
  intros o c. destruct (angle_is_on_arc a sa sweep cw); [apply updateExtents_framed|done].
Qed.

Lemma update_arc_framed start stop plane d : framed (update_arc_extents start stop plane d).
Proof.
  intros o c. unfold update_arc_extents. repeat case_match; try apply update_ends_framed.
  apply (framed_bind _ _); [apply update_ends_framed|apply update_cardinals_framed].
Qed.

Lemma update_control_points_framed plane points : framed (update_control_points plane points).
Proof.
  induction points as [|[x y] points IH]; [done|]. apply (framed_bind _ _); [|done].
  intros o c. apply updateExtents_framed.
Qed.

(** The output after one more operation. *)
Definition emit (o : list Operation * Z * list bool) (new : list Operation) :
    list Operation * Z * list bool :=
  match new with
  | [] => o
  | _ => (o.1.1 ++ new, u64_wrap (o.1.2 + 1), checked o.2)
  end.

(** [f] adds to the output, whatever it is, what it adds to an empty one. *)
Definition appends (f : ParseContext -> outcome Exn ParseContext) : Prop :=
  forall o c, stop_requested o.2 = false ->
  f (with_output o c)
  = map_ok (fun c' => with_output (emit o (operations c')) c') (f (with_output ([], 0, []) c)).

Lemma with_output_twice o o' c : with_output o (with_output o' c) = with_output o c.
Proof. done. Qed.

Lemma add_appends op : appends (addOperation op).
Proof.
  intros o c Ho. unfold addOperation. cbn. rewrite Ho. by destruct (check_operation op) as [[]|e].
Qed.

Lemma framed_appends f g : framed f -> appends g -> appends (fun c => c' ← f c; g c').
Proof.
  intros Hf Hg o c Ho. cbn. rewrite !Hf. destruct (f c) as [c1|]; cbn; [by apply Hg|done].
Qed.

Lemma framed_ok f : framed f -> appends f.
Proof.
  intros Hf o c Ho. rewrite !Hf. by destruct (f c) as [c1|].
Qed.

Lemma update_appends f (h : ParseContext -> ParseContext) :
  appends f -> (forall o c, h (with_output o c) = with_output o (h c)) -> appends (fun c => f (h c)).
Proof. intros Hf Hh o c Ho. rewrite !Hh. by apply Hf. Qed.

Lemma straight_appends op end_ : appends (straight op end_).
Proof.
  intros o c Ho. set (pos := preview_position c end_).
  apply (framed_appends (updateExtents (currentPosition c))
    (fun c1 => c2 ← updateExtents pos (set_position pos c1); addOperation (op pos) c2));
    [apply updateExtents_framed| |done].
  apply (update_appends (fun c1 => c2 ← updateExtents pos c1; addOperation (op pos) c2)); [|done].
  apply framed_appends; [apply updateExtents_framed|apply add_appends].
Qed.

Lemma arc_appends a : appends (consume_arc a).
Proof.
  intros o c Ho. unfold consume_arc. set (pos := arc_position a c).
  apply (framed_appends (update_arc_extents (currentPosition c) pos (preview_plane (arc_plane a)) _)
    (fun c1 => addOperation _ (set_position pos c1))); [apply update_arc_framed| |done].
  apply update_appends; [apply add_appends|done].
Qed.

Lemma tap_appends line x y z scale : appends (consume_tap line x y z scale).
Proof.
  intros o c Ho. unfold consume_tap.
  set (pos := mkPosition3 (linear_value c x) (linear_value c y) (linear_value c z)).
  apply (framed_appends (updateExtents (currentPosition c))
    (fun c1 => addOperation (RigidTapOp line pos scale)
       (let c2 := set_position (mkPosition (p3x pos) (p3y pos) (pz (currentPosition c1)) (pa (currentPosition c1))
          (pb (currentPosition c1)) (pc (currentPosition c1)) (pu (currentPosition c1))
          (pv (currentPosition c1)) (pw (currentPosition c1))) c1 in
        set_extents (update3 (p3x pos) (p3y pos) (p3z pos) (extents c2)) c2)));
    [apply updateExtents_framed| |done].
  apply update_appends; [apply add_appends|done].
Qed.

Lemma nurbs_appends op plane points moves : appends (consume_nurbs op plane points moves).
Proof.
  intros o c Ho. unfold consume_nurbs. set (pos := currentPosition c).
  assert (Hstay : appends (fun c => c1 ← updateExtents pos c; addOperation (op pos) c1))
    by (apply framed_appends; [apply updateExtents_framed|apply add_appends]).
  destruct moves, (last points) as [[x y]|]; try by apply Hstay. cbv zeta.
  set (pos' := set_plane_end plane x y pos).
  apply (framed_appends (updateExtents pos) (fun c1 => c2 ← update_control_points plane points c1;
    c3 ← updateExtents pos' (set_position pos' c2); addOperation (op pos') c3));
    [apply updateExtents_framed| |done].
  apply framed_appends; [apply update_control_points_framed|].
  apply (update_appends (fun c2 => c3 ← updateExtents pos' c2; addOperation (op pos') c3)); [|done].
  apply framed_appends; [apply updateExtents_framed|apply add_appends].
Qed.

Lemma add_after (h : ParseContext -> ParseContext) op o c :
  (forall o c, h (with_output o c) = with_output o (h c)) -> stop_requested o.2 = false ->
  addOperation op (h (with_output o c))
  = map_ok (fun c' => with_output (emit o (operations c')) c')
      (addOperation op (h (with_output ([], 0, []) c))).
Proof. intros Hh Ho. rewrite !Hh. by apply add_appends. Qed.

Lemma consume_appends e : appends (consume e).
Proof.
  destruct e; cbn [consume];
    try solve [apply straight_appends|apply arc_appends|apply tap_appends|apply add_appends
      |intros o c Ho; by apply add_appends|intros o c Ho; by apply nurbs_appends].
  - intros o c Ho. unfold consume, consume_units.
    change (currentUnits (with_output o c)) with (currentUnits c).
    change (currentUnits (with_output ([], 0, []) c)) with (currentUnits c).
    change (linearUnitScale (with_output o c)) with (linearUnitScale c).
    change (linearUnitScale (with_output ([], 0, []) c)) with (linearUnitScale c).
    destruct units; lazy beta iota; (destruct (decide _); [done|]);
      by apply (add_after (set_units _ _)).
  - intros o c Ho. unfold consume, consume_plane.
    change (currentPlane (with_output o c)) with (currentPlane c).
    change (currentPlane (with_output ([], 0, []) c)) with (currentPlane c).
    destruct (decide _); [done|]. by apply (add_after (set_plane _)).
  - intros o c Ho. unfold consume, consume_feed_rate.
    change (linear_value (with_output o c) rate) with (linear_value c rate).
    change (linear_value (with_output ([], 0, []) c) rate) with (linear_value c rate).
    cbn [with_output set_output lastFeedRate set_feed].
    destruct (f64_eq _ _); [done|]. by apply (add_after (set_feed (linear_value c rate) (linear_value c rate))).
  - apply (update_appends _ (set_tool tool_number)); [apply add_appends|done].
Qed.

(** The whole recording translated at once, without stops or batches. *)
Definition translate (events : list Event) : outcome Exn ParseContext :=
  consumeRecordingEvents events (fresh []).

(** [c] is the reference context [r] but for its output, and has emitted the
    same operations, of which [sent] are gone. *)
Record streams (sent : list Operation) (c r : ParseContext) : Prop := {
  streams_same : with_output ([], 0, []) c = with_output ([], 0, []) r;
  streams_ops : sent ++ operations c = operations r;
  streams_count : operationCount c = u64_wrap (Z.of_nat (length (operations r)));
  streams_token : token r = [];
}.

Lemma consume_streams sent e c r c' :
  streams sent c r -> stop_requested (token c) = false -> consume e c = Ok c' ->
  exists r', consume e r = Ok r' /\ streams sent c' r'.
Proof.
  intros [Hs Ho Hn Ht] Hstop Hc.
  assert (E : forall x, x = with_output (output x) (with_output ([], 0, []) x)) by (by intros []).
  pose proof (consume_appends e (output c) (with_output ([], 0, []) c) Hstop) as H1.
  rewrite <- E, Hc, with_output_twice in H1.
  pose proof (consume_appends e (output r) (with_output ([], 0, []) r)) as H2.
  rewrite <- E, with_output_twice in H2. cbn [output] in H2. specialize (H2 ltac:(cbn; by rewrite Ht)).
  rewrite Hs in H1. destruct (consume e (with_output ([], 0, []) r)) as [c0|] eqn:E0; [|done].
  cbn in H1, H2. injection H1 as ->. eexists. split; [exact H2|].
  destruct (consume_consumed _ _ _ E0) as [new Hnew].
  assert (Hl : (length (operations c0) <= 1)%nat).
  { destruct (consumed_output _ _ _ Hnew) as [[Hout _]|(op & _ & _ & Hout)];
      unfold output in Hout; injection Hout as -> _ _; cbn; lia. }
  destruct (operations c0) as [|op [|]]; cbn in Hl; [|..|lia].
  - split; cbn; [done|done|done|done].
  - split; cbn; [done| | |by rewrite Ht].
    + by rewrite app_assoc, Ho.
    + rewrite Hn, length_app, Nat2Z.inj_add. cbn. unfold u64_wrap.
      by rewrite Z.add_mod_idemp_l by lia.
Qed.

Lemma stop_kept e c c' :
  consume e c = Ok c' -> stop_requested (token c') = false -> stop_requested (token c) = false.
Proof.
  intros [new H]%consume_consumed Hs. destruct (consumed_output _ _ _ H) as [[Ho _]|(op & _ & Hf & _)]; [|done].
  unfold output in Ho. by injection Ho as _ _ <-.
Qed.

Lemma events_stop_kept events c c' :
  consumeRecordingEvents events c = Ok c' -> stop_requested (token c') = false ->
  stop_requested (token c) = false.
Proof.
  revert c. induction events as [|e events IH]; intros c; cbn [consumeRecordingEvents].
  { by intros [= <-]. }
  intros (c1 & H1 & H2)%outcome_bind_ok Hs. by apply (stop_kept e c c1 H1), (IH c1).
Qed.

Lemma events_streams sent events c r c' :
  streams sent c r -> consumeRecordingEvents events c = Ok c' -> stop_requested (token c') = false ->
  exists r', consumeRecordingEvents events r = Ok r' /\ streams sent c' r'.
Proof.
  revert c r. induction events as [|e events IH]; intros c r Hs; cbn [consumeRecordingEvents].
  { intros [= <-]. eauto. }
  intros (c1 & H1 & H2)%outcome_bind_ok Hstop.
  pose proof (events_stop_kept _ _ _ H2 Hstop) as Hstop1.
  destruct (consume_streams sent e c r c1 Hs (stop_kept _ _ _ H1 Hstop1) H1) as (r1 & Hr1 & Hs1).
  destruct (IH c1 r1 Hs1 H2 Hstop) as (r' & Hr' & Hs'). exists r'. split; [|done].
  apply outcome_bind_ok. eauto.
Qed.

Lemma consumeRecordingEvents_app a b c :
  consumeRecordingEvents (a ++ b) c = (c' ← consumeRecordingEvents a c; consumeRecordingEvents b c').
Proof.
  revert c. induction a as [|e a IH]; intros c; [done|]. cbn [app consumeRecordingEvents].
  destruct (consume e c) as [c1|]; cbn; [apply IH|done].
Qed.







End Consume.

End Canon.

(** * Driving the interpreter *)
Module Parser.
Import Canon.

(** ** Batches *)

Definition getOperationType (op : Operation) : Z :=
  match op with
  | TraverseOp _ _ => 1 | FeedOp _ _ => 2 | ArcOp _ _ _ _ => 3 | ProbeOp _ _ => 4
  | RigidTapOp _ _ _ => 5 | DwellOp _ _ _ => 6 | NurbsG5Op _ _ _ _ _ => 7
  | NurbsG6Op _ _ _ _ _ _ => 8 | UnitsChangeOp _ => 10 | PlaneChangeOp _ => 11
  | G5xOffsetOp _ _ => 12 | G92OffsetOp _ => 13 | XYRotationOp _ => 14 | ToolOffsetOp _ => 15
  | ToolChangeOp _ => 16 | FeedRateChangeOp _ => 17 | CutterCompensationChangeOp _ => 18
  end.

(** [sizeof] of the operations, by type, and of the control points. *)
Class Layout := {
  sizeof_type : Z -> Z;
  sizeof_g5 : Z;
  sizeof_g6 : Z;
}.

(** What the caller's batch callback does with a batch: [None], or the text of the
    exception it throws. *)
Class BatchCallback := batch_callback : list Operation -> option string.

Definition max_batch_bytes : Z := 4 * 1024 * 1024.

Record ParseOptions := mkOptions {
  ini_path : string;
  program_prefix : string;
  batch_size : nat;
  progress_updates : Z;
  has_batch : bool;
  has_progress : bool;
}.

Section Flush.
Context {L : Layout} {B : BatchCallback}.

Definition operation_size (op : Operation) : Z :=
  match op with
  | NurbsG5Op _ _ _ _ points => sizeof_type 7 + Z.of_nat (length points) * sizeof_g5
  | NurbsG6Op _ _ _ _ _ points => sizeof_type 8 + Z.of_nat (length points) * sizeof_g6
  | _ => sizeof_type (getOperationType op)
  end.

(** The inner loop of [flushBatch]: how many operations the next batch takes. *)
Fixpoint batch_count (max_batch : nat) (ops : list Operation) (count : nat) (bytes : Z) :
    outcome Exn nat :=
  match ops with
  | [] => Ok count
  | op :: ops =>
      if (count <? max_batch)%nat then
        let next := operation_size op in
        if negb (count =? 0)%nat && (max_batch_bytes <? bytes + next) then Ok count
        else if max_batch_bytes <? next
        then Err (OtherException "G-code operation exceeds preview batch byte limit")
        else batch_count max_batch ops (S count) (bytes + next)
      else Ok count
  end.

(** The outer loop: the batches handed to the callback, and what is left. *)
Fixpoint flush_loop (fuel : nat) (max_batch : nat) (ops : list Operation) (t : list bool) :
    list (list Operation) * outcome Exn (list Operation * list bool) :=
  match fuel, ops with
  | _, [] => ([], Ok ([], t))
  | O, _ => ([], Ok (ops, t))
  | S fuel, _ =>
      if stop_requested t then ([], Ok (ops, t))
      else
        match batch_count max_batch ops 0 0 with
        | Err e => ([], Err e)
        | Ok count =>
            let batch := take count ops in
            match batch_callback batch with
            | Some what => ([batch], Err (OtherException what))
            | None =>
                let (batches, r) := flush_loop fuel max_batch (drop count ops) (checked t) in
                (batch :: batches, r)
            end
        end
  end.

Definition flush (o : ParseOptions) (ops : list Operation) (t : list bool) :
    list (list Operation) * outcome Exn (list Operation * list bool) :=
  let max_batch := if (batch_size o =? 0)%nat then length ops else batch_size o in
  flush_loop (length ops) max_batch ops t.

Definition bytes_of (ops : list Operation) : Z :=
  foldr (fun op b => operation_size op + b) 0 ops.

Lemma batch_count_spec max_batch ops count bytes n :
  batch_count max_batch ops count bytes = Ok n ->
  (count = 0%nat -> bytes = 0) -> bytes <= max_batch_bytes ->
  (count <= n <= count + length ops)%nat /\ (n <= Nat.max count max_batch)%nat
  /\ (ops <> [] -> (count < max_batch)%nat -> (0 < n)%nat)
  /\ bytes + bytes_of (take (n - count) ops) <= max_batch_bytes.
Proof.
  revert count bytes. induction ops as [|op ops IH]; intros count bytes; cbn [batch_count].
  { intros [= <-]. rewrite take_nil. cbn. intros. split_and!; lia || done. }
  destruct (Nat.ltb_spec count max_batch) as [Hlt|Hge].
  2:{ intros [= <-]. rewrite Nat.sub_diag. cbn. intros. split_and!; lia. }
  destruct (negb (count =? 0)%nat && (max_batch_bytes <? bytes + operation_size op)) eqn:E1.
  { apply andb_prop in E1 as [E1 _]. apply negb_true_iff, Nat.eqb_neq in E1. intros [= <-].
    rewrite Nat.sub_diag. cbn. intros. split_and!; lia. }
  destruct (Z.ltb_spec max_batch_bytes (operation_size op)) as [|Hsz]; [done|].
  intros H H0 Hb. specialize (IH _ _ H). destruct IH as (H1 & H2 & _ & H4); [lia| |].
  { apply andb_false_iff in E1 as [E1|E1].
    - apply negb_false_iff, Nat.eqb_eq in E1. rewrite (H0 E1). lia.
    - apply Z.ltb_ge in E1. lia. }
  cbn [length]. replace (n - count)%nat with (S (n - S count)) by lia. cbn [take bytes_of foldr].
  fold (bytes_of (take (n - S count) ops)). split_and!; lia.
Qed.

(** An exception of the size check is about an operation that is too large. *)
Lemma batch_count_error max_batch ops count bytes e :
  batch_count max_batch ops count bytes = Err e ->
  exists op, op ∈ ops /\ max_batch_bytes < operation_size op.
Proof.
  revert count bytes. induction ops as [|op ops IH]; intros count bytes; cbn [batch_count]; [done|].
  repeat case_match; try done.
  - intros _. exists op. split; [apply list_elem_of_here|by apply Z.ltb_lt].
  - intros (o & Ho & Hs)%IH. exists o. split; [by apply list_elem_of_further|done].
Qed.

(** The batches are a prefix of the operations, cut within the limits, and what is
    left is the rest; without a stop nothing is left. *)
Lemma flush_loop_spec fuel max_batch ops t batches r :
  flush_loop fuel max_batch ops t = (batches, r) -> (0 < max_batch)%nat -> (length ops <= fuel)%nat ->
  Forall (fun b => b <> [] /\ (length b <= max_batch)%nat /\ bytes_of b <= max_batch_bytes) batches
  /\ match r with
     | Ok (rest, t') => concat batches ++ rest = ops
         /\ (stop_requested t' = false -> stop_requested t = false /\ rest = [])
         /\ Forall (fun b => batch_callback b = None) batches
     | Err e => concat batches `prefix_of` ops
         /\ ((exists op, op ∈ ops /\ max_batch_bytes < operation_size op)
             \/ exists b what, last batches = Some b /\ batch_callback b = Some what /\ e = OtherException what)
     end.
Proof.
  revert ops t batches r. induction fuel as [|fuel IH]; intros ops t batches r.
  { destruct ops; [|cbn; lia]. intros [= <- <-] _ _. by split. }
  destruct ops as [|o l]; cbn [flush_loop]; [intros [= <- <-] _ _; by split|].
  remember (o :: l) as ops eqn:Eops. destruct (stop_requested t) eqn:Est.
  { intros [= <- <-] _ _. split; [done|]. by rewrite Est. }
  destruct (batch_count max_batch ops 0 0) as [n|e] eqn:En.
  2:{ intros [= <- <-] _ _. split; [done|]. split; [apply prefix_nil|left]. by eapply batch_count_error. }
  intros H Hm Hf. destruct (batch_count_spec _ _ _ _ _ En) as (H1 & H2 & H3 & H4); [done|unfold max_batch_bytes; lia|].
  specialize (H3 ltac:(by subst) Hm). rewrite Nat.sub_0_r in H4.
  assert (Hb : take n ops <> [] /\ (length (take n ops) <= max_batch)%nat
    /\ bytes_of (take n ops) <= max_batch_bytes).
  { split_and!; [|rewrite length_take; lia|lia]. intros E%(f_equal length). rewrite length_take in E.
    cbn in *. lia. }
  destruct (batch_callback (take n ops)) as [what|] eqn:Ecb.
  { injection H as <- <-. split; [by constructor|]. cbn. rewrite app_nil_r. split; [apply prefix_take|].
    right. by exists (take n ops), what. }
  destruct (flush_loop fuel max_batch (drop n ops) (checked t)) as [bs r'] eqn:Er. injection H as <- <-.
  destruct (IH _ _ _ _ Er Hm) as [H5 H6]; [rewrite length_drop; lia|]. split; [by constructor|].
  destruct r' as [[rest t']|e]; cbn [concat].
  - destruct H6 as (H6 & H7 & H8). split_and!; [by rewrite <- app_assoc, H6, take_drop| |by constructor].
    intros Hs. split; [done|by apply H7].
  - destruct H6 as [[k Hk] H6]. split.
    { exists k. by rewrite <- app_assoc, <- Hk, take_drop. }
    destruct H6 as [(op & Hin & Hs)|(b & what & Hl & Hc & He)]; [left|right].
    + exists op. split; [|done]. rewrite <- (take_drop n ops). apply elem_of_app. by right.
    + exists b, what. split; [|done]. rewrite last_cons. by rewrite Hl.
Qed.

End Flush.

(** ** The run *)

Inductive InterpResult :=
| INTERP_OK | INTERP_EXIT | INTERP_EXECUTE_FINISH | INTERP_ENDFILE
| INTERP_FAILED (text : string).     (** any other code, with its error text *)

Definition result_ok (r : InterpResult) : bool :=
  match r with INTERP_OK | INTERP_EXECUTE_FINISH => true | _ => false end.

(** What one turn of the loop gets from the interpreter: the results of [read] and
    [execute], the calls recorded, whether the recording overflowed. *)
Record Line := mkLine {
  read_result : InterpResult;
  execute_result : InterpResult;
  line_events : list Event;
  line_limit : bool;
}.

(** The answers of the environment; the interpreter reports the end of the file
    after its [lines]. *)
Record Env := mkEnv {
  setenv_ok : bool;
  file : option (bool * Z);              (** [stat]: a regular file?, its size *)
  ini : option (option string * option string);
                                         (** the INI: [LINEAR_UNITS], startup code *)
  makes_interp : bool;
  ini_load_ok : bool;
  init_ok : bool;
  concrete : bool;                       (** the [dynamic_cast] succeeds *)
  prefix_capacity : nat;
  init_events : list Event;
  init_limit : bool;
  startup_result : InterpResult;
  startup_events : list Event;
  startup_limit : bool;
  open_ok : bool;
  lines : list Line;
  tail_events : list Event;
  sequence_number : Z;
}.

(** Calls on the interpreter, and the recorded calls taken from the session. *)
Inductive Call :=
| MakeInterp | IniLoad | Init | SetPrefix | Startup | Open | Read | Execute | Close
| Take (events : list Event).

(** The state of a run: the context, the callbacks made, the calls, and the parser
    that survives the run. *)
Record St := mkSt {
  ctx : ParseContext;
  calls : list (@Preview.ParserCall Operation);
  log : list Call;
  opened : bool;
  has_interpreter : bool;
  loaded_ini_path : string;
}.

(** Code that may throw; the state survives the exception. *)
Definition M (A : Type) : Type := St -> St * outcome Exn A.

#[export] Instance M_ret : MRet M := fun A a s => (s, Ok a).
#[export] Instance M_bind : MBind M := fun A B k m s =>
  match m s with (s, Ok a) => k a s | (s, Err e) => (s, Err e) end.

Definition throw {A} (e : Exn) : M A := fun s => (s, Err e).
Definition runtime {A} (what : string) : M A := throw (OtherException what).
Definition modify (f : St -> St) : M unit := fun s => (f s, Ok tt).
Definition unless (b : bool) (m : M unit) : M unit := if b then mret tt else m.
Definition when (b : bool) (m : M unit) : M unit := if b then m else mret tt.
Definition with_state {A} (f : St -> M A) : M A := fun s => f s s.

Definition set_ctx (c : ParseContext) (s : St) : St :=
  mkSt c (calls s) (log s) (opened s) (has_interpreter s) (loaded_ini_path s).
Definition call (k : Call) : M unit :=
  modify (fun s => mkSt (ctx s) (calls s) (log s ++ [k]) (opened s) (has_interpreter s)
                     (loaded_ini_path s)).
Definition callbacks (cs : list Preview.ParserCall) : M unit :=
  modify (fun s => mkSt (ctx s) (calls s ++ cs) (log s) (opened s) (has_interpreter s)
                     (loaded_ini_path s)).
Definition set_opened (b : bool) : M unit :=
  modify (fun s => mkSt (ctx s) (calls s) (log s) b (has_interpreter s) (loaded_ini_path s)).
Definition set_loaded (path : string) : M unit :=
  modify (fun s => mkSt (ctx s) (calls s) (log s) (opened s) (has_interpreter s) path).
Definition set_interpreter (b : bool) : M unit :=
  modify (fun s => mkSt (ctx s) (calls s) (log s) (opened s) b (loaded_ini_path s)).

Definition stop_check : M bool := fun s =>
  let c := ctx s in
  (set_ctx (set_output (operations c) (operationCount c) (checked (token c)) c) s,
   Ok (stop_requested (token c))).

(** ** Reasoning about runs *)

(** [I] survives [m]: when it returns, and whatever it does. *)
Definition keeps {A} (I : St -> Prop) (m : M A) : Prop :=
  forall s s' a, I s -> m s = (s', Ok a) -> I s'.
Definition preserves {A} (I : St -> Prop) (m : M A) : Prop :=
  forall s, I s -> I (m s).1.

Lemma keeps_bind {A B'} I (m : M A) (k : A -> M B') :
  keeps I m -> (forall a, keeps I (k a)) -> keeps I (mbind k m).
Proof.
  intros Hm Hk s s' b Hs. unfold mbind, M_bind. destruct (m s) as [s1 [a|e]] eqn:E; [|done].
  apply Hk. by eapply Hm.
Qed.

Lemma preserves_bind {A B'} I (m : M A) (k : A -> M B') :
  preserves I m -> (forall a, preserves I (k a)) -> preserves I (mbind k m).
Proof.
  intros Hm Hk s Hs. unfold mbind, M_bind. specialize (Hm s Hs).
  destruct (m s) as [s1 [a|e]]; [by apply Hk|done].
Qed.

Lemma keeps_ret {A} I (a : A) : keeps I (mret a).
Proof. by intros s s' a' Hs [= <- <-]. Qed.
Lemma preserves_ret {A} I (a : A) : preserves I (mret a).
Proof. by intros s Hs. Qed.
Lemma keeps_throw {A} I e : keeps I (@throw A e).
Proof. by intros s s' a. Qed.
Lemma preserves_throw {A} I e : preserves I (@throw A e).
Proof. by intros s Hs. Qed.
Lemma keeps_modify I f : (forall s, I s -> I (f s)) -> keeps I (modify f).
Proof. intros H s s' a Hs [= <- _]. auto. Qed.
Lemma preserves_modify I f : (forall s, I s -> I (f s)) -> preserves I (modify f).
Proof. intros H s Hs. cbn. auto. Qed.
Lemma keeps_when I b m : keeps I m -> keeps I (when b m).
Proof. intros H. destruct b; [done|apply keeps_ret]. Qed.
Lemma keeps_unless I b m : keeps I m -> keeps I (unless b m).
Proof. intros H. destruct b; [apply keeps_ret|done]. Qed.
Lemma preserves_when I b m : preserves I m -> preserves I (when b m).
Proof. intros H. destruct b; [done|apply preserves_ret]. Qed.
Lemma preserves_unless I b m : preserves I m -> preserves I (unless b m).
Proof. intros H. destruct b; [apply preserves_ret|done]. Qed.
Lemma keeps_with_state {A} I (f : St -> M A) : (forall s, keeps I (f s)) -> keeps I (with_state f).
Proof. intros H s s' a. apply (H s). Qed.
Lemma preserves_with_state {A} I (f : St -> M A) : (forall s, preserves I (f s)) -> preserves I (with_state f).
Proof. intros H s. apply (H s). Qed.

Ltac run_step :=
  match goal with
  | |- keeps _ (mbind _ _) => apply keeps_bind; [|intros ?]
  | |- preserves _ (mbind _ _) => apply preserves_bind; [|intros ?]
  | |- keeps _ (when _ _) => apply keeps_when
  | |- preserves _ (when _ _) => apply preserves_when
  | |- keeps _ (unless _ _) => apply keeps_unless
  | |- preserves _ (unless _ _) => apply preserves_unless
  | |- keeps _ (mret _) => apply keeps_ret
  | |- preserves _ (mret _) => apply preserves_ret
  | |- keeps _ (throw _) => apply keeps_throw
  | |- preserves _ (throw _) => apply preserves_throw
  | |- keeps _ (runtime _) => apply keeps_throw
  | |- preserves _ (runtime _) => apply preserves_throw
  | |- keeps _ (with_state _) => apply keeps_with_state; intros ?
  | |- preserves _ (with_state _) => apply preserves_with_state; intros ?
  | |- keeps _ (match ?x with _ => _ end) => destruct x
  | |- preserves _ (match ?x with _ => _ end) => destruct x
  | |- keeps _ (let _ := _ in _) => cbv zeta
  | |- preserves _ (let _ := _ in _) => cbv zeta
  end.
Ltac run_steps := repeat run_step.

Section Run.
Context {Lm : LibM} {L : Layout} {B : BatchCallback}.
Variable filepath : string.
Variable o : ParseOptions.
Variable env : Env.

(** [consumeRecordingEvents] on what the session recorded. *)
Definition take_events (events : list Event) : M unit :=
  _ ← call (Take events);
  with_state (fun s =>
    match consumeRecordingEvents events (ctx s) with
    | Ok c => modify (set_ctx c)
    | Err e => throw e
    end).

Definition flushBatch : M unit := fun s =>
  let c := ctx s in
  if negb (has_batch o) || bool_decide (operations c = []) then (s, Ok tt)
  else
    let (batches, r) := flush o (operations c) (token c) in
    let (s, _) := callbacks (Preview.OnBatch <$> batches) s in
    match r with
    | Ok (rest, t) => (set_ctx (set_output rest (operationCount c) t c) s, Ok tt)
    | Err e => (s, Err e)
    end.

Definition flushReadyBatch : M unit := fun s =>
  if negb (has_batch o) || (batch_size o =? 0)%nat
     || (length (operations (ctx s)) <? batch_size o)%nat
  then (s, Ok tt) else flushBatch s.

Definition file_size : Z := match file env with Some (_, size) => size | None => 0 end.

Definition reportProgress (bytes_read : Z) : M unit := fun s =>
  if negb (has_progress o) || (file_size =? 0) then (s, Ok tt)
  else
    let percent := f64_mul (f64_div (f64_of_Z bytes_read) (f64_of_Z file_size)) (f64_of_Z 100) in
    callbacks [Preview.OnProgress
      (Preview.mkParseProgress bytes_read file_size percent (operationCount (ctx s)))] s.

(** ** [load_preview_state] *)
Definition lower_ascii (c : Ascii.ascii) : Ascii.ascii :=
  let n := Ascii.nat_of_ascii c in
  if ((65 <=? n) && (n <=? 90))%nat then Ascii.ascii_of_nat (n + 32) else c.

Fixpoint lower (s : string) : string :=
  match s with
  | EmptyString => EmptyString
  | String c s => String (lower_ascii c) (lower s)
  end.

Definition units_known (units : string) : bool :=
  let n := lower units in
  existsb (String.eqb n) ["mm"; "metric"; "cm"; "inch"; "in"; "imperial"].

(** The startup code; the units only configure the recording session. *)
Definition load_preview_state : M string :=
  match ini env with
  | None => runtime "cannot load active LinuxCNC INI"
  | Some (units, startup) =>
      _ ← match units with
          | Some u => unless (units_known u)
                        (runtime ("unsupported [TRAJ]LINEAR_UNITS: " +:+ u))
          | None => mret tt
          end;
      mret (default EmptyString startup)
  end.

(** ** The loop over the lines *)
Definition progress_interval : Z :=
  let estimated_lines := Z.max (file_size / 25) 100 in
  if 0 <? progress_updates o then Z.max (estimated_lines / progress_updates o) 1
  else u64_wrap (-1).

Definition estimated_bytes (line_count : Z) : Z :=
  Z.min (u64_wrap (file_size * line_count) / Z.max (u64_wrap (line_count + 100)) 1) file_size.

(** The turns of the loop; the result is the interpreter's last. *)
Fixpoint line_loop (lines : list Line) (line_count : Z) (result : InterpResult) : M InterpResult :=
  match lines with
  | [] =>
      if negb (result_ok result) then mret result
      else
        stop ← stop_check;
        if stop : bool then mret result
        else
          _ ← call Read;
          _ ← stop_check;
          mret INTERP_ENDFILE
  | l :: lines =>
      if negb (result_ok result) then mret result
      else
        stop ← stop_check;
        if stop : bool then mret result
        else
          _ ← call Read;
          let result := read_result l in
          stop ← stop_check;
          if stop : bool then mret result
          else if negb (result_ok result) then mret result
          else
            _ ← call Execute;
            let result := execute_result l in
            let line_count := u64_wrap (line_count + 1) in
            _ ← take_events (line_events l);
            _ ← when (line_limit l) (runtime "G-code preview resource limit exceeded");
            stop ← stop_check;
            _ ← unless stop flushReadyBatch;
            stop ← stop_check;
            if stop : bool then mret result
            else
              _ ← when (has_progress o && (line_count mod progress_interval =? 0))
                    (reportProgress (estimated_bytes line_count));
              line_loop lines line_count result
  end.

Definition failed_text (r : InterpResult) : option string :=
  match r with INTERP_FAILED text => Some text | _ => None end.

Definition error_line : option Z :=
  if 0 <? sequence_number env then Some (sequence_number env) else None.

(** The last batch, unless the consumer is gone. *)
Definition parse_end : M unit :=
  stop ← stop_check;
  _ ← unless stop (_ ← take_events (tail_events env); flushBatch);
  when (has_progress o) (reportProgress file_size).

Definition open_program : M unit := _ ← call Open; set_opened true.
Definition close_program : M unit := _ ← call Close; set_opened false.

(** The body of the [try] block. *)
Definition parse_body (startup_code : string) : M unit :=
  _ ← with_state (fun s => unless (has_interpreter s)
         (_ ← call MakeInterp; set_interpreter (makes_interp env)));
  _ ← with_state (fun s =>
        unless (has_interpreter s) (runtime "failed to create rs274 interpreter"));
  _ ← with_state (fun s => unless (String.eqb (loaded_ini_path s) (ini_path o))
         (_ ← call IniLoad;
          _ ← unless (ini_load_ok env) (runtime ("failed to load INI file: " +:+ ini_path o));
          set_loaded (ini_path o)));
  _ ← call Init;
  _ ← unless (init_ok env) (runtime "failed to initialize rs274 interpreter");
  _ ← unless (String.eqb (program_prefix o) EmptyString)
        (_ ← unless (concrete env)
               (runtime "rs274 interpreter does not expose its program prefix");
         _ ← when (prefix_capacity env <=? String.length (program_prefix o))%nat
               (runtime "G-code program prefix is too long");
         call SetPrefix);
  _ ← take_events (init_events env);
  _ ← when (init_limit env) (runtime "G-code preview resource limit exceeded");
  _ ← unless (String.eqb startup_code EmptyString)
        (_ ← call Startup;
         _ ← take_events (startup_events env);
         _ ← when (startup_limit env) (runtime "G-code preview resource limit exceeded");
         unless (result_ok (startup_result env))
           (runtime ("invalid RS274NGC_STARTUP_CODE: "
                     +:+ default EmptyString (failed_text (startup_result env)))));
  _ ← unless (open_ok env)
        (throw (ParseError Preview.InvalidEntry ("failed to open G-code file: " +:+ filepath) None));
  _ ← open_program;
  result ← line_loop (lines env) 0 INTERP_OK;
  stop ← stop_check;
  _ ← match stop, failed_text result with
      | false, Some text =>
          throw (ParseError Preview.Interpreter ("G-code parse error: " +:+ text) error_line)
      | _, _ => mret tt
      end;
  _ ← close_program;
  parse_end.

(** The handlers around it: an open program is closed, and a [domain_error] becomes
    an interpreter error. *)
Definition with_cleanup (m : M unit) : M unit := fun s =>
  match m s with
  | (s, Ok tt) => (s, Ok tt)
  | (s, Err e) =>
      let (s, _) := when (opened s) (call Close) s in
      match e with
      | DomainError what => (s, Err (ParseError Preview.Interpreter what error_line))
      | e => (s, Err e)
      end
  end.

Record ParseResult := mkResult {
  result_extents : Extents;
  result_count : Z;
  cancelled : bool;
}.

Definition zero_extents : Extents :=
  let z := mkPosition3 f64_zero f64_zero f64_zero in mkExtents z z.

Definition parse_file : M ParseResult :=
  _ ← when (String.eqb (ini_path o) EmptyString)
        (throw (OtherException "G-code parser requires a LinuxCNC INI path"));
  _ ← unless (setenv_ok env) (runtime "failed to set LinuxCNC INI_FILE_NAME");
  _ ← match file env with
      | None => throw (ParseError Preview.InvalidEntry ("G-code file not found: " +:+ filepath) None)
      | Some (false, _) =>
          throw (ParseError Preview.InvalidEntry ("G-code path is not a regular file: " +:+ filepath) None)
      | Some (true, _) => mret tt
      end;
  startup_code ← load_preview_state;
  _ ← with_cleanup (parse_body startup_code);
  stop ← stop_check;
  with_state (fun s =>
    let c := ctx s in
    mret (mkResult (if isValid (extents c) then extents c else zero_extents)
            (operationCount c) stop)).

(** A run: the parser as the last run left it, and a fresh context. *)
Definition start (interp : bool) (path : string) (t : list bool) : St :=
  mkSt (fresh t) [] [] false interp path.

(** ** The stream of operations *)
Definition taken (l : list Call) : list Event :=
  concat ((fun k => match k with Take events => events | _ => [] end) <$> l).

#[local] Arguments taken _ : simpl never.
#[local] Arguments Preview.parsed {_} _ : simpl never.

(** Unless a stop is pending, the callbacks and the context hold exactly the
    operations of the calls taken so far. *)
Definition Streaming (s : St) : Prop :=
  stop_requested (token (ctx s)) = false ->
  exists r, translate (taken (log s)) = Ok r /\ streams (Preview.parsed (calls s)) (ctx s) r.

Lemma taken_app a b : taken (a ++ b) = taken a ++ taken b.
Proof. unfold taken. by rewrite fmap_app, concat_app. Qed.

Lemma parsed_app (a b : list (@Preview.ParserCall Operation)) :
  Preview.parsed (a ++ b) = Preview.parsed a ++ Preview.parsed b.
Proof. unfold Preview.parsed. by rewrite fmap_app, concat_app. Qed.

Lemma parsed_batches (bs : list (list Operation)) : Preview.parsed (Preview.OnBatch <$> bs) = concat bs.
Proof. unfold Preview.parsed. rewrite <- list_fmap_compose. f_equal. apply list_fmap_id. Qed.

Lemma streaming_call k : (forall events, k <> Take events) -> keeps Streaming (call k).
Proof.
  intros Hk. apply keeps_modify. intros s Hs Hstop. cbn in *. rewrite taken_app.
  destruct k; try (by rewrite app_nil_r; apply Hs). by destruct (Hk events).
Qed.

Lemma streaming_take events : keeps Streaming (take_events events).
Proof.
  intros s s' a Hs. unfold take_events, with_state, mbind, M_bind. cbn.
  destruct (consumeRecordingEvents events (ctx s)) as [c|e] eqn:E; [|done]. intros [= <- _] Hstop. cbn in *.
  destruct (Hs (events_stop_kept _ _ _ E Hstop)) as (r & Hr & Hst).
  destruct (events_streams _ events _ r c Hst E Hstop) as (r' & Hr' & Hst').
  exists r'. split; [|done]. rewrite taken_app. unfold taken at 2. cbn [fmap list_fmap concat].
  rewrite app_nil_r. unfold translate in *.
  rewrite consumeRecordingEvents_app, Hr. done.
Qed.

Lemma streaming_stop_check : keeps Streaming stop_check.
Proof.
  intros s s' a Hs [= <- _] Hstop. cbn in *.
  destruct (Hs ltac:(by destruct (token (ctx s)) as [|[] ?])) as (r & Hr & [H1 H2 H3 H4]).
  exists r. split; [done|]. by split.
Qed.

Lemma streaming_progress n : keeps Streaming (reportProgress n).
Proof.
  intros s s' a Hs. unfold reportProgress. case_match; [by intros [= <- _]|].
  intros [= <- _] Hstop. cbn in *. destruct (Hs Hstop) as (r & Hr & Hst). exists r. split; [done|].
  rewrite parsed_app. unfold Preview.parsed at 2. cbn [fmap list_fmap concat]. by rewrite app_nil_r.
Qed.

Lemma streaming_flush : keeps Streaming flushBatch.
Proof.
  intros s s' a Hs. unfold flushBatch. cbn zeta.
  destruct (negb (has_batch o) || bool_decide (operations (ctx s) = [])) eqn:E0; [by intros [= <- _]|].
  destruct (flush o (operations (ctx s)) (token (ctx s))) as [batches [[rest t]|e]] eqn:E; [|done].
  intros [= <- _] Hstop. cbn in *. unfold flush in E. apply orb_false_iff in E0 as [_ E0%bool_decide_eq_false].
  apply flush_loop_spec in E as [_ (E1 & E2 & _)]; [| |done].
  2:{ destruct (operations (ctx s)); [done|]. case_match; bool_to_prop; cbn; lia. }
  destruct (E2 Hstop) as [Hst0 ->]. destruct (Hs Hst0) as (r & Hr & [H1 H2 H3 H4]).
  exists r. split; [done|]. split; cbn; try done.
  rewrite parsed_app, parsed_batches, <- app_assoc, E1. done.
Qed.

Lemma streaming_ready : keeps Streaming flushReadyBatch.
Proof.
  intros s s' a Hs. unfold flushReadyBatch. case_match; [by intros [= <- _]|]. by apply streaming_flush.
Qed.

Ltac streaming := run_steps; first
  [ apply streaming_take | apply streaming_stop_check | apply streaming_progress | apply streaming_flush
  | apply streaming_ready | by apply streaming_call | by apply keeps_modify | idtac ].

Lemma streaming_lines ls n result : keeps Streaming (line_loop ls n result).
Proof.
  revert n result. induction ls as [|l ls IH]; intros n result; cbn [line_loop]; streaming; apply IH.
Qed.

Lemma streaming_body startup : keeps Streaming (parse_body startup).
Proof. unfold parse_body, open_program, close_program, parse_end. streaming; apply streaming_lines. Qed.

Lemma streaming_cleanup m : keeps Streaming m -> keeps Streaming (with_cleanup m).
Proof.
  intros Hm s s' a Hs. unfold with_cleanup. destruct (m s) as [s1 [[]|e]] eqn:E.
  - intros [= <- _]. by apply (Hm s s1 tt).
  - destruct (when (opened s1) (call Close) s1) as [s2 r]. by destruct e.
Qed.

Lemma streaming_start interp path t : Streaming (start interp path t).
Proof. intros _. exists (fresh []). split; [done|]. by split. Qed.

(** At the end of the body nothing is left to flush. *)
Definition Flushed (s : St) : Prop :=
  stop_requested (token (ctx s)) = false -> has_batch o = true -> operations (ctx s) = [].

Lemma flush_flushed s s' a : flushBatch s = (s', Ok a) -> Flushed s'.
Proof.
  unfold flushBatch. cbn zeta. destruct (negb (has_batch o)) eqn:Eb; cbn [orb].
  { intros [= <- _] _ Hb. by rewrite Hb in Eb. }
  case_bool_decide as E0; [by intros [= <- _] _ _|].
  destruct (flush o (operations (ctx s)) (token (ctx s))) as [batches [[rest t]|e]] eqn:E; [|done].
  intros [= <- _] Hstop _. cbn in *. unfold flush in E.
  apply flush_loop_spec in E as [_ (_ & E2 & _)]; [by apply E2| |done].
  destruct (operations (ctx s)); [done|]. case_match; bool_to_prop; cbn; lia.
Qed.

Lemma progress_keeps_ctx n s : ctx (reportProgress n s).1 = ctx s.
Proof. unfold reportProgress. by destruct (negb (has_progress o) || (file_size =? 0)). Qed.

(** Inversion of a run that returns. *)
Lemma bind_ok {A B'} (m : M A) (k : A -> M B') s s' b :
  mbind k m s = (s', Ok b) -> exists s1 a, m s = (s1, Ok a) /\ k a s1 = (s', Ok b).
Proof. unfold mbind, M_bind. destruct (m s) as [s1 [a|e]]; [eauto|done]. Qed.

Lemma end_flushed s s' u : parse_end s = (s', Ok u) -> Flushed s'.
Proof.
  unfold parse_end. intros (s1 & stop & H1 & (s2 & [] & H2 & H3)%bind_ok)%bind_ok.
  assert (E : ctx s' = ctx s2).
  { destruct (has_progress o); cbn in H3; [|by injection H3 as <- _].
    rewrite <- (progress_keeps_ctx file_size s2). by rewrite H3. }
  unfold Flushed. rewrite E. fold (Flushed s2). injection H1 as <- <-.
  destruct (stop_requested (token (ctx s))) eqn:Es; cbn in H2.
  - injection H2 as <-. unfold Flushed. cbn. by destruct (token (ctx s)) as [|[] ?].
  - apply bind_ok in H2 as (s3 & [] & _ & H2). by apply flush_flushed in H2.
Qed.

Lemma body_ends startup s s' u :
  parse_body startup s = (s', Ok u) -> exists s1 u1, parse_end s1 = (s', Ok u1).
Proof.
  unfold parse_body. intros H.
  repeat match type of H with
  | mbind _ _ _ = _ => apply bind_ok in H as (? & ? & _ & H); cbv beta in H
  end. eauto.
Qed.

Lemma cleanup_ok m s s' u : with_cleanup m s = (s', Ok u) -> m s = (s', Ok u).
Proof.
  unfold with_cleanup. destruct (m s) as [s1 [[]|e]], u; [done|].
  destruct (when (opened s1) (call Close) s1). by destruct e.
Qed.

Lemma streaming_state : keeps Streaming load_preview_state.
Proof. unfold load_preview_state. streaming. Qed.

Lemma parse_file_ok s s' res :
  parse_file s = (s', Ok res) -> Streaming s ->
  result_count res = operationCount (ctx s')
  /\ result_extents res = (if isValid (extents (ctx s')) then extents (ctx s') else zero_extents)
  /\ (cancelled res = false -> has_batch o = true ->
      exists r, translate (taken (log s')) = Ok r /\ streams (Preview.parsed (calls s')) (ctx s') r
        /\ operations (ctx s') = []).
Proof.
  unfold parse_file. intros H Hs.
  apply bind_ok in H as (s1 & ? & H1 & H). apply bind_ok in H as (s2 & ? & H2 & H).
  apply bind_ok in H as (s3 & ? & H3 & H). apply bind_ok in H as (s4 & code & H4 & H).
  apply bind_ok in H as (s5 & u & H5%cleanup_ok & H). apply bind_ok in H as (s6 & stop & H6 & H).
  injection H as <- <-. cbn. split_and!; [done..|]. intros -> Hb. injection H6 as <- Hstop.
  assert (Hs1 : Streaming s1) by (by eapply keeps_when; [apply keeps_throw|apply Hs|]).
  assert (Hs2 : Streaming s2) by (by eapply keeps_unless; [apply keeps_throw|apply Hs1|]).
  assert (Hs3 : Streaming s3) by (destruct (file env) as [[[] ?]|]; [by injection H3 as <- _|discriminate..]).
  assert (Hs4 : Streaming s4) by (by eapply streaming_state).
  destruct (streaming_body _ _ _ _ Hs4 H5 Hstop) as (r & Hr & [E1 E2 E3 E4]).
  destruct (body_ends _ _ _ _ H5) as (s7 & u7 & Hend%end_flushed).
  exists r. split_and!; [done|by split|by apply Hend].
Qed.

(** ** Calls on the interpreter *)

(** The discipline of the interpreter: programs are read and executed between an
    open and a close, and configured outside; [None] is a violation. *)
Definition trace_step (st : option bool) (k : Call) : option bool :=
  match st, k with
  | Some b, Take _ => Some b
  | Some true, (Read | Execute) => Some true
  | Some true, Close => Some false
  | Some false, Open => Some true
  | Some false, (MakeInterp | IniLoad | Init | SetPrefix | Startup) => Some false
  | _, _ => None
  end.

Definition trace (l : list Call) : option bool := foldl trace_step (Some false) l.

Definition Tracked (b : bool) (s : St) : Prop := trace (log s) = Some b /\ opened s = b.
Definition Traced (s : St) : Prop := Tracked true s \/ Tracked false s.

(** From [P], [m] ends in [Q], or throws in a state whose calls are in order. *)
Definition hoare {A} (P : St -> Prop) (m : M A) (Q : St -> Prop) : Prop :=
  forall s, P s -> match m s with (s', Ok _) => Q s' | (s', Err _) => Traced s' end.

Lemma hoare_bind {A B'} P R Q (m : M A) (k : A -> M B') :
  hoare P m R -> (forall a, hoare R (k a) Q) -> hoare P (mbind k m) Q.
Proof.
  intros Hm Hk s Hs. specialize (Hm s Hs). unfold mbind, M_bind.
  destruct (m s) as [s1 [a|e]]; [by apply Hk|done].
Qed.

Lemma hoare_preserves {A} b (m : M A) : preserves (Tracked b) m -> hoare (Tracked b) m (Tracked b).
Proof.
  intros Hm s Hs. specialize (Hm s Hs). destruct (m s) as [s1 [a|e]]; [done|]. unfold Traced. destruct b; auto.
Qed.

Lemma tracked_call b k : trace_step (Some b) k = Some b -> preserves (Tracked b) (call k).
Proof.
  intros Hk. apply preserves_modify. intros s [H1 H2]. split; [|done]. cbn. unfold trace in *.
  by rewrite foldl_app, H1.
Qed.

Lemma tracked_take b events : preserves (Tracked b) (take_events events).
Proof.
  unfold take_events. run_steps; [apply tracked_call; by destruct b|by apply preserves_modify].
Qed.

Lemma tracked_progress b n : preserves (Tracked b) (reportProgress n).
Proof. intros s Hs. unfold reportProgress. by destruct (negb (has_progress o) || (file_size =? 0)). Qed.

Lemma tracked_flush b : preserves (Tracked b) flushBatch.
Proof.
  intros s Hs. unfold flushBatch. cbn zeta. case_match; [done|].
  by destruct (flush o (operations (ctx s)) (token (ctx s))) as [batches [[rest t]|e]].
Qed.

Lemma tracked_ready b : preserves (Tracked b) flushReadyBatch.
Proof. intros s Hs. unfold flushReadyBatch. case_match; [done|by apply tracked_flush]. Qed.

Lemma tracked_stop b : preserves (Tracked b) stop_check.
Proof. by intros s Hs. Qed.

Ltac tracked := run_steps; first
  [ apply tracked_take | apply tracked_stop | apply tracked_progress | apply tracked_flush
  | apply tracked_ready | by apply tracked_call | by apply preserves_modify | idtac ].

Lemma tracked_lines ls n result : preserves (Tracked true) (line_loop ls n result).
Proof.
  revert n result. induction ls as [|l ls IH]; intros n result; cbn [line_loop]; tracked; apply IH.
Qed.

Lemma tracked_end : preserves (Tracked false) parse_end.
Proof. unfold parse_end. tracked. Qed.

Lemma open_tracked : hoare (Tracked false) open_program (Tracked true).
Proof.
  intros s [H1 H2]. cbn. split; [|done]. cbn. unfold trace in *. by rewrite foldl_app, H1.
Qed.

Lemma close_tracked : hoare (Tracked true) close_program (Tracked false).
Proof.
  intros s [H1 H2]. cbn. split; [|done]. cbn. unfold trace in *. by rewrite foldl_app, H1.
Qed.

Lemma body_tracked startup : hoare (Tracked false) (parse_body startup) (Tracked false).
Proof.
  unfold parse_body.
  repeat first
    [ apply (hoare_bind _ (Tracked false)); [solve [apply hoare_preserves; tracked]|intros ?]
    | apply (hoare_bind _ (Tracked true)); [apply open_tracked|intros ?] ].
  apply (hoare_bind _ (Tracked true)); [apply hoare_preserves, tracked_lines|intros ?].
  apply (hoare_bind _ (Tracked true)); [apply hoare_preserves; tracked|intros ?].
  apply (hoare_bind _ (Tracked true)); [apply hoare_preserves; tracked|intros ?].
  apply (hoare_bind _ (Tracked false)); [apply close_tracked|intros ?].
  apply hoare_preserves, tracked_end.
Qed.

(** Every run leaves the interpreter closed. *)
Definition Quiet (s : St) : Prop := trace (log s) = Some false.
Definition closes {A} (m : M A) : Prop := forall s, Tracked false s -> Quiet (m s).1.

Lemma closes_bind {A B'} (m : M A) (k : A -> M B') :
  preserves (Tracked false) m -> (forall a, closes (k a)) -> closes (mbind k m).
Proof.
  intros Hm Hk s Hs. specialize (Hm s Hs). unfold mbind, M_bind.
  destruct (m s) as [s1 [a|e]]; [by apply Hk|by apply Hm].
Qed.

Lemma closes_then {A B'} (m : M A) (k : A -> M B') :
  closes m -> (forall a, preserves Quiet (k a)) -> closes (mbind k m).
Proof.
  intros Hm Hk s Hs. specialize (Hm s Hs). unfold mbind, M_bind.
  destruct (m s) as [s1 [a|e]]; [by apply Hk|done].
Qed.

Lemma cleanup_closes startup : closes (with_cleanup (parse_body startup)).
Proof.
  intros s Hs. pose proof (body_tracked startup s Hs) as H. unfold with_cleanup.
  destruct (parse_body startup s) as [s1 [[]|e]]; [apply H|].
  assert (Hq : Quiet (when (opened s1) (call Close) s1).1).
  { destruct H as [[H1 H2]|[H1 H2]]; rewrite H2; [|done]. unfold Quiet, trace in *. cbn.
    by rewrite foldl_app, H1. }
  destruct (when (opened s1) (call Close) s1) as [s2 r]. by destruct e.
Qed.

(** The interpreter is used in order and left closed: in every run, whatever it
    and the callbacks answer, programs are read and executed only between an open
    and a close and the interpreter is only configured outside, and when
    [parse_file] returns or throws, an opened program has been closed exactly once. *)
Theorem interpreter_closed interp path t :
  trace (log (parse_file (start interp path t)).1) = Some false.
Proof.
  enough (closes parse_file) as Hc by (by apply Hc). unfold parse_file.
  do 3 (apply closes_bind; [tracked|intros ?]).
  apply closes_bind; [unfold load_preview_state; tracked|intros ?].
  apply closes_then; [apply cleanup_closes|intros ?]. run_steps. by intros s.
Qed.


(** ** Limits of the batches, and progress *)
Definition batch_ok (k : @Preview.ParserCall Operation) : Prop :=
  match k with
  | Preview.OnBatch b => b <> [] /\ (batch_size o <> 0%nat -> (length b <= batch_size o)%nat)
                         /\ bytes_of b <= max_batch_bytes
  | Preview.OnProgress p => Preview.totalBytes p = file_size
  end.

Definition Bounded (s : St) : Prop := Forall batch_ok (calls s).

Lemma bounded_flush : preserves Bounded flushBatch.
Proof.
  intros s Hs. unfold flushBatch. cbn zeta.
  destruct (negb (has_batch o) || bool_decide (operations (ctx s) = [])) eqn:E0; [done|].
  apply orb_false_iff in E0 as [_ E0%bool_decide_eq_false].
  destruct (flush o (operations (ctx s)) (token (ctx s))) as [batches r] eqn:E. unfold flush in E.
  apply flush_loop_spec in E as [E _]; [| |done].
  2:{ destruct (operations (ctx s)); [done|]. case_match; bool_to_prop; cbn; lia. }
  assert (Hb : Forall batch_ok (calls s ++ (Preview.OnBatch <$> batches))).
  { apply Forall_app_2; [done|]. apply Forall_fmap. eapply Forall_impl; [exact E|].
    intros b (H1 & H2 & H3). split_and!; [done| |done]. intros Hn%Nat.eqb_neq. by rewrite Hn in H2. }
  by destruct r as [[rest t]|e].
Qed.

Lemma bounded_progress n : preserves Bounded (reportProgress n).
Proof.
  intros s Hs. unfold reportProgress. destruct (negb (has_progress o) || (file_size =? 0)); [done|].
  apply Forall_app_2; [done|]. by constructor.
Qed.

Lemma bounded_ready : preserves Bounded flushReadyBatch.
Proof. intros s Hs. unfold flushReadyBatch. case_match; [done|by apply bounded_flush]. Qed.

Ltac bounded := run_steps; first
  [ apply bounded_progress | apply bounded_flush | apply bounded_ready | by apply preserves_modify
  | by intros s | idtac ].

Lemma bounded_lines ls n result : preserves Bounded (line_loop ls n result).
Proof.
  revert n result. induction ls as [|l ls IH]; intros n result; cbn [line_loop];
    unfold take_events; bounded; apply IH.
Qed.

Lemma bounded_body startup : preserves Bounded (parse_body startup).
Proof.
  unfold parse_body, open_program, close_program, parse_end, take_events. bounded; apply bounded_lines.
Qed.

(** Batches respect the limits in every run, also one that is stopped or throws:
    none is empty, none exceeds the configured number of operations or four
    megabytes. *)
Theorem batches_bounded interp path t : Bounded (parse_file (start interp path t)).1.
Proof.
  enough (preserves Bounded parse_file) as H by (apply H; constructor). unfold parse_file, load_preview_state.
  bounded. intros s Hs. pose proof (bounded_body a2 s Hs) as Hb. unfold with_cleanup.
  destruct (parse_body a2 s) as [s1 [[]|e]]; [done|].
  assert (Hw : Bounded (when (opened s1) (call Close) s1).1) by by destruct (opened s1).
  destruct (when (opened s1) (call Close) s1) as [s2 r]. by destruct e.
Qed.

(** The positions reported so far. *)
Definition reported (cs : list (@Preview.ParserCall Operation)) : list Z :=
  concat ((fun k => match k with
                    | Preview.OnProgress p => [Preview.bytesRead p]
                    | Preview.OnBatch _ => []
                    end) <$> cs).

#[local] Arguments reported _ : simpl never.

Lemma reported_app a b : reported (a ++ b) = reported a ++ reported b.
Proof. unfold reported. by rewrite fmap_app, concat_app. Qed.

Lemma reported_batches bs : reported (Preview.OnBatch <$> bs) = [].
Proof. unfold reported. by induction bs. Qed.

(** They rise, up to [b]. *)
Definition Rising (b : Z) (s : St) : Prop :=
  StronglySorted Z.le (reported (calls s)) /\ Forall (fun v => v <= b) (reported (calls s)).

Lemma rising_le b b' s : b <= b' -> Rising b s -> Rising b' s.
Proof. intros Hb [H1 H2]. split; [done|]. eapply Forall_impl; [exact H2|]. cbn. lia. Qed.

Lemma rising_progress b n s : b <= n -> Rising b s -> Rising n (reportProgress n s).1.
Proof.
  intros Hb Hs. unfold reportProgress. destruct (negb (has_progress o) || (file_size =? 0)).
  { by apply (rising_le b). }
  destruct Hs as [H1 H2]. unfold Rising. cbn [callbacks modify fst calls]. rewrite reported_app.
  unfold reported at 2 4. cbn [fmap list_fmap concat app Preview.bytesRead].
  assert (H3 : Forall (fun v => v <= n) (reported (calls s))).
  { eapply Forall_impl; [exact H2|]. cbn. lia. }
  split; [by apply StronglySorted_snoc|]. apply Forall_app_2; [done|]. by constructor.
Qed.

Lemma rising_same b {A} (m : M A) :
  (forall s, reported (calls (m s).1) = reported (calls s)) -> preserves (Rising b) m.
Proof. intros Hm s Hs. unfold Rising. by rewrite Hm. Qed.

Lemma reported_flush s : reported (calls (flushBatch s).1) = reported (calls s).
Proof.
  unfold flushBatch. cbn zeta. case_match; [done|].
  destruct (flush o (operations (ctx s)) (token (ctx s))) as [batches [[rest t]|e]]; cbn;
    by rewrite reported_app, reported_batches, app_nil_r.
Qed.

Lemma reported_ready s : reported (calls (flushReadyBatch s).1) = reported (calls s).
Proof. unfold flushReadyBatch. case_match; [done|apply reported_flush]. Qed.

Ltac rising := run_steps; first
  [ by apply preserves_modify | by intros s | apply rising_same, reported_ready
  | apply rising_same, reported_flush | idtac ].

Lemma estimated_rises n :
  0 <= file_size -> 0 <= n -> file_size * (n + 1) < 2 ^ 64 -> n + 101 < 2 ^ 64 ->
  estimated_bytes n <= estimated_bytes (n + 1).
Proof.
  intros Hs Hn Hb Hc. unfold estimated_bytes. rewrite !u64_wrap_small by (unfold in_u64; nia).
  rewrite !Z.max_l by lia. apply Z.min_le_compat_r.
  apply Z.div_le_lower_bound; [lia|]. transitivity ((file_size * n) * (n + 1 + 100) / (n + 100)).
  - rewrite (Z.mul_comm (file_size * n)). by apply Z.div_mul_le; nia.
  - apply Z.div_le_upper_bound; [lia|]. nia.
Qed.

Lemma estimated_bound n : estimated_bytes n <= file_size.
Proof. unfold estimated_bytes. lia. Qed.

(** From reports up to [b], [m] reports up to the size of the file. *)
Definition rises {A} (b : Z) (m : M A) : Prop := forall s, Rising b s -> Rising file_size (m s).1.

Lemma rises_bind {A B'} b (m : M A) (k : A -> M B') :
  b <= file_size -> preserves (Rising b) m -> (forall a, rises b (k a)) -> rises b (mbind k m).
Proof.
  intros Hb Hm Hk s Hs. specialize (Hm s Hs). unfold mbind, M_bind.
  destruct (m s) as [s1 [a|e]]; [by apply Hk|by apply (rising_le b)].
Qed.

Lemma rises_ret {A} b (a : A) : b <= file_size -> rises b (mret a).
Proof. intros Hb s. by apply rising_le. Qed.

Lemma rising_lines ls n result :
  0 <= file_size -> 0 <= n -> file_size * (n + Z.of_nat (length ls)) < 2 ^ 64 ->
  n + Z.of_nat (length ls) + 100 < 2 ^ 64 ->
  rises (estimated_bytes n) (line_loop ls n result).
Proof.
  intros Hs. revert n result. induction ls as [|l ls IH]; intros n result Hn Hb Hc; cbn [line_loop];
    pose proof (estimated_bound n) as He.
  - repeat match goal with
    | |- rises _ (match ?x with _ => _ end) => destruct x
    | |- rises _ (mret _) => by apply rises_ret
    | |- rises _ (mbind _ _) => apply rises_bind; [done|solve [rising]|intros ?]
    end.
  - cbn [length] in Hb, Hc. rewrite !u64_wrap_small by (unfold in_u64; lia).
    repeat match goal with
    | |- rises _ (match ?x with _ => _ end) => destruct x
    | |- rises _ (mret _) => by apply rises_ret
    | |- rises _ (let _ := _ in _) => cbv zeta
    | |- rises _ (mbind _ _) => apply rises_bind; [done|solve [unfold take_events; rising]|intros ?]
    end.
    pose proof (estimated_rises n Hs Hn ltac:(nia) ltac:(lia)) as Hr. intros s Hrs. unfold mbind, M_bind.
    assert (Hw : Rising (estimated_bytes (n + 1)) (when (has_progress o && ((n + 1) mod progress_interval =? 0))
      (reportProgress (estimated_bytes (n + 1))) s).1).
    { unfold when. case_match; [by apply (rising_progress (estimated_bytes n))|]. cbn. by apply (rising_le _ _ _ Hr). }
    destruct (when _ _ s) as [s1 [u|e]]; [apply IH; try done; nia|].
    apply (rising_le (estimated_bytes (n + 1))); [apply estimated_bound|done].
Qed.

Lemma rises_then {A B'} b (m : M A) (k : A -> M B') :
  rises b m -> (forall a, preserves (Rising file_size) (k a)) -> rises b (mbind k m).
Proof.
  intros Hm Hk s Hs. specialize (Hm s Hs). unfold mbind, M_bind.
  destruct (m s) as [s1 [a|e]]; [by apply Hk|done].
Qed.

Lemma rising_end : preserves (Rising file_size) parse_end.
Proof.
  unfold parse_end, take_events. rising. intros s. by apply rising_progress.
Qed.

Section Sized.
Hypothesis Hsize : 0 <= file_size.
Hypothesis Hlines : file_size * Z.of_nat (length (lines env)) < 2 ^ 64.
Hypothesis Hcount : Z.of_nat (length (lines env)) + 100 < 2 ^ 64.

Lemma rising_body startup : rises (estimated_bytes 0) (parse_body startup).
Proof.
  unfold parse_body, open_program, close_program.
  repeat match goal with
  | |- rises _ (mbind _ (line_loop _ _ _)) => fail 1
  | |- rises _ (mbind _ _) => apply rises_bind; [apply estimated_bound|solve [unfold take_events; rising]|intros ?]
  end.
  apply rises_then; [by apply rising_lines|intros ?]. rising. apply rising_end.
Qed.

Lemma rising_file : rises (estimated_bytes 0) parse_file.
Proof.
  unfold parse_file, load_preview_state.
  do 4 (apply rises_bind; [apply estimated_bound|by rising|intros ?]).
  apply rises_then; [|intros ?; by rising]. intros s Hs. pose proof (rising_body a2 s Hs) as Hb.
  unfold with_cleanup. destruct (parse_body a2 s) as [s1 [[]|e]]; [done|].
  assert (Hw : Rising file_size (when (opened s1) (call Close) s1).1) by by destruct (opened s1).
  destruct (when (opened s1) (call Close) s1) as [s2 r]. by destruct e.
Qed.

(** Progress never goes backwards: in every run, the positions reported to the
    client rise and stay within the size of the file, as long as the size times
    the number of lines fits 64 bits. *)
Theorem progress_rises interp path t :
  let s := (parse_file (start interp path t)).1 in
  StronglySorted Z.le (reported (calls s)) /\ Forall (fun v => v <= file_size) (reported (calls s)).
Proof. apply rising_file. split; constructor. Qed.

End Sized.

End Run.

(** ** A sample run: inch units, two moves and a dwell, batches of two. *)
#[local] Instance sample_libm : LibM := {|
  fmod := fun a _ => a;
  hypot := fun a b => f64_sqrt (f64_add (f64_mul a a) (f64_mul b b));
  atan2 := fun a _ => a;
  cos := fun a => a;
  sin := fun a => a;
|}.
#[local] Instance sample_layout : Layout := {| sizeof_type := fun _ => 120; sizeof_g5 := 24; sizeof_g6 := 32 |}.
#[local] Instance sample_callback : BatchCallback := fun _ => None.

Definition sample_pose (x y : Z) : EmcPose :=
  let z := f64_zero in mkPose (f64_of_Z x) (f64_of_Z y) z z z z z z z.

Definition sample_options : ParseOptions := mkOptions "machine.ini" "" 2 40 true true.

Definition sample_env : Env :=
  mkEnv true (Some (true, 1000)) (Some (Some "Inch"%string, None)) true true true true 4096
    [LengthUnits CANON_UNITS_INCHES] false INTERP_OK [] false true
    [mkLine INTERP_OK INTERP_OK [StraightTraverse 1 (sample_pose 1 2)] false;
     mkLine INTERP_OK INTERP_EXECUTE_FINISH [Dwell f64_one; StraightFeed 2 (sample_pose 3 4)] false;
     mkLine INTERP_OK INTERP_EXIT [] false] [] 2.

Definition sample_run : St * outcome Exn ParseResult :=
  parse_file "part.ngc" sample_options sample_env (start false "" [false; false]).

Definition sample_result : ParseResult :=
  match sample_run.2 with Ok r => r | Err _ => mkResult zero_extents 0 true end.


Lemma progress_rises_witness :
  Forall (fun v => v <= 1000) (reported (calls sample_run.1)) /\ length (reported (calls sample_run.1)) = 2%nat.
Proof.
  split; [|vm_compute; reflexivity].
  apply (progress_rises "part.ngc" sample_options sample_env ltac:(vm_compute; discriminate)
    ltac:(vm_compute; reflexivity) ltac:(vm_compute; reflexivity) false "" [false; false]).
Defined.

End Parser.

(** * The protobuf form of an operation *)
Module Mapping.
Import Canon.

(** [linuxcnc.v1.GCodeOperation]: enumerations are numbers, a position is the list
    of its values. *)
Inductive Data :=
| NoData
| DArc (plane : Z) (center_first center_second rotation axis_end_point : f64)
| DProbe
| DRigidTap (pos : list f64) (scale : f64)
| DDwell (duration : f64) (plane : Z)
| DNurbsG5 (plane order : Z) (control_points : list (f64 * f64 * f64))
| DNurbsG6 (plane order interpolation_method : Z) (control_points : list (f64 * f64 * f64 * f64))
| DUnitsChange (units : Z)
| DPlaneChange (plane : Z)
| DG5xOffset (origin : Z) (offset : list f64)
| DG92Offset (offset : list f64)
| DXyRotation (rotation : f64)
| DToolOffset (offset : list f64)
| DToolChange (tool_number : Z)
| DFeedRateChange (feed_rate : f64)
| DCutterCompensationChange (mode : Z).

Record GCodeOperation := mkGCodeOperation {
  type : Z;
  line_number : Z;
  pos : option (list f64);
  data : Data;
}.

Definition plane_number (p : Plane) : Z :=
  match p with XY => 1 | YZ => 2 | XZ => 3 | UV => 4 | VW => 5 | UW => 6 end.
Definition units_number (u : Units) : Z := match u with INCHES => 1 | MM => 2 | CM => 3 end.
Definition mode_number (m : CutterCompensationMode) : Z :=
  match m with OFF => 1 | LEFT => 2 | RIGHT => 3 end.

Definition encode_gcode_position (p : Position) : list f64 :=
  [px p; py p; pz p; pa p; pb p; pc p; pu p; pv p; pw p].
Definition encode_position3 (p : Position3) : list f64 := [p3x p; p3y p; p3z p].

(** The fields that [encode_gcode_operation] sets, by the kind of operation. *)
Definition encode_gcode_operation (op : Operation) : GCodeOperation :=
  let motion line p d :=
    mkGCodeOperation (Parser.getOperationType op) line (Some (encode_gcode_position p)) d in
  let change d := mkGCodeOperation (Parser.getOperationType op) 0 None d in
  match op with
  | TraverseOp line p | FeedOp line p => motion line p NoData
  | ArcOp line p plane d =>
      motion line p (DArc (plane_number plane) (centerFirst d) (centerSecond d)
                       (f64_of_Z (rotation d)) (axisEndPoint d))
  | ProbeOp line p => motion line p DProbe
  | RigidTapOp line p scale =>
      mkGCodeOperation (Parser.getOperationType op) line (Some (encode_position3 p))
        (DRigidTap (encode_position3 p) scale)
  | DwellOp p duration plane => motion 0 p (DDwell duration (plane_number plane))
  | NurbsG5Op line p plane order points =>
      motion line p (DNurbsG5 (plane_number plane) (i32_wrap order)
                       ((fun q => (g5x q, g5y q, weight q)) <$> points))
  | NurbsG6Op line p plane order method points =>
      motion line p (DNurbsG6 (plane_number plane) (i32_wrap order) method
                       ((fun q => (g6x q, g6y q, g6r q, g6k q)) <$> points))
  | UnitsChangeOp u => change (DUnitsChange (units_number u))
  | PlaneChangeOp p => change (DPlaneChange (plane_number p))
  | G5xOffsetOp n p => change (DG5xOffset n (encode_gcode_position p))
  | G92OffsetOp p => change (DG92Offset (encode_gcode_position p))
  | XYRotationOp r => change (DXyRotation r)
  | ToolOffsetOp p => change (DToolOffset (encode_gcode_position p))
  | ToolChangeOp n => change (DToolChange n)
  | FeedRateChangeOp r => change (DFeedRateChange r)
  | CutterCompensationChangeOp m => change (DCutterCompensationChange (mode_number m))
  end.

Definition encode_gcode_extents (e : Extents) : list f64 * list f64 :=
  (encode_position3 (emin e), encode_position3 (emax e)).

(** ** A reader *)
Definition decode_plane (n : Z) : option Plane :=
  match n with
  | 1 => Some XY | 2 => Some YZ | 3 => Some XZ | 4 => Some UV | 5 => Some VW | 6 => Some UW
  | _ => None
  end.
Definition decode_units (n : Z) : option Units :=
  match n with 1 => Some INCHES | 2 => Some MM | 3 => Some CM | _ => None end.
Definition decode_mode (n : Z) : option CutterCompensationMode :=
  match n with 1 => Some OFF | 2 => Some LEFT | 3 => Some RIGHT | _ => None end.
Definition decode_position (l : list f64) : option Position :=
  match l with
  | [x; y; z; a; b; c; u; v; w] => Some (mkPosition x y z a b c u v w)
  | _ => None
  end.
Definition decode_position3 (l : list f64) : option Position3 :=
  match l with [x; y; z] => Some (mkPosition3 x y z) | _ => None end.

(** From the type and the data; positions of the message where the data has none. *)
Definition decode (g : GCodeOperation) : option Operation :=
  let line := line_number g in
  match type g, data g with
  | 1, NoData => p ← pos g ≫= decode_position; Some (TraverseOp line p)
  | 2, NoData => p ← pos g ≫= decode_position; Some (FeedOp line p)
  | 3, DArc plane cf cs r ax =>
      p ← pos g ≫= decode_position; plane ← decode_plane plane; r ← f64_trunc r;
      Some (ArcOp line p plane (mkArcData cf cs r ax))
  | 4, DProbe => p ← pos g ≫= decode_position; Some (ProbeOp line p)
  | 5, DRigidTap q scale => p ← decode_position3 q; Some (RigidTapOp line p scale)
  | 6, DDwell d plane =>
      p ← pos g ≫= decode_position; plane ← decode_plane plane; Some (DwellOp p d plane)
  | 7, DNurbsG5 plane order points =>
      p ← pos g ≫= decode_position; plane ← decode_plane plane;
      Some (NurbsG5Op line p plane (u32_wrap order)
              ((fun q => mkG5Point q.1.1 q.1.2 q.2) <$> points))
  | 8, DNurbsG6 plane order method points =>
      p ← pos g ≫= decode_position; plane ← decode_plane plane;
      Some (NurbsG6Op line p plane (u32_wrap order) method
              ((fun q => mkG6Point q.1.1.1 q.1.1.2 q.1.2 q.2) <$> points))
  | 10, DUnitsChange u => UnitsChangeOp <$> decode_units u
  | 11, DPlaneChange p => PlaneChangeOp <$> decode_plane p
  | 12, DG5xOffset n p => G5xOffsetOp n <$> decode_position p
  | 13, DG92Offset p => G92OffsetOp <$> decode_position p
  | 14, DXyRotation r => Some (XYRotationOp r)
  | 15, DToolOffset p => ToolOffsetOp <$> decode_position p
  | 16, DToolChange n => Some (ToolChangeOp n)
  | 17, DFeedRateChange r => Some (FeedRateChangeOp r)
  | 18, DCutterCompensationChange m => CutterCompensationChangeOp <$> decode_mode m
  | _, _ => None
  end.

(** The fields that are machine integers are in their range. *)
Definition in_range (op : Operation) : Prop :=
  match op with
  | ArcOp _ _ _ d => in_i32 (rotation d)
  | NurbsG5Op _ _ _ order _ | NurbsG6Op _ _ _ order _ _ => in_u32 order
  | _ => True
  end.

Lemma plane_roundtrip p : decode_plane (plane_number p) = Some p.
Proof. by destruct p. Qed.

Lemma position_roundtrip p : decode_position (encode_gcode_position p) = Some p.
Proof. by destruct p. Qed.

Lemma order_roundtrip n : in_u32 n -> u32_wrap (i32_wrap n) = n.
Proof.
  unfold in_u32, u32_wrap, i32_wrap. intros Hn. rewrite Zminus_mod_idemp_l.
  rewrite Z.add_simpl_r. by apply Z.mod_small.
Qed.

(** The protobuf form of a preview operation loses nothing: a reader that looks
    at the type and the data recovers every operation, with the line, the nine
    coordinates, planes, control points and turns. *)
Theorem operation_roundtrip op : in_range op -> decode (encode_gcode_operation op) = Some op.
Proof.
  destruct op as [line p|line p|line p plane [cf cs r ax]|line p|line p scale|p d plane
    |line p plane order points|line p plane order method points|[]|[]|n p|p|r|p|n|r|[]];
    cbn -[decode_position encode_gcode_position u32_wrap i32_wrap f64_of_Z]; intros Hr;
    rewrite ?position_roundtrip, ?plane_roundtrip; try done.
  - rewrite f64_of_Z_exact; [done|]. unfold in_i32 in Hr. lia.
  - by destruct p.
  - cbn -[u32_wrap i32_wrap]. rewrite order_roundtrip, <- list_fmap_compose by done. do 2 f_equal.
    induction points as [|[] ps IH]; [done|]. cbn. by rewrite IH.
  - cbn -[u32_wrap i32_wrap]. rewrite order_roundtrip, <- list_fmap_compose by done. do 2 f_equal.
    induction points as [|[] ps IH]; [done|]. cbn. by rewrite IH.
Qed.

Lemma operation_roundtrip_witness :
  let op := ArcOp 7 (mkPosition f64_one f64_zero f64_zero f64_zero f64_zero f64_zero f64_zero f64_zero f64_zero)
              XZ (mkArcData f64_one f64_zero (-3) f64_one) in
  decode (encode_gcode_operation op) = Some op.
Proof. apply operation_roundtrip. cbn. unfold in_i32. lia. Defined.

End Mapping.

(** * From the recording to the browser *)
Module EndToEnd.
Import Canon.

Section Preview.
Context {Lm : LibM} {L : Parser.Layout}.
(** [ByteSizeLong] of an event with these operations. *)
Variable bytes : list Operation -> Z.

(** The callback that [start_preview] gives to the parser. *)
#[local] Instance preview_callback : Parser.BatchCallback := fun ops =>
  if (Preview.on_batch bytes Preview.max_preview_frame_bytes (S (length ops)) ops).2 then None
  else Some "G-code operation exceeds preview frame byte limit"%string.

(** How the parse ends for the worker. *)
Definition parser_end (r : outcome Exn Parser.ParseResult) : @Preview.ParserEnd Extents :=
  match r with
  | Ok res => Preview.Returned (Parser.cancelled res) (Parser.result_extents res) (Parser.result_count res)
  | Err (ParseError code what line) => Preview.ThrewParseError code what line
  | Err (DomainError what) | Err (OtherException what) => Preview.ThrewException what
  end.

Definition Accepted (s : Parser.St) : Prop :=
  Forall (Preview.batch_sent bytes) (Parser.calls s).

Section Run.
Variable filepath : string.
Variable o : Parser.ParseOptions.
Variable env : Parser.Env.

Lemma accepted_flush : Parser.keeps Accepted (Parser.flushBatch o).
Proof.
  intros s s' a Hs. unfold Parser.flushBatch. cbn zeta.
  destruct (negb (Parser.has_batch o) || bool_decide (operations (Parser.ctx s) = [])) eqn:E0; [by intros [= <- _]|].
  apply orb_false_iff in E0 as [_ E0%bool_decide_eq_false].
  destruct (Parser.flush o (operations (Parser.ctx s)) (token (Parser.ctx s))) as [batches [[rest t]|e]] eqn:E; [|done].
  intros [= <- _]. unfold Parser.flush in E. apply Parser.flush_loop_spec in E as [_ (_ & _ & E)]; [| |done].
  2:{ destruct (operations (Parser.ctx s)); [done|]. case_match; bool_to_prop; cbn; lia. }
  apply Forall_app_2; [done|]. apply Forall_fmap. eapply Forall_impl; [exact E|]. intros b Hb. cbn in *.
  unfold Parser.batch_callback, preview_callback in Hb. by case_match.
Qed.

Lemma accepted_ready : Parser.keeps Accepted (Parser.flushReadyBatch o).
Proof.
  intros s s' a Hs. unfold Parser.flushReadyBatch. case_match; [by intros [= <- _]|]. by apply accepted_flush.
Qed.

Lemma accepted_progress n : Parser.keeps Accepted (Parser.reportProgress o env n).
Proof.
  intros s s' a Hs. unfold Parser.reportProgress. case_match; [by intros [= <- _]|].
  intros [= <- _]. apply Forall_app_2; [done|]. by constructor.
Qed.

Ltac accepted := Parser.run_steps; first
  [ apply accepted_progress | apply accepted_flush | apply accepted_ready
  | by apply Parser.keeps_modify | (intros ? ? ? Hs [= <- _]; exact Hs) | idtac ].

Lemma accepted_lines ls n result : Parser.keeps Accepted (Parser.line_loop o env ls n result).
Proof.
  revert n result. induction ls as [|l ls IH]; intros n result; cbn [Parser.line_loop];
    unfold Parser.take_events; accepted; apply IH.
Qed.

Lemma accepted_body startup : Parser.keeps Accepted (Parser.parse_body filepath o env startup).
Proof.
  unfold Parser.parse_body, Parser.open_program, Parser.close_program, Parser.parse_end, Parser.take_events.
  accepted; apply accepted_lines.
Qed.

(** Only batches that the preview took are behind a parse that returns. *)
Lemma accepted_file : Parser.keeps Accepted (Parser.parse_file filepath o env).
Proof.
  unfold Parser.parse_file, Parser.load_preview_state. accepted.
  intros s s' u Hs H%Parser.cleanup_ok. by apply (accepted_body a2 s s' u).
Qed.

(** C6: The preview is end to end exact: when the parse of a program returns without
    being cancelled, every open session of its preview, however it got where it is,
    reaches a state by sends, handlers and successful writes alone in which the
    browser has received exactly the operations of the whole recording, in order,
    followed by the summary with the number of them. *)
Theorem preview_end_to_end interp path t s' res ops :
  Parser.has_batch o = true ->
  Parser.parse_file filepath o env (Parser.start interp path t) = (s', Ok res) ->
  Parser.cancelled res = false ->
  let sends := Preview.worker bytes true (Parser.calls s') (parser_end (Ok res)) in
  let w := foldl Preview.step (Preview.start_preview true true sends) ops in
  Preview.closed (Preview.socket w) = false -> Preview.closing (Preview.socket w) = false ->
  Preview.close_started (Preview.socket w) = false ->
  exists r es, translate (Parser.taken (Parser.log s')) = Ok r
    /\ Forall (fun a => Preview.fault_free a = true) es
    /\ let w' := foldl Preview.step w es in
       Preview.Delivered sends w'
       /\ Preview.operations_of (Preview.wire (Preview.stages w')) = operations r
       /\ last (Preview.wire (Preview.stages w'))
          = Some (Preview.terminal_message (Preview.EvSummary (Parser.result_extents res)
                    (u64_wrap (Z.of_nat (length (operations r)))))).
Proof.
  intros Hb Hp Hc sends w H1 H2 H3.
  destruct (Parser.parse_file_ok _ _ _ _ _ _ Hp (Parser.streaming_start _ _ _)) as (Hn & _ & H).
  destruct (H Hc Hb) as (r & Hr & [_ E2 E3 _] & Hf). rewrite Hf, app_nil_r in E2.
  destruct (Preview.session_delivers bytes true (Parser.calls s') (parser_end (Ok res)) ops)
    as (es & Hes & _ & Hd & Hops); [cbn; rewrite Hc; congruence|done..|].
  assert (Hacc : Forall (Preview.batch_sent bytes) (Parser.calls s'))
    by (by eapply accepted_file; [|exact Hp]; constructor).
  exists r, es. split; [done|]. split; [done|]. cbn zeta. split; [done|]. split.
  - rewrite <- E2. by apply Hops.
  - pose proof (f_equal last (proj1 Hd)) as Hl. rewrite !Preview.last_squash in Hl.
    etrans; [exact Hl|]. unfold Preview.worker.
    destruct (Preview.worker_calls_end bytes _ (parser_end (Ok res)) Hacc) as [body ->].
    cbn [parser_end]. rewrite Hc. cbn [Preview.finish]. by rewrite last_snoc, Hn, E3.
Qed.

End Run.
End Preview.

#[local] Existing Instances Parser.sample_libm Parser.sample_layout.

Definition sample_bytes (ops : list Operation) : Z := 100 * Z.of_nat (length ops).

Definition sample_run : Parser.St * outcome Exn Parser.ParseResult :=
  Parser.parse_file (B := preview_callback sample_bytes) "part.ngc" Parser.sample_options
    Parser.sample_env (Parser.start false "" []).

Definition sample_result : Parser.ParseResult :=
  match sample_run.2 with Ok r => r | Err _ => Parser.mkResult Parser.zero_extents 0 true end.

Lemma preview_end_to_end_witness :
  exists r es,
    translate (Parser.taken (Parser.log sample_run.1)) = Ok r
    /\ Preview.operations_of (Preview.wire (Preview.stages (foldl Preview.step
         (foldl Preview.step
            (Preview.start_preview true true (Preview.worker sample_bytes true
               (Parser.calls sample_run.1) (parser_end (Ok sample_result))))
            [Preview.WorkerSends; Preview.HandlerRuns]) es))) = operations r.
Proof.
  destruct (preview_end_to_end sample_bytes "part.ngc" Parser.sample_options Parser.sample_env
    false "" [] sample_run.1 sample_result [Preview.WorkerSends; Preview.HandlerRuns])
    as (r & es & H1 & _ & _ & H2 & _); [vm_compute; reflexivity..|].
  exists r, es. split; [exact H1|exact H2].
Defined.

End EndToEnd.
